(* ===== verification/_CoqProject ===== *)
-Q . S2P
Prelude.v
Serde.v
GxShape.v
GxWire.v
GxFrame.v
GxHash.v
GxEngine.v
GxFile.v
AetherAddress.v
AetherEnvelope.v
AetherRouter.v
AetherBus.v
Lww.v
FnCrypto.v
FnTypes.v
FnWire.v
FnCustody.v
FnMessages.v
Journal.v
HomeLedger.v
HomeLaws.v
HomeGrowth.v
HomeApi.v
HomeProtocol.v
HomeApiLaws.v
HomeServe.v
HomeServeLaws.v
PolicyJob.v
CustodyArchive.v
HomeCustody.v
CustodyLaws.v
HomeStage.v
StageLaws.v
HomeBus.v
HomeBusLaws.v
Sigil.v
F32.v
BestiaryWire.v
Resolver.v
Die.v
Abode.v
Locator.v
LocatorLaws.v
BlobFs.v
BlobLaws.v
Registry.v
RegistryLaws.v
Seer.v
Federator.v
FederatorLaws.v
Admission.v
Immune.v
Selector.v
DefenceLaws.v
Placement.v
PredicateLaws.v
Advertiser.v
Distributor.v
DistributorLaws.v
Migrator.v
MigratorLaws.v
NetAddr.v
Transport.v
TransportLaws.v
MeshLaws.v
ExecLedger.v
Executor.v
ExecServe.v
ExecSample.v
ExecLaws.v
ExecOnce.v
ExecInv.v
ExecReplay.v
ExecSteady.v
ExecRecover.v
ExecFence.v
