(* ===== verification/Prelude.v ===== *)
(** * Alpha: a verification development

    Alpha is a Rust workspace: creatures (loadable agents) on a message bus, a
    chunked transfer protocol, and a contract for durable asynchronous function
    jobs. This library models the parts that carry its guarantees and proves
    that they keep them. Definitions follow the source function by function and
    are executable; paths below are relative to the repository.

    ** The program and the files that model it

    - Transfers, [foundation/gawdxfer]. A sender cuts an object into chunks along
      a [TransferPlan] and frames them; a receiver accepts frames in any order,
      checks lengths and hashes, and hands the object over when it is complete.
      [GxShape] and [GxWire] hold the messages with their [shape_error] guards,
      [GxFrame] the binary frame codec, [GxHash] the streaming hash loops,
      [GxEngine] the plan and the in-memory receiver, [GxFile] the file-backed
      receiver, whose system calls may fail at any point.
    - The bus, [cosmos/aether]. Creatures hold handles that seal dispatches into
      envelopes; the router checks capabilities, stamps, journals and delivers
      them into bounded inboxes. [AetherAddress], [AetherEnvelope],
      [AetherRouter] and [AetherBus] follow the modules of the same names.
      Concurrency is an arbitrary sequence of critical sections
      ([AetherBus.Action], [AetherBus.run]).
    - The reference merge model, [merge-lww-map]: [Lww].
    - The function contract, [foundation/gawdfn]. [FnCrypto] has canonical JSON
      and signed records, [FnTypes] the identities and values, [FnWire] the
      messages and the authority chain that roots a Home's epoch key,
      [FnCustody] the second half of the custody handover, and [FnMessages] the
      dispatch, call, query and page messages and the message enums.
    - The Function Home, [cosmos/creatures/function-home]: the single authority
      over a set of jobs. [Journal] is its signed hash-chained log on a disk that
      can crash. [HomeLedger] is the ledger record, the job state it is replayed
      into and [persist_and_apply], which joins the two. [HomeApi] has the public
      operations (submit, grant, receipts, controls, placement, retries,
      children), [HomeServe] the readers, the pages, the recovery sweep and the
      handlers of job messages. [HomeLaws], [HomeGrowth], [HomeProtocol],
      [HomeApiLaws] and [HomeServeLaws] prove their laws.
    - Custody, the handoff of a Home to another node. [CustodyArchive] is the
      checkpoint archive and its rewrap inventory, [HomeCustody] the custody
      journal and the source side, [HomeStage] snapshot installation, staging and
      activation at the destination and the opening of a Home, [HomeBus] the bus
      side of both ([FunctionHome_handle], [destination_handle]). [CustodyLaws],
      [StageLaws] and [HomeBusLaws] prove their laws.
    - The executor, [cosmos/creatures/function-executor]: it claims granted
      attempts, calls the function and reports the stages. [ExecLedger] is its
      ledger, replay and fences, [Executor] the operations and crash recovery,
      [ExecServe] the sweep, the handlers and the binding. [ExecLaws] says how
      each operation runs, [ExecOnce] that calls are not repeated, [ExecInv],
      [ExecReplay] and [ExecSteady] carry the invariant of ledger and journal,
      [ExecRecover] and [ExecFence] prove what recovery and fences give;
      [ExecSample] is the concrete executor the witnesses run.
    - The reference job policy, [policy-job-basic]: [PolicyJob], proved against
      the Home operations that apply its decisions.
    - Finding things. [Locator] is the index of Home leases of
      [cosmos/creatures/function-locator], its snapshot file and its handler, and
      [LocatorLaws] its laws; [Resolver] is [function-resolver], which pins a
      selected entrypoint to the artifact that the registry's rows name; [Sigil]
      has the manifests those rows carry, their validator and content address,
      and the keys of [cosmos/sigil].
    - The self of an agent. [Abode] has the signed snapshots of [cosmos/abode],
      the payload framing of [abode-migrator] and the whole [abode-reconciler],
      which merges two forks of one self through the merge model; [Migrator] is the
      acknowledged hand-off of [abode-migrator], with its laws in [MigratorLaws].
    - Artifacts. [BlobFs] is [job-blob-fs], the content-addressed blob store of jobs
      on a file system that can fail, with [BlobLaws]. [BestiaryWire] has the
      registry messages of [cosmos/bestiary], and [Registry] the in-memory registry
      [registry-mem] with its chunked uploads and downloads, with [RegistryLaws].
      [F32] is the arithmetic of single-precision scores.
    - Questions. [Seer] has the query envelopes of [cosmos/seer] that the federation
      uses, [Placement] its predicate language, the placement bodies and the
      responder skeleton, with [PredicateLaws]. [Advertiser] is
      [embodiment-advertiser] and [Distributor] [distributor-requirements], which
      asks the advertisers where an Intent can go; [DistributorLaws] has their laws.
    - Federation of registries across realms: [Federator] is [omega-federator], with
      [FederatorLaws].
    - Admission, selection and defence. [Admission] has the admission and quarantine
      policies, [Immune] is [immune-response], [Selector] is [fitness-selector]; the
      laws of the three are in [DefenceLaws].
    - The links between nodes. [Transport] is [transport-tcp]: membership, gossip,
      the handshake, the frames of a link and what becomes of them on the local bus;
      [NetAddr] is the part of the standard library's address parser it uses.
      [TransportLaws] has the laws of handshakes and byte streams, [MeshLaws] those
      of histories of the whole transport.
    - [Die] is [cosmos/creatures/verifiable-die], a pick by commit and reveal.

    This file has what they share: [result] and [option] as the error types with
    their notation, the state-and-error monad [stateR], guard chains,
    machine-width arithmetic, byte and string helpers, decimal and hex digits,
    and the tactics [inv_result], [to_prop] and the like. [Serde] states what the
    models use of [serde_json].

    ** Correspondence

    A struct is a Record whose fields carry the struct's initials, an enum an
    Inductive, a method a Definition named after it (with the type in front where
    two types share a method name). [Result] is [result]; a panic is [None];
    [&mut] becomes state passing, with the state that a failing call leaves
    behind. Integers are [N] with the wrap-around, saturation or check of the
    operator used in the source ([u64_add], [usize_checked_add], ...). Maps are
    [gmap], vectors lists.

    What comes from other crates or from the system is an argument: SHA-256
    ([GxHash.Sha256]), ed25519 ([FnCrypto.Ed25519]), JSON ([Serde.SerdeJson],
    [FnCrypto.JsonText], [FnCrypto.ToValue] and the classes of serialisers), the
    results of every file operation, and what a crash keeps. [Path::exists] is false
    when the stat fails, and the models of the journals, of the metadata files and of the
    locator take the result of each stat ([Journal.found]); where a theorem needs stats
    that succeed it says so. Theorems that need a
    law of such an argument take it as a class ([SerdeRoundTrip], [ShaStreaming],
    [JsonTextLaws], [Ed25519Keys], and [ExactRoundTrip] for values in which a float could
    come back rounded); every law class has a concrete instance with
    which the witnesses evaluate. Collision resistance is never assumed: the
    theorems that rest on it conclude "or the hash collides".

    ** What the theorems show

    - Transfers: any order and repetition of the chunks rebuilds the object;
      whatever arrives, a finished object has the planned size and hash; resuming
      with the missing chunks completes; the file receiver refines the in-memory
      one and never replaces a file by an unverified one; the frame codec round
      trips and refuses malformed prefixes; streaming hashes equal one-shot ones.
    - Bus: capabilities grant exactly what they name; inboxes, history and topics
      are bounded and stamps unique in every interleaving; a removed creature is
      unreachable; senders and origins cannot be forged; remote roles are exposed
      only explicitly; one sender's messages to one creature keep their order.
    - Merge: replicas that see the same forks converge.
    - Contract: canonical JSON identifies values up to key order; a signature
      commits to schema, signer and payload; an accepted authority descends from
      the Home's root, one handover per epoch; verified events, acknowledgements
      and staged handovers are what they claim to be.
    - Home: after a crash at any point of an append the journal reopens with or
      without the new record, or refuses a torn log or a head without its log, and the
      tip commits to the history; a record is persisted and applied as one
      transaction, the preflight on the shadow state being exact; the counters
      are exact, jobs follow their state machine, and the journal keeps a slot
      for every promised record. Every sequence of calls refines the protocol of
      allowed records; submissions and receipts are idempotent, deliveries
      bounded, cancellation final; private reads are authorised; reading events
      by cursor terminates and a recovery sweep visits every obligation.
    - Custody: a fenced source is inert, on the bus too, for good; a custody state
      is backed by verified documents; the destination waits for its lease; when
      it can write, the source cannot; an installed snapshot opens as the chain it
      was taken from, and replaces no log that its stat finds; a fence that the signer
      refused is skipped by every retry that succeeds.
    - Executor: one call per attempt over any history of messages, failures and
      restarts that find the records appended before; memory is the replay of the journal and reserved records always
      fit; a restart closes the calls it cannot know about; a superseded Home
      stays out; the recovery sweep ends.
    - Policy: the placements of the reference policy are ones the Home applies.
    - Locator, resolver and manifests: an accepted lease is never contradicted
      later, whatever writes fail, and a restart whose stat succeeds loses none; a
      resolution finds a function exactly when the catalogue pins it, and its errors say
      what was missing; the manifests that parse are those that keep every rule of the
      format, and a content address names its manifest.
    - Abode and die: forks of one self merged last-writer-wins converge to one snapshot
      that passes the gates again; a self moves only on an answer to its challenge,
      signed over the state it holds unless unsigned answers are allowed, and each end of
      a delivered hand-off is described; a committed roll is revealed,
      verifies and is the only one that does.
    - Artifacts: a stored blob is what its name hashes, survives whatever fails
      later, and the store stays within its quota; a registry row's artifact hashes to
      the key it is filed under, each message changes exactly the row it names, and a
      transfer delivers the artifact.
    - Placement: every Intent is settled, by a placement at an advertiser that
      offered itself or by a refusal with its reason; predicates round trip through
      their text.
    - Federation: a delivered pull converges to the peer's rows, and every registry
      operation of a federator is justified by the message it handles, which it accepted
      or passes on to the peer of a mapped realm.
    - Admission and defence: what a signed policy admits was authored by a trusted
      key; markers come from trusted peers; faults quarantine; promotions stay
      admissible.
    - Transport: two honest nodes link up and a link rests on a received signature over
      this node's nonce, but the signature can be had from the peer's own listener, so
      that a stranger can be linked in its place; frames survive any cutting of the
      stream that spares the length prefixes; an envelope arrives with its contents in
      its node's name and never at the kernel, and none twice in a session with its peer,
      whatever happens with the others; tables and
      queues stay bounded; gossip that agrees settles; a forgotten peer cannot dial
      in, but is dialed again.

    ** Bounds

    Loops are structural on the data they consume (the chunk list, the log's
    lines, the event list), and the mutual recursion of the authority chain is
    structural on the chain. The two read loops of [GxHash] take fuel, one more
    than the bytes left to read: every successful read delivers at least one
    byte, and the theorems show that the loop returns with that much. The sweep
    loop of the executor takes one more than the receipts that remain: every
    turn takes one of them; the reader of a link takes one more than the events of
    its socket, of which every turn takes one. The theorems about the bus bound the number of
    actions by [2^64], below which the clock and the identifiers do not wrap.

    ** What is not modelled

    Operations of a Home and of an executor run one at a time, as their locks
    make them; the threads that wait for the locks are not modelled. Injected
    services (clock, signer, resolver, capability checks, blob store, key
    rewrapper) are functions of their arguments, except the liveness of a
    creature, which may change with every question. A crash is modelled for the
    journals; the metadata files of a handoff have failing system calls but no
    torn writes, and a log that an installation replaced after a failed stat does not
    come back. The histories of an executor start from a journal whose later
    receipts never say Claimed again, which every history keeps. Thread wake-ups
    and the FFI layout of the bus are left out.

    A crash of the locator keeps either of the snapshots around its last rename.
    The entropy source, the merge model and the catalogue are injected.

    The threads of a transport take turns in critical sections, in any order; its
    accept loop, the backoff of its dialers and the joining of its threads at shutdown
    are left out. The order in which a hash map is iterated is an argument.

    Not modelled: the SQLite store and the daemon of the bestiary, which are queries
    to a database; the federation scheduler, a timer; the realm and omega gateways, the
    reference distributors, scorers, responders and fixtures, which are small fillings
    of sockets; the budget and origin policies; the other topics of SEER and the omni
    control vocabulary; the kernel and its loaders, the model seam, the build and
    authoring creatures and the front ends, which run third-party code or do I/O. *)

From Stdlib Require Export NArith Lia.
From Stdlib Require Import Decidable.
From Stdlib Require Import Strings.Byte.
From stdpp Require Export base strings pretty gmap numbers list.

Open Scope N_scope.

(** * Results

    Rust's [Result<A, E>]; the error type comes first so that [result E] is a
    functor and stdpp's [x ← e; k] is the [?] operator. *)

Inductive result (E A : Type) : Type :=
  | Ok (a : A)
  | Err (e : E).
Arguments Ok {E A} a.
Arguments Err {E A} e.

#[export] Instance result_ret {E} : MRet (result E) := fun A a => Ok a.
#[export] Instance result_bind {E} : MBind (result E) :=
  fun A B f m => match m with Ok a => f a | Err e => Err e end.
#[export] Instance result_fmap {E} : FMap (result E) :=
  fun A B f m => match m with Ok a => Ok (f a) | Err e => Err e end.

Definition map_err {E F A} (f : E → F) (m : result E A) : result F A :=
  match m with Ok a => Ok a | Err e => Err (f e) end.

Definition ok_or {E A} (o : option A) (e : E) : result E A :=
  match o with Some a => Ok a | None => Err e end.

Definition is_ok {E A} (m : result E A) : bool :=
  match m with Ok _ => true | Err _ => false end.

#[export] Instance result_eq_dec {E A} `{!EqDecision E, !EqDecision A} :
  EqDecision (result E A).
Proof. solve_decision. Defined.

Lemma bind_Ok {E A B} (m : result E A) (f : A → result E B) b :
  (m ≫= f) = Ok b ↔ ∃ a, m = Ok a ∧ f a = Ok b.
Proof. destruct m; cbn; naive_solver. Qed.

Lemma bind_Err {E A B} (m : result E A) (f : A → result E B) e :
  (m ≫= f) = Err e ↔ m = Err e ∨ ∃ a, m = Ok a ∧ f a = Err e.
Proof. destruct m; cbn; naive_solver. Qed.

Lemma map_err_Ok {E F A} (f : E → F) (m : result E A) a :
  map_err f m = Ok a ↔ m = Ok a.
Proof. destruct m; cbn; naive_solver. Qed.

Lemma ok_or_Ok {E A} (o : option A) (e : E) a : ok_or o e = Ok a ↔ o = Some a.
Proof. destruct o; cbn; naive_solver. Qed.

(** * Stateful fallible code

    A method that takes [&mut self] and returns a [Result]: it returns the state
    it leaves behind, also when it fails half way. *)

Definition stateR (S E A : Type) : Type := S → result E A * S.

#[export] Instance stateR_ret {S E} : MRet (stateR S E) := fun A a s => (Ok a, s).
#[export] Instance stateR_bind {S E} : MBind (stateR S E) :=
  fun A B f m s =>
    match m s with
    | (Ok a, s') => f a s'
    | (Err e, s') => (Err e, s')
    end.

Definition lift_result {S E A} (r : result E A) : stateR S E A := fun s => (r, s).
Definition gets {S E A} (f : S → A) : stateR S E A := fun s => (Ok (f s), s).
Definition modify {S E} (f : S → S) : stateR S E unit := fun s => (Ok tt, f s).

Lemma stateR_bind_Ok {S E A B} (m : stateR S E A) (f : A → stateR S E B) s b s'' :
  (m ≫= f) s = (Ok b, s'') ↔ ∃ a s', m s = (Ok a, s') ∧ f a s' = (Ok b, s'').
Proof.
  unfold mbind, stateR_bind. destruct (m s) as [[a|e] s']; split; naive_solver.
Qed.

(** * Guard chains

    [if let Some(error) = check { return Some(error) }; rest] of the
    [shape_error] functions. *)

Definition or_error (check : option string) (rest : option string) : option string :=
  match check with Some e => Some e | None => rest end.

Declare Scope alpha_scope.
Delimit Scope alpha_scope with alpha.
Notation "c ;;? k" := (or_error c k)
  (at level 100, k at level 200, right associativity) : alpha_scope.
Open Scope alpha_scope.

Lemma or_error_None c k : or_error c k = None ↔ c = None ∧ k = None.
Proof. destruct c; cbn; naive_solver. Qed.

(** [if cond { return Some(msg) }]. *)
Definition reject_if (cond : bool) (msg : string) : option string :=
  if cond then Some msg else None.

Lemma reject_if_None c m : reject_if c m = None ↔ c = false.
Proof. destruct c; cbn; naive_solver. Qed.

(** * Machine integers

    [u8], [u32], [u64] and [usize] (a 64-bit target) are [N]; the operations
    that can overflow are written out. *)

Definition u8_MAX : N := 255.
Definition u32_MAX : N := 4294967295.
Definition u64_MAX : N := 18446744073709551615.
Definition usize_MAX : N := u64_MAX.

(** [u64] [+] and [*] in a release build: wrap-around modulo [2^64]. *)
Definition u64_add (a b : N) : N := (a + b) mod (u64_MAX + 1).
Definition u64_mul (a b : N) : N := (a * b) mod (u64_MAX + 1).

Definition usize_checked_add (a b : N) : option N :=
  if decide (a + b ≤ usize_MAX) then Some (a + b) else None.
Definition usize_checked_sub (a b : N) : option N :=
  if decide (b ≤ a) then Some (a - b) else None.

(** [uN::try_from]. *)
Definition try_from (max : N) (n : N) : option N :=
  if decide (n ≤ max) then Some n else None.

(** [u64::div_ceil]. *)
Definition div_ceil (a b : N) : N := (a + b - 1) / b.

Lemma u64_add_exact a b : a + b ≤ u64_MAX → u64_add a b = a + b.
Proof. intros. apply N.mod_small. lia. Qed.
Lemma u64_mul_exact a b : a * b ≤ u64_MAX → u64_mul a b = a * b.
Proof. intros. apply N.mod_small. lia. Qed.
Lemma try_from_Some max n m : try_from max n = Some m ↔ n = m ∧ n ≤ max.
Proof. unfold try_from. case_decide; naive_solver. Qed.

Lemma usize_checked_add_Some a b c :
  usize_checked_add a b = Some c ↔ a + b = c ∧ c ≤ usize_MAX.
Proof. unfold usize_checked_add. case_decide; naive_solver. Qed.
Lemma usize_checked_sub_Some a b c :
  usize_checked_sub a b = Some c ↔ b ≤ a ∧ a - b = c.
Proof. unfold usize_checked_sub. case_decide; naive_solver. Qed.

Lemma div_ceil_spec a b q :
  0 < a → 0 < b → (div_ceil a b = q ↔ (q - 1) * b < a ∧ a ≤ q * b ∧ 0 < q).
Proof.
  intros Ha Hb. unfold div_ceil.
  pose proof (N.div_mod' (a + b - 1) b) as Hd.
  pose proof (N.mod_lt (a + b - 1) b ltac:(lia)) as Hr.
  generalize dependent ((a + b - 1) mod b). intros r Hd Hr.
  generalize dependent ((a + b - 1) / b). intros d Hd. split.
  - intros <-. assert (d ≠ 0) by (intros ->; rewrite N.mul_0_r in Hd; lia). nia.
  - intros (H1 & H2 & H3). nia.
Qed.

(** * Strings and bytes

    A Rust [String] is its UTF-8 byte sequence, one [ascii] per byte; [len] is
    the number of bytes. *)

Definition slen (s : string) : N := N.of_nat (String.length s).
Abbreviation bytes := (list Byte.byte).
Definition blen (b : bytes) : N := N.of_nat (length b).
Lemma blen_app (a b : bytes) : blen (a ++ b) = blen a + blen b.
Proof. unfold blen. rewrite length_app. lia. Qed.

#[export] Instance byte_eq_dec : EqDecision Byte.byte := Byte.byte_eq_dec.

(** [uN::to_be_bytes] and [uN::from_be_bytes] on [k] bytes. *)
Definition byte_of_N (n : N) : Byte.byte :=
  match Byte.of_N (n mod 256) with Some b => b | None => Byte.x00 end.

Fixpoint be_bytes (k : nat) (n : N) : bytes :=
  match k with
  | O => []
  | S k => be_bytes k (n / 256) ++ [byte_of_N n]
  end.

Definition be_value (b : bytes) : N := fold_left (fun a x => a * 256 + Byte.to_N x) b 0.

Lemma byte_of_to_N (b : Byte.byte) : byte_of_N (Byte.to_N b) = b.
Proof. by destruct b. Qed.

Lemma to_N_byte_of_N n : Byte.to_N (byte_of_N n) = n mod 256.
Proof.
  unfold byte_of_N. destruct (Byte.of_N (n mod 256)) as [b|] eqn:E.
  - by apply Byte.to_of_N in E.
  - apply Byte.of_N_None_iff in E. pose proof (N.mod_lt n 256). lia.
Qed.

Lemma length_be_bytes k n : length (be_bytes k n) = k.
Proof. revert n. induction k as [|k IH]; intros n; cbn; [done|]. rewrite length_app, IH. cbn. lia. Qed.

Lemma be_value_be_bytes k n : n < 256 ^ N.of_nat k → be_value (be_bytes k n) = n.
Proof.
  revert n. induction k as [|k IH]; intros n Hn; cbn [be_bytes].
  - cbn in *. lia.
  - unfold be_value in *. rewrite fold_left_app. cbn [fold_left].
    rewrite IH, to_N_byte_of_N.
    + pose proof (N.div_mod' n 256). lia.
    + apply N.Div0.div_lt_upper_bound. by rewrite <-N.pow_succ_r', <-Nat2N.inj_succ.
Qed.

Fixpoint all_bytes (p : N → bool) (s : string) : bool :=
  match s with
  | EmptyString => true
  | String c s => p (Ascii.N_of_ascii c) && all_bytes p s
  end.

(** [str::contains(c)] for an ASCII character [c]. *)
Definition contains_char (c : Ascii.ascii) (s : string) : bool :=
  negb (all_bytes (fun b => negb (N.eqb b (Ascii.N_of_ascii c))) s).

(** [u8::is_ascii_graphic], [is_ascii_digit], and the lowercase-hex class. *)
Definition in_range (lo hi b : N) : bool := (lo <=? b) && (b <=? hi).
Definition is_ascii_graphic (b : N) : bool := in_range 33 126 b.
Definition is_ascii_digit (b : N) : bool := in_range 48 57 b.
Definition is_lower_hex (b : N) : bool := in_range 48 57 b || in_range 97 102 b.

Lemma all_bytes_app p s t : all_bytes p (s +:+ t) = all_bytes p s && all_bytes p t.
Proof. induction s as [|c s IH]; simpl; [done|]. by rewrite IH, andb_assoc. Qed.

Lemma all_bytes_impl p q s :
  (∀ b, p b = true → q b = true) → all_bytes p s = true → all_bytes q s = true.
Proof.
  intros Himp. induction s as [|c s IH]; cbn; [done|].
  rewrite !andb_true_iff. naive_solver.
Qed.

Lemma string_length_append s t :
  String.length (s +:+ t) = (String.length s + String.length t)%nat.
Proof. induction s as [|c s IH]; simpl; [done|]. by rewrite IH. Qed.

Lemma slen_app s t : slen (s +:+ t) = slen s + slen t.
Proof. unfold slen. rewrite string_length_append. lia. Qed.

Lemma slen_0 s : slen s = 0 ↔ s = "".
Proof. destruct s; unfold slen; cbn; [naive_solver|]. split; [lia|done]. Qed.

Lemma string_append_cons c s t : String c s +:+ t = String c (s +:+ t).
Proof. done. Qed.

Lemma string_append_assoc s t u : (s +:+ t) +:+ u = s +:+ (t +:+ u).
Proof. induction s as [|c s IH]; [done|]. by rewrite !string_append_cons, IH. Qed.

Lemma contains_char_app c s t :
  contains_char c (s +:+ t) = contains_char c s || contains_char c t.
Proof. unfold contains_char. by rewrite all_bytes_app, negb_andb. Qed.

Lemma all_bytes_no_char p c s :
  p (Ascii.N_of_ascii c) = false → all_bytes p s = true → contains_char c s = false.
Proof.
  intros Hp Hs. unfold contains_char. apply negb_false_iff.
  eapply all_bytes_impl; [|exact Hs]. intros b Hb. apply negb_true_iff.
  destruct (N.eqb_spec b (Ascii.N_of_ascii c)) as [->|]; congruence.
Qed.

(** ** Byte order on strings: [str]'s [<=]. *)

Fixpoint str_leb (s t : string) : bool :=
  match s, t with
  | EmptyString, _ => true
  | String _ _, EmptyString => false
  | String a s, String b t =>
      match N.compare (Ascii.N_of_ascii a) (Ascii.N_of_ascii b) with
      | Lt => true
      | Gt => false
      | Eq => str_leb s t
      end
  end.

Lemma N_of_ascii_inj a b : Ascii.N_of_ascii a = Ascii.N_of_ascii b → a = b.
Proof.
  intros E. rewrite <-(Ascii.ascii_N_embedding a), <-(Ascii.ascii_N_embedding b). by f_equal.
Qed.

Lemma str_leb_total s t : str_leb s t = true ∨ str_leb t s = true.
Proof.
  revert t. induction s as [|a s IH]; intros [|b t]; cbn; auto.
  rewrite (N.compare_antisym (Ascii.N_of_ascii a)). destruct (N.compare _ _); cbn; auto.
Qed.

Lemma str_leb_antisym s t : str_leb s t = true → str_leb t s = true → s = t.
Proof.
  revert t. induction s as [|a s IH]; intros [|b t]; cbn; try done.
  rewrite (N.compare_antisym (Ascii.N_of_ascii a)).
  destruct (N.compare_spec (Ascii.N_of_ascii a) (Ascii.N_of_ascii b)) as [E| |]; cbn; try done.
  intros H1 H2. by rewrite (N_of_ascii_inj a b E), (IH t H1 H2).
Qed.

Lemma str_leb_trans s t u : str_leb s t = true → str_leb t u = true → str_leb s u = true.
Proof.
  revert t u. induction s as [|a s IH]; intros [|b t] [|c u]; cbn; try done.
  destruct (N.compare_spec (Ascii.N_of_ascii a) (Ascii.N_of_ascii b)),
    (N.compare_spec (Ascii.N_of_ascii b) (Ascii.N_of_ascii c)),
    (N.compare_spec (Ascii.N_of_ascii a) (Ascii.N_of_ascii c)); try done; try lia.
  apply IH.
Qed.

Definition str_le (s t : string) : Prop := str_leb s t = true.
#[export] Instance str_le_dec : RelDecision str_le.
Proof. intros s t. unfold str_le. apply _. Defined.
#[export] Instance str_le_total : Total str_le.
Proof. exact str_leb_total. Qed.
#[export] Instance str_le_trans : Transitive str_le.
Proof. exact str_leb_trans. Qed.
#[export] Instance str_le_antisymm : AntiSymm (=) str_le.
Proof. exact str_leb_antisym. Qed.

(** The bytes of a string literal. *)
Definition bytes_of_string (s : string) : bytes := String.list_byte_of_string s.

(** ** Decimal rendering: [{}] of an unsigned integer. *)

Definition dec (n : N) : string := pretty n.

#[export] Instance dec_inj : Inj (=) (=) dec.
Proof. apply pretty_N_inj. Qed.

Lemma pretty_N_char_digit x : is_ascii_digit (Ascii.N_of_ascii (pretty_N_char x)) = true.
Proof. unfold pretty_N_char. by repeat case_match. Qed.

Lemma pretty_N_go_digits x s :
  all_bytes is_ascii_digit s = true → all_bytes is_ascii_digit (pretty_N_go x s) = true.
Proof.
  revert s. induction (N.lt_wf_0 x) as [x _ IH]; intros s Hs.
  destruct (decide (0 < x)) as [Hx|Hx]; [|by replace x with 0 by lia].
  rewrite pretty_N_go_step by done. apply IH; [by apply N.div_lt|].
  change (is_ascii_digit (Ascii.N_of_ascii (pretty_N_char (x mod 10)))
          && all_bytes is_ascii_digit s = true).
  by rewrite pretty_N_char_digit, Hs.
Qed.

Lemma dec_digits n : all_bytes is_ascii_digit (dec n) = true.
Proof.
  unfold dec, pretty, pretty_N. case_decide; [done|]. by apply pretty_N_go_digits.
Qed.

Lemma pretty_N_go_slen k x s :
  x < 10 ^ N.of_nat k → slen (pretty_N_go x s) ≤ N.of_nat k + slen s.
Proof.
  revert x s. induction k as [|k IH]; intros x s Hx.
  - replace x with 0 by (cbn in Hx; lia). rewrite pretty_N_go_0. lia.
  - destruct (decide (0 < x)) as [Hx0|Hx0];
      [|replace x with 0 by lia; rewrite pretty_N_go_0; lia].
    rewrite pretty_N_go_step by done.
    assert (x / 10 < 10 ^ N.of_nat k) as Hd.
    { apply N.Div0.div_lt_upper_bound. rewrite <-N.pow_succ_r'. by rewrite <-Nat2N.inj_succ. }
    etrans; [by apply IH|]. unfold slen. cbn [String.length]. lia.
Qed.

Lemma slen_dec k n : (0 < k)%nat → n < 10 ^ N.of_nat k → slen (dec n) ≤ N.of_nat k.
Proof.
  intros Hk Hn. unfold dec, pretty, pretty_N. case_decide.
  - unfold slen. cbn. lia.
  - etrans; [by apply (pretty_N_go_slen k)|]. unfold slen. cbn. lia.
Qed.

Lemma pretty_N_go_nonempty x s : s ≠ "" → pretty_N_go x s ≠ "".
Proof.
  revert s. induction (N.lt_wf_0 x) as [x _ IH]; intros s Hs.
  destruct (decide (0 < x)) as [Hx|Hx]; [|by replace x with 0 by lia].
  rewrite pretty_N_go_step by done. apply IH; [by apply N.div_lt|done].
Qed.

Lemma dec_nonempty n : dec n ≠ "".
Proof.
  unfold dec, pretty, pretty_N. case_decide; [done|].
  rewrite pretty_N_go_step by lia. by apply pretty_N_go_nonempty.
Qed.

(** ** [str::split(c)] for a one-byte separator. *)

Fixpoint split_on (c : Ascii.ascii) (s : string) : list string :=
  match s with
  | EmptyString => [EmptyString]
  | String a s' =>
      if decide (a = c) then EmptyString :: split_on c s'
      else match split_on c s' with
           | p :: ps => String a p :: ps
           | [] => [String a EmptyString]
           end
  end.

Lemma contains_char_cons c a s :
  contains_char c (String a s) = bool_decide (a = c) || contains_char c s.
Proof.
  unfold contains_char. cbn [all_bytes]. rewrite negb_andb, negb_involutive. f_equal.
  destruct (N.eqb_spec (Ascii.N_of_ascii a) (Ascii.N_of_ascii c)) as [E|E];
    case_bool_decide as E'; try done; [|congruence].
  destruct E'. rewrite <-(Ascii.ascii_N_embedding a), <-(Ascii.ascii_N_embedding c).
  by f_equal.
Qed.

Lemma split_on_last c s : contains_char c s = false → split_on c s = [s].
Proof.
  induction s as [|a s IH]; [done|]. rewrite contains_char_cons.
  intros [Ha Hs]%orb_false_iff. cbn. apply bool_decide_eq_false_1 in Ha.
  rewrite decide_False by done. by rewrite (IH Hs).
Qed.

Lemma split_on_cons c s t :
  contains_char c s = false → split_on c (s +:+ String c t) = s :: split_on c t.
Proof.
  induction s as [|a s IH].
  { intros _. change ("" +:+ String c t) with (String c t). cbn [split_on].
    by rewrite decide_True. }
  rewrite contains_char_cons. intros [Ha Hs]%orb_false_iff.
  apply bool_decide_eq_false_1 in Ha. rewrite string_append_cons. cbn [split_on].
  rewrite decide_False by done. by rewrite (IH Hs).
Qed.

Lemma split_on_join c s : String.concat (String c "") (split_on c s) = s.
Proof.
  induction s as [|a s IH]; [done|]. cbn [split_on]. case_decide as E.
  - subst. destruct (split_on c s) as [|p ps] eqn:Es.
    + destruct s; cbn in Es; repeat case_match; done.
    + change (String.concat (String c "") ("" :: p :: ps))
        with ("" +:+ String c "" +:+ String.concat (String c "") (p :: ps)).
      by rewrite IH.
  - destruct (split_on c s) as [|p [|q ps]] eqn:Es.
    + destruct s; cbn in Es; repeat case_match; done.
    + cbn in IH |- *. by subst.
    + change (String.concat (String c "") (String a p :: q :: ps))
        with (String a (String.concat (String c "") (p :: q :: ps))). by rewrite IH.
Qed.

(** Concatenations that a separator or a length prefix takes apart. *)
Lemma append_sep_inj c s t u v :
  contains_char c s = false → contains_char c u = false →
  s +:+ String c t = u +:+ String c v → s = u ∧ t = v.
Proof.
  intros Hs Hu E. apply (f_equal (split_on c)) in E. rewrite !split_on_cons in E by done.
  injection E as -> E. split; [done|].
  rewrite <-(split_on_join c t), <-(split_on_join c v). by f_equal.
Qed.

Lemma append_length_inj s t u v :
  slen s = slen u → s +:+ t = u +:+ v → s = u ∧ t = v.
Proof.
  revert u. induction s as [|a s IH]; intros [|b u]; unfold slen; cbn; try lia; [done|].
  intros Hl E. rewrite !string_append_cons in E. injection E as -> E.
  destruct (IH u) as [-> ->]; [unfold slen; lia|done|done].
Qed.

Lemma append_inv_head s t u : s +:+ t = s +:+ u → t = u.
Proof. intros E. by apply append_length_inj in E as [_ ?]. Qed.

(** * Automation *)

Create HintDb alpha.
#[export] Hint Resolve u64_add_exact u64_mul_exact : alpha.

(** Invert the [?] chains, guard chains and conversions in the context. *)
Ltac inv_result :=
  repeat match goal with
  | H : (_ ≫= _) = Ok _ |- _ => apply bind_Ok in H as (? & ? & ?)
  | H : mret ?x = @Ok ?E ?A ?y |- _ => change (@Ok E A x = Ok y) in H
  | H : map_err _ _ = Ok _ |- _ => apply map_err_Ok in H
  | H : ok_or _ _ = Ok _ |- _ => apply ok_or_Ok in H
  | H : Ok _ = Ok _ |- _ => injection H as H
  | H : Err _ = Err _ |- _ => injection H as H
  | H : Ok _ = Err _ |- _ => discriminate H
  | H : Err _ = Ok _ |- _ => discriminate H
  | H : or_error _ _ = None |- _ => apply or_error_None in H as [? ?]
  | H : reject_if _ _ = None |- _ => apply reject_if_None in H
  | H : usize_checked_add _ _ = Some _ |- _ => apply usize_checked_add_Some in H as [? ?]
  | H : usize_checked_sub _ _ = Some _ |- _ => apply usize_checked_sub_Some in H as [? ?]
  | H : try_from _ _ = Some _ |- _ => apply try_from_Some in H as [? ?]
  | H : Some _ = Some _ |- _ => injection H as H
  | H : Some _ = None |- _ => discriminate H
  | H : None = Some _ |- _ => discriminate H
  end.

(** Turn the boolean facts of the context into propositions. *)
Ltac to_prop :=
  repeat match goal with
  | H : bool_decide _ = true |- _ => apply bool_decide_eq_true in H
  | H : bool_decide _ = false |- _ => apply bool_decide_eq_false in H
  | H : _ || _ = false |- _ => apply orb_false_iff in H as [? ?]
  | H : _ && _ = true |- _ => apply andb_true_iff in H as [? ?]
  | H : negb _ = true |- _ => apply negb_true_iff in H
  | H : negb _ = false |- _ => apply negb_false_iff in H
  | H : ¬ (?x ≠ ?y) |- _ => apply dec_stable in H
  | H : ¬ (_ ∨ _) |- _ => apply Decidable.not_or in H as [? ?]
  end.

(** Case analysis on the conditionals of a definition, then inversion. *)
Ltac split_cases :=
  repeat (inv_result; try case_decide; try case_match); inv_result; simplify_eq/=.
