(* ===== verification/Serde.v ===== *)
(** * The JSON seam

    [serde_json] is a third-party crate.  A type's serialisation is the class
    [SerdeJson]; what the components rely on are the law classes
    [SerdeRoundTrip] (parsing what was serialised gives it back) and
    [SerdePrefixFree] (no serialised object is a proper prefix of another, so
    bytes that follow it can be told apart).  [countable_serde] satisfies both
    and instantiates the seam in closed examples. *)

From stdpp Require Import countable.
From S2P Require Import Prelude.

(** [serde_json::to_vec] and [serde_json::from_slice] at a type, with the
    rendered error of each. *)
Class SerdeJson (H : Type) : Type := {
  to_vec : H → result string bytes;
  from_slice : bytes → result string H
}.

(** Parsing a serialised value gives the value. *)
Class SerdeRoundTrip (H : Type) `{!SerdeJson H} : Prop :=
  from_slice_to_vec : ∀ (h : H) (b : bytes), to_vec h = Ok b → from_slice b = Ok h.

(** A serialised JSON object ends at its closing brace: what follows it is not
    part of it. *)
Class SerdePrefixFree (H : Type) `{!SerdeJson H} : Prop :=
  to_vec_prefix_free : ∀ (h k : H) (b c x y : bytes),
    to_vec h = Ok b → to_vec k = Ok c → b ++ x = c ++ y → h = k ∧ b = c ∧ x = y.

(** Serialising a plain wire type never fails. *)
Class SerdeTotal (H : Type) `{!SerdeJson H} : Prop :=
  to_vec_total : ∀ h : H, ∃ b, to_vec h = Ok b.

(** ** A concrete codec

    A total, invertible text form for any countable type: one byte per bit of
    its code and a final dot. *)

Fixpoint bits_of (p : positive) : bytes :=
  match p with
  | xH => [Byte.x2e]
  | xO p => Byte.x30 :: bits_of p
  | xI p => Byte.x31 :: bits_of p
  end.

Fixpoint of_bits (b : bytes) : positive :=
  match b with
  | [] => xH
  | x :: b =>
      if decide (x = Byte.x2e) then xH
      else if decide (x = Byte.x31) then xI (of_bits b) else xO (of_bits b)
  end.

Lemma of_bits_bits_of p : of_bits (bits_of p) = p.
Proof. induction p as [p IH|p IH|]; cbn; by rewrite ?IH. Qed.

Lemma bits_of_prefix_free p q x y : bits_of p ++ x = bits_of q ++ y → p = q ∧ x = y.
Proof.
  revert q. induction p as [p IH|p IH|]; intros [q|q|] E; cbn in E; simplify_eq; try done;
    edestruct IH as [-> ->]; done.
Qed.

Definition countable_serde (A : Type) `{Countable A} : SerdeJson A :=
  {| to_vec a := Ok (bits_of (encode a));
     from_slice b := ok_or (decode (of_bits b)) "invalid code" |}.

Lemma countable_serde_roundtrip (A : Type) `{Countable A} :
  @SerdeRoundTrip A (countable_serde A).
Proof.
  intros a b [= <-]. cbn. by rewrite of_bits_bits_of, decode_encode.
Qed.

Lemma countable_serde_prefix_free (A : Type) `{Countable A} :
  @SerdePrefixFree A (countable_serde A).
Proof.
  intros h k b c x y [= <-] [= <-] E. apply bits_of_prefix_free in E as [E ->].
  apply (inj encode) in E as ->. done.
Qed.

Lemma countable_serde_total (A : Type) `{Countable A} : @SerdeTotal A (countable_serde A).
Proof. intros h. by eexists. Qed.
