(* ===== verification/GxShape.v ===== *)
(** * GX shapes: the caps, the field validators and the chunk-count math

    [foundation/gawdxfer]: the constants of [consts.rs], the shared
    field-shape helpers at the end of [wire.rs], and from [engine.rs]
    [ChunkPlanError], [compute_chunks] and [TransferPlan] with its
    [shape_error].  The two Rust modules are mutually dependent (the wire
    messages validate plans, the plan validates ids), so the parts they share
    are in this file.

    A [shape_error] returns the diagnostic of the first check that fails, as
    the code renders it, and [None] when the value is acceptable. *)

From S2P Require Import Prelude.

(** ** consts.rs *)

Definition DEFAULT_CHUNK_SIZE : N := 256 * 1024.
Definition MIN_CHUNK_SIZE : N := 1024.
Definition MAX_CHUNK_SIZE : N := 4 * 1024 * 1024.
Definition DEFAULT_MAX_IN_MEMORY_TRANSFER_BYTES : N := 128 * 1024 * 1024.
Definition DEFAULT_MAX_FILE_TRANSFER_BYTES : N := 1024 * 1024 * 1024.
Definition HASH_BLOCK_BYTES : N := 64 * 1024.
Definition MAX_BINARY_FRAME_HEADER_BYTES : N := 1024 * 1024.
Definition MAX_TRANSFER_ID_BYTES : N := 128.
Definition MAX_REQUEST_ID_BYTES : N := 256.
Definition MAX_PATH_BYTES : N := 4096.
Definition MAX_FILENAME_BYTES : N := 255.
Definition MAX_MODE_BYTES : N := 16.
Definition MAX_ERROR_CODE_BYTES : N := 64.
Definition MAX_REASON_BYTES : N := 1024.
Definition MAX_TRANSFER_SUMMARIES : N := 1024.
Definition MAX_CONCURRENT_TRANSFERS : N := MAX_TRANSFER_SUMMARIES.
Definition MAX_RESUME_CHUNKS_RECEIVED : N :=
  DEFAULT_MAX_IN_MEMORY_TRANSFER_BYTES / MIN_CHUNK_SIZE.
Definition SHA256_HEX_BYTES : N := 64.
Definition REGISTRY_TRANSFER_ID_NAMESPACE : string := "registry".
Definition GX_CHUNK : string := "gx.chunk".

(** ** Chunk-count math (engine.rs) *)

Inductive ChunkPlanError : Type :=
  | ZeroChunkSize
  | ChunkSizeTooSmall (chunk_size min : N)
  | ChunkSizeTooLarge (chunk_size max : N)
  | TooManyChunks (chunks max : N).

#[export] Instance ChunkPlanError_eq_dec : EqDecision ChunkPlanError.
Proof. solve_decision. Defined.

Definition ChunkPlanError_to_string (e : ChunkPlanError) : string :=
  match e with
  | ZeroChunkSize => "chunk size must be nonzero"
  | ChunkSizeTooSmall chunk_size min =>
      "chunk size " +:+ dec chunk_size +:+ " is below minimum " +:+ dec min
  | ChunkSizeTooLarge chunk_size max =>
      "chunk size " +:+ dec chunk_size +:+ " exceeds maximum " +:+ dec max
  | TooManyChunks chunks max =>
      dec chunks +:+ " chunks exceeds u32 chunk-count limit " +:+ dec max
  end.

Definition compute_chunks (file_size chunk_size : N) : result ChunkPlanError N :=
  if decide (chunk_size = 0) then Err ZeroChunkSize
  else if decide (chunk_size < MIN_CHUNK_SIZE) then
    Err (ChunkSizeTooSmall chunk_size MIN_CHUNK_SIZE)
  else if decide (MAX_CHUNK_SIZE < chunk_size) then
    Err (ChunkSizeTooLarge chunk_size MAX_CHUNK_SIZE)
  else
    let chunks := if decide (file_size = 0) then 1 else div_ceil file_size chunk_size in
    ok_or (try_from u32_MAX chunks) (TooManyChunks chunks u32_MAX).

(** ** Field validators (wire.rs) *)

Definition exceeds_bytes (field value : string) (max_bytes : N) : string :=
  field +:+ " is " +:+ dec (slen value) +:+ " bytes, exceeds " +:+ dec max_bytes
  +:+ " byte limit".

Definition NUL : Ascii.ascii := Ascii.zero.
Definition SLASH : Ascii.ascii := Ascii.ascii_of_N 47.
Definition BACKSLASH : Ascii.ascii := Ascii.ascii_of_N 92.
Definition DOT : Ascii.ascii := Ascii.ascii_of_N 46.

Definition chunk_id_shape_error (field value : string) (max_bytes : N) : option string :=
  reject_if (bool_decide (value = "")) (field +:+ " must not be empty") ;;?
  reject_if (bool_decide (max_bytes < slen value)) (exceeds_bytes field value max_bytes) ;;?
  reject_if (contains_char NUL value) (field +:+ " contains NUL byte") ;;?
  reject_if (negb (all_bytes is_ascii_graphic value))
    (field +:+ " must be printable ASCII without whitespace").

Definition text_field_shape_error (field value : string) (max_bytes : N)
    (allow_empty : bool) : option string :=
  reject_if (negb allow_empty && bool_decide (value = "")) (field +:+ " must not be empty") ;;?
  reject_if (bool_decide (max_bytes < slen value)) (exceeds_bytes field value max_bytes) ;;?
  reject_if (contains_char NUL value) (field +:+ " contains NUL byte").

Definition filename_shape_error (filename : string) : option string :=
  text_field_shape_error "filename" filename MAX_FILENAME_BYTES false ;;?
  reject_if (bool_decide (filename = ".") || bool_decide (filename = ".."))
    "filename must not be a relative directory marker" ;;?
  reject_if (contains_char SLASH filename || contains_char BACKSLASH filename)
    "filename must not contain path separators".

Definition mode_shape_error (mode : string) : option string :=
  text_field_shape_error "mode" mode MAX_MODE_BYTES false ;;?
  reject_if (negb (all_bytes (in_range 48 55) mode)) "mode must be octal digits".

Definition chunk_size_shape_error (chunk_size : N) : option string :=
  match compute_chunks 0 chunk_size with
  | Ok _ => None
  | Err error => Some (ChunkPlanError_to_string error)
  end.

Definition sha256_hex_shape_error (field value : string) : option string :=
  reject_if (bool_decide (slen value ≠ SHA256_HEX_BYTES))
    (field +:+ " must be " +:+ dec SHA256_HEX_BYTES +:+ " lowercase hex bytes") ;;?
  reject_if (negb (all_bytes is_lower_hex value)) (field +:+ " must be lowercase hex").

Definition phase_shape_error (phase : string) : option string :=
  text_field_shape_error "phase" phase MAX_ERROR_CODE_BYTES false ;;?
  reject_if
    (negb (bool_decide (phase ∈ ["init"; "transferring"; "paused"; "verifying";
                                 "complete"; "failed"; "aborted"])))
    "phase must be a known GX lifecycle phase".

Definition progress_counts_shape_error
    (chunks_done total_chunks bytes_transferred file_size : N) : option string :=
  reject_if (bool_decide (total_chunks = 0)) "total_chunks must be greater than zero" ;;?
  reject_if (bool_decide (total_chunks < chunks_done))
    ("chunks_done " +:+ dec chunks_done +:+ " exceeds total_chunks " +:+ dec total_chunks) ;;?
  reject_if (bool_decide (file_size < bytes_transferred))
    ("bytes_transferred " +:+ dec bytes_transferred +:+ " exceeds file_size "
     +:+ dec file_size).

(** ** The transfer plan (engine.rs) *)

Record TransferPlan : Type := mkTransferPlan {
  tp_transfer_id : string;
  tp_file_size : N;
  tp_file_hash : string;
  tp_chunk_size : N;
  tp_total_chunks : N
}.

#[export] Instance TransferPlan_eq_dec : EqDecision TransferPlan.
Proof. solve_decision. Defined.

(** The [match compute_chunks(..)] that both the plan and [InitUpload] end with. *)
Definition total_chunks_shape_error (file_size chunk_size total_chunks : N) : option string :=
  match compute_chunks file_size chunk_size with
  | Ok expected =>
      if decide (expected = total_chunks) then None
      else Some ("total_chunks " +:+ dec total_chunks +:+ " does not match expected "
                 +:+ dec expected)
  | Err error => Some (ChunkPlanError_to_string error)
  end.

Definition TransferPlan_shape_error (p : TransferPlan) : option string :=
  chunk_id_shape_error "transfer_id" (tp_transfer_id p) MAX_TRANSFER_ID_BYTES ;;?
  sha256_hex_shape_error "file_hash" (tp_file_hash p) ;;?
  total_chunks_shape_error (tp_file_size p) (tp_chunk_size p) (tp_total_chunks p).

Definition transfer_plan_shape_error (transfer_id : string) (file_size : N)
    (file_hash : string) (chunk_size total_chunks : N) : option string :=
  TransferPlan_shape_error
    (mkTransferPlan transfer_id file_size file_hash chunk_size total_chunks).

(** ** What the validators accept *)

(** A size the chunk planner accepts. *)
Definition chunk_size_ok (chunk_size : N) : Prop :=
  MIN_CHUNK_SIZE ≤ chunk_size ≤ MAX_CHUNK_SIZE.

(** Sixty-four lowercase hexadecimal digits. *)
Definition sha256_hex_ok (value : string) : Prop :=
  slen value = SHA256_HEX_BYTES ∧ all_bytes is_lower_hex value = true.

(** A bounded, non-empty run of printable ASCII. *)
Definition chunk_id_ok (max_bytes : N) (value : string) : Prop :=
  0 < slen value ≤ max_bytes ∧ all_bytes is_ascii_graphic value = true.

(** [n] chunks of [c] bytes tile [f] bytes: the last one may be short, and an
    empty file still has one chunk. *)
Definition tiles (f c n : N) : Prop :=
  0 < n ∧ f ≤ n * c ∧ (0 < f → (n - 1) * c < f) ∧ (f = 0 → n = 1).

Lemma tiles_unique f c n m : 0 < c → tiles f c n → tiles f c m → n = m.
Proof.
  intros Hc (Hn & Hn1 & Hn2 & Hn3) (Hm & Hm1 & Hm2 & Hm3).
  destruct (decide (f = 0)) as [->|Hf]; [rewrite Hn3, Hm3; done|].
  specialize (Hn2 ltac:(lia)). specialize (Hm2 ltac:(lia)). nia.
Qed.

Lemma chunk_count_tiles f c n :
  0 < c → (if decide (f = 0) then 1 else div_ceil f c) = n ↔ tiles f c n.
Proof.
  intros Hc. unfold tiles. case_decide as Hf.
  - subst. split; [intros <-; lia|]. intros (_ & _ & _ & H). symmetry. by apply H.
  - rewrite div_ceil_spec by lia. intuition lia.
Qed.

Lemma compute_chunks_Ok f c n :
  compute_chunks f c = Ok n ↔ chunk_size_ok c ∧ tiles f c n ∧ n ≤ u32_MAX.
Proof.
  unfold compute_chunks, chunk_size_ok.
  repeat case_decide; try (split; [discriminate|unfold MIN_CHUNK_SIZE in *; lia]).
  - rewrite ok_or_Ok, try_from_Some, <-(chunk_count_tiles f c n), decide_True by lia.
    naive_solver lia.
  - rewrite ok_or_Ok, try_from_Some, <-(chunk_count_tiles f c n), decide_False by lia.
    naive_solver lia.
Qed.

Lemma chunk_size_shape_error_None c : chunk_size_shape_error c = None ↔ chunk_size_ok c.
Proof.
  unfold chunk_size_shape_error.
  destruct (compute_chunks 0 c) as [n|e] eqn:E.
  - apply compute_chunks_Ok in E. naive_solver.
  - split; [done|]. intros Hc.
    assert (compute_chunks 0 c = Ok 1); [|congruence].
    apply compute_chunks_Ok. split_and!; [done| |unfold u32_MAX; lia].
    unfold tiles. lia.
Qed.

Lemma total_chunks_shape_error_None f c n :
  total_chunks_shape_error f c n = None ↔ compute_chunks f c = Ok n.
Proof.
  unfold total_chunks_shape_error. destruct (compute_chunks f c); [|done].
  case_decide; naive_solver.
Qed.

Lemma sha256_hex_shape_error_None field v :
  sha256_hex_shape_error field v = None ↔ sha256_hex_ok v.
Proof.
  unfold sha256_hex_shape_error, sha256_hex_ok.
  rewrite or_error_None, !reject_if_None, bool_decide_eq_false, negb_false_iff.
  destruct (decide (slen v = SHA256_HEX_BYTES)); naive_solver.
Qed.

Lemma graphic_no_NUL v : all_bytes is_ascii_graphic v = true → contains_char NUL v = false.
Proof. by apply all_bytes_no_char. Qed.

Lemma chunk_id_shape_error_None field v max :
  chunk_id_shape_error field v max = None ↔ chunk_id_ok max v.
Proof.
  unfold chunk_id_shape_error, chunk_id_ok.
  rewrite !or_error_None, !reject_if_None, !bool_decide_eq_false, negb_false_iff.
  rewrite <-slen_0. split.
  - naive_solver lia.
  - intros [? ?]. split_and!; [lia|lia| |done]. by apply graphic_no_NUL.
Qed.

Lemma lower_hex_graphic v :
  all_bytes is_lower_hex v = true → all_bytes is_ascii_graphic v = true.
Proof.
  apply all_bytes_impl. intros b.
  unfold is_lower_hex, is_ascii_graphic, in_range.
  rewrite orb_true_iff, !andb_true_iff, !N.leb_le. lia.
Qed.

Lemma digits_graphic v :
  all_bytes is_ascii_digit v = true → all_bytes is_ascii_graphic v = true.
Proof.
  apply all_bytes_impl. intros b. unfold is_ascii_digit, is_ascii_graphic, in_range.
  rewrite !andb_true_iff, !N.leb_le. lia.
Qed.

(** What a plan that passes [shape_error] satisfies. *)
Record plan_ok (p : TransferPlan) : Prop := {
  plan_id : chunk_id_ok MAX_TRANSFER_ID_BYTES (tp_transfer_id p);
  plan_hash : sha256_hex_ok (tp_file_hash p);
  plan_chunk_size : chunk_size_ok (tp_chunk_size p);
  plan_tiles : tiles (tp_file_size p) (tp_chunk_size p) (tp_total_chunks p);
  plan_count : tp_total_chunks p ≤ u32_MAX
}.

Lemma TransferPlan_shape_error_None p : TransferPlan_shape_error p = None ↔ plan_ok p.
Proof.
  unfold TransferPlan_shape_error.
  rewrite !or_error_None, chunk_id_shape_error_None, sha256_hex_shape_error_None,
    total_chunks_shape_error_None, compute_chunks_Ok.
  split; [intros; constructor|intros []]; naive_solver.
Qed.

#[export] Hint Resolve plan_id plan_hash plan_chunk_size plan_tiles plan_count : alpha.
Create Rewrite HintDb gx.
#[export] Hint Rewrite
  chunk_id_shape_error_None sha256_hex_shape_error_None chunk_size_shape_error_None
  total_chunks_shape_error_None TransferPlan_shape_error_None : gx.
