(* ===== verification/GxWire.v ===== *)
(** * GX wire messages

    [foundation/gawdxfer/src/wire.rs]: the typed init, chunk, ack, progress,
    resume, status, list and error messages, each with its [shape_error]
    pressure guard, the manager configuration, the lifecycle phase, and the
    registry-issued transfer id.  A record's fields carry the message's
    initials; a [shape_error] is named after its message. *)

From S2P Require Import Prelude GxShape.

(** ** Messages *)

Inductive Direction : Type := Upload | Download.

Inductive Phase : Type :=
  | PhInit
  | PhTransferring
  | PhPaused
  | PhVerifying
  | PhComplete
  | PhFailed (reason : string)
  | PhAborted.

Definition Phase_as_str (p : Phase) : string :=
  match p with
  | PhInit => "init"
  | PhTransferring => "transferring"
  | PhPaused => "paused"
  | PhVerifying => "verifying"
  | PhComplete => "complete"
  | PhFailed _ => "failed"
  | PhAborted => "aborted"
  end.

Record InitDownload : Type := mkInitDownload {
  id_path : string;
  id_chunk_size : option N
}.

Definition InitDownload_shape_error (m : InitDownload) : option string :=
  text_field_shape_error "path" (id_path m) MAX_PATH_BYTES false ;;?
  match id_chunk_size m with
  | Some chunk_size => chunk_size_shape_error chunk_size
  | None => None
  end.

Record InitDownloadResult : Type := mkInitDownloadResult {
  idr_transfer_id : string;
  idr_file_size : N;
  idr_file_hash : string;
  idr_chunk_size : N;
  idr_total_chunks : N;
  idr_filename : string
}.

Definition InitDownloadResult_shape_error (m : InitDownloadResult) : option string :=
  transfer_plan_shape_error (idr_transfer_id m) (idr_file_size m) (idr_file_hash m)
    (idr_chunk_size m) (idr_total_chunks m) ;;?
  filename_shape_error (idr_filename m).

Record InitUpload : Type := mkInitUpload {
  iu_path : string;
  iu_filename : string;
  iu_file_size : N;
  iu_file_hash : string;
  iu_chunk_size : N;
  iu_total_chunks : N;
  iu_mode : option string
}.

Definition InitUpload_shape_error (m : InitUpload) : option string :=
  text_field_shape_error "path" (iu_path m) MAX_PATH_BYTES false ;;?
  filename_shape_error (iu_filename m) ;;?
  (if decide (iu_file_hash m = "") then None
   else sha256_hex_shape_error "file_hash" (iu_file_hash m)) ;;?
  total_chunks_shape_error (iu_file_size m) (iu_chunk_size m) (iu_total_chunks m) ;;?
  match iu_mode m with
  | Some mode => mode_shape_error mode
  | None => None
  end.

Record InitUploadResult : Type := mkInitUploadResult {
  iur_transfer_id : string;
  iur_chunk_size : N;
  iur_total_chunks : N
}.

Definition InitUploadResult_shape_error (m : InitUploadResult) : option string :=
  chunk_id_shape_error "transfer_id" (iur_transfer_id m) MAX_TRANSFER_ID_BYTES ;;?
  chunk_size_shape_error (iur_chunk_size m) ;;?
  reject_if (bool_decide (iur_total_chunks m = 0)) "total_chunks must be greater than zero".

Record ChunkHeader : Type := mkChunkHeader {
  ch_transfer_id : string;
  ch_chunk_index : N;
  ch_chunk_hash : string
}.

Definition ChunkHeader_shape_error (m : ChunkHeader) : option string :=
  chunk_id_shape_error "transfer_id" (ch_transfer_id m) MAX_TRANSFER_ID_BYTES ;;?
  sha256_hex_shape_error "chunk_hash" (ch_chunk_hash m).

Record ChunkRequest : Type := mkChunkRequest {
  cr_transfer_id : string;
  cr_chunk_index : N
}.

Definition ChunkRequest_shape_error (m : ChunkRequest) : option string :=
  chunk_id_shape_error "transfer_id" (cr_transfer_id m) MAX_TRANSFER_ID_BYTES.

Record ChunkAck : Type := mkChunkAck {
  ca_transfer_id : string;
  ca_chunk_index : N;
  ca_ok : bool;
  ca_error : option string
}.

Definition ChunkAck_shape_error (m : ChunkAck) : option string :=
  chunk_id_shape_error "transfer_id" (ca_transfer_id m) MAX_TRANSFER_ID_BYTES ;;?
  match ca_ok m, ca_error m with
  | true, Some error => text_field_shape_error "error" error MAX_REASON_BYTES true
  | false, Some error => text_field_shape_error "error" error MAX_REASON_BYTES false
  | false, None => Some "failed chunk ack must carry an error"
  | true, None => None
  end.

Record Progress : Type := mkProgress {
  pg_transfer_id : string;
  pg_direction : Direction;
  pg_path : string;
  pg_filename : string;
  pg_chunks_done : N;
  pg_total_chunks : N;
  pg_bytes_transferred : N;
  pg_file_size : N;
  pg_elapsed_ms : N;
  pg_rate_bps : N
}.

Definition Progress_shape_error (m : Progress) : option string :=
  chunk_id_shape_error "transfer_id" (pg_transfer_id m) MAX_TRANSFER_ID_BYTES ;;?
  text_field_shape_error "path" (pg_path m) MAX_PATH_BYTES false ;;?
  filename_shape_error (pg_filename m) ;;?
  progress_counts_shape_error (pg_chunks_done m) (pg_total_chunks m)
    (pg_bytes_transferred m) (pg_file_size m).

Record Complete : Type := mkComplete {
  cm_transfer_id : string;
  cm_direction : Direction;
  cm_path : string;
  cm_filename : string;
  cm_file_size : N;
  cm_file_hash : string;
  cm_elapsed_ms : N
}.

Definition Complete_shape_error (m : Complete) : option string :=
  chunk_id_shape_error "transfer_id" (cm_transfer_id m) MAX_TRANSFER_ID_BYTES ;;?
  text_field_shape_error "path" (cm_path m) MAX_PATH_BYTES false ;;?
  filename_shape_error (cm_filename m) ;;?
  sha256_hex_shape_error "file_hash" (cm_file_hash m).

Record TransferError : Type := mkTransferError {
  te_transfer_id : string;
  te_code : string;
  te_message : string;
  te_recoverable : bool
}.

Definition TransferError_shape_error (m : TransferError) : option string :=
  (if decide (te_transfer_id m = "") then None
   else chunk_id_shape_error "transfer_id" (te_transfer_id m) MAX_TRANSFER_ID_BYTES) ;;?
  chunk_id_shape_error "code" (te_code m) MAX_ERROR_CODE_BYTES ;;?
  text_field_shape_error "message" (te_message m) MAX_REASON_BYTES false.

Record TransferAbort : Type := mkTransferAbort {
  ta_transfer_id : string;
  ta_reason : string
}.

Definition TransferAbort_shape_error (m : TransferAbort) : option string :=
  chunk_id_shape_error "transfer_id" (ta_transfer_id m) MAX_TRANSFER_ID_BYTES ;;?
  text_field_shape_error "reason" (ta_reason m) MAX_REASON_BYTES false.

Record Resume : Type := mkResume { rs_transfer_id : string }.

Definition Resume_shape_error (m : Resume) : option string :=
  chunk_id_shape_error "transfer_id" (rs_transfer_id m) MAX_TRANSFER_ID_BYTES.

Record ResumeResult : Type := mkResumeResult {
  rr_transfer_id : string;
  rr_direction : Direction;
  rr_chunks_received : list N;
  rr_total_chunks : N;
  rr_chunk_size : N;
  rr_file_size : N;
  rr_file_hash : string
}.

(** [iter().find(|i| !seen.insert(i))] with the [HashSet] it mutates. *)
Fixpoint find_duplicate (seen : gset N) (indices : list N) : option N :=
  match indices with
  | [] => None
  | i :: rest => if decide (i ∈ seen) then Some i else find_duplicate ({[i]} ∪ seen) rest
  end.

Definition ResumeResult_shape_error (m : ResumeResult) : option string :=
  transfer_plan_shape_error (rr_transfer_id m) (rr_file_size m) (rr_file_hash m)
    (rr_chunk_size m) (rr_total_chunks m) ;;?
  (let entries := N.of_nat (length (rr_chunks_received m)) in
   reject_if (bool_decide (MAX_RESUME_CHUNKS_RECEIVED < entries))
     ("chunks_received has " +:+ dec entries +:+ " entries, exceeds "
      +:+ dec MAX_RESUME_CHUNKS_RECEIVED +:+ " entry limit") ;;?
   reject_if (bool_decide (rr_total_chunks m < entries))
     ("chunks_received has " +:+ dec entries +:+ " entries, exceeds total_chunks "
      +:+ dec (rr_total_chunks m)) ;;?
   match list_find (fun i => rr_total_chunks m ≤ i) (rr_chunks_received m) with
   | Some (_, i) => Some ("chunks_received contains out-of-range chunk_index " +:+ dec i)
   | None =>
       match find_duplicate ∅ (rr_chunks_received m) with
       | Some i => Some ("chunks_received contains duplicate chunk_index " +:+ dec i)
       | None => None
       end
   end).

Record StatusResult : Type := mkStatusResult {
  sr_transfer_id : string;
  sr_direction : Direction;
  sr_phase : string;
  sr_filename : string;
  sr_file_size : N;
  sr_chunks_done : N;
  sr_total_chunks : N;
  sr_bytes_transferred : N;
  sr_elapsed_ms : N;
  sr_error_count : N
}.

Definition StatusResult_shape_error (m : StatusResult) : option string :=
  chunk_id_shape_error "transfer_id" (sr_transfer_id m) MAX_TRANSFER_ID_BYTES ;;?
  phase_shape_error (sr_phase m) ;;?
  filename_shape_error (sr_filename m) ;;?
  progress_counts_shape_error (sr_chunks_done m) (sr_total_chunks m)
    (sr_bytes_transferred m) (sr_file_size m).

Record TransferSummary : Type := mkTransferSummary {
  ts_transfer_id : string;
  ts_direction : Direction;
  ts_filename : string;
  ts_file_size : N;
  ts_phase : string;
  ts_chunks_done : N;
  ts_total_chunks : N;
  ts_bytes_transferred : N
}.

Definition TransferSummary_shape_error (m : TransferSummary) : option string :=
  chunk_id_shape_error "transfer_id" (ts_transfer_id m) MAX_TRANSFER_ID_BYTES ;;?
  filename_shape_error (ts_filename m) ;;?
  phase_shape_error (ts_phase m) ;;?
  progress_counts_shape_error (ts_chunks_done m) (ts_total_chunks m)
    (ts_bytes_transferred m) (ts_file_size m).

Record ListResult : Type := mkListResult { lr_transfers : list TransferSummary }.

(** [iter().find_map(f)]: the first [Some]. *)
Fixpoint find_map {A B} (f : A → option B) (l : list A) : option B :=
  match l with
  | [] => None
  | a :: l => match f a with Some b => Some b | None => find_map f l end
  end.

Definition ListResult_shape_error (m : ListResult) : option string :=
  let entries := N.of_nat (length (lr_transfers m)) in
  reject_if (bool_decide (MAX_TRANSFER_SUMMARIES < entries))
    ("transfers has " +:+ dec entries +:+ " entries, exceeds "
     +:+ dec MAX_TRANSFER_SUMMARIES +:+ " entry limit") ;;?
  find_map TransferSummary_shape_error (lr_transfers m).

(** ** Manager configuration *)

Record TransferConfig : Type := mkTransferConfig {
  tc_max_concurrent : N;
  tc_chunk_size : N;
  tc_max_file_size : N;
  tc_stale_timeout_secs : N;
  tc_max_chunk_retries : N
}.

Definition TransferConfig_new
    (max_concurrent chunk_size max_file_size stale_timeout_secs : N) : TransferConfig :=
  mkTransferConfig max_concurrent chunk_size max_file_size stale_timeout_secs 3.

Definition TransferConfig_shape_error (c : TransferConfig) : option string :=
  reject_if (bool_decide (tc_max_concurrent c = 0))
    "max_concurrent must be greater than zero" ;;?
  reject_if (bool_decide (MAX_CONCURRENT_TRANSFERS < tc_max_concurrent c))
    ("max_concurrent " +:+ dec (tc_max_concurrent c) +:+ " exceeds "
     +:+ dec MAX_CONCURRENT_TRANSFERS +:+ " transfer limit") ;;?
  chunk_size_shape_error (tc_chunk_size c) ;;?
  reject_if (bool_decide (tc_max_file_size c = 0))
    "max_file_size must be greater than zero" ;;?
  match compute_chunks (tc_max_file_size c) (tc_chunk_size c) with
  | Err error => Some (ChunkPlanError_to_string error)
  | Ok max_chunks =>
      reject_if (bool_decide (tc_stale_timeout_secs c = 0))
        "stale_timeout_secs must be greater than zero" ;;?
      reject_if (bool_decide (tc_max_chunk_retries c = 0))
        "max_chunk_retries must be greater than zero" ;;?
      reject_if (bool_decide (u32_MAX / max_chunks < tc_max_chunk_retries c))
        ("max_chunk_retries " +:+ dec (tc_max_chunk_retries c)
         +:+ " can overflow retry accounting for " +:+ dec max_chunks +:+ " chunks")
  end.

(** ** Registry-issued transfer ids *)

Definition registry_transfer_id (artifact_hash : string) (chunk_size seq corr : N) : string :=
  REGISTRY_TRANSFER_ID_NAMESPACE +:+ "." +:+ artifact_hash +:+ "." +:+ dec chunk_size
  +:+ "." +:+ dec seq +:+ "." +:+ dec corr.

Definition transfer_id_form_error : string :=
  "GX transfer_id must match registry.{artifact_hash}.{chunk_size}.{seq}.{corr}".

Definition registry_transfer_id_shape_error
    (transfer_id artifact_hash : string) (chunk_size : N) : option string :=
  chunk_id_shape_error "transfer_id" transfer_id MAX_TRANSFER_ID_BYTES ;;?
  sha256_hex_shape_error "artifact_hash" artifact_hash ;;?
  chunk_size_shape_error chunk_size ;;?
  let parts := split_on DOT transfer_id in
  if decide (is_Some (parts !! 5%nat)
             ∨ parts !! 0%nat ≠ Some REGISTRY_TRANSFER_ID_NAMESPACE) then
    Some transfer_id_form_error
  else
    match parts !! 1%nat, parts !! 2%nat, parts !! 3%nat, parts !! 4%nat with
    | Some id_artifact_hash, Some id_chunk_size, Some seq, Some corr =>
        reject_if (bool_decide (id_artifact_hash ≠ artifact_hash))
          "GX transfer_id does not belong to artifact_hash" ;;?
        reject_if
          (bool_decide (seq = "") || bool_decide (corr = "")
           || bool_decide (id_chunk_size = "")
           || negb (all_bytes is_ascii_digit id_chunk_size)
           || negb (all_bytes is_ascii_digit seq)
           || negb (all_bytes is_ascii_digit corr))
          "GX transfer_id chunk_size, seq, and corr must be decimal" ;;?
        reject_if (bool_decide (id_chunk_size ≠ dec chunk_size))
          "GX transfer_id does not belong to chunk_size"
    | _, _, _, _ => Some transfer_id_form_error
    end.

(** ** Lifecycle phases *)

Lemma phase_shape_error_None s :
  phase_shape_error s = None ↔ ∃ p, Phase_as_str p = s.
Proof.
  unfold phase_shape_error.
  rewrite or_error_None, reject_if_None, negb_false_iff, bool_decide_eq_true. split.
  - intros [_ Hin]. rewrite !elem_of_cons in Hin.
    destruct Hin as [->|[->|[->|[->|[->|[->|[->|Hin]]]]]]]; [..|by apply elem_of_nil in Hin].
    + by exists PhInit.
    + by exists PhTransferring.
    + by exists PhPaused.
    + by exists PhVerifying.
    + by exists PhComplete.
    + by exists (PhFailed "").
    + by exists PhAborted.
  - intros [p <-]. destruct p; (split; [reflexivity|]); cbn [Phase_as_str]; set_solver.
Qed.

(** ** Filenames never traverse *)

Lemma filename_shape_error_None f :
  filename_shape_error f = None →
  f ≠ "" ∧ f ≠ "." ∧ f ≠ ".." ∧ slen f ≤ MAX_FILENAME_BYTES
  ∧ contains_char SLASH f = false ∧ contains_char BACKSLASH f = false
  ∧ contains_char NUL f = false.
Proof.
  unfold filename_shape_error, text_field_shape_error. cbn [negb andb]. intros H.
  inv_result. to_prop.
  split_and!; try done; lia.
Qed.

(** ** Resume replies *)

Lemma find_duplicate_None seen l :
  find_duplicate seen l = None ↔ NoDup l ∧ ∀ i, i ∈ l → i ∉ seen.
Proof.
  revert seen. induction l as [|i l IH]; intros seen; cbn.
  - split; [|done]. intros _. split; [constructor|]. set_solver.
  - case_decide.
    + split; [done|]. intros [_ Hn]. exfalso. apply (Hn i); set_solver.
    + rewrite IH, NoDup_cons. set_solver.
Qed.

Lemma NoDup_bounded_length (l : list N) n :
  NoDup l → Forall (fun i => i < n) l → N.of_nat (length l) ≤ n.
Proof.
  intros Hnd Hl.
  assert (length l ≤ length (N.of_nat <$> seq 0 (N.to_nat n)))%nat as H.
  { apply submseteq_length, NoDup_submseteq; [done|].
    intros i Hi. rewrite Forall_forall in Hl. specialize (Hl i Hi).
    apply list_elem_of_fmap. exists (N.to_nat i). rewrite elem_of_seq. lia. }
  rewrite length_fmap, length_seq in H. lia.
Qed.

Lemma ResumeResult_shape_error_None m :
  ResumeResult_shape_error m = None ↔
  plan_ok (mkTransferPlan (rr_transfer_id m) (rr_file_size m) (rr_file_hash m)
             (rr_chunk_size m) (rr_total_chunks m))
  ∧ NoDup (rr_chunks_received m)
  ∧ Forall (fun i => i < rr_total_chunks m) (rr_chunks_received m)
  ∧ N.of_nat (length (rr_chunks_received m)) ≤ MAX_RESUME_CHUNKS_RECEIVED.
Proof.
  unfold ResumeResult_shape_error, transfer_plan_shape_error.
  rewrite !or_error_None, TransferPlan_shape_error_None, !reject_if_None,
    !bool_decide_eq_false.
  destruct (list_find _ _) as [[j i]|] eqn:Ef.
  - split; [naive_solver|]. intros (_ & _ & Hall & _).
    apply list_find_Some in Ef as (Hi & Hle & _).
    rewrite Forall_forall in Hall.
    specialize (Hall i (list_elem_of_lookup_2 _ _ _ Hi)). lia.
  - apply list_find_None in Ef.
    assert (Forall (fun i => i < rr_total_chunks m) (rr_chunks_received m)) as Hall.
    { eapply Forall_impl; [exact Ef|]. cbn. intros. lia. }
    destruct (find_duplicate _ _) as [i|] eqn:Ed.
    + split; [naive_solver|]. intros (_ & Hnd & _).
      assert (find_duplicate ∅ (rr_chunks_received m) = None); [|congruence].
      apply find_duplicate_None. set_solver.
    + apply find_duplicate_None in Ed as [Hnd _]. split.
      * intros (? & ? & ? & _). split_and!; [done|done|done|lia].
      * intros (? & _ & _ & ?). split_and!; [done|lia| |done].
        pose proof (NoDup_bounded_length _ _ Hnd Hall). lia.
Qed.

(** ** Retry accounting *)

Lemma TransferConfig_shape_error_None c :
  TransferConfig_shape_error c = None →
  chunk_size_ok (tc_chunk_size c)
  ∧ ∃ max_chunks, compute_chunks (tc_max_file_size c) (tc_chunk_size c) = Ok max_chunks
      ∧ 0 < max_chunks ∧ tc_max_chunk_retries c ≤ u32_MAX / max_chunks.
Proof.
  unfold TransferConfig_shape_error. intros H. inv_result. to_prop.
  split; [by apply chunk_size_shape_error_None|].
  case_match eqn:E; [|done]. inv_result. to_prop.
  eexists. split; [done|]. apply compute_chunks_Ok in E as (_ & [? _] & _).
  split; [done|lia].
Qed.

Lemma tiles_mono f g c n m : 0 < c → f ≤ g → tiles f c n → tiles g c m → n ≤ m.
Proof.
  intros Hc Hfg (Hn & Hn1 & Hn2 & Hn3) (Hm & Hm1 & Hm2 & Hm3).
  destruct (decide (f = 0)) as [->|Hf]; [rewrite Hn3; lia|].
  specialize (Hn2 ltac:(lia)). nia.
Qed.

(** ** Registry transfer ids *)

(** The five dot-separated fields of an id. *)
Definition registry_id_text (h c q r : string) : string :=
  REGISTRY_TRANSFER_ID_NAMESPACE +:+ "." +:+ h +:+ "." +:+ c +:+ "." +:+ q +:+ "." +:+ r.

Definition decimal (s : string) : Prop := s ≠ "" ∧ all_bytes is_ascii_digit s = true.

Lemma digits_no_dot s : all_bytes is_ascii_digit s = true → contains_char DOT s = false.
Proof. by apply all_bytes_no_char. Qed.
Lemma lower_hex_no_dot s : all_bytes is_lower_hex s = true → contains_char DOT s = false.
Proof. by apply all_bytes_no_char. Qed.
Create HintDb gxid.
#[local] Hint Resolve digits_no_dot lower_hex_no_dot : gxid.

Lemma dot_append t : "." +:+ t = String DOT t.
Proof. done. Qed.

Lemma registry_id_parts h c q r :
  contains_char DOT h = false → contains_char DOT c = false →
  contains_char DOT q = false → contains_char DOT r = false →
  split_on DOT (registry_id_text h c q r)
  = [REGISTRY_TRANSFER_ID_NAMESPACE; h; c; q; r].
Proof.
  intros Hh Hc Hq Hr. unfold registry_id_text.
  rewrite !dot_append, !split_on_cons by done. by rewrite split_on_last.
Qed.

Lemma registry_id_of_parts id h c q r :
  split_on DOT id = [REGISTRY_TRANSFER_ID_NAMESPACE; h; c; q; r] →
  id = registry_id_text h c q r.
Proof. intros E. rewrite <-(split_on_join DOT id), E. reflexivity. Qed.

(** Exactly what the validator accepts. *)
Lemma registry_transfer_id_shape_error_None id h c :
  registry_transfer_id_shape_error id h c = None ↔
  sha256_hex_ok h ∧ chunk_size_ok c ∧ chunk_id_ok MAX_TRANSFER_ID_BYTES id
  ∧ ∃ q r, decimal q ∧ decimal r ∧ id = registry_id_text h (dec c) q r.
Proof.
  unfold registry_transfer_id_shape_error. rewrite !or_error_None.
  autorewrite with gx. split.
  - intros (Hid & Hh & Hc & Hp). split_and!; [done..|].
    case_decide as Hd; [done|]. apply Decidable.not_or in Hd as [Hd5 Hd0].
    apply dec_stable in Hd0.
    destruct (split_on DOT id) as [|ns [|h' [|c' [|q [|r [|x l]]]]]] eqn:E;
      cbn in Hp, Hd0, Hd5; try discriminate; [|by destruct Hd5; eauto].
    inv_result. to_prop. subst. exists q, r. split_and!; [by split..|].
    apply registry_id_of_parts. rewrite E. cbn in *. congruence.
  - intros ([Hl Hh] & Hc & Hid & q & r & [Hq Hqd] & [Hr Hrd] & ->).
    split_and!; [done|done|done|].
    rewrite registry_id_parts by auto using dec_digits with gxid.
    rewrite decide_False by (cbn; rewrite <-not_eq_None_Some; naive_solver).
    cbn. rewrite Hqd, Hrd, dec_digits. cbn.
    rewrite !bool_decide_eq_false_2; try done; try naive_solver. apply dec_nonempty.
Qed.

Lemma registry_id_graphic h c q r :
  all_bytes is_lower_hex h = true →
  all_bytes is_ascii_graphic (registry_transfer_id h c q r) = true.
Proof.
  intros Hh. unfold registry_transfer_id. rewrite !all_bytes_app.
  by rewrite (lower_hex_graphic h Hh), (digits_graphic (dec c)), (digits_graphic (dec q)),
    (digits_graphic (dec r)) by apply dec_digits.
Qed.

(** The issued id has at most 8 + 64 + 7 + 20 + 20 bytes and four dots. *)
Lemma registry_id_length h c q r :
  slen h = SHA256_HEX_BYTES → c ≤ MAX_CHUNK_SIZE → q ≤ u64_MAX → r ≤ u64_MAX →
  slen (registry_transfer_id h c q r) ≤ 123.
Proof.
  intros Hh Hc Hq Hr. unfold registry_transfer_id. rewrite !slen_app, Hh.
  assert (slen (dec c) ≤ 7) by (apply (slen_dec 7); [lia|]; unfold MAX_CHUNK_SIZE in Hc; cbn; lia).
  assert (slen (dec q) ≤ 20) by (apply (slen_dec 20); [lia|]; unfold u64_MAX in Hq; cbn; lia).
  assert (slen (dec r) ≤ 20) by (apply (slen_dec 20); [lia|]; unfold u64_MAX in Hr; cbn; lia).
  change (slen ".") with 1. change (slen REGISTRY_TRANSFER_ID_NAMESPACE) with 8.
  unfold SHA256_HEX_BYTES. lia.
Qed.

(** ** Properties *)

(** A transfer id the registry issues for a well-formed artifact hash, an
    acceptable chunk size and any [u64] sequence and correlation numbers passes
    the validator for that artifact and chunk size; in particular it never
    exceeds [MAX_TRANSFER_ID_BYTES]. *)
Theorem registry_transfer_id_roundtrip (h : string) (c seq corr : N)
    (Hh : sha256_hex_ok h) (Hc : chunk_size_ok c)
    (Hseq : seq ≤ u64_MAX) (Hcorr : corr ≤ u64_MAX) :
  registry_transfer_id_shape_error (registry_transfer_id h c seq corr) h c = None.
Proof.
  apply registry_transfer_id_shape_error_None. split_and!; [done|done| |].
  - destruct Hh as [Hl Hh].
    pose proof (registry_id_length h c seq corr Hl (proj2 Hc) Hseq Hcorr).
    split; [|by apply registry_id_graphic].
    split; [|unfold MAX_TRANSFER_ID_BYTES; lia].
    unfold registry_transfer_id. rewrite slen_app.
    change (slen REGISTRY_TRANSFER_ID_NAMESPACE) with 8. lia.
  - exists (dec seq), (dec corr).
    split_and!; [..|done]; split; auto using dec_nonempty, dec_digits.
Qed.

Definition zeros64 : string :=
  "0000000000000000000000000000000000000000000000000000000000000000".

Lemma zeros64_ok : sha256_hex_ok zeros64.
Proof. by split. Qed.

Lemma registry_transfer_id_roundtrip_witness :
  registry_transfer_id_shape_error (registry_transfer_id zeros64 1024 7 u64_MAX)
    zeros64 1024 = None.
Proof.
  apply (registry_transfer_id_roundtrip zeros64 1024 7 u64_MAX).
  - exact zeros64_ok.
  - split; [reflexivity | discriminate].
  - discriminate.
  - discriminate.
Defined.

(** An id that validates for two (artifact, chunk size) pairs validates for
    one: a chunk stream cannot be claimed for another artifact or under another
    chunking. *)
Theorem registry_transfer_id_binds (id h1 h2 : string) (c1 c2 : N)
    (H1 : registry_transfer_id_shape_error id h1 c1 = None)
    (H2 : registry_transfer_id_shape_error id h2 c2 = None) :
  h1 = h2 ∧ c1 = c2.
Proof.
  apply registry_transfer_id_shape_error_None in H1
    as ([_ Hh1] & _ & _ & q1 & r1 & [_ Hq1] & [_ Hr1] & ->).
  apply registry_transfer_id_shape_error_None in H2
    as ([_ Hh2] & _ & _ & q2 & r2 & [_ Hq2] & [_ Hr2] & E).
  apply (f_equal (split_on DOT)) in E.
  rewrite !registry_id_parts in E by auto using dec_digits with gxid.
  injection E as -> Hc _ _. split; [done|]. by apply dec_inj.
Qed.

Lemma registry_transfer_id_binds_witness : zeros64 = zeros64 ∧ 1024 = 1024.
Proof.
  apply (registry_transfer_id_binds (registry_transfer_id zeros64 1024 7 9)
           zeros64 zeros64 1024 1024); vm_compute; reflexivity.
Defined.

(** A resume reply is accepted exactly when its plan is well formed and the
    received chunk indices are distinct, in range and at most
    [MAX_RESUME_CHUNKS_RECEIVED]; the separate check of the entry count against
    [total_chunks] refuses nothing more. *)
Theorem ResumeResult_accepts_exactly (m : ResumeResult) :
  ResumeResult_shape_error m = None ↔
  TransferPlan_shape_error
    (mkTransferPlan (rr_transfer_id m) (rr_file_size m) (rr_file_hash m)
       (rr_chunk_size m) (rr_total_chunks m)) = None
  ∧ NoDup (rr_chunks_received m)
  ∧ Forall (fun i => i < rr_total_chunks m) (rr_chunks_received m)
  ∧ N.of_nat (length (rr_chunks_received m)) ≤ MAX_RESUME_CHUNKS_RECEIVED.
Proof.
  rewrite TransferPlan_shape_error_None. apply ResumeResult_shape_error_None.
Qed.

(** Under an accepted manager configuration, the retries of every chunk of
    every file within [max_file_size] can be counted in a [u32]. *)
Theorem TransferConfig_retry_accounting_fits (c : TransferConfig) (file_size : N)
    (Hc : TransferConfig_shape_error c = None)
    (Hf : file_size ≤ tc_max_file_size c) :
  ∃ chunks, compute_chunks file_size (tc_chunk_size c) = Ok chunks
    ∧ tc_max_chunk_retries c * chunks ≤ u32_MAX.
Proof.
  apply TransferConfig_shape_error_None in Hc as (Hs & m & Hm & Hm0 & Hr).
  apply compute_chunks_Ok in Hm as (_ & Ht & Hmax).
  assert (0 < tc_chunk_size c) as Hpos by (unfold chunk_size_ok, MIN_CHUNK_SIZE in Hs; lia).
  set (n := if decide (file_size = 0) then 1 else div_ceil file_size (tc_chunk_size c)).
  assert (tiles file_size (tc_chunk_size c) n) as Hn by by apply chunk_count_tiles.
  pose proof (tiles_mono _ _ _ _ _ Hpos Hf Hn Ht) as Hle.
  exists n. split; [apply compute_chunks_Ok; split_and!; [done|done|lia]|].
  pose proof (N.Div0.mul_div_le u32_MAX m). nia.
Qed.

Lemma TransferConfig_retry_accounting_fits_witness :
  ∃ chunks, compute_chunks 5000 1024 = Ok chunks ∧ 3 * chunks ≤ u32_MAX.
Proof.
  apply (TransferConfig_retry_accounting_fits (TransferConfig_new 4 1024 1000000 60) 5000).
  - vm_compute; reflexivity.
  - vm_compute; discriminate.
Defined.
