(* ===== verification/GxFrame.v ===== *)
(** * The binary GX frame codec

    [foundation/gawdxfer/src/frame.rs]: [ChunkFrameHeader] with its shape
    guard, and the [[header_len: u32 BE][JSON header][raw payload]] codec.

    The JSON text of a header is [serde_json]'s, a third-party crate: the codec
    takes its two functions as the class [SerdeJson] of [Serde.v], and the round
    trip needs only [SerdeRoundTrip], that parsing what was serialised gives it
    back. *)

From stdpp Require Import countable.
From S2P Require Import Prelude Serde GxShape GxWire.

(** ** The chunk-frame header *)

Record ChunkFrameHeader : Type := mkChunkFrameHeader {
  cf_message_type : string;
  cf_request_id : option string;
  cf_transfer_id : string;
  cf_chunk_index : N;
  cf_total_chunks : option N;
  cf_chunk_hash : string
}.

#[export] Instance ChunkFrameHeader_eq_dec : EqDecision ChunkFrameHeader.
Proof. solve_decision. Defined.

Definition ChunkFrameHeader_new (transfer_id : string) (chunk_index : N)
    (chunk_hash : string) : ChunkFrameHeader :=
  mkChunkFrameHeader GX_CHUNK None transfer_id chunk_index None chunk_hash.

Definition with_request_id (h : ChunkFrameHeader) (request_id : string) : ChunkFrameHeader :=
  mkChunkFrameHeader (cf_message_type h) (Some request_id) (cf_transfer_id h)
    (cf_chunk_index h) (cf_total_chunks h) (cf_chunk_hash h).

Definition with_total_chunks (h : ChunkFrameHeader) (total_chunks : N) : ChunkFrameHeader :=
  mkChunkFrameHeader (cf_message_type h) (cf_request_id h) (cf_transfer_id h)
    (cf_chunk_index h) (Some total_chunks) (cf_chunk_hash h).

(** [impl From<ChunkHeader> for ChunkFrameHeader]. *)
Definition ChunkFrameHeader_from (h : ChunkHeader) : ChunkFrameHeader :=
  ChunkFrameHeader_new (ch_transfer_id h) (ch_chunk_index h) (ch_chunk_hash h).

Definition ChunkFrameHeader_shape_error (h : ChunkFrameHeader) : option string :=
  reject_if (bool_decide (cf_message_type h ≠ GX_CHUNK))
    ("GX chunk frame type must be `" +:+ GX_CHUNK +:+ "`") ;;?
  chunk_id_shape_error "transfer_id" (cf_transfer_id h) MAX_TRANSFER_ID_BYTES ;;?
  match cf_request_id h with
  | Some request_id => chunk_id_shape_error "request_id" request_id MAX_REQUEST_ID_BYTES
  | None => None
  end ;;?
  sha256_hex_shape_error "chunk_hash" (cf_chunk_hash h) ;;?
  match cf_total_chunks h with
  | Some total_chunks =>
      reject_if (bool_decide (total_chunks = 0)) "total_chunks must be greater than zero" ;;?
      reject_if (bool_decide (total_chunks ≤ cf_chunk_index h))
        ("chunk_index " +:+ dec (cf_chunk_index h) +:+ " out of range for total_chunks "
         +:+ dec total_chunks)
  | None => None
  end.

(** ** Frame errors *)

Inductive FrameError : Type :=
  | TooShort
  | HeaderTooLarge (len max : N)
  | Truncated (needed actual : N)
  | FrameTooLarge
  | HeaderEncode (message : string)
  | HeaderDecode (message : string).

#[export] Instance FrameError_eq_dec : EqDecision FrameError.
Proof. solve_decision. Defined.

Definition FrameError_to_string (e : FrameError) : string :=
  match e with
  | TooShort => "binary frame is shorter than its length prefix"
  | HeaderTooLarge len max =>
      "binary frame header is " +:+ dec len +:+ " bytes, exceeds " +:+ dec max
      +:+ " byte limit"
  | Truncated needed actual =>
      "binary frame is truncated: needs " +:+ dec needed +:+ " bytes, got " +:+ dec actual
  | FrameTooLarge => "binary frame length overflow"
  | HeaderEncode e => "binary frame header encode failed: " +:+ e
  | HeaderDecode e => "binary frame header decode failed: " +:+ e
  end.

(** ** The codec *)

Section codec.
  Context {H : Type} `{!SerdeJson H}.

  (** A [Vec<u8>] never holds more than [isize::MAX] bytes, so the additions of
      lengths cannot overflow on this target; the checks are kept as written. *)
Definition encode_binary_frame (header : H) (payload : bytes) : result FrameError bytes :=
  header_bytes ← map_err HeaderEncode (to_vec header);
  if decide (MAX_BINARY_FRAME_HEADER_BYTES < blen header_bytes) then
    Err (HeaderTooLarge (blen header_bytes) MAX_BINARY_FRAME_HEADER_BYTES)
  else
    header_len ← ok_or (try_from u32_MAX (blen header_bytes)) FrameTooLarge;
    capacity ← ok_or (usize_checked_add 4 (blen header_bytes)
                        ≫= fun n => usize_checked_add n (blen payload)) FrameTooLarge;
    Ok (be_bytes 4 header_len ++ header_bytes ++ payload).

Definition decode_binary_frame (data : bytes) : result FrameError (H * bytes) :=
  if decide (blen data < 4) then Err TooShort
  else
    let header_len := be_value (take 4 data) in
    if decide (MAX_BINARY_FRAME_HEADER_BYTES < header_len) then
      Err (HeaderTooLarge header_len MAX_BINARY_FRAME_HEADER_BYTES)
    else
      payload_offset ← ok_or (usize_checked_add 4 header_len) FrameTooLarge;
      if decide (blen data < payload_offset) then
        Err (Truncated payload_offset (blen data))
      else
        header ← map_err HeaderDecode
                   (from_slice (take (N.to_nat header_len) (drop 4 data)));
        Ok (header, drop (N.to_nat payload_offset) data).

(** What a successful encoding looks like. *)
Lemma encode_Ok h payload frame :
  encode_binary_frame h payload = Ok frame →
  ∃ hb, to_vec h = Ok hb ∧ blen hb ≤ MAX_BINARY_FRAME_HEADER_BYTES
    ∧ frame = be_bytes 4 (blen hb) ++ hb ++ payload.
Proof.
  unfold encode_binary_frame. intros E.
  apply bind_Ok in E as (hb & Hhb & E). apply map_err_Ok in Hhb.
  case_decide as Hl; [done|]. inv_result. subst.
  exists hb. split_and!; [done|lia|done].
Qed.

(** What a successful decoding accepts. *)
Lemma decode_Ok data h payload :
  decode_binary_frame data = Ok (h, payload) →
  ∃ len hb, data = take 4 data ++ hb ++ payload ∧ blen hb = len
    ∧ len = be_value (take 4 data) ∧ len ≤ MAX_BINARY_FRAME_HEADER_BYTES
    ∧ from_slice hb = Ok h.
Proof.
  unfold decode_binary_frame. case_decide as H4; [done|]. case_decide as Hm; [done|].
  intros E. inv_result. subst. case_decide as Ht; [done|]. inv_result. subst.
  set (len := be_value (take 4 data)) in *.
  exists len, (take (N.to_nat len) (drop 4 data)).
  unfold blen in *. split_and!; [|rewrite length_take, length_drop; lia|done|lia|done].
  replace (N.to_nat (4 + len)) with (4 + N.to_nat len)%nat by lia.
  rewrite <-drop_drop, !take_drop. done.
Qed.

Lemma encode_decode `{!SerdeRoundTrip H} h payload frame :
  encode_binary_frame h payload = Ok frame → decode_binary_frame frame = Ok (h, payload).
Proof.
  intros (hb & Hhb & Hmax & ->)%encode_Ok. apply from_slice_to_vec in Hhb.
  unfold decode_binary_frame.
  assert (take 4 (be_bytes 4 (blen hb) ++ hb ++ payload) = be_bytes 4 (blen hb)) as Ht4.
  { rewrite take_app_length'; [done|]. by rewrite length_be_bytes. }
  rewrite !blen_app. replace (blen (be_bytes 4 (blen hb))) with 4
    by (unfold blen; by rewrite length_be_bytes).
  rewrite decide_False by lia. rewrite Ht4, be_value_be_bytes
    by (unfold MAX_BINARY_FRAME_HEADER_BYTES in Hmax; cbn; lia).
  rewrite decide_False by lia. unfold usize_checked_add.
  rewrite decide_True by (unfold MAX_BINARY_FRAME_HEADER_BYTES, usize_MAX, u64_MAX in *; lia).
  cbn [ok_or mbind result_bind]. rewrite decide_False by lia.
  rewrite (drop_app_length' _ _ 4) by by rewrite length_be_bytes.
  unfold blen. rewrite Nat2N.id, take_app_length, Hhb. cbn [map_err].
  replace (N.to_nat (4 + N.of_nat (length hb))) with (4 + length hb)%nat by lia.
  rewrite <-drop_drop, (drop_app_length' _ _ 4) by by rewrite length_be_bytes.
  by rewrite drop_app_length.
Qed.
End codec.

#[export] Instance ChunkFrameHeader_countable : Countable ChunkFrameHeader.
Proof.
  refine (inj_countable'
    (fun h => (cf_message_type h, cf_request_id h, cf_transfer_id h, cf_chunk_index h,
               cf_total_chunks h, cf_chunk_hash h))
    (fun '(a, b, c, d, e, f) => mkChunkFrameHeader a b c d e f) _).
  by intros [].
Defined.

(** ** Properties *)

(** The frame codec round-trips: whenever the header serialises within
    [MAX_BINARY_FRAME_HEADER_BYTES] and the payload fits in memory, encoding
    succeeds, the frame has exactly prefix, header and payload bytes, and
    decoding it gives the same header and payload back. *)
Theorem binary_frame_roundtrip (H : Type) (J : SerdeJson H) (R : SerdeRoundTrip H)
    (h : H) (hb payload : bytes)
    (Hser : to_vec h = Ok hb)
    (Hmax : blen hb ≤ MAX_BINARY_FRAME_HEADER_BYTES)
    (Hfit : blen payload ≤ usize_MAX / 2) :
  ∃ frame, encode_binary_frame h payload = Ok frame
    ∧ blen frame = 4 + blen hb + blen payload
    ∧ decode_binary_frame frame = Ok (h, payload).
Proof.
  assert (encode_binary_frame h payload = Ok (be_bytes 4 (blen hb) ++ hb ++ payload)) as E.
  { unfold encode_binary_frame. rewrite Hser. cbn [map_err mbind result_bind].
    rewrite decide_False by lia.
    unfold MAX_BINARY_FRAME_HEADER_BYTES in Hmax. change (usize_MAX / 2) with 9223372036854775807 in Hfit.
    unfold try_from, usize_checked_add, usize_MAX, u64_MAX, u32_MAX.
    rewrite decide_True by lia. cbn [ok_or mbind result_bind].
    rewrite decide_True by lia. cbn [mbind option_bind].
    by rewrite decide_True by lia. }
  eexists. split_and!; [exact E| |by eapply encode_decode].
  rewrite !blen_app. unfold blen at 1. rewrite length_be_bytes. lia.
Qed.

Definition sample_header : ChunkFrameHeader :=
  ChunkFrameHeader_new "t" 0 zeros64.

Lemma binary_frame_roundtrip_witness :
  ∃ frame, @encode_binary_frame _ (countable_serde ChunkFrameHeader)
             sample_header [Byte.x01; Byte.x02] = Ok frame
    ∧ blen frame = 4 + blen (bits_of (encode sample_header)) + 2
    ∧ @decode_binary_frame _ (countable_serde ChunkFrameHeader) frame
      = Ok (sample_header, [Byte.x01; Byte.x02]).
Proof.
  apply (@binary_frame_roundtrip _ (countable_serde ChunkFrameHeader)
           (countable_serde_roundtrip ChunkFrameHeader) sample_header
           (bits_of (encode sample_header)) [Byte.x01; Byte.x02]).
  - reflexivity.
  - vm_compute; discriminate.
  - vm_compute; discriminate.
Defined.

(** Decoding refuses every input whose length prefix is missing, over the
    header cap, or past the end of the data, and never produces a payload that
    is not the exact suffix of the frame after the declared header. *)
Theorem binary_frame_decode_bounds (H : Type) (J : SerdeJson H) (data : bytes)
    (h : H) (payload : bytes)
    (Hdec : decode_binary_frame data = Ok (h, payload)) :
  ∃ hb, from_slice hb = Ok h
    ∧ data = take 4 data ++ hb ++ payload
    ∧ blen hb = be_value (take 4 data)
    ∧ blen hb ≤ MAX_BINARY_FRAME_HEADER_BYTES
    ∧ blen data = 4 + blen hb + blen payload.
Proof.
  assert (4 ≤ blen data) as H4.
  { unfold decode_binary_frame in Hdec. case_decide; [done|lia]. }
  apply decode_Ok in Hdec as (len & hb & Hd & Hl & -> & Hm & Hs).
  exists hb. split_and!; [done|done|done|lia|].
  rewrite Hd at 1. rewrite !blen_app. unfold blen in H4 |- *. rewrite length_take. lia.
Qed.

Lemma binary_frame_decode_bounds_witness :
  ∃ hb, @from_slice _ (countable_serde bool) hb = Ok false
    ∧ be_bytes 4 1 ++ [Byte.x31] ++ [Byte.x07]
      = take 4 (be_bytes 4 1 ++ [Byte.x31] ++ [Byte.x07]) ++ hb ++ [Byte.x07]
    ∧ blen hb = be_value (take 4 (be_bytes 4 1 ++ [Byte.x31] ++ [Byte.x07]))
    ∧ blen hb ≤ MAX_BINARY_FRAME_HEADER_BYTES
    ∧ blen (be_bytes 4 1 ++ [Byte.x31] ++ [Byte.x07]) = 4 + blen hb + blen [Byte.x07].
Proof.
  apply (@binary_frame_decode_bounds _ (countable_serde bool)
           (be_bytes 4 1 ++ [Byte.x31] ++ [Byte.x07]) false [Byte.x07]).
  vm_compute. reflexivity.
Defined.
