(* ===== verification/GxHash.v ===== *)
(** * Streaming SHA-256 helpers

    [foundation/gawdxfer/src/hash.rs].  The [sha2] crate is third-party: a
    hasher is a class with an initial state, [update] and the lowercase-hex
    [finalize]; the streaming results need that updating twice is updating with
    the concatenation ([ShaStreaming]), and the engine needs that a digest is
    64 lowercase hex digits ([ShaHex]).

    A reader is the bytes still to be read and a script of what the operating
    system returns at the successive [read] calls: how many bytes it is willing
    to deliver (a short read), or an error. *)

From S2P Require Import Prelude GxShape.

(** ** The hasher seam *)

Class Sha256 : Type := {
  sha_state : Type;
  sha_new : sha_state;
  sha_update : sha_state → bytes → sha_state;
  sha256_hex : sha_state → string
}.

Class ShaStreaming `{!Sha256} : Prop := {
  sha_update_nil : ∀ s, sha_update s [] = s;
  sha_update_app : ∀ s a b, sha_update (sha_update s a) b = sha_update s (a ++ b)
}.

Class ShaHex `{!Sha256} : Prop :=
  sha256_hex_is_ok : ∀ s, sha256_hex_ok (sha256_hex s).

(** ** Readers *)

Record Reader : Type := mkReader {
  rd_rest : bytes;
  rd_script : list (result string N)
}.

(** One [read(&mut buf[..cap])]: at least one byte unless at the end of the
    input, at most [cap], possibly fewer than asked for. *)
Definition read (r : Reader) (cap : N) : result string (bytes * Reader) :=
  match rd_script r with
  | [] =>
      let n := N.to_nat cap in
      Ok (take n (rd_rest r), mkReader (drop n (rd_rest r)) [])
  | Err e :: _ => Err e
  | Ok g :: script =>
      let n := N.to_nat (N.min cap (N.max 1 g)) in
      Ok (take n (rd_rest r), mkReader (drop n (rd_rest r)) script)
  end.

(** The reads of a script all succeed. *)
Definition reads_succeed (r : Reader) : Prop := Forall (fun x => is_ok x = true) (rd_script r).

Section hash.
  Context `{!Sha256}.

Definition hash_bytes (data : bytes) : string := sha256_hex (sha_update sha_new data).

(** The read loop of [hash_reader].  Every iteration that continues consumes at
    least one byte, so [S (length rest)] iterations are enough. *)
Fixpoint hash_reader_loop (fuel : nat) (r : Reader) (h : sha_state) : option (result string string) :=
  match fuel with
  | O => None
  | S fuel =>
      match read r HASH_BLOCK_BYTES with
      | Err e => Some (Err e)
      | Ok ([], _) => Some (Ok (sha256_hex h))
      | Ok (buf, r') => hash_reader_loop fuel r' (sha_update h buf)
      end
  end.

Definition hash_reader (r : Reader) : option (result string string) :=
  hash_reader_loop (S (length (rd_rest r))) r sha_new.

(** The read loop of [hash_region], with [remaining] bytes still wanted. *)
Fixpoint hash_region_loop (fuel : nat) (r : Reader) (remaining : N) (h : sha_state) :
    option (result string string) :=
  match fuel with
  | O => None
  | S fuel =>
      if decide (remaining = 0) then Some (Ok (sha256_hex h))
      else
        match read r (N.min remaining HASH_BLOCK_BYTES) with
        | Err e => Some (Err e)
        | Ok ([], _) =>
            Some (Err ("region ended " +:+ dec remaining +:+ " bytes before requested length"))
        | Ok (buf, r') => hash_region_loop fuel r' (remaining - blen buf) (sha_update h buf)
        end
  end.

(** [seek] positions the reader at [offset] of the whole input [data], or fails. *)
Definition hash_region (data : bytes) (script : list (result string N))
    (seek : result string unit) (offset len : N) : option (result string string) :=
  match seek with
  | Err e => Some (Err e)
  | Ok _ =>
      hash_region_loop (S (N.to_nat len)) (mkReader (drop (N.to_nat offset) data) script)
        len sha_new
  end.

(** ** The loops compute the one-shot digest *)

Lemma read_succeeds r cap :
  reads_succeed r → 0 < cap →
  ∃ n script, read r cap = Ok (take n (rd_rest r), mkReader (drop n (rd_rest r)) script)
    ∧ (0 < n)%nat ∧ N.of_nat n ≤ cap ∧ Forall (fun x => is_ok x = true) script.
Proof.
  unfold reads_succeed, read. intros Hs Hc. destruct (rd_script r) as [|[g|e] script].
  - eexists _, []. split_and!; [done|lia|lia|constructor].
  - apply Forall_cons in Hs as [_ Hs].
    eexists _, script. split_and!; [done|lia|lia|done].
  - apply Forall_cons in Hs as [Hs _]. done.
Qed.

Lemma take_eq_nil {A} n (l : list A) : (0 < n)%nat → take n l = [] → l = [].
Proof. destruct n, l; cbn; try done; lia. Qed.

Context `{!ShaStreaming}.

Lemma hash_reader_loop_spec fuel r h :
  reads_succeed r → (length (rd_rest r) < fuel)%nat →
  hash_reader_loop fuel r h = Some (Ok (sha256_hex (sha_update h (rd_rest r)))).
Proof.
  revert r h. induction fuel as [|fuel IH]; intros r h Hs Hf; [lia|]. cbn.
  destruct (read_succeeds r HASH_BLOCK_BYTES Hs ltac:(done)) as (n & script & -> & Hn & _ & Hs').
  destruct (take n (rd_rest r)) as [|b buf] eqn:E.
  - apply take_eq_nil in E; [|done]. by rewrite E, sha_update_nil.
  - rewrite IH; cbn [rd_rest rd_script]; [|done|].
    + by rewrite sha_update_app, <-E, take_drop.
    + apply (f_equal length) in E. rewrite length_take in E. rewrite length_drop. cbn in E. lia.
Qed.

Lemma hash_region_loop_spec fuel r len h :
  reads_succeed r → (N.to_nat len < fuel)%nat →
  hash_region_loop fuel r len h =
  Some (if decide (len ≤ blen (rd_rest r)) then
          Ok (sha256_hex (sha_update h (take (N.to_nat len) (rd_rest r))))
        else Err ("region ended " +:+ dec (len - blen (rd_rest r))
                  +:+ " bytes before requested length")).
Proof.
  revert r len h. induction fuel as [|fuel IH]; intros r len h Hs Hf; [lia|]. cbn.
  case_decide as Hl.
  { subst. rewrite decide_True by lia. cbn. by rewrite take_0, sha_update_nil. }
  destruct (read_succeeds r (N.min len HASH_BLOCK_BYTES) Hs)
    as (n & script & -> & Hn & Hn' & Hs').
  { unfold HASH_BLOCK_BYTES. lia. }
  destruct (take n (rd_rest r)) as [|b buf] eqn:E.
  - apply take_eq_nil in E; [|done]. rewrite E. unfold blen. cbn.
    rewrite decide_False by lia. by rewrite N.sub_0_r.
  - assert (N.of_nat (length (b :: buf)) = N.min (N.of_nat n) (blen (rd_rest r))) as Hlen.
    { rewrite <-E, length_take. unfold blen. lia. }
    rewrite IH; cbn [rd_rest rd_script]; [|done|unfold blen; cbn [length]; lia].
    unfold blen in *. rewrite length_drop.
    repeat case_decide; try (exfalso; lia).
    + rewrite sha_update_app, <-E, take_take_drop, length_take. do 5 f_equal. lia.
    + do 5 f_equal. lia.
Qed.
End hash.

(** ** A concrete hasher for closed examples: the digest is constantly zero. *)

Definition zero_sha : Sha256 :=
  {| sha_state := bytes; sha_new := []; sha_update s b := s ++ b;
     sha256_hex _ := "0000000000000000000000000000000000000000000000000000000000000000" |}.

Lemma zero_sha_streaming : @ShaStreaming zero_sha.
Proof. split; cbn; intros; [by rewrite app_nil_r | by rewrite app_assoc]. Qed.

Lemma zero_sha_hex : @ShaHex zero_sha.
Proof. intros s. by split. Qed.

(** ** Properties *)

(** Streaming a reader in 64 KiB blocks, whatever short reads the operating
    system makes, terminates with the digest of the whole input. *)
Theorem hash_reader_is_hash_bytes (S : Sha256) (L : ShaStreaming) (r : Reader)
    (Hreads : reads_succeed r) :
  hash_reader r = Some (Ok (hash_bytes (rd_rest r))).
Proof. unfold hash_reader, hash_bytes. apply hash_reader_loop_spec; [done|lia]. Qed.

Lemma hash_reader_is_hash_bytes_witness :
  @hash_reader zero_sha (mkReader [Byte.x01; Byte.x02; Byte.x03] [Ok 1; Ok 0])
  = Some (Ok (@hash_bytes zero_sha [Byte.x01; Byte.x02; Byte.x03])).
Proof.
  apply (@hash_reader_is_hash_bytes zero_sha zero_sha_streaming
           (mkReader [Byte.x01; Byte.x02; Byte.x03] [Ok 1; Ok 0])).
  repeat constructor.
Defined.

(** Hashing a region reads exactly the requested span: the digest of those
    bytes when they exist, and an end-of-file error naming the missing count
    when the input is too short. *)
Theorem hash_region_is_hash_of_span (S : Sha256) (L : ShaStreaming) (data : bytes)
    (script : list (result string N)) (offset len : N)
    (Hreads : Forall (fun x => is_ok x = true) script) :
  let rest := drop (N.to_nat offset) data in
  hash_region data script (Ok tt) offset len =
  Some (if decide (len ≤ blen rest) then Ok (hash_bytes (take (N.to_nat len) rest))
        else Err ("region ended " +:+ dec (len - blen rest) +:+ " bytes before requested length")).
Proof. intros rest. unfold hash_region, hash_bytes. apply hash_region_loop_spec; [done|lia]. Qed.

Lemma hash_region_is_hash_of_span_witness :
  @hash_region zero_sha [Byte.x01; Byte.x02; Byte.x03] [Ok 1] (Ok tt) 1 5
  = Some (Err "region ended 3 bytes before requested length").
Proof.
  apply (@hash_region_is_hash_of_span zero_sha zero_sha_streaming
           [Byte.x01; Byte.x02; Byte.x03] [Ok 1] 1 5).
  repeat constructor.
Defined.
