(* ===== verification/GxEngine.v ===== *)
(** * The GX transfer engine: sender plan and in-memory receiver

    [foundation/gawdxfer/src/engine.rs]: [TransferPlan] (construction, chunk
    bounds, chunk headers and frames) and [ChunkAssembler] (the in-memory
    receiver), with [TransferChunkError].

    Operations on [&mut self] take and return the receiver.  A result of [None]
    is a panic (an index or slice out of bounds); that it never happens is
    proved from the receiver's invariant. *)

From S2P Require Import Prelude Serde GxShape GxWire GxFrame GxHash.

(** ** Errors *)

Inductive TransferPlanError : Type :=
  | ChunkPlan (e : ChunkPlanError)
  | InvalidTransferId (message : string)
  | InvalidFileHash (message : string).

Definition TransferPlanError_to_string (e : TransferPlanError) : string :=
  match e with
  | ChunkPlan e => ChunkPlanError_to_string e
  | InvalidTransferId e => e
  | InvalidFileHash e => e
  end.

Inductive TransferChunkError : Type :=
  | FileTooLarge (file_size : N)
  | FileExceedsInMemoryLimit (file_size max_file_size : N)
  | FileExceedsTransferLimit (file_size max_file_size : N)
  | SourceSizeMismatch (expected actual : N)
  | ChunkOutOfRange (chunk_index total_chunks : N)
  | TransferIdMismatch (expected actual : string)
  | TotalChunksMismatch (expected actual : N)
  | PlanShape (message : string)
  | HeaderShape (message : string)
  | ChunkLengthMismatch (chunk_index expected actual : N)
  | ChunkHashMismatch (chunk_index : N) (expected actual : string)
  | DuplicateChunkMismatch (chunk_index : N)
  | Incomplete (chunks_done total_chunks : N)
  | WholeHashMismatch (expected actual : string)
  | Io (operation message : string)
  | Frame (e : FrameError).

#[export] Instance TransferChunkError_eq_dec : EqDecision TransferChunkError.
Proof. solve_decision. Defined.

Definition TransferChunkError_to_string (e : TransferChunkError) : string :=
  match e with
  | FileTooLarge file_size => "file size " +:+ dec file_size +:+ " does not fit this platform"
  | FileExceedsInMemoryLimit file_size max_file_size =>
      "file size " +:+ dec file_size +:+ " exceeds in-memory transfer limit "
      +:+ dec max_file_size
  | FileExceedsTransferLimit file_size max_file_size =>
      "file size " +:+ dec file_size +:+ " exceeds transfer limit " +:+ dec max_file_size
  | SourceSizeMismatch expected actual =>
      "source is " +:+ dec actual +:+ " bytes, expected " +:+ dec expected
  | ChunkOutOfRange chunk_index total_chunks =>
      "chunk index " +:+ dec chunk_index +:+ " out of range for " +:+ dec total_chunks
      +:+ " chunks"
  | TransferIdMismatch expected actual =>
      "chunk transfer_id `" +:+ actual +:+ "` does not match expected `" +:+ expected +:+ "`"
  | TotalChunksMismatch expected actual =>
      "chunk total_chunks " +:+ dec actual +:+ " does not match expected " +:+ dec expected
  | PlanShape error => error
  | HeaderShape error => error
  | ChunkLengthMismatch chunk_index expected actual =>
      "chunk " +:+ dec chunk_index +:+ " is " +:+ dec actual +:+ " bytes, expected "
      +:+ dec expected
  | ChunkHashMismatch chunk_index expected actual =>
      "chunk " +:+ dec chunk_index +:+ " hash mismatch: expected " +:+ expected +:+ ", got "
      +:+ actual
  | DuplicateChunkMismatch chunk_index =>
      "duplicate chunk " +:+ dec chunk_index +:+ " does not match retained bytes"
  | Incomplete chunks_done total_chunks =>
      "transfer incomplete: " +:+ dec chunks_done +:+ "/" +:+ dec total_chunks
      +:+ " chunks received"
  | WholeHashMismatch expected actual =>
      "whole-file hash mismatch: expected " +:+ expected +:+ ", got " +:+ actual
  | Io operation message => operation +:+ " failed: " +:+ message
  | Frame error => FrameError_to_string error
  end.

(** ** The sender's plan *)

Definition TransferPlan_new (transfer_id : string) (file_size : N) (file_hash : string)
    (chunk_size : N) : result TransferPlanError TransferPlan :=
  match chunk_id_shape_error "transfer_id" transfer_id MAX_TRANSFER_ID_BYTES with
  | Some error => Err (InvalidTransferId error)
  | None =>
      match sha256_hex_shape_error "file_hash" file_hash with
      | Some error => Err (InvalidFileHash error)
      | None =>
          total_chunks ← map_err ChunkPlan (compute_chunks file_size chunk_size);
          Ok (mkTransferPlan transfer_id file_size file_hash chunk_size total_chunks)
      end
  end.

(** A half-open byte range [start..end]. *)
Definition range : Type := N * N.
Definition range_len (r : range) : N := r.2 - r.1.

(** [&source[range]]. *)
Definition slice (l : bytes) (r : range) : bytes :=
  take (N.to_nat (range_len r)) (drop (N.to_nat r.1) l).

Definition chunk_bounds (p : TransferPlan) (chunk_index : N) :
    result TransferChunkError range :=
  match TransferPlan_shape_error p with
  | Some error => Err (PlanShape error)
  | None =>
      if decide (tp_total_chunks p ≤ chunk_index) then
        Err (ChunkOutOfRange chunk_index (tp_total_chunks p))
      else
        let start_u64 := u64_mul chunk_index (tp_chunk_size p) in
        let end_u64 :=
          N.max (N.min (u64_add start_u64 (tp_chunk_size p)) (tp_file_size p)) start_u64 in
        s ← ok_or (try_from usize_MAX start_u64) (FileTooLarge (tp_file_size p));
        e ← ok_or (try_from usize_MAX end_u64) (FileTooLarge (tp_file_size p));
        Ok (s, e)
  end.

Definition chunk_request (p : TransferPlan) (chunk_index : N) :
    result TransferChunkError ChunkRequest :=
  _ ← chunk_bounds p chunk_index;
  Ok (mkChunkRequest (tp_transfer_id p) chunk_index).

(** ** The in-memory receiver *)

Record ChunkAssembler : Type := mkChunkAssembler {
  ca_plan : TransferPlan;
  ca_received : list bool;
  ca_bytes_received : N;
  ca_buffer : bytes
}.

Record ChunkAccept : Type := mkChunkAccept {
  acc_chunk_index : N;
  acc_duplicate : bool;
  acc_complete : bool
}.

Definition with_max_file_size (plan : TransferPlan) (max_file_size : N) :
    result TransferChunkError ChunkAssembler :=
  match TransferPlan_shape_error plan with
  | Some error => Err (PlanShape error)
  | None =>
      if decide (max_file_size ≠ 0 ∧ max_file_size < tp_file_size plan) then
        Err (FileExceedsInMemoryLimit (tp_file_size plan) max_file_size)
      else
        buffer_len ← ok_or (try_from usize_MAX (tp_file_size plan))
                       (FileTooLarge (tp_file_size plan));
        Ok (mkChunkAssembler plan (replicate (N.to_nat (tp_total_chunks plan)) false) 0
              (replicate (N.to_nat buffer_len) Byte.x00))
  end.

Definition ChunkAssembler_new (plan : TransferPlan) : result TransferChunkError ChunkAssembler :=
  with_max_file_size plan DEFAULT_MAX_IN_MEMORY_TRANSFER_BYTES.

(** [filter(..).count() as u32]. *)
Definition count_received (received : list bool) : N :=
  N.of_nat (length (filter (fun b => b = true) received)) mod (u32_MAX + 1).

Definition chunks_done (a : ChunkAssembler) : N := count_received (ca_received a).
Definition is_complete (a : ChunkAssembler) : bool := forallb id (ca_received a).

(** The chunk indices whose slot is still [false], ascending; [i as u32]. *)
Fixpoint missing_from (i : N) (received : list bool) : list N :=
  match received with
  | [] => []
  | true :: rest => missing_from (i + 1) rest
  | false :: rest => i mod (u32_MAX + 1) :: missing_from (i + 1) rest
  end.
Definition missing_chunks (a : ChunkAssembler) : list N := missing_from 0 (ca_received a).

(** [buffer[range].copy_from_slice(payload)] for a range within the buffer. *)
Definition splice (l : bytes) (r : range) (payload : bytes) : bytes :=
  take (N.to_nat r.1) l ++ payload ++ drop (N.to_nat r.2) l.

Section engine.
  Context `{!Sha256} `{!SerdeJson ChunkFrameHeader}.

Definition TransferPlan_from_bytes (transfer_id : string) (data : bytes) (chunk_size : N) :
    result TransferPlanError TransferPlan :=
  TransferPlan_new transfer_id (blen data) (hash_bytes data) chunk_size.

Definition chunk (p : TransferPlan) (source : bytes) (chunk_index : N) :
    result TransferChunkError (ChunkFrameHeader * bytes) :=
  if decide (blen source ≠ tp_file_size p) then
    Err (SourceSizeMismatch (tp_file_size p) (blen source))
  else
    range ← chunk_bounds p chunk_index;
    let payload := slice source range in
    let header :=
      with_total_chunks
        (ChunkFrameHeader_new (tp_transfer_id p) chunk_index (hash_bytes payload))
        (tp_total_chunks p) in
    Ok (header, payload).

Definition encode_chunk (p : TransferPlan) (source : bytes) (chunk_index : N) :
    result TransferChunkError bytes :=
  '(header, payload) ← chunk p source chunk_index;
  map_err Frame (encode_binary_frame header payload).

(** The declared chunk count, when the header carries one that is not the plan's. *)
Definition total_chunks_mismatch (plan : TransferPlan) (header : ChunkFrameHeader) : option N :=
  match cf_total_chunks header with
  | Some total_chunks =>
      if decide (total_chunks ≠ tp_total_chunks plan) then Some total_chunks else None
  | None => None
  end.

(** The checks both receivers make before they touch their store: the chunk's
    byte range, or the error of the first check that fails. *)
Definition check_chunk (plan : TransferPlan) (header : ChunkFrameHeader) (payload : bytes) :
    result TransferChunkError range :=
  match ChunkFrameHeader_shape_error header with
  | Some error => Err (HeaderShape error)
  | None =>
      match total_chunks_mismatch plan header with
      | Some actual => Err (TotalChunksMismatch (tp_total_chunks plan) actual)
      | None =>
      if decide (cf_transfer_id header ≠ tp_transfer_id plan) then
        Err (TransferIdMismatch (tp_transfer_id plan) (cf_transfer_id header))
      else
        range ← chunk_bounds plan (cf_chunk_index header);
        if decide (blen payload ≠ range_len range) then
          Err (ChunkLengthMismatch (cf_chunk_index header) (range_len range) (blen payload))
        else
          let actual_hash := hash_bytes payload in
          if decide (actual_hash ≠ cf_chunk_hash header) then
            Err (ChunkHashMismatch (cf_chunk_index header) (cf_chunk_hash header) actual_hash)
          else Ok range
      end
  end.

Definition accept_chunk (a : ChunkAssembler) (header : ChunkFrameHeader) (payload : bytes) :
    option (result TransferChunkError ChunkAccept * ChunkAssembler) :=
  match check_chunk (ca_plan a) header payload with
  | Err e => Some (Err e, a)
  | Ok range =>
      let slot := N.to_nat (cf_chunk_index header) in
      duplicate ← ca_received a !! slot;
      if decide (blen (ca_buffer a) < range.2) then None
      else if (duplicate : bool) then
        if decide (slice (ca_buffer a) range ≠ payload) then
          Some (Err (DuplicateChunkMismatch (cf_chunk_index header)), a)
        else
          Some (Ok (mkChunkAccept (cf_chunk_index header) true (is_complete a)), a)
      else
        let a' :=
          mkChunkAssembler (ca_plan a) (<[slot := true]> (ca_received a))
            (u64_add (ca_bytes_received a) (blen payload))
            (splice (ca_buffer a) range payload) in
        Some (Ok (mkChunkAccept (cf_chunk_index header) false (is_complete a')), a')
  end.

Definition accept_binary_frame (a : ChunkAssembler) (frame : bytes) :
    option (result TransferChunkError ChunkAccept * ChunkAssembler) :=
  match map_err Frame (decode_binary_frame frame) with
  | Err e => Some (Err e, a)
  | Ok (header, payload) => accept_chunk a header payload
  end.

Definition finish (a : ChunkAssembler) : result TransferChunkError bytes :=
  if negb (is_complete a) then
    Err (Incomplete (chunks_done a) (tp_total_chunks (ca_plan a)))
  else
    let actual := hash_bytes (ca_buffer a) in
    if decide (actual ≠ tp_file_hash (ca_plan a)) then
      Err (WholeHashMismatch (tp_file_hash (ca_plan a)) actual)
    else Ok (ca_buffer a).

(** A session: the binary frames a transport feeds the receiver, in arrival
    order; the replies and the receiver after the last one. *)
Fixpoint accept_frames (a : ChunkAssembler) (frames : list bytes) :
    option (list (result TransferChunkError ChunkAccept) * ChunkAssembler) :=
  match frames with
  | [] => Some ([], a)
  | frame :: frames =>
      '(r, a') ← accept_binary_frame a frame;
      '(rs, a'') ← accept_frames a' frames;
      Some (r :: rs, a'')
  end.
End engine.

(** ** Byte ranges *)

(** The two buffers agree on a range. *)
Definition agree_on (r : range) (l k : bytes) : Prop :=
  ∀ j : nat, r.1 ≤ N.of_nat j < r.2 → l !! j = k !! j.

Lemma lookup_slice l r j :
  N.of_nat j < range_len r → slice l r !! j = l !! (N.to_nat r.1 + j)%nat.
Proof. intros Hj. unfold slice. rewrite lookup_take_lt, lookup_drop by lia. done. Qed.

Lemma blen_slice l r : r.2 ≤ blen l → blen (slice l r) = range_len r.
Proof.
  unfold blen, slice, range_len. intros. rewrite length_take, length_drop. lia.
Qed.

Lemma slice_agree r l k :
  r.2 ≤ blen l → r.2 ≤ blen k → slice l r = slice k r ↔ agree_on r l k.
Proof.
  intros Hl Hk. split.
  - intros E j Hj. unfold range_len in *.
    pose proof (lookup_slice l r (j - N.to_nat r.1)) as H1.
    pose proof (lookup_slice k r (j - N.to_nat r.1)) as H2.
    unfold range_len in *. rewrite E in H1.
    replace (N.to_nat r.1 + (j - N.to_nat r.1))%nat with j in * by lia.
    rewrite <-H1, <-H2 by lia. done.
  - intros Ha. apply list_eq. intros j.
    destruct (decide (N.of_nat j < range_len r)) as [Hj|Hj].
    + rewrite !lookup_slice by done. apply Ha. unfold range_len in Hj. lia.
    + pose proof (blen_slice l r Hl). pose proof (blen_slice k r Hk). unfold blen in *.
      rewrite !lookup_ge_None_2 by lia. done.
Qed.

Section splice.
  Context (l payload : bytes) (r : range).
  Context (Hle : r.1 ≤ r.2) (Hin : r.2 ≤ blen l) (Hlen : blen payload = range_len r).

Lemma blen_splice : blen (splice l r payload) = blen l.
Proof.
  unfold blen, splice, range_len in *. rewrite !length_app, length_take, length_drop. lia.
Qed.

Lemma lookup_splice_out j :
  N.of_nat j < r.1 ∨ r.2 ≤ N.of_nat j → splice l r payload !! j = l !! j.
Proof.
  unfold blen, splice, range_len in *. intros [Hj|Hj].
  - rewrite lookup_app_l by (rewrite length_take; lia). by rewrite lookup_take_lt by lia.
  - rewrite lookup_app_r by (rewrite length_take; lia). rewrite length_take.
    rewrite lookup_app_r by lia. rewrite lookup_drop. f_equal. lia.
Qed.

Lemma slice_splice : slice (splice l r payload) r = payload.
Proof.
  unfold slice, splice, blen, range_len in *.
  rewrite drop_app_length' by (rewrite length_take; lia).
  rewrite take_app_length' by lia. done.
Qed.
End splice.

(** ** Chunk bounds *)

Section bounds.
  Context (p : TransferPlan) (Hp : plan_ok p).

Lemma plan_pos : 0 < tp_chunk_size p.
Proof. destruct (plan_chunk_size p Hp). unfold MIN_CHUNK_SIZE in *. lia. Qed.

Lemma chunk_start_le i : i < tp_total_chunks p → i * tp_chunk_size p ≤ tp_file_size p.
Proof.
  intros Hi. destruct (plan_tiles p Hp) as (_ & _ & H & H0).
  destruct (decide (tp_file_size p = 0)) as [E|E].
  - rewrite H0 in Hi by done. replace i with 0 by lia. lia.
  - specialize (H ltac:(lia)). pose proof plan_pos. nia.
Qed.

Lemma chunk_product_fits i :
  i < tp_total_chunks p → i * tp_chunk_size p + tp_chunk_size p ≤ u64_MAX.
Proof.
  intros Hi. destruct (plan_chunk_size p Hp) as [_ Hc]. pose proof (plan_count p Hp) as Hn.
  unfold MAX_CHUNK_SIZE, u32_MAX, u64_MAX in *. nia.
Qed.

(** The range of a chunk: no arithmetic wraps and [.max(start)] is idle. *)
Definition chunk_range (i : N) : range :=
  (i * tp_chunk_size p, N.min (i * tp_chunk_size p + tp_chunk_size p) (tp_file_size p)).

Lemma chunk_bounds_Ok i r :
  chunk_bounds p i = Ok r ↔ i < tp_total_chunks p ∧ r = chunk_range i.
Proof.
  unfold chunk_bounds. rewrite (proj2 (TransferPlan_shape_error_None p) Hp).
  case_decide as Hi; [split; [done|lia]|].
  pose proof (chunk_product_fits i ltac:(lia)) as Hfit.
  pose proof (chunk_start_le i ltac:(lia)) as Hle.
  rewrite u64_mul_exact, u64_add_exact by lia.
  rewrite N.max_l by lia. unfold chunk_range, try_from, usize_MAX.
  rewrite !decide_True by lia. cbn. split; [intros [= <-]; split; [lia|done]|].
  by intros [_ ->].
Qed.

Lemma chunk_range_in i :
  i < tp_total_chunks p →
  (chunk_range i).1 ≤ (chunk_range i).2 ∧ (chunk_range i).2 ≤ tp_file_size p.
Proof. intros Hi. pose proof (chunk_start_le i Hi). unfold chunk_range. cbn. lia. Qed.

(** Distinct chunks are disjoint. *)
Lemma chunk_range_disjoint i k (j : N) :
  (chunk_range i).1 ≤ j < (chunk_range i).2 → i ≠ k →
  j < (chunk_range k).1 ∨ (chunk_range k).2 ≤ j.
Proof. unfold chunk_range. cbn. pose proof plan_pos. intros ? ?. nia. Qed.

(** Every byte is in a chunk. *)
Lemma chunk_of_byte (j : N) :
  j < tp_file_size p →
  ∃ i, i < tp_total_chunks p ∧ (chunk_range i).1 ≤ j < (chunk_range i).2.
Proof.
  intros Hj. exists (j / tp_chunk_size p). pose proof plan_pos as Hc.
  pose proof (N.div_mod' j (tp_chunk_size p)) as Hd.
  pose proof (N.mod_lt j (tp_chunk_size p) ltac:(lia)) as Hm.
  destruct (plan_tiles p Hp) as (_ & Hcov & _).
  unfold chunk_range. cbn.
  generalize dependent (j mod tp_chunk_size p).
  generalize (j / tp_chunk_size p). intros q m Hd Hm. nia.
Qed.
End bounds.

(** ** Received-byte accounting *)

Fixpoint received_bytes (p : TransferPlan) (i : N) (received : list bool) : N :=
  match received with
  | [] => 0
  | b :: rest => (if b then range_len (chunk_range p i) else 0) + received_bytes p (i + 1) rest
  end.

Lemma received_bytes_insert p i received (k : nat) :
  received !! k = Some false →
  received_bytes p i (<[k := true]> received)
  = received_bytes p i received + range_len (chunk_range p (i + N.of_nat k)).
Proof.
  revert i k. induction received as [|b rest IH]; intros i [|k] Hk; cbn in Hk |- *; try done.
  - injection Hk as ->. rewrite N.add_0_r. lia.
  - change (list_insert k true rest) with (<[k := true]> rest).
    rewrite IH by done. replace (i + 1 + N.of_nat k) with (i + N.of_nat (S k)) by lia. lia.
Qed.

Lemma received_bytes_le p i received :
  received_bytes p i received
  ≤ N.min ((i + N.of_nat (length received)) * tp_chunk_size p) (tp_file_size p)
    - i * tp_chunk_size p.
Proof.
  revert i. induction received as [|b rest IH]; intros i; cbn [received_bytes length]; [lia|].
  specialize (IH (i + 1)).
  assert ((if b then range_len (chunk_range p i) else 0) ≤ range_len (chunk_range p i))
    by (destruct b; lia).
  replace (i + N.of_nat (S (length rest))) with (i + 1 + N.of_nat (length rest)) by lia.
  unfold range_len, chunk_range in *. cbn [fst snd] in *.
  set (n := N.of_nat (length rest)) in *.
  rewrite !N.mul_add_distr_r, N.mul_1_l in *. nia.
Qed.

Lemma received_bytes_false p i n : received_bytes p i (replicate n false) = 0.
Proof. revert i. induction n as [|n IH]; intros i; cbn; [done|]. apply IH. Qed.

(** ** The receiver's invariant *)

Record assembler_ok (a : ChunkAssembler) : Prop := {
  ao_plan : plan_ok (ca_plan a);
  ao_fits : tp_file_size (ca_plan a) ≤ u64_MAX;
  ao_received : N.of_nat (length (ca_received a)) = tp_total_chunks (ca_plan a);
  ao_buffer : blen (ca_buffer a) = tp_file_size (ca_plan a);
  ao_bytes : ca_bytes_received a = received_bytes (ca_plan a) 0 (ca_received a)
}.
#[local] Hint Resolve ao_plan ao_fits ao_received ao_buffer ao_bytes : alpha.

Lemma with_max_file_size_Ok plan m a :
  with_max_file_size plan m = Ok a →
  assembler_ok a ∧ ca_plan a = plan
  ∧ ca_received a = replicate (N.to_nat (tp_total_chunks plan)) false.
Proof.
  unfold with_max_file_size. case_match eqn:Hs; [done|]. case_decide; [done|].
  intros E. inv_result. subst. split; [|done].
  apply TransferPlan_shape_error_None in Hs.
  split; cbn; [done|done|rewrite length_replicate; lia| |by rewrite received_bytes_false].
  unfold blen. rewrite length_replicate. lia.
Qed.

Lemma received_bytes_bound a :
  assembler_ok a → received_bytes (ca_plan a) 0 (ca_received a) ≤ tp_file_size (ca_plan a).
Proof. intros Ha. etrans; [apply received_bytes_le|]. lia. Qed.

Section assembler.
  Context `{!Sha256}.

(** What passing the common checks says about a chunk. *)
Lemma check_chunk_Ok plan h payload r :
  plan_ok plan →
  check_chunk plan h payload = Ok r →
  cf_chunk_index h < tp_total_chunks plan ∧ r = chunk_range plan (cf_chunk_index h)
  ∧ blen payload = range_len r ∧ hash_bytes payload = cf_chunk_hash h
  ∧ cf_transfer_id h = tp_transfer_id plan.
Proof.
  intros Hp. unfold check_chunk. case_match; [done|]. case_match; [done|].
  case_decide as Hid; [done|]. intros E. apply bind_Ok in E as (r' & Hb & E).
  apply (chunk_bounds_Ok _ Hp) in Hb as [Hi ->].
  repeat case_decide; try done. injection E as <-. to_prop. done.
Qed.

(** A new chunk is written, a retained one is compared; nothing panics. *)
Lemma accept_chunk_cases a h payload :
  assembler_ok a →
  (∃ e, accept_chunk a h payload = Some (Err e, a))
  ∨ (check_chunk (ca_plan a) h payload = Ok (chunk_range (ca_plan a) (cf_chunk_index h))
     ∧ ca_received a !! N.to_nat (cf_chunk_index h) = Some true
     ∧ slice (ca_buffer a) (chunk_range (ca_plan a) (cf_chunk_index h)) = payload
     ∧ accept_chunk a h payload
       = Some (Ok (mkChunkAccept (cf_chunk_index h) true (is_complete a)), a))
  ∨ (check_chunk (ca_plan a) h payload = Ok (chunk_range (ca_plan a) (cf_chunk_index h))
     ∧ ca_received a !! N.to_nat (cf_chunk_index h) = Some false
     ∧ let a' := mkChunkAssembler (ca_plan a)
                   (<[N.to_nat (cf_chunk_index h) := true]> (ca_received a))
                   (u64_add (ca_bytes_received a) (blen payload))
                   (splice (ca_buffer a) (chunk_range (ca_plan a) (cf_chunk_index h)) payload) in
       accept_chunk a h payload
       = Some (Ok (mkChunkAccept (cf_chunk_index h) false (is_complete a')), a')).
Proof.
  intros Ha. unfold accept_chunk.
  destruct (check_chunk (ca_plan a) h payload) as [r|e] eqn:Hc; [|by left; eexists].
  apply check_chunk_Ok in Hc as (Hi & -> & _); [|by apply Ha].
  destruct (lookup_lt_is_Some_2 (ca_received a) (N.to_nat (cf_chunk_index h))) as [d Hd].
  { pose proof (ao_received a Ha). lia. }
  rewrite Hd. cbn [mbind option_bind].
  rewrite decide_False by (rewrite (ao_buffer a Ha);
    pose proof (chunk_range_in _ (ao_plan a Ha) _ Hi); lia).
  destruct d; [|naive_solver]. case_decide; [left; eauto|]. to_prop. naive_solver.
Qed.

Lemma write_chunk_ok a i payload :
  assembler_ok a → i < tp_total_chunks (ca_plan a) →
  ca_received a !! N.to_nat i = Some false →
  blen payload = range_len (chunk_range (ca_plan a) i) →
  assembler_ok (mkChunkAssembler (ca_plan a) (<[N.to_nat i := true]> (ca_received a))
                  (u64_add (ca_bytes_received a) (blen payload))
                  (splice (ca_buffer a) (chunk_range (ca_plan a) i) payload)).
Proof.
  intros Ha Hi Hs Hlen. pose proof (chunk_range_in _ (ao_plan a Ha) i Hi) as [Hr1 Hr2].
  rewrite <-(ao_buffer a Ha) in Hr2.
  pose proof (received_bytes_insert (ca_plan a) 0 _ _ Hs) as Hins.
  rewrite N.add_0_l, N2Nat.id in Hins.
  split; cbn [ca_plan ca_received ca_bytes_received ca_buffer];
    [apply Ha|apply Ha|rewrite length_insert; apply Ha|by rewrite blen_splice; [apply Ha|..]|].
  rewrite Hins, Hlen, (ao_bytes a Ha). apply u64_add_exact. rewrite <-Hins.
  pose proof (received_bytes_le (ca_plan a) 0 (<[N.to_nat i:=true]> (ca_received a))) as Hle.
  pose proof (ao_fits a Ha). lia.
Qed.

(** Every accept keeps the invariant, keeps the plan, and never panics. *)
Lemma accept_chunk_ok a h payload :
  assembler_ok a →
  ∃ r a', accept_chunk a h payload = Some (r, a') ∧ assembler_ok a'
    ∧ ca_plan a' = ca_plan a ∧ (is_ok r = false → a' = a).
Proof.
  intros Ha.
  destruct (accept_chunk_cases a h payload Ha)
    as [[e E]|[(_ & _ & _ & E)|(Hc & Hs & E)]].
  - exists (Err e), a. done.
  - rewrite E. eauto 10.
  - cbn in E. rewrite E. eexists _, _. split_and!; [done| |done|done].
    apply check_chunk_Ok in Hc as (Hi & _ & Hl & _); [|by apply Ha].
    by apply write_chunk_ok.
Qed.

Context `{!SerdeJson ChunkFrameHeader}.

Lemma accept_binary_frame_ok a frame :
  assembler_ok a →
  ∃ r a', accept_binary_frame a frame = Some (r, a') ∧ assembler_ok a'
    ∧ ca_plan a' = ca_plan a ∧ (is_ok r = false → a' = a).
Proof.
  intros Ha. unfold accept_binary_frame.
  destruct (decode_binary_frame frame) as [[h payload]|e]; cbn [map_err].
  - by apply accept_chunk_ok.
  - exists (Err (Frame e)), a. done.
Qed.

Lemma accept_frames_ok a frames :
  assembler_ok a →
  ∃ rs a', accept_frames a frames = Some (rs, a') ∧ assembler_ok a'
    ∧ ca_plan a' = ca_plan a.
Proof.
  revert a. induction frames as [|f frames IH]; intros a Ha; cbn; [eauto|].
  destruct (accept_binary_frame_ok a f Ha) as (r & a' & -> & Ha' & Hp & _).
  destruct (IH a' Ha') as (rs & a'' & Hrs & Ha'' & Hp'). cbn. rewrite Hrs. cbn.
  eexists _, _. split_and!; [done|done|congruence].
Qed.

Lemma finish_Ok a b :
  finish a = Ok b → b = ca_buffer a ∧ is_complete a = true
    ∧ hash_bytes b = tp_file_hash (ca_plan a).
Proof.
  unfold finish. destruct (is_complete a); cbn [negb]; [|done].
  case_decide; [done|]. intros [= <-]. by to_prop.
Qed.
End assembler.

(** ** Completion and gaps *)

Lemma is_complete_true a :
  is_complete a = true ↔ ∀ i b, ca_received a !! i = Some b → b = true.
Proof.
  unfold is_complete. rewrite <-Is_true_true, forallb_True, Forall_lookup. cbn.
  split; intros H i b Hi; specialize (H i b Hi); destruct b; done.
Qed.

Lemma elem_of_missing_from i received (m : N) :
  i + N.of_nat (length received) ≤ u32_MAX →
  m ∈ missing_from i received ↔
  ∃ k, received !! k = Some false ∧ m = i + N.of_nat k.
Proof.
  revert i. induction received as [|b rest IH]; intros i Hi; cbn [missing_from length] in *.
  - rewrite elem_of_nil. split; [done|]. intros (k & Hk & _). done.
  - assert (m ∈ missing_from (i + 1) rest ↔
            ∃ k, (b :: rest) !! S k = Some false ∧ m = i + N.of_nat (S k)) as IH'.
    { rewrite IH by lia. split; intros (k & Hk & ->); exists k; (split; [done|lia]). }
    destruct b.
    + rewrite IH'. split; [naive_solver|]. intros ([|k] & Hk & ->); [done|]. eauto.
    + rewrite elem_of_cons, IH', N.mod_small by lia. split.
      * intros [->|(k & Hk & ->)]; [exists 0%nat; split; [done|lia]|eauto].
      * intros ([|k] & Hk & ->); [left; lia|right; eauto].
Qed.

Lemma elem_of_missing_chunks a (m : N) :
  assembler_ok a →
  m ∈ missing_chunks a ↔ ca_received a !! N.to_nat m = Some false.
Proof.
  intros Ha. unfold missing_chunks. rewrite elem_of_missing_from.
  - split; [intros (k & Hk & ->); by rewrite N.add_0_l, Nat2N.id|].
    intros Hm. exists (N.to_nat m). split; [done|lia].
  - pose proof (ao_received a Ha). pose proof (plan_count _ (ao_plan a Ha)). lia.
Qed.

(** ** Delivering a source *)

Section delivery.
  Context `{!Sha256} `{!ShaHex} `{!SerdeJson ChunkFrameHeader} `{!SerdeRoundTrip ChunkFrameHeader}.
  Context (source : bytes).

(** The retained chunks are the source's. *)
Definition holds (a : ChunkAssembler) : Prop :=
  blen source = tp_file_size (ca_plan a)
  ∧ ∀ i, ca_received a !! N.to_nat i = Some true →
      agree_on (chunk_range (ca_plan a) i) (ca_buffer a) source.

Lemma source_chunk_header_ok p i payload :
  plan_ok p → i < tp_total_chunks p →
  ChunkFrameHeader_shape_error
    (with_total_chunks (ChunkFrameHeader_new (tp_transfer_id p) i (hash_bytes payload))
       (tp_total_chunks p)) = None.
Proof.
  intros Hp Hi. unfold ChunkFrameHeader_shape_error.
  cbn [cf_message_type cf_request_id cf_transfer_id cf_chunk_index cf_total_chunks
       cf_chunk_hash with_total_chunks ChunkFrameHeader_new].
  rewrite (bool_decide_eq_false_2 (GX_CHUNK ≠ GX_CHUNK)) by (by intros []). cbn.
  rewrite (proj2 (chunk_id_shape_error_None _ _ _) (plan_id p Hp)). cbn.
  rewrite (proj2 (sha256_hex_shape_error_None _ (hash_bytes payload)) (sha256_hex_is_ok _)). cbn.
  rewrite !bool_decide_eq_false_2 by lia. done.
Qed.

Lemma chunk_of_source p i :
  plan_ok p → blen source = tp_file_size p → i < tp_total_chunks p →
  chunk p source i =
    Ok (with_total_chunks
          (ChunkFrameHeader_new (tp_transfer_id p) i (hash_bytes (slice source (chunk_range p i))))
          (tp_total_chunks p),
        slice source (chunk_range p i)).
Proof.
  intros Hp Hs Hi. unfold chunk. rewrite decide_False by naive_solver.
  by rewrite (proj2 (chunk_bounds_Ok p Hp i (chunk_range p i))).
Qed.

Lemma check_source_chunk p i :
  plan_ok p → blen source = tp_file_size p → i < tp_total_chunks p →
  let payload := slice source (chunk_range p i) in
  check_chunk p
    (with_total_chunks (ChunkFrameHeader_new (tp_transfer_id p) i (hash_bytes payload))
       (tp_total_chunks p)) payload
  = Ok (chunk_range p i).
Proof.
  intros Hp Hs Hi payload. unfold check_chunk. rewrite source_chunk_header_ok by done.
  unfold total_chunks_mismatch. cbn. rewrite decide_False by (by intros []).
  rewrite decide_False by (by intros []).
  rewrite (proj2 (chunk_bounds_Ok p Hp i (chunk_range p i))) by done. cbn.
  pose proof (chunk_range_in p Hp i Hi) as [_ Hr].
  rewrite decide_False. { by rewrite decide_False by (by intros []). }
  intros []. apply blen_slice. lia.
Qed.

(** Accepting a source chunk, new or repeated, marks its slot and stays
    faithful to the source. *)
Lemma accept_source_chunk a i :
  assembler_ok a → holds a → i < tp_total_chunks (ca_plan a) →
  ∃ h payload r a',
    chunk (ca_plan a) source i = Ok (h, payload)
    ∧ accept_chunk a h payload = Some (Ok r, a')
    ∧ assembler_ok a' ∧ holds a' ∧ ca_plan a' = ca_plan a
    ∧ ca_received a' = <[N.to_nat i := true]> (ca_received a).
Proof.
  intros Ha [Hs Hh] Hi. set (p := ca_plan a) in *.
  pose proof (ao_plan a Ha) as Hp.
  pose proof (chunk_range_in p Hp i Hi) as [Hr1 Hr2].
  pose proof (check_source_chunk p i Hp Hs Hi) as Hck. cbn zeta in Hck.
  set (payload := slice source (chunk_range p i)) in *.
  set (h := with_total_chunks _ _) in *.
  exists h, payload.
  assert (chunk p source i = Ok (h, payload)) as -> by by apply chunk_of_source.
  assert (blen payload = range_len (chunk_range p i)) as Hlen by (apply blen_slice; lia).
  assert ((chunk_range p i).2 ≤ blen (ca_buffer a)) as Hbuf
    by (rewrite (ao_buffer a Ha); done).
  destruct (lookup_lt_is_Some_2 (ca_received a) (N.to_nat i)) as [d Hd].
  { pose proof (ao_received a Ha) as Hrec. fold p in Hrec. lia. }
  unfold accept_chunk. fold p. rewrite Hck. cbn [cf_chunk_index h]. 
  change (cf_chunk_index h) with i. rewrite Hd. cbn [mbind option_bind].
  rewrite decide_False by lia. destruct d.
  - rewrite decide_False.
    + eexists _, a. split_and!; [done|done|done|by split|done|].
      symmetry. by apply list_insert_id.
    + intros []. unfold payload. apply slice_agree; [done|lia|by apply Hh].
  - eexists _, _. split_and!; [done|done|by apply write_chunk_ok| |done|done].
    split; [done|]. cbn [ca_plan ca_received ca_buffer]. fold p.
    intros k Hk. destruct (decide (k = i)) as [->|Hki].
    + apply slice_agree; [by rewrite blen_splice|lia|]. by rewrite slice_splice.
    + rewrite list_lookup_insert_ne in Hk by lia. intros j Hj.
      rewrite lookup_splice_out; try done; [by apply (Hh k)|].
      by apply (chunk_range_disjoint p Hp k i).
Qed.

Lemma accept_source_frame a i frame :
  assembler_ok a → holds a → i < tp_total_chunks (ca_plan a) →
  encode_chunk (ca_plan a) source i = Ok frame →
  ∃ r a', accept_binary_frame a frame = Some (Ok r, a')
    ∧ assembler_ok a' ∧ holds a' ∧ ca_plan a' = ca_plan a
    ∧ ca_received a' = <[N.to_nat i := true]> (ca_received a).
Proof.
  intros Ha Hh Hi He.
  destruct (accept_source_chunk a i Ha Hh Hi) as (h & payload & r & a' & Hc & Hacc & ?).
  unfold encode_chunk in He. rewrite Hc in He. cbn in He. apply map_err_Ok in He.
  exists r, a'. unfold accept_binary_frame.
  by rewrite (encode_decode _ _ _ He).
Qed.

Lemma accept_source_frames a ix frames :
  assembler_ok a → holds a → Forall (fun i => i < tp_total_chunks (ca_plan a)) ix →
  mapM (encode_chunk (ca_plan a) source) ix = Ok frames →
  ∃ rs a', accept_frames a frames = Some (rs, a')
    ∧ Forall (fun r => is_ok r = true) rs
    ∧ assembler_ok a' ∧ holds a' ∧ ca_plan a' = ca_plan a
    ∧ ∀ k, ca_received a' !! k = Some true ↔
        ca_received a !! k = Some true
        ∨ (N.of_nat k ∈ ix ∧ is_Some (ca_received a !! k)).
Proof.
  revert a frames. induction ix as [|i ix IH]; intros a frames Ha Hh Hix Hm.
  - cbn in Hm. injection Hm as <-. exists [], a. cbn.
    split_and!; [done|constructor|done|done|done|]. set_solver.
  - apply Forall_cons in Hix as [Hi Hix]. cbn in Hm. inv_result. subst.
    destruct (accept_source_frame a i _ Ha Hh Hi ltac:(eassumption))
      as (r & a1 & Hacc & Ha1 & Hh1 & Hp1 & Hr1).
    rewrite <-Hp1 in *.
    destruct (IH a1 _ Ha1 Hh1 Hix ltac:(eassumption))
      as (rs & a2 & Haccs & Hrs & Ha2 & Hh2 & Hp2 & Hr2).
    cbn [accept_frames]. rewrite Hacc. cbn [mbind option_bind]. rewrite Haccs. cbn.
    eexists _, a2. split_and!; [done|by constructor|done|done|done|].
    intros k. rewrite Hr2, Hr1, elem_of_cons.
    destruct (decide (N.to_nat i = k)) as [<-|Hne].
    + assert (is_Some (ca_received a !! N.to_nat i)) as Hsome.
      { apply lookup_lt_is_Some_2. pose proof (ao_received a Ha). rewrite Hp1 in *. lia. }
      rewrite list_lookup_insert_eq by by apply lookup_lt_is_Some_1.
      rewrite N2Nat.id. naive_solver.
    + rewrite list_lookup_insert_ne by done. split; [naive_solver|].
      intros [?|[[E|?] ?]]; [naive_solver| |naive_solver].
      destruct Hne. by rewrite <-E, Nat2N.id.
Qed.

Lemma complete_holds_buffer a :
  assembler_ok a → holds a → is_complete a = true → ca_buffer a = source.
Proof.
  intros Ha [Hs Hh] Hc. rewrite is_complete_true in Hc.
  apply list_eq. intros j.
  destruct (decide (N.of_nat j < tp_file_size (ca_plan a))) as [Hj|Hj].
  - destruct (chunk_of_byte _ (ao_plan a Ha) _ Hj) as (i & Hi & Hji).
    destruct (lookup_lt_is_Some_2 (ca_received a) (N.to_nat i)) as [d Hd].
    { pose proof (ao_received a Ha). lia. }
    rewrite (Hc _ _ Hd) in Hd. by apply (Hh i Hd).
  - pose proof (ao_buffer a Ha). unfold blen in *.
    rewrite !lookup_ge_None_2 by lia. done.
Qed.
End delivery.

(** ** The chunks concatenate to the source *)

(** The chunk indices of a plan, ascending. *)
Definition chunk_indices (p : TransferPlan) : list N :=
  N.of_nat <$> seq 0 (N.to_nat (tp_total_chunks p)).

Lemma elem_of_chunk_indices p i : i ∈ chunk_indices p ↔ i < tp_total_chunks p.
Proof.
  unfold chunk_indices. rewrite list_elem_of_fmap. setoid_rewrite elem_of_seq. split.
  - intros (k & -> & Hk). lia.
  - intros Hi. exists (N.to_nat i). lia.
Qed.

Lemma concat_chunk_slices p source (n : nat) :
  plan_ok p → blen source = tp_file_size p → N.of_nat n ≤ tp_total_chunks p →
  concat ((fun k => slice source (chunk_range p (N.of_nat k))) <$> seq 0 n)
  = take (N.to_nat (N.of_nat n * tp_chunk_size p)) source.
Proof.
  intros Hp Hs. induction n as [|n IH]; intros Hn; [done|].
  rewrite seq_S, fmap_app, concat_app, IH by lia. cbn. rewrite app_nil_r.
  pose proof (chunk_start_le p Hp (N.of_nat n) ltac:(lia)) as Hle.
  unfold slice, range_len, chunk_range. cbn [fst snd].
  set (c := tp_chunk_size p) in *. set (x := N.of_nat n * c) in *.
  replace (N.of_nat (S n) * c) with (x + c) by (unfold x; lia).
  unfold blen in Hs.
  destruct (decide (x + c ≤ tp_file_size p)).
  - rewrite N.min_l by lia. rewrite take_take_drop. f_equal. lia.
  - rewrite N.min_r by lia. rewrite take_take_drop.
    rewrite (take_ge source (N.to_nat (x + c))) by lia. apply take_ge. lia.
Qed.

Lemma received_bytes_full p i received :
  Forall (fun b => b = true) received →
  received_bytes p i received
  = N.min ((i + N.of_nat (length received)) * tp_chunk_size p) (tp_file_size p)
    - i * tp_chunk_size p.
Proof.
  intros H. revert i. induction H as [|b rest -> H IH]; intros i; cbn [received_bytes length].
  { lia. }
  rewrite IH. unfold range_len, chunk_range. cbn [fst snd].
  replace (i + N.of_nat (S (length rest))) with (i + 1 + N.of_nat (length rest)) by lia.
  set (n := N.of_nat (length rest)) in *.
  rewrite !N.mul_add_distr_r, N.mul_1_l. set (x := i * tp_chunk_size p).
  set (y := n * tp_chunk_size p). lia.
Qed.

(** ** The plan a sender builds *)

Lemma TransferPlan_new_Ok id fs h cs p :
  TransferPlan_new id fs h cs = Ok p →
  plan_ok p ∧ tp_file_size p = fs ∧ tp_file_hash p = h.
Proof.
  unfold TransferPlan_new. case_match eqn:Hid; [done|]. case_match eqn:Hh; [done|].
  intros E. inv_result. subst. split; [|done].
  apply TransferPlan_shape_error_None. unfold TransferPlan_shape_error. cbn.
  rewrite Hid, Hh. cbn. by apply total_chunks_shape_error_None.
Qed.

Lemma fresh_holds source p m a :
  blen source = tp_file_size p → with_max_file_size p m = Ok a → holds source a.
Proof.
  intros Hs Ha. apply with_max_file_size_Ok in Ha as (_ & Hp & Hr).
  split; [by rewrite Hp|]. intros i Hi. rewrite Hr in Hi.
  apply lookup_replicate_1 in Hi as [? _]. done.
Qed.

Section completion.
  Context `{!Sha256}.

Lemma finish_complete source a :
  assembler_ok a → holds source a → is_complete a = true →
  hash_bytes source = tp_file_hash (ca_plan a) →
  finish a = Ok source ∧ ca_bytes_received a = blen source.
Proof.
  intros Ha Hh Hc Hhash. pose proof (complete_holds_buffer source a Ha Hh Hc) as Hb.
  split.
  - unfold finish. rewrite Hc. cbn. rewrite Hb, decide_False; [done|]. naive_solver.
  - rewrite (ao_bytes a Ha), received_bytes_full.
    + rewrite N.add_0_l, N.mul_0_l, N.sub_0_r, (ao_received a Ha), (proj1 Hh).
      destruct (plan_tiles _ (ao_plan a Ha)) as (_ & ? & _). lia.
    + apply Forall_lookup. intros i b Hi. rewrite is_complete_true in Hc. eauto.
Qed.
(** A receiver that gets every chunk, in any order, ends with the source. *)
Lemma cover_rebuilds `{!ShaHex} `{!SerdeJson ChunkFrameHeader} `{!SerdeRoundTrip ChunkFrameHeader}
    source id chunk_size max p a ix frames :
  TransferPlan_from_bytes id source chunk_size = Ok p → with_max_file_size p max = Ok a →
  (∀ i, i ∈ ix ↔ i < tp_total_chunks p) → mapM (encode_chunk p source) ix = Ok frames →
  ∃ rs a', accept_frames a frames = Some (rs, a')
    ∧ Forall (fun r => is_ok r = true) rs
    ∧ finish a' = Ok source
    ∧ ca_bytes_received a' = blen source.
Proof.
  intros Hplan Hnew Hcover Henc.
  apply TransferPlan_new_Ok in Hplan as (Hp & Hfs & Hfh).
  pose proof (fresh_holds source p max a ltac:(done) Hnew) as Hh.
  apply with_max_file_size_Ok in Hnew as (Ha & Hpl & Hrec). rewrite <-Hpl in *.
  destruct (accept_source_frames source a ix frames Ha Hh) as
    (rs & a' & Hacc & Hrs & Ha' & Hh' & Hpl' & Hr'); [|done|].
  { apply Forall_forall. intros i. apply Hcover. }
  exists rs, a'. split; [done|]. split; [done|].
  apply finish_complete; [done|done| |congruence].
  apply is_complete_true. intros k b Hk.
  assert (k < length (ca_received a'))%nat as Hlt by by apply lookup_lt_Some in Hk.
  pose proof (ao_received a' Ha') as Hlen. rewrite Hpl' in Hlen.
  assert (ca_received a' !! k = Some true); [|congruence].
  apply Hr'. right. split; [apply Hcover; lia|].
  apply lookup_lt_is_Some_2. pose proof (ao_received a Ha). lia.
Qed.
End completion.

(** ** Properties *)

(** C3: delivery in any order.  Build the plan from the bytes of an object,
    open an in-memory receiver for it, encode chunks for a list of indices that
    names every chunk at least once, in any order and with any repetitions, and
    feed the binary frames to the receiver: no frame panics, every frame is
    accepted, [finish] returns exactly the original bytes, and the byte counter
    equals the object's size. *)
Theorem transfer_any_order (S : Sha256) (X : ShaHex) (J : SerdeJson ChunkFrameHeader)
    (R : SerdeRoundTrip ChunkFrameHeader)
    (source : bytes) (id : string) (chunk_size max : N) (p : TransferPlan)
    (a : ChunkAssembler) (ix : list N) (frames : list bytes)
    (Hplan : TransferPlan_from_bytes id source chunk_size = Ok p)
    (Hnew : with_max_file_size p max = Ok a)
    (Hcover : ∀ i, i ∈ ix ↔ i < tp_total_chunks p)
    (Henc : mapM (encode_chunk p source) ix = Ok frames) :
  ∃ rs a', accept_frames a frames = Some (rs, a')
    ∧ Forall (fun r => is_ok r = true) rs
    ∧ finish a' = Ok source
    ∧ ca_bytes_received a' = blen source.
Proof. by eapply cover_rebuilds. Qed.

(** Three thousand bytes in chunks of 1024, delivered last first with a repeat. *)
Definition sample_source : bytes := replicate 3000 Byte.x2a.
Definition sample_plan : TransferPlan := mkTransferPlan "t" 3000 zeros64 1024 3.
Definition sample_assembler : ChunkAssembler :=
  mkChunkAssembler sample_plan [false; false; false] 0 (replicate 3000 Byte.x00).

Lemma transfer_any_order_witness :
  ∃ frames,
    mapM (@encode_chunk zero_sha (countable_serde _) sample_plan sample_source) [2; 0; 2; 1]
    = Ok frames
    ∧ ∃ rs a', @accept_frames zero_sha (countable_serde _) sample_assembler frames
               = Some (rs, a')
      ∧ Forall (fun r => is_ok r = true) rs
      ∧ @finish zero_sha a' = Ok sample_source
      ∧ ca_bytes_received a' = blen sample_source.
Proof.
  destruct (mapM (@encode_chunk zero_sha (countable_serde _) sample_plan sample_source)
              [2; 0; 2; 1]) as [frames|e] eqn:E.
  - exists frames. split; [reflexivity|].
    apply (@transfer_any_order zero_sha zero_sha_hex (countable_serde _)
             (countable_serde_roundtrip _) sample_source "t" 1024 0 sample_plan
             sample_assembler [2; 0; 2; 1] frames).
    + vm_compute. reflexivity.
    + vm_compute. reflexivity.
    + intros i. change (tp_total_chunks sample_plan) with 3. rewrite !elem_of_cons, elem_of_nil.
      lia.
    + exact E.
  - vm_compute in E. discriminate E.
Defined.

(** Integrity against any sender.  Whatever binary frames arrive, the
    receiver never panics, keeps its plan, never counts more bytes than the
    declared size, and if [finish] returns bytes they have the declared length
    and the declared whole-object hash. *)
Theorem receiver_integrity (S : Sha256) (J : SerdeJson ChunkFrameHeader)
    (p : TransferPlan) (max : N) (a : ChunkAssembler) (frames : list bytes)
    (Hnew : with_max_file_size p max = Ok a) :
  ∃ rs a', accept_frames a frames = Some (rs, a')
    ∧ ca_plan a' = p
    ∧ ca_bytes_received a' ≤ tp_file_size p
    ∧ ∀ b, finish a' = Ok b → blen b = tp_file_size p ∧ hash_bytes b = tp_file_hash p.
Proof.
  apply with_max_file_size_Ok in Hnew as (Ha & Hpl & _).
  destruct (accept_frames_ok a frames Ha) as (rs & a' & Hacc & Ha' & Hpl').
  rewrite <-Hpl, <-Hpl'. exists rs, a'. split_and!; [done|done| |].
  - rewrite (ao_bytes a' Ha'). by apply received_bytes_bound.
  - intros b (-> & _ & Hhash)%finish_Ok. by rewrite (ao_buffer a' Ha').
Qed.

Lemma receiver_integrity_witness :
  ∃ rs a', @accept_frames zero_sha (countable_serde _) sample_assembler [[Byte.x00]; []]
           = Some (rs, a')
    ∧ ca_plan a' = sample_plan
    ∧ ca_bytes_received a' ≤ tp_file_size sample_plan
    ∧ ∀ b, @finish zero_sha a' = Ok b →
        blen b = tp_file_size sample_plan
        ∧ @hash_bytes zero_sha b = tp_file_hash sample_plan.
Proof.
  apply (@receiver_integrity zero_sha (countable_serde _) sample_plan 0 sample_assembler
           [[Byte.x00]; []]).
  vm_compute. reflexivity.
Defined.

(** A chunk is accepted only when its payload has the exact planned length
    and the hash its header declares; it then occupies exactly its planned byte
    range, every other byte is untouched, and a rejected chunk changes nothing. *)
Theorem accept_chunk_effect (S : Sha256) (a : ChunkAssembler) (h : ChunkFrameHeader)
    (payload : bytes) (Ha : assembler_ok a) :
  ∃ r a', accept_chunk a h payload = Some (r, a')
    ∧ match r with
      | Err _ => a' = a
      | Ok _ =>
          let rng := chunk_range (ca_plan a) (cf_chunk_index h) in
          chunk_bounds (ca_plan a) (cf_chunk_index h) = Ok rng
          ∧ hash_bytes payload = cf_chunk_hash h
          ∧ slice (ca_buffer a') rng = payload
          ∧ (∀ j : nat, N.of_nat j < rng.1 ∨ rng.2 ≤ N.of_nat j →
               ca_buffer a' !! j = ca_buffer a !! j)
          ∧ ca_received a' = <[N.to_nat (cf_chunk_index h) := true]> (ca_received a)
      end.
Proof.
  destruct (accept_chunk_cases a h payload Ha)
    as [[e E]|[(Hc & Hs & Hsl & E)|(Hc & Hs & E)]].
  - by exists (Err e), a.
  - apply check_chunk_Ok in Hc as (Hi & _ & Hl & Hhash & _); [|apply Ha].
    eexists _, a. split; [exact E|]. cbn zeta. split_and!; [|done|done|done|].
    + apply chunk_bounds_Ok; [apply Ha|done].
    + symmetry. by apply list_insert_id.
  - apply check_chunk_Ok in Hc as (Hi & _ & Hl & Hhash & _); [|apply Ha].
    pose proof (chunk_range_in _ (ao_plan a Ha) _ Hi) as [Hr1 Hr2].
    rewrite <-(ao_buffer a Ha) in Hr2.
    eexists _, _. split; [exact E|]. cbn [ca_buffer ca_received]. cbn zeta.
    split_and!; [|done|by apply slice_splice| |done].
    + apply chunk_bounds_Ok; [apply Ha|done].
    + intros j Hj. by apply lookup_splice_out.
Qed.

Lemma accept_chunk_effect_witness :
  ∃ r a', @accept_chunk zero_sha sample_assembler sample_header [] = Some (r, a')
    ∧ r = Err (ChunkLengthMismatch 0 1024 0) ∧ a' = sample_assembler.
Proof.
  assert (assembler_ok sample_assembler) as Ha.
  { apply (with_max_file_size_Ok sample_plan 0). vm_compute. reflexivity. }
  destruct (@accept_chunk_effect zero_sha sample_assembler sample_header [] Ha)
    as (r & a' & E & Hr).
  exists r, a'. split; [exact E|].
  assert (@accept_chunk zero_sha sample_assembler sample_header []
          = Some (Err (ChunkLengthMismatch 0 1024 0), sample_assembler)) as E'.
  { vm_compute. reflexivity. }
  rewrite E' in E. injection E as <- <-. split; reflexivity.
Defined.

(** The chunks of an acceptable plan partition the object: taken in index
    order their payloads concatenate to the whole source. *)
Theorem chunks_concatenate_to_source (S : Sha256) (p : TransferPlan) (source : bytes)
    (Hp : TransferPlan_shape_error p = None) (Hs : blen source = tp_file_size p) :
  ∃ payloads, mapM (fun i => snd <$> chunk p source i) (chunk_indices p) = Ok payloads
    ∧ concat payloads = source.
Proof.
  apply TransferPlan_shape_error_None in Hp.
  exists ((fun i => slice source (chunk_range p i)) <$> chunk_indices p). split.
  - assert (Forall (fun i => i < tp_total_chunks p) (chunk_indices p)) as Hall.
    { apply Forall_forall. intros i. apply elem_of_chunk_indices. }
    induction Hall as [|i ix Hi Hix IH]; [done|]. cbn [mapM list_fmap fmap].
    rewrite (chunk_of_source source p i Hp Hs Hi). cbn. by rewrite IH.
  - unfold chunk_indices. rewrite <-list_fmap_compose. unfold compose.
    rewrite concat_chunk_slices by (done || lia). rewrite N2Nat.id.
    destruct (plan_tiles p Hp) as (_ & Hcov & _). apply take_ge. unfold blen in Hs. lia.
Qed.

Lemma chunks_concatenate_to_source_witness :
  ∃ payloads,
    mapM (fun i => snd <$> @chunk zero_sha sample_plan sample_source i)
      (chunk_indices sample_plan) = Ok payloads
    ∧ concat payloads = sample_source.
Proof.
  apply (@chunks_concatenate_to_source zero_sha sample_plan sample_source);
    vm_compute; reflexivity.
Defined.

(** Resume.  After any partial delivery of source chunks, requesting exactly
    [missing_chunks] and delivering those frames completes the transfer with the
    original bytes. *)
Theorem resume_completes (S : Sha256) (X : ShaHex) (J : SerdeJson ChunkFrameHeader)
    (R : SerdeRoundTrip ChunkFrameHeader)
    (source : bytes) (id : string) (chunk_size max : N) (p : TransferPlan)
    (a a1 : ChunkAssembler) (ix : list N) (frames frames' : list bytes)
    (rs : list (result TransferChunkError ChunkAccept))
    (Hplan : TransferPlan_from_bytes id source chunk_size = Ok p)
    (Hnew : with_max_file_size p max = Ok a)
    (Hix : Forall (fun i => i < tp_total_chunks p) ix)
    (Henc : mapM (encode_chunk p source) ix = Ok frames)
    (Hfirst : accept_frames a frames = Some (rs, a1))
    (Hrest : mapM (encode_chunk p source) (missing_chunks a1) = Ok frames') :
  ∃ rs' a2, accept_frames a1 frames' = Some (rs', a2)
    ∧ missing_chunks a2 = [] ∧ finish a2 = Ok source.
Proof.
  apply TransferPlan_new_Ok in Hplan as (Hp & Hfs & Hfh).
  pose proof (fresh_holds source p max a ltac:(done) Hnew) as Hh.
  apply with_max_file_size_Ok in Hnew as (Ha & Hpl & _). rewrite <-Hpl in *.
  destruct (accept_source_frames source a ix frames Ha Hh Hix Henc) as
    (rs0 & a0 & Hacc & _ & Ha1 & Hh1 & Hpl1 & _).
  rewrite Hacc in Hfirst. injection Hfirst as <- ->. rewrite <-Hpl1 in *.
  destruct (accept_source_frames source a1 (missing_chunks a1) frames' Ha1 Hh1) as
    (rs' & a2 & Hacc2 & _ & Ha2 & Hh2 & Hpl2 & Hr2); [|done|].
  { apply Forall_forall. intros i Hi%elem_of_missing_chunks; [|done].
    apply lookup_lt_Some in Hi. pose proof (ao_received a1 Ha1). lia. }
  assert (∀ k b, ca_received a2 !! k = Some b → b = true) as Hall.
  { intros k b Hk. assert (ca_received a2 !! k = Some true); [|congruence]. apply Hr2.
    destruct (lookup_lt_is_Some_2 (ca_received a1) k) as [[] Hd]; [|by left|].
    - apply lookup_lt_Some in Hk. pose proof (ao_received a1 Ha1).
      pose proof (ao_received a2 Ha2). rewrite Hpl2 in *. lia.
    - right. split; [|by eexists]. apply elem_of_missing_chunks; [done|].
      by rewrite Nat2N.id. }
  exists rs', a2. split_and!; [done| |].
  - apply elem_of_nil_inv. intros i Hi%elem_of_missing_chunks; [|done].
    by specialize (Hall _ _ Hi).
  - apply finish_complete; [done|done|by apply is_complete_true|congruence].
Qed.

Lemma resume_completes_witness :
  ∃ frames frames' rs a1 rs' a2,
    mapM (@encode_chunk zero_sha (countable_serde _) sample_plan sample_source) [1] = Ok frames
    ∧ @accept_frames zero_sha (countable_serde _) sample_assembler frames = Some (rs, a1)
    ∧ missing_chunks a1 = [0; 2]
    ∧ @accept_frames zero_sha (countable_serde _) a1 frames' = Some (rs', a2)
    ∧ missing_chunks a2 = [] ∧ @finish zero_sha a2 = Ok sample_source.
Proof.
  destruct (mapM (@encode_chunk zero_sha (countable_serde _) sample_plan sample_source) [1])
    as [frames|e] eqn:E; [|vm_compute in E; discriminate E].
  destruct (@accept_frames zero_sha (countable_serde _) sample_assembler frames)
    as [[rs a1]|] eqn:E1; [|vm_compute in E; injection E as <-; vm_compute in E1; discriminate E1].
  assert (missing_chunks a1 = [0; 2]) as Hm.
  { vm_compute in E. injection E as <-. vm_compute in E1. injection E1 as <- <-. reflexivity. }
  destruct (mapM (@encode_chunk zero_sha (countable_serde _) sample_plan sample_source) [0; 2])
    as [frames'|e] eqn:E2; [|vm_compute in E2; discriminate E2].
  destruct (@resume_completes zero_sha zero_sha_hex (countable_serde _)
              (countable_serde_roundtrip _) sample_source "t" 1024 0 sample_plan
              sample_assembler a1 [1] frames frames' rs) as (rs' & a2 & H1 & H2 & H3).
  - vm_compute. reflexivity.
  - vm_compute. reflexivity.
  - repeat constructor.
  - exact E.
  - exact E1.
  - rewrite Hm. exact E2.
  - exists frames, frames', rs, a1, rs', a2. repeat split; assumption.
Defined.
