(* ===== verification/GxFile.v ===== *)
(** * The file-backed receiver

    [foundation/gawdxfer/src/engine.rs], [FileChunkReceiver].  The file system
    is a map from paths to contents, and the open handle is the file at the
    receiver's temporary path.  What the operating system answers is an
    argument of every operation: a seek, a read or a sync may fail, a
    [write_all] may fail after any prefix of its buffer has reached the file.

    The receiver refines the in-memory one of [GxEngine]: [simulates] relates
    the two states, every accept either fails with an I/O error that leaves the
    relation to the same in-memory state intact, or gives the in-memory
    receiver's answer. *)

From S2P Require Import Prelude Serde GxShape GxWire GxFrame GxHash GxEngine.

Abbreviation path := string (only parsing).
Abbreviation filesystem := (gmap string bytes).

(** ** Files *)

(** The bytes of a file after [data] was written at [offset]: a hole before the
    offset reads as zeros, and writing nothing does not extend the file. *)
Definition write_at (l : bytes) (offset : N) (data : bytes) : bytes :=
  match data with
  | [] => l
  | _ => resize (N.to_nat offset) Byte.x00 l ++ data
           ++ drop (N.to_nat offset + length data) l
  end.

(** What the operating system answers during one accept: [ci_write] is the
    number of bytes that reached the file and the error, if the write fails. *)
Record ChunkIo : Type := mkChunkIo {
  ci_seek : result string unit;
  ci_read : result string unit;
  ci_write : result (N * string) unit;
  ci_sync : result string unit
}.

Record CreateIo : Type := mkCreateIo {
  cr_open : result string unit;
  cr_set_len : result string unit;
  cr_remove : result string unit
}.

Record FinishIo : Type := mkFinishIo {
  fi_sync : result string unit;
  fi_open : result string unit;
  fi_reads : list (result string N);
  fi_rename : result string unit
}.

Definition io_ok : ChunkIo := mkChunkIo (Ok tt) (Ok tt) (Ok tt) (Ok tt).

Definition file_exists_error : string := "File exists (os error 17)".
Definition not_found_error : string := "No such file or directory (os error 2)".
Definition unexpected_eof_error : string := "failed to fill whole buffer".

(** ** The receiver *)

Record FileChunkReceiverOptions : Type := mkFileChunkReceiverOptions {
  fo_max_file_size : N;
  fo_preallocate : bool;
  fo_sync_each_chunk : bool
}.

Definition FileChunkReceiverOptions_default : FileChunkReceiverOptions :=
  mkFileChunkReceiverOptions DEFAULT_MAX_FILE_TRANSFER_BYTES true false.

Record FileChunkReceiver : Type := mkFileChunkReceiver {
  fr_plan : TransferPlan;
  fr_received : list bool;
  fr_bytes_received : N;
  fr_temp_path : string;
  fr_sync_each_chunk : bool
}.

(** [create_new]: an existing file is never opened. *)
Definition create_new (fs : filesystem) (p : string) (opened : result string unit) :
    result string unit :=
  match fs !! p with Some _ => Err file_exists_error | None => opened end.

Definition with_options (fs : filesystem) (io : CreateIo) (plan : TransferPlan)
    (temp_path : string) (options : FileChunkReceiverOptions) :
    result TransferChunkError FileChunkReceiver * filesystem :=
  match TransferPlan_shape_error plan with
  | Some error => (Err (PlanShape error), fs)
  | None =>
      if decide (fo_max_file_size options ≠ 0
                 ∧ fo_max_file_size options < tp_file_size plan) then
        (Err (FileExceedsTransferLimit (tp_file_size plan) (fo_max_file_size options)), fs)
      else
        match create_new fs temp_path (cr_open io) with
        | Err message => (Err (Io "create temp file" message), fs)
        | Ok _ =>
            let receiver :=
              mkFileChunkReceiver plan (replicate (N.to_nat (tp_total_chunks plan)) false) 0
                temp_path (fo_sync_each_chunk options) in
            if fo_preallocate options then
              match cr_set_len io with
              | Err message =>
                  (Err (Io "preallocate temp file" message),
                   if is_ok (cr_remove io) then fs else <[temp_path := []]> fs)
              | Ok _ =>
                  (Ok receiver,
                   <[temp_path := replicate (N.to_nat (tp_file_size plan)) Byte.x00]> fs)
              end
            else (Ok receiver, <[temp_path := []]> fs)
        end
  end.

Definition FileChunkReceiver_create (fs : filesystem) (io : CreateIo) (plan : TransferPlan)
    (temp_path : string) : result TransferChunkError FileChunkReceiver * filesystem :=
  with_options fs io plan temp_path FileChunkReceiverOptions_default.

Definition file_chunks_done (f : FileChunkReceiver) : N := count_received (fr_received f).
Definition file_is_complete (f : FileChunkReceiver) : bool := forallb id (fr_received f).

(** [seek] then [read_exact] of the range. *)
Definition read_retained (l : bytes) (io : ChunkIo) (r : range) :
    result TransferChunkError bytes :=
  _ ← map_err (Io "seek duplicate chunk") (ci_seek io);
  _ ← map_err (Io "read duplicate chunk") (ci_read io);
  if decide (blen l < r.2) then Err (Io "read duplicate chunk" unexpected_eof_error)
  else Ok (slice l r).

(** [seek], [write_all] and the optional [sync_data]: the file afterwards, and
    the first error. *)
Definition write_new (l : bytes) (io : ChunkIo) (sync : bool) (offset : N) (payload : bytes) :
    result TransferChunkError unit * bytes :=
  match ci_seek io with
  | Err m => (Err (Io "seek chunk" m), l)
  | Ok _ =>
      match ci_write io with
      | Err (k, m) => (Err (Io "write chunk" m), write_at l offset (take (N.to_nat k) payload))
      | Ok _ =>
          let l' := write_at l offset payload in
          match (if sync then ci_sync io else Ok tt) with
          | Err m => (Err (Io "sync chunk" m), l')
          | Ok _ => (Ok tt, l')
          end
      end
  end.

Section file.
  Context `{!Sha256} `{!SerdeJson ChunkFrameHeader}.

Definition file_accept_chunk (fs : filesystem) (io : ChunkIo) (f : FileChunkReceiver)
    (header : ChunkFrameHeader) (payload : bytes) :
    option (result TransferChunkError ChunkAccept * FileChunkReceiver * filesystem) :=
  match check_chunk (fr_plan f) header payload with
  | Err e => Some (Err e, f, fs)
  | Ok range =>
      let slot := N.to_nat (cf_chunk_index header) in
      duplicate ← fr_received f !! slot;
      l ← fs !! fr_temp_path f;
      if (duplicate : bool) then
        match read_retained l io range with
        | Err e => Some (Err e, f, fs)
        | Ok existing =>
            if decide (existing ≠ payload) then
              Some (Err (DuplicateChunkMismatch (cf_chunk_index header)), f, fs)
            else
              Some (Ok (mkChunkAccept (cf_chunk_index header) true (file_is_complete f)), f, fs)
        end
      else
        let '(written, l') := write_new l io (fr_sync_each_chunk f) range.1 payload in
        let fs' := <[fr_temp_path f := l']> fs in
        match written with
        | Err e => Some (Err e, f, fs')
        | Ok _ =>
            let f' :=
              mkFileChunkReceiver (fr_plan f) (<[slot := true]> (fr_received f))
                (u64_add (fr_bytes_received f) (blen payload)) (fr_temp_path f)
                (fr_sync_each_chunk f) in
            Some (Ok (mkChunkAccept (cf_chunk_index header) false (file_is_complete f')), f', fs')
        end
  end.

Definition file_accept_binary_frame (fs : filesystem) (io : ChunkIo) (f : FileChunkReceiver)
    (frame : bytes) :
    option (result TransferChunkError ChunkAccept * FileChunkReceiver * filesystem) :=
  match map_err Frame (decode_binary_frame frame) with
  | Err e => Some (Err e, f, fs)
  | Ok (header, payload) => file_accept_chunk fs io f header payload
  end.

(** [hash_file]: open the path and stream it. *)
Definition hash_file (fs : filesystem) (opened : result string unit)
    (reads : list (result string N)) (p : string) : option (result string string) :=
  match opened with
  | Err e => Some (Err e)
  | Ok _ =>
      match fs !! p with
      | None => Some (Err not_found_error)
      | Some l => hash_reader (mkReader l reads)
      end
  end.

Definition file_finish (fs : filesystem) (io : FinishIo) (f : FileChunkReceiver) :
    option (result TransferChunkError string) :=
  if negb (file_is_complete f) then
    Some (Err (Incomplete (file_chunks_done f) (tp_total_chunks (fr_plan f))))
  else
    match fi_sync io with
    | Err m => Some (Err (Io "sync completed file" m))
    | Ok _ =>
        hashed ← hash_file fs (fi_open io) (fi_reads io) (fr_temp_path f);
        match hashed with
        | Err m => Some (Err (Io "hash completed file" m))
        | Ok actual =>
            if decide (actual ≠ tp_file_hash (fr_plan f)) then
              Some (Err (WholeHashMismatch (tp_file_hash (fr_plan f)) actual))
            else Some (Ok (fr_temp_path f))
        end
    end.

(** [rename(2)] replaces the target in one step. *)
Definition rename (fs : filesystem) (old new : string) : filesystem :=
  match fs !! old with Some l => <[new := l]> (delete old fs) | None => fs end.

Definition persist (fs : filesystem) (io : FinishIo) (f : FileChunkReceiver)
    (final_path : string) : option (result TransferChunkError string * filesystem) :=
  finished ← file_finish fs io f;
  match finished with
  | Err e => Some (Err e, fs)
  | Ok temp_path =>
      match fi_rename io with
      | Err m => Some (Err (Io "rename completed file" m), fs)
      | Ok _ => Some (Ok final_path, rename fs temp_path final_path)
      end
  end.

(** A session: the frames that arrive, each with what the operating system
    answers while it is handled. *)
Fixpoint file_accept_frames (fs : filesystem) (f : FileChunkReceiver)
    (frames : list (bytes * ChunkIo)) :
    option (list (result TransferChunkError ChunkAccept) * FileChunkReceiver * filesystem) :=
  match frames with
  | [] => Some ([], f, fs)
  | (frame, io) :: frames =>
      '(r, f', fs') ← file_accept_binary_frame fs io f frame;
      '(rs, f'', fs'') ← file_accept_frames fs' f' frames;
      Some (r :: rs, f'', fs'')
  end.
End file.

(** ** Reading a file back *)

Lemma read_Ok r cap buf r' :
  0 < cap → read r cap = Ok (buf, r') →
  ∃ n, (0 < n)%nat ∧ buf = take n (rd_rest r) ∧ rd_rest r' = drop n (rd_rest r).
Proof.
  unfold read. intros Hc. destruct (rd_script r) as [|[g|e] script]; intros E; try done;
    injection E as <- <-; eexists; (split; [|done]); lia.
Qed.

Section hashing.
  Context `{!Sha256} `{!ShaStreaming}.

Lemma hash_reader_loop_total fuel r h :
  (length (rd_rest r) < fuel)%nat →
  ∃ res, hash_reader_loop fuel r h = Some res
    ∧ ∀ s, res = Ok s → s = sha256_hex (sha_update h (rd_rest r)).
Proof.
  revert r h. induction fuel as [|fuel IH]; intros r h Hf; [lia|]. cbn.
  destruct (read r HASH_BLOCK_BYTES) as [[buf r']|e] eqn:E; [|naive_solver].
  apply read_Ok in E as (n & Hn & -> & Hr'); [|done].
  destruct (take n (rd_rest r)) as [|b buf] eqn:E.
  - apply take_eq_nil in E; [|done]. rewrite E, sha_update_nil. naive_solver.
  - destruct (IH r' (sha_update h (b :: buf))) as (res & Hres & Hok).
    + apply (f_equal length) in E. rewrite length_take in E. rewrite Hr', length_drop.
      cbn in E. lia.
    + exists res. split; [done|]. intros s ->.
      by rewrite (Hok s eq_refl), sha_update_app, <-E, Hr', take_drop.
Qed.

Lemma hash_file_total fs opened reads p l :
  fs !! p = Some l →
  ∃ res, hash_file fs opened reads p = Some res ∧ ∀ s, res = Ok s → s = hash_bytes l.
Proof.
  intros Hl. unfold hash_file. destruct opened as [u|e]; [|naive_solver]. rewrite Hl.
  apply (hash_reader_loop_total _ (mkReader l reads)). cbn. lia.
Qed.

Lemma hash_file_Ok fs reads p l :
  fs !! p = Some l → reads_succeed (mkReader l reads) →
  hash_file fs (Ok tt) reads p = Some (Ok (hash_bytes l)).
Proof.
  intros Hl Hr. unfold hash_file. rewrite Hl. apply hash_reader_loop_spec; [done|cbn; lia].
Qed.
End hashing.

(** ** Writing into a file *)

Section write.
  Context (l data : bytes) (offset : N).

Lemma blen_write_at :
  blen (write_at l offset data)
  = match data with [] => blen l | _ => N.max (blen l) (offset + blen data) end.
Proof.
  unfold write_at, blen. destruct data as [|b d]; [done|].
  rewrite !length_app, length_resize, length_drop. cbn [length]. lia.
Qed.

Lemma lookup_write_at_out (j : nat) :
  (j < length l)%nat → N.of_nat j < offset ∨ offset + blen data ≤ N.of_nat j →
  write_at l offset data !! j = l !! j.
Proof.
  unfold write_at, blen. destruct data as [|b d]; [done|]. intros Hl [Hj|Hj].
  - rewrite lookup_app_l by (rewrite length_resize; lia). by rewrite lookup_resize by lia.
  - rewrite lookup_app_r by (rewrite length_resize; lia). rewrite length_resize.
    rewrite lookup_app_r by lia. rewrite lookup_drop. f_equal. lia.
Qed.

Lemma lookup_write_at_in (j : nat) :
  offset ≤ N.of_nat j < offset + blen data →
  write_at l offset data !! j = data !! (j - N.to_nat offset)%nat.
Proof.
  unfold write_at, blen. destruct data as [|b d]; [cbn; lia|]. intros Hj.
  rewrite lookup_app_r by (rewrite length_resize; lia). rewrite length_resize.
  by rewrite lookup_app_l by lia.
Qed.
End write.

(** ** The refinement relation *)

(** The file agrees with the in-memory buffer on every retained chunk, and is
    never longer than the object. *)
Definition file_holds (a : ChunkAssembler) (l : bytes) : Prop :=
  blen l ≤ tp_file_size (ca_plan a)
  ∧ ∀ i, ca_received a !! N.to_nat i = Some true →
      (chunk_range (ca_plan a) i).2 ≤ blen l
      ∧ agree_on (chunk_range (ca_plan a) i) l (ca_buffer a).

Record simulates (fs : filesystem) (f : FileChunkReceiver) (a : ChunkAssembler) : Prop := {
  sim_ok : assembler_ok a;
  sim_plan : fr_plan f = ca_plan a;
  sim_received : fr_received f = ca_received a;
  sim_bytes : fr_bytes_received f = ca_bytes_received a;
  sim_file : ∃ l, fs !! fr_temp_path f = Some l ∧ file_holds a l
}.

Lemma received_in_plan a i b :
  assembler_ok a → ca_received a !! N.to_nat i = Some b → i < tp_total_chunks (ca_plan a).
Proof. intros Ha Hi%lookup_lt_Some. pose proof (ao_received a Ha). lia. Qed.

(** Only the single chunk of an empty object is empty. *)
Lemma empty_chunk_range p (Hp : plan_ok p) i :
  i < tp_total_chunks p → range_len (chunk_range p i) = 0 → (chunk_range p i).2 = 0.
Proof.
  intros Hi. destruct (plan_tiles p Hp) as (_ & _ & Hlast & _).
  pose proof (plan_pos p Hp). unfold range_len, chunk_range. cbn. nia.
Qed.

Section writing.
  Context (a : ChunkAssembler) (l : bytes) (i : N).
  Context (Ha : assembler_ok a) (Hl : file_holds a l).
  Context (Hi : ca_received a !! N.to_nat i = Some false).

Lemma write_bounded data :
  blen data ≤ range_len (chunk_range (ca_plan a) i) →
  blen (write_at l (chunk_range (ca_plan a) i).1 data) ≤ tp_file_size (ca_plan a).
Proof.
  intros Hd. destruct Hl as [Hb _]. rewrite blen_write_at.
  pose proof (chunk_range_in _ (ao_plan a Ha) i (received_in_plan a i _ Ha Hi)).
  unfold range_len in Hd. destruct data; lia.
Qed.

Lemma write_elsewhere data k :
  blen data ≤ range_len (chunk_range (ca_plan a) i) →
  ca_received a !! N.to_nat k = Some true →
  (chunk_range (ca_plan a) k).2 ≤ blen (write_at l (chunk_range (ca_plan a) i).1 data)
  ∧ agree_on (chunk_range (ca_plan a) k)
      (write_at l (chunk_range (ca_plan a) i).1 data) (ca_buffer a).
Proof.
  intros Hd Hk. destruct Hl as [Hb Hh]. destruct (Hh k Hk) as [Hk2 Hagree]. split.
  - rewrite blen_write_at. destruct data; lia.
  - intros j Hj. rewrite <-(Hagree j Hj). apply lookup_write_at_out; [unfold blen in Hk2; lia|].
    assert (k ≠ i) as Hne by (intros ->; congruence).
    destruct (chunk_range_disjoint _ (ao_plan a Ha) k i (N.of_nat j) Hj Hne) as [?|?]; [by left|].
    right. unfold range_len in Hd.
    pose proof (chunk_range_in _ (ao_plan a Ha) i (received_in_plan a i _ Ha Hi)). lia.
Qed.

(** A write that stops short leaves every retained chunk intact. *)
Lemma partial_write_holds data :
  blen data ≤ range_len (chunk_range (ca_plan a) i) →
  file_holds a (write_at l (chunk_range (ca_plan a) i).1 data).
Proof.
  intros Hd. split; [by apply write_bounded|]. intros k Hk. by apply write_elsewhere.
Qed.

(** A full write adds the chunk to the file as to the buffer. *)
Lemma full_write_holds payload n :
  blen payload = range_len (chunk_range (ca_plan a) i) →
  file_holds
    (mkChunkAssembler (ca_plan a) (<[N.to_nat i := true]> (ca_received a)) n
       (splice (ca_buffer a) (chunk_range (ca_plan a) i) payload))
    (write_at l (chunk_range (ca_plan a) i).1 payload).
Proof.
  intros Hd. pose proof (received_in_plan a i _ Ha Hi) as Hit.
  pose proof (chunk_range_in _ (ao_plan a Ha) i Hit) as [Hr1 Hr2].
  assert ((chunk_range (ca_plan a) i).2 ≤ blen (ca_buffer a)) as Hbuf
    by (rewrite (ao_buffer a Ha); done).
  split; cbn [ca_plan ca_received ca_buffer]; [apply write_bounded; lia|]. intros k Hk.
  destruct (decide (k = i)) as [->|Hne].
  - split.
    { rewrite blen_write_at. unfold range_len in Hd. destruct payload; [|lia].
      rewrite (empty_chunk_range _ (ao_plan a Ha) i Hit); [lia|].
      unfold range_len. rewrite <-Hd. done. }
    intros j Hj. unfold range_len in Hd. rewrite lookup_write_at_in by lia.
    rewrite <-(slice_splice (ca_buffer a) payload (chunk_range (ca_plan a) i)) at 1 by done.
    rewrite lookup_slice by (unfold range_len; lia). f_equal. lia.
  - rewrite list_lookup_insert_ne in Hk by lia.
    destruct (write_elsewhere payload k ltac:(lia) Hk) as [Hk2 Hagree]. split; [done|].
    intros j Hj. rewrite (Hagree j Hj). symmetry. apply lookup_splice_out; [done..|].
    by eapply (chunk_range_disjoint _ (ao_plan a Ha) k).
Qed.
End writing.

(** ** One accept *)

(** A reply that reports an operating-system failure. *)
Definition is_io {A} (r : result TransferChunkError A) : bool :=
  match r with Err (Io _ _) => true | _ => false end.

Lemma slice_of_file a l i :
  assembler_ok a → file_holds a l → ca_received a !! N.to_nat i = Some true →
  slice l (chunk_range (ca_plan a) i) = slice (ca_buffer a) (chunk_range (ca_plan a) i).
Proof.
  intros Ha [_ Hh] Hi. destruct (Hh i Hi) as [Hl Hagree].
  pose proof (chunk_range_in _ (ao_plan a Ha) i (received_in_plan a i _ Ha Hi)) as [_ ?].
  apply slice_agree; [done| |done]. by rewrite (ao_buffer a Ha).
Qed.

Lemma read_retained_cases l io r :
  r.2 ≤ blen l →
  read_retained l io r = Ok (slice l r) ∨ ∃ op m, read_retained l io r = Err (Io op m).
Proof.
  intros Hr. unfold read_retained.
  destruct (ci_seek io); cbn; [|eauto]. destruct (ci_read io); cbn; [|eauto].
  rewrite decide_False by lia. by left.
Qed.

Lemma write_new_cases l io sync offset payload :
  write_new l io sync offset payload = (Ok tt, write_at l offset payload)
  ∨ ∃ op m data, write_new l io sync offset payload = (Err (Io op m), write_at l offset data)
      ∧ blen data ≤ blen payload.
Proof.
  unfold write_new, blen. destruct (ci_seek io); cycle 1.
  { right. eexists _, _, []. split; [done|cbn; lia]. }
  destruct (ci_write io) as [u|[k m]]; cycle 1.
  { right. eexists _, _, _. split; [done|]. rewrite length_take. lia. }
  destruct (if sync then _ else _) as [[]|m]; [by left|right; eauto 10].
Qed.

Section simulation.
  Context `{!Sha256}.

Lemma check_chunk_not_io plan h payload e :
  check_chunk plan h payload = Err e → ∀ A, is_io (A:=A) (Err e) = false.
Proof.
  unfold check_chunk, chunk_bounds, ok_or, mbind, result_bind. intros E A.
  repeat (case_match; simplify_eq; try done).
Qed.

Lemma file_accept_chunk_step fs io f a h payload :
  simulates fs f a →
  ∃ r f' fs', file_accept_chunk fs io f h payload = Some (r, f', fs')
    ∧ if is_io r then f' = f ∧ simulates fs' f a
      else ∃ a', accept_chunk a h payload = Some (r, a') ∧ simulates fs' f' a'.
Proof.
  intros Hsim. destruct (Hsim) as [Ha Hpl Hrc Hby (l & Hl & Hh)].
  unfold file_accept_chunk, accept_chunk. rewrite Hpl, Hrc, Hl.
  destruct (check_chunk (ca_plan a) h payload) as [r|e] eqn:Hck; cycle 1.
  { eexists _, _, _. split; [done|]. rewrite (check_chunk_not_io _ _ _ _ Hck). eauto. }
  pose proof Hck as (Hi & -> & Hlen & _)%check_chunk_Ok; [|by apply Ha].
  pose proof (chunk_range_in _ (ao_plan a Ha) _ Hi) as [_ Hr].
  destruct (lookup_lt_is_Some_2 (ca_received a) (N.to_nat (cf_chunk_index h))) as [d Hd].
  { pose proof (ao_received a Ha). lia. }
  rewrite Hd. cbn [mbind option_bind].
  rewrite decide_False by (rewrite (ao_buffer a Ha); lia). destruct d.
  - destruct (read_retained_cases l io (chunk_range (ca_plan a) (cf_chunk_index h)))
      as [->|(op & m & ->)]; [by apply Hh| |].
    + rewrite (slice_of_file a l) by done. unfold file_is_complete, is_complete. rewrite Hrc.
      case_decide; eexists _, _, _; (split; [done|]); cbn; eauto.
    + eexists _, _, _. split; [done|]. cbn. done.
  - destruct (write_new_cases l io (fr_sync_each_chunk f)
                (chunk_range (ca_plan a) (cf_chunk_index h)).1 payload)
      as [->|(op & m & data & -> & Hdata)].
    + eexists _, _, _. split; [done|]. cbn. eexists. split; [done|].
      split; cbn; [by apply write_chunk_ok|done|done|by rewrite Hby|].
      eexists. rewrite lookup_insert_eq. split; [done|]. by apply full_write_holds.
    + eexists _, _, _. split; [done|]. cbn. split; [done|]. split; try done.
      eexists. rewrite lookup_insert_eq. split; [done|].
      apply partial_write_holds; [done..|lia].
Qed.

Context `{!SerdeJson ChunkFrameHeader}.

Lemma file_accept_binary_frame_step fs io f a frame :
  simulates fs f a →
  ∃ r f' fs', file_accept_binary_frame fs io f frame = Some (r, f', fs')
    ∧ if is_io r then f' = f ∧ simulates fs' f a
      else ∃ a', accept_binary_frame a frame = Some (r, a') ∧ simulates fs' f' a'.
Proof.
  intros Hsim. unfold file_accept_binary_frame, accept_binary_frame.
  destruct (decode_binary_frame frame) as [[h payload]|e]; cbn [map_err].
  - by apply file_accept_chunk_step.
  - eexists _, _, _. split; [done|]. cbn. eauto.
Qed.

(** The frames of a session whose replies were not I/O failures. *)
Fixpoint delivered (frames : list (bytes * ChunkIo))
    (rs : list (result TransferChunkError ChunkAccept)) : list bytes :=
  match frames, rs with
  | (frame, _) :: frames, r :: rs =>
      (if is_io r then [] else [frame]) ++ delivered frames rs
  | _, _ => []
  end.

Lemma file_accept_frames_sim fs f a frames :
  simulates fs f a →
  ∃ rs f' fs', file_accept_frames fs f frames = Some (rs, f', fs')
    ∧ ∃ a', accept_frames a (delivered frames rs)
            = Some (base.filter (fun r => is_io r = false) rs, a')
      ∧ simulates fs' f' a'.
Proof.
  revert fs f a. induction frames as [|[frame io] frames IH]; intros fs f a Hsim.
  { eexists _, _, _. split; [done|]. eauto. }
  destruct (file_accept_binary_frame_step fs io f a frame Hsim) as (r & f1 & fs1 & E1 & Hstep).
  cbn. rewrite E1. cbn. destruct (is_io r) eqn:Hio.
  - destruct Hstep as [-> Hsim1]. destruct (IH _ _ _ Hsim1) as (rs & f2 & fs2 & E2 & a' & Hrun & ?).
    rewrite E2. cbn. eexists _, _, _. split; [done|]. rewrite filter_cons_False, Hio by congruence.
    eauto.
  - destruct Hstep as (a1 & Ea1 & Hsim1).
    destruct (IH _ _ _ Hsim1) as (rs & f2 & fs2 & E2 & a' & Hrun & ?).
    rewrite E2. cbn. eexists _, _, _. split; [done|]. rewrite filter_cons_True, Hio by done.
    exists a'. cbn. rewrite Ea1. cbn. rewrite Hrun. done.
Qed.

(** Only the temporary file is ever written. *)
Lemma file_accept_frames_frame fs f frames rs f' fs' :
  file_accept_frames fs f frames = Some (rs, f', fs') →
  fr_temp_path f' = fr_temp_path f
  ∧ ∀ q, q ≠ fr_temp_path f → fs' !! q = fs !! q.
Proof.
  revert fs f rs. induction frames as [|[frame io] frames IH]; intros fs f rs E; [by simplify_eq/=|].
  cbn in E. destruct (file_accept_binary_frame fs io f frame) as [[[r f1] fs1]|] eqn:E1; [|done].
  cbn in E. destruct (file_accept_frames fs1 f1 frames) as [[[rs' f2] fs2]|] eqn:E2; [|done].
  simplify_eq/=. destruct (IH _ _ _ E2) as [Hp Hq].
  assert (fr_temp_path f1 = fr_temp_path f ∧ ∀ q, q ≠ fr_temp_path f → fs1 !! q = fs !! q)
    as [Hp1 Hq1].
  { unfold file_accept_binary_frame, file_accept_chunk, mbind, option_bind in E1.
    repeat (case_match; simplify_eq/=; try done); (split; [done|]); intros q Hqne;
      by rewrite lookup_insert_ne. }
  split; [congruence|]. intros q Hqne. rewrite Hq by congruence. by apply Hq1.
Qed.
End simulation.

(** ** Creation and completion *)

Lemma plan_size_fits p : plan_ok p → tp_file_size p ≤ u64_MAX.
Proof.
  intros Hp. destruct (plan_chunk_size p Hp) as [_ Hc]. pose proof (plan_count p Hp).
  destruct (plan_tiles p Hp) as (_ & Hcov & _).
  unfold MAX_CHUNK_SIZE, u32_MAX, u64_MAX in *. nia.
Qed.

Lemma with_options_sim fs io plan p options f fs' :
  with_options fs io plan p options = (Ok f, fs') →
  fr_temp_path f = p ∧ fs !! p = None
  ∧ ∃ a, with_max_file_size plan 0 = Ok a ∧ simulates fs' f a.
Proof.
  unfold with_options, create_new. case_match eqn:Hs; [done|]. case_decide; [done|].
  destruct (fs !! p) eqn:Hfs; [done|]. destruct (cr_open io) as [u|]; [|done].
  pose proof (proj1 (TransferPlan_shape_error_None plan) Hs) as Hp.
  assert (∃ a, with_max_file_size plan 0 = Ok a) as [a Hnew].
  { unfold with_max_file_size. rewrite Hs, decide_False by lia. unfold try_from.
    pose proof (plan_size_fits plan Hp). rewrite decide_True by done. cbn. eauto. }
  destruct (with_max_file_size_Ok _ _ _ Hnew) as (Ha & Hpl & Hrc).
  assert (∀ l, blen l ≤ tp_file_size plan →
    simulates (<[p := l]> fs)
      (mkFileChunkReceiver plan (replicate (N.to_nat (tp_total_chunks plan)) false) 0 p
         (fo_sync_each_chunk options)) a) as Hsim.
  { intros l Hl. split; cbn; try done.
    - by rewrite (ao_bytes a Ha), Hrc, received_bytes_false.
    - exists l. rewrite lookup_insert_eq. split; [done|]. split; [by rewrite Hpl|].
      intros i. rewrite Hrc. intros [? _]%lookup_replicate. done. }
  case_match; [destruct (cr_set_len io); [|done]|]; intros [= <- <-]; (split; [done|]);
    (split; [done|]); exists a; (split; [done|]); apply Hsim; unfold blen;
    [rewrite length_replicate|cbn]; lia.
Qed.

Lemma file_holds_complete a l :
  assembler_ok a → is_complete a = true → file_holds a l → l = ca_buffer a.
Proof.
  intros Ha Hc [Hle Hh].
  assert (∀ j, j < tp_file_size (ca_plan a) →
    j < blen l ∧ l !! N.to_nat j = ca_buffer a !! N.to_nat j) as Hall.
  { intros j Hj. destruct (chunk_of_byte _ (ao_plan a Ha) j Hj) as (i & Hi & Hr).
    destruct (lookup_lt_is_Some_2 (ca_received a) (N.to_nat i)) as [b Hb].
    { pose proof (ao_received a Ha). lia. }
    pose proof (proj1 (is_complete_true a) Hc _ _ Hb) as ->.
    destruct (Hh i Hb) as [Hlen Hagree]. split; [lia|]. apply Hagree. lia. }
  assert (blen l = tp_file_size (ca_plan a)) as Hlen.
  { destruct (decide (blen l < tp_file_size (ca_plan a))) as [Hlt|]; [|lia].
    destruct (Hall _ Hlt). lia. }
  apply list_eq. intros j. pose proof (ao_buffer a Ha) as Hbuf. unfold blen in *.
  destruct (decide (N.of_nat j < tp_file_size (ca_plan a))) as [Hj|Hj].
  - destruct (Hall _ Hj) as [_ E]. by rewrite Nat2N.id in E.
  - rewrite !lookup_ge_None_2 by lia. done.
Qed.

Section finishing.
  Context `{!Sha256} `{!ShaStreaming}.

(** The operating system fails none of the operations of [finish]. *)
Definition finish_io_ok (io : FinishIo) : Prop :=
  fi_sync io = Ok tt ∧ fi_open io = Ok tt ∧ Forall (fun x => is_ok x = true) (fi_reads io).

Lemma file_finish_sim fs io f a :
  simulates fs f a → finish_io_ok io →
  file_finish fs io f = Some ((fun _ => fr_temp_path f) <$> finish a).
Proof.
  intros [Ha Hpl Hrc Hby (l & Hl & Hh)] (Hsync & Hopen & Hreads).
  unfold file_finish, finish, file_is_complete, file_chunks_done, is_complete, chunks_done.
  rewrite Hrc, Hpl, Hsync, Hopen, (hash_file_Ok fs (fi_reads io) _ l Hl Hreads).
  destruct (forallb id (ca_received a)) eqn:Hc; [|done]. cbn.
  rewrite (file_holds_complete a l Ha Hc Hh). by case_decide.
Qed.

Lemma file_finish_total fs io f a :
  simulates fs f a →
  ∃ res, file_finish fs io f = Some res
    ∧ ∀ p, res = Ok p → p = fr_temp_path f
        ∧ ∃ l, fs !! p = Some l ∧ blen l = tp_file_size (ca_plan a)
             ∧ hash_bytes l = tp_file_hash (ca_plan a).
Proof.
  intros [Ha Hpl Hrc Hby (l & Hl & Hh)]. unfold file_finish.
  destruct (file_is_complete f) eqn:Hc; cbn [negb]; [|naive_solver].
  destruct (fi_sync io); [|naive_solver].
  destruct (hash_file_total fs (fi_open io) (fi_reads io) _ l Hl) as (res & -> & Hok). cbn.
  destruct res as [actual|e]; [|naive_solver]. rewrite (Hok _ eq_refl), Hpl.
  case_decide; [naive_solver|]. eexists. split; [done|]. intros q [= <-].
  split; [done|]. exists l. to_prop. split_and!; [done| |done].
  rewrite (file_holds_complete a l Ha); [apply Ha| |done].
  unfold is_complete. by rewrite <-Hrc.
Qed.
End finishing.

(** ** Properties *)

(** The file-backed receiver refines the in-memory one.  From a receiver
    created for a plan, and for every sequence of frames and every pattern of
    operating-system failures (partial writes included), nothing panics, the
    replies that are not I/O failures are exactly the in-memory receiver's
    replies to those frames alone, and once [finish] meets no I/O failure it
    answers as the in-memory [finish] does. *)
Theorem file_receiver_refines_assembler (S : Sha256) (L : ShaStreaming)
    (J : SerdeJson ChunkFrameHeader) (fs fs0 : filesystem) (cio : CreateIo)
    (plan : TransferPlan) (temp : string) (options : FileChunkReceiverOptions)
    (f0 : FileChunkReceiver) (frames : list (bytes * ChunkIo))
    (Hnew : with_options fs cio plan temp options = (Ok f0, fs0)) :
  ∃ a0 rs f1 fs1 a1,
    with_max_file_size plan 0 = Ok a0
    ∧ file_accept_frames fs0 f0 frames = Some (rs, f1, fs1)
    ∧ accept_frames a0 (delivered frames rs) = Some (base.filter (fun r => is_io r = false) rs, a1)
    ∧ (∀ io, finish_io_ok io →
        file_finish fs1 io f1 = Some ((fun _ => fr_temp_path f1) <$> finish a1)).
Proof.
  apply with_options_sim in Hnew as (_ & _ & a0 & Ha0 & Hsim).
  destruct (file_accept_frames_sim _ _ _ frames Hsim) as (rs & f1 & fs1 & Hf & a1 & Ha1 & Hsim1).
  exists a0, rs, f1, fs1, a1. split_and!; [done..|]. intros io Hio. by apply file_finish_sim.
Qed.

Definition sample_create_io : CreateIo := mkCreateIo (Ok tt) (Ok tt) (Ok tt).
Definition sample_file_receiver : FileChunkReceiver :=
  mkFileChunkReceiver sample_plan (replicate 3 false) 0 "t.part" true.

(** A first frame whose write fails after one byte, then an undecodable one. *)
Definition sample_session : list (bytes * ChunkIo) :=
  [([Byte.x00], mkChunkIo (Ok tt) (Ok tt) (Err (1, "disk full")) (Ok tt)); ([], io_ok)].

Lemma file_receiver_refines_assembler_witness :
  ∃ a0 rs f1 fs1 a1,
    with_max_file_size sample_plan 0 = Ok a0
    ∧ @file_accept_frames zero_sha (countable_serde _) {[ "t.part" := [] ]} sample_file_receiver
        sample_session = Some (rs, f1, fs1)
    ∧ @accept_frames zero_sha (countable_serde _) a0 (delivered sample_session rs)
      = Some (base.filter (fun r => is_io r = false) rs, a1)
    ∧ (∀ io, finish_io_ok io →
        @file_finish zero_sha fs1 io f1
        = Some ((fun _ => fr_temp_path f1) <$> @finish zero_sha a1)).
Proof.
  apply (@file_receiver_refines_assembler zero_sha zero_sha_streaming (countable_serde _)
           ∅ {[ "t.part" := [] ]} sample_create_io sample_plan "t.part"
           (mkFileChunkReceiverOptions 0 false true) sample_file_receiver sample_session).
  vm_compute. reflexivity.
Defined.

(** A persisted file is the declared object.  Whatever frames arrive and
    whatever I/O fails, [persist] answers, and if it answers with the final
    path then the file there has the declared size and whole-object hash and
    the temporary path is gone; if it answers with an error, the final path is
    as it was before the transfer; no other path is ever touched. *)
Theorem persist_verified (S : Sha256) (L : ShaStreaming) (J : SerdeJson ChunkFrameHeader)
    (fs fs0 : filesystem) (cio : CreateIo) (plan : TransferPlan) (temp final : string)
    (options : FileChunkReceiverOptions) (f0 : FileChunkReceiver)
    (frames : list (bytes * ChunkIo)) (io : FinishIo)
    (Hnew : with_options fs cio plan temp options = (Ok f0, fs0)) (Hne : final ≠ temp) :
  ∃ rs f1 fs1 res fs2,
    file_accept_frames fs0 f0 frames = Some (rs, f1, fs1)
    ∧ persist fs1 io f1 final = Some (res, fs2)
    ∧ (∀ q, q ≠ temp → q ≠ final → fs2 !! q = fs !! q)
    ∧ match res with
      | Ok p => p = final ∧ fs2 !! temp = None
          ∧ ∃ l, fs2 !! final = Some l ∧ blen l = tp_file_size plan
               ∧ hash_bytes l = tp_file_hash plan
      | Err _ => fs2 !! final = fs !! final
      end.
Proof.
  assert (∀ q, q ≠ temp → fs0 !! q = fs !! q) as Hout0.
  { unfold with_options in Hnew. intros q Hq.
    repeat (case_match; simplify_eq/=; try done); by rewrite lookup_insert_ne. }
  apply with_options_sim in Hnew as (Htemp & _ & a0 & Ha0 & Hsim).
  destruct (file_accept_frames_sim _ _ _ frames Hsim) as (rs & f1 & fs1 & Hf & a1 & Ha1 & Hsim1).
  destruct (file_accept_frames_frame _ _ _ _ _ _ Hf) as [Htp Hout1].
  apply with_max_file_size_Ok in Ha0 as (Hok0 & Hpl0 & _).
  assert (ca_plan a1 = plan) as Hpl1.
  { destruct (accept_frames_ok a0 (delivered frames rs) Hok0) as (rs' & a' & E & _ & Hp).
    simplify_eq. congruence. }
  destruct (file_finish_total fs1 io f1 a1 Hsim1) as (res & Hfin & Hgood).
  rewrite Htp, Htemp in *. exists rs, f1, fs1. unfold persist. rewrite Hfin. cbn.
  assert (∀ q, q ≠ temp → fs1 !! q = fs !! q) as Hout.
  { intros q Hq. rewrite Hout1 by done. by apply Hout0. }
  destruct res as [p|e].
  - destruct (Hgood p eq_refl) as (-> & l & Hl & Hlen & Hhash).
    rewrite Hpl1 in *. destruct (fi_rename io).
    + eexists _, _. split; [done|]. split; [done|]. unfold rename; rewrite Hl.
      split; [|split; [done|split]].
      * intros q Hq1 Hq2. by rewrite lookup_insert_ne, lookup_delete_ne, Hout.
      * by rewrite lookup_insert_ne, lookup_delete_eq.
      * exists l. by rewrite lookup_insert_eq.
    + eexists _, _. split; [done|]; split; [done|]; split; [intros q ? _; by apply Hout|by apply Hout].
  - eexists _, _. split; [done|]; split; [done|]; split; [intros q ? _; by apply Hout|by apply Hout].
Qed.

Lemma persist_verified_witness :
  ∃ rs f1 fs1 res fs2,
    @file_accept_frames zero_sha (countable_serde _) {[ "t.part" := [] ]} sample_file_receiver
      sample_session = Some (rs, f1, fs1)
    ∧ @persist zero_sha fs1 (mkFinishIo (Ok tt) (Ok tt) [] (Ok tt)) f1 "t" = Some (res, fs2)
    ∧ (∀ q, q ≠ "t.part" → q ≠ "t" → fs2 !! q = (∅ : filesystem) !! q)
    ∧ match res with
      | Ok p => p = "t" ∧ fs2 !! "t.part" = None
          ∧ ∃ l, fs2 !! "t" = Some l ∧ blen l = tp_file_size sample_plan
               ∧ @hash_bytes zero_sha l = tp_file_hash sample_plan
      | Err _ => fs2 !! "t" = (∅ : filesystem) !! "t"
      end.
Proof.
  apply (@persist_verified zero_sha zero_sha_streaming (countable_serde _)
           ∅ {[ "t.part" := [] ]} sample_create_io sample_plan "t.part" "t"
           (mkFileChunkReceiverOptions 0 false true) sample_file_receiver sample_session).
  - vm_compute. reflexivity.
  - intros E. vm_compute in E. discriminate E.
Defined.
