(* ===== verification/AetherAddress.v ===== *)
(** * Addresses of the bus

    [cosmos/aether/src/address.rs]: identity addressing (creature, node,
    kernel, topic), capability addressing (role, node role, intent) and the
    federation wrappers (realm, omega), with the nesting ceiling and the
    length-prefixed capability key of a node role. *)

From stdpp Require Import countable.
From S2P Require Import Prelude.

(** Routing handles and names are newtypes over [u64] and [String]. *)
Definition CreatureId : Type := N.
Definition NodeId : Type := string.
Definition RealmId : Type := string.
Definition Role : Type := string.
Definition Topic : Type := string.

Definition DISTRIBUTOR : Role := "distributor".
Definition TRANSPORT : Role := "transport".
Definition REALM_GATEWAY : Role := "realm-gateway".
Definition OMEGA_GATEWAY : Role := "omega-gateway".

Record Intent : Type := mkIntent {
  in_outcome : string;
  in_requirements : list string
}.

#[export] Instance Intent_eq_dec : EqDecision Intent.
Proof. solve_decision. Defined.

Inductive Address : Type :=
  | ACreature (id : CreatureId)
  | ANode (node : NodeId) (id : CreatureId)
  | ANodeRole (node : NodeId) (role : Role)
  | AKernel
  | ATopic (topic : Topic)
  | ARole (role : Role)
  | AIntent (intent : Intent)
  | ARealm (realm : RealmId) (target : Address)
  | AOmega (realm : RealmId) (target : Address).

#[export] Instance Address_eq_dec : EqDecision Address.
Proof.
  unfold EqDecision, Decision. unfold CreatureId, NodeId, RealmId, Role, Topic.
  decide equality; solve [apply N.eq_dec | apply String.string_dec | apply Intent_eq_dec].
Defined.

(** A tree code, for the concrete codec of closed examples. *)
Fixpoint Address_to_tree (a : Address) : gen_tree (N + string + list string) :=
  match a with
  | ACreature id => GenNode 0 [GenLeaf (inl (inl id))]
  | ANode n id => GenNode 1 [GenLeaf (inl (inr n)); GenLeaf (inl (inl id))]
  | ANodeRole n r => GenNode 2 [GenLeaf (inl (inr n)); GenLeaf (inl (inr r))]
  | AKernel => GenNode 3 []
  | ATopic t => GenNode 4 [GenLeaf (inl (inr t))]
  | ARole r => GenNode 5 [GenLeaf (inl (inr r))]
  | AIntent (mkIntent o rs) => GenNode 6 [GenLeaf (inl (inr o)); GenLeaf (inr rs)]
  | ARealm r a => GenNode 7 [GenLeaf (inl (inr r)); Address_to_tree a]
  | AOmega r a => GenNode 8 [GenLeaf (inl (inr r)); Address_to_tree a]
  end.

Fixpoint Address_of_tree (t : gen_tree (N + string + list string)) : Address :=
  match t with
  | GenNode 0 [GenLeaf (inl (inl id))] => ACreature id
  | GenNode 1 [GenLeaf (inl (inr n)); GenLeaf (inl (inl id))] => ANode n id
  | GenNode 2 [GenLeaf (inl (inr n)); GenLeaf (inl (inr r))] => ANodeRole n r
  | GenNode 4 [GenLeaf (inl (inr t))] => ATopic t
  | GenNode 5 [GenLeaf (inl (inr r))] => ARole r
  | GenNode 6 [GenLeaf (inl (inr o)); GenLeaf (inr rs)] => AIntent (mkIntent o rs)
  | GenNode 7 [GenLeaf (inl (inr r)); t] => ARealm r (Address_of_tree t)
  | GenNode 8 [GenLeaf (inl (inr r)); t] => AOmega r (Address_of_tree t)
  | _ => AKernel
  end.

#[export] Instance Address_countable : Countable Address.
Proof.
  apply (inj_countable' Address_to_tree Address_of_tree).
  intros a. induction a as [| | | | | |[]| |]; cbn; congruence.
Defined.

Definition MAX_ADDRESS_NESTING_DEPTH : N := 8.

(** The loop of [nesting_depth]: [depth] counts the wrappers peeled so far. *)
Fixpoint nesting_depth_loop (cur : Address) (depth : N) : N :=
  match cur with
  | ARealm _ target | AOmega _ target => nesting_depth_loop target (depth + 1)
  | _ => depth
  end.

Definition nesting_depth (a : Address) : N := nesting_depth_loop a 0.

Definition node_role_capability_key (node : NodeId) (role : Role) : string :=
  "node-role:" +:+ dec (slen node) +:+ ":" +:+ node +:+ ":" +:+ dec (slen role) +:+ ":" +:+ role.

(** ** Lemmas *)

(** Wrap an address in federation layers, innermost first. *)
Definition wrap (layers : list (bool * RealmId)) (a : Address) : Address :=
  foldr (fun '(omega, realm) acc => if omega : bool then AOmega realm acc else ARealm realm acc)
    a layers.

Definition is_wrapper (a : Address) : bool :=
  match a with ARealm _ _ | AOmega _ _ => true | _ => false end.

Lemma nesting_depth_loop_acc a d : nesting_depth_loop a d = d + nesting_depth_loop a 0.
Proof.
  revert d. induction a as [| | | | | | |r a IH|r a IH]; intros d; cbn; try lia;
    rewrite IH, (IH (0 + 1)); lia.
Qed.

Lemma nesting_depth_wrap layers a :
  is_wrapper a = false → nesting_depth (wrap layers a) = N.of_nat (length layers).
Proof.
  intros Ha. unfold nesting_depth. induction layers as [|[o r] layers IH].
  - by destruct a.
  - destruct o; cbn [wrap foldr nesting_depth_loop length]; rewrite nesting_depth_loop_acc;
      unfold wrap in IH; rewrite IH; lia.
Qed.

(** Every address is a stack of wrappers on a plain target. *)
Lemma unwrap a : ∃ layers b, a = wrap layers b ∧ is_wrapper b = false.
Proof.
  induction a as [| | | | | | |r a IH|r a IH]; try by eexists [], _.
  - destruct IH as (l & b & -> & Hb). by exists ((false, r) :: l), b.
  - destruct IH as (l & b & -> & Hb). by exists ((true, r) :: l), b.
Qed.

(** ** Length-prefixed text *)

Definition COLON : Ascii.ascii := Ascii.ascii_of_N 58.

Lemma dec_no_colon n : contains_char COLON (dec n) = false.
Proof. eapply all_bytes_no_char; [|apply dec_digits]. done. Qed.

(** [len:text] determines the text and what follows it. *)
Lemma length_prefixed_inj (s t u v : string) :
  dec (slen s) +:+ ":" +:+ s +:+ t = dec (slen u) +:+ ":" +:+ u +:+ v → s = u ∧ t = v.
Proof.
  change (dec (slen s) +:+ String COLON (s +:+ t) = dec (slen u) +:+ String COLON (u +:+ v)
          → s = u ∧ t = v).
  intros E. apply append_sep_inj in E as [El E]; [|apply dec_no_colon..].
  apply (inj dec) in El. by apply append_length_inj.
Qed.

Lemma append_nil_r s : s +:+ "" = s.
Proof. induction s as [|c s IH]; [done|]. by rewrite string_append_cons, IH. Qed.

Lemma node_role_capability_key_inj n r m q :
  node_role_capability_key n r = node_role_capability_key m q → n = m ∧ r = q.
Proof.
  unfold node_role_capability_key. intros E%append_inv_head.
  apply length_prefixed_inj in E as [-> E]. split; [done|].
  apply append_inv_head in E.
  apply (length_prefixed_inj r "" q ""). by rewrite !append_nil_r.
Qed.
