(* ===== verification/AetherEnvelope.v ===== *)
(** * Envelopes and dispatches

    [cosmos/aether/src/envelope.rs], [origin.rs], [wire.rs] and the message
    half of [instance.rs]: the header with its fabric-set fields, the size and
    depth gates, parsing, the bytes a signature commits to, and what a creature
    emits. *)

From stdpp Require Import countable.
From S2P Require Import Prelude Serde AetherAddress.

Record Origin : Type := mkOrigin { or_node : NodeId }.

Inductive OriginVerdict : Type := Local | Verified | Unresolved | BadSig.

Record OriginEvent : Type := mkOriginEvent {
  oe_origin_node : NodeId;
  oe_target : CreatureId;
  oe_corr : option N;
  oe_verdict : OriginVerdict
}.

Record Header : Type := mkHeader {
  hd_from : Address;
  hd_to : Address;
  hd_reply_to : option Address;
  hd_seq : N;
  hd_causal : list N;
  hd_stamp : N;
  hd_sig : string;
  hd_corr : option N;
  hd_commitment : option string;
  hd_schema : string;
  hd_origin : option Origin
}.

Record Envelope : Type := mkEnvelope {
  ev_header : Header;
  ev_payload : bytes
}.

#[export] Instance Origin_eq_dec : EqDecision Origin.
Proof. solve_decision. Defined.
#[export] Instance Header_eq_dec : EqDecision Header.
Proof. solve_decision. Defined.
#[export] Instance Envelope_eq_dec : EqDecision Envelope.
Proof. solve_decision. Defined.

#[export] Instance Header_countable : Countable Header.
Proof.
  refine (inj_countable'
    (fun h => (hd_from h, hd_to h, hd_reply_to h, hd_seq h, hd_causal h, hd_stamp h, hd_sig h,
               hd_corr h, hd_commitment h, hd_schema h, or_node <$> hd_origin h))
    (fun '(a, b, c, d, e, f, g, h, i, j, k) =>
       mkHeader a b c d e f g h i j (mkOrigin <$> k)) _).
  by intros [? ? ? ? ? ? ? ? ? ? [[]|]].
Defined.

#[export] Instance Envelope_countable : Countable Envelope.
Proof.
  refine (inj_countable' (fun e => (ev_header e, Byte.to_N <$> ev_payload e))
    (fun '(h, p) => mkEnvelope h (byte_of_N <$> p)) _).
  intros [h p]. cbn. f_equal. rewrite <-list_fmap_compose. rewrite <-(list_fmap_id p) at 2.
  apply list_fmap_ext. intros _ x _. cbn. apply byte_of_to_N.
Defined.

Inductive EnvelopeError : Type :=
  | EnvParse (message : string)
  | EnvHeaderTooLarge (len limit : N)
  | EnvTooDeep (depth max : N).

Definition MAX_ENVELOPE_HEADER_BYTES : N := 128 * 1024.

(** [b"GAWD-ENVELOPE-v1:"]. *)
Definition ENVELOPE_SIGNING_DOMAIN : bytes := bytes_of_string "GAWD-ENVELOPE-v1:".

Definition set_stamp (h : Header) (stamp : N) : Header :=
  mkHeader (hd_from h) (hd_to h) (hd_reply_to h) (hd_seq h) (hd_causal h) stamp (hd_sig h)
    (hd_corr h) (hd_commitment h) (hd_schema h) (hd_origin h).

Definition set_sig (h : Header) (sig : string) : Header :=
  mkHeader (hd_from h) (hd_to h) (hd_reply_to h) (hd_seq h) (hd_causal h) (hd_stamp h) sig
    (hd_corr h) (hd_commitment h) (hd_schema h) (hd_origin h).

Definition address_depth_error (h : Header) : option (N * N) :=
  let depth := N.max (nesting_depth (hd_to h)) (nesting_depth (hd_from h)) in
  if decide (MAX_ADDRESS_NESTING_DEPTH < depth) then Some (depth, MAX_ADDRESS_NESTING_DEPTH)
  else None.

(** [SigningHeader]: the header with [stamp] zeroed and [sig] cleared. *)
Definition signing_header (h : Header) : Header := set_sig (set_stamp h 0) "".

Definition reply_target (e : Envelope) : Address :=
  match hd_reply_to (ev_header e) with Some a => a | None => hd_from (ev_header e) end.

Section envelope.
  Context `{!SerdeJson Header} `{!SerdeJson Envelope}.

(** [wire::to_bytes]: a serialisation failure degrades to no bytes. *)
Definition to_bytes {T} `{!SerdeJson T} (value : T) : bytes :=
  match to_vec value with Ok b => b | Err _ => [] end.

Definition header_size_error (h : Header) : option (N * N) :=
  let len :=
    match to_vec h with Ok b => blen b | Err _ => MAX_ENVELOPE_HEADER_BYTES + 1 end in
  if decide (MAX_ENVELOPE_HEADER_BYTES < len) then Some (len, MAX_ENVELOPE_HEADER_BYTES)
  else None.

Definition parse (b : bytes) : result EnvelopeError Envelope :=
  env ← map_err EnvParse (from_slice b);
  match address_depth_error (ev_header env) with
  | Some (depth, max) => Err (EnvTooDeep depth max)
  | None =>
      match header_size_error (ev_header env) with
      | Some (len, limit) => Err (EnvHeaderTooLarge len limit)
      | None => Ok env
      end
  end.

(** The view serialises field for field as a header does, so the header's own
    serialisation is used. *)
Definition signing_payload (e : Envelope) : bytes :=
  ENVELOPE_SIGNING_DOMAIN ++ to_bytes (signing_header (ev_header e)) ++ ev_payload e.
End envelope.

(** ** What a creature emits *)

Record Dispatch : Type := mkDispatch {
  di_to : Address;
  di_reply_to : option Address;
  di_payload : bytes;
  di_schema : string;
  di_corr : option N;
  di_commitment : option string
}.

Definition Dispatch_to (to : Address) (payload : bytes) : Dispatch :=
  mkDispatch to None payload "" None None.
Definition with_schema (d : Dispatch) (schema : string) : Dispatch :=
  mkDispatch (di_to d) (di_reply_to d) (di_payload d) schema (di_corr d) (di_commitment d).
Definition with_corr (d : Dispatch) (corr : N) : Dispatch :=
  mkDispatch (di_to d) (di_reply_to d) (di_payload d) (di_schema d) (Some corr) (di_commitment d).
Definition with_reply_to (d : Dispatch) (addr : Address) : Dispatch :=
  mkDispatch (di_to d) (Some addr) (di_payload d) (di_schema d) (di_corr d) (di_commitment d).
Definition with_commitment (d : Dispatch) (commit : string) : Dispatch :=
  mkDispatch (di_to d) (di_reply_to d) (di_payload d) (di_schema d) (di_corr d) (Some commit).

Definition reply_to_env (env : Envelope) (payload : bytes) : Dispatch :=
  mkDispatch (reply_target env) None payload (hd_schema (ev_header env))
    (hd_corr (ev_header env)) None.

Inductive SignalLevel : Type := Warn | Hard.
Inductive LimitKind : Type := Fuel | Memory | Wall.

Record BudgetVector : Type := mkBudgetVector {
  bv_consumed : N;
  bv_limit : N;
  bv_dispatches_this_envelope : N;
  bv_wall_ms_elapsed : N;
  bv_envelopes_since_load : N
}.

Record BudgetSignal : Type := mkBudgetSignal {
  bs_level : SignalLevel;
  bs_kind : LimitKind;
  bs_vector : BudgetVector
}.

Definition BudgetSignal_hard (kind : LimitKind) (vector : BudgetVector) : BudgetSignal :=
  mkBudgetSignal Hard kind vector.
Definition BudgetSignal_warn (kind : LimitKind) (vector : BudgetVector) : BudgetSignal :=
  mkBudgetSignal Warn kind vector.

Record Outcome : Type := mkOutcome {
  out_dispatches : list Dispatch;
  out_budget_signal : option BudgetSignal
}.

Definition Outcome_none : Outcome := mkOutcome [] None.
Definition Outcome_send (d : Dispatch) : Outcome := mkOutcome [d] None.
Definition Outcome_budget_signal (s : BudgetSignal) : Outcome := mkOutcome [] (Some s).
Definition Outcome_reply (env : Envelope) (payload : bytes) : Outcome :=
  Outcome_send (reply_to_env env payload).
Definition Outcome_push (o : Outcome) (d : Dispatch) : Outcome :=
  mkOutcome (out_dispatches o ++ [d]) (out_budget_signal o).

(** ** Lemmas *)

Lemma address_depth_error_None h :
  address_depth_error h = None ↔
  nesting_depth (hd_to h) ≤ MAX_ADDRESS_NESTING_DEPTH
  ∧ nesting_depth (hd_from h) ≤ MAX_ADDRESS_NESTING_DEPTH.
Proof. unfold address_depth_error. case_decide; split; try done; lia. Qed.

Lemma signing_header_stamp h stamp : signing_header (set_stamp h stamp) = signing_header h.
Proof. done. Qed.

Lemma signing_header_sig h sig : signing_header (set_sig h sig) = signing_header h.
Proof. done. Qed.

(** ** Properties *)

(** The signed bytes of an envelope commit to everything but the signature
    and the stamp: two envelopes with the same signed bytes have the same
    payload and agree on every other header field, the cross-node origin
    included; and setting the stamp or the signature does not change the bytes,
    so sealing and routing keep a signature valid. *)
Theorem signing_payload_binds (JH : SerdeJson Header) (T : SerdeTotal Header)
    (P : SerdePrefixFree Header) (e f : Envelope) :
  (signing_payload e = signing_payload f ↔
   signing_header (ev_header e) = signing_header (ev_header f) ∧ ev_payload e = ev_payload f)
  ∧ ∀ stamp sig,
      signing_payload (mkEnvelope (set_sig (set_stamp (ev_header e) stamp) sig) (ev_payload e))
      = signing_payload e.
Proof.
  split; [|done]. unfold signing_payload, to_bytes. split; [|by intros [-> ->]].
  destruct (to_vec_total (signing_header (ev_header e))) as [b Hb].
  destruct (to_vec_total (signing_header (ev_header f))) as [c Hc].
  rewrite Hb, Hc. intros E%(inj _).
  by apply (to_vec_prefix_free _ _ _ _ _ _ Hb Hc) in E as (? & _ & ?).
Qed.

(** Parsing admits only envelopes whose two endpoints are at most eight
    federation wrappers deep and whose header serialises within the size limit,
    refuses a deeper one with the depth found, and returns the sent envelope
    when it is within both limits. *)
Theorem parse_bounds_and_roundtrip (JH : SerdeJson Header) (JE : SerdeJson Envelope)
    (R : SerdeRoundTrip Envelope) (b : bytes) (env : Envelope) (Hb : to_vec env = Ok b) :
  (parse b = Ok env ↔
   nesting_depth (hd_to (ev_header env)) ≤ MAX_ADDRESS_NESTING_DEPTH
   ∧ nesting_depth (hd_from (ev_header env)) ≤ MAX_ADDRESS_NESTING_DEPTH
   ∧ ∃ hb, to_vec (ev_header env) = Ok hb ∧ blen hb ≤ MAX_ENVELOPE_HEADER_BYTES)
  ∧ (∀ layers target, is_wrapper target = false → hd_to (ev_header env) = wrap layers target →
      MAX_ADDRESS_NESTING_DEPTH < N.of_nat (length layers) →
      ∃ depth, parse b = Err (EnvTooDeep depth MAX_ADDRESS_NESTING_DEPTH)
        ∧ N.of_nat (length layers) ≤ depth).
Proof.
  unfold parse. rewrite (from_slice_to_vec env b Hb). cbn. split.
  - destruct (address_depth_error (ev_header env)) as [[d m]|] eqn:Hd.
    + split; [done|]. intros (Hto & Hfrom & _).
      by rewrite (proj2 (address_depth_error_None _) (conj Hto Hfrom)) in Hd.
    + apply address_depth_error_None in Hd as [Hto Hfrom]. unfold header_size_error.
      destruct (to_vec (ev_header env)) as [hb|e]; case_decide; naive_solver lia.
  - intros layers target Ht Hto Hdeep. pose proof (nesting_depth_wrap layers target Ht) as Hn.
    unfold address_depth_error. rewrite Hto, Hn. rewrite decide_True by lia.
    eexists. split; [done|]. lia.
Qed.

Definition sample_env (to : Address) : Envelope :=
  mkEnvelope (mkHeader AKernel to None 0 [] 0 "" None None "" None) [].

Lemma signing_payload_binds_witness :
  let J := countable_serde Header in
  let e := sample_env AKernel in
  let f := sample_env (ARole "policy") in
  (signing_payload e = signing_payload f ↔
   signing_header (ev_header e) = signing_header (ev_header f) ∧ ev_payload e = ev_payload f)
  ∧ ∀ stamp sig,
      signing_payload (mkEnvelope (set_sig (set_stamp (ev_header e) stamp) sig) (ev_payload e))
      = signing_payload e.
Proof.
  apply (@signing_payload_binds (countable_serde Header) (countable_serde_total Header)
           (countable_serde_prefix_free Header)).
Defined.

Lemma parse_bounds_and_roundtrip_witness :
  let J := countable_serde Header in
  let K := countable_serde Envelope in
  let env := sample_env (wrap (replicate 9 (true, "local")) AKernel) in
  ∃ depth, parse (to_bytes env) = Err (EnvTooDeep depth MAX_ADDRESS_NESTING_DEPTH)
    ∧ 9 ≤ depth.
Proof.
  intros J K env.
  refine (proj2 (@parse_bounds_and_roundtrip J K (countable_serde_roundtrip Envelope)
    (to_bytes env) env _) (replicate 9 (true, "local")) AKernel _ _ _);
    reflexivity.
Defined.
