(* ===== verification/AetherRouter.v ===== *)
(** * The router

    [cosmos/aether/src/router.rs]: the address table of bounded inboxes, the
    role bindings, the topic subscriptions, the history ring and the logical
    clock.

    A bounded [sync_channel] is a cell of a channel heap, shared by the sender
    the table stores and the receiver its caller holds.  The router's maps sit
    behind separate locks, so [route] and [deregister] are sequences of atomic
    sections, one per critical section of the source; [route] and [deregister]
    run their sections back to back, and [AetherBus] interleaves them. *)

From S2P Require Import Prelude Serde AetherAddress AetherEnvelope.

(** The injected verify mechanism. *)
Class Verifier : Type := verify : string → bytes → string → bool.

Inductive NetCapability : Type := NetNone | NetLoopback | NetOutbound | NetAny.

Record Capabilities : Type := mkCapabilities {
  cap_fs : list string;
  cap_net : NetCapability;
  cap_cpu_ms : N;
  cap_mem_bytes : N;
  cap_calls : list string;
  cap_budget_warn_at : option N;
  cap_wall_ms : option N
}.

Definition Capabilities_default : Capabilities :=
  mkCapabilities [] NetNone 0 0 [] None None.

(** ** Channels *)

Record Channel : Type := mkChannel {
  ch_queue : list Envelope;
  ch_sender : bool;
  ch_receiver : bool
}.

Inductive TrySend : Type := Sent (c : Channel) | Full | Disconnected.

Definition try_send (capacity : N) (c : Channel) (env : Envelope) : TrySend :=
  if negb (ch_receiver c) then Disconnected
  else if decide (capacity ≤ N.of_nat (length (ch_queue c))) then Full
  else Sent (mkChannel (ch_queue c ++ [env]) (ch_sender c) (ch_receiver c)).

(** ** State *)

Definition KERNEL_ID : CreatureId := 0.
Definition DEFAULT_JOURNAL_CAP : N := 65536.
Definition DEFAULT_MAX_TOPICS : N := 4096.

Record Registration : Type := mkRegistration {
  reg_inbox : nat;
  reg_caps : Capabilities
}.

Record RoleBinding : Type := mkRoleBinding {
  rb_creature : CreatureId;
  rb_remote : bool
}.

Record JournalEntry : Type := mkJournalEntry {
  je_from : Address;
  je_to : Address;
  je_seq : N;
  je_stamp : N;
  je_corr : option N
}.

Inductive RouteError : Type :=
  | NoSuchModule (id : CreatureId)
  | NoProvider (role : string)
  | Backpressure (id : CreatureId)
  | Denied (from : CreatureId)
  | HeaderTooLarge (len limit : N)
  | TooDeep (depth max : N).

Record Router : Type := mkRouter {
  rt_table : gmap N Registration;
  rt_roles : gmap string RoleBinding;
  rt_topics : gmap string (list N);
  rt_max_topics : N;
  rt_journal : list JournalEntry;
  rt_journal_cap : N;
  rt_clock : N;
  rt_next_id : N;
  rt_local_pubkey : option string;
  rt_inbox_capacity : N;
  rt_channels : list Channel
}.

Definition Router_new (inbox_capacity : N) : Router :=
  mkRouter ∅ ∅ ∅ DEFAULT_MAX_TOPICS [] DEFAULT_JOURNAL_CAP 0 (KERNEL_ID + 1) None
    (N.max inbox_capacity 1) [].

Definition with_max_topics (r : Router) (max_topics : N) : Router :=
  mkRouter (rt_table r) (rt_roles r) (rt_topics r) max_topics (rt_journal r) (rt_journal_cap r)
    (rt_clock r) (rt_next_id r) (rt_local_pubkey r) (rt_inbox_capacity r) (rt_channels r).

(** Field updates. *)
Definition set_table (r : Router) t : Router :=
  mkRouter t (rt_roles r) (rt_topics r) (rt_max_topics r) (rt_journal r) (rt_journal_cap r)
    (rt_clock r) (rt_next_id r) (rt_local_pubkey r) (rt_inbox_capacity r) (rt_channels r).
Definition set_roles (r : Router) ro : Router :=
  mkRouter (rt_table r) ro (rt_topics r) (rt_max_topics r) (rt_journal r) (rt_journal_cap r)
    (rt_clock r) (rt_next_id r) (rt_local_pubkey r) (rt_inbox_capacity r) (rt_channels r).
Definition set_topics (r : Router) t : Router :=
  mkRouter (rt_table r) (rt_roles r) t (rt_max_topics r) (rt_journal r) (rt_journal_cap r)
    (rt_clock r) (rt_next_id r) (rt_local_pubkey r) (rt_inbox_capacity r) (rt_channels r).
Definition set_journal (r : Router) j : Router :=
  mkRouter (rt_table r) (rt_roles r) (rt_topics r) (rt_max_topics r) j (rt_journal_cap r)
    (rt_clock r) (rt_next_id r) (rt_local_pubkey r) (rt_inbox_capacity r) (rt_channels r).
Definition set_clock (r : Router) c : Router :=
  mkRouter (rt_table r) (rt_roles r) (rt_topics r) (rt_max_topics r) (rt_journal r)
    (rt_journal_cap r) c (rt_next_id r) (rt_local_pubkey r) (rt_inbox_capacity r) (rt_channels r).
Definition set_next_id (r : Router) n : Router :=
  mkRouter (rt_table r) (rt_roles r) (rt_topics r) (rt_max_topics r) (rt_journal r)
    (rt_journal_cap r) (rt_clock r) n (rt_local_pubkey r) (rt_inbox_capacity r) (rt_channels r).
Definition set_channels (r : Router) c : Router :=
  mkRouter (rt_table r) (rt_roles r) (rt_topics r) (rt_max_topics r) (rt_journal r)
    (rt_journal_cap r) (rt_clock r) (rt_next_id r) (rt_local_pubkey r) (rt_inbox_capacity r) c.

(** Once-only. *)
Definition set_local_pubkey (r : Router) (pubkey : string) : Router :=
  match rt_local_pubkey r with
  | Some _ => r
  | None =>
      mkRouter (rt_table r) (rt_roles r) (rt_topics r) (rt_max_topics r) (rt_journal r)
        (rt_journal_cap r) (rt_clock r) (rt_next_id r) (Some pubkey) (rt_inbox_capacity r)
        (rt_channels r)
  end.

Definition public_key_of (r : Router) (from : Address) : string :=
  match from with
  | ACreature _ => default "" (rt_local_pubkey r)
  | _ => ""
  end.

(** ** Registration *)

(** [sync_channel]: a fresh cell; the receiver is its index. *)
Definition sync_channel (r : Router) : Router * nat :=
  (set_channels r (rt_channels r ++ [mkChannel [] true true]), length (rt_channels r)).

Definition drop_sender (c : Channel) : Channel := mkChannel (ch_queue c) false (ch_receiver c).

(** Dropping the sender a registration stores disconnects its channel. *)
Definition drop_registration (r : Router) (reg : option Registration) : Router :=
  match reg with
  | Some reg => set_channels r (alter drop_sender (reg_inbox reg) (rt_channels r))
  | None => r
  end.

Definition insert_registration (r : Router) (id : CreatureId) (reg : Registration) : Router :=
  drop_registration (set_table r (<[id := reg]> (rt_table r))) (rt_table r !! id).

Definition register (r : Router) (caps : Capabilities) : Router * (CreatureId * nat) :=
  let id := rt_next_id r in
  let r := set_next_id r (u64_add (rt_next_id r) 1) in
  let '(r, ch) := sync_channel r in
  (insert_registration r id (mkRegistration ch caps), (id, ch)).

Definition register_kernel (r : Router) : Router * nat :=
  let '(r, ch) := sync_channel r in
  (insert_registration r KERNEL_ID (mkRegistration ch Capabilities_default), ch).

(** The three critical sections of [deregister]. *)
Definition deregister_table (r : Router) (id : CreatureId) : Router :=
  drop_registration (set_table r (delete id (rt_table r))) (rt_table r !! id).
Definition deregister_roles (r : Router) (id : CreatureId) : Router :=
  set_roles r (base.filter (fun kv => rb_creature kv.2 ≠ id) (rt_roles r)).
Definition deregister_topics (r : Router) (id : CreatureId) : Router :=
  set_topics r (base.filter (fun v => v ≠ id) <$> rt_topics r).

Definition deregister (r : Router) (id : CreatureId) : Router :=
  deregister_topics (deregister_roles (deregister_table r id) id) id.

(** ** Roles and topics *)

Definition bind_role (r : Router) (role : Role) (id : CreatureId) : Router :=
  set_roles r (<[role := mkRoleBinding id false]> (rt_roles r)).
Definition bind_remote_role (r : Router) (role : Role) (id : CreatureId) : Router :=
  set_roles r (<[role := mkRoleBinding id true]> (rt_roles r)).
Definition unbind_role (r : Router) (role : Role) : Router :=
  set_roles r (delete role (rt_roles r)).
Definition role_binding (r : Router) (role : Role) : option CreatureId :=
  rb_creature <$> rt_roles r !! role.
Definition remote_role_binding (r : Router) (role : Role) : option CreatureId :=
  match rt_roles r !! role with
  | Some binding => if rb_remote binding then Some (rb_creature binding) else None
  | None => None
  end.
Definition is_registered (r : Router) (id : CreatureId) : bool :=
  bool_decide (is_Some (rt_table r !! id)).

Definition subscribe (r : Router) (topic : Topic) (id : CreatureId) : Router :=
  if decide (rt_topics r !! topic = None ∧ rt_max_topics r ≠ 0
             ∧ rt_max_topics r ≤ N.of_nat (size (rt_topics r))) then r
  else
    let subs := default [] (rt_topics r !! topic) in
    set_topics r
      (<[topic := if decide (id ∈ subs) then subs else subs ++ [id]]> (rt_topics r)).

Definition has_subscribers (r : Router) (topic : Topic) : bool :=
  match rt_topics r !! topic with
  | Some (_ :: _) => true
  | _ => false
  end.

Definition journal_snapshot (r : Router) : list JournalEntry := rt_journal r.
Definition bound_roles (r : Router) : list (Role * CreatureId) :=
  (fun p => (p.1, rb_creature p.2)) <$> map_to_list (rt_roles r).

(** ** The capability gate *)

(** [format!] of the destination key; a node role has a key of its own. *)
Definition capability_key (to : Address) : string :=
  match to with
  | ACreature id => "creature:" +:+ dec id
  | ANode n _ => "node:" +:+ n
  | ANodeRole n r => node_role_capability_key n r
  | AKernel => "kernel"
  | ATopic t => "topic:" +:+ t
  | ARole r => "role:" +:+ r
  | AIntent i => "intent:" +:+ in_outcome i
  | ARealm realm _ => "realm:" +:+ realm
  | AOmega realm _ => "omega:" +:+ realm
  end.

Definition caps_allow (calls : list string) (to : Address) : bool :=
  if decide ("*" ∈ calls) then true
  else
    match to with
    | ANodeRole node role =>
        bool_decide (("node:" +:+ node) ∈ calls)
        || bool_decide (node_role_capability_key node role ∈ calls)
    | _ => bool_decide (capability_key to ∈ calls)
    end.

(** ** The sections of [route] *)

Section route.
  Context `{!SerdeJson Header} `{!Verifier}.

(** The gates, the clock tick and the (unenforced) verification. *)
Definition route_stamp (r : Router) (env : Envelope) : Router * result RouteError Envelope :=
  match address_depth_error (ev_header env) with
  | Some (depth, max) => (r, Err (TooDeep depth max))
  | None =>
      match header_size_error (ev_header env) with
      | Some (len, limit) => (r, Err (HeaderTooLarge len limit))
      | None =>
          let stamp := u64_add (rt_clock r) 1 in
          let env := mkEnvelope (set_stamp (ev_header env) stamp) (ev_payload env) in
          let _verified :=
            verify (public_key_of r (hd_from (ev_header env))) (signing_payload env)
              (hd_sig (ev_header env)) in
          (set_clock r (u64_add (rt_clock r) 1), Ok env)
      end
  end.

Definition route_permit (r : Router) (env : Envelope) : result RouteError unit :=
  match hd_from (ev_header env) with
  | ACreature from_id =>
      match rt_table r !! from_id with
      | Some reg =>
          if decide (cap_calls (reg_caps reg) ≠ []
                     ∧ caps_allow (cap_calls (reg_caps reg)) (hd_to (ev_header env)) = false)
          then Err (Denied from_id) else Ok tt
      | None => Ok tt
      end
  | _ => Ok tt
  end.

(** Append, then drop from the front while over the cap. *)
Definition trim_front {A} (cap : N) (l : list A) : list A :=
  drop (length l - N.to_nat cap) l.

Definition route_journal (r : Router) (env : Envelope) : Router :=
  let h := ev_header env in
  let entry := mkJournalEntry (hd_from h) (hd_to h) (hd_seq h) (hd_stamp h) (hd_corr h) in
  set_journal r (trim_front (rt_journal_cap r) (rt_journal r ++ [entry])).

(** Who an address names: one inbox, or the subscribers of a topic. *)
Inductive Recipients : Type := One (id : CreatureId) | Fan (ids : list CreatureId).

Definition provider (r : Router) (role : Role) : result RouteError Recipients :=
  One <$> ok_or (role_binding r role) (NoProvider role).

Definition route_resolve (r : Router) (to : Address) : result RouteError Recipients :=
  match to with
  | ACreature id => Ok (One id)
  | AKernel => Ok (One KERNEL_ID)
  | ATopic t => Ok (Fan (default [] (rt_topics r !! t)))
  | ARole role => provider r role
  | AIntent _ => provider r DISTRIBUTOR
  | ANode _ _ | ANodeRole _ _ => provider r TRANSPORT
  | ARealm _ _ => provider r REALM_GATEWAY
  | AOmega _ _ => provider r OMEGA_GATEWAY
  end.

Definition deliver (r : Router) (id : CreatureId) (env : Envelope) :
    Router * result RouteError unit :=
  match rt_table r !! id with
  | None => (r, Err (NoSuchModule id))
  | Some reg =>
      match rt_channels r !! reg_inbox reg with
      | None => (r, Err (NoSuchModule id))
      | Some c =>
          match try_send (rt_inbox_capacity r) c env with
          | Sent c' => (set_channels r (<[reg_inbox reg := c']> (rt_channels r)), Ok tt)
          | Full => (r, Err (Backpressure id))
          | Disconnected => (r, Err (NoSuchModule id))
          end
      end
  end.

(** Best effort: a refused send is ignored. *)
Fixpoint fan_out (r : Router) (ids : list CreatureId) (env : Envelope) : Router :=
  match ids with
  | [] => r
  | id :: ids => fan_out (deliver r id env).1 ids env
  end.

Definition route_deliver (r : Router) (to : Recipients) (env : Envelope) :
    Router * result RouteError unit :=
  match to with
  | One id => deliver r id env
  | Fan ids => (fan_out r ids env, Ok tt)
  end.

(** A [route] call in progress, between two of its critical sections. *)
Inductive RoutePhase : Type :=
  | Entered (env : Envelope)
  | Stamped (env : Envelope)
  | Permitted (env : Envelope)
  | Journalled (env : Envelope)
  | Resolved (to : Recipients) (env : Envelope)
  | Returned (res : result RouteError unit).

Definition route_section (r : Router) (p : RoutePhase) : Router * RoutePhase :=
  match p with
  | Entered env =>
      match route_stamp r env with
      | (r', Ok env') => (r', Stamped env')
      | (r', Err e) => (r', Returned (Err e))
      end
  | Stamped env =>
      match route_permit r env with
      | Ok _ => (r, Permitted env)
      | Err e => (r, Returned (Err e))
      end
  | Permitted env => (route_journal r env, Journalled env)
  | Journalled env =>
      match route_resolve r (hd_to (ev_header env)) with
      | Ok to => (r, Resolved to env)
      | Err e => (r, Returned (Err e))
      end
  | Resolved to env =>
      let '(r', res) := route_deliver r to env in (r', Returned res)
  | Returned res => (r, Returned res)
  end.

(** The call without interference. *)
Definition route (r : Router) (env : Envelope) : Router * result RouteError unit :=
  match route_stamp r env with
  | (r, Err e) => (r, Err e)
  | (r, Ok env) =>
      match route_permit r env with
      | Err e => (r, Err e)
      | Ok _ =>
          let r := route_journal r env in
          match route_resolve r (hd_to (ev_header env)) with
          | Err e => (r, Err e)
          | Ok to => route_deliver r to env
          end
      end
  end.
End route.

(** ** The sections compose to the call *)

Lemma route_sections `{!SerdeJson Header} `{!Verifier} (r : Router) (env : Envelope) :
  let '(r', res) := route r env in
  Nat.iter 5 (fun rp => route_section rp.1 rp.2) (r, Entered env) = (r', Returned res).
Proof.
  unfold route. cbn -[route_stamp route_permit route_journal route_resolve route_deliver].
  destruct (route_stamp r env) as [r1 [env1|e]]; cbn -[route_permit route_journal route_resolve];
    [|done].
  destruct (route_permit r1 env1) as [u|e]; cbn -[route_journal route_resolve]; [|done].
  destruct (route_resolve (route_journal r1 env1) (hd_to (ev_header env1))) as [to|e]; cbn; [|done].
  by destruct (route_deliver _ _ _).
Qed.

(** ** What delivery changes *)

(** A channel after an envelope was offered to it some number of times. *)
Definition offered (cap : N) (env : Envelope) (c c' : Channel) : Prop :=
  ∃ k, ch_queue c' = ch_queue c ++ replicate k env
    ∧ ch_sender c' = ch_sender c ∧ ch_receiver c' = ch_receiver c
    ∧ (N.of_nat (length (ch_queue c)) ≤ cap → N.of_nat (length (ch_queue c')) ≤ cap).

#[export] Instance offered_refl cap env : Reflexive (offered cap env).
Proof. intros c. exists 0%nat. by rewrite app_nil_r. Qed.

#[export] Instance offered_trans cap env : Transitive (offered cap env).
Proof.
  intros c1 c2 c3 (k1 & Hq1 & Hs1 & Hr1 & Hl1) (k2 & Hq2 & Hs2 & Hr2 & Hl2).
  exists (k1 + k2)%nat. rewrite Hq2, Hq1, replicate_add, app_assoc in *.
  split_and!; [done|congruence|congruence|auto].
Qed.

Lemma try_send_offered cap c env c' : try_send cap c env = Sent c' → offered cap env c c'.
Proof.
  unfold try_send. case_match; [done|]. case_decide; [done|]. intros [= <-].
  exists 1%nat. cbn. rewrite length_app. cbn. split_and!; try done. lia.
Qed.

(** Delivery changes only channels. *)
Lemma deliver_effect r id env :
  ∃ chs, (deliver r id env).1 = set_channels r chs
    ∧ Forall2 (offered (rt_inbox_capacity r) env) (rt_channels r) chs.
Proof.
  assert (∃ chs, r = set_channels r chs
    ∧ Forall2 (offered (rt_inbox_capacity r) env) (rt_channels r) chs) as Hsame.
  { exists (rt_channels r). split; [by destruct r|]. reflexivity. }
  unfold deliver. destruct (rt_table r !! id) as [reg|]; [|done].
  destruct (rt_channels r !! reg_inbox reg) as [c|] eqn:Hc; [|done].
  destruct (try_send (rt_inbox_capacity r) c env) as [c'| |] eqn:E; [|done..].
  eexists. split; [done|]. apply try_send_offered in E. apply Forall2_same_length_lookup_2.
  { by rewrite length_insert. }
  intros i x y Hx [(<- & <- & _)|[_ Hy]]%list_lookup_insert_Some; simplify_eq; done.
Qed.

Lemma route_deliver_effect r to env :
  ∃ chs, (route_deliver r to env).1 = set_channels r chs
    ∧ Forall2 (offered (rt_inbox_capacity r) env) (rt_channels r) chs.
Proof.
  destruct to as [id|ids]; cbn; [apply deliver_effect|].
  revert r. induction ids as [|id ids IH]; intros r; cbn.
  { exists (rt_channels r). split; [by destruct r|reflexivity]. }
  destruct (deliver_effect r id env) as (chs1 & -> & H1).
  destruct (IH (set_channels r chs1)) as (chs2 & -> & H2).
  exists chs2. split; [done|]. by etrans.
Qed.

(** ** The router invariant *)

Record router_ok (r : Router) : Prop := {
  ro_inbox :
    Forall (fun c => N.of_nat (length (ch_queue c)) ≤ rt_inbox_capacity r) (rt_channels r);
  ro_table : ∀ id reg, rt_table r !! id = Some reg →
    id < rt_next_id r ∧ (reg_inbox reg < length (rt_channels r))%nat;
  ro_distinct : ∀ id1 id2 reg1 reg2,
    rt_table r !! id1 = Some reg1 → rt_table r !! id2 = Some reg2 →
    reg_inbox reg1 = reg_inbox reg2 → id1 = id2;
  ro_journal : N.of_nat (length (rt_journal r)) ≤ rt_journal_cap r;
  ro_topics : rt_max_topics r ≠ 0 → N.of_nat (size (rt_topics r)) ≤ rt_max_topics r;
  ro_next : 0 < rt_next_id r
}.

Lemma Router_new_ok cap : router_ok (Router_new cap).
Proof.
  split; cbn; try done; try (intros *; rewrite lookup_empty; done).
Qed.

(** Channels that keep their queue lengths within the bound can be swapped in. *)
Lemma set_channels_ok r chs :
  router_ok r → (length (rt_channels r) ≤ length chs)%nat →
  Forall (fun c => N.of_nat (length (ch_queue c)) ≤ rt_inbox_capacity r) chs →
  router_ok (set_channels r chs).
Proof.
  intros Hr Hlen Hf. split; cbn; try apply Hr; [done|].
  intros id reg Hid. destruct (ro_table r Hr id reg Hid). lia.
Qed.

Lemma offered_ok r env chs :
  router_ok r → Forall2 (offered (rt_inbox_capacity r) env) (rt_channels r) chs →
  router_ok (set_channels r chs).
Proof.
  intros Hr H2. apply set_channels_ok; [done|by rewrite (Forall2_length _ _ _ H2)|].
  pose proof (ro_inbox r Hr) as Hin. clear Hr.
  induction H2 as [|c c' cs cs' (k & _ & _ & _ & Hl) _ IH]; [constructor|].
  apply Forall_cons in Hin as [Hc Hcs]. constructor; [by apply Hl|by apply IH].
Qed.

Lemma drop_registration_ok r reg : router_ok r → router_ok (drop_registration r reg).
Proof.
  intros Hr. destruct reg as [reg|]; cbn; [|done].
  apply set_channels_ok; [done|by rewrite length_alter|].
  apply Forall_alter; [apply Hr|]. intros c _. done.
Qed.

Lemma delete_table_ok r id : router_ok r → router_ok (set_table r (delete id (rt_table r))).
Proof.
  intros Hr. split; cbn; try apply Hr.
  - intros id' reg [_ Hid]%lookup_delete_Some. by apply (ro_table r Hr).
  - intros i j ri rj [_ Hi]%lookup_delete_Some [_ Hj]%lookup_delete_Some.
    by apply (ro_distinct r Hr).
Qed.

Lemma deregister_table_ok r id : router_ok r → router_ok (deregister_table r id).
Proof. intros Hr. by apply drop_registration_ok, delete_table_ok. Qed.

(** Inserting a fresh inbox, for a new handle or for the kernel's. *)
Lemma insert_registration_ok r id caps :
  router_ok r → id < rt_next_id r →
  let '(r', ch) := sync_channel r in
  router_ok (insert_registration r' id (mkRegistration ch caps)).
Proof.
  intros Hr Hid. cbn. unfold insert_registration. apply drop_registration_ok. split; cbn;
    try apply Hr.
  - apply Forall_app. split; [apply Hr|]. repeat constructor. cbn. lia.
  - intros id' reg [[<- <-]|[_ Hid']]%lookup_insert_Some; cbn; rewrite length_app; cbn.
    + split; [done|lia].
    + destruct (ro_table r Hr id' reg Hid'). split; [done|lia].
  - intros i j ri rj [[<- <-]|[Hi1 Hi]]%lookup_insert_Some
      [[<- <-]|[Hj1 Hj]]%lookup_insert_Some E; cbn in E; try done.
    + destruct (ro_table r Hr j rj Hj). lia.
    + destruct (ro_table r Hr i ri Hi). lia.
    + by apply (ro_distinct r Hr i j ri rj).
Qed.

Lemma register_ok r caps :
  router_ok r → rt_next_id r < u64_MAX → router_ok (register r caps).1.
Proof.
  intros Hr Hn. unfold register. rewrite u64_add_exact by lia.
  assert (router_ok (set_next_id r (rt_next_id r + 1))) as Hr'.
  { split; cbn; try apply Hr; [|lia]. intros id reg Hid.
    destruct (ro_table r Hr id reg Hid). split; [lia|done]. }
  apply (insert_registration_ok _ (rt_next_id r) caps) in Hr'; [|cbn; lia]. done.
Qed.

Lemma register_kernel_ok r : router_ok r → router_ok (register_kernel r).1.
Proof.
  intros Hr. pose proof (ro_next r Hr) as Hn.
  by apply (insert_registration_ok r KERNEL_ID Capabilities_default) in Hr.
Qed.

Lemma set_roles_ok r m : router_ok r → router_ok (set_roles r m).
Proof. intros Hr. by split; cbn; try apply Hr. Qed.

Lemma deregister_topics_ok r id : router_ok r → router_ok (deregister_topics r id).
Proof. intros Hr. split; cbn; try apply Hr. rewrite map_size_fmap. apply Hr. Qed.

Lemma subscribe_ok r topic id : router_ok r → router_ok (subscribe r topic id).
Proof.
  intros Hr. unfold subscribe. case_decide as Hfull; [done|]. split; cbn; try apply Hr.
  intros Hmax. pose proof (ro_topics r Hr Hmax) as Hsz.
  destruct (rt_topics r !! topic) as [subs|] eqn:Ht.
  - by rewrite map_size_insert_Some by eauto.
  - rewrite map_size_insert_None by done.
    destruct (decide (rt_max_topics r ≤ N.of_nat (size (rt_topics r)))); [|lia].
    destruct Hfull. done.
Qed.

Lemma set_local_pubkey_ok r k : router_ok r → router_ok (set_local_pubkey r k).
Proof.
  intros Hr. unfold set_local_pubkey. case_match; [done|]. by split; cbn; try apply Hr.
Qed.

Lemma length_trim_front {A} cap (l : list A) : N.of_nat (length (trim_front cap l)) ≤ cap.
Proof. unfold trim_front. rewrite length_drop. lia. Qed.

Section sections.
  Context `{!SerdeJson Header} `{!Verifier}.

Lemma route_section_ok r p : router_ok r → router_ok (route_section r p).1.
Proof.
  intros Hr. destruct p as [env|env|env|env|to env|res]; cbn -[route_deliver]; try done.
  - unfold route_stamp. repeat case_match; simplify_eq/=; try done.
    by split; cbn; try apply Hr.
  - by case_match.
  - split; cbn; try apply Hr. apply length_trim_front.
  - by case_match.
  - destruct (route_deliver_effect r to env) as (chs & E & H2).
    destruct (route_deliver r to env) as [r' res]. cbn in *. subst.
    by apply offered_ok with env.
Qed.
End sections.

(** ** Capability keys *)

(** The part of a key before its first colon, and the rest. *)
Definition key_kind (to : Address) : string :=
  match to with
  | ACreature _ => "creature" | ANode _ _ => "node" | ANodeRole _ _ => "node-role"
  | AKernel => "kernel" | ATopic _ => "topic" | ARole _ => "role" | AIntent _ => "intent"
  | ARealm _ _ => "realm" | AOmega _ _ => "omega"
  end.

Definition key_rest (to : Address) : string :=
  match to with
  | ACreature id => dec id
  | ANode n _ => n
  | ANodeRole n r =>
      dec (slen n) +:+ ":" +:+ n +:+ ":" +:+ dec (slen r) +:+ ":" +:+ r
  | AKernel => ""
  | ATopic t => t
  | ARole r => r
  | AIntent i => in_outcome i
  | ARealm realm _ | AOmega realm _ => realm
  end.

(** The destinations that one capability key covers: a node key also covers the
    roles of that node, a realm key everything inside the realm. *)
Definition grants (a b : Address) : Prop :=
  match a, b with
  | ACreature i, ACreature j => i = j
  | ANode n _, ANode m _ => n = m
  | ANode n _, ANodeRole m _ => n = m
  | ANodeRole n r, ANodeRole m q => n = m ∧ r = q
  | AKernel, AKernel => True
  | ATopic s, ATopic t => s = t
  | ARole s, ARole t => s = t
  | AIntent i, AIntent j => in_outcome i = in_outcome j
  | ARealm s _, ARealm t _ => s = t
  | AOmega s _, AOmega t _ => s = t
  | _, _ => False
  end.

Lemma capability_key_split a :
  a ≠ AKernel → capability_key a = key_kind a +:+ String COLON (key_rest a).
Proof. by destruct a. Qed.

Lemma key_kind_no_colon a : contains_char COLON (key_kind a) = false.
Proof. by destruct a. Qed.

Lemma capability_key_inj a b :
  capability_key a = capability_key b → key_kind a = key_kind b ∧ key_rest a = key_rest b.
Proof.
  intros E.
  assert (∀ c, c ≠ AKernel → capability_key c ≠ "kernel") as Hk.
  { intros c Hc Ec. rewrite (capability_key_split c Hc) in Ec.
    apply (f_equal (contains_char COLON)) in Ec.
    rewrite contains_char_app, contains_char_cons, bool_decide_eq_true_2, orb_true_r in Ec
      by done. done. }
  destruct (decide (a = AKernel)) as [->|Ha], (decide (b = AKernel)) as [->|Hb]; [done| | |].
  - by destruct (Hk b Hb).
  - by destruct (Hk a Ha).
  - rewrite (capability_key_split a Ha), (capability_key_split b Hb) in E.
    apply append_sep_inj in E; [done|apply key_kind_no_colon..].
Qed.

Lemma capability_key_not_wildcard a : capability_key a ≠ "*".
Proof. by destruct a. Qed.

(** ** Properties *)

(** Capability keys are unambiguous.  A sender whose [calls] list is the key
    of one destination may address exactly the destinations that key covers,
    whatever text the node, role, topic, intent and realm names contain. *)
Theorem capability_grants_exactly (a b : Address) :
  caps_allow [capability_key a] b = true ↔ grants a b.
Proof.
  unfold caps_allow. rewrite decide_False by
    (rewrite list_elem_of_singleton; intros E; by apply (capability_key_not_wildcard a)).
  assert (capability_key b ∈ [capability_key a] ↔
          key_kind a = key_kind b ∧ key_rest a = key_rest b) as Hkey.
  { rewrite list_elem_of_singleton. split.
    - intros E. by apply capability_key_inj.
    - intros [Hk Hr]. destruct a, b; cbn in Hk, Hr |- *; try done; try congruence.
      unfold node_role_capability_key. by rewrite Hr. }
  destruct b as [j|m j|m q| |t|t|j|t tb|t tb];
    try (rewrite bool_decide_eq_true, Hkey; destruct a; cbn; split;
         solve [by intros ?%proj2%(inj dec) | by intros [? ?] | by intros -> | done]).
  rewrite orb_true_iff, !bool_decide_eq_true.
  change (node_role_capability_key m q) with (capability_key (ANodeRole m q)).
  change ("node:" +:+ m) with (capability_key (ANode m 0)).
  rewrite Hkey, list_elem_of_singleton. split.
  - intros [E%capability_key_inj|[Hk Hr]].
    + destruct E as [Hk Hr]. destruct a; cbn in *; done.
    + destruct a as [|n i|n r| | | | | |]; cbn in *; try done.
      by destruct (node_role_capability_key_inj n r m q) as [-> ->];
        [unfold node_role_capability_key; f_equal|].
  - destruct a as [|n i|n r| | | | | |]; cbn; try done.
    + intros ->. by left.
    + intros [-> ->]. by right.
Qed.

(** Routing is all or nothing and leaves the tables alone.  A routed
    envelope changes no registration, role, subscription or handle counter; if
    it is refused, no inbox receives it; it reaches inboxes only as the stamped
    copy, and never beyond an inbox's capacity; a sender whose capabilities do
    not cover the destination is refused before the history is written, whatever
    the destination. *)
Theorem route_effect (JH : SerdeJson Header) (V : Verifier) (r r' : Router) (env : Envelope)
    (res : result RouteError unit) (Hroute : route r env = (r', res)) :
  let sent := mkEnvelope (set_stamp (ev_header env) (u64_add (rt_clock r) 1)) (ev_payload env) in
  rt_table r' = rt_table r ∧ rt_roles r' = rt_roles r ∧ rt_topics r' = rt_topics r
  ∧ rt_next_id r' = rt_next_id r
  ∧ Forall2 (offered (rt_inbox_capacity r) sent) (rt_channels r) (rt_channels r')
  ∧ (res ≠ Ok tt → rt_channels r' = rt_channels r)
  ∧ (∀ id reg, hd_from (ev_header env) = ACreature id → rt_table r !! id = Some reg →
      cap_calls (reg_caps reg) ≠ [] →
      caps_allow (cap_calls (reg_caps reg)) (hd_to (ev_header env)) = false →
      res ≠ Ok tt ∧ rt_channels r' = rt_channels r ∧ rt_journal r' = rt_journal r).
Proof.
  intros sent. unfold route, route_stamp in Hroute.
  destruct (address_depth_error (ev_header env)) as [[d m]|].
  { simplify_eq/=. split_and!; try done; reflexivity. }
  destruct (header_size_error (ev_header env)) as [[l m]|].
  { simplify_eq/=. split_and!; try done; reflexivity. }
  fold sent in Hroute. set (r1 := set_clock r (u64_add (rt_clock r) 1)) in *.
  change (hd_to (ev_header env)) with (hd_to (ev_header sent)).
  change (hd_from (ev_header env)) with (hd_from (ev_header sent)).
  destruct (route_permit r1 sent) as [[]|e] eqn:Hperm; cycle 1.
  { simplify_eq/=. split_and!; try done; reflexivity. }
  assert (∀ id reg, hd_from (ev_header sent) = ACreature id → rt_table r !! id = Some reg →
    cap_calls (reg_caps reg) ≠ [] →
    caps_allow (cap_calls (reg_caps reg)) (hd_to (ev_header sent)) = false → False) as Hno.
  { intros id reg Hf Ht Hne Hden. unfold route_permit in Hperm. rewrite Hf in Hperm.
    change (rt_table r1) with (rt_table r) in Hperm. rewrite Ht, decide_True in Hperm by done.
    done. }
  destruct (route_resolve (route_journal r1 sent) (hd_to (ev_header sent))) as [to|e];
    cycle 1.
  { simplify_eq/=. split_and!; try done; first [reflexivity|naive_solver]. }
  destruct (route_deliver_effect (route_journal r1 sent) to sent) as (chs & E & H2).
  rewrite Hroute in E. cbn in E. subst r'. split_and!; try done; [|naive_solver].
  intros Hres. destruct to as [id|ids]; cbn in Hroute; [|by simplify_eq].
  unfold deliver in Hroute. repeat case_match; simplify_eq/=; try done;
    match goal with E : _ = set_channels _ _ |- _ => by injection E as -> end.
Qed.

Definition stub_verifier : Verifier := fun _ _ signature => negb (bool_decide (signature = "")).

Definition sample_router : Router :=
  (register (register (Router_new 2) (mkCapabilities [] NetNone 0 0 ["role:policy"] None None)).1
     Capabilities_default).1.

Lemma route_effect_witness :
  let env := mkEnvelope (mkHeader (ACreature 1) (ACreature 2) None 0 [] 0 "s" None None "" None) [] in
  let J := {| to_vec := fun _ : Header => Ok []; from_slice := fun _ => Err "unused" |} in
  ∃ r' res, @route J stub_verifier sample_router env = (r', res)
    ∧ res ≠ Ok tt ∧ rt_channels r' = rt_channels sample_router
    ∧ rt_journal r' = rt_journal sample_router.
Proof.
  intros env J.
  destruct (@route J stub_verifier sample_router env) as [r' res] eqn:E.
  exists r', res. split; [reflexivity|].
  pose proof (@route_effect J stub_verifier sample_router r' env res E)
    as (_ & _ & _ & _ & _ & _ & Hdenied).
  apply (Hdenied 1 (mkRegistration 0 (mkCapabilities [] NetNone 0 0 ["role:policy"] None None)));
    [reflexivity|vm_compute; reflexivity|done|vm_compute; reflexivity].
Defined.
