(* ===== verification/AetherBus.v ===== *)
(** * Bus handles, and the bus under interleaving

    [cosmos/aether/src/bus.rs]: the sealing of a dispatch into an envelope, the
    attestation grant, remote-role resolution.  The second half runs the
    router and the handles of all creatures together: an [Action] is one atomic
    section of one thread (a critical section of [route] or [deregister], a
    host call, a receive), a run is any sequence of them, and the theorems hold
    for every run. *)

From Stdlib Require Import Sorting.Sorted.
From S2P Require Import Prelude Serde AetherAddress AetherEnvelope AetherRouter.

(** The signing mechanism is an argument of the handle: [Signer::sign]. *)
Record BusHandle : Type := mkBusHandle {
  bh_me : CreatureId;
  bh_seq : N;
  bh_signer : bytes → string;
  bh_may_attest : bool
}.

Definition BusHandle_new (me : CreatureId) (signer : bytes → string) : BusHandle :=
  mkBusHandle me 0 signer false.
Definition BusHandle_new_attesting (me : CreatureId) (signer : bytes → string) : BusHandle :=
  mkBusHandle me 0 signer true.

Inductive BusError : Type :=
  | BusRoute (e : RouteError)
  | BusNoSuchModule
  | BusNoProvider
  | BusBackpressure
  | BusDenied
  | BusFfi (code : Z)
  | BusSerialize (message : string).

Definition is_backpressure (e : BusError) : bool :=
  match e with
  | BusBackpressure | BusRoute (Backpressure _) => true
  | _ => false
  end.

Definition is_unreachable (e : BusError) : bool :=
  match e with
  | BusNoSuchModule | BusNoProvider
  | BusRoute (NoSuchModule _) | BusRoute (NoProvider _) => true
  | _ => false
  end.

Definition remote_role_target (r : Router) (h : BusHandle) (role : Role) : option CreatureId :=
  if bh_may_attest h then remote_role_binding r role else None.

Section bus.
  Context `{!SerdeJson Header} `{!Verifier}.

(** [send_sealed] up to the call of [route]: the envelope, or the gate's error.
    The sequence number is taken either way. *)
Definition seal (h : BusHandle) (d : Dispatch) (origin : option Origin) :
    BusHandle * result RouteError Envelope :=
  let header :=
    mkHeader (ACreature (bh_me h)) (di_to d) (di_reply_to d) (bh_seq h) [] 0 "" (di_corr d)
      (di_commitment d) (di_schema d) origin in
  let h' := mkBusHandle (bh_me h) (u64_add (bh_seq h) 1) (bh_signer h) (bh_may_attest h) in
  match address_depth_error header with
  | Some (depth, max) => (h', Err (TooDeep depth max))
  | None =>
      match header_size_error header with
      | Some (len, limit) => (h', Err (HeaderTooLarge len limit))
      | None =>
          let env := mkEnvelope header (di_payload d) in
          let sig := bh_signer h (signing_payload env) in
          (h', Ok (mkEnvelope (set_sig header sig) (di_payload d)))
      end
  end.

Definition send_sealed (r : Router) (h : BusHandle) (d : Dispatch) (origin : option Origin) :
    Router * BusHandle * result RouteError unit :=
  match seal h d origin with
  | (h', Err e) => (r, h', Err e)
  | (h', Ok env) => let '(r', res) := route r env in (r', h', res)
  end.

Definition send (r : Router) (h : BusHandle) (d : Dispatch) :
    Router * BusHandle * result RouteError unit := send_sealed r h d None.

Definition emit (r : Router) (h : BusHandle) (d : Dispatch) :
    Router * BusHandle * result BusError unit :=
  let '(r', h', res) := send r h d in (r', h', map_err BusRoute res).

(** The gate of [emit_attested], before anything is sealed. *)
Definition attest_gate (h : BusHandle) : result BusError unit :=
  if negb (bh_may_attest h) then Err BusDenied else Ok tt.

Definition emit_attested (r : Router) (h : BusHandle) (d : Dispatch) (origin : Origin) :
    Router * BusHandle * result BusError unit :=
  match attest_gate h with
  | Err e => (r, h, Err e)
  | Ok _ => let '(r', h', res) := send_sealed r h d (Some origin) in (r', h', map_err BusRoute res)
  end.

(** The kernel sends the dispatches of an outcome in push order. *)
Fixpoint send_all (r : Router) (h : BusHandle) (ds : list Dispatch) :
    Router * BusHandle * list (result RouteError unit) :=
  match ds with
  | [] => (r, h, [])
  | d :: ds =>
      let '(r, h, res) := send r h d in
      let '(r, h, rest) := send_all r h ds in
      (r, h, res :: rest)
  end.

(** ** Interleaved runs *)

Inductive Thread : Type :=
  | Routing (p : RoutePhase)
  | DeregisterRoles (id : CreatureId)
  | DeregisterTopics (id : CreatureId)
  | Idle.

Record World : Type := mkWorld {
  w_router : Router;
  w_handles : list BusHandle;
  w_threads : list Thread
}.

Inductive Action : Type :=
  | DoRegister (caps : Capabilities) (signer : bytes → string) (attesting : bool)
  | DoRegisterKernel
  | DoDeregister (id : CreatureId)
  | DoBindRole (role : Role) (id : CreatureId)
  | DoBindRemoteRole (role : Role) (id : CreatureId)
  | DoUnbindRole (role : Role)
  | DoSubscribe (topic : Topic) (id : CreatureId)
  | DoSetPubkey (key : string)
  | DoEmit (handle : nat) (d : Dispatch)
  | DoEmitAttested (handle : nat) (d : Dispatch) (origin : Origin)
  | DoAdvance (thread : nat)
  | DoRecv (channel : nat)
  | DoDropReceiver (channel : nat).

Definition advance (r : Router) (t : Thread) : Router * Thread :=
  match t with
  | Routing p => let '(r', p') := route_section r p in (r', Routing p')
  | DeregisterRoles id => (deregister_roles r id, DeregisterTopics id)
  | DeregisterTopics id => (deregister_topics r id, Idle)
  | Idle => (r, Idle)
  end.

(** A creature's [emit]: seal, then a routing thread starts. *)
Definition start_send (w : World) (i : nat) (h : BusHandle) (d : Dispatch)
    (origin : option Origin) : World :=
  let '(h', sealed) := seal h d origin in
  let handles := <[i := h']> (w_handles w) in
  match sealed with
  | Ok env => mkWorld (w_router w) handles (w_threads w ++ [Routing (Entered env)])
  | Err _ => mkWorld (w_router w) handles (w_threads w)
  end.

Definition recv (c : Channel) : Channel :=
  mkChannel (tail (ch_queue c)) (ch_sender c) (ch_receiver c).
Definition drop_receiver (c : Channel) : Channel :=
  mkChannel [] (ch_sender c) false.

Definition with_router (w : World) (r : Router) : World :=
  mkWorld r (w_handles w) (w_threads w).

Definition step (w : World) (a : Action) : World :=
  let r := w_router w in
  match a with
  | DoRegister caps signer attesting =>
      let '(r', (id, _)) := register r caps in
      let h := if attesting : bool then BusHandle_new_attesting id signer
               else BusHandle_new id signer in
      mkWorld r' (w_handles w ++ [h]) (w_threads w)
  | DoRegisterKernel => with_router w (register_kernel r).1
  | DoDeregister id =>
      mkWorld (deregister_table r id) (w_handles w) (w_threads w ++ [DeregisterRoles id])
  | DoBindRole role id => with_router w (bind_role r role id)
  | DoBindRemoteRole role id => with_router w (bind_remote_role r role id)
  | DoUnbindRole role => with_router w (unbind_role r role)
  | DoSubscribe topic id => with_router w (subscribe r topic id)
  | DoSetPubkey key => with_router w (set_local_pubkey r key)
  | DoEmit i d =>
      match w_handles w !! i with
      | Some h => start_send w i h d None
      | None => w
      end
  | DoEmitAttested i d origin =>
      match w_handles w !! i with
      | Some h => if is_ok (attest_gate h) then start_send w i h d (Some origin) else w
      | None => w
      end
  | DoAdvance i =>
      match w_threads w !! i with
      | Some t => let '(r', t') := advance r t in
                  mkWorld r' (w_handles w) (<[i := t']> (w_threads w))
      | None => w
      end
  | DoRecv ch => with_router w (set_channels r (alter recv ch (rt_channels r)))
  | DoDropReceiver ch => with_router w (set_channels r (alter drop_receiver ch (rt_channels r)))
  end.

Definition init (inbox_capacity : N) : World := mkWorld (Router_new inbox_capacity) [] [].

Definition run (w : World) (acts : list Action) : World := foldl step w acts.
End bus.

(** ** What a world contains *)

Definition handle_key (h : BusHandle) : CreatureId * bool := (bh_me h, bh_may_attest h).

(** The envelope was sealed by a handle of the world: its sender is that
    handle's creature, and it carries an origin only if the handle attests. *)
Definition authored (hs : list BusHandle) (env : Envelope) : Prop :=
  ∃ k, k ∈ handle_key <$> hs ∧ hd_from (ev_header env) = ACreature k.1
    ∧ (hd_origin (ev_header env) ≠ None → k.2 = true).

Definition phase_envelopes (p : RoutePhase) : list Envelope :=
  match p with
  | Entered env | Stamped env | Permitted env | Journalled env | Resolved _ env => [env]
  | Returned _ => []
  end.

Definition thread_envelopes (t : Thread) : list Envelope :=
  match t with Routing p => phase_envelopes p | _ => [] end.

(** Stamps taken by a routing thread and not yet in the journal. *)
Definition pending_stamps (t : Thread) : list N :=
  match t with
  | Routing (Stamped env) | Routing (Permitted env) => [hd_stamp (ev_header env)]
  | _ => []
  end.

Definition journal_stamps (r : Router) : list N := je_stamp <$> rt_journal r.

Definition all_stamps (w : World) : list N :=
  (w_threads w ≫= pending_stamps) ++ journal_stamps (w_router w).

Record world_ok (n : N) (w : World) : Prop := {
  wo_router : router_ok (w_router w);
  wo_next : rt_next_id (w_router w) ≤ n + 1;
  wo_clock : rt_clock (w_router w) ≤ n;
  wo_handles : NoDup (bh_me <$> w_handles w);
  wo_ids : Forall (fun h => bh_me h < rt_next_id (w_router w)) (w_handles w);
  wo_threads : Forall (fun t => Forall (authored (w_handles w)) (thread_envelopes t))
                 (w_threads w);
  wo_queues : Forall (fun c => Forall (authored (w_handles w)) (ch_queue c))
                (rt_channels (w_router w));
  wo_stamps : NoDup (all_stamps w);
  wo_stamps_le : Forall (fun s => s ≤ rt_clock (w_router w)) (all_stamps w)
}.

Lemma init_ok cap : world_ok 0 (init cap).
Proof. split; try apply Router_new_ok; cbn; try done; constructor. Qed.

(** ** Threads and stamps *)

Lemma threads_insert {A} (f : Thread → list A) ts i t t' :
  ts !! i = Some t →
  ∃ rest, (ts ≫= f) ≡ₚ f t ++ rest ∧ (<[i := t']> ts ≫= f) ≡ₚ f t' ++ rest.
Proof.
  intros Hi. exists ((take i ts ≫= f) ++ (drop (S i) ts ≫= f)). split.
  - rewrite <-(take_drop_middle ts i t Hi) at 1. rewrite bind_app. cbn.
    by rewrite app_assoc, (comm (++) (take i ts ≫= f)), <-app_assoc.
  - rewrite insert_take_drop by (by eapply lookup_lt_Some). rewrite bind_app. cbn.
    by rewrite app_assoc, (comm (++) (take i ts ≫= f)), <-app_assoc.
Qed.

Lemma NoDup_submseteq_inv {A} (l k : list A) : l ⊆+ k → NoDup k → NoDup l.
Proof. intros [j ->]%submseteq_Permutation. by intros (? & _ & _)%NoDup_app. Qed.

Lemma Forall_submseteq_inv {A} (P : A → Prop) (l k : list A) : l ⊆+ k → Forall P k → Forall P l.
Proof. intros [j ->]%submseteq_Permutation. by intros [? _]%Forall_app. Qed.

Section invariant.
  Context `{!SerdeJson Header} `{!Verifier}.

(** Advancing a thread either ticks the clock and holds the new stamp, or moves
    or drops stamps. *)
Lemma advance_stamps r t r' t' :
  advance r t = (r', t') → rt_clock r < u64_MAX →
  (rt_clock r' = rt_clock r
   ∧ pending_stamps t' ++ journal_stamps r' ⊆+ pending_stamps t ++ journal_stamps r)
  ∨ (rt_clock r' = rt_clock r + 1 ∧ pending_stamps t = []
     ∧ pending_stamps t' = [rt_clock r + 1] ∧ journal_stamps r' = journal_stamps r).
Proof.
  intros E Hc. destruct t as [p|id|id|]; cbn -[route_section] in E; simplify_eq/=; try by left.
  destruct p as [env|env|env|env|to env|res]; cbn -[route_deliver] in E.
  - unfold route_stamp in E. rewrite u64_add_exact in E by lia.
    destruct (address_depth_error (ev_header env)) as [[]|];
      [|destruct (header_size_error (ev_header env)) as [[]|]]; simplify_eq/=; auto.
  - left. destruct (route_permit r env); simplify_eq/=; split; try done; by apply submseteq_cons.
  - left. simplify_eq/=. split; [done|]. unfold journal_stamps. cbn.
    unfold trim_front. rewrite fmap_drop. etrans; [apply sublist_submseteq, sublist_drop|].
    rewrite fmap_app. cbn. by rewrite (comm (++)).
  - left. destruct (route_resolve r _); by simplify_eq/=.
  - left. destruct (route_deliver_effect r to env) as (chs & E' & _).
    destruct (route_deliver r to env) as [r2 res]. cbn in *. by simplify_eq/=.
  - left. by simplify_eq/=.
Qed.

Lemma advance_frame r t r' t' :
  advance r t = (r', t') →
  rt_next_id r' = rt_next_id r ∧ rt_table r' = rt_table r
  ∧ rt_inbox_capacity r' = rt_inbox_capacity r
  ∧ (∀ P, Forall P (thread_envelopes t) →
      (∀ env s, P env → P (mkEnvelope (set_stamp (ev_header env) s) (ev_payload env))) →
      Forall P (thread_envelopes t')
      ∧ (Forall (fun c => Forall P (ch_queue c)) (rt_channels r) →
         Forall (fun c => Forall P (ch_queue c)) (rt_channels r'))).
Proof.
  intros E. destruct t as [p|id|id|]; cbn -[route_section] in E; simplify_eq/=; try done.
  destruct p as [env|env|env|env|to env|res]; cbn -[route_deliver] in E.
  - unfold route_stamp in E. destruct (address_depth_error (ev_header env)) as [[]|];
      [|destruct (header_size_error (ev_header env)) as [[]|]]; simplify_eq/=; split_and!;
      try done; intros P [HP _]%Forall_cons Hs; split; auto.
  - destruct (route_permit r env); simplify_eq/=; split_and!; done.
  - simplify_eq/=. done.
  - destruct (route_resolve r _); simplify_eq/=; split_and!; done.
  - destruct (route_deliver_effect r to env) as (chs & E' & H2).
    destruct (route_deliver r to env) as [r2 res]. cbn in *. simplify_eq/=.
    split_and!; try done. intros P [HP _]%Forall_cons _. split; [done|]. clear -H2 HP.
    induction H2 as [|c c' cs cs' (k & Hq & _) _ IH]; [done|].
    intros [Hc Hcs]%Forall_cons. constructor; [|by apply IH].
    rewrite Hq. apply Forall_app. split; [done|]. by apply Forall_replicate.
  - by simplify_eq/=.
Qed.

(** ** The invariant is preserved *)

Abbreviation queues_satisfy P r := (Forall (fun c => Forall P (ch_queue c)) (rt_channels r)).

Lemma alter_queues (P : Envelope → Prop) (f : Channel → Channel) i chs :
  (∀ c, Forall P (ch_queue c) → Forall P (ch_queue (f c))) →
  Forall (fun c => Forall P (ch_queue c)) chs →
  Forall (fun c => Forall P (ch_queue c)) (alter f i chs).
Proof. intros Hf Hc. apply Forall_alter; [done|]. intros c _. apply Hf. Qed.

Lemma drop_registration_queues P r reg :
  queues_satisfy P r → queues_satisfy P (drop_registration r reg).
Proof. destruct reg; cbn; [|done]. by apply alter_queues. Qed.

Lemma fresh_registration_queues P r id caps :
  queues_satisfy P r →
  queues_satisfy P (insert_registration (sync_channel r).1 id (mkRegistration (sync_channel r).2 caps)).
Proof.
  intros Hq. apply drop_registration_queues. cbn. apply Forall_app. split; [done|].
  repeat constructor.
Qed.

Lemma drop_registration_fields r reg :
  rt_next_id (drop_registration r reg) = rt_next_id r
  ∧ rt_clock (drop_registration r reg) = rt_clock r
  ∧ rt_journal (drop_registration r reg) = rt_journal r
  ∧ rt_table (drop_registration r reg) = rt_table r.
Proof. by destruct reg. Qed.

Lemma insert_registration_fields r id reg :
  rt_next_id (insert_registration r id reg) = rt_next_id r
  ∧ rt_clock (insert_registration r id reg) = rt_clock r
  ∧ rt_journal (insert_registration r id reg) = rt_journal r
  ∧ rt_table (insert_registration r id reg) = <[id := reg]> (rt_table r).
Proof. unfold insert_registration. by destruct (rt_table r !! id). Qed.

(** A host call that only touches the router. *)
Lemma with_router_ok n w r' :
  world_ok n w → router_ok r' →
  rt_next_id r' = rt_next_id (w_router w) → rt_clock r' = rt_clock (w_router w) →
  rt_journal r' = rt_journal (w_router w) →
  queues_satisfy (authored (w_handles w)) r' →
  world_ok (n + 1) (with_router w r').
Proof.
  intros Hw Hr Hn Hc Hj Hq. unfold with_router.
  assert (all_stamps (mkWorld r' (w_handles w) (w_threads w)) = all_stamps w) as Hs.
  { unfold all_stamps, journal_stamps. cbn. by rewrite Hj. }
  split; cbn [w_router w_handles w_threads]; rewrite ?Hn, ?Hc, ?Hs; try apply Hw; try done.
  - pose proof (wo_next n w Hw). lia.
  - pose proof (wo_clock n w Hw). lia.
Qed.

Lemma authored_keys hs hs' env :
  (∀ k, k ∈ handle_key <$> hs → k ∈ handle_key <$> hs') → authored hs env → authored hs' env.
Proof. intros Hk (k & Hin & ?). exists k. split; [by apply Hk|done]. Qed.

Lemma seal_spec h d origin h' res :
  seal h d origin = (h', res) →
  handle_key h' = handle_key h
  ∧ ∀ env, res = Ok env →
      hd_from (ev_header env) = ACreature (bh_me h) ∧ hd_origin (ev_header env) = origin
      ∧ hd_to (ev_header env) = di_to d ∧ ev_payload env = di_payload d
      ∧ hd_seq (ev_header env) = bh_seq h.
Proof.
  unfold seal. destruct (address_depth_error _) as [[]|];
    [|destruct (header_size_error _) as [[]|]]; intros E; simplify_eq; (split; [done|]);
    intros env E'; by simplify_eq.
Qed.

Lemma handle_key_insert (hs : list BusHandle) (i : nat) h h' :
  hs !! i = Some h → handle_key h' = handle_key h →
  handle_key <$> <[i := h']> hs = handle_key <$> hs.
Proof.
  intros Hi Hk. rewrite list_fmap_insert, Hk. apply list_insert_id.
  by rewrite list_lookup_fmap, Hi.
Qed.

Lemma start_send_ok n w i h d origin :
  world_ok n w → w_handles w !! i = Some h →
  (origin ≠ None → bh_may_attest h = true) →
  world_ok (n + 1) (start_send w i h d origin).
Proof.
  intros Hw Hi Ho. unfold start_send. destruct (seal h d origin) as [h' res] eqn:Hs.
  apply seal_spec in Hs as [Hk Henv].
  pose proof (handle_key_insert _ _ _ _ Hi Hk) as Hkeys.
  assert (∀ env, authored (w_handles w) env → authored (<[i:=h']> (w_handles w)) env) as Hauth.
  { intros env. apply authored_keys. by rewrite Hkeys. }
  assert (bh_me <$> <[i := h']> (w_handles w) = bh_me <$> w_handles w) as Hmes.
  { apply (f_equal (fmap fst)) in Hkeys. by rewrite <-!list_fmap_compose in Hkeys. }
  assert (Forall (fun h => bh_me h < rt_next_id (w_router w)) (<[i:=h']> (w_handles w))) as Hids.
  { pose proof (wo_ids n w Hw) as Hold. apply Forall_insert; [done|].
    injection Hk as -> _. by eapply Forall_lookup in Hold. }
  pose proof (wo_next n w Hw). pose proof (wo_clock n w Hw).
  pose proof (Forall_impl _ _ _ (wo_threads n w Hw)
    (fun t Ht => Forall_impl _ _ _ Ht Hauth)) as Hthreads.
  pose proof (Forall_impl _ _ _ (wo_queues n w Hw)
    (fun c Hc => Forall_impl _ _ _ Hc Hauth)) as Hqueues.
  destruct res as [env|e].
  - assert (all_stamps (mkWorld (w_router w) (<[i:=h']> (w_handles w))
              (w_threads w ++ [Routing (Entered env)])) = all_stamps w) as Hst.
    { unfold all_stamps. cbn. by rewrite bind_app, app_nil_r. }
    split; cbn [w_router w_handles w_threads]; rewrite ?Hst, ?Hmes; try apply Hw; try done;
      [lia|lia|].
    apply Forall_app. split; [done|]. repeat constructor. exists (handle_key h).
    destruct (Henv env eq_refl) as (-> & -> & _). rewrite Hkeys. split_and!; [|done|done].
    by eapply list_elem_of_fmap_2, list_elem_of_lookup_2.
  - split; cbn [w_router w_handles w_threads]; rewrite ?Hmes; try apply Hw; try done; lia.
Qed.

Lemma register_step_ok n w caps signer attesting :
  world_ok n w → n + 1 < u64_MAX →
  world_ok (n + 1) (step w (DoRegister caps signer attesting)).
Proof.
  intros Hw Hn. pose proof (wo_next n w Hw). pose proof (wo_clock n w Hw).
  pose proof (register_ok (w_router w) caps (wo_router n w Hw) ltac:(lia)) as Hr.
  cbn -[register]. destruct (register (w_router w) caps) as [r' [id ch]] eqn:E. cbn in Hr.
  set (h := if attesting then _ else _).
  assert (bh_me h = id) as Hme by (unfold h; by destruct attesting).
  assert (∀ env, authored (w_handles w) env → authored (w_handles w ++ [h]) env) as Hauth.
  { intros env. apply authored_keys. intros k Hk. rewrite fmap_app. set_solver. }
  unfold register in E. rewrite u64_add_exact in E by lia.
  set (r1 := set_next_id (w_router w) (rt_next_id (w_router w) + 1)) in E.
  assert (insert_registration (sync_channel r1).1 (rt_next_id (w_router w))
            (mkRegistration (sync_channel r1).2 caps) = r' ∧ id = rt_next_id (w_router w))
    as [Er ->] by (injection E as <- <- <-; done). clear E ch.
  destruct (insert_registration_fields (sync_channel r1).1 (rt_next_id (w_router w))
    (mkRegistration (sync_channel r1).2 caps)) as (Fn & Fc & Fj & _).
  rewrite Er in Fn, Fc, Fj. cbn in Fn, Fc, Fj.
  assert (all_stamps (mkWorld r' (w_handles w ++ [h]) (w_threads w)) = all_stamps w) as Hs.
  { unfold all_stamps, journal_stamps. cbn. by rewrite Fj. }
  pose proof (wo_ids n w Hw) as Hids.
  split; cbn [w_router w_handles w_threads]; rewrite ?Fn, ?Fc, ?Hs; try apply Hw; try done;
    [lia|lia|..].
  - rewrite fmap_app. cbn. rewrite Hme. apply NoDup_app. split_and!; [apply Hw| |apply NoDup_singleton].
    intros x (h' & -> & Hin)%list_elem_of_fmap ?%list_elem_of_singleton.
    rewrite Forall_forall in Hids. specialize (Hids h' Hin). lia.
  - apply Forall_app. split; [|repeat constructor; lia].
    eapply Forall_impl; [exact Hids|]. cbn. lia.
  - eapply Forall_impl; [apply Hw|]. cbn. intros t Ht. by eapply Forall_impl.
  - rewrite <-Er. apply (fresh_registration_queues _ r1).
    eapply Forall_impl; [apply (wo_queues n w Hw)|]. cbn. intros c Hc. by eapply Forall_impl.
Qed.

Lemma advance_step_ok n w i :
  world_ok n w → n + 1 < u64_MAX → world_ok (n + 1) (step w (DoAdvance i)).
Proof.
  intros Hw Hn. pose proof (wo_next n w Hw). pose proof (wo_clock n w Hw). cbn -[advance].
  assert (world_ok (n + 1) w) as Hsame by (split; try apply Hw; lia).
  destruct (w_threads w !! i) as [t|] eqn:Hi; [|done].
  destruct (advance (w_router w) t) as [r' t'] eqn:E.
  destruct (advance_frame _ _ _ _ E) as (Fn & Ft & Fcap & Fenv).
  pose proof (wo_threads n w Hw) as Hthreads.
  destruct (Fenv (authored (w_handles w))) as [Ht' Hq'].
  { by eapply Forall_lookup in Hthreads. }
  { intros env s Henv. exact Henv. }
  assert (router_ok r') as Hr'.
  { destruct t as [p|id|id|]; cbn in E; simplify_eq/=.
    - pose proof (route_section_ok (w_router w) p (wo_router n w Hw)).
      destruct (route_section _ p); by simplify_eq/=.
    - apply set_roles_ok, Hw.
    - apply deregister_topics_ok, Hw.
    - apply Hw. }
  assert (rt_clock r' ≤ n + 1 ∧ NoDup (all_stamps (mkWorld r' (w_handles w) (<[i:=t']> (w_threads w))))
    ∧ Forall (fun s => s ≤ rt_clock r')
        (all_stamps (mkWorld r' (w_handles w) (<[i:=t']> (w_threads w))))) as (Hck & Hnd & Hle).
  { destruct (threads_insert pending_stamps (w_threads w) i t t' Hi) as (rest & Hp & Hp').
    pose proof (wo_stamps n w Hw) as Hnd. pose proof (wo_stamps_le n w Hw) as Hle.
    unfold all_stamps in *. cbn [w_router w_threads].
    rewrite Hp, <-app_assoc, (comm (++) rest), app_assoc in Hnd, Hle.
    rewrite Hp', <-app_assoc, (comm (++) rest), app_assoc.
    destruct (advance_stamps _ _ _ _ E ltac:(lia)) as [[-> Hsub]|(-> & E1 & E2 & E3)].
    - split; [lia|].
      assert (pending_stamps t' ++ journal_stamps r' ++ rest ⊆+
              pending_stamps t ++ journal_stamps (w_router w) ++ rest) as Hsub'.
      { rewrite !app_assoc. by apply submseteq_skips_r. }
      rewrite <-!app_assoc in *. split.
      + eapply NoDup_submseteq_inv; done.
      + by eapply Forall_submseteq_inv.
    - rewrite E1, E2, E3 in *. cbn in *. split; [lia|]. split.
      + apply NoDup_cons. split; [|done]. rewrite Forall_forall in Hle. intros Hin%Hle. lia.
      + constructor; [lia|]. eapply Forall_impl; [exact Hle|]. cbn. lia. }
  split; cbn [w_router w_handles w_threads]; rewrite ?Fn; try apply Hw; try done; [lia| |].
  - by apply Forall_insert.
  - apply Hq', Hw.
Qed.

Lemma step_ok n w a : world_ok n w → n + 1 < u64_MAX → world_ok (n + 1) (step w a).
Proof.
  intros Hw Hn. pose proof (wo_router n w Hw) as Hr. pose proof (wo_queues n w Hw) as Hq.
  pose proof (wo_next n w Hw). pose proof (wo_clock n w Hw).
  assert (world_ok (n + 1) w) as Hsame by (split; try apply Hw; lia).
  destruct a as [caps signer att| |id|role id|role id|role|topic id|key|i d|i d origin|i|ch|ch].
  - by apply register_step_ok.
  - destruct (insert_registration_fields (sync_channel (w_router w)).1 KERNEL_ID
      (mkRegistration (sync_channel (w_router w)).2 Capabilities_default)) as (Fn & Fc & Fj & _).
    apply with_router_ok; try done; [by apply register_kernel_ok|].
    by apply (fresh_registration_queues _ (w_router w)).
  - destruct (drop_registration_fields (set_table (w_router w) (delete id (rt_table (w_router w))))
      (rt_table (w_router w) !! id)) as (Fn & Fc & Fj & _).
    pose proof (with_router_ok n w (deregister_table (w_router w) id) Hw
      (deregister_table_ok _ id Hr) Fn Fc Fj) as Hw'.
    specialize (Hw' ltac:(by apply drop_registration_queues)). cbn.
    assert (all_stamps (mkWorld (deregister_table (w_router w) id) (w_handles w)
              (w_threads w ++ [DeregisterRoles id]))
            = all_stamps (with_router w (deregister_table (w_router w) id))) as Hs.
    { unfold all_stamps. cbn [w_threads w_router with_router]. by rewrite bind_app, app_nil_r. }
    split; cbn [w_router w_handles w_threads]; rewrite ?Hs; try apply Hw'.
    apply Forall_app. split; [apply Hw|]. repeat constructor.
  - apply with_router_ok; try done. by apply set_roles_ok.
  - apply with_router_ok; try done. by apply set_roles_ok.
  - apply with_router_ok; try done. by apply set_roles_ok.
  - apply with_router_ok; try done; [by apply subscribe_ok|..];
      cbn; unfold subscribe; by case_decide.
  - apply with_router_ok; try done; [by apply set_local_pubkey_ok|..];
      cbn; unfold set_local_pubkey; by case_match.
  - cbn. destruct (w_handles w !! i) eqn:Hi; [|done]. by apply start_send_ok.
  - cbn. destruct (w_handles w !! i) as [h|] eqn:Hi; [|done].
    unfold attest_gate. destruct (bh_may_attest h) eqn:Ha; [|done]. by apply start_send_ok.
  - by apply advance_step_ok.
  - apply with_router_ok; try done; cbn.
    + apply set_channels_ok; [done|by rewrite length_alter|].
      apply Forall_alter; [apply Hr|]. intros c _ Hc. cbn. destruct (ch_queue c); cbn in *; lia.
    + apply alter_queues; [|done]. intros c Hc. cbn. by destruct Hc.
  - apply with_router_ok; try done; cbn.
    + apply set_channels_ok; [done|by rewrite length_alter|].
      apply Forall_alter; [apply Hr|]. intros c _ Hc. cbn. lia.
    + apply alter_queues; [|done]. intros c Hc. cbn. done.
Qed.

Lemma run_ok n w acts :
  world_ok n w → n + N.of_nat (length acts) < u64_MAX →
  world_ok (n + N.of_nat (length acts)) (run w acts).
Proof.
  revert n w. induction acts as [|a acts IH]; intros n w Hw Hn; cbn [length run foldl] in *.
  - by rewrite N.add_0_r.
  - replace (n + N.of_nat (S (length acts))) with (n + 1 + N.of_nat (length acts)) by lia.
    apply IH; [apply step_ok; [done|lia]|lia].
Qed.

(** ** A removed handle stays removed *)

(** Handle [id] has been issued and is not registered, and no registration
    stores channel [ch]. *)
Definition gone (id : CreatureId) (ch : nat) (w : World) : Prop :=
  0 < id < rt_next_id (w_router w) ∧ rt_table (w_router w) !! id = None
  ∧ ∀ id' reg, rt_table (w_router w) !! id' = Some reg → reg_inbox reg ≠ ch.

(** The inbox only loses envelopes, from the front. *)
Definition drains (ch : nat) (w w' : World) : Prop :=
  ∀ c, rt_channels (w_router w) !! ch = Some c →
    ∃ c', rt_channels (w_router w') !! ch = Some c' ∧ ch_queue c' `suffix_of` ch_queue c.

#[export] Instance drains_refl ch : Reflexive (drains ch).
Proof. intros w c Hc. eauto. Qed.

#[export] Instance drains_trans ch : Transitive (drains ch).
Proof.
  intros w1 w2 w3 H12 H23 c1 Hc1. destruct (H12 c1 Hc1) as (c2 & Hc2 & ?).
  destruct (H23 c2 Hc2) as (c3 & Hc3 & ?). exists c3. split; [done|]. by etrans.
Qed.

Lemma deliver_other r id env ch :
  (∀ id' reg, rt_table r !! id' = Some reg → reg_inbox reg ≠ ch) →
  rt_channels (deliver r id env).1 !! ch = rt_channels r !! ch.
Proof.
  intros Hch. unfold deliver. destruct (rt_table r !! id) as [reg|] eqn:Ht; [|done].
  destruct (rt_channels r !! reg_inbox reg); [|done].
  destruct (try_send _ _ _); try done. cbn. apply list_lookup_insert_ne. by eapply Hch.
Qed.

Lemma route_deliver_other r to env ch :
  (∀ id' reg, rt_table r !! id' = Some reg → reg_inbox reg ≠ ch) →
  rt_channels (route_deliver r to env).1 !! ch = rt_channels r !! ch.
Proof.
  intros Hch. destruct to as [id|ids]; cbn; [by apply deliver_other|].
  revert r Hch. induction ids as [|id ids IH]; intros r Hch; cbn; [done|].
  rewrite IH; [by apply deliver_other|].
  destruct (deliver_effect r id env) as (chs & -> & _). done.
Qed.

Lemma advance_other r t r' t' ch :
  advance r t = (r', t') →
  (∀ id' reg, rt_table r !! id' = Some reg → reg_inbox reg ≠ ch) →
  rt_channels r' !! ch = rt_channels r !! ch.
Proof.
  intros E Hch. destruct t as [p|id|id|]; cbn -[route_section] in E; simplify_eq/=; try done.
  destruct p as [env|env|env|env|to env|res]; cbn -[route_deliver] in E.
  - unfold route_stamp in E. destruct (address_depth_error (ev_header env)) as [[]|];
      [|destruct (header_size_error (ev_header env)) as [[]|]]; by simplify_eq/=.
  - destruct (route_permit r env); by simplify_eq/=.
  - by simplify_eq/=.
  - destruct (route_resolve r _); by simplify_eq/=.
  - pose proof (route_deliver_other r to env ch Hch).
    destruct (route_deliver r to env) as [r2 res]. by simplify_eq/=.
  - by simplify_eq/=.
Qed.

Lemma alter_drains (f : Channel → Channel) (i ch : nat) (chs : list Channel) c :
  (∀ c, ch_queue (f c) `suffix_of` ch_queue c) →
  chs !! ch = Some c →
  ∃ c', alter f i chs !! ch = Some c' ∧ ch_queue c' `suffix_of` ch_queue c.
Proof.
  intros Hf Hc. destruct (decide (i = ch)) as [->|Hne].
  - rewrite list_lookup_alter_eq, Hc. cbn. eauto.
  - rewrite list_lookup_alter_ne by done. eauto.
Qed.

Lemma drop_registration_drains r reg ch c :
  rt_channels r !! ch = Some c →
  ∃ c', rt_channels (drop_registration r reg) !! ch = Some c'
    ∧ ch_queue c' `suffix_of` ch_queue c.
Proof. intros Hc. destruct reg; cbn; [by apply alter_drains|eauto]. Qed.

(** A fresh registration of another handle uses a fresh channel. *)
Lemma insert_gone id ch w r id' caps :
  gone id ch w → rt_table r = rt_table (w_router w) → rt_channels r = rt_channels (w_router w) →
  rt_next_id (w_router w) ≤ rt_next_id r → id' ≠ id →
  (ch < length (rt_channels (w_router w)))%nat →
  let r' := insert_registration (sync_channel r).1 id' (mkRegistration (sync_channel r).2 caps) in
  ∀ hs ts, gone id ch (mkWorld r' hs ts) ∧ drains ch w (mkWorld r' hs ts).
Proof.
  intros (Hid & Hnone & Hch) Ht Hc Hn Hne Hlen r' hs ts.
  destruct (insert_registration_fields (sync_channel r).1 id'
    (mkRegistration (sync_channel r).2 caps)) as (Fn & _ & _ & Ft).
  split; [split_and!|]; cbn [w_router]; unfold r'; rewrite ?Fn, ?Ft.
  - lia.
  - cbn. lia.
  - cbn. by rewrite lookup_insert_ne, Ht.
  - intros i reg. cbn. rewrite Ht, Hc.
    intros [[<- <-]|[_ Hi]]%lookup_insert_Some; cbn; [lia|by eapply Hch].
  - intros c Hcc. cbn [w_router]. apply drop_registration_drains. cbn. rewrite Hc.
    by apply lookup_app_l_Some.
Qed.

Lemma unchanged_gone id ch w w' :
  gone id ch w → rt_table (w_router w') = rt_table (w_router w) →
  rt_next_id (w_router w') = rt_next_id (w_router w) →
  rt_channels (w_router w') = rt_channels (w_router w) →
  gone id ch w' ∧ drains ch w w'.
Proof.
  intros Hg Ht Hn Hc. unfold gone. rewrite Ht, Hn. split; [done|].
  intros c Hcc. rewrite Hc. eauto.
Qed.

Lemma step_gone n w a id ch :
  world_ok n w → n + 1 < u64_MAX → gone id ch w →
  (ch < length (rt_channels (w_router w)))%nat →
  gone id ch (step w a) ∧ drains ch w (step w a).
Proof.
  intros Hw Hn Hgone Hlen. pose proof (wo_next n w Hw).
  destruct (Hgone) as (Hid & Hnone & Hch).
  destruct a as [caps signer att| |id'|role id'|role id'|role|topic id'|key|i d|i d origin|i|c|c].
  - cbn -[insert_registration sync_channel]. unfold register. rewrite u64_add_exact by lia.
    apply insert_gone; cbn; try done; lia.
  - apply (insert_gone id ch w (w_router w)); try done. unfold KERNEL_ID. lia.
  - unfold step, deregister_table.
    destruct (drop_registration_fields (set_table (w_router w) (delete id' (rt_table (w_router w))))
      (rt_table (w_router w) !! id')) as (Fn & _ & _ & Ft).
    split; [split_and!|]; cbn [w_router]; rewrite ?Fn, ?Ft; cbn; try lia.
    + by rewrite lookup_delete_None; right.
    + intros i reg [_ Hi]%lookup_delete_Some. by eapply Hch.
    + intros c Hc. by apply drop_registration_drains.
  - by apply unchanged_gone.
  - by apply unchanged_gone.
  - by apply unchanged_gone.
  - apply unchanged_gone; try done; cbn; unfold subscribe; by case_decide.
  - apply unchanged_gone; try done; cbn; unfold set_local_pubkey; by case_match.
  - cbn. destruct (w_handles w !! i) as [h|]; [|done]. unfold start_send.
    destruct (seal h d None) as [h' [env|e]]; by apply unchanged_gone.
  - cbn. destruct (w_handles w !! i) as [h|]; [|done]. unfold attest_gate.
    destruct (bh_may_attest h); [|done].
    unfold start_send. destruct (seal h d (Some origin)) as [h' [env|e]]; by apply unchanged_gone.
  - cbn -[advance]. destruct (w_threads w !! i) as [t|]; [|done].
    destruct (advance (w_router w) t) as [r' t'] eqn:E.
    destruct (advance_frame _ _ _ _ E) as (Fn & Ft & _).
    pose proof (advance_other _ _ _ _ ch E Hch) as Hc. split.
    + unfold gone. cbn [w_router]. by rewrite Fn, Ft.
    + intros c Hcc. cbn [w_router]. rewrite Hc. eauto.
  - split; [done|]. intros c' Hc. apply alter_drains; [|done]. intros x. cbn.
    destruct (ch_queue x) as [|e q]; [done|]. by exists [e].
  - split; [done|]. intros c' Hc. apply alter_drains; [|done]. intros x. cbn.
    exists (ch_queue x). by rewrite app_nil_r.
Qed.

Lemma run_gone n w acts id ch :
  world_ok n w → n + N.of_nat (length acts) < u64_MAX → gone id ch w →
  (ch < length (rt_channels (w_router w)))%nat →
  gone id ch (run w acts) ∧ drains ch w (run w acts).
Proof.
  revert n w. induction acts as [|a acts IH]; intros n w Hw Hn Hg Hlen; [done|].
  cbn [length run foldl] in *.
  destruct (step_gone n w a id ch Hw ltac:(lia) Hg Hlen) as [Hg' Hd].
  destruct (lookup_lt_is_Some_2 _ _ Hlen) as [c Hc]. destruct (Hd c Hc) as (c' & Hc' & _).
  destruct (IH (n + 1) (step w a)) as [Hg'' Hd'];
    [apply step_ok; [done|lia]|lia|done|by eapply lookup_lt_Some|].
  split; [done|]. by etrans.
Qed.
End invariant.

(** ** Sending in sequence *)

Section order.
  Context `{!SerdeJson Header} `{!Verifier}.

(** Routing to a registered creature appends one envelope to its inbox, or
    nothing at all. *)
Lemma route_to_creature r env r' res id reg c :
  route r env = (r', res) → hd_to (ev_header env) = ACreature id →
  rt_table r !! id = Some reg → rt_channels r !! reg_inbox reg = Some c →
  rt_table r' = rt_table r
  ∧ match res with
    | Ok _ => ∃ s c', rt_channels r' !! reg_inbox reg = Some c'
        ∧ ch_queue c'
          = ch_queue c ++ [mkEnvelope (set_stamp (ev_header env) s) (ev_payload env)]
    | Err _ => rt_channels r' !! reg_inbox reg = Some c
    end.
Proof.
  unfold route, route_stamp. intros E Hto Ht Hc.
  destruct (address_depth_error (ev_header env)) as [[]|]; [by simplify_eq|].
  destruct (header_size_error (ev_header env)) as [[]|]; [by simplify_eq|].
  set (s := u64_add (rt_clock r) 1) in *.
  set (sent := mkEnvelope (set_stamp (ev_header env) s) (ev_payload env)) in *.
  destruct (route_permit _ sent) as [u|e]; [|by simplify_eq].
  cbn in E. rewrite Hto in E. cbn in E. unfold deliver in E. cbn in E. rewrite Ht, Hc in E.
  unfold try_send in E. destruct (ch_receiver c); cbn in E; [|by simplify_eq].
  case_decide; [by simplify_eq|]. simplify_eq/=. split; [done|].
  eexists s, _. split; [apply list_lookup_insert_eq; by eapply lookup_lt_Some|done].
Qed.

Definition delivered_payloads (ds : list Dispatch) (rs : list (result RouteError unit)) :
    list bytes :=
  di_payload ∘ fst <$> base.filter (fun p => is_ok p.2 = true) (zip ds rs).

Lemma send_all_order r h ds r' h' rs id reg c :
  send_all r h ds = (r', h', rs) → Forall (fun d => di_to d = ACreature id) ds →
  rt_table r !! id = Some reg → rt_channels r !! reg_inbox reg = Some c →
  bh_seq h + N.of_nat (length ds) ≤ u64_MAX →
  ∃ envs c', rt_channels r' !! reg_inbox reg = Some c'
    ∧ ch_queue c' = ch_queue c ++ envs
    ∧ ev_payload <$> envs = delivered_payloads ds rs
    ∧ Forall (fun e => bh_seq h ≤ hd_seq (ev_header e)) envs
    ∧ StronglySorted N.lt (hd_seq ∘ ev_header <$> envs).
Proof.
  revert r h r' h' rs c. induction ds as [|d ds IH]; intros r h r' h' rs c E Hto Ht Hc Hseq.
  { simplify_eq/=. exists [], c. split_and!; [done|by rewrite app_nil_r|done|done|constructor]. }
  cbn [send_all length] in *. apply Forall_cons in Hto as [Hd Hto].
  destruct (send r h d) as [[r1 h1] res] eqn:Es.
  destruct (send_all r1 h1 ds) as [[r2 h2] rest] eqn:Ea. simplify_eq.
  unfold send, send_sealed in Es. destruct (seal h d None) as [h1' sealed] eqn:Hs.
  assert (bh_seq h1' = bh_seq h + 1) as Hseq1.
  { unfold seal in Hs. rewrite u64_add_exact in Hs by lia.
    destruct (address_depth_error _) as [[]|]; [by simplify_eq|].
    destruct (header_size_error _) as [[]|]; by simplify_eq. }
  apply seal_spec in Hs as [_ Hs].
  assert (h1 = h1' ∧ rt_table r1 !! id = Some reg ∧ ∃ c1 new,
    rt_channels r1 !! reg_inbox reg = Some c1 ∧ ch_queue c1 = ch_queue c ++ new
    ∧ ev_payload <$> new = (if is_ok res then [di_payload d] else [])
    ∧ Forall (fun e => hd_seq (ev_header e) = bh_seq h) new ∧ (length new ≤ 1)%nat)
    as (-> & Ht1 & c1 & new & Hc1 & Hq1 & Hp1 & Hn1 & Hlen1).
  { destruct sealed as [env|e]; cycle 1.
    { simplify_eq. split_and!; [done|done|]. exists c, []. rewrite app_nil_r. cbn.
      split_and!; try done. lia. }
    destruct (Hs env eq_refl) as (_ & _ & Eto & Ep & Eseq). rewrite <-Eto in Hd.
    destruct (route r env) as [r1' res'] eqn:Er. simplify_eq.
    destruct (route_to_creature _ _ _ _ _ _ _ Er Hd Ht Hc) as [Htab Hres].
    split; [done|]. split; [by rewrite Htab|]. destruct res as [u|e].
    - destruct Hres as (s & c' & Hc' & Hq). exists c', [mkEnvelope (set_stamp (ev_header env) s) (ev_payload env)].
      split_and!; try done; [by cbn; rewrite Ep|by repeat constructor].
    - exists c, []. rewrite app_nil_r. split_and!; try done. cbn. lia. }
  destruct (IH _ _ _ _ _ _ Ea Hto Ht1 Hc1 ltac:(lia)) as (envs & c' & Hc' & Hq' & Hp' & Hge & Hss).
  exists (new ++ envs), c'. rewrite Hseq1 in Hge. split_and!.
  - done.
  - by rewrite Hq', Hq1, app_assoc.
  - rewrite fmap_app, Hp1, Hp'. unfold delivered_payloads. cbn [zip zip_with].
    destruct res as [u|e]; [by rewrite filter_cons_True|by rewrite filter_cons_False].
  - apply Forall_app. split; (eapply Forall_impl; [eassumption|]); cbn; intros; lia.
  - destruct new as [|e [|? ?]]; cbn in Hlen1; [done| |lia]. cbn. constructor; [done|].
    apply Forall_cons in Hn1 as [Hn1 _]. apply Forall_fmap.
    eapply Forall_impl; [exact Hge|]. cbn. intros; lia.
Qed.
End order.

(** ** Remote exposure *)

(** The host's operations on the role table. *)
Inductive RoleOp : Type :=
  | OpBind (role : Role) (id : CreatureId)
  | OpBindRemote (role : Role) (id : CreatureId)
  | OpUnbind (role : Role)
  | OpDeregister (id : CreatureId).

Definition apply_role_op (r : Router) (op : RoleOp) : Router :=
  match op with
  | OpBind role id => bind_role r role id
  | OpBindRemote role id => bind_remote_role r role id
  | OpUnbind role => unbind_role r role
  | OpDeregister id => deregister r id
  end.

(** What the operations expose, newest first: the last binding of the role
    decides, and it is exposed only if it was an explicit remote one whose
    creature has not been removed since. *)
Fixpoint exposed (ops : list RoleOp) (role : Role) : option CreatureId :=
  match ops with
  | [] => None
  | OpBind role' _ :: ops | OpUnbind role' :: ops =>
      if decide (role' = role) then None else exposed ops role
  | OpBindRemote role' id :: ops => if decide (role' = role) then Some id else exposed ops role
  | OpDeregister id :: ops =>
      match exposed ops role with
      | Some id' => if decide (id' = id) then None else Some id'
      | None => None
      end
  end.

Lemma drop_registration_roles r id :
  rt_roles (deregister_table r id) = rt_roles r.
Proof. unfold deregister_table. by destruct (rt_table r !! id). Qed.

Lemma remote_binding_op r op role ops :
  remote_role_binding r role = exposed ops role →
  remote_role_binding (apply_role_op r op) role = exposed (op :: ops) role.
Proof.
  intros IH.
  destruct op as [role' id|role' id|role'|id]; cbn; unfold remote_role_binding in *; cbn.
  - case_decide; [subst; by rewrite lookup_insert_eq|by rewrite lookup_insert_ne].
  - case_decide; [subst; by rewrite lookup_insert_eq|by rewrite lookup_insert_ne].
  - case_decide; [subst; by rewrite lookup_delete_eq|by rewrite lookup_delete_ne].
  - rewrite (drop_registration_roles r id).
    rewrite <-IH. destruct (rt_roles r !! role) as [b|] eqn:Hb.
    + destruct (decide (rb_creature b = id)) as [E|E].
      * rewrite map_lookup_filter_None_2 by (right; naive_solver).
        destruct (rb_remote b); [by rewrite decide_True|done].
      * rewrite (map_lookup_filter_Some_2 _ _ _ b) by done.
        destruct (rb_remote b); [by rewrite decide_False|done].
    + rewrite map_lookup_filter_None_2 by (left; done). done.
Qed.

(** ** Properties *)

Section properties.
  Context (JH : SerdeJson Header) (V : Verifier).

(** The bus is bounded under every interleaving.  Whatever creatures,
    hosts and in-flight routing calls do, and in whatever order their critical
    sections run, no inbox ever holds more than its capacity, the history ring
    never exceeds its cap and the topic table never exceeds its own. *)
Theorem bus_bounded (inbox_capacity : N) (acts : list Action)
    (Hlen : N.of_nat (length acts) < u64_MAX) :
  let r := w_router (run (init inbox_capacity) acts) in
  Forall (fun c => N.of_nat (length (ch_queue c)) ≤ rt_inbox_capacity r) (rt_channels r)
  ∧ N.of_nat (length (rt_journal r)) ≤ rt_journal_cap r
  ∧ (rt_max_topics r ≠ 0 → N.of_nat (size (rt_topics r)) ≤ rt_max_topics r).
Proof.
  intros r. pose proof (run_ok 0 (init inbox_capacity) acts (init_ok inbox_capacity) Hlen) as Hw.
  pose proof (wo_router _ _ Hw) as Hr. split_and!; apply Hr.
Qed.

(** Stamps are unique.  Under every interleaving of routing calls, no two
    journal entries carry the same stamp, and no stamp is ahead of the logical
    clock, which ticks at most once per atomic section. *)
Theorem stamps_unique (inbox_capacity : N) (acts : list Action)
    (Hlen : N.of_nat (length acts) < u64_MAX) :
  let r := w_router (run (init inbox_capacity) acts) in
  NoDup (journal_stamps r) ∧ Forall (fun s => s ≤ rt_clock r) (journal_stamps r)
  ∧ rt_clock r ≤ N.of_nat (length acts).
Proof.
  intros r. pose proof (run_ok 0 (init inbox_capacity) acts (init_ok inbox_capacity) Hlen) as Hw.
  pose proof (wo_stamps _ _ Hw) as Hnd. pose proof (wo_stamps_le _ _ Hw) as Hle.
  unfold all_stamps in *. apply NoDup_app in Hnd as (_ & _ & Hnd).
  apply Forall_app in Hle as [_ Hle]. split_and!; [done|done|apply (wo_clock _ _ Hw)].
Qed.

(** Safe unload.  Once the table entry of a creature is removed, then in
    every continuation of the run its handle is never registered again, a
    delivery to it is refused as [NoSuchModule], and its inbox receives nothing
    more: the receiver can only drain what was already queued. *)
Theorem deregistered_unreachable (inbox_capacity : N) (before after : list Action)
    (id : CreatureId) (reg : Registration)
    (Hlen : N.of_nat (length before) + 1 + N.of_nat (length after) < u64_MAX)
    (Hreg : rt_table (w_router (run (init inbox_capacity) before)) !! id = Some reg)
    (Hid : id ≠ KERNEL_ID) :
  let w1 := run (init inbox_capacity) before in
  let w2 := run (step w1 (DoDeregister id)) after in
  rt_table (w_router w2) !! id = None
  ∧ (∀ env, deliver (w_router w2) id env = (w_router w2, Err (NoSuchModule id)))
  ∧ drains (reg_inbox reg) w1 w2.
Proof.
  intros w1 w2. change (rt_table (w_router w1) !! id = Some reg) in Hreg.
  pose proof (run_ok 0 _ before (init_ok inbox_capacity) ltac:(lia)) as Hw1. fold w1 in Hw1.
  pose proof (step_ok _ _ (DoDeregister id) Hw1 ltac:(lia)) as Hw.
  pose proof (wo_router _ _ Hw1) as Hr. destruct (ro_table _ Hr id reg Hreg) as [Hlt Hch].
  assert (gone id (reg_inbox reg) (step w1 (DoDeregister id))) as Hgone.
  { unfold gone. cbn. unfold deregister_table. rewrite Hreg. cbn. unfold KERNEL_ID in Hid.
    split_and!; [lia|lia|by rewrite lookup_delete_eq|].
    intros id' reg' [Hne Hid']%lookup_delete_Some E. destruct Hne. symmetry.
    by apply (ro_distinct _ Hr id' id reg' reg). }
  destruct (run_gone _ _ after id (reg_inbox reg) Hw ltac:(lia) Hgone) as [(_ & Hnone & _) Hd].
  { cbn. unfold deregister_table. rewrite Hreg. cbn. by rewrite length_alter. }
  fold w2 in Hnone, Hd. split_and!; [done| |].
  - intros env. unfold deliver. by rewrite Hnone.
  - etrans; [|exact Hd]. intros c Hc. by apply drop_registration_drains.
Qed.

(** C24: origins cannot be forged.  In every run, every envelope waiting in an
    inbox was sealed by a handle the kernel issued: its [from] is that handle's
    creature, no other handle has that creature id, and it carries a cross-node
    origin only if the handle was issued with the attestation grant. *)
Theorem origin_only_from_attesting_handle (inbox_capacity : N) (acts : list Action)
    (ch : nat) (c : Channel) (env : Envelope)
    (Hlen : N.of_nat (length acts) < u64_MAX)
    (Hch : rt_channels (w_router (run (init inbox_capacity) acts)) !! ch = Some c)
    (Henv : env ∈ ch_queue c) :
  ∃ h, h ∈ w_handles (run (init inbox_capacity) acts)
    ∧ hd_from (ev_header env) = ACreature (bh_me h)
    ∧ (∀ h', h' ∈ w_handles (run (init inbox_capacity) acts) →
        bh_me h' = bh_me h → h' = h)
    ∧ (hd_origin (ev_header env) ≠ None → bh_may_attest h = true).
Proof.
  pose proof (run_ok 0 (init inbox_capacity) acts (init_ok inbox_capacity) Hlen) as Hw.
  pose proof (wo_queues _ _ Hw) as Hq. rewrite Forall_lookup in Hq. specialize (Hq _ _ Hch).
  rewrite Forall_forall in Hq. destruct (Hq env Henv) as (k & Hk & Hfrom & Ho).
  apply list_elem_of_fmap in Hk as (h & -> & Hh). exists h. split_and!; [done|done| |done].
  intros h' Hh' Hme. pose proof (wo_handles _ _ Hw) as Hnd.
  apply list_elem_of_lookup in Hh as [i Hi], Hh' as [j Hj].
  rewrite NoDup_alt in Hnd.
  assert (i = j) as ->; [|congruence]. apply (Hnd i j (bh_me h));
    rewrite list_lookup_fmap; [by rewrite Hi|by rewrite Hj; cbn; rewrite Hme].
Qed.

(** Remote exposure is explicit.  After any sequence of host operations on
    roles, an attesting transport resolves a role exactly when its latest
    binding was an explicit remote one whose creature is still there, and an
    ordinary handle resolves nothing. *)
Theorem remote_exposure_is_explicit (inbox_capacity : N) (ops : list RoleOp) (h : BusHandle)
    (role : Role) :
  remote_role_target (foldl apply_role_op (Router_new inbox_capacity) ops) h role
  = if bh_may_attest h then exposed (rev ops) role else None.
Proof.
  unfold remote_role_target. destruct (bh_may_attest h); [|done].
  induction ops as [|op ops IH] using rev_ind; [done|].
  rewrite foldl_app, rev_app_distr. cbn [foldl rev app]. by apply remote_binding_op.
Qed.

(** Local delivery order.  Dispatches of one outcome that address the same
    local creature arrive in the order they were pushed: the inbox grows by
    exactly the accepted ones, in order, with strictly increasing sequence
    numbers. *)
Theorem local_delivery_order (r r' : Router) (h h' : BusHandle) (ds : list Dispatch)
    (rs : list (result RouteError unit)) (id : CreatureId) (reg : Registration) (c : Channel)
    (Hsend : send_all r h ds = (r', h', rs))
    (Hto : Forall (fun d => di_to d = ACreature id) ds)
    (Hreg : rt_table r !! id = Some reg) (Hch : rt_channels r !! reg_inbox reg = Some c)
    (Hseq : bh_seq h + N.of_nat (length ds) ≤ u64_MAX) :
  ∃ envs c', rt_channels r' !! reg_inbox reg = Some c'
    ∧ ch_queue c' = ch_queue c ++ envs
    ∧ ev_payload <$> envs = delivered_payloads ds rs
    ∧ StronglySorted N.lt (hd_seq ∘ ev_header <$> envs).
Proof.
  destruct (send_all_order _ _ _ _ _ _ _ _ _ Hsend Hto Hreg Hch Hseq)
    as (envs & c' & ? & ? & ? & _ & ?). eauto 10.
Qed.
End properties.

(** ** A concrete run

    An ordinary creature (handle 1) and an attesting transport (handle 2); the
    transport's attested dispatch and the creature's own are routed in turn. *)

Definition flat_serde : SerdeJson Header :=
  {| to_vec := fun _ => Ok []; from_slice := fun _ => Err "unused" |}.

Definition sample_actions : list Action :=
  [DoRegister Capabilities_default (fun _ => "s") false;
   DoRegister Capabilities_default (fun _ => "t") true;
   DoEmitAttested 1 (Dispatch_to (ACreature 1) [Byte.x01]) (mkOrigin "peer");
   DoEmit 0 (Dispatch_to (ACreature 1) [Byte.x02]);
   DoAdvance 1; DoAdvance 0; DoAdvance 0; DoAdvance 1; DoAdvance 1; DoAdvance 0;
   DoAdvance 0; DoAdvance 0; DoAdvance 1; DoAdvance 1].

Definition sample_world : World := @run flat_serde stub_verifier (init 4) sample_actions.

Example sample_world_inbox :
  (fun c => hd_stamp ∘ ev_header <$> ch_queue c) <$> rt_channels (w_router sample_world) !! 0%nat
  = Some [2; 1].
Proof. vm_compute. reflexivity. Qed.

Lemma bus_bounded_witness :
  Forall (fun c => N.of_nat (length (ch_queue c)) ≤ rt_inbox_capacity (w_router sample_world))
    (rt_channels (w_router sample_world)).
Proof.
  apply (bus_bounded flat_serde stub_verifier 4 sample_actions). vm_compute. reflexivity.
Defined.

Lemma stamps_unique_witness : NoDup (journal_stamps (w_router sample_world)).
Proof.
  apply (stamps_unique flat_serde stub_verifier 4 sample_actions). vm_compute. reflexivity.
Defined.

Lemma deregistered_unreachable_witness :
  let w2 := @run flat_serde stub_verifier
              (@step flat_serde stub_verifier sample_world (DoDeregister 1))
              [DoEmit 1 (Dispatch_to (ACreature 1) []); DoAdvance 3; DoAdvance 3; DoAdvance 3;
               DoAdvance 3; DoAdvance 3] in
  rt_table (w_router w2) !! 1 = None.
Proof.
  refine (proj1 (@deregistered_unreachable flat_serde stub_verifier 4 sample_actions
    [DoEmit 1 (Dispatch_to (ACreature 1) []); DoAdvance 3; DoAdvance 3; DoAdvance 3;
     DoAdvance 3; DoAdvance 3] 1 (mkRegistration 0 Capabilities_default) _ _ _)).
  - vm_compute. reflexivity.
  - vm_compute. reflexivity.
  - unfold KERNEL_ID. lia.
Defined.

Lemma origin_only_from_attesting_handle_witness :
  let env := mkEnvelope (mkHeader (ACreature 2) (ACreature 1) None 0 [] 2 "t" None None ""
                           (Some (mkOrigin "peer"))) [Byte.x01] in
  ∃ h, h ∈ w_handles sample_world
    ∧ hd_from (ev_header env) = ACreature (bh_me h)
    ∧ (∀ h', h' ∈ w_handles sample_world → bh_me h' = bh_me h → h' = h)
    ∧ (hd_origin (ev_header env) ≠ None → bh_may_attest h = true).
Proof.
  intros env.
  apply (@origin_only_from_attesting_handle flat_serde stub_verifier 4 sample_actions 0
    (default (mkChannel [] true true) (rt_channels (w_router sample_world) !! 0%nat)) env).
  - vm_compute. reflexivity.
  - vm_compute. reflexivity.
  - vm_compute. apply list_elem_of_here.
Defined.

Lemma local_delivery_order_witness :
  let ds := [Dispatch_to (ACreature 2) [Byte.x01]; Dispatch_to (ACreature 2) [Byte.x02];
             Dispatch_to (ACreature 2) [Byte.x03]] in
  let h := BusHandle_new 2 (fun _ => "s") in
  let '(r', _, rs) := @send_all flat_serde stub_verifier sample_router h ds in
  ∃ envs c', rt_channels r' !! 1%nat = Some c'
    ∧ ch_queue c' = [] ++ envs
    ∧ ev_payload <$> envs = delivered_payloads ds rs
    ∧ StronglySorted N.lt (hd_seq ∘ ev_header <$> envs).
Proof.
  intros ds h.
  destruct (@send_all flat_serde stub_verifier sample_router h ds) as [[r' h'] rs] eqn:E.
  apply (@local_delivery_order flat_serde stub_verifier sample_router r' h h' ds rs 2
    (mkRegistration 1 Capabilities_default) (mkChannel [] true true) E).
  - repeat constructor.
  - vm_compute. reflexivity.
  - vm_compute. reflexivity.
  - cbn. unfold u64_MAX. lia.
Defined.
