(* ===== verification/Lww.v ===== *)
(** * The last-writer-wins map

    [cosmos/creatures/prototypes/merge/merge-lww-map/src/lib.rs]: the reference
    merge model of the Abode reconciler.  A fork is the serialised bytes of a
    map from keys to timestamped registers; merging is the union of the keys,
    the register with the greater timestamp winning, ties broken by the
    serialised value.

    JSON values are an argument [V] with their text form; [ValueText] states
    that distinct values have distinct texts. *)

From S2P Require Import Prelude Serde.

(** [abode_reconciler::DEFAULT_MAX_PAYLOAD_BYTES]. *)
Definition MAX_LWW_STATE_BYTES : N := 4 * 1024 * 1024.

Definition reject_oversized_state (which : string) (b : bytes) : result string unit :=
  if decide (MAX_LWW_STATE_BYTES < blen b) then
    Err (which +:+ " LWW state " +:+ dec (blen b) +:+ " bytes exceeds "
         +:+ dec MAX_LWW_STATE_BYTES +:+ " byte limit")
  else Ok tt.

Record Lww (V : Type) : Type := mkLww { lww_v : V; lww_ts : N }.
Arguments mkLww {V} _ _.
Arguments lww_v {V} _.
Arguments lww_ts {V} _.

(** [serde_json::to_string] of a value. *)
Class ValueText (V : Type) : Type := value_text : V → string.
Class ValueTextInj (V : Type) `{!ValueText V} : Prop :=
  value_text_inj : ∀ v w : V, value_text v = value_text w → v = w.

Section lww.
  Context {V : Type} `{!ValueText V} `{!SerdeJson (gmap string (Lww V))}.

Definition pick (a b : Lww V) : Lww V :=
  match N.compare (lww_ts a) (lww_ts b) with
  | Gt => a
  | Lt => b
  | Eq =>
      let sa := value_text (lww_v a) in
      let sb := value_text (lww_v b) in
      if str_leb sb sa then a else b
  end.

(** The loop over the entries of fork [a]. *)
Fixpoint merge_entries (map_a : list (string * Lww V)) (merged : gmap string (Lww V)) :
    gmap string (Lww V) :=
  match map_a with
  | [] => merged
  | (k, va) :: map_a =>
      let winner := match merged !! k with Some vb => pick va vb | None => va end in
      merge_entries map_a (<[k := winner]> (delete k merged))
  end.

Definition merge (a b : bytes) : result string bytes :=
  _ ← reject_oversized_state "fork_a" a;
  _ ← reject_oversized_state "fork_b" b;
  map_a ← map_err (fun e => "fork_a is not an LWW map: " +:+ e) (from_slice a);
  merged ← map_err (fun e => "fork_b is not an LWW map: " +:+ e) (from_slice b);
  map_err (fun e => "serialize merged map: " +:+ e)
    (to_vec (merge_entries (map_to_list map_a) merged)).

(** Reconciling a fork with others, one after another. *)
Fixpoint merge_all (a : bytes) (forks : list bytes) : result string bytes :=
  match forks with
  | [] => Ok a
  | b :: forks => ab ← merge a b; merge_all ab forks
  end.
End lww.

(** ** Joins of semilattices *)

Section semilattice.
  Context {A : Type} (op : A → A → A).
  Context (op_comm : ∀ x y, op x y = op y x).
  Context (op_assoc : ∀ x y z, op x (op y z) = op (op x y) z).
  Context (op_idem : ∀ x, op x x = x).

Lemma foldl_absorb l x a : x ∈ a :: l → op x (foldl op a l) = foldl op a l.
Proof.
  revert x a. induction l as [|b l IH]; intros x a Hx; cbn.
  { apply list_elem_of_singleton in Hx as ->. apply op_idem. }
  pose proof (IH (op a b) (op a b) (list_elem_of_here _ _)) as Hab.
  rewrite !elem_of_cons in Hx. destruct Hx as [->|[->|Hl]].
  - rewrite <-Hab at 1. by rewrite !op_assoc, op_idem.
  - rewrite <-Hab at 1. rewrite op_assoc, (op_comm b), <-(op_assoc a b b), op_idem. done.
  - apply IH. by apply list_elem_of_further.
Qed.

Lemma foldl_below l a z :
  (∀ x, x ∈ a :: l → op x z = z) → op (foldl op a l) z = z.
Proof.
  revert a. induction l as [|b l IH]; intros a Hz; cbn; [by apply Hz, list_elem_of_here|].
  apply IH. intros x [->|Hl]%elem_of_cons.
  - rewrite <-op_assoc, (Hz b), (Hz a); set_solver.
  - apply Hz. set_solver.
Qed.

(** A join depends only on which elements are joined. *)
Lemma foldl_same_elements a l b k :
  (∀ x, x ∈ a :: l ↔ x ∈ b :: k) → foldl op a l = foldl op b k.
Proof.
  intros H. transitivity (op (foldl op a l) (foldl op b k)).
  - rewrite op_comm. symmetry. apply foldl_below. intros x Hx. apply foldl_absorb, H, Hx.
  - apply foldl_below. intros x Hx. apply foldl_absorb, H, Hx.
Qed.
End semilattice.

(** ** The register order *)

Section order.
  Context {V : Type} `{!ValueText V} `{!ValueTextInj V}.
  Implicit Types a b c : Lww V.

(** The total order [(ts, serialised value)]. *)
Definition lww_le (a b : Lww V) : Prop :=
  lww_ts a < lww_ts b
  ∨ (lww_ts a = lww_ts b ∧ str_leb (value_text (lww_v a)) (value_text (lww_v b)) = true).

Lemma lww_le_total a b : lww_le a b ∨ lww_le b a.
Proof.
  unfold lww_le. destruct (N.lt_trichotomy (lww_ts a) (lww_ts b)) as [|[->|]]; auto.
  destruct (str_leb_total (value_text (lww_v a)) (value_text (lww_v b))); auto.
Qed.

Lemma lww_le_antisym a b : lww_le a b → lww_le b a → a = b.
Proof.
  intros [?|[Ht Hs]] [?|[? Hs']]; try (exfalso; lia).
  pose proof (value_text_inj _ _ (str_leb_antisym _ _ Hs Hs')) as Hv.
  destruct a, b. cbn in *. congruence.
Qed.

Lemma lww_le_trans a b c : lww_le a b → lww_le b c → lww_le a c.
Proof.
  intros [?|[? Hab]] [?|[? Hbc]]; [left; lia|left; lia|left; lia|right].
  split; [congruence|]. by eapply str_leb_trans.
Qed.

Lemma lww_le_refl a : lww_le a a.
Proof. by destruct (lww_le_total a a). Qed.
Hint Resolve lww_le_refl : core.

Lemma pick_max a b : lww_le a (pick a b) ∧ lww_le b (pick a b) ∧ (pick a b = a ∨ pick a b = b).
Proof.
  unfold pick. destruct (N.compare_spec (lww_ts a) (lww_ts b)) as [E|E|E].
  - destruct (str_leb (value_text (lww_v b)) (value_text (lww_v a))) eqn:Hs.
    + split_and!; [apply lww_le_refl|right; done|by left].
    + split_and!; [right; split; [done|]|apply lww_le_refl|by right].
      destruct (str_leb_total (value_text (lww_v a)) (value_text (lww_v b))); congruence.
  - split_and!; [by left|apply lww_le_refl|by right].
  - split_and!; [apply lww_le_refl|left; lia|by left].
Qed.

Lemma pick_unique a b m :
  lww_le a m → lww_le b m → m = a ∨ m = b → m = pick a b.
Proof.
  intros Ha Hb Hm. destruct (pick_max a b) as (Ha' & Hb' & Hp).
  apply lww_le_antisym; [destruct Hm as [->| ->]; done|destruct Hp as [-> | ->]; done].
Qed.

Lemma pick_comm a b : pick a b = pick b a.
Proof. destruct (pick_max a b) as (? & ? & ?). apply pick_unique; naive_solver. Qed.

Lemma pick_idem a : pick a a = a.
Proof. destruct (pick_max a a) as (_ & _ & [?|?]); done. Qed.

Lemma pick_assoc a b c : pick a (pick b c) = pick (pick a b) c.
Proof.
  destruct (pick_max a (pick b c)) as (H1 & H2 & H3).
  destruct (pick_max b c) as (H4 & H5 & H6). destruct (pick_max a b) as (H7 & H8 & H9).
  assert (lww_le b (pick a (pick b c))) as Hb by exact (lww_le_trans _ _ _ H4 H2).
  assert (lww_le c (pick a (pick b c))) as Hc by exact (lww_le_trans _ _ _ H5 H2).
  apply pick_unique; [destruct H9 as [-> | ->]; done|done|].
  destruct H3 as [H3|H3]; rewrite H3 in *; [|destruct H6 as [H6|H6]; rewrite H6 in *; [|by right]].
  - left. apply pick_unique; auto.
  - left. apply pick_unique; auto.
Qed.

(** ** The map join *)

Definition join (m n : gmap string (Lww V)) : gmap string (Lww V) :=
  union_with (fun x y => Some (pick x y)) m n.

Lemma lookup_join m n k :
  join m n !! k
  = match m !! k, n !! k with
    | Some x, Some y => Some (pick x y)
    | Some x, None => Some x
    | None, y => y
    end.
Proof. unfold join. rewrite lookup_union_with. by destruct (m !! k), (n !! k). Qed.

Lemma join_comm m n : join m n = join n m.
Proof.
  apply map_eq. intros k. rewrite !lookup_join.
  destruct (m !! k), (n !! k); try done. by rewrite pick_comm.
Qed.

Lemma join_idem m : join m m = m.
Proof. apply map_eq. intros k. rewrite lookup_join. destruct (m !! k); [|done]. by rewrite pick_idem. Qed.

Lemma join_assoc m n o : join m (join n o) = join (join m n) o.
Proof.
  apply map_eq. intros k. rewrite !lookup_join.
  destruct (m !! k), (n !! k), (o !! k); try done. by rewrite pick_assoc.
Qed.

Lemma merge_entries_join l m :
  NoDup l.*1 → merge_entries l m = join (list_to_map l) m.
Proof.
  revert m. induction l as [|[k va] l IH]; intros m Hnd.
  { apply map_eq. intros k. rewrite lookup_join. cbn. by rewrite lookup_empty. }
  apply NoDup_cons in Hnd as [Hk Hnd]. cbn [merge_entries list_to_map foldr]. rewrite IH by done.
  apply map_eq. intros j. rewrite !lookup_join. cbn.
  destruct (decide (k = j)) as [<-|Hne].
  - rewrite (not_elem_of_list_to_map_1 l k Hk), !lookup_insert_eq. by destruct (m !! k).
  - by rewrite !lookup_insert_ne, lookup_delete_ne by done.
Qed.

Context `{!SerdeJson (gmap string (Lww V))}.

Lemma merge_Ok (a b r : bytes) :
  merge a b = Ok r ↔
  blen a ≤ MAX_LWW_STATE_BYTES ∧ blen b ≤ MAX_LWW_STATE_BYTES
  ∧ ∃ m n, from_slice a = Ok m ∧ from_slice b = Ok n ∧ to_vec (join m n) = Ok r.
Proof.
  unfold merge, reject_oversized_state. split.
  - intros E. split_cases. to_prop. split_and!; try lia.
    match goal with H : to_vec _ = Ok r |- _ =>
      rewrite merge_entries_join, list_to_map_to_list in H by apply NoDup_fst_map_to_list end.
    eauto.
  - intros (Ha & Hb & m & n & Em & En & Hr). rewrite !decide_False by lia. cbn.
    rewrite Em, En. cbn.
    rewrite merge_entries_join, list_to_map_to_list by apply NoDup_fst_map_to_list.
    by rewrite Hr.
Qed.
End order.

(** ** Reconciling many forks *)

(** States that [serde_json] reads back as they were written.  Without its
    [float_roundtrip] feature a float may come back as a neighbouring one, so the
    law is only asked of maps whose values are [exact]. *)
Definition exact_state {V} (exact : V → Prop) (m : gmap string (Lww V)) : Prop :=
  map_Forall (fun _ r => exact (lww_v r)) m.
Class ExactRoundTrip {V} `{!SerdeJson (gmap string (Lww V))} (exact : V → Prop) : Prop :=
  exact_round_trip : ∀ (m : gmap string (Lww V)) b,
    exact_state exact m → to_vec m = Ok b → from_slice b = Ok m.

Section convergence.
  Context {V : Type} `{!ValueText V} `{!ValueTextInj V}.
  Context `{!SerdeJson (gmap string (Lww V))} (exact : V → Prop) `{!ExactRoundTrip exact}.

(** A fork whose values are exact, if it can be read at all. *)
Definition exact_bytes (b : bytes) : Prop := ∀ m, from_slice b = Ok m → exact_state exact m.

Lemma exact_join m n : exact_state exact m → exact_state exact n → exact_state exact (join m n).
Proof.
  intros Hm Hn k r. rewrite lookup_join.
  destruct (m !! k) as [v1|] eqn:E1, (n !! k) as [v2|] eqn:E2; intros [= <-];
    [|by eapply (Hm k)|by eapply (Hn k)].
  destruct (pick_max v1 v2) as (_ & _ & [->| ->]); [by eapply (Hm k)|by eapply (Hn k)].
Qed.

(** A reconciliation that succeeds computes the join of the parsed forks. *)
Lemma merge_all_join (forks : list bytes) (a : bytes) m r :
  Forall exact_bytes forks → exact_state exact m →
  from_slice a = Ok m → merge_all a forks = Ok r →
  ∃ ns, Forall2 (fun b n => from_slice b = Ok n) forks ns
    ∧ (forks ≠ [] → to_vec (foldl join m ns) = Ok r).
Proof.
  intros F. revert a m. induction F as [|b forks Hb F IH]; intros a m Hm Ha E; cbn in E.
  { by exists []. }
  apply bind_Ok in E as (ab & Hab & E). apply merge_Ok in Hab as (_ & _ & m' & n & Em & En & Hr).
  rewrite Ha in Em. injection Em as <-. pose proof (exact_join m n Hm (Hb n En)) as Hj.
  destruct (IH ab (join m n) Hj (exact_round_trip _ _ Hj Hr) E) as (ns & Hns & Ht).
  exists (n :: ns). split_and!; [by constructor|]. intros _. cbn.
  destruct forks; [|by apply Ht]. inversion Hns; subst. cbn in *. by simplify_eq.
Qed.

Lemma parsed_elements (forks forks' : list bytes) (ns ns' : list (gmap string (Lww V))) x :
  Forall2 (fun b n => from_slice b = Ok n) forks ns →
  Forall2 (fun b n => from_slice b = Ok n) forks' ns' →
  (∀ b, b ∈ forks → b ∈ forks') → x ∈ ns → x ∈ ns'.
Proof.
  intros H1 H2 Hin (i & Hi)%list_elem_of_lookup.
  destruct (Forall2_lookup_r _ _ _ _ _ H1 Hi) as (b & Hb & Eb).
  apply list_elem_of_lookup_2, Hin, list_elem_of_lookup in Hb as (j & Hj).
  destruct (Forall2_lookup_l _ _ _ _ _ H2 Hj) as (y & Hy & Ey).
  assert (x = y) as -> by congruence. by eapply list_elem_of_lookup_2.
Qed.
(** Two reconciliations of the same set of forks give the same bytes. *)
Lemma merge_all_same (a b : bytes) (la lb : list bytes) (x y : bytes) :
  (∀ f, f ∈ a :: la ↔ f ∈ b :: lb) → la ≠ [] → lb ≠ [] → Forall exact_bytes (a :: la) →
  merge_all a la = Ok x → merge_all b lb = Ok y → x = y.
Proof.
  intros Hsame Hla Hlb Hex Hx Hy.
  assert (Forall exact_bytes (b :: lb)) as Hex'.
  { rewrite Forall_forall in *. intros f Hf. by apply Hex, Hsame. }
  apply Forall_cons in Hex as [Ea Fa], Hex' as [Eb Fb].
  assert (∀ c l z, l ≠ [] → merge_all c l = Ok z → ∃ m, from_slice c = Ok m) as Hparse.
  { intros c [|d l] z Hl E; [done|]. cbn in E. apply bind_Ok in E as (cd & Hcd & _).
    apply merge_Ok in Hcd as (_ & _ & m & _ & Hm & _). eauto. }
  destruct (Hparse a la x Hla Hx) as [m Hm]. destruct (Hparse b lb y Hlb Hy) as [n Hn].
  destruct (merge_all_join la a m x Fa (Ea m Hm) Hm Hx) as (ms & Hms & Ex).
  destruct (merge_all_join lb b n y Fb (Eb n Hn) Hn Hy) as (ns & Hns & Ey).
  specialize (Ex Hla). specialize (Ey Hlb).
  assert (foldl join m ms = foldl join n ns) as E; [|congruence].
  apply foldl_same_elements; [apply join_comm|apply join_assoc|apply join_idem|].
  intros z. split.
  - apply (parsed_elements (a :: la) (b :: lb)); [by constructor..|naive_solver].
  - apply (parsed_elements (b :: lb) (a :: la)); [by constructor..|naive_solver].
Qed.
End convergence.

(** ** Properties *)

(** Convergence.  Two replicas that reconcile the same set of forks, in any
    order, any number of times and from any starting fork, end with the same
    bytes, as long as neither reconciliation is refused and the values of the forks
    are exact. *)
Theorem lww_converges (V : Type) (T : ValueText V) (I : ValueTextInj V)
    (J : SerdeJson (gmap string (Lww V))) (exact : V → Prop) (R : ExactRoundTrip exact)
    (a b : bytes) (la lb : list bytes) (x y : bytes)
    (Hsame : ∀ f, f ∈ a :: la ↔ f ∈ b :: lb) (Hla : la ≠ []) (Hlb : lb ≠ [])
    (Hexact : Forall (exact_bytes exact) (a :: la))
    (Hx : merge_all a la = Ok x) (Hy : merge_all b lb = Ok y) :
  x = y.
Proof. by eapply (merge_all_same exact a b la lb). Qed.

(** A merge is the union of the forks' keys with the greater register per
    key: every merged register is one of the two forks' registers for its key
    and is at least both in the order [(ts, serialised value)], and no key is
    lost. *)
Theorem lww_merge_keeps_latest (V : Type) (T : ValueText V) (I : ValueTextInj V)
    (J : SerdeJson (gmap string (Lww V))) (R : SerdeRoundTrip (gmap string (Lww V)))
    (a b r : bytes) (m n : gmap string (Lww V))
    (Ha : from_slice a = Ok m) (Hb : from_slice b = Ok n) (Hr : merge a b = Ok r) :
  ∃ o, from_slice r = Ok o
    ∧ (∀ k w, o !! k = Some w → m !! k = Some w ∨ n !! k = Some w)
    ∧ (∀ k v, m !! k = Some v ∨ n !! k = Some v → ∃ w, o !! k = Some w ∧ lww_le v w).
Proof.
  apply merge_Ok in Hr as (_ & _ & m' & n' & Em & En & Hr).
  assert (m' = m) as -> by congruence. assert (n' = n) as -> by congruence.
  exists (join m n). split_and!; [exact (from_slice_to_vec _ _ Hr)| |].
  - intros k w. rewrite lookup_join. destruct (m !! k) as [v1|], (n !! k) as [v2|]; intros [= <-];
      auto. destruct (pick_max v1 v2) as (_ & _ & [->| ->]); auto.
  - intros k v [Hv|Hv]; rewrite lookup_join, Hv.
    + destruct (n !! k) as [v2|]; eexists; (split; [done|]); [apply pick_max|apply lww_le_refl].
    + destruct (m !! k) as [v1|]; eexists; (split; [done|]); [apply pick_max|apply lww_le_refl].
Qed.

(** Merging a fork with itself re-serialises it: the result is the fork's
    canonical form, which is then a fixed point. *)
Lemma lww_merge_normalises (V : Type) (T : ValueText V) (I : ValueTextInj V)
    (J : SerdeJson (gmap string (Lww V))) (R : SerdeRoundTrip (gmap string (Lww V)))
    (a c : bytes) (m : gmap string (Lww V))
    (Ha : from_slice a = Ok m) (Hc : to_vec m = Ok c)
    (Hla : blen a ≤ MAX_LWW_STATE_BYTES) (Hlc : blen c ≤ MAX_LWW_STATE_BYTES) :
  merge a a = Ok c ∧ merge c c = Ok c.
Proof.
  split; apply merge_Ok; (split_and!; [done..|]).
  - exists m, m. by rewrite join_idem.
  - exists m, m. rewrite join_idem. pose proof (from_slice_to_vec _ _ Hc). done.
Qed.

(** ** A concrete lattice: string values *)

Definition string_text : ValueText string := id.
Lemma string_text_inj : @ValueTextInj string string_text.
Proof. intros v w E. exact E. Qed.

#[export] Instance Lww_eq_dec {V} `{!EqDecision V} : EqDecision (Lww V).
Proof. solve_decision. Defined.

#[export] Instance Lww_countable {V} `{Countable V} : Countable (Lww V).
Proof.
  refine (inj_countable' (fun r => (lww_v r, lww_ts r)) (fun '(v, t) => mkLww v t) _).
  by intros [].
Defined.

Definition string_map_serde : SerdeJson (gmap string (Lww string)) := countable_serde _.

Definition fork (k v : string) (ts : N) : bytes :=
  match @to_vec _ string_map_serde {[ k := mkLww v ts ]} with Ok b => b | Err _ => [] end.

Lemma fork_parses k v ts : @from_slice _ string_map_serde (fork k v ts) = Ok {[ k := mkLww v ts ]}.
Proof. by apply (countable_serde_roundtrip (gmap string (Lww string))). Qed.

Lemma lww_merge_keeps_latest_witness :
  let m : gmap string (Lww string) := {[ "k" := mkLww "v" 1 ]} in
  let n : gmap string (Lww string) := {[ "k" := mkLww "w" 2 ]} in
  ∃ r o, @merge _ string_text string_map_serde (fork "k" "v" 1) (fork "k" "w" 2) = Ok r
    ∧ @from_slice _ string_map_serde r = Ok o
    ∧ ∃ w, o !! "k" = Some w ∧ @lww_le _ string_text (mkLww "w" 2) w.
Proof.
  intros m n.
  destruct (@merge _ string_text string_map_serde (fork "k" "v" 1) (fork "k" "w" 2)) as [r|e] eqn:E.
  - destruct (@lww_merge_keeps_latest string string_text string_text_inj string_map_serde
      (countable_serde_roundtrip _) (fork "k" "v" 1) (fork "k" "w" 2) r m n
      (fork_parses _ _ _) (fork_parses _ _ _) E) as (o & Ho & _ & Hlast).
    exists r, o. split; [reflexivity|]. split; [exact Ho|].
    apply (Hlast "k" (mkLww "w" 2)). right. reflexivity.
  - vm_compute in E. discriminate E.
Defined.

(** Strings come back as they are. *)
Definition any_string (_ : string) : Prop := True.
Lemma string_round_trip : @ExactRoundTrip string string_map_serde any_string.
Proof. intros m b _. apply (countable_serde_roundtrip (gmap string (Lww string))). Qed.
Lemma string_exact forks : Forall (@exact_bytes string string_map_serde any_string) forks.
Proof. apply Forall_forall. intros b _ m _ k r _. exact I. Qed.

Lemma lww_converges_witness :
  ∃ x, @merge_all _ string_text string_map_serde (fork "k" "v" 1) [fork "k" "w" 1] = Ok x
    ∧ @merge_all _ string_text string_map_serde (fork "k" "w" 1)
        [fork "k" "v" 1; fork "k" "w" 1] = Ok x.
Proof.
  destruct (@merge_all _ string_text string_map_serde (fork "k" "v" 1) [fork "k" "w" 1])
    as [x|e] eqn:Ex; [|vm_compute in Ex; discriminate Ex].
  destruct (@merge_all _ string_text string_map_serde (fork "k" "w" 1)
        [fork "k" "v" 1; fork "k" "w" 1]) as [y|e] eqn:Ey; [|vm_compute in Ey; discriminate Ey].
  exists x. split; [reflexivity|]. f_equal. symmetry.
  apply (@lww_converges string string_text string_text_inj string_map_serde any_string
    string_round_trip (fork "k" "v" 1) (fork "k" "w" 1) [fork "k" "w" 1]
    [fork "k" "v" 1; fork "k" "w" 1] x y); [|done|done|apply string_exact|exact Ex|exact Ey].
  intros f. rewrite !elem_of_cons, elem_of_nil. tauto.
Defined.
