(* ===== verification/FnCrypto.v ===== *)
(** * Canonical JSON, hex and signed records

    [foundation/gawdfn/src/crypto.rs], and the hex codec of
    [cosmos/sigil/src/crypto.rs], which is the same code.

    JSON values are modelled with objects as entry lists (a number is its
    serialised text).  What the source takes from other crates are classes:
    [ToValue] is a type's [Serialize], [JsonText] is [serde_json::to_vec] of a
    value, [Sha256] the hasher and [Ed25519] the signature check. *)

From stdpp Require Import sorting.
From stdpp Require Import countable.
From S2P Require Import Prelude Serde GxShape GxHash.

(** ** Errors *)

Inductive ContractError : Type :=
  | Invalid (message : string)
  | Limit (message : string)
  | Encoding (message : string)
  | Crypto (message : string).

#[export] Instance ContractError_eq_dec : EqDecision ContractError.
Proof. solve_decision. Defined.

Definition ContractError_to_string (e : ContractError) : string :=
  match e with
  | Invalid m => "invalid contract: " +:+ m
  | Limit m => "contract limit exceeded: " +:+ m
  | Encoding m => "contract encoding error: " +:+ m
  | Crypto m => "contract cryptography error: " +:+ m
  end.

Definition MAX_JOB_MESSAGE_BYTES : N := 1024 * 1024.
Definition MAX_SIGNATURE_BYTES : N := 512.
Definition MAX_PUBLIC_KEY_BYTES : N := 512.

(** ** Hex *)

(** [HEX[nibble] as char]. *)
Definition hex_digit (n : N) : Ascii.ascii :=
  Ascii.ascii_of_N (if n <? 10 then 48 + n else 87 + n).

Fixpoint hex_encode (b : bytes) : string :=
  match b with
  | [] => ""
  | x :: b =>
      String (hex_digit (N.shiftr (Byte.to_N x) 4))
        (String (hex_digit (N.land (Byte.to_N x) 15)) (hex_encode b))
  end.

Definition hex_nibble (value : N) : option N :=
  if in_range 48 57 value then Some (value - 48)
  else if in_range 97 102 value then Some (value - 97 + 10)
  else if in_range 65 70 value then Some (value - 65 + 10)
  else None.

(** [chunks_exact(2)] of a string of even length. *)
Fixpoint hex_decode (s : string) : option bytes :=
  match s with
  | EmptyString => Some []
  | String _ EmptyString => None
  | String a (String b s) =>
      hi ← hex_nibble (Ascii.N_of_ascii a);
      lo ← hex_nibble (Ascii.N_of_ascii b);
      rest ← hex_decode s;
      Some (byte_of_N (N.lor (N.shiftl hi 4) lo) :: rest)
  end.

(** ** JSON values *)

#[warnings="-register-all"]
Inductive json : Type :=
  | JNull
  | JBool (b : bool)
  | JNumber (text : string)
  | JString (s : string)
  | JArray (values : list json)
  | JObject (entries : list (string * json)).

Definition key_le (p q : string * json) : Prop := str_leb p.1 q.1 = true.

#[export] Instance key_le_dec : RelDecision key_le.
Proof. unfold key_le. intros p q. apply _. Defined.

(** The entries are sorted by key; the values are canonicalised on the way. *)
Fixpoint sort_json (value : json) : json :=
  match value with
  | JArray values => JArray (map sort_json values)
  | JObject values =>
      JObject (merge_sort key_le (map (fun '(k, v) => (k, sort_json v)) values))
  | other => other
  end.

Class ToValue (T : Type) : Type := to_value : T → result string json.
Class JsonText : Type := json_to_vec : json → result string bytes.
Class Ed25519 : Type := ed25519_verify : bytes → bytes → bytes → bool.

(** ** Signed records *)

Record AuthoritySigner : Type := mkAuthoritySigner {
  as_public_key : string;
  as_sign : bytes → result ContractError string
}.

Record SignedRecordV1 (T : Type) : Type := mkSignedRecordV1 {
  sr_schema : string;
  sr_signer : string;
  sr_payload : T;
  sr_signature : string
}.
Arguments mkSignedRecordV1 {T} _ _ _ _.
Arguments sr_schema {T} _.
Arguments sr_signer {T} _.
Arguments sr_payload {T} _.
Arguments sr_signature {T} _.

#[export] Instance SignedRecordV1_eq_dec {T} `{!EqDecision T} : EqDecision (SignedRecordV1 T).
Proof. solve_decision. Defined.

(** [RecordPayload { schema, signer, payload }]. *)
Record RecordPayload (T : Type) : Type := mkRecordPayload {
  rp_schema : string;
  rp_signer : string;
  rp_payload : T
}.
Arguments mkRecordPayload {T} _ _ _.
Arguments rp_schema {T} _.
Arguments rp_signer {T} _.
Arguments rp_payload {T} _.

(** A struct serialises to the object of its fields. *)
#[export] Instance RecordPayload_to_value {T} `{!ToValue T} : ToValue (RecordPayload T) :=
  fun r =>
    p ← to_value (rp_payload r);
    Ok (JObject [("schema", JString (rp_schema r)); ("signer", JString (rp_signer r));
                 ("payload", p)]).

#[export] Instance SignedRecordV1_to_value {T} `{!ToValue T} : ToValue (SignedRecordV1 T) :=
  fun r =>
    p ← to_value (sr_payload r);
    Ok (JObject [("schema", JString (sr_schema r)); ("signer", JString (sr_signer r));
                 ("payload", p); ("signature", JString (sr_signature r))]).

Section crypto.
  Context `{!Sha256} `{!JsonText} `{!Ed25519}.

Definition canonical_json_bytes {T} `{!ToValue T} (value : T) : result ContractError bytes :=
  v ← map_err (fun e => Encoding ("cannot encode canonical JSON: " +:+ e)) (to_value value);
  map_err (fun e => Encoding ("cannot encode canonical JSON: " +:+ e)) (json_to_vec (sort_json v)).

Definition sha256_digest (b : bytes) : string := "sha256:" +:+ hash_bytes b.

Definition canonical_hash {T} `{!ToValue T} (value : T) : result ContractError string :=
  b ← canonical_json_bytes value; Ok (sha256_digest b).

Definition signed_record_limit (len : N) : ContractError :=
  Limit ("signed record is " +:+ dec len +:+ " bytes, exceeds " +:+ dec MAX_JOB_MESSAGE_BYTES).

Definition SignedRecordV1_sign {T} `{!ToValue T} (schema : string) (payload : T)
    (signer : AuthoritySigner) : result ContractError (SignedRecordV1 T) :=
  let signer_id := as_public_key signer in
  b ← canonical_json_bytes (mkRecordPayload schema signer_id payload);
  if decide (MAX_JOB_MESSAGE_BYTES < blen b) then Err (signed_record_limit (blen b))
  else
    signature ← as_sign signer b;
    Ok (mkSignedRecordV1 schema signer_id payload signature).

Definition record_signing_payload {T} `{!ToValue T} (r : SignedRecordV1 T) :
    result ContractError bytes :=
  canonical_json_bytes (mkRecordPayload (sr_schema r) (sr_signer r) (sr_payload r)).

Definition SignedRecordV1_verify {T} `{!ToValue T} (r : SignedRecordV1 T) : bool :=
  if decide (MAX_PUBLIC_KEY_BYTES < slen (sr_signer r)
             ∨ MAX_SIGNATURE_BYTES < slen (sr_signature r)) then false
  else
    match hex_decode (sr_signer r) with
    | None => false
    | Some public_key =>
        match hex_decode (sr_signature r) with
        | None => false
        | Some signature =>
            match record_signing_payload r with
            | Err _ => false
            | Ok payload => ed25519_verify public_key payload signature
            end
        end
    end.

Definition encoded_len {T} `{!ToValue T} (r : SignedRecordV1 T) : result ContractError N :=
  b ← canonical_json_bytes r; Ok (blen b).

(** [serde_json::from_slice] is the argument [decode]. *)
Definition SignedRecordV1_parse {T} (decode : bytes → result string (SignedRecordV1 T))
    (b : bytes) : result ContractError (SignedRecordV1 T) :=
  if decide (MAX_JOB_MESSAGE_BYTES < blen b) then Err (signed_record_limit (blen b))
  else map_err (fun e => Encoding ("invalid signed record JSON: " +:+ e)) (decode b).
End crypto.

(** ** Hex round trip *)

Lemma hex_nibble_digit n : n < 16 → hex_nibble (Ascii.N_of_ascii (hex_digit n)) = Some n.
Proof.
  intros Hn. assert (n = 0 ∨ n = 1 ∨ n = 2 ∨ n = 3 ∨ n = 4 ∨ n = 5 ∨ n = 6 ∨ n = 7 ∨ n = 8
    ∨ n = 9 ∨ n = 10 ∨ n = 11 ∨ n = 12 ∨ n = 13 ∨ n = 14 ∨ n = 15) as E by lia.
  naive_solver.
Qed.

Lemma nibbles_join (n : N) : N.lor (N.shiftl (N.shiftr n 4) 4) (N.land n 15) = n.
Proof.
  apply N.bits_inj. intros k. rewrite N.lor_spec, N.land_spec.
  change 15 with (N.ones 4). destruct (N.lt_ge_cases k 4) as [Hk|Hk].
  - rewrite N.shiftl_spec_low by done. by rewrite N.ones_spec_low, andb_true_r.
  - rewrite N.shiftl_spec_high by lia. rewrite N.shiftr_spec by lia.
    rewrite N.ones_spec_high, andb_false_r, orb_false_r by done. f_equal. lia.
Qed.

Lemma hex_roundtrip (b : bytes) : hex_decode (hex_encode b) = Some b.
Proof.
  induction b as [|x b IH]; [done|]. cbn [hex_encode hex_decode].
  pose proof (Byte.to_N_bounded x) as Hx.
  rewrite !hex_nibble_digit.
  - cbn. rewrite IH. cbn. by rewrite nibbles_join, byte_of_to_N.
  - rewrite N.shiftr_div_pow2. change (2 ^ 4) with 16.
    apply N.Div0.div_lt_upper_bound. lia.
  - change 15 with (N.ones 4). rewrite N.land_ones. by apply N.mod_lt.
Qed.

(** ** Key order does not matter *)

(** Induction with the hypothesis for every element and every entry. *)
Lemma json_nested_ind (P : json → Prop)
    (Hnull : P JNull) (Hbool : ∀ b, P (JBool b)) (Hnumber : ∀ t, P (JNumber t))
    (Hstring : ∀ s, P (JString s))
    (Harray : ∀ l, Forall P l → P (JArray l))
    (Hobject : ∀ l, Forall (fun e => P e.2) l → P (JObject l)) :
  ∀ v, P v.
Proof.
  fix IH 1. intros [|b|t|s|l|l]; [done|done|done|done| |].
  - apply Harray. induction l as [|v l IHl]; constructor; [apply IH|apply IHl].
  - apply Hobject. induction l as [|[k v] l IHl]; constructor; [apply IH|apply IHl].
Qed.

(** Equal up to the order of the entries of every object. *)
#[warnings="-register-all"]
Inductive json_equiv : json → json → Prop :=
  | equiv_refl v : json_equiv v v
  | equiv_array l k : Forall2 json_equiv l k → json_equiv (JArray l) (JArray k)
  | equiv_object l m k :
      l ≡ₚ m → Forall2 (fun p q => p.1 = q.1 ∧ json_equiv p.2 q.2) m k →
      json_equiv (JObject l) (JObject k).

(** No object has two entries with the same key, as in a [serde_json::Map]. *)
#[warnings="-register-all"]
Inductive json_wf : json → Prop :=
  | wf_null : json_wf JNull
  | wf_bool b : json_wf (JBool b)
  | wf_number t : json_wf (JNumber t)
  | wf_string s : json_wf (JString s)
  | wf_array l : Forall json_wf l → json_wf (JArray l)
  | wf_object l :
      NoDup l.*1 → Forall (fun e => json_wf e.2) l → json_wf (JObject l).

Definition sort_entry (e : string * json) : string * json := (e.1, sort_json e.2).

Lemma sort_json_object l :
  sort_json (JObject l) = JObject (merge_sort key_le (map sort_entry l)).
Proof. cbn. do 2 f_equal. apply map_ext. by intros []. Qed.

#[export] Instance key_le_total : Total key_le.
Proof. intros p q. apply str_leb_total. Qed.
#[export] Instance key_le_trans : Transitive key_le.
Proof. intros p q r. apply str_leb_trans. Qed.

(** Sorting by distinct keys forgets the order of the entries. *)
Lemma sorted_unique (l k : list (string * json)) :
  NoDup l.*1 → l ≡ₚ k → StronglySorted key_le l → StronglySorted key_le k → l = k.
Proof.
  revert k. induction l as [|p l IH]; intros k Hnd Hp Hl Hk.
  { by apply Permutation_nil_l in Hp. }
  destruct k as [|q k]; [by apply Permutation_nil_r in Hp|].
  apply StronglySorted_inv in Hl as [Hl Hpl], Hk as [Hk Hqk].
  assert (p = q) as ->.
  { assert (q ∈ p :: l) as [->|Hq]%elem_of_cons by (rewrite Hp; apply list_elem_of_here); [done|].
    assert (p ∈ q :: k) as [->|Hpk]%elem_of_cons by (rewrite <-Hp; apply list_elem_of_here); [done|].
    rewrite Forall_forall in Hpl, Hqk. specialize (Hpl q Hq). specialize (Hqk p Hpk).
    cbn in Hnd. apply NoDup_cons in Hnd as [Hnd _]. destruct Hnd.
    rewrite (str_leb_antisym _ _ Hpl Hqk). by apply list_elem_of_fmap_2. }
  f_equal. apply Permutation_cons_inv in Hp. cbn in Hnd. apply NoDup_cons in Hnd as [_ Hnd].
  by apply IH.
Qed.

Lemma merge_sort_entries l k :
  NoDup l.*1 → map sort_entry l ≡ₚ map sort_entry k →
  merge_sort key_le (map sort_entry l) = merge_sort key_le (map sort_entry k).
Proof.
  intros Hnd Hp.
  assert ((map sort_entry l).*1 = l.*1) as Hkeys by (by rewrite <-list_fmap_compose).
  apply sorted_unique.
  - by rewrite merge_sort_Permutation, Hkeys.
  - by rewrite !merge_sort_Permutation.
  - apply (StronglySorted_merge_sort key_le).
  - apply (StronglySorted_merge_sort key_le).
Qed.

Lemma sort_json_equiv v w : json_wf v → json_equiv v w → sort_json v = sort_json w.
Proof.
  revert w. induction v as [|b|t|s|l IH|l IH] using json_nested_ind; intros w Hwf Heq;
    inversion Heq as [|? k Hk|? m k Hm Hk]; subst; try done.
  - cbn. f_equal. inversion Hwf as [| | | |? Hl|]; subst. clear Heq Hwf.
    induction Hk as [|x y l k Hxy Hk IHk]; [done|]. cbn.
    apply Forall_cons in IH as [IHx IH], Hl as [Hx Hl]. by rewrite (IHx y), IHk.
  - rewrite !sort_json_object. f_equal. inversion Hwf as [| | | | |? Hnd Hl]; subst.
    apply merge_sort_entries; [done|].
    assert (map sort_entry m = map sort_entry k) as <-; [|by rewrite Hm].
    rewrite Hm in IH, Hl. clear Heq Hwf Hm Hnd.
    induction Hk as [|x y m k [Hk1 Hk2] Hk IHk]; [done|]. cbn.
    apply Forall_cons in IH as [IHx IH], Hl as [Hx Hl].
    unfold sort_entry at 1 3. rewrite Hk1, (IHx y.2) by done. f_equal. by apply IHk.
Qed.

Lemma equiv_of_sort_json v w : sort_json v = sort_json w → json_equiv v w.
Proof.
  revert w. induction v as [|b|t|s|l IH|l IH] using json_nested_ind; intros w E;
    destruct w as [|b'|t'|s'|k|k]; try done; try apply equiv_refl;
    try (cbn in E; injection E as ->; apply equiv_refl).
  - injection E as E. constructor. revert k E. induction l as [|x l IHl]; intros [|y k] E; try done; constructor.
    + apply Forall_cons in IH as [IHx _]. cbn in E. simplify_eq. by apply IHx.
    + apply Forall_cons in IH as [_ IH]. cbn in E. simplify_eq. by apply IHl.
  - rewrite !sort_json_object in E. injection E as E.
    assert (map sort_entry l ≡ₚ map sort_entry k) as Hp.
    { by rewrite <-(merge_sort_Permutation key_le (map sort_entry l)), E, merge_sort_Permutation. }
    symmetry in Hp. apply Permutation_map_inv in Hp as (m & Hm & Hlm).
    apply (equiv_object l m k); [done|]. rewrite Hlm in IH. clear -IH Hm.
    revert k Hm. induction m as [|x m IHm]; intros [|y k] Hm; try done; constructor.
    + apply Forall_cons in IH as [IHx _]. unfold sort_entry in Hm. cbn in Hm. simplify_eq.
      split; [done|]. by apply IHx.
    + apply Forall_cons in IH as [_ IH]. cbn in Hm. simplify_eq. by apply IHm.
Qed.

(** ** Laws of the external mechanisms *)

(** Serialising a JSON value succeeds, and its text determines it. *)
Class JsonTextLaws `{!JsonText} : Prop := {
  json_to_vec_total : ∀ v, ∃ b, json_to_vec v = Ok b;
  json_to_vec_inj : ∀ v w b, json_to_vec v = Ok b → json_to_vec w = Ok b → v = w
}.

(** [ring]'s key pairs: the public key and signature of a seed, and that a
    signature verifies under its own key. *)
Class Ed25519Keys `{!Ed25519} : Type := {
  ed_public : bytes → bytes;
  ed_sign : bytes → bytes → bytes;
  ed_public_length : ∀ seed, length (ed_public seed) = 32%nat;
  ed_sign_length : ∀ seed m, length (ed_sign seed m) = 64%nat;
  ed_sign_verifies : ∀ seed m, ed25519_verify (ed_public seed) m (ed_sign seed m) = true
}.

Definition Ed25519SeedSigner `{!Ed25519} `{!Ed25519Keys} (seed : bytes) : AuthoritySigner :=
  mkAuthoritySigner (hex_encode (ed_public seed)) (fun m => Ok (hex_encode (ed_sign seed m))).

Lemma slen_hex_encode b : slen (hex_encode b) = 2 * blen b.
Proof.
  unfold slen, blen. induction b as [|x b IH]; [done|]. cbn [hex_encode String.length length]. lia.
Qed.

Section laws.
  Context `{!Sha256} `{!JsonText} `{!Ed25519} `{!JsonTextLaws}.

Lemma canonical_json_bytes_Ok {T} `{!ToValue T} (a : T) x :
  to_value a = Ok x → ∃ b, canonical_json_bytes a = Ok b ∧ json_to_vec (sort_json x) = Ok b.
Proof.
  intros Hx. destruct (json_to_vec_total (sort_json x)) as [b Hb]. exists b.
  unfold canonical_json_bytes. rewrite Hx. cbn. by rewrite Hb.
Qed.

Lemma canonical_json_bytes_sort {T U} `{!ToValue T} `{!ToValue U} (a : T) (c : U) x y :
  to_value a = Ok x → to_value c = Ok y →
  canonical_json_bytes a = canonical_json_bytes c ↔ sort_json x = sort_json y.
Proof.
  intros Hx Hy. destruct (canonical_json_bytes_Ok a x Hx) as (b & -> & Hb).
  destruct (canonical_json_bytes_Ok c y Hy) as (b' & -> & Hb'). split.
  - intros [= <-]. by eapply json_to_vec_inj.
  - intros E. rewrite E in Hb. congruence.
Qed.

(** The canonical object of a record's signed fields. *)
Lemma sort_record_payload schema signer p :
  sort_json (JObject [("schema", JString schema); ("signer", JString signer); ("payload", p)])
  = JObject [("payload", sort_json p); ("schema", JString schema); ("signer", JString signer)].
Proof. reflexivity. Qed.
End laws.

(** What a seed signer signs verifies; the record holds what was signed. *)
Lemma seed_signer_verifies `{!JsonText} `{!Ed25519} `{!Ed25519Keys} {T} `{!ToValue T}
    schema (payload : T) seed r :
  SignedRecordV1_sign schema payload (Ed25519SeedSigner seed) = Ok r →
  SignedRecordV1_verify r = true ∧ sr_schema r = schema ∧ sr_payload r = payload
  ∧ sr_signer r = as_public_key (Ed25519SeedSigner seed).
Proof.
  unfold SignedRecordV1_sign. intros Hsign. split_cases. split; [|done].
  match goal with H : canonical_json_bytes _ = Ok ?c |- _ => rename H into Hb end.
  unfold SignedRecordV1_verify. cbn [sr_signer sr_signature].
  rewrite !slen_hex_encode. unfold blen. rewrite ed_public_length, ed_sign_length.
  rewrite decide_False by (unfold MAX_PUBLIC_KEY_BYTES, MAX_SIGNATURE_BYTES; lia).
  rewrite !hex_roundtrip. unfold record_signing_payload. cbn [sr_schema sr_signer sr_payload].
  rewrite Hb. apply ed_sign_verifies.
Qed.

(** ** A concrete text form *)

Fixpoint json_to_tree (v : json) : gen_tree string :=
  match v with
  | JNull => GenNode 0 []
  | JBool b => GenNode (if b then 1 else 2) []
  | JNumber t => GenNode 3 [GenLeaf t]
  | JString s => GenNode 4 [GenLeaf s]
  | JArray l => GenNode 5 (map json_to_tree l)
  | JObject l => GenNode 6 (map (fun '(k, v) => GenNode 7 [GenLeaf k; json_to_tree v]) l)
  end.

Lemma json_to_tree_inj v w : json_to_tree v = json_to_tree w → v = w.
Proof.
  revert w. induction v as [|b|t|s|l IH|l IH] using json_nested_ind; intros w E;
    destruct w as [|b'|t'|s'|k|k]; cbn in E;
    try (destruct b; discriminate E); try (destruct b'; discriminate E); try done;
    try (by destruct b, b'); try by injection E as ->.
  - injection E as E. f_equal. revert k E. induction IH as [|x l Hx IH IHl]; intros [|y k] E;
      try done. cbn in E. injection E as E1 E2. f_equal; [by apply Hx|by apply IHl].
  - injection E as E. f_equal. revert k E. induction IH as [|[j x] l Hx IH IHl];
      intros [|[i y] k] E; try done. cbn in E. injection E as -> E1 E2.
    f_equal; [f_equal; by apply Hx|by apply IHl].
Qed.

(** A self-delimiting text: every character and every element is announced by a
    [01] byte, and a [00] byte closes a string, an array and an object. *)
Fixpoint stuff (s : string) : bytes :=
  match s with
  | EmptyString => [Byte.x00]
  | String c s => Byte.x01 :: Ascii.byte_of_ascii c :: stuff s
  end.

Fixpoint stuffed (v : json) : bytes :=
  match v with
  | JNull => [Byte.x02]
  | JBool b => [if b then Byte.x03 else Byte.x04]
  | JNumber t => Byte.x05 :: stuff t
  | JString s => Byte.x06 :: stuff s
  | JArray l => Byte.x07 :: flat_map (fun v => Byte.x01 :: stuffed v) l ++ [Byte.x00]
  | JObject l =>
      Byte.x08 :: flat_map (fun '(k, v) => Byte.x01 :: stuff k ++ stuffed v) l ++ [Byte.x00]
  end.

Lemma byte_of_ascii_inj a b : Ascii.byte_of_ascii a = Ascii.byte_of_ascii b → a = b.
Proof.
  intros E. rewrite <-(Ascii.ascii_of_byte_of_ascii a), <-(Ascii.ascii_of_byte_of_ascii b).
  by f_equal.
Qed.

Lemma stuff_prefix_free s t u v : stuff s ++ u = stuff t ++ v → s = t ∧ u = v.
Proof.
  revert t. induction s as [|a s IH]; intros [|b t] E; cbn in E; try discriminate E.
  - by injection E.
  - injection E as Hc E. apply byte_of_ascii_inj in Hc as ->.
    by destruct (IH t E) as [-> ->].
Qed.

Lemma stuffed_prefix_free v w r r' : stuffed v ++ r = stuffed w ++ r' → v = w ∧ r = r'.
Proof.
  revert w r r'. induction v as [|b|t|s|l IH|l IH] using json_nested_ind;
    intros w r r' E; destruct w as [|b'|t'|s'|k|k]; cbn in E;
    try (destruct b; discriminate E); try (destruct b'; discriminate E); try discriminate E.
  - by injection E.
  - by destruct b, b'; simplify_eq.
  - injection E as E. by apply stuff_prefix_free in E as [-> ->].
  - injection E as E. by apply stuff_prefix_free in E as [-> ->].
  - injection E as E. cut (l = k ∧ r = r'); [by intros [-> ->]|].
    revert k E. induction IH as [|x l Hx IH IHl]; intros [|y k] E; cbn in E; simplify_eq; [done|].
    rewrite <-!app_assoc in E. apply Hx in E as [-> E].
    rewrite !app_assoc in E. by destruct (IHl k E) as [-> ->].
  - injection E as E. cut (l = k ∧ r = r'); [by intros [-> ->]|].
    revert k E. induction IH as [|[j x] l Hx IH IHl]; intros [|[i y] k] E; cbn in E; simplify_eq;
      [done|].
    rewrite <-!app_assoc in E. apply stuff_prefix_free in E as [-> E].
    destruct (Hx _ _ _ E) as [<- E'].
    rewrite !app_assoc in E'. by destruct (IHl k E') as [-> ->].
Qed.

Definition stuffed_text : JsonText := fun v => Ok (stuffed v).

Lemma stuffed_text_laws : @JsonTextLaws stuffed_text.
Proof.
  split; [by eexists|]. intros v w b [= <-] [= E].
  destruct (stuffed_prefix_free w v [] []) as [-> _]; [by rewrite E|done].
Qed.

(** A toy signature scheme: the signature is the first 64 bytes of key and
    message, padded. *)
Definition toy_sign (pk m : bytes) : bytes := resize 64 Byte.x00 (pk ++ m).
Definition toy_ed25519 : Ed25519 := fun pk m sig => bool_decide (sig = toy_sign pk m).
Definition toy_keys : @Ed25519Keys toy_ed25519.
Proof.
  refine (@Build_Ed25519Keys toy_ed25519 (fun seed => resize 32 Byte.x00 seed)
    (fun seed m => toy_sign (resize 32 Byte.x00 seed) m) _ _ _).
  - intros seed. apply length_resize.
  - intros seed m. apply length_resize.
  - intros seed m. unfold ed25519_verify, toy_ed25519. by apply bool_decide_eq_true.
Defined.

#[export] Instance json_to_value : ToValue json := fun v => Ok v.

(** ** Properties *)

(** Canonical JSON is canonical.  Two values have the same canonical bytes,
    and so the same canonical hash, exactly when they are the same JSON up to the
    order of object keys at every depth. *)
Theorem canonical_json_key_order (X : JsonText) (L : JsonTextLaws) (S : Sha256)
    (T : Type) (TV : ToValue T) (a b : T) (x y : json)
    (Hx : to_value a = Ok x) (Hy : to_value b = Ok y) (Hwf : json_wf x) :
  (canonical_json_bytes a = canonical_json_bytes b ↔ json_equiv x y)
  ∧ (json_equiv x y → canonical_hash a = canonical_hash b).
Proof.
  assert (canonical_json_bytes a = canonical_json_bytes b ↔ json_equiv x y) as E.
  { rewrite (canonical_json_bytes_sort a b x y Hx Hy). split.
    - apply equiv_of_sort_json.
    - by apply sort_json_equiv. }
  split; [exact E|]. intros H. unfold canonical_hash. by rewrite (proj2 E H).
Qed.

Definition sample_json : json :=
  JObject [("b", JNumber "1"); ("a", JArray [JObject [("y", JNull); ("x", JBool true)]])].
Definition sample_json_reordered : json :=
  JObject [("a", JArray [JObject [("x", JBool true); ("y", JNull)]]); ("b", JNumber "1")].

Lemma canonical_json_key_order_witness :
  @canonical_json_bytes stuffed_text json json_to_value sample_json
  = @canonical_json_bytes stuffed_text json json_to_value sample_json_reordered.
Proof.
  apply (@canonical_json_key_order stuffed_text stuffed_text_laws zero_sha json json_to_value
    sample_json sample_json_reordered sample_json sample_json_reordered eq_refl eq_refl).
  - unfold sample_json. apply wf_object; cbn.
    + apply (bool_decide_unpack _). vm_compute. exact I.
    + repeat constructor; cbn; apply (bool_decide_unpack _); vm_compute; exact I.
  - apply equiv_of_sort_json. vm_compute. reflexivity.
Defined.

(** A record signed with a seed key verifies, and what it commits to is the
    schema, the signer and the payload: two records with the same signed bytes
    agree on the schema and the signer, and their payloads are the same JSON up
    to key order, so a signature made for one schema is never valid for
    another. *)
Theorem signed_record_commits (X : JsonText) (L : JsonTextLaws) (E : Ed25519)
    (K : Ed25519Keys) (T : Type) (TV : ToValue T) (schema : string) (payload : T)
    (seed : bytes) (r r' : SignedRecordV1 T) (x x' : json) (b : bytes)
    (Hsign : SignedRecordV1_sign schema payload (Ed25519SeedSigner seed) = Ok r)
    (Hx : to_value (sr_payload r) = Ok x) (Hx' : to_value (sr_payload r') = Ok x')
    (Hb : record_signing_payload r = Ok b) :
  SignedRecordV1_verify r = true
  ∧ sr_schema r = schema ∧ sr_payload r = payload
  ∧ (record_signing_payload r' = Ok b →
     sr_schema r' = sr_schema r ∧ sr_signer r' = sr_signer r ∧ json_equiv x' x).
Proof.
  destruct (seed_signer_verifies _ _ _ _ Hsign) as (Hv & Hs & Hp & _).
  split; [done|]. split; [done|]. split; [done|]. intros Hb'. rewrite <-Hb in Hb'.
  unfold record_signing_payload in Hb'. eapply canonical_json_bytes_sort in Hb'.
  2, 3: unfold to_value, RecordPayload_to_value; cbn; by rewrite ?Hx, ?Hx'.
  rewrite !sort_record_payload in Hb'. injection Hb' as Hj Hs' Hg.
  split; [done|]. split; [done|]. by apply equiv_of_sort_json.
Qed.

Definition string_value : ToValue string := fun s => Ok (JString s).

Lemma signed_record_commits_witness :
  ∃ r, @SignedRecordV1_sign stuffed_text string string_value "s" "p"
         (@Ed25519SeedSigner toy_ed25519 toy_keys [Byte.x07]) = Ok r
    ∧ @SignedRecordV1_verify stuffed_text toy_ed25519 string string_value r = true.
Proof.
  destruct (@SignedRecordV1_sign stuffed_text string string_value "s" "p"
              (@Ed25519SeedSigner toy_ed25519 toy_keys [Byte.x07])) as [r|e] eqn:Hs.
  - exists r. split; [reflexivity|].
    destruct (@record_signing_payload stuffed_text string string_value r) as [b|e] eqn:Hb;
      [|discriminate Hb].
    apply (@signed_record_commits stuffed_text stuffed_text_laws toy_ed25519 toy_keys string
      string_value "s" "p" [Byte.x07] r r (JString (sr_payload r)) (JString (sr_payload r)) b
      Hs eq_refl eq_refl Hb).
  - vm_compute in Hs. discriminate Hs.
Defined.
