(* ===== verification/FnTypes.v ===== *)
(** * Identities and values of the function contract

    [foundation/gawdfn/src/types.rs] and [consts.rs]: identifiers, selectors,
    value references, key grants and their structural validators, and the
    deterministic job and deployment identities.

    Identifiers are newtypes over [String].  A validator returns the first
    error of the source's check sequence. *)

From S2P Require Import Prelude GxShape GxHash FnCrypto.

(** ** Limits *)

Definition MAX_INLINE_SCHEMA_BYTES : N := 64 * 1024.
Definition MAX_INLINE_VALUE_BYTES : N := 64 * 1024.
Definition MAX_PROGRESS_BYTES : N := 64 * 1024.
Definition MAX_ERROR_BYTES : N := 64 * 1024.
Definition MAX_PRIVATE_READ_MESSAGE_BYTES : N := MAX_JOB_MESSAGE_BYTES - 64 * 1024.
Definition MAX_JOB_ATTEMPTS : N := 64.
Definition MAX_JOB_DELEGATES : N := 32.
Definition MAX_EVIDENCE_REFS : N := 32.
Definition MAX_RESULT_RECIPIENTS : N := 32.
Definition MAX_CUSTODY_REWRAP_ITEMS : N := 64.
Definition MAX_EVENT_PAGE_ITEMS : N := 256.
Definition MAX_ATTEMPT_OBSERVATIONS : N := 256.
Definition MAX_JOB_CONTROLS : N := 256.
Definition MAX_CAUSAL_LINKS : N := 32.
Definition MAX_ID_BYTES : N := 256.
Definition MAX_NAME_BYTES : N := 128.
Definition MAX_VERSION_BYTES : N := 128.
Definition MAX_MEDIA_TYPE_BYTES : N := 256.
Definition FN_MAX_REASON_BYTES : N := 4096.
Definition MAX_IDEMPOTENCY_KEY_BYTES : N := 256.

Definition SCHEMA_FUNCTION_DEPLOY_V1 : string := "gawd.function.deploy.v1".
Definition SCHEMA_JOB_V1 : string := "gawd.function.job.v1".
Definition SCHEMA_EXECUTE_V1 : string := "gawd.function.execute.v1".
Definition SCHEMA_HOME_V1 : string := "gawd.function.home.v1".
Definition DEPLOYMENT_ID_DOMAIN_V1 : string := "gawd.deployment.id.v1".
(** [b"gawd.job.id.v1\0"]. *)
Definition JOB_ID_DOMAIN_V1 : bytes :=
  String.list_byte_of_string "gawd.job.id.v1" ++ [Byte.x00].

(** ** Text checks *)

(** [char::is_whitespace] on the UTF-8 bytes of one, two or three byte characters. *)
Definition is_white1 (x : N) : bool := in_range 9 13 x || (x =? 32).
Definition is_white2 (x y : N) : bool := (x =? 194) && ((y =? 133) || (y =? 160)).
Definition is_white3 (x y z : N) : bool :=
  ((x =? 225) && (y =? 154) && (z =? 128))
  || ((x =? 226) && (y =? 128) && (in_range 128 138 z || (z =? 168) || (z =? 169) || (z =? 175)))
  || ((x =? 226) && (y =? 129) && (z =? 159))
  || ((x =? 227) && (y =? 128) && (z =? 128)).

(** [value.trim().is_empty()]. *)
Fixpoint is_blank (s : string) : bool :=
  match s with
  | EmptyString => true
  | String a s1 =>
      let x := Ascii.N_of_ascii a in
      if is_white1 x then is_blank s1
      else
        match s1 with
        | EmptyString => false
        | String b s2 =>
            let y := Ascii.N_of_ascii b in
            if is_white2 x y then is_blank s2
            else
              match s2 with
              | EmptyString => false
              | String c s3 => if is_white3 x y (Ascii.N_of_ascii c) then is_blank s3 else false
              end
        end
  end.

Definition validate_text (label value : string) (max_bytes : N) : result ContractError unit :=
  if is_blank value then Err (Invalid (label +:+ " must not be empty"))
  else if decide (max_bytes < slen value) then
    Err (Limit (label +:+ " is " +:+ dec (slen value) +:+ " bytes, exceeds " +:+ dec max_bytes))
  else Ok tt.

Definition validate_optional_text (label : string) (value : option string) (max_bytes : N) :
    result ContractError unit :=
  match value with Some v => validate_text label v max_bytes | None => Ok tt end.

Fixpoint strip_prefix (p s : string) : option string :=
  match p, s with
  | EmptyString, _ => Some s
  | String a p, String b s => if decide (a = b) then strip_prefix p s else None
  | String _ _, EmptyString => None
  end.

Definition lower_hex64 (s : string) : bool :=
  bool_decide (slen s = 64) && all_bytes is_lower_hex s.

Definition validate_sha256 (label value : string) : result ContractError unit :=
  match strip_prefix "sha256:" value with
  | None => Err (Invalid (label +:+ " must start with `sha256:`"))
  | Some hex =>
      if negb (lower_hex64 hex) then
        Err (Invalid (label +:+ " must contain 64 lowercase hexadecimal digits"))
      else Ok tt
  end.

Definition validate_ed25519_public_key (label value : string) : result ContractError unit :=
  if negb (lower_hex64 value) then
    Err (Invalid (label +:+ " must be a lowercase-hex 32-byte Ed25519 public key"))
  else Ok tt.

Definition validate_x25519_public_key (label value : string) : result ContractError unit :=
  if negb (lower_hex64 value) then
    Err (Invalid (label +:+ " must be a lowercase-hex 32-byte X25519 public key"))
  else Ok tt.

Definition validate_expiry (issued_at expires_at : option N) : result ContractError unit :=
  match issued_at, expires_at with
  | Some issued, Some expiry =>
      if decide (expiry ≤ issued) then
        Err (Invalid "expiry must be later than issue/valid-from time")
      else Ok tt
  | _, _ => Ok tt
  end.

(** [for value in values { value.validate()?; }]. *)
Fixpoint validate_each {T} (validate : T → result ContractError unit) (values : list T) :
    result ContractError unit :=
  match values with
  | [] => Ok tt
  | v :: values => _ ← validate v; validate_each validate values
  end.

Definition validate_vec {T} (validate : T → result ContractError unit) (label : string)
    (values : list T) (max_items : N) : result ContractError unit :=
  if decide (max_items < N.of_nat (length values)) then
    Err (Limit (label +:+ " has " +:+ dec (N.of_nat (length values)) +:+ " items, exceeds "
                +:+ dec max_items))
  else validate_each validate values.

Fixpoint reject_duplicates_from (seen : gset string) (label : string) (values : list string) :
    result ContractError unit :=
  match values with
  | [] => Ok tt
  | v :: values =>
      if decide (v ∈ seen) then Err (Invalid ("duplicate " +:+ label +:+ " entry `" +:+ v +:+ "`"))
      else reject_duplicates_from ({[ v ]} ∪ seen) label values
  end.

Definition reject_duplicates (label : string) (values : list string) : result ContractError unit :=
  reject_duplicates_from ∅ label values.

(** ** Identifiers *)

Definition HomeId : Type := string.
Definition JobId : Type := string.
Definition DeploymentId : Type := string.
Definition HandoffId : Type := string.
Definition ControlId : Type := string.

Definition HomeId_validate (v : HomeId) := validate_text "HomeId" v MAX_ID_BYTES.
Definition JobId_validate (v : JobId) := validate_text "JobId" v MAX_ID_BYTES.
Definition DeploymentId_validate (v : DeploymentId) := validate_text "DeploymentId" v MAX_ID_BYTES.
Definition HandoffId_validate (v : HandoffId) := validate_text "HandoffId" v MAX_ID_BYTES.
Definition ControlId_validate (v : ControlId) := validate_text "ControlId" v MAX_ID_BYTES.

(** ** Functions *)

Record FunctionId : Type := mkFunctionId {
  fid_manifest_content_address : string;
  fid_entrypoint : string
}.
#[export] Instance FunctionId_eq_dec : EqDecision FunctionId.
Proof. solve_decision. Defined.

Definition FunctionId_validate (f : FunctionId) : result ContractError unit :=
  _ ← validate_sha256 "manifest_content_address" (fid_manifest_content_address f);
  validate_text "entrypoint" (fid_entrypoint f) MAX_NAME_BYTES.

Record FunctionAlias : Type := mkFunctionAlias {
  fa_realm : string;
  fa_name : string;
  fa_version : string;
  fa_entrypoint : string
}.
#[export] Instance FunctionAlias_eq_dec : EqDecision FunctionAlias.
Proof. solve_decision. Defined.

Definition CHAR_COLON : Ascii.ascii := Ascii.ascii_of_N 58.

Definition FunctionAlias_validate (a : FunctionAlias) : result ContractError unit :=
  _ ← validate_text "realm" (fa_realm a) MAX_ID_BYTES;
  if contains_char CHAR_COLON (fa_realm a) then Err (Invalid "realm must not contain `:`")
  else
    _ ← validate_text "name" (fa_name a) MAX_NAME_BYTES;
    _ ← validate_text "version" (fa_version a) MAX_VERSION_BYTES;
    validate_text "entrypoint" (fa_entrypoint a) MAX_NAME_BYTES.

Inductive FunctionSelectorV1 : Type :=
  | SelectId (function : FunctionId)
  | SelectAlias (alias : FunctionAlias).
#[export] Instance FunctionSelectorV1_eq_dec : EqDecision FunctionSelectorV1.
Proof. solve_decision. Defined.

Definition FunctionSelectorV1_validate (s : FunctionSelectorV1) : result ContractError unit :=
  match s with
  | SelectId f => FunctionId_validate f
  | SelectAlias a => FunctionAlias_validate a
  end.

(** ** Values *)

Record BlobRefV1 : Type := mkBlobRefV1 {
  br_digest : string;
  br_size : N;
  br_media_type : string
}.
#[export] Instance BlobRefV1_eq_dec : EqDecision BlobRefV1.
Proof. solve_decision. Defined.

Definition BlobRefV1_validate (b : BlobRefV1) : result ContractError unit :=
  _ ← validate_sha256 "blob.digest" (br_digest b);
  validate_text "blob.media_type" (br_media_type b) MAX_MEDIA_TYPE_BYTES.

Record RecipientKeyWrapV1 : Type := mkRecipientKeyWrapV1 {
  rw_recipient : HomeId;
  rw_binding_hash : string;
  rw_encapsulated_key : string;
  rw_wrapped_data_key : string
}.
#[export] Instance RecipientKeyWrapV1_eq_dec : EqDecision RecipientKeyWrapV1.
Proof. solve_decision. Defined.

Definition RecipientKeyWrapV1_validate (w : RecipientKeyWrapV1) : result ContractError unit :=
  _ ← HomeId_validate (rw_recipient w);
  _ ← validate_sha256 "binding_hash" (rw_binding_hash w);
  _ ← validate_text "encapsulated_key" (rw_encapsulated_key w) MAX_PUBLIC_KEY_BYTES;
  validate_text "wrapped_data_key" (rw_wrapped_data_key w) (MAX_ID_BYTES * 4).

Record SealedValueV1 : Type := mkSealedValueV1 {
  sv_ciphertext : BlobRefV1;
  sv_suite : string;
  sv_plaintext_digest : option string;
  sv_recipients : list RecipientKeyWrapV1
}.
#[export] Instance SealedValueV1_eq_dec : EqDecision SealedValueV1.
Proof. solve_decision. Defined.

Definition SealedValueV1_validate (s : SealedValueV1) : result ContractError unit :=
  _ ← BlobRefV1_validate (sv_ciphertext s);
  _ ← validate_text "sealed suite" (sv_suite s) MAX_NAME_BYTES;
  _ ← match sv_plaintext_digest s with
      | Some hash => validate_sha256 "plaintext_digest" hash
      | None => Ok tt
      end;
  _ ← validate_vec RecipientKeyWrapV1_validate "sealed recipients" (sv_recipients s)
        MAX_RESULT_RECIPIENTS;
  match sv_recipients s with
  | [] => Err (Invalid "sealed value must have at least one recipient")
  | _ => Ok tt
  end.

#[export] Instance json_eq_dec : EqDecision json.
Proof.
  intros v w. destruct (decide (json_to_tree v = json_to_tree w)) as [E|E].
  - left. by apply json_to_tree_inj.
  - right. intros ->. done.
Defined.

Inductive ValueRefV1 : Type :=
  | VInline (value : json)
  | VBlob (blob : BlobRefV1)
  | VSealed (sealed : SealedValueV1).
#[export] Instance ValueRefV1_eq_dec : EqDecision ValueRefV1.
Proof. solve_decision. Defined.

(** [BlobAvailability]: the injected durability check. *)
Class BlobAvailability : Type := blob_available : BlobRefV1 → result ContractError unit.

Definition ValueRefV1_verify_available `{!BlobAvailability} (v : ValueRefV1) :
    result ContractError unit :=
  match v with
  | VInline _ => Ok tt
  | VBlob blob => blob_available blob
  | VSealed sealed => blob_available (sv_ciphertext sealed)
  end.

Inductive JsonSchemaRootV1 : Type :=
  | RootAny | RootObject | RootArray | RootString | RootNumber | RootInteger | RootBoolean
  | RootNull.
#[export] Instance JsonSchemaRootV1_eq_dec : EqDecision JsonSchemaRootV1.
Proof. solve_decision. Defined.

Inductive SchemaRefV1 : Type :=
  | SchemaInline (schema : json)
  | SchemaBlob (blob : BlobRefV1) (root : JsonSchemaRootV1).

Inductive EffectClassV1 : Type :=
  | EffectReadOnly | EffectIdempotent | EffectNonIdempotent | EffectUnknown.
#[export] Instance EffectClassV1_eq_dec : EqDecision EffectClassV1.
Proof. solve_decision. Defined.

Record FunctionControlsV1 : Type := mkFunctionControlsV1 {
  fc_progress : bool;
  fc_steer : bool;
  fc_cancel : bool;
  fc_checkpoint : bool
}.

Record EntrypointContractV1 : Type := mkEntrypointContractV1 {
  ec_description : string;
  ec_input_schema : SchemaRefV1;
  ec_output_schema : SchemaRefV1;
  ec_error_schema : option SchemaRefV1;
  ec_effect : EffectClassV1;
  ec_controls : FunctionControlsV1
}.

(** [Map::get] on the entries of an object. *)
Fixpoint json_get (key : string) (entries : list (string * json)) : option json :=
  match entries with
  | [] => None
  | (k, v) :: entries => if decide (k = key) then Some v else json_get key entries
  end.

Definition as_object (v : json) : option (list (string * json)) :=
  match v with JObject entries => Some entries | _ => None end.
Definition as_str (v : json) : option string :=
  match v with JString s => Some s | _ => None end.
Definition is_boolean (v : json) : bool := match v with JBool _ => true | _ => false end.

(** ** Evidence and resolution *)

Record EvidenceRefV1 : Type := mkEvidenceRefV1 {
  er_kind : string;
  er_digest : string;
  er_issuer : option string;
  er_locator : option string
}.
#[export] Instance EvidenceRefV1_eq_dec : EqDecision EvidenceRefV1.
Proof. solve_decision. Defined.

Definition EvidenceRefV1_validate (e : EvidenceRefV1) : result ContractError unit :=
  _ ← validate_text "evidence.kind" (er_kind e) MAX_NAME_BYTES;
  _ ← validate_sha256 "evidence.digest" (er_digest e);
  _ ← validate_optional_text "evidence.issuer" (er_issuer e) MAX_PUBLIC_KEY_BYTES;
  validate_optional_text "evidence.locator" (er_locator e) MAX_ID_BYTES.

Record EvidenceV1 : Type := mkEvidenceV1 {
  ev_subject : string;
  ev_claim : string;
  ev_value : ValueRefV1;
  ev_issued_at_unix_ms : option N;
  ev_expires_at_unix_ms : option N
}.

Record ResolutionReceiptV1 : Type := mkResolutionReceiptV1 {
  rr_selector : FunctionSelectorV1;
  rr_function : FunctionId;
  rr_artifact_hash : string;
  rr_resolved_at_unix_ms : option N;
  rr_evidence : list EvidenceRefV1
}.
#[export] Instance ResolutionReceiptV1_eq_dec : EqDecision ResolutionReceiptV1.
Proof. solve_decision. Defined.

Definition ResolutionReceiptV1_validate (r : ResolutionReceiptV1) : result ContractError unit :=
  _ ← FunctionSelectorV1_validate (rr_selector r);
  _ ← FunctionId_validate (rr_function r);
  if match rr_selector r with
     | SelectId function => bool_decide (function ≠ rr_function r)
     | SelectAlias _ => false
     end
  then Err (Invalid "an exact FunctionId selector cannot resolve to a different function")
  else
    _ ← validate_sha256 "artifact_hash" (rr_artifact_hash r);
    validate_vec EvidenceRefV1_validate "resolution.evidence" (rr_evidence r) MAX_EVIDENCE_REFS.

Record ResolvedFunctionV1 : Type := mkResolvedFunctionV1 {
  rf_requested : FunctionSelectorV1;
  rf_function : FunctionId;
  rf_artifact_hash : string;
  rf_resolution : option (SignedRecordV1 ResolutionReceiptV1)
}.
#[export] Instance ResolvedFunctionV1_eq_dec : EqDecision ResolvedFunctionV1.
Proof. solve_decision. Defined.

(** ** Jobs and access *)

Record AttemptId : Type := mkAttemptId {
  at_home : HomeId;
  at_job : JobId;
  at_number : N
}.
#[export] Instance AttemptId_eq_dec : EqDecision AttemptId.
Proof. solve_decision. Defined.

Definition AttemptId_validate (a : AttemptId) : result ContractError unit :=
  _ ← HomeId_validate (at_home a);
  _ ← JobId_validate (at_job a);
  if decide (at_number a = 0 ∨ MAX_JOB_ATTEMPTS < at_number a) then
    Err (Invalid ("attempt number must be in 1..=" +:+ dec MAX_JOB_ATTEMPTS))
  else Ok tt.

Record JobHandleV1 : Type := mkJobHandleV1 {
  jh_home : HomeId;
  jh_job : JobId
}.
#[export] Instance JobHandleV1_eq_dec : EqDecision JobHandleV1.
Proof. solve_decision. Defined.

Definition JobHandleV1_validate (h : JobHandleV1) : result ContractError unit :=
  _ ← HomeId_validate (jh_home h); JobId_validate (jh_job h).

Record CausalLinkV1 : Type := mkCausalLinkV1 {
  cl_job : JobHandleV1;
  cl_relation : string;
  cl_receipt_hash : option string
}.
#[export] Instance CausalLinkV1_eq_dec : EqDecision CausalLinkV1.
Proof. solve_decision. Defined.

Definition CausalLinkV1_validate (c : CausalLinkV1) : result ContractError unit :=
  _ ← JobHandleV1_validate (cl_job c);
  _ ← validate_text "causal relation" (cl_relation c) MAX_NAME_BYTES;
  match cl_receipt_hash c with
  | Some hash => validate_sha256 "causal receipt_hash" hash
  | None => Ok tt
  end.

Definition validate_causal_links (values : list CausalLinkV1) : result ContractError unit :=
  validate_vec CausalLinkV1_validate "causal links" values MAX_CAUSAL_LINKS.

Record JobAccessV1 : Type := mkJobAccessV1 {
  ja_readers : list HomeId;
  ja_controllers : list HomeId
}.
#[export] Instance JobAccessV1_eq_dec : EqDecision JobAccessV1.
Proof. solve_decision. Defined.

Definition JobAccessV1_validate (a : JobAccessV1) : result ContractError unit :=
  _ ← validate_vec HomeId_validate "readers" (ja_readers a) MAX_JOB_DELEGATES;
  _ ← validate_vec HomeId_validate "controllers" (ja_controllers a) MAX_JOB_DELEGATES;
  _ ← reject_duplicates "readers" (ja_readers a);
  reject_duplicates "controllers" (ja_controllers a).

(** ** Keys *)

Record AbodeKeyBindingV1 : Type := mkAbodeKeyBindingV1 {
  ab_abode : HomeId;
  ab_root_public_key : string;
  ab_issued_at_unix_ms : option N
}.
#[export] Instance AbodeKeyBindingV1_eq_dec : EqDecision AbodeKeyBindingV1.
Proof. solve_decision. Defined.

Definition AbodeKeyBindingV1_validate (b : AbodeKeyBindingV1) : result ContractError unit :=
  _ ← HomeId_validate (ab_abode b);
  validate_text "root_public_key" (ab_root_public_key b) MAX_PUBLIC_KEY_BYTES.

Inductive OperationalCapabilityV1 : Type :=
  | CapJobHome | CapJobControl | CapExecution | CapCustody | CapLocate.
#[export] Instance OperationalCapabilityV1_eq_dec : EqDecision OperationalCapabilityV1.
Proof. solve_decision. Defined.

Record OperationalKeyGrantV1 : Type := mkOperationalKeyGrantV1 {
  og_home : HomeId;
  og_epoch : N;
  og_operational_public_key : string;
  og_valid_from_unix_ms : option N;
  og_expires_at_unix_ms : option N;
  og_capabilities : list OperationalCapabilityV1;
  og_evidence : list EvidenceRefV1
}.
#[export] Instance OperationalKeyGrantV1_eq_dec : EqDecision OperationalKeyGrantV1.
Proof. solve_decision. Defined.

Definition OperationalKeyGrantV1_validate (g : OperationalKeyGrantV1) :
    result ContractError unit :=
  _ ← HomeId_validate (og_home g);
  if decide (og_epoch g = 0) then Err (Invalid "operational epoch must be non-zero")
  else
    _ ← validate_text "operational_public_key" (og_operational_public_key g) MAX_PUBLIC_KEY_BYTES;
    _ ← validate_ed25519_public_key "operational_public_key" (og_operational_public_key g);
    match og_capabilities g with
    | [] => Err (Invalid "operational key must carry at least one capability")
    | _ =>
        _ ← validate_vec EvidenceRefV1_validate "operational evidence" (og_evidence g)
              MAX_EVIDENCE_REFS;
        validate_expiry (og_valid_from_unix_ms g) (og_expires_at_unix_ms g)
    end.

Record RecipientKeyBindingV1 : Type := mkRecipientKeyBindingV1 {
  rk_abode : HomeId;
  rk_signing_public_key : string;
  rk_encryption_public_key : string;
  rk_suite : string;
  rk_issued_at_unix_ms : option N;
  rk_expires_at_unix_ms : option N
}.
#[export] Instance RecipientKeyBindingV1_eq_dec : EqDecision RecipientKeyBindingV1.
Proof. solve_decision. Defined.

Definition RecipientKeyBindingV1_validate (b : RecipientKeyBindingV1) :
    result ContractError unit :=
  _ ← HomeId_validate (rk_abode b);
  _ ← validate_ed25519_public_key "signing_public_key" (rk_signing_public_key b);
  _ ← validate_x25519_public_key "encryption_public_key" (rk_encryption_public_key b);
  _ ← validate_text "encryption suite" (rk_suite b) MAX_NAME_BYTES;
  validate_expiry (rk_issued_at_unix_ms b) (rk_expires_at_unix_ms b).

(** ** Checks that encode *)

Record DeploymentIdentity : Type := mkDeploymentIdentity {
  di_domain : string;
  di_function : FunctionId;
  di_artifact_hash : string;
  di_realm : string;
  di_node : string;
  di_target_creature : string
}.

(** A struct of strings serialises to the object of its fields. *)
#[export] Instance FunctionId_to_value : ToValue FunctionId :=
  fun f =>
    Ok (JObject [("manifest_content_address", JString (fid_manifest_content_address f));
                 ("entrypoint", JString (fid_entrypoint f))]).

#[export] Instance DeploymentIdentity_to_value : ToValue DeploymentIdentity :=
  fun i =>
    f ← to_value (di_function i);
    Ok (JObject [("domain", JString (di_domain i)); ("function", f);
                 ("artifact_hash", JString (di_artifact_hash i)); ("realm", JString (di_realm i));
                 ("node", JString (di_node i));
                 ("target_creature", JString (di_target_creature i))]).

Section encoded.
  Context `{!Sha256} `{!JsonText} `{!Ed25519}.

Definition ensure_message_bound {T} `{!ToValue T} (value : T) : result ContractError unit :=
  b ← canonical_json_bytes value;
  if decide (MAX_JOB_MESSAGE_BYTES < blen b) then
    Err (Limit ("wire message is " +:+ dec (blen b) +:+ " bytes, exceeds "
                +:+ dec MAX_JOB_MESSAGE_BYTES))
  else Ok tt.

Definition SignedRecordV1_validate {T} `{!ToValue T} (validate : T → result ContractError unit)
    (r : SignedRecordV1 T) : result ContractError unit :=
  _ ← validate_text "signed record schema" (sr_schema r) MAX_ID_BYTES;
  _ ← validate_text "signed record signer" (sr_signer r) MAX_PUBLIC_KEY_BYTES;
  _ ← validate_text "signed record signature" (sr_signature r) MAX_SIGNATURE_BYTES;
  _ ← validate (sr_payload r);
  ensure_message_bound r.

Definition ValueRefV1_validate_with_limit (max_inline_bytes : N) (v : ValueRefV1) :
    result ContractError unit :=
  match v with
  | VInline value =>
      b ← canonical_json_bytes value;
      if decide (max_inline_bytes < blen b) then
        Err (Limit ("inline JSON is " +:+ dec (blen b) +:+ " bytes, exceeds "
                    +:+ dec max_inline_bytes))
      else Ok tt
  | VBlob blob => BlobRefV1_validate blob
  | VSealed sealed => SealedValueV1_validate sealed
  end.

Definition ValueRefV1_validate (v : ValueRefV1) : result ContractError unit :=
  ValueRefV1_validate_with_limit MAX_INLINE_VALUE_BYTES v.

Definition SchemaRefV1_validate (s : SchemaRefV1) : result ContractError unit :=
  match s with
  | SchemaInline schema =>
      match as_object schema, is_boolean schema with
      | None, false => Err (Invalid "JSON Schema must be an object or boolean")
      | _, _ =>
          b ← canonical_json_bytes schema;
          if decide (MAX_INLINE_SCHEMA_BYTES < blen b) then
            Err (Limit ("inline JSON Schema is " +:+ dec (blen b) +:+ " bytes, exceeds "
                        +:+ dec MAX_INLINE_SCHEMA_BYTES))
          else Ok tt
      end
  | SchemaBlob blob _ => BlobRefV1_validate blob
  end.

Definition SchemaRefV1_validate_input (s : SchemaRefV1) : result ContractError unit :=
  _ ← SchemaRefV1_validate s;
  match s with
  | SchemaInline schema =>
      object ← ok_or (as_object schema) (Invalid "input JSON Schema must be an object schema");
      let object_root :=
        bool_decide ((json_get "type" object ≫= as_str) = Some "object")
        || bool_decide (is_Some (json_get "$ref" object))
        || bool_decide (is_Some (json_get "allOf" object)) in
      if negb object_root then
        Err (Invalid "input JSON Schema must declare an object root (`type: object`)")
      else Ok tt
  | SchemaBlob _ root =>
      if decide (root ≠ RootObject) then
        Err (Invalid "external input JSON Schema must declare `root: object`")
      else Ok tt
  end.

Definition EntrypointContractV1_validate (c : EntrypointContractV1) : result ContractError unit :=
  _ ← validate_text "entrypoint.contract.description" (ec_description c) MAX_INLINE_VALUE_BYTES;
  _ ← SchemaRefV1_validate_input (ec_input_schema c);
  _ ← SchemaRefV1_validate (ec_output_schema c);
  match ec_error_schema c with Some error => SchemaRefV1_validate error | None => Ok tt end.

Definition EvidenceV1_validate (e : EvidenceV1) : result ContractError unit :=
  _ ← validate_text "evidence.subject" (ev_subject e) MAX_ID_BYTES;
  _ ← validate_text "evidence.claim" (ev_claim e) MAX_NAME_BYTES;
  _ ← ValueRefV1_validate (ev_value e);
  validate_expiry (ev_issued_at_unix_ms e) (ev_expires_at_unix_ms e).

Definition ResolvedFunctionV1_validate `{!ToValue ResolutionReceiptV1} (f : ResolvedFunctionV1) :
    result ContractError unit :=
  _ ← FunctionSelectorV1_validate (rf_requested f);
  _ ← FunctionId_validate (rf_function f);
  _ ← validate_sha256 "artifact_hash" (rf_artifact_hash f);
  match rf_resolution f with
  | None => Ok tt
  | Some receipt =>
      _ ← SignedRecordV1_validate ResolutionReceiptV1_validate receipt;
      if bool_decide (sr_schema receipt ≠ SCHEMA_FUNCTION_DEPLOY_V1)
         || negb (SignedRecordV1_verify receipt) then
        Err (Crypto "resolved function contains an invalid resolution signature")
      else if bool_decide (rr_selector (sr_payload receipt) ≠ rf_requested f)
         || bool_decide (rr_function (sr_payload receipt) ≠ rf_function f)
         || bool_decide (rr_artifact_hash (sr_payload receipt) ≠ rf_artifact_hash f) then
        Err (Invalid "resolution receipt does not match resolved function")
      else Ok tt
  end.

(** ** Deterministic identities *)

Definition job_id_bytes (home : HomeId) (idempotency_key : string) : bytes :=
  JOB_ID_DOMAIN_V1 ++ be_bytes 8 (slen home) ++ String.list_byte_of_string home
  ++ be_bytes 8 (slen idempotency_key) ++ String.list_byte_of_string idempotency_key.

Definition derive_job_id (home : HomeId) (idempotency_key : string) :
    result ContractError JobId :=
  _ ← HomeId_validate home;
  _ ← validate_text "caller_idempotency_key" idempotency_key MAX_IDEMPOTENCY_KEY_BYTES;
  Ok (sha256_digest (job_id_bytes home idempotency_key)).

Definition derive_deployment_id (function : FunctionId)
    (artifact_hash realm node target_creature : string) : result ContractError DeploymentId :=
  _ ← FunctionId_validate function;
  _ ← validate_sha256 "artifact_hash" artifact_hash;
  _ ← validate_text "realm" realm MAX_ID_BYTES;
  _ ← validate_text "node" node MAX_ID_BYTES;
  _ ← validate_text "target_creature" target_creature MAX_ID_BYTES;
  b ← canonical_json_bytes
        (mkDeploymentIdentity DEPLOYMENT_ID_DOMAIN_V1 function artifact_hash realm node
           target_creature);
  Ok (sha256_digest b).
End encoded.

(** ** The identities determine what they name *)

Lemma list_byte_of_string_cons c s :
  String.list_byte_of_string (String c s)
  = Ascii.byte_of_ascii c :: String.list_byte_of_string s.
Proof. done. Qed.

Lemma length_list_byte_of_string s :
  length (String.list_byte_of_string s) = String.length s.
Proof. induction s as [|c s IH]; [done|]. rewrite list_byte_of_string_cons. cbn. by rewrite IH. Qed.

Lemma list_byte_of_string_inj s t :
  String.list_byte_of_string s = String.list_byte_of_string t → s = t.
Proof.
  intros E. rewrite <-(String.string_of_list_byte_of_string s),
    <-(String.string_of_list_byte_of_string t). by rewrite E.
Qed.

(** A length-prefixed string followed by anything is taken apart. *)
Lemma byte_prefixed_inj s t (u v : bytes) :
  slen s ≤ MAX_ID_BYTES → slen t ≤ MAX_ID_BYTES →
  be_bytes 8 (slen s) ++ String.list_byte_of_string s ++ u
  = be_bytes 8 (slen t) ++ String.list_byte_of_string t ++ v → s = t ∧ u = v.
Proof.
  unfold MAX_ID_BYTES. intros Hs Ht E.
  apply app_inj_1 in E as [El E]; [|by rewrite !length_be_bytes].
  apply (f_equal be_value) in El. rewrite !be_value_be_bytes in El by (cbn; lia).
  apply app_inj_1 in E as [Es E].
  - split; [by apply list_byte_of_string_inj|done].
  - rewrite !length_list_byte_of_string. unfold slen in El. lia.
Qed.

Lemma validate_text_Ok label value max :
  validate_text label value max = Ok tt ↔ is_blank value = false ∧ slen value ≤ max.
Proof.
  unfold validate_text. destruct (is_blank value); [naive_solver|].
  case_decide; naive_solver lia.
Qed.

Section identities.
  Context `{!Sha256} `{!JsonText} `{!JsonTextLaws}.

Lemma job_id_bytes_inj h k h' k' :
  slen h ≤ MAX_ID_BYTES → slen k ≤ MAX_ID_BYTES →
  slen h' ≤ MAX_ID_BYTES → slen k' ≤ MAX_ID_BYTES →
  job_id_bytes h k = job_id_bytes h' k' → h = h' ∧ k = k'.
Proof.
  unfold job_id_bytes. intros Hh Hk Hh' Hk' E. apply app_inv_head in E.
  apply byte_prefixed_inj in E as [-> E]; [|done..]. split; [done|].
  rewrite <-(app_nil_r (String.list_byte_of_string k)),
    <-(app_nil_r (String.list_byte_of_string k')) in E.
  by apply byte_prefixed_inj in E as [-> _].
Qed.

Lemma deployment_identity_inj (i j : DeploymentIdentity) :
  canonical_json_bytes i = canonical_json_bytes j → i = j.
Proof.
  intros E. apply (canonical_json_bytes_sort i j _ _ eq_refl eq_refl) in E.
  destruct i as [? [] ? ? ? ?], j as [? [] ? ? ? ?]. vm_compute in E. by simplify_eq.
Qed.

Lemma derive_job_id_Ok h k id :
  derive_job_id h k = Ok id →
  id = sha256_digest (job_id_bytes h k) ∧ slen h ≤ MAX_ID_BYTES ∧ slen k ≤ MAX_ID_BYTES.
Proof.
  unfold derive_job_id, HomeId_validate. intros E. inv_result.
  repeat match goal with x : unit |- _ => destruct x end.
  match goal with H : _ = Ok tt, H' : _ = Ok tt |- _ =>
    apply validate_text_Ok in H as [_ ?], H' as [_ ?] end. done.
Qed.

Lemma derive_deployment_id_Ok f a r n c id :
  derive_deployment_id f a r n c = Ok id →
  ∃ b, canonical_json_bytes (mkDeploymentIdentity DEPLOYMENT_ID_DOMAIN_V1 f a r n c) = Ok b
    ∧ id = sha256_digest b.
Proof. unfold derive_deployment_id. intros E. inv_result. eauto. Qed.
End identities.

(** Two distinct inputs of the hash function with the same digest. *)
Definition sha_collision `{!Sha256} : Prop := ∃ a b : bytes, a ≠ b ∧ hash_bytes a = hash_bytes b.

Lemma sha256_digest_inj `{!Sha256} a b :
  sha256_digest a = sha256_digest b → a = b ∨ sha_collision.
Proof.
  intros E. apply append_inv_head in E. destruct (decide (a = b)) as [->|Hne]; [by left|].
  right. by exists a, b.
Qed.

Lemma canonical_hash_inj `{!Sha256} `{!JsonText} {T} `{!ToValue T} (a b : T) h :
  canonical_hash a = Ok h → canonical_hash b = Ok h →
  canonical_json_bytes a = canonical_json_bytes b ∨ sha_collision.
Proof.
  unfold canonical_hash. intros Ha Hb. inv_result. subst h.
  match goal with H : sha256_digest _ = sha256_digest _ |- _ =>
    apply sha256_digest_inj in H as [->|]; [left; congruence|by right] end.
Qed.

(** ** Properties *)

(** The derived identities are scoped: unless the hash function collides,
    equal job ids have the same home and the same caller key (so a caller key is
    scoped to its home), and equal deployment ids have the same function,
    artifact, realm, node and target.  The length prefixes and the canonical
    object make the hashed encodings injective. *)
Theorem derived_ids_identify (S : Sha256) (X : JsonText) (L : JsonTextLaws) :
  (∀ (h h' : HomeId) (k k' : string) (job : JobId),
     derive_job_id h k = Ok job → derive_job_id h' k' = Ok job →
     sha_collision ∨ h = h' ∧ k = k')
  ∧ (∀ (f f' : FunctionId) (a a' r r' n n' c c' : string) (d : DeploymentId),
       derive_deployment_id f a r n c = Ok d → derive_deployment_id f' a' r' n' c' = Ok d →
       sha_collision ∨ f = f' ∧ a = a' ∧ r = r' ∧ n = n' ∧ c = c').
Proof.
  split.
  - intros h h' k k' job (-> & ? & ?)%derive_job_id_Ok (Ej & ? & ?)%derive_job_id_Ok.
    apply sha256_digest_inj in Ej as [Ej|]; [|by left]. right. by apply job_id_bytes_inj.
  - intros f f' a a' r r' n n' c c' d (b & Hb & ->)%derive_deployment_id_Ok
      (b' & Hb' & Ed)%derive_deployment_id_Ok.
    apply sha256_digest_inj in Ed as [<-|]; [|by left]. right.
    rewrite <-Hb' in Hb. apply deployment_identity_inj in Hb. by simplify_eq.
Qed.

Definition zero_digest : string :=
  "sha256:0000000000000000000000000000000000000000000000000000000000000000".

Lemma derived_ids_identify_witness :
  (@sha_collision zero_sha ∨ "h" = "h" ∧ "k" = "k")
  ∧ ∃ d, @derive_deployment_id zero_sha stuffed_text (mkFunctionId zero_digest "main") zero_digest
           "r" "n" "c" = Ok d.
Proof.
  split; [|eexists; vm_compute; reflexivity].
  eapply (proj1 (@derived_ids_identify zero_sha stuffed_text stuffed_text_laws));
    vm_compute; reflexivity.
Defined.
