(* ===== verification/FnWire.v ===== *)
(** * Messages of the function contract

    [foundation/gawdfn/src/wire.rs]: job submissions and specifications,
    deployment receipts, execution grants and receipts, controls, job events,
    custody grants and the authority chain that roots a Home's epoch key in its
    Abode, each with its validator and verifier.

    [HomeAuthorityV1], [CustodyGrantV1] and [CustodyPreparedV1] contain one
    another: an authority of a moved epoch carries the proof prepared by the
    epoch before it.  The validators recurse down that chain.

    The serialisers of the message structs are the class [WireSerde]. *)

From S2P Require Import Prelude GxShape GxHash FnCrypto FnTypes.

Definition SCHEMA_LOCATE_V1 : string := "gawd.function.locate.v1".

(** ** Submissions and specifications *)

Inductive DeliveryModeV1 : Type :=
  | AtMostOnce
  | AtLeastOnce (max_attempts : N).
#[export] Instance DeliveryModeV1_eq_dec : EqDecision DeliveryModeV1.
Proof. solve_decision. Defined.

Definition DeliveryModeV1_max_attempts (d : DeliveryModeV1) : N :=
  match d with AtMostOnce => 1 | AtLeastOnce n => n end.

Definition DeliveryModeV1_validate (d : DeliveryModeV1) : result ContractError unit :=
  let attempts := DeliveryModeV1_max_attempts d in
  if decide (attempts = 0 ∨ MAX_JOB_ATTEMPTS < attempts) then
    Err (Invalid ("delivery attempts must be in 1..=" +:+ dec MAX_JOB_ATTEMPTS))
  else Ok tt.

Record JobSubmitV1 : Type := mkJobSubmitV1 {
  js_home : HomeId;
  js_caller_idempotency_key : string;
  js_function : FunctionSelectorV1;
  js_input : ValueRefV1;
  js_delivery : DeliveryModeV1;
  js_allow_duplicate_effects : bool;
  js_parent : option JobHandleV1;
  js_causal : list CausalLinkV1;
  js_access : JobAccessV1;
  js_evidence : list EvidenceRefV1;
  js_result_recipients : list HomeId;
  js_submitted_at_unix_ms : option N
}.
#[export] Instance JobSubmitV1_eq_dec : EqDecision JobSubmitV1.
Proof. solve_decision. Defined.

Record DeploymentReceiptV1 : Type := mkDeploymentReceiptV1 {
  dr_deployment : DeploymentId;
  dr_function : FunctionId;
  dr_artifact_hash : string;
  dr_realm : string;
  dr_node : string;
  dr_executor : string;
  dr_executor_creature : string;
  dr_creature : string;
  dr_evidence : list EvidenceRefV1;
  dr_registered_at_unix_ms : option N
}.
#[export] Instance DeploymentReceiptV1_eq_dec : EqDecision DeploymentReceiptV1.
Proof. solve_decision. Defined.

Record JobSpecV1 : Type := mkJobSpecV1 {
  sp_handle : JobHandleV1;
  sp_root : JobHandleV1;
  sp_caller_idempotency_key : string;
  sp_request_hash : string;
  sp_function : ResolvedFunctionV1;
  sp_deployment : SignedRecordV1 DeploymentReceiptV1;
  sp_input : ValueRefV1;
  sp_delivery : DeliveryModeV1;
  sp_allow_duplicate_effects : bool;
  sp_parent : option JobHandleV1;
  sp_causal : list CausalLinkV1;
  sp_access : JobAccessV1;
  sp_evidence : list EvidenceRefV1;
  sp_result_recipients : list HomeId;
  sp_accepted_at_unix_ms : option N
}.
#[export] Instance JobSpecV1_eq_dec : EqDecision JobSpecV1.
Proof. solve_decision. Defined.

Inductive JobStateV1 : Type :=
  | SQueued | SBlocked | SDispatching | SRunning | SRetryPending
  | SSucceeded | SFailed | SCancelled | SIndeterminate.
#[export] Instance JobStateV1_eq_dec : EqDecision JobStateV1.
Proof. solve_decision. Defined.

Definition is_terminal (s : JobStateV1) : bool :=
  match s with SSucceeded | SFailed | SCancelled | SIndeterminate => true | _ => false end.

(** ** Deployments *)

Record DeploymentRequestV1 : Type := mkDeploymentRequestV1 {
  dq_requested_by : HomeId;
  dq_function : FunctionSelectorV1;
  dq_target_realm : string;
  dq_target_node : option string;
  dq_evidence : list EvidenceRefV1;
  dq_requested_at_unix_ms : option N
}.

Record ResolveRequestV1 : Type := mkResolveRequestV1 {
  rq_requested_by : HomeId;
  rq_selector : FunctionSelectorV1;
  rq_evidence : list EvidenceRefV1
}.

Definition ResolveRequestV1_validate (r : ResolveRequestV1) : result ContractError unit :=
  _ ← HomeId_validate (rq_requested_by r);
  _ ← FunctionSelectorV1_validate (rq_selector r);
  validate_vec EvidenceRefV1_validate "resolution evidence" (rq_evidence r) MAX_EVIDENCE_REFS.

Record DeploymentRegistrationV1 : Type := mkDeploymentRegistrationV1 {
  dg_authorization : SignedRecordV1 DeploymentRequestV1;
  dg_resolution : SignedRecordV1 ResolutionReceiptV1;
  dg_deployment : DeploymentId;
  dg_function : FunctionId;
  dg_artifact_hash : string;
  dg_target_creature : string;
  dg_evidence : list EvidenceRefV1
}.

Record UndeployRequestV1 : Type := mkUndeployRequestV1 {
  uq_requested_by : HomeId;
  uq_deployment : DeploymentId;
  uq_reason : option string
}.

Definition UndeployRequestV1_validate (r : UndeployRequestV1) : result ContractError unit :=
  _ ← HomeId_validate (uq_requested_by r);
  _ ← DeploymentId_validate (uq_deployment r);
  validate_optional_text "undeploy reason" (uq_reason r) FN_MAX_REASON_BYTES.

Record UndeployReceiptV1 : Type := mkUndeployReceiptV1 {
  ur_deployment : DeploymentId;
  ur_executor : string;
  ur_executor_creature : string
}.

Record DeploymentQueryV1 : Type := mkDeploymentQueryV1 {
  dy_function : option FunctionId;
  dy_realm : option string;
  dy_node : option string;
  dy_limit : N
}.

Record DeploymentListV1 : Type := mkDeploymentListV1 {
  dl_deployments : list (SignedRecordV1 DeploymentReceiptV1)
}.

(** The digits of a decimal number, most significant first, with [u64]'s bound. *)
Fixpoint parse_digits (acc : N) (s : string) : option N :=
  match s with
  | EmptyString => Some acc
  | String c s =>
      let d := Ascii.N_of_ascii c in
      if is_ascii_digit d then
        let acc := acc * 10 + (d - 48) in
        if decide (u64_MAX < acc) then None else parse_digits acc s
      else None
  end.

(** [value.parse::<u64>()]: an optional [+], then at least one digit. *)
Definition parse_u64 (s : string) : option N :=
  match s with
  | EmptyString => None
  | String c s' =>
      if decide (Ascii.N_of_ascii c = 43) then
        match s' with EmptyString => None | _ => parse_digits 0 s' end
      else parse_digits 0 s
  end.

Definition validate_creature_id (label value : string) : result ContractError unit :=
  _ ← validate_text label value MAX_ID_BYTES;
  parsed ← ok_or (parse_u64 value)
             (Invalid (label +:+ " must be a positive numeric CreatureId"));
  if decide (parsed = 0 ∨ dec parsed ≠ value) then
    Err (Invalid (label +:+ " must be the canonical decimal form of a positive CreatureId"))
  else Ok tt.

Definition DeploymentReceiptV1_validate (r : DeploymentReceiptV1) : result ContractError unit :=
  _ ← DeploymentId_validate (dr_deployment r);
  _ ← FunctionId_validate (dr_function r);
  _ ← validate_sha256 "artifact_hash" (dr_artifact_hash r);
  _ ← validate_text "deployment.realm" (dr_realm r) MAX_ID_BYTES;
  _ ← validate_text "deployment.node" (dr_node r) MAX_ID_BYTES;
  _ ← validate_ed25519_public_key "deployment.executor" (dr_executor r);
  _ ← validate_creature_id "deployment.executor_creature" (dr_executor_creature r);
  _ ← validate_creature_id "deployment.creature" (dr_creature r);
  validate_vec EvidenceRefV1_validate "deployment evidence" (dr_evidence r) MAX_EVIDENCE_REFS.

Definition UndeployReceiptV1_validate (r : UndeployReceiptV1) : result ContractError unit :=
  _ ← DeploymentId_validate (ur_deployment r);
  _ ← validate_ed25519_public_key "undeploy.executor" (ur_executor r);
  validate_creature_id "undeploy.executor_creature" (ur_executor_creature r).

Definition DeploymentQueryV1_validate (q : DeploymentQueryV1) : result ContractError unit :=
  _ ← match dy_function q with Some f => FunctionId_validate f | None => Ok tt end;
  _ ← validate_optional_text "deployment query realm" (dy_realm q) MAX_ID_BYTES;
  _ ← validate_optional_text "deployment query node" (dy_node q) MAX_ID_BYTES;
  if decide (dy_limit q = 0 ∨ MAX_EVENT_PAGE_ITEMS < dy_limit q) then
    Err (Invalid ("deployment query limit must be in 1..=" +:+ dec MAX_EVENT_PAGE_ITEMS))
  else Ok tt.

(** ** Custody and authority *)

Record HomeCheckpointV1 : Type := mkHomeCheckpointV1 {
  hc_home : HomeId;
  hc_epoch : N;
  hc_high_water_mark : N;
  hc_log_root : string;
  hc_state : BlobRefV1;
  hc_created_at_unix_ms : option N
}.
#[export] Instance HomeCheckpointV1_eq_dec : EqDecision HomeCheckpointV1.
Proof. solve_decision. Defined.

Definition HomeCheckpointV1_validate (c : HomeCheckpointV1) : result ContractError unit :=
  _ ← HomeId_validate (hc_home c);
  if decide (hc_epoch c = 0) then Err (Invalid "home epoch must be non-zero")
  else
    _ ← validate_sha256 "log_root" (hc_log_root c);
    BlobRefV1_validate (hc_state c).

Record CustodyRewrapRequirementV1 : Type := mkCustodyRewrapRequirementV1 {
  cr_source_binding : SignedRecordV1 RecipientKeyBindingV1;
  cr_destination_binding : SignedRecordV1 RecipientKeyBindingV1;
  cr_evidence : list EvidenceRefV1
}.
#[export] Instance CustodyRewrapRequirementV1_eq_dec : EqDecision CustodyRewrapRequirementV1.
Proof. solve_decision. Defined.

Record CustodyRewrapSourceV1 : Type := mkCustodyRewrapSourceV1 {
  cs_sealed_value_hash : string;
  cs_ciphertext : BlobRefV1;
  cs_source_wrap : RecipientKeyWrapV1
}.

Definition CustodyRewrapSourceV1_validate (s : CustodyRewrapSourceV1) :
    result ContractError unit :=
  _ ← validate_sha256 "rewrap sealed_value_hash" (cs_sealed_value_hash s);
  _ ← BlobRefV1_validate (cs_ciphertext s);
  RecipientKeyWrapV1_validate (cs_source_wrap s).

Record CustodyRewrapInventoryCommitmentV1 : Type := mkCustodyRewrapInventoryCommitmentV1 {
  cc_sealed_value_hash : string;
  cc_ciphertext : BlobRefV1;
  cc_source_wrap_hash : string
}.

Record CustodyRewrapInventoryHashV1 : Type := mkCustodyRewrapInventoryHashV1 {
  ch_schema : string;
  ch_purpose : string;
  ch_items : list CustodyRewrapInventoryCommitmentV1
}.

#[warnings="-register-all"]
Inductive HomeAuthorityV1 : Type :=
  | mkHomeAuthorityV1 (abode : SignedRecordV1 AbodeKeyBindingV1)
      (operational : SignedRecordV1 OperationalKeyGrantV1)
      (prepared : option (SignedRecordV1 CustodyPreparedV1))
with CustodyGrantV1 : Type :=
  | mkCustodyGrantV1 (home : HomeId) (handoff : HandoffId) (from_epoch to_epoch : N)
      (source_authority : HomeAuthorityV1)
      (source_realm source_node destination_realm destination_node : string)
      (checkpoint_hash source_log_root : string)
      (destination_operational_key : SignedRecordV1 OperationalKeyGrantV1)
      (evidence : list EvidenceRefV1) (issued_at_unix_ms : option N)
      (destination_rewrap : option CustodyRewrapRequirementV1)
with CustodyPreparedV1 : Type :=
  | mkCustodyPreparedV1 (grant : SignedRecordV1 CustodyGrantV1)
      (checkpoint : SignedRecordV1 HomeCheckpointV1)
      (grant_hash checkpoint_hash source_log_root source_coordinator : string)
      (rewrap_inventory_hash : option string) (rewrap_item_count : option N).

Definition ha_abode (a : HomeAuthorityV1) := let '(mkHomeAuthorityV1 b _ _) := a in b.
Definition ha_operational (a : HomeAuthorityV1) := let '(mkHomeAuthorityV1 _ o _) := a in o.
Definition ha_prepared (a : HomeAuthorityV1) := let '(mkHomeAuthorityV1 _ _ p) := a in p.

Definition cg_home (g : CustodyGrantV1) :=
  let '(mkCustodyGrantV1 h _ _ _ _ _ _ _ _ _ _ _ _ _ _) := g in h.
Definition cg_handoff (g : CustodyGrantV1) :=
  let '(mkCustodyGrantV1 _ h _ _ _ _ _ _ _ _ _ _ _ _ _) := g in h.
Definition cg_from_epoch (g : CustodyGrantV1) :=
  let '(mkCustodyGrantV1 _ _ e _ _ _ _ _ _ _ _ _ _ _ _) := g in e.
Definition cg_to_epoch (g : CustodyGrantV1) :=
  let '(mkCustodyGrantV1 _ _ _ e _ _ _ _ _ _ _ _ _ _ _) := g in e.
Definition cg_source_authority (g : CustodyGrantV1) :=
  let '(mkCustodyGrantV1 _ _ _ _ a _ _ _ _ _ _ _ _ _ _) := g in a.
Definition cg_source_realm (g : CustodyGrantV1) :=
  let '(mkCustodyGrantV1 _ _ _ _ _ r _ _ _ _ _ _ _ _ _) := g in r.
Definition cg_source_node (g : CustodyGrantV1) :=
  let '(mkCustodyGrantV1 _ _ _ _ _ _ n _ _ _ _ _ _ _ _) := g in n.
Definition cg_destination_realm (g : CustodyGrantV1) :=
  let '(mkCustodyGrantV1 _ _ _ _ _ _ _ r _ _ _ _ _ _ _) := g in r.
Definition cg_destination_node (g : CustodyGrantV1) :=
  let '(mkCustodyGrantV1 _ _ _ _ _ _ _ _ n _ _ _ _ _ _) := g in n.
Definition cg_checkpoint_hash (g : CustodyGrantV1) :=
  let '(mkCustodyGrantV1 _ _ _ _ _ _ _ _ _ c _ _ _ _ _) := g in c.
Definition cg_source_log_root (g : CustodyGrantV1) :=
  let '(mkCustodyGrantV1 _ _ _ _ _ _ _ _ _ _ l _ _ _ _) := g in l.
Definition cg_destination_operational_key (g : CustodyGrantV1) :=
  let '(mkCustodyGrantV1 _ _ _ _ _ _ _ _ _ _ _ k _ _ _) := g in k.
Definition cg_evidence (g : CustodyGrantV1) :=
  let '(mkCustodyGrantV1 _ _ _ _ _ _ _ _ _ _ _ _ e _ _) := g in e.
Definition cg_destination_rewrap (g : CustodyGrantV1) :=
  let '(mkCustodyGrantV1 _ _ _ _ _ _ _ _ _ _ _ _ _ _ r) := g in r.

Definition cp_grant (p : CustodyPreparedV1) := let '(mkCustodyPreparedV1 g _ _ _ _ _ _ _) := p in g.
Definition cp_checkpoint (p : CustodyPreparedV1) :=
  let '(mkCustodyPreparedV1 _ c _ _ _ _ _ _) := p in c.
Definition cp_grant_hash (p : CustodyPreparedV1) :=
  let '(mkCustodyPreparedV1 _ _ h _ _ _ _ _) := p in h.
Definition cp_checkpoint_hash (p : CustodyPreparedV1) :=
  let '(mkCustodyPreparedV1 _ _ _ h _ _ _ _) := p in h.
Definition cp_source_log_root (p : CustodyPreparedV1) :=
  let '(mkCustodyPreparedV1 _ _ _ _ l _ _ _) := p in l.
Definition cp_source_coordinator (p : CustodyPreparedV1) :=
  let '(mkCustodyPreparedV1 _ _ _ _ _ c _ _) := p in c.
Definition cp_rewrap_inventory_hash (p : CustodyPreparedV1) :=
  let '(mkCustodyPreparedV1 _ _ _ _ _ _ h _) := p in h.
Definition cp_rewrap_item_count (p : CustodyPreparedV1) :=
  let '(mkCustodyPreparedV1 _ _ _ _ _ _ _ c) := p in c.

(** The chain is linear, so one recursion decides equality of all three. *)
#[export] Instance HomeAuthorityV1_eq_dec : EqDecision HomeAuthorityV1.
Proof.
  unfold EqDecision, Decision. fix IH 1. decide equality;
    repeat first [exact (IH _ _) | apply (_ : EqDecision _) | decide equality].
Defined.
#[export] Instance CustodyGrantV1_eq_dec : EqDecision CustodyGrantV1.
Proof. unfold EqDecision, Decision. decide equality; apply (_ : EqDecision _). Defined.
#[export] Instance CustodyPreparedV1_eq_dec : EqDecision CustodyPreparedV1.
Proof. unfold EqDecision, Decision. decide equality; apply (_ : EqDecision _). Defined.

Record HomeLeaseV1 : Type := mkHomeLeaseV1 {
  hl_home : HomeId;
  hl_epoch : N;
  hl_lease_sequence : N;
  hl_realm : string;
  hl_node : string;
  hl_coordinator : string;
  hl_authority : HomeAuthorityV1;
  hl_handoff : option HandoffId;
  hl_custody_grant : option (SignedRecordV1 CustodyGrantV1);
  hl_checkpoint_hash : string;
  hl_issued_at_unix_ms : option N;
  hl_expires_at_unix_ms : option N
}.

(** [is_home_lease_coordinator_revision]. *)
Definition is_home_lease_coordinator_revision (current next : HomeLeaseV1) : bool :=
  bool_decide (hl_lease_sequence current < hl_lease_sequence next)
  && bool_decide (hl_home next = hl_home current)
  && bool_decide (hl_epoch next = hl_epoch current)
  && bool_decide (hl_realm next = hl_realm current)
  && bool_decide (hl_node next = hl_node current)
  && bool_decide (hl_authority next = hl_authority current)
  && bool_decide (hl_handoff next = hl_handoff current)
  && bool_decide (hl_custody_grant next = hl_custody_grant current)
  && bool_decide (hl_checkpoint_hash next = hl_checkpoint_hash current)
  && bool_decide (hl_issued_at_unix_ms next = hl_issued_at_unix_ms current)
  && bool_decide (hl_expires_at_unix_ms next = hl_expires_at_unix_ms current).

(** ** Execution *)

Record ExecutionGrantV1 : Type := mkExecutionGrantV1 {
  eg_attempt : AttemptId;
  eg_request_hash : string;
  eg_home_epoch : N;
  eg_home_route_sequence : N;
  eg_home_realm : string;
  eg_home_node : string;
  eg_home_coordinator : string;
  eg_owner : HomeId;
  eg_authority : HomeAuthorityV1;
  eg_function : FunctionId;
  eg_deployment : SignedRecordV1 DeploymentReceiptV1;
  eg_input : ValueRefV1;
  eg_delivery : DeliveryModeV1;
  eg_grant_sequence : N;
  eg_issued_at_unix_ms : option N;
  eg_deadline_unix_ms : option N
}.
#[export] Instance ExecutionGrantV1_eq_dec : EqDecision ExecutionGrantV1.
Proof. solve_decision. Defined.

Record ExecutionQueryV1 : Type := mkExecutionQueryV1 {
  eq_attempt : AttemptId;
  eq_grant_hash : string;
  eq_home_epoch : N;
  eq_home_route_sequence : N;
  eq_home_realm : string;
  eq_home_node : string;
  eq_home_coordinator : string;
  eq_authority : HomeAuthorityV1;
  eq_query : ControlId
}.

Inductive ControlDispositionV1 : Type :=
  | Applied | Rejected | Unsupported | TooLate.
#[export] Instance ControlDispositionV1_eq_dec : EqDecision ControlDispositionV1.
Proof. solve_decision. Defined.

Inductive ExecutionStageV1 : Type :=
  | XClaimed
  | XStarted
  | XProgress (sequence : N) (progress : ValueRefV1)
  | XCheckpoint (sequence : N) (checkpoint : ValueRefV1)
  | XSucceeded (result : ValueRefV1)
  | XFailed (error : ValueRefV1) (retryable : bool)
  | XIndeterminate (reason : string) (execution_may_have_occurred : bool)
  | XCancelled (reason : string)
  | XControlQueued (control : ControlId)
  | XControlAcknowledged (control : ControlId) (disposition : ControlDispositionV1)
      (detail : option string).
#[export] Instance ExecutionStageV1_eq_dec : EqDecision ExecutionStageV1.
Proof. solve_decision. Defined.

Record ExecutionReceiptV1 : Type := mkExecutionReceiptV1 {
  ex_attempt : AttemptId;
  ex_grant_hash : string;
  ex_executor : string;
  ex_sequence : N;
  ex_observed_at_unix_ms : option N;
  ex_stage : ExecutionStageV1
}.
#[export] Instance ExecutionReceiptV1_eq_dec : EqDecision ExecutionReceiptV1.
Proof. solve_decision. Defined.

(** ** Controls *)

Inductive JobControlKindV1 : Type :=
  | Steer (value : ValueRefV1)
  | Cancel (reason : string)
  | AccessUpdate (add_readers remove_readers add_controllers remove_controllers : list HomeId)
  | ProposeChild (parent_attempt : AttemptId)
      (parent_event_hash spawn_key child_request_hash : string)
      (submit : SignedRecordV1 JobSubmitV1) (resolution : SignedRecordV1 ResolutionReceiptV1)
      (deployment : SignedRecordV1 DeploymentReceiptV1).
#[export] Instance JobControlKindV1_eq_dec : EqDecision JobControlKindV1.
Proof. solve_decision. Defined.

Record JobControlV1 : Type := mkJobControlV1 {
  jc_handle : JobHandleV1;
  jc_expected_home_epoch : N;
  jc_control : ControlId;
  jc_issued_at_unix_ms : option N;
  jc_kind : JobControlKindV1
}.
#[export] Instance JobControlV1_eq_dec : EqDecision JobControlV1.
Proof. solve_decision. Defined.

(** ** Events *)

Inductive JobEventKindV1 : Type :=
  | KSubmitted (spec : JobSpecV1)
  | KBlocked (reason : string)
  | KDispatchGranted (grant_hash : string) (attempt : AttemptId)
  | KClaimed (attempt : AttemptId) (executor : string)
  | KStarted (attempt : AttemptId)
  | KProgress (attempt : AttemptId) (sequence : N) (progress : ValueRefV1)
  | KCheckpoint (attempt : AttemptId) (sequence : N) (checkpoint : ValueRefV1)
  | KControlRequested (request : SignedRecordV1 JobControlV1) (attempt : option AttemptId)
  | KControlQueued (control : ControlId) (attempt : AttemptId)
  | KControlAcknowledged (control : ControlId) (attempt : AttemptId)
      (disposition : ControlDispositionV1)
  | KAttemptFailed (attempt : AttemptId) (error : ValueRefV1) (retryable : bool)
  | KRetryScheduled (next_attempt : AttemptId) (not_before_unix_ms : option N)
  | KSucceeded (attempt : AttemptId) (result : ValueRefV1)
  | KFailed (error : ValueRefV1)
  | KCancelled (reason : string)
  | KIndeterminate (attempt : AttemptId) (reason : string) (execution_may_have_occurred : bool)
  | KLateReceipt (attempt : AttemptId) (observed : ExecutionStageV1)
  | KAccessUpdated (control : ControlId) (request_hash : string) (access : JobAccessV1)
  | KChildSpawned (parent_attempt : AttemptId) (parent_event_hash spawn_key : string)
      (child root : JobHandleV1) (child_request_hash : string)
  | KCustodyPrepared (handoff : HandoffId) (next_epoch : N)
  | KCustodyActivated (handoff : HandoffId).
#[export] Instance JobEventKindV1_eq_dec : EqDecision JobEventKindV1.
Proof. solve_decision. Defined.

Record JobEventV1 : Type := mkJobEventV1 {
  je_handle : JobHandleV1;
  je_home_epoch : N;
  je_authority : HomeAuthorityV1;
  je_sequence : N;
  je_occurred_at_unix_ms : option N;
  je_state_after : JobStateV1;
  je_cancel_requested : bool;
  je_kind : JobEventKindV1;
  je_foreign_receipt : option (SignedRecordV1 ExecutionReceiptV1)
}.
#[export] Instance JobEventV1_eq_dec : EqDecision JobEventV1.
Proof. solve_decision. Defined.

Record JobSnapshotV1 : Type := mkJobSnapshotV1 {
  ss_spec : JobSpecV1;
  ss_state : JobStateV1;
  ss_cancel_requested : bool;
  ss_home_epoch : N;
  ss_authority : HomeAuthorityV1;
  ss_last_sequence : N;
  ss_current_attempt : option AttemptId;
  ss_result : option ValueRefV1;
  ss_error : option ValueRefV1
}.

(** Home-endorsed control forwarding. *)
Record ExecutionControlV1 : Type := mkExecutionControlV1 {
  xc_caller_request : SignedRecordV1 JobControlV1;
  xc_accepted_event : SignedRecordV1 JobEventV1;
  xc_attempt : AttemptId;
  xc_grant_hash : string;
  xc_home_epoch : N;
  xc_home_route_sequence : N;
  xc_home_sequence : N;
  xc_home_realm : string;
  xc_home_node : string;
  xc_home_coordinator : string;
  xc_authority : HomeAuthorityV1
}.

(** ** Serialisers *)

#[export] Instance BlobRefV1_to_value : ToValue BlobRefV1 :=
  fun b =>
    Ok (JObject [("digest", JString (br_digest b)); ("size", JNumber (dec (br_size b)));
                 ("media_type", JString (br_media_type b))]).

#[export] Instance CustodyRewrapInventoryCommitmentV1_to_value :
    ToValue CustodyRewrapInventoryCommitmentV1 :=
  fun c =>
    b ← to_value (cc_ciphertext c);
    Ok (JObject [("sealed_value_hash", JString (cc_sealed_value_hash c)); ("ciphertext", b);
                 ("source_wrap_hash", JString (cc_source_wrap_hash c))]).

(** A [Vec] serialises to the array of its elements. *)
#[export] Instance list_to_value {T} `{!ToValue T} : ToValue (list T) :=
  fun l => vs ← mapM to_value l; Ok (JArray vs).

#[export] Instance CustodyRewrapInventoryHashV1_to_value : ToValue CustodyRewrapInventoryHashV1 :=
  fun h =>
    items ← to_value (ch_items h);
    Ok (JObject [("schema", JString (ch_schema h)); ("purpose", JString (ch_purpose h));
                 ("items", items)]).

Class WireSerde : Type := {
  ws_resolution :: ToValue ResolutionReceiptV1;
  ws_abode :: ToValue AbodeKeyBindingV1;
  ws_operational :: ToValue OperationalKeyGrantV1;
  ws_recipient :: ToValue RecipientKeyBindingV1;
  ws_wrap :: ToValue RecipientKeyWrapV1;
  ws_submit :: ToValue JobSubmitV1;
  ws_spec :: ToValue JobSpecV1;
  ws_deployment_request :: ToValue DeploymentRequestV1;
  ws_registration :: ToValue DeploymentRegistrationV1;
  ws_deployment :: ToValue DeploymentReceiptV1;
  ws_deployment_list :: ToValue DeploymentListV1;
  ws_undeploy :: ToValue UndeployReceiptV1;
  ws_checkpoint :: ToValue HomeCheckpointV1;
  ws_rewrap :: ToValue CustodyRewrapRequirementV1;
  ws_custody :: ToValue CustodyGrantV1;
  ws_prepared :: ToValue CustodyPreparedV1;
  ws_lease :: ToValue HomeLeaseV1;
  ws_grant :: ToValue ExecutionGrantV1;
  ws_query :: ToValue ExecutionQueryV1;
  ws_receipt :: ToValue ExecutionReceiptV1;
  ws_control :: ToValue JobControlV1;
  ws_event :: ToValue JobEventV1;
  ws_snapshot :: ToValue JobSnapshotV1;
  ws_execution_control :: ToValue ExecutionControlV1
}.

Section wire.
  Context `{!Sha256} `{!JsonText} `{!Ed25519} `{!WireSerde}.

(** [record.schema != schema || !record.verify()]. *)
Definition unsigned {T} `{!ToValue T} (schema : string) (r : SignedRecordV1 T) : bool :=
  bool_decide (sr_schema r ≠ schema) || negb (SignedRecordV1_verify r).

Definition validate_opt {T} (validate : T → result ContractError unit) (o : option T) :
    result ContractError unit :=
  match o with Some x => validate x | None => Ok tt end.

(** *** Submissions, deployments and specifications *)

Definition JobSubmitV1_validate (s : JobSubmitV1) : result ContractError unit :=
  _ ← HomeId_validate (js_home s);
  _ ← validate_text "caller_idempotency_key" (js_caller_idempotency_key s)
        MAX_IDEMPOTENCY_KEY_BYTES;
  _ ← FunctionSelectorV1_validate (js_function s);
  _ ← ValueRefV1_validate (js_input s);
  _ ← DeliveryModeV1_validate (js_delivery s);
  _ ← validate_opt JobHandleV1_validate (js_parent s);
  _ ← validate_causal_links (js_causal s);
  _ ← JobAccessV1_validate (js_access s);
  _ ← validate_vec EvidenceRefV1_validate "job evidence" (js_evidence s) MAX_EVIDENCE_REFS;
  _ ← validate_vec HomeId_validate "result recipients" (js_result_recipients s)
        MAX_RESULT_RECIPIENTS;
  ensure_message_bound s.

Definition request_hash (s : JobSubmitV1) : result ContractError string :=
  _ ← JobSubmitV1_validate s; canonical_hash s.

Definition verify_deployment_receipt (r : SignedRecordV1 DeploymentReceiptV1) :
    result ContractError unit :=
  _ ← SignedRecordV1_validate DeploymentReceiptV1_validate r;
  if decide (sr_schema r ≠ SCHEMA_FUNCTION_DEPLOY_V1) then
    Err (Invalid ("deployment receipt schema is `" +:+ sr_schema r +:+ "`, expected `"
                  +:+ SCHEMA_FUNCTION_DEPLOY_V1 +:+ "`"))
  else if negb (SignedRecordV1_verify r) then Err (Crypto "invalid deployment receipt signature")
  else if decide (sr_signer r ≠ dr_executor (sr_payload r)) then
    Err (Invalid "deployment receipt signer does not match its executor identity")
  else Ok tt.

Definition verify_undeploy_receipt (r : SignedRecordV1 UndeployReceiptV1) :
    result ContractError unit :=
  _ ← SignedRecordV1_validate UndeployReceiptV1_validate r;
  if decide (sr_schema r ≠ SCHEMA_FUNCTION_DEPLOY_V1) then
    Err (Invalid ("undeploy receipt schema is `" +:+ sr_schema r +:+ "`, expected `"
                  +:+ SCHEMA_FUNCTION_DEPLOY_V1 +:+ "`"))
  else if negb (SignedRecordV1_verify r) then Err (Crypto "invalid undeploy receipt signature")
  else if decide (sr_signer r ≠ ur_executor (sr_payload r)) then
    Err (Invalid "undeploy receipt signer does not match its executor identity")
  else Ok tt.

Definition DeploymentListV1_validate (l : DeploymentListV1) : result ContractError unit :=
  if decide (MAX_EVENT_PAGE_ITEMS < N.of_nat (length (dl_deployments l))) then
    Err (Limit ("deployment list has " +:+ dec (N.of_nat (length (dl_deployments l)))
                +:+ " items, exceeds " +:+ dec MAX_EVENT_PAGE_ITEMS))
  else
    _ ← validate_each verify_deployment_receipt (dl_deployments l);
    ensure_message_bound l.

Definition DeploymentRequestV1_validate (r : DeploymentRequestV1) : result ContractError unit :=
  _ ← HomeId_validate (dq_requested_by r);
  _ ← FunctionSelectorV1_validate (dq_function r);
  _ ← validate_text "target_realm" (dq_target_realm r) MAX_ID_BYTES;
  _ ← validate_optional_text "target_node" (dq_target_node r) MAX_ID_BYTES;
  _ ← validate_vec EvidenceRefV1_validate "deployment evidence" (dq_evidence r) MAX_EVIDENCE_REFS;
  ensure_message_bound r.

Definition DeploymentRegistrationV1_validate (r : DeploymentRegistrationV1) :
    result ContractError unit :=
  let authorization := dg_authorization r in
  let resolution := dg_resolution r in
  _ ← SignedRecordV1_validate DeploymentRequestV1_validate authorization;
  if unsigned SCHEMA_FUNCTION_DEPLOY_V1 authorization
     || bool_decide (sr_signer authorization ≠ dq_requested_by (sr_payload authorization)) then
    Err (Crypto "deployment registration authorization signature is invalid")
  else
    _ ← SignedRecordV1_validate ResolutionReceiptV1_validate resolution;
    if unsigned SCHEMA_FUNCTION_DEPLOY_V1 resolution then
      Err (Crypto "deployment registration resolution signature is invalid")
    else if bool_decide (dq_function (sr_payload authorization)
                         ≠ rr_selector (sr_payload resolution))
       || bool_decide (rr_function (sr_payload resolution) ≠ dg_function r)
       || bool_decide (rr_artifact_hash (sr_payload resolution) ≠ dg_artifact_hash r) then
      Err (Invalid
             "deployment authorization, resolution, function, and artifact do not match")
    else
      _ ← DeploymentId_validate (dg_deployment r);
      _ ← FunctionId_validate (dg_function r);
      _ ← validate_sha256 "artifact_hash" (dg_artifact_hash r);
      _ ← validate_creature_id "registration.target_creature" (dg_target_creature r);
      validate_vec EvidenceRefV1_validate "registration evidence" (dg_evidence r)
        MAX_EVIDENCE_REFS.

Definition verify_deployment_registration (r : SignedRecordV1 DeploymentRegistrationV1) :
    result ContractError unit :=
  _ ← SignedRecordV1_validate DeploymentRegistrationV1_validate r;
  if unsigned SCHEMA_FUNCTION_DEPLOY_V1 r then
    Err (Crypto "deployment registration request signature is invalid")
  else Ok tt.

Definition JobSpecV1_validate (s : JobSpecV1) : result ContractError unit :=
  _ ← JobHandleV1_validate (sp_handle s);
  _ ← JobHandleV1_validate (sp_root s);
  if decide (jh_home (sp_root s) ≠ jh_home (sp_handle s)) then
    Err (Invalid "job root and handle must belong to the same Home")
  else
    _ ← validate_text "caller_idempotency_key" (sp_caller_idempotency_key s)
          MAX_IDEMPOTENCY_KEY_BYTES;
    _ ← validate_sha256 "request_hash" (sp_request_hash s);
    _ ← ResolvedFunctionV1_validate (sp_function s);
    _ ← verify_deployment_receipt (sp_deployment s);
    if bool_decide (dr_function (sr_payload (sp_deployment s)) ≠ rf_function (sp_function s))
       || bool_decide (dr_artifact_hash (sr_payload (sp_deployment s))
                       ≠ rf_artifact_hash (sp_function s)) then
      Err (Invalid "accepted deployment does not match the resolved function/artifact")
    else
      _ ← ValueRefV1_validate (sp_input s);
      _ ← DeliveryModeV1_validate (sp_delivery s);
      _ ← match sp_parent s with
          | Some parent =>
              _ ← JobHandleV1_validate parent;
              if decide (jh_home parent ≠ jh_home (sp_handle s) ∨ sp_root s = sp_handle s) then
                Err (Invalid "child parent/root must share its Home and root cannot be the child")
              else Ok tt
          | None =>
              if decide (sp_root s ≠ sp_handle s) then
                Err (Invalid "a root job must name itself as its immutable workflow root")
              else Ok tt
          end;
      _ ← validate_causal_links (sp_causal s);
      _ ← JobAccessV1_validate (sp_access s);
      _ ← validate_vec EvidenceRefV1_validate "job evidence" (sp_evidence s) MAX_EVIDENCE_REFS;
      _ ← validate_vec HomeId_validate "result recipients" (sp_result_recipients s)
            MAX_RESULT_RECIPIENTS;
      ensure_message_bound s.

(** *** Rewrap requirements *)

Definition verify_recipient_key_binding (r : SignedRecordV1 RecipientKeyBindingV1) :
    result ContractError unit :=
  _ ← SignedRecordV1_validate RecipientKeyBindingV1_validate r;
  if unsigned SCHEMA_HOME_V1 r then Err (Crypto "invalid recipient-key-binding signature")
  else if decide (sr_signer r ≠ rk_abode (sr_payload r)) then
    Err (Invalid "recipient-key binding must be signed by the named Abode root")
  else Ok tt.

Definition CustodyRewrapRequirementV1_validate (r : CustodyRewrapRequirementV1) :
    result ContractError unit :=
  _ ← verify_recipient_key_binding (cr_source_binding r);
  _ ← verify_recipient_key_binding (cr_destination_binding r);
  let source := sr_payload (cr_source_binding r) in
  let destination := sr_payload (cr_destination_binding r) in
  let rotate := "custody rewrap must rotate to a distinct destination encryption binding" in
  if decide (rk_abode source ≠ rk_abode destination) then
    Err (Invalid "custody rewrap key bindings must name the same Abode")
  else if decide (rk_suite source ≠ rk_suite destination) then
    Err (Invalid "custody rewrap v1 requires the same source and destination key suite")
  else if decide (rk_encryption_public_key source = rk_encryption_public_key destination) then
    Err (Invalid rotate)
  else
    a ← canonical_hash (cr_source_binding r);
    b ← canonical_hash (cr_destination_binding r);
    if decide (a = b) then Err (Invalid rotate)
    else
      _ ← validate_vec EvidenceRefV1_validate "custody rewrap evidence" (cr_evidence r)
            MAX_EVIDENCE_REFS;
      ensure_message_bound r.

(** [prior >= name]. *)
Fixpoint rewrap_item_order_from (previous : option string) (names : list string) :
    result ContractError unit :=
  match names with
  | [] => Ok tt
  | name :: names =>
      if match previous with Some prior => str_leb name prior | None => false end then
        Err (Invalid
               "custody rewrap items must be strictly ordered by unique sealed_value_hash")
      else rewrap_item_order_from (Some name) names
  end.

Definition validate_rewrap_item_order (names : list string) : result ContractError unit :=
  rewrap_item_order_from None names.

Definition SCHEMA_CUSTODY_REWRAP_V1 : string := "gawd.function.custody.rewrap.v1".

Definition rewrap_inventory_hash (items : list CustodyRewrapInventoryCommitmentV1) :
    result ContractError string :=
  canonical_hash (mkCustodyRewrapInventoryHashV1 SCHEMA_CUSTODY_REWRAP_V1 "source_inventory" items).

(** The commitment loop of [custody_rewrap_inventory_hash]. *)
Fixpoint rewrap_commitments (inventory : list CustodyRewrapSourceV1) :
    result ContractError (list CustodyRewrapInventoryCommitmentV1) :=
  match inventory with
  | [] => Ok []
  | source :: inventory =>
      _ ← CustodyRewrapSourceV1_validate source;
      h ← canonical_hash (cs_source_wrap source);
      rest ← rewrap_commitments inventory;
      Ok (mkCustodyRewrapInventoryCommitmentV1 (cs_sealed_value_hash source)
            (cs_ciphertext source) h :: rest)
  end.

Definition custody_rewrap_inventory_hash (inventory : list CustodyRewrapSourceV1) :
    result ContractError string :=
  if decide (MAX_CUSTODY_REWRAP_ITEMS < N.of_nat (length inventory)) then
    Err (Limit ("custody rewrap inventory has " +:+ dec (N.of_nat (length inventory))
                +:+ " items, exceeds " +:+ dec MAX_CUSTODY_REWRAP_ITEMS))
  else
    _ ← validate_rewrap_item_order (map cs_sealed_value_hash inventory);
    commitments ← rewrap_commitments inventory;
    rewrap_inventory_hash commitments.

Definition verify_custody_rewrap_inventory (home : HomeId)
    (requirement : CustodyRewrapRequirementV1) (inventory : list CustodyRewrapSourceV1) :
    result ContractError string :=
  _ ← CustodyRewrapRequirementV1_validate requirement;
  if bool_decide (rk_abode (sr_payload (cr_source_binding requirement)) ≠ home)
     || bool_decide (rk_abode (sr_payload (cr_destination_binding requirement)) ≠ home) then
    Err (Invalid "custody rewrap inventory and bindings do not name the granted Home")
  else
    source_binding_hash ← canonical_hash (cr_source_binding requirement);
    if forallb (fun source =>
         bool_decide (rw_recipient (cs_source_wrap source) = home)
         && bool_decide (rw_binding_hash (cs_source_wrap source) = source_binding_hash)) inventory
    then custody_rewrap_inventory_hash inventory
    else Err (Invalid
      "custody rewrap source envelope does not use the exact declared source binding").

(** *** The authority chain *)

(** [{capability:?}]. *)
Definition capability_debug (c : OperationalCapabilityV1) : string :=
  match c with
  | CapJobHome => "JobHome" | CapJobControl => "JobControl" | CapExecution => "Execution"
  | CapCustody => "Custody" | CapLocate => "Locate"
  end.

Definition HomeAuthorityV1_verify_with (validate : HomeAuthorityV1 → result ContractError unit)
    (a : HomeAuthorityV1) (home : HomeId) (epoch : N) (capability : OperationalCapabilityV1) :
    result ContractError unit :=
  _ ← validate a;
  let binding := sr_payload (ha_abode a) in
  let grant := sr_payload (ha_operational a) in
  if bool_decide (ab_abode binding ≠ home) || bool_decide (ab_root_public_key binding ≠ home) then
    Err (Invalid "Abode binding does not self-bind the requested home/root key")
  else if bool_decide (og_home grant ≠ home) || bool_decide (og_epoch grant ≠ epoch) then
    Err (Invalid "operational grant does not match requested home/epoch")
  else if decide (capability ∈ og_capabilities grant) then Ok tt
  else Err (Invalid ("operational grant lacks required `" +:+ capability_debug capability
                     +:+ "` capability")).

Definition verify_custody_grant_with (validate : CustodyGrantV1 → result ContractError unit)
    (r : SignedRecordV1 CustodyGrantV1) : result ContractError unit :=
  _ ← SignedRecordV1_validate validate r;
  if unsigned SCHEMA_HOME_V1 r then Err (Crypto "invalid custody-grant signature")
  else if decide (sr_signer r ≠ cg_home (sr_payload r)) then
    Err (Invalid "custody grant must be signed by the owning Abode root")
  else Ok tt.

Definition verify_handoff_checkpoint_with (validate : CustodyGrantV1 → result ContractError unit)
    (grant : SignedRecordV1 CustodyGrantV1) (checkpoint : SignedRecordV1 HomeCheckpointV1) :
    result ContractError unit :=
  _ ← verify_custody_grant_with validate grant;
  _ ← SignedRecordV1_validate HomeCheckpointV1_validate checkpoint;
  if unsigned SCHEMA_HOME_V1 checkpoint then
    Err (Crypto "invalid handoff checkpoint signature")
  else
    let g := sr_payload grant in
    let c := sr_payload checkpoint in
    let source_key :=
      og_operational_public_key (sr_payload (ha_operational (cg_source_authority g))) in
    let mismatch :=
      Invalid "handoff checkpoint does not match source authority/home/epoch/hash-chain tip" in
    if bool_decide (sr_signer checkpoint ≠ source_key)
       || bool_decide (hc_home c ≠ cg_home g)
       || bool_decide (hc_epoch c ≠ cg_from_epoch g)
       || bool_decide (hc_log_root c ≠ cg_source_log_root g) then Err mismatch
    else
      h ← canonical_hash checkpoint;
      if decide (h ≠ cg_checkpoint_hash g) then Err mismatch else Ok tt.

Definition verify_custody_prepared_with (validate : CustodyPreparedV1 → result ContractError unit)
    (r : SignedRecordV1 CustodyPreparedV1) : result ContractError unit :=
  _ ← SignedRecordV1_validate validate r;
  if unsigned SCHEMA_HOME_V1 r then Err (Crypto "invalid custody-prepared signature")
  else
    let source := cg_source_authority (sr_payload (cp_grant (sr_payload r))) in
    if decide (sr_signer r ≠ og_operational_public_key (sr_payload (ha_operational source))) then
      Err (Invalid "custody-prepared signer is not the root-authorized source epoch key")
    else Ok tt.

(** The capability loop of [CustodyGrantV1::validate]. *)
Fixpoint require_capabilities (key : OperationalKeyGrantV1)
    (required : list OperationalCapabilityV1) : result ContractError unit :=
  match required with
  | [] => Ok tt
  | c :: required =>
      if decide (c ∈ og_capabilities key) then require_capabilities key required
      else Err (Invalid ("destination operational key lacks required `" +:+ capability_debug c
                         +:+ "` capability"))
  end.

(** The key-separation loops of [CustodyGrantV1::validate]: each proof-signing
    key against the encryption keys and then the authority keys, then each
    encryption key against the authority keys. *)
Definition rewrap_keys_separate (proof_signers encryption_keys authority_keys : list string) :
    result ContractError unit :=
  _ ← validate_each (fun p =>
        if decide (p ∈ encryption_keys) then
          Err (Invalid "custody rewrap proof-signing and encryption keys must be separate")
        else if decide (p ∈ authority_keys) then
          Err (Invalid
            "custody rewrap proof keys must be separate from root and epoch authority keys")
        else Ok tt) proof_signers;
  validate_each (fun e =>
    if decide (e ∈ authority_keys) then
      Err (Invalid
        "custody rewrap encryption keys must be separate from root and epoch authority keys")
    else Ok tt) encryption_keys.

(** The rewrap section of [CustodyGrantV1::validate]. *)
Definition custody_rewrap_check (g : CustodyGrantV1) : result ContractError unit :=
  match cg_destination_rewrap g with
  | None => Ok tt
  | Some requirement =>
      _ ← CustodyRewrapRequirementV1_validate requirement;
      let source := sr_payload (cr_source_binding requirement) in
      let destination := sr_payload (cr_destination_binding requirement) in
      if bool_decide (rk_abode source ≠ cg_home g)
         || bool_decide (rk_abode destination ≠ cg_home g) then
        Err (Invalid "custody rewrap bindings do not name the granted Home")
      else
        rewrap_keys_separate
          [rk_signing_public_key source; rk_signing_public_key destination]
          [rk_encryption_public_key source; rk_encryption_public_key destination]
          [cg_home g;
           og_operational_public_key (sr_payload (ha_operational (cg_source_authority g)));
           og_operational_public_key (sr_payload (cg_destination_operational_key g))]
  end.

(** The rewrap section of [CustodyPreparedV1::validate]. *)
Definition prepared_rewrap_check (p : CustodyPreparedV1) : result ContractError unit :=
  match cg_destination_rewrap (sr_payload (cp_grant p)), cp_rewrap_inventory_hash p,
        cp_rewrap_item_count p with
  | None, None, None => Ok tt
  | Some _, Some inventory_hash, Some item_count =>
      _ ← validate_sha256 "prepared rewrap_inventory_hash" inventory_hash;
      if decide (MAX_CUSTODY_REWRAP_ITEMS < item_count) then
        Err (Limit ("prepared custody rewrap has " +:+ dec item_count +:+ " items, exceeds "
                    +:+ dec MAX_CUSTODY_REWRAP_ITEMS))
      else Ok tt
  | _, _, _ =>
      Err (Invalid
        "prepared custody rewrap inventory fields must be present exactly when the grant declares rewrap")
  end.

(** The three validators call one another down the chain; each takes the
    validator of the record nested in it. *)
Definition HomeAuthorityV1_validate_with
    (validate_prepared : CustodyPreparedV1 → result ContractError unit) (a : HomeAuthorityV1) :
    result ContractError unit :=
  let abode := ha_abode a in
  let operational := ha_operational a in
  _ ← SignedRecordV1_validate AbodeKeyBindingV1_validate abode;
  _ ← SignedRecordV1_validate OperationalKeyGrantV1_validate operational;
  if bool_decide (sr_schema abode ≠ SCHEMA_HOME_V1)
     || bool_decide (sr_schema operational ≠ SCHEMA_HOME_V1) then
    Err (Invalid ("home authority records must both use `" +:+ SCHEMA_HOME_V1 +:+ "`"))
  else if negb (SignedRecordV1_verify abode) || negb (SignedRecordV1_verify operational) then
    Err (Crypto "home authority chain contains an invalid signature")
  else
    let binding := sr_payload abode in
    if bool_decide (sr_signer abode ≠ ab_root_public_key binding)
       || bool_decide (ab_abode binding ≠ ab_root_public_key binding) then
      Err (Invalid "Abode key binding must be self-signed by the Abode root")
    else if decide (sr_signer operational ≠ ab_root_public_key binding) then
      Err (Invalid "operational key grant must be signed by the bound Abode root")
    else
      let grant := sr_payload operational in
      match ha_prepared a with
      | None =>
          if decide (og_epoch grant = 1) then Ok tt
          else Err (Invalid "moved Home authority requires a source-fsynced custody proof")
      | Some prepared =>
          if decide (og_epoch grant = 1) then
            Err (Invalid "genesis Home authority must not carry a custody proof")
          else
            _ ← verify_custody_prepared_with validate_prepared prepared;
            let custody := sr_payload (cp_grant (sr_payload prepared)) in
            if bool_decide (cg_home custody ≠ og_home grant)
               || bool_decide (cg_to_epoch custody ≠ og_epoch grant)
               || bool_decide (cg_destination_operational_key custody ≠ operational)
               || bool_decide (ha_abode (cg_source_authority custody) ≠ abode) then
              Err (Invalid
                "Home authority does not continue its exact source-fsynced custody proof")
            else Ok tt
      end.

Definition CustodyGrantV1_validate_with
    (validate_authority : HomeAuthorityV1 → result ContractError unit) (g : CustodyGrantV1) :
    result ContractError unit :=
  let key_record := cg_destination_operational_key g in
  let key := sr_payload key_record in
  _ ← HomeId_validate (cg_home g);
  _ ← HandoffId_validate (cg_handoff g);
  if decide (cg_from_epoch g = 0 ∨ cg_to_epoch g ≠ N.min (cg_from_epoch g + 1) u64_MAX) then
    Err (Invalid "custody grant must advance exactly one non-zero epoch")
  else
    _ ← HomeAuthorityV1_verify_with validate_authority (cg_source_authority g) (cg_home g)
          (cg_from_epoch g) CapCustody;
    _ ← validate_text "source_realm" (cg_source_realm g) MAX_ID_BYTES;
    _ ← validate_text "source_node" (cg_source_node g) MAX_ID_BYTES;
    _ ← validate_text "destination_realm" (cg_destination_realm g) MAX_ID_BYTES;
    _ ← validate_text "destination_node" (cg_destination_node g) MAX_ID_BYTES;
    _ ← validate_sha256 "checkpoint_hash" (cg_checkpoint_hash g);
    _ ← validate_sha256 "source_log_root" (cg_source_log_root g);
    _ ← SignedRecordV1_validate OperationalKeyGrantV1_validate key_record;
    if unsigned SCHEMA_HOME_V1 key_record || bool_decide (sr_signer key_record ≠ cg_home g) then
      Err (Crypto "destination operational key is not signed by the Abode root")
    else if bool_decide (og_home key ≠ cg_home g) || bool_decide (og_epoch key ≠ cg_to_epoch g)
    then Err (Invalid "destination operational key does not match home/epoch")
    else
      _ ← require_capabilities key [CapJobHome; CapJobControl; CapCustody; CapLocate];
      _ ← validate_vec EvidenceRefV1_validate "custody evidence" (cg_evidence g)
            MAX_EVIDENCE_REFS;
      custody_rewrap_check g.

Definition CustodyPreparedV1_validate_with
    (validate_grant : CustodyGrantV1 → result ContractError unit) (p : CustodyPreparedV1) :
    result ContractError unit :=
  _ ← verify_handoff_checkpoint_with validate_grant (cp_grant p) (cp_checkpoint p);
  _ ← validate_sha256 "prepared grant_hash" (cp_grant_hash p);
  _ ← validate_sha256 "prepared checkpoint_hash" (cp_checkpoint_hash p);
  _ ← validate_sha256 "prepared source_log_root" (cp_source_log_root p);
  _ ← validate_text "prepared source_coordinator" (cp_source_coordinator p) MAX_ID_BYTES;
  let unbound :=
    Invalid "prepared proof does not bind its exact grant/checkpoint/log root" in
  gh ← canonical_hash (cp_grant p);
  if decide (gh ≠ cp_grant_hash p) then Err unbound
  else
    ch ← canonical_hash (cp_checkpoint p);
    if bool_decide (ch ≠ cp_checkpoint_hash p)
       || bool_decide (cp_source_log_root p ≠ cg_source_log_root (sr_payload (cp_grant p)))
       || bool_decide (cp_source_log_root p ≠ hc_log_root (sr_payload (cp_checkpoint p))) then
      Err unbound
    else
      _ ← prepared_rewrap_check p;
      ensure_message_bound p.

Fixpoint HomeAuthorityV1_validate (a : HomeAuthorityV1) : result ContractError unit :=
  HomeAuthorityV1_validate_with CustodyPreparedV1_validate a
with CustodyGrantV1_validate (g : CustodyGrantV1) : result ContractError unit :=
  CustodyGrantV1_validate_with HomeAuthorityV1_validate g
with CustodyPreparedV1_validate (p : CustodyPreparedV1) : result ContractError unit :=
  CustodyPreparedV1_validate_with CustodyGrantV1_validate p.

Definition HomeAuthorityV1_verify : HomeAuthorityV1 → HomeId → N → OperationalCapabilityV1 →
    result ContractError unit := HomeAuthorityV1_verify_with HomeAuthorityV1_validate.
Definition verify_custody_grant : SignedRecordV1 CustodyGrantV1 → result ContractError unit :=
  verify_custody_grant_with CustodyGrantV1_validate.
Definition verify_handoff_checkpoint : SignedRecordV1 CustodyGrantV1 →
    SignedRecordV1 HomeCheckpointV1 → result ContractError unit :=
  verify_handoff_checkpoint_with CustodyGrantV1_validate.
Definition verify_custody_prepared : SignedRecordV1 CustodyPreparedV1 →
    result ContractError unit := verify_custody_prepared_with CustodyPreparedV1_validate.

(** *** Leases *)

Definition HomeLeaseV1_validate (l : HomeLeaseV1) : result ContractError unit :=
  _ ← HomeId_validate (hl_home l);
  if decide (hl_epoch l = 0 ∨ hl_lease_sequence l = 0) then
    Err (Invalid "home epoch and lease sequence must be non-zero")
  else
    _ ← validate_text "home realm" (hl_realm l) MAX_ID_BYTES;
    _ ← validate_text "home node" (hl_node l) MAX_ID_BYTES;
    _ ← validate_text "home coordinator" (hl_coordinator l) MAX_ID_BYTES;
    _ ← HomeAuthorityV1_verify (hl_authority l) (hl_home l) (hl_epoch l) CapLocate;
    let omit := Invalid "genesis leases omit custody proof; moved leases require handoff and grant" in
    _ ← match hl_handoff l, hl_custody_grant l with
        | None, None => if decide (hl_epoch l = 1) then Ok tt else Err omit
        | Some handoff, Some grant =>
            _ ← HandoffId_validate handoff;
            _ ← verify_custody_grant grant;
            let g := sr_payload grant in
            if bool_decide (cg_home g ≠ hl_home l)
               || bool_decide (cg_to_epoch g ≠ hl_epoch l)
               || bool_decide (cg_handoff g ≠ handoff)
               || bool_decide (cg_destination_realm g ≠ hl_realm l)
               || bool_decide (cg_destination_node g ≠ hl_node l)
               || bool_decide (cg_destination_operational_key g ≠ ha_operational (hl_authority l))
               || bool_decide (ha_abode (cg_source_authority g) ≠ ha_abode (hl_authority l))
               || bool_decide (cg_checkpoint_hash g ≠ hl_checkpoint_hash l)
               || match ha_prepared (hl_authority l) with
                  | None => true
                  | Some prepared => bool_decide (cp_grant (sr_payload prepared) ≠ grant)
                  end then
              Err (Invalid "home lease does not match its exact root-signed custody grant")
            else Ok tt
        | _, _ => Err omit
        end;
    _ ← validate_sha256 "checkpoint_hash" (hl_checkpoint_hash l);
    validate_expiry (hl_issued_at_unix_ms l) (hl_expires_at_unix_ms l).

(** The key an authority grants for its epoch. *)
Definition operational_key (a : HomeAuthorityV1) : string :=
  og_operational_public_key (sr_payload (ha_operational a)).

Definition verify_home_lease (r : SignedRecordV1 HomeLeaseV1) : result ContractError unit :=
  _ ← SignedRecordV1_validate HomeLeaseV1_validate r;
  if unsigned SCHEMA_LOCATE_V1 r then Err (Crypto "invalid home lease signature")
  else if decide (sr_signer r ≠ operational_key (hl_authority (sr_payload r))) then
    Err (Invalid "home lease signer is not the authorized epoch operational key")
  else Ok tt.

(** *** Grants, queries and receipts *)

(** The moved-location section that grants, queries and controls share;
    [what] is the label in its messages. *)
Definition moved_location_check (what : string) (a : HomeAuthorityV1) (epoch : N)
    (realm node : string) : result ContractError unit :=
  if decide (1 < epoch) then
    prepared ← ok_or (ha_prepared a)
                 (Invalid ("moved execution " +:+ what +:+ " authority omits its Prepared proof"));
    let custody := sr_payload (cp_grant (sr_payload prepared)) in
    if bool_decide (realm ≠ cg_destination_realm custody)
       || bool_decide (node ≠ cg_destination_node custody) then
      Err (Invalid ("execution " +:+ what +:+ " location does not match its custody proof"))
    else Ok tt
  else Ok tt.

Definition ExecutionGrantV1_validate (g : ExecutionGrantV1) : result ContractError unit :=
  _ ← AttemptId_validate (eg_attempt g);
  _ ← validate_sha256 "execution grant request_hash" (eg_request_hash g);
  if decide (eg_home_epoch g = 0 ∨ eg_home_route_sequence g = 0 ∨ eg_grant_sequence g = 0) then
    Err (Invalid "home epoch, route sequence, and grant sequence must be non-zero")
  else
    _ ← validate_text "home_realm" (eg_home_realm g) MAX_ID_BYTES;
    _ ← validate_text "home_node" (eg_home_node g) MAX_ID_BYTES;
    _ ← validate_text "home_coordinator" (eg_home_coordinator g) MAX_ID_BYTES;
    _ ← HomeId_validate (eg_owner g);
    if decide (at_home (eg_attempt g) ≠ eg_owner g) then
      Err (Invalid "execution attempt does not belong to the granting Home")
    else
      _ ← HomeAuthorityV1_verify (eg_authority g) (eg_owner g) (eg_home_epoch g) CapJobHome;
      _ ← moved_location_check "grant" (eg_authority g) (eg_home_epoch g) (eg_home_realm g)
            (eg_home_node g);
      _ ← FunctionId_validate (eg_function g);
      _ ← verify_deployment_receipt (eg_deployment g);
      if decide (dr_function (sr_payload (eg_deployment g)) ≠ eg_function g) then
        Err (Invalid "deployment receipt does not pin the granted function")
      else
        _ ← ValueRefV1_validate (eg_input g);
        _ ← DeliveryModeV1_validate (eg_delivery g);
        if match eg_issued_at_unix_ms g, eg_deadline_unix_ms g with
           | Some issued, Some deadline => bool_decide (deadline ≤ issued)
           | _, _ => false
           end then Err (Invalid "execution deadline must be later than issue time")
        else ensure_message_bound g.

Definition verify_execution_grant (r : SignedRecordV1 ExecutionGrantV1) :
    result ContractError unit :=
  _ ← SignedRecordV1_validate ExecutionGrantV1_validate r;
  if unsigned SCHEMA_EXECUTE_V1 r then Err (Crypto "invalid execution grant signature")
  else if decide (sr_signer r ≠ operational_key (eg_authority (sr_payload r))) then
    Err (Invalid "execution grant signer is not the authorized epoch operational key")
  else Ok tt.

Definition ExecutionQueryV1_validate (q : ExecutionQueryV1) : result ContractError unit :=
  _ ← AttemptId_validate (eq_attempt q);
  _ ← validate_sha256 "execution query grant_hash" (eq_grant_hash q);
  if decide (eq_home_epoch q = 0 ∨ eq_home_route_sequence q = 0) then
    Err (Invalid "execution query Home epoch and route sequence must be non-zero")
  else
    _ ← validate_text "query home_realm" (eq_home_realm q) MAX_ID_BYTES;
    _ ← validate_text "query home_node" (eq_home_node q) MAX_ID_BYTES;
    _ ← validate_text "query home_coordinator" (eq_home_coordinator q) MAX_ID_BYTES;
    _ ← HomeAuthorityV1_verify (eq_authority q) (at_home (eq_attempt q)) (eq_home_epoch q)
          CapJobHome;
    _ ← moved_location_check "query" (eq_authority q) (eq_home_epoch q) (eq_home_realm q)
          (eq_home_node q);
    _ ← ControlId_validate (eq_query q);
    ensure_message_bound q.

Definition verify_execution_query (r : SignedRecordV1 ExecutionQueryV1) :
    result ContractError unit :=
  _ ← SignedRecordV1_validate ExecutionQueryV1_validate r;
  if unsigned SCHEMA_EXECUTE_V1 r then Err (Crypto "invalid execution query signature")
  else if decide (sr_signer r ≠ operational_key (eq_authority (sr_payload r))) then
    Err (Invalid "execution query signer is not the active root-authorized Home key")
  else Ok tt.

Definition ExecutionStageV1_validate (s : ExecutionStageV1) : result ContractError unit :=
  match s with
  | XClaimed | XStarted => Ok tt
  | XProgress sequence progress =>
      if decide (sequence = 0) then Err (Invalid "progress sequence must be non-zero")
      else ValueRefV1_validate_with_limit MAX_PROGRESS_BYTES progress
  | XCheckpoint sequence checkpoint =>
      if decide (sequence = 0) then Err (Invalid "checkpoint sequence must be non-zero")
      else ValueRefV1_validate checkpoint
  | XSucceeded result => ValueRefV1_validate result
  | XFailed error _ => ValueRefV1_validate_with_limit MAX_ERROR_BYTES error
  | XIndeterminate reason _ => validate_text "indeterminate reason" reason FN_MAX_REASON_BYTES
  | XCancelled reason => validate_text "cancel reason" reason FN_MAX_REASON_BYTES
  | XControlQueued control => ControlId_validate control
  | XControlAcknowledged control _ detail =>
      _ ← ControlId_validate control;
      validate_optional_text "control detail" detail FN_MAX_REASON_BYTES
  end.

Definition ExecutionReceiptV1_validate (r : ExecutionReceiptV1) : result ContractError unit :=
  _ ← AttemptId_validate (ex_attempt r);
  _ ← validate_sha256 "execution receipt grant_hash" (ex_grant_hash r);
  _ ← validate_ed25519_public_key "executor" (ex_executor r);
  if decide (ex_sequence r = 0) then
    Err (Invalid "execution receipt sequence must be non-zero")
  else
    _ ← ExecutionStageV1_validate (ex_stage r);
    ensure_message_bound r.

Definition verify_execution_receipt (r : SignedRecordV1 ExecutionReceiptV1)
    (grant : SignedRecordV1 ExecutionGrantV1) : result ContractError unit :=
  _ ← verify_execution_grant grant;
  _ ← SignedRecordV1_validate ExecutionReceiptV1_validate r;
  let continues := Invalid "execution receipt does not continue the exact signed grant" in
  if decide (sr_schema r ≠ SCHEMA_EXECUTE_V1) then
    Err (Invalid ("execution receipt schema is `" +:+ sr_schema r +:+ "`, expected `"
                  +:+ SCHEMA_EXECUTE_V1 +:+ "`"))
  else if negb (SignedRecordV1_verify r) then Err (Crypto "invalid execution receipt signature")
  else if decide (ex_attempt (sr_payload r) ≠ eg_attempt (sr_payload grant)) then Err continues
  else
    h ← canonical_hash grant;
    if decide (ex_grant_hash (sr_payload r) ≠ h) then Err continues
    else
      let pinned := dr_executor (sr_payload (eg_deployment (sr_payload grant))) in
      if bool_decide (sr_signer r ≠ pinned) || bool_decide (ex_executor (sr_payload r) ≠ pinned)
      then Err (Invalid "execution receipt signer does not match the pinned executor")
      else Ok tt.

(** *** Controls *)

Definition JobControlKindV1_validate (k : JobControlKindV1) : result ContractError unit :=
  match k with
  | Steer value => ValueRefV1_validate value
  | Cancel reason => validate_text "cancel reason" reason FN_MAX_REASON_BYTES
  | AccessUpdate add_readers remove_readers add_controllers remove_controllers =>
      _ ← validate_vec HomeId_validate "add_readers" add_readers MAX_JOB_DELEGATES;
      _ ← validate_vec HomeId_validate "remove_readers" remove_readers MAX_JOB_DELEGATES;
      _ ← validate_vec HomeId_validate "add_controllers" add_controllers MAX_JOB_DELEGATES;
      validate_vec HomeId_validate "remove_controllers" remove_controllers MAX_JOB_DELEGATES
  | ProposeChild parent_attempt parent_event_hash spawn_key child_request_hash submit resolution
      deployment =>
      _ ← AttemptId_validate parent_attempt;
      _ ← validate_sha256 "parent_event_hash" parent_event_hash;
      _ ← validate_text "spawn_key" spawn_key MAX_IDEMPOTENCY_KEY_BYTES;
      _ ← validate_sha256 "child_request_hash" child_request_hash;
      _ ← SignedRecordV1_validate JobSubmitV1_validate submit;
      if unsigned SCHEMA_JOB_V1 submit then Err (Crypto "child submission signature is invalid")
      else
        h ← request_hash (sr_payload submit);
        if decide (h ≠ child_request_hash) then
          Err (Invalid "child request hash does not match the signed submission")
        else
          _ ← SignedRecordV1_validate ResolutionReceiptV1_validate resolution;
          if unsigned SCHEMA_FUNCTION_DEPLOY_V1 resolution then
            Err (Crypto "child resolution receipt signature is invalid")
          else
            _ ← verify_deployment_receipt deployment;
            if bool_decide (rr_selector (sr_payload resolution) ≠ js_function (sr_payload submit))
               || bool_decide (rr_function (sr_payload resolution)
                               ≠ dr_function (sr_payload deployment))
               || bool_decide (rr_artifact_hash (sr_payload resolution)
                               ≠ dr_artifact_hash (sr_payload deployment)) then
              Err (Invalid "child submission, resolution, and deployment pins do not match")
            else Ok tt
  end.

Definition JobControlV1_validate (c : JobControlV1) : result ContractError unit :=
  _ ← JobHandleV1_validate (jc_handle c);
  if decide (jc_expected_home_epoch c = 0) then
    Err (Invalid "expected home epoch must be non-zero")
  else
    _ ← ControlId_validate (jc_control c);
    _ ← JobControlKindV1_validate (jc_kind c);
    if match jc_kind c with
       | ProposeChild parent_attempt _ _ _ _ _ _ =>
           bool_decide (at_home parent_attempt ≠ jh_home (jc_handle c))
           || bool_decide (at_job parent_attempt ≠ jh_job (jc_handle c))
       | _ => false
       end then
      Err (Invalid "child proposal parent attempt does not belong to controlled job")
    else ensure_message_bound c.

(** *** Events *)

Definition receipt_matches_event (receipt : ExecutionReceiptV1) (event : JobEventKindV1) : bool :=
  match ex_stage receipt, event with
  | observed, KLateReceipt attempt event_observed =>
      bool_decide (attempt = ex_attempt receipt) && bool_decide (observed = event_observed)
  | XClaimed, KClaimed attempt executor =>
      bool_decide (attempt = ex_attempt receipt) && bool_decide (executor = ex_executor receipt)
  | XStarted, KStarted attempt => bool_decide (attempt = ex_attempt receipt)
  | XProgress ls l_value, KProgress attempt rs r_value =>
      bool_decide (attempt = ex_attempt receipt) && bool_decide (ls = rs)
      && bool_decide (l_value = r_value)
  | XCheckpoint ls l_value, KCheckpoint attempt rs r_value =>
      bool_decide (attempt = ex_attempt receipt) && bool_decide (ls = rs)
      && bool_decide (l_value = r_value)
  | XSucceeded l_value, KSucceeded attempt r_value =>
      bool_decide (attempt = ex_attempt receipt) && bool_decide (l_value = r_value)
  | XFailed l_value lr, KAttemptFailed attempt r_value rr =>
      bool_decide (attempt = ex_attempt receipt) && bool_decide (l_value = r_value)
      && bool_decide (lr = rr)
  | XIndeterminate l_value lm, KIndeterminate attempt r_value rm =>
      bool_decide (attempt = ex_attempt receipt) && bool_decide (l_value = r_value)
      && bool_decide (lm = rm)
  | XCancelled l_value, KCancelled r_value => bool_decide (l_value = r_value)
  | XControlQueued l_value, KControlQueued r_value attempt =>
      bool_decide (attempt = ex_attempt receipt) && bool_decide (l_value = r_value)
  | XControlAcknowledged l_value ld _, KControlAcknowledged r_value attempt rd =>
      bool_decide (attempt = ex_attempt receipt) && bool_decide (l_value = r_value)
      && bool_decide (ld = rd)
  | _, _ => false
  end.

Definition JobEventKindV1_validate (k : JobEventKindV1) : result ContractError unit :=
  match k with
  | KSubmitted spec => JobSpecV1_validate spec
  | KBlocked reason | KCancelled reason =>
      validate_text "job event reason" reason FN_MAX_REASON_BYTES
  | KIndeterminate attempt reason _ =>
      _ ← AttemptId_validate attempt;
      validate_text "job event reason" reason FN_MAX_REASON_BYTES
  | KLateReceipt attempt observed =>
      _ ← AttemptId_validate attempt; ExecutionStageV1_validate observed
  | KDispatchGranted grant_hash attempt =>
      _ ← validate_sha256 "grant_hash" grant_hash; AttemptId_validate attempt
  | KClaimed attempt executor =>
      _ ← AttemptId_validate attempt; validate_text "executor" executor MAX_ID_BYTES
  | KStarted attempt => AttemptId_validate attempt
  | KProgress attempt sequence progress =>
      _ ← AttemptId_validate attempt;
      if decide (sequence = 0) then Err (Invalid "progress sequence must be non-zero")
      else ValueRefV1_validate_with_limit MAX_PROGRESS_BYTES progress
  | KCheckpoint attempt sequence checkpoint =>
      _ ← AttemptId_validate attempt;
      if decide (sequence = 0) then Err (Invalid "checkpoint sequence must be non-zero")
      else ValueRefV1_validate checkpoint
  | KControlRequested request attempt =>
      _ ← SignedRecordV1_validate JobControlV1_validate request;
      if unsigned SCHEMA_JOB_V1 request then
        Err (Crypto "job control event contains an invalid caller signature")
      else
        match attempt with
        | None => Ok tt
        | Some attempt =>
            _ ← AttemptId_validate attempt;
            if bool_decide (at_home attempt ≠ jh_home (jc_handle (sr_payload request)))
               || bool_decide (at_job attempt ≠ jh_job (jc_handle (sr_payload request))) then
              Err (Invalid "job control event attempt belongs to another Job")
            else Ok tt
        end
  | KControlQueued control attempt =>
      _ ← ControlId_validate control; AttemptId_validate attempt
  | KControlAcknowledged control attempt _ =>
      _ ← ControlId_validate control; AttemptId_validate attempt
  | KAttemptFailed attempt error _ =>
      _ ← AttemptId_validate attempt; ValueRefV1_validate_with_limit MAX_ERROR_BYTES error
  | KRetryScheduled next_attempt _ => AttemptId_validate next_attempt
  | KSucceeded attempt result => _ ← AttemptId_validate attempt; ValueRefV1_validate result
  | KFailed error => ValueRefV1_validate_with_limit MAX_ERROR_BYTES error
  | KAccessUpdated control hash access =>
      _ ← ControlId_validate control;
      _ ← validate_sha256 "access control request_hash" hash;
      JobAccessV1_validate access
  | KChildSpawned parent_attempt parent_event_hash spawn_key child root child_request_hash =>
      _ ← AttemptId_validate parent_attempt;
      _ ← validate_sha256 "parent_event_hash" parent_event_hash;
      _ ← validate_text "spawn_key" spawn_key MAX_IDEMPOTENCY_KEY_BYTES;
      _ ← JobHandleV1_validate child;
      _ ← JobHandleV1_validate root;
      if bool_decide (jh_home child ≠ jh_home root)
         || bool_decide (at_home parent_attempt ≠ jh_home root)
         || bool_decide (at_job parent_attempt = jh_job child) then
        Err (Invalid "child/root Homes must match and a child cannot equal its parent")
      else validate_sha256 "child_request_hash" child_request_hash
  | KCustodyPrepared handoff next_epoch =>
      _ ← HandoffId_validate handoff;
      if decide (next_epoch = 0) then Err (Invalid "next epoch must be non-zero") else Ok tt
  | KCustodyActivated handoff => HandoffId_validate handoff
  end.

(** The lineage match of [JobEventV1::validate]. *)
Definition event_lineage_check (e : JobEventV1) : result ContractError unit :=
  match je_kind e with
  | KSubmitted spec =>
      if decide (sp_handle spec ≠ je_handle e) then
        Err (Invalid "Submitted event handle does not match its accepted specification")
      else Ok tt
  | KChildSpawned parent_attempt _ _ child root _ =>
      let home := jh_home (je_handle e) in
      if bool_decide (at_home parent_attempt ≠ home)
         || bool_decide (at_job parent_attempt ≠ jh_job (je_handle e))
         || bool_decide (jh_home child ≠ home)
         || bool_decide (jh_home root ≠ home) then
        Err (Invalid "ChildSpawned parent/child/root do not share the event lineage")
      else Ok tt
  | _ => Ok tt
  end.

(** The receipt section of [JobEventV1::validate]. *)
Definition event_receipt_check (e : JobEventV1) : result ContractError unit :=
  match je_foreign_receipt e with
  | None =>
      match je_kind e with
      | KLateReceipt _ _ => Err (Invalid "LateReceipt event omits its exact foreign receipt")
      | _ => Ok tt
      end
  | Some receipt =>
      let r := sr_payload receipt in
      _ ← SignedRecordV1_validate ExecutionReceiptV1_validate receipt;
      if unsigned SCHEMA_EXECUTE_V1 receipt
         || bool_decide (sr_signer receipt ≠ ex_executor r)
         || bool_decide (at_home (ex_attempt r) ≠ jh_home (je_handle e))
         || bool_decide (at_job (ex_attempt r) ≠ jh_job (je_handle e))
         || negb (receipt_matches_event r (je_kind e)) then
        Err (Invalid "foreign execution receipt does not exactly match the Home event")
      else Ok tt
  end.

Definition JobEventV1_validate (e : JobEventV1) : result ContractError unit :=
  _ ← JobHandleV1_validate (je_handle e);
  if decide (je_home_epoch e = 0 ∨ je_sequence e = 0) then
    Err (Invalid "home epoch and event sequence must be non-zero")
  else
    _ ← HomeAuthorityV1_verify (je_authority e) (jh_home (je_handle e)) (je_home_epoch e)
          CapJobHome;
    _ ← JobEventKindV1_validate (je_kind e);
    _ ← event_lineage_check e;
    _ ← event_receipt_check e;
    ensure_message_bound e.

Definition verify_job_event (r : SignedRecordV1 JobEventV1) : result ContractError unit :=
  _ ← SignedRecordV1_validate JobEventV1_validate r;
  if unsigned SCHEMA_JOB_V1 r then Err (Crypto "invalid job-event signature")
  else if decide (sr_signer r ≠ operational_key (je_authority (sr_payload r))) then
    Err (Invalid "job-event signer is not the root-authorized Home epoch key")
  else Ok tt.

Definition verify_job_event_with_grant (r : SignedRecordV1 JobEventV1)
    (grant : SignedRecordV1 ExecutionGrantV1) : result ContractError unit :=
  _ ← verify_job_event r;
  receipt ← ok_or (je_foreign_receipt (sr_payload r))
              (Invalid "job event does not carry a foreign execution receipt");
  verify_execution_receipt receipt grant.

(** [matches_request] of [verify_job_control_acceptance]; deriving the child's
    identity can fail. *)
Definition acceptance_matches (request : SignedRecordV1 JobControlV1) (hash : string)
    (event : JobEventKindV1) : result ContractError bool :=
  match jc_kind (sr_payload request), event with
  | Steer _, KControlRequested durable (Some _) => Ok (bool_decide (durable = request))
  | Cancel _, KControlRequested durable _ => Ok (bool_decide (durable = request))
  | AccessUpdate _ _ _ _, KAccessUpdated control durable_hash _ =>
      Ok (bool_decide (control = jc_control (sr_payload request))
          && bool_decide (durable_hash = hash))
  | ProposeChild parent_attempt parent_event_hash spawn_key child_request_hash submit _ _,
    KChildSpawned durable_attempt durable_event_hash durable_spawn_key child _
      durable_child_hash =>
      let s := sr_payload submit in
      job ← derive_job_id (js_home s) (js_caller_idempotency_key s);
      Ok (bool_decide (durable_attempt = parent_attempt)
          && bool_decide (durable_event_hash = parent_event_hash)
          && bool_decide (durable_spawn_key = spawn_key)
          && bool_decide (durable_child_hash = child_request_hash)
          && bool_decide (child = mkJobHandleV1 (js_home s) job))
  | _, _ => Ok false
  end.

Definition verify_job_control_acceptance (request : SignedRecordV1 JobControlV1)
    (hash : string) (event : SignedRecordV1 JobEventV1) : result ContractError unit :=
  _ ← SignedRecordV1_validate JobControlV1_validate request;
  if unsigned SCHEMA_JOB_V1 request then Err (Crypto "invalid job-control request signature")
  else
    expected_hash ← canonical_hash request;
    if decide (hash ≠ expected_hash) then
      Err (Invalid "job-control acknowledgement does not bind the exact signed request")
    else
      _ ← verify_job_event event;
      if bool_decide (je_handle (sr_payload event) ≠ jc_handle (sr_payload request))
         || bool_decide (je_home_epoch (sr_payload event)
                         ≠ jc_expected_home_epoch (sr_payload request)) then
        Err (Invalid
          "job-control acknowledgement event belongs to another handle or Home epoch")
      else
        matches_request ← acceptance_matches request hash (je_kind (sr_payload event));
        if negb matches_request then
          Err (Invalid
            "job-control acknowledgement event does not prove the requested control")
        else Ok tt.

Definition JobSnapshotV1_validate (s : JobSnapshotV1) : result ContractError unit :=
  _ ← JobSpecV1_validate (ss_spec s);
  let handle := sp_handle (ss_spec s) in
  if decide (ss_home_epoch s = 0 ∨ ss_last_sequence s = 0) then
    Err (Invalid "home epoch and last sequence must be non-zero")
  else
    _ ← HomeAuthorityV1_verify (ss_authority s) (jh_home handle) (ss_home_epoch s) CapJobHome;
    _ ← validate_opt (fun attempt =>
          _ ← AttemptId_validate attempt;
          if bool_decide (at_home attempt ≠ jh_home handle)
             || bool_decide (at_job attempt ≠ jh_job handle) then
            Err (Invalid "snapshot current attempt belongs to a different Job handle")
          else Ok tt) (ss_current_attempt s);
    _ ← validate_opt ValueRefV1_validate (ss_result s);
    _ ← validate_opt (ValueRefV1_validate_with_limit MAX_ERROR_BYTES) (ss_error s);
    ensure_message_bound s.

Definition verify_job_snapshot (r : SignedRecordV1 JobSnapshotV1) : result ContractError unit :=
  _ ← SignedRecordV1_validate JobSnapshotV1_validate r;
  if unsigned SCHEMA_JOB_V1 r then Err (Crypto "invalid job-snapshot signature")
  else if decide (sr_signer r ≠ operational_key (ss_authority (sr_payload r))) then
    Err (Invalid "job-snapshot signer is not the root-authorized active Home key")
  else Ok tt.

(** *** Home-endorsed controls *)

Definition ExecutionControlV1_validate (c : ExecutionControlV1) : result ContractError unit :=
  let request := xc_caller_request c in
  let q := sr_payload request in
  let accepted := sr_payload (xc_accepted_event c) in
  _ ← SignedRecordV1_validate JobControlV1_validate request;
  if unsigned SCHEMA_JOB_V1 request then
    Err (Crypto "execution control contains an invalid caller request signature")
  else if decide (xc_home_epoch c = 0 ∨ xc_home_route_sequence c = 0 ∨ xc_home_sequence c = 0)
  then Err (Invalid "execution control home epoch/route/event sequences must be non-zero")
  else
    _ ← validate_sha256 "execution control grant_hash" (xc_grant_hash c);
    _ ← validate_text "control home_realm" (xc_home_realm c) MAX_ID_BYTES;
    _ ← validate_text "control home_node" (xc_home_node c) MAX_ID_BYTES;
    _ ← validate_text "control home_coordinator" (xc_home_coordinator c) MAX_ID_BYTES;
    _ ← verify_job_event (xc_accepted_event c);
    pair ← match je_kind accepted with
           | KControlRequested durable (Some attempt) => Ok (durable, attempt)
           | _ => Err (Invalid
               "execution control acceptance proof is not a delivered ControlRequested event")
           end;
    if bool_decide (pair.1 ≠ request)
       || bool_decide (pair.2 ≠ xc_attempt c)
       || bool_decide (je_handle accepted ≠ jc_handle q)
       || bool_decide (je_home_epoch accepted ≠ jc_expected_home_epoch q)
       || bool_decide (je_sequence accepted ≠ xc_home_sequence c) then
      Err (Invalid "execution control does not exactly continue its durable accepted event")
    else if decide (xc_home_epoch c < jc_expected_home_epoch q) then
      Err (Invalid "caller control expects an epoch newer than the endorsing Home")
    else if bool_decide (at_home (xc_attempt c) ≠ jh_home (jc_handle q))
       || bool_decide (at_job (xc_attempt c) ≠ jh_job (jc_handle q)) then
      Err (Invalid "execution control attempt does not belong to the controlled Job")
    else
      _ ← AttemptId_validate (xc_attempt c);
      _ ← HomeAuthorityV1_verify (xc_authority c) (jh_home (jc_handle q)) (xc_home_epoch c)
            CapJobControl;
      _ ← moved_location_check "control" (xc_authority c) (xc_home_epoch c) (xc_home_realm c)
            (xc_home_node c);
      ensure_message_bound c.

Definition verify_execution_control (r : SignedRecordV1 ExecutionControlV1) :
    result ContractError unit :=
  _ ← SignedRecordV1_validate ExecutionControlV1_validate r;
  if unsigned SCHEMA_EXECUTE_V1 r then
    Err (Crypto "invalid home-endorsed execution-control signature")
  else if decide (sr_signer r ≠ operational_key (xc_authority (sr_payload r))) then
    Err (Invalid "execution-control signer is not the authorized home epoch key")
  else Ok tt.
End wire.

(** ** What the verifiers establish *)

(** Induction down the custody chain. *)
Lemma authority_ind (P : HomeAuthorityV1 → Prop)
    (Hgenesis : ∀ a, ha_prepared a = None → P a)
    (Hmoved : ∀ a p, ha_prepared a = Some p →
       P (cg_source_authority (sr_payload (cp_grant (sr_payload p)))) → P a) :
  ∀ a, P a.
Proof.
  fix IH 1. intros [b o p].
  destruct p as [[s k [[s' k' [h ho f t src sr sn dr dn ch lr key ev i rw] g'] c gh ch' lr' co rh rc] g]|].
  - eapply Hmoved; [done|]. cbn. apply IH.
  - by apply Hgenesis.
Qed.

(** The custody transfers behind an authority. *)
Fixpoint custody_hops (a : HomeAuthorityV1) : N :=
  match ha_prepared a with
  | None => 0
  | Some p => 1 + custody_hops (cg_source_authority (sr_payload (cp_grant (sr_payload p))))
  end.

Section verified.
  Context `{!Sha256} `{!JsonText} `{!Ed25519} `{!WireSerde}.

Definition signed_by {T} `{!ToValue T} (key schema : string) (r : SignedRecordV1 T) : Prop :=
  sr_schema r = schema ∧ sr_signer r = key ∧ SignedRecordV1_verify r = true.

(** The epoch key of [a] was granted by the root key of [home], which names itself. *)
Definition root_signed (home : HomeId) (epoch : N) (a : HomeAuthorityV1) : Prop :=
  signed_by home SCHEMA_HOME_V1 (ha_abode a)
  ∧ ab_abode (sr_payload (ha_abode a)) = home
  ∧ ab_root_public_key (sr_payload (ha_abode a)) = home
  ∧ signed_by home SCHEMA_HOME_V1 (ha_operational a)
  ∧ og_home (sr_payload (ha_operational a)) = home
  ∧ og_epoch (sr_payload (ha_operational a)) = epoch.

(** The proof [p] hands [home] over from the epoch of [source] to the key
    [destination]: the root authorises it, and the source's own epoch key signs
    both the fence and the checkpoint it freezes. *)
Definition handed_over (home : HomeId) (p : SignedRecordV1 CustodyPreparedV1)
    (destination : SignedRecordV1 OperationalKeyGrantV1) : Prop :=
  let grant := cp_grant (sr_payload p) in
  let checkpoint := cp_checkpoint (sr_payload p) in
  let source := cg_source_authority (sr_payload grant) in
  signed_by (operational_key source) SCHEMA_HOME_V1 p
  ∧ signed_by home SCHEMA_HOME_V1 grant
  ∧ signed_by (operational_key source) SCHEMA_HOME_V1 checkpoint
  ∧ cg_home (sr_payload grant) = home
  ∧ cg_destination_operational_key (sr_payload grant) = destination
  ∧ canonical_hash grant = Ok (cp_grant_hash (sr_payload p))
  ∧ canonical_hash checkpoint = Ok (cg_checkpoint_hash (sr_payload grant))
  ∧ hc_home (sr_payload checkpoint) = home
  ∧ hc_epoch (sr_payload checkpoint) = cg_from_epoch (sr_payload grant)
  ∧ hc_log_root (sr_payload checkpoint) = cg_source_log_root (sr_payload grant)
  ∧ CapCustody ∈ og_capabilities (sr_payload (ha_operational source)).

(** An unbroken chain of root-authorised handovers from the genesis epoch 1. *)
Inductive rooted (home : HomeId) : N → HomeAuthorityV1 → Prop :=
  | rooted_genesis a :
      root_signed home 1 a → ha_prepared a = None → rooted home 1 a
  | rooted_moved e a p :
      ha_prepared a = Some p →
      rooted home e (cg_source_authority (sr_payload (cp_grant (sr_payload p)))) →
      cg_from_epoch (sr_payload (cp_grant (sr_payload p))) = e →
      handed_over home p (ha_operational a) →
      root_signed home (N.min (e + 1) u64_MAX) a →
      rooted home (N.min (e + 1) u64_MAX) a.

Lemma unsigned_false {T} `{!ToValue T} schema (r : SignedRecordV1 T) :
  unsigned schema r = false ↔ signed_by (sr_signer r) schema r.
Proof.
  unfold unsigned, signed_by. rewrite orb_false_iff, bool_decide_eq_false, negb_false_iff.
  split; [intros [?%dec_stable ?]; done|intros (-> & _ & ->); naive_solver].
Qed.

Lemma record_validate_Ok {T} `{!ToValue T} (validate : T → result ContractError unit) r :
  SignedRecordV1_validate validate r = Ok tt → validate (sr_payload r) = Ok tt.
Proof.
  unfold SignedRecordV1_validate. intros E. inv_result.
  repeat match goal with x : unit |- _ => destruct x end. done.
Qed.
End verified.

(** Split a validator's [?] chain and keep the facts that name a signature. *)
Ltac inv_validate :=
  repeat (inv_result; to_prop;
    repeat match goal with
    | x : unit |- _ => destruct x
    | H : Ok tt = Ok tt |- _ => clear H
    | H : unsigned _ _ = false |- _ => apply unsigned_false in H
    | H : (if decide ?P then Err _ else _) = Ok _ |- _ => destruct (decide P); [discriminate H|]
    | H : (if decide ?P then _ else Err _) = Ok _ |- _ => destruct (decide P); [|discriminate H]
    | H : (if ?b then Err _ else _) = Ok _ |- _ => destruct b eqn:?; [discriminate H|]
    | H : (if ?b then _ else Err _) = Ok _ |- _ => destruct b eqn:?; [|discriminate H]
    end; to_prop).

Section rooted_lemmas.
  Context `{!Sha256} `{!JsonText} `{!Ed25519} `{!WireSerde}.

Lemma HomeAuthorityV1_validate_eq a :
  HomeAuthorityV1_validate a = HomeAuthorityV1_validate_with CustodyPreparedV1_validate a.
Proof. by destruct a. Qed.
Lemma CustodyGrantV1_validate_eq g :
  CustodyGrantV1_validate g = CustodyGrantV1_validate_with HomeAuthorityV1_validate g.
Proof. by destruct g. Qed.
Lemma CustodyPreparedV1_validate_eq p :
  CustodyPreparedV1_validate p = CustodyPreparedV1_validate_with CustodyGrantV1_validate p.
Proof. by destruct p. Qed.

(** [verify_custody_prepared] with the grant it rests on opened. *)
Lemma verify_custody_prepared_Ok (p : SignedRecordV1 CustodyPreparedV1) :
  let grant := sr_payload (cp_grant (sr_payload p)) in
  verify_custody_prepared p = Ok tt →
  handed_over (cg_home grant) p (cg_destination_operational_key grant)
  ∧ HomeAuthorityV1_verify (cg_source_authority grant) (cg_home grant) (cg_from_epoch grant)
      CapCustody = Ok tt
  ∧ cg_from_epoch grant ≠ 0
  ∧ cg_to_epoch grant = N.min (cg_from_epoch grant + 1) u64_MAX.
Proof.
  cbn zeta. intros E. unfold verify_custody_prepared, verify_custody_prepared_with in E. inv_validate.
  match goal with H : SignedRecordV1_validate _ _ = Ok tt |- _ =>
    apply record_validate_Ok in H; rename H into Hp end.
  rewrite CustodyPreparedV1_validate_eq in Hp.
  unfold CustodyPreparedV1_validate_with, verify_handoff_checkpoint_with,
    verify_custody_grant_with in Hp. inv_validate.
  match goal with H : SignedRecordV1_validate CustodyGrantV1_validate _ = Ok tt |- _ =>
    apply record_validate_Ok in H; rename H into Hg end.
  rewrite CustodyGrantV1_validate_eq in Hg. unfold CustodyGrantV1_validate_with in Hg.
  inv_validate.
  match goal with H : HomeAuthorityV1_verify_with _ _ _ _ _ = Ok tt |- _ =>
    rename H into Hsrc; pose proof Hsrc as Hcap;
    unfold HomeAuthorityV1_verify_with in Hcap end. inv_validate.
  unfold handed_over, signed_by in *. cbn zeta. intuition congruence.
Qed.

Lemma authority_rooted a home epoch capability :
  HomeAuthorityV1_verify a home epoch capability = Ok tt →
  rooted home epoch a ∧ capability ∈ og_capabilities (sr_payload (ha_operational a)).
Proof.
  revert home epoch capability.
  induction a as [a Hnone|a p Hp IH] using authority_ind; intros home epoch capability E.
  all: unfold HomeAuthorityV1_verify, HomeAuthorityV1_verify_with in E; inv_validate.
  all: match goal with H : HomeAuthorityV1_validate _ = Ok tt |- _ =>
         rewrite HomeAuthorityV1_validate_eq in H; unfold HomeAuthorityV1_validate_with in H;
         rewrite ?Hnone, ?Hp in H end; inv_validate; split; try done.
  - replace epoch with 1 by congruence.
    apply rooted_genesis; [|done]. unfold root_signed, signed_by in *. intuition congruence.
  - match goal with H : verify_custody_prepared_with _ _ = Ok tt |- _ =>
      destruct (verify_custody_prepared_Ok p H) as (Hh & Hsrc & Hnz & Hto) end.
    apply IH in Hsrc as [Hsrc _].
    replace epoch with (N.min (cg_from_epoch (sr_payload (cp_grant (sr_payload p))) + 1) u64_MAX)
      by congruence.
    assert (cg_home (sr_payload (cp_grant (sr_payload p))) = home) as Hhome by congruence.
    rewrite Hhome in *. eapply rooted_moved; [done|done|done|congruence|].
    unfold root_signed, signed_by in *. intuition congruence.
Qed.

Lemma rooted_hops home epoch a :
  rooted home epoch a → 1 ≤ epoch ∧ (epoch < u64_MAX → custody_hops a + 1 = epoch).
Proof.
  induction 1 as [[b o p] Hs Hp|e [b o p'] p Hp Hr [IH1 IH2] He Hh Hs]; cbn in *; subst.
  - lia.
  - split; [unfold u64_MAX; lia|]. intros Hlt. rewrite <-IH2; lia.
Qed.
End rooted_lemmas.

Section provenance.
  Context `{!Sha256} `{!JsonText} `{!Ed25519} `{!WireSerde}.

Lemma verify_deployment_receipt_Ok r :
  verify_deployment_receipt r = Ok tt →
  signed_by (dr_executor (sr_payload r)) SCHEMA_FUNCTION_DEPLOY_V1 r.
Proof. unfold verify_deployment_receipt, signed_by. intros E. inv_validate. done. Qed.

Lemma verify_execution_grant_Ok r :
  let g := sr_payload r in
  verify_execution_grant r = Ok tt →
  signed_by (operational_key (eg_authority g)) SCHEMA_EXECUTE_V1 r
  ∧ rooted (eg_owner g) (eg_home_epoch g) (eg_authority g)
  ∧ at_home (eg_attempt g) = eg_owner g
  ∧ signed_by (dr_executor (sr_payload (eg_deployment g))) SCHEMA_FUNCTION_DEPLOY_V1
      (eg_deployment g)
  ∧ dr_function (sr_payload (eg_deployment g)) = eg_function g.
Proof.
  cbn zeta. unfold verify_execution_grant. intros E. inv_validate.
  match goal with H : SignedRecordV1_validate _ _ = Ok tt |- _ =>
    apply record_validate_Ok in H; unfold ExecutionGrantV1_validate in H end. inv_validate.
  match goal with H : HomeAuthorityV1_verify _ _ _ _ = Ok tt |- _ =>
    apply authority_rooted in H as [? _] end.
  match goal with H : verify_deployment_receipt _ = Ok tt |- _ =>
    apply verify_deployment_receipt_Ok in H end.
  unfold signed_by in *. intuition congruence.
Qed.

Lemma verify_execution_receipt_Ok r grant :
  let g := sr_payload grant in
  verify_execution_receipt r grant = Ok tt →
  verify_execution_grant grant = Ok tt
  ∧ signed_by (dr_executor (sr_payload (eg_deployment g))) SCHEMA_EXECUTE_V1 r
  ∧ ex_executor (sr_payload r) = dr_executor (sr_payload (eg_deployment g))
  ∧ ex_attempt (sr_payload r) = eg_attempt g
  ∧ canonical_hash grant = Ok (ex_grant_hash (sr_payload r)).
Proof.
  cbn zeta. unfold verify_execution_receipt, signed_by. intros E. inv_validate.
  intuition congruence.
Qed.

Lemma verify_job_event_Ok r :
  let e := sr_payload r in
  verify_job_event r = Ok tt →
  signed_by (operational_key (je_authority e)) SCHEMA_JOB_V1 r
  ∧ rooted (jh_home (je_handle e)) (je_home_epoch e) (je_authority e)
  ∧ ∀ receipt, je_foreign_receipt e = Some receipt →
      receipt_matches_event (sr_payload receipt) (je_kind e) = true
      ∧ at_home (ex_attempt (sr_payload receipt)) = jh_home (je_handle e)
      ∧ at_job (ex_attempt (sr_payload receipt)) = jh_job (je_handle e).
Proof.
  cbn zeta. unfold verify_job_event. intros E. inv_validate.
  match goal with H : SignedRecordV1_validate _ _ = Ok tt |- _ =>
    apply record_validate_Ok in H; unfold JobEventV1_validate in H end. inv_validate.
  match goal with H : HomeAuthorityV1_verify _ _ _ _ = Ok tt |- _ =>
    apply authority_rooted in H as [? _] end.
  split; [unfold signed_by in *; intuition congruence|]. split; [done|]. intros receipt Hr.
  match goal with H : event_receipt_check _ = Ok tt |- _ =>
    unfold event_receipt_check in H; rewrite Hr in H end. inv_validate. done.
Qed.

(** Two requests that ask for the same thing of the same job. *)
Definition same_command (q q' : SignedRecordV1 JobControlV1) : Prop :=
  jc_handle (sr_payload q) = jc_handle (sr_payload q')
  ∧ jc_expected_home_epoch (sr_payload q) = jc_expected_home_epoch (sr_payload q')
  ∧ match jc_kind (sr_payload q), jc_kind (sr_payload q') with
    | Steer _, Steer _ | Cancel _, Cancel _ => q = q'
    | AccessUpdate _ _ _ _, AccessUpdate _ _ _ _ =>
        jc_control (sr_payload q) = jc_control (sr_payload q')
        ∧ canonical_json_bytes q = canonical_json_bytes q'
    | ProposeChild a p k h s _ _, ProposeChild a' p' k' h' s' _ _ =>
        a = a' ∧ p = p' ∧ k = k' ∧ h = h'
        ∧ derive_job_id (js_home (sr_payload s)) (js_caller_idempotency_key (sr_payload s))
          = derive_job_id (js_home (sr_payload s')) (js_caller_idempotency_key (sr_payload s'))
    | _, _ => False
    end.

Lemma acceptance_same_kind q q' h h' k :
  acceptance_matches q h k = Ok true → acceptance_matches q' h' k = Ok true →
  canonical_hash q = Ok h → canonical_hash q' = Ok h' →
  jc_handle (sr_payload q) = jc_handle (sr_payload q') →
  jc_expected_home_epoch (sr_payload q) = jc_expected_home_epoch (sr_payload q') →
  same_command q q' ∨ sha_collision.
Proof.
  unfold acceptance_matches, same_command. intros E E' Hh Hh' Hj He.
  destruct (jc_kind (sr_payload q)) eqn:Hk; destruct k as [| | | | | | |durable [?|]| | | | | | | | | |? ? ?|? ? ? ? ? ?| |];
    try discriminate E; destruct (jc_kind (sr_payload q')) eqn:Hk'; try discriminate E';
    inv_result; to_prop; subst; try naive_solver congruence.
  match goal with H : canonical_hash q = Ok ?h |- _ =>
    destruct (canonical_hash_inj q q' h) as [Hc|Hc]; [done|done| |by right] end.
  left. naive_solver congruence.
Qed.
End provenance.

(** ** A concrete Home *)

(** Every value has the same, empty text; enough to evaluate the validators. *)
Definition blank_text : JsonText := fun _ => Ok [].
Definition null_value {T} : ToValue T := fun _ => Ok JNull.
Definition null_serde : WireSerde :=
  @Build_WireSerde null_value null_value null_value null_value null_value null_value null_value
    null_value null_value null_value null_value null_value null_value null_value null_value
    null_value null_value null_value null_value null_value null_value null_value null_value
    null_value.

Definition key_of (digit : string) : string := String.concat "" (repeat digit 64).
Definition sample_root : string := key_of "a".
Definition sample_epoch_key (epoch : N) : string := key_of (dec epoch).
Definition sample_executor : string := key_of "e".

(** A record signed with the toy scheme over the blank text. *)
Definition sample_sign {T} (schema key : string) (payload : T) : SignedRecordV1 T :=
  mkSignedRecordV1 schema key payload
    (hex_encode (toy_sign (default [] (hex_decode key)) [])).

Definition sample_operational (epoch : N) : SignedRecordV1 OperationalKeyGrantV1 :=
  sample_sign SCHEMA_HOME_V1 sample_root
    (mkOperationalKeyGrantV1 sample_root epoch (sample_epoch_key epoch) None None
       [CapJobHome; CapJobControl; CapCustody; CapLocate] []).

Definition sample_abode : SignedRecordV1 AbodeKeyBindingV1 :=
  sample_sign SCHEMA_HOME_V1 sample_root (mkAbodeKeyBindingV1 sample_root sample_root None).

Definition sample_genesis : HomeAuthorityV1 :=
  mkHomeAuthorityV1 sample_abode (sample_operational 1) None.

Definition sample_checkpoint : SignedRecordV1 HomeCheckpointV1 :=
  sample_sign SCHEMA_HOME_V1 (sample_epoch_key 1)
    (mkHomeCheckpointV1 sample_root 1 7 zero_digest (mkBlobRefV1 zero_digest 3 "x/y") None).

Definition sample_custody : SignedRecordV1 CustodyGrantV1 :=
  sample_sign SCHEMA_HOME_V1 sample_root
    (mkCustodyGrantV1 sample_root "h" 1 2 sample_genesis "r" "n" "r2" "n2" zero_digest zero_digest
       (sample_operational 2) [] None None).

Definition sample_moved : HomeAuthorityV1 :=
  mkHomeAuthorityV1 sample_abode (sample_operational 2)
    (Some (sample_sign SCHEMA_HOME_V1 (sample_epoch_key 1)
       (mkCustodyPreparedV1 sample_custody sample_checkpoint zero_digest zero_digest zero_digest
          "c" None None))).

Definition sample_function : FunctionId := mkFunctionId zero_digest "main".
Definition sample_deployment : SignedRecordV1 DeploymentReceiptV1 :=
  sample_sign SCHEMA_FUNCTION_DEPLOY_V1 sample_executor
    (mkDeploymentReceiptV1 "d" sample_function zero_digest "r" "n" sample_executor "3" "4" [] None).

Definition sample_attempt : AttemptId := mkAttemptId sample_root "j" 1.
Definition sample_grant : SignedRecordV1 ExecutionGrantV1 :=
  sample_sign SCHEMA_EXECUTE_V1 (sample_epoch_key 1)
    (mkExecutionGrantV1 sample_attempt zero_digest 1 1 "r" "n" "c" sample_root sample_genesis
       sample_function sample_deployment (VInline JNull) AtMostOnce 1 None None).

Definition sample_receipt : SignedRecordV1 ExecutionReceiptV1 :=
  sample_sign SCHEMA_EXECUTE_V1 sample_executor
    (mkExecutionReceiptV1 sample_attempt zero_digest sample_executor 1 None XStarted).

(** The event is signed after the Home moved to epoch 2. *)
Definition sample_event : SignedRecordV1 JobEventV1 :=
  sample_sign SCHEMA_JOB_V1 (sample_epoch_key 2)
    (mkJobEventV1 (mkJobHandleV1 sample_root "j") 2 sample_moved 5 None SRunning false
       (KStarted sample_attempt) (Some sample_receipt)).

Definition sample_control : SignedRecordV1 JobControlV1 :=
  sample_sign SCHEMA_JOB_V1 sample_root
    (mkJobControlV1 (mkJobHandleV1 sample_root "j") 1 "k" None (Cancel "stop")).
Definition sample_control_event : SignedRecordV1 JobEventV1 :=
  sample_sign SCHEMA_JOB_V1 (sample_epoch_key 1)
    (mkJobEventV1 (mkJobHandleV1 sample_root "j") 1 sample_genesis 2 None SQueued true
       (KControlRequested sample_control None) None).

(** ** Properties *)

(** C23: an authority is accepted for a Home and an epoch only when its epoch key
    descends from that Home's root: there is an unbroken chain of handovers back
    to the genesis epoch 1, every one authorised by the root key and fenced and
    checkpointed by the epoch key it retires, with exactly [epoch - 1]
    handovers; and the key carries the capability asked for. *)
Theorem home_authority_rooted (S : Sha256) (X : JsonText) (E : Ed25519) (W : WireSerde)
    (a : HomeAuthorityV1) (home : HomeId) (epoch : N) (capability : OperationalCapabilityV1)
    (H : HomeAuthorityV1_verify a home epoch capability = Ok tt) :
  rooted home epoch a
  ∧ 1 ≤ epoch
  ∧ (epoch < u64_MAX → custody_hops a + 1 = epoch)
  ∧ capability ∈ og_capabilities (sr_payload (ha_operational a)).
Proof.
  apply authority_rooted in H as [Hr Hc]. destruct (rooted_hops _ _ _ Hr). done.
Qed.

Lemma home_authority_rooted_witness :
  @rooted zero_sha blank_text toy_ed25519 null_serde sample_root 2 sample_moved
  ∧ custody_hops sample_moved = 1.
Proof.
  assert (@HomeAuthorityV1_verify zero_sha blank_text toy_ed25519 null_serde sample_moved
            sample_root 2 CapJobHome = Ok tt) as H by (vm_compute; reflexivity).
  destruct (@home_authority_rooted zero_sha blank_text toy_ed25519 null_serde sample_moved
              sample_root 2 CapJobHome H) as (Hr & _).
  split; [exact Hr|reflexivity].
Defined.

(** The provenance of a verified receipt-derived event: the event is signed
    by an epoch key rooted in the job's Home; the grant by an epoch key rooted in
    the same Home; the receipt continues exactly that grant and attempt and is
    signed by the executor that signed the deployment the grant pins; and the
    event says what the receipt says. *)
Theorem verified_event_provenance (S : Sha256) (X : JsonText) (E : Ed25519) (W : WireSerde)
    (event : SignedRecordV1 JobEventV1) (grant : SignedRecordV1 ExecutionGrantV1)
    (H : verify_job_event_with_grant event grant = Ok tt) :
  ∃ receipt,
    let e := sr_payload event in
    let g := sr_payload grant in
    let executor := dr_executor (sr_payload (eg_deployment g)) in
    je_foreign_receipt e = Some receipt
    ∧ signed_by (operational_key (je_authority e)) SCHEMA_JOB_V1 event
    ∧ rooted (jh_home (je_handle e)) (je_home_epoch e) (je_authority e)
    ∧ signed_by (operational_key (eg_authority g)) SCHEMA_EXECUTE_V1 grant
    ∧ rooted (jh_home (je_handle e)) (eg_home_epoch g) (eg_authority g)
    ∧ signed_by executor SCHEMA_FUNCTION_DEPLOY_V1 (eg_deployment g)
    ∧ signed_by executor SCHEMA_EXECUTE_V1 receipt
    ∧ canonical_hash grant = Ok (ex_grant_hash (sr_payload receipt))
    ∧ ex_attempt (sr_payload receipt) = eg_attempt g
    ∧ at_job (eg_attempt g) = jh_job (je_handle e)
    ∧ receipt_matches_event (sr_payload receipt) (je_kind e) = true.
Proof.
  unfold verify_job_event_with_grant in H. inv_validate.
  match goal with H : je_foreign_receipt _ = Some ?r |- _ => exists r; rename H into Hr end.
  match goal with H : verify_job_event _ = Ok _ |- _ =>
    apply verify_job_event_Ok in H as (? & ? & Hm) end.
  destruct (Hm _ Hr) as (? & Hhome & Hjob).
  match goal with H : verify_execution_receipt _ _ = Ok _ |- _ =>
    apply verify_execution_receipt_Ok in H as (Hg & ? & ? & Ha & ?) end.
  apply verify_execution_grant_Ok in Hg as (? & Hrooted & Howner & ? & ?).
  cbn zeta in *. rewrite <-Ha in *. rewrite <-Howner, Hhome in Hrooted.
  intuition congruence.
Qed.

Lemma verified_event_provenance_witness :
  ∃ receipt, je_foreign_receipt (sr_payload sample_event) = Some receipt
    ∧ @rooted zero_sha blank_text toy_ed25519 null_serde sample_root 2 sample_moved.
Proof.
  assert (@verify_job_event_with_grant zero_sha blank_text toy_ed25519 null_serde sample_event
            sample_grant = Ok tt) as H by (vm_compute; reflexivity).
  destruct (@verified_event_provenance zero_sha blank_text toy_ed25519 null_serde sample_event
              sample_grant H) as (receipt & Hr & _ & Hroot & _).
  exists receipt. split; [exact Hr|exact Hroot].
Defined.

(** An acknowledgement answers one command: if the same durable event is
    accepted as the answer to two signed control requests, they are the same
    command of the same job and epoch, unless the hash function collides.  For
    steer and cancel they are the identical signed request; for access updates
    they have identical canonical bytes; for a child proposal they name the
    same parent attempt, parent event, spawn key, child request and child. *)
Theorem acceptance_answers_one_command (S : Sha256) (X : JsonText) (E : Ed25519) (W : WireSerde)
    (q q' : SignedRecordV1 JobControlV1) (h h' : string) (event : SignedRecordV1 JobEventV1)
    (H : verify_job_control_acceptance q h event = Ok tt)
    (H' : verify_job_control_acceptance q' h' event = Ok tt) :
  same_command q q' ∨ sha_collision.
Proof.
  unfold verify_job_control_acceptance in *. inv_validate.
  eapply (acceptance_same_kind q q' h h' (je_kind (sr_payload event)));
    match goal with
    | H : canonical_hash ?x = Ok _ |- canonical_hash ?x = Ok _ => rewrite H; f_equal; congruence
    | H : acceptance_matches ?x _ _ = Ok ?b |- acceptance_matches ?x _ _ = _ => by destruct b
    | |- _ => congruence
    end.
Qed.

Lemma acceptance_answers_one_command_witness :
  @same_command zero_sha blank_text null_serde sample_control sample_control
  ∨ @sha_collision zero_sha.
Proof.
  assert (@verify_job_control_acceptance zero_sha blank_text toy_ed25519 null_serde sample_control
            zero_digest sample_control_event = Ok tt) as H by (vm_compute; reflexivity).
  exact (@acceptance_answers_one_command zero_sha blank_text toy_ed25519 null_serde sample_control
    sample_control zero_digest zero_digest sample_control_event H H).
Defined.
