(* ===== verification/FnCustody.v ===== *)
(** * Custody handover messages

    The second half of the custody protocol of
    [foundation/gawdfn/src/wire.rs]: the rewrap request and receipt that carry
    the Home's data keys to the destination, the staging receipt of the
    destination, and the custody status both sides report.

    The serialisers of the message structs are the class [CustodySerde]. *)

From S2P Require Import Prelude GxShape GxHash FnCrypto FnTypes FnWire.

(** ** Messages *)

Record CustodyRewrapRequestV1 : Type := mkCustodyRewrapRequestV1 {
  wq_home : HomeId;
  wq_handoff : HandoffId;
  wq_prepared_hash : string;
  wq_grant_hash : string;
  wq_checkpoint_hash : string;
  wq_requirement_hash : string;
  wq_inventory_hash : string;
  wq_item_count : N
}.
#[export] Instance CustodyRewrapRequestV1_eq_dec : EqDecision CustodyRewrapRequestV1.
Proof. solve_decision. Defined.

Record CustodyRewrapEntryV1 : Type := mkCustodyRewrapEntryV1 {
  we_sealed_value_hash : string;
  we_ciphertext : BlobRefV1;
  we_source_wrap_hash : string;
  we_destination_wrap : RecipientKeyWrapV1
}.
#[export] Instance CustodyRewrapEntryV1_eq_dec : EqDecision CustodyRewrapEntryV1.
Proof. solve_decision. Defined.

Definition CustodyRewrapEntryV1_validate (e : CustodyRewrapEntryV1) : result ContractError unit :=
  _ ← validate_sha256 "rewrap entry sealed_value_hash" (we_sealed_value_hash e);
  _ ← BlobRefV1_validate (we_ciphertext e);
  _ ← validate_sha256 "rewrap entry source_wrap_hash" (we_source_wrap_hash e);
  RecipientKeyWrapV1_validate (we_destination_wrap e).

Record CustodyRewrapReceiptV1 : Type := mkCustodyRewrapReceiptV1 {
  wr_request : SignedRecordV1 CustodyRewrapRequestV1;
  wr_entries : list CustodyRewrapEntryV1;
  wr_evidence : list EvidenceRefV1
}.
#[export] Instance CustodyRewrapReceiptV1_eq_dec : EqDecision CustodyRewrapReceiptV1.
Proof. solve_decision. Defined.

Record CustodyStagedV1 : Type := mkCustodyStagedV1 {
  st_prepared : SignedRecordV1 CustodyPreparedV1;
  st_prepared_hash : string;
  st_grant_hash : string;
  st_checkpoint_hash : string;
  st_destination_realm : string;
  st_destination_node : string;
  st_destination_coordinator : string;
  st_rewrap_receipt : option (SignedRecordV1 CustodyRewrapReceiptV1)
}.
#[export] Instance CustodyStagedV1_eq_dec : EqDecision CustodyStagedV1.
Proof. solve_decision. Defined.

Inductive HomeCustodyPhaseV1 : Type :=
  | PhaseActive (staged : option (SignedRecordV1 CustodyStagedV1))
      (lease : option (SignedRecordV1 HomeLeaseV1))
  | PhaseFrozen (prepared : SignedRecordV1 CustodyPreparedV1)
      (redirect : option (SignedRecordV1 HomeLeaseV1))
  | PhaseStaged (staged : SignedRecordV1 CustodyStagedV1).

Record HomeCustodyStatusV1 : Type := mkHomeCustodyStatusV1 {
  cu_home : HomeId;
  cu_epoch : N;
  cu_authority : HomeAuthorityV1;
  cu_state : HomeCustodyPhaseV1
}.

Class CustodySerde : Type := {
  cs_request :: ToValue CustodyRewrapRequestV1;
  cs_receipt :: ToValue CustodyRewrapReceiptV1;
  cs_staged :: ToValue CustodyStagedV1;
  cs_status :: ToValue HomeCustodyStatusV1
}.

Section custody.
  Context `{!Sha256} `{!JsonText} `{!Ed25519} `{!WireSerde} `{!CustodySerde}.

(** ** Rewrap *)

Definition CustodyRewrapRequestV1_validate (q : CustodyRewrapRequestV1) :
    result ContractError unit :=
  _ ← HomeId_validate (wq_home q);
  _ ← HandoffId_validate (wq_handoff q);
  _ ← validate_sha256 "rewrap request prepared_hash" (wq_prepared_hash q);
  _ ← validate_sha256 "rewrap request grant_hash" (wq_grant_hash q);
  _ ← validate_sha256 "rewrap request checkpoint_hash" (wq_checkpoint_hash q);
  _ ← validate_sha256 "rewrap request requirement_hash" (wq_requirement_hash q);
  _ ← validate_sha256 "rewrap request inventory_hash" (wq_inventory_hash q);
  if decide (MAX_CUSTODY_REWRAP_ITEMS < wq_item_count q) then
    Err (Limit ("custody rewrap request has " +:+ dec (wq_item_count q) +:+ " items, exceeds "
                +:+ dec MAX_CUSTODY_REWRAP_ITEMS))
  else ensure_message_bound q.

Definition verify_custody_rewrap_request (r : SignedRecordV1 CustodyRewrapRequestV1)
    (prepared : SignedRecordV1 CustodyPreparedV1) : result ContractError unit :=
  _ ← verify_custody_prepared prepared;
  _ ← SignedRecordV1_validate CustodyRewrapRequestV1_validate r;
  if unsigned SCHEMA_CUSTODY_REWRAP_V1 r then
    Err (Crypto "invalid custody-rewrap-request signature")
  else
    let p := sr_payload prepared in
    let g := sr_payload (cp_grant p) in
    let q := sr_payload r in
    let unbound := Invalid
      "custody rewrap request does not exactly bind the Prepared proof, grant, requirement, and inventory" in
    requirement ← ok_or (cg_destination_rewrap g)
      (Invalid "custody rewrap request has no declaration in the exact custody grant");
    prepared_inventory_hash ← ok_or (cp_rewrap_inventory_hash p)
      (Invalid "prepared proof omits its declared rewrap inventory hash");
    prepared_item_count ← ok_or (cp_rewrap_item_count p)
      (Invalid "prepared proof omits its declared rewrap item count");
    if bool_decide (sr_signer r
           ≠ og_operational_public_key (sr_payload (cg_destination_operational_key g)))
       || bool_decide (wq_home q ≠ cg_home g)
       || bool_decide (wq_handoff q ≠ cg_handoff g) then Err unbound
    else
      prepared_hash ← canonical_hash prepared;
      if bool_decide (wq_prepared_hash q ≠ prepared_hash)
         || bool_decide (wq_grant_hash q ≠ cp_grant_hash p)
         || bool_decide (wq_checkpoint_hash q ≠ cp_checkpoint_hash p) then Err unbound
      else
        requirement_hash ← canonical_hash requirement;
        if bool_decide (wq_requirement_hash q ≠ requirement_hash)
           || bool_decide (wq_inventory_hash q ≠ prepared_inventory_hash)
           || bool_decide (wq_item_count q ≠ prepared_item_count) then Err unbound
        else Ok tt.

(** The commitment an entry repeats. *)
Definition entry_commitment (e : CustodyRewrapEntryV1) : CustodyRewrapInventoryCommitmentV1 :=
  mkCustodyRewrapInventoryCommitmentV1 (we_sealed_value_hash e) (we_ciphertext e)
    (we_source_wrap_hash e).

Definition CustodyRewrapReceiptV1_validate (r : CustodyRewrapReceiptV1) :
    result ContractError unit :=
  let count := N.of_nat (length (wr_entries r)) in
  let uncovered := Invalid
    "custody rewrap receipt entries do not exactly cover the requested inventory" in
  _ ← SignedRecordV1_validate CustodyRewrapRequestV1_validate (wr_request r);
  if decide (MAX_CUSTODY_REWRAP_ITEMS < count) then
    Err (Limit ("custody rewrap receipt has " +:+ dec count +:+ " entries, exceeds "
                +:+ dec MAX_CUSTODY_REWRAP_ITEMS))
  else
    _ ← validate_rewrap_item_order (map we_sealed_value_hash (wr_entries r));
    _ ← validate_each CustodyRewrapEntryV1_validate (wr_entries r);
    entry_count ← ok_or (try_from u32_MAX count)
      (Limit "custody rewrap receipt item count does not fit u32");
    if decide (wq_item_count (sr_payload (wr_request r)) ≠ entry_count) then Err uncovered
    else
      hash ← rewrap_inventory_hash (map entry_commitment (wr_entries r));
      if decide (wq_inventory_hash (sr_payload (wr_request r)) ≠ hash) then Err uncovered
      else
        _ ← validate_vec EvidenceRefV1_validate "custody rewrap receipt evidence" (wr_evidence r)
              MAX_EVIDENCE_REFS;
        ensure_message_bound r.

Definition verify_custody_rewrap_receipt (r : SignedRecordV1 CustodyRewrapReceiptV1)
    (prepared : SignedRecordV1 CustodyPreparedV1) : result ContractError unit :=
  _ ← SignedRecordV1_validate CustodyRewrapReceiptV1_validate r;
  _ ← verify_custody_rewrap_request (wr_request (sr_payload r)) prepared;
  if unsigned SCHEMA_CUSTODY_REWRAP_V1 r then
    Err (Crypto "invalid custody-rewrap-receipt signature")
  else
    let g := sr_payload (cp_grant (sr_payload prepared)) in
    requirement ← ok_or (cg_destination_rewrap g)
      (Invalid "custody rewrap receipt has no declaration in the exact custody grant");
    destination_binding_hash ← canonical_hash (cr_destination_binding requirement);
    if decide (sr_signer r
               ≠ rk_signing_public_key (sr_payload (cr_destination_binding requirement))) then
      Err (Invalid "custody rewrap receipt is not signed by the declared destination proof key")
    else
      validate_each (fun entry =>
        if bool_decide (rw_recipient (we_destination_wrap entry) ≠ cg_home g)
           || bool_decide (rw_binding_hash (we_destination_wrap entry)
                           ≠ destination_binding_hash) then
          Err (Invalid "custody rewrap receipt entry does not use the exact destination binding")
        else Ok tt) (wr_entries (sr_payload r)).

(** ** Staging *)

Definition CustodyStagedV1_validate (s : CustodyStagedV1) : result ContractError unit :=
  _ ← verify_custody_prepared (st_prepared s);
  _ ← validate_sha256 "staged prepared_hash" (st_prepared_hash s);
  _ ← validate_sha256 "staged grant_hash" (st_grant_hash s);
  _ ← validate_sha256 "staged checkpoint_hash" (st_checkpoint_hash s);
  _ ← validate_text "staged destination_realm" (st_destination_realm s) MAX_ID_BYTES;
  _ ← validate_text "staged destination_node" (st_destination_node s) MAX_ID_BYTES;
  _ ← validate_text "staged destination_coordinator" (st_destination_coordinator s) MAX_ID_BYTES;
  let p := sr_payload (st_prepared s) in
  let g := sr_payload (cp_grant p) in
  prepared_hash ← canonical_hash (st_prepared s);
  if bool_decide (prepared_hash ≠ st_prepared_hash s)
     || bool_decide (cp_grant_hash p ≠ st_grant_hash s)
     || bool_decide (cp_checkpoint_hash p ≠ st_checkpoint_hash s)
     || bool_decide (cg_destination_realm g ≠ st_destination_realm s)
     || bool_decide (cg_destination_node g ≠ st_destination_node s) then
    Err (Invalid "staging receipt does not bind the prepared proof, hashes, and destination")
  else
    _ ← match cg_destination_rewrap g, st_rewrap_receipt s with
        | None, None => Ok tt
        | Some _, Some receipt => verify_custody_rewrap_receipt receipt (st_prepared s)
        | _, _ => Err (Invalid
            "staging rewrap receipt must be present exactly when the custody grant declares rewrap")
        end;
    ensure_message_bound s.

Definition verify_custody_staged (r : SignedRecordV1 CustodyStagedV1) :
    result ContractError unit :=
  _ ← SignedRecordV1_validate CustodyStagedV1_validate r;
  if unsigned SCHEMA_HOME_V1 r then Err (Crypto "invalid custody-staged signature")
  else
    let g := sr_payload (cp_grant (sr_payload (st_prepared (sr_payload r)))) in
    if decide (sr_signer r
               ≠ og_operational_public_key (sr_payload (cg_destination_operational_key g))) then
      Err (Invalid "custody-staged signer is not the root-authorized destination epoch key")
    else Ok tt.

(** ** Status *)

(** The phase match of [HomeCustodyStatusV1::validate]. *)
Definition custody_phase_check (s : HomeCustodyStatusV1) : result ContractError unit :=
  match cu_state s with
  | PhaseActive None None =>
      if decide (cu_epoch s = 1) then Ok tt
      else Err (Invalid "active genesis omits custody proofs; moved active status requires both")
  | PhaseActive (Some staged) (Some lease) =>
      _ ← verify_custody_staged staged;
      _ ← verify_home_lease lease;
      let g := sr_payload (cp_grant (sr_payload (st_prepared (sr_payload staged)))) in
      let l := sr_payload lease in
      if bool_decide (cu_home s ≠ cg_home g)
         || bool_decide (cu_epoch s ≠ cg_to_epoch g)
         || bool_decide (ha_operational (cu_authority s) ≠ cg_destination_operational_key g)
         || bool_decide (hl_home l ≠ cu_home s)
         || bool_decide (hl_epoch l ≠ cu_epoch s)
         || bool_decide (hl_handoff l ≠ Some (cg_handoff g))
         || bool_decide (hl_checkpoint_hash l ≠ st_checkpoint_hash (sr_payload staged)) then
        Err (Invalid "active custody status does not match its staged proof and lease")
      else Ok tt
  | PhaseFrozen prepared redirect =>
      _ ← verify_custody_prepared prepared;
      let g := sr_payload (cp_grant (sr_payload prepared)) in
      if bool_decide (cu_home s ≠ cg_home g)
         || bool_decide (cu_epoch s ≠ cg_from_epoch g)
         || bool_decide (cu_authority s ≠ cg_source_authority g) then
        Err (Invalid "frozen custody status does not match its prepared proof")
      else
        validate_opt (fun redirect =>
          _ ← verify_home_lease redirect;
          let l := sr_payload redirect in
          if bool_decide (hl_home l ≠ cu_home s)
             || bool_decide (hl_epoch l ≠ cg_to_epoch g)
             || bool_decide (hl_handoff l ≠ Some (cg_handoff g))
             || bool_decide (hl_checkpoint_hash l ≠ cp_checkpoint_hash (sr_payload prepared)) then
            Err (Invalid "frozen custody redirect does not match its prepared proof")
          else Ok tt) redirect
  | PhaseStaged staged =>
      _ ← verify_custody_staged staged;
      let g := sr_payload (cp_grant (sr_payload (st_prepared (sr_payload staged)))) in
      if bool_decide (cu_home s ≠ cg_home g)
         || bool_decide (cu_epoch s ≠ cg_to_epoch g)
         || bool_decide (ha_operational (cu_authority s) ≠ cg_destination_operational_key g) then
        Err (Invalid "staged custody status does not match its staging receipt")
      else Ok tt
  | PhaseActive _ _ =>
      Err (Invalid "active genesis omits custody proofs; moved active status requires both")
  end.

Definition HomeCustodyStatusV1_validate (s : HomeCustodyStatusV1) : result ContractError unit :=
  _ ← HomeId_validate (cu_home s);
  if decide (cu_epoch s = 0) then Err (Invalid "custody status epoch must be non-zero")
  else
    _ ← HomeAuthorityV1_verify (cu_authority s) (cu_home s) (cu_epoch s) CapCustody;
    _ ← custody_phase_check s;
    ensure_message_bound s.

Definition verify_home_custody_status (r : SignedRecordV1 HomeCustodyStatusV1) :
    result ContractError unit :=
  _ ← SignedRecordV1_validate HomeCustodyStatusV1_validate r;
  if unsigned SCHEMA_HOME_V1 r then Err (Crypto "invalid home-custody status signature")
  else if decide (sr_signer r ≠ operational_key (cu_authority (sr_payload r))) then
    Err (Invalid "home-custody status signer is not its root-authorized epoch key")
  else Ok tt.
End custody.

(** ** The inventory hash determines the inventory *)

Definition commitment_json (c : CustodyRewrapInventoryCommitmentV1) : json :=
  JObject [("sealed_value_hash", JString (cc_sealed_value_hash c));
           ("ciphertext",
            JObject [("digest", JString (br_digest (cc_ciphertext c)));
                     ("size", JNumber (dec (br_size (cc_ciphertext c))));
                     ("media_type", JString (br_media_type (cc_ciphertext c)))]);
           ("source_wrap_hash", JString (cc_source_wrap_hash c))].

Lemma commitments_to_value (l : list CustodyRewrapInventoryCommitmentV1) :
  mapM to_value l = Ok (map commitment_json l).
Proof. induction l as [|c l IH]; [done|]. cbn. by rewrite IH. Qed.

Lemma sort_commitment_json c :
  sort_json (commitment_json c)
  = JObject [("ciphertext",
              JObject [("digest", JString (br_digest (cc_ciphertext c)));
                       ("media_type", JString (br_media_type (cc_ciphertext c)));
                       ("size", JNumber (dec (br_size (cc_ciphertext c))))]);
             ("sealed_value_hash", JString (cc_sealed_value_hash c));
             ("source_wrap_hash", JString (cc_source_wrap_hash c))].
Proof. reflexivity. Qed.

Lemma sort_commitments_inj l k :
  map sort_json (map commitment_json l) = map sort_json (map commitment_json k) → l = k.
Proof.
  revert k. induction l as [|c l IH]; intros [|d k] E; try done.
  cbn [map] in E.
  assert (sort_json (commitment_json c) = sort_json (commitment_json d)) as E1 by congruence.
  assert (map sort_json (map commitment_json l) = map sort_json (map commitment_json k)) as E2
    by congruence.
  rewrite !sort_commitment_json in E1.
  injection E1 as Hd Hm Hs Hv Hw. apply (inj dec) in Hs.
  rewrite (IH k E2). f_equal. destruct c as [? [] ?], d as [? [] ?]. cbn in *. congruence.
Qed.

Lemma rewrap_inventory_hash_inj `{!Sha256} `{!JsonText} `{!JsonTextLaws} l k h :
  rewrap_inventory_hash l = Ok h → rewrap_inventory_hash k = Ok h → l = k ∨ sha_collision.
Proof.
  intros Hl Hk. destruct (canonical_hash_inj _ _ h Hl Hk) as [E|]; [left|by right].
  eapply canonical_json_bytes_sort in E.
  2, 3: unfold to_value, CustodyRewrapInventoryHashV1_to_value, to_value, list_to_value; cbn;
    rewrite commitments_to_value; reflexivity.
  apply sort_commitments_inj. by injection E.
Qed.

Lemma validate_each_Ok {T} (validate : T → result ContractError unit) l :
  validate_each validate l = Ok tt → Forall (fun x => validate x = Ok tt) l.
Proof.
  induction l as [|x l IH]; cbn; [by constructor|]. intros E. inv_result.
  repeat match goal with u : unit |- _ => destruct u end. constructor; auto.
Qed.

(** ** A concrete handover with rewrap *)

(** A toy digest that tells the sample records apart. *)
Definition toy_sha : Sha256 :=
  Build_Sha256 N 7
    (fun s b => fold_left (fun a x => N.land (a * 31 + Byte.to_N x) u64_MAX) b s)
    (fun s => hex_encode (be_bytes 32 s)).

(** A recipient binding is told apart by its encryption key; the payloads of
    the other records do not matter here. *)
Definition sample_wire : WireSerde :=
  @Build_WireSerde null_value null_value null_value
    (fun b : RecipientKeyBindingV1 => Ok (JString (rk_encryption_public_key b)))
    null_value null_value null_value null_value null_value null_value null_value null_value
    null_value null_value null_value null_value null_value null_value null_value null_value
    null_value null_value null_value null_value.
Definition null_custody : CustodySerde :=
  @Build_CustodySerde null_value null_value null_value null_value.

#[local] Existing Instances toy_sha stuffed_text toy_ed25519 sample_wire null_custody.

Definition sign_sample {T} `{!ToValue T} (schema key : string) (payload : T) : SignedRecordV1 T :=
  match SignedRecordV1_sign schema payload
          (mkAuthoritySigner key
             (fun m => Ok (hex_encode (toy_sign (default [] (hex_decode key)) m)))) with
  | Ok r => r
  | Err _ => mkSignedRecordV1 "" "" payload ""
  end.

Definition hash_of {T} `{!ToValue T} (x : T) : string :=
  match canonical_hash x with Ok h => h | Err _ => "" end.

Definition handover_operational (epoch : N) : SignedRecordV1 OperationalKeyGrantV1 :=
  sign_sample SCHEMA_HOME_V1 sample_root
    (mkOperationalKeyGrantV1 sample_root epoch (sample_epoch_key epoch) None None
       [CapJobHome; CapJobControl; CapCustody; CapLocate] []).
Definition handover_abode : SignedRecordV1 AbodeKeyBindingV1 :=
  sign_sample SCHEMA_HOME_V1 sample_root (mkAbodeKeyBindingV1 sample_root sample_root None).
Definition handover_checkpoint : SignedRecordV1 HomeCheckpointV1 :=
  sign_sample SCHEMA_HOME_V1 (sample_epoch_key 1)
    (mkHomeCheckpointV1 sample_root 1 7 zero_digest (mkBlobRefV1 zero_digest 3 "x/y") None).

Definition handover_binding (encryption proof : string) : SignedRecordV1 RecipientKeyBindingV1 :=
  sign_sample SCHEMA_HOME_V1 sample_root
    (mkRecipientKeyBindingV1 sample_root (key_of proof) (key_of encryption) "suite" None None).
Definition handover_requirement : CustodyRewrapRequirementV1 :=
  mkCustodyRewrapRequirementV1 (handover_binding "b" "c") (handover_binding "d" "f") [].

Definition handover_custody : SignedRecordV1 CustodyGrantV1 :=
  sign_sample SCHEMA_HOME_V1 sample_root
    (mkCustodyGrantV1 sample_root "h" 1 2
       (mkHomeAuthorityV1 handover_abode (handover_operational 1) None) "r" "n" "r2" "n2"
       (hash_of handover_checkpoint) zero_digest (handover_operational 2) [] None
       (Some handover_requirement)).

Definition handover_blob : BlobRefV1 := mkBlobRefV1 zero_digest 5 "x/y".
Definition handover_inventory : list CustodyRewrapSourceV1 :=
  [mkCustodyRewrapSourceV1 zero_digest handover_blob
     (mkRecipientKeyWrapV1 sample_root (hash_of (cr_source_binding handover_requirement)) "e" "w")].
Definition handover_inventory_hash : string :=
  match verify_custody_rewrap_inventory sample_root handover_requirement handover_inventory with
  | Ok h => h
  | Err _ => ""
  end.

Definition handover_prepared : SignedRecordV1 CustodyPreparedV1 :=
  sign_sample SCHEMA_HOME_V1 (sample_epoch_key 1)
    (mkCustodyPreparedV1 handover_custody handover_checkpoint (hash_of handover_custody)
       (hash_of handover_checkpoint) zero_digest "c" (Some handover_inventory_hash) (Some 1)).

Definition handover_request : SignedRecordV1 CustodyRewrapRequestV1 :=
  sign_sample SCHEMA_CUSTODY_REWRAP_V1 (sample_epoch_key 2)
    (mkCustodyRewrapRequestV1 sample_root "h" (hash_of handover_prepared)
       (hash_of handover_custody) (hash_of handover_checkpoint) (hash_of handover_requirement)
       handover_inventory_hash 1).

Definition handover_receipt : SignedRecordV1 CustodyRewrapReceiptV1 :=
  sign_sample SCHEMA_CUSTODY_REWRAP_V1 (key_of "f")
    (mkCustodyRewrapReceiptV1 handover_request
       [mkCustodyRewrapEntryV1 zero_digest handover_blob
          (hash_of (mkRecipientKeyWrapV1 sample_root
                      (hash_of (cr_source_binding handover_requirement)) "e" "w"))
          (mkRecipientKeyWrapV1 sample_root
             (hash_of (cr_destination_binding handover_requirement)) "e2" "w2")] []).

Definition handover_staged : SignedRecordV1 CustodyStagedV1 :=
  sign_sample SCHEMA_HOME_V1 (sample_epoch_key 2)
    (mkCustodyStagedV1 handover_prepared (hash_of handover_prepared) (hash_of handover_custody)
       (hash_of handover_checkpoint) "r2" "n2" "c2" (Some handover_receipt)).

(** ** Properties *)

(** A verified staging receipt of a handover that declares a rewrap covers
    the source's whole inventory: for every inventory the source could have
    committed to, unless the hash function collides, the destination entries
    name exactly the inventory's sealed values, ciphertexts and source wraps, in
    order and none missing, and each carries a wrap for the Home under the
    declared destination binding. *)
Theorem staged_rewrap_covers_inventory (S : Sha256) (X : JsonText) (L : JsonTextLaws)
    (E : Ed25519) (W : WireSerde) (C : CustodySerde)
    (staged : SignedRecordV1 CustodyStagedV1) (receipt : SignedRecordV1 CustodyRewrapReceiptV1)
    (requirement : CustodyRewrapRequirementV1) (home : HomeId)
    (inventory : list CustodyRewrapSourceV1) (h : string)
    (Hstaged : verify_custody_staged staged = Ok tt)
    (Hreceipt : st_rewrap_receipt (sr_payload staged) = Some receipt)
    (Hreq : cg_destination_rewrap
              (sr_payload (cp_grant (sr_payload (st_prepared (sr_payload staged)))))
            = Some requirement)
    (Hcommitted : cp_rewrap_inventory_hash (sr_payload (st_prepared (sr_payload staged))) = Some h)
    (Hinv : verify_custody_rewrap_inventory home requirement inventory = Ok h) :
  sha_collision
  ∨ ∃ binding_hash,
      canonical_hash (cr_destination_binding requirement) = Ok binding_hash
      ∧ rewrap_commitments inventory = Ok (map entry_commitment (wr_entries (sr_payload receipt)))
      ∧ Forall (fun e =>
            rw_recipient (we_destination_wrap e)
            = cg_home (sr_payload (cp_grant (sr_payload (st_prepared (sr_payload staged)))))
            ∧ rw_binding_hash (we_destination_wrap e) = binding_hash)
          (wr_entries (sr_payload receipt)).
Proof.
  unfold verify_custody_staged in Hstaged. inv_validate.
  match goal with H : SignedRecordV1_validate _ staged = Ok tt |- _ =>
    apply record_validate_Ok in H; unfold CustodyStagedV1_validate in H;
    rewrite Hreq, Hreceipt in H end. inv_validate.
  match goal with H : verify_custody_rewrap_receipt _ _ = Ok tt |- _ =>
    unfold verify_custody_rewrap_receipt in H; rewrite Hreq in H end. cbn [ok_or] in *. inv_validate.
  match goal with H : SignedRecordV1_validate CustodyRewrapReceiptV1_validate _ = Ok tt |- _ =>
    apply record_validate_Ok in H; unfold CustodyRewrapReceiptV1_validate in H end. inv_validate.
  match goal with H : verify_custody_rewrap_request _ _ = Ok tt |- _ =>
    unfold verify_custody_rewrap_request in H; rewrite Hreq, Hcommitted in H end.
  cbn [ok_or] in *. inv_validate.
  unfold verify_custody_rewrap_inventory, custody_rewrap_inventory_hash in Hinv. inv_validate.
  simplify_eq.
  match goal with
  | H1 : rewrap_inventory_hash (map entry_commitment _) = Ok ?a,
    H2 : rewrap_inventory_hash ?cs = Ok ?a |- _ =>
      destruct (rewrap_inventory_hash_inj cs _ a H2 H1) as [->|]; [|by left]
  end.
  right. eexists. split; [done|]. split; [done|].
  match goal with H : validate_each _ (wr_entries _) = Ok tt |- _ =>
    apply validate_each_Ok in H; eapply Forall_impl; [exact H|] end.
  intros e He. cbn in He. inv_validate. done.
Qed.

Lemma staged_rewrap_covers_inventory_witness :
  sha_collision
  ∨ ∃ binding_hash, canonical_hash (cr_destination_binding handover_requirement) = Ok binding_hash.
Proof.
  destruct (staged_rewrap_covers_inventory toy_sha stuffed_text stuffed_text_laws toy_ed25519 sample_wire
              null_custody handover_staged handover_receipt handover_requirement sample_root
              handover_inventory handover_inventory_hash) as [H|(b & Hb & _)].
  - vm_compute. reflexivity.
  - vm_compute. reflexivity.
  - vm_compute. reflexivity.
  - vm_compute. reflexivity.
  - vm_compute. reflexivity.
  - left. exact H.
  - right. exists b. exact Hb.
Defined.
