(* ===== verification/FnMessages.v ===== *)
(** * Executor dispatch, private reads, policy questions and message unions

    The rest of [foundation/gawdfn/src/wire.rs]: the calls an executor proxies
    into a creature, the signed reads of a Job with the responses that bind them,
    the placement and retry questions a Home asks of an injected policy, and the
    message unions of each envelope schema.

    The serialisers of the message structs are the class [MessageSerde]. *)

From S2P Require Import Prelude GxShape GxHash FnCrypto FnTypes FnWire FnCustody.

Definition SCHEMA_CALL_V1 : string := "gawd.function.call.v1".
Definition SCHEMA_POLICY_V1 : string := "gawd.function.policy.v1".

Definition u16_MAX : N := 65535.

(** ** Executor dispatch *)

Record ExecutorDispatchV1 : Type := mkExecutorDispatchV1 {
  xd_attempt : AttemptId;
  xd_grant_hash : string;
  xd_deployment : DeploymentId;
  xd_executor_creature : string;
  xd_target_creature : string
}.
#[export] Instance ExecutorDispatchV1_eq_dec : EqDecision ExecutorDispatchV1.
Proof. solve_decision. Defined.

Record ExecutorControlDispatchV1 : Type := mkExecutorControlDispatchV1 {
  xk_attempt : AttemptId;
  xk_grant_hash : string;
  xk_control_hash : string;
  xk_deployment : DeploymentId;
  xk_executor_creature : string;
  xk_target_creature : string
}.
#[export] Instance ExecutorControlDispatchV1_eq_dec : EqDecision ExecutorControlDispatchV1.
Proof. solve_decision. Defined.

Record FunctionCallV1 : Type := mkFunctionCallV1 {
  fc_attempt : AttemptId;
  fc_function : FunctionId;
  fc_input : ValueRefV1;
  fc_grant : SignedRecordV1 ExecutionGrantV1;
  fc_executor_dispatch : SignedRecordV1 ExecutorDispatchV1
}.

Record FunctionControlV1 : Type := mkFunctionControlV1 {
  fk_attempt : AttemptId;
  fk_endorsement : SignedRecordV1 ExecutionControlV1;
  fk_grant : SignedRecordV1 ExecutionGrantV1;
  fk_executor_dispatch : SignedRecordV1 ExecutorControlDispatchV1
}.

(** [outcome : Result<ValueRefV1, ValueRefV1>]. *)
Record FunctionResultV1 : Type := mkFunctionResultV1 {
  fr_attempt : AttemptId;
  fr_outcome : result ValueRefV1 ValueRefV1
}.
#[export] Instance FunctionResultV1_eq_dec : EqDecision FunctionResultV1.
Proof. solve_decision. Defined.

(** ** Locating a Home *)

Record HomeLocateV1 : Type := mkHomeLocateV1 {
  lo_home : HomeId;
  lo_minimum_epoch : option N
}.

Definition HomeLocateV1_validate (l : HomeLocateV1) : result ContractError unit :=
  _ ← HomeId_validate (lo_home l);
  if decide (lo_minimum_epoch l = Some 0) then Err (Invalid "minimum epoch must be non-zero")
  else Ok tt.

Record HomeLocationV1 : Type := mkHomeLocationV1 {
  ln_lease : SignedRecordV1 HomeLeaseV1;
  ln_observed_at_unix_ms : option N
}.

(** ** Private reads *)

Record EventQueryV1 : Type := mkEventQueryV1 {
  ev_handle : JobHandleV1;
  ev_after_sequence : option N;
  ev_limit : N;
  ev_nonce : string
}.

Record JobGetV1 : Type := mkJobGetV1 {
  jg_handle : JobHandleV1;
  jg_nonce : string
}.

Definition JobGetV1_validate (g : JobGetV1) : result ContractError unit :=
  _ ← JobHandleV1_validate (jg_handle g);
  validate_text "job read nonce" (jg_nonce g) MAX_ID_BYTES.

Definition EventQueryV1_validate (q : EventQueryV1) : result ContractError unit :=
  _ ← JobHandleV1_validate (ev_handle q);
  _ ← validate_text "job event-read nonce" (ev_nonce q) MAX_ID_BYTES;
  if decide (ev_limit q = 0 ∨ MAX_EVENT_PAGE_ITEMS < ev_limit q) then
    Err (Invalid ("event query limit must be in 1..=" +:+ dec MAX_EVENT_PAGE_ITEMS))
  else Ok tt.

Record JobGetRelayV1 : Type := mkJobGetRelayV1 {
  gr_caller : SignedRecordV1 JobGetV1;
  gr_reply_to : string
}.

Record EventQueryRelayV1 : Type := mkEventQueryRelayV1 {
  er_caller : SignedRecordV1 EventQueryV1;
  er_reply_to : string
}.

Record EventPageV1 : Type := mkEventPageV1 {
  pg_handle : JobHandleV1;
  pg_events : list (SignedRecordV1 JobEventV1);
  pg_next_after_sequence : option N
}.

Record JobSnapshotResponseV1 : Type := mkJobSnapshotResponseV1 {
  sv_request_hash : string;
  sv_snapshot : SignedRecordV1 JobSnapshotV1
}.

Record EventPageResponseV1 : Type := mkEventPageResponseV1 {
  pv_request_hash : string;
  pv_home_epoch : N;
  pv_authority : HomeAuthorityV1;
  pv_page : EventPageV1
}.

Record ProtocolErrorV1 : Type := mkProtocolErrorV1 {
  pe_code : string;
  pe_message : string;
  pe_retryable : bool
}.
#[export] Instance ProtocolErrorV1_eq_dec : EqDecision ProtocolErrorV1.
Proof. solve_decision. Defined.

Definition ProtocolErrorV1_validate (e : ProtocolErrorV1) : result ContractError unit :=
  _ ← validate_text "error code" (pe_code e) MAX_NAME_BYTES;
  validate_text "error message" (pe_message e) FN_MAX_REASON_BYTES.

(** ** Policy questions and decisions *)

Record PlacementQuestionV1 : Type := mkPlacementQuestionV1 {
  pq_job : JobHandleV1;
  pq_home_epoch : N;
  pq_authority : HomeAuthorityV1;
  pq_function : FunctionId;
  pq_candidates : list (SignedRecordV1 DeploymentReceiptV1);
  pq_evidence : list EvidenceRefV1
}.
#[export] Instance PlacementQuestionV1_eq_dec : EqDecision PlacementQuestionV1.
Proof. solve_decision. Defined.

Record PlacementDecisionV1 : Type := mkPlacementDecisionV1 {
  pd_job : JobHandleV1;
  pd_question_hash : string;
  pd_selected : DeploymentId;
  pd_evidence : list EvidenceRefV1
}.
#[export] Instance PlacementDecisionV1_eq_dec : EqDecision PlacementDecisionV1.
Proof. solve_decision. Defined.

Definition PlacementDecisionV1_validate (d : PlacementDecisionV1) : result ContractError unit :=
  _ ← JobHandleV1_validate (pd_job d);
  _ ← validate_sha256 "placement decision question_hash" (pd_question_hash d);
  _ ← DeploymentId_validate (pd_selected d);
  validate_vec EvidenceRefV1_validate "placement decision evidence" (pd_evidence d)
    MAX_EVIDENCE_REFS.

#[export] Instance JobSnapshotV1_eq_dec : EqDecision JobSnapshotV1.
Proof. solve_decision. Defined.

Record RetryQuestionV1 : Type := mkRetryQuestionV1 {
  tq_snapshot : JobSnapshotV1;
  tq_failed_attempt : AttemptId;
  tq_failure : ValueRefV1;
  tq_executor_retryable_hint : bool;
  tq_candidates : list (SignedRecordV1 DeploymentReceiptV1);
  tq_evidence : list EvidenceRefV1
}.
#[export] Instance RetryQuestionV1_eq_dec : EqDecision RetryQuestionV1.
Proof. solve_decision. Defined.

Inductive RetryDecisionV1 : Type :=
  | RetryAgain (question_hash : string) (job : JobHandleV1)
      (failed_attempt next_attempt : AttemptId)
      (deployment : SignedRecordV1 DeploymentReceiptV1) (not_before_unix_ms : option N)
  | RetryStop (question_hash : string) (job : JobHandleV1) (failed_attempt : AttemptId)
      (terminal_state : JobStateV1) (reason : string).
#[export] Instance RetryDecisionV1_eq_dec : EqDecision RetryDecisionV1.
Proof. solve_decision. Defined.

(** [u8::saturating_add(1)], the number of the attempt after [n]. *)
Definition next_number (n : N) : N := N.min (n + 1) u8_MAX.

(** ** Message unions *)

Inductive FunctionDeployMessageV1 : Type :=
  | DResolve (request : SignedRecordV1 ResolveRequestV1)
  | DResolved (receipt : SignedRecordV1 ResolutionReceiptV1)
  | DRegister (request : SignedRecordV1 DeploymentRegistrationV1)
  | DRegistered (receipt : SignedRecordV1 DeploymentReceiptV1)
  | DLookup (query : DeploymentQueryV1)
  | DDeployments (deployments : DeploymentListV1)
  | DUndeploy (request : SignedRecordV1 UndeployRequestV1)
  | DUndeployed (receipt : SignedRecordV1 UndeployReceiptV1)
  | DError (error : ProtocolErrorV1).

Inductive JobMessageV1 : Type :=
  | JSubmit (request : SignedRecordV1 JobSubmitV1)
      (resolution : SignedRecordV1 ResolutionReceiptV1)
      (deployment : SignedRecordV1 DeploymentReceiptV1)
  | JAccepted (handle : JobHandleV1) (request_hash : string)
      (submitted : SignedRecordV1 JobEventV1)
  | JGet (request : SignedRecordV1 JobGetRelayV1)
  | JSnapshot (response : SignedRecordV1 JobSnapshotResponseV1)
  | JEvents (request : SignedRecordV1 EventQueryRelayV1)
  | JEventPage (response : SignedRecordV1 EventPageResponseV1)
  | JControl (request : SignedRecordV1 JobControlV1)
  | JControlAccepted (request_hash : string) (event : SignedRecordV1 JobEventV1)
  | JEvent (event : SignedRecordV1 JobEventV1)
  | JError (error : ProtocolErrorV1).

Inductive ExecuteMessageV1 : Type :=
  | EGrant (grant : SignedRecordV1 ExecutionGrantV1)
  | EReceipt (receipt : SignedRecordV1 ExecutionReceiptV1)
  | EQuery (request : SignedRecordV1 ExecutionQueryV1)
  | EControl (request : SignedRecordV1 ExecutionControlV1)
  | EError (error : ProtocolErrorV1).

Inductive FunctionCallMessageV1 : Type :=
  | FCall (call : FunctionCallV1)
  | FResult (outcome : FunctionResultV1)
  | FProgress (attempt : AttemptId) (sequence : N) (progress : ValueRefV1)
  | FCheckpoint (attempt : AttemptId) (sequence : N) (checkpoint : ValueRefV1)
  | FControl (control : FunctionControlV1)
  | FControlResult (attempt : AttemptId) (control : ControlId)
      (disposition : ControlDispositionV1) (detail : option string).

Inductive HomeMessageV1 : Type :=
  | HPrepare (grant : SignedRecordV1 CustodyGrantV1) (checkpoint : SignedRecordV1 HomeCheckpointV1)
  | HPrepared (prepared : SignedRecordV1 CustodyPreparedV1)
  | HStage (prepared : SignedRecordV1 CustodyPreparedV1)
  | HStaged (staged : SignedRecordV1 CustodyStagedV1)
  | HActivate (staged : SignedRecordV1 CustodyStagedV1)
  | HActivated (lease : SignedRecordV1 HomeLeaseV1)
  | HStatus (home : HomeId)
  | HStatusResult (status : SignedRecordV1 HomeCustodyStatusV1)
  | HError (error : ProtocolErrorV1).

Inductive LocateMessageV1 : Type :=
  | LLocate (query : HomeLocateV1)
  | LAnnounce (lease : SignedRecordV1 HomeLeaseV1)
  | LLocation (location : HomeLocationV1)
  | LNotFound (home : HomeId)
  | LConflict (home : HomeId) (epoch : N) (leases : list (SignedRecordV1 HomeLeaseV1))
  | LError (error : ProtocolErrorV1).

Inductive PolicyMessageV1 : Type :=
  | PSelectDeployment (question : SignedRecordV1 PlacementQuestionV1)
  | PDeploymentSelected (decision : SignedRecordV1 PlacementDecisionV1)
  | PDecideRetry (question : SignedRecordV1 RetryQuestionV1)
  | PRetryDecided (decision : SignedRecordV1 RetryDecisionV1)
  | PError (error : ProtocolErrorV1).

(** ** Serialisers *)

Class MessageSerde : Type := {
  ms_dispatch :: ToValue ExecutorDispatchV1;
  ms_control_dispatch :: ToValue ExecutorControlDispatchV1;
  ms_call :: ToValue FunctionCallV1;
  ms_control :: ToValue FunctionControlV1;
  ms_result :: ToValue FunctionResultV1;
  ms_get :: ToValue JobGetV1;
  ms_get_relay :: ToValue JobGetRelayV1;
  ms_query :: ToValue EventQueryV1;
  ms_query_relay :: ToValue EventQueryRelayV1;
  ms_page :: ToValue EventPageV1;
  ms_page_response :: ToValue EventPageResponseV1;
  ms_snapshot_response :: ToValue JobSnapshotResponseV1;
  ms_placement_question :: ToValue PlacementQuestionV1;
  ms_placement_decision :: ToValue PlacementDecisionV1;
  ms_retry_question :: ToValue RetryQuestionV1;
  ms_retry_decision :: ToValue RetryDecisionV1;
  ms_attempt :: ToValue AttemptId;
  ms_call_message :: ToValue FunctionCallMessageV1
}.

Section messages.
  Context `{!Sha256} `{!JsonText} `{!Ed25519} `{!WireSerde} `{!CustodySerde} `{!MessageSerde}.

(** *** Executor dispatch *)

Definition ExecutorControlDispatchV1_validate (d : ExecutorControlDispatchV1) :
    result ContractError unit :=
  _ ← AttemptId_validate (xk_attempt d);
  _ ← validate_sha256 "executor control dispatch grant_hash" (xk_grant_hash d);
  _ ← validate_sha256 "executor control dispatch control_hash" (xk_control_hash d);
  _ ← DeploymentId_validate (xk_deployment d);
  _ ← validate_creature_id "executor control dispatch route" (xk_executor_creature d);
  validate_creature_id "executor control dispatch target" (xk_target_creature d).

(** The disjuncts are evaluated left to right: a hash is computed, and its
    failure reported, only when the disjuncts before it are false. *)
Definition verify_executor_control_dispatch (r : SignedRecordV1 ExecutorControlDispatchV1)
    (control : SignedRecordV1 ExecutionControlV1) (grant : SignedRecordV1 ExecutionGrantV1) :
    result ContractError unit :=
  let d := sr_payload r in
  let g := sr_payload grant in
  let mismatch := Err (Invalid
    "executor control dispatch does not continue its exact grant and Home endorsement") in
  _ ← SignedRecordV1_validate ExecutorControlDispatchV1_validate r;
  _ ← verify_execution_control control;
  _ ← verify_execution_grant grant;
  if unsigned SCHEMA_CALL_V1 r then Err (Crypto "invalid executor control dispatch signature")
  else
    grant_hash ← canonical_hash grant;
    if bool_decide (sr_signer r ≠ dr_executor (sr_payload (eg_deployment g)))
       || bool_decide (xk_attempt d ≠ eg_attempt g)
       || bool_decide (xk_attempt d ≠ xc_attempt (sr_payload control))
       || bool_decide (xk_grant_hash d ≠ grant_hash)
       || bool_decide (xc_grant_hash (sr_payload control) ≠ grant_hash) then mismatch
    else
      control_hash ← canonical_hash control;
      if bool_decide (xk_control_hash d ≠ control_hash)
         || bool_decide (xk_deployment d ≠ dr_deployment (sr_payload (eg_deployment g)))
         || bool_decide (xk_target_creature d ≠ dr_creature (sr_payload (eg_deployment g)))
      then mismatch
      else Ok tt.

Definition ExecutorDispatchV1_validate (d : ExecutorDispatchV1) : result ContractError unit :=
  _ ← AttemptId_validate (xd_attempt d);
  _ ← validate_sha256 "executor dispatch grant_hash" (xd_grant_hash d);
  _ ← DeploymentId_validate (xd_deployment d);
  _ ← validate_creature_id "executor dispatch route" (xd_executor_creature d);
  validate_creature_id "executor dispatch target" (xd_target_creature d).

Definition verify_executor_dispatch (r : SignedRecordV1 ExecutorDispatchV1)
    (grant : SignedRecordV1 ExecutionGrantV1) : result ContractError unit :=
  let d := sr_payload r in
  let g := sr_payload grant in
  let mismatch := Err (Invalid
    "executor dispatch does not continue its exact deployment grant") in
  _ ← SignedRecordV1_validate ExecutorDispatchV1_validate r;
  _ ← verify_execution_grant grant;
  if unsigned SCHEMA_CALL_V1 r then Err (Crypto "invalid executor dispatch signature")
  else if bool_decide (sr_signer r ≠ dr_executor (sr_payload (eg_deployment g)))
       || bool_decide (xd_attempt d ≠ eg_attempt g) then mismatch
  else
    grant_hash ← canonical_hash grant;
    if bool_decide (xd_grant_hash d ≠ grant_hash)
       || bool_decide (xd_deployment d ≠ dr_deployment (sr_payload (eg_deployment g)))
       || bool_decide (xd_target_creature d ≠ dr_creature (sr_payload (eg_deployment g)))
    then mismatch
    else Ok tt.

Definition FunctionControlV1_validate (c : FunctionControlV1) : result ContractError unit :=
  _ ← AttemptId_validate (fk_attempt c);
  _ ← verify_execution_control (fk_endorsement c);
  _ ← verify_execution_grant (fk_grant c);
  _ ← verify_executor_control_dispatch (fk_executor_dispatch c) (fk_endorsement c) (fk_grant c);
  if bool_decide (fk_attempt c ≠ xc_attempt (sr_payload (fk_endorsement c)))
     || bool_decide (fk_attempt c ≠ eg_attempt (sr_payload (fk_grant c))) then
    Err (Invalid "function control does not name its exact endorsed and granted attempt")
  else ensure_message_bound c.

Definition FunctionCallV1_validate (c : FunctionCallV1) : result ContractError unit :=
  let g := sr_payload (fc_grant c) in
  _ ← AttemptId_validate (fc_attempt c);
  _ ← FunctionId_validate (fc_function c);
  _ ← ValueRefV1_validate (fc_input c);
  _ ← verify_execution_grant (fc_grant c);
  _ ← verify_executor_dispatch (fc_executor_dispatch c) (fc_grant c);
  if bool_decide (fc_attempt c ≠ eg_attempt g)
     || bool_decide (fc_function c ≠ eg_function g)
     || bool_decide (fc_input c ≠ eg_input g) then
    Err (Invalid "function call does not exactly continue its signed execution grant")
  else ensure_message_bound c.

Definition FunctionResultV1_validate (r : FunctionResultV1) : result ContractError unit :=
  _ ← AttemptId_validate (fr_attempt r);
  _ ← match fr_outcome r with
      | Ok value => ValueRefV1_validate value
      | Err error => ValueRefV1_validate_with_limit MAX_ERROR_BYTES error
      end;
  ensure_message_bound r.

Definition FunctionCallMessageV1_validate (m : FunctionCallMessageV1) :
    result ContractError unit :=
  _ ← match m with
      | FCall call => FunctionCallV1_validate call
      | FResult outcome => FunctionResultV1_validate outcome
      | FProgress attempt sequence progress =>
          _ ← AttemptId_validate attempt;
          if decide (sequence = 0) then
            Err (Invalid "function progress sequence must be non-zero")
          else ValueRefV1_validate_with_limit MAX_PROGRESS_BYTES progress
      | FCheckpoint attempt sequence checkpoint =>
          _ ← AttemptId_validate attempt;
          if decide (sequence = 0) then
            Err (Invalid "function checkpoint sequence must be non-zero")
          else ValueRefV1_validate checkpoint
      | FControl control => FunctionControlV1_validate control
      | FControlResult attempt control _ detail =>
          _ ← AttemptId_validate attempt;
          _ ← ControlId_validate control;
          validate_optional_text "function control result detail" detail FN_MAX_REASON_BYTES
      end;
  ensure_message_bound m.

Definition HomeLocationV1_validate (l : HomeLocationV1) : result ContractError unit :=
  verify_home_lease (ln_lease l).

(** *** Private reads *)

Definition JobGetRelayV1_validate (r : JobGetRelayV1) : result ContractError unit :=
  _ ← SignedRecordV1_validate JobGetV1_validate (gr_caller r);
  if unsigned SCHEMA_JOB_V1 (gr_caller r) then
    Err (Crypto "invalid relayed job-read caller signature")
  else
    _ ← validate_text "job read reply_to" (gr_reply_to r) MAX_ID_BYTES;
    ensure_message_bound r.

Definition EventQueryRelayV1_validate (r : EventQueryRelayV1) : result ContractError unit :=
  _ ← SignedRecordV1_validate EventQueryV1_validate (er_caller r);
  if unsigned SCHEMA_JOB_V1 (er_caller r) then
    Err (Crypto "invalid relayed job-event-read caller signature")
  else
    _ ← validate_text "job event read reply_to" (er_reply_to r) MAX_ID_BYTES;
    ensure_message_bound r.

Definition verify_job_get_relay (r : SignedRecordV1 JobGetRelayV1) : result ContractError unit :=
  _ ← SignedRecordV1_validate JobGetRelayV1_validate r;
  if unsigned SCHEMA_JOB_V1 r then Err (Crypto "invalid job-read relay signature") else Ok tt.

Definition verify_event_query_relay (r : SignedRecordV1 EventQueryRelayV1) :
    result ContractError unit :=
  _ ← SignedRecordV1_validate EventQueryRelayV1_validate r;
  if unsigned SCHEMA_JOB_V1 r then Err (Crypto "invalid event-read relay signature") else Ok tt.

Definition EventPageV1_validate (p : EventPageV1) : result ContractError unit :=
  _ ← JobHandleV1_validate (pg_handle p);
  let len := N.of_nat (length (pg_events p)) in
  if decide (MAX_EVENT_PAGE_ITEMS < len) then
    Err (Limit ("event page has " +:+ dec len +:+ " items, exceeds " +:+ dec MAX_EVENT_PAGE_ITEMS))
  else
    _ ← validate_each (fun event =>
          _ ← verify_job_event event;
          if decide (je_handle (sr_payload event) ≠ pg_handle p) then
            Err (Invalid "event page contains an event for a different job")
          else Ok tt) (pg_events p);
    ensure_message_bound p.

Definition JobSnapshotResponseV1_validate (r : JobSnapshotResponseV1) :
    result ContractError unit :=
  _ ← validate_sha256 "job snapshot response request_hash" (sv_request_hash r);
  _ ← verify_job_snapshot (sv_snapshot r);
  ensure_message_bound r.

Definition verify_job_snapshot_response (r : SignedRecordV1 JobSnapshotResponseV1) :
    result ContractError unit :=
  _ ← SignedRecordV1_validate JobSnapshotResponseV1_validate r;
  if unsigned SCHEMA_JOB_V1 r || bool_decide (sr_signer r ≠ sr_signer (sv_snapshot (sr_payload r)))
  then Err (Crypto "invalid job snapshot response signature")
  else Ok tt.

Definition verify_job_snapshot_response_for (r : SignedRecordV1 JobSnapshotResponseV1)
    (request : SignedRecordV1 JobGetRelayV1) : result ContractError unit :=
  _ ← verify_job_get_relay request;
  _ ← verify_job_snapshot_response r;
  h ← canonical_hash request;
  if decide (sv_request_hash (sr_payload r) ≠ h) then
    Err (Invalid "job snapshot response does not bind the exact signed relay request")
  else if decide (sp_handle (ss_spec (sr_payload (sv_snapshot (sr_payload r))))
                  ≠ jg_handle (sr_payload (gr_caller (sr_payload request)))) then
    Err (Invalid "job snapshot response belongs to a different Job handle")
  else Ok tt.

Definition EventPageResponseV1_validate (r : EventPageResponseV1) : result ContractError unit :=
  _ ← validate_sha256 "event page response request_hash" (pv_request_hash r);
  _ ← HomeAuthorityV1_verify (pv_authority r) (jh_home (pg_handle (pv_page r)))
        (pv_home_epoch r) CapJobHome;
  _ ← EventPageV1_validate (pv_page r);
  ensure_message_bound r.

Definition verify_event_page_response (r : SignedRecordV1 EventPageResponseV1) :
    result ContractError unit :=
  _ ← SignedRecordV1_validate EventPageResponseV1_validate r;
  if unsigned SCHEMA_JOB_V1 r
     || bool_decide (sr_signer r ≠ operational_key (pv_authority (sr_payload r))) then
    Err (Crypto "invalid event page response signature")
  else Ok tt.

(** The loop over the page's events: each continues the sequence before it; the
    last sequence is returned. *)
Fixpoint check_page_sequence (previous : N) (events : list (SignedRecordV1 JobEventV1)) :
    result ContractError N :=
  match events with
  | [] => Ok previous
  | event :: events =>
      if decide (u64_MAX < previous + 1) then
        Err (Invalid "event page continues beyond the sequence domain")
      else if decide (je_sequence (sr_payload event) ≠ previous + 1) then
        Err (Invalid ("event page sequence " +:+ dec (je_sequence (sr_payload event))
                      +:+ " is not the next sequence after " +:+ dec previous))
      else check_page_sequence (je_sequence (sr_payload event)) events
  end.

Definition check_page_cursor (page : EventPageV1) (previous : N) : result ContractError unit :=
  match pg_next_after_sequence page with
  | Some cursor =>
      match pg_events page with
      | [] => Err (Invalid ("empty event page carries continuation cursor " +:+ dec cursor))
      | _ :: _ =>
          if decide (cursor ≠ previous) then
            Err (Invalid ("event page continuation cursor " +:+ dec cursor
                          +:+ " does not name its last event " +:+ dec previous))
          else Ok tt
      end
  | None => Ok tt
  end.

Definition verify_event_page_response_for (r : SignedRecordV1 EventPageResponseV1)
    (request : SignedRecordV1 EventQueryRelayV1) : result ContractError unit :=
  _ ← verify_event_query_relay request;
  _ ← verify_event_page_response r;
  h ← canonical_hash request;
  let page := pv_page (sr_payload r) in
  let query := sr_payload (er_caller (sr_payload request)) in
  if decide (pv_request_hash (sr_payload r) ≠ h) then
    Err (Invalid "event page response does not bind the exact signed relay request")
  else if decide (pg_handle page ≠ ev_handle query) then
    Err (Invalid "event page response belongs to a different Job handle")
  else if decide (ev_limit query < N.of_nat (length (pg_events page))) then
    Err (Limit ("event page has " +:+ dec (N.of_nat (length (pg_events page)))
                +:+ " items, exceeds requested limit " +:+ dec (ev_limit query)))
  else
    previous ← check_page_sequence (default 0 (ev_after_sequence query)) (pg_events page);
    check_page_cursor page previous.

(** *** Policy questions and decisions *)

Definition validate_candidates (function : FunctionId) (refusal : string)
    (candidates : list (SignedRecordV1 DeploymentReceiptV1)) : result ContractError unit :=
  validate_each (fun candidate =>
    _ ← verify_deployment_receipt candidate;
    if decide (dr_function (sr_payload candidate) ≠ function) then Err (Invalid refusal)
    else Ok tt) candidates.

Definition PlacementQuestionV1_validate (q : PlacementQuestionV1) : result ContractError unit :=
  _ ← JobHandleV1_validate (pq_job q);
  if decide (pq_home_epoch q = 0) then
    Err (Invalid "placement-question Home epoch must be non-zero")
  else
    _ ← HomeAuthorityV1_verify (pq_authority q) (jh_home (pq_job q)) (pq_home_epoch q) CapJobHome;
    _ ← FunctionId_validate (pq_function q);
    if decide (pq_candidates q = [] ∨ MAX_EVENT_PAGE_ITEMS < N.of_nat (length (pq_candidates q)))
    then Err (Limit ("placement candidates must contain 1..=" +:+ dec MAX_EVENT_PAGE_ITEMS
                     +:+ " records"))
    else
      _ ← validate_candidates (pq_function q) "placement candidate pins a different function"
            (pq_candidates q);
      validate_vec EvidenceRefV1_validate "placement evidence" (pq_evidence q) MAX_EVIDENCE_REFS.

Definition verify_placement_question (r : SignedRecordV1 PlacementQuestionV1) :
    result ContractError unit :=
  _ ← SignedRecordV1_validate PlacementQuestionV1_validate r;
  if unsigned SCHEMA_POLICY_V1 r then Err (Crypto "invalid placement-question signature")
  else if decide (sr_signer r ≠ operational_key (pq_authority (sr_payload r))) then
    Err (Invalid "placement-question signer is not the root-authorized Home epoch key")
  else Ok tt.

Definition RetryQuestionV1_validate (q : RetryQuestionV1) : result ContractError unit :=
  let snapshot := tq_snapshot q in
  let handle := sp_handle (ss_spec snapshot) in
  _ ← JobSnapshotV1_validate snapshot;
  _ ← AttemptId_validate (tq_failed_attempt q);
  if decide (ss_state snapshot ≠ SRetryPending) then
    Err (Invalid "retry question snapshot must be retry_pending")
  else if bool_decide (at_home (tq_failed_attempt q) ≠ jh_home handle)
     || bool_decide (at_job (tq_failed_attempt q) ≠ jh_job handle)
     || bool_decide (ss_current_attempt snapshot ≠ Some (tq_failed_attempt q)) then
    Err (Invalid
      "retry question failed attempt does not match the snapshot's current job attempt")
  else
    _ ← ValueRefV1_validate_with_limit MAX_ERROR_BYTES (tq_failure q);
    if decide (MAX_EVENT_PAGE_ITEMS < N.of_nat (length (tq_candidates q))) then
      Err (Limit ("retry candidates exceed " +:+ dec MAX_EVENT_PAGE_ITEMS))
    else
      _ ← validate_candidates (rf_function (sp_function (ss_spec snapshot)))
            "retry candidate pins a different immutable function" (tq_candidates q);
      validate_vec EvidenceRefV1_validate "retry evidence" (tq_evidence q) MAX_EVIDENCE_REFS.

Definition verify_retry_question (r : SignedRecordV1 RetryQuestionV1) :
    result ContractError unit :=
  _ ← SignedRecordV1_validate RetryQuestionV1_validate r;
  if unsigned SCHEMA_POLICY_V1 r then Err (Crypto "invalid retry-question signature")
  else if decide (sr_signer r ≠ operational_key (ss_authority (tq_snapshot (sr_payload r)))) then
    Err (Invalid "retry-question signer is not the root-authorized Home epoch key")
  else Ok tt.

Definition RetryDecisionV1_validate (d : RetryDecisionV1) : result ContractError unit :=
  match d with
  | RetryAgain question_hash job failed_attempt next_attempt deployment _ =>
      _ ← validate_sha256 "retry decision question_hash" question_hash;
      _ ← JobHandleV1_validate job;
      _ ← AttemptId_validate failed_attempt;
      _ ← AttemptId_validate next_attempt;
      if bool_decide (at_home failed_attempt ≠ jh_home job)
         || bool_decide (at_job failed_attempt ≠ jh_job job)
         || bool_decide (at_home next_attempt ≠ jh_home job)
         || bool_decide (at_job next_attempt ≠ jh_job job)
         || bool_decide (at_number next_attempt ≠ next_number (at_number failed_attempt)) then
        Err (Invalid "retry decision attempt lineage does not match its explicit job")
      else verify_deployment_receipt deployment
  | RetryStop question_hash job failed_attempt terminal_state reason =>
      _ ← validate_sha256 "retry decision question_hash" question_hash;
      _ ← JobHandleV1_validate job;
      _ ← AttemptId_validate failed_attempt;
      if bool_decide (at_home failed_attempt ≠ jh_home job)
         || bool_decide (at_job failed_attempt ≠ jh_job job) then
        Err (Invalid "retry stop failed attempt does not belong to its explicit job")
      else if negb (is_terminal terminal_state) then
        Err (Invalid "retry stop decision must name a terminal state")
      else validate_text "retry stop reason" reason FN_MAX_REASON_BYTES
  end.

(** *** Acceptance of a submission *)

Definition verify_job_acceptance (handle : JobHandleV1) (request_hash : string)
    (submitted : SignedRecordV1 JobEventV1) : result ContractError unit :=
  let event := sr_payload submitted in
  _ ← JobHandleV1_validate handle;
  _ ← validate_sha256 "accepted request_hash" request_hash;
  _ ← verify_job_event submitted;
  match je_kind event with
  | KSubmitted spec =>
      if bool_decide (je_handle event ≠ handle)
         || bool_decide (sp_handle spec ≠ handle)
         || bool_decide (sp_request_hash spec ≠ request_hash)
         || bool_decide (je_sequence event ≠ 1)
         || bool_decide (je_state_after event ≠ SQueued) then
        Err (Invalid "job acceptance proof does not match handle/request/state")
      else Ok tt
  | _ => Err (Invalid "job acceptance proof is not a Submitted event")
  end.
End messages.
