(* ===== verification/Journal.v ===== *)
(** * The signed append journal

    [cosmos/creatures/function-home/src/journal.rs]: the fsynced JSON-lines hash
    chain that is the Home's source of truth, its recovery, and the head hint
    beside it.

    The file system is explicit.  [Disk] holds the visible contents of the log
    and of the head file, how much of the log is synced, whether the log's
    directory entry is, and the head content that is durable; every operation
    takes the results the operating system gives its successive calls
    ([AppendIo], [OpenIo]), the stats behind [Path::exists] included ([found]).  A crash ([crash]) keeps the synced part and an
    arbitrary part of the rest.

    [serde_json::from_slice] is the class [JournalDecode].  The fault-injection
    hook [check_durability_fault] exists only in test builds and is [Ok] in the
    others; the failures it injects are covered by the I/O results. *)

From S2P Require Import Prelude GxShape GxHash FnCrypto FnTypes.

(** ** Data *)

Definition HOME_CHAIN_SCHEMA : string := "gawd.function.home.journal.v1".
Definition GENESIS : string :=
  "sha256:0000000000000000000000000000000000000000000000000000000000000000".

Record JournalCaps : Type := mkJournalCaps {
  max_records : N;
  max_record_bytes : N
}.

Record ChainEntry (T : Type) : Type := mkChainEntry {
  ce_sequence : N;
  ce_previous_hash : string;
  ce_event : T
}.
Arguments mkChainEntry {T} _ _ _.
Arguments ce_sequence {T} _.
Arguments ce_previous_hash {T} _.
Arguments ce_event {T} _.

Record Head : Type := mkHead {
  hd_next_sequence : N;
  hd_tip_hash : string
}.
#[export] Instance Head_eq_dec : EqDecision Head.
Proof. solve_decision. Defined.

Inductive JournalError : Type :=
  | JIo (message : string)
  | JEncoding (message : string)
  | JCorrupt (message : string)
  | JLimit (message : string)
  | JUncertain.

#[export] Instance ChainEntry_to_value {T} `{!ToValue T} : ToValue (ChainEntry T) :=
  fun e =>
    v ← to_value (ce_event e);
    Ok (JObject [("sequence", JNumber (dec (ce_sequence e)));
                 ("previous_hash", JString (ce_previous_hash e)); ("event", v)]).

#[export] Instance Head_to_value : ToValue Head :=
  fun h =>
    Ok (JObject [("next_sequence", JNumber (dec (hd_next_sequence h)));
                 ("tip_hash", JString (hd_tip_hash h))]).

Record Inner (T : Type) : Type := mkInner {
  in_records : list (SignedRecordV1 (ChainEntry T));
  in_tip_hash : string;
  in_healthy : bool
}.
Arguments mkInner {T} _ _ _.
Arguments in_records {T} _.
Arguments in_tip_hash {T} _.
Arguments in_healthy {T} _.

(** [SignedJournal]: the immutable part; the paths are the files of [Disk]. *)
Record Journal : Type := mkJournal {
  jn_signer : AuthoritySigner;
  jn_chain_schema : string;
  jn_caps : JournalCaps
}.

(** [JournalAuthority]. *)
Definition Authority (T : Type) : Type := string → ChainEntry T → bool.

(** ** Disk *)

Record Disk : Type := mkDisk {
  dk_log : option bytes;
  dk_log_synced : N;
  dk_log_linked : bool;
  dk_head : option bytes;
  dk_head_durable : option bytes
}.

(** What survives a crash: the log may be gone if its directory entry was never
    synced, otherwise it keeps at least its synced part; the head is the visible
    or the last durable one. *)
Inductive crash (d : Disk) : Disk → Prop :=
  | crash_log log n head :
      dk_log d = Some log → dk_log_synced d ≤ n →
      head = dk_head d ∨ head = dk_head_durable d →
      crash d (mkDisk (Some (take (N.to_nat n) log)) (blen (take (N.to_nat n) log)) true head head)
  | crash_no_log head :
      dk_log d = None ∨ dk_log_linked d = false →
      head = dk_head d ∨ head = dk_head_durable d →
      crash d (mkDisk None 0 true head head).

(** The results of the calls of [atomic_write]: creating the temporary file,
    writing it, syncing it, renaming it, and syncing the directory. *)
Record AtomicIo : Type := mkAtomicIo {
  ai_create : result string unit;
  ai_write : result string unit;
  ai_sync : result string unit;
  ai_rename : result string unit;
  ai_dir_sync : result string unit
}.

(** [write_all] reports success, or an error after writing some bytes. *)
Inductive WriteResult : Type :=
  | WroteAll
  | WroteThenFailed (count : N) (error : string).

Record AppendIo : Type := mkAppendIo {
  ap_open : result string unit;
  ap_write : WriteResult;
  ap_sync : result string unit;
  ap_head : AtomicIo
}.

(** The booleans say whether the [stat] behind a [Path::exists] succeeds: the log in
    [recover], the log before it is synced, and the head. *)
Record OpenIo : Type := mkOpenIo {
  op_mkdir : result string unit;
  op_stat_recover : bool;
  op_metadata : result string unit;
  op_read_log : result string unit;
  op_stat_log : bool;
  op_sync_log : result string unit;
  op_stat_head : bool;
  op_read_head : result string unit;
  op_head : AtomicIo;
  op_dir_sync : result string unit
}.

Definition atomic_ok : AtomicIo := mkAtomicIo (Ok tt) (Ok tt) (Ok tt) (Ok tt) (Ok tt).
Definition open_ok : OpenIo :=
  mkOpenIo (Ok tt) true (Ok tt) (Ok tt) true (Ok tt) true (Ok tt) atomic_ok (Ok tt).

(** [Path::exists]: a [stat] that fails reads as a missing file. *)
Definition found {A} (stat : bool) (file : option A) : option A := if stat then file else None.

Lemma found_some {A} stat (file : option A) a : found stat file = Some a → file = Some a.
Proof. by destruct stat. Qed.

(** ** Helpers *)

Definition io_err (r : result string unit) : result JournalError unit := map_err JIo r.
Definition contract_err {A} (r : result ContractError A) : result JournalError A :=
  map_err (fun e => JEncoding (ContractError_to_string e)) r.

Definition NEWLINE : Byte.byte := Byte.x0a.

(** [bytes.split(|b| *b == sep)]. *)
Fixpoint split_bytes (sep : Byte.byte) (b : bytes) : list bytes :=
  match b with
  | [] => [[]]
  | x :: b =>
      if decide (x = sep) then [] :: split_bytes sep b
      else
        match split_bytes sep b with
        | line :: lines => (x :: line) :: lines
        | [] => [[x]]
        end
  end.

Definition ends_with_newline (b : bytes) : bool := bool_decide (last b = Some NEWLINE).
Definition is_empty_bytes (b : bytes) : bool := match b with [] => true | _ => false end.

(** [saturating_mul] and [saturating_add] on [usize]. *)
Definition max_log_bytes (caps : JournalCaps) : N :=
  N.min (max_records caps * N.min (max_record_bytes caps + 1) usize_MAX) usize_MAX.

Definition bounded_read (io : result string unit) (content : bytes) (max : N) :
    result JournalError bytes :=
  _ ← io_err io;
  if decide (max < blen content) then
    Err (JLimit ("file exceeds " +:+ dec max +:+ " byte limit"))
  else Ok content.

(** Code that works on the disk. *)
Definition diskM : Type → Type := stateR Disk JournalError.
#[export] Instance diskM_ret : MRet diskM := stateR_ret.
#[export] Instance diskM_bind : MBind diskM := stateR_bind.

Definition sys (r : result string unit) : diskM unit := lift_result (io_err r).

Definition set_head (content : bytes) (d : Disk) : Disk :=
  mkDisk (dk_log d) (dk_log_synced d) (dk_log_linked d) (Some content) (dk_head_durable d).
(** Syncing the directory makes the visible head and the log's entry durable. *)
Definition dir_synced (d : Disk) : Disk :=
  mkDisk (dk_log d) (dk_log_synced d) true (dk_head d) (dk_head d).
(** [OpenOptions::create(true).append(true)]: a new file is empty and its
    directory entry is not yet durable. *)
Definition create_log (d : Disk) : Disk :=
  match dk_log d with
  | Some _ => d
  | None => mkDisk (Some []) 0 false (dk_head d) (dk_head_durable d)
  end.
Definition write_log (content : bytes) (d : Disk) : Disk :=
  mkDisk (Some content) (dk_log_synced d) (dk_log_linked d) (dk_head d) (dk_head_durable d).
Definition log_synced (d : Disk) : Disk :=
  mkDisk (dk_log d) (blen (default [] (dk_log d))) (dk_log_linked d) (dk_head d)
    (dk_head_durable d).

(** Run the steps of a disk computation. *)
Ltac run_disk :=
  unfold mbind, diskM_bind, stateR_bind, gets, modify, sys, lift_result, mret, diskM_ret,
    stateR_ret.

(** [atomic_write] of the head file. *)
Definition atomic_write (io : AtomicIo) (content : bytes) : diskM unit :=
  _ ← sys (ai_create io);
  _ ← sys (ai_write io);
  _ ← sys (ai_sync io);
  _ ← sys (ai_rename io);
  _ ← modify (set_head content);
  _ ← sys (ai_dir_sync io);
  modify dir_synced.

Definition journal_name_ok (name : string) : bool :=
  bool_decide (name ≠ "")
  && all_bytes (fun b => in_range 48 57 b || in_range 65 90 b || in_range 97 122 b
                         || (b =? 45) || (b =? 95)) name.

(** ** Operations *)

Class JournalDecode (T : Type) : Type := {
  decode_record : bytes → result string (SignedRecordV1 (ChainEntry T));
  decode_head : bytes → result string Head
}.

Section journal.
  Context `{!Sha256} `{!JsonText} `{!Ed25519}.
  Context {T : Type} `{!ToValue T} `{!JournalDecode T}.

(** The record loop of [recover]: [index] is the number of records so far. *)
Fixpoint recover_lines (expected_schema : string) (caps : JournalCaps) (authority : Authority T)
    (lines : list bytes) (records : list (SignedRecordV1 (ChainEntry T))) (tip : string)
    (prefix_heads : list Head) :
    result JournalError (list (SignedRecordV1 (ChainEntry T)) * string * list Head) :=
  match lines with
  | [] => Ok (records, tip, prefix_heads)
  | line :: lines =>
      let index := N.of_nat (length records) in
      if decide (max_record_bytes caps < blen line) then
        Err (JLimit ("record " +:+ dec index +:+ " exceeds byte limit"))
      else if decide (max_records caps ≤ index) then Err (JLimit "record count exceeds limit")
      else
        record ← map_err (fun e => JCorrupt ("record " +:+ dec index +:+ " is invalid JSON: "
                                             +:+ e)) (decode_record line);
        if decide (sr_schema record ≠ expected_schema) then
          Err (JCorrupt ("record " +:+ dec index +:+ " has wrong schema"))
        else if negb (SignedRecordV1_verify record)
                || negb (authority (sr_signer record) (sr_payload record)) then
          Err (JCorrupt ("record " +:+ dec index
                         +:+ " has an invalid or unexpected signature"))
        else if bool_decide (ce_sequence (sr_payload record) ≠ index)
                || bool_decide (ce_previous_hash (sr_payload record) ≠ tip) then
          Err (JCorrupt ("record " +:+ dec index +:+ " breaks sequence/hash chain"))
        else
          tip ← contract_err (canonical_hash record);
          recover_lines expected_schema caps authority lines (records ++ [record]) tip
            (prefix_heads ++ [mkHead (index + 1) tip])
  end.

Definition recover (io : OpenIo) (log : option bytes) (expected_schema : string)
    (caps : JournalCaps) (authority : Authority T) :
    result JournalError (list (SignedRecordV1 (ChainEntry T)) * string * list Head) :=
  match found (op_stat_recover io) log with
  | None => Ok ([], GENESIS, [mkHead 0 GENESIS])
  | Some content =>
      _ ← io_err (op_metadata io);
      if decide (max_log_bytes caps < blen content) then
        Err (JLimit ("journal is " +:+ dec (blen content) +:+ " bytes, exceeds recovery limit "
                     +:+ dec (max_log_bytes caps)))
      else
        b ← bounded_read (op_read_log io) content (max_log_bytes caps);
        if negb (is_empty_bytes b) && negb (ends_with_newline b) then
          Err (JCorrupt "journal has a torn final record")
        else
          recover_lines expected_schema caps authority
            (filter (fun line => is_empty_bytes line = false) (split_bytes NEWLINE b))
            [] GENESIS [mkHead 0 GENESIS]
  end.

(** The head section of [open_with_authority]: a current head stays, a stale head
    that is a prefix of the recovered chain and a missing head of a non-empty
    chain are rewritten, any other head is refused. *)
Definition reconcile_head (io : OpenIo) (records : list (SignedRecordV1 (ChainEntry T)))
    (tip_hash : string) (prefix_heads : list Head) : diskM unit :=
  let expected := mkHead (N.of_nat (length records)) tip_hash in
  head ← gets dk_head;
  match found (op_stat_head io) head with
  | Some content =>
      b ← lift_result (bounded_read (op_read_head io) content (16 * 1024));
      persisted ← lift_result (map_err (fun e => JCorrupt ("invalid head: " +:+ e))
                                 (decode_head b));
      let head_is_current := bool_decide (persisted = expected) in
      let head_is_committed_prefix := bool_decide (persisted ∈ prefix_heads) in
      if negb head_is_current && negb head_is_committed_prefix then
        lift_result (Err (JCorrupt
          ("head (" +:+ dec (hd_next_sequence persisted) +:+ ", " +:+ hd_tip_hash persisted
           +:+ ") is not a prefix of recovered chain (" +:+ dec (hd_next_sequence expected)
           +:+ ", " +:+ hd_tip_hash expected +:+ ")")))
      else if negb head_is_current then
        content ← lift_result (contract_err (canonical_json_bytes expected));
        atomic_write (op_head io) content
      else mret tt
  | None =>
      match records with
      | [] => mret tt
      | _ =>
          content ← lift_result (contract_err (canonical_json_bytes expected));
          atomic_write (op_head io) content
      end
  end.

Definition open_with_authority (io : OpenIo) (name chain_schema : string)
    (signer : AuthoritySigner) (caps : JournalCaps) (authority : Authority T) :
    diskM (Journal * Inner T) :=
  if decide (max_records caps = 0 ∨ max_record_bytes caps = 0) then
    lift_result (Err (JLimit "caps must be non-zero"))
  else if negb (journal_name_ok name) then
    lift_result (Err (JCorrupt ("invalid journal name `" +:+ name +:+ "`")))
  else if is_blank chain_schema || bool_decide (MAX_ID_BYTES < slen chain_schema) then
    lift_result (Err (JCorrupt "invalid chain schema"))
  else
    _ ← sys (op_mkdir io);
    log ← gets dk_log;
    recovered ← lift_result (recover io log chain_schema caps authority);
    let '(records, tip_hash, prefix_heads) := recovered in
    _ ← match found (op_stat_log io) log with
        | Some _ => _ ← sys (op_sync_log io); modify log_synced
        | None => mret tt
        end;
    _ ← reconcile_head io records tip_hash prefix_heads;
    _ ← sys (op_dir_sync io);
    _ ← modify dir_synced;
    mret (mkJournal signer chain_schema caps, mkInner records tip_hash true).

(** [open] and [open_with_schema]: the current signer alone is authorised. *)
Definition open_with_schema (io : OpenIo) (name chain_schema : string)
    (signer : AuthoritySigner) (caps : JournalCaps) : diskM (Journal * Inner T) :=
  open_with_authority io name chain_schema signer caps
    (fun candidate _ => bool_decide (candidate = as_public_key signer)).
Definition open (io : OpenIo) (name : string) (signer : AuthoritySigner) (caps : JournalCaps) :
    diskM (Journal * Inner T) :=
  open_with_schema io name HOME_CHAIN_SCHEMA signer caps.

(** The [durable] closure of [append]. *)
Definition append_durable (io : AppendIo) (line : bytes) (next_head : Head) : diskM unit :=
  _ ← sys (ap_open io);
  _ ← modify create_log;
  log ← gets dk_log;
  let content := default [] log in
  _ ← match ap_write io with
      | WroteAll => modify (write_log (content ++ line))
      | WroteThenFailed n e =>
          _ ← modify (write_log (content ++ take (N.to_nat n) line)); lift_result (Err (JIo e))
      end;
  _ ← sys (ap_sync io);
  _ ← modify log_synced;
  head ← lift_result (contract_err (canonical_json_bytes next_head));
  atomic_write (ap_head io) head.

(** [append], on the mutable part of the journal and the disk. *)
Definition append (j : Journal) (io : AppendIo) (event : T) (inner : Inner T) (d : Disk) :
    result JournalError (SignedRecordV1 (ChainEntry T)) * Inner T * Disk :=
  let count := N.of_nat (length (in_records inner)) in
  if negb (in_healthy inner) then (Err JUncertain, inner, d)
  else if decide (max_records (jn_caps j) ≤ count) then
    (Err (JLimit (dec count +:+ " records exceeds " +:+ dec (max_records (jn_caps j)))), inner, d)
  else
    let entry := mkChainEntry count (in_tip_hash inner) event in
    match
      record ← contract_err (SignedRecordV1_sign (jn_chain_schema j) entry (jn_signer j));
      line ← contract_err (canonical_json_bytes record);
      if decide (max_record_bytes (jn_caps j) < blen line) then
        Err (JLimit ("record is " +:+ dec (blen line) +:+ " bytes, exceeds "
                     +:+ dec (max_record_bytes (jn_caps j))))
      else
        hash ← contract_err (canonical_hash record);
        Ok (record, line ++ [NEWLINE], hash)
    with
    | Err e => (Err e, inner, d)
    | Ok (record, line, hash) =>
        match append_durable io line (mkHead (count + 1) hash) d with
        | (Err e, d') => (Err e, mkInner (in_records inner) (in_tip_hash inner) false, d')
        | (Ok _, d') => (Ok record, mkInner (in_records inner ++ [record]) hash true, d')
        end
    end.

Definition ensure_healthy (inner : Inner T) : result JournalError unit :=
  if in_healthy inner then Ok tt else Err JUncertain.

(** [saturating_sub]. *)
Definition remaining_records (j : Journal) (inner : Inner T) : result JournalError N :=
  if negb (in_healthy inner) then Err JUncertain
  else Ok (max_records (jn_caps j) - N.of_nat (length (in_records inner))).
End journal.

#[local] Arguments canonical_json_bytes : simpl never.

(** ** Log bytes *)

Definition encode_log (lines : list bytes) : bytes := flat_map (fun l => l ++ [NEWLINE]) lines.

Lemma split_bytes_line l b :
  NEWLINE ∉ l → split_bytes NEWLINE (l ++ NEWLINE :: b) = l :: split_bytes NEWLINE b.
Proof.
  induction l as [|x l IH]; cbn [app split_bytes]; intros Hl.
  - by rewrite decide_True.
  - rewrite not_elem_of_cons in Hl. destruct Hl as [Hx Hl].
    rewrite decide_False by done. by rewrite IH.
Qed.

Lemma split_encode_log lines :
  Forall (fun l => NEWLINE ∉ l) lines →
  split_bytes NEWLINE (encode_log lines) = lines ++ [[]].
Proof.
  induction 1 as [|l lines Hl _ IH]; [done|]. cbn [encode_log flat_map].
  rewrite <-app_assoc. cbn [app]. rewrite split_bytes_line by done.
  change (flat_map _ lines) with (encode_log lines). by rewrite IH.
Qed.

Lemma filter_nonempty_lines lines :
  Forall (fun l => l ≠ []) lines →
  filter (fun l => is_empty_bytes l = false) (lines ++ [[]]) = lines.
Proof.
  intros Hl. rewrite filter_app. cbn. rewrite app_nil_r.
  induction Hl as [|l lines Hl _ IH]; [done|]. rewrite filter_cons_True, IH; [done|].
  by destruct l.
Qed.

Lemma encode_log_app l k : encode_log (l ++ k) = encode_log l ++ encode_log k.
Proof. apply flat_map_app. Qed.

Lemma last_encode_log lines : lines ≠ [] → last (encode_log lines) = Some NEWLINE.
Proof.
  destruct lines as [|l lines _] using rev_ind; [done|]. intros _.
  rewrite encode_log_app. cbn. by rewrite app_nil_r, app_assoc, last_snoc.
Qed.

Lemma blen_encode_log lines max :
  Forall (fun l => blen l ≤ max) lines →
  blen (encode_log lines) ≤ N.of_nat (length lines) * (max + 1).
Proof.
  induction 1 as [|l lines Hl _ IH]; [done|]. cbn [encode_log flat_map length].
  change (flat_map _ lines) with (encode_log lines).
  rewrite !blen_app. unfold blen at 2. cbn. lia.
Qed.

(** A log that ends inside a record is recognised as torn. *)
Lemma torn_log lines line (k : nat) :
  NEWLINE ∉ line → (0 < k)%nat → (k ≤ length line)%nat →
  is_empty_bytes (encode_log lines ++ take k line) = false
  ∧ ends_with_newline (encode_log lines ++ take k line) = false.
Proof.
  intros Hl Hk Hle. destruct (take k line) as [|x l _] eqn:E using rev_ind.
  { apply (f_equal length) in E. rewrite length_take in E. cbn in E. lia. }
  split.
  - by destruct (encode_log lines), l.
  - unfold ends_with_newline. apply bool_decide_eq_false. rewrite app_assoc, last_snoc.
    intros [= ->]. apply Hl. rewrite <-(take_drop k line), E, <-app_assoc.
    apply elem_of_app. right. apply list_elem_of_here.
Qed.

(** ** Recovery of a well-formed log *)

Section recovery.
  Context `{!Sha256} `{!JsonText} `{!Ed25519}.
  Context {T : Type} `{!ToValue T} `{!JournalDecode T}.
  Context (schema : string) (caps : JournalCaps) (authority : Authority T).

Abbreviation record := (SignedRecordV1 (ChainEntry T)).

(** Decoding a record's own line gives the record back; the line is a line. *)
Definition round_trips (r : record) : Prop :=
  ∀ b, canonical_json_bytes r = Ok b → decode_record b = Ok r ∧ (NEWLINE ∉ b) ∧ b ≠ [].

Definition head_round_trips (h : Head) : Prop :=
  ∀ b, canonical_json_bytes h = Ok b → decode_head b = Ok h ∧ blen b ≤ 16 * 1024.

(** [chain n tip rs tip']: the records [rs] continue a chain of [n] records with
    tip [tip], numbered, linked by hash, signed and authorised, to [tip']. *)
Inductive chain : N → string → list record → string → Prop :=
  | chain_nil n tip : chain n tip [] tip
  | chain_cons n tip r rs h tip' :
      sr_schema r = schema → SignedRecordV1_verify r = true →
      authority (sr_signer r) (sr_payload r) = true →
      ce_sequence (sr_payload r) = n → ce_previous_hash (sr_payload r) = tip →
      canonical_hash r = Ok h → chain (n + 1) h rs tip' →
      chain n tip (r :: rs) tip'.

Definition line_of (r : record) (line : bytes) : Prop :=
  canonical_json_bytes r = Ok line ∧ blen line ≤ max_record_bytes caps.

Fixpoint heads_from (n : N) (rs : list record) : list Head :=
  match rs with
  | [] => []
  | r :: rs =>
      match canonical_hash r with
      | Ok h => mkHead (n + 1) h :: heads_from (n + 1) rs
      | Err _ => []
      end
  end.

Lemma chain_app n tip rs tip' rs' tip'' :
  chain n tip rs tip' → chain (n + N.of_nat (length rs)) tip' rs' tip'' →
  chain n tip (rs ++ rs') tip''.
Proof.
  induction 1 as [n tip|n tip r rs h tip' ? ? ? ? ? ? _ IH]; cbn.
  - by rewrite N.add_0_r.
  - intros Hc. econstructor; try done. apply IH. by replace (n + 1 + N.of_nat (length rs))
      with (n + N.of_nat (S (length rs))) by lia.
Qed.

Lemma heads_from_app n tip rs tip' rs' :
  chain n tip rs tip' →
  heads_from n (rs ++ rs') = heads_from n rs ++ heads_from (n + N.of_nat (length rs)) rs'.
Proof.
  induction 1 as [n tip|n tip r rs h tip' ? ? ? ? ? Hh _ IH]; cbn.
  - by rewrite N.add_0_r.
  - rewrite Hh, IH. cbn. do 3 f_equal. lia.
Qed.

Lemma chain_head n tip rs tip' :
  chain n tip rs tip' →
  mkHead (n + N.of_nat (length rs)) tip' ∈ mkHead n tip :: heads_from n rs.
Proof.
  induction 1 as [n tip|n tip r rs h tip' ? ? ? ? ? Hh _ IH]; cbn.
  - rewrite N.add_0_r. apply list_elem_of_here.
  - rewrite Hh. apply list_elem_of_further.
    by replace (n + N.of_nat (S (length rs))) with (n + 1 + N.of_nat (length rs)) by lia.
Qed.

Lemma recover_lines_chain rs lines acc tip tip' heads :
  chain (N.of_nat (length acc)) tip rs tip' →
  Forall2 line_of rs lines → Forall round_trips rs →
  N.of_nat (length acc + length rs) ≤ max_records caps →
  recover_lines schema caps authority lines acc tip heads
  = Ok (acc ++ rs, tip', heads ++ heads_from (N.of_nat (length acc)) rs).
Proof.
  intros Hc. remember (N.of_nat (length acc)) as n eqn:Hn.
  revert lines acc heads Hn. induction Hc as [n tip|n tip r rs h tip' Hs Hv Ha Hq Hp Hh _ IH];
    intros lines acc heads -> Hl Hr Hm; cbn [length] in Hm.
  - apply Forall2_nil_inv_l in Hl as ->. cbn. by rewrite !app_nil_r.
  - apply Forall2_cons_inv_l in Hl as (line & lines' & [Hb Hlen] & Hl & ->).
    apply Forall_cons in Hr as [Hr1 Hr]. destruct (Hr1 line Hb) as [Hd _].
    cbn [recover_lines heads_from].
    rewrite decide_False, decide_False, Hd by lia. cbn.
    rewrite decide_False, Hv, Ha by naive_solver. cbn.
    rewrite Hq, Hp, !bool_decide_eq_false_2 by naive_solver. cbn.
    unfold contract_err. rewrite Hh. cbn.
    erewrite IH; [|rewrite length_app; cbn; lia|done|done|rewrite length_app; cbn; lia].
    by rewrite <-!app_assoc.
Qed.

(** The cap arithmetic does not saturate. *)
Definition caps_fit : Prop :=
  max_records caps * (max_record_bytes caps + 1) ≤ usize_MAX ∧ 0 < max_records caps
  ∧ 0 < max_record_bytes caps.

Lemma log_within_caps rs lines :
  caps_fit → Forall2 line_of rs lines → N.of_nat (length rs) ≤ max_records caps →
  blen (encode_log lines) ≤ max_log_bytes caps.
Proof.
  intros (Hfit & Hpos & _) Hl Hm. rewrite (Forall2_length _ _ _ Hl) in Hm.
  assert (Forall (fun l => blen l ≤ max_record_bytes caps) lines) as Hb.
  { clear Hm. induction Hl as [|? ? ? ? [_ ?]]; by constructor. }
  apply blen_encode_log in Hb. unfold max_log_bytes.
  rewrite (N.min_l (max_record_bytes caps + 1)) by nia. rewrite N.min_l by nia. nia.
Qed.

Lemma recover_chain io rs lines tip :
  caps_fit → op_stat_recover io = true → op_metadata io = Ok tt → op_read_log io = Ok tt →
  chain 0 GENESIS rs tip → Forall2 line_of rs lines → Forall round_trips rs →
  N.of_nat (length rs) ≤ max_records caps →
  recover io (Some (encode_log lines)) schema caps authority
  = Ok (rs, tip, mkHead 0 GENESIS :: heads_from 0 rs).
Proof.
  intros Hfit Hst Hio Hio' Hc Hl Hr Hm. unfold recover. rewrite Hst. cbn. rewrite Hio. cbn.
  pose proof (log_within_caps rs lines Hfit Hl Hm) as Hb.
  rewrite decide_False by lia. unfold bounded_read. rewrite Hio'. cbn.
  rewrite decide_False by lia. cbn.
  assert (Forall (fun l => NEWLINE ∉ l) lines ∧ Forall (fun l => l ≠ []) lines) as [Hn He].
  { clear -Hl Hr. induction Hl as [|r line rs lines [Hb _] Hl IH]; [by split; constructor|].
    apply Forall_cons in Hr as [Hr1 Hr]. destruct (Hr1 line Hb) as (_ & ? & ?), (IH Hr).
    split; by constructor. }
  replace (negb (is_empty_bytes (encode_log lines)) && negb (ends_with_newline (encode_log lines)))
    with false.
  2: { destruct lines as [|l lines]; [done|]. unfold ends_with_newline.
       rewrite last_encode_log by done. by destruct (is_empty_bytes _). }
  rewrite split_encode_log, filter_nonempty_lines by done.
  by rewrite (recover_lines_chain rs lines [] GENESIS tip).
Qed.
End recovery.

Section reopening.
  Context `{!Sha256} `{!JsonText} `{!Ed25519} `{LAWS : !JsonTextLaws}.
  Context {T : Type} `{!ToValue T} `{!JournalDecode T}.
  Context (name schema : string) (caps : JournalCaps) (authority : Authority T).
  Context (signer : AuthoritySigner).
  Hypothesis Hfit : caps_fit caps.
  Hypothesis Hname : journal_name_ok name = true.
  Hypothesis Hschema : is_blank schema = false ∧ slen schema ≤ MAX_ID_BYTES.

Abbreviation chain := (chain schema authority).
Abbreviation reopen := (open_with_authority open_ok name schema signer caps authority).

Lemma head_bytes (h : Head) : ∃ b, canonical_json_bytes h = Ok b.
Proof. destruct (canonical_json_bytes_Ok h _ eq_refl) as (b & Hb & _). by exists b. Qed.

(** The head file is absent, or is the head of a prefix of the records. *)
Definition head_fits (rs : list (SignedRecordV1 (ChainEntry T))) (head : option bytes) : Prop :=
  head = None
  ∨ ∃ h b, head = Some b ∧ canonical_json_bytes h = Ok b ∧ head_round_trips h
      ∧ h ∈ mkHead 0 GENESIS :: heads_from 0 rs.

Lemma reconcile_head_fits rs tip d :
  head_fits rs (dk_head d) →
  ∃ d', reconcile_head open_ok rs tip (mkHead 0 GENESIS :: heads_from 0 rs) d = (Ok tt, d').
Proof.
  intros Hh. unfold reconcile_head. run_disk. destruct Hh as [Hh|(h & b & Hh & Hb & Hr & Hin)];
    rewrite Hh.
  - destruct rs as [|r rs]; [by eexists|].
    destruct (head_bytes (mkHead (N.of_nat (length (r :: rs))) tip)) as [b Hb].
    unfold contract_err. rewrite Hb. by eexists.
  - destruct (Hr b Hb) as [Hd Hlen]. unfold bounded_read. cbn.
    rewrite decide_False by lia. cbn. rewrite Hd. cbn.
    rewrite (bool_decide_eq_true_2 _ Hin).
    destruct (head_bytes (mkHead (N.of_nat (length rs)) tip)) as [b' Hb'].
    destruct (bool_decide (h = _)); cbn; [by eexists|].
    unfold contract_err. rewrite Hb'. by eexists.
Qed.

Lemma open_prelude d k :
  open_with_authority open_ok name schema signer caps authority d = k ↔
  (log ← gets dk_log;
   recovered ← lift_result (recover open_ok log schema caps authority);
   let '(records, tip_hash, prefix_heads) := recovered in
   _ ← match found (op_stat_log open_ok) log with
       | Some _ => _ ← sys (op_sync_log open_ok); modify log_synced
       | None => mret tt
       end;
   _ ← reconcile_head open_ok records tip_hash prefix_heads;
   _ ← sys (op_dir_sync open_ok);
   _ ← modify dir_synced;
   mret (mkJournal signer schema caps, mkInner records tip_hash true)) d = k.
Proof using Hfit Hname Hschema.
  destruct Hfit as (_ & ? & ?), Hschema as [Hb Hs]. unfold open_with_authority.
  rewrite decide_False by lia. rewrite Hname, Hb, bool_decide_eq_false_2 by lia. done.
Qed.

Lemma open_recovers d rs tip lines :
  chain 0 GENESIS rs tip → Forall2 (line_of caps) rs lines → Forall round_trips rs →
  N.of_nat (length rs) ≤ max_records caps →
  dk_log d = Some (encode_log lines) ∨ dk_log d = None ∧ rs = [] →
  head_fits rs (dk_head d) →
  ∃ d', reopen d = (Ok (mkJournal signer schema caps, mkInner rs tip true), d').
Proof using Hfit Hname Hschema LAWS.
  intros Hc Hl Hr Hm Hlog Hh.
  assert (recover open_ok (dk_log d) schema caps authority
          = Ok (rs, tip, mkHead 0 GENESIS :: heads_from 0 rs)) as Hrec.
  { destruct Hlog as [->|[-> ->]].
    - by apply recover_chain.
    - by inversion Hc; subst. }
  destruct (reconcile_head_fits rs tip (match dk_log d with Some _ => log_synced d | None => d end))
    as [d2 Hd2]; [by destruct (dk_log d)|].
  exists (dir_synced d2). apply open_prelude. revert Hd2. run_disk. rewrite Hrec.
  destruct (dk_log d); cbn; intros ->; reflexivity.
Qed.

Lemma open_refuses d e :
  recover open_ok (dk_log d) schema caps authority = Err e → (reopen d).1 = Err e.
Proof using Hfit Hname Hschema.
  intros He. destruct (reopen d) as [r d'] eqn:E. apply open_prelude in E.
  revert E. run_disk. rewrite He. by intros [= <- <-].
Qed.

Lemma recover_torn rs lines line (k : nat) :
  Forall2 (line_of caps) rs lines → blen line ≤ max_record_bytes caps → NEWLINE ∉ line →
  N.of_nat (length rs) < max_records caps → (0 < k)%nat → (k ≤ length line)%nat →
  recover open_ok (Some (encode_log lines ++ take k line)) schema caps authority
  = Err (JCorrupt "journal has a torn final record").
Proof using Hfit.
  clear Hschema. intros Hl Hline Hn Hm Hk Hle. destruct (torn_log lines line k Hn Hk Hle) as [He Ht].
  assert (blen (encode_log lines ++ take k line) ≤ max_log_bytes caps) as Hb.
  { assert (Forall (fun l => blen l ≤ max_record_bytes caps) lines) as Hls.
    { clear -Hl. induction Hl as [|? ? ? ? [_ ?]]; by constructor. }
    apply blen_encode_log in Hls. rewrite (Forall2_length _ _ _ Hl) in Hm.
    destruct Hfit as (Hf & ? & _). rewrite blen_app.
    assert (blen (take k line) ≤ blen line) by (unfold blen; rewrite length_take; lia).
    unfold max_log_bytes. rewrite (N.min_l (max_record_bytes caps + 1)) by nia.
    rewrite N.min_l by nia. nia. }
  unfold recover. cbn. rewrite decide_False by lia. unfold bounded_read. cbn.
  rewrite decide_False by lia. cbn. by rewrite He, Ht.
Qed.
End reopening.

(** ** What an append leaves on the disk *)

Section appending.
  Context `{!Sha256} `{!JsonText} `{!Ed25519}.
  Context {T : Type} `{!ToValue T} `{!JournalDecode T}.

(** The log holds [content], of which the first [synced] bytes survive a crash;
    a log that did not exist before [d] may vanish. *)
Definition log_is (d d' : Disk) (content : bytes) (synced : N) : Prop :=
  dk_log d' = Some content ∧ dk_log_synced d' = synced
  ∧ dk_log_linked d' = match dk_log d with Some _ => dk_log_linked d | None => false end.

Definition synced_before (d : Disk) : N :=
  match dk_log d with Some _ => dk_log_synced d | None => 0 end.

Lemma atomic_write_effect io content d r d' :
  atomic_write io content d = (r, d') →
  dk_log d' = dk_log d ∧ dk_log_synced d' = dk_log_synced d
  ∧ match r with
    | Ok _ => dk_log_linked d' = true ∧ dk_head d' = Some content
              ∧ dk_head_durable d' = Some content
    | Err _ => dk_log_linked d' = dk_log_linked d
               ∧ (dk_head d' = dk_head d ∨ dk_head d' = Some content)
               ∧ dk_head_durable d' = dk_head_durable d
    end.
Proof.
  unfold atomic_write. run_disk. unfold io_err.
  destruct (ai_create io), (ai_write io), (ai_sync io), (ai_rename io), (ai_dir_sync io); cbn;
    intros E; injection E as <- <-; cbn; auto 10.
Qed.

Lemma append_durable_effect io line h d r d' :
  append_durable io line h d = (r, d') →
  let old := default [] (dk_log d) in
  match r with
  | Ok _ =>
      dk_log d' = Some (old ++ line) ∧ dk_log_synced d' = blen (old ++ line)
      ∧ dk_log_linked d' = true
      ∧ ∃ b, canonical_json_bytes h = Ok b ∧ dk_head d' = Some b ∧ dk_head_durable d' = Some b
  | Err _ =>
      d' = d
      ∨ (∃ k, log_is d d' (old ++ take k line) (synced_before d)
              ∧ dk_head d' = dk_head d ∧ dk_head_durable d' = dk_head_durable d)
      ∨ (log_is d d' (old ++ line) (blen (old ++ line))
         ∧ (dk_head d' = dk_head d ∨ ∃ b, canonical_json_bytes h = Ok b ∧ dk_head d' = Some b)
         ∧ dk_head_durable d' = dk_head_durable d)
  end.
Proof.
  cbn zeta. unfold append_durable. run_disk. cbn.
  destruct (ap_open io) as [[]|e]; cbn; [|intros E; injection E as <- <-; by left].
  assert (dk_log (create_log d) = Some (default [] (dk_log d))
    ∧ dk_log_synced (create_log d) = synced_before d
    ∧ dk_log_linked (create_log d)
      = match dk_log d with Some _ => dk_log_linked d | None => false end
    ∧ dk_head (create_log d) = dk_head d
    ∧ dk_head_durable (create_log d) = dk_head_durable d) as (Hlog & Hsyn & Hlink & Hh & Hd).
  { unfold create_log, synced_before. by destruct (dk_log d) eqn:El; rewrite ?El. }
  rewrite Hlog. cbn.
  destruct (ap_write io) as [|n e].
  2: { intros E; injection E as <- <-. right. left. exists (N.to_nat n). unfold log_is. cbn. auto. }
  destruct (ap_sync io) as [[]|e]; cbn.
  2: { intros E; injection E as <- <-. right. left. exists (length line). unfold log_is. cbn.
       by rewrite take_ge by lia. }
  unfold contract_err. destruct (canonical_json_bytes h) as [b|e] eqn:Hb; cbn.
  2: { intros E; injection E as <- <-. right. right. unfold log_is. cbn. auto 10. }
  destruct (atomic_write _ _ _) as [r1 d1] eqn:Ha. apply atomic_write_effect in Ha.
  cbn in Ha. intros E; injection E as <- <-. destruct Ha as (El & Es & Hr). destruct r1 as [[]|e].
  - destruct Hr as (? & ? & ?). eauto 10.
  - destruct Hr as (? & Hhead & ?). right. right. unfold log_is.
    destruct Hhead as [->| ->]; split_and!; try congruence; eauto.
Qed.

(** An append either refuses before it touches the disk, or runs [durable] on a
    signed record; then memory follows the disk, or is marked unhealthy. *)
Lemma append_cases (j : Journal) io (event : T) inner d res inner' d' :
  append j io event inner d = (res, inner', d') →
  (∃ e, res = Err e ∧ inner' = inner ∧ d' = d)
  ∨ ∃ r line h rd,
      let count := N.of_nat (length (in_records inner)) in
      count < max_records (jn_caps j)
      ∧ SignedRecordV1_sign (jn_chain_schema j) (mkChainEntry count (in_tip_hash inner) event)
          (jn_signer j) = Ok r
      ∧ canonical_json_bytes r = Ok line ∧ blen line ≤ max_record_bytes (jn_caps j)
      ∧ canonical_hash r = Ok h
      ∧ append_durable io (line ++ [NEWLINE]) (mkHead (count + 1) h) d = (rd, d')
      ∧ match rd with
        | Ok _ => res = Ok r ∧ inner' = mkInner (in_records inner ++ [r]) h true
        | Err e => res = Err e ∧ inner' = mkInner (in_records inner) (in_tip_hash inner) false
        end.
Proof.
  unfold append. destruct (in_healthy inner); cbn [negb].
  2: { intros E; simplify_eq. left. eauto. }
  case_decide as Hmax; [intros E; simplify_eq; left; eauto|].
  match goal with |- context [match ?m with Ok _ => _ | Err _ => _ end] =>
    destruct m as [[[r line'] h]|e] eqn:Em end.
  2: { intros E; simplify_eq. left. eauto. }
  unfold contract_err in Em. inv_result. case_decide as Hlen; [done|]. inv_result. simplify_eq.
  destruct (append_durable _ _ _ d) as [rd d1] eqn:Ed. intros E. right.
  eexists _, _, _, rd. cbn zeta. split_and!; try done; try lia.
  - by destruct rd; simplify_eq.
  - by destruct rd; simplify_eq.
Qed.
End appending.

(** ** Crashes *)

Section crashes.
  Context `{!Sha256} `{!JsonText} `{!Ed25519} `{LAWS : !JsonTextLaws}.
  Context {T : Type} `{!ToValue T} `{!JournalDecode T}.
  Context (name schema : string) (caps : JournalCaps) (authority : Authority T).
  Context (signer : AuthoritySigner).
  Hypothesis Hfit : caps_fit caps.
  Hypothesis Hname : journal_name_ok name = true.
  Hypothesis Hschema : is_blank schema = false ∧ slen schema ≤ MAX_ID_BYTES.

Abbreviation reopen := (open_with_authority open_ok name schema signer caps authority).

(** Memory and disk agree, and everything on the disk is durable. *)
Definition settled_at (inner : Inner T) (d : Disk) (lines : list bytes) : Prop :=
  let rs := in_records inner in
  in_healthy inner = true
  ∧ chain schema authority 0 GENESIS rs (in_tip_hash inner)
  ∧ Forall2 (line_of caps) rs lines
  ∧ Forall round_trips rs
  ∧ N.of_nat (length rs) ≤ max_records caps
  ∧ (dk_log d = Some (encode_log lines) ∧ dk_log_synced d = blen (encode_log lines)
       ∧ dk_log_linked d = true
     ∨ dk_log d = None ∧ rs = [])
  ∧ dk_head_durable d = dk_head d
  ∧ head_fits rs (dk_head d).

(** What reopening the disk [d] finds: the chain [rs]. *)
Definition recovers (d : Disk) (rs : list (SignedRecordV1 (ChainEntry T))) : Prop :=
  ∃ tip d', reopen d = (Ok (mkJournal signer schema caps, mkInner rs tip true), d').
Definition refused (d : Disk) : Prop := ∃ m, (reopen d).1 = Err (JCorrupt m).

(** The two disks that are refused: the log is the settled [lines] and a torn part
    of one more, or the log of an empty journal is gone and a head is left. *)
Definition torn (lines : list bytes) (d : Disk) : Prop :=
  ∃ part, part ≠ [] ∧ (NEWLINE ∉ part) ∧ dk_log d = Some (encode_log lines ++ part).
Definition head_alone (lines : list bytes) (d : Disk) : Prop :=
  lines = [] ∧ dk_log d = None ∧ is_Some (dk_head d).
Definition refused_as_damaged (lines : list bytes) (d : Disk) : Prop :=
  refused d ∧ (torn lines d ∨ head_alone lines d).

Lemma take_synced (a b : bytes) (n : N) :
  blen a ≤ n → ∃ m, take (N.to_nat n) (a ++ b) = a ++ take m b.
Proof.
  intros Hn. exists (N.to_nat n - length a)%nat. rewrite take_app.
  f_equal. apply take_ge. unfold blen in Hn. lia.
Qed.

(** A settled journal reopens as it is, also after a crash. *)
Lemma settled_recovers inner d d' lines :
  settled_at inner d lines → crash d d' → recovers d' (in_records inner).
Proof using Hfit Hname Hschema LAWS.
  intros (_ & Hc & Hl & Hr & Hm & Hlog & Hdur & Hh) Hcr.
  destruct (open_recovers name schema caps authority signer Hfit Hname Hschema d'
              (in_records inner) (in_tip_hash inner) lines) as [d2 Hd2]; [done..| | |].
  - inversion Hcr as [log n head El Hn _|head Hno _]; subst; cbn.
    + destruct Hlog as [(El' & Hs & _)|[El' _]]; [|congruence]. left.
      rewrite El' in El. injection El as <-. rewrite take_ge; [done|].
      rewrite Hs in Hn. unfold blen in Hn. lia.
    + right. split; [done|]. by destruct Hlog as [(El' & _ & Hlk)|[_ ?]];
        [destruct Hno; congruence|].
  - inversion Hcr as [? ? head _ _ Hhd|head _ Hhd]; subst; cbn; by destruct Hhd as [->| ->];
      rewrite ?Hdur.
  - by eexists _, _.
Qed.

Lemma heads_grow rs tip r h :
  chain schema authority 0 GENESIS rs tip → canonical_hash r = Ok h →
  heads_from 0 (rs ++ [r]) = heads_from 0 rs ++ [mkHead (N.of_nat (length rs) + 1) h].
Proof.
  intros Hc Hh. rewrite (heads_from_app _ _ _ _ _ _ [r] Hc). cbn. rewrite Hh.
  by rewrite N.add_0_l.
Qed.

Lemma head_fits_grow rs tip r h head :
  chain schema authority 0 GENESIS rs tip → canonical_hash r = Ok h →
  head_fits rs head → head_fits (rs ++ [r]) head.
Proof.
  intros Hc Hh [->|(hd & b & -> & Hb & Hrt & Hin)]; [by left|]. right.
  exists hd, b. split_and!; try done. rewrite (heads_grow _ _ _ _ Hc Hh).
  rewrite app_comm_cons. apply elem_of_app. by left.
Qed.

Lemma new_head_fits rs tip r h b :
  chain schema authority 0 GENESIS rs tip → canonical_hash r = Ok h →
  canonical_json_bytes (mkHead (N.of_nat (length rs) + 1) h) = Ok b →
  head_round_trips (mkHead (N.of_nat (length rs) + 1) h) →
  head_fits (rs ++ [r]) (Some b).
Proof.
  intros Hc Hh Hb Hrt. right. eexists _, b. split_and!; try done.
  rewrite (heads_grow _ _ _ _ Hc Hh). apply list_elem_of_further, elem_of_app. right.
  apply list_elem_of_here.
Qed.

(** A disk whose log ends in an arbitrary part of the new line. *)
Lemma partial_recovers inner lines (m : nat) r line h d :
  chain schema authority 0 GENESIS (in_records inner) (in_tip_hash inner) →
  Forall2 (line_of caps) (in_records inner) lines → Forall round_trips (in_records inner) →
  chain schema authority 0 GENESIS (in_records inner ++ [r]) h → canonical_hash r = Ok h →
  line_of caps r line → round_trips r → NEWLINE ∉ line →
  N.of_nat (length (in_records inner)) < max_records caps →
  dk_log d = Some (encode_log lines ++ take m (line ++ [NEWLINE])) →
  head_fits (in_records inner) (dk_head d)
  ∨ (length line < m)%nat ∧ head_fits (in_records inner ++ [r]) (dk_head d) →
  recovers d (in_records inner) ∨ recovers d (in_records inner ++ [r])
  ∨ refused_as_damaged lines d.
Proof using Hfit Hname Hschema LAWS.
  intros Hc Hl Hr Hc' Hhash Hline Hrt Hnl Hm Hlog Hh.
  assert (head_fits (in_records inner ++ [r]) (dk_head d)) as Hh'.
  { destruct Hh as [Hh|[_ Hh]]; [|done]. by eapply head_fits_grow. }
  destruct (decide (length line < m)%nat) as [Hfull|Hpart].
  - right. left. destruct (open_recovers name schema caps authority signer Hfit Hname Hschema d
      (in_records inner ++ [r]) h (lines ++ [line])) as [d2 Hd2]; try done.
    + by apply Forall2_app; [|apply Forall2_cons].
    + by apply Forall_app; split; [|apply Forall_singleton].
    + rewrite length_app. cbn. lia.
    + left. rewrite Hlog, encode_log_app. cbn. rewrite app_nil_r. f_equal. f_equal.
      apply take_ge. rewrite length_app. cbn. lia.
    + by eexists _, _.
  - destruct Hh as [Hh|[? _]]; [|lia]. rewrite take_app_le in Hlog by lia.
    destruct m as [|m].
    + left. rewrite take_0, app_nil_r in Hlog.
      destruct (open_recovers name schema caps authority signer Hfit Hname Hschema d
        (in_records inner) (in_tip_hash inner) lines) as [d2 Hd2]; try done; [lia|by left|].
      by eexists _, _.
    + right. right. assert (take (S m) line ≠ []) as Hne.
      { destruct line; [cbn in Hpart; lia|done]. }
      split.
      * eexists. apply open_refuses; try done. rewrite Hlog.
        eapply recover_torn; try done; try lia. by destruct Hline.
      * left. exists (take (S m) line). split_and!; [done| |done].
        intros Hin. apply Hnl. rewrite <- (take_drop (S m) line). apply elem_of_app. by left.
Qed.

(** The log content before the append, and what of the new log survives. *)
Lemma settled_log inner d lines :
  settled_at inner d lines →
  default [] (dk_log d) = encode_log lines ∧ synced_before d = blen (encode_log lines)
  ∧ (dk_log d = None → in_records inner = [] ∧ lines = []).
Proof.
  intros (_ & _ & Hl & _ & _ & Hlog & _). unfold synced_before.
  destruct Hlog as [(-> & -> & _)|[-> E]]; cbn; [split_and!; done|].
  rewrite E in Hl. apply Forall2_nil_inv_l in Hl as ->. done.
Qed.

(** A crash after the log was written to [old ++ X]. *)
Lemma crash_written inner d d1 d2 lines X synced :
  settled_at inner d lines → log_is d d1 (encode_log lines ++ X) synced →
  synced_before d ≤ synced → crash d1 d2 →
  (dk_head d2 = dk_head d1 ∨ dk_head d2 = dk_head_durable d1)
  ∧ ((∃ m, dk_log d2 = Some (encode_log lines ++ take m X)
           ∧ (synced = blen (encode_log lines ++ X) → (length X ≤ m)%nat))
     ∨ dk_log d2 = None ∧ in_records inner = []).
Proof.
  intros Hset (El & Es & Ek) Hsyn Hcr. destruct (settled_log _ _ _ Hset) as (_ & Hb & Hnone).
  inversion Hcr as [log n head El' Hn Hhd|head Hno Hhd]; subst; cbn; (split; [done|]).
  - left. rewrite El in El'. injection El' as <-. exists (N.to_nat n - length (encode_log lines))%nat.
    split.
    + f_equal. rewrite take_app. f_equal. apply take_ge. unfold blen in *. lia.
    + intros E. rewrite E in Hn. rewrite blen_app in Hn. unfold blen in Hn. lia.
  - right. split; [done|]. destruct Hno as [?|Hno]; [congruence|]. rewrite Ek in Hno.
    apply Hnone. destruct (dk_log d) eqn:E; [|done].
    destruct Hset as (_ & _ & _ & _ & _ & Hlog & _). destruct Hlog as [(_ & _ & ?)|[? _]]; congruence.
Qed.

(** A crash that lost a log created by the append: the old, empty chain, or a
    head that does not belong to it. *)
Lemma lost_log inner d d2 lines b h :
  settled_at inner d lines → in_records inner = [] → dk_log d2 = None →
  canonical_json_bytes (mkHead 1 h) = Ok b → head_round_trips (mkHead 1 h) →
  dk_head d2 = dk_head d ∨ dk_head d2 = Some b →
  recovers d2 [] ∨ refused_as_damaged lines d2.
Proof using Hfit Hname Hschema LAWS.
  intros Hset Hrs Hlog Hb Hrt Hhead. destruct Hset as (_ & _ & Hl & _ & _ & _ & _ & Hfits). destruct Hhead as [Hh|Hh].
  - left. rewrite Hrs in Hfits. exists GENESIS.
    apply (open_recovers name schema caps authority signer Hfit Hname Hschema d2 [] GENESIS []);
      [apply chain_nil|constructor|constructor|cbn; lia|by right|by rewrite Hh].
  - right. split; [|right; split_and!; [|done|by rewrite Hh]].
    2: { rewrite Hrs in Hl. by apply Forall2_nil_inv_l in Hl. }
    destruct (Hrt b Hb) as [Hd Hlen]. destruct (reopen d2) as [res d3] eqn:E.
    unfold refused. rewrite E. cbn. apply open_prelude in E; try done.
    revert E. run_disk. rewrite Hlog. cbn. unfold reconcile_head. run_disk. rewrite Hh.
    unfold bounded_read. cbn. rewrite decide_False by lia. cbn. rewrite Hd. cbn.
    rewrite !bool_decide_eq_false_2; [|set_solver..]. cbn. intros E. injection E as <- _. by eexists.
Qed.

(** What a crash leaves of an append that failed. *)
Lemma failed_append_crash inner lines io r line h d e d1 d2 :
  settled_at inner d lines →
  chain schema authority 0 GENESIS (in_records inner ++ [r]) h → canonical_hash r = Ok h →
  line_of caps r line → round_trips r → NEWLINE ∉ line →
  N.of_nat (length (in_records inner)) < max_records caps →
  head_round_trips (mkHead (N.of_nat (length (in_records inner)) + 1) h) →
  append_durable io (line ++ [NEWLINE])
    (mkHead (N.of_nat (length (in_records inner)) + 1) h) d = (Err e, d1) →
  crash d1 d2 →
  recovers d2 (in_records inner) ∨ recovers d2 (in_records inner ++ [r])
  ∨ refused_as_damaged lines d2.
Proof using Hfit Hname Hschema LAWS.
  intros Hset Hc' Hhash Hline Hrt Hnl Hm Hhrt Ea Hcr.
  pose proof Hset as (_ & Hc & Hl & Hr & _ & _ & Hdur & Hfits).
  destruct (settled_log _ _ _ Hset) as (Eold & Hsyn & _).
  destruct (head_bytes (mkHead (N.of_nat (length (in_records inner)) + 1) h)) as [b Hb].
  apply append_durable_effect in Ea. cbn zeta in Ea. rewrite Eold in Ea.
  destruct Ea as [->|[(k & Hlog & Eh & Ed)|(Hlog & Eh & Ed)]].
  { left. by eapply settled_recovers. }
  - destruct (crash_written _ _ _ _ _ _ _ Hset Hlog (N.le_refl _) Hcr)
      as [Hhd [(m & Em & _)|[Em Ers]]].
    + rewrite take_take in Em.
      apply (partial_recovers inner lines (m `min` k)%nat r line h d2); try done.
      left. destruct Hhd as [->| ->]; by rewrite ?Eh, ?Ed, ?Hdur.
    + rewrite Ers in *. cbn in *.
      destruct (lost_log inner d d2 lines b h) as [?|?]; try done; [|by left|by right; right].
      left. destruct Hhd as [->| ->]; congruence.
  - assert (synced_before d ≤ blen (encode_log lines ++ line ++ [NEWLINE])) as Hle
      by (rewrite Hsyn, blen_app; lia).
    destruct (crash_written _ _ _ _ _ _ _ Hset Hlog Hle Hcr)
      as [Hhd [(m & Em & Hfull)|[Em Ers]]].
    + specialize (Hfull eq_refl). rewrite length_app in Hfull. cbn in Hfull.
      apply (partial_recovers inner lines m r line h d2); try done.
      right. split; [lia|].
      assert (dk_head d2 = dk_head d ∨ dk_head d2 = Some b) as [->| ->].
      { destruct Hhd as [->| ->]; [|left; congruence]. destruct Eh as [->|(b' & ? & ->)]; [by left|].
        right. congruence. }
      * by eapply head_fits_grow.
      * by eapply new_head_fits.
    + rewrite Ers in *. cbn in *.
      destruct (lost_log inner d d2 lines b h) as [?|?]; try done; [|by left|by right; right].
      destruct Hhd as [->| ->]; [|left; congruence]. destruct Eh as [->|(b' & ? & ->)]; [by left|].
      right. congruence.
Qed.

(** The record an append signs continues the chain. *)
Lemma signed_continues `{!Ed25519Keys} inner d lines seed event r h :
  settled_at inner d lines →
  SignedRecordV1_sign schema
    (mkChainEntry (N.of_nat (length (in_records inner))) (in_tip_hash inner) event)
    (Ed25519SeedSigner seed) = Ok r →
  authority (as_public_key (Ed25519SeedSigner seed))
    (mkChainEntry (N.of_nat (length (in_records inner))) (in_tip_hash inner) event) = true →
  canonical_hash r = Ok h →
  chain schema authority 0 GENESIS (in_records inner ++ [r]) h ∧ ce_event (sr_payload r) = event.
Proof.
  intros (_ & Hc & _) Hs Ha Hh. apply seed_signer_verifies in Hs as (Hv & Es & Ep & Eg).
  split; [|by rewrite Ep]. eapply chain_app; [done|].
  econstructor; try done; rewrite ?Ep, ?Eg; try done. constructor.
Qed.

(** After a successful append the journal is settled again. *)
Lemma append_settles inner lines io r line h d d' :
  settled_at inner d lines →
  chain schema authority 0 GENESIS (in_records inner ++ [r]) h → canonical_hash r = Ok h →
  line_of caps r line → round_trips r →
  N.of_nat (length (in_records inner)) < max_records caps →
  head_round_trips (mkHead (N.of_nat (length (in_records inner)) + 1) h) →
  append_durable io (line ++ [NEWLINE])
    (mkHead (N.of_nat (length (in_records inner)) + 1) h) d = (Ok tt, d') →
  settled_at (mkInner (in_records inner ++ [r]) h true) d' (lines ++ [line]).
Proof.
  intros Hset Hc' Hhash Hline Hrt Hm Hhrt Ea.
  pose proof Hset as (_ & Hc & Hl & Hr & _ & _ & Hdur & Hfits).
  destruct (settled_log _ _ _ Hset) as (Eold & _ & _).
  apply append_durable_effect in Ea. cbn zeta in Ea. rewrite Eold in Ea.
  destruct Ea as (El & Es & Ek & b & Hb & Eh & Ed).
  assert (encode_log (lines ++ [line]) = encode_log lines ++ line ++ [NEWLINE]) as Eenc.
  { rewrite encode_log_app. cbn. by rewrite app_nil_r. }
  unfold settled_at. cbn. rewrite Eenc. split_and!; try done.
  - by apply Forall2_app; [|apply Forall2_cons].
  - by apply Forall_app; split; [|apply Forall_singleton].
  - rewrite length_app. cbn. lia.
  - by left.
  - congruence.
  - rewrite Eh. by eapply new_head_fits.
Qed.
End crashes.

(** ** Tamper evidence *)

Section tamper.
  Context `{!Sha256} `{!JsonText} `{!Ed25519} {T : Type} `{!ToValue T}.

Lemma chain_snoc schema (authority : Authority T) n tip rs r tip' :
  chain schema authority n tip (rs ++ [r]) tip' →
  canonical_hash r = Ok tip'
  ∧ chain schema authority n tip rs (ce_previous_hash (sr_payload r)).
Proof.
  revert n tip. induction rs as [|x rs IH]; intros n tip Hc; cbn in Hc.
  - inversion Hc as [|? ? ? ? h ? ? ? ? ? Hp Hh Hc']; subst. inversion Hc'; subst.
    split; [done|]. constructor.
  - inversion Hc as [|? ? ? ? h ? ? ? ? ? Hp Hh Hc']; subst.
    destruct (IH _ _ Hc') as [? ?]. split; [done|]. by econstructor.
Qed.

Definition chain_record_json (r : SignedRecordV1 (ChainEntry T)) (v : json) : json :=
  JObject [("schema", JString (sr_schema r)); ("signer", JString (sr_signer r));
           ("payload",
            JObject [("sequence", JNumber (dec (ce_sequence (sr_payload r))));
                     ("previous_hash", JString (ce_previous_hash (sr_payload r))); ("event", v)]);
           ("signature", JString (sr_signature r))].

Lemma chain_record_value r x :
  to_value r = Ok x ↔ ∃ v, to_value (ce_event (sr_payload r)) = Ok v ∧ x = chain_record_json r v.
Proof.
  unfold to_value at 1, SignedRecordV1_to_value. unfold to_value at 1, ChainEntry_to_value.
  destruct (to_value (ce_event (sr_payload r))) as [v|e]; cbn; naive_solver.
Qed.

Lemma sort_chain_record_json r v :
  sort_json (chain_record_json r v)
  = JObject [("payload",
              JObject [("event", sort_json v);
                       ("previous_hash", JString (ce_previous_hash (sr_payload r)));
                       ("sequence", JNumber (dec (ce_sequence (sr_payload r))))]);
             ("schema", JString (sr_schema r)); ("signature", JString (sr_signature r));
             ("signer", JString (sr_signer r))].
Proof. reflexivity. Qed.

Lemma same_bytes_same_previous (L : JsonTextLaws) (r r' : SignedRecordV1 (ChainEntry T)) b :
  canonical_json_bytes r = Ok b → canonical_json_bytes r' = Ok b →
  ce_previous_hash (sr_payload r) = ce_previous_hash (sr_payload r').
Proof.
  intros Hb Hb'. pose proof Hb as Hx. pose proof Hb' as Hx'.
  unfold canonical_json_bytes in Hx, Hx'. inv_result.
  repeat match goal with H : to_value _ = Ok _ |- _ =>
    pose proof H as Hv; apply chain_record_value in Hv as (? & _ & ->); revert H end.
  intros Hv Hv'.
  assert (canonical_json_bytes r = canonical_json_bytes r') as E by congruence.
  apply (canonical_json_bytes_sort _ _ _ _ Hv Hv') in E.
  rewrite !sort_chain_record_json in E. congruence.
Qed.

Lemma chain_tip_determines (L : JsonTextLaws) schema schema' (authority authority' : Authority T)
    rs rs' tip :
  chain schema authority 0 GENESIS rs tip → chain schema' authority' 0 GENESIS rs' tip →
  length rs = length rs' →
  Forall2 (fun r r' => canonical_json_bytes r = canonical_json_bytes r') rs rs' ∨ sha_collision.
Proof.
  revert rs' tip. induction rs as [|r rs IH] using rev_ind; intros rs' tip Hc Hc' Hl.
  { destruct rs'; [by left; constructor|done]. }
  destruct rs' as [|r' rs' _] using rev_ind; [rewrite length_app in Hl; cbn in Hl; lia|].
  apply chain_snoc in Hc as [Hh Hc], Hc' as [Hh' Hc'].
  destruct (canonical_hash_inj r r' tip Hh Hh') as [E|]; [|by right].
  unfold canonical_hash in Hh. inv_result.
  match goal with H : canonical_json_bytes r = Ok ?b |- _ =>
    assert (canonical_json_bytes r' = Ok b) as Hb' by congruence;
    rewrite <-(same_bytes_same_previous L r r' b H Hb') in Hc' end.
  rewrite !length_app in Hl. cbn in Hl.
  destruct (IH rs' _ Hc Hc') as [Hf|]; [lia| |by right].
  left. apply Forall2_app; [done|]. by apply Forall2_cons.
Qed.
End tamper.

(** What recovery accepts is a chain. *)
Section soundness.
  Context `{!Sha256} `{!JsonText} `{!Ed25519} {T : Type} `{!ToValue T} `{!JournalDecode T}.

Lemma recover_lines_sound schema caps (authority : Authority T) lines acc tip heads rs tip' heads' :
  chain schema authority 0 GENESIS acc tip →
  recover_lines schema caps authority lines acc tip heads = Ok (rs, tip', heads') →
  chain schema authority 0 GENESIS rs tip'.
Proof.
  revert acc tip heads. induction lines as [|line lines IH]; intros acc tip heads Hc E; cbn in E.
  { by simplify_eq. }
  repeat case_decide; try done. inv_result.
  repeat match goal with H : (if ?b then Err _ else _) = Ok _ |- _ => destruct b eqn:? end; try done.
  inv_result. to_prop. unfold contract_err in *. inv_result.
  eapply (IH (acc ++ [_])); [|done]. eapply chain_app; [done|].
  econstructor; try done; try (by apply dec_stable). constructor.
Qed.

Lemma open_sound io name schema signer caps (authority : Authority T) d j inner d' :
  open_with_authority io name schema signer caps authority d = (Ok (j, inner), d') →
  chain schema authority 0 GENESIS (in_records inner) (in_tip_hash inner).
Proof.
  unfold open_with_authority. intros E.
  case_decide; [done|]. destruct (negb _); [done|]. destruct (_ || _); [done|].
  apply stateR_bind_Ok in E as (_ & d1 & _ & E).
  apply stateR_bind_Ok in E as (log & d2 & _ & E).
  apply stateR_bind_Ok in E as ([[rs tip] heads] & d3 & Hrec & E).
  do 4 apply stateR_bind_Ok in E as (_ & ? & _ & E).
  injection E as _ <- _. injection Hrec as Hrec _. cbn.
  unfold recover in Hrec. destruct (found _ log) as [content|].
  - inv_result. case_decide; [done|]. inv_result. destruct (_ && _); [done|].
    eapply recover_lines_sound; [|done]. constructor.
  - injection Hrec as <- <- _. constructor.
Qed.
End soundness.

(** [Path::exists] reads a failed stat as a missing file: when the stats of the log
    and of the head fail, a journal with any log on the disk opens as an empty, healthy
    one, and the log stays; the next append would then number its record from zero
    behind the old ones. *)
Section failed_stat.
  Context `{!Sha256} `{!JsonText} `{!Ed25519} {T : Type} `{!ToValue T} `{!JournalDecode T}.

Definition open_unseen : OpenIo :=
  mkOpenIo (Ok tt) false (Ok tt) (Ok tt) false (Ok tt) false (Ok tt) atomic_ok (Ok tt).

Lemma failed_stat_opens_empty name schema signer caps (authority : Authority T) d :
  caps_fit caps → journal_name_ok name = true →
  is_blank schema = false ∧ slen schema ≤ MAX_ID_BYTES →
  open_with_authority open_unseen name schema signer caps authority d
  = (Ok (mkJournal signer schema caps, mkInner [] GENESIS true), dir_synced d).
Proof.
  intros (_ & ? & ?) Hn [Hb Hs]. unfold open_with_authority.
  rewrite decide_False by lia. rewrite Hn, Hb. cbn.
  rewrite bool_decide_eq_false_2 by lia. reflexivity.
Qed.
End failed_stat.

(** ** A concrete journal *)

Module sample.
#[local] Existing Instances zero_sha stuffed_text toy_ed25519 toy_keys string_value.

Definition signer : AuthoritySigner := Ed25519SeedSigner [Byte.x07].
Definition entry : ChainEntry string := mkChainEntry 0 GENESIS "e".
Definition record : SignedRecordV1 (ChainEntry string) :=
  match SignedRecordV1_sign "s" entry signer with
  | Ok r => r
  | Err _ => mkSignedRecordV1 "" "" entry ""
  end.
Definition line : bytes :=
  match canonical_json_bytes record with Ok b => b | Err _ => [] end.
Definition head : Head := mkHead 1 GENESIS.
Definition head_line : bytes :=
  match canonical_json_bytes head with Ok b => b | Err _ => [] end.

(** A decoder that knows these two texts. *)
Definition decode : JournalDecode string :=
  Build_JournalDecode string
    (fun b => if decide (b = line) then Ok record else Err "unknown record")
    (fun b => if decide (b = head_line) then Ok head else Err "unknown head").

Definition caps : JournalCaps := mkJournalCaps 10 100000.
Definition journal : Journal := mkJournal signer "s" caps.
Definition empty_disk : Disk := mkDisk None 0 true None None.
Definition empty : Inner string := mkInner [] GENESIS true.
Definition io : AppendIo := mkAppendIo (Ok tt) WroteAll (Ok tt) atomic_ok.
Definition full_disk : Disk :=
  mkDisk (Some (line ++ [NEWLINE])) (blen (line ++ [NEWLINE])) true (Some head_line)
    (Some head_line).

Definition text_of (r : SignedRecordV1 (ChainEntry string)) : result ContractError bytes :=
  canonical_json_bytes r.
Definition any : Authority string := fun _ _ => true.
End sample.

(** ** Properties *)

(** C5: an append is crash consistent.  From a settled journal, whatever calls
    fail during the append and whatever a crash afterwards keeps: a successful
    append is settled again and survives (a reopen whose calls succeed finds the old
    records and the new one), and after a failed one such a reopen has one of three
    outcomes: the old records; those and the new record; or a refusal as corrupt,
    which is only met when the log ends in a torn part of the new record after the
    old ones, or when the log of a still empty journal was lost and a head is left.
    And a journal that failed after touching the disk refuses every later append
    without writing, so the chain never forks. *)
Theorem append_crash_consistent (S : Sha256) (X : JsonText) (L : JsonTextLaws) (E : Ed25519)
    (K : Ed25519Keys) (T : Type) (TV : ToValue T) (J : JournalDecode T)
    (name schema : string) (caps : JournalCaps) (authority : Authority T) (seed : bytes)
    (inner inner' : Inner T) (d d' d'' : Disk) (lines : list bytes) (io : AppendIo) (event : T)
    (res : result JournalError (SignedRecordV1 (ChainEntry T)))
    (Hfit : caps_fit caps) (Hname : journal_name_ok name = true)
    (Hschema : is_blank schema = false ∧ slen schema ≤ MAX_ID_BYTES)
    (Hset : settled_at schema caps authority inner d lines)
    (Happend : append (mkJournal (Ed25519SeedSigner seed) schema caps) io event inner d
               = (res, inner', d'))
    (Hcrash : crash d' d'')
    (Hauth : authority (as_public_key (Ed25519SeedSigner seed))
               (mkChainEntry (N.of_nat (length (in_records inner))) (in_tip_hash inner) event)
             = true)
    (Hserde : ∀ r h,
       SignedRecordV1_sign schema
         (mkChainEntry (N.of_nat (length (in_records inner))) (in_tip_hash inner) event)
         (Ed25519SeedSigner seed) = Ok r → canonical_hash r = Ok h →
       round_trips r
       ∧ head_round_trips (mkHead (N.of_nat (length (in_records inner)) + 1) h)) :
  let signer := Ed25519SeedSigner seed in
  let recovers := recovers name schema caps authority signer d'' in
  match res with
  | Ok r =>
      (∃ lines', settled_at schema caps authority inner' d' lines')
      ∧ in_records inner' = in_records inner ++ [r]
      ∧ ce_event (sr_payload r) = event
      ∧ recovers (in_records inner ++ [r])
  | Err _ =>
      (recovers (in_records inner)
       ∨ (∃ r, ce_event (sr_payload r) = event ∧ recovers (in_records inner ++ [r]))
       ∨ refused_as_damaged name schema caps authority signer lines d'')
      ∧ (inner' = inner ∧ d' = d
         ∨ in_healthy inner' = false
           ∧ ∀ io2 event2,
               append (mkJournal signer schema caps) io2 event2 inner' d'
               = (Err JUncertain, inner', d'))
  end.
Proof.
  cbn zeta. apply append_cases in Happend.
  destruct Happend as [(e & -> & -> & ->)|(r & line & h & rd & Hm & Hs & Hb & Hlen & Hh & Ha & Hr)].
  { split; [left; by eapply settled_recovers|by left]. }
  cbn in Hm, Hs, Hlen, Ha. destruct (Hserde r h Hs Hh) as [Hrt Hhrt].
  destruct (signed_continues _ _ _ _ _ _ _ _ _ _ Hset Hs Hauth Hh) as [Hc Hev].
  destruct (Hrt line Hb) as (_ & Hnl & _).
  destruct rd as [[]|e]; destruct Hr as [-> ->].
  - assert (settled_at schema caps authority (mkInner (in_records inner ++ [r]) h true) d'
              (lines ++ [line])) as Hset' by (eapply append_settles; done).
    split_and!; [by eexists|done|done|].
    by apply (settled_recovers name schema caps authority _ Hfit Hname Hschema _ _ _ _ Hset').
  - split; [|by right].
    edestruct (failed_append_crash name schema caps authority (Ed25519SeedSigner seed) Hfit Hname
      Hschema inner lines io r line h d e d' d'') as [?|[?|?]]; try done; eauto.
Qed.

Lemma append_crash_consistent_witness :
  @recovers zero_sha stuffed_text toy_ed25519 string string_value sample.decode "j" "s"
    sample.caps sample.any sample.signer sample.full_disk [sample.record].
Proof.
  destruct (@append_crash_consistent zero_sha stuffed_text stuffed_text_laws toy_ed25519 toy_keys
    string string_value sample.decode "j" "s" sample.caps sample.any [Byte.x07] sample.empty
    (mkInner [sample.record] GENESIS true) sample.empty_disk sample.full_disk sample.full_disk []
    sample.io "e" (Ok sample.record)) as (_ & _ & _ & H).
  - repeat split; vm_compute; congruence.
  - vm_compute. reflexivity.
  - split; vm_compute; congruence.
  - split; [reflexivity|]. split; [apply chain_nil|]. split; [constructor|].
    split; [constructor|]. split; [vm_compute; congruence|].
    split; [right; split; reflexivity|]. split; [reflexivity|left; reflexivity].
  - vm_compute. reflexivity.
  - assert (sample.full_disk
            = mkDisk (Some (take (N.to_nat (blen (sample.line ++ [NEWLINE])))
                              (sample.line ++ [NEWLINE])))
                (blen (take (N.to_nat (blen (sample.line ++ [NEWLINE])))
                         (sample.line ++ [NEWLINE])))
                true (Some sample.head_line) (Some sample.head_line)) as ->
      by (vm_compute; reflexivity).
    apply crash_log; [vm_compute; reflexivity|vm_compute; congruence|left; reflexivity].
  - vm_compute. reflexivity.
  - intros r h Hr Hh.
    assert (r = sample.record) as -> by (vm_compute in Hr; vm_compute; congruence).
    assert (h = GENESIS) as -> by (vm_compute in Hh; vm_compute; congruence).
    split.
    + intros b Hb. assert (b = sample.line) as -> by (vm_compute in Hb; vm_compute; congruence).
      split; [vm_compute; reflexivity|]. split; [|vm_compute; congruence].
      apply (bool_decide_unpack _). vm_compute. exact I.
    + intros b Hb.
      assert (b = sample.head_line) as -> by (vm_compute in Hb; vm_compute; congruence).
      split; [vm_compute; reflexivity|vm_compute; congruence].
  - exact H.
Defined.

(** The tip hash commits to the whole history: whatever logs two opens
    accepted, if they have as many records and the same tip then the records
    are, one by one, the same canonical bytes, unless the hash function
    collides.  So an accepted log cannot differ from the one whose head was
    recorded. *)
Theorem tip_commits_to_history (S : Sha256) (X : JsonText) (L : JsonTextLaws) (E : Ed25519)
    (T : Type) (TV : ToValue T) (J : JournalDecode T) (io io' : OpenIo)
    (name name' schema schema' : string) (signer signer' : AuthoritySigner)
    (caps caps' : JournalCaps) (authority authority' : Authority T) (d d' d1 d1' : Disk)
    (j j' : Journal) (inner inner' : Inner T)
    (Ho : open_with_authority io name schema signer caps authority d = (Ok (j, inner), d1))
    (Ho' : open_with_authority io' name' schema' signer' caps' authority' d'
           = (Ok (j', inner'), d1'))
    (Hlen : length (in_records inner) = length (in_records inner'))
    (Htip : in_tip_hash inner = in_tip_hash inner') :
  Forall2 (fun r r' => canonical_json_bytes r = canonical_json_bytes r')
    (in_records inner) (in_records inner')
  ∨ sha_collision.
Proof.
  apply open_sound in Ho, Ho'. rewrite <-Htip in Ho'.
  by eapply (chain_tip_determines L).
Qed.

Lemma tip_commits_to_history_witness :
  Forall2 (fun r r' => sample.text_of r = sample.text_of r') [sample.record] [sample.record]
  ∨ @sha_collision zero_sha.
Proof.
  apply (@tip_commits_to_history zero_sha stuffed_text stuffed_text_laws toy_ed25519 string
    string_value sample.decode open_ok open_ok "j" "j" "s" "s" sample.signer sample.signer
    sample.caps sample.caps sample.any sample.any sample.full_disk sample.full_disk
    sample.full_disk sample.full_disk sample.journal sample.journal
    (mkInner [sample.record] GENESIS true) (mkInner [sample.record] GENESIS true)).
  - vm_compute. reflexivity.
  - vm_compute. reflexivity.
  - reflexivity.
  - reflexivity.
Defined.
