(* ===== verification/HomeLedger.v ===== *)
(** * The Home's ledger

    The job state of [cosmos/creatures/function-home/src/lib.rs]: the ledger
    record, the in-memory state it is replayed into, the validation and
    application of a record, the preflight on a bounded shadow of the state, the
    reservation arithmetic, and [persist_and_apply], which joins them to the
    journal; and the custody state of [custody.rs] that gates writes.

    Functions that take [&mut HomeState] are [stateR] computations: they also
    return the state they leave behind when they fail half way. *)

From S2P Require Import Prelude GxShape GxHash FnCrypto FnTypes FnWire FnCustody Journal.

(** ** Data *)

Inductive HomeError : Type :=
  | HConfiguration (message : string)
  | HInvalid (message : string)
  | HUnauthorized (message : string)
  | HNotFound (job : string)
  | HConflict (job : string)
  | HState (message : string)
  | HCapacity (message : string)
  | HJournal (error : JournalError)
  | HSigning (message : string).

Record HomeConfig : Type := mkHomeConfig {
  cf_home : HomeId;
  cf_epoch : N;
  cf_coordinator : string;
  cf_realm : string;
  cf_node : string;
  cf_authority : HomeAuthorityV1;
  cf_historical_authorities : list HomeAuthorityV1;
  cf_max_jobs : N;
  cf_max_checkpoint_bytes : N;
  cf_journal_caps : JournalCaps
}.

Record HomeLedgerRecord : Type := mkHomeLedgerRecord {
  lr_grant : option (SignedRecordV1 ExecutionGrantV1);
  lr_receipt : option (SignedRecordV1 ExecutionReceiptV1);
  lr_events : list (SignedRecordV1 JobEventV1)
}.

Record JobRecord : Type := mkJobRecord {
  jr_snapshot : JobSnapshotV1;
  jr_events : list (SignedRecordV1 JobEventV1)
}.

Record ChildSpawnRecord : Type := mkChildSpawnRecord {
  cw_parent_event_hash : string;
  cw_child_request_hash : string;
  cw_child : JobHandleV1;
  cw_root : JobHandleV1;
  cw_event : SignedRecordV1 JobEventV1
}.

Record ForwardedControlRecord : Type := mkForwardedControlRecord {
  fw_attempt : AttemptId;
  fw_queued_receipt_hash : option string;
  fw_acknowledged_receipt_hash : option string
}.

Inductive CustodyState : Type :=
  | CustodyActive (epoch : N) (handoff : option HandoffId) (route_sequence : N)
      (coordinator : string) (activation : option (SignedRecordV1 CustodyStagedV1 * HomeLeaseV1))
  | CustodyFrozen (grant : SignedRecordV1 CustodyGrantV1)
      (checkpoint : SignedRecordV1 HomeCheckpointV1)
      (prepared : option (SignedRecordV1 CustodyPreparedV1))
      (redirect : option (SignedRecordV1 HomeLeaseV1))
  | CustodyStaged (prepared : SignedRecordV1 CustodyPreparedV1)
      (staging : option (SignedRecordV1 CustodyStagedV1)).

Definition unfenced_for_replay : CustodyState := CustodyActive 1 None 1 "" None.

Definition ensure_writable (c : CustodyState) : result HomeError unit :=
  match c with
  | CustodyActive _ _ _ _ _ => Ok tt
  | CustodyFrozen grant _ _ _ =>
      Err (HState ("home is permanently frozen for handoff `" +:+ cg_handoff (sr_payload grant)
                   +:+ "`; silence never thaws it"))
  | CustodyStaged prepared _ =>
      Err (HState ("home handoff `" +:+ cg_handoff (sr_payload (cp_grant (sr_payload prepared)))
                   +:+ "` is staged but not activated"))
  end.

Definition active_route_sequence (c : CustodyState) : result HomeError N :=
  match c with
  | CustodyActive _ _ route_sequence _ _ =>
      if decide (0 < route_sequence) then Ok route_sequence
      else Err (HState "active Home has no durable route revision")
  | _ => Err (HState "non-active Home has no authoritative route")
  end.

Record HomeState : Type := mkHomeState {
  hs_jobs : gmap JobId JobRecord;
  hs_request_hashes : gmap JobId string;
  hs_grants : gmap (string * N) (SignedRecordV1 ExecutionGrantV1);
  hs_receipts : gmap (string * N * N) string;
  hs_highest_receipt_sequences : gmap (string * N) N;
  hs_observation_counts : gmap (string * N) N;
  hs_highest_progress_sequences : gmap (string * N) N;
  hs_highest_checkpoint_sequences : gmap (string * N) N;
  hs_controls : gmap (string * string) string;
  hs_control_counts : gmap JobId N;
  hs_forwarded_controls : gmap (string * string) ForwardedControlRecord;
  hs_child_spawns : gmap (string * N * string) ChildSpawnRecord;
  hs_nonterminal_jobs : N;
  hs_unacknowledged_forwarded_controls : N;
  hs_next_grant_sequence : N;
  hs_custody : CustodyState
}.

Definition HomeState_new (custody : CustodyState) : HomeState :=
  mkHomeState ∅ ∅ ∅ ∅ ∅ ∅ ∅ ∅ ∅ ∅ ∅ ∅ 0 0 1 custody.

(** ** Field updates *)

Definition on_jobs (f : gmap JobId JobRecord → gmap JobId JobRecord) (s : HomeState) : HomeState :=
  mkHomeState (f (hs_jobs s)) (hs_request_hashes s) (hs_grants s) (hs_receipts s)
    (hs_highest_receipt_sequences s) (hs_observation_counts s)
    (hs_highest_progress_sequences s) (hs_highest_checkpoint_sequences s) (hs_controls s)
    (hs_control_counts s) (hs_forwarded_controls s) (hs_child_spawns s) (hs_nonterminal_jobs s)
    (hs_unacknowledged_forwarded_controls s) (hs_next_grant_sequence s) (hs_custody s).
Definition on_request_hashes (f : gmap JobId string → gmap JobId string) (s : HomeState) : HomeState :=
  mkHomeState (hs_jobs s) (f (hs_request_hashes s)) (hs_grants s) (hs_receipts s)
    (hs_highest_receipt_sequences s) (hs_observation_counts s)
    (hs_highest_progress_sequences s) (hs_highest_checkpoint_sequences s) (hs_controls s)
    (hs_control_counts s) (hs_forwarded_controls s) (hs_child_spawns s) (hs_nonterminal_jobs s)
    (hs_unacknowledged_forwarded_controls s) (hs_next_grant_sequence s) (hs_custody s).
Definition on_grants (f : gmap (string * N) (SignedRecordV1 ExecutionGrantV1) → gmap (string * N) (SignedRecordV1 ExecutionGrantV1)) (s : HomeState) : HomeState :=
  mkHomeState (hs_jobs s) (hs_request_hashes s) (f (hs_grants s)) (hs_receipts s)
    (hs_highest_receipt_sequences s) (hs_observation_counts s)
    (hs_highest_progress_sequences s) (hs_highest_checkpoint_sequences s) (hs_controls s)
    (hs_control_counts s) (hs_forwarded_controls s) (hs_child_spawns s) (hs_nonterminal_jobs s)
    (hs_unacknowledged_forwarded_controls s) (hs_next_grant_sequence s) (hs_custody s).
Definition on_receipts (f : gmap (string * N * N) string → gmap (string * N * N) string) (s : HomeState) : HomeState :=
  mkHomeState (hs_jobs s) (hs_request_hashes s) (hs_grants s) (f (hs_receipts s))
    (hs_highest_receipt_sequences s) (hs_observation_counts s)
    (hs_highest_progress_sequences s) (hs_highest_checkpoint_sequences s) (hs_controls s)
    (hs_control_counts s) (hs_forwarded_controls s) (hs_child_spawns s) (hs_nonterminal_jobs s)
    (hs_unacknowledged_forwarded_controls s) (hs_next_grant_sequence s) (hs_custody s).
Definition on_highest_receipt_sequences (f : gmap (string * N) N → gmap (string * N) N) (s : HomeState) : HomeState :=
  mkHomeState (hs_jobs s) (hs_request_hashes s) (hs_grants s) (hs_receipts s)
    (f (hs_highest_receipt_sequences s)) (hs_observation_counts s)
    (hs_highest_progress_sequences s) (hs_highest_checkpoint_sequences s) (hs_controls s)
    (hs_control_counts s) (hs_forwarded_controls s) (hs_child_spawns s) (hs_nonterminal_jobs s)
    (hs_unacknowledged_forwarded_controls s) (hs_next_grant_sequence s) (hs_custody s).
Definition on_observation_counts (f : gmap (string * N) N → gmap (string * N) N) (s : HomeState) : HomeState :=
  mkHomeState (hs_jobs s) (hs_request_hashes s) (hs_grants s) (hs_receipts s)
    (hs_highest_receipt_sequences s) (f (hs_observation_counts s))
    (hs_highest_progress_sequences s) (hs_highest_checkpoint_sequences s) (hs_controls s)
    (hs_control_counts s) (hs_forwarded_controls s) (hs_child_spawns s) (hs_nonterminal_jobs s)
    (hs_unacknowledged_forwarded_controls s) (hs_next_grant_sequence s) (hs_custody s).
Definition on_highest_progress_sequences (f : gmap (string * N) N → gmap (string * N) N) (s : HomeState) : HomeState :=
  mkHomeState (hs_jobs s) (hs_request_hashes s) (hs_grants s) (hs_receipts s)
    (hs_highest_receipt_sequences s) (hs_observation_counts s)
    (f (hs_highest_progress_sequences s)) (hs_highest_checkpoint_sequences s) (hs_controls s)
    (hs_control_counts s) (hs_forwarded_controls s) (hs_child_spawns s) (hs_nonterminal_jobs s)
    (hs_unacknowledged_forwarded_controls s) (hs_next_grant_sequence s) (hs_custody s).
Definition on_highest_checkpoint_sequences (f : gmap (string * N) N → gmap (string * N) N) (s : HomeState) : HomeState :=
  mkHomeState (hs_jobs s) (hs_request_hashes s) (hs_grants s) (hs_receipts s)
    (hs_highest_receipt_sequences s) (hs_observation_counts s)
    (hs_highest_progress_sequences s) (f (hs_highest_checkpoint_sequences s)) (hs_controls s)
    (hs_control_counts s) (hs_forwarded_controls s) (hs_child_spawns s) (hs_nonterminal_jobs s)
    (hs_unacknowledged_forwarded_controls s) (hs_next_grant_sequence s) (hs_custody s).
Definition on_controls (f : gmap (string * string) string → gmap (string * string) string) (s : HomeState) : HomeState :=
  mkHomeState (hs_jobs s) (hs_request_hashes s) (hs_grants s) (hs_receipts s)
    (hs_highest_receipt_sequences s) (hs_observation_counts s)
    (hs_highest_progress_sequences s) (hs_highest_checkpoint_sequences s) (f (hs_controls s))
    (hs_control_counts s) (hs_forwarded_controls s) (hs_child_spawns s) (hs_nonterminal_jobs s)
    (hs_unacknowledged_forwarded_controls s) (hs_next_grant_sequence s) (hs_custody s).
Definition on_control_counts (f : gmap JobId N → gmap JobId N) (s : HomeState) : HomeState :=
  mkHomeState (hs_jobs s) (hs_request_hashes s) (hs_grants s) (hs_receipts s)
    (hs_highest_receipt_sequences s) (hs_observation_counts s)
    (hs_highest_progress_sequences s) (hs_highest_checkpoint_sequences s) (hs_controls s)
    (f (hs_control_counts s)) (hs_forwarded_controls s) (hs_child_spawns s)
    (hs_nonterminal_jobs s) (hs_unacknowledged_forwarded_controls s) (hs_next_grant_sequence s)
    (hs_custody s).
Definition on_forwarded_controls (f : gmap (string * string) ForwardedControlRecord → gmap (string * string) ForwardedControlRecord) (s : HomeState) : HomeState :=
  mkHomeState (hs_jobs s) (hs_request_hashes s) (hs_grants s) (hs_receipts s)
    (hs_highest_receipt_sequences s) (hs_observation_counts s)
    (hs_highest_progress_sequences s) (hs_highest_checkpoint_sequences s) (hs_controls s)
    (hs_control_counts s) (f (hs_forwarded_controls s)) (hs_child_spawns s)
    (hs_nonterminal_jobs s) (hs_unacknowledged_forwarded_controls s) (hs_next_grant_sequence s)
    (hs_custody s).
Definition on_child_spawns (f : gmap (string * N * string) ChildSpawnRecord → gmap (string * N * string) ChildSpawnRecord) (s : HomeState) : HomeState :=
  mkHomeState (hs_jobs s) (hs_request_hashes s) (hs_grants s) (hs_receipts s)
    (hs_highest_receipt_sequences s) (hs_observation_counts s)
    (hs_highest_progress_sequences s) (hs_highest_checkpoint_sequences s) (hs_controls s)
    (hs_control_counts s) (hs_forwarded_controls s) (f (hs_child_spawns s))
    (hs_nonterminal_jobs s) (hs_unacknowledged_forwarded_controls s) (hs_next_grant_sequence s)
    (hs_custody s).
Definition on_nonterminal_jobs (f : N → N) (s : HomeState) : HomeState :=
  mkHomeState (hs_jobs s) (hs_request_hashes s) (hs_grants s) (hs_receipts s)
    (hs_highest_receipt_sequences s) (hs_observation_counts s)
    (hs_highest_progress_sequences s) (hs_highest_checkpoint_sequences s) (hs_controls s)
    (hs_control_counts s) (hs_forwarded_controls s) (hs_child_spawns s)
    (f (hs_nonterminal_jobs s)) (hs_unacknowledged_forwarded_controls s)
    (hs_next_grant_sequence s) (hs_custody s).
Definition on_unacknowledged_forwarded_controls (f : N → N) (s : HomeState) : HomeState :=
  mkHomeState (hs_jobs s) (hs_request_hashes s) (hs_grants s) (hs_receipts s)
    (hs_highest_receipt_sequences s) (hs_observation_counts s)
    (hs_highest_progress_sequences s) (hs_highest_checkpoint_sequences s) (hs_controls s)
    (hs_control_counts s) (hs_forwarded_controls s) (hs_child_spawns s) (hs_nonterminal_jobs s)
    (f (hs_unacknowledged_forwarded_controls s)) (hs_next_grant_sequence s) (hs_custody s).
Definition on_next_grant_sequence (f : N → N) (s : HomeState) : HomeState :=
  mkHomeState (hs_jobs s) (hs_request_hashes s) (hs_grants s) (hs_receipts s)
    (hs_highest_receipt_sequences s) (hs_observation_counts s)
    (hs_highest_progress_sequences s) (hs_highest_checkpoint_sequences s) (hs_controls s)
    (hs_control_counts s) (hs_forwarded_controls s) (hs_child_spawns s) (hs_nonterminal_jobs s)
    (hs_unacknowledged_forwarded_controls s) (f (hs_next_grant_sequence s)) (hs_custody s).

(** ** Computations *)

Definition homeM : Type → Type := stateR HomeState HomeError.
#[export] Instance homeM_ret : MRet homeM := stateR_ret.
#[export] Instance homeM_bind : MBind homeM := stateR_bind.

Definition fail {A} (e : HomeError) : homeM A := lift_result (Err e).
Definition guard_or (refuse : bool) (e : HomeError) : homeM unit :=
  if refuse then fail e else mret tt.
Definition check {A} (o : option A) (e : HomeError) : homeM A := lift_result (ok_or o e).

(** [map_err(invalid)]. *)
Definition invalid {A} (r : result ContractError A) : result HomeError A :=
  map_err (fun e => HInvalid (ContractError_to_string e)) r.

(** ** State machine *)

Definition transition_allowed (from to : JobStateV1) : bool :=
  if is_terminal from then false
  else
    bool_decide (from = to)
    || match from, to with
       | SQueued, (SBlocked | SDispatching | SCancelled | SFailed) => true
       | SBlocked, (SQueued | SCancelled | SFailed) => true
       | SDispatching, (SRunning | SRetryPending | SSucceeded | SFailed | SCancelled
                        | SIndeterminate) => true
       | SRunning, (SRetryPending | SSucceeded | SFailed | SCancelled | SIndeterminate) => true
       | SRetryPending, (SDispatching | SCancelled | SFailed | SIndeterminate) => true
       | _, _ => false
       end.

(** [{:?}] of a job state. *)
Definition state_debug (s : JobStateV1) : string :=
  match s with
  | SQueued => "Queued" | SBlocked => "Blocked" | SDispatching => "Dispatching"
  | SRunning => "Running" | SRetryPending => "RetryPending" | SSucceeded => "Succeeded"
  | SFailed => "Failed" | SCancelled => "Cancelled" | SIndeterminate => "Indeterminate"
  end.

(** The recipient loop of [require_result_recipient_wraps]. *)
Fixpoint require_wraps (sealed : SealedValueV1) (required : list HomeId) : result HomeError unit :=
  match required with
  | [] => Ok tt
  | recipient :: required =>
      if existsb (fun wrap => bool_decide (rw_recipient wrap = recipient)) (sv_recipients sealed)
      then require_wraps sealed required
      else Err (HInvalid ("sealed result omits the required key envelope for recipient `"
                          +:+ recipient +:+ "`"))
  end.

Definition require_result_recipient_wraps (result_value : ValueRefV1) (required : list HomeId) :
    result HomeError unit :=
  match required with
  | [] => Ok tt
  | _ =>
      match result_value with
      | VSealed sealed => require_wraps sealed required
      | _ => Err (HInvalid
          "job requested result recipients but executor returned an unsealed result")
      end
  end.

(** The attempts that become current. *)
Definition current_attempt_of (k : JobEventKindV1) : option AttemptId :=
  match k with
  | KDispatchGranted _ attempt | KClaimed attempt _ | KStarted attempt | KProgress attempt _ _
  | KCheckpoint attempt _ _ | KAttemptFailed attempt _ _ | KSucceeded attempt _
  | KIndeterminate attempt _ _ => Some attempt
  | _ => None
  end.

Definition event_attempt (k : JobEventKindV1) : option AttemptId :=
  match k with
  | KDispatchGranted _ attempt | KClaimed attempt _ | KStarted attempt | KProgress attempt _ _
  | KCheckpoint attempt _ _ | KControlQueued _ attempt | KControlAcknowledged _ attempt _
  | KAttemptFailed attempt _ _ | KSucceeded attempt _ => Some attempt
  | KIndeterminate attempt _ _ | KLateReceipt attempt _ => Some attempt
  | KChildSpawned parent_attempt _ _ _ _ _ => Some parent_attempt
  | _ => None
  end.

Definition on_snapshot (f : JobSnapshotV1 → JobSnapshotV1) (r : JobRecord) : JobRecord :=
  mkJobRecord (f (jr_snapshot r)) (jr_events r).

(** [record.snapshot.state = ..; home_epoch; authority; cancel_requested; last_sequence]. *)
Definition advance_snapshot (e : JobEventV1) (s : JobSnapshotV1) : JobSnapshotV1 :=
  mkJobSnapshotV1 (ss_spec s) (je_state_after e) (je_cancel_requested e) (je_home_epoch e)
    (je_authority e) (je_sequence e) (ss_current_attempt s) (ss_result s) (ss_error s).
Definition set_current_attempt (a : AttemptId) (s : JobSnapshotV1) : JobSnapshotV1 :=
  mkJobSnapshotV1 (ss_spec s) (ss_state s) (ss_cancel_requested s) (ss_home_epoch s)
    (ss_authority s) (ss_last_sequence s) (Some a) (ss_result s) (ss_error s).
Definition set_result (v : ValueRefV1) (s : JobSnapshotV1) : JobSnapshotV1 :=
  mkJobSnapshotV1 (ss_spec s) (ss_state s) (ss_cancel_requested s) (ss_home_epoch s)
    (ss_authority s) (ss_last_sequence s) (ss_current_attempt s) (Some v) (ss_error s).
Definition set_error (v : ValueRefV1) (s : JobSnapshotV1) : JobSnapshotV1 :=
  mkJobSnapshotV1 (ss_spec s) (ss_state s) (ss_cancel_requested s) (ss_home_epoch s)
    (ss_authority s) (ss_last_sequence s) (ss_current_attempt s) (ss_result s) (Some v).
Definition set_access (a : JobAccessV1) (s : JobSnapshotV1) : JobSnapshotV1 :=
  let p := ss_spec s in
  mkJobSnapshotV1
    (mkJobSpecV1 (sp_handle p) (sp_root p) (sp_caller_idempotency_key p) (sp_request_hash p)
       (sp_function p) (sp_deployment p) (sp_input p) (sp_delivery p)
       (sp_allow_duplicate_effects p) (sp_parent p) (sp_causal p) a (sp_evidence p)
       (sp_result_recipients p) (sp_accepted_at_unix_ms p))
    (ss_state s) (ss_cancel_requested s) (ss_home_epoch s) (ss_authority s) (ss_last_sequence s)
    (ss_current_attempt s) (ss_result s) (ss_error s).

Definition job_snapshot (job : JobId) (s : HomeState) : option JobSnapshotV1 :=
  jr_snapshot <$> hs_jobs s !! job.
Definition update_job (job : JobId) (f : JobRecord → JobRecord) : homeM unit :=
  modify (on_jobs (alter f job)).

Section ledger.
  Context `{!Sha256} `{!JsonText} `{!Ed25519} `{!WireSerde}.
  Context (config : HomeConfig).

Definition authorized_operational (epoch : N) (signer : string) : bool :=
  existsb (fun authority =>
    bool_decide (og_epoch (sr_payload (ha_operational authority)) = epoch)
    && bool_decide (operational_key authority = signer)
    && is_ok (HomeAuthorityV1_verify authority (cf_home config) epoch CapJobHome))
    (cf_authority config :: cf_historical_authorities config).

(** ** Validating a record *)

(** The child-link loop of [validate_ledger_record]: every [ChildSpawned] is
    followed by the [Submitted] of its child. *)
Fixpoint children_linked (events : list (SignedRecordV1 JobEventV1)) : result HomeError unit :=
  match events with
  | [] => Ok tt
  | event :: rest =>
      let e := sr_payload event in
      match je_kind e with
      | KChildSpawned _ _ _ child root child_request_hash =>
          let linked :=
            existsb (fun candidate =>
              match je_kind (sr_payload candidate) with
              | KSubmitted spec =>
                  bool_decide (je_handle (sr_payload candidate) = child)
                  && bool_decide (sp_handle spec = child)
                  && bool_decide (sp_parent spec = Some (je_handle e))
                  && bool_decide (sp_root spec = root)
                  && bool_decide (sp_request_hash spec = child_request_hash)
              | _ => false
              end) rest in
          if linked then children_linked rest
          else Err (HState
            "ChildSpawned is not atomically followed by its exact child Submitted event")
      | _ => children_linked rest
      end
  end.

(** The event loop of [validate_ledger_record]. *)
Fixpoint events_authorized (events : list (SignedRecordV1 JobEventV1)) : result HomeError unit :=
  match events with
  | [] => Ok tt
  | event :: rest =>
      if negb (is_ok (verify_job_event event))
         || negb (authorized_operational (je_home_epoch (sr_payload event)) (sr_signer event)) then
        Err (HUnauthorized "persisted job event signature is invalid")
      else events_authorized rest
  end.

Definition count_if {A} (p : A → bool) (l : list A) : nat := length (List.filter p l).

Definition validate_ledger_record (record : HomeLedgerRecord) : result HomeError unit :=
  match lr_events record with
  | [] => Err (HState "ledger record has no public event")
  | _ =>
      _ ← events_authorized (lr_events record);
      _ ← match lr_grant record with
          | None => Ok tt
          | Some grant =>
              _ ← invalid (SignedRecordV1_validate ExecutionGrantV1_validate grant);
              if bool_decide (sr_schema grant ≠ SCHEMA_EXECUTE_V1)
                 || negb (is_ok (verify_execution_grant grant)) then
                Err (HUnauthorized "persisted grant signature is invalid")
              else
                grant_hash ← invalid (canonical_hash grant);
                let matching := count_if (fun event =>
                  match je_kind (sr_payload event) with
                  | KDispatchGranted event_hash attempt =>
                      bool_decide (event_hash = grant_hash)
                      && bool_decide (attempt = eg_attempt (sr_payload grant))
                  | _ => false
                  end) (lr_events record) in
                if decide (matching ≠ 1%nat) then
                  Err (HState "persisted grant is not bound to one exact DispatchGranted event")
                else Ok tt
          end;
      _ ← match lr_receipt record with
          | Some receipt =>
              _ ← invalid (SignedRecordV1_validate ExecutionReceiptV1_validate receipt);
              if unsigned SCHEMA_EXECUTE_V1 receipt then
                Err (HUnauthorized "persisted receipt signature is invalid")
              else
                receipt_hash ← invalid (canonical_hash receipt);
                let matching := count_if (fun event =>
                  match je_foreign_receipt (sr_payload event) with
                  | None => false
                  | Some foreign =>
                      match canonical_hash foreign with
                      | Ok hash => bool_decide (hash = receipt_hash)
                      | Err _ => false
                      end
                  end) (lr_events record) in
                if decide (matching ≠ 1%nat) then
                  Err (HState "persisted receipt is not bound to one exact public foreign receipt")
                else Ok tt
          | None =>
              if existsb (fun event => bool_decide (is_Some (je_foreign_receipt (sr_payload event))))
                   (lr_events record) then
                Err (HState "public foreign receipt has no matching private ledger receipt")
              else Ok tt
          end;
      children_linked (lr_events record)
  end.

(** ** Applying events *)

Definition index_home_control (key : string * string) (request_hash : string) : homeM unit :=
  existing ← gets (fun s => hs_controls s !! key);
  match existing with
  | Some existing =>
      guard_or (bool_decide (existing ≠ request_hash))
        (HConflict "control request hash changed during ledger replay")
  | None =>
      count ← gets (fun s => default 0 (hs_control_counts s !! key.1));
      _ ← guard_or (bool_decide (MAX_JOB_CONTROLS ≤ count))
            (HCapacity ("job controls exceed " +:+ dec MAX_JOB_CONTROLS));
      _ ← modify (on_control_counts (<[key.1 := count + 1]>));
      modify (on_controls (<[key := request_hash]>))
  end.

Definition apply_submitted (event : SignedRecordV1 JobEventV1) (spec : JobSpecV1) : homeM unit :=
  let e := sr_payload event in
  let job_id := jh_job (je_handle e) in
  _ ← guard_or (bool_decide (je_sequence e ≠ 1) || bool_decide (je_state_after e ≠ SQueued))
        (HState "submitted must be queued sequence 1");
  existing ← gets (job_snapshot job_id);
  _ ← guard_or (bool_decide (is_Some existing)) (HConflict job_id);
  _ ← match sp_parent spec with
      | Some parent =>
          found ← gets (job_snapshot (jh_job parent));
          parent_job ← check found (HState "child submission precedes its durable parent");
          guard_or (bool_decide (jh_home parent ≠ cf_home config)
                    || bool_decide (sp_root spec ≠ sp_root (ss_spec parent_job))
                    || bool_decide (jh_home (sp_root spec) ≠ cf_home config))
            (HState "child submission does not inherit its parent's immutable root")
      | None =>
          guard_or (bool_decide (sp_root spec ≠ sp_handle spec))
            (HState "root submission does not self-identify its immutable root")
      end;
  jobs ← gets hs_nonterminal_jobs;
  next ← check (usize_checked_add jobs 1)
           (HCapacity "nonterminal Job reservation count overflowed");
  _ ← modify (on_nonterminal_jobs (fun _ => next));
  let snapshot :=
    mkJobSnapshotV1 spec SQueued (je_cancel_requested e) (je_home_epoch e) (je_authority e) 1
      None None None in
  _ ← modify (on_request_hashes (<[job_id := sp_request_hash spec]>));
  modify (on_jobs (<[job_id := mkJobRecord snapshot [event]]>)).

(** The forwarding section of [ControlRequested]. *)
Definition forward_control (job_id : JobId) (key : string * string) (attempt : AttemptId) :
    homeM unit :=
  _ ← guard_or (bool_decide (at_home attempt ≠ cf_home config)
                || bool_decide (at_job attempt ≠ job_id))
        (HState "forwarded control attempt belongs to another Job/Home");
  entry ← gets (fun s => hs_forwarded_controls s !! key);
  match entry with
  | None =>
      _ ← modify (on_forwarded_controls
                    (<[key := mkForwardedControlRecord attempt None None]>));
      controls ← gets hs_unacknowledged_forwarded_controls;
      next ← check (usize_checked_add controls 1)
               (HCapacity "unacknowledged control reservation count overflowed");
      modify (on_unacknowledged_forwarded_controls (fun _ => next))
  | Some entry =>
      guard_or (bool_decide (fw_attempt entry ≠ attempt))
        (HConflict "durable control was rebound to another execution attempt")
  end.

(** The second [match] on the kind in [apply_job_event]; [snapshot] is the job's. *)
Definition apply_event_kind (event : SignedRecordV1 JobEventV1) (snapshot : JobSnapshotV1) :
    homeM unit :=
  let e := sr_payload event in
  let job_id := jh_job (je_handle e) in
  match je_kind e with
  | KSucceeded _ value => update_job job_id (on_snapshot (set_result value))
  | KAttemptFailed _ error _ | KFailed error => update_job job_id (on_snapshot (set_error error))
  | KAccessUpdated control request_hash access =>
      _ ← update_job job_id (on_snapshot (set_access access));
      index_home_control (job_id, control) request_hash
  | KControlRequested request attempt =>
      hash ← lift_result (invalid (canonical_hash request));
      let key := (job_id, jc_control (sr_payload request)) in
      _ ← index_home_control key hash;
      match attempt with
      | Some attempt => forward_control job_id key attempt
      | None => mret tt
      end
  | KChildSpawned parent_attempt parent_event_hash spawn_key child root child_request_hash =>
      _ ← guard_or (bool_decide (root ≠ sp_root (ss_spec snapshot))
                    || bool_decide (jh_home child ≠ cf_home config))
            (HState "ChildSpawned does not inherit the durable parent workflow root");
      let key := (at_job parent_attempt, at_number parent_attempt, spawn_key) in
      let spawn := mkChildSpawnRecord parent_event_hash child_request_hash child root event in
      existing ← gets (fun s => hs_child_spawns s !! key);
      match existing with
      | Some existing =>
          guard_or (bool_decide (cw_parent_event_hash existing ≠ parent_event_hash)
                    || bool_decide (cw_child_request_hash existing ≠ child_request_hash)
                    || bool_decide (cw_child existing ≠ child)
                    || bool_decide (cw_root existing ≠ root))
            (HConflict "conflicting persisted causal child spawn")
      | None =>
          count ← gets (fun s => default 0 (hs_control_counts s !! job_id));
          _ ← guard_or (bool_decide (MAX_JOB_CONTROLS ≤ count))
                (HCapacity ("job controls exceed " +:+ dec MAX_JOB_CONTROLS));
          _ ← modify (on_child_spawns (<[key := spawn]>));
          modify (on_control_counts (<[job_id := count + 1]>))
      end
  | _ => mret tt
  end.

Definition is_late_receipt (k : JobEventKindV1) : bool :=
  match k with KLateReceipt _ _ => true | _ => false end.

(** [apply_job_event] after its [Submitted] case. *)
Definition advance_job (event : SignedRecordV1 JobEventV1) : homeM unit :=
  let e := sr_payload event in
  let job_id := jh_job (je_handle e) in
  found ← gets (job_snapshot job_id);
  snapshot ← check found (HState "event precedes submission");
  _ ← guard_or (bool_decide (je_sequence e ≠ u64_add (ss_last_sequence snapshot) 1))
        (HState "job event sequence is not monotonic");
  _ ← lift_result (match je_kind e with
                   | KSucceeded _ value =>
                       require_result_recipient_wraps value
                         (sp_result_recipients (ss_spec snapshot))
                   | _ => Ok tt
                   end);
  let late_fact := bool_decide (ss_state snapshot = je_state_after e)
                   && is_late_receipt (je_kind e) in
  _ ← guard_or (negb late_fact
                && negb (transition_allowed (ss_state snapshot) (je_state_after e)))
        (HState ("invalid transition " +:+ state_debug (ss_state snapshot) +:+ " -> "
                 +:+ state_debug (je_state_after e)));
  let was_nonterminal := negb (is_terminal (ss_state snapshot)) in
  _ ← update_job job_id (on_snapshot (advance_snapshot e));
  _ ← match current_attempt_of (je_kind e) with
      | Some attempt => update_job job_id (on_snapshot (set_current_attempt attempt))
      | None => mret tt
      end;
  _ ← apply_event_kind event snapshot;
  _ ← update_job job_id (fun r => mkJobRecord (jr_snapshot r) (jr_events r ++ [event]));
  if was_nonterminal && is_terminal (je_state_after e) then
    jobs ← gets hs_nonterminal_jobs;
    next ← check (usize_checked_sub jobs 1)
             (HState "nonterminal Job reservation count underflowed");
    modify (on_nonterminal_jobs (fun _ => next))
  else mret tt.

Definition apply_job_event (event : SignedRecordV1 JobEventV1) : homeM unit :=
  let e := sr_payload event in
  _ ← guard_or (bool_decide (jh_home (je_handle e) ≠ cf_home config)
                || negb (authorized_operational (je_home_epoch e) (sr_signer event)))
        (HState "event belongs to another home epoch");
  match je_kind e with
  | KSubmitted spec => apply_submitted event spec
  | _ => advance_job event
  end.

(** ** Applying a record *)

Definition index_home_control_receipt (receipt : SignedRecordV1 ExecutionReceiptV1)
    (receipt_hash : string) : homeM unit :=
  let r := sr_payload receipt in
  let named (control : ControlId) (acknowledged : bool) : homeM unit :=
    let key := (at_job (ex_attempt r), control) in
    found ← gets (fun s => hs_forwarded_controls s !! key);
    retained ← check found (HState ("executor control receipt `" +:+ control
                 +:+ "` has no durable forwarded Home control"));
    _ ← guard_or (bool_decide (fw_attempt retained ≠ ex_attempt r))
          (HState ("executor control receipt `" +:+ control
                   +:+ "` belongs to a different attempt"));
    let slot := if acknowledged then fw_acknowledged_receipt_hash retained
                else fw_queued_receipt_hash retained in
    match slot with
    | Some existing =>
        guard_or (bool_decide (existing ≠ receipt_hash))
          (HConflict ("executor control receipt `" +:+ control
                      +:+ "` changed after Home retention"))
    | None =>
        _ ← modify (on_forwarded_controls
              (<[key := if acknowledged
                        then mkForwardedControlRecord (fw_attempt retained)
                               (fw_queued_receipt_hash retained) (Some receipt_hash)
                        else mkForwardedControlRecord (fw_attempt retained) (Some receipt_hash)
                               (fw_acknowledged_receipt_hash retained)]>));
        if acknowledged then
          controls ← gets hs_unacknowledged_forwarded_controls;
          next ← check (usize_checked_sub controls 1)
                   (HState "control-ack reservation count underflowed");
          modify (on_unacknowledged_forwarded_controls (fun _ => next))
        else mret tt
    end in
  match ex_stage r with
  | XControlQueued control => named control false
  | XControlAcknowledged control _ _ => named control true
  | _ => mret tt
  end.

Definition key_of_attempt (a : AttemptId) : string * N := (at_job a, at_number a).

(** The grant section of [apply_ledger_record]. *)
Definition insert_grant (key : string * N) (grant : SignedRecordV1 ExecutionGrantV1) :
    homeM unit :=
  found ← gets (fun s => hs_grants s !! key);
  match found with
  | Some existing =>
      a ← lift_result (invalid (canonical_hash (existing : SignedRecordV1 ExecutionGrantV1)));
      b ← lift_result (invalid (canonical_hash grant));
      guard_or (bool_decide (a ≠ b)) (HConflict "two grants for one attempt")
  | None => modify (on_grants (<[key := grant]>))
  end.

Definition apply_grant (grant : SignedRecordV1 ExecutionGrantV1) : homeM unit :=
  let g := sr_payload grant in
  _ ← guard_or (bool_decide (eg_owner g ≠ cf_home config)
                || negb (authorized_operational (eg_home_epoch g) (sr_signer grant)))
        (HState "grant belongs to an unauthorized home epoch");
  _ ← insert_grant (key_of_attempt (eg_attempt g)) grant;
  modify (on_next_grant_sequence (fun n => N.max n (u64_add (eg_grant_sequence g) 1))).

Definition is_observation (s : ExecutionStageV1) : bool :=
  match s with XProgress _ _ | XCheckpoint _ _ => true | _ => false end.

(** The sequence check of a receipt that is not late. *)
Definition check_stage_sequence (key : string * N) (stage : ExecutionStageV1) : homeM unit :=
  match stage with
  | XProgress sequence _ =>
      highest ← gets (fun s => default 0 (hs_highest_progress_sequences s !! key));
      guard_or (bool_decide (sequence ≤ highest))
        (HState ("persisted progress sequence " +:+ dec sequence +:+ " is not newer than "
                 +:+ dec highest))
  | XCheckpoint sequence _ =>
      highest ← gets (fun s => default 0 (hs_highest_checkpoint_sequences s !! key));
      guard_or (bool_decide (sequence ≤ highest))
        (HState ("persisted checkpoint sequence " +:+ dec sequence +:+ " is not newer than "
                 +:+ dec highest))
  | _ => mret tt
  end.

(** The high-water update of a receipt's stage. *)
Definition raise_stage_sequence (key : string * N) (stage : ExecutionStageV1) : homeM unit :=
  match stage with
  | XProgress sequence _ =>
      highest ← gets (fun s => default 0 (hs_highest_progress_sequences s !! key));
      modify (on_highest_progress_sequences (<[key := N.max highest sequence]>))
  | XCheckpoint sequence _ =>
      highest ← gets (fun s => default 0 (hs_highest_checkpoint_sequences s !! key));
      modify (on_highest_checkpoint_sequences (<[key := N.max highest sequence]>))
  | _ => mret tt
  end.

(** The receipt section of [apply_ledger_record]. *)
Definition apply_receipt (receipt : SignedRecordV1 ExecutionReceiptV1) : homeM unit :=
  let r := sr_payload receipt in
  let attempt_key := key_of_attempt (ex_attempt r) in
  found ← gets (fun s => hs_grants s !! attempt_key);
  grant ← check found (HState "persisted receipt has no grant");
  _ ← lift_result (map_err (fun e => HUnauthorized (ContractError_to_string e))
                     (verify_execution_receipt receipt grant));
  highest_receipt ← gets (fun s => default 0 (hs_highest_receipt_sequences s !! attempt_key));
  _ ← guard_or (bool_decide (ex_sequence r = highest_receipt))
        (HState ("persisted receipt sequence " +:+ dec (ex_sequence r)
                 +:+ " matches an unindexed high-water mark"));
  let late := bool_decide (ex_sequence r < highest_receipt) in
  let observation := is_observation (ex_stage r) in
  observations ← gets (fun s => default 0 (hs_observation_counts s !! attempt_key));
  _ ← guard_or (observation && bool_decide (MAX_ATTEMPT_OBSERVATIONS ≤ observations))
        (HCapacity ("attempt observations exceed " +:+ dec MAX_ATTEMPT_OBSERVATIONS));
  _ ← (if late then mret tt else check_stage_sequence attempt_key (ex_stage r));
  hash ← lift_result (invalid (canonical_hash receipt));
  _ ← index_home_control_receipt receipt hash;
  let key := (at_job (ex_attempt r), at_number (ex_attempt r), ex_sequence r) in
  old ← gets (fun s => hs_receipts s !! key);
  _ ← modify (on_receipts (<[key := hash]>));
  _ ← guard_or (match old with Some old => bool_decide (old ≠ hash) | None => false end)
        (HConflict "conflicting persisted executor receipt");
  _ ← modify (on_highest_receipt_sequences
                (<[attempt_key := N.max highest_receipt (ex_sequence r)]>));
  _ ← raise_stage_sequence attempt_key (ex_stage r);
  if observation then
    count ← gets (fun s => default 0 (hs_observation_counts s !! attempt_key));
    modify (on_observation_counts (<[attempt_key := count + 1]>))
  else mret tt.

Fixpoint apply_events (events : list (SignedRecordV1 JobEventV1)) : homeM unit :=
  match events with
  | [] => mret tt
  | event :: events => _ ← apply_job_event event; apply_events events
  end.

Definition when_some {A} (o : option A) (f : A → homeM unit) : homeM unit :=
  match o with Some a => f a | None => mret tt end.

Definition apply_ledger_record (record : HomeLedgerRecord) : homeM unit :=
  _ ← lift_result (validate_ledger_record record);
  _ ← when_some (lr_grant record) apply_grant;
  _ ← when_some (lr_receipt record) apply_receipt;
  apply_events (lr_events record).

(** ** Preflight *)

(** [if let Some(v) = from.get(&key) { to.insert(key, v.clone()) }]. *)
Definition copy_entry {K V} `{!EqDecision K} `{!Countable K} (from : gmap K V) (key : K)
    (to : gmap K V) : gmap K V :=
  match from !! key with Some v => <[key := v]> to | None => to end.

(** The jobs an event can touch. *)
Definition event_jobs (event : SignedRecordV1 JobEventV1) : list JobId :=
  jh_job (je_handle (sr_payload event))
  :: match je_kind (sr_payload event) with
     | KSubmitted spec => match sp_parent spec with Some parent => [jh_job parent] | None => [] end
     | KChildSpawned parent_attempt _ _ child _ _ => [at_job parent_attempt; jh_job child]
     | _ => []
     end.

Definition record_jobs (record : HomeLedgerRecord) : list JobId :=
  flat_map event_jobs (lr_events record)
  ++ match lr_grant record with
     | Some grant => [at_job (eg_attempt (sr_payload grant))]
     | None => []
     end
  ++ match lr_receipt record with
     | Some receipt => [at_job (ex_attempt (sr_payload receipt))]
     | None => []
     end.

Definition receipt_control (r : ExecutionReceiptV1) : option ControlId :=
  match ex_stage r with
  | XControlQueued control => Some control
  | XControlAcknowledged control _ _ => Some control
  | _ => None
  end.

Definition shadow_grant (state : HomeState) (grant : SignedRecordV1 ExecutionGrantV1) :
    HomeState → HomeState :=
  on_grants (copy_entry (hs_grants state) (key_of_attempt (eg_attempt (sr_payload grant)))).

Definition shadow_receipt (state : HomeState) (receipt : SignedRecordV1 ExecutionReceiptV1)
    (shadow : HomeState) : HomeState :=
  let r := sr_payload receipt in
  let attempt_key := key_of_attempt (ex_attempt r) in
  let receipt_key := (at_job (ex_attempt r), at_number (ex_attempt r), ex_sequence r) in
  let shadow := on_grants (copy_entry (hs_grants state) attempt_key) shadow in
  let shadow := on_observation_counts (copy_entry (hs_observation_counts state) attempt_key)
                  shadow in
  let shadow := on_highest_receipt_sequences
                  (copy_entry (hs_highest_receipt_sequences state) attempt_key) shadow in
  let shadow := on_highest_progress_sequences
                  (copy_entry (hs_highest_progress_sequences state) attempt_key) shadow in
  let shadow := on_highest_checkpoint_sequences
                  (copy_entry (hs_highest_checkpoint_sequences state) attempt_key) shadow in
  let shadow := on_receipts (copy_entry (hs_receipts state) receipt_key) shadow in
  match receipt_control r with
  | Some control =>
      let key := (at_job (ex_attempt r), control) in
      on_controls (copy_entry (hs_controls state) key)
        (on_forwarded_controls (copy_entry (hs_forwarded_controls state) key) shadow)
  | None => shadow
  end.

(** A job's shadow has its snapshot and no events. *)
Definition shadow_job (state : HomeState) (shadow : HomeState) (job : JobId) : HomeState :=
  let shadow :=
    match hs_jobs state !! job with
    | Some existing => on_jobs (<[job := mkJobRecord (jr_snapshot existing) []]>) shadow
    | None => shadow
    end in
  on_request_hashes (copy_entry (hs_request_hashes state) job) shadow.

Definition shadow_event (state : HomeState) (shadow : HomeState)
    (event : SignedRecordV1 JobEventV1) : HomeState :=
  let job := jh_job (je_handle (sr_payload event)) in
  let shadow := on_control_counts (copy_entry (hs_control_counts state) job) shadow in
  let shadow :=
    match
      match je_kind (sr_payload event) with
      | KAccessUpdated control _ _ => Some (job, control)
      | KControlRequested request _ => Some (job, jc_control (sr_payload request))
      | _ => None
      end
    with
    | Some key =>
        on_forwarded_controls (copy_entry (hs_forwarded_controls state) key)
          (on_controls (copy_entry (hs_controls state) key) shadow)
    | None => shadow
    end in
  match je_kind (sr_payload event) with
  | KChildSpawned parent_attempt _ spawn_key _ _ _ =>
      on_child_spawns
        (copy_entry (hs_child_spawns state)
           (at_job parent_attempt, at_number parent_attempt, spawn_key)) shadow
  | _ => shadow
  end.

(** The shadow state of [preflight_ledger_transition]. *)
Definition shadow_of (state : HomeState) (record : HomeLedgerRecord) : HomeState :=
  let shadow :=
    mkHomeState ∅ ∅ ∅ ∅ ∅ ∅ ∅ ∅ ∅ ∅ ∅ ∅ (hs_nonterminal_jobs state)
      (hs_unacknowledged_forwarded_controls state) (hs_next_grant_sequence state)
      (hs_custody state) in
  let shadow :=
    match lr_grant record with Some grant => shadow_grant state grant shadow | None => shadow end in
  let shadow :=
    match lr_receipt record with
    | Some receipt => shadow_receipt state receipt shadow
    | None => shadow
    end in
  let shadow := fold_left (shadow_job state) (record_jobs record) shadow in
  fold_left (shadow_event state) (lr_events record) shadow.

Definition preflight_ledger_transition (state : HomeState) (record : HomeLedgerRecord) :
    result HomeError unit :=
  (apply_ledger_record record (shadow_of state record)).1.

(** ** Reservations *)

Definition jobs_after (state : HomeState) (event : SignedRecordV1 JobEventV1) (jobs : N) :
    result HomeError N :=
  let e := sr_payload event in
  jobs ← match je_kind e with
         | KSubmitted _ =>
             ok_or (usize_checked_add jobs 1)
               (HCapacity "nonterminal Job reservation count overflowed")
         | _ => Ok jobs
         end;
  if is_terminal (je_state_after e)
     && match job_snapshot (jh_job (je_handle e)) state with
        | Some snapshot => negb (is_terminal (ss_state snapshot))
        | None => false
        end
  then
    ok_or (usize_checked_sub jobs 1) (HState "nonterminal Job reservation count underflowed")
  else Ok jobs.

Definition controls_after (state : HomeState) (event : SignedRecordV1 JobEventV1) (controls : N) :
    result HomeError N :=
  match je_kind (sr_payload event) with
  | KControlRequested request (Some _) =>
      match
        hs_forwarded_controls state
          !! (jh_job (je_handle (sr_payload event)), jc_control (sr_payload request))
      with
      | Some _ => Ok controls
      | None =>
          ok_or (usize_checked_add controls 1)
            (HCapacity "unacknowledged control reservation count overflowed")
      end
  | _ => Ok controls
  end.

(** The event loop of [home_reservations_after]; the two counters of one event
    are touched in the source's order. *)
Fixpoint events_after (state : HomeState) (events : list (SignedRecordV1 JobEventV1))
    (jobs controls : N) : result HomeError (N * N) :=
  match events with
  | [] => Ok (jobs, controls)
  | event :: events =>
      controls ← controls_after state event controls;
      jobs ← jobs_after state event jobs;
      events_after state events jobs controls
  end.

Definition home_reservations_after (state : HomeState) (record : HomeLedgerRecord) :
    result HomeError N :=
  '(jobs, controls) ← events_after state (lr_events record) (hs_nonterminal_jobs state)
                        (hs_unacknowledged_forwarded_controls state);
  controls ← match lr_receipt record with
             | Some receipt =>
                 let r := sr_payload receipt in
                 match ex_stage r with
                 | XControlAcknowledged control _ _ =>
                     match hs_forwarded_controls state !! (at_job (ex_attempt r), control) with
                     | Some retained =>
                         match fw_acknowledged_receipt_hash retained with
                         | None =>
                             ok_or (usize_checked_sub controls 1)
                               (HState "control-ack reservation count underflowed")
                         | Some _ => Ok controls
                         end
                     | None => Ok controls
                     end
                 | _ => Ok controls
                 end
             | None => Ok controls
             end;
  ok_or (usize_checked_add jobs controls)
    (HCapacity "Home safety reservation count overflowed").

Definition home_reservations (state : HomeState) : result HomeError N :=
  ok_or (usize_checked_add (hs_nonterminal_jobs state)
           (hs_unacknowledged_forwarded_controls state))
    (HCapacity "Home safety reservation count overflowed").

(** ** Persisting a record *)

#[export] Instance HomeLedgerRecord_to_value : ToValue HomeLedgerRecord :=
  fun r =>
    grant ← match lr_grant r with
            | Some g => v ← to_value g; Ok [("grant", v)]
            | None => Ok []
            end;
    receipt ← match lr_receipt r with
              | Some x => v ← to_value x; Ok [("receipt", v)]
              | None => Ok []
              end;
    events ← mapM to_value (lr_events r);
    Ok (JObject (grant ++ receipt ++ [("events", JArray events)])).
End ledger.

(** The parts of [FunctionHome] that [persist_and_apply] uses. [C] is the record
    type of the custody journal. *)
Record FunctionHome (C : Type) : Type := mkFunctionHome {
  fh_config : HomeConfig;
  fh_journal : Journal;
  fh_records : Inner HomeLedgerRecord;
  fh_custody_records : Inner C;
  fh_operational_failure : option string
}.
Arguments mkFunctionHome {C} _ _ _ _ _.
Arguments fh_config {C} _.
Arguments fh_journal {C} _.
Arguments fh_records {C} _.
Arguments fh_custody_records {C} _.
Arguments fh_operational_failure {C} _.

Definition with_records {C} (h : FunctionHome C) (inner : Inner HomeLedgerRecord) :
    FunctionHome C :=
  mkFunctionHome (fh_config h) (fh_journal h) inner (fh_custody_records h)
    (fh_operational_failure h).

Definition journal_err {A} (r : result JournalError A) : result HomeError A := map_err HJournal r.

Section persist.
  Context `{!Sha256} `{!JsonText} `{!Ed25519} `{!WireSerde} {C : Type}.

Definition ensure_authoritative_state (h : FunctionHome C) (state : HomeState) :
    result HomeError unit :=
  match fh_operational_failure h with
  | Some error => Err (HState ("Home runtime is inert: " +:+ error))
  | None =>
      _ ← journal_err (ensure_healthy (fh_records h));
      _ ← journal_err (ensure_healthy (fh_custody_records h));
      ensure_writable (hs_custody state)
  end.

(** The checks of [persist_and_apply] before the append. *)
Definition check_record (h : FunctionHome C) (state : HomeState) (record : HomeLedgerRecord) :
    result HomeError unit :=
  _ ← ensure_authoritative_state h state;
  _ ← validate_ledger_record (fh_config h) record;
  _ ← preflight_ledger_transition (fh_config h) state record;
  reserved_after ← home_reservations_after state record;
  remaining ← journal_err (remaining_records (fh_journal h) (fh_records h));
  if decide (remaining ≤ reserved_after) then
    Err (HCapacity ("Home journal must preserve " +:+ dec reserved_after
                    +:+ " terminal/control-ack record slots"))
  else Ok tt.

Definition persist_and_apply (h : FunctionHome C) (io : AppendIo) (record : HomeLedgerRecord)
    (state : HomeState) (d : Disk) : result HomeError unit * FunctionHome C * HomeState * Disk :=
  match check_record h state record with
  | Err e => (Err e, h, state, d)
  | Ok _ =>
      match append (fh_journal h) io record (fh_records h) d with
      | (Err e, inner, d) => (Err (HJournal e), with_records h inner, state, d)
      | (Ok _, inner, d) =>
          let (res, state) := apply_ledger_record (fh_config h) record state in
          (res, with_records h inner, state, d)
      end
  end.
End persist.
