(* ===== verification/HomeLaws.v ===== *)
(** * Laws of the Home's ledger

    [persist_and_apply] checks a record on a shadow of the state that holds only
    the entries the record can touch, appends it to the journal, and then applies
    it to the real state. This file proves that the shadow run and the real run
    agree, that the counters of the state are exact, and that the journal keeps
    room for the records the Home has promised to write. *)

From S2P Require Import Prelude GxShape GxHash FnCrypto FnTypes FnWire FnCustody Journal HomeLedger.

(** ** Agreement on a footprint *)

(** The keys of each map that applying a record can read. *)
Record Footprint : Type := mkFootprint {
  fp_jobs : list JobId;
  fp_grants : list (string * N);
  fp_attempts : list (string * N);
  fp_receipts : list (string * N * N);
  fp_controls : list (string * string);
  fp_forwarded : list (string * string);
  fp_counts : list JobId;
  fp_spawns : list (string * N * string)
}.

Definition agree {K V} `{!EqDecision K} `{!Countable K} (l : list K) (m m' : gmap K V) : Prop :=
  ∀ k, k ∈ l → m !! k = m' !! k.

Lemma agree_insert {K V} `{!EqDecision K} `{!Countable K} l (m m' : gmap K V) k v :
  agree l m m' → agree l (<[k := v]> m) (<[k := v]> m').
Proof. intros H k' Hk. destruct (decide (k = k')) as [->|]; simplify_map_eq; auto. Qed.

(** Two states that agree on the footprint [F]. *)
Record sim (F : Footprint) (s t : HomeState) : Prop := {
  sim_jobs : ∀ j, j ∈ fp_jobs F → job_snapshot j s = job_snapshot j t;
  sim_grants : agree (fp_grants F) (hs_grants s) (hs_grants t);
  sim_receipts : agree (fp_receipts F) (hs_receipts s) (hs_receipts t);
  sim_highest : agree (fp_attempts F) (hs_highest_receipt_sequences s)
                  (hs_highest_receipt_sequences t);
  sim_observations : agree (fp_attempts F) (hs_observation_counts s) (hs_observation_counts t);
  sim_progress : agree (fp_attempts F) (hs_highest_progress_sequences s)
                   (hs_highest_progress_sequences t);
  sim_checkpoints : agree (fp_attempts F) (hs_highest_checkpoint_sequences s)
                      (hs_highest_checkpoint_sequences t);
  sim_controls : agree (fp_controls F) (hs_controls s) (hs_controls t);
  sim_counts : agree (fp_counts F) (hs_control_counts s) (hs_control_counts t);
  sim_forwarded : agree (fp_forwarded F) (hs_forwarded_controls s) (hs_forwarded_controls t);
  sim_spawns : agree (fp_spawns F) (hs_child_spawns s) (hs_child_spawns t);
  sim_nonterminal : hs_nonterminal_jobs s = hs_nonterminal_jobs t;
  sim_unacknowledged :
    hs_unacknowledged_forwarded_controls s = hs_unacknowledged_forwarded_controls t;
  sim_next : hs_next_grant_sequence s = hs_next_grant_sequence t
}.

(** A computation that cannot tell two such states apart. *)
Definition respects {A} (F : Footprint) (m : homeM A) : Prop :=
  ∀ s t, sim F s t → (m s).1 = (m t).1 ∧ sim F (m s).2 (m t).2.

Section respects.
  Context (F : Footprint).

Lemma respects_bind {A B} (m : homeM A) (f : A → homeM B) :
  respects F m → (∀ a, respects F (f a)) → respects F (m ≫= f).
Proof.
  intros Hm Hf s t H. destruct (Hm s t H) as [H1 H2]. unfold mbind, homeM_bind, stateR_bind.
  destruct (m s) as [[a|e] s'], (m t) as [[b|e'] t']; simpl in *; simplify_eq; auto.
  by apply Hf.
Qed.
Lemma respects_lift {A} (r : result HomeError A) : respects F (lift_result r).
Proof. by intros s t H. Qed.
Lemma respects_ret {A} (a : A) : respects F (mret a).
Proof. by intros s t H. Qed.
Lemma respects_check {A} (o : option A) e : respects F (check o e).
Proof. apply respects_lift. Qed.
Lemma respects_guard b e : respects F (guard_or b e).
Proof. destruct b; [apply respects_lift | apply respects_ret]. Qed.
Lemma respects_gets {A} (f : HomeState → A) :
  (∀ s t, sim F s t → f s = f t) → respects F (gets f).
Proof. intros Hf s t H. split; [simpl; f_equal; auto | done]. Qed.
Lemma respects_modify (f : HomeState → HomeState) :
  (∀ s t, sim F s t → sim F (f s) (f t)) → respects F (modify f).
Proof. intros Hf s t H. split; [done | by apply Hf]. Qed.

Lemma job_snapshot_insert j r s j' :
  job_snapshot j' (on_jobs (<[j := r]>) s)
  = if decide (j = j') then Some (jr_snapshot r) else job_snapshot j' s.
Proof.
  unfold job_snapshot. destruct s. simpl. case_decide; simplify_map_eq; done.
Qed.
Lemma job_snapshot_alter j f g s j' :
  (∀ r, jr_snapshot (f r) = g (jr_snapshot r)) →
  job_snapshot j' (on_jobs (alter f j) s)
  = if decide (j = j') then g <$> job_snapshot j' s else job_snapshot j' s.
Proof.
  intros Hf. unfold job_snapshot. destruct s. simpl. case_decide; simplify_map_eq; [|done].
  destruct (_ !! j'); simpl; [by rewrite Hf | done].
Qed.

Lemma respects_put_job j r : respects F (modify (on_jobs (<[j := r]>))).
Proof.
  apply respects_modify. intros s t []. constructor; auto.
  intros j' Hj. rewrite !job_snapshot_insert. case_decide; auto.
Qed.
Lemma respects_update j f g :
  (∀ r, jr_snapshot (f r) = g (jr_snapshot r)) → respects F (update_job j f).
Proof.
  intros Hf. apply respects_modify. intros s t []. constructor; auto.
  intros j' Hj. rewrite !(job_snapshot_alter j f g) by done. case_decide; [f_equal|]; auto.
Qed.
Lemma respects_events j f :
  respects F (update_job j (fun r => mkJobRecord (jr_snapshot r) (f r))).
Proof. by apply (respects_update _ _ id). Qed.
Lemma respects_on_snapshot j g : respects F (update_job j (on_snapshot g)).
Proof. by apply (respects_update _ _ g). Qed.
End respects.

Create HintDb respects.
#[export] Hint Resolve respects_lift respects_ret respects_check respects_guard
  respects_put_job respects_on_snapshot respects_events : respects.

(** Reads of a key of the footprint. *)
Ltac sim_read :=
  lazymatch goal with |- default _ _ = default _ _ => f_equal | _ => idtac end;
  first
    [ eapply sim_jobs | eapply sim_grants | eapply sim_receipts | eapply sim_highest
    | eapply sim_observations | eapply sim_progress | eapply sim_checkpoints
    | eapply sim_controls | eapply sim_counts | eapply sim_forwarded | eapply sim_spawns
    | eapply sim_nonterminal | eapply sim_unacknowledged | eapply sim_next ];
  solve [eauto].
Ltac sim_write H :=
  destruct H; constructor; cbn; auto using agree_insert; congruence.
(** Proves [respects] of a computation from its atoms. *)
Ltac respects_step :=
  lazymatch goal with
  | |- respects _ (_ ≫= _) => apply respects_bind; [|intro]
  | |- respects _ (gets _) => apply respects_gets; intros ?s ?t ?H; sim_read
  | |- respects _ (modify (on_jobs _)) => solve [auto with respects]
  | |- respects _ (modify _) =>
      apply respects_modify; let H := fresh in intros ?s ?t H; sim_write H
  | |- respects _ (match ?x with _ => _ end) => destruct x eqn:?
  | |- respects _ _ => solve [auto with respects]
  end.
Ltac solve_respects := repeat respects_step.

Section footprint.
  Context `{!Sha256} `{!JsonText} `{!Ed25519} `{!WireSerde}.
  Context (config : HomeConfig) (F : Footprint).

Lemma respects_index_home_control key h :
  key ∈ fp_controls F → key.1 ∈ fp_counts F → respects F (index_home_control key h).
Proof.
  intros Hk Hc. unfold index_home_control. solve_respects.
Qed.

Lemma respects_apply_submitted event spec :
  jh_job (je_handle (sr_payload event)) ∈ fp_jobs F →
  (∀ parent, sp_parent spec = Some parent → jh_job parent ∈ fp_jobs F) →
  respects F (apply_submitted config event spec).
Proof. intros Hj Hp. unfold apply_submitted. solve_respects. Qed.

Lemma respects_forward_control job_id key attempt :
  key ∈ fp_forwarded F → respects F (forward_control config job_id key attempt).
Proof. intros Hk. unfold forward_control. solve_respects. Qed.

(** What applying [event] reads. *)
Definition covers_event (event : SignedRecordV1 JobEventV1) : Prop :=
  let e := sr_payload event in
  let job := jh_job (je_handle e) in
  (∀ j, j ∈ event_jobs event → j ∈ fp_jobs F) ∧
  job ∈ fp_counts F ∧
  match je_kind e with
  | KAccessUpdated control _ _ =>
      (job, control) ∈ fp_controls F ∧ (job, control) ∈ fp_forwarded F
  | KControlRequested request _ =>
      (job, jc_control (sr_payload request)) ∈ fp_controls F
      ∧ (job, jc_control (sr_payload request)) ∈ fp_forwarded F
  | KChildSpawned parent_attempt _ spawn_key _ _ _ =>
      (at_job parent_attempt, at_number parent_attempt, spawn_key) ∈ fp_spawns F
  | _ => True
  end.

Lemma respects_apply_event_kind event snapshot :
  covers_event event → respects F (apply_event_kind config event snapshot).
Proof.
  intros (Hj & Hc & Hk). unfold apply_event_kind.
  destruct (je_kind (sr_payload event)); destruct_and?;
    solve_respects; eauto using respects_index_home_control, respects_forward_control.
Qed.

Lemma respects_advance_job event :
  covers_event event → respects F (advance_job config event).
Proof.
  intros Hcov. assert (Hk : ∀ snapshot, respects F (apply_event_kind config event snapshot))
    by auto using respects_apply_event_kind.
  destruct Hcov as (Hj & _ & _). unfold advance_job.
  assert (Hjob : jh_job (je_handle (sr_payload event)) ∈ fp_jobs F) by (apply Hj; left).
  repeat first [ apply Hk | respects_step ].
Qed.

Lemma respects_apply_job_event event :
  covers_event event → respects F (apply_job_event config event).
Proof.
  intros Hcov. pose proof (respects_advance_job event Hcov) as Ha.
  destruct Hcov as (Hj & _ & _). unfold apply_job_event.
  apply respects_bind; [apply respects_guard|intros _].
  destruct (je_kind (sr_payload event)) eqn:E; try exact Ha.
  apply respects_apply_submitted; [apply Hj; left|]. intros parent Hp. apply Hj.
  unfold event_jobs. rewrite E, Hp. set_solver.
Qed.

(** What applying [receipt] reads. *)
Definition covers_receipt (receipt : SignedRecordV1 ExecutionReceiptV1) : Prop :=
  let r := sr_payload receipt in
  let attempt := key_of_attempt (ex_attempt r) in
  attempt ∈ fp_grants F ∧ attempt ∈ fp_attempts F ∧
  (at_job (ex_attempt r), at_number (ex_attempt r), ex_sequence r) ∈ fp_receipts F ∧
  ∀ control, receipt_control r = Some control →
    (at_job (ex_attempt r), control) ∈ fp_forwarded F.

Lemma respects_index_receipt receipt h :
  covers_receipt receipt → respects F (index_home_control_receipt receipt h).
Proof.
  intros (_ & _ & _ & Hc). unfold index_home_control_receipt.
  unfold receipt_control in Hc. destruct (ex_stage (sr_payload receipt)); simpl in Hc;
    solve_respects; auto.
Qed.

Lemma respects_apply_receipt receipt :
  covers_receipt receipt → respects F (apply_receipt receipt).
Proof.
  intros Hcov. assert (Hx : ∀ h, respects F (index_home_control_receipt receipt h))
    by auto using respects_index_receipt.
  destruct Hcov as (Hg & Ha & Hr & Hc). unfold apply_receipt, check_stage_sequence,
    raise_stage_sequence.
  repeat first [apply Hx | respects_step].
Qed.

Lemma respects_apply_grant grant :
  key_of_attempt (eg_attempt (sr_payload grant)) ∈ fp_grants F →
  respects F (apply_grant config grant).
Proof. intros Hk. unfold apply_grant, insert_grant. solve_respects. Qed.

Definition covers (record : HomeLedgerRecord) : Prop :=
  (∀ grant, lr_grant record = Some grant →
     key_of_attempt (eg_attempt (sr_payload grant)) ∈ fp_grants F) ∧
  (∀ receipt, lr_receipt record = Some receipt → covers_receipt receipt) ∧
  Forall covers_event (lr_events record).

Lemma respects_apply_ledger_record record :
  covers record → respects F (apply_ledger_record config record).
Proof.
  intros (Hg & Hr & He). unfold apply_ledger_record.
  assert (respects F (apply_events config (lr_events record))).
  { induction He; simpl; solve_respects; auto using respects_apply_job_event. }
  apply respects_bind; [apply respects_lift|intros _].
  unfold when_some. destruct (lr_grant record), (lr_receipt record);
    repeat first [ apply respects_apply_grant; auto | apply respects_apply_receipt; auto
                 | assumption | respects_step ].
Qed.
End footprint.

(** ** The shadow holds the footprint *)

(** [m'] is a part of [m] that has every key of [l]. *)
Definition part {K V} `{!EqDecision K} `{!Countable K} (l : list K) (m m' : gmap K V) : Prop :=
  m' ⊆ m ∧ agree l m m'.

Lemma part_agree {K V} `{!EqDecision K} `{!Countable K} l (m m' : gmap K V) :
  part l m m' → agree l m m'.
Proof. by intros [_ H]. Qed.

Lemma part_empty {K V} `{!EqDecision K} `{!Countable K} (m : gmap K V) : part [] m ∅.
Proof. split; [apply map_empty_subseteq | intros k Hk; set_solver]. Qed.

Lemma part_copy {K V} `{!EqDecision K} `{!Countable K} l (m m' : gmap K V) k :
  part l m m' → part (l ++ [k]) m (copy_entry m k m').
Proof.
  intros [Hs Ha]. unfold copy_entry. destruct (m !! k) as [v|] eqn:E; split.
  - by apply insert_subseteq_l.
  - intros k' Hk. destruct (decide (k = k')) as [->|]; simplify_map_eq; [done|].
    apply Ha. set_solver.
  - done.
  - intros k' [Hk|Hk%list_elem_of_singleton]%elem_of_app; [by apply Ha|]. subst k'.
    rewrite E. symmetry. destruct (m' !! k) eqn:E'; [|done].
    rewrite map_subseteq_spec in Hs. apply Hs in E'. congruence.
Qed.

(** Copying a list of keys. *)
Definition copy_all {K V} `{!EqDecision K} `{!Countable K} (from : gmap K V) (l : list K)
    (to : gmap K V) : gmap K V :=
  fold_left (fun to k => copy_entry from k to) l to.

Lemma part_copy_all {K V} `{!EqDecision K} `{!Countable K} ks l (m m' : gmap K V) :
  part l m m' → part (l ++ ks) m (copy_all m ks m').
Proof.
  revert l m'. induction ks as [|k ks IH]; intros l m' H; [by rewrite app_nil_r|].
  simpl. replace (l ++ k :: ks) with ((l ++ [k]) ++ ks) by by rewrite <- app_assoc.
  by apply IH, part_copy.
Qed.

Definition event_job (event : SignedRecordV1 JobEventV1) : JobId :=
  jh_job (je_handle (sr_payload event)).
Definition event_controls (event : SignedRecordV1 JobEventV1) : list (string * string) :=
  match je_kind (sr_payload event) with
  | KAccessUpdated control _ _ => [(event_job event, control)]
  | KControlRequested request _ => [(event_job event, jc_control (sr_payload request))]
  | _ => []
  end.
Definition event_spawns (event : SignedRecordV1 JobEventV1) : list (string * N * string) :=
  match je_kind (sr_payload event) with
  | KChildSpawned parent_attempt _ spawn_key _ _ _ =>
      [(at_job parent_attempt, at_number parent_attempt, spawn_key)]
  | _ => []
  end.

Lemma shadow_events_eq state events shadow :
  fold_left (shadow_event state) events shadow
  = on_control_counts (copy_all (hs_control_counts state) (map event_job events))
      (on_controls (copy_all (hs_controls state) (flat_map event_controls events))
        (on_forwarded_controls
           (copy_all (hs_forwarded_controls state) (flat_map event_controls events))
           (on_child_spawns (copy_all (hs_child_spawns state) (flat_map event_spawns events))
              shadow))).
Proof.
  revert shadow. induction events as [|event events IH]; intros shadow; [by destruct shadow|].
  cbn [fold_left flat_map map]. rewrite IH. unfold shadow_event, event_controls, event_spawns.
  destruct shadow. by destruct (je_kind (sr_payload event)).
Qed.

Lemma copy_snapshot state job (m : gmap JobId JobRecord) :
  jr_snapshot <$> match hs_jobs state !! job with
                  | Some existing => <[job := mkJobRecord (jr_snapshot existing) []]> m
                  | None => m
                  end
  = copy_entry (jr_snapshot <$> hs_jobs state) job (jr_snapshot <$> m).
Proof.
  unfold copy_entry. rewrite lookup_fmap. destruct (hs_jobs state !! job); simpl; [|done].
  by rewrite fmap_insert.
Qed.

Lemma shadow_jobs_eq state jobs shadow :
  ∃ m r,
    fold_left (shadow_job state) jobs shadow
    = on_jobs (fun _ => m) (on_request_hashes (fun _ => r) shadow)
    ∧ jr_snapshot <$> m
      = copy_all (jr_snapshot <$> hs_jobs state) jobs (jr_snapshot <$> hs_jobs shadow).
Proof.
  revert shadow. induction jobs as [|job jobs IH]; intros shadow.
  { exists (hs_jobs shadow), (hs_request_hashes shadow). by destruct shadow. }
  cbn [fold_left]. destruct (IH (shadow_job state shadow job)) as (m & r & E & Em).
  exists m, r. rewrite E, Em. unfold copy_all at 2. cbn [fold_left]. rewrite <- copy_snapshot.
  unfold shadow_job. destruct (hs_jobs state !! job), shadow; done.
Qed.

Definition grant_keys (record : HomeLedgerRecord) : list (string * N) :=
  match lr_grant record with
  | Some grant => [key_of_attempt (eg_attempt (sr_payload grant))]
  | None => []
  end.
Definition receipt_attempts (record : HomeLedgerRecord) : list (string * N) :=
  match lr_receipt record with
  | Some receipt => [key_of_attempt (ex_attempt (sr_payload receipt))]
  | None => []
  end.
Definition receipt_keys (record : HomeLedgerRecord) : list (string * N * N) :=
  match lr_receipt record with
  | Some receipt =>
      let r := sr_payload receipt in
      [(at_job (ex_attempt r), at_number (ex_attempt r), ex_sequence r)]
  | None => []
  end.
Definition receipt_controls (record : HomeLedgerRecord) : list (string * string) :=
  match lr_receipt record with
  | Some receipt =>
      match receipt_control (sr_payload receipt) with
      | Some control => [(at_job (ex_attempt (sr_payload receipt)), control)]
      | None => []
      end
  | None => []
  end.

Definition footprint (record : HomeLedgerRecord) : Footprint :=
  mkFootprint (record_jobs record) (grant_keys record ++ receipt_attempts record)
    (receipt_attempts record) (receipt_keys record)
    (receipt_controls record ++ flat_map event_controls (lr_events record))
    (receipt_controls record ++ flat_map event_controls (lr_events record))
    (map event_job (lr_events record)) (flat_map event_spawns (lr_events record)).

Lemma footprint_covers record : covers (footprint record) record.
Proof.
  unfold covers, footprint, grant_keys, receipt_attempts. split_and!.
  - intros grant E. rewrite E. simpl. left.
  - intros receipt E. unfold covers_receipt, receipt_keys, receipt_controls. rewrite E.
    simpl. split_and!; [set_solver..|]. intros control Hc. rewrite Hc. left.
  - apply Forall_forall. intros event Hin.
    assert (Hf : ∀ (A : Type) (f : _ → list A) x, x ∈ f event → x ∈ flat_map f (lr_events record)).
    { intros A f x Hx. apply list_elem_of_In, in_flat_map. exists event.
      by rewrite <- !list_elem_of_In. }
    assert (Hc : ∀ k, k ∈ event_controls event →
              k ∈ receipt_controls record ++ flat_map event_controls (lr_events record)).
    { intros k Hk. apply elem_of_app. right. by apply Hf. }
    pose proof (Hf _ event_spawns) as Hs.
    unfold covers_event. simpl. split_and!.
    + intros j Hj. unfold record_jobs. apply elem_of_app. left. by apply Hf.
    + by apply (list_elem_of_fmap_2 event_job).
    + unfold event_controls, event_spawns in Hc, Hs.
      destruct (je_kind (sr_payload event)); try done; [..|apply Hs; left];
        split; apply Hc; left.
Qed.

(** Solves [agree] with a chain of copies of the empty map. *)
Ltac solve_part :=
  repeat first
    [ apply part_empty
    | apply (part_copy []) | apply (part_copy [_])
    | apply (part_copy_all _ []) | apply (part_copy_all _ [_]) ].

Lemma shadow_sim state record : sim (footprint record) state (shadow_of state record).
Proof.
  unfold shadow_of. rewrite shadow_events_eq.
  set (base := match lr_receipt record with Some _ => _ | None => _ end).
  destruct (shadow_jobs_eq state (record_jobs record) base) as (m & r & -> & Em).
  assert (Hb : hs_jobs base = ∅).
  { subst base. destruct (lr_receipt record) as [x|], (lr_grant record); [..|done|done];
      unfold shadow_receipt; destruct (receipt_control (sr_payload x)); done. }
  constructor; cbn.
  { intros j Hj. unfold job_snapshot. rewrite <- !lookup_fmap. cbn. rewrite Em, Hb, fmap_empty.
    revert Hj. apply part_agree, (part_copy_all _ []), part_empty. }
  all: clear Em Hb; subst base; unfold footprint, grant_keys, receipt_attempts, receipt_keys,
    receipt_controls, shadow_receipt, shadow_grant;
    destruct (lr_grant record), (lr_receipt record) as [x|];
    try destruct (receipt_control (sr_payload x)); cbn; try done.
  all: apply part_agree; solve_part.
Qed.

Section preflight.
  Context `{!Sha256} `{!JsonText} `{!Ed25519} `{!WireSerde}.

Lemma preflight_eq_apply config state record :
  preflight_ledger_transition config state record = (apply_ledger_record config record state).1.
Proof.
  unfold preflight_ledger_transition. symmetry.
  apply (respects_apply_ledger_record config (footprint record)); [apply footprint_covers|].
  apply shadow_sim.
Qed.
End preflight.

(** ** Inverting a successful computation *)

Lemma guard_or_Ok b e s u s' : guard_or b e s = (Ok u, s') ↔ b = false ∧ s' = s.
Proof. destruct b, u; cbn; split; [intros [=]; auto|by intros []|intros [=]; auto|by intros [_ ->]]. Qed.
Lemma check_Ok {A} (o : option A) e s a s' :
  check o e s = (Ok a, s') ↔ o = Some a ∧ s' = s.
Proof. destruct o; cbn; split; [intros [=]; subst; auto|by intros [[= ->] ->]|done|by intros []]. Qed.
Lemma lift_Ok {A} (r : result HomeError A) (s : HomeState) a s' :
  lift_result r s = (Ok a, s') ↔ r = Ok a ∧ s' = s.
Proof. unfold lift_result. split; [intros [=]; auto | by intros [-> ->]]. Qed.
Lemma gets_Ok {A} (f : HomeState → A) s a (s' : HomeState) :
  gets (E := HomeError) f s = (Ok a, s') ↔ a = f s ∧ s' = s.
Proof. unfold gets. split; [intros [=]; auto | by intros [-> ->]]. Qed.
Lemma modify_Ok (f : HomeState → HomeState) s u s' :
  modify (E := HomeError) f s = (Ok u, s') ↔ s' = f s.
Proof. destruct u. unfold modify. split; [by intros [=] | by intros ->]. Qed.
Lemma ret_Ok {A} (a b : A) s s' : (mret a : homeM A) s = (Ok b, s') ↔ b = a ∧ s' = s.
Proof. unfold mret, homeM_ret, stateR_ret. split; [intros [=]; auto | by intros [-> ->]]. Qed.

(** Runs the successful computation in [H] forward. *)
Ltac run_step H :=
  lazymatch type of H with
  | (_ ≫= _) _ = (Ok _, _) =>
      let a := fresh "a" in let s := fresh "s" in let H1 := fresh "H" in
      apply stateR_bind_Ok in H as (a & s & H1 & H); run_step H1; cbv beta in H
  | guard_or _ _ _ = _ => apply guard_or_Ok in H as [H ->]
  | check _ _ _ = _ => apply check_Ok in H as [H ->]
  | lift_result _ _ = _ => apply lift_Ok in H as [H ->]
  | gets _ _ = _ => apply gets_Ok in H as [-> ->]
  | modify _ _ = _ => apply modify_Ok in H as ->
  | mret _ _ = _ => first [apply ret_Ok in H as [-> ->] | apply ret_Ok in H as [_ ->]]
  | update_job _ _ _ = _ => apply modify_Ok in H as ->
  | _ => idtac
  end.
Ltac run H := repeat (progress run_step H).

(** ** Counting entries *)

Section counting.
  Context {K V : Type} `{!EqDecision K} `{!Countable K}.
  Context (P : K * V → Prop) `{!∀ x, Decision (P x)}.
  Implicit Types m : gmap K V.

Definition count_entries m : N := N.of_nat (size (filter P m)).
Definition one_if (k : K) (v : V) : N := if decide (P (k, v)) then 1 else 0.

Lemma count_empty : count_entries ∅ = 0.
Proof. unfold count_entries. by rewrite map_filter_empty, map_size_empty. Qed.

Lemma count_insert m k v :
  m !! k = None → count_entries (<[k := v]> m) = count_entries m + one_if k v.
Proof.
  intros Hk. unfold count_entries, one_if. rewrite map_filter_insert. case_decide.
  - rewrite map_size_insert_None; [lia|]. apply map_lookup_filter_None. auto.
  - rewrite delete_id by done. lia.
Qed.

Lemma count_replace m k w v :
  m !! k = Some w →
  count_entries (<[k := v]> m) + one_if k w = count_entries m + one_if k v.
Proof.
  intros Hk. rewrite <- (insert_delete_id m k w Hk) at 2.
  rewrite <- (insert_delete_eq m k v).
  rewrite !count_insert by apply lookup_delete_eq. lia.
Qed.
End counting.

(** ** Reachable states *)

Section invariants.
  Context `{!Sha256} `{!JsonText} `{!Ed25519} `{!WireSerde} (config : HomeConfig).

(** The states a Home can replay from a journal: [HomeState::new], then one
    [apply_ledger_record] per record. *)
Inductive reachable : HomeState → Prop :=
  | reachable_new custody : reachable (HomeState_new custody)
  | reachable_apply s record s' :
      reachable s → apply_ledger_record config record s = (Ok tt, s') → reachable s'.

Lemma apply_submitted_Ok event spec s s' :
  apply_submitted config event spec s = (Ok tt, s') →
  let e := sr_payload event in
  let job := jh_job (je_handle e) in
  let snapshot := mkJobSnapshotV1 spec SQueued (je_cancel_requested e) (je_home_epoch e)
                    (je_authority e) 1 None None None in
  je_sequence e = 1 ∧ je_state_after e = SQueued ∧ hs_jobs s !! job = None
  ∧ hs_nonterminal_jobs s + 1 ≤ usize_MAX
  ∧ s' = on_jobs (<[job := mkJobRecord snapshot [event]]>)
           (on_request_hashes (<[job := sp_request_hash spec]>)
             (on_nonterminal_jobs (fun _ => hs_nonterminal_jobs s + 1) s)).
Proof.
  intros R. unfold apply_submitted in R. run R.
  match goal with H : match sp_parent spec with _ => _ end _ = _ |- _ => rename H into Hp end.
  assert (s0 = s) as ->. { destruct (sp_parent spec); by run Hp. }
  repeat match goal with
  | H : _ || _ = false |- _ => apply orb_false_iff in H as [? ?]
  | H : bool_decide _ = false |- _ => apply bool_decide_eq_false in H
  | H : usize_checked_add _ _ = Some _ |- _ => apply usize_checked_add_Some in H as [<- ?]
  | H : ¬ (_ ≠ _) |- _ => apply dec_stable in H
  end.
  split_and!; try done. unfold job_snapshot in *.
  match goal with H : ¬ is_Some (jr_snapshot <$> ?o) |- _ => destruct o; [|done] end.
  exfalso. naive_solver.
Qed.

Lemma index_home_control_Ok key h s s' :
  index_home_control key h s = (Ok tt, s') →
  s' = s
  ∨ hs_controls s !! key = None
    ∧ default 0 (hs_control_counts s !! key.1) < MAX_JOB_CONTROLS
    ∧ s' = on_controls (<[key := h]>)
             (on_control_counts
                (<[key.1 := default 0 (hs_control_counts s !! key.1) + 1]>) s).
Proof.
  intros R. unfold index_home_control in R. run R.
  destruct (hs_controls s !! key) eqn:E; run R; [by left|right].
  match goal with H : bool_decide _ = false |- _ => apply bool_decide_eq_false in H end.
  split_and!; [done|lia|done].
Qed.

Lemma forward_control_Ok job_id key attempt s s' :
  forward_control config job_id key attempt s = (Ok tt, s') →
  s' = s ∧ is_Some (hs_forwarded_controls s !! key)
  ∨ hs_forwarded_controls s !! key = None
    ∧ hs_unacknowledged_forwarded_controls s + 1 ≤ usize_MAX
    ∧ s' = on_unacknowledged_forwarded_controls
             (fun _ => hs_unacknowledged_forwarded_controls s + 1)
             (on_forwarded_controls (<[key := mkForwardedControlRecord attempt None None]>) s).
Proof.
  intros R. unfold forward_control in R. run R.
  destruct (hs_forwarded_controls s !! key) eqn:E; run R; [by left; eauto|right].
  match goal with H : usize_checked_add _ _ = _ |- _ =>
    apply usize_checked_add_Some in H as [<- ?] end.
  by destruct s.
Qed.

(** *** The invariant *)

Definition open_job (kv : JobId * JobRecord) : Prop :=
  is_terminal (ss_state (jr_snapshot kv.2)) = false.
Definition unacknowledged (kv : string * string * ForwardedControlRecord) : Prop :=
  fw_acknowledged_receipt_hash kv.2 = None.

(** The controls and child spawns charged to a job. *)
Definition charged (job : JobId) (s : HomeState) : N :=
  count_entries (fun kv : string * string * string => kv.1.1 = job) (hs_controls s)
  + count_entries (fun kv : string * N * string * ChildSpawnRecord =>
                     event_job (cw_event kv.2) = job) (hs_child_spawns s).

Definition jobs_counted (s : HomeState) : Prop :=
  hs_nonterminal_jobs s = count_entries open_job (hs_jobs s).
Definition controls_counted (s : HomeState) : Prop :=
  ∀ job, default 0 (hs_control_counts s !! job) = charged job s ∧ charged job s ≤ MAX_JOB_CONTROLS.
Definition forwarded_counted (s : HomeState) : Prop :=
  hs_unacknowledged_forwarded_controls s = count_entries unacknowledged (hs_forwarded_controls s).
Definition observations_bounded (s : HomeState) : Prop :=
  ∀ key, default 0 (hs_observation_counts s !! key) ≤ MAX_ATTEMPT_OBSERVATIONS.

(** The events of a job, the state they lead to and the last sequence number. *)
Inductive history (job : JobId) :
    list (SignedRecordV1 JobEventV1) → JobStateV1 → N → Prop :=
  | history_submitted event spec :
      event_job event = job → je_kind (sr_payload event) = KSubmitted spec →
      je_sequence (sr_payload event) = 1 → je_state_after (sr_payload event) = SQueued →
      history job [event] SQueued 1
  | history_next events from sequence event :
      history job events from sequence →
      event_job event = job →
      je_sequence (sr_payload event) = u64_add sequence 1 →
      transition_allowed from (je_state_after (sr_payload event)) = true
      ∨ is_late_receipt (je_kind (sr_payload event)) = true
        ∧ je_state_after (sr_payload event) = from →
      history job (events ++ [event]) (je_state_after (sr_payload event))
        (je_sequence (sr_payload event)).

Definition jobs_recorded (s : HomeState) : Prop :=
  ∀ job r, hs_jobs s !! job = Some r →
    history job (jr_events r) (ss_state (jr_snapshot r)) (ss_last_sequence (jr_snapshot r)).

Lemma index_home_control_counted key h s s' :
  index_home_control key h s = (Ok tt, s') → controls_counted s → controls_counted s'.
Proof.
  intros [->|(Hn & Hlt & ->)]%index_home_control_Ok Hc; [done|].
  intros job. specialize (Hc job) as [Hc Hm]. unfold charged in *. cbn.
  rewrite count_insert by done. unfold one_if. cbn.
  destruct (decide (key.1 = job)) as [<-|Hj]; simplify_map_eq; cbn in *; unfold JobId in *; lia.
Qed.

Lemma spawn_counted job key spawn s :
  controls_counted s → hs_child_spawns s !! key = None → event_job (cw_event spawn) = job →
  default 0 (hs_control_counts s !! job) < MAX_JOB_CONTROLS →
  controls_counted
    (on_control_counts (<[job := default 0 (hs_control_counts s !! job) + 1]>)
       (on_child_spawns (<[key := spawn]>) s)).
Proof.
  intros Hc Hn He Hlt job'. specialize (Hc job') as [Hc Hm]. unfold charged in *. cbn.
  rewrite count_insert by done. unfold one_if. cbn. rewrite He.
  destruct (decide (job = job')) as [<-|Hj]; simplify_map_eq; cbn in *; unfold JobId in *; lia.
Qed.

Lemma forward_control_counted job_id key attempt s s' :
  forward_control config job_id key attempt s = (Ok tt, s') →
  forwarded_counted s → forwarded_counted s'.
Proof.
  intros [[-> _]|(Hn & _ & ->)]%forward_control_Ok Hc; [done|].
  unfold forwarded_counted in *. cbn. rewrite count_insert by done. rewrite Hc.
  unfold one_if, unacknowledged. cbn. by case_decide.
Qed.

(** *** One event *)

(** The specification of a job but for its access list, which controls update. *)
Definition pins (p : JobSpecV1) : JobSpecV1 :=
  mkJobSpecV1 (sp_handle p) (sp_root p) (sp_caller_idempotency_key p) (sp_request_hash p)
    (sp_function p) (sp_deployment p) (sp_input p) (sp_delivery p)
    (sp_allow_duplicate_effects p) (sp_parent p) (sp_causal p) (mkJobAccessV1 [] [])
    (sp_evidence p) (sp_result_recipients p) (sp_accepted_at_unix_ms p).

(** An update of a snapshot that leaves its progress and its pins alone. *)
Record keeps_progress (sn sn' : JobSnapshotV1) : Prop := {
  kp_state : ss_state sn' = ss_state sn;
  kp_last : ss_last_sequence sn' = ss_last_sequence sn;
  kp_cancel : ss_cancel_requested sn' = ss_cancel_requested sn;
  kp_pins : pins (ss_spec sn') = pins (ss_spec sn)
}.

Definition keeps_state (g : JobSnapshotV1 → JobSnapshotV1) : Prop :=
  ∀ sn, keeps_progress sn (g sn).
Definition keeps_attempt (g : JobSnapshotV1 → JobSnapshotV1) : Prop :=
  ∀ sn, ss_current_attempt (g sn) = ss_current_attempt sn.

Lemma keeps_progress_trans a b c :
  keeps_progress a b → keeps_progress b c → keeps_progress a c.
Proof. intros [] []. constructor; congruence. Qed.

(** The parts of the state only grants and receipts change. *)
Definition execution_part (s : HomeState) :=
  (hs_grants s, hs_receipts s, hs_highest_receipt_sequences s, hs_next_grant_sequence s,
   hs_request_hashes s).

(** What the second [match] of [apply_job_event] can do. *)
Record kind_effect (job : JobId) (s s' : HomeState) : Prop := {
  ke_jobs : ∃ g, keeps_state g ∧ keeps_attempt g
                 ∧ hs_jobs s' = alter (on_snapshot g) job (hs_jobs s);
  ke_execution : execution_part s' = execution_part s;
  ke_nonterminal : hs_nonterminal_jobs s' = hs_nonterminal_jobs s;
  ke_observations : hs_observation_counts s' = hs_observation_counts s;
  ke_controls : controls_counted s → controls_counted s';
  ke_forwarded : forwarded_counted s → forwarded_counted s'
}.

Lemma kind_effect_refl job s : kind_effect job s s.
Proof.
  constructor; auto. exists id. split_and!; [by constructor|done|]. symmetry. apply map_eq. intros k.
  rewrite lookup_alter. case_decide; [|done].
  subst job. by destruct (hs_jobs s !! k) as [[]|].
Qed.

Lemma kind_effect_trans job s t u :
  kind_effect job s t → kind_effect job t u → kind_effect job s u.
Proof.
  intros [(g & Hg & Ha & Ej) E0 E1 E2 E3 E4] [(g' & Hg' & Ha' & Ej') ? ? ? ? ?].
  constructor; [|congruence|congruence|congruence|auto|auto].
  exists (g' ∘ g). split_and!.
  { intros sn. by eapply keeps_progress_trans. }
  { intros sn. cbn. by rewrite Ha', Ha. }
  rewrite Ej', Ej. apply map_eq. intros k. rewrite !lookup_alter. case_decide; [|done].
  rewrite decide_True by done. by destruct (hs_jobs s !! job) as [[]|].
Qed.

Lemma update_job_effect job g s :
  keeps_state g → keeps_attempt g →
  kind_effect job s (on_jobs (alter (on_snapshot g) job) s).
Proof. intros Hg Ha. constructor; auto. by exists g. Qed.

Lemma index_effect job key h s s' :
  index_home_control key h s = (Ok tt, s') → kind_effect job s s'.
Proof.
  intros R. pose proof (index_home_control_counted _ _ _ _ R) as Hc.
  destruct (kind_effect_refl job s).
  apply index_home_control_Ok in R as [->|(? & ? & ->)]; constructor; auto.
Qed.

Lemma forward_effect job job_id key attempt s s' :
  forward_control config job_id key attempt s = (Ok tt, s') → kind_effect job s s'.
Proof.
  intros R. pose proof (forward_control_counted _ _ _ _ _ R) as Hc.
  destruct (kind_effect_refl job s).
  apply forward_control_Ok in R as [[-> ?]|(? & ? & ->)]; constructor; auto.
Qed.

Lemma spawn_effect job key spawn s :
  hs_child_spawns s !! key = None → event_job (cw_event spawn) = job →
  default 0 (hs_control_counts s !! job) < MAX_JOB_CONTROLS →
  kind_effect job s
    (on_control_counts (<[job := default 0 (hs_control_counts s !! job) + 1]>)
       (on_child_spawns (<[key := spawn]>) s)).
Proof.
  intros Hn He Hlt. destruct (kind_effect_refl job s). constructor; auto.
  intros Hc. by apply spawn_counted.
Qed.

Lemma apply_event_kind_effect event snapshot s s' :
  apply_event_kind config event snapshot s = (Ok tt, s') → kind_effect (event_job event) s s'.
Proof.
  intros R. unfold apply_event_kind in R.
  destruct (je_kind (sr_payload event)) eqn:E; run R;
    try apply kind_effect_refl; try (apply update_job_effect; by intros [[]]).
  - destruct attempt; run R; destruct a0; [eapply kind_effect_trans|];
      eauto using index_effect, forward_effect.
  - eapply kind_effect_trans; [|by eapply index_effect].
    apply update_job_effect; by intros [[]].
  - destruct (hs_child_spawns s !! _) eqn:En; run R; [apply kind_effect_refl|].
    match goal with H : bool_decide (_ ≤ _) = false |- _ => apply bool_decide_eq_false in H end.
    apply spawn_effect; [done|done|]. unfold JobId, event_job in *. lia.
Qed.

(** The control reservation an event adds. *)
Definition forwards (event : SignedRecordV1 JobEventV1) (s : HomeState) : N :=
  match je_kind (sr_payload event) with
  | KControlRequested request (Some _) =>
      match hs_forwarded_controls s !! (event_job event, jc_control (sr_payload request)) with
      | Some _ => 0
      | None => 1
      end
  | _ => 0
  end.

Definition forwarded_kept (s s' : HomeState) : Prop :=
  ∀ key, hs_forwarded_controls s' !! key = None → hs_forwarded_controls s !! key = None.

Lemma index_forwarded key h s s' :
  index_home_control key h s = (Ok tt, s') →
  hs_forwarded_controls s' = hs_forwarded_controls s
  ∧ hs_unacknowledged_forwarded_controls s' = hs_unacknowledged_forwarded_controls s.
Proof. by intros [->|(_ & _ & ->)]%index_home_control_Ok. Qed.

Lemma apply_event_kind_forwards event snapshot s s' :
  apply_event_kind config event snapshot s = (Ok tt, s') →
  hs_unacknowledged_forwarded_controls s'
  = hs_unacknowledged_forwarded_controls s + forwards event s
  ∧ forwarded_kept s s'.
Proof.
  intros R. unfold apply_event_kind in R. unfold forwards, forwarded_kept.
  destruct (je_kind (sr_payload event)) eqn:E; run R; try (cbn; split; [lia | done]).
  - match goal with H : index_home_control _ _ _ = (Ok ?u, _) |- _ =>
      destruct u; apply index_forwarded in H as [Hf Hu] end.
    destruct attempt; run R; [|rewrite Hf, Hu; split; [lia | done]].
    unfold event_job. apply forward_control_Ok in R as [[-> [x Hx]]|(Hn & _ & ->)]; cbn.
    + rewrite Hf in Hx. unfold JobId, ControlId in *. rewrite Hx, Hf, Hu. split; [lia | done].
    + rewrite Hf in *. unfold JobId, ControlId in *. rewrite Hn, Hu. split; [lia|]. intros key.
      rewrite lookup_insert. by case_decide.
  - apply index_forwarded in R as [-> ->]. cbn. split; [lia | done].
  - destruct (hs_child_spawns s !! _); run R; cbn; split; (lia || done).
Qed.

Lemma alter_present {K V} `{!EqDecision K} `{!Countable K} (f : V → V) (m : gmap K V) k v :
  m !! k = Some v → alter f k m = <[k := f v]> m.
Proof.
  intros Hk. apply map_eq. intros k'. rewrite lookup_alter, lookup_insert.
  case_decide; [by rewrite Hk | done].
Qed.

Definition was_open (r : JobRecord) : bool := negb (is_terminal (ss_state (jr_snapshot r))).

(** What an event other than [Submitted] does to its job. *)
Record event_effect (event : SignedRecordV1 JobEventV1) (r r' : JobRecord) (s s' : HomeState) :
    Prop := {
  ee_before : hs_jobs s !! event_job event = Some r;
  ee_after : hs_jobs s' = <[event_job event := r']> (hs_jobs s);
  ee_events : jr_events r' = jr_events r ++ [event];
  ee_state : ss_state (jr_snapshot r') = je_state_after (sr_payload event);
  ee_last : ss_last_sequence (jr_snapshot r') = je_sequence (sr_payload event);
  ee_sequence : je_sequence (sr_payload event) = u64_add (ss_last_sequence (jr_snapshot r)) 1;
  ee_cancel : ss_cancel_requested (jr_snapshot r') = je_cancel_requested (sr_payload event);
  ee_pins : pins (ss_spec (jr_snapshot r')) = pins (ss_spec (jr_snapshot r));
  ee_attempt : ss_current_attempt (jr_snapshot r')
               = match current_attempt_of (je_kind (sr_payload event)) with
                 | Some attempt => Some attempt
                 | None => ss_current_attempt (jr_snapshot r)
                 end;
  ee_execution : execution_part s' = execution_part s;
  ee_allowed :
    transition_allowed (ss_state (jr_snapshot r)) (je_state_after (sr_payload event)) = true
    ∨ is_late_receipt (je_kind (sr_payload event)) = true
      ∧ je_state_after (sr_payload event) = ss_state (jr_snapshot r);
  ee_nonterminal :
    hs_nonterminal_jobs s
    = hs_nonterminal_jobs s'
      + (if was_open r && is_terminal (je_state_after (sr_payload event)) then 1 else 0);
  ee_observations : hs_observation_counts s' = hs_observation_counts s;
  ee_controls : controls_counted s → controls_counted s';
  ee_forwarded : forwarded_counted s → forwarded_counted s';
  ee_forwards : hs_unacknowledged_forwarded_controls s'
                = hs_unacknowledged_forwarded_controls s + forwards event s;
  ee_kept : forwarded_kept s s'
}.

(** The snapshot before the second [match] of [apply_job_event]. *)
Definition advanced (event : SignedRecordV1 JobEventV1) (sn : JobSnapshotV1) : JobSnapshotV1 :=
  match current_attempt_of (je_kind (sr_payload event)) with
  | Some attempt => set_current_attempt attempt (advance_snapshot (sr_payload event) sn)
  | None => advance_snapshot (sr_payload event) sn
  end.

(** From the checked snapshot to the stored event. *)
Lemma event_body_effect event r (jobs : gmap JobId JobRecord) s2 s3 :
  let job := event_job event in
  hs_jobs s2 = <[job := on_snapshot (advanced event) r]> jobs → kind_effect job s2 s3 →
  ∃ r', hs_jobs (on_jobs (alter (fun r => mkJobRecord (jr_snapshot r) (jr_events r ++ [event]))
                            job) s3)
        = <[job := r']> jobs
    ∧ jr_events r' = jr_events r ++ [event]
    ∧ keeps_progress (advanced event (jr_snapshot r)) (jr_snapshot r')
    ∧ ss_current_attempt (jr_snapshot r') = ss_current_attempt (advanced event (jr_snapshot r)).
Proof.
  intros job Hs2 [(g & Hg & Ha & Ej) _ _ _ _ _]. rewrite Hs2 in Ej.
  erewrite alter_present, insert_insert_eq in Ej by apply lookup_insert_eq.
  cbn. rewrite Ej. erewrite alter_present, insert_insert_eq by apply lookup_insert_eq.
  eexists. split; [reflexivity|]. cbn. auto.
Qed.

Lemma advanced_progress event sn :
  ss_state (advanced event sn) = je_state_after (sr_payload event)
  ∧ ss_last_sequence (advanced event sn) = je_sequence (sr_payload event)
  ∧ ss_cancel_requested (advanced event sn) = je_cancel_requested (sr_payload event)
  ∧ ss_spec (advanced event sn) = ss_spec sn
  ∧ ss_current_attempt (advanced event sn)
    = match current_attempt_of (je_kind (sr_payload event)) with
      | Some attempt => Some attempt
      | None => ss_current_attempt sn
      end.
Proof. unfold advanced. by destruct (current_attempt_of _). Qed.

Lemma promote_effect event r s u s2 :
  hs_jobs s !! event_job event = Some r →
  match current_attempt_of (je_kind (sr_payload event)) with
  | Some attempt => update_job (event_job event) (on_snapshot (set_current_attempt attempt))
  | None => mret tt
  end (on_jobs (alter (on_snapshot (advance_snapshot (sr_payload event))) (event_job event)) s)
  = (Ok u, s2) →
  hs_jobs s2 = <[event_job event := on_snapshot (advanced event) r]> (hs_jobs s)
  ∧ execution_part s2 = execution_part s
  ∧ hs_nonterminal_jobs s2 = hs_nonterminal_jobs s
  ∧ hs_observation_counts s2 = hs_observation_counts s
  ∧ (controls_counted s → controls_counted s2) ∧ (forwarded_counted s → forwarded_counted s2)
  ∧ hs_forwarded_controls s2 = hs_forwarded_controls s
  ∧ hs_unacknowledged_forwarded_controls s2 = hs_unacknowledged_forwarded_controls s.
Proof.
  intros Hr R. unfold on_snapshot, advanced. destruct (current_attempt_of _); run R;
    split_and!; try done; cbn; rewrite (alter_present _ _ _ _ Hr); [|done].
  by erewrite alter_present, insert_insert_eq by apply lookup_insert_eq.
Qed.

Definition is_submitted (k : JobEventKindV1) : bool :=
  match k with KSubmitted _ => true | _ => false end.

Lemma transition_guard from to (late : bool) :
  negb (bool_decide (from = to) && late) && negb (transition_allowed from to) = false →
  transition_allowed from to = true ∨ late = true ∧ to = from.
Proof.
  destruct (transition_allowed from to); [by left|right].
  match goal with H : _ = false |- _ =>
    rewrite andb_true_r, negb_false_iff, andb_true_iff, bool_decide_eq_true in H;
    by destruct H as [-> ?] end.
Qed.

Lemma advance_job_effect event s s' :
  advance_job config event s = (Ok tt, s') → ∃ r r', event_effect event r r' s s'.
Proof.
  intros R. unfold advance_job in R. run R.
  fold (event_job event) in *. unfold job_snapshot in *.
  match goal with H : _ <$> _ = Some a |- _ => apply fmap_Some in H as (r & Hr & ->) end.
  match goal with H : apply_event_kind _ _ _ _ = (Ok ?u, _) |- _ =>
    destruct u; pose proof (apply_event_kind_forwards _ _ _ _ H) as [Hf Hkept];
    apply apply_event_kind_effect in H; rename H into Hk end.
  match goal with H : match current_attempt_of _ with _ => _ end _ = (_, _) |- _ =>
    pose proof (promote_effect _ _ _ _ _ Hr H) as Hc; clear H end.
  destruct Hc as (Hj & X0 & X1 & X2 & X3 & X4 & Hc1 & Hc2). unfold forwards, forwarded_kept in Hf, Hkept.
  rewrite Hc1 in Hf, Hkept. rewrite Hc2 in Hf. cbn in Hf, Hkept.
  destruct (event_body_effect event r (hs_jobs s) _ _ Hj Hk) as (r' & Ej & Ev & [Est Esq Ecn Epn] & Eat).
  destruct (advanced_progress event (jr_snapshot r)) as (Y1 & Y2 & Y3 & Y4 & Y5).
  rewrite Y1 in Est. rewrite Y2 in Esq. rewrite Y3 in Ecn. rewrite Y4 in Epn. rewrite Y5 in Eat.
  destruct Hk as [_ E0 E1 E2 E3 E4]. exists r, r'. fold (was_open r) in R.
  match goal with H : _ && negb (transition_allowed _ _) = false |- _ => rename H into Hallow end.
  apply transition_guard in Hallow.
  repeat match goal with
  | H : bool_decide (_ ≠ _) = false |- _ => apply bool_decide_eq_false, dec_stable in H
  end.
  destruct (was_open r && is_terminal _) eqn:Eo; run R;
    repeat match goal with H : usize_checked_sub _ _ = Some _ |- _ =>
      apply usize_checked_sub_Some in H as [? <-] end;
    cbn in *; constructor; cbn; rewrite ?Eo; try done; first [lia | congruence | by auto | etrans; [exact E0 | exact X0]].
Qed.

Record ledger_inv (s : HomeState) : Prop := {
  li_jobs : jobs_counted s;
  li_controls : controls_counted s;
  li_forwarded : forwarded_counted s;
  li_observations : observations_bounded s;
  li_recorded : jobs_recorded s
}.

Lemma one_if_open job r : one_if open_job job r = if was_open r then 1 else 0.
Proof.
  unfold one_if, open_job, was_open. cbn. by destruct (is_terminal _); case_decide.
Qed.

Lemma terminal_absorbing from to :
  is_terminal from = true → transition_allowed from to = false.
Proof. by destruct from. Qed.

Lemma event_effect_inv event r r' s s' :
  event_effect event r r' s s' → ledger_inv s → ledger_inv s'.
Proof.
  intros [Hr Hr' Hev Hst Hl Hs _ _ _ _ Ha Hn Ho Hc Hf _ _] [Ij Ic If Io Ir].
  constructor; [|auto|auto|unfold observations_bounded; by rewrite Ho|].
  - unfold jobs_counted in *. rewrite Hr'.
    pose proof (count_replace open_job (hs_jobs s) _ r r' Hr) as Hcount.
    rewrite !one_if_open, <- Ij, Hn in Hcount. unfold was_open in *. rewrite Hst in Hcount.
    destruct Ha as [Ha|[_ Ha]]; [|rewrite Ha in Hcount];
      destruct (is_terminal (ss_state (jr_snapshot r))) eqn:Et; cbn in *.
    + by rewrite terminal_absorbing in Ha.
    + destruct (is_terminal (je_state_after (sr_payload event))); cbn in *; lia.
    + lia.
    + rewrite Ha, Et in *. lia.
  - intros job x. rewrite Hr', lookup_insert. case_decide as E; [|by apply Ir].
    intros [= <-]. subst job. rewrite Hev, Hst, Hl. by eapply history_next; [apply Ir|..].
Qed.

Lemma apply_job_event_cases event s s' :
  apply_job_event config event s = (Ok tt, s') →
  (∃ spec, je_kind (sr_payload event) = KSubmitted spec
           ∧ apply_submitted config event spec s = (Ok tt, s'))
  ∨ (∃ r r', is_submitted (je_kind (sr_payload event)) = false ∧ event_effect event r r' s s').
Proof.
  intros R. unfold apply_job_event in R. run R.
  destruct (je_kind (sr_payload event)); try (left; by eauto);
    right; destruct (advance_job_effect _ _ _ R) as (r & r' & He); by exists r, r'.
Qed.

Lemma apply_job_event_inv event s s' :
  apply_job_event config event s = (Ok tt, s') → ledger_inv s → ledger_inv s'.
Proof.
  intros [(spec & Hk & R)|(r & r' & _ & He)]%apply_job_event_cases I;
    [|by eapply event_effect_inv].
  apply apply_submitted_Ok in R as (Hseq & Hst & Hnew & _ & ->).
  destruct I as [Ij Ic If Io Ir]. constructor; try done.
  - unfold jobs_counted. cbn. rewrite count_insert, one_if_open by done. cbn. by rewrite <- Ij.
  - intros job x. cbn. rewrite lookup_insert. case_decide as E; [|by apply Ir].
    intros [= <-]. cbn. by apply (history_submitted _ _ spec).
Qed.

(** *** Receipts and grants *)

(** The control reservation a receipt releases. *)
Definition acknowledges (receipt : SignedRecordV1 ExecutionReceiptV1) (s : HomeState) : N :=
  let r := sr_payload receipt in
  match ex_stage r with
  | XControlAcknowledged control _ _ =>
      match hs_forwarded_controls s !! (at_job (ex_attempt r), control) with
      | Some retained =>
          match fw_acknowledged_receipt_hash retained with None => 1 | Some _ => 0 end
      | None => 0
      end
  | _ => 0
  end.

(** What a receipt or a grant can do to the counted parts of the state. *)
Record ledger_frame (released : N) (s s' : HomeState) : Prop := {
  lf_jobs : hs_jobs s' = hs_jobs s;
  lf_nonterminal : hs_nonterminal_jobs s' = hs_nonterminal_jobs s;
  lf_controls : controls_counted s → controls_counted s';
  lf_forwarded : forwarded_counted s → forwarded_counted s';
  lf_observations : observations_bounded s → observations_bounded s';
  lf_released : hs_unacknowledged_forwarded_controls s
                = hs_unacknowledged_forwarded_controls s' + released;
  lf_kept : forwarded_kept s s'
}.

Lemma ledger_frame_inv n s s' : ledger_frame n s s' → ledger_inv s → ledger_inv s'.
Proof.
  intros [Ej En Hc Hf Ho _ _] [Ij Ic If Io Ir].
  constructor; unfold jobs_counted, jobs_recorded; rewrite ?Ej, ?En; auto.
Qed.

Lemma ledger_frame_trans n m s t u :
  ledger_frame n s t → ledger_frame m t u → ledger_frame (n + m) s u.
Proof.
  intros [] []. constructor; try congruence; auto; [lia|].
  intros key Hk. auto.
Qed.

Lemma apply_grant_frame grant s s' :
  apply_grant config grant s = (Ok tt, s') →
  ledger_frame 0 s s' ∧ hs_forwarded_controls s' = hs_forwarded_controls s.
Proof.
  intros R. unfold apply_grant, insert_grant in R. run R.
  match goal with H : match ?o with _ => _ end _ = _ |- _ => destruct o; run H end;
    (split; [constructor; cbn; auto; try lia; by intros key | done]).
Qed.

Lemma retain_frame key a b n u s :
  hs_forwarded_controls s !! key = Some a →
  hs_unacknowledged_forwarded_controls s = u + n →
  one_if unacknowledged key a = one_if unacknowledged key b + n →
  ledger_frame n s
    (on_unacknowledged_forwarded_controls (fun _ => u)
       (on_forwarded_controls (<[key := b]>) s)).
Proof.
  intros Hk Hu Hone. constructor; cbn; auto.
  - unfold forwarded_counted. cbn. intros Hf.
    pose proof (count_replace unacknowledged _ key a b Hk). lia.
  - intros key'. cbn. rewrite lookup_insert. by case_decide.
Qed.

Lemma ledger_frame_refl s : ledger_frame 0 s s.
Proof. constructor; auto; [lia | by intros key]. Qed.

Lemma index_receipt_frame receipt h s s' :
  index_home_control_receipt receipt h s = (Ok tt, s') →
  ledger_frame (acknowledges receipt s) s s'
  ∧ hs_observation_counts s' = hs_observation_counts s.
Proof.
  intros R. unfold index_home_control_receipt in R. unfold acknowledges.
  destruct (ex_stage (sr_payload receipt)) eqn:E; cbn in R; run R;
    try (split; [apply ledger_frame_refl | done]).
  - destruct (fw_queued_receipt_hash a); run R; [by split; [apply ledger_frame_refl|]|].
    split; [|done].
    apply (retain_frame _ a (mkForwardedControlRecord _ _ _) 0
             (hs_unacknowledged_forwarded_controls s)); [done|lia|].
    unfold one_if, unacknowledged. cbn. lia.
  - match goal with H : hs_forwarded_controls s !! _ = Some a |- _ => rename H into Hk end.
    unfold ControlId, JobId in *. rewrite Hk.
    destruct (fw_acknowledged_receipt_hash a) eqn:Ea; run R;
      [by split; [apply ledger_frame_refl|]|].
    match goal with H : usize_checked_sub _ _ = _ |- _ =>
      apply usize_checked_sub_Some in H as [Hle <-] end.
    cbn in Hle |- *. split; [|done]. apply (retain_frame _ a); [done|lia|].
    unfold one_if, unacknowledged. cbn. rewrite Ea. by repeat case_decide.
Qed.

Lemma check_stage_Ok key stage s u s' : check_stage_sequence key stage s = (Ok u, s') → s' = s.
Proof. intros R. unfold check_stage_sequence in R. destruct stage; by run R. Qed.

Lemma raise_stage_frame key stage s u s' :
  raise_stage_sequence key stage s = (Ok u, s') →
  ledger_frame 0 s s' ∧ hs_observation_counts s' = hs_observation_counts s.
Proof.
  intros R. unfold raise_stage_sequence in R. destruct (ledger_frame_refl s).
  destruct stage; run R; (split; [constructor; auto | done]).
Qed.

Lemma observe_frame key s :
  default 0 (hs_observation_counts s !! key) < MAX_ATTEMPT_OBSERVATIONS →
  ledger_frame 0 s
    (on_observation_counts (<[key := default 0 (hs_observation_counts s !! key) + 1]>) s).
Proof.
  intros Hlt. destruct (ledger_frame_refl s). constructor; auto.
  intros Ho key'. cbn. rewrite lookup_insert. case_decide; [cbn; lia | apply Ho].
Qed.

Lemma apply_receipt_frame receipt s s' :
  apply_receipt receipt s = (Ok tt, s') → ledger_frame (acknowledges receipt s) s s'.
Proof.
  intros R. unfold apply_receipt in R. run R.
  match goal with H : (if ?b then mret tt else _) s = (_, ?t) |- _ =>
    assert (t = s) as -> by (destruct b; [by run H | by eapply check_stage_Ok]); clear H end.
  match goal with H : index_home_control_receipt _ _ _ = (Ok ?u, _) |- _ =>
    destruct u; apply index_receipt_frame in H as [Hx Ox] end.
  match goal with H : raise_stage_sequence _ _ _ = (Ok ?u, _) |- _ =>
    apply raise_stage_frame in H as [Hy Oy] end.
  cbn in Oy. rewrite Ox in Oy.
  rewrite <- (N.add_0_r (acknowledges receipt s)).
  eapply ledger_frame_trans; [exact Hx|]. rewrite <- (N.add_0_r 0).
  eapply ledger_frame_trans; [|clear Hx].
  { destruct Hy. by constructor. }
  destruct (is_observation _); run R; [|apply ledger_frame_refl].
  apply observe_frame. rewrite Oy.
  match goal with H : true && _ = false |- _ =>
    rewrite andb_true_l in H; apply bool_decide_eq_false in H; lia end.
Qed.

Definition acknowledged_by (record : HomeLedgerRecord) (s : HomeState) : N :=
  match lr_receipt record with Some receipt => acknowledges receipt s | None => 0 end.

(** The grant and the receipt of a record, before its events. *)
Lemma apply_ledger_record_cases record s s' :
  apply_ledger_record config record s = (Ok tt, s') →
  ∃ t, ledger_frame (acknowledged_by record s) s t
     ∧ apply_events config (lr_events record) t = (Ok tt, s').
Proof.
  intros R. unfold apply_ledger_record, when_some in R. run R.
  match goal with H : match lr_grant record with _ => _ end s = (Ok ?u, ?t) |- _ =>
    rename t into s0; destruct u; assert (Hg : ledger_frame 0 s s0
      ∧ hs_forwarded_controls s0 = hs_forwarded_controls s);
    [ destruct (lr_grant record); [by eapply apply_grant_frame | run H];
      by split; [apply ledger_frame_refl|] | clear H ] end.
  destruct Hg as [Hg Ef].
  eexists. split; [|exact R]. rewrite <- (N.add_0_l (acknowledged_by record s)).
  eapply ledger_frame_trans; [exact Hg|]. unfold acknowledged_by.
  match goal with H : match lr_receipt record with _ => _ end _ = (Ok ?u, _) |- _ =>
    destruct u, (lr_receipt record); [apply apply_receipt_frame in H | run H] end;
    [|apply ledger_frame_refl].
  unfold acknowledges in *. by rewrite <- Ef.
Qed.

Lemma apply_events_inv events s s' :
  apply_events config events s = (Ok tt, s') → ledger_inv s → ledger_inv s'.
Proof.
  revert s. induction events as [|event events IH]; intros s R; cbn in R; run R; [done|].
  match goal with H : apply_job_event _ _ _ = (Ok ?u, _) |- _ => destruct u;
    pose proof (apply_job_event_inv _ _ _ H) end.
  eauto.
Qed.

Lemma apply_ledger_record_inv record s s' :
  apply_ledger_record config record s = (Ok tt, s') → ledger_inv s → ledger_inv s'.
Proof.
  intros (t & Hf & R)%apply_ledger_record_cases I.
  eapply apply_events_inv; [exact R|]. by eapply ledger_frame_inv.
Qed.

Lemma ledger_inv_new custody : ledger_inv (HomeState_new custody).
Proof.
  constructor; [done| |done| |].
  - intros job. unfold charged. cbn. rewrite !count_empty. split; [done | apply N.le_0_l].
  - intros key. cbn. rewrite lookup_empty. apply N.le_0_l.
  - by intros job r [=].
Qed.

Lemma reachable_inv s : reachable s → ledger_inv s.
Proof.
  induction 1; [apply ledger_inv_new|]. by eapply apply_ledger_record_inv.
Qed.

(** *** Reservations *)

(** The jobs that the events of a record finish. *)
Definition finished_jobs (events : list (SignedRecordV1 JobEventV1)) : list JobId :=
  map event_job
    (List.filter (fun event => is_terminal (je_state_after (sr_payload event))) events).

Definition open_in (job : JobId) (s : HomeState) : bool :=
  match hs_jobs s !! job with Some r => was_open r | None => false end.

Lemma jobs_after_Ok state event jobs jobs' :
  jobs_after state event jobs = Ok jobs' →
  jobs + (if is_submitted (je_kind (sr_payload event)) then 1 else 0)
  = jobs' + (if is_terminal (je_state_after (sr_payload event))
                && open_in (event_job event) state then 1 else 0).
Proof.
  unfold jobs_after, open_in, event_job, job_snapshot, was_open. intros H'.
  apply bind_Ok in H' as (j & Hj & H').
  assert (Hj' : jobs + (if is_submitted (je_kind (sr_payload event)) then 1 else 0) = j).
  { destruct (je_kind (sr_payload event)); cbn; simplify_eq; try lia.
    destruct (usize_checked_add jobs 1) eqn:E; simplify_eq/=.
    by apply usize_checked_add_Some in E as [<- _]. }
  rewrite Hj'. destruct (hs_jobs state !! _); cbn in *; [|rewrite andb_false_r in *; simplify_eq; lia].
  destruct (is_terminal _ && _); simplify_eq; [|lia].
  destruct (usize_checked_sub _ 1) eqn:E; simplify_eq/=.
  apply usize_checked_sub_Some in E as [? <-]. lia.
Qed.

Lemma controls_after_Ok state event controls controls' :
  controls_after state event controls = Ok controls' →
  controls' = controls + forwards event state.
Proof.
  unfold controls_after, forwards, event_job. intros H'.
  destruct (je_kind (sr_payload event)); simplify_eq; try lia.
  destruct attempt; simplify_eq; [|lia].
  destruct (hs_forwarded_controls state !! _); simplify_eq; [lia|].
  destruct (usize_checked_add controls 1) eqn:E; simplify_eq/=.
  by apply usize_checked_add_Some in E as [<- _].
Qed.

(** One event changes the real counters by at most what the estimate counts,
    when the job it finishes is still open. *)
Lemma event_reserved state event s s' :
  apply_job_event config event s = (Ok tt, s') →
  forwarded_kept state s →
  (is_terminal (je_state_after (sr_payload event)) = true →
   open_in (event_job event) state = true → open_in (event_job event) s = true) →
  hs_nonterminal_jobs s' + (if is_terminal (je_state_after (sr_payload event))
                               && open_in (event_job event) state then 1 else 0)
  ≤ hs_nonterminal_jobs s + (if is_submitted (je_kind (sr_payload event)) then 1 else 0)
  ∧ hs_unacknowledged_forwarded_controls s'
    ≤ hs_unacknowledged_forwarded_controls s + forwards event state
  ∧ forwarded_kept state s'
  ∧ ∀ job, (is_terminal (je_state_after (sr_payload event)) = true → job ≠ event_job event) →
      open_in job s = true → open_in job s' = true.
Proof.
  intros [(spec & Hk & R)|(r & r' & Hk & He)]%apply_job_event_cases Hkept Hopen; rewrite Hk.
  - apply apply_submitted_Ok in R as (_ & Hst & Hnew & _ & ->). rewrite Hst in *. cbn.
    split_and!; [lia|lia|done|]. intros job _. unfold open_in. cbn. rewrite lookup_insert.
    by case_decide.
  - destruct He as [Hr Hr' _ Hst _ _ _ _ _ _ Ha Hn _ _ _ Hf Hkept'].
    assert (forwards event s ≤ forwards event state).
    { unfold forwards. destruct (je_kind (sr_payload event)); try lia.
      destruct attempt; [|lia]. destruct (hs_forwarded_controls s !! _) eqn:E; [lia|].
      apply Hkept in E. unfold ControlId, JobId in *. by rewrite E. }
    split_and!; [|lia|by intros key ?; apply Hkept, Hkept'|].
    + rewrite Hn. unfold open_in in Hopen at 2. rewrite Hr in Hopen.
      destruct (is_terminal _), (open_in _ state), (was_open r) eqn:Eo; cbn; (lia || by specialize (Hopen eq_refl eq_refl)).
    + intros job Hj. unfold open_in. rewrite Hr', lookup_insert. case_decide as E; [|done].
      subst job. intros Ho. unfold was_open. rewrite Hst.
      destruct (is_terminal _); [by destruct Hj | done].
Qed.

Lemma events_reserved state events s s' n jobs controls jobs' controls' :
  apply_events config events s = (Ok tt, s') →
  events_after state events jobs controls = Ok (jobs', controls') →
  hs_nonterminal_jobs s ≤ jobs → hs_unacknowledged_forwarded_controls s + n ≤ controls →
  forwarded_kept state s → NoDup (finished_jobs events) →
  (∀ job, job ∈ finished_jobs events → open_in job state = true → open_in job s = true) →
  hs_nonterminal_jobs s' ≤ jobs' ∧ hs_unacknowledged_forwarded_controls s' + n ≤ controls'.
Proof.
  revert s jobs controls. induction events as [|event events IH];
    intros s jobs controls R HA Hj Hc Hk Hnd Hopen; cbn in R; run R; [by simplify_eq/=|].
  match goal with H : apply_job_event _ _ _ = (Ok ?u, _) |- _ => destruct u; rename H into R1 end.
  cbn [events_after] in HA. apply bind_Ok in HA as (controls1 & Hc1 & HA).
  apply bind_Ok in HA as (jobs1 & Hj1 & HA).
  apply controls_after_Ok in Hc1. apply jobs_after_Ok in Hj1.
  unfold finished_jobs in Hnd, Hopen. cbn [List.filter] in Hnd, Hopen.
  destruct (event_reserved state event s s0 R1 Hk) as (E1 & E2 & E3 & E4).
  { intros Ht. rewrite Ht in Hopen. apply Hopen. left. }
  apply (IH s0 jobs1 controls1); [done|done|lia|lia|done| |].
  - by destruct (is_terminal _); [apply NoDup_cons in Hnd as [_ ?]|].
  - intros job Hin Ho. apply E4; destruct (is_terminal _); try done.
    + intros _ ->. by apply NoDup_cons in Hnd as [? _].
    + apply Hopen; [by right | done].
    + by apply Hopen.
Qed.

Lemma record_reserved record s s' reserved :
  apply_ledger_record config record s = (Ok tt, s') →
  home_reservations_after s record = Ok reserved →
  NoDup (finished_jobs (lr_events record)) →
  hs_nonterminal_jobs s' + hs_unacknowledged_forwarded_controls s' ≤ reserved.
Proof.
  intros (t & Hf & R)%apply_ledger_record_cases HA Hnd. unfold home_reservations_after in HA.
  apply bind_Ok in HA as ([jobs controls] & HE & HA). apply bind_Ok in HA as (c & Hc & HA).
  destruct Hf as [Ej En _ _ _ Er Ek].
  destruct (events_reserved s (lr_events record) t s' (acknowledged_by record s) _ _ jobs controls
              R HE) as [H1' H2']; [lia|lia|done|done|by intros job _; unfold open_in; rewrite Ej|].
  assert (hs_unacknowledged_forwarded_controls s' ≤ c).
  { unfold acknowledged_by, acknowledges in H2'.
    destruct (lr_receipt record) as [x|]; simplify_eq; [|lia].
    destruct (ex_stage (sr_payload x)); simplify_eq; try lia.
    destruct (hs_forwarded_controls s !! _) as [f|]; simplify_eq; [|lia].
    destruct (fw_acknowledged_receipt_hash f); simplify_eq; [lia|].
    destruct (usize_checked_sub controls 1) eqn:E; simplify_eq/=.
    apply usize_checked_sub_Some in E as [? <-]. lia. }
  destruct (usize_checked_add jobs c) eqn:E; simplify_eq/=.
  apply usize_checked_add_Some in E as [<- _]. lia.
Qed.
End invariants.

(** *** After a terminal event *)

Section histories.
  Context (job : JobId).

Lemma history_state events state sequence :
  history job events state sequence →
  ∃ event, last events = Some event ∧ je_state_after (sr_payload event) = state.
Proof.
  destruct 1 as [event|events from sequence event]; [by exists event|].
  exists event. by rewrite last_snoc.
Qed.

Lemma history_terminal events state sequence i event :
  history job events state sequence →
  events !! i = Some event → is_terminal (je_state_after (sr_payload event)) = true →
  state = je_state_after (sr_payload event)
  ∧ ∀ k later, (i < k)%nat → events !! k = Some later →
      is_late_receipt (je_kind (sr_payload later)) = true
      ∧ je_state_after (sr_payload later) = je_state_after (sr_payload event).
Proof.
  intros Hh. revert i event.
  induction Hh as [e spec _ _ _ Hst|events from sequence e Hh IH _ _ Ha]; intros i event Hi Ht.
  { apply list_lookup_singleton_Some in Hi as [-> <-]. by rewrite Hst in Ht. }
  apply lookup_app_Some in Hi as [Hi|[Hle Hi]].
  - destruct (IH i event Hi Ht) as [-> IHk]. destruct Ha as [Ha|[Hl Ha]].
    { by rewrite terminal_absorbing in Ha. }
    split; [done|]. intros k later Hk [Hl'|[_ Hl']]%lookup_app_Some; [by eapply IHk|].
    by apply list_lookup_singleton_Some in Hl' as [_ <-].
  - apply list_lookup_singleton_Some in Hi as [Hi <-]. split; [done|].
    intros k later Hk Hl. apply lookup_lt_Some in Hl. rewrite length_app in Hl. simpl in Hl. lia.
Qed.
End histories.

(** ** Persisting *)

Section persisting.
  Context `{!Sha256} `{!JsonText} `{!Ed25519} `{!WireSerde} {C : Type}.
  Implicit Types h : FunctionHome C.

Lemma sign_payload {T} `{!ToValue T} schema (payload : T) signer r :
  SignedRecordV1_sign schema payload signer = Ok r → sr_payload r = payload.
Proof.
  unfold SignedRecordV1_sign. intros Hsign. inv_result. case_decide; [done|]. 
  inv_result. by simplify_eq.
Qed.

Lemma append_Ok j io (event : HomeLedgerRecord) inner d r inner' d' :
  append j io event inner d = (Ok r, inner', d') →
  in_records inner' = in_records inner ++ [r] ∧ in_healthy inner' = true
  ∧ ce_event (sr_payload r) = event.
Proof.
  intros [(? & ? & _)|(r0 & ? & ? & rd & _ & Hsign & _ & _ & _ & _ & Hrd)]%append_cases; [done|].
  apply sign_payload in Hsign. destruct rd; destruct Hrd as [Hr ->]; simplify_eq.
  by rewrite Hsign.
Qed.

Lemma append_Err j io (event : HomeLedgerRecord) inner d e inner' d' :
  append j io event inner d = (Err e, inner', d') →
  in_records inner' = in_records inner
  ∧ (inner' = inner ∧ d' = d ∨ in_healthy inner' = false).
Proof.
  intros [(? & _ & -> & ->)|(r0 & ? & ? & rd & _ & _ & _ & _ & _ & _ & Hrd)]%append_cases; [auto|].
  destruct rd; destruct Hrd as [? ->]; [done | auto].
Qed.

Lemma check_record_Ok h state record :
  check_record h state record = Ok tt →
  (apply_ledger_record (fh_config h) record state).1 = Ok tt
  ∧ in_healthy (fh_records h) = true
  ∧ ∃ reserved, home_reservations_after state record = Ok reserved
      ∧ reserved + N.of_nat (length (in_records (fh_records h)))
        < max_records (jn_caps (fh_journal h)).
Proof.
  unfold check_record, journal_err, remaining_records. intros Hc. inv_result.
  match goal with H : preflight_ledger_transition _ _ _ = Ok ?u |- _ =>
    rewrite preflight_eq_apply in H; destruct u end.
  destruct (in_healthy (fh_records h)); [|done]. simplify_eq/=.
  case_decide; [done|]. split_and!; [done|done|]. eexists. split; [done|lia].
Qed.

Lemma persist_Ok h io record state d h' state' d' :
  persist_and_apply h io record state d = (Ok tt, h', state', d') →
  check_record h state record = Ok tt
  ∧ apply_ledger_record (fh_config h) record state = (Ok tt, state')
  ∧ ∃ r inner, append (fh_journal h) io record (fh_records h) d = (Ok r, inner, d')
               ∧ h' = with_records h inner.
Proof.
  unfold persist_and_apply. destruct (check_record h state record) as [[]|e]; [|done].
  destruct (append _ _ _ _ _) as [[[r|e] inner] da]; [|done].
  destruct (apply_ledger_record _ _ _) as [res s]. intros [= -> <- <- <-]. eauto 6.
Qed.

Lemma persist_Err h io record state d e h' state' d' :
  persist_and_apply h io record state d = (Err e, h', state', d') →
  state' = state
  ∧ (h' = h ∧ d' = d
     ∨ ∃ e inner, append (fh_journal h) io record (fh_records h) d = (Err e, inner, d')
                  ∧ h' = with_records h inner).
Proof.
  unfold persist_and_apply. destruct (check_record h state record) as [[]|e'] eqn:Ec.
  2: { intros [= -> <- <- <-]. auto. }
  destruct (append _ _ _ _ _) as [[[r|e'] inner] da].
  - destruct (apply_ledger_record _ _ _) as [res s] eqn:Ea.
    apply check_record_Ok in Ec as [Ec _]. rewrite Ea in Ec. cbn in Ec. subst res. done.
  - intros [= _ <- <- <-]. eauto 6.
Qed.

(** A Home whose journal is uncertain does nothing. *)
Lemma persist_inert h io record state d :
  in_healthy (fh_records h) = false →
  ∃ e, persist_and_apply h io record state d = (Err e, h, state, d).
Proof.
  intros Hh. unfold persist_and_apply, check_record, ensure_authoritative_state, ensure_healthy.
  rewrite Hh. destruct (fh_operational_failure h); eexists; reflexivity.
Qed.
End persisting.

(** ** A concrete Home *)

Module sample.
#[local] Existing Instances zero_sha blank_text toy_ed25519 null_serde.

Definition handle : JobHandleV1 := mkJobHandleV1 sample_root "j".
Definition spec : JobSpecV1 :=
  mkJobSpecV1 handle handle "k" zero_digest
    (mkResolvedFunctionV1 (SelectId sample_function) sample_function zero_digest None)
    sample_deployment (VInline JNull) AtMostOnce false None [] (mkJobAccessV1 [] []) [] [] None.
Definition event (sequence : N) (state : JobStateV1) (kind : JobEventKindV1) :
    SignedRecordV1 JobEventV1 :=
  sample_sign SCHEMA_JOB_V1 (sample_epoch_key 1)
    (mkJobEventV1 handle 1 sample_genesis sequence None state false kind None).
Definition submitted : HomeLedgerRecord :=
  mkHomeLedgerRecord None None [event 1 SQueued (KSubmitted spec)].
Definition cancelled : HomeLedgerRecord :=
  mkHomeLedgerRecord None None [event 2 SCancelled (KCancelled "stop")].

Definition caps : JournalCaps := mkJournalCaps 10 1000.
Definition config : HomeConfig :=
  mkHomeConfig sample_root 1 "c" "r" "n" sample_genesis [] 8 1000 caps.
Definition new_state : HomeState := HomeState_new unfenced_for_replay.
Definition running : HomeState := (apply_ledger_record config submitted new_state).2.
Definition finished : HomeState := (apply_ledger_record config cancelled running).2.

Definition signer : AuthoritySigner :=
  mkAuthoritySigner (sample_epoch_key 1) (fun _ => Ok (hex_encode [])).
Definition home : FunctionHome unit :=
  mkFunctionHome config (mkJournal signer HOME_CHAIN_SCHEMA caps) (mkInner [] GENESIS true)
    (mkInner [] GENESIS true) None.
End sample.

(** ** Properties *)

(** C1: a ledger record is persisted and applied as one transaction. If the call
    succeeds, the record is the last one of the journal and the state is the
    result of applying it; if it fails, the state and the journal's records are
    untouched, and either nothing at all changed or the journal is marked
    uncertain and accepts nothing more. In particular applying a record never
    fails once it is durable, although it was only checked on a shadow holding
    the entries it can touch. *)
Theorem persist_transactional (S : Sha256) (X : JsonText) (E : Ed25519) (W : WireSerde)
    (C : Type) (h : FunctionHome C) (io : AppendIo) (record : HomeLedgerRecord)
    (state : HomeState) (d : Disk) (res : result HomeError unit) (h' : FunctionHome C)
    (state' : HomeState) (d' : Disk)
    (H : persist_and_apply h io record state d = (res, h', state', d')) :
  (res = Ok tt
   ∧ apply_ledger_record (fh_config h) record state = (Ok tt, state')
   ∧ ∃ r, in_records (fh_records h') = in_records (fh_records h) ++ [r]
          ∧ ce_event (sr_payload r) = record)
  ∨ (∃ e, res = Err e ∧ state' = state
          ∧ in_records (fh_records h') = in_records (fh_records h)
          ∧ (h' = h ∧ d' = d
             ∨ in_healthy (fh_records h') = false
               ∧ ∀ io' record' s d'', ∃ e',
                   persist_and_apply h' io' record' s d'' = (Err e', h', s, d''))).
Proof.
  destruct res as [[]|e]; [left|right].
  - apply persist_Ok in H as (_ & Ha & r & inner & Happ & ->).
    apply append_Ok in Happ as (Hr & _ & He). eauto.
  - apply persist_Err in H as [-> H]. exists e. split_and!; [done|done|..].
    + destruct H as [[-> _]|(e' & inner & [Hr _]%append_Err & ->)]; done.
    + destruct H as [H|(e' & inner & [_ [[-> ->]|Hh]]%append_Err & ->)]; [by left| |].
      * left. by destruct h.
      * right. split; [done|]. intros. by apply persist_inert.
Qed.

Lemma persist_transactional_witness :
  ∃ h' state' d',
    @persist_and_apply zero_sha blank_text toy_ed25519 null_serde unit sample.home
      Journal.sample.io sample.submitted sample.new_state Journal.sample.empty_disk
    = (Ok tt, h', state', d')
    ∧ map (fun r => ce_event (sr_payload r)) (in_records (fh_records h')) = [sample.submitted].
Proof.
  destruct (@persist_and_apply zero_sha blank_text toy_ed25519 null_serde unit sample.home
      Journal.sample.io sample.submitted sample.new_state Journal.sample.empty_disk)
    as [[[res h'] state'] d'] eqn:E.
  assert (Hres : res = Ok tt).
  { change res with (res, h', state', d').1.1.1. rewrite <- E. vm_compute. reflexivity. }
  destruct (@persist_transactional zero_sha blank_text toy_ed25519 null_serde unit sample.home
    Journal.sample.io sample.submitted sample.new_state Journal.sample.empty_disk res h' state' d' E)
    as [(_ & _ & r & Hr & He)|(e & He & _)]; [|congruence].
  subst res. exists h', state', d'. split; [reflexivity|].
  cbn [fh_records sample.home in_records app] in Hr. rewrite Hr. cbn. rewrite He. reflexivity.
Defined.

(** The counters of a replayed state are exact: the number of nonterminal
    jobs and of unacknowledged forwarded controls are what the maps hold; a
    job's control count is the number of its controls and child spawns and
    never exceeds 256; and no attempt has more than 256 observations. *)
Theorem ledger_counters_exact (S : Sha256) (X : JsonText) (E : Ed25519) (W : WireSerde)
    (config : HomeConfig) (s : HomeState) (H : reachable config s) :
  jobs_counted s ∧ controls_counted s ∧ forwarded_counted s ∧ observations_bounded s.
Proof. apply reachable_inv in H as []. auto. Qed.

Lemma ledger_counters_exact_witness :
  hs_nonterminal_jobs sample.running = 1 ∧ jobs_counted sample.running.
Proof.
  assert (@reachable zero_sha blank_text toy_ed25519 null_serde sample.config sample.running) as H.
  { apply (reachable_apply _ sample.new_state sample.submitted); [apply reachable_new|].
    vm_compute. reflexivity. }
  split; [vm_compute; reflexivity|].
  exact (proj1 (@ledger_counters_exact zero_sha blank_text toy_ed25519 null_serde sample.config
                  sample.running H)).
Defined.

(** C7: every job of a replayed state has a disciplined history: it starts with
    its submission at sequence 1, the sequence numbers go up by one, every step
    is an allowed transition, the snapshot has the state of the last event, and
    after an event that reaches a terminal state only late receipts follow, which
    keep that state. *)
Theorem job_history_disciplined (S : Sha256) (X : JsonText) (E : Ed25519) (W : WireSerde)
    (config : HomeConfig) (s : HomeState) (job : JobId) (r : JobRecord)
    (H : reachable config s) (Hr : hs_jobs s !! job = Some r) :
  history job (jr_events r) (ss_state (jr_snapshot r)) (ss_last_sequence (jr_snapshot r))
  ∧ (∃ event, last (jr_events r) = Some event
              ∧ je_state_after (sr_payload event) = ss_state (jr_snapshot r))
  ∧ ∀ i event, jr_events r !! i = Some event →
      is_terminal (je_state_after (sr_payload event)) = true →
      ss_state (jr_snapshot r) = je_state_after (sr_payload event)
      ∧ ∀ k later, (i < k)%nat → jr_events r !! k = Some later →
          is_late_receipt (je_kind (sr_payload later)) = true
          ∧ je_state_after (sr_payload later) = je_state_after (sr_payload event).
Proof.
  apply reachable_inv, li_recorded in H. specialize (H job r Hr).
  split_and!; [done|by eapply history_state|]. intros i event. by eapply history_terminal.
Qed.

Lemma job_history_disciplined_witness :
  ∃ r, hs_jobs sample.finished !! "j" = Some r ∧ ss_state (jr_snapshot r) = SCancelled.
Proof.
  assert (@reachable zero_sha blank_text toy_ed25519 null_serde sample.config sample.finished) as H.
  { apply (reachable_apply _ sample.running sample.cancelled); [|vm_compute; reflexivity].
    apply (reachable_apply _ sample.new_state sample.submitted); [apply reachable_new|].
    vm_compute. reflexivity. }
  destruct (hs_jobs sample.finished !! "j") as [r|] eqn:Er; [|vm_compute in Er; discriminate].
  exists r. split; [reflexivity|].
  destruct (@job_history_disciplined zero_sha blank_text toy_ed25519 null_serde sample.config
              sample.finished "j" r H Er) as (_ & _ & Ht).
  apply (Ht 1%nat (sample.event 2 SCancelled (KCancelled "stop"))).
  - vm_compute in Er. injection Er as <-. vm_compute. reflexivity.
  - reflexivity.
Defined.

(** The journal keeps the promised room: when a record that finishes no job
    twice is persisted, the journal still has a free slot for every nonterminal
    job and for every forwarded control that is not acknowledged yet. *)
Theorem reservations_kept (S : Sha256) (X : JsonText) (E : Ed25519) (W : WireSerde)
    (C : Type) (h : FunctionHome C) (io : AppendIo) (record : HomeLedgerRecord)
    (state : HomeState) (d : Disk) (h' : FunctionHome C) (state' : HomeState) (d' : Disk)
    (H : persist_and_apply h io record state d = (Ok tt, h', state', d'))
    (Hone : NoDup (finished_jobs (lr_events record))) :
  ∃ remaining,
    remaining_records (fh_journal h') (fh_records h') = Ok remaining
    ∧ hs_nonterminal_jobs state' + hs_unacknowledged_forwarded_controls state' ≤ remaining.
Proof.
  apply persist_Ok in H as (Hc & Ha & r & inner & Happ & ->).
  apply append_Ok in Happ as (Hr & Hh & _).
  apply check_record_Ok in Hc as (_ & _ & reserved & Hres & Hlt).
  pose proof (record_reserved _ _ _ _ _ Ha Hres Hone).
  unfold remaining_records. cbn. rewrite Hh, Hr, length_app. cbn. eexists. split; [done|]. lia.
Qed.

Lemma reservations_kept_witness :
  ∃ (h' : FunctionHome unit) state' remaining,
    remaining_records (fh_journal h') (fh_records h') = Ok remaining
    ∧ hs_nonterminal_jobs state' + hs_unacknowledged_forwarded_controls state' ≤ remaining.
Proof.
  destruct (@persist_and_apply zero_sha blank_text toy_ed25519 null_serde unit sample.home
      Journal.sample.io sample.submitted sample.new_state Journal.sample.empty_disk)
    as [[[res h'] state'] d'] eqn:E.
  assert (Hres : res = Ok tt).
  { change res with (res, h', state', d').1.1.1. rewrite <- E. vm_compute. reflexivity. }
  subst res. exists h', state'.
  apply (@reservations_kept zero_sha blank_text toy_ed25519 null_serde unit sample.home
    Journal.sample.io sample.submitted sample.new_state Journal.sample.empty_disk h' state' d' E).
  apply NoDup_nil_2.
Defined.
