(* ===== verification/HomeGrowth.v ===== *)
(** * Growth of the ledger

    What applying any record leaves in place: a job keeps its pinned
    specification and its events, a grant and a receipt hash are never replaced,
    and the request hashes are those of the jobs' specifications. *)

From S2P Require Import Prelude GxShape GxHash FnCrypto FnTypes FnWire FnCustody Journal HomeLedger.
From S2P Require Import HomeLaws.

(** ** The growth order *)

Record job_grows (r r' : JobRecord) : Prop := {
  jw_pins : pins (ss_spec (jr_snapshot r')) = pins (ss_spec (jr_snapshot r));
  jw_events : jr_events r `prefix_of` jr_events r'
}.

Record grows (s s' : HomeState) : Prop := {
  gw_jobs : ∀ j r, hs_jobs s !! j = Some r →
              ∃ r', hs_jobs s' !! j = Some r' ∧ job_grows r r';
  gw_grants : hs_grants s ⊆ hs_grants s';
  gw_receipts : hs_receipts s ⊆ hs_receipts s'
}.

#[export] Instance job_grows_preorder : PreOrder job_grows.
Proof.
  split; [by constructor|]. intros a b c [] []. constructor; [congruence|by etrans].
Qed.

#[export] Instance grows_preorder : PreOrder grows.
Proof.
  split.
  - intros s. constructor; [|done|done]. intros j r Hr. by exists r.
  - intros a b c [Hj Hg Hr] [Hj' Hg' Hr']. constructor; [|by etrans|by etrans].
    intros j r (r1 & H1 & G1)%Hj. apply Hj' in H1 as (r2 & H2 & G2).
    exists r2. split; [done|by etrans].
Qed.

(** The request hashes are those of the specifications. *)
Definition hashed (s : HomeState) : Prop :=
  ∀ j, hs_request_hashes s !! j
       = (fun r => sp_request_hash (ss_spec (jr_snapshot r))) <$> hs_jobs s !! j.

Lemma pins_request_hash p q : pins p = pins q → sp_request_hash p = sp_request_hash q.
Proof. by intros [=]. Qed.

Definition receipt_key (x : ExecutionReceiptV1) : string * N * N :=
  (at_job (ex_attempt x), at_number (ex_attempt x), ex_sequence x).
Definition grant_key (g : SignedRecordV1 ExecutionGrantV1) : string * N :=
  key_of_attempt (eg_attempt (sr_payload g)).

Section growth.
  Context `{!Sha256} `{!JsonText} `{!Ed25519} `{!WireSerde} (config : HomeConfig).

(** ** One event *)

Definition event_spares (s s' : HomeState) : Prop :=
  hs_grants s' = hs_grants s ∧ hs_receipts s' = hs_receipts s
  ∧ hs_highest_receipt_sequences s' = hs_highest_receipt_sequences s.

Lemma event_effect_grows event r r' s s' :
  event_effect event r r' s s' →
  grows s s' ∧ (hashed s → hashed s') ∧ event_spares s s'.
Proof.
  intros E. pose proof (ee_execution _ _ _ _ _ E) as X. unfold execution_part in X.
  injection X as Xg Xr Xh _ Xq. pose proof (ee_pins _ _ _ _ _ E) as Ep.
  split_and!; [|intros Hh j|done].
  - constructor; [|by rewrite Xg|by rewrite Xr].
    intros j q Hq. rewrite (ee_after _ _ _ _ _ E), lookup_insert. case_decide as D.
    + subst j. rewrite (ee_before _ _ _ _ _ E) in Hq. injection Hq as <-. exists r'.
      split; [done|]. constructor; [done|]. rewrite (ee_events _ _ _ _ _ E). by eexists.
    + by exists q.
  - rewrite Xq, (ee_after _ _ _ _ _ E), lookup_insert, Hh. case_decide as D; [|done].
    subst j. rewrite (ee_before _ _ _ _ _ E). simpl. f_equal. symmetry. by apply pins_request_hash.
Qed.

Lemma submitted_grows event spec s s' :
  apply_submitted config event spec s = (Ok tt, s') →
  grows s s' ∧ (hashed s → hashed s') ∧ event_spares s s'.
Proof.
  intros (_ & _ & Hn & _ & ->)%apply_submitted_Ok. cbn in Hn. split_and!; [|intros Hh j|done].
  - constructor; [|done|done]. intros j r Hr. exists r. split; [|done]. cbn.
    rewrite lookup_insert. case_decide; [congruence|done].
  - cbn. rewrite !lookup_insert, Hh. by case_decide.
Qed.

Lemma apply_job_event_grows event s s' :
  apply_job_event config event s = (Ok tt, s') →
  grows s s' ∧ (hashed s → hashed s') ∧ event_spares s s'.
Proof.
  intros [(spec & _ & R)|(r & r' & _ & E)]%apply_job_event_cases;
    [by eapply submitted_grows | by eapply event_effect_grows].
Qed.

Lemma apply_events_grows events s s' :
  apply_events config events s = (Ok tt, s') →
  grows s s' ∧ (hashed s → hashed s') ∧ event_spares s s'.
Proof.
  revert s. induction events as [|event events IH]; intros s R; cbn in R; run R; [done|].
  match goal with H : apply_job_event _ _ _ = (Ok ?u, _) |- _ => destruct u;
    apply apply_job_event_grows in H as (G & Hh & E1 & E2 & E3) end.
  apply IH in R as (G' & Hh' & E1' & E2' & E3').
  split_and!; [by etrans|auto|split_and!; congruence].
Qed.

(** ** Grants and receipts *)

Lemma apply_grant_grants grant s s' :
  apply_grant config grant s = (Ok tt, s') →
  hs_jobs s' = hs_jobs s ∧ hs_request_hashes s' = hs_request_hashes s
  ∧ hs_receipts s' = hs_receipts s
  ∧ hs_highest_receipt_sequences s' = hs_highest_receipt_sequences s
  ∧ (hs_grants s' = hs_grants s ∧ is_Some (hs_grants s !! grant_key grant)
     ∨ hs_grants s !! grant_key grant = None
       ∧ hs_grants s' = <[grant_key grant := grant]> (hs_grants s)).
Proof.
  intros R. unfold apply_grant, insert_grant in R. run R.
  match goal with H : match hs_grants s !! _ with _ => _ end s = _ |- _ => rename H into Hi end.
  fold (grant_key grant) in *. destruct (hs_grants s !! grant_key grant) eqn:E; run Hi;
    split_and!; try done; eauto.
Qed.

Lemma index_receipt_spares receipt h s s' :
  index_home_control_receipt receipt h s = (Ok tt, s') →
  hs_jobs s' = hs_jobs s ∧ hs_request_hashes s' = hs_request_hashes s
  ∧ hs_receipts s' = hs_receipts s ∧ hs_grants s' = hs_grants s
  ∧ hs_highest_receipt_sequences s' = hs_highest_receipt_sequences s.
Proof.
  intros R. unfold index_home_control_receipt in R.
  destruct (ex_stage (sr_payload receipt)); cbn in R; run R; try done.
  - by destruct (fw_queued_receipt_hash a); run R.
  - by destruct (fw_acknowledged_receipt_hash a); run R.
Qed.

Lemma raise_stage_spares key stage s u s' :
  raise_stage_sequence key stage s = (Ok u, s') →
  hs_jobs s' = hs_jobs s ∧ hs_request_hashes s' = hs_request_hashes s
  ∧ hs_receipts s' = hs_receipts s ∧ hs_grants s' = hs_grants s
  ∧ hs_highest_receipt_sequences s' = hs_highest_receipt_sequences s.
Proof. intros R. unfold raise_stage_sequence in R. by destruct stage; run R. Qed.

Lemma apply_receipt_receipts receipt s s' :
  apply_receipt receipt s = (Ok tt, s') →
  let x := sr_payload receipt in
  hs_jobs s' = hs_jobs s ∧ hs_request_hashes s' = hs_request_hashes s
  ∧ hs_grants s' = hs_grants s
  ∧ ∃ h, canonical_hash receipt = Ok h
    ∧ hs_receipts s' = <[receipt_key x := h]> (hs_receipts s)
    ∧ (hs_receipts s !! receipt_key x = None ∨ hs_receipts s !! receipt_key x = Some h)
    ∧ hs_highest_receipt_sequences s'
      = <[key_of_attempt (ex_attempt x) :=
            N.max (default 0 (hs_highest_receipt_sequences s !! key_of_attempt (ex_attempt x)))
              (ex_sequence x)]> (hs_highest_receipt_sequences s).
Proof.
  intros R x. unfold apply_receipt in R. run R.
  match goal with H : (if ?b then mret tt else _) s = (_, ?t) |- _ =>
    assert (t = s) as -> by (destruct b; [by run H | by eapply check_stage_Ok]); clear H end.
  match goal with H : index_home_control_receipt _ _ _ = (Ok ?u, _) |- _ =>
    destruct u; apply index_receipt_spares in H as (X1 & X2 & X3 & X4 & X5) end.
  match goal with H : raise_stage_sequence _ _ _ = (Ok ?u, _) |- _ =>
    apply raise_stage_spares in H as (Y1 & Y2 & Y3 & Y4 & Y5) end.
  cbn in Y1, Y2, Y3, Y4, Y5.
  assert (hs_jobs s' = hs_jobs s2 ∧ hs_request_hashes s' = hs_request_hashes s2
    ∧ hs_grants s' = hs_grants s2 ∧ hs_receipts s' = hs_receipts s2
    ∧ hs_highest_receipt_sequences s' = hs_highest_receipt_sequences s2) as (Z1 & Z2 & Z3 & Z4 & Z5).
  { by destruct (is_observation _); run R. }
  split_and!; [congruence|congruence|congruence|].
  match goal with H : invalid (canonical_hash receipt) = Ok ?h |- _ =>
    apply map_err_Ok in H; exists h; split; [done|] end.
  rewrite Z4, Y3, Z5, Y5, X3, X5 in *. unfold receipt_key. split_and!; [done| |done].
  match goal with H : match hs_receipts s !! _ with _ => _ end = false |- _ =>
    destruct (hs_receipts s !! _) eqn:E end; [right|by left].
  to_prop. congruence.
Qed.

(** ** One record *)

Definition receipts_after (receipt : option (SignedRecordV1 ExecutionReceiptV1))
    (s s' : HomeState) : Prop :=
  match receipt with
  | Some receipt =>
      ∃ h, canonical_hash receipt = Ok h
        ∧ hs_receipts s' = <[receipt_key (sr_payload receipt) := h]> (hs_receipts s)
        ∧ (hs_receipts s !! receipt_key (sr_payload receipt) = None
           ∨ hs_receipts s !! receipt_key (sr_payload receipt) = Some h)
  | None => hs_receipts s' = hs_receipts s
  end.

Definition grants_after (grant : option (SignedRecordV1 ExecutionGrantV1)) (s s' : HomeState) :
    Prop :=
  match grant with
  | Some grant =>
      hs_grants s' = hs_grants s ∧ is_Some (hs_grants s !! grant_key grant)
      ∨ hs_grants s !! grant_key grant = None
        ∧ hs_grants s' = <[grant_key grant := grant]> (hs_grants s)
  | None => hs_grants s' = hs_grants s
  end.

(** A record acts as its grant and receipt, and then its events. *)
Lemma apply_record_split record s s' :
  apply_ledger_record config record s = (Ok tt, s') →
  ∃ t, hs_jobs t = hs_jobs s ∧ hs_request_hashes t = hs_request_hashes s
    ∧ grants_after (lr_grant record) s t ∧ receipts_after (lr_receipt record) s t
    ∧ apply_events config (lr_events record) t = (Ok tt, s').
Proof.
  intros R. unfold apply_ledger_record, when_some in R. run R.
  destruct (lr_grant record) as [grant|]; run H4;
    destruct (lr_receipt record) as [receipt|]; run H5; cbn;
    repeat match goal with
    | H : apply_grant _ _ _ = (Ok ?u, _) |- _ =>
        destruct u; apply apply_grant_grants in H as (? & ? & ? & ? & ?)
    | H : apply_receipt _ _ = (Ok ?u, _) |- _ =>
        destruct u; apply apply_receipt_receipts in H as (? & ? & ? & ? & ? & ? & ? & ?)
    end; eexists; (split_and!; [..|exact R]);
    repeat match goal with E : ?f ?a = ?f _ |- context [?f ?a] => rewrite E end; eauto.
  repeat match goal with E : hs_receipts ?a = hs_receipts _ |- _ => rewrite E in *; clear E end.
  eauto.
Qed.

Lemma receipts_after_grow receipt s s' :
  receipts_after receipt s s' → hs_receipts s ⊆ hs_receipts s'.
Proof.
  destruct receipt as [x|]; simpl; [|by intros ->].
  intros (h & _ & -> & [E|E]); [by apply insert_subseteq|].
  by rewrite insert_id.
Qed.

Lemma grants_after_grow grant s s' : grants_after grant s s' → hs_grants s ⊆ hs_grants s'.
Proof.
  destruct grant as [x|]; simpl; [|by intros ->].
  intros [[-> _]|[E ->]]; [done|by apply insert_subseteq].
Qed.

(** Applying a record only grows the ledger. *)
Lemma apply_record_grows record s s' :
  apply_ledger_record config record s = (Ok tt, s') →
  grows s s' ∧ (hashed s → hashed s')
  ∧ grants_after (lr_grant record) s s' ∧ receipts_after (lr_receipt record) s s'.
Proof.
  intros (t & Ej & Eh & Hg & Hr & R)%apply_record_split.
  apply apply_events_grows in R as (G & Hh & E1 & E2 & _).
  assert (Hgr : grows s t).
  { constructor; [|by eapply grants_after_grow|by eapply receipts_after_grow].
    intros j r Hj. exists r. by rewrite Ej. }
  split_and!; [by etrans| | |].
  - intros Hs. apply Hh. intros j. by rewrite Eh, Ej.
  - destruct (lr_grant record); cbn in *; by rewrite E1.
  - destruct (lr_receipt record); cbn in *; by rewrite E2.
Qed.
End growth.
