(* ===== verification/HomeApi.v ===== *)
(** * Operations of the Home

    The public operations of [cosmos/creatures/function-home/src/lib.rs]:
    submission, placement and retry decisions, execution grants, executor
    receipts, controls, child proposals and private reads.

    [HomeWorld] is what a Home can change: its journals, the ledger state, the
    disk, and the cached recipient binding. The traits a Home is built with
    (signer, metadata, trust, blob store, key rewrapper) are the class
    [HomeServices]; [io n] is the outcome of the system calls of the [n]-th
    append. An operation is a computation on the world that also says what it
    leaves behind when it fails; the operations of one Home run one at a time, as
    [Creature::handle] runs them. *)

From stdpp Require Import sorting.
From S2P Require Import Prelude GxShape GxHash FnCrypto FnTypes FnWire FnCustody FnMessages.
From S2P Require Import AetherAddress Journal HomeLedger.

Definition FUNCTION_HOME_ROLE : Role := "function-home".
Definition FUNCTION_EXECUTOR_ROLE : Role := "function-executor".
Definition FUNCTION_RESOLVER_ROLE : Role := "function-resolver".
Definition FUNCTION_LOCATOR_ROLE : Role := "function-locator".
Definition FUNCTION_POLICY_ROLE : Role := "function-policy".

(** ** Injected services *)

Class HomeServices : Type := {
  svc_signer : AuthoritySigner;
  svc_effect : ResolvedFunctionV1 → EffectClassV1;
  svc_allow_resolution : SignedRecordV1 ResolutionReceiptV1 → result string unit;
  svc_allow_deployment : SignedRecordV1 DeploymentReceiptV1 → result string unit;
  svc_allow_executor_receipt : SignedRecordV1 ExecutionReceiptV1 →
    SignedRecordV1 DeploymentReceiptV1 → result string unit;
  svc_allow_placement_decision : SignedRecordV1 PlacementDecisionV1 → result string unit;
  svc_allow_retry_decision : SignedRecordV1 RetryDecisionV1 → result string unit;
  svc_allow_read_relay : string → string → result string unit;
  svc_blobs :: BlobAvailability;
  svc_current_binding : result string (SignedRecordV1 RecipientKeyBindingV1)
}.

(** The default body of [FunctionTrust::allow_read_relay]. *)
Definition default_allow_read_relay (relay caller : string) : result string unit :=
  if decide (relay = caller) then Ok tt
  else Err "job read relay is not the caller or an injected trust anchor".

(** ** The world of a Home *)

Record HomeRecoveryKey : Type := mkHomeRecoveryKey {
  hk_job : JobId;
  hk_kind : N;
  hk_sequence : N
}.
#[export] Instance HomeRecoveryKey_eq_dec : EqDecision HomeRecoveryKey.
Proof. solve_decision. Defined.

Record HomeRecoverySweep : Type := mkHomeRecoverySweep {
  sw_cursor : option HomeRecoveryKey;
  sw_high_water : option HomeRecoveryKey;
  sw_remaining : N
}.
Definition HomeRecoverySweep_default : HomeRecoverySweep := mkHomeRecoverySweep None None 0.

(** [w_appends] counts the appends attempted so far. *)
Record HomeWorld (C : Type) : Type := mkHomeWorld {
  w_home : FunctionHome C;
  w_state : HomeState;
  w_disk : Disk;
  w_binding : option (SignedRecordV1 RecipientKeyBindingV1);
  w_sweep : HomeRecoverySweep;
  w_me : option N;
  w_appends : nat
}.
Arguments mkHomeWorld {C} _ _ _ _ _ _ _.
Arguments w_home {C} _.
Arguments w_state {C} _.
Arguments w_disk {C} _.
Arguments w_binding {C} _.
Arguments w_sweep {C} _.
Arguments w_me {C} _.
Arguments w_appends {C} _.

Definition w_config {C} (w : HomeWorld C) : HomeConfig := fh_config (w_home w).

Definition set_binding {C} (b : SignedRecordV1 RecipientKeyBindingV1) (w : HomeWorld C) :
    HomeWorld C :=
  mkHomeWorld (w_home w) (w_state w) (w_disk w) (Some b) (w_sweep w) (w_me w) (w_appends w).
Definition set_sweep {C} (sweep : HomeRecoverySweep) (w : HomeWorld C) : HomeWorld C :=
  mkHomeWorld (w_home w) (w_state w) (w_disk w) (w_binding w) sweep (w_me w) (w_appends w).

(** ** Outcomes *)

Inductive SubmitOutcome : Type :=
  | Accepted (handle : JobHandleV1) (request_hash : string) (submitted : SignedRecordV1 JobEventV1)
  | Existing (handle : JobHandleV1) (request_hash : string) (submitted : SignedRecordV1 JobEventV1).

Inductive ApplyReceiptOutcome : Type :=
  | ReceiptApplied (event : SignedRecordV1 JobEventV1)
  | ReceiptDuplicate (event : SignedRecordV1 JobEventV1).

Record PreparedSubmission : Type := mkPreparedSubmission {
  ps_handle : JobHandleV1;
  ps_request_hash : string;
  ps_spec : JobSpecV1
}.

(** [prepared.spec.root = root]. *)
Definition with_root (root : JobHandleV1) (p : JobSpecV1) : JobSpecV1 :=
  mkJobSpecV1 (sp_handle p) root (sp_caller_idempotency_key p) (sp_request_hash p)
    (sp_function p) (sp_deployment p) (sp_input p) (sp_delivery p)
    (sp_allow_duplicate_effects p) (sp_parent p) (sp_causal p) (sp_access p) (sp_evidence p)
    (sp_result_recipients p) (sp_accepted_at_unix_ms p).

(** [snapshot.home_epoch = epoch; snapshot.authority = authority]. *)
Definition present_snapshot (config : HomeConfig) (s : JobSnapshotV1) : JobSnapshotV1 :=
  mkJobSnapshotV1 (ss_spec s) (ss_state s) (ss_cancel_requested s) (cf_epoch config)
    (cf_authority config) (ss_last_sequence s) (ss_current_attempt s) (ss_result s) (ss_error s).

Definition one_event (event : SignedRecordV1 JobEventV1) : HomeLedgerRecord :=
  mkHomeLedgerRecord None None [event].

(** ** Pure helpers *)

Definition signing {A} (r : result ContractError A) : result HomeError A :=
  map_err (fun e => HSigning (ContractError_to_string e)) r.
Definition refused {A} (what : string) (r : result string A) : result HomeError A :=
  map_err (fun reason => HUnauthorized (what +:+ " refused: " +:+ reason)) r.
Definition reject {E} (cond : bool) (e : E) : result E unit := if cond then Err e else Ok tt.

Definition retry_failure (k : JobEventKindV1) : option (AttemptId * ValueRefV1 * bool) :=
  match k with
  | KAttemptFailed attempt error retryable => Some (attempt, error, retryable)
  | KIndeterminate attempt reason execution_may_have_occurred =>
      Some (attempt,
            VInline (JObject [("execution_may_have_occurred", JBool execution_may_have_occurred);
                              ("kind", JString "executor_recovery_ambiguity");
                              ("reason", JString reason)]),
            true)
  | _ => None
  end.

(** The elements of a [BTreeSet<HomeId>], in order. *)
Definition in_order (ids : gset HomeId) : list HomeId :=
  merge_sort str_le (elements ids).

Definition update_access (current : JobAccessV1)
    (add_readers remove_readers add_controllers remove_controllers : list HomeId) :
    result HomeError JobAccessV1 :=
  let readers : gset HomeId :=
    (list_to_set (ja_readers current) ∖ list_to_set remove_readers) ∪ list_to_set add_readers in
  let controllers : gset HomeId :=
    (list_to_set (ja_controllers current) ∖ list_to_set remove_controllers)
    ∪ list_to_set add_controllers in
  let access := mkJobAccessV1 (in_order readers) (in_order controllers) in
  _ ← invalid (JobAccessV1_validate access);
  Ok access.

Definition submitted_event (state : HomeState) (job : JobId) :
    result HomeError (SignedRecordV1 JobEventV1) :=
  ok_or
    (record ← hs_jobs state !! job;
     event ← head (jr_events record);
     match je_kind (sr_payload event) with KSubmitted _ => Some event | _ => None end)
    (HState "accepted job has no durable Submitted proof").

Definition is_controller (signer : string) (spec : JobSpecV1) : bool :=
  existsb (fun id => bool_decide (id = signer)) (ja_controllers (sp_access spec)).
Definition is_reader (signer : string) (spec : JobSpecV1) : bool :=
  existsb (fun id => bool_decide (id = signer)) (ja_readers (sp_access spec)).

Definition is_access_update (k : JobControlKindV1) : bool :=
  match k with AccessUpdate _ _ _ _ => true | _ => false end.
Definition is_steer (k : JobControlKindV1) : bool :=
  match k with Steer _ => true | _ => false end.
Definition is_at_least_once (d : DeliveryModeV1) : bool :=
  match d with AtLeastOnce _ => true | AtMostOnce => false end.
Definition is_active (s : JobStateV1) : bool :=
  match s with SDispatching | SRunning => true | _ => false end.
Definition is_dispatchable (s : JobStateV1) : bool :=
  match s with SQueued | SRetryPending => true | _ => false end.
Definition is_parked (s : JobStateV1) : bool :=
  match s with SQueued | SBlocked | SRetryPending => true | _ => false end.

(** The route to the executor of a deployment. *)
Definition executor_target (cf : HomeConfig) (deployment : DeploymentReceiptV1) : Address :=
  if bool_decide (dr_realm deployment = cf_realm cf)
     && bool_decide (dr_node deployment = cf_node cf) then ARole FUNCTION_EXECUTOR_ROLE
  else
    let target := ANodeRole (dr_node deployment) FUNCTION_EXECUTOR_ROLE in
    if decide (dr_realm deployment = cf_realm cf) then target
    else AOmega (dr_realm deployment) target.

Section pure.
  Context `{!Sha256} `{!JsonText} `{!Ed25519} `{!WireSerde} `{!CustodySerde} `{!MessageSerde}.
  Context `{!HomeServices} {C : Type}.

(** The key check against each of the Home's authorities. *)
Fixpoint binding_separate (signing_key encryption : string) (authorities : list HomeAuthorityV1) :
    result HomeError unit :=
  match authorities with
  | [] => Ok tt
  | authority :: authorities =>
      if bool_decide (signing_key = operational_key authority)
         || bool_decide (encryption = operational_key authority) then
        Err (HUnauthorized "recipient binding reuses a Home operational authority key")
      else binding_separate signing_key encryption authorities
  end.

Definition verify_current_recipient_binding (config : HomeConfig)
    (binding : SignedRecordV1 RecipientKeyBindingV1) : result HomeError unit :=
  let b := sr_payload binding in
  _ ← invalid (verify_recipient_key_binding binding);
  _ ← reject (bool_decide (rk_abode b ≠ cf_home config))
        (HUnauthorized "recipient binding does not name this Home");
  _ ← reject (bool_decide (rk_signing_public_key b = cf_home config)
              || bool_decide (rk_encryption_public_key b = cf_home config)
              || bool_decide (rk_signing_public_key b = rk_encryption_public_key b))
        (HUnauthorized "recipient binding reuses a root, proof, or encryption key plane");
  binding_separate (rk_signing_public_key b) (rk_encryption_public_key b)
    (cf_authority config :: cf_historical_authorities config).

Definition sign_event_with_receipt (h : FunctionHome C) (state : HomeState) (handle : JobHandleV1)
    (state_after : JobStateV1) (cancel_requested : bool) (occurred_at_unix_ms : option N)
    (kind : JobEventKindV1) (foreign_receipt : option (SignedRecordV1 ExecutionReceiptV1)) :
    result HomeError (SignedRecordV1 JobEventV1) :=
  _ ← ensure_authoritative_state h state;
  let sequence :=
    match job_snapshot (jh_job handle) state with
    | Some snapshot => u64_add (ss_last_sequence snapshot) 1
    | None => 1
    end in
  let event := mkJobEventV1 handle (cf_epoch (fh_config h)) (cf_authority (fh_config h)) sequence
                 occurred_at_unix_ms state_after cancel_requested kind foreign_receipt in
  _ ← invalid (JobEventV1_validate event);
  signing (SignedRecordV1_sign SCHEMA_JOB_V1 event svc_signer).

Definition sign_event (h : FunctionHome C) (state : HomeState) (handle : JobHandleV1)
    (state_after : JobStateV1) (cancel_requested : bool) (occurred_at_unix_ms : option N)
    (kind : JobEventKindV1) : result HomeError (SignedRecordV1 JobEventV1) :=
  sign_event_with_receipt h state handle state_after cancel_requested occurred_at_unix_ms kind None.

Definition sign_control_endorsement (h : FunctionHome C)
    (caller_request : SignedRecordV1 JobControlV1) (durable_event : SignedRecordV1 JobEventV1)
    (grant : SignedRecordV1 ExecutionGrantV1) (home_route_sequence : N) :
    result HomeError (SignedRecordV1 ExecutionControlV1) :=
  let config := fh_config h in
  grant_hash ← invalid (canonical_hash grant);
  endorsed ← signing (SignedRecordV1_sign SCHEMA_EXECUTE_V1
    (mkExecutionControlV1 caller_request durable_event (eg_attempt (sr_payload grant)) grant_hash
       (cf_epoch config) home_route_sequence (je_sequence (sr_payload durable_event))
       (cf_realm config) (cf_node config) (cf_coordinator config) (cf_authority config))
    svc_signer);
  _ ← invalid (verify_execution_control endorsed);
  Ok endorsed.

Definition snapshot_from_state (h : FunctionHome C) (state : HomeState) (job : JobId) :
    result HomeError JobSnapshotV1 :=
  snapshot ← ok_or (job_snapshot job state) (HNotFound job);
  Ok (present_snapshot (fh_config h) snapshot).

Definition authorize_reader_from_state (h : FunctionHome C) (state : HomeState)
    (handle : JobHandleV1) (signer : string) : result HomeError unit :=
  _ ← reject (bool_decide (jh_home handle ≠ cf_home (fh_config h))) (HNotFound (jh_job handle));
  snapshot ← ok_or (job_snapshot (jh_job handle) state) (HNotFound (jh_job handle));
  if bool_decide (signer = cf_home (fh_config h))
     || is_reader signer (ss_spec snapshot) || is_controller signer (ss_spec snapshot)
  then Ok tt
  else Err (HUnauthorized "signer is not a job reader").

(** The unsigned policy questions of a job. *)
Definition placement_question_of (h : FunctionHome C) (handle : JobHandleV1)
    (snapshot : JobSnapshotV1) : PlacementQuestionV1 :=
  mkPlacementQuestionV1 handle (cf_epoch (fh_config h)) (cf_authority (fh_config h))
    (rf_function (sp_function (ss_spec snapshot))) [sp_deployment (ss_spec snapshot)]
    (sp_evidence (ss_spec snapshot)).

Definition retry_question_of (h : FunctionHome C) (snapshot : JobSnapshotV1)
    (failed_attempt : AttemptId) (failure : ValueRefV1) (retryable : bool) : RetryQuestionV1 :=
  mkRetryQuestionV1 (present_snapshot (fh_config h) snapshot) failed_attempt failure retryable
    [sp_deployment (ss_spec snapshot)] (sp_evidence (ss_spec snapshot)).

Definition sign_placement_question (question : PlacementQuestionV1) :
    result HomeError (SignedRecordV1 PlacementQuestionV1) :=
  question ← signing (SignedRecordV1_sign SCHEMA_POLICY_V1 question svc_signer);
  _ ← invalid (verify_placement_question question);
  Ok question.

Definition sign_retry_question (question : RetryQuestionV1) :
    result HomeError (SignedRecordV1 RetryQuestionV1) :=
  question ← signing (SignedRecordV1_sign SCHEMA_POLICY_V1 question svc_signer);
  _ ← invalid (verify_retry_question question);
  Ok question.

(** The newest durable failure of an attempt. *)
Definition find_failure (failed_attempt : AttemptId) (events : list (SignedRecordV1 JobEventV1)) :
    option (AttemptId * ValueRefV1 * bool) :=
  List.find (fun failure => bool_decide (failure.1.1 = failed_attempt))
    (omap (fun event => retry_failure (je_kind (sr_payload event))) (rev events)).
End pure.

(** ** Operations *)

Definition opM (C : Type) : Type → Type := stateR (HomeWorld C) HomeError.
#[export] Instance opM_ret {C} : MRet (opM C) := stateR_ret.
#[export] Instance opM_bind {C} : MBind (opM C) := stateR_bind.

Definition lift {C A} (r : result HomeError A) : opM C A := lift_result r.

Section operations.
  Context `{!Sha256} `{!JsonText} `{!Ed25519} `{!WireSerde} `{!CustodySerde} `{!MessageSerde}.
  Context `{!HomeServices} {C : Type} (io : nat → AppendIo).

(** Reads of the world. *)
Definition config : opM C HomeConfig := gets w_config.
Definition locked : opM C HomeState := gets w_state.
Definition home : opM C (FunctionHome C) := gets w_home.

(** [self.ensure_authoritative_state(&state)?] on the locked state; also the body
    of [ensure_operational_write_authority]. *)
Definition authoritative : opM C unit :=
  fun w => (ensure_authoritative_state (w_home w) (w_state w), w).
Definition ensure_operational_write_authority : opM C unit := authoritative.

Definition persist (record : HomeLedgerRecord) : opM C unit :=
  fun w =>
    let '(r, h, s, d) :=
      persist_and_apply (w_home w) (io (w_appends w)) record (w_state w) (w_disk w) in
    (r, mkHomeWorld h s d (w_binding w) (w_sweep w) (w_me w) (S (w_appends w))).

(** *** Values *)

Definition current_recipient_binding : opM C (SignedRecordV1 RecipientKeyBindingV1) :=
  cached ← gets w_binding;
  match cached with
  | Some binding => mret binding
  | None =>
      binding ← lift (map_err (fun e => HState ("custody key rewrapper unavailable: " +:+ e))
                        svc_current_binding);
      cf ← config;
      _ ← lift (verify_current_recipient_binding cf binding);
      _ ← modify (set_binding binding);
      mret binding
  end.

Definition require_value (value : ValueRefV1) : opM C unit :=
  _ ← lift (map_err (fun reason =>
              HInvalid ("job blob unavailable: " +:+ ContractError_to_string reason))
              (ValueRefV1_verify_available value));
  cf ← config;
  match value with
  | VSealed sealed =>
      match List.filter (fun wrap => bool_decide (rw_recipient wrap = cf_home cf))
              (sv_recipients sealed) with
      | [] => mret tt
      | [home_wrap] =>
          binding ← current_recipient_binding;
          _ ← lift (reject (bool_decide (sv_suite sealed ≠ rk_suite (sr_payload binding)))
                (HUnauthorized
                   "sealed value Home envelope does not use the current recipient binding"));
          binding_hash ← lift (invalid (canonical_hash binding));
          lift (reject (bool_decide (rw_binding_hash home_wrap ≠ binding_hash))
                (HUnauthorized
                   "sealed value Home envelope does not use the current recipient binding"))
      | _ :: _ :: _ =>
          lift (Err (HInvalid "sealed value carries multiple envelopes for its Home"))
      end
  | _ => mret tt
  end.

Definition require_receipt_values (stage : ExecutionStageV1) : opM C unit :=
  match stage with
  | XProgress _ progress => require_value progress
  | XCheckpoint _ checkpoint => require_value checkpoint
  | XSucceeded value => require_value value
  | XFailed error _ => require_value error
  | _ => mret tt
  end.

(** *** Submission *)

Definition validate_job_request_signed_by (request : SignedRecordV1 JobSubmitV1)
    (authorized_signer : string) : opM C (JobHandleV1 * string) :=
  let q := sr_payload request in
  _ ← lift (invalid (SignedRecordV1_validate JobSubmitV1_validate request));
  _ ← require_value (js_input q);
  _ ← lift (reject (unsigned SCHEMA_JOB_V1 request)
        (HUnauthorized "invalid job-submission signature"));
  cf ← config;
  _ ← lift (reject (bool_decide (js_home q ≠ cf_home cf)
                    || bool_decide (sr_signer request ≠ authorized_signer))
        (HUnauthorized "submission is not signed by the authority that approved this operation"));
  job ← lift (invalid (derive_job_id (js_home q) (js_caller_idempotency_key q)));
  request_hash ← lift (invalid (request_hash q));
  mret (mkJobHandleV1 (cf_home cf) job, request_hash).

Definition validate_job_request (request : SignedRecordV1 JobSubmitV1) :
    opM C (JobHandleV1 * string) :=
  cf ← config; validate_job_request_signed_by request (cf_home cf).

Definition duplicate_effects_unsafe (q : JobSubmitV1) (resolved : ResolvedFunctionV1) : bool :=
  is_at_least_once (js_delivery q)
  && negb (js_allow_duplicate_effects q)
  && negb match svc_effect resolved with EffectReadOnly | EffectIdempotent => true | _ => false end.

Definition prepare_submission_signed_by (request : SignedRecordV1 JobSubmitV1)
    (resolution : SignedRecordV1 ResolutionReceiptV1)
    (deployment : SignedRecordV1 DeploymentReceiptV1) (authorized_signer : string) :
    opM C PreparedSubmission :=
  let q := sr_payload request in
  '(handle, request_hash) ← validate_job_request_signed_by request authorized_signer;
  _ ← lift (invalid (SignedRecordV1_validate ResolutionReceiptV1_validate resolution));
  _ ← lift (invalid (SignedRecordV1_validate DeploymentReceiptV1_validate deployment));
  _ ← lift (reject (negb (SignedRecordV1_verify resolution)
                    || negb (is_ok (verify_deployment_receipt deployment)))
        (HUnauthorized "resolution/deployment receipt signature is invalid"));
  _ ← lift (refused "resolution" (svc_allow_resolution resolution));
  _ ← lift (refused "deployment" (svc_allow_deployment deployment));
  _ ← lift (reject
        (bool_decide (rr_selector (sr_payload resolution) ≠ js_function q)
         || bool_decide (rr_function (sr_payload resolution) ≠ dr_function (sr_payload deployment))
         || bool_decide (rr_artifact_hash (sr_payload resolution)
                         ≠ dr_artifact_hash (sr_payload deployment)))
        (HInvalid "submission, resolution, and deployment pins do not match"));
  let resolved := mkResolvedFunctionV1 (js_function q) (rr_function (sr_payload resolution))
                    (rr_artifact_hash (sr_payload resolution)) (Some resolution) in
  _ ← lift (invalid (ResolvedFunctionV1_validate resolved));
  _ ← lift (reject (duplicate_effects_unsafe q resolved)
        (HInvalid
"at-least-once for an unknown/non-idempotent function requires allow_duplicate_effects"));
  let spec := mkJobSpecV1 handle (default handle (js_parent q)) (js_caller_idempotency_key q)
                request_hash resolved deployment (js_input q) (js_delivery q)
                (js_allow_duplicate_effects q) (js_parent q) (js_causal q) (js_access q)
                (js_evidence q) (js_result_recipients q) (js_submitted_at_unix_ms q) in
  _ ← lift (invalid (JobSpecV1_validate spec));
  mret (mkPreparedSubmission handle request_hash spec).

Definition prepare_submission (request : SignedRecordV1 JobSubmitV1)
    (resolution : SignedRecordV1 ResolutionReceiptV1)
    (deployment : SignedRecordV1 DeploymentReceiptV1) : opM C PreparedSubmission :=
  cf ← config; prepare_submission_signed_by request resolution deployment (cf_home cf).

(** The two duplicate checks of [submit], before and after the submission is
    prepared: what is returned early. *)
Definition existing_submission (state : HomeState) (handle : JobHandleV1) (request_hash : string) :
    option (result HomeError SubmitOutcome) :=
  match hs_request_hashes state !! jh_job handle with
  | Some existing_hash =>
      Some (if decide (existing_hash = request_hash) then
              submitted ← submitted_event state (jh_job handle);
              Ok (Existing handle request_hash submitted)
            else Err (HConflict (jh_job handle)))
  | None => None
  end.

Definition jobs_at_cap (state : HomeState) (cf : HomeConfig) : result HomeError unit :=
  let jobs := N.of_nat (size (hs_jobs state)) in
  reject (bool_decide (cf_max_jobs cf ≤ jobs))
    (HCapacity (dec jobs +:+ " jobs reaches cap " +:+ dec (cf_max_jobs cf))).

Definition submit (request : SignedRecordV1 JobSubmitV1)
    (resolution : SignedRecordV1 ResolutionReceiptV1)
    (deployment : SignedRecordV1 DeploymentReceiptV1) : opM C SubmitOutcome :=
  _ ← ensure_operational_write_authority;
  _ ← lift (reject (bool_decide (is_Some (js_parent (sr_payload request)))
                    || negb (bool_decide (js_causal (sr_payload request) = [])))
        (HInvalid "direct Submit cannot assert parent/causal edges; use atomic ProposeChild"));
  '(handle, request_hash) ← validate_job_request request;
  state ← locked;
  _ ← authoritative;
  match existing_submission state handle request_hash with
  | Some r => lift r
  | None =>
      prepared ← prepare_submission request resolution deployment;
      state ← locked;
      _ ← authoritative;
      match existing_submission state (ps_handle prepared) request_hash with
      | Some r => lift r
      | None =>
          cf ← config;
          _ ← lift (jobs_at_cap state cf);
          h ← home;
          event ← lift (sign_event h state (ps_handle prepared) SQueued false
                          (sp_accepted_at_unix_ms (ps_spec prepared))
                          (KSubmitted (ps_spec prepared)));
          _ ← persist (one_event event);
          mret (Accepted (ps_handle prepared) (ps_request_hash prepared) event)
      end
  end.

(** *** Policy questions *)

Definition find_job (job : JobId) (state : HomeState) : result HomeError JobRecord :=
  ok_or (hs_jobs state !! job) (HNotFound job).

Definition placement_question (handle : JobHandleV1) :
    opM C (option (SignedRecordV1 PlacementQuestionV1)) :=
  _ ← ensure_operational_write_authority;
  cf ← config;
  _ ← lift (reject (bool_decide (jh_home handle ≠ cf_home cf)) (HNotFound (jh_job handle)));
  state ← locked;
  _ ← authoritative;
  job ← lift (find_job (jh_job handle) state);
  if decide (ss_state (jr_snapshot job) ≠ SQueued) then mret None
  else
    h ← home;
    let question := placement_question_of h handle (jr_snapshot job) in
    _ ← lift (invalid (PlacementQuestionV1_validate question));
    question ← lift (sign_placement_question question);
    mret (Some question).

Definition retry_question (handle : JobHandleV1) (failed_attempt : AttemptId) :
    opM C (SignedRecordV1 RetryQuestionV1) :=
  _ ← ensure_operational_write_authority;
  cf ← config;
  _ ← lift (reject (bool_decide (jh_home handle ≠ cf_home cf)
                    || bool_decide (at_home failed_attempt ≠ jh_home handle)
                    || bool_decide (at_job failed_attempt ≠ jh_job handle))
        (HNotFound (jh_job handle)));
  state ← locked;
  _ ← authoritative;
  job ← lift (find_job (jh_job handle) state);
  let snapshot := jr_snapshot job in
  _ ← lift (reject (bool_decide (ss_state snapshot ≠ SRetryPending)
                    || bool_decide (ss_current_attempt snapshot ≠ Some failed_attempt))
        (HState "job has no outstanding retry question for that failed attempt"));
  '(_, failure, retryable) ← lift (ok_or (find_failure failed_attempt (jr_events job))
        (HState "durable failed-attempt event is unavailable for retry policy"));
  h ← home;
  let question := retry_question_of h snapshot failed_attempt failure retryable in
  _ ← lift (invalid (RetryQuestionV1_validate question));
  lift (sign_retry_question question).

(** *** Grants *)

(** The grant [issue_grant] signs for the next attempt of a job. *)
Definition next_grant (cf : HomeConfig) (job : JobId) (snapshot : JobSnapshotV1) (number : N)
    (route_sequence grant_sequence : N) (deployment : SignedRecordV1 DeploymentReceiptV1)
    (issued_at_unix_ms deadline_unix_ms : option N) : ExecutionGrantV1 :=
  let spec := ss_spec snapshot in
  mkExecutionGrantV1 (mkAttemptId (cf_home cf) job number) (sp_request_hash spec) (cf_epoch cf)
    route_sequence (cf_realm cf) (cf_node cf) (cf_coordinator cf) (cf_home cf) (cf_authority cf)
    (rf_function (sp_function spec)) deployment (sp_input spec) (sp_delivery spec) grant_sequence
    issued_at_unix_ms deadline_unix_ms.

Definition next_attempt_number (snapshot : JobSnapshotV1) : N :=
  match ss_current_attempt snapshot with
  | Some attempt => next_number (at_number attempt)
  | None => 1
  end.

Definition issue_grant (job : JobId) (deployment : SignedRecordV1 DeploymentReceiptV1)
    (issued_at_unix_ms deadline_unix_ms : option N) : opM C (SignedRecordV1 ExecutionGrantV1) :=
  _ ← ensure_operational_write_authority;
  _ ← lift (invalid (SignedRecordV1_validate DeploymentReceiptV1_validate deployment));
  _ ← lift (reject (negb (is_ok (verify_deployment_receipt deployment)))
        (HUnauthorized "deployment receipt signature is invalid"));
  _ ← lift (refused "deployment" (svc_allow_deployment deployment));
  state ← locked;
  _ ← authoritative;
  record ← lift (find_job job state);
  let snapshot := jr_snapshot record in
  let spec := ss_spec snapshot in
  _ ← lift (reject (is_terminal (ss_state snapshot) || ss_cancel_requested snapshot)
        (HState "terminal/cancel-requested job cannot dispatch"));
  _ ← lift (reject (negb (is_dispatchable (ss_state snapshot)))
        (HState ("job is " +:+ state_debug (ss_state snapshot)
                 +:+ ", expected queued or retry_pending")));
  _ ← lift (reject (bool_decide (dr_function (sr_payload deployment)
                                 ≠ rf_function (sp_function spec)))
        (HInvalid "deployment does not pin the job function"));
  chosen ← lift (invalid (canonical_hash deployment));
  pinned ← lift (invalid (canonical_hash (sp_deployment spec)));
  _ ← lift (reject (bool_decide (chosen ≠ pinned))
        (HUnauthorized "alternate deployment requires an explicit signed placement decision"));
  let number := next_attempt_number snapshot in
  _ ← lift (reject (bool_decide (number = 0)
                    || bool_decide (DeliveryModeV1_max_attempts (sp_delivery spec) < number))
        (HState "delivery attempt bound exhausted"));
  h ← home;
  cf ← config;
  route_sequence ← lift (active_route_sequence (hs_custody state));
  let grant := next_grant cf job snapshot number route_sequence (hs_next_grant_sequence state)
                 deployment issued_at_unix_ms deadline_unix_ms in
  _ ← lift (invalid (ExecutionGrantV1_validate grant));
  signed_grant ← lift (signing (SignedRecordV1_sign SCHEMA_EXECUTE_V1 grant svc_signer));
  grant_hash ← lift (invalid (canonical_hash signed_grant));
  event ← lift (sign_event h state (sp_handle spec) SDispatching false issued_at_unix_ms
                  (KDispatchGranted grant_hash (eg_attempt grant)));
  _ ← persist (mkHomeLedgerRecord (Some signed_grant) None [event]);
  mret signed_grant.

Definition apply_placement_decision (decision : SignedRecordV1 PlacementDecisionV1) :
    opM C (SignedRecordV1 ExecutionGrantV1) :=
  let d := sr_payload decision in
  let job_id := jh_job (pd_job d) in
  _ ← ensure_operational_write_authority;
  _ ← lift (invalid (SignedRecordV1_validate PlacementDecisionV1_validate decision));
  _ ← lift (reject (unsigned SCHEMA_POLICY_V1 decision)
        (HUnauthorized "placement decision signature is invalid"));
  outstanding ← placement_question (pd_job d);
  expected_question ← lift (ok_or outstanding
        (HState "job has no outstanding placement question"));
  expected_hash ← lift (invalid (canonical_hash expected_question));
  _ ← lift (reject (bool_decide (pd_question_hash d ≠ expected_hash))
        (HUnauthorized "placement decision does not bind the exact outstanding signed question"));
  _ ← lift (refused "placement decision" (svc_allow_placement_decision decision));
  cf ← config;
  _ ← lift (reject (bool_decide (jh_home (pd_job d) ≠ cf_home cf)) (HNotFound job_id));
  state ← locked;
  _ ← authoritative;
  job ← lift (find_job job_id state);
  let snapshot := jr_snapshot job in
  _ ← lift (reject (is_terminal (ss_state snapshot) || ss_cancel_requested snapshot)
        (HState "placement decision arrived after the job stopped dispatching"));
  let deployment := sp_deployment (ss_spec snapshot) in
  _ ← lift (reject (bool_decide (pd_selected d ≠ dr_deployment (sr_payload deployment)))
        (HUnauthorized
           "placement decision selected a deployment outside the accepted candidate set"));
  match (attempt ← ss_current_attempt snapshot; hs_grants state !! key_of_attempt attempt) with
  | Some grant => mret grant
  | None => issue_grant job_id deployment None None
  end.

Definition already_scheduled (next_attempt : AttemptId)
    (events : list (SignedRecordV1 JobEventV1)) : bool :=
  existsb (fun event =>
    match je_kind (sr_payload event) with
    | KRetryScheduled existing _ => bool_decide (existing = next_attempt)
    | _ => false
    end) events.

(** The [Retry] arm of [apply_retry_decision]. *)
Definition schedule_retry (job : JobHandleV1) (failed_attempt next_attempt : AttemptId)
    (deployment : SignedRecordV1 DeploymentReceiptV1) (not_before_unix_ms : option N) :
    opM C (option (SignedRecordV1 ExecutionGrantV1)) :=
  let job_id := jh_job job in
  cf ← config;
  _ ← lift (reject (bool_decide (at_home next_attempt ≠ cf_home cf)
                    || bool_decide (at_job next_attempt ≠ job_id)
                    || bool_decide (at_home failed_attempt ≠ cf_home cf)
                    || bool_decide (at_job failed_attempt ≠ job_id))
        (HConflict "retry decision names a different job"));
  state ← locked;
  _ ← authoritative;
  record ← lift (find_job job_id state);
  let snapshot := jr_snapshot record in
  chosen ← lift (invalid (canonical_hash deployment));
  pinned ← lift (invalid (canonical_hash (sp_deployment (ss_spec snapshot))));
  _ ← lift (reject (bool_decide (chosen ≠ pinned))
        (HUnauthorized "retry selected a deployment outside the admitted candidate set"));
  match hs_grants state !! (job_id, at_number next_attempt) with
  | Some existing => mret (Some existing)
  | None =>
      _ ← lift (reject (bool_decide (ss_state snapshot ≠ SRetryPending))
            (HState "retry decision requires retry_pending state"));
      current ← lift (ok_or (ss_current_attempt snapshot) (HState "retry has no failed attempt"));
      _ ← lift (reject
            (bool_decide (current ≠ failed_attempt)
             || bool_decide (at_number next_attempt ≠ next_number (at_number current))
             || bool_decide (DeliveryModeV1_max_attempts (sp_delivery (ss_spec snapshot))
                             < at_number next_attempt))
            (HState "retry decision violates the numbered attempt bound"));
      _ ← (if already_scheduled next_attempt (jr_events record) then mret tt
           else
             h ← home;
             event ← lift (sign_event h state (sp_handle (ss_spec snapshot)) SRetryPending
                             (ss_cancel_requested snapshot) None
                             (KRetryScheduled next_attempt not_before_unix_ms));
             persist (one_event event));
      grant ← issue_grant job_id deployment None None;
      mret (Some grant)
  end.

(** The terminal event a policy may synthesise. *)
Definition stop_kind (terminal_state : JobStateV1) (reason : string) (attempt : option AttemptId) :
    result HomeError JobEventKindV1 :=
  match terminal_state with
  | SFailed =>
      Ok (KFailed (VInline (JObject [("kind", JString "policy_stopped_retry");
                                     ("reason", JString reason)])))
  | SCancelled => Ok (KCancelled reason)
  | SIndeterminate =>
      attempt ← ok_or attempt (HState "indeterminate retry stop has no current attempt");
      Ok (KIndeterminate attempt reason false)
  | _ => Err (HInvalid "retry policy cannot synthesize success or another non-failure terminal")
  end.

(** The [Stop] arm of [apply_retry_decision]. *)
Definition stop_retry (job : JobHandleV1) (failed_attempt : AttemptId)
    (terminal_state : JobStateV1) (reason : string) :
    opM C (option (SignedRecordV1 ExecutionGrantV1)) :=
  let job_id := jh_job job in
  state ← locked;
  _ ← authoritative;
  record ← lift (find_job job_id state);
  let snapshot := jr_snapshot record in
  if is_terminal (ss_state snapshot) then mret None
  else
    _ ← lift (reject (bool_decide (ss_state snapshot ≠ SRetryPending))
          (HState "retry stop requires retry_pending state"));
    _ ← lift (reject (bool_decide (ss_current_attempt snapshot ≠ Some failed_attempt))
          (HConflict "retry stop does not bind the current failed attempt"));
    kind ← lift (stop_kind terminal_state reason (ss_current_attempt snapshot));
    h ← home;
    event ← lift (sign_event h state (sp_handle (ss_spec snapshot)) terminal_state
                    (ss_cancel_requested snapshot) None kind);
    _ ← persist (one_event event);
    mret None.

Definition apply_retry_decision (decision : SignedRecordV1 RetryDecisionV1) :
    opM C (option (SignedRecordV1 ExecutionGrantV1)) :=
  _ ← ensure_operational_write_authority;
  _ ← lift (invalid (SignedRecordV1_validate RetryDecisionV1_validate decision));
  _ ← lift (reject (unsigned SCHEMA_POLICY_V1 decision)
        (HUnauthorized "retry decision signature is invalid"));
  let '(handle, failed_attempt, question_hash) :=
    match sr_payload decision with
    | RetryAgain question_hash job failed_attempt _ _ _
    | RetryStop question_hash job failed_attempt _ _ => (job, failed_attempt, question_hash)
    end in
  cf ← config;
  _ ← lift (reject (bool_decide (jh_home handle ≠ cf_home cf)) (HNotFound (jh_job handle)));
  expected_question ← retry_question handle failed_attempt;
  expected_hash ← lift (invalid (canonical_hash expected_question));
  _ ← lift (reject (bool_decide (question_hash ≠ expected_hash))
        (HUnauthorized "retry decision does not bind the exact outstanding signed question"));
  _ ← lift (refused "retry decision" (svc_allow_retry_decision decision));
  match sr_payload decision with
  | RetryAgain _ job failed_attempt next_attempt deployment not_before_unix_ms =>
      schedule_retry job failed_attempt next_attempt deployment not_before_unix_ms
  | RetryStop _ job failed_attempt terminal_state reason =>
      stop_retry job failed_attempt terminal_state reason
  end.

(** *** Executor receipts *)

Definition event_from_receipt (snapshot : JobSnapshotV1) (receipt : ExecutionReceiptV1) :
    opM C (JobStateV1 * bool * JobEventKindV1) :=
  let spec := ss_spec snapshot in
  let attempt := ex_attempt receipt in
  let cancel := ss_cancel_requested snapshot in
  let retry := is_at_least_once (sp_delivery spec)
               && bool_decide (at_number attempt
                               < DeliveryModeV1_max_attempts (sp_delivery spec)) in
  _ ← require_receipt_values (ex_stage receipt);
  _ ← lift (match ex_stage receipt with
            | XSucceeded value => require_result_recipient_wraps value (sp_result_recipients spec)
            | _ => Ok tt
            end);
  mret match ex_stage receipt with
       | XClaimed => (SDispatching, cancel, KClaimed attempt (ex_executor receipt))
       | XStarted => (SRunning, cancel, KStarted attempt)
       | XProgress sequence progress =>
           (ss_state snapshot, cancel, KProgress attempt sequence progress)
       | XCheckpoint sequence checkpoint =>
           (ss_state snapshot, cancel, KCheckpoint attempt sequence checkpoint)
       | XSucceeded value => (SSucceeded, cancel, KSucceeded attempt value)
       | XFailed error retryable =>
           (if retry then SRetryPending else SFailed, cancel,
            KAttemptFailed attempt error retryable)
       | XCancelled reason => (SCancelled, true, KCancelled reason)
       | XIndeterminate reason execution_may_have_occurred =>
           (if retry then SRetryPending
            else if is_at_least_once (sp_delivery spec) then SFailed else SIndeterminate,
            cancel, KIndeterminate attempt reason execution_may_have_occurred)
       | XControlAcknowledged control disposition _ =>
           (ss_state snapshot, cancel, KControlAcknowledged control attempt disposition)
       | XControlQueued control => (ss_state snapshot, cancel, KControlQueued control attempt)
       end.

(** The durable event that carries a receipt. *)
Definition find_receipt_event (receipt_hash : string)
    (events : list (SignedRecordV1 JobEventV1)) : option (SignedRecordV1 JobEventV1) :=
  List.find (fun event =>
    match je_foreign_receipt (sr_payload event) with
    | Some foreign =>
        match canonical_hash foreign with
        | Ok hash => bool_decide (hash = receipt_hash)
        | Err _ => false
        end
    | None => false
    end) events.

Definition apply_executor_receipt (receipt : SignedRecordV1 ExecutionReceiptV1) :
    opM C ApplyReceiptOutcome :=
  let r := sr_payload receipt in
  let job_id := at_job (ex_attempt r) in
  let attempt_key := key_of_attempt (ex_attempt r) in
  _ ← ensure_operational_write_authority;
  _ ← lift (invalid (SignedRecordV1_validate ExecutionReceiptV1_validate receipt));
  receipt_hash ← lift (invalid (canonical_hash receipt));
  state ← locked;
  _ ← authoritative;
  match hs_receipts state !! (job_id, at_number (ex_attempt r), ex_sequence r) with
  | Some existing =>
      if decide (existing = receipt_hash) then
        event ← lift (ok_or
          (job ← hs_jobs state !! job_id; find_receipt_event receipt_hash (jr_events job))
          (HState "receipt dedup state is incomplete"));
        mret (ReceiptDuplicate event)
      else lift (Err (HConflict (job_id +:+ " attempt " +:+ dec (at_number (ex_attempt r))
                                 +:+ " receipt sequence " +:+ dec (ex_sequence r))))
  | None =>
      grant ← lift (ok_or (hs_grants state !! attempt_key)
                      (HState "receipt has no durable attempt grant"));
      _ ← lift (map_err (fun e => HUnauthorized (ContractError_to_string e))
                  (verify_execution_receipt receipt grant));
      _ ← lift (refused "executor receipt"
                  (svc_allow_executor_receipt receipt (eg_deployment (sr_payload grant))));
      job ← lift (find_job job_id state);
      let snapshot := jr_snapshot job in
      let last_for_attempt := default 0 (hs_highest_receipt_sequences state !! attempt_key) in
      _ ← lift (reject (bool_decide (ex_sequence r = last_for_attempt))
            (HState ("receipt sequence " +:+ dec (ex_sequence r)
                     +:+ " matches the high-water mark but has no retained identity")));
      let late := bool_decide (ex_sequence r < last_for_attempt)
                  || is_terminal (ss_state snapshot) in
      '(state_after, cancel_requested, kind) ←
        (if late then
           _ ← require_receipt_values (ex_stage r);
           mret (ss_state snapshot, ss_cancel_requested snapshot,
                 KLateReceipt (ex_attempt r) (ex_stage r))
         else event_from_receipt snapshot r);
      h ← home;
      event ← lift (sign_event_with_receipt h state (sp_handle (ss_spec snapshot)) state_after
                      cancel_requested (ex_observed_at_unix_ms r) kind (Some receipt));
      _ ← persist (mkHomeLedgerRecord None (Some receipt) [event]);
      mret (ReceiptApplied event)
  end.

(** *** Controls *)

(** The durable event of a retained control. *)
Definition find_control_event (control : ControlId) (control_hash : string)
    (events : list (SignedRecordV1 JobEventV1)) : option (SignedRecordV1 JobEventV1) :=
  List.find (fun event =>
    match je_kind (sr_payload event) with
    | KControlRequested durable _ => bool_decide (jc_control (sr_payload durable) = control)
    | KAccessUpdated control' request_hash _ =>
        bool_decide (control' = control) && bool_decide (request_hash = control_hash)
    | _ => false
    end) events.

(** The state, cancellation flag and kind of a control's event. *)
Definition control_effect (request : SignedRecordV1 JobControlV1) (control_hash : string)
    (snapshot : JobSnapshotV1) : result HomeError (JobStateV1 * bool * JobEventKindV1) :=
  let requested := KControlRequested request (ss_current_attempt snapshot) in
  match jc_kind (sr_payload request) with
  | Cancel _ =>
      Ok (if is_parked (ss_state snapshot) then SCancelled else ss_state snapshot, true, requested)
  | AccessUpdate add_readers remove_readers add_controllers remove_controllers =>
      access ← update_access (sp_access (ss_spec snapshot)) add_readers remove_readers
                 add_controllers remove_controllers;
      Ok (ss_state snapshot, ss_cancel_requested snapshot,
          KAccessUpdated (jc_control (sr_payload request)) control_hash access)
  | _ => Ok (ss_state snapshot, ss_cancel_requested snapshot, requested)
  end.

Definition control_plain (request : SignedRecordV1 JobControlV1) :
    opM C (SignedRecordV1 JobEventV1) :=
  let q := sr_payload request in
  let job_id := jh_job (jc_handle q) in
  _ ← lift (invalid (SignedRecordV1_validate JobControlV1_validate request));
  _ ← match jc_kind q with Steer value => require_value value | _ => mret tt end;
  _ ← lift (reject (unsigned SCHEMA_JOB_V1 request)
        (HUnauthorized "invalid job control signature"));
  state ← locked;
  _ ← authoritative;
  job ← lift (find_job job_id state);
  let snapshot := jr_snapshot job in
  cf ← config;
  _ ← lift (reject (bool_decide (jh_home (jc_handle q) ≠ cf_home cf)
                    || bool_decide (jc_expected_home_epoch q ≠ cf_epoch cf))
        (HState "control names the wrong home epoch"));
  let owner := bool_decide (sr_signer request = cf_home cf) in
  let controller := is_controller (sr_signer request) (ss_spec snapshot) in
  _ ← lift (reject (negb owner && negb controller)
        (HUnauthorized "signer is not owner or controller"));
  _ ← lift (reject (is_access_update (jc_kind q) && negb owner)
        (HUnauthorized "only the owner may update access"));
  control_hash ← lift (invalid (canonical_hash request));
  match hs_controls state !! (job_id, jc_control q) with
  | Some existing_hash =>
      _ ← lift (reject (bool_decide (existing_hash ≠ control_hash))
            (HConflict ("control `" +:+ jc_control q
                        +:+ "` changed after durable acceptance for job `" +:+ job_id +:+ "`")));
      lift (ok_or (find_control_event (jc_control q) control_hash (jr_events job))
              (HState "control dedup state is incomplete"))
  | None =>
      _ ← lift (reject (bool_decide (MAX_JOB_CONTROLS
                                     ≤ default 0 (hs_control_counts state !! job_id)))
            (HCapacity ("job controls exceed " +:+ dec MAX_JOB_CONTROLS)));
      _ ← lift (reject (is_terminal (ss_state snapshot))
            (HState "control arrived after terminal state"));
      _ ← lift (reject (is_steer (jc_kind q)
                        && (negb (is_active (ss_state snapshot))
                            || bool_decide (ss_current_attempt snapshot = None)))
            (HState "steer requires an active dispatching or running attempt"));
      '(state_after, cancel_requested, kind) ← lift (control_effect request control_hash snapshot);
      h ← home;
      event ← lift (sign_event h state (sp_handle (ss_spec snapshot)) state_after cancel_requested
                      (jc_issued_at_unix_ms q) kind);
      _ ← persist (one_event event);
      mret event
  end.

(** The owner/controller check of [propose_child], made before and after the
    injected services are consulted. *)
Definition proposal_parent (request : SignedRecordV1 JobControlV1) (cf : HomeConfig)
    (state : HomeState) : result HomeError JobRecord :=
  let q := sr_payload request in
  _ ← reject (bool_decide (jh_home (jc_handle q) ≠ cf_home cf)
              || bool_decide (jc_expected_home_epoch q ≠ cf_epoch cf))
        (HState "child proposal names the wrong home epoch");
  parent ← find_job (jh_job (jc_handle q)) state;
  _ ← reject (negb (bool_decide (sr_signer request = cf_home cf))
              && negb (is_controller (sr_signer request) (ss_spec (jr_snapshot parent))))
        (HUnauthorized "signer is not owner or controller");
  Ok parent.

Definition parent_event_exists (parent_attempt : AttemptId) (parent_event_hash : string)
    (events : list (SignedRecordV1 JobEventV1)) : bool :=
  existsb (fun event =>
    bool_decide (event_attempt (je_kind (sr_payload event)) = Some parent_attempt)
    && match canonical_hash event with
       | Ok hash => bool_decide (hash = parent_event_hash)
       | Err _ => false
       end) events.

Definition propose_child (request : SignedRecordV1 JobControlV1) :
    opM C (SignedRecordV1 JobEventV1) :=
  let q := sr_payload request in
  let job_id := jh_job (jc_handle q) in
  _ ← lift (invalid (SignedRecordV1_validate JobControlV1_validate request));
  _ ← lift (reject (unsigned SCHEMA_JOB_V1 request)
        (HUnauthorized "invalid causal child control signature"));
  match jc_kind q with
  | ProposeChild parent_attempt parent_event_hash spawn_key child_request_hash submit resolution
      deployment =>
      _ ← lift (reject (bool_decide (sr_signer submit ≠ sr_signer request))
            (HUnauthorized "child submission and causal proposal must have the same signer"));
      state ← locked;
      _ ← authoritative;
      cf ← config;
      _ ← lift (proposal_parent request cf state);
      prepared ← prepare_submission_signed_by submit resolution deployment (sr_signer request);
      _ ← lift (reject (bool_decide (ps_request_hash prepared ≠ child_request_hash))
            (HConflict "child request hash changed for the proposed spawn"));
      _ ← lift (reject (bool_decide (sp_parent (ps_spec prepared) ≠ Some (jc_handle q)))
            (HInvalid "atomic child submission must name the controlled job as parent"));
      _ ← lift (reject (bool_decide (ps_handle prepared = jc_handle q))
            (HConflict "a job cannot spawn itself"));
      state ← locked;
      _ ← authoritative;
      cf ← config;
      parent ← lift (proposal_parent request cf state);
      let snapshot := jr_snapshot parent in
      let root := sp_root (ss_spec snapshot) in
      _ ← lift (reject (bool_decide (jh_home (sp_handle (ss_spec snapshot))
                                     ≠ jh_home (ps_handle prepared))
                        || bool_decide (jh_home root ≠ jh_home (ps_handle prepared)))
            (HInvalid "child, parent, and workflow root must remain in one Home"));
      let spec := with_root root (ps_spec prepared) in
      _ ← lift (invalid (JobSpecV1_validate spec));
      _ ← lift (reject (is_terminal (ss_state snapshot))
            (HState "child proposal arrived after terminal parent state"));
      _ ← lift (reject (negb (parent_event_exists parent_attempt parent_event_hash
                                (jr_events parent)))
            (HUnauthorized "parent event hash does not name an event for the proposed attempt"));
      match hs_child_spawns state !! (at_job parent_attempt, at_number parent_attempt, spawn_key)
      with
      | Some existing =>
          if bool_decide (cw_parent_event_hash existing = parent_event_hash)
             && bool_decide (cw_child_request_hash existing = child_request_hash)
             && bool_decide (cw_child existing = ps_handle prepared)
             && bool_decide (cw_root existing = sp_root spec)
          then mret (cw_event existing)
          else lift (Err (HConflict ("child spawn `" +:+ spawn_key
                                     +:+ "` changed after durable acceptance")))
      | None =>
          _ ← lift (reject (bool_decide (MAX_JOB_CONTROLS
                                         ≤ default 0 (hs_control_counts state !! job_id)))
                (HCapacity ("job controls exceed " +:+ dec MAX_JOB_CONTROLS)));
          _ ← lift (reject (bool_decide (is_Some (hs_jobs state !! jh_job (ps_handle prepared))))
                (HConflict ("child job `" +:+ jh_job (ps_handle prepared)
                            +:+ "` already exists outside this spawn")));
          _ ← lift (jobs_at_cap state cf);
          h ← home;
          parent_event ← lift (sign_event h state (sp_handle (ss_spec snapshot))
            (ss_state snapshot) (ss_cancel_requested snapshot) (jc_issued_at_unix_ms q)
            (KChildSpawned parent_attempt parent_event_hash spawn_key (ps_handle prepared)
               (sp_root spec) child_request_hash));
          child_event ← lift (sign_event h state (ps_handle prepared) SQueued false
            (sp_accepted_at_unix_ms spec) (KSubmitted spec));
          _ ← persist (mkHomeLedgerRecord None None [parent_event; child_event]);
          mret parent_event
      end
  | _ => lift (Err (HInvalid "control is not a child proposal"))
  end.

Definition control (request : SignedRecordV1 JobControlV1) : opM C (SignedRecordV1 JobEventV1) :=
  _ ← ensure_operational_write_authority;
  match jc_kind (sr_payload request) with
  | ProposeChild _ _ _ _ _ _ _ => propose_child request
  | _ => control_plain request
  end.

(** The executor-facing endorsement of a durable control, with its route. *)
Definition endorsed_control (caller_request : SignedRecordV1 JobControlV1)
    (durable_event : SignedRecordV1 JobEventV1) :
    opM C (option (SignedRecordV1 ExecutionControlV1 * Address)) :=
  _ ← ensure_operational_write_authority;
  match je_kind (sr_payload durable_event) with
  | KControlRequested durable_request attempt =>
      _ ← lift (reject (bool_decide (durable_request ≠ caller_request))
            (HConflict "durable control event does not contain the exact signed caller request"));
      match attempt with
      | None => mret None
      | Some attempt =>
          state ← locked;
          _ ← authoritative;
          _ ← lift (find_job (jh_job (jc_handle (sr_payload caller_request))) state);
          grant ← lift (ok_or (hs_grants state !! key_of_attempt attempt)
                          (HState "controlled attempt has no durable grant"));
          h ← home;
          route_sequence ← lift (active_route_sequence (hs_custody state));
          endorsed ← lift (sign_control_endorsement h caller_request durable_event grant
                             route_sequence);
          mret (Some (endorsed, executor_target (fh_config h)
                                  (sr_payload (eg_deployment (sr_payload grant)))))
      end
  | _ => mret None
  end.
End operations.
