(* ===== verification/HomeProtocol.v ===== *)
(** * The record protocol of the Home

    The abstract specification of the operations of [HomeApi]: which ledger
    records a Home may write in which state ([produced]), and that every call of
    the public interface does nothing to the journal, the ledger and the disk but
    persist such records ([run_call_moves]). The properties of [HomeApiLaws] are
    proved on the protocol, by induction on the records written. *)

From S2P Require Import Prelude GxShape GxHash FnCrypto FnTypes FnWire FnCustody FnMessages.
From S2P Require Import AetherAddress Journal HomeLedger HomeLaws HomeGrowth HomeApi.

(** ** Weakest preconditions of operations *)

Section calculus.
  Context {C A B : Type}.

Definition wp (m : opM C A) (Q : result HomeError A → HomeWorld C → Prop) (w : HomeWorld C) :
    Prop := Q (m w).1 (m w).2.

Lemma wp_lift (r : result HomeError A) (Q : result HomeError A → HomeWorld C → Prop) w :
  (∀ a, r = Ok a → Q (Ok a) w) → (∀ e, r = Err e → Q (Err e) w) → wp (lift r) Q w.
Proof. unfold wp. destruct r; cbn; auto. Qed.
Lemma wp_ret (a : A) (Q : result HomeError A → HomeWorld C → Prop) w :
  Q (Ok a) w → wp (mret a) Q w.
Proof. done. Qed.
Lemma wp_gets (f : HomeWorld C → A) (Q : result HomeError A → HomeWorld C → Prop) w :
  Q (Ok (f w)) w → wp (gets f) Q w.
Proof. done. Qed.
Lemma wp_mono (m : opM C A) (P Q : result HomeError A → HomeWorld C → Prop) w :
  wp m P w → (∀ r w', P r w' → Q r w') → wp m Q w.
Proof. unfold wp. auto. Qed.
Lemma wp_run (m : opM C A) (Q : result HomeError A → HomeWorld C → Prop) w r w' :
  wp m Q w → m w = (r, w') → Q r w'.
Proof. unfold wp. intros HQ E. by rewrite E in HQ. Qed.
End calculus.

Lemma wp_bind {C A B} (m : opM C A) (f : A → opM C B) (Q : result HomeError B → HomeWorld C → Prop)
    w :
  wp m (fun r w' => match r with Ok a => wp (f a) Q w' | Err e => Q (Err e) w' end) w →
  wp (m ≫= f) Q w.
Proof.
  unfold wp, mbind, opM_bind, stateR_bind. by destruct (m w) as [[a|e] w'].
Qed.

Lemma wp_modify {C} f (Q : result HomeError unit → HomeWorld C → Prop) w :
  Q (Ok tt) (f w) → wp (modify f) Q w.
Proof. done. Qed.

(** The cached binding is all an operation may have changed. *)
Record unchanged {C} (w w' : HomeWorld C) : Prop := {
  un_home : w_home w' = w_home w;
  un_state : w_state w' = w_state w;
  un_disk : w_disk w' = w_disk w;
  un_sweep : w_sweep w' = w_sweep w;
  un_me : w_me w' = w_me w;
  un_appends : w_appends w' = w_appends w
}.
#[export] Instance unchanged_preorder {C} : PreOrder (@unchanged C).
Proof. split; [by constructor|]. intros a b c [] []. constructor; congruence. Qed.

Lemma reject_Ok {E} (b : bool) (e : E) u : reject b e = Ok u → b = false.
Proof. by destruct b. Qed.

(** ** The records a Home may write *)

Section protocol.
  Context `{!Sha256} `{!JsonText} `{!Ed25519} `{!WireSerde} `{!CustodySerde} `{!MessageSerde}.
  Context `{!HomeServices} {C : Type}.

Definition controls_job (h : FunctionHome C) (signer : string) (r : JobRecord) : Prop :=
  signer = cf_home (fh_config h) ∨ is_controller signer (ss_spec (jr_snapshot r)) = true.

(** The event a receipt turns into: what it may say of the job. *)
Record receipt_event (receipt : ExecutionReceiptV1) (snapshot : JobSnapshotV1)
    (state_after : JobStateV1) (cancel : bool) (kind : JobEventKindV1) : Prop := {
  re_cancel : ss_cancel_requested snapshot = true → cancel = true;
  re_attempt : current_attempt_of kind = None ∨ current_attempt_of kind = Some (ex_attempt receipt);
  re_not_submitted : is_submitted kind = false
}.

Inductive produced (h : FunctionHome C) (s : HomeState) : HomeLedgerRecord → Prop :=
  | produced_submitted spec event :
      jh_home (sp_handle spec) = cf_home (fh_config h) →
      sp_parent spec = None →
      hs_request_hashes s !! jh_job (sp_handle spec) = None →
      sign_event h s (sp_handle spec) SQueued false (sp_accepted_at_unix_ms spec)
        (KSubmitted spec) = Ok event →
      produced h s (one_event event)
  | produced_granted job r number route deployment issued deadline grant grant_hash event :
      let snapshot := jr_snapshot r in
      let spec := ss_spec snapshot in
      hs_jobs s !! job = Some r →
      is_dispatchable (ss_state snapshot) = true →
      ss_cancel_requested snapshot = false →
      number = next_attempt_number snapshot →
      0 < number → number ≤ DeliveryModeV1_max_attempts (sp_delivery spec) →
      dr_function (sr_payload deployment) = rf_function (sp_function spec) →
      (∃ d, canonical_hash deployment = Ok d ∧ canonical_hash (sp_deployment spec) = Ok d) →
      verify_deployment_receipt deployment = Ok tt →
      SignedRecordV1_sign SCHEMA_EXECUTE_V1
        (next_grant (fh_config h) job snapshot number route (hs_next_grant_sequence s) deployment
           issued deadline) svc_signer = Ok grant →
      canonical_hash grant = Ok grant_hash →
      sign_event h s (sp_handle spec) SDispatching false issued
        (KDispatchGranted grant_hash (eg_attempt (sr_payload grant))) = Ok event →
      produced h s (mkHomeLedgerRecord (Some grant) None [event])
  | produced_receipt receipt r grant state_after cancel kind event :
      let x := sr_payload receipt in
      hs_receipts s !! receipt_key x = None →
      hs_grants s !! key_of_attempt (ex_attempt x) = Some grant →
      verify_execution_receipt receipt grant = Ok tt →
      hs_jobs s !! at_job (ex_attempt x) = Some r →
      receipt_event x (jr_snapshot r) state_after cancel kind →
      sign_event_with_receipt h s (sp_handle (ss_spec (jr_snapshot r))) state_after cancel
        (ex_observed_at_unix_ms x) kind (Some receipt) = Ok event →
      produced h s (mkHomeLedgerRecord None (Some receipt) [event])
  | produced_control request r control_hash state_after cancel kind event :
      let q := sr_payload request in
      unsigned SCHEMA_JOB_V1 request = false →
      hs_jobs s !! jh_job (jc_handle q) = Some r →
      controls_job h (sr_signer request) r →
      (is_access_update (jc_kind q) = true → sr_signer request = cf_home (fh_config h)) →
      is_terminal (ss_state (jr_snapshot r)) = false →
      canonical_hash request = Ok control_hash →
      control_effect request control_hash (jr_snapshot r) = Ok (state_after, cancel, kind) →
      sign_event h s (sp_handle (ss_spec (jr_snapshot r))) state_after cancel
        (jc_issued_at_unix_ms q) kind = Ok event →
      produced h s (one_event event)
  | produced_child request r spec attempt event_hash spawn_key child_hash parent_event child_event :
      let q := sr_payload request in
      unsigned SCHEMA_JOB_V1 request = false →
      hs_jobs s !! jh_job (jc_handle q) = Some r →
      controls_job h (sr_signer request) r →
      jh_home (sp_handle spec) = cf_home (fh_config h) →
      sp_parent spec = Some (jc_handle q) →
      sp_root spec = sp_root (ss_spec (jr_snapshot r)) →
      sp_handle spec ≠ jc_handle q →
      hs_jobs s !! jh_job (sp_handle spec) = None →
      sign_event h s (sp_handle (ss_spec (jr_snapshot r))) (ss_state (jr_snapshot r))
        (ss_cancel_requested (jr_snapshot r)) (jc_issued_at_unix_ms q)
        (KChildSpawned attempt event_hash spawn_key (sp_handle spec) (sp_root spec) child_hash)
        = Ok parent_event →
      sign_event h s (sp_handle spec) SQueued false (sp_accepted_at_unix_ms spec)
        (KSubmitted spec) = Ok child_event →
      produced h s (mkHomeLedgerRecord None None [parent_event; child_event])
  | produced_scheduled job r next_attempt not_before event :
      let snapshot := jr_snapshot r in
      hs_jobs s !! job = Some r →
      ss_state snapshot = SRetryPending →
      at_number next_attempt ≤ DeliveryModeV1_max_attempts (sp_delivery (ss_spec snapshot)) →
      sign_event h s (sp_handle (ss_spec snapshot)) SRetryPending (ss_cancel_requested snapshot)
        None (KRetryScheduled next_attempt not_before) = Ok event →
      produced h s (one_event event)
  | produced_stopped job r terminal_state reason kind event :
      let snapshot := jr_snapshot r in
      hs_jobs s !! job = Some r →
      ss_state snapshot = SRetryPending →
      stop_kind terminal_state reason (ss_current_attempt snapshot) = Ok kind →
      sign_event h s (sp_handle (ss_spec snapshot)) terminal_state (ss_cancel_requested snapshot)
        None kind = Ok event →
      produced h s (one_event event).

Context (io : nat → AppendIo).

(** Steps of the protocol: a produced record is persisted, with or without
    success; what the Home caches may change at any time. *)
Inductive moves : HomeWorld C → HomeWorld C → Prop :=
  | moves_here w w' : unchanged w w' → moves w w'
  | moves_step w w1 record r w2 w3 :
      moves w w1 → produced (w_home w1) (w_state w1) record →
      persist io record w1 = (r, w2) → unchanged w2 w3 → moves w w3.

Lemma moves_unchanged w w1 w2 : moves w w1 → unchanged w1 w2 → moves w w2.
Proof.
  destruct 1 as [w w' U|w w0 record r w2' w3 M P R U]; intros U'.
  - constructor. by etrans.
  - eapply moves_step; [exact M|exact P|exact R|by etrans].
Qed.

Lemma moves_trans w w1 w2 : moves w w1 → moves w1 w2 → moves w w2.
Proof.
  intros M1 M2. revert M1. induction M2 as [w1 w2 U|w1 w2' record r w3 w4 M2 IH P R U]; intros M1.
  - by eapply moves_unchanged.
  - eapply moves_step; [by apply IH|exact P|exact R|done].
Qed.

Lemma wp_persist record (Q : result HomeError unit → HomeWorld C → Prop) w0 w :
  moves w0 w → produced (w_home w) (w_state w) record →
  (∀ r w', moves w0 w' → persist io record w = (r, w') → Q r w') →
  wp (persist io record) Q w.
Proof.
  intros M P HQ. unfold wp. destruct (persist io record w) as [r w'] eqn:E. simpl.
  apply HQ; [|done]. by eapply moves_step.
Qed.

(** ** Subroutines that write nothing *)

Lemma wp_authoritative (Q : result HomeError unit → HomeWorld C → Prop) w :
  (ensure_authoritative_state (w_home w) (w_state w) = Ok tt → Q (Ok tt) w) →
  (∀ e, ensure_authoritative_state (w_home w) (w_state w) = Err e → Q (Err e) w) →
  wp authoritative Q w.
Proof.
  intros H1' H2'. unfold wp, authoritative. cbn.
  destruct (ensure_authoritative_state _ _) as [[]|e]; auto.
Qed.
End protocol.

(** Symbolic execution of an operation: [err] closes the failing branches. *)
Ltac wp_step err :=
  lazymatch goal with
  | |- wp (_ ≫= _) _ _ => apply wp_bind
  | |- wp (lift (reject _ _)) _ _ =>
      apply wp_lift; [let H := fresh "N" in intros ? H; apply reject_Ok in H | intros ? _; err]
  | |- wp (lift (Err _)) _ _ => apply wp_lift; [by intros ? [=] | intros ? _; err]
  | |- wp (lift _) _ _ =>
      apply wp_lift; [let H := fresh "E" in intros ? H; try apply map_err_Ok in H;
                      try apply ok_or_Ok in H | intros ? _; err]
  | |- wp (mret _) _ _ => apply wp_ret
  | |- wp (gets _) _ _ => apply wp_gets
  | |- wp config _ _ => apply wp_gets
  | |- wp locked _ _ => apply wp_gets
  | |- wp home _ _ => apply wp_gets
  | |- wp (modify _) _ _ => apply wp_modify
  | |- wp authoritative _ _ => apply wp_authoritative; [intros ?; cbv beta iota | intros ? _; err]
  | |- wp ensure_operational_write_authority _ _ => apply wp_authoritative; [intros ?; cbv beta iota | intros ? _; err]
  | |- wp (let '(_, _) := ?x in _) _ _ => destruct x eqn:?
  | |- wp (match ?x with _ => _ end) _ _ => destruct x eqn:?
  | |- match Ok _ with _ => _ end => cbv beta iota
  | |- match ?x with _ => _ end => destruct x
  end.
Ltac wp_go err := repeat (wp_step err).

Section subroutines.
  Context `{!Sha256} `{!JsonText} `{!Ed25519} `{!WireSerde} `{!CustodySerde} `{!MessageSerde}.
  Context `{!HomeServices} {C : Type}.

Definition writes_nothing {A} (m : opM C A) : Prop :=
  ∀ w, unchanged w (m w).2.

Lemma wp_silent {A} (m : opM C A) (Q : result HomeError A → HomeWorld C → Prop) w :
  writes_nothing m → (∀ r w', unchanged w w' → m w = (r, w') → Q r w') → wp m Q w.
Proof.
  intros Hm HQ. unfold wp. specialize (Hm w). destruct (m w) as [r w'] eqn:E. by apply HQ.
Qed.

Lemma binding_silent : writes_nothing (current_recipient_binding (C := C)).
Proof.
  intros w. change (wp (current_recipient_binding (C := C)) (fun _ => unchanged w) w).
  unfold current_recipient_binding. wp_go ltac:(done); done.
Qed.

Lemma require_value_silent value : writes_nothing (require_value (C := C) value).
Proof.
  intros w. change (wp (require_value (C := C) value) (fun _ => unchanged w) w).
  unfold require_value. wp_go ltac:(done); try done.
  apply wp_silent; [apply binding_silent|]. intros [b|e] w1 U _; [|done].
  wp_go ltac:(done); done.
Qed.

Lemma receipt_values_silent stage : writes_nothing (require_receipt_values (C := C) stage).
Proof.
  intros w. destruct stage; cbn [require_receipt_values]; try apply require_value_silent; done.
Qed.

(** What a validated request is known to be. *)
Record valid_request (cf : HomeConfig) (request : SignedRecordV1 JobSubmitV1) (signer : string)
    (handle : JobHandleV1) (hash : string) : Prop := {
  vq_signed : unsigned SCHEMA_JOB_V1 request = false;
  vq_signer : sr_signer request = signer;
  vq_home : js_home (sr_payload request) = cf_home cf;
  vq_handle_home : jh_home handle = cf_home cf;
  vq_job : derive_job_id (cf_home cf) (js_caller_idempotency_key (sr_payload request))
           = Ok (jh_job handle);
  vq_hash : request_hash (sr_payload request) = Ok hash
}.

Lemma wp_validate_request request signer (Q : result HomeError _ → HomeWorld C → Prop) w :
  (∀ e w', unchanged w w' → Q (Err e) w') →
  (∀ handle hash w', unchanged w w' →
     valid_request (w_config w) request signer handle hash → Q (Ok (handle, hash)) w') →
  wp (validate_job_request_signed_by request signer) Q w.
Proof.
  intros He Hk. unfold validate_job_request_signed_by.
  wp_go ltac:(by apply He). apply wp_silent; [apply require_value_silent|].
  intros [u|e] w1 U _; [|by apply He]. wp_go ltac:(by apply He).
  pose proof (un_home _ _ U) as Uh. unfold w_config in *. rewrite Uh in *.
  to_prop. apply Hk; [done|].
  match goal with H : js_home _ = _ |- _ => rewrite H in * end. by constructor.
Qed.

(** What a prepared submission is known to be. *)
Record valid_prepared (cf : HomeConfig) (request : SignedRecordV1 JobSubmitV1) (signer : string)
    (deployment : SignedRecordV1 DeploymentReceiptV1) (p : PreparedSubmission) : Prop := {
  vp_request : valid_request cf request signer (ps_handle p) (ps_request_hash p);
  vp_handle : sp_handle (ps_spec p) = ps_handle p;
  vp_hash : sp_request_hash (ps_spec p) = ps_request_hash p;
  vp_parent : sp_parent (ps_spec p) = js_parent (sr_payload request);
  vp_delivery : sp_delivery (ps_spec p) = js_delivery (sr_payload request);
  vp_input : sp_input (ps_spec p) = js_input (sr_payload request);
  vp_deployment : sp_deployment (ps_spec p) = deployment;
  vp_function : rf_function (sp_function (ps_spec p)) = dr_function (sr_payload deployment);
  vp_root : sp_root (ps_spec p) = default (ps_handle p) (js_parent (sr_payload request))
}.

Lemma wp_prepare request resolution deployment signer
    (Q : result HomeError _ → HomeWorld C → Prop) w :
  (∀ e w', unchanged w w' → Q (Err e) w') →
  (∀ p w', unchanged w w' → valid_prepared (w_config w) request signer deployment p → Q (Ok p) w') →
  wp (prepare_submission_signed_by request resolution deployment signer) Q w.
Proof.
  intros He Hk. unfold prepare_submission_signed_by.
  apply wp_bind, wp_validate_request; [by auto|]. intros handle hash w1 U V.
  wp_go ltac:(by apply He). apply Hk; [done|]. to_prop. by constructor.
Qed.

(** Facts about a signed event. *)
Lemma sign_event_payload (h : FunctionHome C) s handle state_after cancel at_ms kind foreign event :
  sign_event_with_receipt h s handle state_after cancel at_ms kind foreign = Ok event →
  let e := sr_payload event in
  je_handle e = handle ∧ je_state_after e = state_after ∧ je_cancel_requested e = cancel
  ∧ je_kind e = kind ∧ je_foreign_receipt e = foreign.
Proof.
  unfold sign_event_with_receipt, signing. intros E. inv_result.
  match goal with H : SignedRecordV1_sign _ _ _ = _ |- _ => apply sign_payload in H; by rewrite H end.
Qed.
End subroutines.

(** ** Every operation follows the protocol *)

Section refinement.
  Context `{!Sha256} `{!JsonText} `{!Ed25519} `{!WireSerde} `{!CustodySerde} `{!MessageSerde}.
  Context `{!HomeServices} {C : Type} (io : nat → AppendIo).

Definition follows {A} (m : opM C A) : Prop :=
  ∀ w0 w, moves io w0 w → wp m (fun _ => moves io w0) w.

Lemma silent_follows {A} (m : opM C A) : writes_nothing m → follows m.
Proof.
  intros Hm w0 w M. apply wp_silent; [done|]. intros r w' U _. by eapply moves_unchanged.
Qed.

Lemma follows_bind {A B} (m : opM C A) (f : A → opM C B) :
  follows m → (∀ a, follows (f a)) → follows (m ≫= f).
Proof.
  intros Hm Hf w0 w M. apply wp_bind. eapply wp_mono; [by apply Hm|].
  intros [a|e] w' M'; [by apply Hf|done].
Qed.

Lemma existing_submission_None s handle hash :
  existing_submission s handle hash = None → hs_request_hashes s !! jh_job handle = None.
Proof. unfold existing_submission. by destruct (hs_request_hashes s !! jh_job handle). Qed.

Lemma submit_follows request resolution deployment :
  follows (submit io request resolution deployment).
Proof.
  intros w0 w M. unfold submit. wp_go ltac:(done).
  unfold validate_job_request. wp_go ltac:(done).
  apply wp_validate_request; [intros e w' U; by eapply moves_unchanged|].
  intros handle hash w1 U V. pose proof (moves_unchanged _ _ _ _ M U) as M1.
  wp_go ltac:(done); [done|]. unfold prepare_submission. wp_go ltac:(done).
  apply wp_prepare; [intros e w' U'; by eapply moves_unchanged|].
  intros p w2 U' P. pose proof (moves_unchanged _ _ _ _ M1 U') as M2.
  wp_go ltac:(done); [done|].
  eapply wp_persist; [exact M2| |by intros [] w'; wp_go ltac:(done)].
  destruct P as [VR Ph _ Pp _ _ _ _ _]. to_prop. rewrite <- Ph in *.
  eapply produced_submitted; [| | |done].
  - rewrite (vq_handle_home _ _ _ _ _ VR).
    unfold w_config. by rewrite (un_home _ _ U').
  - rewrite Pp. destruct (js_parent _); [exfalso; naive_solver|done].
  - by eapply existing_submission_None.
Qed.

Lemma placement_question_silent handle : writes_nothing (placement_question (C := C) handle).
Proof.
  intros w. change (wp (placement_question (C := C) handle) (fun _ => unchanged w) w).
  unfold placement_question. wp_go ltac:(done); done.
Qed.

Lemma retry_question_silent handle attempt :
  writes_nothing (retry_question (C := C) handle attempt).
Proof.
  intros w. change (wp (retry_question (C := C) handle attempt) (fun _ => unchanged w) w).
  unfold retry_question. wp_go ltac:(done); done.
Qed.

Lemma endorsed_control_silent request event :
  writes_nothing (endorsed_control (C := C) request event).
Proof.
  intros w. change (wp (endorsed_control (C := C) request event) (fun _ => unchanged w) w).
  unfold endorsed_control. wp_go ltac:(done); done.
Qed.

Lemma is_ok_Ok (r : result ContractError unit) : is_ok r = true → r = Ok tt.
Proof. by destruct r as [[]|]. Qed.

Lemma issue_grant_follows job deployment issued deadline :
  follows (issue_grant io job deployment issued deadline).
Proof.
  intros w0 w M. unfold issue_grant. wp_go ltac:(done).
  eapply wp_persist; [exact M| |by intros [] w'; wp_go ltac:(done)].
  to_prop. subst. match goal with H : SignedRecordV1_sign _ _ _ = Ok _ |- _ =>
    pose proof (sign_payload _ _ _ _ H) as Hpay end.
  eapply produced_granted; try done; [lia|lia|by eauto|by apply is_ok_Ok|].
  by rewrite Hpay.
Qed.

Lemma apply_placement_decision_follows decision :
  follows (apply_placement_decision io decision).
Proof.
  intros w0 w M. unfold apply_placement_decision. wp_go ltac:(done).
  apply wp_silent; [apply placement_question_silent|]. intros r w1 U _.
  pose proof (moves_unchanged _ _ _ _ M U) as M1.
  wp_go ltac:(done); try done. by apply issue_grant_follows.
Qed.

Lemma schedule_retry_follows job failed next deployment not_before :
  follows (schedule_retry io job failed next deployment not_before).
Proof.
  intros w0 w M. unfold schedule_retry. wp_go ltac:(done); try done;
    to_prop; subst.
  - eapply wp_mono; [by apply issue_grant_follows|]. intros [] w' M'; wp_go ltac:(done); done.
  - eapply wp_persist; [exact M| |].
    + eapply produced_scheduled; try done. lia.
    + intros [] w' M' _; wp_go ltac:(done); [|done].
      eapply wp_mono; [by apply issue_grant_follows|]. intros [] w2 M2; wp_go ltac:(done); done.
Qed.

Lemma stop_retry_follows job failed terminal_state reason :
  follows (stop_retry io job failed terminal_state reason).
Proof.
  intros w0 w M. unfold stop_retry. wp_go ltac:(done); try done.
  eapply wp_persist; [exact M| |by intros [] w'; wp_go ltac:(done)].
  to_prop. by eapply produced_stopped.
Qed.

Lemma apply_retry_decision_follows decision : follows (apply_retry_decision io decision).
Proof.
  intros w0 w M. unfold apply_retry_decision. wp_go ltac:(done);
    (apply wp_silent; [apply retry_question_silent|]); intros r w1 U _;
    pose proof (moves_unchanged _ _ _ _ M U) as M1; wp_go ltac:(done); try done;
    by first [apply schedule_retry_follows | apply stop_retry_follows].
Qed.

(** The event of a receipt that is not late. *)
Lemma wp_event_from_receipt snapshot receipt (Q : result HomeError _ → HomeWorld C → Prop) w :
  (∀ e w', unchanged w w' → Q (Err e) w') →
  (∀ state_after cancel kind w', unchanged w w' →
     receipt_event receipt snapshot state_after cancel kind →
     Q (Ok (state_after, cancel, kind)) w') →
  wp (event_from_receipt snapshot receipt) Q w.
Proof.
  intros He Hk. unfold event_from_receipt. apply wp_bind.
  apply wp_silent; [apply receipt_values_silent|]. intros [u|e] w1 U _; [|by apply He].
  wp_go ltac:(by apply He).
  destruct (ex_stage receipt); apply Hk; try done; constructor; cbn; auto.
Qed.

Lemma apply_executor_receipt_follows receipt : follows (apply_executor_receipt io receipt).
Proof.
  intros w0 w M. unfold apply_executor_receipt. wp_go ltac:(done); try done; to_prop.
  - apply wp_silent; [apply receipt_values_silent|]. intros r w1 U _.
    pose proof (moves_unchanged _ _ _ _ M U) as M1. wp_go ltac:(done); try done.
    eapply wp_persist; [exact M1| |by intros [] w'; wp_go ltac:(done)].
    rewrite <- (un_state _ _ U) in *.
    eapply produced_receipt; try done; [by destruct (verify_execution_receipt _ _) as [[]|]|].
    constructor; cbn; auto.
  - apply wp_event_from_receipt; [intros e w1 U; by eapply moves_unchanged|].
    intros state_after cancel kind w1 U Hre.
    pose proof (moves_unchanged _ _ _ _ M U) as M1. wp_go ltac:(done); try done.
    eapply wp_persist; [exact M1| |by intros [] w'; wp_go ltac:(done)].
    rewrite <- (un_state _ _ U) in *.
    eapply produced_receipt; try done. by destruct (verify_execution_receipt _ _) as [[]|].
Qed.

Lemma controls_job_intro (h : FunctionHome C) signer r :
  negb (bool_decide (signer = cf_home (fh_config h)))
  && negb (is_controller signer (ss_spec (jr_snapshot r))) = false → controls_job h signer r.
Proof.
  intros [H'|H']%andb_false_iff; to_prop; [by left|by right].
Qed.

Lemma steer_value_silent kind :
  writes_nothing (C := C) match kind with Steer value => require_value value | _ => mret tt end.
Proof. destruct kind; try done. apply require_value_silent. Qed.

Lemma control_plain_follows request : follows (control_plain io request).
Proof.
  intros w0 w M. unfold control_plain. do 2 wp_step ltac:(done). cbv beta iota.
  apply wp_bind, wp_silent; [apply steer_value_silent|]. intros r w1 U _.
  pose proof (moves_unchanged _ _ _ _ M U) as M1. wp_go ltac:(done); try done.
  eapply wp_persist; [exact M1| |by intros [] w'; wp_go ltac:(done)].
  eapply produced_control; try done; [by apply controls_job_intro|].
  intros Hu. rewrite Hu, andb_true_l in *. by to_prop.
Qed.

Lemma proposal_parent_Ok request (h : FunctionHome C) s r :
  proposal_parent request (fh_config h) s = Ok r →
  hs_jobs s !! jh_job (jc_handle (sr_payload request)) = Some r
  ∧ controls_job h (sr_signer request) r.
Proof.
  unfold proposal_parent, find_job. intros E. inv_result.
  repeat match goal with H : reject _ _ = Ok _ |- _ => apply reject_Ok in H end. subst.
  split; [done|]. by apply controls_job_intro.
Qed.

Lemma propose_child_follows request : follows (propose_child io request).
Proof.
  intros w0 w M. unfold propose_child. wp_go ltac:(done); try done.
  apply wp_prepare; [intros e w' U; by eapply moves_unchanged|].
  intros p w1 U P. pose proof (moves_unchanged _ _ _ _ M U) as M1.
  wp_go ltac:(done); try done.
  eapply wp_persist; [exact M1| |by intros [] w'; wp_go ltac:(done)].
  destruct P as [VR Ph _ Pp _ _ _ _ _]. to_prop.
  match goal with H : proposal_parent _ (w_config w1) _ = Ok _ |- _ =>
    apply proposal_parent_Ok in H as [? ?] end.
  match goal with E : sign_event _ _ (ps_handle p) _ _ _ (KSubmitted ?spec) = _ |- _ =>
    change (sp_handle (ps_spec p)) with (sp_handle spec) in Ph; rewrite <- Ph in * end.
  eapply (produced_child _ _ request _ (with_root _ (ps_spec p))); try done.
  - rewrite (un_home _ _ U). exact (vq_handle_home _ _ _ _ _ VR).
  - by apply eq_None_not_Some.
Qed.

Lemma control_follows request : follows (control io request).
Proof.
  intros w0 w M. unfold control. wp_go ltac:(done);
    by first [apply control_plain_follows | apply propose_child_follows].
Qed.

(** ** Calls *)

(** The public interface. *)
Inductive HomeCall : Type :=
  | CallSubmit (request : SignedRecordV1 JobSubmitV1)
      (resolution : SignedRecordV1 ResolutionReceiptV1)
      (deployment : SignedRecordV1 DeploymentReceiptV1)
  | CallPlacementQuestion (handle : JobHandleV1)
  | CallRetryQuestion (handle : JobHandleV1) (failed_attempt : AttemptId)
  | CallPlacementDecision (decision : SignedRecordV1 PlacementDecisionV1)
  | CallRetryDecision (decision : SignedRecordV1 RetryDecisionV1)
  | CallIssueGrant (job : JobId) (deployment : SignedRecordV1 DeploymentReceiptV1)
      (issued_at_unix_ms deadline_unix_ms : option N)
  | CallReceipt (receipt : SignedRecordV1 ExecutionReceiptV1)
  | CallControl (request : SignedRecordV1 JobControlV1)
  | CallEndorsedControl (request : SignedRecordV1 JobControlV1)
      (event : SignedRecordV1 JobEventV1).

(** The world a call leaves behind, whatever it returns. *)
Definition run_call (w : HomeWorld C) (call : HomeCall) : HomeWorld C :=
  match call with
  | CallSubmit request resolution deployment => (submit io request resolution deployment w).2
  | CallPlacementQuestion handle => (placement_question handle w).2
  | CallRetryQuestion handle failed_attempt => (retry_question handle failed_attempt w).2
  | CallPlacementDecision decision => (apply_placement_decision io decision w).2
  | CallRetryDecision decision => (apply_retry_decision io decision w).2
  | CallIssueGrant job deployment issued deadline =>
      (issue_grant io job deployment issued deadline w).2
  | CallReceipt receipt => (apply_executor_receipt io receipt w).2
  | CallControl request => (control io request w).2
  | CallEndorsedControl request event => (endorsed_control request event w).2
  end.

Definition run_calls (w : HomeWorld C) (calls : list HomeCall) : HomeWorld C :=
  foldl run_call w calls.

Lemma run_call_moves w call : moves io w (run_call w call).
Proof.
  assert (M : moves io w w) by by constructor.
  destruct call; cbn;
    first [ exact (submit_follows _ _ _ _ _ M) | exact (issue_grant_follows _ _ _ _ _ _ M)
          | exact (apply_placement_decision_follows _ _ _ M)
          | exact (apply_retry_decision_follows _ _ _ M)
          | exact (apply_executor_receipt_follows _ _ _ M) | exact (control_follows _ _ _ M)
          | apply moves_here, placement_question_silent
          | apply moves_here, retry_question_silent
          | apply moves_here, endorsed_control_silent ].
Qed.

Lemma run_calls_moves w calls : moves io w (run_calls w calls).
Proof.
  revert w. induction calls as [|call calls IH]; intros w; [by constructor|].
  eapply moves_trans; [apply run_call_moves|]. apply IH.
Qed.
End refinement.
