(* ===== verification/HomeApiLaws.v ===== *)
(** * What the Home promises its callers

    Properties of the operations of [HomeApi], proved on the record protocol of
    [HomeProtocol]: submissions are idempotent, a job is granted at most the
    attempts its delivery mode allows and always for what was accepted,
    cancellation is final, and a receipt counts once. *)

From S2P Require Import Prelude GxShape GxHash FnCrypto FnTypes FnWire FnCustody FnMessages.
From S2P Require Import AetherAddress Journal HomeLedger HomeLaws HomeGrowth HomeApi HomeProtocol.

Section laws.
  Context `{!Sha256} `{!JsonText} `{!Ed25519} `{!WireSerde} `{!CustodySerde} `{!MessageSerde}.
  Context `{!HomeServices} {C : Type} (io : nat → AppendIo).
  Implicit Types w : HomeWorld C.

(** ** Induction on the records written *)

Lemma persist_world record w r w' :
  persist io record w = (r, w') →
  w_config w' = w_config w
  ∧ (apply_ledger_record (w_config w) record (w_state w) = (Ok tt, w_state w')
     ∨ (∃ e, r = Err e) ∧ w_state w' = w_state w).
Proof.
  unfold persist. destruct (persist_and_apply _ _ _ _ _) as [[[res h] s] d] eqn:E.
  intros [= <- <-]. destruct res as [[]|e].
  - apply persist_Ok in E as (_ & Ha & q & inner & _ & ->). cbn. auto.
  - apply persist_Err in E as [-> [[-> _]|(e' & inner & _ & ->)]]; cbn; eauto.
Qed.

Lemma persist_world_Ok record w u w' :
  persist io record w = (Ok u, w') →
  apply_ledger_record (w_config w) record (w_state w) = (Ok tt, w_state w').
Proof.
  intros H'. by apply persist_world in H' as [_ [?|[[e [=]] _]]].
Qed.

Lemma moves_config w w' : moves io w w' → w_config w' = w_config w.
Proof.
  induction 1 as [w w' U|w w1 record r w2 w3 M IH P R U]; unfold w_config in *.
  - by rewrite (un_home _ _ U).
  - rewrite (un_home _ _ U). apply persist_world in R as [R _]. unfold w_config in R. congruence.
Qed.

(** A step of the protocol between ledger states. *)
Definition step (cf : HomeConfig) (s s' : HomeState) : Prop :=
  ∃ (h : FunctionHome C) record,
    fh_config h = cf ∧ produced h s record ∧ apply_ledger_record cf record s = (Ok tt, s').

Lemma moves_steps w w' : moves io w w' → rtc (step (w_config w)) (w_state w) (w_state w').
Proof.
  induction 1 as [w w' U|w w1 record r w2 w3 M IH P R U].
  - by rewrite (un_state _ _ U).
  - rewrite (un_state _ _ U). apply persist_world in R as [_ [R|[_ ->]]]; [|done].
    eapply rtc_r; [exact IH|]. rewrite (moves_config _ _ M) in R.
    exists (w_home w1), record. split_and!; [|done|done]. exact (moves_config _ _ M).
Qed.

Lemma steps_inv (cf : HomeConfig) (P : HomeState → Prop) s s' :
  (∀ s s', step cf s s' → P s → P s') → rtc (step cf) s s' → P s → P s'.
Proof. intros Hstep. induction 1; eauto. Qed.

Lemma step_grows cf s s' : step cf s s' → grows s s'.
Proof. intros (h & record & _ & _ & R). by apply apply_record_grows in R as (? & _). Qed.
Lemma step_hashed cf s s' : step cf s s' → hashed s → hashed s'.
Proof. intros (h & record & _ & _ & R). by apply apply_record_grows in R as (_ & ? & _). Qed.
Lemma steps_grow cf s s' : rtc (step cf) s s' → grows s s'.
Proof. induction 1 as [|s t u Hst _ IH]; [done|]. etrans; [by eapply step_grows|done]. Qed.

(** ** Events of a record *)

(** Jobs are stored under their identifier. *)
Definition named (s : HomeState) : Prop :=
  ∀ j r, hs_jobs s !! j = Some r → jh_job (sp_handle (ss_spec (jr_snapshot r))) = j.

Lemma apply_one_event cf grant receipt event s s' :
  apply_ledger_record cf (mkHomeLedgerRecord grant receipt [event]) s = (Ok tt, s') →
  ∃ t, hs_jobs t = hs_jobs s ∧ apply_job_event cf event t = (Ok tt, s').
Proof.
  intros (t & Hj & _ & _ & _ & R)%apply_record_split. cbn in R. run R.
  match goal with H : apply_job_event _ _ _ = (Ok ?u, _) |- _ => destruct u end. eauto.
Qed.

(** What a signed event of the job of [r] does, when it is not a submission. *)
Record advances (event : SignedRecordV1 JobEventV1) (j : JobId) (r : JobRecord)
    (s s' : HomeState) : Prop := {
  ad_jobs : ∃ r', hs_jobs s' = <[j := r']> (hs_jobs s)
      ∧ pins (ss_spec (jr_snapshot r')) = pins (ss_spec (jr_snapshot r))
      ∧ ss_state (jr_snapshot r') = je_state_after (sr_payload event)
      ∧ ss_cancel_requested (jr_snapshot r') = je_cancel_requested (sr_payload event)
}.

Lemma apply_job_event_advances cf event j r s s' :
  apply_job_event cf event s = (Ok tt, s') →
  is_submitted (je_kind (sr_payload event)) = false →
  event_job event = j → hs_jobs s !! j = Some r → advances event j r s s'.
Proof.
  intros [(spec & Hk & _)|(r0 & r' & _ & E)]%apply_job_event_cases Hs Hj Hr.
  { by rewrite Hk in Hs. }
  constructor. exists r'. pose proof (ee_before _ _ _ _ _ E) as Hb. rewrite Hj, Hr in Hb.
  injection Hb as <-. rewrite <- Hj. destruct E; auto.
Qed.

(** What a submission does. *)
Lemma apply_job_event_submits cf event spec s s' :
  apply_job_event cf event s = (Ok tt, s') → je_kind (sr_payload event) = KSubmitted spec →
  hs_jobs s !! event_job event = None
  ∧ ∃ r, hs_jobs s' = <[event_job event := r]> (hs_jobs s)
         ∧ ss_spec (jr_snapshot r) = spec ∧ jr_events r = [event].
Proof.
  intros [(spec' & Hk & R)|(r0 & r' & Hs & _)]%apply_job_event_cases Hk'.
  2: { by rewrite Hk' in Hs. }
  rewrite Hk' in Hk. injection Hk as <-.
  apply apply_submitted_Ok in R as (_ & _ & Hn & _ & ->). split; [done|]. by eexists.
Qed.

Lemma sign_event_job (h : FunctionHome C) s handle state_after cancel at_ms kind foreign event :
  sign_event_with_receipt h s handle state_after cancel at_ms kind foreign = Ok event →
  event_job event = jh_job handle ∧ je_cancel_requested (sr_payload event) = cancel
  ∧ je_kind (sr_payload event) = kind.
Proof. intros (E & _ & ? & ? & _)%sign_event_payload. unfold event_job. by rewrite E. Qed.

(** A step adds a fresh job, or advances an existing one, or both. *)
Inductive job_change (s s' : HomeState) : Prop :=
  | change_submitted j r' :
      hs_jobs s !! j = None → hs_jobs s' = <[j := r']> (hs_jobs s) →
      jh_job (sp_handle (ss_spec (jr_snapshot r'))) = j → job_change s s'
  | change_advanced j r r' :
      hs_jobs s !! j = Some r → hs_jobs s' = <[j := r']> (hs_jobs s) →
      pins (ss_spec (jr_snapshot r')) = pins (ss_spec (jr_snapshot r)) →
      (ss_cancel_requested (jr_snapshot r) = true →
       ss_cancel_requested (jr_snapshot r') = true) → job_change s s'
  | change_child j r r' k q :
      hs_jobs s !! j = Some r → hs_jobs s !! k = None → j ≠ k →
      hs_jobs s' = <[k := q]> (<[j := r']> (hs_jobs s)) →
      pins (ss_spec (jr_snapshot r')) = pins (ss_spec (jr_snapshot r)) →
      (ss_cancel_requested (jr_snapshot r) = true →
       ss_cancel_requested (jr_snapshot r') = true) →
      jh_job (sp_handle (ss_spec (jr_snapshot q))) = k → job_change s s'.

Lemma event_advances cf grant receipt event s s' j r (h : FunctionHome C) state_after cancel at_ms
    kind foreign :
  apply_ledger_record cf (mkHomeLedgerRecord grant receipt [event]) s = (Ok tt, s') →
  sign_event_with_receipt h s (sp_handle (ss_spec (jr_snapshot r))) state_after cancel at_ms kind
    foreign = Ok event →
  is_submitted kind = false → named s → hs_jobs s !! j = Some r →
  (ss_cancel_requested (jr_snapshot r) = true → cancel = true) → job_change s s'.
Proof.
  intros (t & Ht & R)%apply_one_event (Hj & Hc & Hk)%sign_event_job Hs Hn Hr Hcn.
  rewrite (Hn _ _ Hr) in Hj. rewrite <- Hk in Hs. rewrite <- Ht in Hr.
  destruct (apply_job_event_advances _ _ _ _ _ _ R Hs Hj Hr) as [(r' & E & Ep & _ & Ec)].
  rewrite Ht in *. rewrite Hc in Ec. eapply change_advanced; [done|done|done|].
  intros Hx. rewrite Ec. auto.
Qed.

Lemma control_effect_Ok request hash snapshot state_after cancel kind :
  control_effect request hash snapshot = Ok (state_after, cancel, kind) →
  is_submitted kind = false ∧ (ss_cancel_requested snapshot = true → cancel = true).
Proof.
  unfold control_effect. intros E. destruct (jc_kind _); inv_result; simplify_eq; auto.
Qed.

Lemma stop_kind_Ok terminal_state reason attempt kind :
  stop_kind terminal_state reason attempt = Ok kind → is_submitted kind = false.
Proof. unfold stop_kind. intros E. destruct terminal_state; inv_result; by simplify_eq. Qed.

(** The two events of a child spawn. *)
Lemma child_change cf parent_event child_event s s' j r (h : FunctionHome C) spec state_after
    at_ms at_ms' attempt event_hash spawn_key child_hash :
  apply_ledger_record cf (mkHomeLedgerRecord None None [parent_event; child_event]) s
    = (Ok tt, s') →
  sign_event h s (sp_handle (ss_spec (jr_snapshot r))) state_after
    (ss_cancel_requested (jr_snapshot r)) at_ms
    (KChildSpawned attempt event_hash spawn_key (sp_handle spec) (sp_root spec) child_hash)
    = Ok parent_event →
  sign_event h s (sp_handle spec) SQueued false at_ms' (KSubmitted spec) = Ok child_event →
  named s → hs_jobs s !! j = Some r → hs_jobs s !! jh_job (sp_handle spec) = None →
  job_change s s'.
Proof.
  intros (t & Ht & _ & _ & _ & R)%apply_record_split (Hj & Hc & Hk)%sign_event_job
    (Hj' & _ & Hk')%sign_event_job Hn Hr Hnew.
  cbn in R. run R. repeat match goal with u : unit |- _ => destruct u end.
  rewrite (Hn _ _ Hr) in Hj. rewrite <- Ht in *.
  match goal with H : apply_job_event _ parent_event _ = _ |- _ =>
    destruct (apply_job_event_advances _ _ _ _ _ _ H ltac:(by rewrite Hk) Hj Hr)
      as [(r' & E & Ep & _ & Ec)] end.
  match goal with H : apply_job_event _ child_event _ = _ |- _ =>
    destruct (apply_job_event_submits _ _ _ _ _ H Hk') as (_ & q & E' & Eq & _) end.
  rewrite Hj', E in E'. rewrite Ht in *. eapply (change_child _ _ j r r' _ q); try done.
  - intros ->. congruence.
  - intros Hx. by rewrite Ec, Hc.
  - by rewrite Eq.
Qed.

Lemma step_change cf s s' : step cf s s' → named s → job_change s s'.
Proof.
  intros (h & record & Hcf & P & R) Hn. destruct P.
  - apply apply_one_event in R as (t & Ht & R).
    match goal with H : sign_event _ _ _ _ _ _ _ = _ |- _ =>
      apply sign_event_job in H as (Hj & _ & Hk) end.
    destruct (apply_job_event_submits _ _ _ _ _ R Hk) as (Hnone & r & E & Er & _).
    rewrite Ht in *. eapply change_submitted; [done|done|]. by rewrite Er.
  - eapply event_advances; try done. subst snapshot. congruence.
  - match goal with H : receipt_event _ _ _ _ _ |- _ => destruct H end. eapply event_advances; done.
  - match goal with H : control_effect _ _ _ = _ |- _ => apply control_effect_Ok in H as [? ?] end.
    eapply event_advances; done.
  - by eapply child_change.
  - eapply event_advances; done.
  - eapply event_advances; try done. by eapply stop_kind_Ok.
Qed.

Lemma step_named cf s s' : step cf s s' → named s → named s'.
Proof.
  intros Hs Hn. destruct (step_change _ _ _ Hs Hn) as [j r' Hj E Hh|j r r' Hr E Hp _|
    j r r' k q Hr Hk Hjk E Hp _ Hh]; intros i x; rewrite E, ?lookup_insert;
    repeat case_decide; intros Hx; simplify_eq; try rewrite Hp; auto.
Qed.

(** ** Delivery *)

(** A grant is for an attempt its job allows, and for what was accepted. *)
Definition grant_pinned (spec : JobSpecV1) (g : ExecutionGrantV1) : Prop :=
  0 < at_number (eg_attempt g) ≤ DeliveryModeV1_max_attempts (sp_delivery spec)
  ∧ eg_request_hash g = sp_request_hash spec
  ∧ eg_function g = rf_function (sp_function spec)
  ∧ eg_input g = sp_input spec
  ∧ eg_delivery g = sp_delivery spec
  ∧ ∃ d, canonical_hash (eg_deployment g) = Ok d ∧ canonical_hash (sp_deployment spec) = Ok d.

Definition delivered (s : HomeState) : Prop :=
  ∀ key g, hs_grants s !! key = Some g →
    grant_key g = key
    ∧ ∃ r, hs_jobs s !! key.1 = Some r ∧ grant_pinned (ss_spec (jr_snapshot r)) (sr_payload g).

Lemma grant_pinned_pins p q g : pins p = pins q → grant_pinned q g → grant_pinned p g.
Proof.
  intros E. injection E. intros. unfold grant_pinned.
  repeat match goal with H : _ p = _ q |- _ => rewrite H; clear H end. done.
Qed.

Lemma delivered_grows s s' : grows s s' → hs_grants s' = hs_grants s → delivered s → delivered s'.
Proof.
  intros G E D key g Hg. rewrite E in Hg. apply D in Hg as (Hk & r & Hr & Hp).
  split; [done|]. apply (gw_jobs _ _ G) in Hr as (r' & Hr' & Gr). exists r'.
  split; [done|]. by eapply grant_pinned_pins; [apply (jw_pins _ _ Gr)|].
Qed.

Lemma step_delivered cf s s' : step cf s s' → delivered s → delivered s'.
Proof.
  intros Hs D. pose proof (step_grows _ _ _ Hs) as G.
  destruct Hs as (h & record & Hcf & P & R).
  apply apply_record_grows in R as (_ & _ & Hg & _).
  destruct P; cbn in Hg; try by eapply delivered_grows.
  destruct Hg as [[Hg _]|[Hnone Hg]]; [by eapply delivered_grows|].
  match goal with H : SignedRecordV1_sign _ _ _ = Ok grant |- _ =>
    apply sign_payload in H; rename H into Hpay end.
  intros key g. rewrite Hg, lookup_insert. case_decide as E; intros Hx.
  - injection Hx as <-. subst key. split; [done|].
    match goal with H : hs_jobs s !! job = Some r |- _ =>
      apply (gw_jobs _ _ G) in H as (r' & Hr' & Gr) end.
    exists r'. unfold grant_key. rewrite Hpay. split; [done|].
    eapply grant_pinned_pins; [apply (jw_pins _ _ Gr)|]. unfold grant_pinned. cbn.
    fold snapshot spec. by split_and!.
  - apply D in Hx as (Hk & q & Hq & Hp). split; [done|].
    apply (gw_jobs _ _ G) in Hq as (r' & Hr' & Gr). exists r'. split; [done|].
    by eapply grant_pinned_pins; [apply (jw_pins _ _ Gr)|].
Qed.

(** ** Cancellation *)

Definition cancelled (j : JobId) (s : HomeState) : Prop :=
  ∃ r, hs_jobs s !! j = Some r ∧ ss_cancel_requested (jr_snapshot r) = true.

(** The attempts granted to a job. *)
Definition same_grants (j : JobId) (s s' : HomeState) : Prop :=
  ∀ n, hs_grants s' !! (j, n) = hs_grants s !! (j, n).

Lemma step_cancelled cf s s' j :
  step cf s s' → named s → cancelled j s → cancelled j s'.
Proof.
  intros Hs Hn (q & Hq & Hc). unfold cancelled.
  destruct (step_change _ _ _ Hs Hn) as [i r' Hi E _|i r r' Hr E _ Hx|
    i r r' k q' Hr Hk Hik E _ Hx _]; rewrite E, ?lookup_insert; repeat case_decide; subst;
    simplify_eq; eauto.
Qed.

Lemma step_no_grant cf s s' j :
  step cf s s' → cancelled j s → same_grants j s s'.
Proof.
  intros (h & record & Hcf & P & R) (q & Hq & Hc) n.
  apply apply_record_grows in R as (_ & _ & Hg & _).
  destruct P; cbn in Hg; try by rewrite Hg.
  destruct Hg as [[-> _]|[Hnone ->]]; [done|].
  match goal with H : SignedRecordV1_sign _ _ _ = Ok grant |- _ =>
    apply sign_payload in H; rename H into Hpay end.
  rewrite lookup_insert_ne; [done|]. unfold grant_key. rewrite Hpay. cbn. intros [= -> ->].
  unfold JobId in *. subst snapshot. simplify_eq. congruence.
Qed.

(** ** Worlds reached by calls *)

Definition fresh (w : HomeWorld C) : Prop := ∃ custody, w_state w = HomeState_new custody.

Lemma calls_steps w calls :
  rtc (step (w_config w)) (w_state w) (w_state (run_calls io w calls)).
Proof. apply moves_steps, run_calls_moves. Qed.

Record call_inv (s : HomeState) : Prop := {
  ci_named : named s;
  ci_hashed : hashed s;
  ci_delivered : delivered s
}.

Lemma step_call_inv cf s s' : step cf s s' → call_inv s → call_inv s'.
Proof.
  intros Hs [Hn Hh Hd]. constructor;
    [by eapply step_named|by eapply step_hashed|by eapply step_delivered].
Qed.

Lemma call_inv_new custody : call_inv (HomeState_new custody).
Proof. constructor; intros ? *; cbn; by rewrite ?lookup_empty. Qed.

Lemma fresh_call_inv w calls : fresh w → call_inv (w_state (run_calls io w calls)).
Proof.
  intros [custody Hf]. eapply (steps_inv (w_config w)); [|apply calls_steps|].
  - intros s s'. apply step_call_inv.
  - rewrite Hf. apply call_inv_new.
Qed.

(** ** Submissions *)

Lemma submitted_event_grows s s' j ev :
  grows s s' → submitted_event s j = Ok ev → submitted_event s' j = Ok ev.
Proof.
  intros G. unfold submitted_event. intros E. apply ok_or_Ok in E. apply ok_or_Ok.
  destruct (hs_jobs s !! j) as [r|] eqn:Er; [|done]. simpl in E.
  apply (gw_jobs _ _ G) in Er as (r' & Hr' & Gr). unfold JobId in *. rewrite Hr'. simpl.
  destruct (jr_events r) as [|e l] eqn:El; [done|]. simpl in E.
  destruct (jw_events _ _ Gr) as [k Hk]. rewrite Hk, El. done.
Qed.

Lemma existing_not_accepted s handle hash handle' hash' ev :
  existing_submission s handle hash ≠ Some (Ok (Accepted handle' hash' ev)).
Proof.
  unfold existing_submission. destruct (hs_request_hashes s !! _); [|done].
  case_decide; [|done]. by destruct (submitted_event _ _).
Qed.

(** What an accepted submission leaves in the ledger. *)
Lemma submit_accepted request resolution deployment w handle hash ev w1 :
  submit io request resolution deployment w = (Ok (Accepted handle hash ev), w1) →
  submitted_event (w_state w1) (jh_job handle) = Ok ev
  ∧ ∃ r, hs_jobs (w_state w1) !! jh_job handle = Some r
         ∧ sp_request_hash (ss_spec (jr_snapshot r)) = hash.
Proof.
  intros Hrun. refine (wp_run _ (fun res w1 => res = Ok (Accepted handle hash ev) →
    submitted_event (w_state w1) (jh_job handle) = Ok ev
    ∧ ∃ r, hs_jobs (w_state w1) !! jh_job handle = Some r
         ∧ sp_request_hash (ss_spec (jr_snapshot r)) = hash) w _ _ _ Hrun eq_refl).
  unfold submit. wp_go ltac:(done). unfold validate_job_request. wp_go ltac:(done).
  apply wp_validate_request; [done|]. intros h0 hash0 wa U V. wp_go ltac:(done).
  { intros [= ->]. subst. by edestruct existing_not_accepted. }
  unfold prepare_submission. wp_go ltac:(done).
  apply wp_prepare; [done|]. intros p wb U' P. wp_go ltac:(done).
  { intros [= ->]. subst. by edestruct existing_not_accepted. }
  unfold wp. destruct (persist io _ _) as [[u|e] wc] eqn:Ep; cbn; [|done].
  intros [= <- <- <-]. apply persist_world_Ok, apply_one_event in Ep as (t & Ht & R).
  match goal with H : sign_event _ _ _ _ _ _ _ = _ |- _ =>
    apply sign_event_job in H as (Hj & _ & Hk) end.
  destruct (apply_job_event_submits _ _ _ _ _ R Hk) as (_ & r & Ejobs & Er & Ev).
  rewrite Hj in Ejobs. unfold submitted_event. unfold JobId in *.
  rewrite Ejobs, lookup_insert_eq. split; [|exists r; split; [done|]].
  - simpl. rewrite Ev. simpl. by rewrite Hk.
  - rewrite Er. apply (vp_hash _ _ _ _ _ P).
Qed.

(** A submission of a job that the ledger already has. *)
Lemma submit_existing request resolution deployment w handle hash w' existing ev :
  ensure_authoritative_state (w_home w) (w_state w) = Ok tt →
  js_parent (sr_payload request) = None → js_causal (sr_payload request) = [] →
  validate_job_request request w = (Ok (handle, hash), w') → unchanged w w' →
  hs_request_hashes (w_state w) !! jh_job handle = Some existing →
  submitted_event (w_state w) (jh_job handle) = Ok ev →
  submit io request resolution deployment w
  = (if decide (existing = hash) then Ok (Existing handle hash ev)
     else Err (HConflict (jh_job handle)), w').
Proof.
  intros Ha Hp Hc Hv U He Hs. unfold submit, mbind, opM_bind, stateR_bind.
  unfold ensure_operational_write_authority, authoritative. rewrite Ha, Hp, Hc. cbn.
  rewrite Hv. cbn. rewrite (un_home _ _ U), (un_state _ _ U), Ha.
  unfold existing_submission. unfold JobId in *. rewrite He. case_decide; [|done].
  by rewrite Hs.
Qed.

Lemma validate_job_request_unchanged request w r w' :
  validate_job_request request w = (r, w') → unchanged w w'.
Proof.
  intros Hrun. refine (wp_run _ (fun _ => unchanged w) w _ _ _ Hrun). unfold validate_job_request. wp_go ltac:(done).
  by apply wp_validate_request.
Qed.

(** ** Receipts *)

(** The ledger holds the receipt, and an event that carries it. *)
Definition receipt_held (receipt : SignedRecordV1 ExecutionReceiptV1) (h : string)
    (ev : SignedRecordV1 JobEventV1) (s : HomeState) : Prop :=
  hs_receipts s !! receipt_key (sr_payload receipt) = Some h
  ∧ ∃ r, hs_jobs s !! at_job (ex_attempt (sr_payload receipt)) = Some r ∧ ev ∈ jr_events r.

Lemma receipt_held_grows receipt h ev s s' :
  grows s s' → receipt_held receipt h ev s → receipt_held receipt h ev s'.
Proof.
  intros G (Hk & r & Hr & Hev). split.
  - eapply lookup_weaken; [exact Hk|apply (gw_receipts _ _ G)].
  - apply (gw_jobs _ _ G) in Hr as (r' & Hr' & Gr). exists r'. split; [done|].
    destruct (jw_events _ _ Gr) as [k ->]. apply elem_of_app. by left.
Qed.

Lemma receipt_persisted receipt r event (h : FunctionHome C) state_after cancel at_ms kind w u w1 :
  named (w_state w) → hs_jobs (w_state w) !! at_job (ex_attempt (sr_payload receipt)) = Some r →
  sign_event_with_receipt h (w_state w) (sp_handle (ss_spec (jr_snapshot r))) state_after cancel
    at_ms kind (Some receipt) = Ok event →
  is_submitted kind = false →
  persist io (mkHomeLedgerRecord None (Some receipt) [event]) w = (Ok u, w1) →
  je_foreign_receipt (sr_payload event) = Some receipt
  ∧ ∃ hash, canonical_hash receipt = Ok hash ∧ receipt_held receipt hash event (w_state w1).
Proof.
  intros Hn Hr Hsign Hs R%persist_world_Ok.
  destruct (sign_event_payload _ _ _ _ _ _ _ _ _ Hsign) as (Hh & _ & _ & Hk & Hf).
  split; [done|].
  destruct (apply_record_grows _ _ _ _ R) as (_ & _ & _ & hash & Hc & Er & _).
  exists hash. split; [done|]. split; [by rewrite Er; apply lookup_insert_eq|].
  apply apply_one_event in R as (t & Ht & R).
  apply apply_job_event_cases in R as [(spec & Hk' & _)|(r0 & r' & _ & E)]; [by rewrite Hk, <- Hk, Hk' in *|].
  exists r'. assert (Hj : event_job event = at_job (ex_attempt (sr_payload receipt))).
  { unfold event_job. rewrite Hh. by apply Hn. }
  split.
  - rewrite (ee_after _ _ _ _ _ E), Hj. apply lookup_insert_eq.
  - rewrite (ee_events _ _ _ _ _ E). apply elem_of_app. right. by left.
Qed.

(** What an applied receipt leaves in the ledger. *)
Lemma receipt_applied receipt w ev w1 :
  named (w_state w) →
  apply_executor_receipt io receipt w = (Ok (ReceiptApplied ev), w1) →
  je_foreign_receipt (sr_payload ev) = Some receipt
  ∧ ∃ hash, canonical_hash receipt = Ok hash ∧ receipt_held receipt hash ev (w_state w1).
Proof.
  intros Hn Hrun. refine (wp_run _ (fun res w1 => res = Ok (ReceiptApplied ev) →
    je_foreign_receipt (sr_payload ev) = Some receipt
    ∧ ∃ hash, canonical_hash receipt = Ok hash ∧ receipt_held receipt hash ev (w_state w1))
    w _ _ _ Hrun eq_refl).
  unfold apply_executor_receipt. wp_go ltac:(done); try done.
  - apply wp_silent; [apply receipt_values_silent|]. intros r wa U _. wp_go ltac:(done); try done.
    unfold wp. destruct (persist io _ _) as [[u|e] wc] eqn:Ep; cbn; [|done].
    intros [= <-]. rewrite <- (un_state _ _ U) in *. by eapply receipt_persisted.
  - apply wp_event_from_receipt; [done|]. intros state_after cancel kind wa U Hre.
    wp_go ltac:(done). unfold wp. destruct (persist io _ _) as [[u|e] wc] eqn:Ep; cbn; [|done].
    intros [= <-]. rewrite <- (un_state _ _ U) in *.
    eapply receipt_persisted; try done. apply (re_not_submitted _ _ _ _ _ Hre).
Qed.

Lemma find_receipt_event_Some hash ev events receipt :
  ev ∈ events → je_foreign_receipt (sr_payload ev) = Some receipt →
  canonical_hash receipt = Ok hash →
  ∃ ev' foreign, find_receipt_event hash events = Some ev'
    ∧ je_foreign_receipt (sr_payload ev') = Some foreign ∧ canonical_hash foreign = Ok hash.
Proof.
  intros Hin Hf Hc. unfold find_receipt_event. destruct (List.find _ events) as [ev'|] eqn:E.
  - exists ev'. apply List.find_some in E as [_ E].
    destruct (je_foreign_receipt (sr_payload ev')) as [foreign|]; [|done]. exists foreign.
    destruct (canonical_hash foreign); [|done]. to_prop. by subst.
  - apply list_elem_of_In, (List.find_none _ _ E) in Hin.
    rewrite Hf, Hc in Hin. by to_prop.
Qed.

(** A receipt whose key the ledger already has. *)
Lemma receipt_repeated receipt w existing hash :
  ensure_authoritative_state (w_home w) (w_state w) = Ok tt →
  is_ok (SignedRecordV1_validate ExecutionReceiptV1_validate receipt) = true →
  canonical_hash receipt = Ok hash →
  hs_receipts (w_state w) !! receipt_key (sr_payload receipt) = Some existing →
  let x := sr_payload receipt in
  apply_executor_receipt io receipt w
  = (if decide (existing = hash) then
       event ← ok_or (job ← hs_jobs (w_state w) !! at_job (ex_attempt x);
                      find_receipt_event hash (jr_events job))
                 (HState "receipt dedup state is incomplete");
       Ok (ReceiptDuplicate event)
     else Err (HConflict (at_job (ex_attempt x) +:+ " attempt " +:+ dec (at_number (ex_attempt x))
                          +:+ " receipt sequence " +:+ dec (ex_sequence x))), w).
Proof.
  intros Ha Hv Hc He x. unfold apply_executor_receipt, mbind, opM_bind, stateR_bind.
  unfold ensure_operational_write_authority, authoritative. rewrite Ha. cbn.
  destruct (SignedRecordV1_validate _ receipt); [|done]. cbn. rewrite Hc. cbn. rewrite Ha.
  unfold receipt_key in He. unfold JobId in *. rewrite He. case_decide; [|done].
  cbn. by destruct (option_bind _ _).
Qed.
End laws.

(** ** A concrete Home *)

Module api_sample.
Definition null_messages : MessageSerde :=
  @Build_MessageSerde null_value null_value null_value null_value null_value null_value null_value
    null_value null_value null_value null_value null_value null_value null_value null_value
    null_value null_value null_value.

#[local] Existing Instances zero_sha blank_text toy_ed25519 null_serde null_custody null_messages.

(** Signs with the toy scheme. *)
Definition key_signer (key : string) : AuthoritySigner :=
  mkAuthoritySigner key
    (fun b => Ok (hex_encode (toy_sign (default [] (hex_decode key)) b))).

(** Everything is trusted and available. *)
Definition open_services : HomeServices :=
  {| svc_signer := key_signer (sample_epoch_key 1);
     svc_effect _ := EffectIdempotent;
     svc_allow_resolution _ := Ok tt;
     svc_allow_deployment _ := Ok tt;
     svc_allow_executor_receipt _ _ := Ok tt;
     svc_allow_placement_decision _ := Ok tt;
     svc_allow_retry_decision _ := Ok tt;
     svc_allow_read_relay := default_allow_read_relay;
     svc_blobs := fun _ => Ok tt;
     svc_current_binding := Err "none" |}.
#[local] Existing Instance open_services.

Definition io : nat → AppendIo := fun _ => Journal.sample.io.
Definition world : HomeWorld unit :=
  mkHomeWorld sample.home sample.new_state Journal.sample.empty_disk None
    HomeRecoverySweep_default (Some 1) 0.

Definition submission (delivery : DeliveryModeV1) : SignedRecordV1 JobSubmitV1 :=
  sample_sign SCHEMA_JOB_V1 sample_root
    (mkJobSubmitV1 sample_root "k" (SelectId sample_function) (VInline JNull) delivery false None
       [] (mkJobAccessV1 [] []) [] [] None).
Definition resolution : SignedRecordV1 ResolutionReceiptV1 :=
  sample_sign SCHEMA_FUNCTION_DEPLOY_V1 sample_executor
    (mkResolutionReceiptV1 (SelectId sample_function) sample_function zero_digest None []).

Definition job : JobId :=
  match derive_job_id sample_root "k" with Ok job => job | Err _ => "" end.
Definition handle : JobHandleV1 := mkJobHandleV1 sample_root job.
Definition claimed : SignedRecordV1 ExecutionReceiptV1 :=
  sample_sign SCHEMA_EXECUTE_V1 sample_executor
    (mkExecutionReceiptV1 (mkAttemptId sample_root job 1) zero_digest sample_executor 1 None
       XClaimed).
Definition cancel : SignedRecordV1 JobControlV1 :=
  sample_sign SCHEMA_JOB_V1 sample_root
    (mkJobControlV1 (mkJobHandleV1 sample_root job) 1 "c" None (Cancel "stop")).

(** The job is submitted, granted an attempt, and the attempt claimed; or
    submitted and cancelled. *)
Definition run (calls : list HomeCall) : HomeWorld unit := run_calls io world calls.
Definition run_after (w : HomeWorld unit) : HomeWorld unit := run_calls io w [].
Definition call_submit : HomeCall :=
  CallSubmit (submission (AtLeastOnce 2)) resolution sample_deployment.
Definition call_grant : HomeCall := CallIssueGrant job sample_deployment None None.

Definition submitted : result HomeError SubmitOutcome * HomeWorld unit :=
  submit io (submission (AtLeastOnce 2)) resolution sample_deployment (run []).
Definition accepted_event (r : result HomeError SubmitOutcome) : SignedRecordV1 JobEventV1 :=
  match r with
  | Ok (Accepted _ _ ev) => ev
  | _ => sample.event 1 SQueued (KSubmitted sample.spec)
  end.
Definition submitted_event : SignedRecordV1 JobEventV1 := accepted_event submitted.1.

Definition applied : result HomeError ApplyReceiptOutcome * HomeWorld unit :=
  apply_executor_receipt io claimed (run [call_submit; call_grant]).
Definition receipt_event_of (r : result HomeError ApplyReceiptOutcome) :
    SignedRecordV1 JobEventV1 :=
  match r with Ok (ReceiptApplied ev) => ev | _ => submitted_event end.
Definition applied_event : SignedRecordV1 JobEventV1 := receipt_event_of applied.1.

Lemma world_fresh : fresh world.
Proof. by exists unfenced_for_replay. Qed.
Lemma submit_run :
  submit io (submission (AtLeastOnce 2)) resolution sample_deployment (run_calls io world [])
  = (Ok (Accepted handle zero_digest submitted_event), submitted.2).
Proof. vm_compute. reflexivity. Qed.
Lemma submitted_authoritative :
  ensure_authoritative_state (w_home (run_calls io submitted.2 []))
    (w_state (run_calls io submitted.2 [])) = Ok tt.
Proof. vm_compute. reflexivity. Qed.
Lemma resubmission_valid :
  validate_job_request (submission (AtLeastOnce 2)) (run_calls io submitted.2 [])
  = (Ok (handle, zero_digest), submitted.2).
Proof. vm_compute. reflexivity. Qed.
Lemma receipt_event_of_applied r :
  match r with Ok (ReceiptApplied _) => true | _ => false end = true →
  r = Ok (ReceiptApplied (receipt_event_of r)).
Proof. by destruct r as [[]|]. Qed.
Lemma applied_run :
  apply_executor_receipt io claimed (run_calls io world [call_submit; call_grant])
  = (Ok (ReceiptApplied applied_event), applied.2).
Proof.
  change (applied = (Ok (ReceiptApplied (receipt_event_of applied.1)), applied.2)).
  rewrite <- receipt_event_of_applied; [apply surjective_pairing|]. vm_compute. reflexivity.
Qed.
Lemma applied_authoritative :
  ensure_authoritative_state (w_home (run_calls io applied.2 []))
    (w_state (run_calls io applied.2 [])) = Ok tt.
Proof. vm_compute. reflexivity. Qed.
Lemma claimed_valid :
  is_ok (SignedRecordV1_validate ExecutionReceiptV1_validate claimed) = true.
Proof. vm_compute. reflexivity. Qed.
Lemma claimed_hash : canonical_hash claimed = Ok zero_digest.
Proof. vm_compute. reflexivity. Qed.
Lemma cancelled_run : cancelled job (w_state (run_calls io world [call_submit; CallControl cancel])).
Proof. eexists. split; [vm_compute; reflexivity|reflexivity]. Qed.
Lemma granted_run :
  ∃ g, hs_grants (w_state (run_calls io world [call_submit; call_grant])) !! (job, 1) = Some g.
Proof. eexists. vm_compute. reflexivity. Qed.
End api_sample.

(** ** Properties *)

(** C8: the operations refine the record protocol: whatever calls a client makes,
    in whatever order and with whatever storage failures, the ledger only moves
    by records the protocol allows in the state they are written in, applied in
    full; the configuration never changes, and the ledger only grows: no job
    loses an event or changes its pinned specification, and no grant or receipt
    is replaced. *)
Theorem calls_refine_protocol (S : Sha256) (X : JsonText) (E : Ed25519) (W : WireSerde)
    (K : CustodySerde) (M : MessageSerde) (V : HomeServices) (C : Type) (io : nat → AppendIo)
    (w : HomeWorld C) (calls : list HomeCall) :
  let w' := run_calls io w calls in
  rtc (step (C := C) (w_config w)) (w_state w) (w_state w')
  ∧ w_config w' = w_config w
  ∧ grows (w_state w) (w_state w').
Proof.
  pose proof (calls_steps io w calls) as Hs.
  split_and!; [done|by eapply moves_config, run_calls_moves|by eapply steps_grow].
Qed.

(** Submission is idempotent. Once a submission was accepted, any later valid
    submission with the same idempotency key is answered from the ledger: with
    the same durable Submitted event if the request is the same, with a conflict
    if it differs; it writes nothing, whatever happened in between. *)
Theorem submit_idempotent (S : Sha256) (X : JsonText) (E : Ed25519) (W : WireSerde)
    (K : CustodySerde) (M : MessageSerde) (V : HomeServices) (C : Type) (io : nat → AppendIo)
    (w0 : HomeWorld C) (before after : list HomeCall) (Hfresh : fresh w0)
    (request request' : SignedRecordV1 JobSubmitV1)
    (resolution resolution' : SignedRecordV1 ResolutionReceiptV1)
    (deployment deployment' : SignedRecordV1 DeploymentReceiptV1)
    (handle handle' : JobHandleV1) (hash hash' : string) (ev : SignedRecordV1 JobEventV1)
    (w1 w2 : HomeWorld C)
    (Haccepted : submit io request resolution deployment (run_calls io w0 before)
                 = (Ok (Accepted handle hash ev), w1))
    (Hauth : ensure_authoritative_state (w_home (run_calls io w1 after))
               (w_state (run_calls io w1 after)) = Ok tt)
    (Hparent : js_parent (sr_payload request') = None)
    (Hcausal : js_causal (sr_payload request') = [])
    (Hvalid : validate_job_request request' (run_calls io w1 after) = (Ok (handle', hash'), w2))
    (Hsame : jh_job handle' = jh_job handle) :
  submit io request' resolution' deployment' (run_calls io w1 after)
  = (if decide (hash = hash') then Ok (Existing handle' hash' ev)
     else Err (HConflict (jh_job handle')), w2)
  ∧ unchanged (run_calls io w1 after) w2.
Proof.
  pose proof (validate_job_request_unchanged _ _ _ _ Hvalid) as U. split; [|done].
  destruct (submit_accepted _ _ _ _ _ _ _ _ _ Haccepted) as (Hev & r & Hr & Hh).
  pose proof (steps_grow _ _ _ (calls_steps io w1 after)) as G.
  assert (Hinv : call_inv (w_state (run_calls io w1 after))).
  { replace (run_calls io w1 after) with
      (run_calls io w0 (before ++ CallSubmit request resolution deployment :: after)).
    - by apply fresh_call_inv.
    - unfold run_calls. rewrite foldl_app. cbn. fold (run_calls io w0 before).
      by rewrite Haccepted. }
  apply (submit_existing io); try done; rewrite Hsame.
  - rewrite (ci_hashed _ Hinv). apply (gw_jobs _ _ G) in Hr as (r' & Hr' & Gr).
    unfold JobId in *. rewrite Hr'. simpl. f_equal. rewrite <- Hh.
    by apply pins_request_hash, jw_pins.
  - by eapply submitted_event_grows.
Qed.

Lemma submit_idempotent_witness :
  @submit zero_sha blank_text toy_ed25519 null_serde api_sample.open_services unit
     api_sample.io (api_sample.submission (AtLeastOnce 2)) api_sample.resolution
     sample_deployment (api_sample.run_after api_sample.submitted.2)
  = (Ok (Existing api_sample.handle zero_digest api_sample.submitted_event),
     api_sample.submitted.2).
Proof.
  destruct (@submit_idempotent zero_sha blank_text toy_ed25519 null_serde null_custody
    api_sample.null_messages api_sample.open_services unit api_sample.io api_sample.world [] []
    api_sample.world_fresh (api_sample.submission (AtLeastOnce 2))
    (api_sample.submission (AtLeastOnce 2)) api_sample.resolution api_sample.resolution
    sample_deployment sample_deployment api_sample.handle api_sample.handle zero_digest
    zero_digest api_sample.submitted_event api_sample.submitted.2 api_sample.submitted.2
    api_sample.submit_run api_sample.submitted_authoritative eq_refl eq_refl
    api_sample.resubmission_valid eq_refl) as [H _].
  rewrite decide_True in H by reflexivity. exact H.
Defined.

(** C18: delivery is bounded and pinned. After any calls on a fresh Home, every
    grant is filed under its own attempt, belongs to a job of the ledger, has an
    attempt number between 1 and what the job's delivery mode allows, and is for
    exactly the request, function, deployment and input that were accepted; an
    at-most-once job has at most one grant, ever. *)
Theorem delivery_bounded (S : Sha256) (X : JsonText) (E : Ed25519) (W : WireSerde)
    (K : CustodySerde) (M : MessageSerde) (V : HomeServices) (C : Type) (io : nat → AppendIo)
    (w0 : HomeWorld C) (calls : list HomeCall) (Hfresh : fresh w0) (job : JobId) (n : N)
    (g : SignedRecordV1 ExecutionGrantV1)
    (Hg : hs_grants (w_state (run_calls io w0 calls)) !! (job, n) = Some g) :
  ∃ r, hs_jobs (w_state (run_calls io w0 calls)) !! job = Some r
    ∧ eg_attempt (sr_payload g) = mkAttemptId (at_home (eg_attempt (sr_payload g))) job n
    ∧ grant_pinned (ss_spec (jr_snapshot r)) (sr_payload g)
    ∧ (sp_delivery (ss_spec (jr_snapshot r)) = AtMostOnce →
       ∀ n' g', hs_grants (w_state (run_calls io w0 calls)) !! (job, n') = Some g' →
         n' = 1 ∧ g' = g).
Proof.
  pose proof (ci_delivered _ (fresh_call_inv io w0 calls Hfresh)) as D.
  destruct (D _ _ Hg) as (Hk & r & Hr & Hp). cbn in Hr. exists r. split_and!; [done| |done|].
  - unfold grant_key, key_of_attempt in Hk. destruct (eg_attempt (sr_payload g)); cbn in *.
    by simplify_eq.
  - intros Hd n' g' Hg'. destruct (D _ _ Hg') as (Hk' & r' & Hr' & Hp'). cbn in Hr'.
    assert (Hb : ∀ m x, grant_key x = (job, m) → grant_pinned (ss_spec (jr_snapshot r)) (sr_payload x) → m = 1).
    { intros m x Hx ([Hlo Hhi] & _). rewrite Hd in Hhi. unfold grant_key, key_of_attempt in Hx.
      simplify_eq. simpl in Hhi. lia. }
    unfold JobId in *. rewrite Hr in Hr'. injection Hr' as <-.
    assert (n' = 1) as -> by eauto. assert (n = 1) as -> by eauto. split; [done|congruence].
Qed.

Lemma delivery_bounded_witness :
  ∃ g : SignedRecordV1 ExecutionGrantV1, at_number (eg_attempt (sr_payload g)) = 1.
Proof.
  destruct api_sample.granted_run as [g Hg]. exists g.
  destruct (@delivery_bounded zero_sha blank_text toy_ed25519 null_serde null_custody
    api_sample.null_messages api_sample.open_services unit api_sample.io api_sample.world
    [api_sample.call_submit; api_sample.call_grant] api_sample.world_fresh api_sample.job 1 g Hg)
    as (r & _ & Hn & _ & _).
  rewrite Hn. reflexivity.
Defined.

(** Cancellation is final. Once cancellation of a job is requested, it stays
    requested, and the job is never granted another attempt. *)
Theorem cancellation_final (S : Sha256) (X : JsonText) (E : Ed25519) (W : WireSerde)
    (K : CustodySerde) (M : MessageSerde) (V : HomeServices) (C : Type) (io : nat → AppendIo)
    (w0 : HomeWorld C) (before after : list HomeCall) (Hfresh : fresh w0) (job : JobId)
    (Hcancel : cancelled job (w_state (run_calls io w0 before))) :
  let w := run_calls io w0 before in
  let w' := run_calls io w after in
  cancelled job (w_state w') ∧ same_grants job (w_state w) (w_state w').
Proof.
  cbv zeta. pose proof (ci_named _ (fresh_call_inv io w0 before Hfresh)) as Hn.
  set (w := run_calls io w0 before) in *. clearbody w.
  pose proof (calls_steps io w after) as Hs. revert Hs Hn Hcancel.
  generalize (w_state (run_calls io w after)), (w_state w), (w_config w).
  intros s' s cf Hs Hn Hc.
  enough (named s' ∧ cancelled job s' ∧ same_grants job s s') as (_ & ? & ?) by done.
  induction Hs as [s|s t u Hst Hs IH]; [by split_and!|].
  destruct IH as (? & ? & Hg).
  - by eapply step_named.
  - by eapply step_cancelled.
  - split_and!; [done|done|]. intros n. rewrite Hg. by eapply step_no_grant.
Qed.

Lemma cancellation_final_witness :
  ∃ w : HomeWorld unit, cancelled api_sample.job (w_state w).
Proof.
  eexists. exact (proj1 (@cancellation_final zero_sha blank_text toy_ed25519 null_serde
    null_custody api_sample.null_messages api_sample.open_services unit api_sample.io
    api_sample.world [api_sample.call_submit; CallControl api_sample.cancel]
    [api_sample.call_grant] api_sample.world_fresh api_sample.job api_sample.cancelled_run)).
Defined.

(** A receipt counts once. After a receipt was applied, and whatever happens
    next, a receipt with the same attempt and sequence number changes nothing: if
    its hash is the same it is answered with a durable event that carries that
    receipt, otherwise with a conflict. *)
Theorem receipt_applied_once (S : Sha256) (X : JsonText) (E : Ed25519) (W : WireSerde)
    (K : CustodySerde) (M : MessageSerde) (V : HomeServices) (C : Type) (io : nat → AppendIo)
    (w0 : HomeWorld C) (before after : list HomeCall) (Hfresh : fresh w0)
    (receipt receipt' : SignedRecordV1 ExecutionReceiptV1) (ev : SignedRecordV1 JobEventV1)
    (hash' : string) (w1 : HomeWorld C)
    (Happlied : apply_executor_receipt io receipt (run_calls io w0 before)
                = (Ok (ReceiptApplied ev), w1))
    (Hauth : ensure_authoritative_state (w_home (run_calls io w1 after))
               (w_state (run_calls io w1 after)) = Ok tt)
    (Hvalid : is_ok (SignedRecordV1_validate ExecutionReceiptV1_validate receipt') = true)
    (Hhash : canonical_hash receipt' = Ok hash')
    (Hkey : receipt_key (sr_payload receipt') = receipt_key (sr_payload receipt)) :
  let w := run_calls io w1 after in
  (canonical_hash receipt = Ok hash'
   ∧ ∃ ev' foreign, apply_executor_receipt io receipt' w = (Ok (ReceiptDuplicate ev'), w)
       ∧ je_foreign_receipt (sr_payload ev') = Some foreign ∧ canonical_hash foreign = Ok hash')
  ∨ (∃ m, apply_executor_receipt io receipt' w = (Err (HConflict m), w)).
Proof.
  cbv zeta. pose proof (ci_named _ (fresh_call_inv io w0 before Hfresh)) as Hn.
  destruct (receipt_applied io _ _ _ _ Hn Happlied) as (Hf & hash & Hc & Hh).
  pose proof (steps_grow _ _ _ (calls_steps io w1 after)) as G.
  apply (receipt_held_grows _ _ _ _ _ G) in Hh as (Hr & r & Hj & Hin).
  rewrite <- Hkey in Hr. pose proof (receipt_repeated io _ _ _ _ Hauth Hvalid Hhash Hr) as HR.
  cbv zeta in HR. case_decide as D; [subst hash; left|right; by eexists].
  split; [done|].
  assert (at_job (ex_attempt (sr_payload receipt')) = at_job (ex_attempt (sr_payload receipt)))
    as Hjob by (unfold receipt_key in Hkey; by simplify_eq).
  destruct (find_receipt_event_Some _ _ _ _ Hin Hf Hc) as (ev' & foreign & Hfind & ? & ?).
  exists ev', foreign. split_and!; [|done|done]. rewrite HR, Hjob. unfold JobId in *. rewrite Hj.
  simpl. rewrite Hfind. done.
Qed.

Lemma receipt_applied_once_witness :
  ∃ out,
    @apply_executor_receipt zero_sha blank_text toy_ed25519 null_serde api_sample.open_services
      unit api_sample.io api_sample.claimed (api_sample.run_after api_sample.applied.2)
    = (out, api_sample.run_after api_sample.applied.2).
Proof.
  destruct (@receipt_applied_once zero_sha blank_text toy_ed25519 null_serde null_custody
    api_sample.null_messages api_sample.open_services unit api_sample.io api_sample.world
    [api_sample.call_submit; api_sample.call_grant] [] api_sample.world_fresh api_sample.claimed
    api_sample.claimed api_sample.applied_event zero_digest api_sample.applied.2
    api_sample.applied_run api_sample.applied_authoritative api_sample.claimed_valid
    api_sample.claimed_hash eq_refl) as [(_ & ev & foreign & H & _)|(m & H)].
  - exists (Ok (ReceiptDuplicate ev)). exact H.
  - exists (Err (HConflict m)). exact H.
Defined.
