(* ===== verification/HomeServe.v ===== *)
(** * Serving messages: private reads, recovery sweeps and handlers

    The message half of [cosmos/creatures/function-home/src/lib.rs]: pages of
    events and snapshots for authorised readers, the bounded sweep that re-emits
    durable work after a restart, and the handlers of the job, execution and
    policy schemas, which turn an envelope into the dispatches it causes.

    The encodings of the message unions are the class [HomeCodec]. The custody
    branch of [Creature::handle] is in [HomeBus], on the operations of
    [custody.rs]. *)

From stdpp Require Import sorting.
From S2P Require Import Prelude Serde GxShape GxHash FnCrypto FnTypes FnWire FnCustody FnMessages.
From S2P Require Import AetherAddress AetherEnvelope Journal HomeLedger HomeApi.

Definition HOME_RECOVERY_POKE_SCHEMA : string := "gawd.internal.function.home.recovery.v1".
Definition HOME_RECOVERY_POKE_PAYLOAD : bytes := bytes_of_string "continue-v1".
Definition HOME_RECOVERY_PLACEMENT : N := 0.
Definition HOME_RECOVERY_RETRY : N := 1.
Definition HOME_RECOVERY_ATTEMPT : N := 2.
Definition HOME_RECOVERY_CONTROL : N := 3.
Definition MAX_HOME_RECOVERY_DISPATCHES : N := 64.

(** [serde_json] at the message types, and [to_string] of an address. *)
Class HomeCodec : Type := {
  hc_job :: SerdeJson JobMessageV1;
  hc_execute :: SerdeJson ExecuteMessageV1;
  hc_policy :: SerdeJson PolicyMessageV1;
  hc_event :: SerdeJson (SignedRecordV1 JobEventV1);
  address_to_string : Address → result string string
}.

(** ** Errors as messages *)

Definition JournalError_to_string (e : JournalError) : string :=
  match e with
  | JIo m => "journal I/O error: " +:+ m
  | JEncoding m => "journal encoding error: " +:+ m
  | JCorrupt m => "journal is corrupt: " +:+ m
  | JLimit m => "journal limit reached: " +:+ m
  | JUncertain =>
      "journal state is uncertain after a failed durable append; reopen before writing"
  end.

Definition HomeError_to_string (e : HomeError) : string :=
  match e with
  | HConfiguration m => "home configuration is invalid: " +:+ m
  | HInvalid m => "invalid request: " +:+ m
  | HUnauthorized m => "request is not authorized: " +:+ m
  | HNotFound job => "job `" +:+ job +:+ "` was not found"
  | HConflict job => "idempotency conflict for job `" +:+ job +:+ "`"
  | HState m => "job state conflict: " +:+ m
  | HCapacity m => "home capacity reached: " +:+ m
  | HJournal e => JournalError_to_string e
  | HSigning m => "signing failed: " +:+ m
  end.

(** [str::is_char_boundary]: the byte at the index does not continue a character. *)
Definition is_char_boundary (s : string) (i : nat) : bool :=
  match String.get i s with
  | None => Nat.eqb i (String.length s)
  | Some c => negb (in_range 128 191 (Ascii.N_of_ascii c))
  end.

(** The loop of [bound]: index 0 is a boundary. *)
Fixpoint floor_boundary (s : string) (i : nat) : nat :=
  if is_char_boundary s i then i
  else match i with O => O | S i => floor_boundary s i end.

Definition bound (value : string) : string :=
  if decide (FN_MAX_REASON_BYTES < slen value) then
    String.substring 0 (floor_boundary value (N.to_nat FN_MAX_REASON_BYTES)) value
  else value.

Definition protocol_error (code message : string) (retryable : bool) : JobMessageV1 :=
  JError (mkProtocolErrorV1 code (bound message) retryable).

Definition error_retryable (e : HomeError) : bool :=
  match e with HJournal _ | HCapacity _ => true | _ => false end.
Definition error_code (e : HomeError) : string :=
  match e with
  | HUnauthorized _ => "unauthorized"
  | HNotFound _ => "not_found"
  | HConflict _ => "conflict"
  | HCapacity _ => "capacity"
  | HJournal _ => "storage"
  | HConfiguration _ | HInvalid _ | HState _ | HSigning _ => "invalid"
  end.
Definition job_error (e : HomeError) : JobMessageV1 :=
  protocol_error (error_code e) (HomeError_to_string e) (error_retryable e).

Definition usize_saturating_add (a b : N) : N := N.min (a + b) usize_MAX.

(** ** Recovery keys *)

(** The derived order: job, kind, sequence. *)
Definition recovery_key_le (a b : HomeRecoveryKey) : Prop :=
  str_leb (hk_job a) (hk_job b) = true
  ∧ (hk_job a = hk_job b →
     hk_kind a < hk_kind b ∨ (hk_kind a = hk_kind b ∧ hk_sequence a ≤ hk_sequence b)).
#[export] Instance recovery_key_le_dec : RelDecision recovery_key_le.
Proof. unfold recovery_key_le. intros a b. apply _. Defined.
Definition recovery_key_lt (a b : HomeRecoveryKey) : Prop := ¬ recovery_key_le b a.
#[export] Instance recovery_key_lt_dec : RelDecision recovery_key_lt.
Proof. unfold recovery_key_lt. intros a b. apply _. Defined.

(** The jobs of a [BTreeMap], in key order. *)
Definition job_le (a b : JobId * JobRecord) : Prop := str_le a.1 b.1.
#[export] Instance job_le_dec : RelDecision job_le.
Proof. unfold job_le. intros a b. apply _. Defined.
Definition jobs_in_order (state : HomeState) : list (JobId * JobRecord) :=
  merge_sort job_le (map_to_list (hs_jobs state)).

(** A durable control of the attempt that is forwarded and not acknowledged. *)
Definition pending_control (state : HomeState) (attempt : AttemptId)
    (event : SignedRecordV1 JobEventV1) : bool :=
  match je_kind (sr_payload event) with
  | KControlRequested request (Some control_attempt) =>
      bool_decide (control_attempt = attempt)
      && match hs_forwarded_controls state
               !! (jh_job (jc_handle (sr_payload request)), jc_control (sr_payload request)) with
         | Some control => bool_decide (fw_acknowledged_receipt_hash control = None)
         | None => false
         end
  | _ => false
  end.

(** The keys [for_each_recovery_key] visits for one job. *)
Definition job_recovery_keys (state : HomeState) (entry : JobId * JobRecord) :
    list HomeRecoveryKey :=
  let (job_id, job) := entry in
  match ss_state (jr_snapshot job) with
  | SQueued => [mkHomeRecoveryKey job_id HOME_RECOVERY_PLACEMENT 0]
  | SRetryPending => [mkHomeRecoveryKey job_id HOME_RECOVERY_RETRY 0]
  | SDispatching | SRunning =>
      match ss_current_attempt (jr_snapshot job) with
      | None => []
      | Some attempt =>
          match hs_grants state !! key_of_attempt attempt with
          | None => []
          | Some _ =>
              mkHomeRecoveryKey job_id HOME_RECOVERY_ATTEMPT 0
              :: map (fun event =>
                   mkHomeRecoveryKey job_id HOME_RECOVERY_CONTROL (je_sequence (sr_payload event)))
                 (List.filter (pending_control state attempt) (jr_events job))
          end
      end
  | SBlocked | SSucceeded | SFailed | SCancelled | SIndeterminate => []
  end.

Definition for_each_recovery_key (state : HomeState) : list HomeRecoveryKey :=
  flat_map (job_recovery_keys state) (jobs_in_order state).

Section serve.
  Context `{!Sha256} `{!JsonText} `{!Ed25519} `{!WireSerde} `{!CustodySerde} `{!MessageSerde}.
  Context `{!HomeServices} `{!HomeCodec} {C : Type} (io : nat → AppendIo).

(** ** Reads *)

Definition bounded_private_read_response (message : JobMessageV1) : JobMessageV1 :=
  match to_vec message with
  | Ok encoded =>
      if decide (blen encoded ≤ MAX_PRIVATE_READ_MESSAGE_BYTES) then message
      else protocol_error "capacity"
             ("private read response is " +:+ dec (blen encoded)
              +:+ " bytes, exceeds reserved proof-bearing limit "
              +:+ dec MAX_PRIVATE_READ_MESSAGE_BYTES) true
  | Err error => protocol_error "encoding_failed" error false
  end.

Definition get (job : JobId) : opM C JobSnapshotV1 :=
  state ← locked;
  _ ← authoritative;
  h ← home;
  lift (snapshot_from_state h state job).

Definition require_read_route (env : Envelope) (expected : string) : result HomeError unit :=
  actual ← ok_or (hd_reply_to (ev_header env))
             (HUnauthorized "private job read has no return route");
  actual ← map_err HInvalid (address_to_string actual);
  if decide (actual = expected) then Ok tt
  else Err (HUnauthorized
    "private job read return route differs from its signed relay endorsement").

(** The loop of [events_from_state]: at most [limit] events, while they fit; the
    flag says whether eligible events are left. *)
Fixpoint page_loop (limit : nat) (eligible : list (SignedRecordV1 JobEventV1)) (encoded_bytes : N)
    (events : list (SignedRecordV1 JobEventV1)) :
    result HomeError (list (SignedRecordV1 JobEventV1) * bool) :=
  match limit, eligible with
  | O, [] => Ok (events, false)
  | O, _ :: _ => Ok (events, true)
  | S _, [] => Ok (events, false)
  | S limit, event :: rest =>
      encoded ← map_err HInvalid (to_vec event);
      let event_bytes := blen encoded in
      let separator := match events with [] => 0 | _ => 1 end in
      if decide (MAX_PRIVATE_READ_MESSAGE_BYTES
                 < usize_saturating_add (usize_saturating_add encoded_bytes separator) event_bytes)
      then Ok (events, true)
      else page_loop limit rest (encoded_bytes + (separator + event_bytes)) (events ++ [event])
  end.

(** The response without events, whose size is reserved. *)
Definition sizing_response (h : FunctionHome C) (query : EventQueryV1) :
    result HomeError (SignedRecordV1 EventPageResponseV1) :=
  signing (SignedRecordV1_sign SCHEMA_JOB_V1
    (mkEventPageResponseV1 ("sha256:" +:+ String.concat "" (repeat "0" 64))
       (cf_epoch (fh_config h)) (cf_authority (fh_config h))
       (mkEventPageV1 (ev_handle query) [] None)) svc_signer).

Definition events_from_state (h : FunctionHome C) (state : HomeState) (query : EventQueryV1) :
    result HomeError EventPageV1 :=
  job ← find_job (jh_job (ev_handle query)) state;
  let after := default 0 (ev_after_sequence query) in
  let limit := N.min (ev_limit query) MAX_EVENT_PAGE_ITEMS in
  let eligible := List.filter (fun event => bool_decide (after < je_sequence (sr_payload event)))
                    (jr_events job) in
  sizing ← sizing_response h query;
  base ← map_err HInvalid (to_vec (JEventPage sizing));
  taken ← page_loop (N.to_nat limit) eligible (usize_saturating_add (blen base) 64) [];
  let events : list (SignedRecordV1 JobEventV1) := taken.1 in
  let more : bool := taken.2 in
  _ ← reject (bool_decide (events = []) && more)
        (HCapacity "one validated job event cannot fit the bounded event-page response");
  let next_after_sequence :=
    if more then (fun event => je_sequence (sr_payload event)) <$> last events else None in
  let page := mkEventPageV1 (ev_handle query) events next_after_sequence in
  _ ← invalid (EventPageV1_validate page);
  Ok page.

Definition events (query : EventQueryV1) : opM C EventPageV1 :=
  _ ← lift (invalid (EventQueryV1_validate query));
  cf ← config;
  _ ← lift (reject (bool_decide (jh_home (ev_handle query) ≠ cf_home cf))
        (HNotFound (jh_job (ev_handle query))));
  state ← locked;
  _ ← authoritative;
  h ← home;
  lift (events_from_state h state query).

(** The closure of [handle_get_message]. *)
Definition get_response (env : Envelope) (request : SignedRecordV1 JobGetRelayV1) :
    opM C JobMessageV1 :=
  let caller := gr_caller (sr_payload request) in
  _ ← lift (map_err (fun e => HUnauthorized (ContractError_to_string e))
              (verify_job_get_relay request));
  _ ← lift (require_read_route env (gr_reply_to (sr_payload request)));
  _ ← lift (map_err HUnauthorized (svc_allow_read_relay (sr_signer request) (sr_signer caller)));
  request_hash ← lift (invalid (canonical_hash request));
  let handle := jg_handle (sr_payload caller) in
  state ← locked;
  _ ← authoritative;
  h ← home;
  _ ← lift (authorize_reader_from_state h state handle (sr_signer caller));
  snapshot ← lift (snapshot_from_state h state (jh_job handle));
  snapshot ← lift (signing (SignedRecordV1_sign SCHEMA_JOB_V1 snapshot svc_signer));
  response ← lift (signing (SignedRecordV1_sign SCHEMA_JOB_V1
                     (mkJobSnapshotResponseV1 request_hash snapshot) svc_signer));
  mret (bounded_private_read_response (JSnapshot response)).

(** The closure of [handle_events_message]. *)
Definition events_response (env : Envelope) (request : SignedRecordV1 EventQueryRelayV1) :
    opM C JobMessageV1 :=
  let caller := er_caller (sr_payload request) in
  let query := sr_payload caller in
  _ ← lift (map_err (fun e => HUnauthorized (ContractError_to_string e))
              (verify_event_query_relay request));
  _ ← lift (require_read_route env (er_reply_to (sr_payload request)));
  _ ← lift (map_err HUnauthorized (svc_allow_read_relay (sr_signer request) (sr_signer caller)));
  request_hash ← lift (invalid (canonical_hash request));
  _ ← lift (invalid (EventQueryV1_validate query));
  state ← locked;
  _ ← authoritative;
  h ← home;
  _ ← lift (authorize_reader_from_state h state (ev_handle query) (sr_signer caller));
  page ← lift (events_from_state h state query);
  response ← lift (signing (SignedRecordV1_sign SCHEMA_JOB_V1
    (mkEventPageResponseV1 request_hash (cf_epoch (fh_config h)) (cf_authority (fh_config h))
       page) svc_signer));
  mret (bounded_private_read_response (JEventPage response)).

(** [unwrap_or_else(job_error)]. *)
Definition or_job_error (m : opM C JobMessageV1) (w : HomeWorld C) : JobMessageV1 * HomeWorld C :=
  match m w with
  | (Ok message, w) => (message, w)
  | (Err e, w) => (job_error e, w)
  end.
Definition handle_get_message (env : Envelope) (request : SignedRecordV1 JobGetRelayV1) :
    HomeWorld C → JobMessageV1 * HomeWorld C := or_job_error (get_response env request).
Definition handle_events_message (env : Envelope) (request : SignedRecordV1 EventQueryRelayV1) :
    HomeWorld C → JobMessageV1 * HomeWorld C := or_job_error (events_response env request).

(** ** Policy questions as dispatches *)

(** The value of sixteen hexadecimal digits. *)
Fixpoint parse_hex (acc : N) (s : string) : option N :=
  match s with
  | EmptyString => Some acc
  | String c s =>
      match hex_nibble (Ascii.N_of_ascii c) with
      | Some d => parse_hex (acc * 16 + d) s
      | None => None
      end
  end.

Definition retry_correlation (attempt : AttemptId) : result HomeError N :=
  digest ← invalid (
    v ← map_err (fun e => Encoding ("cannot encode canonical JSON: " +:+ e)) (to_value attempt);
    b ← map_err (fun e => Encoding ("cannot encode canonical JSON: " +:+ e))
          (json_to_vec (sort_json
             (JObject [("attempt", v);
                       ("domain", JString "gawd.function.retry.correlation.v1")])));
    Ok (sha256_digest b));
  hex ← ok_or (strip_prefix "sha256:" digest) (HInvalid "canonical retry hash is not SHA-256");
  value ← ok_or (parse_hex 0 (String.substring 0 16 hex))
            (HInvalid "invalid digit found in string");
  Ok (N.max value 1).

Definition select_dispatch (question : SignedRecordV1 PlacementQuestionV1) : Dispatch :=
  with_schema (Dispatch_to (ARole FUNCTION_POLICY_ROLE) (to_bytes (PSelectDeployment question)))
    SCHEMA_POLICY_V1.
Definition retry_dispatch (question : SignedRecordV1 RetryQuestionV1) (corr : N) : Dispatch :=
  with_corr
    (with_schema (Dispatch_to (ARole FUNCTION_POLICY_ROLE) (to_bytes (PDecideRetry question)))
       SCHEMA_POLICY_V1) corr.
Definition execute_dispatch (target : Address) (message : ExecuteMessageV1) : Dispatch :=
  with_schema (Dispatch_to target (to_bytes message)) SCHEMA_EXECUTE_V1.

Definition append_policy_question (outcome : Outcome) (handle : JobHandleV1) (w : HomeWorld C) :
    Outcome * HomeWorld C :=
  match placement_question handle w with
  | (Ok (Some question), w) => (Outcome_push outcome (select_dispatch question), w)
  | (_, w) => (outcome, w)
  end.

Definition append_retry_question (outcome : Outcome) (event : SignedRecordV1 JobEventV1)
    (w : HomeWorld C) : Outcome * HomeWorld C :=
  if decide (je_state_after (sr_payload event) ≠ SRetryPending) then (outcome, w)
  else
    match retry_failure (je_kind (sr_payload event)) with
    | None => (outcome, w)
    | Some (attempt, _, _) =>
        match retry_correlation attempt with
        | Err _ => (outcome, w)
        | Ok corr =>
            match retry_question (mkJobHandleV1 (at_home attempt) (at_job attempt)) attempt w with
            | (Ok question, w) => (Outcome_push outcome (retry_dispatch question corr), w)
            | (Err _, w) => (outcome, w)
            end
        end
    end.

(** ** Recovery *)

Definition ok {E A} (r : result E A) : option A := match r with Ok a => Some a | Err _ => None end.

(** The grant again, or a query when the Home has moved since. *)
Definition attempt_dispatch (h : FunctionHome C) (state : HomeState) (attempt : AttemptId) :
    option Dispatch :=
  let cf := fh_config h in
  grant ← hs_grants state !! key_of_attempt attempt;
  let g : ExecutionGrantV1 := sr_payload grant in
  let target := executor_target cf (sr_payload (eg_deployment g)) in
  route_sequence ← ok (active_route_sequence (hs_custody state));
  if bool_decide (cf_epoch cf = eg_home_epoch g)
     && bool_decide (route_sequence = eg_home_route_sequence g) then
    Some (execute_dispatch target (EGrant grant))
  else if bool_decide (eg_home_epoch g < cf_epoch cf)
          || (bool_decide (cf_epoch cf = eg_home_epoch g)
              && bool_decide (eg_home_route_sequence g < route_sequence)) then
    grant_hash ← ok (canonical_hash grant);
    request ← ok (SignedRecordV1_sign SCHEMA_EXECUTE_V1
      (mkExecutionQueryV1 attempt grant_hash (cf_epoch cf) route_sequence (cf_realm cf)
         (cf_node cf) (cf_coordinator cf) (cf_authority cf)
         ("reconcile-" +:+ dec (cf_epoch cf) +:+ "-" +:+ at_job attempt +:+ "-"
          +:+ dec (at_number attempt))) svc_signer);
    Some (execute_dispatch target (EQuery request))
  else None.

Definition control_dispatch (h : FunctionHome C) (state : HomeState) (attempt : AttemptId)
    (events : list (SignedRecordV1 JobEventV1)) (sequence : N) : option Dispatch :=
  grant ← hs_grants state !! key_of_attempt attempt;
  let target := executor_target (fh_config h) (sr_payload (eg_deployment (sr_payload grant))) in
  event ← List.find (fun event => bool_decide (je_sequence (sr_payload event) = sequence)) events;
  match je_kind (sr_payload event) with
  | KControlRequested request (Some _) =>
      if pending_control state attempt event then
        route_sequence ← ok (active_route_sequence (hs_custody state));
        endorsed ← ok (sign_control_endorsement h request event grant route_sequence);
        Some (execute_dispatch target (EControl endorsed))
      else None
  | _ => None
  end.

Definition recovery_dispatch_for_key (h : FunctionHome C) (state : HomeState)
    (key : HomeRecoveryKey) : option Dispatch :=
  job ← hs_jobs state !! hk_job key;
  let snapshot := jr_snapshot job in
  if bool_decide (hk_kind key = HOME_RECOVERY_PLACEMENT) && bool_decide (ss_state snapshot = SQueued)
  then
    question ← ok (sign_placement_question
                     (placement_question_of h (sp_handle (ss_spec snapshot)) snapshot));
    Some (select_dispatch question)
  else if bool_decide (hk_kind key = HOME_RECOVERY_RETRY)
          && bool_decide (ss_state snapshot = SRetryPending) then
    failure ← head (omap (fun event => retry_failure (je_kind (sr_payload event)))
                      (rev (jr_events job)));
    let '(attempt, error, retryable) := failure in
    correlation ← ok (retry_correlation attempt);
    question ← ok (sign_retry_question (retry_question_of h snapshot attempt error retryable));
    Some (retry_dispatch question correlation)
  else if bool_decide (hk_kind key = HOME_RECOVERY_ATTEMPT) && is_active (ss_state snapshot) then
    attempt ← ss_current_attempt snapshot;
    attempt_dispatch h state attempt
  else if bool_decide (hk_kind key = HOME_RECOVERY_CONTROL) && is_active (ss_state snapshot) then
    attempt ← ss_current_attempt snapshot;
    control_dispatch h state attempt (jr_events job) (hk_sequence key)
  else None.

Definition begin_recovery_sweep (w : HomeWorld C) : HomeWorld C :=
  match ensure_authoritative_state (w_home w) (w_state w) with
  | Err _ => set_sweep HomeRecoverySweep_default w
  | Ok _ =>
      let keys := for_each_recovery_key (w_state w) in
      set_sweep (mkHomeRecoverySweep None (last keys)
                   (N.min (N.of_nat (length keys)) usize_MAX)) w
  end.

(** The keys of a batch and whether more are left: the first [limit] keys after
    the cursor, up to the high-water mark. *)
Definition sweep_batch (state : HomeState) (sweep : HomeRecoverySweep)
    (high_water : HomeRecoveryKey) : list HomeRecoveryKey * bool :=
  let limit := N.min (sw_remaining sweep) MAX_HOME_RECOVERY_DISPATCHES in
  let selected := List.filter (fun key =>
      match sw_cursor sweep with
      | None => true
      | Some cursor => bool_decide (recovery_key_lt cursor key)
      end && bool_decide (recovery_key_le key high_water))
    (for_each_recovery_key state) in
  let keys := take (S (N.to_nat limit)) selected in
  (take (N.to_nat limit) keys, bool_decide (limit < N.of_nat (length keys))).

Definition continue_recovery_sweep (w : HomeWorld C) : Outcome * HomeWorld C :=
  match ensure_authoritative_state (w_home w) (w_state w) with
  | Err _ => (Outcome_none, set_sweep HomeRecoverySweep_default w)
  | Ok _ =>
      let sweep := w_sweep w in
      if decide (sw_remaining sweep = 0) then (Outcome_none, w)
      else
        match sw_high_water sweep with
        | None =>
            (Outcome_none,
             set_sweep (mkHomeRecoverySweep (sw_cursor sweep) (sw_high_water sweep) 0) w)
        | Some high_water =>
            let '(keys, has_more) := sweep_batch (w_state w) sweep high_water in
            match last keys with
            | None =>
                (Outcome_none,
                 set_sweep (mkHomeRecoverySweep (sw_cursor sweep) (sw_high_water sweep) 0) w)
            | Some cursor =>
                let remaining :=
                  if has_more then sw_remaining sweep - N.of_nat (length keys) else 0 in
                let dispatches :=
                  omap (recovery_dispatch_for_key (w_home w) (w_state w)) keys in
                let poke :=
                  match w_me w with
                  | Some me =>
                      if decide (0 < remaining) then
                        [with_schema (Dispatch_to (ACreature me) HOME_RECOVERY_POKE_PAYLOAD)
                           HOME_RECOVERY_POKE_SCHEMA]
                      else []
                  | None => []
                  end in
                (mkOutcome (dispatches ++ poke) None,
                 set_sweep (mkHomeRecoverySweep (Some cursor) (Some high_water) remaining) w)
            end
        end
  end.

Definition recovery_dispatches (w : HomeWorld C) : Outcome * HomeWorld C :=
  if decide (0 < sw_remaining (w_sweep w)) then continue_recovery_sweep w
  else continue_recovery_sweep (begin_recovery_sweep w).

Definition is_authenticated_recovery_poke (env : Envelope) (w : HomeWorld C) : bool :=
  match w_me w with
  | None => false
  | Some me =>
      bool_decide (hd_origin (ev_header env) = None)
      && bool_decide (hd_from (ev_header env) = ACreature me)
      && bool_decide (hd_to (ev_header env) = ACreature me)
      && bool_decide (ev_payload env = HOME_RECOVERY_POKE_PAYLOAD)
  end.

(** ** Handlers *)

Definition reply_job (env : Envelope) (message : JobMessageV1) : Outcome :=
  Outcome_send (with_schema (reply_to_env env (to_bytes message)) SCHEMA_JOB_V1).

Definition grant_dispatch (grant : SignedRecordV1 ExecutionGrantV1) (w : HomeWorld C) :
    option Dispatch :=
  match ensure_authoritative_state (w_home w) (w_state w) with
  | Err _ => None
  | Ok _ =>
      Some (execute_dispatch
              (executor_target (w_config w) (sr_payload (eg_deployment (sr_payload grant))))
              (EGrant grant))
  end.

Definition outcome_of (d : option Dispatch) : Outcome :=
  match d with Some d => Outcome_send d | None => Outcome_none end.

Definition handle_submit_message (env : Envelope) (request : SignedRecordV1 JobSubmitV1)
    (resolution : SignedRecordV1 ResolutionReceiptV1)
    (deployment : SignedRecordV1 DeploymentReceiptV1) (w : HomeWorld C) : Outcome * HomeWorld C :=
  match submit io request resolution deployment w with
  | (Ok (Accepted handle request_hash submitted), w)
  | (Ok (Existing handle request_hash submitted), w) =>
      append_policy_question (reply_job env (JAccepted handle request_hash submitted)) handle w
  | (Err e, w) => (reply_job env (job_error e), w)
  end.

Definition handle_control_message (env : Envelope) (request : SignedRecordV1 JobControlV1)
    (w : HomeWorld C) : Outcome * HomeWorld C :=
  match canonical_hash request with
  | Err e => (reply_job env (job_error (HInvalid (ContractError_to_string e))), w)
  | Ok request_hash =>
      match control io request w with
      | (Err e, w) => (reply_job env (job_error e), w)
      | (Ok event, w) =>
          let (forward, w) := endorsed_control request event w in
          let outcome := reply_job env (JControlAccepted request_hash event) in
          let outcome :=
            match forward with
            | Ok (Some (endorsed, target)) =>
                Outcome_push outcome (execute_dispatch target (EControl endorsed))
            | _ => outcome
            end in
          match je_kind (sr_payload event) with
          | KChildSpawned _ _ _ child _ _ => append_policy_question outcome child w
          | _ => (outcome, w)
          end
      end
  end.

(** The [SCHEMA_JOB_V1] branch of [Creature::handle]. *)
Definition handle_job (env : Envelope) (w : HomeWorld C) : Outcome * HomeWorld C :=
  match from_slice (ev_payload env) with
  | Err _ => (Outcome_none, w)
  | Ok message =>
      match message with
      | JSubmit request resolution deployment =>
          handle_submit_message env request resolution deployment w
      | JGet request =>
          let (response, w) := handle_get_message env request w in (reply_job env response, w)
      | JEvents request =>
          let (response, w) := handle_events_message env request w in (reply_job env response, w)
      | JControl request => handle_control_message env request w
      | JAccepted _ _ _ | JSnapshot _ | JEventPage _ | JControlAccepted _ _ | JEvent _
      | JError _ => (Outcome_none, w)
      end
  end.

(** The [SCHEMA_EXECUTE_V1] branch. *)
Definition handle_execute (env : Envelope) (w : HomeWorld C) : Outcome * HomeWorld C :=
  match from_slice (ev_payload env) with
  | Ok (EReceipt receipt) =>
      match apply_executor_receipt io receipt w with
      | (Ok (ReceiptApplied event), w) | (Ok (ReceiptDuplicate event), w) =>
          append_retry_question (reply_job env (JEvent event)) event w
      | (Err e, w) => (reply_job env (job_error e), w)
      end
  | _ => (Outcome_none, w)
  end.

Definition handle_policy_message (message : PolicyMessageV1) (w : HomeWorld C) :
    Outcome * HomeWorld C :=
  match message with
  | PDeploymentSelected decision =>
      match apply_placement_decision io decision w with
      | (Ok grant, w) => (outcome_of (grant_dispatch grant w), w)
      | (Err _, w) => (Outcome_none, w)
      end
  | PRetryDecided decision =>
      match apply_retry_decision io decision w with
      | (Ok grant, w) => (outcome_of (grant ← grant; grant_dispatch grant w), w)
      | (Err _, w) => (Outcome_none, w)
      end
  | PSelectDeployment _ | PDecideRetry _ | PError _ => (Outcome_none, w)
  end.

(** The [SCHEMA_POLICY_V1] branch. *)
Definition handle_policy (env : Envelope) (w : HomeWorld C) : Outcome * HomeWorld C :=
  match from_slice (ev_payload env) with
  | Ok message => handle_policy_message message w
  | Err _ => (Outcome_none, w)
  end.
End serve.
