(* ===== verification/HomeServeLaws.v ===== *)
(** * Laws of the serving side of the Function Home

    Event pages are complete and a reader that follows their cursors terminates;
    the recovery sweep visits every durable obligation once, in bounded batches;
    private reads go to the people of the job and to the signed return route, and
    write nothing. *)

From stdpp Require Import sorting.
From S2P Require Import Prelude Serde GxShape GxHash FnCrypto FnTypes FnWire FnCustody FnMessages.
From S2P Require Import AetherAddress AetherEnvelope Journal HomeLedger HomeLaws HomeGrowth HomeApi.
From S2P Require Import HomeProtocol HomeApiLaws HomeServe.

Lemma take_rest {A} n (l : list A) : take n l ++ drop (length (take n l)) l = l.
Proof.
  rewrite length_take. destruct (Nat.min_spec n (length l)) as [[_ ->]|[Hle ->]]; [apply take_drop|].
  rewrite take_ge, drop_all by lia. apply app_nil_r.
Qed.

(** ** Numbered histories *)

(** The events carry the sequence numbers after [k]. *)
Definition numbered (k : N) (events : list (SignedRecordV1 JobEventV1)) : Prop :=
  ∀ i e, events !! i = Some e → je_sequence (sr_payload e) = k + N.of_nat i + 1.

Lemma numbered_nil k : numbered k [].
Proof. intros i e. by rewrite lookup_nil. Qed.
Lemma numbered_cons k e l :
  numbered k (e :: l) ↔ je_sequence (sr_payload e) = k + 1 ∧ numbered (k + 1) l.
Proof.
  split.
  - intros H. split; [specialize (H 0%nat e eq_refl); lia|].
    intros i e' He. specialize (H (S i) e' He). lia.
  - intros [H H'] [|i] e' He; simplify_eq/=; [lia|]. rewrite (H' i e' He). lia.
Qed.
Lemma numbered_app k l l' :
  numbered k (l ++ l') ↔ numbered k l ∧ numbered (k + N.of_nat (length l)) l'.
Proof.
  revert k. induction l as [|e l IH]; intros k; cbn [app length].
  - rewrite N.add_0_r. split; [split; [apply numbered_nil|done]|by intros [_ ?]].
  - rewrite !numbered_cons, IH.
    replace (k + 1 + N.of_nat (length l)) with (k + N.of_nat (S (length l))) by lia. tauto.
Qed.

Lemma history_numbered job events state sequence :
  history job events state sequence → N.of_nat (length events) ≤ u64_MAX →
  numbered 0 events ∧ sequence = N.of_nat (length events).
Proof.
  induction 1 as [e spec _ _ Hs|events from sequence e _ IH _ Hs _]; intros Hl.
  - split; [|done]. apply numbered_cons. split; [done|apply numbered_nil].
  - rewrite length_app in *. cbn in *. destruct IH as [IH ->]; [lia|].
    rewrite u64_add_exact in Hs by (unfold u64_MAX in *; lia).
    split; [|lia]. apply numbered_app. split; [done|]. apply numbered_cons.
    split; [lia|apply numbered_nil].
Qed.

Lemma check_page_numbered k l :
  numbered k l → k + N.of_nat (length l) ≤ u64_MAX →
  check_page_sequence k l = Ok (k + N.of_nat (length l)).
Proof.
  revert k. induction l as [|e l IH]; intros k H Hl; cbn [check_page_sequence length] in *.
  { by rewrite N.add_0_r. }
  apply numbered_cons in H as [He H]. rewrite !decide_False by (rewrite ?He; lia).
  rewrite He, IH; [f_equal; lia|done|lia].
Qed.

(** The filter of [events_from_state] drops what the reader has seen. *)
Lemma eligible_drop k l :
  numbered k l →
  ∀ after, List.filter (fun e => bool_decide (after < je_sequence (sr_payload e))) l
           = drop (N.to_nat (after - k)) l.
Proof.
  revert k. induction l as [|e l IH]; intros k H after; cbn [List.filter].
  { by rewrite drop_nil. }
  apply numbered_cons in H as [He H]. rewrite He, (IH _ H). case_bool_decide.
  - replace (N.to_nat (after - k)) with 0%nat by lia.
    by replace (N.to_nat (after - (k + 1))) with 0%nat by lia.
  - by replace (N.to_nat (after - k)) with (S (N.to_nat (after - (k + 1)))) by lia.
Qed.

(** ** Pages *)

Section pages.
  Context `{!Sha256} `{!JsonText} `{!Ed25519} `{!WireSerde} `{!CustodySerde} `{!MessageSerde}.
  Context `{!HomeServices} `{!HomeCodec} {C : Type}.
  Implicit Types h : FunctionHome C.

(** A page takes a prefix of the eligible events, says whether some are left, and
    respects the limit. *)
Lemma page_loop_prefix limit eligible bytes taken events more :
  page_loop limit eligible bytes taken = Ok (events, more) →
  ∃ n, events = taken ++ take n eligible
       ∧ (n ≤ limit)%nat ∧ (n ≤ length eligible)%nat ∧ more = bool_decide (n < length eligible)%nat.
Proof.
  revert eligible bytes taken. induction limit as [|limit IH]; intros [|e l] bytes taken E;
    cbn [page_loop] in E; simplify_eq; cbn [length];
    try (exists 0%nat; rewrite take_0, app_nil_r; split_and!; [done|lia|lia|];
         (case_bool_decide; first [done|lia])).
  inv_result. case_decide; simplify_eq.
  - exists 0%nat. rewrite take_0, app_nil_r. cbn.
    split_and!; [done|lia|lia|case_bool_decide; [done|lia]].
  - match goal with H : page_loop _ _ _ _ = _ |- _ => apply IH in H as (n & -> & Hn & Hl & ->) end.
    exists (S n). cbn. rewrite <- app_assoc. split_and!; [done|lia|lia|].
    apply bool_decide_ext. lia.
Qed.

Definition after_of (query : EventQueryV1) : N := default 0 (ev_after_sequence query).

(** What a served page is known to be. *)
Record page_of (events : list (SignedRecordV1 JobEventV1)) (query : EventQueryV1)
    (page : EventPageV1) : Prop := {
  po_handle : pg_handle page = ev_handle query;
  po_events : ∃ n, pg_events page = take n (drop (N.to_nat (after_of query)) events)
                   ∧ (n ≤ N.to_nat (ev_limit query))%nat;
  po_last : pg_next_after_sequence page = None →
            pg_events page = drop (N.to_nat (after_of query)) events;
  po_more : ∀ cursor, pg_next_after_sequence page = Some cursor →
            pg_events page ≠ []
            ∧ cursor = after_of query + N.of_nat (length (pg_events page))
            ∧ cursor < N.of_nat (length events)
}.

Lemma last_numbered k l e :
  numbered k l → last l = Some e → je_sequence (sr_payload e) = k + N.of_nat (length l).
Proof.
  intros Hm Hl. rewrite last_lookup in Hl. rewrite (Hm _ _ Hl).
  apply lookup_lt_Some in Hl. lia.
Qed.

Lemma events_page h s query page r :
  hs_jobs s !! jh_job (ev_handle query) = Some r → numbered 0 (jr_events r) →
  events_from_state h s query = Ok page → page_of (jr_events r) query page.
Proof.
  intros Hr Hnum E. unfold events_from_state, find_job in E. rewrite Hr in E.
  cbn -[page_loop EventPageV1_validate] in E. inv_result.
  match goal with H : page_loop _ _ _ _ = Ok ?p |- _ => destruct p as [events more] end.
  match goal with H : page_loop _ _ _ _ = _ |- _ => rename H into Hp end.
  rewrite (eligible_drop 0) in Hp by done. rewrite N.sub_0_r in Hp. fold (after_of query) in Hp.
  apply page_loop_prefix in Hp as (n & Hev & Hn & Hlen & ->). cbn [app] in Hev. subst events page.
  rewrite length_drop in *. cbn in *. set (a := N.to_nat (after_of query)) in *.
  constructor; cbn; [done|exists n; split; [done|lia]| |].
  - case_bool_decide as Hmore; [|intros _; apply take_ge; rewrite length_drop; lia].
    rewrite fmap_None, last_None. intros Hnil. rewrite Hnil in *. cbn in *.
    unfold reject in *. inv_result.
  - intros cursor. case_bool_decide as Hmore; [|done]. intros (e & He & ->)%fmap_Some.
    assert (Hn' : numbered (after_of query) (take n (drop a (jr_events r)))).
    { intros i y [Hi _]%lookup_take_Some. rewrite lookup_drop in Hi. apply Hnum in Hi. lia. }
    rewrite (last_numbered _ _ _ Hn' He). split_and!; [|done|].
    + intros Hnil. by rewrite Hnil in He.
    + rewrite length_take, length_drop. lia.
Qed.

Definition query_after (query : EventQueryV1) (cursor : option N) : EventQueryV1 :=
  mkEventQueryV1 (ev_handle query) cursor (ev_limit query) (ev_nonce query).

(** A reader that follows the cursors: [None] is running out of pages. *)
Fixpoint read_events (pages : nat) h (s : HomeState) (query : EventQueryV1) :
    option (result HomeError (list (SignedRecordV1 JobEventV1))) :=
  match pages with
  | O => None
  | S pages =>
      match events_from_state h s query with
      | Err e => Some (Err e)
      | Ok page =>
          match pg_next_after_sequence page with
          | None => Some (Ok (pg_events page))
          | Some cursor =>
              match read_events pages h s
                      (query_after query (Some cursor)) with
              | Some (Ok rest) => Some (Ok (pg_events page ++ rest))
              | other => other
              end
          end
      end
  end.

Lemma read_events_complete h s r pages query :
  hs_jobs s !! jh_job (ev_handle query) = Some r → numbered 0 (jr_events r) →
  (length (jr_events r) - N.to_nat (after_of query) < pages)%nat →
  match read_events pages h s query with
  | Some (Ok events) => events = drop (N.to_nat (after_of query)) (jr_events r)
  | Some (Err e) => ∃ cursor, events_from_state h s (query_after query cursor) = Err e
  | None => False
  end.
Proof.
  revert query. induction pages as [|pages IH]; intros query Hr Hnum Hp; [lia|].
  cbn [read_events]. destruct (events_from_state h s query) as [page|e] eqn:E.
  2:{ exists (ev_after_sequence query). by destruct query. }
  pose proof (events_page h s query page r Hr Hnum E) as P.
  destruct (pg_next_after_sequence page) as [cursor|] eqn:Ec; [|by apply (po_last _ _ _ P)].
  destruct (po_more _ _ _ P cursor Ec) as (Hne & Hc & Hlt).
  set (query' := query_after query (Some cursor)).
  assert (after_of query' = cursor) as Ha by done.
  assert (0 < length (pg_events page))%nat by (destruct (pg_events page); [done|cbn; lia]).
  specialize (IH query' Hr Hnum). rewrite Ha in IH.
  destruct (read_events pages h s query') as [[rest|e]|]; [|apply IH; lia..].
  - rewrite IH by lia. destruct (po_events _ _ _ P) as (n & Hn & _).
    rewrite Hc, N2Nat.inj_add, Nat2N.id, <- drop_drop, Hn. apply take_rest.
Qed.
End pages.

(** ** The order of recovery keys *)

Lemma recovery_key_lt_alt a b :
  recovery_key_lt a b ↔
  (str_le (hk_job a) (hk_job b) ∧ hk_job a ≠ hk_job b)
  ∨ (hk_job a = hk_job b
     ∧ (hk_kind a < hk_kind b ∨ (hk_kind a = hk_kind b ∧ hk_sequence a < hk_sequence b))).
Proof.
  unfold recovery_key_lt, recovery_key_le. fold (str_le (hk_job b) (hk_job a)).
  destruct (decide (hk_job a = hk_job b)) as [E|E].
  - rewrite E. assert (str_le (hk_job b) (hk_job b)) by (by destruct (total str_le (hk_job b) (hk_job b))).
    split.
    + intros Hn. right. split; [done|].
      destruct (decide (hk_kind a < hk_kind b)); [by left|]. right.
      destruct (decide (hk_kind a = hk_kind b)); [|exfalso; apply Hn; split; [done|lia]].
      split; [done|]. destruct (decide (hk_sequence a < hk_sequence b)); [done|].
      exfalso. apply Hn. split; [done|lia].
    + intros [[_ ?]|[_ Hlt]] [_ Hle]; [done|]. specialize (Hle eq_refl). lia.
  - split.
    + intros Hn. left. split; [|done]. destruct (total str_le (hk_job a) (hk_job b)) as [|Hle]; [done|].
      exfalso. apply Hn. split; [done|]. intros E'. by destruct E.
    + intros [[Hle _]|[? _]] [Hle' _]; [|done]. apply E. by apply (anti_symm str_le).
Qed.

#[export] Instance recovery_key_lt_strict : StrictOrder recovery_key_lt.
Proof.
  split.
  - intros a. unfold complement. rewrite recovery_key_lt_alt. intros [[_ ?]|[_ ?]]; [done|lia].
  - intros a b c. rewrite !recovery_key_lt_alt.
    intros [[H1 H2]|[E1 L1]] [[H3 H4]|[E2 L2]].
    + left. split; [by etrans|]. intros E. rewrite <- E in H3. apply H4. rewrite <- E.
      by apply (anti_symm str_le).
    + left. by rewrite <- E2.
    + left. by rewrite E1.
    + right. split; [congruence|]. lia.
Qed.

Lemma recovery_key_le_alt a b : recovery_key_le a b ↔ ¬ recovery_key_lt b a.
Proof. unfold recovery_key_lt. destruct (decide (recovery_key_le a b)); tauto. Qed.

Lemma filter_all {A} (P : A → bool) l : (∀ x, x ∈ l → P x = true) → List.filter P l = l.
Proof.
  induction l as [|x l IH]; intros Hl; [done|]. cbn. rewrite Hl by set_solver.
  f_equal. apply IH. set_solver.
Qed.
Lemma filter_none {A} (P : A → bool) l : (∀ x, x ∈ l → P x = false) → List.filter P l = [].
Proof.
  induction l as [|x l IH]; intros Hl; [done|]. cbn. rewrite Hl by set_solver.
  apply IH. set_solver.
Qed.

(** In a strictly sorted list, what is after the last element of a prefix and not
    after the last element of all is the rest. *)
Lemma sorted_le_last l k m :
  StronglySorted recovery_key_lt l → k ∈ l → last l = Some m → ¬ recovery_key_lt m k.
Proof.
  intros Hs Hk (l' & ->)%last_Some. apply elem_of_app in Hk as [Hk|Hk].
  - intros Hlt. eapply StronglySorted_app_1_elem_of in Hs; [|done|by left].
    apply (irreflexivity recovery_key_lt m). by etrans.
  - apply list_elem_of_singleton in Hk as ->. apply irreflexivity, _.
Qed.

Lemma sorted_nodup {A} (R : relation A) `{!Irreflexive R} l : StronglySorted R l → NoDup l.
Proof.
  induction 1 as [|x l _ IH Hx]; constructor; [|done]. intros Hin.
  rewrite Forall_forall in Hx. by apply (irreflexivity R x), Hx.
Qed.

Definition after_cursor (cursor : option HomeRecoveryKey) (key : HomeRecoveryKey) : bool :=
  match cursor with None => true | Some cursor => bool_decide (recovery_key_lt cursor key) end.

Lemma sweep_selects seen rest high :
  StronglySorted recovery_key_lt (seen ++ rest) → last (seen ++ rest) = Some high →
  List.filter (fun key => after_cursor (last seen) key && bool_decide (recovery_key_le key high))
    (seen ++ rest) = rest.
Proof.
  intros Hs Hh. rewrite List.filter_app, filter_none, filter_all; [done| |].
  - intros k Hk. apply andb_true_iff. split.
    + unfold after_cursor. destruct (last seen) as [c|] eqn:Ec; [|done].
      apply bool_decide_true. apply last_Some in Ec as (l & ->).
      eapply StronglySorted_app_1_elem_of; [done| |done]. set_solver.
    + apply bool_decide_true, recovery_key_le_alt. eapply sorted_le_last; [done| |done]. set_solver.
  - intros k Hk. apply andb_false_iff. left. unfold after_cursor.
    destruct (last seen) as [c|] eqn:Ec; [|by apply last_None in Ec as ->; set_solver].
    apply bool_decide_false. apply StronglySorted_app in Hs as (_ & Hs & _).
    by eapply sorted_le_last.
Qed.

(** ** The keys of a ledger are strictly sorted *)

#[export] Instance job_le_trans : Transitive job_le.
Proof. intros a b c. unfold job_le. by etrans. Qed.
#[export] Instance job_le_total : Total job_le.
Proof. intros a b. apply (total str_le). Qed.

(** Jobs of a ledger in which sequence numbers do not wrap. *)
Definition events_fit (s : HomeState) : Prop :=
  ∀ job r, hs_jobs s !! job = Some r → N.of_nat (length (jr_events r)) ≤ u64_MAX.

Lemma controls_sorted job (P : SignedRecordV1 JobEventV1 → bool) k events :
  numbered k events →
  StronglySorted recovery_key_lt
    (map (fun e => mkHomeRecoveryKey job HOME_RECOVERY_CONTROL (je_sequence (sr_payload e)))
       (List.filter P events)).
Proof.
  revert k. induction events as [|e l IH]; intros k Hn; cbn; [constructor|].
  apply numbered_cons in Hn as [He Hn]. destruct (P e); [|by eapply IH]. cbn.
  constructor; [by eapply IH|]. apply List.Forall_map, List.Forall_forall.
  intros e' [He' _]%List.filter_In. apply list_elem_of_In, list_elem_of_lookup in He' as [i Hi].
  apply recovery_key_lt_alt. right. cbn. split; [done|]. right. split; [done|].
  rewrite He, (Hn i e' Hi). lia.
Qed.

Lemma job_keys_sorted s entry :
  numbered 0 (jr_events entry.2) → StronglySorted recovery_key_lt (job_recovery_keys s entry).
Proof.
  destruct entry as [job r]. cbn. intros Hn.
  assert (∀ k, StronglySorted recovery_key_lt [k]) by (intros; by repeat constructor).
  destruct (ss_state _); try done; try constructor;
    destruct (ss_current_attempt _) as [a|]; try constructor;
    destruct (hs_grants s !! _); try constructor;
    try (by eapply controls_sorted);
    apply List.Forall_map, List.Forall_forall; intros e _; apply recovery_key_lt_alt; right;
    split; [done|by left|done|by left].
Qed.

Lemma job_keys_job s entry k : k ∈ job_recovery_keys s entry → hk_job k = entry.1.
Proof.
  destruct entry as [job r]. cbn. destruct (ss_state _); try set_solver;
    (destruct (ss_current_attempt _) as [a|]; [|set_solver]);
    (destruct (hs_grants s !! _); [|set_solver]);
    rewrite elem_of_cons, list_elem_of_fmap; intros [->|(e & -> & _)]; done.
Qed.

Lemma keys_sorted s entries :
  StronglySorted job_le entries → NoDup entries.*1 →
  Forall (fun entry => numbered 0 (jr_events entry.2)) entries →
  StronglySorted recovery_key_lt (flat_map (job_recovery_keys s) entries).
Proof.
  induction entries as [|x l IH]; intros Hs Hd Hn; cbn; [constructor|].
  apply StronglySorted_inv in Hs as [Hs Hx]. apply NoDup_cons in Hd as [Hni Hd].
  apply Forall_cons in Hn as [Hnx Hn].
  apply StronglySorted_app_2; [|by apply job_keys_sorted|by apply IH].
  intros a b Ha (y & Hy & Hb)%list_elem_of_In%in_flat_map.
  apply list_elem_of_In in Hy, Hb. apply job_keys_job in Ha, Hb.
  apply recovery_key_lt_alt. left. rewrite Ha, Hb. split.
  - rewrite Forall_forall in Hx. by apply Hx.
  - intros E. apply Hni. rewrite E. by apply list_elem_of_fmap_2.
Qed.

Lemma recovery_keys_sorted s :
  jobs_recorded s → events_fit s → StronglySorted recovery_key_lt (for_each_recovery_key s).
Proof.
  intros Hr Hf. unfold for_each_recovery_key, jobs_in_order.
  pose proof (merge_sort_Permutation job_le (map_to_list (hs_jobs s))) as Hp.
  apply keys_sorted.
  - apply StronglySorted_merge_sort; apply _.
  - rewrite Hp. apply NoDup_fst_map_to_list.
  - rewrite Hp. apply Forall_forall. intros [job r] Hx%elem_of_map_to_list. cbn.
    by eapply history_numbered; [apply Hr|eapply Hf].
Qed.

(** ** Sweeping *)

Section sweeping.
  Context `{!Sha256} `{!JsonText} `{!Ed25519} `{!WireSerde} `{!CustodySerde} `{!MessageSerde}.
  Context `{!HomeServices} `{!HomeCodec} {C : Type}.

(** Serving [n] recovery turns, one after the other. *)
Fixpoint sweep (n : nat) (w : HomeWorld C) : list Outcome * HomeWorld C :=
  match n with
  | O => ([], w)
  | S n =>
      let (outcome, w) := recovery_dispatches w in
      let (outcomes, w) := sweep n w in (outcome :: outcomes, w)
  end.

Definition recovery_poke (me : option N) : list Dispatch :=
  match me with
  | Some me => [with_schema (Dispatch_to (ACreature me) HOME_RECOVERY_POKE_PAYLOAD)
                  HOME_RECOVERY_POKE_SCHEMA]
  | None => []
  end.

(** One outcome per batch of keys: the dispatches of its keys, and a poke while
    batches are left. *)
Fixpoint batch_outcomes (w : HomeWorld C) (batches : list (list HomeRecoveryKey)) : list Outcome :=
  match batches with
  | [] => []
  | batch :: batches =>
      mkOutcome
        (omap (recovery_dispatch_for_key (w_home w) (w_state w)) batch
         ++ match batches with [] => [] | _ => recovery_poke (w_me w) end) None
      :: batch_outcomes w batches
  end.

(** The sweep stands before [rest]. *)
Record sweep_at (w : HomeWorld C) (rest : list HomeRecoveryKey) : Prop := {
  sa_keys : ∃ seen, for_each_recovery_key (w_state w) = seen ++ rest
                    ∧ sw_cursor (w_sweep w) = last seen;
  sa_high : sw_high_water (w_sweep w) = last (for_each_recovery_key (w_state w));
  sa_remaining : sw_remaining (w_sweep w) = N.of_nat (length rest)
}.

Lemma batch_takes w rest high :
  StronglySorted recovery_key_lt (for_each_recovery_key (w_state w)) →
  sweep_at w rest → last (for_each_recovery_key (w_state w)) = Some high →
  sweep_batch (w_state w) (w_sweep w) high
  = (take 64 rest, bool_decide (64 < length rest)%nat).
Proof.
  intros Hs [(seen & Hk & Hc) _ Hr] Hh. unfold sweep_batch. rewrite Hk in *. rewrite Hr.
  change (List.filter _ (seen ++ rest)) with
    (List.filter (fun key => after_cursor (sw_cursor (w_sweep w)) key
                             && bool_decide (recovery_key_le key high)) (seen ++ rest)).
  rewrite Hc, sweep_selects by done.
  rewrite take_take, length_take, N2Nat.inj_min, Nat2N.id.
  change (N.to_nat MAX_HOME_RECOVERY_DISPATCHES) with 64%nat. f_equal.
  - rewrite (Nat.min_l _ (S _)) by lia.
    destruct (Nat.min_spec (length rest) 64) as [[? ->]|[? ->]]; [|done].
    by rewrite !take_ge by lia.
  - apply bool_decide_ext. unfold MAX_HOME_RECOVERY_DISPATCHES. lia.
Qed.

Lemma continue_batch w rest :
  ensure_authoritative_state (w_home w) (w_state w) = Ok tt →
  StronglySorted recovery_key_lt (for_each_recovery_key (w_state w)) →
  sweep_at w rest → rest ≠ [] →
  ∃ sw, continue_recovery_sweep w
    = (mkOutcome (omap (recovery_dispatch_for_key (w_home w) (w_state w)) (take 64 rest)
                  ++ match drop 64 rest with [] => [] | _ => recovery_poke (w_me w) end) None,
       set_sweep sw w)
    ∧ sweep_at (set_sweep sw w) (drop 64 rest).
Proof.
  intros Ha Hs A Hne. unfold continue_recovery_sweep. rewrite Ha.
  assert (0 < length rest)%nat by (destruct rest; [done|cbn; lia]).
  pose proof A as [(seen & Hk & Hc) Hh Hr].
  rewrite decide_False by (rewrite Hr; lia). rewrite Hh.
  destruct (last (for_each_recovery_key (w_state w))) as [high|] eqn:El.
  2:{ apply last_None in El. rewrite El in Hk. by destruct seen, rest. }
  rewrite (batch_takes w rest high) by done.
  destruct (last (take 64 rest)) as [cursor|] eqn:Ecur.
  2:{ apply last_None in Ecur. by destruct rest. }
  assert (Hrem : (if bool_decide (64 < length rest)%nat
            then sw_remaining (w_sweep w) - N.of_nat (length (take 64 rest)) else 0)
          = N.of_nat (length (drop 64 rest))).
  { rewrite Hr, length_take, length_drop. case_bool_decide; lia. }
  rewrite Hrem. eexists. split.
  - apply f_equal2; [|reflexivity]. f_equal. f_equal.
    destruct (w_me w) as [me|], (drop 64 rest) as [|k l]; cbn [recovery_poke length]; done.
  - constructor; cbn; [|done|done]. exists (seen ++ take 64 rest). split.
    + by rewrite <- app_assoc, take_drop.
    + rewrite last_app, Ecur. done.
Qed.

Lemma batch_outcomes_same sw w batches :
  batch_outcomes (set_sweep sw w) batches = batch_outcomes w batches.
Proof. induction batches as [|b l IH]; [done|]. cbn [batch_outcomes]. by rewrite IH. Qed.

Lemma sweep_from w rest :
  ensure_authoritative_state (w_home w) (w_state w) = Ok tt →
  StronglySorted recovery_key_lt (for_each_recovery_key (w_state w)) →
  sweep_at w rest →
  ∃ batches sw,
    concat batches = rest ∧ Forall (fun batch => 0 < length batch ≤ 64)%nat batches
    ∧ sweep (length batches) w = (batch_outcomes w batches, set_sweep sw w)
    ∧ sw_remaining sw = 0.
Proof.
  remember (length rest) as n eqn:En. revert w rest En.
  induction (lt_wf n) as [n _ IH]; intros w rest -> Ha Hs A.
  destruct (decide (rest = [])) as [->|Hne].
  { exists [], (w_sweep w). split_and!; [done|done|by destruct w|apply A]. }
  assert (0 < length rest)%nat by (destruct rest; [done|cbn; lia]).
  destruct (continue_batch w rest Ha Hs A Hne) as (sw & Hrun & A').
  destruct (IH (length (drop 64 rest))) with (w := set_sweep sw w) (rest := drop 64 rest)
    as (batches & sw' & Hb & Hf & Hsw & Hz); try done; [rewrite length_drop; lia|].
  exists (take 64 rest :: batches), sw'. cbn [concat length sweep]. split_and!; [|constructor| |done].
  - rewrite Hb. apply take_drop.
  - rewrite length_take. lia.
  - done.
  - unfold recovery_dispatches. rewrite decide_True by (rewrite (sa_remaining _ _ A); lia).
    rewrite Hrun, Hsw. cbn [batch_outcomes].
    replace (match drop 64 rest with [] => [] | _ => recovery_poke (w_me w) end)
      with (match batches with [] => [] | _ => recovery_poke (w_me w) end);
      [by rewrite batch_outcomes_same|].
    rewrite <- Hb. destruct batches as [|[] ]; [done| |done].
    apply Forall_cons in Hf as [Hf _]. cbn in Hf. lia.
Qed.

Lemma sweep_complete w :
  jobs_recorded (w_state w) → events_fit (w_state w) →
  ensure_authoritative_state (w_home w) (w_state w) = Ok tt →
  N.of_nat (length (for_each_recovery_key (w_state w))) ≤ usize_MAX →
  sw_remaining (w_sweep w) = 0 →
  ∃ batches sw,
    concat batches = for_each_recovery_key (w_state w)
    ∧ Forall (fun batch => 0 < length batch ≤ 64)%nat batches
    ∧ sweep (length batches) w = (batch_outcomes w batches, set_sweep sw w)
    ∧ sw_remaining sw = 0.
Proof.
  intros Hr Hf Ha Hl Hz. set (keys := for_each_recovery_key (w_state w)) in *.
  set (w1 := begin_recovery_sweep w).
  assert (sweep_at w1 keys ∧ ∃ sw, w1 = set_sweep sw w) as [A [sw1 E1]].
  { unfold w1, begin_recovery_sweep. rewrite Ha. fold keys. split; [|by eexists].
    constructor; cbn; [by exists []|done|lia]. }
  destruct (sweep_from w1 keys) as (batches & sw & Hb & Hfb & Hsw & Hzz); [by rewrite E1| |done|].
  { rewrite E1. by apply recovery_keys_sorted. }
  destruct batches as [|batch batches].
  { exists [], (w_sweep w). split_and!; [done|done|by destruct w|done]. }
  exists (batch :: batches), sw. split_and!; [done|done| |done].
  assert (Hd : recovery_dispatches w1 = recovery_dispatches w).
  { unfold recovery_dispatches. fold w1. rewrite (decide_False (P := 0 < sw_remaining (w_sweep w))) by lia.
    rewrite decide_True; [done|]. rewrite (sa_remaining _ _ A), <- Hb. cbn [concat].
    apply Forall_cons in Hfb as [Hfb _]. rewrite length_app. lia. }
  cbn [length sweep] in Hsw |- *. rewrite <- Hd, Hsw, E1, batch_outcomes_same. done.
Qed.
End sweeping.

(** ** Private reads *)

Section reads.
  Context `{!Sha256} `{!JsonText} `{!Ed25519} `{!WireSerde} `{!CustodySerde} `{!MessageSerde}.
  Context `{!HomeServices} `{!HomeCodec} {C : Type}.

(** The signer is the Home itself or one of the job's people. *)
Definition may_read (cf : HomeConfig) (r : JobRecord) (signer : string) : Prop :=
  signer = cf_home cf
  ∨ signer ∈ ja_readers (sp_access (ss_spec (jr_snapshot r)))
  ∨ signer ∈ ja_controllers (sp_access (ss_spec (jr_snapshot r))).

(** The request came over the return route its relay signed for, from a relay the
    policy allows for this caller. *)
Definition on_signed_route (env : Envelope) (reply_to relay caller : string) : Prop :=
  (∃ addr, hd_reply_to (ev_header env) = Some addr ∧ address_to_string addr = Ok reply_to)
  ∧ ∃ u, svc_allow_read_relay relay caller = Ok u.

Lemma existsb_id (signer : string) l :
  existsb (fun id => bool_decide (id = signer)) l = true → signer ∈ l.
Proof.
  intros (x & Hx & E)%existsb_exists. apply bool_decide_eq_true in E as ->. by apply list_elem_of_In.
Qed.

Lemma authorize_reader_Ok (h : FunctionHome C) s handle signer u :
  authorize_reader_from_state h s handle signer = Ok u →
  jh_home handle = cf_home (fh_config h)
  ∧ ∃ r, hs_jobs s !! jh_job handle = Some r ∧ may_read (fh_config h) r signer.
Proof.
  unfold authorize_reader_from_state, job_snapshot. intros E. inv_result.
  match goal with H : reject _ _ = _ |- _ => apply reject_Ok in H; to_prop end.
  split; [done|].
  match goal with H : _ <$> _ = Some _ |- _ => apply fmap_Some in H as (r & Hr & ->) end.
  exists r. split; [done|]. case_match eqn:Hb; [|done]. unfold may_read.
  apply orb_true_iff in Hb as [[Hb|Hb]%orb_true_iff|Hb].
  - left. by apply bool_decide_eq_true in Hb.
  - right. left. by apply existsb_id.
  - right. right. by apply existsb_id.
Qed.

Lemma require_read_route_Ok env expected u :
  require_read_route env expected = Ok u →
  ∃ addr, hd_reply_to (ev_header env) = Some addr ∧ address_to_string addr = Ok expected.
Proof.
  unfold require_read_route. intros E. inv_result.
  case_decide; simplify_eq. eauto.
Qed.

Lemma bounded_read message :
  bounded_private_read_response message = message
  ∨ ∃ e, bounded_private_read_response message = JError e.
Proof.
  unfold bounded_private_read_response, protocol_error. destruct (to_vec message); [|eauto].
  case_decide; eauto.
Qed.

Definition snapshot_served (env : Envelope) (request : SignedRecordV1 JobGetRelayV1)
    (w : HomeWorld C) (response : SignedRecordV1 JobSnapshotResponseV1) : Prop :=
  let caller := gr_caller (sr_payload request) in
  let handle := jg_handle (sr_payload caller) in
  (∃ u, verify_job_get_relay request = Ok u)
  ∧ on_signed_route env (gr_reply_to (sr_payload request)) (sr_signer request) (sr_signer caller)
  ∧ canonical_hash request = Ok (sv_request_hash (sr_payload response))
  ∧ ∃ r, hs_jobs (w_state w) !! jh_job handle = Some r
         ∧ may_read (w_config w) r (sr_signer caller)
         ∧ sr_payload (sv_snapshot (sr_payload response))
           = present_snapshot (w_config w) (jr_snapshot r).

Lemma get_served env request w :
  wp (get_response env request) (fun res w' => w' = w ∧
    ∀ response, res = Ok (JSnapshot response) → snapshot_served env request w response) w.
Proof.
  unfold get_response, signing. wp_go ltac:(by split); split; try done. intros response Eq.
  apply sign_payload in E5, E6.
  destruct (bounded_read (JSnapshot a6)) as [Hb|[e Hb]]; rewrite Hb in Eq; simplify_eq.
  apply authorize_reader_Ok in E3 as (_ & r & Hr & Hm). apply require_read_route_Ok in E0.
  unfold snapshot_from_state, job_snapshot in E4. rewrite Hr in E4. cbn in E4. simplify_eq.
  unfold snapshot_served, on_signed_route. rewrite E6. cbn. split_and!; eauto.
Qed.

Definition page_served (env : Envelope) (request : SignedRecordV1 EventQueryRelayV1)
    (w : HomeWorld C) (response : SignedRecordV1 EventPageResponseV1) : Prop :=
  let caller := er_caller (sr_payload request) in
  let query := sr_payload caller in
  (∃ u, verify_event_query_relay request = Ok u)
  ∧ on_signed_route env (er_reply_to (sr_payload request)) (sr_signer request) (sr_signer caller)
  ∧ canonical_hash request = Ok (pv_request_hash (sr_payload response))
  ∧ pv_home_epoch (sr_payload response) = cf_epoch (w_config w)
  ∧ pv_authority (sr_payload response) = cf_authority (w_config w)
  ∧ events_from_state (w_home w) (w_state w) query = Ok (pv_page (sr_payload response))
  ∧ ∃ r, hs_jobs (w_state w) !! jh_job (ev_handle query) = Some r
         ∧ may_read (w_config w) r (sr_signer caller).

Lemma events_served env request w :
  wp (events_response env request) (fun res w' => w' = w ∧
    ∀ response, res = Ok (JEventPage response) → page_served env request w response) w.
Proof.
  unfold events_response, signing. wp_go ltac:(by split); split; try done. intros response Eq.
  match goal with H : SignedRecordV1_sign _ _ _ = Ok ?r |- _ =>
    apply sign_payload in H; rename H into Hp;
    destruct (bounded_read (JEventPage r)) as [Hb|[e Hb]]; rewrite Hb in Eq; simplify_eq end.
  match goal with H : authorize_reader_from_state _ _ _ _ = _ |- _ =>
    apply authorize_reader_Ok in H as (_ & r & Hr & Hm) end.
  match goal with H : require_read_route _ _ = _ |- _ => apply require_read_route_Ok in H end.
  unfold page_served, on_signed_route. rewrite Hp. cbn. split_and!; eauto.
Qed.

Lemma or_job_error_run (m : opM C JobMessageV1) (Q : JobMessageV1 → Prop) w :
  (∀ e, Q (JError e)) →
  wp m (fun res w' => w' = w ∧ ∀ message, res = Ok message → Q message) w →
  (or_job_error m w).2 = w ∧ Q (or_job_error m w).1.
Proof.
  intros He. unfold wp, or_job_error, job_error, protocol_error.
  destruct (m w) as [[message|e] w']; cbn; intros [-> Hq]; auto.
Qed.

Lemma get_message_served env request w :
  (handle_get_message env request w).2 = w
  ∧ ∀ response, (handle_get_message env request w).1 = JSnapshot response →
      snapshot_served env request w response.
Proof.
  apply (or_job_error_run _ (fun m => ∀ response, m = JSnapshot response →
    snapshot_served env request w response)); [done|].
  eapply wp_mono; [apply get_served|]. intros res w' [-> Hr]. split; [done|].
  intros m -> response ->. by apply Hr.
Qed.

Lemma events_message_served env request w :
  (handle_events_message env request w).2 = w
  ∧ ∀ response, (handle_events_message env request w).1 = JEventPage response →
      page_served env request w response.
Proof.
  apply (or_job_error_run _ (fun m => ∀ response, m = JEventPage response →
    page_served env request w response)); [done|].
  eapply wp_mono; [apply events_served|]. intros res w' [-> Hr]. split; [done|].
  intros m -> response ->. by apply Hr.
Qed.

Lemma served_page_checks env request (w : HomeWorld C) response config :
  reachable config (w_state w) → events_fit (w_state w) →
  (handle_events_message env request w).1 = JEventPage response →
  let page := pv_page (sr_payload response) in
  let query := sr_payload (er_caller (sr_payload request)) in
  pg_handle page = ev_handle query
  ∧ N.of_nat (length (pg_events page)) ≤ ev_limit query
  ∧ ∃ last, check_page_sequence (after_of query) (pg_events page) = Ok last
            ∧ check_page_cursor page last = Ok tt.
Proof.
  intros Hre Hfit E. apply events_message_served in E as (_ & _ & _ & _ & _ & E & r & Hr & _).
  apply reachable_inv, li_recorded in Hre.
  destruct (history_numbered _ _ _ _ (Hre _ _ Hr) (Hfit _ _ Hr)) as [Hn _].
  pose proof (Hfit _ _ Hr) as Hlen. pose proof (events_page _ _ _ _ _ Hr Hn E) as [Hh Hev _ Hm].
  cbn. set (page := pv_page _) in *. set (query := sr_payload (er_caller _)) in *.
  destruct Hev as (n & Hev & Hlim). split_and!; [done|rewrite Hev, length_take; lia|].
  destruct (decide (pg_events page = [])) as [E0|Hne].
  { exists (after_of query). rewrite E0. split; [done|]. unfold check_page_cursor.
    destruct (pg_next_after_sequence page) eqn:Ec; [|done]. by destruct (Hm _ eq_refl). }
  exists (after_of query + N.of_nat (length (pg_events page))). split.
  - apply check_page_numbered.
    + rewrite Hev. intros i y [Hi _]%lookup_take_Some. rewrite lookup_drop in Hi.
      rewrite (Hn _ _ Hi). lia.
    + assert (0 < length (pg_events page))%nat by (destruct (pg_events page); [done|cbn; lia]).
      rewrite Hev, length_take, length_drop in *. lia.
  - unfold check_page_cursor. destruct (pg_next_after_sequence page) as [c|] eqn:Ec; [|done].
    destruct (Hm _ eq_refl) as (_ & -> & _). destruct (pg_events page); [done|].
    by rewrite decide_False by lia.
Qed.
End reads.

Lemma fresh_reachable `{!Sha256} `{!JsonText} `{!Ed25519} `{!WireSerde} `{!CustodySerde}
    `{!MessageSerde} `{!HomeServices} {C : Type} (io : nat → AppendIo) (w : HomeWorld C) calls :
  fresh w → reachable (w_config w) (w_state (run_calls io w calls)).
Proof.
  intros [custody Hf]. eapply (steps_inv (w_config w)); [|apply calls_steps|].
  - intros s s' (h & record & _ & _ & R) Hr. by eapply reachable_apply.
  - rewrite Hf. apply reachable_new.
Qed.

(** ** A concrete Home that serves *)

Module serve_sample.
#[local] Existing Instances zero_sha blank_text toy_ed25519 null_serde null_custody
  api_sample.null_messages api_sample.open_services.

Definition blank_serde {A} : SerdeJson A :=
  {| to_vec _ := Ok []; from_slice _ := Err "not a message" |}.
Definition blank_codec : HomeCodec :=
  @Build_HomeCodec blank_serde blank_serde blank_serde blank_serde (fun _ => Ok "reply").
#[local] Existing Instance blank_codec.

(** A job that was submitted and granted an attempt. *)
Definition calls : list HomeCall := [api_sample.call_submit; api_sample.call_grant].
Definition world : HomeWorld unit := run_calls api_sample.io api_sample.world calls.

(** Its Home reads the events one at a time. *)
Definition query : EventQueryV1 := mkEventQueryV1 api_sample.handle None 1 "n".
Definition relay : SignedRecordV1 EventQueryRelayV1 :=
  sample_sign SCHEMA_JOB_V1 sample_root
    (mkEventQueryRelayV1 (sample_sign SCHEMA_JOB_V1 sample_root query) "reply").
Definition env : Envelope :=
  mkEnvelope (mkHeader (ACreature 7) (ACreature 1) (Some (ACreature 7)) 0 [] 0 EmptyString None
                None SCHEMA_JOB_V1 None) [].
Definition page_of_message (m : JobMessageV1) : SignedRecordV1 EventPageResponseV1 :=
  match m with
  | JEventPage response => response
  | _ => sample_sign SCHEMA_JOB_V1 sample_root
           (mkEventPageResponseV1 "" 0 sample_genesis (mkEventPageV1 api_sample.handle [] None))
  end.
Definition response : SignedRecordV1 EventPageResponseV1 :=
  page_of_message (handle_events_message env relay world).1.

Lemma world_reachable :
  reachable (w_config api_sample.world) (w_state (run_calls api_sample.io api_sample.world calls)).
Proof. apply fresh_reachable, api_sample.world_fresh. Qed.

Definition small (s : HomeState) : bool :=
  forallb (fun kv => bool_decide (N.of_nat (length (jr_events kv.2)) ≤ u64_MAX))
    (map_to_list (hs_jobs s)).
Lemma small_fit s : small s = true → events_fit s.
Proof.
  intros Hs job r Hr%elem_of_map_to_list%list_elem_of_In. unfold small in Hs.
  rewrite forallb_forall in Hs. by apply Hs in Hr; apply bool_decide_eq_true in Hr.
Qed.
Lemma world_fit : events_fit (w_state (run_calls api_sample.io api_sample.world calls)).
Proof. apply small_fit. vm_compute. reflexivity. Qed.
Lemma world_job :
  ∃ r, hs_jobs (w_state (run_calls api_sample.io api_sample.world calls)) !! jh_job (ev_handle query)
       = Some r ∧ length (jr_events r) = 2%nat.
Proof. eexists. split; [vm_compute; reflexivity|reflexivity]. Qed.
Lemma page_of_message_page m :
  match m with JEventPage _ => true | _ => false end = true → m = JEventPage (page_of_message m).
Proof. by destruct m. Qed.
Lemma served :
  (handle_events_message env relay (run_calls api_sample.io api_sample.world calls)).1
  = JEventPage response.
Proof. apply page_of_message_page. vm_compute. reflexivity. Qed.
Lemma world_authoritative :
  ensure_authoritative_state (w_home (run_calls api_sample.io api_sample.world calls))
    (w_state (run_calls api_sample.io api_sample.world calls)) = Ok tt.
Proof. vm_compute. reflexivity. Qed.
Lemma world_keys_fit :
  N.of_nat (length (for_each_recovery_key
    (w_state (run_calls api_sample.io api_sample.world calls)))) ≤ usize_MAX.
Proof. vm_compute. discriminate. Qed.
Lemma world_idle :
  sw_remaining (w_sweep (run_calls api_sample.io api_sample.world calls)) = 0.
Proof. vm_compute. reflexivity. Qed.
End serve_sample.

(** ** Properties *)

(** Reading a job's events terminates and is complete. A reader that asks for
    a page and follows the continuation cursor is done after at most one page
    per event left; unless a page is refused, it has then read exactly the
    events after its starting point, each once and in order. *)
Theorem event_reading_terminates (S : Sha256) (X : JsonText) (E : Ed25519) (W : WireSerde)
    (M : MessageSerde) (V : HomeServices) (K : HomeCodec) (C : Type) (config : HomeConfig)
    (h : FunctionHome C) (s : HomeState) (Hreach : reachable config s) (Hfit : events_fit s)
    (query : EventQueryV1) (r : JobRecord)
    (Hr : hs_jobs s !! jh_job (ev_handle query) = Some r) (pages : nat)
    (Hpages : (length (jr_events r) - N.to_nat (after_of query) < pages)%nat) :
  match read_events pages h s query with
  | Some (Ok events) => events = drop (N.to_nat (after_of query)) (jr_events r)
  | Some (Err e) => ∃ cursor, events_from_state h s (query_after query cursor) = Err e
  | None => False
  end.
Proof.
  apply read_events_complete; [done| |done]. apply reachable_inv, li_recorded in Hreach.
  by eapply history_numbered; [apply Hreach|eapply Hfit].
Qed.

Lemma event_reading_terminates_witness :
  ∃ events, @read_events zero_sha blank_text toy_ed25519 null_serde api_sample.null_messages
      api_sample.open_services serve_sample.blank_codec unit 3 (w_home serve_sample.world)
      (w_state serve_sample.world) serve_sample.query = Some (Ok events)
    ∧ length events = 2%nat.
Proof.
  destruct serve_sample.world_job as (r & Hr & Hlen).
  pose proof (@event_reading_terminates zero_sha blank_text toy_ed25519 null_serde
    api_sample.null_messages api_sample.open_services serve_sample.blank_codec unit _
    (w_home serve_sample.world) _ serve_sample.world_reachable serve_sample.world_fit
    serve_sample.query r Hr 3) as H.
  fold serve_sample.world in H.
  destruct (read_events 3 _ _ _) as [[events|e]|] eqn:E.
  - exists events. split; [done|]. rewrite H by (rewrite Hlen; cbn; lia). done.
  - vm_compute in E. discriminate.
  - destruct H. rewrite Hlen. cbn. lia.
Defined.

(** A page the Home serves satisfies what its reader checks in
    [verify_event_page_response_for]: it answers the exact request it binds, for
    the job asked for, with no more events than asked for, the sequence numbers
    continue the reader's position without a gap, and a continuation cursor names
    the last event of the page. *)
Theorem served_page_verifies (S : Sha256) (X : JsonText) (E : Ed25519) (W : WireSerde)
    (Q : CustodySerde) (M : MessageSerde) (V : HomeServices) (K : HomeCodec) (C : Type)
    (config : HomeConfig) (w : HomeWorld C) (Hreach : reachable config (w_state w))
    (Hfit : events_fit (w_state w)) (env : Envelope)
    (request : SignedRecordV1 EventQueryRelayV1) (response : SignedRecordV1 EventPageResponseV1)
    (Hserved : (handle_events_message env request w).1 = JEventPage response) :
  let page := pv_page (sr_payload response) in
  let query := sr_payload (er_caller (sr_payload request)) in
  canonical_hash request = Ok (pv_request_hash (sr_payload response))
  ∧ pg_handle page = ev_handle query
  ∧ N.of_nat (length (pg_events page)) ≤ ev_limit query
  ∧ ∃ last, check_page_sequence (default 0 (ev_after_sequence query)) (pg_events page) = Ok last
            ∧ check_page_cursor page last = Ok tt.
Proof.
  split; [|by eapply served_page_checks].
  by apply events_message_served in Hserved as (_ & _ & Hh & _).
Qed.

Lemma served_page_verifies_witness :
  pg_handle (pv_page (sr_payload serve_sample.response)) = api_sample.handle
  ∧ length (pg_events (pv_page (sr_payload serve_sample.response))) = 1%nat
  ∧ pg_next_after_sequence (pv_page (sr_payload serve_sample.response)) = Some 1.
Proof.
  split.
  - apply (@served_page_verifies zero_sha blank_text toy_ed25519 null_serde null_custody
      api_sample.null_messages api_sample.open_services serve_sample.blank_codec unit _ _
      serve_sample.world_reachable serve_sample.world_fit _ _ _ serve_sample.served).
  - split; vm_compute; reflexivity.
Defined.

(** Private reads are authorised and change nothing. A snapshot or a page of
    events is only sent in answer to a verified request of the job's Home, one of
    its readers or one of its controllers, over the return route signed by a
    relay that may speak for that caller, and it shows the ledger as it is; and
    whatever the answer, the Home is as before. *)
Theorem private_reads_authorised (S : Sha256) (X : JsonText) (E : Ed25519) (W : WireSerde)
    (Q : CustodySerde) (M : MessageSerde) (V : HomeServices) (K : HomeCodec) (C : Type)
    (w : HomeWorld C) (env : Envelope) (get : SignedRecordV1 JobGetRelayV1)
    (events : SignedRecordV1 EventQueryRelayV1) :
  (handle_get_message env get w).2 = w
  ∧ (handle_events_message env events w).2 = w
  ∧ (∀ response, (handle_get_message env get w).1 = JSnapshot response →
       snapshot_served env get w response)
  ∧ (∀ response, (handle_events_message env events w).1 = JEventPage response →
       page_served env events w response).
Proof.
  destruct (get_message_served env get w), (events_message_served env events w). auto.
Qed.

(** The recovery sweep reaches every obligation. From an idle Home, the turns
    of one sweep walk the queued, retry-pending and running work and the
    unacknowledged controls of the ledger, each once, in batches of at most 64;
    every turn but the last asks for the next one, the last leaves the sweep idle
    again, and nothing else of the Home changes. *)
Theorem recovery_sweep_complete (S : Sha256) (X : JsonText) (E : Ed25519) (W : WireSerde)
    (Q : CustodySerde) (M : MessageSerde) (V : HomeServices) (K : HomeCodec) (C : Type)
    (config : HomeConfig) (w : HomeWorld C) (Hreach : reachable config (w_state w))
    (Hfit : events_fit (w_state w))
    (Hauth : ensure_authoritative_state (w_home w) (w_state w) = Ok tt)
    (Hkeys : N.of_nat (length (for_each_recovery_key (w_state w))) ≤ usize_MAX)
    (Hidle : sw_remaining (w_sweep w) = 0) :
  ∃ batches sw,
    concat batches = for_each_recovery_key (w_state w)
    ∧ NoDup (concat batches)
    ∧ Forall (fun batch => 0 < length batch ≤ 64)%nat batches
    ∧ sweep (length batches) w = (batch_outcomes w batches, set_sweep sw w)
    ∧ sw_remaining sw = 0.
Proof.
  apply reachable_inv, li_recorded in Hreach.
  destruct (sweep_complete w) as (batches & sw & Hb & Hf & Hs & Hz); try done.
  exists batches, sw. split_and!; try done. rewrite Hb.
  apply (sorted_nodup recovery_key_lt), recovery_keys_sorted; done.
Qed.

Lemma recovery_sweep_complete_witness :
  ∃ batches, concat batches = for_each_recovery_key (w_state serve_sample.world)
             ∧ concat batches ≠ [].
Proof.
  destruct (@recovery_sweep_complete zero_sha blank_text toy_ed25519 null_serde null_custody
      api_sample.null_messages api_sample.open_services serve_sample.blank_codec unit _ _
      serve_sample.world_reachable serve_sample.world_fit serve_sample.world_authoritative
      serve_sample.world_keys_fit serve_sample.world_idle) as (batches & sw & Hb & _).
  exists batches. split; [exact Hb|]. rewrite Hb. vm_compute. discriminate.
Defined.
