(* ===== verification/PolicyJob.v ===== *)
(** * The reference job policy

    Model of [cosmos/creatures/prototypes/policies/policy-job-basic/src/lib.rs]:
    the stateless creature that answers the Home's placement and retry questions,
    and its composition with the Home: the Home can act on every answer. *)

From S2P Require Import Prelude Serde GxShape GxHash FnCrypto FnTypes FnWire FnCustody FnMessages.
From S2P Require Import AetherAddress AetherEnvelope Journal HomeLedger HomeLaws HomeApi HomeProtocol.
From S2P Require Import HomeApiLaws HomeServe.

Definition DEFAULT_MAX_POLICY_CANDIDATES : N := 64.

Record BasicPolicyCaps : Type := mkBasicPolicyCaps { max_candidates : N }.
Definition BasicPolicyCaps_default : BasicPolicyCaps :=
  mkBasicPolicyCaps DEFAULT_MAX_POLICY_CANDIDATES.

Inductive PolicyError : Type :=
  | PyInvalid (reason : string)
  | PyCandidateLimit (actual limit : N)
  | PyNoCandidate
  | PySigning (reason : string).

Definition PolicyError_to_string (e : PolicyError) : string :=
  match e with
  | PyInvalid m => "invalid policy question: " +:+ m
  | PyCandidateLimit actual limit =>
      "policy candidate limit exceeded: " +:+ dec actual +:+ " > " +:+ dec limit
  | PyNoCandidate => "no cryptographically valid exact-function deployment candidate"
  | PySigning m => "cannot sign policy decision: " +:+ m
  end.

Record BasicJobPolicy : Type := mkBasicJobPolicy {
  bp_signer : AuthoritySigner;
  bp_caps : BasicPolicyCaps
}.

Definition BasicJobPolicy_new (signer : AuthoritySigner) (caps : BasicPolicyCaps) :
    result PolicyError BasicJobPolicy :=
  if decide (max_candidates caps = 0) then Err (PyInvalid "max_candidates must be non-zero")
  else Ok (mkBasicJobPolicy signer caps).

Definition check_count (p : BasicJobPolicy) (actual : N) : result PolicyError unit :=
  if decide (max_candidates (bp_caps p) < actual) then
    Err (PyCandidateLimit actual (max_candidates (bp_caps p)))
  else Ok tt.

Definition policy_invalid {A} (r : result ContractError A) : result PolicyError A :=
  map_err (fun e => PyInvalid (ContractError_to_string e)) r.

(** ** Choosing a candidate *)

Definition candidate_key (c : SignedRecordV1 DeploymentReceiptV1) : list string :=
  let p := sr_payload c in
  [dr_realm p; dr_node p; dr_executor p; dr_creature p; dr_deployment p].

(** The order of tuples of strings. *)
Fixpoint key_leb (a b : list string) : bool :=
  match a, b with
  | [], _ => true
  | _ :: _, [] => false
  | x :: a, y :: b => if decide (x = y) then key_leb a b else str_leb x y
  end.

(** [Iterator::min_by_key]: the first of the least. *)
Definition min_candidate (best : option (SignedRecordV1 DeploymentReceiptV1))
    (c : SignedRecordV1 DeploymentReceiptV1) : option (SignedRecordV1 DeploymentReceiptV1) :=
  match best with
  | None => Some c
  | Some b => if key_leb (candidate_key b) (candidate_key c) then Some b else Some c
  end.

Section policy.
  Context `{!Sha256} `{!JsonText} `{!Ed25519} `{!WireSerde} `{!CustodySerde} `{!MessageSerde}.

Definition choose_candidate (candidates : list (SignedRecordV1 DeploymentReceiptV1)) :
    option (SignedRecordV1 DeploymentReceiptV1) :=
  foldl min_candidate None
    (List.filter (fun candidate => is_ok (verify_deployment_receipt candidate)) candidates).

Definition stop (question_hash : string) (job : JobHandleV1) (failed_attempt : AttemptId)
    (state : JobStateV1) (reason : string) : RetryDecisionV1 :=
  RetryStop question_hash job failed_attempt state reason.

Definition select (p : BasicJobPolicy) (question : SignedRecordV1 PlacementQuestionV1) :
    result PolicyError (SignedRecordV1 PlacementDecisionV1) :=
  let q := sr_payload question in
  _ ← policy_invalid (verify_placement_question question);
  _ ← check_count p (N.of_nat (length (pq_candidates q)));
  question_hash ← policy_invalid (canonical_hash question);
  selected ← ok_or (choose_candidate (pq_candidates q)) PyNoCandidate;
  let decision :=
    mkPlacementDecisionV1 (pq_job q) question_hash (dr_deployment (sr_payload selected)) [] in
  map_err (fun e => PySigning (ContractError_to_string e))
    (SignedRecordV1_sign SCHEMA_POLICY_V1 decision (bp_signer p)).

(** What [decide_retry] decides, before it is validated and signed. *)
Definition retry_verdict (q : RetryQuestionV1) (question_hash : string) :
    result PolicyError RetryDecisionV1 :=
  let job := sp_handle (ss_spec (tq_snapshot q)) in
  let failed_attempt := tq_failed_attempt q in
  if ss_cancel_requested (tq_snapshot q) then
    Ok (stop question_hash job failed_attempt SCancelled "cancellation is already requested")
  else if is_terminal (ss_state (tq_snapshot q)) then
    Ok (stop question_hash job failed_attempt (ss_state (tq_snapshot q)) "job is already terminal")
  else
    match sp_delivery (ss_spec (tq_snapshot q)) with
    | AtMostOnce =>
        Ok (stop question_hash job failed_attempt SFailed
              "at-most-once does not authorize another attempt")
    | AtLeastOnce max_attempts =>
        if negb (tq_executor_retryable_hint q) then
          Ok (stop question_hash job failed_attempt SFailed
                "executor classified the failure as non-retryable")
        else if decide (max_attempts ≤ at_number failed_attempt) then
          Ok (stop question_hash job failed_attempt SFailed
                "at-least-once attempt budget is exhausted")
        else
          selected ← ok_or (choose_candidate (tq_candidates q)) PyNoCandidate;
          Ok (RetryAgain question_hash job failed_attempt
                (mkAttemptId (at_home failed_attempt) (at_job failed_attempt)
                   (next_number (at_number failed_attempt)))
                selected None)
    end.

Definition decide_retry (p : BasicJobPolicy) (question : SignedRecordV1 RetryQuestionV1) :
    result PolicyError (SignedRecordV1 RetryDecisionV1) :=
  _ ← policy_invalid (verify_retry_question question);
  _ ← check_count p (N.of_nat (length (tq_candidates (sr_payload question))));
  question_hash ← policy_invalid (canonical_hash question);
  decision ← retry_verdict (sr_payload question) question_hash;
  _ ← policy_invalid (RetryDecisionV1_validate decision);
  map_err (fun e => PySigning (ContractError_to_string e))
    (SignedRecordV1_sign SCHEMA_POLICY_V1 decision (bp_signer p)).

(** ** The creature *)

Definition policy_error (code reason : string) : PolicyMessageV1 :=
  PError (mkProtocolErrorV1 code (bound reason) false).

Context `{!HomeCodec}.

(** [serde_json::to_vec(&message).unwrap_or_default()]. *)
Definition policy_reply (env : Envelope) (message : PolicyMessageV1) : Outcome :=
  let payload := match to_vec message with Ok b => b | Err _ => [] end in
  Outcome_send (with_schema (reply_to_env env payload) SCHEMA_POLICY_V1).

Definition policy_answer (p : BasicJobPolicy) (message : PolicyMessageV1) :
    option PolicyMessageV1 :=
  match message with
  | PSelectDeployment question =>
      Some (match select p question with
            | Ok decision => PDeploymentSelected decision
            | Err e => policy_error "selection_rejected" (PolicyError_to_string e)
            end)
  | PDecideRetry question =>
      Some (match decide_retry p question with
            | Ok decision => PRetryDecided decision
            | Err e => policy_error "retry_rejected" (PolicyError_to_string e)
            end)
  | PDeploymentSelected _ | PRetryDecided _ | PError _ => None
  end.

Definition policy_handle (p : BasicJobPolicy) (env : Envelope) : Outcome :=
  if bool_decide (hd_schema (ev_header env) ≠ SCHEMA_POLICY_V1)
     || bool_decide (MAX_JOB_MESSAGE_BYTES < blen (ev_payload env)) then Outcome_none
  else
    match from_slice (ev_payload env) with
    | Err _ => policy_reply env (policy_error "invalid_message" "cannot decode policy message")
    | Ok message =>
        match policy_answer p message with
        | Some response => policy_reply env response
        | None => Outcome_none
        end
    end.
End policy.

(** ** The order of candidates *)

Lemma key_leb_refl a : key_leb a a = true.
Proof. induction a as [|x a IH]; [done|]. cbn. by rewrite decide_True. Qed.

Lemma key_leb_total a b : key_leb a b = true ∨ key_leb b a = true.
Proof.
  revert b. induction a as [|x a IH]; intros [|y b]; cbn; auto.
  destruct (decide (x = y)) as [->|Hn]; [rewrite decide_True by done; apply IH|].
  rewrite decide_False by done. apply str_leb_total.
Qed.

Lemma key_leb_trans a b c : key_leb a b = true → key_leb b c = true → key_leb a c = true.
Proof.
  revert b c. induction a as [|x a IH]; intros [|y b] [|z c]; cbn; try done.
  destruct (decide (x = y)) as [->|H1], (decide (y = z)) as [->|H2]; cbn.
  - by apply IH.
  - done.
  - by rewrite decide_False by done.
  - intros L1 L2. case_decide as E; [|by eapply str_leb_trans].
    subst z. destruct H1. by apply str_leb_antisym.
Qed.

Lemma key_leb_antisym a b : key_leb a b = true → key_leb b a = true → a = b.
Proof.
  revert b. induction a as [|x a IH]; intros [|y b]; cbn; try done.
  destruct (decide (x = y)) as [->|Hn]; [rewrite decide_True by done; intros; f_equal; by apply IH|].
  rewrite decide_False by done. intros L1 L2. destruct Hn. by apply str_leb_antisym.
Qed.

(** [c] is among [l] and no key of [l] is smaller. *)
Definition least (c : SignedRecordV1 DeploymentReceiptV1)
    (l : list (SignedRecordV1 DeploymentReceiptV1)) : Prop :=
  c ∈ l ∧ ∀ d, d ∈ l → key_leb (candidate_key c) (candidate_key d) = true.

Lemma min_candidate_least l b c :
  foldl min_candidate (Some b) l = Some c → least c (b :: l).
Proof.
  revert b. induction l as [|x l IH]; intros b E; cbn [foldl min_candidate] in E.
  - simplify_eq. split; [by left|]. intros d ->%list_elem_of_singleton. apply key_leb_refl.
  - destruct (key_leb (candidate_key b) (candidate_key x)) eqn:L; apply IH in E as [Hin Hle].
    + split; [set_solver|]. intros d Hd. apply elem_of_cons in Hd as [->|[->|Hd]%elem_of_cons].
      * apply Hle. by left.
      * eapply key_leb_trans; [|done]. apply Hle. by left.
      * apply Hle. by right.
    + split; [set_solver|]. intros d Hd. apply elem_of_cons in Hd as [->|Hd]; [|by apply Hle].
      eapply key_leb_trans; [apply Hle; by left|].
      destruct (key_leb_total (candidate_key b) (candidate_key x)); congruence.
Qed.

Lemma foldl_min_some b l : is_Some (foldl min_candidate (Some b) l).
Proof.
  revert b. induction l as [|x l IH]; intros b; [by eexists|]. cbn [foldl min_candidate].
  destruct (key_leb _ _); apply IH.
Qed.

Section choosing.
  Context `{!Sha256} `{!JsonText} `{!Ed25519} `{!WireSerde}.

Definition verified (c : SignedRecordV1 DeploymentReceiptV1) : bool :=
  is_ok (verify_deployment_receipt c).

Lemma choose_least l c : choose_candidate l = Some c → least c (List.filter verified l).
Proof.
  unfold choose_candidate. fold verified.
  destruct (List.filter verified l) as [|b k]; [done|]. cbn. apply min_candidate_least.
Qed.

Lemma choose_None l : choose_candidate l = None ↔ List.filter verified l = [].
Proof.
  unfold choose_candidate. fold verified.
  destruct (List.filter verified l) as [|b k]; [done|]. cbn.
  destruct (foldl_min_some b k) as [c ->]. done.
Qed.

Lemma choose_verified l c : choose_candidate l = Some c → c ∈ l ∧ verified c = true.
Proof.
  intros [Hin _]%choose_least. apply list_elem_of_In, filter_In in Hin as [Hin Hv].
  split; [by apply list_elem_of_In|done].
Qed.

(** The key of the chosen candidate is a function of the set of candidates. *)
Lemma choose_perm l k :
  l ≡ₚ k → candidate_key <$> choose_candidate l = candidate_key <$> choose_candidate k.
Proof.
  intros Hp.
  assert (Hf : List.filter verified l ≡ₚ List.filter verified k)
    by (induction Hp; cbn; repeat case_match; eauto using perm_swap, perm_trans).
  destruct (choose_candidate l) as [c|] eqn:El, (choose_candidate k) as [d|] eqn:Ek; cbn; try done.
  - apply choose_least in El as [Hc Hl], Ek as [Hd Hk]. f_equal.
    apply key_leb_antisym; [apply Hl; by rewrite Hf|apply Hk; by rewrite <- Hf].
  - apply choose_least in El as [Hc _]. apply choose_None in Ek. rewrite Ek in Hf.
    apply Permutation_nil_r in Hf. rewrite Hf in Hc. by apply not_elem_of_nil in Hc.
  - apply choose_least in Ek as [Hc _]. apply choose_None in El. rewrite El in Hf.
    symmetry in Hf. apply Permutation_nil_r in Hf. rewrite Hf in Hc. by apply not_elem_of_nil in Hc.
Qed.

Lemma choose_single c : verified c = true → choose_candidate [c] = Some c.
Proof. intros Hv. unfold choose_candidate. fold verified. cbn. by rewrite Hv. Qed.
End choosing.

(** ** Questions of the Home *)

Section questions.
  Context `{!Sha256} `{!JsonText} `{!Ed25519} `{!WireSerde} `{!CustodySerde} `{!MessageSerde}.
  Context `{!HomeServices} {C : Type} (io : nat → AppendIo).
  Implicit Types w : HomeWorld C.

Lemma bind_run {A B} (m : opM C A) (f : A → opM C B) w a w1 :
  m w = (Ok a, w1) → (m ≫= f) w = f a w1.
Proof. intros E. unfold mbind, opM_bind, stateR_bind. by rewrite E. Qed.
Lemma lift_run {A} (r : result HomeError A) a w : r = Ok a → lift r w = (Ok a, w).
Proof. by intros ->. Qed.
Lemma reject_run b (e : HomeError) w : b = false → lift (reject b e) w = (Ok tt, w).
Proof. by intros ->. Qed.
Lemma authoritative_run w :
  ensure_authoritative_state (w_home w) (w_state w) = Ok tt → authoritative w = (Ok tt, w).
Proof. unfold authoritative. by intros ->. Qed.

(** What an outstanding placement question is known to be. *)
Record placement_outstanding w (handle : JobHandleV1) (q : SignedRecordV1 PlacementQuestionV1)
    (r : JobRecord) : Prop := {
  pn_authoritative : ensure_authoritative_state (w_home w) (w_state w) = Ok tt;
  pn_home : jh_home handle = cf_home (w_config w);
  pn_job : hs_jobs (w_state w) !! jh_job handle = Some r;
  pn_queued : ss_state (jr_snapshot r) = SQueued;
  pn_payload : sr_payload q = placement_question_of (w_home w) handle (jr_snapshot r);
  pn_verified : verify_placement_question q = Ok tt
}.

Lemma find_job_Ok job s (r : JobRecord) : find_job job s = Ok r → hs_jobs s !! job = Some r.
Proof. unfold find_job. apply ok_or_Ok. Qed.

Lemma placement_question_Ok handle w q w' :
  placement_question handle w = (Ok (Some q), w') →
  w' = w ∧ ∃ r, placement_outstanding w handle q r.
Proof.
  intros E. refine (wp_run _ (fun res w' => res = Ok (Some q) →
    w' = w ∧ ∃ r, placement_outstanding w handle q r) w _ _ _ E eq_refl).
  unfold placement_question, sign_placement_question, signing. wp_go ltac:(done); [done|].
  intros Eq. simplify_eq. split; [done|]. inv_result.
  match goal with H : SignedRecordV1_sign _ _ _ = _ |- _ => apply sign_payload in H end.
  match goal with H : invalid _ = Ok ?u |- _ => apply map_err_Ok in H; destruct u end.
  to_prop. subst. eexists. constructor; try done. by apply dec_stable.
Qed.

Record retry_outstanding w (handle : JobHandleV1) (failed : AttemptId)
    (q : SignedRecordV1 RetryQuestionV1) (r : JobRecord) : Prop := {
  rn_authoritative : ensure_authoritative_state (w_home w) (w_state w) = Ok tt;
  rn_home : jh_home handle = cf_home (w_config w);
  rn_failed : at_home failed = jh_home handle ∧ at_job failed = jh_job handle;
  rn_job : hs_jobs (w_state w) !! jh_job handle = Some r;
  rn_pending : ss_state (jr_snapshot r) = SRetryPending;
  rn_attempt : ss_current_attempt (jr_snapshot r) = Some failed;
  rn_payload : ∃ failure retryable,
    sr_payload q = retry_question_of (w_home w) (jr_snapshot r) failed failure retryable;
  rn_verified : verify_retry_question q = Ok tt
}.

Lemma retry_question_Ok handle failed w q w' :
  retry_question handle failed w = (Ok q, w') →
  w' = w ∧ ∃ r, retry_outstanding w handle failed q r.
Proof.
  intros E. refine (wp_run _ (fun res w' => res = Ok q →
    w' = w ∧ ∃ r, retry_outstanding w handle failed q r) w _ _ _ E eq_refl).
  unfold retry_question, sign_retry_question, signing. wp_go ltac:(done).
  intros Eq. simplify_eq. split; [done|]. inv_result.
  match goal with H : SignedRecordV1_sign _ _ _ = _ |- _ => apply sign_payload in H end.
  match goal with H : invalid _ = Ok ?u |- _ => apply map_err_Ok in H; destruct u end.
  to_prop. subst. eexists. constructor; try done. eauto.
Qed.
End questions.

(** ** Answers the Home can act on *)

Section answers.
  Context `{!Sha256} `{!JsonText} `{!Ed25519} `{!WireSerde} `{!CustodySerde} `{!MessageSerde}.
  Context `{!HomeServices} `{!Ed25519Keys} {C : Type} (io : nat → AppendIo).
  Implicit Types w : HomeWorld C.

Lemma seed_signed {T} `{!ToValue T} schema (payload : T) seed r :
  SignedRecordV1_sign schema payload (Ed25519SeedSigner seed) = Ok r →
  unsigned schema r = false ∧ sr_payload r = payload.
Proof.
  intros (Hv & Hs & Hp & _)%seed_signer_verifies. split; [|done].
  unfold unsigned. by rewrite Hs, Hv, bool_decide_false by (intros []; done).
Qed.

Lemma placement_answer p seed w handle q r d :
  bp_signer p = Ed25519SeedSigner seed → placement_outstanding w handle q r →
  select p q = Ok d →
  unsigned SCHEMA_POLICY_V1 d = false
  ∧ ∃ hash, canonical_hash q = Ok hash
    ∧ sr_payload d = mkPlacementDecisionV1 handle hash
        (dr_deployment (sr_payload (sp_deployment (ss_spec (jr_snapshot r))))) [].
Proof.
  intros Hseed [_ _ _ _ Hp Hv] E. unfold select, policy_invalid in E. rewrite Hseed in E. inv_result.
  match goal with H : SignedRecordV1_sign _ _ _ = _ |- _ => apply seed_signed in H as [Hu Hd] end.
  split; [done|]. eexists. split; [done|]. rewrite Hd, Hp in *.
  cbn -[choose_candidate] in *.
  match goal with H : choose_candidate _ = Some _ |- _ => rename H into Hc end.
  apply choose_verified in Hc as [->%list_elem_of_singleton _]. done.
Qed.

Lemma select_Ok p q d :
  select p q = Ok d →
  ∃ c, choose_candidate (pq_candidates (sr_payload q)) = Some c
       ∧ pd_selected (sr_payload d) = dr_deployment (sr_payload c).
Proof.
  unfold select, policy_invalid. intros Hs. inv_result.
  match goal with H : SignedRecordV1_sign _ _ _ = _ |- _ => apply sign_payload in H as -> end.
  eauto.
Qed.

Definition granted w (r : JobRecord) : option (SignedRecordV1 ExecutionGrantV1) :=
  attempt ← ss_current_attempt (jr_snapshot r); hs_grants (w_state w) !! key_of_attempt attempt.

Lemma placement_applied w handle q r (d : SignedRecordV1 PlacementDecisionV1) hash u :
  placement_question handle w = (Ok (Some q), w) → placement_outstanding w handle q r →
  ss_cancel_requested (jr_snapshot r) = false →
  SignedRecordV1_validate PlacementDecisionV1_validate d = Ok tt →
  unsigned SCHEMA_POLICY_V1 d = false → canonical_hash q = Ok hash →
  sr_payload d = mkPlacementDecisionV1 handle hash
    (dr_deployment (sr_payload (sp_deployment (ss_spec (jr_snapshot r))))) [] →
  svc_allow_placement_decision d = Ok u →
  apply_placement_decision io d w
  = match granted w r with
    | Some grant => (Ok grant, w)
    | None => issue_grant io (jh_job handle) (sp_deployment (ss_spec (jr_snapshot r))) None None w
    end.
Proof.
  intros Hq [Ha Hh Hj Hs _ _] Hc Hv Hu Hhash Hd Hallow. unfold apply_placement_decision.
  rewrite Hd. cbn -[placement_question issue_grant].
  rewrite (bind_run _ _ _ _ _ (authoritative_run w Ha)).
  erewrite bind_run by (apply lift_run; by rewrite Hv).
  erewrite bind_run by (by apply reject_run).
  rewrite (bind_run _ _ _ _ _ Hq).
  erewrite bind_run by (by apply lift_run).
  erewrite bind_run by (apply lift_run; by rewrite Hhash).
  erewrite bind_run by (apply reject_run, bool_decide_false; by intros []).
  erewrite bind_run by (apply lift_run; unfold refused; by rewrite Hallow).
  erewrite bind_run by done.
  erewrite bind_run by (apply reject_run, bool_decide_false; by intros []).
  erewrite bind_run by done.
  rewrite (bind_run _ _ _ _ _ (authoritative_run w Ha)).
  erewrite bind_run by (apply lift_run; unfold find_job; by rewrite Hj).
  erewrite bind_run by (apply reject_run; by rewrite Hs, Hc).
  erewrite bind_run by (apply reject_run, bool_decide_false; by intros []).
  unfold granted. by destruct (_ ≫= _).
Qed.

(** The answers to a retry question, for the job as the Home has it. *)
Inductive retry_answer (r : JobRecord) (handle : JobHandleV1) (failed : AttemptId)
    (hash : string) : RetryDecisionV1 → Prop :=
  | ra_stop state reason :
      state = (if ss_cancel_requested (jr_snapshot r) then SCancelled else SFailed) →
      retry_answer r handle failed hash (RetryStop hash handle failed state reason)
  | ra_again bound :
      ss_cancel_requested (jr_snapshot r) = false →
      sp_delivery (ss_spec (jr_snapshot r)) = AtLeastOnce bound →
      at_number failed < bound →
      retry_answer r handle failed hash
        (RetryAgain hash handle failed
           (mkAttemptId (at_home failed) (at_job failed) (next_number (at_number failed)))
           (sp_deployment (ss_spec (jr_snapshot r))) None).

Lemma retry_outstanding_handle w handle failed q r :
  retry_outstanding w handle failed q r → sp_handle (ss_spec (jr_snapshot r)) = handle.
Proof.
  intros [_ _ [Hfh Hfj] _ _ _ (failure & retryable & Hp) Hv].
  unfold verify_retry_question, SignedRecordV1_validate in Hv. inv_result.
  match goal with H : RetryQuestionV1_validate _ = Ok _ |- _ =>
    unfold RetryQuestionV1_validate in H; rewrite Hp in H; cbn -[JobSnapshotV1_validate] in H end.
  split_cases. to_prop.
  destruct handle, (sp_handle (ss_spec (jr_snapshot r))). cbn in *. congruence.
Qed.

Lemma retry_verdict_answer w handle failed q r hash d :
  retry_outstanding w handle failed q r → retry_verdict (sr_payload q) hash = Ok d →
  retry_answer r handle failed hash d.
Proof.
  intros O E. pose proof (retry_outstanding_handle _ _ _ _ _ O) as Hh.
  destruct O as [_ _ _ _ Hpend _ (failure & retryable & Hp) _].
  unfold retry_verdict, stop in E. rewrite Hp in E. cbn -[choose_candidate next_number] in E.
  rewrite Hpend, Hh in E. cbn -[choose_candidate next_number] in E.
  destruct (ss_cancel_requested (jr_snapshot r)) eqn:Hc; [inv_result; subst; constructor; by rewrite Hc|].
  destruct (sp_delivery (ss_spec (jr_snapshot r))) as [|bound] eqn:Hd;
    [inv_result; subst; constructor; by rewrite Hc|].
  destruct (negb retryable); [inv_result; subst; constructor; by rewrite Hc|].
  case_decide; [inv_result; subst; constructor; by rewrite Hc|]. inv_result. subst.
  match goal with H : choose_candidate _ = Some _ |- _ =>
    apply choose_verified in H as [->%list_elem_of_singleton _] end.
  eapply ra_again; [done|done|lia].
Qed.

Lemma retry_answered p seed w handle failed q r d :
  bp_signer p = Ed25519SeedSigner seed → retry_outstanding w handle failed q r →
  decide_retry p q = Ok d →
  unsigned SCHEMA_POLICY_V1 d = false
  ∧ ∃ hash, canonical_hash q = Ok hash ∧ retry_answer r handle failed hash (sr_payload d).
Proof.
  intros Hseed O E. unfold decide_retry, policy_invalid in E. rewrite Hseed in E. inv_result.
  match goal with H : SignedRecordV1_sign _ _ _ = _ |- _ => apply seed_signed in H as [Hu ->] end.
  split; [done|]. eexists. split; [done|]. by eapply retry_verdict_answer.
Qed.

(** What the Home does with an answer, once it has passed every check. *)
Definition stop_effect (r : JobRecord) (state : JobStateV1) (reason : string) :
    opM C (option (SignedRecordV1 ExecutionGrantV1)) :=
  kind ← lift (stop_kind state reason (ss_current_attempt (jr_snapshot r)));
  h ← home;
  s ← locked;
  event ← lift (sign_event h s (sp_handle (ss_spec (jr_snapshot r))) state
                  (ss_cancel_requested (jr_snapshot r)) None kind);
  _ ← persist io (one_event event);
  mret None.

Definition again_effect (r : JobRecord) (job : JobId) (next : AttemptId) :
    opM C (option (SignedRecordV1 ExecutionGrantV1)) :=
  let deployment := sp_deployment (ss_spec (jr_snapshot r)) in
  _ ← (if already_scheduled next (jr_events r) then mret tt
       else
         h ← home;
         s ← locked;
         event ← lift (sign_event h s (sp_handle (ss_spec (jr_snapshot r))) SRetryPending
                         (ss_cancel_requested (jr_snapshot r)) None (KRetryScheduled next None));
         persist io (one_event event));
  grant ← issue_grant io job deployment None None;
  mret (Some grant).

Definition answer_effect (w : HomeWorld C) (r : JobRecord) (handle : JobHandleV1)
    (d : RetryDecisionV1) : opM C (option (SignedRecordV1 ExecutionGrantV1)) :=
  match d with
  | RetryStop _ _ _ state reason => stop_effect r state reason
  | RetryAgain _ _ _ next _ _ =>
      match hs_grants (w_state w) !! (jh_job handle, at_number next) with
      | Some grant => mret (Some grant)
      | None => again_effect r (jh_job handle) next
      end
  end.

Lemma schedule_applied w handle failed q r bound pin :
  retry_outstanding w handle failed q r →
  ss_cancel_requested (jr_snapshot r) = false →
  sp_delivery (ss_spec (jr_snapshot r)) = AtLeastOnce bound → at_number failed < bound →
  canonical_hash (sp_deployment (ss_spec (jr_snapshot r))) = Ok pin →
  let next := mkAttemptId (at_home failed) (at_job failed) (next_number (at_number failed)) in
  schedule_retry io handle failed next (sp_deployment (ss_spec (jr_snapshot r))) None w
  = answer_effect w r handle
      (RetryAgain "" handle failed next (sp_deployment (ss_spec (jr_snapshot r))) None) w.
Proof.
  intros [Ha Hh [Hfh Hfj] Hj Hs Hcur _ _] Hc Hd Hlt Hpin next. unfold schedule_retry, answer_effect.
  erewrite bind_run by done.
  erewrite bind_run
    by (apply reject_run; rewrite !bool_decide_false by (cbn; intros []; congruence); done).
  erewrite bind_run by done. rewrite (bind_run _ _ _ _ _ (authoritative_run w Ha)).
  erewrite bind_run by (apply lift_run; unfold find_job; by rewrite Hj).
  erewrite bind_run by (apply lift_run; by rewrite Hpin).
  erewrite bind_run by (apply lift_run; by rewrite Hpin).
  erewrite bind_run by (apply reject_run, bool_decide_false; by intros []).
  destruct (hs_grants (w_state w) !! _) as [g|]; [done|].
  erewrite bind_run by (apply reject_run, bool_decide_false; by intros []).
  erewrite bind_run by (apply lift_run; by rewrite Hcur).
  erewrite bind_run; [unfold again_effect; by destruct (already_scheduled _ _)|]. apply reject_run.
  rewrite !bool_decide_false; [done| |by intros []|by intros []].
  rewrite Hd. cbn. unfold next_number. lia.
Qed.

Lemma stop_applied w handle failed q r state reason :
  retry_outstanding w handle failed q r →
  stop_retry io handle failed state reason w = stop_effect r state reason w.
Proof.
  intros [Ha Hh _ Hj Hs Hcur _ _]. unfold stop_retry, stop_effect.
  erewrite bind_run by done. rewrite (bind_run _ _ _ _ _ (authoritative_run w Ha)).
  erewrite bind_run by (apply lift_run; unfold find_job; by rewrite Hj).
  rewrite Hs. cbn [is_terminal].
  erewrite bind_run by (apply reject_run, bool_decide_false; by intros []).
  erewrite bind_run by (apply reject_run, bool_decide_false; by intros []).
  done.
Qed.

Lemma retry_applied w handle failed q r (d : SignedRecordV1 RetryDecisionV1) hash u pin :
  retry_question handle failed w = (Ok q, w) → retry_outstanding w handle failed q r →
  SignedRecordV1_validate RetryDecisionV1_validate d = Ok tt →
  unsigned SCHEMA_POLICY_V1 d = false → canonical_hash q = Ok hash →
  retry_answer r handle failed hash (sr_payload d) →
  svc_allow_retry_decision d = Ok u →
  canonical_hash (sp_deployment (ss_spec (jr_snapshot r))) = Ok pin →
  apply_retry_decision io d w = answer_effect w r handle (sr_payload d) w.
Proof.
  intros Hq O Hv Hu Hhash A Hallow Hpin. pose proof O as [Ha Hh _ _ _ _ _ _].
  unfold apply_retry_decision. rewrite (bind_run _ _ _ _ _ (authoritative_run w Ha)).
  erewrite bind_run by (apply lift_run; by rewrite Hv).
  erewrite bind_run by (by apply reject_run).
  destruct A as [state reason Hst|bound Hc Hd Hlt];
    (erewrite bind_run by done);
    (erewrite bind_run by (apply reject_run, bool_decide_false; by intros []));
    rewrite (bind_run _ _ _ _ _ Hq);
    (erewrite bind_run by (apply lift_run; by rewrite Hhash));
    (erewrite bind_run by (apply reject_run, bool_decide_false; by intros []));
    (erewrite bind_run by (apply lift_run; unfold refused; by rewrite Hallow)).
  - by eapply stop_applied.
  - by eapply schedule_applied.
Qed.
End answers.

(** ** A policy beside the sample Home *)

Module policy_sample.
#[local] Existing Instances zero_sha blank_text toy_ed25519 toy_keys null_serde null_custody
  api_sample.null_messages api_sample.open_services.

Definition policy : BasicJobPolicy :=
  mkBasicJobPolicy (Ed25519SeedSigner [Byte.x07]) BasicPolicyCaps_default.

(** A queued job and its placement question. *)
Definition queued : HomeWorld unit := api_sample.run [api_sample.call_submit].
Definition placement_of (r : result HomeError (option (SignedRecordV1 PlacementQuestionV1))) :
    SignedRecordV1 PlacementQuestionV1 :=
  match r with
  | Ok (Some q) => q
  | _ => sample_sign SCHEMA_POLICY_V1 sample_root
           (mkPlacementQuestionV1 api_sample.handle 0 sample_genesis sample_function [] [])
  end.
Definition question : SignedRecordV1 PlacementQuestionV1 :=
  placement_of (placement_question api_sample.handle queued).1.
Definition decision_of {E} (r : result E (SignedRecordV1 PlacementDecisionV1)) :
    SignedRecordV1 PlacementDecisionV1 :=
  match r with
  | Ok d => d
  | Err _ => sample_sign "" "" (mkPlacementDecisionV1 api_sample.handle "" "" [])
  end.
Definition decision : SignedRecordV1 PlacementDecisionV1 := decision_of (select policy question).

(** The same job after its first attempt failed. *)
Definition failure : SignedRecordV1 ExecutionReceiptV1 :=
  sample_sign SCHEMA_EXECUTE_V1 sample_executor
    (mkExecutionReceiptV1 (mkAttemptId sample_root api_sample.job 1) zero_digest sample_executor 2
       None (XFailed (VInline JNull) true)).
Definition failed_calls : list HomeCall :=
  [api_sample.call_submit; api_sample.call_grant; CallReceipt api_sample.claimed;
   CallReceipt failure].
Definition pending : HomeWorld unit := api_sample.run failed_calls.
Definition failed : AttemptId := mkAttemptId sample_root api_sample.job 1.
Definition retry_of (r : result HomeError (SignedRecordV1 RetryQuestionV1)) :
    SignedRecordV1 RetryQuestionV1 :=
  match r with
  | Ok q => q
  | Err _ => sample_sign "" ""
      (mkRetryQuestionV1 (mkJobSnapshotV1 sample.spec SQueued false 0 sample_genesis 0 None None None)
         failed (VInline JNull) false [] [])
  end.
Definition retry : SignedRecordV1 RetryQuestionV1 :=
  retry_of (retry_question api_sample.handle failed pending).1.
Definition verdict_of {E} (r : result E (SignedRecordV1 RetryDecisionV1)) :
    SignedRecordV1 RetryDecisionV1 :=
  match r with Ok d => d | Err _ => sample_sign "" "" (RetryStop "" api_sample.handle failed SFailed "") end.
Definition verdict : SignedRecordV1 RetryDecisionV1 := verdict_of (decide_retry policy retry).
Definition retry_state : JobStateV1 :=
  match hs_jobs (w_state pending) !! api_sample.job with
  | Some r => ss_state (jr_snapshot r)
  | None => SQueued
  end.

Lemma question_asked :
  placement_question api_sample.handle queued = (Ok (Some question), queued).
Proof.
  assert (E : (placement_question api_sample.handle queued).1 = Ok (Some question))
    by (vm_compute; reflexivity).
  destruct (placement_question api_sample.handle queued) as [res w'] eqn:Er. cbn in E. subst res.
  by apply placement_question_Ok in Er as [-> _].
Qed.
Lemma decision_made : select policy question = Ok decision.
Proof. vm_compute. reflexivity. Qed.
Lemma decision_valid : SignedRecordV1_validate PlacementDecisionV1_validate decision = Ok tt.
Proof. vm_compute. reflexivity. Qed.
Lemma queued_job :
  ∃ r, hs_jobs (w_state queued) !! jh_job api_sample.handle = Some r
       ∧ ss_cancel_requested (jr_snapshot r) = false.
Proof. eexists. split; [vm_compute; reflexivity|reflexivity]. Qed.

Lemma retry_asked : retry_question api_sample.handle failed pending = (Ok retry, pending).
Proof.
  assert (E : (retry_question api_sample.handle failed pending).1 = Ok retry)
    by (vm_compute; reflexivity).
  destruct (retry_question api_sample.handle failed pending) as [res w'] eqn:Er. cbn in E. subst res.
  by apply retry_question_Ok in Er as [-> _].
Qed.
Lemma verdict_made : decide_retry policy retry = Ok verdict.
Proof. vm_compute. reflexivity. Qed.
Lemma verdict_valid : SignedRecordV1_validate RetryDecisionV1_validate verdict = Ok tt.
Proof. vm_compute. reflexivity. Qed.
Lemma pending_job :
  ∃ r, hs_jobs (w_state pending) !! jh_job api_sample.handle = Some r
       ∧ canonical_hash (sp_deployment (ss_spec (jr_snapshot r))) = Ok zero_digest.
Proof. eexists. split; [vm_compute; reflexivity|vm_compute; reflexivity]. Qed.
End policy_sample.

(** ** Properties *)

(** The Home can act on the reference policy's placement. When the policy
    answers the question a Home has outstanding for a job that is not being
    cancelled, and the Home trusts the policy's key, the Home refuses the answer
    on no ground of the contract: it returns the grant it already made, or goes
    on to grant the pinned deployment. *)
Theorem policy_placement_honoured (S : Sha256) (X : JsonText) (E : Ed25519) (Y : Ed25519Keys)
    (W : WireSerde) (M : MessageSerde) (V : HomeServices) (C : Type)
    (io : nat → AppendIo) (w w' : HomeWorld C) (handle : JobHandleV1) (p : BasicJobPolicy)
    (seed : bytes) (Hseed : bp_signer p = Ed25519SeedSigner seed)
    (q : SignedRecordV1 PlacementQuestionV1) (d : SignedRecordV1 PlacementDecisionV1)
    (Hq : placement_question handle w = (Ok (Some q), w')) (Hd : select p q = Ok d)
    (Hvalid : SignedRecordV1_validate PlacementDecisionV1_validate d = Ok tt)
    (u : unit) (Htrust : svc_allow_placement_decision d = Ok u)
    (r : JobRecord) (Hr : hs_jobs (w_state w) !! jh_job handle = Some r)
    (Hcancel : ss_cancel_requested (jr_snapshot r) = false) :
  w' = w
  ∧ apply_placement_decision io d w'
    = match granted w r with
      | Some grant => (Ok grant, w)
      | None => issue_grant io (jh_job handle) (sp_deployment (ss_spec (jr_snapshot r))) None None w
      end.
Proof.
  destruct (placement_question_Ok handle w q w' Hq) as [-> (r' & O)]. split; [done|].
  assert (r' = r) as -> by (pose proof (pn_job _ _ _ _ O); congruence).
  destruct (placement_answer p seed w handle q r d Hseed O Hd) as (Hu & hash & Hh & Hp).
  by eapply placement_applied.
Qed.

Lemma policy_placement_honoured_witness :
  ∃ r, hs_jobs (w_state policy_sample.queued) !! jh_job api_sample.handle = Some r
    ∧ @apply_placement_decision zero_sha blank_text toy_ed25519 null_serde
        api_sample.null_messages api_sample.open_services unit api_sample.io
        policy_sample.decision policy_sample.queued
      = match granted policy_sample.queued r with
        | Some grant => (Ok grant, policy_sample.queued)
        | None => @issue_grant zero_sha blank_text toy_ed25519 null_serde
            api_sample.open_services unit api_sample.io (jh_job api_sample.handle)
            (sp_deployment (ss_spec (jr_snapshot r))) None None policy_sample.queued
        end.
Proof.
  destruct policy_sample.queued_job as (r & Hr & Hc). exists r. split; [exact Hr|].
  apply (@policy_placement_honoured zero_sha blank_text toy_ed25519 toy_keys null_serde
    api_sample.null_messages api_sample.open_services unit api_sample.io _ _ _
    policy_sample.policy [Byte.x07] eq_refl _ _ policy_sample.question_asked
    policy_sample.decision_made policy_sample.decision_valid tt eq_refl r Hr Hc).
Defined.

(** The Home can act on the reference policy's retry verdict, and the verdict
    stays in the caller's budget. A stop says cancelled exactly for a job whose
    cancellation was requested and failed otherwise; another attempt is only
    asked for a job that is at-least-once, not being cancelled and below its
    attempt bound, on the pinned deployment, with the next attempt number. The
    Home refuses neither on a ground of the contract. *)
Theorem policy_retry_honoured (S : Sha256) (X : JsonText) (E : Ed25519) (Y : Ed25519Keys)
    (W : WireSerde) (M : MessageSerde) (V : HomeServices) (C : Type)
    (io : nat → AppendIo) (w w' : HomeWorld C) (handle : JobHandleV1) (failed : AttemptId)
    (p : BasicJobPolicy) (seed : bytes) (Hseed : bp_signer p = Ed25519SeedSigner seed)
    (q : SignedRecordV1 RetryQuestionV1) (d : SignedRecordV1 RetryDecisionV1)
    (Hq : retry_question handle failed w = (Ok q, w')) (Hd : decide_retry p q = Ok d)
    (Hvalid : SignedRecordV1_validate RetryDecisionV1_validate d = Ok tt)
    (u : unit) (Htrust : svc_allow_retry_decision d = Ok u)
    (r : JobRecord) (Hr : hs_jobs (w_state w) !! jh_job handle = Some r)
    (pin : string) (Hpin : canonical_hash (sp_deployment (ss_spec (jr_snapshot r))) = Ok pin) :
  w' = w
  ∧ apply_retry_decision io d w' = answer_effect io w r handle (sr_payload d) w
  ∧ ∃ hash, canonical_hash q = Ok hash ∧ retry_answer r handle failed hash (sr_payload d).
Proof.
  destruct (retry_question_Ok handle failed w q w' Hq) as [-> (r' & O)]. split; [done|].
  assert (r' = r) as -> by (pose proof (rn_job _ _ _ _ _ O); congruence).
  destruct (retry_answered p seed w handle failed q r d Hseed O Hd) as (Hu & hash & Hh & Ha).
  split; [by eapply retry_applied|by eauto].
Qed.

Lemma policy_retry_honoured_witness :
  ∃ r hash, hs_jobs (w_state policy_sample.pending) !! jh_job api_sample.handle = Some r
    ∧ retry_answer r api_sample.handle policy_sample.failed hash (sr_payload policy_sample.verdict).
Proof.
  destruct policy_sample.pending_job as (r & Hr & Hp).
  destruct (@policy_retry_honoured zero_sha blank_text toy_ed25519 toy_keys null_serde
    api_sample.null_messages api_sample.open_services unit api_sample.io _ _ _ _
    policy_sample.policy [Byte.x07] eq_refl _ _ policy_sample.retry_asked
    policy_sample.verdict_made policy_sample.verdict_valid tt eq_refl r Hr _ Hp)
    as (_ & _ & hash & _ & Ha).
  exists r, hash. split; [exact Hr|exact Ha].
Defined.

(** The policy's choice is a function of the set of candidates: two questions
    whose candidates are the same in another order get the same deployment, which
    is one of the verified candidates, with no verified candidate before it in
    the order of realm, node, executor, creature and deployment. *)
Theorem policy_choice_order_independent (S : Sha256) (X : JsonText) (E : Ed25519) (W : WireSerde)
    (M : MessageSerde) (p : BasicJobPolicy) (q k : SignedRecordV1 PlacementQuestionV1)
    (d e : SignedRecordV1 PlacementDecisionV1) (Hd : select p q = Ok d) (He : select p k = Ok e)
    (Hperm : pq_candidates (sr_payload q) ≡ₚ pq_candidates (sr_payload k)) :
  pd_selected (sr_payload d) = pd_selected (sr_payload e)
  ∧ ∃ c, pd_selected (sr_payload d) = dr_deployment (sr_payload c)
         ∧ least c (List.filter verified (pq_candidates (sr_payload q))).
Proof.
  destruct (select_Ok p q d Hd) as (c & Hc & Hs), (select_Ok p k e He) as (b & Hb & Hs').
  pose proof (choose_perm _ _ Hperm) as Hk. rewrite Hc, Hb in Hk. cbn in Hk.
  rewrite Hs, Hs'. split; [by simplify_eq|]. exists c. split; [done|]. by apply choose_least.
Qed.

Lemma policy_choice_order_independent_witness :
  pd_selected (sr_payload policy_sample.decision) = "d".
Proof.
  pose proof (@policy_choice_order_independent zero_sha blank_text toy_ed25519 null_serde
    api_sample.null_messages policy_sample.policy _ _ _ _ policy_sample.decision_made
    policy_sample.decision_made (reflexivity _)) as [_ (c & Hc & Hl & _)].
  rewrite Hc. vm_compute in Hl. apply list_elem_of_singleton in Hl as ->. reflexivity.
Defined.
