(* ===== verification/CustodyArchive.v ===== *)
(** * The checkpoint archive of a Home

    The part of [cosmos/creatures/function-home/src/custody.rs] that carries a
    Home's ledger from one epoch to the next: the archive, its bounded encoder,
    its validation by replay, the sealed values it depends on and the inventory
    of envelopes a handoff has to rewrap.

    The blob store is the class [CheckpointBlobStore], [serde_json] at the
    archive's types the class [ArchiveSerde], and [Vec::try_reserve_exact] the
    class [Allocator]. *)

From stdpp Require Import sorting.
From S2P Require Import Prelude Serde GxShape GxHash FnCrypto FnTypes FnWire FnCustody.
From S2P Require Import Journal HomeLedger.

Definition HOME_JOURNAL_NAME : string := "function-home".
Definition HOME_JOURNAL_SCHEMA : string := "gawd.function.home.journal.v1".
Definition CHECKPOINT_FORMAT : string := "gawd.function.home.checkpoint.archive.v1".
Definition CHECKPOINT_MEDIA_TYPE : string :=
  "application/vnd.gawd.function-home-checkpoint.v1+json".

Record HomeCheckpointArchiveV1 : Type := mkHomeCheckpointArchiveV1 {
  ar_format : string;
  ar_home : HomeId;
  ar_epoch : N;
  ar_high_water_mark : N;
  ar_log_root : string;
  ar_authorities : list HomeAuthorityV1;
  ar_records : list (SignedRecordV1 (ChainEntry HomeLedgerRecord));
  ar_rewrap_overlay : option (SignedRecordV1 CustodyStagedV1)
}.

Class CheckpointBlobStore : Type := {
  put_checkpoint : string → bytes → result ContractError BlobRefV1;
  get_checkpoint : BlobRefV1 → result ContractError bytes;
  ck_available :: BlobAvailability
}.

Class ArchiveSerde : Type := {
  as_sealed :: ToValue SealedValueV1;
  as_authority :: ToValue HomeAuthorityV1;
  archive_from_slice : bytes → result string HomeCheckpointArchiveV1
}.

(** Whether a buffer may grow to this length. *)
Class Allocator : Type := try_reserve : N → bool.

(** [ContractError::to_string] as the message of an error. *)
Definition blob_err {A} (what : string) (r : result ContractError A) : result HomeError A :=
  map_err (fun e => HInvalid (what +:+ ContractError_to_string e)) r.

(** A loop over a list that stops at the first error. *)
Fixpoint for_each {A} (f : A → result HomeError unit) (l : list A) : result HomeError unit :=
  match l with
  | [] => Ok tt
  | x :: l => _ ← f x; for_each f l
  end.

Fixpoint fold_each {S A} (f : S → A → result HomeError S) (s : S) (l : list A) :
    result HomeError S :=
  match l with
  | [] => Ok s
  | x :: l => s ← f s x; fold_each f s l
  end.

(** ** The values of a record *)

Definition stage_values (stage : ExecutionStageV1) : list ValueRefV1 :=
  match stage with
  | XProgress _ progress => [progress]
  | XCheckpoint _ checkpoint => [checkpoint]
  | XSucceeded result => [result]
  | XFailed error _ => [error]
  | XClaimed | XStarted | XIndeterminate _ _ | XCancelled _ | XControlQueued _
  | XControlAcknowledged _ _ _ => []
  end.

Definition event_values (kind : JobEventKindV1) : list ValueRefV1 :=
  match kind with
  | KSubmitted spec => [sp_input spec]
  | KProgress _ _ progress => [progress]
  | KCheckpoint _ _ checkpoint => [checkpoint]
  | KAttemptFailed _ error _ | KFailed error => [error]
  | KSucceeded _ result => [result]
  | KControlRequested request _ =>
      match jc_kind (sr_payload request) with
      | Steer value => [value]
      | ProposeChild _ _ _ _ submit _ _ => [js_input (sr_payload submit)]
      | Cancel _ | AccessUpdate _ _ _ _ => []
      end
  | KBlocked _ | KDispatchGranted _ _ | KClaimed _ _ | KStarted _ | KControlQueued _ _
  | KControlAcknowledged _ _ _ | KRetryScheduled _ _ | KCancelled _ | KIndeterminate _ _ _
  | KLateReceipt _ _ | KAccessUpdated _ _ _ | KChildSpawned _ _ _ _ _ _ | KCustodyPrepared _ _
  | KCustodyActivated _ => []
  end.

(** The values [visit_ledger_record_values] visits, in order. *)
Definition ledger_record_values (record : HomeLedgerRecord) : list ValueRefV1 :=
  match lr_grant record with Some grant => [eg_input (sr_payload grant)] | None => [] end
  ++ match lr_receipt record with
     | Some receipt => stage_values (ex_stage (sr_payload receipt))
     | None => []
     end
  ++ flat_map (fun event => event_values (je_kind (sr_payload event))) (lr_events record).

Definition archive_values (archive : HomeCheckpointArchiveV1) : list ValueRefV1 :=
  flat_map (fun chain => ledger_record_values (ce_event (sr_payload chain))) (ar_records archive).

(** A [BTreeMap] by string key, in key order. *)
Definition entry_le {A} (a b : string * A) : Prop := str_le a.1 b.1.
#[export] Instance entry_le_dec {A} : RelDecision (@entry_le A).
Proof. unfold entry_le. intros a b. apply _. Defined.
Definition in_key_order {A} (m : gmap string A) : list (string * A) :=
  merge_sort entry_le (map_to_list m).

Section archive.
  Context `{!Sha256} `{!JsonText} `{!Ed25519} `{!WireSerde} `{!CustodySerde} `{!ArchiveSerde}.

(** ** Encoding *)

(** [CappedCheckpointBuffer]: its bytes are the state. *)
Definition bufferM : Type → Type := stateR bytes HomeError.
#[local] Instance bufferM_ret : MRet bufferM := stateR_ret.
#[local] Instance bufferM_bind : MBind bufferM := stateR_bind.

Context `{!Allocator} (cap : N).

Definition push (b : bytes) : bufferM unit :=
  len ← gets blen;
  next ← lift_result (ok_or (usize_checked_add len (blen b))
                        (HCapacity "checkpoint size overflowed"));
  _ ← lift_result (if decide (cap < next) then
        Err (HCapacity ("checkpoint exceeds configured cap " +:+ dec cap)) else Ok tt);
  _ ← lift_result (if try_reserve next then Ok tt
                   else Err (HCapacity "checkpoint buffer allocation was refused"));
  modify (fun buffer => buffer ++ b).

Definition push_json {T} `{!ToValue T} (value : T) : bufferM unit :=
  b ← lift_result (invalid (canonical_json_bytes value));
  push b.

(** The elements of an array, with commas between them. *)
Fixpoint push_elements {T} `{!ToValue T} (first : bool) (values : list T) : bufferM unit :=
  match values with
  | [] => mret tt
  | value :: values =>
      _ ← (if first then mret tt else push [Byte.x2c]);
      _ ← push_json value;
      push_elements false values
  end.

(** An object key in quotes and its colon. *)
Definition key_bytes (key : string) : bytes := Byte.x22 :: bytes_of_string key ++ [Byte.x22; Byte.x3a].

#[local] Instance u64_to_value : ToValue N := fun n => Ok (JNumber (dec n)).
#[local] Instance text_to_value : ToValue string := fun s => Ok (JString s).

Definition encode_archive (config : HomeConfig)
    (records : list (SignedRecordV1 (ChainEntry HomeLedgerRecord))) (log_root : string)
    (rewrap_overlay : option (SignedRecordV1 CustodyStagedV1)) : bufferM unit :=
  _ ← push (Byte.x7b :: key_bytes "authorities" ++ [Byte.x5b]);
  _ ← push_elements true (cf_authority config :: cf_historical_authorities config);
  _ ← push (Byte.x5d :: Byte.x2c :: key_bytes "epoch");
  _ ← push_json (cf_epoch config);
  _ ← push (Byte.x2c :: key_bytes "format");
  _ ← push_json CHECKPOINT_FORMAT;
  _ ← push (Byte.x2c :: key_bytes "high_water_mark");
  _ ← push_json (N.of_nat (length records));
  _ ← push (Byte.x2c :: key_bytes "home");
  _ ← push_json (cf_home config);
  _ ← push (Byte.x2c :: key_bytes "log_root");
  _ ← push_json log_root;
  _ ← push (Byte.x2c :: key_bytes "records" ++ [Byte.x5b]);
  _ ← push_elements true records;
  _ ← push [Byte.x5d];
  _ ← match rewrap_overlay with
      | Some overlay =>
          _ ← push (Byte.x2c :: key_bytes "rewrap_overlay");
          push_json overlay
      | None => mret tt
      end;
  push [Byte.x7d].

Definition encode_checkpoint_archive (config : HomeConfig)
    (records : list (SignedRecordV1 (ChainEntry HomeLedgerRecord))) (log_root : string)
    (rewrap_overlay : option (SignedRecordV1 CustodyStagedV1)) : result HomeError bytes :=
  if decide (u64_MAX < N.of_nat (length records)) then
    Err (HCapacity "checkpoint record count exceeds u64")
  else
    match encode_archive config records log_root rewrap_overlay [] with
    | (Ok _, buffer) => Ok buffer
    | (Err e, _) => Err e
    end.

(** ** Authority lineages *)

Definition epoch_of (a : HomeAuthorityV1) : N := og_epoch (sr_payload (ha_operational a)).

(** The loop of [authority_map]: keys and epochs seen so far. *)
Fixpoint authority_map_from (home : HomeId) (by_key : gmap string N) (by_epoch : gset N)
    (authorities : list HomeAuthorityV1) : result HomeError (gmap string N) :=
  match authorities with
  | [] => Ok by_key
  | authority :: authorities =>
      let epoch := epoch_of authority in
      _ ← invalid (HomeAuthorityV1_verify authority home epoch CapJobHome);
      let key := operational_key authority in
      if bool_decide (is_Some (by_key !! key)) || bool_decide (epoch ∈ by_epoch) then
        Err (HConflict "checkpoint authority history contains a duplicate key/epoch")
      else authority_map_from home (<[key := epoch]> by_key) ({[epoch]} ∪ by_epoch) authorities
  end.
Definition authority_map (authorities : list HomeAuthorityV1) (home : HomeId) :
    result HomeError (gmap string N) := authority_map_from home ∅ ∅ authorities.

Definition configured_authorities (config : HomeConfig) : result HomeError (gmap string N) :=
  authority_map (cf_authority config :: cf_historical_authorities config) (cf_home config).

Fixpoint lineage_by_epoch (home : HomeId) (by_epoch : gmap N HomeAuthorityV1)
    (authorities : list HomeAuthorityV1) : result HomeError (gmap N HomeAuthorityV1) :=
  match authorities with
  | [] => Ok by_epoch
  | authority :: authorities =>
      let epoch := epoch_of authority in
      _ ← invalid (HomeAuthorityV1_verify authority home epoch CapJobHome);
      if decide (is_Some (by_epoch !! epoch)) then
        Err (HConflict "checkpoint authority history repeats an epoch")
      else lineage_by_epoch home (<[epoch := authority]> by_epoch) authorities
  end.

Definition lineage_gap : HomeError :=
  HUnauthorized "checkpoint authority history omits an epoch in its custody lineage".

(** The loop over the epochs from [epoch], [fuel] of them. *)
Fixpoint lineage_links (by_epoch : gmap N HomeAuthorityV1) (epoch : N) (fuel : nat) :
    result HomeError unit :=
  match fuel with
  | O => Ok tt
  | S fuel =>
      authority ← ok_or (by_epoch !! epoch) lineage_gap;
      _ ← (if decide (epoch = 1) then Ok tt
           else
             prior ← ok_or (by_epoch !! (epoch - 1)) lineage_gap;
             prepared ← ok_or (ha_prepared authority)
               (HUnauthorized "moved checkpoint authority omits Prepared proof");
             if decide (cg_source_authority (sr_payload (cp_grant (sr_payload prepared))) ≠ prior)
             then Err (HUnauthorized
               "checkpoint authorities do not form one exact custody lineage")
             else Ok tt);
      lineage_links by_epoch (epoch + 1) fuel
  end.

Definition highest_epoch (by_epoch : gmap N HomeAuthorityV1) : N :=
  foldr N.max 0 (map_to_list by_epoch).*1.

Definition verify_complete_authority_lineage (authorities : list HomeAuthorityV1)
    (home : HomeId) : result HomeError unit :=
  by_epoch ← lineage_by_epoch home ∅ authorities;
  if decide (by_epoch = ∅) then Err (HUnauthorized "checkpoint authority history is empty")
  else lineage_links by_epoch 1 (N.to_nat (highest_epoch by_epoch)).

(** ** Sealed values and envelopes *)

(** One value of [sealed_archive_values]. *)
Definition add_sealed (sealed_values : gmap string SealedValueV1) (value : ValueRefV1) :
    result HomeError (gmap string SealedValueV1) :=
  match value with
  | VSealed sealed =>
      sealed_hash ← invalid (canonical_hash sealed);
      match sealed_values !! sealed_hash with
      | Some existing =>
          if decide (existing ≠ sealed) then
            Err (HConflict "checkpoint contains divergent sealed values under one canonical hash")
          else Ok sealed_values
      | None => Ok (<[sealed_hash := sealed]> sealed_values)
      end
  | VInline _ | VBlob _ => Ok sealed_values
  end.
Definition sealed_archive_values (archive : HomeCheckpointArchiveV1) :
    result HomeError (gmap string SealedValueV1) :=
  fold_each add_sealed ∅ (archive_values archive).

(** One entry of the loop of [verified_overlay_wraps]. *)
Definition add_overlay_wrap (sealed_values : gmap string SealedValueV1) (suite : string)
    (wraps : gmap string RecipientKeyWrapV1) (entry : CustodyRewrapEntryV1) :
    result HomeError (gmap string RecipientKeyWrapV1) :=
  sealed ← ok_or (sealed_values !! we_sealed_value_hash entry)
    (HConflict "checkpoint rewrap overlay contains an entry absent from the archive");
  if bool_decide (sv_ciphertext sealed ≠ we_ciphertext entry) || bool_decide (sv_suite sealed ≠ suite)
  then Err (HConflict
    "checkpoint rewrap overlay does not match the exact sealed ciphertext and suite")
  else if decide (is_Some (wraps !! we_sealed_value_hash entry)) then
    Err (HConflict "checkpoint rewrap overlay repeats a sealed value")
  else Ok (<[we_sealed_value_hash entry := we_destination_wrap entry]> wraps).

Definition verified_overlay_wraps (archive : HomeCheckpointArchiveV1) :
    result HomeError (gmap string RecipientKeyWrapV1) :=
  match ar_rewrap_overlay archive with
  | None => Ok ∅
  | Some staged =>
      _ ← invalid (verify_custody_staged staged);
      let prepared := st_prepared (sr_payload staged) in
      let g := sr_payload (cp_grant (sr_payload prepared)) in
      if bool_decide (cg_home g ≠ ar_home archive) || bool_decide (ar_epoch archive < cg_to_epoch g)
      then Err (HUnauthorized
        "checkpoint rewrap overlay is not an ancestral proof for this Home epoch")
      else
        overlay_authority ←
          ok_or (List.find (fun a => bool_decide (epoch_of a = cg_to_epoch g))
                   (ar_authorities archive))
            (HUnauthorized
               "checkpoint rewrap overlay destination authority is absent from its lineage");
        if bool_decide (ha_operational overlay_authority ≠ cg_destination_operational_key g)
           || bool_decide (ha_prepared overlay_authority ≠ Some prepared) then
          Err (HUnauthorized
            "checkpoint rewrap overlay is not the exact Prepared proof in its authority lineage")
        else
          receipt ← ok_or (st_rewrap_receipt (sr_payload staged))
            (HInvalid "checkpoint rewrap overlay omits its aggregate receipt");
          requirement ← ok_or (cg_destination_rewrap g)
            (HInvalid "checkpoint rewrap overlay has no root declaration");
          sealed_values ← sealed_archive_values archive;
          fold_each
            (add_overlay_wrap sealed_values
               (rk_suite (sr_payload (cr_destination_binding requirement))))
            ∅ (wr_entries (sr_payload receipt))
  end.

(** One sealed value of [build_rewrap_inventory]; [None] leaves it out. *)
Definition rewrap_source (home : HomeId) (suite source_binding_hash : string)
    (overlay : gmap string RecipientKeyWrapV1) (sealed_value_hash : string)
    (sealed : SealedValueV1) : result HomeError (option CustodyRewrapSourceV1) :=
  let direct :=
    List.filter (fun wrap => bool_decide (rw_recipient wrap = home)) (sv_recipients sealed) in
  if decide (1 < length direct)%nat then
    Err (HConflict "checkpoint sealed value carries multiple direct Home envelopes")
  else
    let overlay_wrap := overlay !! sealed_value_hash in
    if bool_decide (direct = []) && bool_decide (overlay_wrap = None) then Ok None
    else if decide (sv_suite sealed ≠ suite) then
      Err (HConflict "Home-addressed sealed value uses a different suite than the source binding")
    else
      let current wrap := bool_decide (rw_binding_hash wrap = source_binding_hash) in
      match List.filter current (take 1 direct) ++ List.filter current (option_list overlay_wrap) with
      | [] =>
          Err (HConflict "Home-addressed sealed value has no envelope for the current source binding")
      | [source_wrap] =>
          Ok (Some (mkCustodyRewrapSourceV1 sealed_value_hash (sv_ciphertext sealed) source_wrap))
      | _ :: _ :: _ =>
          Err (HConflict
            "Home-addressed sealed value has ambiguous direct and overlay source envelopes")
      end.

Definition add_rewrap_source (home : HomeId) (suite source_binding_hash : string)
    (overlay : gmap string RecipientKeyWrapV1) (inventory : list CustodyRewrapSourceV1)
    (entry : string * SealedValueV1) : result HomeError (list CustodyRewrapSourceV1) :=
  source ← rewrap_source home suite source_binding_hash overlay entry.1 entry.2;
  match source with
  | None => Ok inventory
  | Some source =>
      let inventory := inventory ++ [source] in
      if decide (MAX_CUSTODY_REWRAP_ITEMS < N.of_nat (length inventory)) then
        Err (HCapacity ("custody rewrap inventory exceeds " +:+ dec MAX_CUSTODY_REWRAP_ITEMS
                        +:+ " unique values"))
      else Ok inventory
  end.

Definition build_rewrap_inventory (archive : HomeCheckpointArchiveV1)
    (requirement : CustodyRewrapRequirementV1) :
    result HomeError (list CustodyRewrapSourceV1 * string) :=
  source_binding_hash ← invalid (canonical_hash (cr_source_binding requirement));
  overlay ← verified_overlay_wraps archive;
  sealed_values ← sealed_archive_values archive;
  inventory ← fold_each
    (add_rewrap_source (ar_home archive) (rk_suite (sr_payload (cr_source_binding requirement)))
       source_binding_hash overlay) [] (in_key_order sealed_values);
  inventory_hash ← invalid (verify_custody_rewrap_inventory (ar_home archive) requirement inventory);
  Ok (inventory, inventory_hash).

(** [u32::try_from(inventory.len())]. *)
Definition inventory_count (inventory : list CustodyRewrapSourceV1) : result HomeError N :=
  ok_or (try_from u32_MAX (N.of_nat (length inventory)))
    (HCapacity "custody rewrap inventory count exceeds u32").

Definition verify_prepared_archive_rewrap (prepared : SignedRecordV1 CustodyPreparedV1)
    (archive : HomeCheckpointArchiveV1) : result HomeError (list CustodyRewrapSourceV1) :=
  let p := sr_payload prepared in
  match cg_destination_rewrap (sr_payload (cp_grant p)) with
  | None => Ok []
  | Some requirement =>
      built ← build_rewrap_inventory archive requirement;
      let inventory : list CustodyRewrapSourceV1 := built.1 in
      let inventory_hash : string := built.2 in
      item_count ← inventory_count inventory;
      if bool_decide (cp_rewrap_inventory_hash p ≠ Some inventory_hash)
         || bool_decide (cp_rewrap_item_count p ≠ Some item_count) then
        Err (HConflict "Prepared rewrap commitment does not match the exact checkpoint inventory")
      else Ok inventory
  end.

(** One value of [durable_direct_recipient_constraint]. *)
Definition recipient_constraint (home : HomeId) (binding : option (string * string))
    (value : ValueRefV1) : result HomeError (option (string * string)) :=
  match value with
  | VSealed sealed =>
      let direct :=
        List.filter (fun wrap => bool_decide (rw_recipient wrap = home)) (sv_recipients sealed) in
      if decide (1 < length direct)%nat then
        Err (HConflict "durable sealed value carries multiple direct Home envelopes")
      else
        match direct with
        | [] => Ok binding
        | wrap :: _ =>
            let candidate := (rw_binding_hash wrap, sv_suite sealed) in
            match binding with
            | Some existing =>
                if decide (existing ≠ candidate) then
                  Err (HConflict
                    "durable Home values use multiple recipient bindings without an overlay")
                else Ok (Some candidate)
            | None => Ok (Some candidate)
            end
        end
  | VInline _ | VBlob _ => Ok binding
  end.
Definition durable_direct_recipient_constraint (home : HomeId)
    (records : list (SignedRecordV1 (ChainEntry HomeLedgerRecord))) :
    result HomeError (option (string * string)) :=
  fold_each (recipient_constraint home) None
    (flat_map (fun chain => ledger_record_values (ce_event (sr_payload chain))) records).

(** ** Reading and validating *)

Definition verify_blob_bytes (blob : BlobRefV1) (b : bytes) : result HomeError unit :=
  _ ← invalid (BlobRefV1_validate blob);
  if bool_decide (br_size blob ≠ blen b) || bool_decide (br_digest blob ≠ sha256_digest b) then
    Err (HInvalid "checkpoint store returned bytes that do not match digest/size")
  else Ok tt.

(** One record of the chain of an archive: it gives the next tip. *)
Definition archive_link (authorities : gmap string N) (index : N) (tip : string)
    (record : SignedRecordV1 (ChainEntry HomeLedgerRecord)) : result HomeError string :=
  let event := ce_event (sr_payload record) in
  if unsigned HOME_JOURNAL_SCHEMA record
     || bool_decide (ce_sequence (sr_payload record) ≠ index)
     || bool_decide (ce_previous_hash (sr_payload record) ≠ tip) then
    Err (HUnauthorized ("checkpoint journal record " +:+ dec index +:+ " breaks its signed chain"))
  else
    epoch ← ok_or (authorities !! sr_signer record)
      (HUnauthorized ("checkpoint journal record " +:+ dec index +:+ " uses an ungranted signer"));
    if bool_decide (lr_events event = [])
       || negb (forallb (fun e => bool_decide (je_home_epoch (sr_payload e) = epoch))
                  (lr_events event))
       || match lr_grant event with
          | Some item => bool_decide (eg_home_epoch (sr_payload item) ≠ epoch)
          | None => false
          end then
      Err (HUnauthorized ("checkpoint journal record " +:+ dec index
                          +:+ " crosses Home authority epochs"))
    else invalid (canonical_hash record).

Fixpoint archive_chain (authorities : gmap string N) (index : N) (tip : string)
    (records : list (SignedRecordV1 (ChainEntry HomeLedgerRecord))) : result HomeError string :=
  match records with
  | [] => Ok tip
  | record :: records =>
      tip ← archive_link authorities index tip record;
      archive_chain authorities (index + 1) tip records
  end.

(** The configuration an archive is replayed under: its own home, epoch and
    authorities. *)
Definition replay_config (config : HomeConfig) (archive : HomeCheckpointArchiveV1)
    (current : HomeAuthorityV1) : HomeConfig :=
  mkHomeConfig (ar_home archive) (ar_epoch archive) (cf_coordinator config) (cf_realm config)
    (cf_node config) current
    (List.filter (fun a => bool_decide (epoch_of a < ar_epoch archive)) (ar_authorities archive))
    (cf_max_jobs config) (cf_max_checkpoint_bytes config) (cf_journal_caps config).

Fixpoint replay_ledger (config : HomeConfig) (state : HomeState)
    (records : list HomeLedgerRecord) : result HomeError HomeState :=
  match records with
  | [] => Ok state
  | record :: records =>
      match apply_ledger_record config record state with
      | (Ok _, state) => replay_ledger config state records
      | (Err e, _) => Err e
      end
  end.

Definition validate_archive (config : HomeConfig) (checkpoint : SignedRecordV1 HomeCheckpointV1)
    (archive : HomeCheckpointArchiveV1) : result HomeError unit :=
  let c := sr_payload checkpoint in
  if bool_decide (ar_format archive ≠ CHECKPOINT_FORMAT)
     || bool_decide (ar_home archive ≠ hc_home c)
     || bool_decide (ar_epoch archive ≠ hc_epoch c)
     || bool_decide (ar_high_water_mark archive ≠ hc_high_water_mark c)
     || bool_decide (ar_log_root archive ≠ hc_log_root c)
     || bool_decide (N.of_nat (length (ar_records archive)) ≠ ar_high_water_mark archive) then
    Err (HConflict "checkpoint archive metadata does not match its signed descriptor")
  else
    authorities ← authority_map (ar_authorities archive) (ar_home archive);
    _ ← verify_complete_authority_lineage (ar_authorities archive) (ar_home archive);
    tip ← archive_chain authorities 0 GENESIS (ar_records archive);
    if decide (tip ≠ ar_log_root archive) then
      Err (HConflict "checkpoint archive hash-chain tip does not match descriptor")
    else
      current ←
        ok_or (List.find (fun a => bool_decide (epoch_of a = ar_epoch archive))
                 (ar_authorities archive))
          (HUnauthorized "checkpoint omits its source epoch authority");
      state ← replay_ledger (replay_config config archive current)
                (HomeState_new unfenced_for_replay)
                (map (fun record => ce_event (sr_payload record)) (ar_records archive));
      if decide (cf_max_jobs config < N.of_nat (size (hs_jobs state))) then
        Err (HCapacity "checkpoint contains more jobs than destination permits")
      else
        _ ← verified_overlay_wraps archive;
        Ok tt.

Context `{!CheckpointBlobStore}.

Definition read_archive (config : HomeConfig) (checkpoint : SignedRecordV1 HomeCheckpointV1) :
    result HomeError HomeCheckpointArchiveV1 :=
  b ← blob_err "checkpoint bytes unavailable: " (get_checkpoint (hc_state (sr_payload checkpoint)));
  if decide (cf_max_checkpoint_bytes config < blen b) then
    Err (HCapacity ("checkpoint is " +:+ dec (blen b) +:+ " bytes, exceeds configured cap "
                    +:+ dec (cf_max_checkpoint_bytes config)))
  else
    _ ← verify_blob_bytes (hc_state (sr_payload checkpoint)) b;
    map_err (fun e => HInvalid ("checkpoint archive is invalid JSON: " +:+ e)) (archive_from_slice b).

Definition verify_required_blobs (archive : HomeCheckpointArchiveV1) : result HomeError unit :=
  for_each (fun value =>
    blob_err "checkpoint dependency is unavailable: " (ValueRefV1_verify_available value))
    (archive_values archive).

(** *** The overlay in force *)

Definition effective_rewrap_overlay (config : HomeConfig) (state : HomeState) :
    result HomeError (option (SignedRecordV1 CustodyStagedV1)) :=
  match hs_custody state with
  | CustodyActive _ _ _ _ (Some (staged, _)) =>
      _ ← invalid (verify_custody_staged staged);
      match st_rewrap_receipt (sr_payload staged) with
      | Some _ =>
          if decide (ha_prepared (cf_authority config) ≠ Some (st_prepared (sr_payload staged))) then
            Err (HUnauthorized
              "active rewrap receipt is not the exact current authority lineage proof")
          else Ok (Some staged)
      | None =>
          let prior_checkpoint := cp_checkpoint (sr_payload (st_prepared (sr_payload staged))) in
          prior ← read_archive config prior_checkpoint;
          _ ← validate_archive config prior_checkpoint prior;
          Ok (ar_rewrap_overlay prior)
      end
  | CustodyActive _ _ _ _ None | CustodyFrozen _ _ _ _ | CustodyStaged _ _ => Ok None
  end.

Definition active_overlay_recipient_binding (config : HomeConfig) (state : HomeState) :
    result HomeError (option (SignedRecordV1 RecipientKeyBindingV1)) :=
  overlay ← effective_rewrap_overlay config state;
  match overlay with
  | None => Ok None
  | Some overlay =>
      requirement ←
        ok_or (cg_destination_rewrap
                 (sr_payload (cp_grant (sr_payload (st_prepared (sr_payload overlay))))))
          (HInvalid "effective overlay has no rewrap declaration");
      Ok (Some (cr_destination_binding requirement))
  end.
End archive.
