(* ===== verification/HomeCustody.v ===== *)
(** * Custody of a Home

    The custody journal of [cosmos/creatures/function-home/src/custody.rs]: its
    records and the state machine that replays them, the source's operations (the
    route, the checkpoint, the irreversible fence, the redirect) and the
    destination's activation and lease revisions.

    The custody journal is a second signed journal beside the ledger, so the world
    of a Home is extended with its handle and its files. *)

From S2P Require Import Prelude Serde GxShape GxHash FnCrypto FnTypes FnWire FnCustody.
From S2P Require Import FnMessages Journal HomeLedger HomeApi CustodyArchive.

Definition CUSTODY_JOURNAL_NAME : string := "function-home-custody".
Definition CUSTODY_JOURNAL_SCHEMA : string := "gawd.function.home.custody.journal.v1".

(** ** Data *)

Record PreparedHandoff : Type := mkPreparedHandoff {
  ph_grant : SignedRecordV1 CustodyGrantV1;
  ph_checkpoint : SignedRecordV1 HomeCheckpointV1;
  ph_prepared : SignedRecordV1 CustodyPreparedV1
}.

Inductive HomeCustodyStatus : Type :=
  | StatusActive (epoch : N) (handoff : option HandoffId)
  | StatusFrozen (epoch : N) (handoff : HandoffId) (redirect : option (SignedRecordV1 HomeLeaseV1))
  | StatusStaged (epoch : N) (handoff : HandoffId).

Inductive CustodyLedgerRecord : Type :=
  | CInitialized (home : HomeId) (epoch route_sequence : N) (coordinator : string)
  | CRouteRebound (route_sequence : N) (coordinator : string)
  | CFrozen (grant : SignedRecordV1 CustodyGrantV1) (checkpoint : SignedRecordV1 HomeCheckpointV1)
  | CPrepared (prepared : SignedRecordV1 CustodyPreparedV1)
  | CStaged (prepared : SignedRecordV1 CustodyPreparedV1)
  | CStagingReceipt (staged : SignedRecordV1 CustodyStagedV1)
  | CActivated (staged_hash : string) (lease : HomeLeaseV1)
  | CLeaseRebound (lease : HomeLeaseV1)
  | CRedirect (lease : SignedRecordV1 HomeLeaseV1).

#[export] Instance HomeLeaseV1_eq_dec : EqDecision HomeLeaseV1.
Proof. solve_decision. Defined.

Definition status (c : CustodyState) : HomeCustodyStatus :=
  match c with
  | CustodyActive epoch handoff _ _ _ => StatusActive epoch handoff
  | CustodyFrozen grant _ _ redirect =>
      StatusFrozen (cg_from_epoch (sr_payload grant)) (cg_handoff (sr_payload grant)) redirect
  | CustodyStaged prepared _ =>
      let grant := cp_grant (sr_payload prepared) in
      StatusStaged (cg_to_epoch (sr_payload grant)) (cg_handoff (sr_payload grant))
  end.

Definition active_coordinator (c : CustodyState) : option string :=
  match c with
  | CustodyActive _ _ _ coordinator _ => Some coordinator
  | CustodyFrozen _ _ _ _ | CustodyStaged _ _ => None
  end.

Definition custody_reservations (c : CustodyState) : N :=
  match c with
  | CustodyActive _ _ _ _ _ => 2
  | CustodyFrozen _ _ None _ => 1
  | CustodyFrozen _ _ (Some _) _ => 0
  | CustodyStaged _ None => 4
  | CustodyStaged _ (Some _) => 3
  end.

Definition u64_checked_add (a b : N) : option N := try_from u64_MAX (a + b).

(** ** Verification *)

Section custody.
  Context `{!Sha256} `{!JsonText} `{!Ed25519} `{!WireSerde} `{!CustodySerde}.

Definition same_record {T} `{!ToValue T} (left right : SignedRecordV1 T) : result HomeError bool :=
  l ← invalid (canonical_hash left);
  r ← invalid (canonical_hash right);
  Ok (bool_decide (l = r)).

Definition verify_source_checkpoint (config : HomeConfig)
    (checkpoint : SignedRecordV1 HomeCheckpointV1) : result HomeError unit :=
  _ ← invalid (SignedRecordV1_validate HomeCheckpointV1_validate checkpoint);
  if unsigned SCHEMA_HOME_V1 checkpoint
     || bool_decide (sr_signer checkpoint ≠ operational_key (cf_authority config))
     || bool_decide (hc_home (sr_payload checkpoint) ≠ cf_home config)
     || bool_decide (hc_epoch (sr_payload checkpoint) ≠ cf_epoch config) then
    Err (HUnauthorized "checkpoint is not signed by this Home epoch")
  else
    invalid (HomeAuthorityV1_verify (cf_authority config) (cf_home config) (cf_epoch config)
               CapCustody).

Definition verify_source_handoff (config : HomeConfig) (grant : SignedRecordV1 CustodyGrantV1)
    (checkpoint : SignedRecordV1 HomeCheckpointV1) : result HomeError unit :=
  let g := sr_payload grant in
  _ ← invalid (verify_custody_grant grant);
  _ ← invalid (verify_handoff_checkpoint grant checkpoint);
  _ ← verify_source_checkpoint config checkpoint;
  if bool_decide (cg_home g ≠ cf_home config)
     || bool_decide (cg_from_epoch g ≠ cf_epoch config)
     || bool_decide (cg_source_realm g ≠ cf_realm config)
     || bool_decide (cg_source_node g ≠ cf_node config)
     || bool_decide (cg_source_authority g ≠ cf_authority config) then
    Err (HUnauthorized "custody grant does not authorize this exact source epoch/location")
  else Ok tt.

Definition verify_destination_handoff (config : HomeConfig) (signer_key : string)
    (grant : SignedRecordV1 CustodyGrantV1) (checkpoint : SignedRecordV1 HomeCheckpointV1) :
    result HomeError unit :=
  let g := sr_payload grant in
  _ ← invalid (verify_handoff_checkpoint grant checkpoint);
  if bool_decide (cg_home g ≠ cf_home config)
     || bool_decide (cg_to_epoch g ≠ cf_epoch config)
     || bool_decide (cg_destination_realm g ≠ cf_realm config)
     || bool_decide (cg_destination_node g ≠ cf_node config)
     || bool_decide (cg_destination_operational_key g ≠ ha_operational (cf_authority config))
     || bool_decide (ha_abode (cg_source_authority g) ≠ ha_abode (cf_authority config))
     || bool_decide (signer_key
          ≠ og_operational_public_key (sr_payload (cg_destination_operational_key g))) then
    Err (HUnauthorized
      "custody grant does not authorize this exact destination epoch/location/key")
  else Ok tt.

Definition redirect_matches_grant (lease : HomeLeaseV1) (grant : SignedRecordV1 CustodyGrantV1) :
    bool :=
  let p := sr_payload grant in
  bool_decide (hl_home lease = cg_home p)
  && bool_decide (hl_epoch lease = cg_to_epoch p)
  && bool_decide (hl_handoff lease = Some (cg_handoff p))
  && bool_decide (hl_checkpoint_hash lease = cg_checkpoint_hash p)
  && bool_decide (hl_realm lease = cg_destination_realm p)
  && bool_decide (hl_node lease = cg_destination_node p)
  && bool_decide (ha_operational (hl_authority lease) = cg_destination_operational_key p)
  && bool_decide (hl_custody_grant lease = Some grant).

Definition destination_lease (config : HomeConfig) (grant : SignedRecordV1 CustodyGrantV1)
    (checkpoint : SignedRecordV1 HomeCheckpointV1) : result HomeError HomeLeaseV1 :=
  checkpoint_hash ← invalid (canonical_hash checkpoint);
  let lease :=
    mkHomeLeaseV1 (cf_home config) (cf_epoch config) 1 (cf_realm config) (cf_node config)
      (cf_coordinator config) (cf_authority config) (Some (cg_handoff (sr_payload grant)))
      (Some grant) checkpoint_hash None None in
  _ ← invalid (HomeLeaseV1_validate lease);
  Ok lease.

Definition with_coordinator (coordinator : string) (l : HomeLeaseV1) : HomeLeaseV1 :=
  mkHomeLeaseV1 (hl_home l) (hl_epoch l) (hl_lease_sequence l) (hl_realm l) (hl_node l) coordinator
    (hl_authority l) (hl_handoff l) (hl_custody_grant l) (hl_checkpoint_hash l)
    (hl_issued_at_unix_ms l) (hl_expires_at_unix_ms l).

Definition invalid_transition : result HomeError CustodyState :=
  Err (HState "custody journal contains an invalid state transition").

(** ** The state machine *)

Definition apply_custody_record (config : HomeConfig) (state : option CustodyState)
    (record : CustodyLedgerRecord) (signer : string) (allow_initialized : bool) :
    result HomeError CustodyState :=
  if decide (signer ≠ operational_key (cf_authority config)) then
    Err (HUnauthorized "custody record is not signed by the configured active epoch key")
  else
    match state, record with
    | None, CInitialized home epoch route_sequence coordinator =>
        if allow_initialized && bool_decide (home = cf_home config) && bool_decide (epoch = 1)
           && bool_decide (cf_epoch config = 1) && bool_decide (route_sequence = 1)
           && negb (is_blank coordinator)
        then Ok (CustodyActive epoch None route_sequence coordinator None)
        else invalid_transition
    | Some (CustodyActive epoch handoff route_sequence _ None), CRouteRebound next coordinator =>
        if bool_decide (epoch = 1) && bool_decide (route_sequence < next)
           && negb (is_blank coordinator)
        then Ok (CustodyActive epoch handoff next coordinator None)
        else invalid_transition
    | None, CStaged prepared =>
        _ ← invalid (verify_custody_prepared prepared);
        _ ← verify_destination_handoff config signer (cp_grant (sr_payload prepared))
              (cp_checkpoint (sr_payload prepared));
        Ok (CustodyStaged prepared None)
    | Some (CustodyActive epoch _ _ _ _), CFrozen grant checkpoint =>
        if decide (epoch = cf_epoch config) then
          _ ← verify_source_handoff config grant checkpoint;
          Ok (CustodyFrozen grant checkpoint None None)
        else invalid_transition
    | Some (CustodyFrozen grant checkpoint None redirect), CPrepared prepared =>
        _ ← invalid (verify_custody_prepared prepared);
        same_grant ← same_record (cp_grant (sr_payload prepared)) grant;
        same ← (if negb same_grant then Ok false
                else same_record (cp_checkpoint (sr_payload prepared)) checkpoint);
        if negb same then
          Err (HConflict "prepared proof does not continue the exact frozen handoff")
        else Ok (CustodyFrozen grant checkpoint (Some prepared) redirect)
    | Some (CustodyStaged prepared None), CStagingReceipt staged =>
        _ ← invalid (verify_custody_staged staged);
        same ← same_record (st_prepared (sr_payload staged)) prepared;
        if negb same then
          Err (HConflict "staging receipt does not continue the exact staged handoff")
        else Ok (CustodyStaged prepared (Some staged))
    | Some (CustodyStaged prepared (Some staged)), CActivated staged_hash lease =>
        let grant := cp_grant (sr_payload prepared) in
        expected ← destination_lease config grant (cp_checkpoint (sr_payload prepared));
        staged_expected ← invalid (canonical_hash staged);
        if bool_decide (staged_hash ≠ staged_expected)
           || bool_decide (lease ≠ with_coordinator (hl_coordinator lease) expected) then
          Err (HConflict "activation does not continue the exact staging receipt")
        else
          Ok (CustodyActive (cf_epoch config) (Some (cg_handoff (sr_payload grant)))
                (hl_lease_sequence lease) (hl_coordinator lease) (Some (staged, lease)))
    | Some (CustodyActive epoch handoff _ _ (Some (staged, current))), CLeaseRebound lease =>
        _ ← invalid (HomeLeaseV1_validate lease);
        if negb (is_home_lease_coordinator_revision current lease) then
          Err (HConflict "coordinator rebound changed an immutable Home lease binding")
        else
          Ok (CustodyActive epoch handoff (hl_lease_sequence lease) (hl_coordinator lease)
                (Some (staged, lease)))
    | Some (CustodyFrozen grant checkpoint prepared redirect), CRedirect lease =>
        _ ← invalid (verify_home_lease lease);
        if negb (redirect_matches_grant (sr_payload lease) grant) then
          Err (HConflict "redirect does not match frozen handoff")
        else if match redirect with
                | Some current =>
                    bool_decide (current ≠ lease)
                    && negb (is_home_lease_coordinator_revision (sr_payload current)
                               (sr_payload lease))
                | None => false
                end then
          Err (HConflict "redirect revision changed an immutable Home lease binding")
        else Ok (CustodyFrozen grant checkpoint prepared (Some lease))
    | _, _ => invalid_transition
    end.

(** The replay loop of [open_custody_journal]. *)
Fixpoint replay_custody (config : HomeConfig) (allow_initialized : bool)
    (state : option CustodyState) (records : list (SignedRecordV1 (ChainEntry CustodyLedgerRecord))) :
    result HomeError (option CustodyState) :=
  match records with
  | [] => Ok state
  | record :: records =>
      next ← apply_custody_record config state (ce_event (sr_payload record)) (sr_signer record)
               allow_initialized;
      replay_custody config allow_initialized (Some next) records
  end.
End custody.

(** ** The world of a Home with its custody journal *)

(** [k_journal] is the custody journal, [k_disk] its files, [k_appends] counts
    the appends attempted on it. *)
Record CustodyWorld : Type := mkCustodyWorld {
  k_home : HomeWorld CustodyLedgerRecord;
  k_journal : Journal;
  k_disk : Disk;
  k_appends : nat
}.

Definition k_config (k : CustodyWorld) : HomeConfig := w_config (k_home k).
Definition k_custody (k : CustodyWorld) : CustodyState := hs_custody (w_state (k_home k)).
Definition k_records (k : CustodyWorld) : Inner CustodyLedgerRecord :=
  fh_custody_records (w_home (k_home k)).

Definition with_custody_records (inner : Inner CustodyLedgerRecord)
    (h : FunctionHome CustodyLedgerRecord) : FunctionHome CustodyLedgerRecord :=
  mkFunctionHome (fh_config h) (fh_journal h) (fh_records h) inner (fh_operational_failure h).
Definition with_failure (failure : string) (h : FunctionHome CustodyLedgerRecord) :
    FunctionHome CustodyLedgerRecord :=
  mkFunctionHome (fh_config h) (fh_journal h) (fh_records h) (fh_custody_records h) (Some failure).
Definition with_home_coordinator (coordinator : string) (h : FunctionHome CustodyLedgerRecord) :
    FunctionHome CustodyLedgerRecord :=
  let c := fh_config h in
  mkFunctionHome
    (mkHomeConfig (cf_home c) (cf_epoch c) coordinator (cf_realm c) (cf_node c) (cf_authority c)
       (cf_historical_authorities c) (cf_max_jobs c) (cf_max_checkpoint_bytes c) (cf_journal_caps c))
    (fh_journal h) (fh_records h) (fh_custody_records h) (fh_operational_failure h).

Definition with_custody (c : CustodyState) (s : HomeState) : HomeState :=
  mkHomeState (hs_jobs s) (hs_request_hashes s) (hs_grants s) (hs_receipts s)
    (hs_highest_receipt_sequences s) (hs_observation_counts s) (hs_highest_progress_sequences s)
    (hs_highest_checkpoint_sequences s) (hs_controls s) (hs_control_counts s)
    (hs_forwarded_controls s) (hs_child_spawns s) (hs_nonterminal_jobs s)
    (hs_unacknowledged_forwarded_controls s) (hs_next_grant_sequence s) c.

Definition on_world (f : HomeWorld CustodyLedgerRecord → HomeWorld CustodyLedgerRecord)
    (k : CustodyWorld) : CustodyWorld :=
  mkCustodyWorld (f (k_home k)) (k_journal k) (k_disk k) (k_appends k).
Definition on_function_home
    (f : FunctionHome CustodyLedgerRecord → FunctionHome CustodyLedgerRecord)
    (w : HomeWorld CustodyLedgerRecord) : HomeWorld CustodyLedgerRecord :=
  mkHomeWorld (f (w_home w)) (w_state w) (w_disk w) (w_binding w) (w_sweep w) (w_me w) (w_appends w).
Definition on_home_state (f : HomeState → HomeState) (w : HomeWorld CustodyLedgerRecord) :
    HomeWorld CustodyLedgerRecord :=
  mkHomeWorld (w_home w) (f (w_state w)) (w_disk w) (w_binding w) (w_sweep w) (w_me w) (w_appends w).
Definition set_me (me : N) (w : HomeWorld CustodyLedgerRecord) : HomeWorld CustodyLedgerRecord :=
  mkHomeWorld (w_home w) (w_state w) (w_disk w) (w_binding w) (w_sweep w) (Some me) (w_appends w).

(** [state.custody = custody]. *)
Definition set_custody (c : CustodyState) : CustodyWorld → CustodyWorld :=
  on_world (on_home_state (with_custody c)).

Definition custodyM : Type → Type := stateR CustodyWorld HomeError.
#[export] Instance custodyM_ret : MRet custodyM := stateR_ret.
#[export] Instance custodyM_bind : MBind custodyM := stateR_bind.
Definition must {A} (r : result HomeError A) : custodyM A := lift_result r.

(** An operation of the Home in the extended world. *)
Definition in_home {A} (m : opM CustodyLedgerRecord A) : custodyM A :=
  fun k => let (r, w) := m (k_home k) in
           (r, mkCustodyWorld w (k_journal k) (k_disk k) (k_appends k)).

Section operations.
  Context `{!Sha256} `{!JsonText} `{!Ed25519} `{!WireSerde} `{!CustodySerde}.
  Context `{!HomeServices} `{!ArchiveSerde} `{!CheckpointBlobStore} `{!Allocator}.
  Context `{!ToValue CustodyLedgerRecord} (cio : nat → AppendIo).

Definition custody_capacity {T} (journal : Journal) (inner : Inner T) (reserved_after : N)
    (operation : string) : result HomeError unit :=
  remaining ← journal_err (remaining_records journal inner);
  if decide (remaining ≤ reserved_after) then
    Err (HCapacity ("custody journal cannot append " +:+ operation +:+ "; "
                    +:+ dec reserved_after +:+ " later safety records are reserved"))
  else Ok tt.
Definition require_custody_capacity (reserved_after : N) (operation : string) : custodyM unit :=
  fun k => (custody_capacity (k_journal k) (k_records k) reserved_after operation, k).

(** [self.custody_journal.append(record)]. *)
Definition append_custody (record : CustodyLedgerRecord) : custodyM unit :=
  fun k =>
    let '(r, inner, d) :=
      append (k_journal k) (cio (k_appends k)) record (k_records k) (k_disk k) in
    (_ ← journal_err r; Ok tt,
     mkCustodyWorld (on_function_home (with_custody_records inner) (k_home k)) (k_journal k) d
       (S (k_appends k))).

(** Both journals are trusted. *)
Definition journals_healthy : custodyM unit :=
  fun k =>
    (_ ← journal_err (ensure_healthy (fh_records (w_home (k_home k))));
     journal_err (ensure_healthy (k_records k)), k).

Definition refresh_runtime_route (coordinator : string) : custodyM unit :=
  _ ← in_home authoritative;
  custody ← gets k_custody;
  match custody with
  | CustodyActive epoch handoff route_sequence current activation =>
      if decide (current = coordinator) then mret tt
      else
        match activation with
        | Some _ =>
            must (Err (HState "moved Home bind did not durably refresh its lease before opening"))
        | None =>
            next ← must (ok_or (u64_checked_add route_sequence 1)
                          (HState "home route sequence is exhausted"));
            _ ← require_custody_capacity 2 "genesis route refresh";
            _ ← append_custody (CRouteRebound next coordinator);
            modify (set_custody (CustodyActive epoch handoff next coordinator None))
        end
  | CustodyFrozen _ _ _ _ | CustodyStaged _ _ =>
      must (Err (HState "only an active Home may refresh its route"))
  end.

Definition create_checkpoint (created_at_unix_ms : option N) :
    custodyM (SignedRecordV1 HomeCheckpointV1) :=
  _ ← in_home authoritative;
  state ← gets (fun k => w_state (k_home k));
  h ← gets (fun k => w_home (k_home k));
  let cf := fh_config h in
  rewrap_overlay ← must (effective_rewrap_overlay cf state);
  _ ← must (journal_err (ensure_healthy (fh_records h)));
  let records := in_records (fh_records h) in
  let log_root := in_tip_hash (fh_records h) in
  b ← must (encode_checkpoint_archive (cf_max_checkpoint_bytes cf) cf records log_root rewrap_overlay);
  blob ← must (blob_err "checkpoint store refused bytes: " (put_checkpoint CHECKPOINT_MEDIA_TYPE b));
  _ ← must (verify_blob_bytes blob b);
  _ ← must (blob_err "checkpoint is not durable: " (blob_available blob));
  checkpoint ← must (signing (SignedRecordV1_sign SCHEMA_HOME_V1
    (mkHomeCheckpointV1 (cf_home cf) (cf_epoch cf) (N.of_nat (length records)) log_root blob
       created_at_unix_ms) svc_signer));
  _ ← must (verify_source_checkpoint cf checkpoint);
  mret checkpoint.

(** Whether the Home is already frozen for exactly this handoff. *)
Definition already_frozen (custody : CustodyState) (grant : SignedRecordV1 CustodyGrantV1)
    (checkpoint : SignedRecordV1 HomeCheckpointV1) : result HomeError bool :=
  same ← match custody return result HomeError bool with
         | CustodyFrozen existing_grant existing_checkpoint _ _ =>
             same_grant ← same_record existing_grant grant;
             if negb same_grant then Ok false else same_record existing_checkpoint checkpoint
         | CustodyActive _ _ _ _ _ | CustodyStaged _ _ => Ok false
         end;
  if negb same then _ ← ensure_writable custody; Ok false else Ok true.

(** The rewrap inventory a grant commits to. *)
Definition prepared_inventory (grant : SignedRecordV1 CustodyGrantV1)
    (archive : HomeCheckpointArchiveV1) : result HomeError (option string * option N) :=
  match cg_destination_rewrap (sr_payload grant) with
  | Some requirement =>
      built ← build_rewrap_inventory archive requirement;
      let inventory : list CustodyRewrapSourceV1 := built.1 in
      item_count ← inventory_count inventory;
      Ok (Some built.2, Some item_count)
  | None => Ok (None, None)
  end.

(** The append of the irreversible fence: the Home is frozen in memory whether or
    not the append is known to have reached the disk. *)
Definition append_fence (grant : SignedRecordV1 CustodyGrantV1)
    (checkpoint : SignedRecordV1 HomeCheckpointV1) : custodyM unit :=
  fun k =>
    let (r, k) := append_custody (CFrozen grant checkpoint) k in
    (r, set_custody (CustodyFrozen grant checkpoint None None) k).
Definition freeze (grant : SignedRecordV1 CustodyGrantV1)
    (checkpoint : SignedRecordV1 HomeCheckpointV1) : custodyM unit :=
  _ ← require_custody_capacity 1 "source Frozen fence";
  append_fence grant checkpoint.

(** The proof the frozen source signs and keeps. *)
Definition prove_prepared (grant : SignedRecordV1 CustodyGrantV1)
    (checkpoint : SignedRecordV1 HomeCheckpointV1) (rewrap_inventory_hash : option string)
    (rewrap_item_count : option N) : custodyM (SignedRecordV1 CustodyPreparedV1) :=
  cf ← gets k_config;
  grant_hash ← must (invalid (canonical_hash grant));
  checkpoint_hash ← must (invalid (canonical_hash checkpoint));
  prepared ← must (signing (SignedRecordV1_sign SCHEMA_HOME_V1
    (mkCustodyPreparedV1 grant checkpoint grant_hash checkpoint_hash
       (hc_log_root (sr_payload checkpoint)) (cf_coordinator cf) rewrap_inventory_hash
       rewrap_item_count) svc_signer));
  _ ← must (invalid (verify_custody_prepared prepared));
  _ ← require_custody_capacity 0 "source Prepared proof";
  _ ← append_custody (CPrepared prepared);
  custody ← gets k_custody;
  match custody with
  | CustodyFrozen frozen_grant frozen_checkpoint _ redirect =>
      _ ← modify (set_custody
            (CustodyFrozen frozen_grant frozen_checkpoint (Some prepared) redirect));
      mret prepared
  | CustodyActive _ _ _ _ _ | CustodyStaged _ _ =>
      must (Err (HState "source lost its Frozen fence while preparing"))
  end.

Definition prepare_handoff (grant : SignedRecordV1 CustodyGrantV1)
    (checkpoint : SignedRecordV1 HomeCheckpointV1) : custodyM PreparedHandoff :=
  _ ← journals_healthy;
  cf ← gets k_config;
  _ ← must (verify_source_handoff cf grant checkpoint);
  _ ← match cg_destination_rewrap (sr_payload grant) with
      | Some requirement =>
          binding ← in_home current_recipient_binding;
          must (reject (bool_decide (binding ≠ cr_source_binding requirement))
                 (HUnauthorized
                    "custody grant source binding is not the current Home recipient binding"))
      | None => mret tt
      end;
  _ ← journals_healthy;
  custody ← gets k_custody;
  frozen ← must (already_frozen custody grant checkpoint);
  h ← gets (fun k => w_home (k_home k));
  _ ← must (reject
        (negb frozen
         && (bool_decide (N.of_nat (length (in_records (fh_records h)))
                          ≠ hc_high_water_mark (sr_payload checkpoint))
             || bool_decide (in_tip_hash (fh_records h) ≠ hc_log_root (sr_payload checkpoint))))
        (HConflict "checkpoint became stale before the source fence"));
  archive ← must (read_archive cf checkpoint);
  _ ← must (validate_archive cf checkpoint archive);
  _ ← must (verify_required_blobs archive);
  inventory ← must (prepared_inventory grant archive);
  let rewrap_inventory_hash : option string := inventory.1 in
  let rewrap_item_count : option N := inventory.2 in
  _ ← (if negb frozen then freeze grant checkpoint else mret tt);
  custody ← gets k_custody;
  match custody with
  | CustodyFrozen _ _ (Some prepared) _ =>
      _ ← must (reject
            (bool_decide (cp_rewrap_inventory_hash (sr_payload prepared) ≠ rewrap_inventory_hash)
             || bool_decide (cp_rewrap_item_count (sr_payload prepared) ≠ rewrap_item_count))
            (HConflict "persisted Prepared proof differs from the recovered exact inventory"));
      mret (mkPreparedHandoff grant checkpoint prepared)
  | _ =>
      prepared ← prove_prepared grant checkpoint rewrap_inventory_hash rewrap_item_count;
      mret (mkPreparedHandoff grant checkpoint prepared)
  end.

Definition record_handoff_redirect (lease : SignedRecordV1 HomeLeaseV1) : custodyM unit :=
  _ ← journals_healthy;
  _ ← must (invalid (verify_home_lease lease));
  _ ← must (reject (bool_decide (sr_schema lease ≠ SCHEMA_LOCATE_V1))
        (HInvalid "redirect lease uses the wrong schema"));
  _ ← journals_healthy;
  custody ← gets k_custody;
  match custody with
  | CustodyFrozen grant checkpoint prepared redirect =>
      _ ← must (reject (negb (redirect_matches_grant (sr_payload lease) grant))
            (HUnauthorized "activation lease does not match the frozen custody grant"));
      let revise : custodyM unit :=
        _ ← append_custody (CRedirect lease);
        modify (set_custody (CustodyFrozen grant checkpoint prepared (Some lease))) in
      match redirect with
      | Some existing =>
          if decide (existing = lease) then mret tt
          else
            _ ← must (reject
                  (negb (is_home_lease_coordinator_revision (sr_payload existing)
                           (sr_payload lease)))
                  (HConflict "a different redirect is already retained for this handoff"));
            revise
      | None => revise
      end
  | CustodyActive _ _ _ _ _ | CustodyStaged _ _ =>
      must (Err (HState "only a frozen source can retain a redirect"))
  end.
End operations.
