(* ===== verification/CustodyLaws.v ===== *)
(** * Laws of custody

    The fence of a source Home is irreversible, what a Home holds in memory is what
    its custody journal replays to, and a fenced Home is inert: no call changes
    its ledger any more, so the ledger stays the one the checkpoint describes. *)

From S2P Require Import Prelude Serde GxShape GxHash FnCrypto FnTypes FnWire FnCustody.
From S2P Require Import FnMessages Journal HomeLedger HomeLaws HomeGrowth HomeApi HomeProtocol.
From S2P Require Import HomeApiLaws CustodyArchive HomeCustody.

(** ** The ledger does not touch custody *)

Section keeping.
  Context `{!Sha256} `{!JsonText} `{!Ed25519} `{!WireSerde} (cf : HomeConfig).

Definition keeps {A} (m : homeM A) : Prop := ∀ s, hs_custody (m s).2 = hs_custody s.

Lemma keeps_bind {A B} (m : homeM A) (f : A → homeM B) :
  keeps m → (∀ a, keeps (f a)) → keeps (m ≫= f).
Proof.
  intros Hm Hf s. unfold mbind, homeM_bind, stateR_bind. specialize (Hm s).
  destruct (m s) as [[a|e] s1]; cbn in *; [|done]. by rewrite Hf.
Qed.
Lemma keeps_ret {A} (a : A) : keeps (mret a).
Proof. done. Qed.
Lemma keeps_lift {A} (r : result HomeError A) : keeps (lift_result r).
Proof. done. Qed.
Lemma keeps_gets {A} (f : HomeState → A) : keeps (gets f).
Proof. done. Qed.
Lemma keeps_modify f : (∀ s, hs_custody (f s) = hs_custody s) → keeps (modify f).
Proof. done. Qed.
End keeping.

Ltac keeps_step :=
  match goal with
  | |- keeps (_ ≫= _) => apply keeps_bind; [|intros ?]
  | |- keeps (mret _) => apply keeps_ret
  | |- keeps (lift_result _) => apply keeps_lift
  | |- keeps (gets _) => apply keeps_gets
  | |- keeps (guard_or _ _) => unfold guard_or
  | |- keeps (fail _) => unfold fail
  | |- keeps (check _ _) => unfold check
  | |- keeps (update_job _ _) => unfold update_job
  | |- keeps (modify _) => apply keeps_modify; done
  | |- keeps (match ?x with _ => _ end) => destruct x
  | |- keeps (if ?x then _ else _) => destruct x
  | |- keeps (index_home_control _ _) => unfold index_home_control
  | |- keeps (forward_control _ _ _ _) => unfold forward_control
  | |- keeps (insert_grant _ _) => unfold insert_grant
  | |- keeps (check_stage_sequence _ _) => unfold check_stage_sequence
  | |- keeps (raise_stage_sequence _ _) => unfold raise_stage_sequence
  | |- keeps (index_home_control_receipt _ _) => unfold index_home_control_receipt
  | |- keeps (apply_event_kind _ _ _) => unfold apply_event_kind
  end.
Ltac keeps_go := repeat keeps_step.

Section ledger.
  Context `{!Sha256} `{!JsonText} `{!Ed25519} `{!WireSerde} (cf : HomeConfig).

Lemma apply_job_event_keeps event : keeps (apply_job_event cf event).
Proof. unfold apply_job_event, apply_submitted, advance_job. keeps_go. Qed.

Lemma apply_ledger_record_keeps record : keeps (apply_ledger_record cf record).
Proof.
  unfold apply_ledger_record, when_some, apply_grant, apply_receipt. keeps_go.
  induction (lr_events record) as [|e l IH]; cbn [apply_events]; keeps_go; [|done].
  apply apply_job_event_keeps.
Qed.
End ledger.

(** ** Home calls and custody *)

Section calls.
  Context `{!Sha256} `{!JsonText} `{!Ed25519} `{!WireSerde} `{!CustodySerde} `{!MessageSerde}.
  Context `{!HomeServices} {C : Type} (io : nat → AppendIo).
  Implicit Types w : HomeWorld C.

(** The same ledger, in memory and on disk. *)
Record inert w w' : Prop := {
  it_home : w_home w' = w_home w;
  it_state : w_state w' = w_state w;
  it_disk : w_disk w' = w_disk w
}.

Lemma inert_refl w : inert w w.
Proof. done. Qed.
Lemma inert_trans w1 w2 w3 : inert w1 w2 → inert w2 w3 → inert w1 w3.
Proof. intros [] []. constructor; congruence. Qed.
Lemma unchanged_inert w w' : unchanged w w' → inert w w'.
Proof. intros []. by constructor. Qed.

Lemma persist_custody record w r w' :
  persist io record w = (r, w') →
  hs_custody (w_state w') = hs_custody (w_state w)
  ∧ fh_custody_records (w_home w') = fh_custody_records (w_home w)
  ∧ fh_config (w_home w') = fh_config (w_home w).
Proof.
  unfold persist, persist_and_apply. destruct (check_record _ _ _); [|by intros [= _ <-]].
  destruct (append _ _ _ _ _) as [[[x|e] inner] d]; [|by intros [= _ <-]].
  pose proof (apply_ledger_record_keeps (fh_config (w_home w)) record (w_state w)) as K.
  destruct (apply_ledger_record _ _ _) as [res s]. cbn in K. by intros [= _ <-].
Qed.

Lemma moves_custody w w' :
  moves io w w' →
  hs_custody (w_state w') = hs_custody (w_state w)
  ∧ fh_custody_records (w_home w') = fh_custody_records (w_home w)
  ∧ fh_config (w_home w') = fh_config (w_home w).
Proof.
  induction 1 as [w w' U|w w1 record r w2 w3 M (I1 & I2 & I3) P R U].
  - by rewrite (un_state _ _ U), (un_home _ _ U).
  - apply persist_custody in R as (R1 & R2 & R3).
    rewrite (un_state _ _ U), (un_home _ _ U). split_and!; congruence.
Qed.

Lemma authoritative_writable (h : FunctionHome C) s u :
  ensure_authoritative_state h s = Ok u → is_ok (ensure_writable (hs_custody s)) = true.
Proof.
  unfold ensure_authoritative_state. destruct (fh_operational_failure h); [done|].
  intros E. inv_result. by destruct (ensure_writable _).
Qed.

Lemma persist_fenced record w r w' :
  is_ok (ensure_writable (hs_custody (w_state w))) = false →
  persist io record w = (r, w') → inert w w'.
Proof.
  intros Hw. unfold persist, persist_and_apply.
  destruct (check_record _ _ _) as [u|e] eqn:Ec; [|intros E; by simplify_eq].
  unfold check_record in Ec. inv_result.
  match goal with H : ensure_authoritative_state _ _ = _ |- _ => apply authoritative_writable in H end.
  congruence.
Qed.

Lemma moves_inert w w' :
  moves io w w' → is_ok (ensure_writable (hs_custody (w_state w))) = false → inert w w'.
Proof.
  induction 1 as [w w' U|w w1 record r w2 w3 M IH P R U]; intros Hw.
  - by apply unchanged_inert.
  - specialize (IH Hw). eapply inert_trans; [exact IH|].
    eapply inert_trans; [|by apply unchanged_inert].
    eapply persist_fenced; [|exact R]. by rewrite (it_state _ _ IH).
Qed.

(** Work of a Home: records of the protocol, and changes outside the ledger. *)
Definition works : HomeWorld C → HomeWorld C → Prop :=
  rtc (fun w w' => moves io w w' ∨ inert w w').

Lemma works_moves w w' : moves io w w' → works w w'.
Proof. intros. apply rtc_once. by left. Qed.
Lemma works_aside w w' : inert w w' → works w w'.
Proof. intros. apply rtc_once. by right. Qed.

Lemma works_custody w w' :
  works w w' →
  hs_custody (w_state w') = hs_custody (w_state w)
  ∧ fh_custody_records (w_home w') = fh_custody_records (w_home w)
  ∧ fh_config (w_home w') = fh_config (w_home w).
Proof.
  induction 1 as [w|w w1 w2 [M|I] _ (I1 & I2 & I3)]; [done|..].
  - apply moves_custody in M as (M1 & M2 & M3). split_and!; congruence.
  - rewrite (it_home _ _ I), (it_state _ _ I) in *. done.
Qed.

Lemma works_inert w w' :
  works w w' → is_ok (ensure_writable (hs_custody (w_state w))) = false → inert w w'.
Proof.
  induction 1 as [w|w w1 w2 S _ IH]; intros Hw; [done|].
  assert (inert w w1) as I by (destruct S; [by apply moves_inert|done]).
  eapply inert_trans; [exact I|]. apply IH. by rewrite (it_state _ _ I).
Qed.
End calls.

(** ** Replay *)

Lemma lease_revision_later current next :
  is_home_lease_coordinator_revision current next = true →
  hl_lease_sequence current < hl_lease_sequence next.
Proof. unfold is_home_lease_coordinator_revision. intros E. by repeat (apply andb_true_iff in E as [E ?]); to_prop. Qed.

Section replay.
  Context `{!Sha256} `{!JsonText} `{!Ed25519} `{!WireSerde} `{!CustodySerde}.
  Context (cf : HomeConfig) (allow : bool).

Lemma replay_app state rs rs' :
  replay_custody cf allow state (rs ++ rs')
  = (state ← replay_custody cf allow state rs; replay_custody cf allow state rs').
Proof.
  revert state. induction rs as [|r rs IH]; intros state; [done|]. cbn.
  destruct (apply_custody_record _ _ _ _ _) as [next|e]; cbn; [apply IH|done].
Qed.

(** A later state of the same frozen handoff: the proof is kept, the redirect only
    moves forward. *)
Inductive frozen_later : CustodyState → CustodyState → Prop :=
  | frozen_later_intro grant checkpoint prepared redirect prepared' redirect' :
      (∀ p, prepared = Some p → prepared' = Some p) →
      (∀ l, redirect = Some l → ∃ l', redirect' = Some l'
         ∧ hl_lease_sequence (sr_payload l) ≤ hl_lease_sequence (sr_payload l')) →
      (∀ l, redirect' = Some l → redirect = Some l ∨
         redirect_matches_grant (sr_payload l) grant = true) →
      frozen_later (CustodyFrozen grant checkpoint prepared redirect)
        (CustodyFrozen grant checkpoint prepared' redirect').

Lemma frozen_later_refl grant checkpoint prepared redirect :
  frozen_later (CustodyFrozen grant checkpoint prepared redirect)
    (CustodyFrozen grant checkpoint prepared redirect).
Proof. constructor; eauto using N.le_refl. Qed.

Lemma frozen_later_trans c c' c'' : frozen_later c c' → frozen_later c' c'' → frozen_later c c''.
Proof.
  intros H1'. inversion H1' as [g k p r p' r' Hp Hr Hm]; subst. intros H2'.
  inversion H2' as [g' k' p0 r0 p'' r'' Hp' Hr' Hm']; subst.
  constructor; [by eauto| |].
  - intros l Hl. destruct (Hr l Hl) as (l' & Hl' & Hle). destruct (Hr' l' Hl') as (l'' & Hl'' & Hle').
    exists l''. split; [done|lia].
  - intros l Hl. destruct (Hm' l Hl) as [Hl'|?]; [by apply Hm|by right].
Qed.

Lemma apply_frozen grant checkpoint prepared redirect record signer next :
  apply_custody_record cf (Some (CustodyFrozen grant checkpoint prepared redirect)) record signer allow = Ok next →
  frozen_later (CustodyFrozen grant checkpoint prepared redirect) next.
Proof.
  unfold apply_custody_record. intros E. case_decide; [done|]. destruct prepared as [p|], record;
    try done; split_cases; to_prop; constructor; eauto using N.le_refl;
    intros l [= <-]; try (by right); eexists; (split; [done|]);
    match goal with H : is_home_lease_coordinator_revision _ _ = true |- _ =>
      apply lease_revision_later in H; lia end.
Qed.

Lemma replay_frozen c rs c' :
  replay_custody cf allow (Some c) rs = Ok (Some c') → frozen_later c c →
  frozen_later c c'.
Proof.
  revert c. induction rs as [|r rs IH]; intros c E F; cbn in E; [by simplify_eq|].
  inv_result. inversion F as [g k p r0 p' r' _ _ _]; subst.
  match goal with H : apply_custody_record _ _ _ _ _ = _ |- _ => apply apply_frozen in H as L end.
  eapply frozen_later_trans; [exact L|]. apply IH; [done|].
  inversion L; subst. apply frozen_later_refl.
Qed.

(** Active states of a replay are at the configured epoch, and at epoch 1 unless
    they carry an activation. *)
Definition at_epoch (c : CustodyState) : Prop :=
  match c with
  | CustodyActive epoch _ _ _ activation =>
      epoch = cf_epoch cf ∧ (activation = None → epoch = 1)
  | CustodyFrozen _ _ _ _ | CustodyStaged _ _ => True
  end.

Lemma apply_at_epoch state record signer next :
  apply_custody_record cf state record signer allow = Ok next →
  (∀ c, state = Some c → at_epoch c) → at_epoch next.
Proof.
  unfold apply_custody_record. intros E Hs. case_decide; [done|].
  destruct state as [c|]; [specialize (Hs c eq_refl)|].
  - destruct c as [epoch handoff route coordinator [[staged current]|]|g k [p|] r|p [staged|]], record;
      try done; split_cases; to_prop; cbn in *; try done; by destruct Hs.
  - destruct record; try done; split_cases; to_prop; cbn in *; by subst.
Qed.

Lemma replay_at_epoch state rs c :
  replay_custody cf allow state rs = Ok (Some c) → (∀ c, state = Some c → at_epoch c) →
  at_epoch c.
Proof.
  revert state. induction rs as [|r rs IH]; intros state E Hs; cbn in E; [simplify_eq; auto|].
  inv_result. eapply IH; [done|]. intros ? [= <-]. by eapply apply_at_epoch.
Qed.
End replay.

(** ** Operations in the extended world *)

Section calculus.
Definition kwp {A} (m : custodyM A) (Q : result HomeError A → CustodyWorld → Prop)
    (k : CustodyWorld) : Prop := Q (m k).1 (m k).2.

Lemma kwp_bind {A B} (m : custodyM A) (f : A → custodyM B) Q k :
  kwp m (fun r k' => match r with Ok a => kwp (f a) Q k' | Err e => Q (Err e) k' end) k →
  kwp (m ≫= f) Q k.
Proof.
  unfold kwp, mbind, custodyM_bind, stateR_bind. by destruct (m k) as [[a|e] k'].
Qed.
Lemma kwp_must {A} (r : result HomeError A) (Q : result HomeError A → CustodyWorld → Prop) k :
  (∀ a, r = Ok a → Q (Ok a) k) → (∀ e, Q (Err e) k) → kwp (must r) Q k.
Proof. unfold kwp. destruct r; cbn; auto. Qed.
Lemma kwp_gets {A} (f : CustodyWorld → A) (Q : result HomeError A → CustodyWorld → Prop) k :
  Q (Ok (f k)) k → kwp (gets f) Q k.
Proof. done. Qed.
Lemma kwp_ret {A} (a : A) (Q : result HomeError A → CustodyWorld → Prop) k :
  Q (Ok a) k → kwp (mret a) Q k.
Proof. done. Qed.
Lemma kwp_modify f (Q : result HomeError unit → CustodyWorld → Prop) k :
  Q (Ok tt) (f k) → kwp (modify f) Q k.
Proof. done. Qed.
Lemma kwp_run {A} (m : custodyM A) (Q : result HomeError A → CustodyWorld → Prop) k r k' :
  kwp m Q k → m k = (r, k') → Q r k'.
Proof. unfold kwp. intros HQ E. by rewrite E in HQ. Qed.
Lemma kwp_mono {A} (m : custodyM A) (P Q : result HomeError A → CustodyWorld → Prop) k :
  kwp m P k → (∀ r k', P r k' → Q r k') → kwp m Q k.
Proof. unfold kwp. auto. Qed.
End calculus.

Lemma append_healthy `{!Sha256} `{!JsonText} {T} `{!ToValue T} j io (event : T) inner d r inner' d' :
  append j io event inner d = (Ok r, inner', d') → in_healthy inner = true.
Proof. unfold append. by destruct (in_healthy inner). Qed.

Lemma sign_fields `{!JsonText} {T} `{!ToValue T} schema (payload : T) signer r :
  SignedRecordV1_sign schema payload signer = Ok r →
  sr_payload r = payload ∧ sr_signer r = as_public_key signer.
Proof. unfold SignedRecordV1_sign. intros E. by split_cases. Qed.

Section subroutines.
  Context `{!Sha256} `{!JsonText} `{!Ed25519} `{!WireSerde} `{!CustodySerde}.
  Context `{!HomeServices} `{!ToValue CustodyLedgerRecord} (cio : nat → AppendIo).

Lemma kwp_healthy (Q : result HomeError unit → CustodyWorld → Prop) k :
  (in_healthy (fh_records (w_home (k_home k))) = true → in_healthy (k_records k) = true →
     Q (Ok tt) k) → (∀ e, Q (Err e) k) → kwp journals_healthy Q k.
Proof.
  unfold kwp, journals_healthy, ensure_healthy. cbn. intros Hok He.
  destruct (in_healthy (fh_records _)), (in_healthy (k_records k)); cbn; auto.
Qed.

Lemma kwp_capacity reserved operation (Q : result HomeError unit → CustodyWorld → Prop) k :
  Q (Ok tt) k → (∀ e, Q (Err e) k) → kwp (require_custody_capacity reserved operation) Q k.
Proof.
  intros Hok He. unfold kwp, require_custody_capacity. cbn.
  destruct (custody_capacity _ _ _ _) as [[]|e]; auto.
Qed.

(** The same world but for the custody journal. *)
Record appended (k k' : CustodyWorld) : Prop := {
  ap_home : w_home (k_home k') = with_custody_records (k_records k') (w_home (k_home k));
  ap_state : w_state (k_home k') = w_state (k_home k);
  ap_disk : w_disk (k_home k') = w_disk (k_home k);
  ap_journal : k_journal k' = k_journal k
}.

Lemma append_custody_effect record k r k' :
  append_custody cio record k = (r, k') →
  appended k k'
  ∧ match r with
    | Ok _ => in_healthy (k_records k) = true
        ∧ ∃ entry, in_records (k_records k') = in_records (k_records k) ++ [entry]
            ∧ ce_event (sr_payload entry) = record
            ∧ sr_signer entry = as_public_key (jn_signer (k_journal k))
    | Err _ => in_healthy (k_records k') = true → k_records k' = k_records k
    end.
Proof.
  unfold append_custody. destruct (append _ _ _ _ _) as [[res inner] d] eqn:E.
  intros [= <- <-]. split; [by constructor|]. destruct res as [r|e]; cbn.
  - split; [by eapply append_healthy|]. exists r.
    apply append_cases in E as [(? & ? & _)|(r0 & ? & ? & rd & _ & Hs & _ & _ & _ & _ & Hrd)]; [done|].
    apply sign_fields in Hs as [Hp Hk]. destruct rd; destruct Hrd as [Hr ->]; simplify_eq.
    by rewrite Hp.
  - intros Hh. apply append_cases in E as [(? & _ & -> & _)|(r0 & ? & ? & rd & _ & _ & _ & _ & _ & _ & Hrd)];
      [done|]. by destruct rd; destruct Hrd as [Hr ->].
Qed.
End subroutines.

(** ** Steps of custody *)

Section steps.
  Context `{!Sha256} `{!JsonText} `{!Ed25519} `{!WireSerde} `{!CustodySerde} `{!MessageSerde}.
  Context `{!HomeServices} `{!ArchiveSerde} `{!CheckpointBlobStore} `{!Allocator}.
  Context `{!ToValue CustodyLedgerRecord} (io cio : nat → AppendIo).

(** The Home worked, custody did not move. *)
Record still (k k' : CustodyWorld) : Prop := {
  sl_works : works io (k_home k) (k_home k');
  sl_journal : k_journal k' = k_journal k
}.

Lemma still_refl k : still k k.
Proof. constructor; [apply rtc_refl|done]. Qed.

Lemma still_same k k' :
  still k k' → k_custody k' = k_custody k ∧ k_records k' = k_records k ∧ k_config k' = k_config k.
Proof. intros [M _]. by apply works_custody in M. Qed.

Lemma appended_same k k' :
  appended k k' → k_custody k' = k_custody k ∧ k_config k' = k_config k.
Proof.
  intros A. unfold k_custody, k_config, w_config. by rewrite (ap_state _ _ A), (ap_home _ _ A).
Qed.

(** One step: work of the Home; a record appended and applied, as the state
    machine of the journal applies it; an append that failed; or a fence whose
    append is uncertain. *)
Inductive custody_step (k : CustodyWorld) : CustodyWorld → Prop :=
  | step_still k' : still k k' → custody_step k k'
  | step_wrote record next k1 :
      append_custody cio record k = (Ok tt, k1) →
      apply_custody_record (k_config k) (Some (k_custody k)) record
        (operational_key (cf_authority (k_config k))) true = Ok next →
      custody_step k (set_custody next k1)
  | step_failed record e k1 :
      append_custody cio record k = (Err e, k1) → custody_step k k1
  | step_uncertain grant checkpoint e k1 :
      is_ok (ensure_writable (k_custody k)) = true →
      append_custody cio (CFrozen grant checkpoint) k = (Err e, k1) →
      in_healthy (k_records k1) = false →
      custody_step k (set_custody (CustodyFrozen grant checkpoint None None) k1).

(** What a run of steps from a Home keeps. *)
Definition synced (k : CustodyWorld) : Prop :=
  as_public_key (jn_signer (k_journal k)) = operational_key (cf_authority (k_config k))
  ∧ at_epoch (k_config k) (k_custody k)
  ∧ (in_healthy (k_records k) = true →
     replay_custody (k_config k) true None (in_records (k_records k))
     = Ok (Some (k_custody k))).

Lemma step_config k k' : custody_step k k' → k_config k' = k_config k.
Proof.
  intros [k1 S|record next k1 E _|record e k1 E|grant checkpoint e k1 _ E _];
    [by apply still_same in S as (_ & _ & S)|..]; apply append_custody_effect in E as [A _];
    by apply appended_same in A as [_ A].
Qed.

Lemma step_epoch k k' :
  custody_step k k' → at_epoch (k_config k) (k_custody k) → at_epoch (k_config k') (k_custody k').
Proof.
  intros S He. rewrite (step_config _ _ S).
  destruct S as [k1 S|record next k1 E Ha|record e k1 E|grant checkpoint e k1 _ E _].
  - apply still_same in S as (-> & _). done.
  - eapply apply_at_epoch; [exact Ha|]. by intros ? [= <-].
  - apply append_custody_effect in E as [A _]. by apply appended_same in A as [-> _].
  - done.
Qed.

Lemma replay_snoc cf rs entry custody record next :
  replay_custody cf true None rs = Ok (Some custody) →
  ce_event (sr_payload entry) = record →
  apply_custody_record cf (Some custody) record (sr_signer entry) true = Ok next →
  replay_custody cf true None (rs ++ [entry]) = Ok (Some next).
Proof. intros Hr <- Ha. rewrite replay_app, Hr. cbn. by rewrite Ha. Qed.

(** A run that leaves the journal healthy wrote a record, or left custody alone. *)
Lemma steps_write k k' :
  rtc custody_step k k' → in_healthy (k_records k') = true →
  in_healthy (k_records k) = true
  ∧ (length (in_records (k_records k)) < length (in_records (k_records k'))
     ∨ length (in_records (k_records k)) = length (in_records (k_records k'))
       ∧ k_custody k' = k_custody k)%nat.
Proof.
  induction 1 as [k|k k1 k' Hs _ IH]; intros Hh; [auto|]. destruct (IH Hh) as [Hh1 IH'].
  destruct Hs as [k1 S|record next k1 E _|record e k1 E|grant checkpoint e k1 _ E Hu].
  - destruct (still_same _ _ S) as (Ec & Er & _). rewrite Er in *. by rewrite Ec in IH'.
  - apply append_custody_effect in E as [_ (Hk & entry & El & _)].
    change (k_records (set_custody next k1)) with (k_records k1) in *.
    rewrite El, length_app in IH'. cbn in IH'. split; [done|]. left. destruct IH' as [?|[? _]]; lia.
  - apply append_custody_effect in E as [A Er]. specialize (Er Hh1). rewrite Er in *.
    destruct (appended_same _ _ A) as [Ec _]. by rewrite Ec in IH'.
  - change (k_records (set_custody (CustodyFrozen grant checkpoint None None) k1))
      with (k_records k1) in Hh1. congruence.
Qed.

Lemma step_synced k k' : custody_step k k' → synced k → synced k'.
Proof.
  intros S (Hk & He & Hr). pose proof (step_epoch _ _ S He) as He'.
  pose proof (step_config _ _ S) as Hc.
  assert (k_journal k' = k_journal k) as Hj.
  { destruct S as [k1 S|record next k1 E _|record e k1 E|grant checkpoint e k1 _ E _];
      [apply S|..]; apply append_custody_effect in E as [A _]; apply (ap_journal _ _ A). }
  split_and!; [by rewrite Hj, Hc|done|]. rewrite Hc.
  destruct S as [k1 S|record next k1 E Ha|record e k1 E|grant checkpoint e k1 _ E Hu].
  - apply still_same in S as (-> & -> & _). done.
  - apply append_custody_effect in E as [_ (Hh & entry & Hn & Hev & Hs)]. intros _.
    change (k_records (set_custody next k1)) with (k_records k1). rewrite Hn.
    eapply replay_snoc; [by apply Hr|exact Hev|]. rewrite Hs, Hk. exact Ha.
  - apply append_custody_effect in E as [A Hsame]. intros Hh. pose proof (Hsame Hh) as Hs.
    rewrite Hs in *. apply appended_same in A as [-> _]. auto.
  - change (k_records (set_custody _ k1)) with (k_records k1). congruence.
Qed.

(** From a frozen Home. *)
Record same_ledger (k k' : CustodyWorld) : Prop := {
  sg_records : fh_records (w_home (k_home k')) = fh_records (w_home (k_home k));
  sg_config : k_config k' = k_config k;
  sg_disk : w_disk (k_home k') = w_disk (k_home k);
  sg_jobs : hs_jobs (w_state (k_home k')) = hs_jobs (w_state (k_home k));
  sg_grants : hs_grants (w_state (k_home k')) = hs_grants (w_state (k_home k))
}.

Lemma same_ledger_refl k : same_ledger k k.
Proof. done. Qed.
Lemma same_ledger_trans k1 k2 k3 : same_ledger k1 k2 → same_ledger k2 k3 → same_ledger k1 k3.
Proof. intros [] []. constructor; congruence. Qed.

Lemma appended_ledger k k' : appended k k' → same_ledger k k'.
Proof.
  intros A. pose proof (appended_same _ _ A) as [_ Hc].
  constructor; try done; rewrite ?(ap_home _ _ A), ?(ap_state _ _ A), ?(ap_disk _ _ A); done.
Qed.

Lemma set_custody_ledger c k : same_ledger k (set_custody c k).
Proof. done. Qed.

Definition is_frozen (c : CustodyState) : bool :=
  match c with CustodyFrozen _ _ _ _ => true | _ => false end.

Lemma frozen_not_writable c : is_frozen c = true → is_ok (ensure_writable c) = false.
Proof. by destruct c. Qed.
Lemma frozen_refl c : is_frozen c = true → frozen_later c c.
Proof. destruct c; try done. intros _. apply frozen_later_refl. Qed.
Lemma frozen_later_frozen c c' : frozen_later c c' → is_frozen c' = true.
Proof. by intros []. Qed.

Lemma step_frozen k k' :
  custody_step k k' → is_frozen (k_custody k) = true →
  same_ledger k k' ∧ frozen_later (k_custody k) (k_custody k').
Proof.
  intros S F. destruct S as [k1 S|record next k1 E Ha|record e k1 E|grant checkpoint e k1 Hw E Hu].
  - pose proof (still_same _ _ S) as (Hc & _ & Hcf). rewrite Hc. split; [|by apply frozen_refl].
    destruct S as [M _]. apply works_inert in M as [Mh Ms Md]; [|by apply frozen_not_writable].
    constructor; try done; rewrite ?Mh, ?Ms; done.
  - apply append_custody_effect in E as [A _]. split.
    + eapply same_ledger_trans; [by apply appended_ledger|apply set_custody_ledger].
    + change (k_custody (set_custody next k1)) with next.
      destruct (k_custody k) as [|g c p r|]; [done| |done]. by eapply apply_frozen.
  - apply append_custody_effect in E as [A _]. split; [by apply appended_ledger|].
    apply appended_same in A as [-> _]. by apply frozen_refl.
  - by rewrite (frozen_not_writable _ F) in Hw.
Qed.

Lemma steps_frozen k k' :
  rtc custody_step k k' → is_frozen (k_custody k) = true →
  same_ledger k k' ∧ frozen_later (k_custody k) (k_custody k').
Proof.
  induction 1 as [k|k k1 k' S _ IH]; intros F; [split; [done|by apply frozen_refl]|].
  destruct (step_frozen _ _ S F) as [L F1]. destruct IH as [L' F']; [by eapply frozen_later_frozen|].
  split; [by eapply same_ledger_trans|by eapply frozen_later_trans].
Qed.

Lemma steps_synced k k' : rtc custody_step k k' → synced k → synced k'.
Proof. induction 1; eauto using step_synced. Qed.
Lemma steps_epoch k k' :
  rtc custody_step k k' → at_epoch (k_config k) (k_custody k) → at_epoch (k_config k') (k_custody k').
Proof. induction 1; eauto using step_epoch. Qed.
End steps.

(** ** Operations take steps *)

Ltac kwp_step err :=
  lazymatch goal with
  | |- kwp (_ ≫= _) _ _ => apply kwp_bind
  | |- kwp (must (reject _ _)) _ _ =>
      apply kwp_must; [let H := fresh "N" in intros ? H; apply reject_Ok in H | intros ?; err]
  | |- kwp (must (Err _)) _ _ => apply kwp_must; [by intros ? [=] | intros ?; err]
  | |- kwp (must _) _ _ => apply kwp_must; [intros ? ? | intros ?; err]
  | |- kwp (gets _) _ _ => apply kwp_gets
  | |- kwp (mret _) _ _ => apply kwp_ret
  | |- kwp (modify _) _ _ => apply kwp_modify
  | |- kwp journals_healthy _ _ => apply kwp_healthy; [intros ? ? | intros ?; err]
  | |- kwp (require_custody_capacity _ _) _ _ => apply kwp_capacity; [|intros ?; err]
  | |- kwp (match ?x with _ => _ end) _ _ => destruct x eqn:?
  end; cbv beta zeta.
Ltac kwp_go err := repeat (kwp_step err).

Section operations.
  Context `{!Sha256} `{!JsonText} `{!Ed25519} `{!WireSerde} `{!CustodySerde} `{!MessageSerde}.
  Context `{!HomeServices} `{!ArchiveSerde} `{!CheckpointBlobStore} `{!Allocator}.
  Context `{!ToValue CustodyLedgerRecord} (io cio : nat → AppendIo).
  Abbreviation cstep := (custody_step io cio).
  Abbreviation path := (rtc cstep).

Lemma kwp_in_home {A} (m : opM CustodyLedgerRecord A) (Q : result HomeError A → CustodyWorld → Prop) k :
  writes_nothing m → (∀ r k', still io k k' → (m (k_home k)).1 = r → Q r k') → kwp (in_home m) Q k.
Proof.
  intros Hm HQ. unfold kwp, in_home. specialize (Hm (k_home k)).
  destruct (m (k_home k)) as [r w] eqn:E. cbn in *. apply HQ; [|done].
  constructor; [by apply works_moves; constructor|done].
Qed.

Lemma kwp_append record (Q : result HomeError unit → CustodyWorld → Prop) k :
  (∀ k1, append_custody cio record k = (Ok tt, k1) → Q (Ok tt) k1) →
  (∀ e k1, append_custody cio record k = (Err e, k1) → Q (Err e) k1) →
  kwp (append_custody cio record) Q k.
Proof.
  unfold kwp. destruct (append_custody cio record k) as [[[]|e] k1] eqn:E; cbn; auto.
Qed.

Lemma authoritative_silent : writes_nothing (C := CustodyLedgerRecord) authoritative.
Proof. by intros w. Qed.

Lemma path_still k k' : still io k k' → path k k'.
Proof. intros. by apply rtc_once, step_still. Qed.
Lemma path_failed k k1 record e k' :
  path k k1 → append_custody cio record k1 = (Err e, k') → path k k'.
Proof. intros. eapply rtc_r; [done|]. by eapply step_failed. Qed.
Lemma path_wrote k k1 record next k' :
  path k k1 → append_custody cio record k1 = (Ok tt, k') →
  apply_custody_record (k_config k1) (Some (k_custody k1)) record
    (operational_key (cf_authority (k_config k1))) true = Ok next →
  path k (set_custody next k').
Proof. intros. eapply rtc_r; [done|]. by eapply step_wrote. Qed.

Lemma route_next config epoch handoff route current coordinator next :
  epoch = 1 → u64_checked_add route 1 = Some next → is_blank coordinator = false →
  apply_custody_record config (Some (CustodyActive epoch handoff route current None))
    (CRouteRebound next coordinator) (operational_key (cf_authority config)) true
  = Ok (CustodyActive epoch handoff next coordinator None).
Proof.
  intros -> Hn Ht. unfold u64_checked_add, try_from in Hn. case_decide; [|done].
  injection Hn as <-. unfold apply_custody_record. rewrite decide_False by (by intros Hx).
  by rewrite Ht, !bool_decide_true by (done || lia).
Qed.

Lemma refresh_runtime_route_path coordinator k :
  (is_frozen (k_custody k) = false → is_blank coordinator = false) → at_epoch (k_config k) (k_custody k) →
  path k (refresh_runtime_route cio coordinator k).2.
Proof.
  intros Ht He. change (kwp (refresh_runtime_route cio coordinator) (fun _ => path k) k).
  unfold refresh_runtime_route. apply kwp_bind, kwp_in_home; [apply authoritative_silent|].
  intros r k1 S _. pose proof (path_still _ _ S) as P. destruct (still_same _ _ _ S) as (Ec & _ & Ecf).
  rewrite <- Ec, <- Ecf in He. destruct r as [u|e]; [|done]. kwp_go ltac:(done); try done.
  apply kwp_append; intros; [|by eapply path_failed]. kwp_go ltac:(done).
  eapply path_wrote; [done|done|].
  match goal with H : k_custody k1 = _ |- _ => rewrite H in *; clear H end.
  match goal with H : ok_or _ _ = Ok _ |- _ => apply ok_or_Ok in H end.
  apply route_next; [by apply He|done|]. apply Ht. by rewrite <- Ec.
Qed.

Lemma create_checkpoint_path created k : path k (create_checkpoint created k).2.
Proof.
  change (kwp (create_checkpoint created) (fun _ => path k) k).
  unfold create_checkpoint. apply kwp_bind, kwp_in_home; [apply authoritative_silent|].
  intros r k1 S _. pose proof (path_still _ _ S). destruct r; [|done]. by kwp_go ltac:(done).
Qed.

Lemma redirect_next config grant checkpoint prepared redirect lease :
  is_ok (verify_home_lease lease) = true →
  redirect_matches_grant (sr_payload lease) grant = true →
  (∀ existing, redirect = Some existing →
     is_home_lease_coordinator_revision (sr_payload existing) (sr_payload lease) = true) →
  apply_custody_record config (Some (CustodyFrozen grant checkpoint prepared redirect))
    (CRedirect lease) (operational_key (cf_authority config)) true
  = Ok (CustodyFrozen grant checkpoint prepared (Some lease)).
Proof.
  intros Hv Hm Hr. unfold apply_custody_record. rewrite decide_False by (by intros Hx).
  destruct (verify_home_lease lease); [|done].
  assert (∀ x, match redirect with
               | Some current => x current && negb (is_home_lease_coordinator_revision
                   (sr_payload current) (sr_payload lease))
               | None => false end = false) as Hg.
  { intros x. destruct redirect; [|done]. rewrite Hr by done. apply andb_false_r. }
  destruct prepared; cbn; rewrite Hm; cbn; by rewrite (Hg (fun current => bool_decide (current ≠ lease))).
Qed.

Lemma record_handoff_redirect_path lease k : path k (record_handoff_redirect cio lease k).2.
Proof.
  change (kwp (record_handoff_redirect cio lease) (fun _ => path k) k).
  unfold record_handoff_redirect. kwp_go ltac:(done); try done.
  all: apply kwp_append; intros; [|by eapply path_failed]; kwp_go ltac:(done);
    (eapply path_wrote; [done|done|]).
  all: match goal with H : k_custody _ = _ |- _ => rewrite H; clear H end.
  all: repeat match goal with H : negb _ = false |- _ => apply negb_false_iff in H end.
  all: apply redirect_next; [by destruct (verify_home_lease lease)|done|by intros ? [= <-]].
Qed.

Lemma same_record_Ok {T} `{!ToValue T} (x y : SignedRecordV1 T) b :
  same_record x y = Ok b →
  ∃ hx hy, canonical_hash x = Ok hx ∧ canonical_hash y = Ok hy ∧ b = bool_decide (hx = hy).
Proof.
  unfold same_record. intros E. inv_result. simplify_eq.
  unfold invalid, map_err in *. destruct (canonical_hash x), (canonical_hash y); try done.
  simplify_eq. eauto.
Qed.
Lemma same_record_equal {T} `{!ToValue T} (x y : SignedRecordV1 T) h :
  canonical_hash x = Ok h → canonical_hash y = Ok h → same_record x y = Ok true.
Proof. intros Hx Hy. unfold same_record, invalid. rewrite Hx, Hy. cbn. by rewrite bool_decide_true. Qed.

(** Frozen for a handoff, up to the hash of its documents. *)
Definition frozen_for (grant : SignedRecordV1 CustodyGrantV1)
    (checkpoint : SignedRecordV1 HomeCheckpointV1) (c : CustodyState) : Prop :=
  match c with
  | CustodyFrozen grant' checkpoint' _ _ =>
      ∃ g c, canonical_hash grant = Ok g ∧ canonical_hash grant' = Ok g
        ∧ canonical_hash checkpoint = Ok c ∧ canonical_hash checkpoint' = Ok c
  | CustodyActive _ _ _ _ _ | CustodyStaged _ _ => False
  end.

Lemma already_frozen_Ok custody grant checkpoint frozen :
  already_frozen custody grant checkpoint = Ok frozen →
  if frozen then frozen_for grant checkpoint custody
  else is_ok (ensure_writable custody) = true.
Proof.
  unfold already_frozen. intros E. inv_result.
  match goal with H : match custody with _ => _ end = Ok ?b |- _ => rename H into Hs, b into same end.
  destruct same; cbn [negb] in *; inv_result; simplify_eq;
    [|by destruct (ensure_writable custody)].
  destruct custody as [|g c p r|]; try done. inv_result.
  match goal with H : same_record g grant = Ok ?b |- _ => rename H into Hg; destruct b end;
    cbn [negb] in *; [|done].
  match goal with H : same_record c checkpoint = _ |- _ => rename H into Hc end.
  apply same_record_Ok in Hg as (hx & hy & Hx & Hy & Hb), Hc as (cx & cy & Cx & Cy & Cb).
  symmetry in Hb, Cb.
  apply bool_decide_eq_true in Hb, Cb. subst. cbn. eauto 8.
Qed.

Lemma frozen_next config epoch handoff route current activation grant checkpoint :
  epoch = cf_epoch config → is_ok (verify_source_handoff config grant checkpoint) = true →
  apply_custody_record config (Some (CustodyActive epoch handoff route current activation))
    (CFrozen grant checkpoint) (operational_key (cf_authority config)) true
  = Ok (CustodyFrozen grant checkpoint None None).
Proof.
  intros He Hv. unfold apply_custody_record. rewrite decide_False by (by intros Hx).
  destruct (verify_source_handoff _ _ _); [|done].
  by destruct activation as [[]|]; rewrite decide_True by done.
Qed.

Lemma prepared_next config grant checkpoint redirect prepared :
  is_ok (verify_custody_prepared prepared) = true →
  frozen_for (cp_grant (sr_payload prepared)) (cp_checkpoint (sr_payload prepared))
    (CustodyFrozen grant checkpoint None redirect) →
  apply_custody_record config (Some (CustodyFrozen grant checkpoint None redirect))
    (CPrepared prepared) (operational_key (cf_authority config)) true
  = Ok (CustodyFrozen grant checkpoint (Some prepared) redirect).
Proof.
  intros Hv (g & c & Hg & Hg' & Hc & Hc'). unfold apply_custody_record.
  rewrite decide_False by (by intros Hx). destruct (verify_custody_prepared _); [|done]. cbn.
  rewrite (same_record_equal _ _ _ Hg Hg'). cbn. by rewrite (same_record_equal _ _ _ Hc Hc').
Qed.

Definition ledger_matches (k : CustodyWorld) (checkpoint : SignedRecordV1 HomeCheckpointV1) :
    Prop :=
  N.of_nat (length (in_records (fh_records (w_home (k_home k)))))
    = hc_high_water_mark (sr_payload checkpoint)
  ∧ in_tip_hash (fh_records (w_home (k_home k))) = hc_log_root (sr_payload checkpoint).

(** A fence refused before anything was written: the Home is frozen in memory,
    its journal is healthy and has no fence. *)
Definition refused (k k' : CustodyWorld) (grant : SignedRecordV1 CustodyGrantV1)
    (checkpoint : SignedRecordV1 HomeCheckpointV1) : Prop :=
  is_ok (ensure_writable (k_custody k)) = true
  ∧ k_custody k' = CustodyFrozen grant checkpoint None None
  ∧ k_records k' = k_records k ∧ in_healthy (k_records k') = true.

(** What [prepare_handoff] leaves. *)
Definition prepare_post (k : CustodyWorld) (grant : SignedRecordV1 CustodyGrantV1)
    (checkpoint : SignedRecordV1 HomeCheckpointV1) (r : result HomeError PreparedHandoff)
    (k' : CustodyWorld) : Prop :=
  (path k k' ∨ is_ok r = false ∧ refused k k' grant checkpoint)
  ∧ (is_ok r = true → frozen_for grant checkpoint (k_custody k')
      ∧ (is_ok (ensure_writable (k_custody k)) = true →
         ledger_matches k' checkpoint
         ∧ k_custody k' = CustodyFrozen grant checkpoint
             match r with Ok h => Some (ph_prepared h) | Err _ => None end None)).

Lemma prepare_Err k grant checkpoint e k' : path k k' → prepare_post k grant checkpoint (Err e) k'.
Proof. intros P. split; [by left|done]. Qed.

(** Frozen for a handoff whose documents can be hashed at all. *)
Definition frozen_once_hashed (grant : SignedRecordV1 CustodyGrantV1)
    (checkpoint : SignedRecordV1 HomeCheckpointV1) (c : CustodyState) : Prop :=
  ∀ hg hc, canonical_hash grant = Ok hg → canonical_hash checkpoint = Ok hc →
    frozen_for grant checkpoint c.

Lemma invalid_Ok {A} (r : result ContractError A) a : invalid r = Ok a → r = Ok a.
Proof. unfold invalid, map_err. destruct r; [|done]. by intros [= ->]. Qed.

Lemma prove_prepared_post grant checkpoint hash count k k1 g c redirect :
  path k k1 → k_custody k1 = CustodyFrozen g c None redirect →
  frozen_once_hashed grant checkpoint (CustodyFrozen g c None redirect) →
  kwp (prove_prepared cio grant checkpoint hash count)
    (fun r k' => path k k' ∧ same_ledger k1 k'
       ∧ ∀ p, r = Ok p → k_custody k' = CustodyFrozen g c (Some p) redirect
           ∧ frozen_for grant checkpoint (CustodyFrozen g c (Some p) redirect)) k1.
Proof.
  intros P Ek F. unfold prove_prepared. kwp_go ltac:(done); try done.
  assert (frozen_for grant checkpoint (CustodyFrozen g c None redirect)) as F'.
  { eapply F; by apply invalid_Ok. }
  apply kwp_append; [intros k2 Ea|intros e k2 Ea];
    pose proof (append_custody_effect _ _ _ _ _ Ea) as [A _]; pose proof (appended_ledger _ _ A).
  2: { split_and!; [by eapply path_failed|done|done]. }
  destruct (appended_same _ _ A) as [Ec _]. rewrite Ek in Ec.
  apply kwp_bind, kwp_gets. rewrite Ec. kwp_go ltac:(done).
  split_and!; [|by eapply same_ledger_trans, set_custody_ledger|by intros p [= <-]].
  eapply path_wrote; [done|done|]. rewrite Ek.
  match goal with H : signing _ = Ok ?p |- _ =>
    unfold signing, map_err in H; destruct (SignedRecordV1_sign _ _ _) as [p'|] eqn:Es; [|done];
    injection H as ->; apply sign_fields in Es as [Ep _] end.
  apply prepared_next; [by destruct (verify_custody_prepared _)|by rewrite Ep].
Qed.

Lemma freeze_post grant checkpoint k k1 :
  path k k1 → at_epoch (k_config k1) (k_custody k1) →
  is_ok (ensure_writable (k_custody k1)) = true →
  is_ok (verify_source_handoff (k_config k1) grant checkpoint) = true →
  kwp (freeze cio grant checkpoint)
    (fun r k' => match r with
      | Ok _ => path k k' ∧ same_ledger k1 k'
          ∧ k_custody k' = CustodyFrozen grant checkpoint None None
      | Err _ => path k k' ∨ k_custody k' = CustodyFrozen grant checkpoint None None
          ∧ k_records k' = k_records k1 ∧ in_healthy (k_records k') = true
      end) k1.
Proof.
  intros P He Hw Hv. unfold freeze. kwp_go ltac:(by left). unfold kwp, append_fence.
  destruct (append_custody cio _ k1) as [[[]|e] k2] eqn:Ea; cbn -[set_custody];
    pose proof (append_custody_effect _ _ _ _ _ Ea) as [A Hr].
  - split_and!; [|by eapply same_ledger_trans, set_custody_ledger; apply appended_ledger|done].
    eapply path_wrote; [done|done|].
    destruct (k_custody k1) as [epoch handoff route current activation| |]; try done.
    apply frozen_next; [apply He|done].
  - change (k_records (set_custody _ k2)) with (k_records k2).
    destruct (in_healthy (k_records k2)) eqn:Hh; [right|left].
    + split_and!; [done|by apply Hr|done].
    + eapply rtc_r; [done|]. by eapply step_uncertain.
Qed.

(** The second half of [prepare_handoff], from the world its checks left. *)
Definition fenced_proof (grant : SignedRecordV1 CustodyGrantV1)
    (checkpoint : SignedRecordV1 HomeCheckpointV1) (hash : option string) (count : option N) :
    custodyM PreparedHandoff :=
  custody ← gets k_custody;
  match custody with
  | CustodyFrozen _ _ (Some prepared) _ =>
      _ ← must (reject
            (bool_decide (cp_rewrap_inventory_hash (sr_payload prepared) ≠ hash)
             || bool_decide (cp_rewrap_item_count (sr_payload prepared) ≠ count))
            (HConflict "persisted Prepared proof differs from the recovered exact inventory"));
      mret (mkPreparedHandoff grant checkpoint prepared)
  | _ =>
      prepared ← prove_prepared cio grant checkpoint hash count;
      mret (mkPreparedHandoff grant checkpoint prepared)
  end.

Lemma fenced_proof_post grant checkpoint hash count k k1 g c p redirect :
  path k k1 → k_custody k1 = CustodyFrozen g c p redirect →
  (p = None ∨ frozen_for grant checkpoint (CustodyFrozen g c p redirect)) →
  frozen_once_hashed grant checkpoint (CustodyFrozen g c p redirect) →
  kwp (fenced_proof grant checkpoint hash count)
    (fun r k' => path k k' ∧ same_ledger k1 k' ∧ ∀ h, r = Ok h →
       k_custody k' = CustodyFrozen g c (Some (ph_prepared h)) redirect
       ∧ frozen_for grant checkpoint (k_custody k')) k1.
Proof.
  intros P Ek Fp F. unfold fenced_proof. apply kwp_bind, kwp_gets. rewrite Ek. destruct p as [p|].
  - destruct Fp as [|Fp]; [done|]. kwp_go ltac:(done).
    split_and!; [done|done|]. intros h [= <-]. by rewrite Ek.
  - apply kwp_bind. eapply kwp_mono; [by eapply prove_prepared_post|].
    intros [q|e] k' (P' & L & Hq); [kwp_go ltac:(done)|done].
    split_and!; [done|done|]. intros h [= <-]. destruct (Hq q eq_refl) as [-> ?]. done.
Qed.

(** From the world in which the checks passed. *)
Definition fence_and_prove (frozen : bool) (grant : SignedRecordV1 CustodyGrantV1)
    (checkpoint : SignedRecordV1 HomeCheckpointV1) (hash : option string) (count : option N) :
    custodyM PreparedHandoff :=
  _ ← (if negb frozen then freeze cio grant checkpoint else mret tt);
  fenced_proof grant checkpoint hash count.

Lemma fence_and_prove_post frozen grant checkpoint hash count k k1 :
  path k k1 → k_custody k1 = k_custody k → k_records k1 = k_records k →
  at_epoch (k_config k1) (k_custody k1) →
  already_frozen (k_custody k1) grant checkpoint = Ok frozen →
  is_ok (verify_source_handoff (k_config k1) grant checkpoint) = true →
  (frozen = false → ledger_matches k1 checkpoint) →
  kwp (fence_and_prove frozen grant checkpoint hash count) (prepare_post k grant checkpoint) k1.
Proof.
  intros P Ec Er He Hf%already_frozen_Ok Hv Hl. unfold fence_and_prove. apply kwp_bind.
  destruct frozen; cbn [negb].
  - kwp_go ltac:(done). destruct (k_custody k1) as [|g c p r|] eqn:Ek; try done.
    eapply kwp_mono; [eapply fenced_proof_post; [done|done|by right|by intros hg hc _ _]|].
    intros r' k' (P' & L & Hr). split; [by left|]. destruct r' as [h|]; [|done]. intros _.
    destruct (Hr h eq_refl) as [_ ?]. split; [done|]. by rewrite <- Ec.
  - eapply kwp_mono; [by apply freeze_post|]. intros [u|e] k2 Hk2.
    + destruct Hk2 as (P2 & L2 & E2). eapply kwp_mono.
      { eapply fenced_proof_post; [done|done|by left|]. intros hg hc Hg Hc. by exists hg, hc. }
      intros r' k' (P' & L' & Hr). split; [by left|]. destruct r' as [h|]; [|done]. intros _.
      destruct (Hr h eq_refl) as [Ek' ?]. split; [done|]. intros _. split; [|done].
      unfold ledger_matches. rewrite (sg_records _ _ L'), (sg_records _ _ L2). by apply Hl.
    + split; [|done]. destruct Hk2 as [?|(? & ? & ?)]; [by left|right].
      rewrite Ec, Er in *. done.
Qed.

Lemma source_binding_still (grant : SignedRecordV1 CustodyGrantV1) k :
  kwp match cg_destination_rewrap (sr_payload grant) with
      | Some requirement =>
          binding ← in_home current_recipient_binding;
          must (reject (bool_decide (binding ≠ cr_source_binding requirement))
                 (HUnauthorized
                    "custody grant source binding is not the current Home recipient binding"))
      | None => mret tt
      end (fun _ => still io k) k.
Proof.
  destruct (cg_destination_rewrap _); [|apply kwp_ret, still_refl].
  apply kwp_bind, kwp_in_home; [apply binding_silent|]. intros [b|e] k1 S _; [|done].
  by kwp_go ltac:(done).
Qed.

Lemma prepare_handoff_post grant checkpoint k :
  at_epoch (k_config k) (k_custody k) →
  kwp (prepare_handoff cio grant checkpoint) (prepare_post k grant checkpoint) k.
Proof.
  intros He. unfold prepare_handoff. do 6 kwp_step ltac:(by apply prepare_Err).
  apply kwp_bind. eapply kwp_mono; [apply source_binding_still|]. intros r k1 S.
  pose proof (path_still _ _ S) as P. destruct (still_same _ _ _ S) as (Ec & Er & Ecf).
  destruct r as [u|e]; [|by apply prepare_Err].
  do 18 kwp_step ltac:(by apply prepare_Err).
  match goal with frozen : bool, i : (option string * option BinNums.N)%type |- _ =>
    change (kwp (fence_and_prove frozen grant checkpoint i.1 i.2) (prepare_post k grant checkpoint) k1);
    apply fence_and_prove_post; try done; rewrite ?Ec, ?Ecf; try done;
    [by destruct (verify_source_handoff _ _ _)|intros ->] end.
  apply orb_false_iff in N as [Nl Nt]. to_prop. by split.
Qed.

(** A retry on a Home that is frozen in memory appends the proof and no fence. *)
Lemma retry_appends_proof grant checkpoint k :
  k_custody k = CustodyFrozen grant checkpoint None None →
  kwp (prepare_handoff cio grant checkpoint) (fun r k' => ∀ h, r = Ok h →
    ∃ entry, in_records (k_records k') = in_records (k_records k) ++ [entry]
      ∧ ce_event (sr_payload entry) = CPrepared (ph_prepared h)) k.
Proof.
  intros Ek. unfold prepare_handoff. do 6 kwp_step ltac:(done).
  apply kwp_bind. eapply kwp_mono; [apply source_binding_still|]. intros r k1 S.
  destruct (still_same _ _ _ S) as (Ec & Er & _). destruct r as [u|e]; [|done].
  rewrite <- Er. rewrite Ek in Ec. do 18 kwp_step ltac:(done).
  match goal with H : already_frozen _ _ _ = Ok ?frozen |- _ =>
    rewrite Ec in H; assert (frozen = true) as -> by
      (unfold already_frozen in H; cbn in H; by split_cases) end.
  cbn [negb]. do 4 kwp_step ltac:(done). rewrite Ec. apply kwp_bind. unfold prove_prepared.
  kwp_go ltac:(done). apply kwp_append; [intros k2 Ea|done].
  apply append_custody_effect in Ea as [A (_ & entry & El & Ev & _)].
  destruct (appended_same _ _ A) as [Ec2 _]. rewrite Ec in Ec2.
  apply kwp_bind, kwp_gets. rewrite Ec2. kwp_go ltac:(done). intros h [= <-]. by exists entry.
Qed.
End operations.

(** ** Calls on a Home with custody *)

Inductive CustodyCall : Type :=
  | CallHome (call : HomeCall)
  | CallRefreshRoute (coordinator : string)
  | CallCreateCheckpoint (created_at_unix_ms : option N)
  | CallPrepareHandoff (grant : SignedRecordV1 CustodyGrantV1)
      (checkpoint : SignedRecordV1 HomeCheckpointV1)
  | CallRecordRedirect (lease : SignedRecordV1 HomeLeaseV1).

Section custody_calls.
  Context `{!Sha256} `{!JsonText} `{!Ed25519} `{!WireSerde} `{!CustodySerde} `{!MessageSerde}.
  Context `{!HomeServices} `{!ArchiveSerde} `{!CheckpointBlobStore} `{!Allocator}.
  Context `{!ToValue CustodyLedgerRecord} (io cio : nat → AppendIo).

(** The world a call leaves behind, whatever it returns. *)
Definition custody_call (k : CustodyWorld) (call : CustodyCall) : CustodyWorld :=
  match call with
  | CallHome call => on_world (fun w => run_call io w call) k
  | CallRefreshRoute coordinator => (refresh_runtime_route cio coordinator k).2
  | CallCreateCheckpoint created => (create_checkpoint created k).2
  | CallPrepareHandoff grant checkpoint => (prepare_handoff cio grant checkpoint k).2
  | CallRecordRedirect lease => (record_handoff_redirect cio lease k).2
  end.
Definition custody_calls (k : CustodyWorld) (calls : list CustodyCall) : CustodyWorld :=
  foldl custody_call k calls.

(** Routes are not blank. *)
Definition named_route (call : CustodyCall) : bool :=
  match call with
  | CallRefreshRoute coordinator => negb (is_blank coordinator)
  | _ => true
  end.

(** The call froze an active Home whose healthy journal has no fence. *)
Definition fence_refused (k : CustodyWorld) (call : CustodyCall) : bool :=
  let k' := custody_call k call in
  is_ok (ensure_writable (k_custody k)) && is_frozen (k_custody k')
  && in_healthy (k_records k')
  && bool_decide (length (in_records (k_records k')) = length (in_records (k_records k))).

Fixpoint fences_written (k : CustodyWorld) (calls : list CustodyCall) : bool :=
  match calls with
  | [] => true
  | call :: calls => negb (fence_refused k call) && fences_written (custody_call k call) calls
  end.

Lemma custody_call_path k call :
  (is_frozen (k_custody k) = false → named_route call = true) →
  at_epoch (k_config k) (k_custody k) →
  rtc (custody_step io cio) k (custody_call k call) ∨ fence_refused k call = true.
Proof.
  intros Hn He. destruct call as [call|coordinator|created|grant checkpoint|lease]; cbn in *.
  - left. apply path_still. constructor; [apply works_moves, run_call_moves|done].
  - left. apply refresh_runtime_route_path; [|done]. intros F. specialize (Hn F). by to_prop.
  - left. apply create_checkpoint_path.
  - pose proof (prepare_handoff_post io cio grant checkpoint k He) as [[?|[_ R]] _]; [by left|].
    right. destruct R as (Hw & Hc & Hr & Hh). unfold fence_refused. cbn.
    by rewrite Hw, Hc, Hh, Hr, bool_decide_true.
  - left. apply record_handoff_redirect_path.
Qed.

Lemma frozen_fence_not_refused k call :
  is_frozen (k_custody k) = true → fence_refused k call = false.
Proof. intros F. unfold fence_refused. by rewrite frozen_not_writable. Qed.

Lemma frozen_at_epoch cf c : is_frozen c = true → at_epoch cf c.
Proof. by destruct c. Qed.

Lemma frozen_calls k calls :
  is_frozen (k_custody k) = true →
  same_ledger k (custody_calls k calls) ∧ frozen_later (k_custody k) (k_custody (custody_calls k calls)).
Proof.
  revert k. induction calls as [|call calls IH]; intros k F; cbn in *.
  { split; [done|by apply frozen_refl]. }
  destruct (custody_call_path k call) as [P|R]; [congruence|by apply frozen_at_epoch| |].
  2: { by rewrite frozen_fence_not_refused in R. }
  destruct (steps_frozen _ _ _ _ P F) as [L F'].
  destruct (IH _ (frozen_later_frozen _ _ F')) as [L2 F2].
  split; [by eapply same_ledger_trans|by eapply frozen_later_trans].
Qed.

(** A refused fence left the journal as it was. *)
Lemma fence_refused_refused k grant checkpoint :
  at_epoch (k_config k) (k_custody k) →
  fence_refused k (CallPrepareHandoff grant checkpoint) = true →
  refused k (custody_call k (CallPrepareHandoff grant checkpoint)) grant checkpoint.
Proof.
  intros He Hf. unfold fence_refused in Hf. cbn in Hf.
  apply andb_true_iff in Hf as [[[Hw Hz]%andb_true_iff Hh]%andb_true_iff Hl]. to_prop.
  pose proof (prepare_handoff_post io cio grant checkpoint k He) as [[P|[_ R]] _]; [|done].
  destruct (steps_write _ _ _ _ P Hh) as [_ [?|[_ Ec]]]; [lia|].
  rewrite Ec in Hz. by rewrite (frozen_not_writable _ Hz) in Hw.
Qed.
End custody_calls.

(** ** A concrete source Home *)

Module custody_sample.
#[local] Existing Instances toy_sha stuffed_text toy_ed25519 sample_wire null_custody
  api_sample.null_messages.

Definition tag (r : CustodyLedgerRecord) : string :=
  match r with CFrozen _ _ => "frozen" | CPrepared _ => "prepared" | _ => "other" end.
#[local] Instance tag_value : ToValue CustodyLedgerRecord := fun r => Ok (JString (tag r)).

Definition signer : AuthoritySigner := api_sample.key_signer (sample_epoch_key 1).
#[local] Instance services : HomeServices :=
  {| svc_signer := signer;
     svc_effect _ := EffectIdempotent;
     svc_allow_resolution _ := Ok tt;
     svc_allow_deployment _ := Ok tt;
     svc_allow_executor_receipt _ _ := Ok tt;
     svc_allow_placement_decision _ := Ok tt;
     svc_allow_retry_decision _ := Ok tt;
     svc_allow_read_relay := default_allow_read_relay;
     svc_blobs := fun _ => Ok tt;
     svc_current_binding := Err "none" |}.

Definition genesis : HomeAuthorityV1 :=
  mkHomeAuthorityV1 handover_abode (handover_operational 1) None.
Definition caps : JournalCaps := mkJournalCaps 10 1000.
Definition config : HomeConfig :=
  mkHomeConfig sample_root 1 "c" "r" "n" genesis [] 8 1000 caps.

Definition archive : HomeCheckpointArchiveV1 :=
  mkHomeCheckpointArchiveV1 CHECKPOINT_FORMAT sample_root 1 0 GENESIS [genesis] [] None.
#[local] Instance archives : ArchiveSerde :=
  {| as_sealed := null_value; as_authority := null_value;
     archive_from_slice _ := Ok archive |}.
#[local] Instance memory : Allocator := fun _ => true.
Definition encoded : bytes :=
  match encode_checkpoint_archive 1000 config [] GENESIS None with Ok b => b | Err _ => [] end.
#[local] Instance store : CheckpointBlobStore :=
  {| put_checkpoint media b := Ok (mkBlobRefV1 (sha256_digest b) (blen b) media);
     get_checkpoint _ := Ok encoded;
     ck_available := fun _ => Ok tt |}.

Definition io : nat → AppendIo := fun _ => Journal.sample.io.
Definition ledger : Journal := mkJournal signer HOME_CHAIN_SCHEMA caps.
Definition journal (s : AuthoritySigner) : Journal := mkJournal s CUSTODY_JOURNAL_SCHEMA caps.
Definition home : FunctionHome CustodyLedgerRecord :=
  mkFunctionHome config ledger (mkInner [] GENESIS true) (mkInner [] GENESIS true) None.
Definition start (s : AuthoritySigner) : CustodyWorld :=
  mkCustodyWorld
    (mkHomeWorld home (HomeState_new (CustodyActive 1 None 1 "c" None)) Journal.sample.empty_disk
       None HomeRecoverySweep_default (Some 1) 0) (journal s) Journal.sample.empty_disk 0.
Definition world (s : AuthoritySigner) : CustodyWorld :=
  (append_custody io (CInitialized sample_root 1 1 "c") (start s)).2.

Definition checkpoint : SignedRecordV1 HomeCheckpointV1 :=
  match (create_checkpoint None (world signer)).1 with
  | Ok checkpoint => checkpoint
  | Err _ => handover_checkpoint
  end.
Definition grant : SignedRecordV1 CustodyGrantV1 :=
  sign_sample SCHEMA_HOME_V1 sample_root
    (mkCustodyGrantV1 sample_root "h" 1 2 genesis "r" "n" "r2" "n2" (hash_of checkpoint) GENESIS
       (handover_operational 2) [] None None).

Definition fenced : CustodyWorld := (prepare_handoff io grant checkpoint (world signer)).2.
Definition calls : list CustodyCall :=
  [CallHome api_sample.call_submit; CallCreateCheckpoint None; CallRefreshRoute "d";
   CallPrepareHandoff grant checkpoint].

Definition handoff_of (r : result HomeError PreparedHandoff) : PreparedHandoff :=
  match r with Ok h => h | Err _ => mkPreparedHandoff grant checkpoint handover_prepared end.
Definition handoff : PreparedHandoff :=
  handoff_of (prepare_handoff io grant checkpoint (world signer)).1.

Lemma prepare_run : prepare_handoff io grant checkpoint (world signer) = (Ok handoff, fenced).
Proof.
  unfold handoff, fenced. assert (∀ r, is_ok r = true → r = Ok (handoff_of r)) as Hr by by intros [].
  rewrite <- Hr by (vm_compute; reflexivity). apply surjective_pairing.
Qed.
Lemma world_epoch : at_epoch (k_config (world signer)) (k_custody (world signer)).
Proof. done. Qed.
Lemma world_synced : synced (world signer).
Proof. split_and!; [vm_compute; reflexivity|done|]. intros _. vm_compute. reflexivity. Qed.
Lemma calls_routes : forallb named_route calls = true.
Proof. vm_compute. reflexivity. Qed.
Lemma calls_fences : fences_written io io (world signer) calls = true.
Proof. vm_compute. reflexivity. Qed.
Lemma fence_replays :
  replay_custody config true None (take 2 (in_records (k_records fenced)))
  = Ok (Some (CustodyFrozen grant checkpoint None None)).
Proof. vm_compute. reflexivity. Qed.
Lemma fenced_replays :
  replay_custody config true None
    (take 2 (in_records (k_records fenced)) ++ drop 2 (in_records (k_records fenced)))
  = Ok (Some (CustodyFrozen grant checkpoint (Some (ph_prepared handoff)) None)).
Proof. vm_compute. reflexivity. Qed.

(** A signer that is out of reach when it is asked to sign the fence. *)
Definition fence_message (k : CustodyWorld) : bytes :=
  match canonical_json_bytes (mkRecordPayload CUSTODY_JOURNAL_SCHEMA (as_public_key signer)
          (mkChainEntry 1 (in_tip_hash (k_records k)) (CFrozen grant checkpoint))) with
  | Ok b => b
  | Err _ => []
  end.
Definition flaky : AuthoritySigner :=
  mkAuthoritySigner (as_public_key signer)
    (fun m => if bool_decide (m = fence_message (world signer)) then Err (Crypto "unreachable")
              else as_sign signer m).
Definition refused_run : result HomeError PreparedHandoff * CustodyWorld :=
  prepare_handoff io grant checkpoint (world flaky).
Definition retried_run : result HomeError PreparedHandoff * CustodyWorld :=
  prepare_handoff io grant checkpoint refused_run.2.
Definition retried : PreparedHandoff := handoff_of retried_run.1.

Lemma flaky_synced : synced (world flaky).
Proof. split_and!; [vm_compute; reflexivity|done|]. intros _. vm_compute. reflexivity. Qed.
Lemma flaky_refused : fence_refused io io (world flaky) (CallPrepareHandoff grant checkpoint) = true.
Proof. vm_compute. reflexivity. Qed.
Lemma retried_ok : retried_run = (Ok retried, retried_run.2).
Proof.
  unfold retried. assert (∀ r, is_ok r = true → r = Ok (handoff_of r)) as Hr by by intros [].
  rewrite <- Hr by (vm_compute; reflexivity). apply surjective_pairing.
Qed.
End custody_sample.

(** ** Properties *)

(** C21: a fence that is refused before it is written is skipped for good. Let a Home
    whose custody agrees with its journal be asked to prepare a handoff, and let the
    append of the fence fail without touching the journal (the signer is out of reach),
    so that the Home is frozen in memory over a healthy journal without a fence. Then
    every retry of the same handoff that succeeds takes the Home as fenced: it adds the
    Prepared proof, the one it returns, and no fence, and the journal it leaves does not
    replay, so that the Home cannot be opened again. *)
Theorem refused_fence_is_skipped (S : Sha256) (X : JsonText) (E : Ed25519) (W : WireSerde)
    (K : CustodySerde) (M : MessageSerde) (V : HomeServices) (A : ArchiveSerde)
    (B : CheckpointBlobStore) (L : Allocator) (T : ToValue CustodyLedgerRecord)
    (io cio cio' : nat → AppendIo) (k : CustodyWorld)
    (grant : SignedRecordV1 CustodyGrantV1) (checkpoint : SignedRecordV1 HomeCheckpointV1)
    (Hsynced : synced k)
    (Hrefused : fence_refused io cio k (CallPrepareHandoff grant checkpoint) = true)
    (h : PreparedHandoff) (k' : CustodyWorld)
    (Hretry : prepare_handoff cio' grant checkpoint
                (custody_call io cio k (CallPrepareHandoff grant checkpoint)) = (Ok h, k')) :
  (∃ entry, in_records (k_records k') = in_records (k_records k) ++ [entry]
     ∧ ce_event (sr_payload entry) = CPrepared (ph_prepared h))
  ∧ is_ok (replay_custody (k_config k) true None (in_records (k_records k'))) = false.
Proof.
  destruct Hsynced as (_ & He & Hsync).
  destruct (fence_refused_refused _ _ _ _ _ He Hrefused) as (Hw & Hc & Hr & Hh).
  pose proof (kwp_run _ _ _ _ _ (retry_appends_proof io cio' grant checkpoint _ Hc) Hretry) as P.
  destruct (P h eq_refl) as (entry & El & Ev). rewrite Hr in *. split; [by exists entry|].
  rewrite El, replay_app, (Hsync Hh). cbn. rewrite Ev. unfold apply_custody_record.
  case_decide; [done|]. revert Hw. by destruct (k_custody k) as [? ? ? ? [[]|]| |].
Qed.
Lemma refused_fence_is_skipped_witness :
  is_ok (@replay_custody toy_sha stuffed_text toy_ed25519 sample_wire null_custody
           custody_sample.config true None
           (in_records (k_records custody_sample.retried_run.2))) = false.
Proof.
  exact (proj2 (@refused_fence_is_skipped toy_sha stuffed_text toy_ed25519 sample_wire null_custody
    api_sample.null_messages custody_sample.services custody_sample.archives custody_sample.store
    custody_sample.memory custody_sample.tag_value custody_sample.io custody_sample.io
    custody_sample.io (custody_sample.world custody_sample.flaky) custody_sample.grant
    custody_sample.checkpoint custody_sample.flaky_synced custody_sample.flaky_refused
    custody_sample.retried custody_sample.retried_run.2 custody_sample.retried_ok)).
Defined.

(** The fence is irreversible. Once the records of a custody journal fence the
    Home for a handoff, every longer journal that replays at all leaves it fenced
    for that same grant and checkpoint: it never writes again, a Prepared proof
    once held is kept, and a redirect is only ever replaced by a later lease that
    matches the grant. *)
Theorem custody_fence_irreversible (S : Sha256) (X : JsonText) (E : Ed25519) (W : WireSerde)
    (K : CustodySerde) (cf : HomeConfig) (allow : bool)
    (state : option CustodyState)
    (before after : list (SignedRecordV1 (ChainEntry CustodyLedgerRecord)))
    (grant : SignedRecordV1 CustodyGrantV1) (checkpoint : SignedRecordV1 HomeCheckpointV1)
    (prepared : option (SignedRecordV1 CustodyPreparedV1))
    (redirect : option (SignedRecordV1 HomeLeaseV1)) (c : CustodyState)
    (Hbefore : replay_custody cf allow state before
               = Ok (Some (CustodyFrozen grant checkpoint prepared redirect)))
    (Hafter : replay_custody cf allow state (before ++ after) = Ok (Some c)) :
  frozen_later (CustodyFrozen grant checkpoint prepared redirect) c
  ∧ is_ok (ensure_writable c) = false.
Proof.
  rewrite replay_app, Hbefore in Hafter. apply replay_frozen in Hafter; [|apply frozen_later_refl].
  split; [done|]. by eapply frozen_not_writable, frozen_later_frozen.
Qed.

Lemma custody_fence_irreversible_witness :
  ∃ c, is_ok (ensure_writable c) = false.
Proof.
  eexists. eapply proj2.
  refine (@custody_fence_irreversible toy_sha stuffed_text toy_ed25519 sample_wire null_custody
    custody_sample.config true None
    (take 2 (in_records (k_records custody_sample.fenced)))
    (drop 2 (in_records (k_records custody_sample.fenced))) _ _ _ _ _
    custody_sample.fence_replays custody_sample.fenced_replays).
Defined.

(** What a Home believes about its custody is what its journal says. From a
    Home in that condition, whatever calls are made and whatever storage
    failures occur, its custody state in memory is what a replay of the records
    of its journal gives, unless the journal is uncertain and must be reopened;
    so a restart resumes in exactly the state the process was in. The one
    exception is a fence whose append is refused before it is written. *)
Theorem custody_memory_matches_replay (S : Sha256) (X : JsonText) (E : Ed25519) (W : WireSerde)
    (K : CustodySerde) (M : MessageSerde) (V : HomeServices) (A : ArchiveSerde)
    (B : CheckpointBlobStore) (L : Allocator) (T : ToValue CustodyLedgerRecord)
    (io cio : nat → AppendIo) (k : CustodyWorld)
    (calls : list CustodyCall) (Hsynced : synced k)
    (Hroutes : forallb named_route calls = true)
    (Hfences : fences_written io cio k calls = true) :
  synced (custody_calls io cio k calls).
Proof.
  revert k Hsynced Hfences. induction calls as [|call calls IH]; intros k Hs Hf; [done|].
  cbn in *. apply andb_true_iff in Hroutes as [Hn Hns], Hf as [Hf Hfs].
  apply IH; [done| |done].
  destruct (custody_call_path io cio k call (fun _ => Hn) (proj1 (proj2 Hs))) as [P|R].
  - by eapply steps_synced.
  - by rewrite R in Hf.
Qed.

Lemma custody_memory_matches_replay_witness :
  @synced toy_sha stuffed_text toy_ed25519 sample_wire null_custody 
    (@custody_calls toy_sha stuffed_text toy_ed25519 sample_wire null_custody
       api_sample.null_messages custody_sample.services custody_sample.archives
       custody_sample.store custody_sample.memory custody_sample.tag_value custody_sample.io
       custody_sample.io (custody_sample.world custody_sample.signer) custody_sample.calls).
Proof.
  apply (@custody_memory_matches_replay toy_sha stuffed_text toy_ed25519 sample_wire null_custody
    api_sample.null_messages custody_sample.services custody_sample.archives custody_sample.store
    custody_sample.memory custody_sample.tag_value custody_sample.io
    custody_sample.io (custody_sample.world custody_sample.signer) custody_sample.calls
    custody_sample.world_synced custody_sample.calls_routes custody_sample.calls_fences).
Defined.

(** C14: a fenced source is inert. When an active Home prepares a handoff, its
    ledger is exactly the one the checkpoint describes; and from then on, whatever
    is called, it stays fenced for that handoff and its ledger never changes: no
    record, job or grant is added, in memory or on disk. *)
Theorem fenced_source_is_inert (S : Sha256) (X : JsonText) (E : Ed25519) (W : WireSerde)
    (K : CustodySerde) (M : MessageSerde) (V : HomeServices) (A : ArchiveSerde)
    (B : CheckpointBlobStore) (L : Allocator) (T : ToValue CustodyLedgerRecord)
    (io cio : nat → AppendIo) (k k1 : CustodyWorld) (calls : list CustodyCall)
    (grant : SignedRecordV1 CustodyGrantV1) (checkpoint : SignedRecordV1 HomeCheckpointV1)
    (handoff : PreparedHandoff)
    (Hactive : is_ok (ensure_writable (k_custody k)) = true)
    (Hepoch : at_epoch (k_config k) (k_custody k))
    (Hprepare : prepare_handoff cio grant checkpoint k = (Ok handoff, k1)) :
  let k2 := custody_calls io cio k1 calls in
  same_ledger k1 k2 ∧ ledger_matches k2 checkpoint
  ∧ ∃ redirect, k_custody k2
      = CustodyFrozen grant checkpoint (Some (ph_prepared handoff)) redirect.
Proof.
  pose proof (prepare_handoff_post io cio grant checkpoint k Hepoch) as P.
  unfold kwp in P. rewrite Hprepare in P. destruct P as [_ P].
  destruct (P eq_refl) as (_ & [Hl Hc]); [done|]. cbn in Hc.
  assert (is_frozen (k_custody k1) = true) as F by (by rewrite Hc).
  destruct (frozen_calls io cio k1 calls F) as [SL FL]. cbv zeta.
  split_and!; [done| |].
  - unfold ledger_matches in *. by rewrite (sg_records _ _ SL).
  - rewrite Hc in FL. inversion FL as [g c p r p' r' Hp _ _]; subst. exists r'.
    by rewrite (Hp _ eq_refl).
Qed.

Lemma fenced_source_is_inert_witness :
  ∃ k2 redirect handoff,
    k_custody k2 = CustodyFrozen custody_sample.grant custody_sample.checkpoint
                     (Some (ph_prepared handoff)) redirect.
Proof.
  destruct (@fenced_source_is_inert toy_sha stuffed_text toy_ed25519 sample_wire null_custody
    api_sample.null_messages custody_sample.services custody_sample.archives custody_sample.store
    custody_sample.memory custody_sample.tag_value custody_sample.io custody_sample.io
    (custody_sample.world custody_sample.signer) custody_sample.fenced custody_sample.calls
    custody_sample.grant custody_sample.checkpoint custody_sample.handoff eq_refl
    custody_sample.world_epoch custody_sample.prepare_run) as (_ & _ & redirect & Hc).
  eexists _, redirect, _. exact Hc.
Defined.
