(* ===== verification/HomeStage.v ===== *)
(** * The destination of a handoff, and opening a Home

    The rest of [cosmos/creatures/function-home/src/custody.rs]: the files that
    complete a moved authority, opening the custody journal, staging and
    activating a checkpoint, lease revisions and signed status; the installation
    of a snapshot from [journal.rs]; and [FunctionHome::open] and [bind_runtime]
    from [lib.rs].

    A Home lives in a directory: two journals and two metadata files. The results
    of the system calls of one operation, the stats behind [Path::exists] included, are
    arguments of that operation. *)

From stdpp Require Import sorting.
From S2P Require Import Prelude Serde GxShape GxHash FnCrypto FnTypes FnWire FnCustody.
From S2P Require Import FnMessages AetherAddress AetherEnvelope Journal HomeLedger HomeApi HomeServe.
From S2P Require Import CustodyArchive HomeCustody.

Definition MAX_AUTHORITY_HISTORY_BYTES : N := 1024 * 1024.

Record ImportedAuthorityHistoryV1 : Type := mkImportedAuthorityHistoryV1 {
  ih_format : string;
  ih_home : HomeId;
  ih_authorities : list HomeAuthorityV1
}.

Record ActiveLeaseRevision : Type := mkActiveLeaseRevision {
  al_lease : SignedRecordV1 HomeLeaseV1;
  al_source_realm : string;
  al_source_node : string;
  al_source_coordinator : string
}.

(** The KMS or enclave of the destination. *)
Class CustodyKeyRewrapper : Type := {
  rw_current_binding : result string (SignedRecordV1 RecipientKeyBindingV1);
  rw_rewrap : SignedRecordV1 CustodyRewrapRequestV1 → list CustodyRewrapSourceV1 →
    result string (SignedRecordV1 CustodyRewrapReceiptV1)
}.

(** JSON of the metadata files. *)
Class StageSerde : Type := {
  ss_history :: ToValue ImportedAuthorityHistoryV1;
  history_from_slice : bytes → result string ImportedAuthorityHistoryV1;
  prepared_from_slice : bytes → result string (SignedRecordV1 CustodyPreparedV1)
}.

(** ** The directory of a Home *)

Record RootDir : Type := mkRootDir {
  rd_ledger : Disk;
  rd_custody : Disk;
  rd_current : option bytes;
  rd_imported : option bytes
}.

(** The two metadata files. *)
Inductive MetaFile : Type := CurrentAuthority | ImportedAuthorities.
Definition rd_file (f : MetaFile) (d : RootDir) : option bytes :=
  match f with CurrentAuthority => rd_current d | ImportedAuthorities => rd_imported d end.
Definition set_file (f : MetaFile) (content : bytes) (d : RootDir) : RootDir :=
  match f with
  | CurrentAuthority => mkRootDir (rd_ledger d) (rd_custody d) (Some content) (rd_imported d)
  | ImportedAuthorities => mkRootDir (rd_ledger d) (rd_custody d) (rd_current d) (Some content)
  end.

Definition rootM : Type → Type := stateR RootDir HomeError.
#[export] Instance rootM_ret : MRet rootM := stateR_ret.
#[export] Instance rootM_bind : MBind rootM := stateR_bind.
Definition have {A} (r : result HomeError A) : rootM A := lift_result r.

Definition on_custody_disk {A} (m : diskM A) : rootM A :=
  fun d => let (r, k) := m (rd_custody d) in
           (journal_err r, mkRootDir (rd_ledger d) k (rd_current d) (rd_imported d)).
Definition on_ledger_disk {A} (m : diskM A) : rootM A :=
  fun d => let (r, k) := m (rd_ledger d) in
           (journal_err r, mkRootDir k (rd_custody d) (rd_current d) (rd_imported d)).

(** ** Metadata files *)

Definition metadata_io (r : result string unit) : result HomeError unit :=
  map_err (fun e => HInvalid ("custody metadata I/O failed: " +:+ e)) r.

Definition metadata_read (io : result string unit) (content : bytes) : result HomeError bytes :=
  _ ← metadata_io io;
  if decide (MAX_AUTHORITY_HISTORY_BYTES < blen content) then
    Err (HCapacity "custody metadata exceeds its configured bound")
  else Ok content.

(** The temporary file is renamed over the destination before the directory is
    synced. *)
Definition metadata_write (mkdir : result string unit) (io : AtomicIo) (f : MetaFile)
    (content : bytes) : rootM unit :=
  _ ← have (metadata_io mkdir);
  _ ← have (metadata_io (ai_create io));
  _ ← have (metadata_io (ai_write io));
  _ ← have (metadata_io (ai_sync io));
  _ ← have (metadata_io (ai_rename io));
  _ ← modify (set_file f content);
  have (metadata_io (ai_dir_sync io)).

(** The system calls on one metadata file; [mi_stat] is false when the stat behind
    [Path::exists] fails, which reads as an absent file. *)
Record MetaIo : Type := mkMetaIo {
  mi_stat : bool;
  mi_read : result string unit;
  mi_mkdir : result string unit;
  mi_write : AtomicIo
}.

(** ** Installing a snapshot *)

Record InstallIo : Type := mkInstallIo {
  ins_mkdir : result string unit;
  ins_stat_log : bool;
  ins_read_log : result string unit;
  ins_log : AtomicIo;
  ins_stat_head : bool;
  ins_read_head : result string unit;
  ins_head : AtomicIo
}.

(** [atomic_write] of the log file: the renamed file is synced, its directory
    entry not yet.  A log replaced after a failed stat is forgotten at once; that a
    crash before the directory is synced may bring it back is not kept. *)
Definition set_log (content : bytes) (d : Disk) : Disk :=
  mkDisk (Some content) (blen content) false (dk_head d) (dk_head_durable d).
Definition atomic_write_log (io : AtomicIo) (content : bytes) : diskM unit :=
  _ ← sys (ai_create io);
  _ ← sys (ai_write io);
  _ ← sys (ai_sync io);
  _ ← sys (ai_rename io);
  _ ← modify (set_log content);
  _ ← sys (ai_dir_sync io);
  modify dir_synced.

Section install.
  Context `{!Sha256} `{!JsonText} `{!Ed25519}.
  Context {T : Type} `{!ToValue T} `{!JournalDecode T}.

(** The record loop: the bytes of the log and the tip. *)
Fixpoint snapshot_lines (chain_schema : string) (caps : JournalCaps) (authority : Authority T)
    (index : N) (b : bytes) (tip : string) (records : list (SignedRecordV1 (ChainEntry T))) :
    result JournalError (bytes * string) :=
  match records with
  | [] => Ok (b, tip)
  | record :: records =>
      if unsigned chain_schema record || negb (authority (sr_signer record) (sr_payload record))
      then Err (JCorrupt ("snapshot record " +:+ dec index
                          +:+ " has an invalid or unexpected signature"))
      else if bool_decide (ce_sequence (sr_payload record) ≠ index)
              || bool_decide (ce_previous_hash (sr_payload record) ≠ tip) then
        Err (JCorrupt ("snapshot record " +:+ dec index +:+ " breaks sequence/hash chain"))
      else
        line ← contract_err (canonical_json_bytes record);
        if decide (max_record_bytes caps < blen line) then
          Err (JLimit ("snapshot record " +:+ dec index +:+ " exceeds byte limit"))
        else
          tip ← contract_err (canonical_hash record);
          snapshot_lines chain_schema caps authority (index + 1) (b ++ line ++ [NEWLINE]) tip records
  end.

(** The head is a hash of one of the records, or the empty prefix. *)
Definition head_is_prefix (records : list (SignedRecordV1 (ChainEntry T))) (parsed : Head) :
    result JournalError bool :=
  if decide (N.of_nat (length records) < hd_next_sequence parsed) then Ok false
  else if decide (hd_next_sequence parsed = 0) then Ok true
  else
    match records !! N.to_nat (hd_next_sequence parsed - 1) with
    | Some record =>
        h ← contract_err (canonical_hash record);
        Ok (bool_decide (h = hd_tip_hash parsed))
    | None => Ok false
    end.

Definition install_log (io : InstallIo) (caps : JournalCaps) (b : bytes) : diskM unit :=
  log ← gets dk_log;
  match found (ins_stat_log io) log with
  | Some content =>
      existing ← lift_result (bounded_read (ins_read_log io) content (max_log_bytes caps));
      if decide (existing ≠ b) then
        lift_result (Err (JCorrupt "refusing to replace a different installed journal snapshot"))
      else mret tt
  | None => atomic_write_log (ins_log io) b
  end.

Definition install_head (io : InstallIo) (records : list (SignedRecordV1 (ChainEntry T)))
    (tip : string) : diskM unit :=
  head_bytes ← lift_result
    (contract_err (canonical_json_bytes (mkHead (N.of_nat (length records)) tip)));
  head ← gets dk_head;
  match found (ins_stat_head io) head with
  | Some content =>
      existing ← lift_result (bounded_read (ins_read_head io) content (16 * 1024));
      if decide (existing = head_bytes) then mret tt
      else
        parsed ← lift_result (map_err (fun e => JCorrupt ("invalid installed head: " +:+ e))
                                (decode_head existing));
        is_prefix ← lift_result (head_is_prefix records parsed);
        if negb is_prefix then
          lift_result
            (Err (JCorrupt "installed journal head is not a committed snapshot prefix"))
        else atomic_write (ins_head io) head_bytes
  | None => atomic_write (ins_head io) head_bytes
  end.

Definition install_snapshot (io : InstallIo) (name chain_schema : string)
    (records : list (SignedRecordV1 (ChainEntry T))) (caps : JournalCaps)
    (authority : Authority T) : diskM unit :=
  if decide (max_records caps = 0 ∨ max_record_bytes caps = 0) then
    lift_result (Err (JLimit "caps must be non-zero"))
  else if negb (journal_name_ok name) then
    lift_result (Err (JCorrupt ("invalid journal name `" +:+ name +:+ "`")))
  else if is_blank chain_schema || bool_decide (MAX_ID_BYTES < slen chain_schema) then
    lift_result (Err (JCorrupt "invalid chain schema"))
  else if decide (max_records caps < N.of_nat (length records)) then
    lift_result (Err (JLimit ("snapshot has " +:+ dec (N.of_nat (length records))
                              +:+ " records, exceeds " +:+ dec (max_records caps))))
  else
    lines ← lift_result (snapshot_lines chain_schema caps authority 0 [] GENESIS records);
    _ ← sys (ins_mkdir io);
    _ ← install_log io caps (fst lines);
    install_head io records (snd lines).
End install.

(** ** The authority of a moved Home *)

Definition with_prepared (prepared : SignedRecordV1 CustodyPreparedV1) (c : HomeConfig) :
    HomeConfig :=
  let a := cf_authority c in
  mkHomeConfig (cf_home c) (cf_epoch c) (cf_coordinator c) (cf_realm c) (cf_node c)
    (mkHomeAuthorityV1 (ha_abode a) (ha_operational a) (Some prepared))
    (cf_historical_authorities c) (cf_max_jobs c) (cf_max_checkpoint_bytes c) (cf_journal_caps c).
Definition with_historical (authorities : list HomeAuthorityV1) (c : HomeConfig) : HomeConfig :=
  mkHomeConfig (cf_home c) (cf_epoch c) (cf_coordinator c) (cf_realm c) (cf_node c)
    (cf_authority c) authorities (cf_max_jobs c) (cf_max_checkpoint_bytes c) (cf_journal_caps c).
Definition with_config_coordinator (coordinator : string) (c : HomeConfig) : HomeConfig :=
  mkHomeConfig (cf_home c) (cf_epoch c) coordinator (cf_realm c) (cf_node c)
    (cf_authority c) (cf_historical_authorities c) (cf_max_jobs c) (cf_max_checkpoint_bytes c)
    (cf_journal_caps c).
Definition next_lease (sequence : N) (coordinator : string) (l : HomeLeaseV1) : HomeLeaseV1 :=
  mkHomeLeaseV1 (hl_home l) (hl_epoch l) sequence (hl_realm l) (hl_node l) coordinator
    (hl_authority l) (hl_handoff l) (hl_custody_grant l) (hl_checkpoint_hash l)
    (hl_issued_at_unix_ms l) (hl_expires_at_unix_ms l).

(** A [BTreeMap] by epoch, in key order. *)
Definition epoch_le {A} (a b : N * A) : Prop := a.1 ≤ b.1.
#[export] Instance epoch_le_dec {A} : RelDecision (@epoch_le A).
Proof. unfold epoch_le. intros a b. apply _. Defined.
Definition in_epoch_order {A} (m : gmap N A) : list (N * A) :=
  merge_sort epoch_le (map_to_list m).

Section authority.
  Context `{!Sha256} `{!JsonText} `{!Ed25519} `{!WireSerde} `{!CustodySerde} `{!StageSerde}.

Definition install_prepared_authority (config : HomeConfig)
    (prepared : SignedRecordV1 CustodyPreparedV1) : result HomeError HomeConfig :=
  let g := sr_payload (cp_grant (sr_payload prepared)) in
  _ ← invalid (verify_custody_prepared prepared);
  if bool_decide (cg_home g ≠ cf_home config)
     || bool_decide (cg_to_epoch g ≠ cf_epoch config)
     || bool_decide (cg_destination_realm g ≠ cf_realm config)
     || bool_decide (cg_destination_node g ≠ cf_node config)
     || bool_decide (cg_destination_operational_key g ≠ ha_operational (cf_authority config))
     || bool_decide (ha_abode (cg_source_authority g) ≠ ha_abode (cf_authority config)) then
    Err (HUnauthorized
      "Prepared proof does not complete this exact destination authority/location")
  else
    let config := with_prepared prepared config in
    _ ← for_each (fun capability =>
          invalid (HomeAuthorityV1_verify (cf_authority config) (cf_home config)
                     (cf_epoch config) capability))
          [CapJobHome; CapJobControl; CapCustody; CapLocate];
    Ok config.

(** One imported authority. *)
Definition merge_imported (config : HomeConfig) (by_epoch : gmap N HomeAuthorityV1)
    (authority : HomeAuthorityV1) : result HomeError (gmap N HomeAuthorityV1) :=
  let epoch := epoch_of authority in
  if decide (cf_epoch config ≤ epoch) then
    Err (HConfiguration "imported authority epoch is not historical at this destination")
  else
    match by_epoch !! epoch with
    | Some existing =>
        if decide (existing ≠ authority) then
          Err (HConflict ("two root-proven authority chains claim imported epoch " +:+ dec epoch))
        else Ok by_epoch
    | None => Ok (<[epoch := authority]> by_epoch)
    end.

Definition merge_imported_authorities (io : MetaIo) (config : HomeConfig) : rootM HomeConfig :=
  file ← gets (rd_file ImportedAuthorities);
  match found (mi_stat io) file with
  | None => mret config
  | Some content =>
      b ← have (metadata_read (mi_read io) content);
      imported ← have (map_err (fun e => HInvalid ("imported authority history is corrupt: " +:+ e))
                         (history_from_slice b));
      _ ← have (reject (bool_decide (ih_format imported ≠ CHECKPOINT_FORMAT)
                        || bool_decide (ih_home imported ≠ cf_home config))
                  (HInvalid "imported authority history belongs to another Home/format"));
      _ ← have (authority_map (ih_authorities imported) (cf_home config));
      let configured :=
        foldl (fun m a => <[epoch_of a := a]> m) ∅ (cf_historical_authorities config) in
      by_epoch ← have (fold_each (merge_imported config) configured (ih_authorities imported));
      mret (with_historical (in_epoch_order by_epoch).*2 config)
  end.

Definition merge_current_authority (io : MetaIo) (config : HomeConfig) : rootM HomeConfig :=
  on_disk ← gets (rd_file CurrentAuthority);
  let file := found (mi_stat io) on_disk in
  let configured := ha_prepared (cf_authority config) in
  if decide (cf_epoch config = 1) then
    _ ← have (reject (bool_decide (is_Some configured) || bool_decide (is_Some file))
                (HConflict "genesis Home must not carry persisted moved-epoch authority"));
    mret config
  else
    persisted ← match file with
                | Some content =>
                    b ← have (metadata_read (mi_read io) content);
                    prepared ← have (map_err (fun e =>
                      HInvalid ("current authority proof is corrupt: " +:+ e))
                      (prepared_from_slice b));
                    mret (Some prepared)
                | None => mret None
                end;
    _ ← have (reject match configured, persisted with
                     | Some configured, Some persisted => bool_decide (configured ≠ persisted)
                     | _, _ => false
                     end
                (HConflict "configured and persisted current authority proofs differ"));
    match persisted, configured with
    | Some prepared, _ | None, Some prepared => have (install_prepared_authority config prepared)
    | None, None => mret config
    end.

Definition persist_current_authority (io : MetaIo) (config : HomeConfig)
    (prepared : SignedRecordV1 CustodyPreparedV1) : rootM HomeConfig :=
  completed ← have (install_prepared_authority config prepared);
  b ← have (invalid (canonical_json_bytes prepared));
  _ ← have (reject (bool_decide (MAX_AUTHORITY_HISTORY_BYTES < blen b))
              (HCapacity "current authority proof exceeds its bounded metadata cap"));
  file ← gets (rd_file CurrentAuthority);
  _ ← match found (mi_stat io) file with
      | Some content =>
          existing ← have (metadata_read (mi_read io) content);
          have (reject (bool_decide (existing ≠ b))
                  (HConflict "destination already contains a different current authority proof"))
      | None => metadata_write (mi_mkdir io) (mi_write io) CurrentAuthority b
      end;
  mret completed.

Definition persist_imported_authorities (io : MetaIo) (config : HomeConfig)
    (authorities : list HomeAuthorityV1) : rootM unit :=
  _ ← have (authority_map authorities (cf_home config));
  b ← have (invalid (canonical_json_bytes
              (mkImportedAuthorityHistoryV1 CHECKPOINT_FORMAT (cf_home config) authorities)));
  _ ← have (reject (bool_decide (MAX_AUTHORITY_HISTORY_BYTES < blen b))
              (HCapacity "imported authority history exceeds its bounded metadata cap"));
  file ← gets (rd_file ImportedAuthorities);
  match found (mi_stat io) file with
  | Some content =>
      existing ← have (metadata_read (mi_read io) content);
      have (reject (bool_decide (existing ≠ b))
              (HConflict "destination already contains a different imported authority history"))
  | None => metadata_write (mi_mkdir io) (mi_write io) ImportedAuthorities b
  end.
End authority.

(** ** The custody journal *)

Section custody_journal.
  Context `{!Sha256} `{!JsonText} `{!Ed25519} `{!WireSerde} `{!CustodySerde}.
  Context `{!ToValue CustodyLedgerRecord} `{!JournalDecode CustodyLedgerRecord}.

Definition open_custody_journal (io : OpenIo) (config : HomeConfig) (signer : AuthoritySigner)
    (allow_initialized : bool) :
    rootM (Journal * Inner CustodyLedgerRecord * option CustodyState) :=
  authorized ← have (configured_authorities config);
  opened ← on_custody_disk
    (open_with_authority io CUSTODY_JOURNAL_NAME CUSTODY_JOURNAL_SCHEMA signer
       (cf_journal_caps config)
       (fun candidate _ => bool_decide (is_Some (authorized !! candidate))));
  let journal : Journal := fst opened in
  let inner : Inner CustodyLedgerRecord := snd opened in
  state ← have (replay_custody config allow_initialized None (in_records inner));
  _ ← match state with
      | Some recovered =>
          let reservations := custody_reservations recovered in
          remaining ← have (journal_err (remaining_records journal inner));
          have (reject (bool_decide (remaining < reservations))
                  (HCapacity ("recovered custody phase requires " +:+ dec reservations
                              +:+ " safety records beyond the configured journal cap")))
      | None => mret tt
      end;
  mret (journal, inner, state).

(** [journal.append(record)] on an opened custody journal. *)
Definition stage_append (io : AppendIo) (journal : Journal) (inner : Inner CustodyLedgerRecord)
    (record : CustodyLedgerRecord) : rootM (Inner CustodyLedgerRecord) :=
  on_custody_disk (fun k =>
    let '(r, inner, k) := append journal io record inner k in
    (_ ← r; Ok inner, k)).

Definition open_or_initialize_custody (io : OpenIo) (aio : AppendIo) (config : HomeConfig)
    (signer : AuthoritySigner) (home_journal_empty : bool) :
    rootM (Journal * Inner CustodyLedgerRecord * CustodyState) :=
  opened ← open_custody_journal io config signer true;
  let '(journal, inner, state) := opened in
  match state with
  | Some (CustodyStaged _ _) =>
      have (Err (HState "destination is staged but inactive; complete activation before opening"))
  | Some state => mret (journal, inner, state)
  | None =>
      if bool_decide (cf_epoch config ≠ 1) || negb home_journal_empty then
        have (Err (HState "missing custody genesis for an existing/non-genesis Home"))
      else
        _ ← have (custody_capacity journal inner 2 "custody genesis");
        inner ← stage_append aio journal inner
          (CInitialized (cf_home config) (cf_epoch config) 1 (cf_coordinator config));
        mret (journal, inner,
              CustodyActive (cf_epoch config) None 1 (cf_coordinator config) None)
  end.

Definition sign_status (config : HomeConfig) (signer : AuthoritySigner) (state : CustodyState) :
    result HomeError (SignedRecordV1 HomeCustodyStatusV1) :=
  phase ← match state return result HomeError HomeCustodyPhaseV1 with
          | CustodyActive _ _ _ _ None =>
              if decide (cf_epoch config = 1) then Ok (PhaseActive None None)
              else Err (HState "non-genesis active Home is missing its activation proof")
          | CustodyActive _ _ _ _ (Some (staged, lease)) =>
              lease ← signing (SignedRecordV1_sign SCHEMA_LOCATE_V1 lease signer);
              _ ← invalid (verify_home_lease lease);
              Ok (PhaseActive (Some staged) (Some lease))
          | CustodyFrozen _ _ (Some prepared) redirect => Ok (PhaseFrozen prepared redirect)
          | CustodyStaged _ (Some staged) => Ok (PhaseStaged staged)
          | CustodyFrozen _ _ None _ =>
              Err (HState
                "source is fenced but its Prepared proof has not been persisted; retry Prepare")
          | CustodyStaged _ None =>
              Err (HState "destination stage is incomplete; retry Stage before requesting status")
          end;
  status ← signing (SignedRecordV1_sign SCHEMA_HOME_V1
    (mkHomeCustodyStatusV1 (cf_home config) (cf_epoch config) (cf_authority config) phase) signer);
  _ ← invalid (verify_home_custody_status status);
  Ok status.
End custody_journal.

(** ** Staging and activating *)

(** The results of the system calls of one custody operation on a directory. *)
Record StageIo : Type := mkStageIo {
  sio_current : MetaIo;
  sio_imported : MetaIo;
  sio_open : OpenIo;
  sio_append : AppendIo;
  sio_install : InstallIo;
  sio_open_ledger : OpenIo;
  sio_receipt : AppendIo
}.

(** Records of the ledger belong to the epoch of the key that signed them. *)
Definition epoch_authority (authorized : gmap string N) : Authority HomeLedgerRecord :=
  fun candidate entry =>
    match authorized !! candidate with
    | Some epoch =>
        negb (bool_decide (lr_events (ce_event entry) = []))
        && forallb (fun event => bool_decide (je_home_epoch (sr_payload event) = epoch))
             (lr_events (ce_event entry))
        && match lr_grant (ce_event entry) with
           | Some item => bool_decide (eg_home_epoch (sr_payload item) = epoch)
           | None => true
           end
    | None => false
    end.

Section destination.
  Context `{!Sha256} `{!JsonText} `{!Ed25519} `{!WireSerde} `{!CustodySerde} `{!StageSerde}.
  Context `{!ArchiveSerde} `{!CheckpointBlobStore} `{!CustodyKeyRewrapper}.
  Context `{!ToValue CustodyLedgerRecord} `{!JournalDecode CustodyLedgerRecord}.
  Context `{!JournalDecode HomeLedgerRecord}.

Definition verify_installed_archive (io : OpenIo) (config : HomeConfig) (signer : AuthoritySigner)
    (archive : HomeCheckpointArchiveV1) : rootM unit :=
  authorized ← have (authority_map (ar_authorities archive) (ar_home archive));
  opened ← on_ledger_disk
    (open_with_authority io HOME_JOURNAL_NAME HOME_JOURNAL_SCHEMA signer (cf_journal_caps config)
       (epoch_authority authorized));
  let inner : Inner HomeLedgerRecord := snd opened in
  have (reject (bool_decide (length (in_records inner) ≠ length (ar_records archive))
                || bool_decide (in_tip_hash inner ≠ ar_log_root archive))
          (HConflict "installed destination journal differs from staged checkpoint")).

(** The signed request for the rewrap a grant declares. *)
Definition rewrap_request (config : HomeConfig) (signer : AuthoritySigner)
    (prepared : SignedRecordV1 CustodyPreparedV1) :
    result HomeError (option (SignedRecordV1 CustodyRewrapRequestV1)) :=
  let p := sr_payload prepared in
  let g := sr_payload (cp_grant p) in
  match cg_destination_rewrap g with
  | Some requirement =>
      binding ← map_err (fun e => HState ("custody key rewrapper unavailable: " +:+ e))
                  rw_current_binding;
      _ ← verify_current_recipient_binding config binding;
      _ ← reject (bool_decide (binding ≠ cr_destination_binding requirement))
            (HUnauthorized "custody rewrapper does not serve the exact destination binding");
      prepared_hash ← invalid (canonical_hash prepared);
      requirement_hash ← invalid (canonical_hash requirement);
      inventory_hash ← ok_or (cp_rewrap_inventory_hash p)
        (HInvalid "Prepared proof omits its declared rewrap inventory");
      item_count ← ok_or (cp_rewrap_item_count p)
        (HInvalid "Prepared proof omits its declared rewrap count");
      request ← signing (SignedRecordV1_sign SCHEMA_CUSTODY_REWRAP_V1
        (mkCustodyRewrapRequestV1 (cg_home g) (cg_handoff g) prepared_hash (cp_grant_hash p)
           (cp_checkpoint_hash p) requirement_hash inventory_hash item_count) signer);
      _ ← invalid (verify_custody_rewrap_request request prepared);
      Ok (Some request)
  | None => Ok None
  end.

(** The receipt of the rewrapper for it. *)
Definition rewrap_receipt (request : option (SignedRecordV1 CustodyRewrapRequestV1))
    (inventory : list CustodyRewrapSourceV1) (prepared : SignedRecordV1 CustodyPreparedV1) :
    result HomeError (option (SignedRecordV1 CustodyRewrapReceiptV1)) :=
  match request with
  | Some request =>
      receipt ← map_err (fun e => HState ("custody key rewrapper refused inventory: " +:+ e))
                  (rw_rewrap request inventory);
      _ ← reject (bool_decide (wr_request (sr_payload receipt) ≠ request))
            (HConflict "custody rewrapper receipt does not contain the exact signed request");
      _ ← invalid (verify_custody_rewrap_receipt receipt prepared);
      Ok (Some receipt)
  | None => Ok None
  end.

(** The marker of the stage: the journal to go on with, or the receipt of a
    handoff that is already active. *)
Definition stage_marker (io : StageIo) (journal : Journal) (inner : Inner CustodyLedgerRecord)
    (state : option CustodyState) (prepared : SignedRecordV1 CustodyPreparedV1) :
    rootM (Inner CustodyLedgerRecord + SignedRecordV1 CustodyStagedV1) :=
  let different :=
    have (Err (HConflict "destination contains a different custody state")) in
  match state with
  | Some (CustodyStaged existing _) =>
      same ← have (same_record existing prepared);
      if negb same then different else mret (inl inner)
  | Some (CustodyActive _ _ _ _ (Some (staged, _))) =>
      same ← have (same_record (st_prepared (sr_payload staged)) prepared);
      if negb same then different else mret (inr staged)
  | None =>
      _ ← have (custody_capacity journal inner 4 "destination Staged marker");
      inner ← stage_append (sio_append io) journal inner (CStaged prepared);
      mret (inl inner)
  | _ => different
  end.

(** The receipt that closes the stage. *)
Definition stage_receipt (io : StageIo) (config : HomeConfig) (signer : AuthoritySigner)
    (journal : Journal) (inner : Inner CustodyLedgerRecord)
    (prepared : SignedRecordV1 CustodyPreparedV1)
    (request : option (SignedRecordV1 CustodyRewrapRequestV1))
    (inventory : list CustodyRewrapSourceV1) : rootM (SignedRecordV1 CustodyStagedV1) :=
  receipt ← have (rewrap_receipt request inventory prepared);
  prepared_hash ← have (invalid (canonical_hash prepared));
  grant_hash ← have (invalid (canonical_hash (cp_grant (sr_payload prepared))));
  checkpoint_hash ← have (invalid (canonical_hash (cp_checkpoint (sr_payload prepared))));
  staged ← have (signing (SignedRecordV1_sign SCHEMA_HOME_V1
    (mkCustodyStagedV1 prepared prepared_hash grant_hash checkpoint_hash (cf_realm config)
       (cf_node config) (cf_coordinator config) receipt) signer));
  _ ← have (invalid (verify_custody_staged staged));
  _ ← have (custody_capacity journal inner 3 "destination StagingReceipt");
  _ ← stage_append (sio_receipt io) journal inner (CStagingReceipt staged);
  mret staged.

Definition stage_handoff_with_rewrapper (io : StageIo) (config : HomeConfig)
    (signer : AuthoritySigner) (prepared : SignedRecordV1 CustodyPreparedV1) :
    rootM (SignedRecordV1 CustodyStagedV1) :=
  let grant := cp_grant (sr_payload prepared) in
  let checkpoint := cp_checkpoint (sr_payload prepared) in
  _ ← have (invalid (verify_custody_prepared prepared));
  _ ← have (verify_destination_handoff config (as_public_key signer) grant checkpoint);
  config ← persist_current_authority (sio_current io) config prepared;
  archive ← have (read_archive config checkpoint);
  _ ← have (validate_archive config checkpoint archive);
  _ ← have (verify_required_blobs archive);
  inventory ← have (verify_prepared_archive_rewrap prepared archive);
  request ← have (rewrap_request config signer prepared);
  _ ← persist_imported_authorities (sio_imported io) config (ar_authorities archive);
  opened ← open_custody_journal (sio_open io) config signer false;
  let '(journal, inner, state) := opened in
  marked ← stage_marker io journal inner state prepared;
  match marked with
  | inr staged => mret staged
  | inl inner =>
      authorities ← have (authority_map (ar_authorities archive) (ar_home archive));
      _ ← have (verify_complete_authority_lineage (ar_authorities archive) (ar_home archive));
      _ ← on_ledger_disk
        (install_snapshot (sio_install io) HOME_JOURNAL_NAME HOME_JOURNAL_SCHEMA
           (ar_records archive) (cf_journal_caps config) (epoch_authority authorities));
      match state with
      | Some (CustodyStaged _ (Some staged)) => mret staged
      | _ => stage_receipt io config signer journal inner prepared request inventory
      end
  end.

(** The lease of an activation: the one of the staged handoff, made durable first,
    or the one the active Home already has. *)
Definition activation_lease (io : StageIo) (config : HomeConfig) (signer : AuthoritySigner)
    (journal : Journal) (inner : Inner CustodyLedgerRecord) (state : option CustodyState)
    (staged : SignedRecordV1 CustodyStagedV1) : rootM HomeLeaseV1 :=
  let none :=
    have (Err (HState "destination has no exact, receipt-bearing staged handoff to activate")) in
  match state with
  | Some (CustodyStaged prepared (Some persisted)) =>
      same ← have (same_record persisted staged);
      same ← (if negb same then mret false
              else have (same_record (st_prepared (sr_payload staged)) prepared));
      if negb same then none
      else
        let grant := cp_grant (sr_payload prepared) in
        let checkpoint := cp_checkpoint (sr_payload prepared) in
        _ ← have (verify_destination_handoff config (as_public_key signer) grant checkpoint);
        archive ← have (read_archive config checkpoint);
        _ ← have (validate_archive config checkpoint archive);
        _ ← have (verify_required_blobs archive);
        _ ← have (verify_prepared_archive_rewrap prepared archive);
        _ ← verify_installed_archive (sio_open_ledger io) config signer archive;
        lease ← have (destination_lease config grant checkpoint);
        _ ← have (custody_capacity journal inner 2 "destination Activated fence");
        staged_hash ← have (invalid (canonical_hash staged));
        _ ← stage_append (sio_append io) journal inner (CActivated staged_hash lease);
        mret lease
  | Some (CustodyActive _ _ _ _ (Some (persisted, lease))) =>
      same ← have (same_record persisted staged);
      if negb same then
        have (Err (HConflict "activation request names a different staging receipt"))
      else mret lease
  | _ => none
  end.

Definition activate_staged_handoff (io : StageIo) (config : HomeConfig) (signer : AuthoritySigner)
    (staged : SignedRecordV1 CustodyStagedV1) : rootM (SignedRecordV1 HomeLeaseV1) :=
  config ← merge_current_authority (sio_current io) config;
  _ ← have (invalid (verify_custody_staged staged));
  opened ← open_custody_journal (sio_open io) config signer false;
  let '(journal, inner, state) := opened in
  lease ← activation_lease io config signer journal inner state staged;
  signed ← have (signing (SignedRecordV1_sign SCHEMA_LOCATE_V1 lease signer));
  _ ← have (invalid (verify_home_lease signed));
  mret signed.

Definition refresh_active_destination_lease (io : StageIo) (config : HomeConfig)
    (signer : AuthoritySigner) : rootM (option ActiveLeaseRevision) :=
  opened ← open_custody_journal (sio_open io) config signer false;
  let '(journal, inner, state) := opened in
  match state with
  | None | Some (CustodyStaged _ _) => mret None
  | Some (CustodyActive _ _ _ _ (Some (staged, current))) =>
      sequence ← have (ok_or (u64_checked_add (hl_lease_sequence current) 1)
                         (HState "home lease sequence is exhausted"));
      let next := next_lease sequence (cf_coordinator config) current in
      _ ← have (invalid (HomeLeaseV1_validate next));
      _ ← have (reject (negb (is_home_lease_coordinator_revision current next))
                  (HConflict "coordinator refresh changed an immutable Home lease binding"));
      _ ← have (custody_capacity journal inner 2 "active lease revision");
      _ ← stage_append (sio_append io) journal inner (CLeaseRebound next);
      lease ← have (signing (SignedRecordV1_sign SCHEMA_LOCATE_V1 next signer));
      _ ← have (invalid (verify_home_lease lease));
      let prepared := sr_payload (st_prepared (sr_payload staged)) in
      let grant := sr_payload (cp_grant prepared) in
      mret (Some (mkActiveLeaseRevision lease (cg_source_realm grant) (cg_source_node grant)
                    (cp_source_coordinator prepared)))
  | Some _ => have (Err (HState "custody destination is not an active moved Home"))
  end.

Definition destination_custody_status (io : StageIo) (config : HomeConfig)
    (signer : AuthoritySigner) : rootM (SignedRecordV1 HomeCustodyStatusV1) :=
  config ← merge_current_authority (sio_current io) config;
  opened ← open_custody_journal (sio_open io) config signer false;
  let '(_, state) := opened in
  state ← have (ok_or state (HState "destination has no custody state"));
  have (sign_status config signer state).
End destination.

(** ** Opening a Home *)

(** The results of the system calls of [FunctionHome::open]. *)
Record HomeOpenIo : Type := mkHomeOpenIo {
  ho_imported : MetaIo;
  ho_current : MetaIo;
  ho_ledger : OpenIo;
  ho_custody : OpenIo;
  ho_genesis : AppendIo
}.

Definition config_err {A} (r : result ContractError A) : result HomeError A :=
  map_err (fun e => HConfiguration (ContractError_to_string e)) r.

Section open.
  Context `{!Sha256} `{!JsonText} `{!Ed25519} `{!WireSerde} `{!CustodySerde} `{!StageSerde}.
  Context `{!HomeServices} `{!ArchiveSerde} `{!CheckpointBlobStore} `{!CustodyKeyRewrapper}.
  Context `{!ToValue CustodyLedgerRecord} `{!JournalDecode CustodyLedgerRecord}.
  Context `{!JournalDecode HomeLedgerRecord}.

(** One historical authority of the map of authorised keys. *)
Definition authorize_epoch (config : HomeConfig) (authorized : gmap string N)
    (authority : HomeAuthorityV1) : result HomeError (gmap string N) :=
  let epoch := epoch_of authority in
  if decide (cf_epoch config ≤ epoch) then
    Err (HConfiguration "historical authority epoch must precede the current epoch")
  else
    _ ← config_err (HomeAuthorityV1_verify authority (cf_home config) epoch CapJobHome);
    if decide (is_Some (authorized !! operational_key authority)) then
      Err (HConfiguration "one operational key is granted for multiple epochs")
    else Ok (<[operational_key authority := epoch]> authorized).

(** The configuration checks, and the epochs of the authorised keys. *)
Definition authorized_epochs (config : HomeConfig) (signer : AuthoritySigner) :
    result HomeError (gmap string N) :=
  _ ← invalid (HomeId_validate (cf_home config));
  _ ← reject (bool_decide (cf_epoch config = 0) || bool_decide (cf_max_jobs config = 0)
              || bool_decide (cf_max_checkpoint_bytes config = 0)
              || is_blank (cf_coordinator config) || is_blank (cf_realm config)
              || is_blank (cf_node config))
        (HConfiguration "epoch, max_jobs, and coordinator must be non-zero/non-empty");
  let a := cf_authority config in
  _ ← config_err (HomeAuthorityV1_verify a (cf_home config) (cf_epoch config) CapJobHome);
  _ ← config_err (HomeAuthorityV1_verify a (cf_home config) (cf_epoch config) CapJobControl);
  _ ← reject (bool_decide (operational_key a ≠ as_public_key signer))
        (HConfiguration "current authority does not grant the injected operational signer");
  fold_each (authorize_epoch config) {[as_public_key signer := cf_epoch config]}
    (cf_historical_authorities config).

(** The recipient binding the durable state needs. *)
Definition recovered_binding (config : HomeConfig) (state : HomeState)
    (records : list (SignedRecordV1 (ChainEntry HomeLedgerRecord))) :
    result HomeError (option (SignedRecordV1 RecipientKeyBindingV1)) :=
  overlay_binding ← active_overlay_recipient_binding config state;
  direct_constraint ← match overlay_binding return result HomeError (option (string * string)) with
                      | None => durable_direct_recipient_constraint (cf_home config) records
                      | Some _ => Ok None
                      end;
  match overlay_binding, direct_constraint with
  | None, None => Ok None
  | _, _ =>
      binding ← map_err (fun e => HState ("custody key rewrapper unavailable: " +:+ e))
                  rw_current_binding;
      _ ← verify_current_recipient_binding config binding;
      _ ← match overlay_binding, direct_constraint with
          | Some required, _ =>
              reject (bool_decide (binding ≠ required))
                (HUnauthorized
                   "custody rewrapper binding differs from the effective checkpoint overlay")
          | None, Some (required_hash, required_suite) =>
              h ← invalid (canonical_hash binding);
              reject (bool_decide (h ≠ required_hash)
                      || bool_decide (rk_suite (sr_payload binding) ≠ required_suite))
                (HUnauthorized
                   "custody rewrapper binding differs from durable direct Home envelopes")
          | None, None => Ok tt
          end;
      Ok (Some binding)
  end.

(** [open_with_checkpoint_store_and_rewrapper]: the directory the Home leaves, and
    the Home with its journals' files. *)
Definition FunctionHome_open (io : HomeOpenIo) (config : HomeConfig) (signer : AuthoritySigner) :
    rootM CustodyWorld :=
  config ← merge_imported_authorities (ho_imported io) config;
  config ← merge_current_authority (ho_current io) config;
  authorized ← have (authorized_epochs config signer);
  opened ← on_ledger_disk
    (open_with_authority (ho_ledger io) HOME_JOURNAL_NAME HOME_JOURNAL_SCHEMA signer
       (cf_journal_caps config) (epoch_authority authorized));
  let journal : Journal := fst opened in
  let inner : Inner HomeLedgerRecord := snd opened in
  custody ← open_or_initialize_custody (ho_custody io) (ho_genesis io) config signer
    (bool_decide (in_records inner = []));
  let '(custody_journal, custody_inner, custody_state) := custody in
  state ← have (replay_ledger config (HomeState_new custody_state)
                  (map (fun record => ce_event (sr_payload record)) (in_records inner)));
  reservations ← have (home_reservations state);
  remaining ← have (journal_err (remaining_records journal inner));
  _ ← have (reject (bool_decide (remaining < reservations))
              (HCapacity ("recovered Home requires " +:+ dec reservations
                 +:+ " terminal/control-ack slots beyond the configured journal cap")));
  _ ← have (reject (bool_decide (cf_max_jobs config < N.of_nat (size (hs_jobs state))))
              (HCapacity "recovered jobs exceed configured cap"));
  let config :=
    match active_coordinator (hs_custody state) with
    | Some coordinator => with_config_coordinator coordinator config
    | None => config
    end in
  binding ← have (recovered_binding config state (in_records inner));
  d ← gets (fun d => d);
  mret (mkCustodyWorld
          (mkHomeWorld (mkFunctionHome config journal inner custody_inner None) state
             (rd_ledger d) binding HomeRecoverySweep_default None 0)
          custody_journal (rd_custody d) 0).
End open.

(** ** Binding a Home to the bus *)

Section bind.
  Context `{!Sha256} `{!JsonText} `{!Ed25519} `{!WireSerde} `{!CustodySerde} `{!MessageSerde}.
  Context `{!HomeServices} `{!HomeCodec} `{!ToValue CustodyLedgerRecord} (cio : nat → AppendIo).

Definition signed_custody_status : custodyM (SignedRecordV1 HomeCustodyStatusV1) :=
  _ ← journals_healthy;
  cf ← gets k_config;
  custody ← gets k_custody;
  must (sign_status cf svc_signer custody).

(** [bind_runtime]: what is emitted on the bus, and the outcome with the recovery
    dispatches; a route that cannot be made durable leaves the Home inert. *)
Definition bind_runtime (me : N) (emit_recovery : bool) (k : CustodyWorld) :
    list Dispatch * Outcome * CustodyWorld :=
  let k := on_world (set_me me) k in
  let coordinator := dec me in
  let (r, k) := refresh_runtime_route cio coordinator k in
  match r with
  | Err error =>
      ([], Outcome_none, on_world (on_function_home (with_failure (HomeError_to_string error))) k)
  | Ok _ =>
      let k := on_world (on_function_home (with_home_coordinator coordinator)) k in
      let (recovery, w) := recovery_dispatches (k_home k) in
      (if emit_recovery then out_dispatches recovery else [], recovery,
       on_world (fun _ => w) k)
  end.
End bind.
