(* ===== verification/StageLaws.v ===== *)
(** * Laws of a handoff

    What a custody state proves about itself, that two Homes never both write
    after a handoff, and that an installed snapshot opens as the chain it was
    taken from. *)

From S2P Require Import Prelude Serde GxShape GxHash FnCrypto FnTypes FnWire FnCustody.
From S2P Require Import FnMessages Journal HomeLedger HomeLaws HomeGrowth HomeApi HomeProtocol.
From S2P Require Import HomeApiLaws CustodyArchive HomeCustody CustodyLaws HomeStage.

(** ** Evidence *)

Section evidence.
  Context `{!Sha256} `{!JsonText} `{!Ed25519} `{!WireSerde} `{!CustodySerde}.

Definition same_hash {T} `{!ToValue T} (x y : SignedRecordV1 T) : Prop :=
  ∃ h, canonical_hash x = Ok h ∧ canonical_hash y = Ok h.

(** A handoff a configuration may receive. *)
Definition received (cf : HomeConfig) (prepared : SignedRecordV1 CustodyPreparedV1) : Prop :=
  is_ok (verify_custody_prepared prepared) = true
  ∧ is_ok (verify_destination_handoff cf (operational_key (cf_authority cf))
             (cp_grant (sr_payload prepared)) (cp_checkpoint (sr_payload prepared))) = true.

Definition staged_for (prepared : SignedRecordV1 CustodyPreparedV1)
    (staged : SignedRecordV1 CustodyStagedV1) : Prop :=
  is_ok (verify_custody_staged staged) = true
  ∧ same_hash (st_prepared (sr_payload staged)) prepared.

(** The lease of a handoff, but for its sequence and coordinator. *)
Definition leased (cf : HomeConfig) (prepared : SignedRecordV1 CustodyPreparedV1)
    (lease : HomeLeaseV1) : Prop :=
  ∃ base, destination_lease cf (cp_grant (sr_payload prepared))
            (cp_checkpoint (sr_payload prepared)) = Ok base
    ∧ lease = next_lease (hl_lease_sequence lease) (hl_coordinator lease) base.

(** What a custody state proves. *)
Definition proved (cf : HomeConfig) (c : CustodyState) : Prop :=
  match c with
  | CustodyActive epoch handoff route coordinator None =>
      epoch = 1 ∧ cf_epoch cf = 1 ∧ handoff = None ∧ is_blank coordinator = false
  | CustodyActive epoch handoff route coordinator (Some (staged, lease)) =>
      epoch = cf_epoch cf ∧ route = hl_lease_sequence lease ∧ coordinator = hl_coordinator lease
      ∧ ∃ prepared, received cf prepared ∧ staged_for prepared staged
          ∧ handoff = Some (cg_handoff (sr_payload (cp_grant (sr_payload prepared))))
          ∧ leased cf prepared lease
  | CustodyFrozen grant checkpoint prepared redirect =>
      is_ok (verify_source_handoff cf grant checkpoint) = true
      ∧ (∀ p, prepared = Some p → is_ok (verify_custody_prepared p) = true
           ∧ same_hash (cp_grant (sr_payload p)) grant
           ∧ same_hash (cp_checkpoint (sr_payload p)) checkpoint)
      ∧ (∀ l, redirect = Some l → is_ok (verify_home_lease l) = true
           ∧ redirect_matches_grant (sr_payload l) grant = true)
  | CustodyStaged prepared staging =>
      received cf prepared ∧ ∀ staged, staging = Some staged → staged_for prepared staged
  end.

Lemma same_record_true {T} `{!ToValue T} (x y : SignedRecordV1 T) :
  same_record x y = Ok true → same_hash x y.
Proof.
  intros (hx & hy & Hx & Hy & Hb)%same_record_Ok. symmetry in Hb.
  apply bool_decide_eq_true in Hb as ->. by exists hy.
Qed.

Lemma is_ok_invalid {A} (r : result ContractError A) u : invalid r = Ok u → is_ok r = true.
Proof. by destruct r. Qed.

Lemma leased_rebound cf prepared current lease :
  leased cf prepared current → is_home_lease_coordinator_revision current lease = true →
  leased cf prepared lease.
Proof.
  intros (base & Hb & Hc). unfold is_home_lease_coordinator_revision. intros R.
  exists base. split; [done|]. repeat (apply andb_true_iff in R as [R ?]); to_prop.
  rewrite Hc in *. destruct base, lease; cbn in *. subst. done.
Qed.

Lemma leased_activated cf prepared base lease :
  destination_lease cf (cp_grant (sr_payload prepared)) (cp_checkpoint (sr_payload prepared))
    = Ok base →
  lease = with_coordinator (hl_coordinator lease) base → leased cf prepared lease.
Proof.
  intros Hb Hl. exists base. split; [done|]. unfold with_coordinator, next_lease in *.
  destruct base, lease; cbn in *. clear Hb. injection Hl. intros. by subst.
Qed.

Lemma is_ok_of {E A} (r : result E A) a : r = Ok a → is_ok r = true.
Proof. by intros ->. Qed.

Ltac evidence :=
  repeat match goal with
    | H : invalid _ = Ok _ |- _ => apply is_ok_invalid in H
    | H : same_record _ _ = Ok true |- _ => apply same_record_true in H
    | H : verify_source_handoff _ _ _ = Ok _ |- _ => apply is_ok_of in H
    | H : verify_destination_handoff _ _ _ _ = Ok _ |- _ => apply is_ok_of in H
    | H : negb _ = false |- _ => apply negb_false_iff in H
    | H : negb _ = true |- _ => apply negb_true_iff in H
    | H : ?x = true |- _ => is_var x; subst x
    end.

Lemma apply_proved cf state record signer allow next :
  apply_custody_record cf state record signer allow = Ok next →
  (∀ c, state = Some c → proved cf c) → proved cf next.
Proof.
  unfold apply_custody_record. intros E Hs. case_decide as Hsig; [done|].
  assert (signer = operational_key (cf_authority cf)) as ->.
  { by destruct (decide (signer = operational_key (cf_authority cf))). }
  destruct state as [c|]; [specialize (Hs c eq_refl)|].
  - destruct c as [epoch handoff route coordinator [[staged current]|]|g k [p|] r|p [staged|]], record;
      try done; split_cases; to_prop; evidence; cbn in *; try naive_solver.
    + destruct Hs as (-> & _ & _ & prepared & Hp & Hst & Hh & Hl). split_and!; try done.
      exists prepared. split_and!; try done. by eapply leased_rebound.
    + destruct Hs as [Hp Hst]. split_and!; try done. exists p. split_and!; auto.
      by eapply leased_activated.
    + split; [apply Hs|]. by intros ? [= <-].
  - destruct record; try done; split_cases; to_prop; evidence; cbn in *;
      unfold received; naive_solver.
Qed.

Lemma replay_proved cf allow state rs c :
  replay_custody cf allow state rs = Ok (Some c) → (∀ c, state = Some c → proved cf c) →
  proved cf c.
Proof.
  revert state. induction rs as [|r rs IH]; intros state E Hs; cbn in E; [simplify_eq; auto|].
  inv_result. eapply IH; [done|]. intros ? [= <-]. by eapply apply_proved.
Qed.

(** ** Where a moved Home comes from *)

Definition event_of (r : SignedRecordV1 (ChainEntry CustodyLedgerRecord)) : CustodyLedgerRecord :=
  ce_event (sr_payload r).

(** A staged or moved state goes back to a Staged record among [events]. *)
Definition staged_from (cf : HomeConfig) (events : list CustodyLedgerRecord) (c : CustodyState) : Prop :=
  match c with
  | CustodyActive _ _ _ _ (Some (staged, _)) =>
      ∃ prepared, CStaged prepared ∈ events ∧ received cf prepared ∧ staged_for prepared staged
  | CustodyStaged prepared staging =>
      CStaged prepared ∈ events ∧ received cf prepared
      ∧ ∀ staged, staging = Some staged → staged_for prepared staged
  | CustodyActive _ _ _ _ None | CustodyFrozen _ _ _ _ => True
  end.

Lemma staged_from_mono cf events event c :
  staged_from cf events c → staged_from cf (events ++ [event]) c.
Proof.
  destruct c as [epoch handoff route coordinator [[staged current]|]|g k p r|p staging]; cbn; try done.
  - intros (prepared & Hp & Hr & Hs). exists prepared. rewrite elem_of_app. auto.
  - intros (Hp & Hr & Hs). rewrite elem_of_app. auto.
Qed.

Lemma apply_staged_from cf events state record signer allow next :
  apply_custody_record cf state record signer allow = Ok next →
  (∀ c, state = Some c → staged_from cf events c) → staged_from cf (events ++ [record]) next.
Proof.
  unfold apply_custody_record. intros E Hs. case_decide as Hsig; [done|].
  assert (signer = operational_key (cf_authority cf)) as ->.
  { by destruct (decide (signer = operational_key (cf_authority cf))). }
  assert (∀ c, state = Some c → staged_from cf (events ++ [record]) c) as Hm
    by (intros; apply staged_from_mono; auto). clear Hs.
  destruct state as [c|]; [specialize (Hm c eq_refl)|].
  - destruct c as [epoch handoff route coordinator [[staged current]|]|g k [p|] r|p [staged|]], record;
      try done; split_cases; to_prop; evidence; cbn in *; unfold staged_for in *; naive_solver.
  - destruct record; try done; split_cases; try done. evidence. cbn.
    split_and!; [apply elem_of_app; right; by left|by split|done].
Qed.

Lemma replay_staged_from cf allow events state rs c :
  replay_custody cf allow state rs = Ok (Some c) → (∀ c, state = Some c → staged_from cf events c) →
  staged_from cf (events ++ map event_of rs) c.
Proof.
  revert events state. induction rs as [|r rs IH]; intros events state E Hs; cbn in E.
  { rewrite app_nil_r. simplify_eq. auto. }
  inv_result. change (map event_of (r :: rs)) with ([event_of r] ++ map event_of rs).
  rewrite app_assoc. eapply IH; [done|]. intros ? [= <-]. by eapply apply_staged_from.
Qed.
End evidence.

(** ** Two Homes *)

Section two_homes.
  Context `{!Sha256} `{!JsonText} `{!Ed25519} `{!WireSerde} `{!CustodySerde} `{!MessageSerde}.
  Context `{!HomeServices} `{!ArchiveSerde} `{!CheckpointBlobStore} `{!Allocator}.
  Context `{!ToValue CustodyLedgerRecord} (io cio : nat → AppendIo).

(** One of the calls returned the proof. *)
Definition issued (k : CustodyWorld) (calls : list CustodyCall)
    (proof : SignedRecordV1 CustodyPreparedV1) : Prop :=
  ∃ before after grant checkpoint handoff k',
    calls = before ++ CallPrepareHandoff grant checkpoint :: after
    ∧ prepare_handoff cio grant checkpoint (custody_calls io cio k before) = (Ok handoff, k')
    ∧ ph_prepared handoff = proof.

Lemma calls_epoch k calls :
  at_epoch (k_config k) (k_custody k) → forallb named_route calls = true →
  let k' := custody_calls io cio k calls in at_epoch (k_config k') (k_custody k').
Proof.
  revert k. induction calls as [|call calls IH]; intros k He Hn; [done|]. cbn in *.
  apply andb_true_iff in Hn as [Hn Hns]. apply IH; [|done].
  destruct (custody_call_path io cio k call (fun _ => Hn) He) as [P|R].
  - by eapply steps_epoch.
  - apply frozen_at_epoch. unfold fence_refused in R.
    by repeat (apply andb_true_iff in R as [R ?]).
Qed.

Lemma calls_app k before after :
  custody_calls io cio k (before ++ after)
  = custody_calls io cio (custody_calls io cio k before) after.
Proof. apply foldl_app. Qed.

Lemma issued_frozen k calls proof :
  at_epoch (k_config k) (k_custody k) → forallb named_route calls = true →
  issued k calls proof → is_frozen (k_custody (custody_calls io cio k calls)) = true.
Proof.
  intros He Hn (before & after & grant & checkpoint & handoff & k' & -> & Hp & _).
  rewrite forallb_app in Hn. apply andb_true_iff in Hn as [Hn _].
  pose proof (calls_epoch k before He Hn) as He'. cbv zeta in He'.
  pose proof (prepare_handoff_post io cio grant checkpoint _ He') as P. unfold kwp in P.
  rewrite Hp in P. destruct P as [_ P]. destruct (P eq_refl) as [F _].
  rewrite calls_app. cbn. rewrite Hp. cbn in *.
  assert (is_frozen (k_custody k') = true) as F' by (by destruct (k_custody k')).
  destruct (frozen_calls io cio k' after F') as [_ FL]. by eapply frozen_later_frozen.
Qed.
End two_homes.

(** ** Installed snapshots *)

Section snapshots.
  Context `{!Sha256} `{!JsonText} `{LAWS : !JsonTextLaws} `{!Ed25519}.
  Context {T : Type} `{!ToValue T} `{!JournalDecode T}.
  Context (schema : string) (caps : JournalCaps) (authority : Authority T).

Lemma snapshot_lines_chain index b tip rs b' tip' :
  snapshot_lines schema caps authority index b tip rs = Ok (b', tip') →
  chain schema authority index tip rs tip'
  ∧ ∃ lines, Forall2 (line_of caps) rs lines ∧ b' = b ++ encode_log lines.
Proof.
  revert index b tip. induction rs as [|r rs IH]; intros index b tip E; cbn in E.
  { simplify_eq. split; [constructor|]. exists []. split; [constructor|]. by rewrite app_nil_r. }
  destruct (unsigned schema r) eqn:Eu; [done|]. apply unsigned_false in Eu as (Es & _ & Ev).
  destruct (authority _ _) eqn:Ea; [|done]. cbn in E.
  case_match eqn:Eb; [done|]. apply orb_false_iff in Eb as [E1 E2]. to_prop.
  unfold contract_err in E. inv_result. case_decide; [done|]. inv_result.
  match goal with H : snapshot_lines _ _ _ _ _ _ _ = _ |- _ =>
    apply IH in H as (Hc & lines & Hl & ->) end.
  split; [by econstructor|]. eexists (_ :: lines). split; [constructor; [|done]|].
  - split; [done|lia].
  - cbn. by rewrite <- !app_assoc.
Qed.

Lemma install_log_effect io b d r d' :
  install_log io caps b d = (r, d') →
  dk_head d' = dk_head d ∧ (r = Ok tt → dk_log d' = Some b)
  ∧ (∀ l, ins_stat_log io = true → dk_log d = Some l → d' = d).
Proof.
  unfold install_log. run_disk.
  destruct (found (ins_stat_log io) (dk_log d)) as [l|] eqn:El.
  - destruct (bounded_read _ _ _) as [l'|e] eqn:Eb; [|intros [= <- <-]; naive_solver].
    unfold bounded_read in Eb. inv_result. case_decide; [done|]. inv_result. simplify_eq.
    apply found_some in El. case_decide as Hne; intros [= <- <-]; naive_solver.
  - unfold atomic_write_log. run_disk.
    repeat match goal with |- context [io_err ?r] => destruct (io_err r) end;
      intros [= <- <-]; cbn; (split; [done|split; [done|]]);
      intros l Hs Hl; by rewrite Hs, Hl in El.
Qed.

Lemma install_head_effect io (rs : list (SignedRecordV1 (ChainEntry T))) tip d d' :
  install_head io rs tip d = (Ok tt, d') →
  dk_log d' = dk_log d
  ∧ ∃ b, canonical_json_bytes (mkHead (N.of_nat (length rs)) tip) = Ok b ∧ dk_head d' = Some b.
Proof.
  destruct (head_bytes (mkHead (N.of_nat (length rs)) tip)) as [b Hb].
  assert (∀ d, atomic_write (ins_head io) b d = (Ok tt, d') →
    dk_log d' = dk_log d ∧ ∃ b, canonical_json_bytes (mkHead (N.of_nat (length rs)) tip) = Ok b
      ∧ dk_head d' = Some b) as Hw.
  { intros d0 (? & _ & _ & ? & _)%atomic_write_effect. eauto. }
  unfold install_head. run_disk. unfold contract_err at 1. intros E. rewrite Hb in E. cbn in E.
  destruct (found _ (dk_head d)) as [h|] eqn:Eh; [apply found_some in Eh|by apply Hw].
  unfold bounded_read in E. destruct (io_err (ins_read_head io)); [|done]. cbn in E.
  destruct (decide _) as [|Hl] in E; [done|]. cbn in E. case_decide as He.
  - injection E as <-. subst. eauto.
  - destruct (decode_head h) as [parsed|e]; [|done]. cbn in E.
    destruct (head_is_prefix rs parsed) as [[]|e]; cbn in E; [|done|done]. by apply Hw.
Qed.

Lemma install_snapshot_effect io name rs d d' :
  install_snapshot io name schema rs caps authority d = (Ok tt, d') →
  (journal_name_ok name = true ∧ is_blank schema = false ∧ slen schema ≤ MAX_ID_BYTES)
  ∧ N.of_nat (length rs) ≤ max_records caps
  ∧ ∃ tip lines b, chain schema authority 0 GENESIS rs tip ∧ Forall2 (line_of caps) rs lines
      ∧ dk_log d' = Some (encode_log lines)
      ∧ canonical_json_bytes (mkHead (N.of_nat (length rs)) tip) = Ok b ∧ dk_head d' = Some b.
Proof.
  unfold install_snapshot. case_decide; [done|].
  destruct (journal_name_ok name) eqn:En; [|done]. cbn.
  case_match eqn:Es; [done|]. apply orb_false_iff in Es as [Eb El]. apply bool_decide_eq_false in El.
  case_decide as Hm; [done|]. run_disk.
  destruct (snapshot_lines _ _ _ _ _ _ _) as [[b tip]|e] eqn:El'; [|done]. cbn.
  destruct (io_err _); [|done]. cbn. destruct (install_log io caps b d) as [[u|e] d1] eqn:Ei; [|done].
  intros Eh. destruct u. apply install_log_effect in Ei as (_ & Ei & _).
  apply install_head_effect in Eh as (Hlog & hb & Hb & Hhead).
  apply snapshot_lines_chain in El' as (Hc & lines & Hl & ->).
  split_and!; [done|done|lia|lia|]. exists tip, lines, hb. split_and!; try done.
  rewrite Hlog. by apply Ei.
Qed.

Lemma installed_opens io name rs d d' signer :
  install_snapshot io name schema rs caps authority d = (Ok tt, d') →
  caps_fit caps → Forall round_trips rs →
  (∀ tip, chain schema authority 0 GENESIS rs tip →
     head_round_trips (mkHead (N.of_nat (length rs)) tip)) →
  ∃ tip d'', chain schema authority 0 GENESIS rs tip
    ∧ open_with_authority open_ok name schema signer caps authority d'
      = (Ok (mkJournal signer schema caps, mkInner rs tip true), d'').
Proof.
  intros ((Hn & Hb & Hs) & Hm & tip & lines & b & Hc & Hl & Hlog & Hhb & Hh)%install_snapshot_effect
    Hfit Hr Hhr.
  destruct (open_recovers name schema caps authority signer Hfit Hn (conj Hb Hs) d' rs tip lines
    Hc Hl Hr Hm (or_introl Hlog)) as [d'' Ho]; [|by exists tip, d''].
  right. exists (mkHead (N.of_nat (length rs)) tip), b. split_and!; [done|done|by apply Hhr|].
  apply (chain_head _ _ _ _ _ _ Hc).
Qed.

Lemma install_head_log io (rs : list (SignedRecordV1 (ChainEntry T))) tip d :
  dk_log (install_head io rs tip d).2 = dk_log d.
Proof.
  assert (∀ b d, dk_log (atomic_write (ins_head io) b d).2 = dk_log d) as Hw.
  { intros b d0. destruct (atomic_write _ b d0) as [r d1] eqn:E.
    by apply atomic_write_effect in E as [? _]. }
  unfold install_head. run_disk. destruct (contract_err _) as [b|e]; [|done]. cbn.
  destruct (found _ (dk_head d)) as [h|]; [|apply Hw]. destruct (bounded_read _ _ _) as [h'|e]; [|done]. cbn.
  case_decide; [done|]. destruct (map_err _ _) as [parsed|e]; [|done]. cbn.
  destruct (head_is_prefix rs parsed) as [[]|e]; cbn; [apply Hw|done|done].
Qed.
End snapshots.

Lemma install_keeps_log `{!Sha256} `{!JsonText} `{!JsonTextLaws} `{!Ed25519} {T} `{!ToValue T}
    `{!JournalDecode T} io name schema caps (authority : Authority T) rs d l :
  ins_stat_log io = true → dk_log d = Some l →
  dk_log (install_snapshot io name schema rs caps authority d).2 = Some l.
Proof.
  intros Hs Hl. unfold install_snapshot. case_decide; [done|].
  destruct (journal_name_ok name); [|done]. cbn [negb].
  destruct (is_blank schema || _); [done|]. case_decide; [done|]. run_disk.
  destruct (snapshot_lines _ _ _ _ _ _ _) as [[b tip]|e]; [|done]. cbn.
  destruct (io_err _); [|done]. cbn. destruct (install_log io caps b d) as [[u|e] d1] eqn:Ei;
    apply install_log_effect in Ei as (_ & _ & Ei); rewrite (Ei _ Hs Hl); [|done].
  by rewrite install_head_log.
Qed.

(** The installation that does not see the log. *)
Lemma failed_stat_replaces_log io caps log d :
  ins_stat_log io = false → ins_log io = atomic_ok →
  (install_log io caps log d).1 = Ok tt ∧ dk_log (install_log io caps log d).2 = Some log.
Proof. intros Hs Hw. unfold install_log. run_disk. by rewrite Hs, Hw. Qed.

(** ** A concrete destination *)

Module stage_sample.
#[local] Existing Instances toy_sha stuffed_text stuffed_text_laws toy_ed25519 sample_wire
  null_custody api_sample.null_messages custody_sample.tag_value custody_sample.services
  custody_sample.archives custody_sample.memory custody_sample.store.

Definition prepared : SignedRecordV1 CustodyPreparedV1 := ph_prepared custody_sample.handoff.
Definition signer : AuthoritySigner := api_sample.key_signer (sample_epoch_key 2).
Definition config : HomeConfig :=
  mkHomeConfig sample_root 2 "2" "r2" "n2"
    (mkHomeAuthorityV1 handover_abode (handover_operational 2) (Some prepared))
    [custody_sample.genesis] 8 1000 custody_sample.caps.
Definition staged : SignedRecordV1 CustodyStagedV1 :=
  sign_sample SCHEMA_HOME_V1 (sample_epoch_key 2)
    (mkCustodyStagedV1 prepared (hash_of prepared) (hash_of custody_sample.grant)
       (hash_of custody_sample.checkpoint) "r2" "n2" "2" None).
Definition lease : HomeLeaseV1 :=
  mkHomeLeaseV1 sample_root 2 1 "r2" "n2" "2" (cf_authority config) (Some "h")
    (Some custody_sample.grant) (hash_of custody_sample.checkpoint) None None.

Definition journal : Journal := mkJournal signer CUSTODY_JOURNAL_SCHEMA custody_sample.caps.
Definition add (inner : Inner CustodyLedgerRecord) (record : CustodyLedgerRecord) :
    Inner CustodyLedgerRecord :=
  (append journal Journal.sample.io record inner Journal.sample.empty_disk).1.2.
Definition records : list (SignedRecordV1 (ChainEntry CustodyLedgerRecord)) :=
  in_records (foldl add (mkInner [] GENESIS true)
                [CStaged prepared; CStagingReceipt staged; CActivated (hash_of staged) lease]).
Definition active : CustodyState := CustodyActive 2 (Some "h") 1 "2" (Some (staged, lease)).

Lemma records_replay : replay_custody config false None records = Ok (Some active).
Proof. vm_compute. reflexivity. Qed.
Lemma active_writable : is_ok (ensure_writable active) = true.
Proof. reflexivity. Qed.
Lemma moved : cf_epoch config ≠ 1.
Proof. done. Qed.
Lemma routes : forallb named_route [CallPrepareHandoff custody_sample.grant custody_sample.checkpoint] = true.
Proof. reflexivity. Qed.
Lemma only_staged p q st h l :
  CStaged p ∈ [CStaged q; CStagingReceipt st; CActivated h l] → p = q.
Proof. rewrite !elem_of_cons, elem_of_nil. naive_solver. Qed.
Lemma records_events :
  map event_of records
  = [CStaged prepared; CStagingReceipt staged; CActivated (hash_of staged) lease].
Proof. vm_compute. reflexivity. Qed.
Lemma prepared_issued :
  issued custody_sample.io custody_sample.io (custody_sample.world custody_sample.signer)
    [CallPrepareHandoff custody_sample.grant custody_sample.checkpoint] prepared.
Proof.
  eexists [], [], _, _, _, _. split; [reflexivity|].
  split; [exact custody_sample.prepare_run|reflexivity].
Qed.
Lemma proofs_issued p :
  CStaged p ∈ map event_of records → received config p →
  issued custody_sample.io custody_sample.io (custody_sample.world custody_sample.signer)
    [CallPrepareHandoff custody_sample.grant custody_sample.checkpoint] p.
Proof.
  rewrite records_events. intros Hp _. rewrite (only_staged _ _ _ _ _ Hp). exact prepared_issued.
Qed.

(** A snapshot of one record, installed in an empty directory. *)
Definition install_ok : InstallIo := 
  mkInstallIo (Ok tt) true (Ok tt) atomic_ok true (Ok tt) atomic_ok.
End stage_sample.

Module snapshot_sample.
#[local] Existing Instances zero_sha stuffed_text stuffed_text_laws toy_ed25519 string_value
  Journal.sample.decode.
Lemma installs :
  install_snapshot stage_sample.install_ok "j" "s" [Journal.sample.record] Journal.sample.caps
    Journal.sample.any Journal.sample.empty_disk = (Ok tt, Journal.sample.full_disk).
Proof. vm_compute. reflexivity. Qed.
Lemma caps_ok : caps_fit Journal.sample.caps.
Proof. repeat split; vm_compute; congruence. Qed.
Lemma record_round_trips : Forall round_trips [Journal.sample.record].
Proof.
  constructor; [|constructor]. intros b Hb.
  assert (b = Journal.sample.line) as -> by (vm_compute in Hb; vm_compute; congruence).
  split; [vm_compute; reflexivity|]. split; [|vm_compute; congruence].
  apply (bool_decide_unpack _). vm_compute. exact I.
Qed.
Lemma head_round_trips_at tip :
  chain "s" Journal.sample.any 0 GENESIS [Journal.sample.record] tip →
  head_round_trips (mkHead (N.of_nat (length [Journal.sample.record])) tip).
Proof.
  intros Hc. assert (tip = GENESIS) as ->.
  { inversion Hc; subst. match goal with Hn : chain _ _ _ _ [] _ |- _ => inversion Hn; subst end.
    match goal with Hh : canonical_hash _ = Ok _ |- _ => vm_compute in Hh; vm_compute; congruence end. }
  intros b Hb.
  assert (b = Journal.sample.head_line) as -> by (vm_compute in Hb; vm_compute; congruence).
  split; [vm_compute; reflexivity|vm_compute; congruence].
Qed.
End snapshot_sample.

(** ** Properties *)

(** A custody state carries its evidence. Whatever records a custody journal
    holds, a state they replay to is either the genesis Home at epoch 1, or is
    backed by verified documents: a fenced source has a grant and a checkpoint
    that verify for exactly this Home, epoch, realm, node and authority, and any
    proof or redirect it holds verifies and belongs to them; a staged or moved
    destination has a verified source proof for exactly its own epoch, place and
    key, a verified staging receipt of that proof, and a lease that differs from
    the one the handoff defines in sequence and coordinator only. *)
Theorem custody_state_proved (S : Sha256) (X : JsonText) (E : Ed25519) (W : WireSerde)
    (K : CustodySerde) (cf : HomeConfig) (allow : bool)
    (records : list (SignedRecordV1 (ChainEntry CustodyLedgerRecord))) (c : CustodyState)
    (Hreplay : replay_custody cf allow None records = Ok (Some c)) :
  proved cf c.
Proof. by eapply replay_proved. Qed.

Lemma custody_state_proved_witness :
  @proved toy_sha stuffed_text toy_ed25519 sample_wire null_custody stage_sample.config
    stage_sample.active.
Proof.
  exact (@custody_state_proved toy_sha stuffed_text toy_ed25519 sample_wire null_custody
    stage_sample.config false stage_sample.records stage_sample.active
    stage_sample.records_replay).
Defined.

(** C6: two Homes never both write. Take a source and any calls on it, and a
    destination at a moved epoch whose custody journal replays to a writable
    state. If the verified proofs the destination staged were issued by those
    calls (a proof carries the signature of the source's epoch key), then the
    source is fenced, and stays fenced, with its ledger unchanged, whatever is
    called on it afterwards. *)
Theorem single_writer (S : Sha256) (X : JsonText) (E : Ed25519) (W : WireSerde)
    (K : CustodySerde) (M : MessageSerde) (V : HomeServices) (A : ArchiveSerde)
    (B : CheckpointBlobStore) (L : Allocator) (T : ToValue CustodyLedgerRecord)
    (io cio : nat → AppendIo) (k : CustodyWorld) (calls later : list CustodyCall)
    (Hepoch : at_epoch (k_config k) (k_custody k))
    (Hroutes : forallb named_route calls = true)
    (cf : HomeConfig) (allow : bool)
    (records : list (SignedRecordV1 (ChainEntry CustodyLedgerRecord))) (c : CustodyState)
    (Hreplay : replay_custody cf allow None records = Ok (Some c))
    (Hmoved : cf_epoch cf ≠ 1) (Hwritable : is_ok (ensure_writable c) = true)
    (Hissued : ∀ p, CStaged p ∈ map event_of records → received cf p →
                 issued io cio k calls p) :
  let source := custody_calls io cio k calls in
  let source' := custody_calls io cio source later in
  is_ok (ensure_writable (k_custody source)) = false
  ∧ is_ok (ensure_writable (k_custody source')) = false
  ∧ same_ledger source source'.
Proof.
  pose proof (replay_proved _ _ _ _ _ Hreplay ltac:(done)) as P.
  pose proof (replay_staged_from _ _ [] _ _ _ Hreplay ltac:(done)) as F. cbn in F.
  destruct c as [epoch handoff route coordinator [[staged lease]|]|g c p r|p staging]; try done.
  2: { by destruct P as (_ & ? & _). }
  destruct F as (p & Hp & Hrec & _).
  pose proof (issued_frozen io cio k calls p Hepoch Hroutes (Hissued p Hp Hrec)) as Fz.
  destruct (frozen_calls io cio _ later Fz) as [SL FL]. cbv zeta.
  split_and!; [by apply frozen_not_writable| |done].
  by eapply frozen_not_writable, frozen_later_frozen.
Qed.

Lemma single_writer_witness :
  is_ok (ensure_writable (k_custody (custody_sample.fenced))) = false.
Proof.
  destruct (@single_writer toy_sha stuffed_text toy_ed25519 sample_wire null_custody
    api_sample.null_messages custody_sample.services custody_sample.archives custody_sample.store
    custody_sample.memory custody_sample.tag_value custody_sample.io custody_sample.io
    (custody_sample.world custody_sample.signer)
    [CallPrepareHandoff custody_sample.grant custody_sample.checkpoint] []
    custody_sample.world_epoch stage_sample.routes stage_sample.config false stage_sample.records
    stage_sample.active stage_sample.records_replay stage_sample.moved
    stage_sample.active_writable stage_sample.proofs_issued) as (H & _ & _).
  exact H.
Defined.

(** C20: an installed snapshot is the chain it was taken from. When an installation
    succeeds, opening the journal recovers exactly the records of the snapshot,
    as one signed, authorised chain from the genesis.  And an installation whose stat
    of the log succeeds never replaces an existing log, whatever else happens; one
    whose stat fails takes the log for missing, and writes its own over it. *)
Theorem installed_snapshot_opens (S : Sha256) (X : JsonText) (L : JsonTextLaws) (E : Ed25519)
    (T : Type) (TV : ToValue T) (J : JournalDecode T) (io : InstallIo) (name schema : string)
    (caps : JournalCaps) (authority : Authority T) (signer : AuthoritySigner)
    (records : list (SignedRecordV1 (ChainEntry T))) (d d' : Disk)
    (Hfit : caps_fit caps) (Hserde : Forall round_trips records)
    (Hhead : ∀ tip, chain schema authority 0 GENESIS records tip →
       head_round_trips (mkHead (N.of_nat (length records)) tip))
    (Hinstall : install_snapshot io name schema records caps authority d = (Ok tt, d')) :
  (∃ tip d'', chain schema authority 0 GENESIS records tip
     ∧ open_with_authority open_ok name schema signer caps authority d'
       = (Ok (mkJournal signer schema caps, mkInner records tip true), d''))
  ∧ (∀ io' records' caps' authority' l, ins_stat_log io' = true → dk_log d = Some l →
       dk_log (install_snapshot io' name schema records' caps' authority' d).2 = Some l)
  ∧ ∀ io' log, ins_stat_log io' = false → ins_log io' = atomic_ok →
      (install_log io' caps log d).1 = Ok tt
      ∧ dk_log (install_log io' caps log d).2 = Some log.
Proof.
  split_and!; [by eapply installed_opens|intros; by apply install_keeps_log|].
  intros. by apply failed_stat_replaces_log.
Qed.

Lemma installed_snapshot_opens_witness :
  ∃ tip d'',
    @open_with_authority zero_sha stuffed_text toy_ed25519 string string_value
      Journal.sample.decode open_ok "j" "s" Journal.sample.signer Journal.sample.caps
      Journal.sample.any Journal.sample.full_disk
    = (Ok (mkJournal Journal.sample.signer "s" Journal.sample.caps,
           mkInner [Journal.sample.record] tip true), d'').
Proof.
  destruct (@installed_snapshot_opens zero_sha stuffed_text stuffed_text_laws toy_ed25519 string
    string_value Journal.sample.decode stage_sample.install_ok "j" "s" Journal.sample.caps
    Journal.sample.any Journal.sample.signer [Journal.sample.record] Journal.sample.empty_disk
    Journal.sample.full_disk snapshot_sample.caps_ok snapshot_sample.record_round_trips
    snapshot_sample.head_round_trips_at snapshot_sample.installs) as [(tip & d'' & _ & H) _].
  exists tip, d''. exact H.
Defined.

