(* ===== verification/HomeBus.v ===== *)
(** * The Home and its destination as creatures

    [Creature for FunctionHome] of [cosmos/creatures/function-home/src/lib.rs],
    with its custody messages, and the destination adapter of [custody_bus.rs],
    which stages and activates a moved Home and then forwards to it.

    The adapter and the Home it opens work on the same files: while a Home is
    open, its journals are the files of the directory. *)

From S2P Require Import Prelude Serde GxShape GxHash FnCrypto FnTypes FnWire FnCustody FnMessages.
From S2P Require Import AetherAddress AetherEnvelope Journal HomeLedger HomeApi HomeServe.
From S2P Require Import CustodyArchive HomeCustody HomeStage.

(** [serde_json] at the custody and locator messages. *)
Class CustodyCodec : Type := {
  cc_home :: SerdeJson HomeMessageV1;
  cc_locate :: SerdeJson LocateMessageV1
}.

(** ** Replies *)

Definition error_code (e : HomeError) : string :=
  match e with
  | HUnauthorized _ => "unauthorized"
  | HNotFound _ => "not_found"
  | HConflict _ => "conflict"
  | HCapacity _ => "capacity"
  | HJournal _ => "storage"
  | HConfiguration _ | HInvalid _ | HState _ | HSigning _ => "invalid"
  end.
Definition error_retryable (e : HomeError) : bool :=
  match e with HJournal _ | HCapacity _ => true | _ => false end.

Section replies.
  Context `{!CustodyCodec} `{!HomeCodec}.

Definition reply_home (env : Envelope) (message : HomeMessageV1) : Outcome :=
  Outcome_send (with_schema (reply_to_env env (to_bytes message)) SCHEMA_HOME_V1).

Definition reply_protocol_error (env : Envelope) (code message : string) (retryable : bool) :
    Outcome :=
  reply_home env (HError (mkProtocolErrorV1 code (bound message) retryable)).

Definition reply_home_error (env : Envelope) (e : HomeError) : Outcome :=
  reply_protocol_error env (error_code e) (HomeError_to_string e) (error_retryable e).

(** The announcement of a lease to the locator. *)
Definition announce (lease : SignedRecordV1 HomeLeaseV1) : Dispatch :=
  with_schema (Dispatch_to (ARole FUNCTION_LOCATOR_ROLE) (to_bytes (LAnnounce lease)))
    SCHEMA_LOCATE_V1.

Definition routed_creature (local_realm local_node realm node coordinator : string) :
    option Address :=
  raw ← parse_u64 coordinator;
  if bool_decide (raw = 0) || bool_decide (dec raw ≠ coordinator) then None
  else
    Some (if bool_decide (realm = local_realm) && bool_decide (node = local_node) then ACreature raw
          else if decide (realm = local_realm) then ANode node raw
          else AOmega realm (ANode node raw)).
End replies.

(** ** The Home *)

Section home.
  Context `{!Sha256} `{!JsonText} `{!Ed25519} `{!WireSerde} `{!CustodySerde} `{!MessageSerde}.
  Context `{!HomeServices} `{!ArchiveSerde} `{!CheckpointBlobStore} `{!Allocator}.
  Context `{!HomeCodec} `{!CustodyCodec} `{!ToValue CustodyLedgerRecord}.
  Context (io cio : nat → AppendIo).

Definition handle_home_message (env : Envelope) (message : HomeMessageV1) (k : CustodyWorld) :
    Outcome * CustodyWorld :=
  match message with
  | HPrepare grant checkpoint =>
      match prepare_handoff cio grant checkpoint k with
      | (Ok handoff, k) => (reply_home env (HPrepared (ph_prepared handoff)), k)
      | (Err e, k) => (reply_home_error env e, k)
      end
  | HActivated lease =>
      match record_handoff_redirect cio lease k with
      | (Err e, k) => (reply_home_error env e, k)
      | (Ok _, k) =>
          match signed_custody_status k with
          | (Err e, k) => (reply_home_error env e, k)
          | (Ok status, k) =>
              (Outcome_push (reply_home env (HStatusResult status)) (announce lease), k)
          end
      end
  | HStatus home =>
      if decide (home = cf_home (k_config k)) then
        match signed_custody_status k with
        | (Ok status, k) => (reply_home env (HStatusResult status), k)
        | (Err e, k) => (reply_home_error env e, k)
        end
      else
        (reply_home env (HError (mkProtocolErrorV1 "not_found"
           "Home status request names another Home" false)), k)
  | HPrepared _ | HStage _ | HStaged _ | HActivate _ | HStatusResult _ | HError _ =>
      (Outcome_none, k)
  end.

(** A handler of the Home in the world with its custody journal. *)
Definition serve (handler : HomeWorld CustodyLedgerRecord → Outcome * HomeWorld CustodyLedgerRecord)
    (k : CustodyWorld) : Outcome * CustodyWorld :=
  let (outcome, w) := handler (k_home k) in (outcome, on_world (fun _ => w) k).

(** [Creature::handle]. *)
Definition FunctionHome_handle (env : Envelope) (k : CustodyWorld) : Outcome * CustodyWorld :=
  let schema := hd_schema (ev_header env) in
  if decide (MAX_JOB_MESSAGE_BYTES < blen (ev_payload env)) then (Outcome_none, k)
  else if decide (schema = HOME_RECOVERY_POKE_SCHEMA) then
    if is_authenticated_recovery_poke env (k_home k) then serve continue_recovery_sweep k
    else (Outcome_none, k)
  else if decide (schema = SCHEMA_JOB_V1) then serve (handle_job io env) k
  else if decide (schema = SCHEMA_EXECUTE_V1) then serve (handle_execute io env) k
  else if decide (schema = SCHEMA_POLICY_V1) then serve (handle_policy io env) k
  else if decide (schema = SCHEMA_HOME_V1) then
    match from_slice (ev_payload env) with
    | Err _ =>
        (reply_home env (HError (mkProtocolErrorV1 "invalid_message"
           "cannot decode Home custody message" false)), k)
    | Ok message => handle_home_message env message k
    end
  else (Outcome_none, k).

(** [Creature::bind]: what it emits. *)
Definition FunctionHome_bind (me : N) (k : CustodyWorld) : list Dispatch * CustodyWorld :=
  let '(emitted, _, k) := bind_runtime cio me true k in (emitted, k).
End home.

(** ** The destination adapter *)

(** [dn_root] is the directory; while a Home is open its journals are those of
    [dn_active]. *)
Record HomeCustodyDestination : Type := mkHomeCustodyDestination {
  dn_config : HomeConfig;
  dn_active : option CustodyWorld;
  dn_bound : option N;
  dn_startup_error : option string;
  dn_root : RootDir
}.

(** The directory with the journals of an open Home. *)
Definition visible_root (s : HomeCustodyDestination) : RootDir :=
  match dn_active s with
  | Some k => mkRootDir (w_disk (k_home k)) (k_disk k) (rd_current (dn_root s)) (rd_imported (dn_root s))
  | None => dn_root s
  end.
Definition with_disks (d : RootDir) (k : CustodyWorld) : CustodyWorld :=
  let w := k_home k in
  mkCustodyWorld
    (mkHomeWorld (w_home w) (w_state w) (rd_ledger d) (w_binding w) (w_sweep w) (w_me w)
       (w_appends w)) (k_journal k) (rd_custody d) (k_appends k).
Definition set_root (d : RootDir) (s : HomeCustodyDestination) : HomeCustodyDestination :=
  mkHomeCustodyDestination (dn_config s) (with_disks d <$> dn_active s) (dn_bound s)
    (dn_startup_error s) d.
Definition set_active (active : option CustodyWorld) (s : HomeCustodyDestination) :
    HomeCustodyDestination :=
  mkHomeCustodyDestination (dn_config s) active (dn_bound s) (dn_startup_error s) (dn_root s).
Definition set_dn_config (config : HomeConfig) (s : HomeCustodyDestination) :
    HomeCustodyDestination :=
  mkHomeCustodyDestination config (dn_active s) (dn_bound s) (dn_startup_error s) (dn_root s).

(** An operation of the directory on behalf of the adapter. *)
Definition in_root {A} (m : rootM A) (s : HomeCustodyDestination) :
    result HomeError A * HomeCustodyDestination :=
  let (r, d) := m (visible_root s) in (r, set_root d s).

(** The results of the system calls of one message. *)
Record DestinationIo : Type := mkDestinationIo {
  di_stage : StageIo;
  di_merge : MetaIo;
  di_open : HomeOpenIo
}.

Section destination.
  Context `{!Sha256} `{!JsonText} `{!Ed25519} `{!WireSerde} `{!CustodySerde} `{!MessageSerde}.
  Context `{!HomeServices} `{!ArchiveSerde} `{!CheckpointBlobStore} `{!Allocator}.
  Context `{!StageSerde} `{!CustodyKeyRewrapper} `{!HomeCodec} `{!CustodyCodec}.
  Context `{!ToValue CustodyLedgerRecord} `{!JournalDecode CustodyLedgerRecord}.
  Context `{!JournalDecode HomeLedgerRecord} (signer : AuthoritySigner).
  Context (io cio : nat → AppendIo).

(** [new_with_rewrapper]. *)
Definition HomeCustodyDestination_new (mio : MetaIo) (config : HomeConfig) (d : RootDir) :
    result HomeError HomeCustodyDestination * RootDir :=
  match merge_current_authority mio config d with
  | (Err e, d) => (Err e, d)
  | (Ok config, d) =>
      (_ ← reject (bool_decide (cf_epoch config ≤ 1))
             (HConfiguration "a custody destination must be configured for a moved epoch");
       _ ← reject (bool_decide (as_public_key signer ≠ operational_key (cf_authority config)))
             (HConfiguration "custody destination signer is not the configured operational key");
       Ok (mkHomeCustodyDestination config None None None d), d)
  end.

(** Open and bind the Home; [None] when it does not open. *)
Definition open_active (dio : DestinationIo) (me : N) (s : HomeCustodyDestination) :
    result HomeError Outcome * HomeCustodyDestination :=
  match in_root (FunctionHome_open (di_open dio) (dn_config s) signer) s with
  | (Err e, s) => (Err e, s)
  | (Ok home, s) =>
      let '(_, recovery, home) := bind_runtime cio me false home in
      (Ok recovery, set_active (Some home) s)
  end.

Definition recover_active_on_bind (dio : DestinationIo) (me : N) (s : HomeCustodyDestination) :
    result HomeError (list Dispatch) * HomeCustodyDestination :=
  match ha_prepared (cf_authority (dn_config s)) with
  | None => (Ok [], s)
  | Some _ =>
      match in_root (refresh_active_destination_lease (di_stage dio) (dn_config s) signer) s with
      | (Err e, s) => (Err e, s)
      | (Ok None, s) => (Ok [], s)
      | (Ok (Some revision), s) =>
          match open_active dio me s with
          | (Err e, s) => (Err e, s)
          | (Ok recovery, s) =>
              let cf := dn_config s in
              let notice :=
                match routed_creature (cf_realm cf) (cf_node cf) (al_source_realm revision)
                        (al_source_node revision) (al_source_coordinator revision) with
                | Some target =>
                    [with_schema (Dispatch_to target (to_bytes (HActivated (al_lease revision))))
                       SCHEMA_HOME_V1]
                | None => []
                end in
              (Ok (announce (al_lease revision) :: notice ++ out_dispatches recovery), s)
          end
      end
  end.

(** [Creature::bind]: what it emits. *)
Definition destination_bind (dio : DestinationIo) (me : N) (s : HomeCustodyDestination) :
    list Dispatch * HomeCustodyDestination :=
  let s := mkHomeCustodyDestination (with_config_coordinator (dec me) (dn_config s))
             (dn_active s) (Some me) (dn_startup_error s) (dn_root s) in
  match recover_active_on_bind dio me s with
  | (Ok emitted, s) => (emitted, s)
  | (Err e, s) =>
      ([], mkHomeCustodyDestination (dn_config s) None (dn_bound s) (Some (HomeError_to_string e))
             (visible_root s))
  end.

(** What follows a lease: the reply, the announcement and the notice to the source. *)
Definition activation_outcome (env : Envelope) (cf : HomeConfig)
    (staged : SignedRecordV1 CustodyStagedV1) (lease : SignedRecordV1 HomeLeaseV1)
    (recovery : Outcome) : Outcome :=
  let prepared := sr_payload (st_prepared (sr_payload staged)) in
  let grant := sr_payload (cp_grant prepared) in
  let outcome := Outcome_push (reply_home env (HActivated lease)) (announce lease) in
  let outcome :=
    match routed_creature (cf_realm cf) (cf_node cf) (cg_source_realm grant)
            (cg_source_node grant) (cp_source_coordinator prepared) with
    | Some target =>
        Outcome_push outcome
          (with_schema (Dispatch_to target (to_bytes (HActivated lease))) SCHEMA_HOME_V1)
    | None => outcome
    end in
  foldl Outcome_push outcome (out_dispatches recovery).

Definition activate (dio : DestinationIo) (env : Envelope)
    (staged : SignedRecordV1 CustodyStagedV1) (s : HomeCustodyDestination) :
    Outcome * HomeCustodyDestination :=
  match dn_bound s with
  | None =>
      (reply_home_error env (HState "custody destination was activated before bus bind"), s)
  | Some me =>
      match in_root (activate_staged_handoff (di_stage dio) (dn_config s) signer staged) s with
      | (Err e, s) => (reply_home_error env e, s)
      | (Ok lease, s) =>
          match dn_active s with
          | Some _ => (activation_outcome env (dn_config s) staged lease Outcome_none, s)
          | None =>
              match open_active dio me s with
              | (Err e, s) => (reply_home_error env e, s)
              | (Ok recovery, s) =>
                  (activation_outcome env (dn_config s) staged lease recovery, s)
              end
          end
      end
  end.

Definition forward (env : Envelope) (s : HomeCustodyDestination) :
    Outcome * HomeCustodyDestination :=
  match dn_active s with
  | None => (Outcome_none, s)
  | Some home =>
      let (outcome, home) := FunctionHome_handle io cio env home in
      (outcome, set_active (Some home) s)
  end.

Definition destination_message (dio : DestinationIo) (env : Envelope) (message : HomeMessageV1)
    (s : HomeCustodyDestination) : Outcome * HomeCustodyDestination :=
  match message with
  | HStage prepared =>
      match in_root (stage_handoff_with_rewrapper (di_stage dio) (dn_config s) signer prepared) s
      with
      | (Err e, s) => (reply_home_error env e, s)
      | (Ok staged, s) =>
          match in_root (merge_current_authority (di_merge dio) (dn_config s)) s with
          | (Err e, s) => (reply_home_error env e, s)
          | (Ok config, s) => (reply_home env (HStaged staged), set_dn_config config s)
          end
      end
  | HActivate staged => activate dio env staged s
  | HStatus home =>
      if decide (home = cf_home (dn_config s)) then
        match in_root (destination_custody_status (di_stage dio) (dn_config s) signer) s with
        | (Ok status, s) => (reply_home env (HStatusResult status), s)
        | (Err e, s) => (reply_home_error env e, s)
        end
      else
        (reply_protocol_error env "not_found" "custody adapter is configured for another Home"
           false, s)
  | HPrepare _ _ | HPrepared _ | HStaged _ | HActivated _ | HStatusResult _ | HError _ =>
      forward (mkEnvelope (ev_header env) (to_bytes message)) s
  end.

(** [Creature::handle]. *)
Definition destination_handle (dio : DestinationIo) (env : Envelope)
    (s : HomeCustodyDestination) : Outcome * HomeCustodyDestination :=
  let schema := hd_schema (ev_header env) in
  let inactive message retryable :=
    reply_job env (JError (mkProtocolErrorV1 "home_inactive" message retryable)) in
  if decide (MAX_JOB_MESSAGE_BYTES < blen (ev_payload env)) then (Outcome_none, s)
  else
    match dn_startup_error s with
    | Some error =>
        (if decide (schema = SCHEMA_HOME_V1) then
           reply_protocol_error env "home_recovery_failed" error false
         else if decide (schema = SCHEMA_JOB_V1) then inactive error false
         else Outcome_none, s)
    | None =>
        if decide (schema ≠ SCHEMA_HOME_V1) then
          match dn_active s with
          | Some _ => forward env s
          | None =>
              (if decide (schema = SCHEMA_JOB_V1) then
                 inactive "destination Home is staged but not activated" true
               else Outcome_none, s)
          end
        else
          match from_slice (ev_payload env) with
          | Err _ =>
              (reply_protocol_error env "invalid_message" "cannot decode Home custody message"
                 false, s)
          | Ok message => destination_message dio env message s
          end
    end.
End destination.
