(* ===== verification/HomeBusLaws.v ===== *)
(** * What messages can do to a Home

    Every envelope, of any schema and with any bytes, only does what the
    operations of the Home do: the ledger moves by records of the protocol, and a
    fenced Home does not move at all. *)

From S2P Require Import Prelude Serde GxShape GxHash FnCrypto FnTypes FnWire FnCustody FnMessages.
From S2P Require Import AetherAddress AetherEnvelope Journal HomeLedger HomeLaws HomeGrowth.
From S2P Require Import HomeApi HomeProtocol HomeApiLaws HomeServe HomeServeLaws CustodyArchive HomeCustody.
From S2P Require Import CustodyLaws HomeStage StageLaws HomeBus.

Section handlers.
  Context `{!Sha256} `{!JsonText} `{!Ed25519} `{!WireSerde} `{!CustodySerde} `{!MessageSerde}.
  Context `{!HomeServices} `{!HomeCodec} {C : Type} (io : nat → AppendIo).
  Implicit Types w : HomeWorld C.

Lemma follows_works {A} (m : opM C A) w r w' : follows io m → m w = (r, w') → works io w w'.
Proof.
  intros Hm E. apply works_moves. specialize (Hm w w ltac:(by constructor)).
  unfold wp in Hm. by rewrite E in Hm.
Qed.
Lemma silent_works {A} (m : opM C A) w r w' : writes_nothing m → m w = (r, w') → works io w w'.
Proof. intros Hm. by apply follows_works, silent_follows. Qed.
Lemma works_trans w1 w2 w3 : works io w1 w2 → works io w2 w3 → works io w1 w3.
Proof. intros ? ?. by etrans. Qed.

Lemma policy_question_works outcome handle w :
  works io w (append_policy_question outcome handle w).2.
Proof.
  unfold append_policy_question. destruct (placement_question handle w) as [r w1] eqn:E.
  apply silent_works in E; [|apply placement_question_silent]. by destruct r as [[]|].
Qed.
Lemma retry_question_works outcome event w : works io w (append_retry_question outcome event w).2.
Proof.
  unfold append_retry_question. case_decide; [apply rtc_refl|].
  destruct (retry_failure _) as [[[attempt error] retryable]|]; [|apply rtc_refl].
  destruct (retry_correlation attempt) as [corr|]; [|apply rtc_refl].
  destruct (retry_question _ attempt w) as [r w1] eqn:E.
  apply silent_works in E; [|apply retry_question_silent]. by destruct r.
Qed.

Lemma submit_message_works env request resolution deployment w :
  works io w (handle_submit_message io env request resolution deployment w).2.
Proof.
  unfold handle_submit_message. destruct (submit io _ _ _ w) as [r w1] eqn:E.
  apply follows_works in E; [|apply submit_follows].
  destruct r as [[]|]; try done; (eapply works_trans; [exact E|apply policy_question_works]).
Qed.

Lemma control_message_works env request w :
  works io w (handle_control_message io env request w).2.
Proof.
  unfold handle_control_message. destruct (canonical_hash request) as [h|]; [|apply rtc_refl].
  destruct (control io request w) as [r w1] eqn:E. apply follows_works in E; [|apply control_follows].
  destruct r as [event|]; [|done].
  destruct (endorsed_control request event w1) as [fw w2] eqn:E2.
  apply silent_works in E2; [|apply endorsed_control_silent].
  pose proof (works_trans _ _ _ E E2) as E3.
  destruct (je_kind (sr_payload event)); try done.
  eapply works_trans; [exact E3|apply policy_question_works].
Qed.

Lemma recovery_sweep_works w : works io w (continue_recovery_sweep w).2.
Proof.
  apply works_aside. unfold continue_recovery_sweep.
  destruct (ensure_authoritative_state _ _); [|done]. case_decide; [done|].
  destruct (sw_high_water _); [|done]. destruct (sweep_batch _ _ _) as [keys more].
  by destruct (last keys).
Qed.

Lemma handle_job_works env w : works io w (handle_job io env w).2.
Proof.
  unfold handle_job. destruct (from_slice _) as [message|]; [|apply rtc_refl].
  destruct message; try apply rtc_refl;
    [apply submit_message_works| | |apply control_message_works].
  - match goal with |- context [handle_get_message env ?r w] =>
      pose proof (get_message_served env r w) as [E _]; destruct (handle_get_message env r w) end. cbn in *. subst. apply rtc_refl.
  - match goal with |- context [handle_events_message env ?r w] =>
      pose proof (events_message_served env r w) as [E _];
      destruct (handle_events_message env r w) end. cbn in *. subst. apply rtc_refl.
Qed.

Lemma handle_execute_works env w : works io w (handle_execute io env w).2.
Proof.
  unfold handle_execute. destruct (from_slice _) as [[]|]; try apply rtc_refl.
  destruct (apply_executor_receipt io _ w) as [res w1] eqn:E.
  apply follows_works in E; [|apply apply_executor_receipt_follows].
  destruct res as [[]|]; [..|done]; (eapply works_trans; [exact E|apply retry_question_works]).
Qed.

Lemma handle_policy_works env w : works io w (handle_policy io env w).2.
Proof.
  unfold handle_policy, handle_policy_message.
  destruct (from_slice _) as [[]|]; try apply rtc_refl.
  - destruct (apply_placement_decision io _ w) as [res w1] eqn:E.
    apply follows_works in E; [|apply apply_placement_decision_follows]. by destruct res.
  - destruct (apply_retry_decision io _ w) as [res w1] eqn:E.
    apply follows_works in E; [|apply apply_retry_decision_follows]. by destruct res.
Qed.

(** *** What a fenced Home sends *)

(** A dispatch that hands work or questions about work to another creature. *)
Definition is_work (d : Dispatch) : bool :=
  bool_decide (di_schema d = SCHEMA_EXECUTE_V1) || bool_decide (di_schema d = SCHEMA_POLICY_V1).
Definition no_work (outcome : Outcome) : Prop :=
  Forall (fun d => is_work d = false) (out_dispatches outcome).

Lemma none_no_work : no_work Outcome_none.
Proof. constructor. Qed.
Lemma reply_job_no_work env message : no_work (reply_job env message).
Proof. repeat constructor. Qed.

(** A call that a fenced Home refuses. *)
Definition needs_authority {A} (m : opM C A) : Prop :=
  ∀ w, is_ok (ensure_authoritative_state (w_home w) (w_state w)) = false →
       is_ok (m w).1 = false.

Lemma authority_first {A} (m : unit → opM C A) :
  needs_authority (ensure_operational_write_authority ≫= m).
Proof.
  intros w Hw. unfold mbind, opM_bind, stateR_bind, ensure_operational_write_authority, authoritative.
  by destruct (ensure_authoritative_state _ _).
Qed.

Lemma submit_message_fenced env request resolution deployment w :
  is_ok (ensure_authoritative_state (w_home w) (w_state w)) = false →
  no_work (handle_submit_message io env request resolution deployment w).1.
Proof.
  intros Hw. unfold handle_submit_message.
  assert (is_ok (submit io request resolution deployment w).1 = false) as Hs
    by (unfold submit; cbv zeta; by apply authority_first).
  destruct (submit io _ _ _ w) as [[]]; [done|]. apply reply_job_no_work.
Qed.

Lemma control_message_fenced env request w :
  is_ok (ensure_authoritative_state (w_home w) (w_state w)) = false →
  no_work (handle_control_message io env request w).1.
Proof.
  intros Hw. unfold handle_control_message.
  destruct (canonical_hash request); [|apply reply_job_no_work].
  assert (is_ok (control io request w).1 = false) as Hs by (unfold control; cbv zeta; by apply authority_first).
  destruct (control io request w) as [[]]; [done|]. apply reply_job_no_work.
Qed.

Lemma handle_job_fenced env w :
  is_ok (ensure_authoritative_state (w_home w) (w_state w)) = false →
  no_work (handle_job io env w).1.
Proof.
  intros Hw. unfold handle_job. destruct (from_slice _) as [message|]; [|apply none_no_work].
  destruct message; try apply none_no_work;
    [by apply submit_message_fenced| | |by apply control_message_fenced].
  - destruct (handle_get_message _ _ _). apply reply_job_no_work.
  - destruct (handle_events_message _ _ _). apply reply_job_no_work.
Qed.

Lemma handle_execute_fenced env w :
  is_ok (ensure_authoritative_state (w_home w) (w_state w)) = false →
  no_work (handle_execute io env w).1.
Proof.
  intros Hw. unfold handle_execute. destruct (from_slice _) as [[]|]; try apply none_no_work.
  match goal with |- context [apply_executor_receipt io ?r w] =>
    assert (is_ok (apply_executor_receipt io r w).1 = false) as Hs by (unfold apply_executor_receipt; cbv zeta; by apply authority_first);
    destruct (apply_executor_receipt io r w) as [[]] end; [done|]. apply reply_job_no_work.
Qed.

Lemma handle_policy_fenced env w :
  is_ok (ensure_authoritative_state (w_home w) (w_state w)) = false →
  no_work (handle_policy io env w).1.
Proof.
  intros Hw. unfold handle_policy, handle_policy_message.
  destruct (from_slice _) as [[]|]; try apply none_no_work.
  - match goal with |- context [apply_placement_decision io ?r w] =>
      assert (is_ok (apply_placement_decision io r w).1 = false) as Hs by (unfold apply_placement_decision; cbv zeta; by apply authority_first);
      destruct (apply_placement_decision io r w) as [[]] end; [done|apply none_no_work].
  - match goal with |- context [apply_retry_decision io ?r w] =>
      assert (is_ok (apply_retry_decision io r w).1 = false) as Hs by (unfold apply_retry_decision; cbv zeta; by apply authority_first);
      destruct (apply_retry_decision io r w) as [[]] end; [done|apply none_no_work].
Qed.

Lemma recovery_sweep_fenced w :
  is_ok (ensure_authoritative_state (w_home w) (w_state w)) = false →
  no_work (continue_recovery_sweep w).1.
Proof.
  intros Hw. unfold continue_recovery_sweep.
  destruct (ensure_authoritative_state _ _); [done|]. apply none_no_work.
Qed.
End handlers.

(** ** A whole message *)

Section messages.
  Context `{!Sha256} `{!JsonText} `{!Ed25519} `{!WireSerde} `{!CustodySerde} `{!MessageSerde}.
  Context `{!HomeServices} `{!ArchiveSerde} `{!CheckpointBlobStore} `{!Allocator}.
  Context `{!HomeCodec} `{!CustodyCodec} `{!ToValue CustodyLedgerRecord}.
  Context (io cio : nat → AppendIo).
  Implicit Types k : CustodyWorld.
  Abbreviation path := (rtc (custody_step io cio)).

(** The custody call a message makes, when it makes one. *)
Definition custody_call_of (env : Envelope) : option CustodyCall :=
  if decide (hd_schema (ev_header env) = SCHEMA_HOME_V1) then
    match from_slice (ev_payload env) with
    | Ok (HPrepare grant checkpoint) => Some (CallPrepareHandoff grant checkpoint)
    | Ok (HActivated lease) => Some (CallRecordRedirect lease)
    | _ => None
    end
  else None.

(** The message froze an active Home whose healthy journal has no fence. *)
Definition message_refused (k : CustodyWorld) (env : Envelope) : bool :=
  match custody_call_of env with Some call => fence_refused io cio k call | None => false end.

Lemma status_path k r k' : signed_custody_status k = (r, k') → path k k'.
Proof.
  intros E. replace k' with (signed_custody_status k).2 by (by rewrite E).
  change (kwp signed_custody_status (fun _ => path k) k). unfold signed_custody_status.
  by kwp_go ltac:(done).
Qed.

Lemma serve_path handler k :
  (∀ w, works io w (handler w).2) → path k (serve handler k).2.
Proof.
  intros Hh. specialize (Hh (k_home k)). unfold serve.
  destruct (handler (k_home k)). by apply path_still.
Qed.

Lemma message_path env k :
  at_epoch (k_config k) (k_custody k) →
  path k (FunctionHome_handle io cio env k).2 ∨ message_refused k env = true.
Proof.
  intros He. unfold FunctionHome_handle, message_refused, custody_call_of.
  case_decide; [by left|]. case_decide as S1.
  { left. destruct (is_authenticated_recovery_poke _ _); [|done].
    apply serve_path, recovery_sweep_works. }
  case_decide; [left; apply serve_path, handle_job_works|].
  case_decide; [left; apply serve_path, handle_execute_works|].
  case_decide; [left; apply serve_path, handle_policy_works|].
  case_decide; [|by left]. destruct (from_slice _) as [message|]; [|by left].
  destruct message; cbn [handle_home_message]; try by left.
  - destruct (custody_call_path io cio k (CallPrepareHandoff grant checkpoint)) as [P|R];
      [done..| |by right; exact R].
    left. cbn in P. by destruct (prepare_handoff _ _ _ _) as [[]].
  - left. pose proof (record_handoff_redirect_path io cio lease k) as P.
    destruct (record_handoff_redirect cio lease k) as [[] k1]; [|done].
    destruct (signed_custody_status k1) as [r k2] eqn:E2. apply status_path in E2.
    destruct r; by etrans.
  - left. case_decide; [|done]. destruct (signed_custody_status k) as [r k2] eqn:E2.
    apply status_path in E2. by destruct r.
Qed.

(** The Home after a sequence of messages. *)
Definition receive (k : CustodyWorld) (envs : list Envelope) : CustodyWorld :=
  foldl (fun k env => (FunctionHome_handle io cio env k).2) k envs.
Fixpoint receipts_fenced (k : CustodyWorld) (envs : list Envelope) : bool :=
  match envs with
  | [] => true
  | env :: envs =>
      negb (message_refused k env) && receipts_fenced (FunctionHome_handle io cio env k).2 envs
  end.

Lemma frozen_message k env :
  is_frozen (k_custody k) = true → path k (FunctionHome_handle io cio env k).2.
Proof.
  intros F. destruct (message_path env k) as [P|R]; [by apply frozen_at_epoch|done|].
  unfold message_refused in R. destruct (custody_call_of env); [|done].
  by rewrite frozen_fence_not_refused in R.
Qed.

Lemma frozen_receive k envs :
  is_frozen (k_custody k) = true →
  same_ledger k (receive k envs) ∧ frozen_later (k_custody k) (k_custody (receive k envs)).
Proof.
  intros F. assert (path k (receive k envs)) as P; [|by eapply steps_frozen].
  revert k F. induction envs as [|env envs IH]; intros k F; [done|].
  pose proof (frozen_message k env F) as P. etrans; [exact P|]. apply IH.
  destruct (steps_frozen _ _ _ _ P F) as [_ F']. by eapply frozen_later_frozen.
Qed.

Lemma frozen_not_authoritative k :
  is_frozen (k_custody k) = true →
  is_ok (ensure_authoritative_state (w_home (k_home k)) (w_state (k_home k))) = false.
Proof.
  intros F. apply frozen_not_writable in F.
  destruct (ensure_authoritative_state _ _) as [u|] eqn:E; [|done].
  apply authoritative_writable in E. unfold k_custody in F. congruence.
Qed.

Lemma serve_fenced handler k :
  no_work (handler (k_home k)).1 → no_work (serve handler k).1.
Proof. unfold serve. by destruct (handler (k_home k)). Qed.

Lemma frozen_sends_no_work k env :
  is_frozen (k_custody k) = true → no_work (FunctionHome_handle io cio env k).1.
Proof.
  intros F%frozen_not_authoritative. unfold FunctionHome_handle.
  case_decide; [apply none_no_work|]. case_decide.
  { destruct (is_authenticated_recovery_poke _ _); [|apply none_no_work].
    by apply serve_fenced, recovery_sweep_fenced. }
  case_decide; [by apply serve_fenced, handle_job_fenced|].
  case_decide; [by apply serve_fenced, handle_execute_fenced|].
  case_decide; [by apply serve_fenced, handle_policy_fenced|].
  case_decide; [|apply none_no_work]. destruct (from_slice _) as [message|]; [|by repeat constructor].
  destruct message; cbn [handle_home_message]; try apply none_no_work.
  - destruct (prepare_handoff _ _ _ _) as [[]]; by repeat constructor.
  - destruct (record_handoff_redirect _ _ _) as [[] k1]; [|by repeat constructor].
    destruct (signed_custody_status k1) as [[]]; by repeat constructor.
  - case_decide; [|by repeat constructor].
    destruct (signed_custody_status k) as [[]]; by repeat constructor.
Qed.
End messages.

(** ** The destination *)

Section destination.
  Context `{!Sha256} `{!JsonText} `{!Ed25519} `{!WireSerde} `{!CustodySerde} `{!MessageSerde}.
  Context `{!HomeServices} `{!ArchiveSerde} `{!CheckpointBlobStore} `{!Allocator}.
  Context `{!StageSerde} `{!CustodyKeyRewrapper} `{!HomeCodec} `{!CustodyCodec}.
  Context `{!ToValue CustodyLedgerRecord} `{!JournalDecode CustodyLedgerRecord}.
  Context `{!JournalDecode HomeLedgerRecord} (signer : AuthoritySigner).
  Context (io cio : nat → AppendIo).
  Implicit Types s : HomeCustodyDestination.

Lemma in_root_active {A} (m : rootM A) s r s' :
  in_root m s = (r, s') → dn_active s = None → dn_active s' = None.
Proof. unfold in_root. destruct (m (visible_root s)). intros [= _ <-] Ha. cbn. by rewrite Ha. Qed.

(** No Home is open, and nothing asked for work. *)
Definition waits (out : Outcome * HomeCustodyDestination) : Prop :=
  dn_active out.2 = None ∧ no_work out.1.

Lemma waits_reply_home env message s : dn_active s = None → waits (reply_home env message, s).
Proof. intros Ha. split; [done|]. by repeat constructor. Qed.
Lemma waits_reply_job env message s : dn_active s = None → waits (reply_job env message, s).
Proof. intros Ha. split; [done|]. by repeat constructor. Qed.
Lemma waits_none s : dn_active s = None → waits (Outcome_none, s).
Proof. intros Ha. by split; [|constructor]. Qed.
#[local] Hint Resolve waits_reply_home waits_reply_job waits_none : core.

Lemma forward_waits env s : dn_active s = None → waits (forward io cio env s).
Proof. intros Ha. unfold forward. rewrite Ha. auto. Qed.

(** The message is the activation of a staged handoff that the custody journal
    accepts. *)
Definition activates (dio : DestinationIo) (env : Envelope) (s : HomeCustodyDestination) : Prop :=
  ∃ staged lease d,
    hd_schema (ev_header env) = SCHEMA_HOME_V1
    ∧ from_slice (ev_payload env) = Ok (HActivate staged)
    ∧ activate_staged_handoff (di_stage dio) (dn_config s) signer staged (visible_root s)
      = (Ok lease, d).

Lemma activate_waits dio env staged s :
  dn_active s = None →
  waits (activate signer cio dio env staged s)
  ∨ ∃ lease d, activate_staged_handoff (di_stage dio) (dn_config s) signer staged (visible_root s)
               = (Ok lease, d).
Proof.
  intros Ha. unfold activate. destruct (dn_bound s) as [me|]; [|left; unfold reply_home_error, reply_protocol_error; auto].
  destruct (in_root _ s) as [r s1] eqn:E. pose proof (in_root_active _ _ _ _ E Ha) as Ha1.
  destruct r as [lease|e]; [|left; unfold reply_home_error, reply_protocol_error; auto].
  right. unfold in_root in E. destruct (activate_staged_handoff _ _ _ _ _) as [r d].
  injection E as -> _. eauto.
Qed.

Lemma destination_waits dio env s :
  dn_active s = None →
  waits (destination_handle signer io cio dio env s) ∨ activates dio env s.
Proof.
  intros Ha. unfold destination_handle. case_decide; [left; auto|].
  destruct (dn_startup_error s).
  { left. unfold reply_protocol_error. case_decide; [auto|]. case_decide; auto. }
  case_decide as Hs; [left; rewrite Ha; case_decide; auto|].
  destruct (from_slice (ev_payload env)) as [message|] eqn:Em;
    [|left; unfold reply_protocol_error; auto].
  destruct message; cbn [destination_message]; try (left; by apply forward_waits).
  - left. destruct (in_root _ s) as [r s1] eqn:E1. pose proof (in_root_active _ _ _ _ E1 Ha) as Ha1.
    unfold reply_home_error, reply_protocol_error.
    destruct r; [|auto]. destruct (in_root _ s1) as [r2 s2] eqn:E2.
    pose proof (in_root_active _ _ _ _ E2 Ha1). destruct r2; auto.
  - destruct (activate_waits dio env staged s Ha) as [W|(lease & d & E)]; [by left|].
    right. by exists staged, lease, d.
  - left. unfold reply_home_error, reply_protocol_error. case_decide; [|auto].
    destruct (in_root _ s) as [r s1] eqn:E1. pose proof (in_root_active _ _ _ _ E1 Ha).
    destruct r; auto.
Qed.
End destination.

(** ** A concrete fenced Home on the bus *)

Module bus_sample.
#[local] Existing Instances toy_sha stuffed_text toy_ed25519 sample_wire null_custody
  api_sample.null_messages custody_sample.services custody_sample.archives custody_sample.store
  custody_sample.memory custody_sample.tag_value.

(** Every job message is the same submission; the other messages do not decode. *)
Definition submission_serde : SerdeJson JobMessageV1 :=
  {| to_vec _ := Ok [];
     from_slice _ := Ok (JSubmit (api_sample.submission (AtLeastOnce 2)) api_sample.resolution
                           sample_deployment) |}.
Definition codec : HomeCodec :=
  @Build_HomeCodec submission_serde serve_sample.blank_serde serve_sample.blank_serde
    serve_sample.blank_serde (fun _ => Ok "reply").
Definition custody_codec : CustodyCodec :=
  @Build_CustodyCodec serve_sample.blank_serde serve_sample.blank_serde.
#[local] Existing Instances codec custody_codec.

Definition env : Envelope := serve_sample.env.
Lemma fenced_frozen : is_frozen (k_custody custody_sample.fenced) = true.
Proof. vm_compute. reflexivity. Qed.

(** A destination that has been staged and not activated. *)
Definition rewrapper : CustodyKeyRewrapper :=
  {| rw_current_binding := Err "none"; rw_rewrap _ _ := Err "none" |}.
Definition stage_serde : StageSerde :=
  @Build_StageSerde (fun _ => Ok JNull) (fun _ => Err "none") (fun _ => Err "none").
Definition empty_root : RootDir :=
  mkRootDir Journal.sample.empty_disk Journal.sample.empty_disk None None.
Definition destination : HomeCustodyDestination :=
  mkHomeCustodyDestination stage_sample.config None (Some 2) None empty_root.
Definition undecodable {T} : JournalDecode T :=
  Build_JournalDecode T (fun _ => Err "unknown record") (fun _ => Err "unknown head").
Definition open_io : OpenIo := 
  mkOpenIo (Ok tt) true (Ok tt) (Ok tt) true (Ok tt) true (Ok tt) atomic_ok (Ok tt).
Definition meta_io : MetaIo := mkMetaIo true (Ok tt) (Ok tt) atomic_ok.
Definition install_io : InstallIo := mkInstallIo (Ok tt) true (Ok tt) atomic_ok true (Ok tt) atomic_ok.
Definition dio : DestinationIo :=
  mkDestinationIo
    (mkStageIo meta_io meta_io open_io Journal.sample.io install_io open_io Journal.sample.io)
    meta_io (mkHomeOpenIo meta_io meta_io open_io open_io Journal.sample.io).
Definition outcome : Outcome * HomeCustodyDestination :=
  @destination_handle toy_sha stuffed_text toy_ed25519 sample_wire null_custody
    api_sample.null_messages custody_sample.services custody_sample.archives
    custody_sample.store stage_serde rewrapper codec custody_codec
    custody_sample.tag_value undecodable undecodable stage_sample.signer custody_sample.io
    custody_sample.io dio env destination.
End bus_sample.

(** ** Properties *)

(** A fenced Home stays silent. Whatever envelopes a fenced Home receives, of
    any schema and with any bytes, its ledger does not change, it stays fenced for
    the same handoff, and no answer it gives to any further envelope hands work to
    an executor or a question about work to a policy. *)
Theorem fenced_home_stays_silent (S : Sha256) (X : JsonText) (E : Ed25519) (W : WireSerde)
    (K : CustodySerde) (M : MessageSerde) (V : HomeServices) (A : ArchiveSerde)
    (B : CheckpointBlobStore) (L : Allocator) (Hc : HomeCodec) (Cc : CustodyCodec)
    (T : ToValue CustodyLedgerRecord) (io cio : nat → AppendIo) (k : CustodyWorld)
    (envs : list Envelope) (Hfrozen : is_frozen (k_custody k) = true) :
  let k' := receive io cio k envs in
  same_ledger k k' ∧ frozen_later (k_custody k) (k_custody k')
  ∧ ∀ env, no_work (FunctionHome_handle io cio env k').1.
Proof.
  destruct (frozen_receive io cio k envs Hfrozen) as [SL FL]. cbv zeta.
  split_and!; [done|done|]. intros env. by eapply frozen_sends_no_work, frozen_later_frozen.
Qed.

Lemma fenced_home_stays_silent_witness :
  ∃ k', is_frozen (k_custody k') = true.
Proof.
  eexists.
  refine (frozen_later_frozen _ _ (proj1 (proj2
    (@fenced_home_stays_silent toy_sha stuffed_text toy_ed25519 sample_wire null_custody
       api_sample.null_messages custody_sample.services custody_sample.archives
       custody_sample.store custody_sample.memory bus_sample.codec bus_sample.custody_codec
       custody_sample.tag_value custody_sample.io custody_sample.io custody_sample.fenced
       [bus_sample.env; bus_sample.env] bus_sample.fenced_frozen)))).
Defined.

(** A destination waits for its activation. As long as no Home is open at the
    destination of a handoff, an envelope leaves it so, and asks nobody for work,
    unless it is the Activate of a staged handoff for which the custody journal of
    the destination granted a lease. *)
Theorem destination_waits_for_lease (S : Sha256) (X : JsonText) (E : Ed25519) (W : WireSerde)
    (K : CustodySerde) (M : MessageSerde) (V : HomeServices) (A : ArchiveSerde)
    (B : CheckpointBlobStore) (G : StageSerde) (R : CustodyKeyRewrapper)
    (Hc : HomeCodec) (Cc : CustodyCodec) (T : ToValue CustodyLedgerRecord)
    (D : JournalDecode CustodyLedgerRecord) (D' : JournalDecode HomeLedgerRecord)
    (signer : AuthoritySigner) (io cio : nat → AppendIo) (dio : DestinationIo) (env : Envelope)
    (s : HomeCustodyDestination) (Hinactive : dn_active s = None) :
  waits (destination_handle signer io cio dio env s) ∨ activates signer dio env s.
Proof. by apply destination_waits. Qed.

Lemma destination_waits_for_lease_witness : waits bus_sample.outcome.
Proof.
  destruct (@destination_waits_for_lease toy_sha stuffed_text toy_ed25519 sample_wire null_custody
    api_sample.null_messages custody_sample.services custody_sample.archives custody_sample.store
    bus_sample.stage_serde bus_sample.rewrapper bus_sample.codec
    bus_sample.custody_codec custody_sample.tag_value bus_sample.undecodable
    bus_sample.undecodable stage_sample.signer custody_sample.io custody_sample.io bus_sample.dio
    bus_sample.env bus_sample.destination eq_refl) as [W|(staged & lease & d & Hs & _)].
  - exact W.
  - discriminate Hs.
Defined.
