(* ===== verification/Sigil.v ===== *)
(** * The manifest of a creature

    [cosmos/sigil/src/lib.rs] and [crypto.rs]: a creature at rest. The shape
    checks of a manifest, its parser, the bytes a signature and the content
    address commit to, and the ed25519 verifier of the bus.

    [serde_json] at the manifest is [SerdeJson]; a serialisation that fails where
    the source expects that it cannot is [None], the panic of [expect]. *)

From S2P Require Import Prelude Serde GxShape GxHash FnCrypto FnTypes AetherAddress AetherEnvelope.
From S2P Require Import AetherRouter.

(** ** Limits *)

Definition MAX_MANIFEST_BYTES : N := 1024 * 1024.
Definition MAX_MANIFEST_NAME_BYTES : N := 128.
Definition MAX_MANIFEST_VERSION_BYTES : N := 128.
Definition MAX_MANIFEST_ABI_TAG_BYTES : N := 128.
Definition MAX_MANIFEST_TARGETS : N := 64.
Definition MAX_MANIFEST_TARGET_BYTES : N := 256.
Definition MAX_MANIFEST_ENTRYPOINTS : N := 64.
Definition MAX_MANIFEST_ENTRYPOINT_NAME_BYTES : N := 128.
Definition MAX_MANIFEST_ENTRYPOINT_SIGNATURE_BYTES : N := 512.
Definition MAX_MANIFEST_PROVIDES : N := 64.
Definition MAX_MANIFEST_PROVIDES_BYTES : N := 128.
Definition MAX_MANIFEST_CAPABILITY_ITEMS : N := 128.
Definition MAX_MANIFEST_FS_PATH_BYTES : N := 4096.
Definition MAX_MANIFEST_CALL_BYTES : N := 512.
Definition MAX_MANIFEST_REQUIREMENT_ITEMS : N := 128.
Definition MAX_MANIFEST_REQUIREMENT_FIELD_BYTES : N := 256.
Definition MAX_MANIFEST_PROVENANCE_FIELD_BYTES : N := 512.
Definition MAX_MANIFEST_REALM_BYTES : N := 256.
Definition MAX_MANIFEST_CONTENT_ADDRESS_BYTES : N := 128.

(** ** Data *)

Definition RealmId_LOCAL : string := "local".
Definition RealmId_local : RealmId := RealmId_LOCAL.
Definition RealmId_is_valid (r : RealmId) : bool := negb (is_blank r) && negb (contains_char COLON r).
Definition RealmId_checked (s : string) : option RealmId :=
  if RealmId_is_valid s then Some s else None.

Inductive Backend : Type := BDaemon | BBeast | BCritter.

Record Abi : Type := mkAbi {
  abi_backend : Backend;
  abi_abi_tag : string;
  abi_target : list string
}.

Record Entrypoint : Type := mkEntrypoint {
  ep_name : string;
  ep_signature : string;
  ep_contract : option EntrypointContractV1
}.
Definition Entrypoint_new (name signature : string) : Entrypoint := mkEntrypoint name signature None.

Record Requirements : Type := mkRequirements {
  rq_accelerators : list string;
  rq_sensors : list string;
  rq_min_mem_bytes : N;
  rq_connectivity : option string;
  rq_jurisdiction : option string
}.
Definition Requirements_default : Requirements := mkRequirements [] [] 0 None None.

Record Provenance : Type := mkProvenance {
  pv_author : option string;
  pv_source_hash : option string;
  pv_build_hash : option string;
  pv_signature : option string;
  pv_realm : option RealmId
}.
Definition Provenance_default : Provenance := mkProvenance None None None None None.

Record Manifest : Type := mkManifest {
  mf_name : string;
  mf_version : string;
  mf_abi : Abi;
  mf_entrypoints : list Entrypoint;
  mf_capabilities : Capabilities;
  mf_requirements : Requirements;
  mf_provenance : Provenance;
  mf_content_address : option string;
  mf_provides : list string
}.

Inductive ManifestError : Type :=
  | ManifestParse (message : string)
  | ManifestInvalid (message : string).

Definition ManifestError_to_string (e : ManifestError) : string :=
  match e with
  | ManifestParse m => "manifest parse error: " +:+ m
  | ManifestInvalid m => "invalid manifest: " +:+ m
  end.

Definition Manifest_new (name version : string) (backend : Backend) (abi_tag : string) : Manifest :=
  mkManifest name version (mkAbi backend abi_tag []) [] Capabilities_default Requirements_default
    Provenance_default None [].

Definition set_signature (signature : option string) (p : Provenance) : Provenance :=
  mkProvenance (pv_author p) (pv_source_hash p) (pv_build_hash p) signature (pv_realm p).
Definition set_provenance (p : Provenance) (m : Manifest) : Manifest :=
  mkManifest (mf_name m) (mf_version m) (mf_abi m) (mf_entrypoints m) (mf_capabilities m)
    (mf_requirements m) p (mf_content_address m) (mf_provides m).
Definition set_content_address (a : option string) (m : Manifest) : Manifest :=
  mkManifest (mf_name m) (mf_version m) (mf_abi m) (mf_entrypoints m) (mf_capabilities m)
    (mf_requirements m) (mf_provenance m) a (mf_provides m).

(** ** Shape checks *)

Definition validate_text_len (label value : string) (max : N) : result ManifestError unit :=
  if decide (max < slen value) then
    Err (ManifestInvalid (label +:+ " is " +:+ dec (slen value) +:+ " bytes, exceeds " +:+ dec max
                          +:+ " byte limit"))
  else Ok tt.

Definition validate_list_len (label : string) (len max : N) : result ManifestError unit :=
  if decide (max < len) then
    Err (ManifestInvalid (label +:+ " has " +:+ dec len +:+ " entries, exceeds " +:+ dec max
                          +:+ " entry limit"))
  else Ok tt.

Definition validate_optional_text_len (label : string) (value : option string) (max : N) :
    result ManifestError unit :=
  match value with Some value => validate_text_len label value max | None => Ok tt end.

Fixpoint validate_items (label : string) (values : list string) (max_bytes : N) :
    result ManifestError unit :=
  match values with
  | [] => Ok tt
  | value :: values =>
      _ ← validate_text_len label value max_bytes; validate_items label values max_bytes
  end.

Definition validate_string_list (label : string) (values : list string) (max_items max_bytes : N) :
    result ManifestError unit :=
  _ ← validate_list_len label (N.of_nat (length values)) max_items;
  validate_items (label +:+ "[]") values max_bytes.

Definition validate_capabilities_shape (cap : Capabilities) : result ManifestError unit :=
  _ ← validate_string_list "capabilities.fs" (cap_fs cap) MAX_MANIFEST_CAPABILITY_ITEMS
        MAX_MANIFEST_FS_PATH_BYTES;
  validate_string_list "capabilities.calls" (cap_calls cap) MAX_MANIFEST_CAPABILITY_ITEMS
    MAX_MANIFEST_CALL_BYTES.

Definition validate_requirements_shape (req : Requirements) : result ManifestError unit :=
  _ ← validate_string_list "requirements.accelerators" (rq_accelerators req)
        MAX_MANIFEST_REQUIREMENT_ITEMS MAX_MANIFEST_REQUIREMENT_FIELD_BYTES;
  _ ← validate_string_list "requirements.sensors" (rq_sensors req)
        MAX_MANIFEST_REQUIREMENT_ITEMS MAX_MANIFEST_REQUIREMENT_FIELD_BYTES;
  _ ← validate_optional_text_len "requirements.connectivity" (rq_connectivity req)
        MAX_MANIFEST_REQUIREMENT_FIELD_BYTES;
  validate_optional_text_len "requirements.jurisdiction" (rq_jurisdiction req)
    MAX_MANIFEST_REQUIREMENT_FIELD_BYTES.

Definition validate_provenance_shape (prov : Provenance) : result ManifestError unit :=
  let field label value :=
    validate_optional_text_len label value MAX_MANIFEST_PROVENANCE_FIELD_BYTES in
  _ ← field "provenance.author" (pv_author prov);
  _ ← field "provenance.source_hash" (pv_source_hash prov);
  _ ← field "provenance.build_hash" (pv_build_hash prov);
  _ ← field "provenance.signature" (pv_signature prov);
  validate_optional_text_len "provenance.realm" (pv_realm prov) MAX_MANIFEST_REALM_BYTES.

Section manifest.
  Context `{!Sha256} `{!JsonText} `{!SerdeJson Manifest}.

Definition validate_contract (ep : Entrypoint) : result ManifestError unit :=
  match ep_contract ep with
  | Some contract =>
      map_err (fun e => ManifestInvalid ("entrypoint `" +:+ ep_name ep
                 +:+ "` has invalid structured contract: " +:+ ContractError_to_string e))
        (EntrypointContractV1_validate contract)
  | None => Ok tt
  end.

(** The entrypoint loop of [validate]; [seen] is its hash set. *)
Fixpoint validate_entrypoints (seen : list string) (eps : list Entrypoint) :
    result ManifestError unit :=
  match eps with
  | [] => Ok tt
  | ep :: eps =>
      if is_blank (ep_name ep) then Err (ManifestInvalid "entrypoint has empty `name`")
      else
        _ ← validate_text_len "entrypoint.name" (ep_name ep) MAX_MANIFEST_ENTRYPOINT_NAME_BYTES;
        if is_blank (ep_signature ep) then
          Err (ManifestInvalid ("entrypoint `" +:+ ep_name ep +:+ "` has empty `signature`"))
        else
          _ ← validate_text_len "entrypoint.signature" (ep_signature ep)
                MAX_MANIFEST_ENTRYPOINT_SIGNATURE_BYTES;
          _ ← validate_contract ep;
          if decide (ep_name ep ∈ seen) then
            Err (ManifestInvalid ("duplicate entrypoint `" +:+ ep_name ep +:+ "`"))
          else validate_entrypoints (ep_name ep :: seen) eps
  end.

(** The role loop of [validate]. *)
Fixpoint validate_provides (seen : list string) (roles : list string) :
    result ManifestError unit :=
  match roles with
  | [] => Ok tt
  | r :: roles =>
      if is_blank r then Err (ManifestInvalid "`provides` contains empty role")
      else
        _ ← validate_text_len "provides[]" r MAX_MANIFEST_PROVIDES_BYTES;
        if decide (r ∈ seen) then Err (ManifestInvalid ("duplicate provides role `" +:+ r +:+ "`"))
        else validate_provides (r :: seen) roles
  end.

Definition validate_realm (realm : option RealmId) : result ManifestError unit :=
  match realm with
  | Some r =>
      if RealmId_is_valid r then Ok tt
      else Err (ManifestInvalid ("provenance.realm `" +:+ r
                  +:+ "` is not a valid realm name (non-empty, no `:`/whitespace)"))
  | None => Ok tt
  end.

Definition Manifest_validate (m : Manifest) : result ManifestError unit :=
  if is_blank (mf_name m) then Err (ManifestInvalid "missing `name`")
  else if is_blank (mf_version m) then Err (ManifestInvalid "missing `version`")
  else
    _ ← validate_text_len "name" (mf_name m) MAX_MANIFEST_NAME_BYTES;
    _ ← validate_text_len "version" (mf_version m) MAX_MANIFEST_VERSION_BYTES;
    _ ← validate_text_len "abi.abi_tag" (abi_abi_tag (mf_abi m)) MAX_MANIFEST_ABI_TAG_BYTES;
    if is_blank (abi_abi_tag (mf_abi m)) then
      Err (ManifestInvalid "abi.abi_tag must not be empty")
    else
      _ ← validate_string_list "abi.target" (abi_target (mf_abi m)) MAX_MANIFEST_TARGETS
            MAX_MANIFEST_TARGET_BYTES;
      _ ← validate_list_len "entrypoints" (N.of_nat (length (mf_entrypoints m)))
            MAX_MANIFEST_ENTRYPOINTS;
      _ ← validate_entrypoints [] (mf_entrypoints m);
      _ ← validate_capabilities_shape (mf_capabilities m);
      _ ← validate_requirements_shape (mf_requirements m);
      _ ← validate_list_len "provides" (N.of_nat (length (mf_provides m))) MAX_MANIFEST_PROVIDES;
      _ ← validate_provides [] (mf_provides m);
      _ ← validate_provenance_shape (mf_provenance m);
      _ ← validate_optional_text_len "content_address" (mf_content_address m)
            MAX_MANIFEST_CONTENT_ADDRESS_BYTES;
      validate_realm (pv_realm (mf_provenance m)).

Definition Manifest_parse (b : bytes) : result ManifestError Manifest :=
  if decide (MAX_MANIFEST_BYTES < blen b) then
    Err (ManifestInvalid ("manifest JSON is " +:+ dec (blen b) +:+ " bytes, exceeds "
                          +:+ dec MAX_MANIFEST_BYTES +:+ " byte limit"))
  else
    m ← map_err ManifestParse (from_slice b);
    _ ← Manifest_validate m;
    Ok m.

(** ** Identity *)

(** [serde_json::to_vec(..).expect(..)]. *)
Definition expect {E A} (r : result E A) : option A :=
  match r with Ok a => Some a | Err _ => None end.

Definition unsigned_manifest (m : Manifest) : Manifest :=
  set_provenance (set_signature None (mf_provenance m)) m.

Definition manifest_signing_payload (m : Manifest) : option bytes :=
  expect (to_vec (unsigned_manifest m)).

Definition identity_of (m : Manifest) : Manifest :=
  set_content_address None (unsigned_manifest m).

Definition identity_payload (m : Manifest) : option bytes := expect (to_vec (identity_of m)).

Definition compute_content_address (m : Manifest) : option string :=
  b ← identity_payload m; Some (sha256_digest b).

Definition provides_role (m : Manifest) (role : string) : bool :=
  existsb (fun r => bool_decide (r = role)) (mf_provides m).
End manifest.

(** ** Keys *)

Section keys.
  Context `{!Ed25519}.

(** [Ed25519Verifier::verify]. *)
Definition ed25519_verifier : Verifier :=
  fun public_key payload signature =>
    if bool_decide (slen public_key ≠ 64) || bool_decide (slen signature ≠ 128) then false
    else
      match hex_decode public_key with
      | None => false
      | Some pk =>
          match hex_decode signature with
          | None => false
          | Some sig =>
              if bool_decide (blen pk ≠ 32) || bool_decide (blen sig ≠ 64) then false
              else ed25519_verify pk payload sig
          end
      end.

(** [Ed25519KeyMaterial]: the seed and the public key in hex. [ring] derives a key
    from every seed of 32 bytes, so that [from_seed] does not fail. *)
Record Ed25519KeyMaterial : Type := mkKeyMaterial {
  km_seed : bytes;
  km_public_hex : string
}.

Definition from_seed `{!Ed25519Keys} (seed : bytes) : Ed25519KeyMaterial :=
  mkKeyMaterial seed (hex_encode (ed_public seed)).

Definition km_sign `{!Ed25519Keys} (k : Ed25519KeyMaterial) (payload : bytes) : string :=
  hex_encode (ed_sign (km_seed k) payload).
End keys.

(** ** Laws *)

Lemma validate_text_len_Ok label value max :
  validate_text_len label value max = Ok tt ↔ slen value ≤ max.
Proof. unfold validate_text_len. case_decide; split; [done|lia|lia|done]. Qed.

Lemma validate_list_len_Ok label len max : validate_list_len label len max = Ok tt ↔ len ≤ max.
Proof. unfold validate_list_len. case_decide; split; [done|lia|lia|done]. Qed.

(** An optional text within its bound. *)
Definition fits_within (value : option string) (max : N) : Prop :=
  ∀ v, value = Some v → slen v ≤ max.

Lemma validate_optional_text_len_Ok label value max :
  validate_optional_text_len label value max = Ok tt ↔ fits_within value max.
Proof.
  unfold fits_within. destruct value as [v|]; cbn; [|naive_solver].
  rewrite validate_text_len_Ok. naive_solver.
Qed.

(** Two checks in sequence. *)
Lemma both_Ok {E} (x y : result E unit) : (_ ← x; y) = Ok tt ↔ x = Ok tt ∧ y = Ok tt.
Proof. destruct x as [[]|e]; cbn; naive_solver. Qed.

Lemma validate_items_Ok label values max :
  validate_items label values max = Ok tt ↔ Forall (fun v => slen v ≤ max) values.
Proof.
  induction values as [|v values IH]; cbn [validate_items]; [by split|].
  by rewrite both_Ok, validate_text_len_Ok, IH, Forall_cons.
Qed.

(** A list of texts within its bounds. *)
Definition bounded_list (values : list string) (max_items max_bytes : N) : Prop :=
  N.of_nat (length values) ≤ max_items ∧ Forall (fun v => slen v ≤ max_bytes) values.

Lemma validate_string_list_Ok label values max_items max_bytes :
  validate_string_list label values max_items max_bytes = Ok tt ↔
  bounded_list values max_items max_bytes.
Proof.
  unfold validate_string_list. by rewrite both_Ok, validate_list_len_Ok, validate_items_Ok.
Qed.

Section laws.
  Context `{!Sha256} `{!JsonText} `{!SerdeJson Manifest}.

(** What the entrypoint loop guarantees of each entry. *)
Definition entrypoint_ok (ep : Entrypoint) : Prop :=
  is_blank (ep_name ep) = false ∧ slen (ep_name ep) ≤ MAX_MANIFEST_ENTRYPOINT_NAME_BYTES
  ∧ is_blank (ep_signature ep) = false
  ∧ slen (ep_signature ep) ≤ MAX_MANIFEST_ENTRYPOINT_SIGNATURE_BYTES
  ∧ ∀ c, ep_contract ep = Some c → EntrypointContractV1_validate c = Ok tt.

Lemma validate_contract_Ok ep :
  validate_contract ep = Ok tt ↔
  ∀ c, ep_contract ep = Some c → EntrypointContractV1_validate c = Ok tt.
Proof.
  unfold validate_contract. destruct (ep_contract ep) as [c|]; [|naive_solver]. split.
  - intros E%map_err_Ok c' [= <-]. done.
  - intros E. by rewrite (E c).
Qed.

(** Names none of which was seen, nor occurs twice. *)
Lemma fresh_cons {A} (x : A) l seen :
  (x ∉ seen) ∧ NoDup l ∧ Forall (fun y => y ∉ x :: seen) l ↔
  NoDup (x :: l) ∧ Forall (fun y => y ∉ seen) (x :: l).
Proof. rewrite NoDup_cons, Forall_cons, !Forall_forall. set_solver. Qed.

Lemma validate_entrypoints_Ok seen eps :
  validate_entrypoints seen eps = Ok tt ↔
  Forall entrypoint_ok eps ∧ NoDup (map ep_name eps)
  ∧ Forall (fun name => name ∉ seen) (map ep_name eps).
Proof.
  revert seen. induction eps as [|ep eps IH]; intros seen.
  { split; [intros _; split_and!; constructor|done]. }
  cbn [validate_entrypoints map]. rewrite <- fresh_cons, Forall_cons. unfold entrypoint_ok at 1.
  destruct (is_blank (ep_name ep)); [naive_solver|]. rewrite both_Ok, validate_text_len_Ok.
  destruct (is_blank (ep_signature ep)); [naive_solver|].
  rewrite !both_Ok, validate_text_len_Ok, validate_contract_Ok.
  case_decide; [naive_solver|]. rewrite IH. tauto.
Qed.

Lemma validate_provides_Ok seen roles :
  validate_provides seen roles = Ok tt ↔
  Forall (fun r => is_blank r = false ∧ slen r ≤ MAX_MANIFEST_PROVIDES_BYTES) roles
  ∧ NoDup roles ∧ Forall (fun r => r ∉ seen) roles.
Proof.
  revert seen. induction roles as [|r roles IH]; intros seen.
  { split; [intros _; split_and!; constructor|done]. }
  cbn [validate_provides]. rewrite <- fresh_cons, Forall_cons.
  destruct (is_blank r); [naive_solver|]. rewrite both_Ok, validate_text_len_Ok.
  case_decide; [naive_solver|]. rewrite IH. tauto.
Qed.

Lemma validate_realm_Ok realm :
  validate_realm realm = Ok tt ↔
  ∀ r, realm = Some r → is_blank r = false ∧ contains_char COLON r = false.
Proof.
  unfold validate_realm. destruct realm as [r|]; [|naive_solver]. unfold RealmId_is_valid.
  destruct (is_blank r) eqn:E1, (contains_char COLON r) eqn:E2; cbn [negb andb]; split;
    first [done | intros H'; destruct (H' r eq_refl); congruence | by intros _ ? [= <-]].
Qed.

(** *** What the format asks of a manifest, part by part *)

Definition coherent_abi (a : Abi) : Prop :=
  is_blank (abi_abi_tag a) = false ∧ slen (abi_abi_tag a) ≤ MAX_MANIFEST_ABI_TAG_BYTES
  ∧ bounded_list (abi_target a) MAX_MANIFEST_TARGETS MAX_MANIFEST_TARGET_BYTES.

Definition coherent_entrypoints (eps : list Entrypoint) : Prop :=
  N.of_nat (length eps) ≤ MAX_MANIFEST_ENTRYPOINTS
  ∧ Forall entrypoint_ok eps ∧ NoDup (map ep_name eps).

Definition coherent_provides (roles : list string) : Prop :=
  N.of_nat (length roles) ≤ MAX_MANIFEST_PROVIDES
  ∧ Forall (fun r => is_blank r = false ∧ slen r ≤ MAX_MANIFEST_PROVIDES_BYTES) roles
  ∧ NoDup roles.

Definition coherent_capabilities (cap : Capabilities) : Prop :=
  bounded_list (cap_fs cap) MAX_MANIFEST_CAPABILITY_ITEMS MAX_MANIFEST_FS_PATH_BYTES
  ∧ bounded_list (cap_calls cap) MAX_MANIFEST_CAPABILITY_ITEMS MAX_MANIFEST_CALL_BYTES.

Definition coherent_requirements (req : Requirements) : Prop :=
  bounded_list (rq_accelerators req) MAX_MANIFEST_REQUIREMENT_ITEMS
    MAX_MANIFEST_REQUIREMENT_FIELD_BYTES
  ∧ bounded_list (rq_sensors req) MAX_MANIFEST_REQUIREMENT_ITEMS
      MAX_MANIFEST_REQUIREMENT_FIELD_BYTES
  ∧ fits_within (rq_connectivity req) MAX_MANIFEST_REQUIREMENT_FIELD_BYTES
  ∧ fits_within (rq_jurisdiction req) MAX_MANIFEST_REQUIREMENT_FIELD_BYTES.

Definition coherent_provenance (prov : Provenance) : Prop :=
  fits_within (pv_author prov) MAX_MANIFEST_PROVENANCE_FIELD_BYTES
  ∧ fits_within (pv_source_hash prov) MAX_MANIFEST_PROVENANCE_FIELD_BYTES
  ∧ fits_within (pv_build_hash prov) MAX_MANIFEST_PROVENANCE_FIELD_BYTES
  ∧ fits_within (pv_signature prov) MAX_MANIFEST_PROVENANCE_FIELD_BYTES
  ∧ fits_within (pv_realm prov) MAX_MANIFEST_REALM_BYTES
  ∧ ∀ r, pv_realm prov = Some r → is_blank r = false ∧ contains_char COLON r = false.

(** A manifest whose metadata can be relied on. *)
Definition coherent_manifest (m : Manifest) : Prop :=
  is_blank (mf_name m) = false ∧ slen (mf_name m) ≤ MAX_MANIFEST_NAME_BYTES
  ∧ is_blank (mf_version m) = false ∧ slen (mf_version m) ≤ MAX_MANIFEST_VERSION_BYTES
  ∧ coherent_abi (mf_abi m) ∧ coherent_entrypoints (mf_entrypoints m)
  ∧ coherent_capabilities (mf_capabilities m) ∧ coherent_requirements (mf_requirements m)
  ∧ coherent_provides (mf_provides m) ∧ coherent_provenance (mf_provenance m)
  ∧ fits_within (mf_content_address m) MAX_MANIFEST_CONTENT_ADDRESS_BYTES.

Lemma validate_capabilities_Ok cap :
  validate_capabilities_shape cap = Ok tt ↔ coherent_capabilities cap.
Proof. unfold validate_capabilities_shape. by rewrite both_Ok, !validate_string_list_Ok. Qed.

Lemma validate_requirements_Ok req :
  validate_requirements_shape req = Ok tt ↔ coherent_requirements req.
Proof.
  unfold validate_requirements_shape.
  by rewrite !both_Ok, !validate_string_list_Ok, !validate_optional_text_len_Ok.
Qed.

Lemma validate_provenance_Ok prov :
  validate_provenance_shape prov = Ok tt ∧ validate_realm (pv_realm prov) = Ok tt ↔
  coherent_provenance prov.
Proof.
  unfold validate_provenance_shape, coherent_provenance.
  rewrite !both_Ok, !validate_optional_text_len_Ok, validate_realm_Ok. tauto.
Qed.

(** The validator accepts the coherent manifests and no others. *)
Lemma validate_coherent_iff m : Manifest_validate m = Ok tt ↔ coherent_manifest m.
Proof.
  unfold Manifest_validate, coherent_manifest, coherent_abi, coherent_entrypoints,
    coherent_provides.
  rewrite <- validate_provenance_Ok, <- validate_requirements_Ok, <- validate_capabilities_Ok,
    <- (validate_optional_text_len_Ok "content_address").
  destruct (is_blank (mf_name m)); [naive_solver|].
  destruct (is_blank (mf_version m)); [naive_solver|].
  rewrite !both_Ok, !validate_text_len_Ok.
  destruct (is_blank (abi_abi_tag (mf_abi m))); [naive_solver|].
  rewrite !both_Ok, validate_string_list_Ok, !validate_list_len_Ok, validate_entrypoints_Ok,
    validate_provides_Ok.
  assert (∀ l : list string, Forall (fun r => r ∉ []) l) as Hnew
    by (intros l; apply Forall_forall; set_solver).
  pose proof (Hnew (map ep_name (mf_entrypoints m))). pose proof (Hnew (mf_provides m)). tauto.
Qed.

Lemma validate_coherent m : Manifest_validate m = Ok tt → coherent_manifest m.
Proof. apply validate_coherent_iff. Qed.

(** The content address does not depend on the signature or on itself. *)
Lemma address_stable m signature address :
  compute_content_address (set_content_address address
    (set_provenance (set_signature signature (mf_provenance m)) m)) = compute_content_address m.
Proof. done. Qed.

Lemma address_identifies `{!SerdeRoundTrip Manifest} m1 m2 a :
  compute_content_address m1 = Some a → compute_content_address m2 = Some a →
  identity_of m1 = identity_of m2
  ∨ ∃ b1 b2, b1 ≠ b2 ∧ hash_bytes b1 = hash_bytes b2.
Proof.
  unfold compute_content_address, identity_payload. intros (b1 & H1 & E1)%bind_Some (b2 & H2' & E2)%bind_Some.
  destruct (to_vec (identity_of m1)) as [x1|] eqn:T1; [|done].
  destruct (to_vec (identity_of m2)) as [x2|] eqn:T2; [|done]. cbn in *. simplify_eq.
  destruct (decide (b1 = b2)) as [->|Hne].
  - left. apply from_slice_to_vec in T1, T2. congruence.
  - right. exists b1, b2. split; [done|]. unfold sha256_digest in *. by simplify_eq.
Qed.
End laws.

(** ** A concrete manifest *)

Module sigil_sample.
#[local] Existing Instances zero_sha stuffed_text.
#[local] Instance NetCapability_eq_dec : EqDecision NetCapability.
Proof. solve_decision. Defined.
#[local] Instance Capabilities_eq_dec : EqDecision Capabilities.
Proof. solve_decision. Defined.
#[local] Instance SchemaRefV1_eq_dec : EqDecision SchemaRefV1.
Proof. solve_decision. Defined.
#[local] Instance FunctionControlsV1_eq_dec : EqDecision FunctionControlsV1.
Proof. solve_decision. Defined.
#[local] Instance EntrypointContractV1_eq_dec : EqDecision EntrypointContractV1.
Proof. solve_decision. Defined.
#[local] Instance Entrypoint_eq_dec : EqDecision Entrypoint.
Proof. solve_decision. Defined.
#[local] Instance Backend_eq_dec : EqDecision Backend.
Proof. solve_decision. Defined.
#[local] Instance Abi_eq_dec : EqDecision Abi.
Proof. solve_decision. Defined.
#[local] Instance Requirements_eq_dec : EqDecision Requirements.
Proof. solve_decision. Defined.
#[local] Instance Provenance_eq_dec : EqDecision Provenance.
Proof. solve_decision. Defined.
#[local] Instance Manifest_eq_dec : EqDecision Manifest.
Proof. solve_decision. Defined.

Definition plain : Manifest := Manifest_new "f" "1" BBeast "v1".
Definition stamped : Manifest :=
  set_content_address (Some "a") (set_provenance (set_signature (Some "s") Provenance_default) plain).
(** One manifest has a text, the one without signature and address. *)
#[local] Instance texts : SerdeJson Manifest :=
  {| to_vec m := if decide (m = plain) then Ok [Byte.x7b] else Err "no text";
     from_slice b := Ok plain |}.
Lemma round_trip : @SerdeRoundTrip Manifest texts.
Proof. intros m b E. cbn in *. case_decide as Hm; [by rewrite Hm|done]. Qed.
Lemma plain_address : compute_content_address plain = Some (sha256_digest [Byte.x7b]).
Proof. vm_compute. reflexivity. Qed.
Lemma stamped_address : compute_content_address stamped = Some (sha256_digest [Byte.x7b]).
Proof. vm_compute. reflexivity. Qed.
Lemma plain_parses : Manifest_parse [Byte.x7b] = Ok plain.
Proof. vm_compute. reflexivity. Qed.
End sigil_sample.

(** ** Properties *)

(** C19: the parser accepts exactly the coherent manifests: the text is within the
    size limit, decodes to the manifest, and the manifest keeps every rule of the
    format: name, version, ABI tag not blank and within their lengths; the lists of
    targets, entrypoints, roles, capabilities and requirements within their counts
    and lengths; entrypoints and roles distinct and not blank, every structured
    contract valid; the provenance fields and the content address within their
    lengths; and a realm that is not blank and has no colon, so that capability keys
    built from it are unambiguous. *)
Theorem parsed_manifest_coherent `{!Sha256} `{!JsonText} `{!SerdeJson Manifest} (b : bytes)
    (m : Manifest) :
  Manifest_parse b = Ok m ↔
  blen b ≤ MAX_MANIFEST_BYTES ∧ from_slice b = Ok m ∧ coherent_manifest m.
Proof.
  unfold Manifest_parse. rewrite <- validate_coherent_iff. case_decide; [split; [done|lia]|]. split.
  - intros (x & Hx%map_err_Ok & E)%bind_Ok. apply bind_Ok in E as ([] & Hv & [= ->]).
    split_and!; [lia|done|done].
  - intros (_ & -> & Hv). cbn. by rewrite Hv.
Qed.
Lemma parsed_manifest_coherent_witness :
  @coherent_manifest stuffed_text sigil_sample.plain.
Proof.
  exact (proj2 (proj2 (proj1 (@parsed_manifest_coherent zero_sha stuffed_text sigil_sample.texts
    [Byte.x7b] sigil_sample.plain) sigil_sample.plain_parses))).
Defined.

(** A content address names one manifest. Signing a manifest and stamping an
    address on it leave its address as it is; and two manifests with the same
    address are the same up to signature and stamp, unless the hash collides. *)
Theorem content_address_identifies `{!Sha256} `{!SerdeJson Manifest}
    (RT : SerdeRoundTrip Manifest) (m1 m2 : Manifest) (a : string)
    (H1 : compute_content_address m1 = Some a) (H2 : compute_content_address m2 = Some a) :
  (∀ signature stamp, compute_content_address (set_content_address stamp
     (set_provenance (set_signature signature (mf_provenance m1)) m1)) = Some a)
  ∧ ((∃ signature stamp, m2 = set_content_address stamp
        (set_provenance (set_signature signature (mf_provenance m1)) m1))
     ∨ ∃ b1 b2, b1 ≠ b2 ∧ hash_bytes b1 = hash_bytes b2).
Proof.
  split; [intros; by rewrite address_stable|].
  destruct (address_identifies m1 m2 a H1 H2) as [E|]; [left|by right].
  exists (pv_signature (mf_provenance m2)), (mf_content_address m2).
  destruct m1 as [? ? ? ? ? ? [] ? ?], m2 as [? ? ? ? ? ? [] ? ?]. cbn in *.
  unfold identity_of, unsigned_manifest, set_provenance, set_content_address, set_signature in *.
  cbn in *. clear H1 H2. injection E. by intros; subst.
Qed.
Lemma content_address_identifies_witness :
  (∃ signature stamp, sigil_sample.stamped = set_content_address stamp
     (set_provenance (set_signature signature (mf_provenance sigil_sample.plain)) sigil_sample.plain))
  ∨ ∃ b1 b2, b1 ≠ b2 ∧ @hash_bytes zero_sha b1 = @hash_bytes zero_sha b2.
Proof.
  exact (proj2 (@content_address_identifies zero_sha sigil_sample.texts sigil_sample.round_trip
    sigil_sample.plain sigil_sample.stamped _ sigil_sample.plain_address
    sigil_sample.stamped_address)).
Defined.

(** What a key signs, the verifier of the bus accepts under its public key. *)
Lemma key_signature_verifies `{!Ed25519} `{!Ed25519Keys} (seed payload : bytes) :
  ed25519_verifier (km_public_hex (from_seed seed)) payload (km_sign (from_seed seed) payload) = true.
Proof.
  unfold ed25519_verifier, from_seed, km_sign. cbn.
  rewrite !slen_hex_encode, !hex_roundtrip. unfold blen. rewrite ed_public_length, ed_sign_length. cbn.
  by rewrite ed_sign_verifies.
Qed.

(** What is written in hex. *)
Lemma hex_digit_lower n : n < 16 → is_lower_hex (Ascii.N_of_ascii (hex_digit n)) = true.
Proof.
  intros Hn. assert (n = 0 ∨ n = 1 ∨ n = 2 ∨ n = 3 ∨ n = 4 ∨ n = 5 ∨ n = 6 ∨ n = 7 ∨ n = 8
    ∨ n = 9 ∨ n = 10 ∨ n = 11 ∨ n = 12 ∨ n = 13 ∨ n = 14 ∨ n = 15) as E by lia.
  by destruct_or? E; subst.
Qed.

Lemma hex_encode_lower b : all_bytes is_lower_hex (hex_encode b) = true.
Proof.
  induction b as [|x b IH]; [done|]. cbn [hex_encode all_bytes].
  pose proof (Byte.to_N_bounded x) as Hx. rewrite IH, !hex_digit_lower; [done|..].
  - change 15 with (N.ones 4). rewrite N.land_ones. by apply N.mod_lt.
  - rewrite N.shiftr_div_pow2. change (2 ^ 4) with 16. apply N.Div0.div_lt_upper_bound. lia.
Qed.
