(* ===== verification/F32.v ===== *)
(** * 32-bit floats

    An [f32] is its bit pattern. Its order is computed on the pattern; its
    arithmetic is the IEEE 754 arithmetic of the Standard Library at 24 bits of
    precision, rounding to the nearest. *)

From Stdlib Require Import SpecFloat.
From S2P Require Import Prelude.

Abbreviation f32 := N (only parsing).

Definition f32_sign (x : f32) : bool := N.testbit x 31.
Definition f32_magnitude (x : f32) : N := N.land x 2147483647.
Definition f32_infinity : N := 2139095040.
Definition f32_is_nan (x : f32) : bool := bool_decide (f32_infinity < f32_magnitude x).
Definition f32_is_finite (x : f32) : bool := bool_decide (f32_magnitude x < f32_infinity).

(** A sign-and-magnitude integer that orders the numbers; the zeros are equal. *)
Definition f32_rank (x : f32) : Z :=
  if f32_sign x then (- Z.of_N (f32_magnitude x))%Z else Z.of_N (f32_magnitude x).
(** [partial_cmp], [<] and [<=]: nothing compares with a NaN. *)
Definition f32_partial_cmp (a b : f32) : option comparison :=
  if f32_is_nan a || f32_is_nan b then None else Some (Z.compare (f32_rank a) (f32_rank b)).
Definition f32_ltb (a b : f32) : bool :=
  match f32_partial_cmp a b with Some Lt => true | _ => false end.
Definition f32_leb (a b : f32) : bool :=
  match f32_partial_cmp a b with Some Lt | Some Eq => true | _ => false end.

(** [f32::MIN], the most negative finite number, and two literals. *)
Definition f32_MIN : f32 := 4286578687.
Definition f32_zero : f32 := 0.
Definition f32_one : f32 := 1065353216.

(** ** Arithmetic *)

Definition f32_spec (x : f32) : spec_float :=
  let s := f32_sign x in
  let e := N.shiftr (f32_magnitude x) 23 in
  let m := N.land x 8388607 in
  if e =? 255 then if m =? 0 then S754_infinity s else S754_nan
  else if e =? 0 then match m with 0 => S754_zero s | N.pos p => S754_finite s p (-149) end
  else match m + 8388608 with
       | 0 => S754_nan
       | N.pos p => S754_finite s p (Z.of_N e - 150)
       end.

Definition f32_bits (x : spec_float) : f32 :=
  let sign (s : bool) := if s then 2147483648 else 0 in
  match x with
  | S754_zero s => sign s
  | S754_infinity s => sign s + f32_infinity
  | S754_nan => 2143289344
  | S754_finite s m e =>
      if N.pos m <? 8388608 then sign s + N.pos m
      else sign s + N.shiftl (Z.to_N (e + 150)) 23 + (N.pos m - 8388608)
  end.

Definition f32_mul (a b : f32) : f32 := f32_bits (SFmul 24 128 (f32_spec a) (f32_spec b)).
Definition f32_div (a b : f32) : f32 := f32_bits (SFdiv 24 128 (f32_spec a) (f32_spec b)).
(** [n as f32]. *)
Definition f32_of_N (n : N) : f32 := f32_bits (binary_normalize 24 128 (Z.of_N n) 0 false).

(** 0.75 times 0.5, an overflow to infinity, a subnormal, and a third. *)
Example f32_arithmetic :
  f32_mul 1061158912 1056964608 = 1052770304 ∧ f32_mul 2139095039 2139095039 = f32_infinity
  ∧ f32_mul 8388608 1056964608 = 4194304 ∧ f32_div (f32_of_N 1) (f32_of_N 3) = 1051372203
  ∧ f32_of_N 16777217 = f32_of_N 16777216.
Proof. vm_compute. done. Qed.

(** ** Order *)

Lemma f32_finite_not_nan x : f32_is_finite x = true → f32_is_nan x = false.
Proof. unfold f32_is_finite, f32_is_nan. rewrite bool_decide_eq_true, bool_decide_eq_false. lia. Qed.

(** Finite numbers are totally ordered. *)
Lemma f32_leb_ltb a b : f32_leb b a = true → f32_ltb a b = false.
Proof.
  unfold f32_ltb, f32_leb, f32_partial_cmp. destruct (f32_is_nan a), (f32_is_nan b); cbn; try done.
  rewrite (Z.compare_antisym (f32_rank a)). by destruct (Z.compare _ _).
Qed.

Lemma f32_finite_ltb a b :
  f32_is_finite a = true → f32_is_finite b = true → f32_ltb a b = false → f32_leb b a = true.
Proof.
  intros Ha%f32_finite_not_nan Hb%f32_finite_not_nan. unfold f32_ltb, f32_leb, f32_partial_cmp.
  rewrite Ha, Hb. cbn. rewrite (Z.compare_antisym (f32_rank a)). by destruct (Z.compare _ _).
Qed.

Lemma f32_leb_trans a b c : f32_leb a b = true → f32_leb b c = true → f32_leb a c = true.
Proof.
  unfold f32_leb, f32_partial_cmp. destruct (f32_is_nan a), (f32_is_nan b), (f32_is_nan c); cbn; try done.
  repeat match goal with |- context [Z.compare ?x ?y] => destruct (Z.compare_spec x y) end; try done; lia.
Qed.

(** What is at least a threshold is not less than it. *)
Lemma f32_leb_not_ltb a b : f32_leb b a = true → f32_ltb a b = false.
Proof.
  unfold f32_ltb, f32_leb, f32_partial_cmp. destruct (f32_is_nan a), (f32_is_nan b); cbn; try done.
  rewrite (Z.compare_antisym (f32_rank a)). by destruct (Z.compare _ _).
Qed.
