(* ===== verification/BestiaryWire.v ===== *)
(** * The registry contract

    [cosmos/bestiary/src/wire.rs] and the constants of [cosmos/bestiary/src/lib.rs]:
    catalogue rows, the reputation and quarantine signals on them with their shape
    checks, the claim a promotion signature commits to, and the operations and
    replies of the registries. *)

From S2P Require Import Prelude F32 Serde GxShape GxHash FnCrypto FnTypes.
From S2P Require Import AetherAddress AetherEnvelope AetherRouter Sigil.

(** ** Constants *)

Definition REGISTRY_OP_SCHEMA : string := "registry.op".
Definition REGISTRY_REPLY_SCHEMA : string := "registry.reply".
Definition MAX_REGISTRY_ARTIFACT_BYTES : N := 128 * 1024 * 1024.
Definition MAX_REGISTRY_OP_BYTES : N := MAX_REGISTRY_ARTIFACT_BYTES * 2 + 4 * 1024 * 1024.
Definition MAX_REGISTRY_SIGNAL_FIELD_BYTES : N := 512.
Definition MAX_QUARANTINE_REASON_BYTES : N := 1024.
Definition MAX_QUARANTINE_ATTESTING_PEERS : N := 64.
Definition MAX_QUARANTINE_ATTESTING_PEER_BYTES : N := 256.
Definition ARTIFACT_HASH_HEX_BYTES : N := 64.

Definition registry_op_too_large_message (len limit : N) : string :=
  "registry op too large: " +:+ dec len +:+ " bytes (limit " +:+ dec limit +:+ ")".
Definition registry_artifact_too_large_message (len limit : N) : string :=
  "registry artifact too large: " +:+ dec len +:+ " bytes (limit " +:+ dec limit +:+ ")".

(** ** Rows *)

Record ReputationScore : Type := mkReputationScore {
  rs_score : f32;
  rs_attesting_realm : option RealmId;
  rs_signed_by : option string;
  rs_signature : option string
}.

Record QuarantineNotice : Type := mkQuarantineNotice {
  qn_reason : string;
  qn_attesting_peers : list string
}.

Record CatalogEntry : Type := mkCatalogEntry {
  cx_artifact_hash : string;
  cx_realm : RealmId;
  cx_manifest : Manifest;
  cx_reputation : option ReputationScore;
  cx_quarantine : option QuarantineNotice
}.

Record Entry : Type := mkEntry {
  en_manifest : Manifest;
  en_artifact : bytes;
  en_reputation : option ReputationScore;
  en_quarantine : option QuarantineNotice
}.

Record SyncEntry : Type := mkSyncEntry {
  sy_artifact_hash : string;
  sy_realm : RealmId;
  sy_manifest : Manifest;
  sy_artifact : bytes;
  sy_reputation : option ReputationScore;
  sy_quarantine : option QuarantineNotice
}.

(** ** Shapes *)

Definition artifact_hash_shape_error (artifact_hash : string) : option string :=
  reject_if (bool_decide (slen artifact_hash ≠ ARTIFACT_HASH_HEX_BYTES))
    ("artifact_hash must be " +:+ dec ARTIFACT_HASH_HEX_BYTES +:+ " lowercase hex bytes");;?
  reject_if (negb (all_bytes is_lower_hex artifact_hash)) "artifact_hash must be lowercase hex".

Definition too_large (what : string) (len limit : N) : option string :=
  reject_if (bool_decide (limit < len))
    (what +:+ " too large: " +:+ dec len +:+ " bytes exceeds " +:+ dec limit +:+ " byte limit").

(** The checks that a signal's key and its realms share. *)
Definition signal_hash_error (what artifact_hash : string) : option string :=
  too_large (what +:+ " artifact_hash") (slen artifact_hash) MAX_REGISTRY_SIGNAL_FIELD_BYTES;;?
  reject_if (contains_char NUL artifact_hash) (what +:+ " artifact_hash contains NUL byte").
Definition signal_realm_error (field : string) (realm : RealmId) : option string :=
  reject_if (negb (RealmId_is_valid realm) || contains_char NUL realm)
    (field +:+ " is not a valid RealmId");;?
  too_large field (slen realm) MAX_REGISTRY_SIGNAL_FIELD_BYTES.

Definition signed_promotion_field_shape_error (field value : string) : option string :=
  reject_if (bool_decide (value = "")) ("reputation " +:+ field +:+ " is empty");;?
  too_large ("reputation " +:+ field) (slen value) MAX_REGISTRY_SIGNAL_FIELD_BYTES;;?
  reject_if (contains_char NUL value) ("reputation " +:+ field +:+ " contains NUL byte").

Definition attest_shape_error (r : ReputationScore) (artifact_hash : string) (realm : RealmId) :
    option string :=
  signal_hash_error "reputation" artifact_hash;;?
  signal_realm_error "reputation realm" realm;;?
  reject_if (negb (f32_is_finite (rs_score r))) "reputation score is non-finite";;?
  (match rs_attesting_realm r with
   | Some attesting => signal_realm_error "reputation attesting_realm" attesting
   | None => None
   end);;?
  match rs_signed_by r, rs_signature r with
  | None, None => None
  | Some key, Some sig =>
      signed_promotion_field_shape_error "signed_by" key;;?
      signed_promotion_field_shape_error "signature" sig
  | _, _ => Some "reputation promotion signature fields must be both present or both absent"
  end.

Definition ReputationScore_unsigned (score : f32) (attesting_realm : option RealmId) :
    ReputationScore := mkReputationScore score attesting_realm None None.

Fixpoint attesting_peers_error (peers : list string) : option string :=
  match peers with
  | [] => None
  | peer :: peers =>
      reject_if (contains_char NUL peer) "quarantine attesting_peer contains NUL byte";;?
      too_large "quarantine attesting_peer" (slen peer) MAX_QUARANTINE_ATTESTING_PEER_BYTES;;?
      attesting_peers_error peers
  end.

Definition notice_shape_error (reason : string) (attesting_peers : list string) : option string :=
  too_large "quarantine reason" (slen reason) MAX_QUARANTINE_REASON_BYTES;;?
  reject_if (contains_char NUL reason) "quarantine reason contains NUL byte";;?
  reject_if (bool_decide (MAX_QUARANTINE_ATTESTING_PEERS < N.of_nat (length attesting_peers)))
    ("quarantine attesting_peers too large: " +:+ dec (N.of_nat (length attesting_peers))
     +:+ " peers exceeds " +:+ dec MAX_QUARANTINE_ATTESTING_PEERS +:+ " peer limit");;?
  attesting_peers_error attesting_peers.

Definition mark_shape_error (artifact_hash : string) (realm : RealmId) (reason : string)
    (attesting_peers : list string) : option string :=
  signal_hash_error "quarantine" artifact_hash;;?
  signal_realm_error "quarantine realm" realm;;?
  notice_shape_error reason attesting_peers.

(** ** Promotions *)

(** What a promotion signature commits to. *)
Record PromotionClaim : Type := mkPromotionClaim {
  pc_artifact_hash : string;
  pc_realm : RealmId;
  pc_score : f32;
  pc_attesting_realm : option RealmId
}.

Section promotion.
  Context `{!SerdeJson PromotionClaim}.

Definition promotion_payload (artifact_hash : string) (realm : RealmId) (score : f32)
    (attesting_realm : option RealmId) : bytes :=
  to_bytes (mkPromotionClaim artifact_hash realm score attesting_realm).

Definition promotion_verifies (r : ReputationScore) (artifact_hash : string) (realm : RealmId)
    (verifier : Verifier) : bool :=
  match rs_signed_by r, rs_signature r with
  | Some key, Some sig =>
      verifier key (promotion_payload artifact_hash realm (rs_score r) (rs_attesting_realm r)) sig
  | _, _ => false
  end.
End promotion.

(** ** Messages *)

Inductive RegistryOp : Type :=
  | OpPublish (manifest : Manifest) (artifact : bytes) (realm : option RealmId)
  | OpFetch (artifact_hash : string) (realm : option RealmId)
  | OpFetchGx (artifact_hash : string) (chunk_size : option N)
  | OpFetchGxPlan (artifact_hash : string) (chunk_size : option N)
  | OpFetchGxChunk (artifact_hash transfer_id : string) (chunk_size chunk_index : N)
  | OpFetchMetadata (artifact_hash : string) (realm : option RealmId)
  | OpFetchGxInRealm (artifact_hash : string) (realm : RealmId) (chunk_size : option N)
  | OpFetchGxPlanInRealm (artifact_hash : string) (realm : RealmId) (chunk_size : option N)
  | OpFetchGxChunkInRealm (artifact_hash : string) (realm : RealmId) (transfer_id : string)
      (chunk_size chunk_index : N)
  | OpAttestFitness (artifact_hash : string) (realm : RealmId) (score : f32)
      (attesting_realm : option RealmId) (signed_by signature : option string)
  | OpMarkQuarantine (artifact_hash : string) (realm : RealmId) (reason : string)
      (attesting_peers : list string)
  | OpListEntries (realm : option RealmId)
  | OpListMetadata (realm : option RealmId).

Inductive RegistryReply : Type :=
  | RePublished (artifact_hash : string) (realm : RealmId)
  | ReFetched (manifest : Manifest) (artifact : bytes) (realm : RealmId)
  | ReFetchedGx (manifest : Manifest) (artifact_hash transfer_id : string) (file_size : N)
      (file_hash : string) (chunk_size total_chunks : N)
  | ReFetchedGxInRealm (manifest : Manifest) (artifact_hash transfer_id : string) (file_size : N)
      (file_hash : string) (chunk_size total_chunks : N) (realm : RealmId)
  | ReFetchedMetadata (entry : CatalogEntry) (artifact_len : N)
  | ReAttested (artifact_hash : string) (realm : RealmId)
  | ReQuarantined (artifact_hash : string) (realm : RealmId)
  | ReEntries (entries : list SyncEntry)
  | ReMetadata (entries : list CatalogEntry)
  | ReNotFound
  | ReError (message : string).

(** ** Lemmas *)

Lemma artifact_hash_shape_None h :
  artifact_hash_shape_error h = None ↔ sha256_hex_ok h.
Proof.
  unfold artifact_hash_shape_error, sha256_hex_ok.
  rewrite or_error_None, !reject_if_None, bool_decide_eq_false, negb_false_iff.
  split; intros [H1 H2]; (split; [|done]).
  - by apply dec_stable.
  - by intros [].
Qed.

Lemma too_large_None what len limit : too_large what len limit = None ↔ len ≤ limit.
Proof. unfold too_large. rewrite reject_if_None, bool_decide_eq_false. lia. Qed.

(** A message is read back as it was sent. *)
Definition reads_back {T} `{!SerdeJson T} (x : T) : Prop := from_slice (to_bytes x) = Ok x.
