(* ===== verification/Resolver.v ===== *)
(** * The function resolver

    [cosmos/creatures/function-resolver/src/lib.rs]: it turns an alias or an
    identity into one immutable function, pinned by the content address of its
    manifest and by the hash of its artifact, and signs the answer. It refuses to
    choose: two different artifacts are an ambiguity, an inconsistent manifest an
    error.

    The catalogue is the injected [FunctionCatalog]. The rendering of an optional
    string by [{:?}], used in one message, is [debug_opt]. *)

From S2P Require Import Prelude Serde GxShape GxHash FnCrypto FnTypes FnWire FnCustody FnMessages.
From S2P Require Import AetherAddress AetherEnvelope AetherRouter HomeLedger HomeServe Sigil BestiaryWire.

(** ** Data *)

Definition MAX_RESOLUTION_CANDIDATES : N := 1024.

Inductive ResolveError : Type :=
  | RInvalid (message : string)
  | RNotFound
  | RAmbiguous (matches : N)
  | RInconsistent (message : string)
  | RCatalog (message : string)
  | RCapacity (candidates limit : N)
  | RUnauthorized (message : string)
  | RSigning (message : string).

Definition ResolveError_to_string (e : ResolveError) : string :=
  match e with
  | RInvalid m => "invalid function selector: " +:+ m
  | RNotFound => "function selector was not found"
  | RAmbiguous n => "function selector is ambiguous across " +:+ dec n +:+ " immutable artifacts"
  | RInconsistent m => "catalog manifest is inconsistent: " +:+ m
  | RCatalog m => "catalog source failed: " +:+ m
  | RCapacity c l => "catalog returned " +:+ dec c +:+ " candidates, limit is " +:+ dec l
  | RUnauthorized m => "resolution request is unauthorized: " +:+ m
  | RSigning m => "cannot sign resolution: " +:+ m
  end.

Class FunctionCatalog : Type :=
  catalog_candidates : ResolveRequestV1 → result string (list CatalogEntry).

Record FunctionResolver : Type := mkFunctionResolver {
  fr_signer : AuthoritySigner;
  fr_me : option N
}.

Definition FunctionResolver_new (signer : AuthoritySigner) : FunctionResolver :=
  mkFunctionResolver signer None.
Definition FunctionResolver_bind (me : N) (r : FunctionResolver) : FunctionResolver :=
  mkFunctionResolver (fr_signer r) (Some me).

(** The key of [matches]: content address, entrypoint and artifact hash. *)
Abbreviation Pin := (string * string * string)%type.

(** ** Resolution *)

Definition normalize_sha256 (value : string) : option string :=
  let raw := default value (strip_prefix "sha256:" value) in
  if lower_hex64 raw then Some ("sha256:" +:+ raw) else None.

(** The entrypoint a row offers for the selector, if it matches it at all. *)
Definition selected_entrypoint (selector : FunctionSelectorV1) (computed : string)
    (row : CatalogEntry) : option string :=
  match selector with
  | SelectAlias alias =>
      if bool_decide (cx_realm row ≠ fa_realm alias)
         || bool_decide (mf_name (cx_manifest row) ≠ fa_name alias)
         || bool_decide (mf_version (cx_manifest row) ≠ fa_version alias)
      then None
      else Some (fa_entrypoint alias)
  | SelectId function =>
      if decide (computed ≠ fid_manifest_content_address function) then None
      else Some (fid_entrypoint function)
  end.

(** [entrypoints.iter().find(..)], with a contract. *)
Definition offers_typed (entrypoint : string) (m : Manifest) : bool :=
  match find (fun ep => bool_decide (ep_name ep = entrypoint)) (mf_entrypoints m) with
  | Some ep => bool_decide (is_Some (ep_contract ep))
  | None => false
  end.

Definition label_of (m : Manifest) : string :=
  "manifest `" +:+ mf_name m +:+ "/" +:+ mf_version m +:+ "`".

Section resolver.
  Context `{!Sha256} `{!JsonText} `{!Ed25519} `{!WireSerde} `{!ToValue ResolveRequestV1}.
  Context `{!SerdeJson Manifest} `{!SerdeJson FunctionDeployMessageV1} `{!FunctionCatalog}.
  Context (debug_opt : option string → string).

(** The checks that bind a matching row to its artifact. *)
Definition pin_row (computed entrypoint : string) (row : CatalogEntry) :
    result ResolveError Pin :=
  let m := cx_manifest row in
  _ ← map_err (fun e => RInconsistent (label_of m +:+ " is invalid: "
                                       +:+ ManifestError_to_string e)) (Manifest_validate m);
  if decide (mf_content_address m ≠ Some computed) then
    Err (RInconsistent (label_of m +:+ " declared " +:+ debug_opt (mf_content_address m)
                        +:+ ", computed " +:+ computed))
  else
    artifact_hash ← ok_or (normalize_sha256 (cx_artifact_hash row))
                      (RInconsistent ("artifact hash `" +:+ cx_artifact_hash row
                                      +:+ "` is not SHA-256"));
    artifact_hex ← ok_or (strip_prefix "sha256:" artifact_hash)
                     (RInconsistent "normalized artifact hash lost its sha256 scheme");
    if decide (pv_build_hash (mf_provenance m) ≠ Some artifact_hex) then
      Err (RInconsistent (label_of m +:+ " build hash does not bind catalog artifact "
                          +:+ artifact_hash))
    else Ok (computed, entrypoint, artifact_hash).

(** One turn of the loop: [Ok None] is [continue], [None] the panic of
    [compute_content_address]. *)
Definition resolve_row (selector : FunctionSelectorV1) (row : CatalogEntry) :
    option (result ResolveError (option Pin)) :=
  computed ← compute_content_address (cx_manifest row);
  Some (match selected_entrypoint selector computed row with
        | None => Ok None
        | Some entrypoint =>
            if offers_typed entrypoint (cx_manifest row)
            then pin ← pin_row computed entrypoint row; Ok (Some pin)
            else Ok None
        end).

Fixpoint resolve_rows (selector : FunctionSelectorV1) (rows : list CatalogEntry)
    (matches : gmap Pin FunctionId) : option (result ResolveError (gmap Pin FunctionId)) :=
  match rows with
  | [] => Some (Ok matches)
  | row :: rows =>
      r ← resolve_row selector row;
      match r with
      | Err e => Some (Err e)
      | Ok None => resolve_rows selector rows matches
      | Ok (Some pin) =>
          resolve_rows selector rows (<[pin := mkFunctionId pin.1.1 pin.1.2]> matches)
      end
  end.

(** What follows the loop: exactly one match is signed. *)
Definition conclude (resolver : FunctionResolver) (selector : FunctionSelectorV1)
    (resolved_at_unix_ms : option N) (evidence : list EvidenceRefV1)
    (matches : gmap Pin FunctionId) : result ResolveError ResolvedFunctionV1 :=
  match map_to_list matches with
  | [] => Err RNotFound
  | [(pin, function)] =>
      let artifact_hash := pin.2 in
      resolution ← map_err (fun e => RSigning (ContractError_to_string e))
        (SignedRecordV1_sign SCHEMA_FUNCTION_DEPLOY_V1
           (mkResolutionReceiptV1 selector function artifact_hash resolved_at_unix_ms evidence)
           (fr_signer resolver));
      Ok (mkResolvedFunctionV1 selector function artifact_hash (Some resolution))
  | l => Err (RAmbiguous (N.of_nat (length l)))
  end.

Definition resolve (resolver : FunctionResolver) (selector : FunctionSelectorV1)
    (catalog : list CatalogEntry) (resolved_at_unix_ms : option N)
    (evidence : list EvidenceRefV1) : option (result ResolveError ResolvedFunctionV1) :=
  match FunctionSelectorV1_validate selector with
  | Err e => Some (Err (RInvalid (ContractError_to_string e)))
  | Ok _ =>
      if decide (MAX_RESOLUTION_CANDIDATES < N.of_nat (length catalog)) then
        Some (Err (RCapacity (N.of_nat (length catalog)) MAX_RESOLUTION_CANDIDATES))
      else
        matches ← resolve_rows selector catalog ∅;
        Some (matches ← matches; conclude resolver selector resolved_at_unix_ms evidence matches)
  end.

(** ** Requests *)

Definition admit_request (request : SignedRecordV1 ResolveRequestV1) :
    result ResolveError (list CatalogEntry) :=
  _ ← map_err (fun e => RInvalid (ContractError_to_string e))
        (SignedRecordV1_validate ResolveRequestV1_validate request);
  if unsigned SCHEMA_FUNCTION_DEPLOY_V1 request
     || bool_decide (sr_signer request ≠ rq_requested_by (sr_payload request))
  then Err (RUnauthorized "invalid requester signature")
  else map_err RCatalog (catalog_candidates (sr_payload request)).

Definition resolve_request (resolver : FunctionResolver)
    (request : SignedRecordV1 ResolveRequestV1) :
    option (result ResolveError (SignedRecordV1 ResolutionReceiptV1)) :=
  match admit_request request with
  | Err e => Some (Err e)
  | Ok catalog =>
      r ← resolve resolver (rq_selector (sr_payload request)) catalog None
            (rq_evidence (sr_payload request));
      Some (resolved ← r;
            ok_or (rf_resolution resolved) (RSigning "resolution receipt missing"))
  end.

Definition resolve_code (e : ResolveError) : string :=
  match e with
  | RNotFound => "not_found"
  | RAmbiguous _ => "ambiguous"
  | RUnauthorized _ => "unauthorized"
  | RCatalog _ => "catalog"
  | RCapacity _ _ => "capacity"
  | RInvalid _ | RInconsistent _ | RSigning _ => "invalid"
  end.

Definition resolve_retryable (e : ResolveError) : bool :=
  match e with RCatalog _ => true | _ => false end.

Definition resolver_handle (resolver : FunctionResolver) (env : Envelope) : option Outcome :=
  if bool_decide (hd_schema (ev_header env) ≠ SCHEMA_FUNCTION_DEPLOY_V1)
     || bool_decide (MAX_JOB_MESSAGE_BYTES < blen (ev_payload env))
  then Some Outcome_none
  else
    match from_slice (ev_payload env) with
    | Ok (DResolve request) =>
        r ← resolve_request resolver request;
        let response :=
          match r with
          | Ok receipt => DResolved receipt
          | Err e =>
              DError (mkProtocolErrorV1 (resolve_code e) (bound (ResolveError_to_string e))
                        (resolve_retryable e))
          end in
        Some (Outcome_send (with_schema (reply_to_env env (to_bytes response))
                              SCHEMA_FUNCTION_DEPLOY_V1))
    | _ => Some Outcome_none
    end.
End resolver.

(** ** Laws *)

Section laws.
  Context `{!Sha256} `{!JsonText} `{!Ed25519} `{!WireSerde} `{!ToValue ResolveRequestV1}.
  Context `{!SerdeJson Manifest} `{!SerdeJson FunctionDeployMessageV1} `{!FunctionCatalog}.
  Context (debug_opt : option string → string).
  Implicit Types (selector : FunctionSelectorV1) (row : CatalogEntry) (pin : Pin).

Abbreviation function_of pin := (mkFunctionId pin.1.1 pin.1.2).

(** A row that matches the selector with a typed entrypoint. *)
Definition candidate selector row : Prop :=
  ∃ computed entrypoint, compute_content_address (cx_manifest row) = Some computed
    ∧ selected_entrypoint selector computed row = Some entrypoint
    ∧ offers_typed entrypoint (cx_manifest row) = true.

(** A row that pins the selector to [pin]: the manifest is coherent and carries
    its own address, and its build hash is the hash of the artifact. *)
Definition sound_pin selector row pin : Prop :=
  let m := cx_manifest row in
  compute_content_address m = Some pin.1.1 ∧ mf_content_address m = Some pin.1.1
  ∧ selected_entrypoint selector pin.1.1 row = Some pin.1.2 ∧ offers_typed pin.1.2 m = true
  ∧ coherent_manifest m
  ∧ ∃ hex, lower_hex64 hex = true ∧ pin.2 = "sha256:" +:+ hex
      ∧ normalize_sha256 (cx_artifact_hash row) = Some pin.2
      ∧ pv_build_hash (mf_provenance m) = Some hex.

Lemma strip_sha256 hex : strip_prefix "sha256:" ("sha256:" +:+ hex) = Some hex.
Proof. done. Qed.

Lemma pin_row_sound computed entrypoint row pin :
  pin_row debug_opt computed entrypoint row = Ok pin →
  pin.1 = (computed, entrypoint) ∧ mf_content_address (cx_manifest row) = Some computed
  ∧ coherent_manifest (cx_manifest row)
  ∧ ∃ hex, lower_hex64 hex = true ∧ pin.2 = "sha256:" +:+ hex
      ∧ normalize_sha256 (cx_artifact_hash row) = Some pin.2
      ∧ pv_build_hash (mf_provenance (cx_manifest row)) = Some hex.
Proof.
  unfold pin_row. intros ([] & Hv%map_err_Ok & E)%bind_Ok. case_decide as Hc; [done|].
  apply bind_Ok in E as (h & Hh%ok_or_Ok & E). unfold normalize_sha256 in Hh.
  destruct (lower_hex64 _) eqn:Hx; [|done]. injection Hh as <-.
  rewrite strip_sha256 in E. cbn in E. case_decide as Hb; [done|]. injection E as <-. cbn.
  apply validate_coherent in Hv. split_and!; [done|done|done|].
  eexists. split_and!; [exact Hx|done| |done].
  unfold normalize_sha256. by rewrite Hx.
Qed.

Lemma pin_row_Err computed entrypoint row e :
  pin_row debug_opt computed entrypoint row = Err e → ∃ m, e = RInconsistent m.
Proof.
  assert (∀ A (o : option A) m e', ok_or o (RInconsistent m) = Err e' → ∃ m, e' = RInconsistent m) as Ho.
  { intros A [a|] m e' [=]. eauto. }
  unfold pin_row. intros [E|(_ & _ & E)]%bind_Err.
  { destruct (Manifest_validate _); [done|]. injection E as <-. eauto. }
  case_decide; [injection E as <-; eauto|]. apply bind_Err in E as [E|(h & _ & E)]; [by eapply Ho|].
  apply bind_Err in E as [E|(x & _ & E)]; [by eapply Ho|].
  case_decide; [injection E as <-; eauto|done].
Qed.

Lemma resolve_row_pinned selector row pin :
  resolve_row debug_opt selector row = Some (Ok (Some pin)) → sound_pin selector row pin.
Proof.
  unfold resolve_row. intros (computed & Hc & E)%bind_Some. injection E as E.
  destruct (selected_entrypoint selector computed row) as [ep|] eqn:Hs; [|done].
  destruct (offers_typed ep _) eqn:Ho; [|done].
  apply bind_Ok in E as (p & Hp & E). injection E as ->.
  apply pin_row_sound in Hp as (E1 & Ha & Hm & hex & Hx). destruct pin as [[a e] h]. cbn in *.
  injection E1 as -> ->. split_and!; cbn; eauto.
Qed.

Lemma resolve_row_candidate selector row o :
  candidate selector row → resolve_row debug_opt selector row = Some (Ok o) →
  ∃ pin, o = Some pin ∧ sound_pin selector row pin.
Proof.
  intros (computed & ep & Hc & Hs & Ho) E. pose proof E as E'. unfold resolve_row in E.
  rewrite Hc in E. cbn in E. rewrite Hs, Ho in E. injection E as E.
  apply bind_Ok in E as (pin & _ & E). injection E as <-. exists pin. split; [done|].
  by apply resolve_row_pinned.
Qed.

Lemma sound_pin_candidate selector row pin : sound_pin selector row pin → candidate selector row.
Proof. intros (Hc & _ & Hs & Ho & _). by eexists _, _. Qed.

(** *** The loop *)

Definition row_ok selector row : Prop :=
  ∃ o, resolve_row debug_opt selector row = Some (Ok o).
Definition pin_of selector row : option Pin :=
  match resolve_row debug_opt selector row with Some (Ok o) => o | _ => None end.
Definition pins_of selector (rows : list CatalogEntry) : list Pin := omap (pin_of selector) rows.

(** The loop succeeds when every row does, and then has the pins of the rows. *)
Lemma resolve_rows_Ok selector rows acc m :
  resolve_rows debug_opt selector rows acc = Some (Ok m) →
  Forall (row_ok selector) rows
  ∧ ∀ pin, m !! pin = if decide (pin ∈ pins_of selector rows) then Some (function_of pin)
                      else acc !! pin.
Proof.
  revert acc. induction rows as [|row rows IH]; intros acc; cbn [resolve_rows].
  { intros [= <-]. by split. }
  intros (r & Hr & E)%bind_Some. destruct r as [[pin|]|]; [..|done]; apply IH in E as [F L].
  - split; [constructor; [by eexists|done]|]. intros p. rewrite L.
    assert (pin_of selector row = Some pin) as Hp by (unfold pin_of; by rewrite Hr).
    cbn. rewrite Hp. cbn. destruct (decide (pin = p)) as [->|Hne].
    + rewrite (decide_True (P := p ∈ p :: _)) by (by left). case_decide; [done|]. by rewrite lookup_insert_eq.
    + rewrite lookup_insert_ne by done. do 2 case_decide; try done; set_solver.
  - split; [constructor; [by eexists|done]|]. intros p. rewrite L.
    assert (pin_of selector row = None) as Hp by (unfold pin_of; by rewrite Hr).
    cbn. by rewrite Hp.
Qed.

Lemma resolve_rows_run selector rows acc :
  Forall (row_ok selector) rows → ∃ m, resolve_rows debug_opt selector rows acc = Some (Ok m).
Proof.
  intros F. revert acc. induction F as [|row rows [o Ho] F IH]; intros acc; cbn; [by eexists|].
  rewrite Ho. cbn. destruct o; apply IH.
Qed.

Lemma resolve_rows_perm selector rows rows' m :
  rows ≡ₚ rows' → resolve_rows debug_opt selector rows ∅ = Some (Ok m) →
  resolve_rows debug_opt selector rows' ∅ = Some (Ok m).
Proof.
  intros P E. apply resolve_rows_Ok in E as [F L]. rewrite P in F.
  destruct (resolve_rows_run selector rows' ∅ F) as [m' E']. rewrite E'. do 2 f_equal.
  apply resolve_rows_Ok in E' as [_ L']. apply map_eq. intros pin. rewrite L, L'.
  assert (pin ∈ pins_of selector rows ↔ pin ∈ pins_of selector rows') as Hiff
    by (unfold pins_of; by rewrite P).
  do 2 case_decide; tauto.
Qed.

Lemma resolve_rows_total `{!SerdeTotal Manifest} selector rows acc :
  is_Some (resolve_rows debug_opt selector rows acc).
Proof.
  revert acc. induction rows as [|row rows IH]; intros acc; cbn; [by eexists|].
  unfold resolve_row, compute_content_address, identity_payload.
  destruct (to_vec_total (identity_of (cx_manifest row))) as [b ->]. cbn.
  match goal with |- context [match ?r with Ok _ => _ | Err _ => _ end] => destruct r as [[pin|]|] end;
    [apply IH|apply IH|by eexists].
Qed.

(** *** The answer *)

Lemma pins_of_sound selector rows pin :
  pin ∈ pins_of selector rows → ∃ row, row ∈ rows ∧ sound_pin selector row pin.
Proof.
  intros (row & Hr & Hp)%list_elem_of_omap. exists row. split; [done|].
  apply resolve_row_pinned. unfold pin_of in Hp. by repeat case_match; subst.
Qed.

Lemma candidate_pinned selector rows row :
  Forall (row_ok selector) rows → row ∈ rows → candidate selector row →
  ∃ pin, pin ∈ pins_of selector rows ∧ sound_pin selector row pin.
Proof.
  intros F Hr Hc. rewrite Forall_forall in F. destruct (F _ Hr) as [o Ho].
  destruct (resolve_row_candidate _ _ _ Hc Ho) as (pin & -> & S). exists pin. split; [|done].
  apply list_elem_of_omap. exists row. split; [done|]. unfold pin_of. by rewrite Ho.
Qed.

Lemma matches_elem selector rows m pin f :
  resolve_rows debug_opt selector rows ∅ = Some (Ok m) → (pin, f) ∈ map_to_list m →
  f = function_of pin ∧ pin ∈ pins_of selector rows.
Proof.
  intros [_ L]%resolve_rows_Ok Hin. apply elem_of_map_to_list in Hin. rewrite L in Hin.
  case_decide; [by simplify_eq|by rewrite lookup_empty in Hin].
Qed.

Lemma matches_all selector rows m pin :
  resolve_rows debug_opt selector rows ∅ = Some (Ok m) → pin ∈ pins_of selector rows →
  (pin, function_of pin) ∈ map_to_list m.
Proof.
  intros [_ L]%resolve_rows_Ok Hin. apply elem_of_map_to_list. rewrite L. by rewrite decide_True.
Qed.

(** The catalogue pins the selector: some row is a candidate, and all of them bind
    it to the same function and artifact. *)
Definition pinned selector (catalog : list CatalogEntry) pin : Prop :=
  (∃ row, row ∈ catalog ∧ candidate selector row)
  ∧ ∀ row, row ∈ catalog → candidate selector row → sound_pin selector row pin.

Definition receipt_of selector pin (at_ms : option N) (evidence : list EvidenceRefV1) :
    ResolutionReceiptV1 :=
  mkResolutionReceiptV1 selector (function_of pin) pin.2 at_ms evidence.

(** What a resolution answers, by its result. *)
Definition answers (resolver : FunctionResolver) selector (catalog : list CatalogEntry)
    (at_ms : option N) (evidence : list EvidenceRefV1) (r : result ResolveError ResolvedFunctionV1) :
    Prop :=
  let sign pin := SignedRecordV1_sign SCHEMA_FUNCTION_DEPLOY_V1
                    (receipt_of selector pin at_ms evidence) (fr_signer resolver) in
  match r with
  | Ok resolved =>
      ∃ pin receipt, pinned selector catalog pin ∧ sign pin = Ok receipt
        ∧ resolved = mkResolvedFunctionV1 selector (function_of pin) pin.2 (Some receipt)
  | Err (RInvalid _) => is_ok (FunctionSelectorV1_validate selector) = false
  | Err (RCapacity _ _) => MAX_RESOLUTION_CANDIDATES < N.of_nat (length catalog)
  | Err RNotFound => ∀ row, row ∈ catalog → ¬ candidate selector row
  | Err (RAmbiguous n) =>
      ∃ row1 row2 pin1 pin2, row1 ∈ catalog ∧ row2 ∈ catalog
        ∧ sound_pin selector row1 pin1 ∧ sound_pin selector row2 pin2 ∧ pin1 ≠ pin2
  | Err (RInconsistent _) =>
      ∃ row, row ∈ catalog ∧ candidate selector row ∧ ∀ pin, ¬ sound_pin selector row pin
  | Err (RSigning _) => ∃ pin, pinned selector catalog pin ∧ is_ok (sign pin) = false
  | Err (RCatalog _) | Err (RUnauthorized _) => False
  end.

(** A row pins the selector to at most one artifact, and the checks find it. *)
Lemma sound_pin_unique selector row pin pin' :
  sound_pin selector row pin → sound_pin selector row pin' → pin = pin'.
Proof.
  intros (C1 & _ & S1 & _ & _ & ? & _ & _ & N1 & _) (C2 & _ & S2 & _ & _ & ? & _ & _ & N2 & _).
  destruct pin as [[a e] h], pin' as [[a' e'] h']. cbn in *. congruence.
Qed.

Lemma sound_pin_found selector row pin :
  sound_pin selector row pin → resolve_row debug_opt selector row = Some (Ok (Some pin)).
Proof.
  destruct pin as [[a ep] h]. intros (Hc & Ha & Hs & Ho & Hm & hex & Hx & Hh & Hn & Hb). cbn in *.
  unfold resolve_row. rewrite Hc. cbn. rewrite Hs, Ho. unfold pin_row.
  apply validate_coherent_iff in Hm. rewrite Hm. cbn -[strip_prefix].
  rewrite decide_False by (intros H'; by apply H'). rewrite Hn, Hh. cbn -[strip_prefix].
  rewrite strip_sha256. cbn. by rewrite decide_False by (intros H'; by apply H').
Qed.

Lemma pinned_unique selector catalog pin pin' :
  pinned selector catalog pin → pinned selector catalog pin' → pin = pin'.
Proof.
  intros [(row & Hr & Hc) P] [_ P']. by apply (sound_pin_unique selector row); auto.
Qed.

Lemma conclude_answers resolver selector catalog at_ms evidence m :
  resolve_rows debug_opt selector catalog ∅ = Some (Ok m) →
  answers resolver selector catalog at_ms evidence (conclude resolver selector at_ms evidence m).
Proof.
  intros E. pose proof (resolve_rows_Ok _ _ _ _ E) as [F _]. unfold conclude.
  destruct (map_to_list m) as [|[pin f] [|[pin' f'] l]] eqn:Hl.
  - cbn. intros row Hr Hc. destruct (candidate_pinned _ _ _ F Hr Hc) as (pin & Hp & _).
    eapply matches_all in Hp; [|done]. rewrite Hl in Hp. by apply elem_of_nil in Hp.
  - destruct (matches_elem selector catalog m pin f E) as [-> Hp]; [rewrite Hl; by left|].
    assert (pinned selector catalog pin) as Hpin.
    { split.
      - destruct (pins_of_sound _ _ _ Hp) as (row & Hr & S). exists row.
        split; [done|by eapply sound_pin_candidate].
      - intros row Hr Hc. destruct (candidate_pinned _ _ _ F Hr Hc) as (q & Hq & S).
        eapply matches_all in Hq; [|done]. rewrite Hl in Hq. apply list_elem_of_singleton in Hq.
        by simplify_eq. }
    unfold answers, receipt_of. destruct (SignedRecordV1_sign _ _ _) as [receipt|] eqn:Hs; cbn.
    + exists pin, receipt. split_and!; [done|by rewrite Hs|done].
    + exists pin. split; [done|]. by rewrite Hs.
  - destruct (matches_elem selector catalog m pin f E) as [_ H1']; [rewrite Hl; by left|].
    destruct (matches_elem selector catalog m pin' f' E) as [_ H2']; [rewrite Hl; by right; left|].
    destruct (pins_of_sound _ _ _ H1') as (row1 & R1 & S1).
    destruct (pins_of_sound _ _ _ H2') as (row2 & R2 & S2).
    exists row1, row2, pin, pin'. split_and!; [done..|]. intros ->.
    pose proof (NoDup_fst_map_to_list m) as Nd. rewrite Hl in Nd. cbn in Nd.
    apply NoDup_cons in Nd as [Hn _]. apply Hn. by left.
Qed.

(** A loop that stops names a candidate that nothing pins. *)
Lemma resolve_rows_Err selector rows acc e :
  resolve_rows debug_opt selector rows acc = Some (Err e) →
  (∃ m, e = RInconsistent m)
  ∧ ∃ row, row ∈ rows ∧ candidate selector row ∧ ∀ pin, ¬ sound_pin selector row pin.
Proof.
  revert acc. induction rows as [|row rows IH]; intros acc; cbn [resolve_rows]; [done|].
  intros (r & Hr & E)%bind_Some. destruct r as [[pin|]|e'];
    [apply IH in E as (? & x & ? & ?); split; [done|]; exists x; by split; [right|]..|].
  injection E as ->. split.
  - unfold resolve_row in Hr. apply bind_Some in Hr as (c & _ & Hr). injection Hr as Hr.
    destruct (selected_entrypoint _ _ _) as [ep|]; [|done].
    destruct (offers_typed _ _); [|done]. apply bind_Err in Hr as [Hr|(? & _ & Hr)]; [|done].
    by apply pin_row_Err in Hr.
  - exists row. split_and!; [by left| |intros pin Hp%sound_pin_found; congruence].
    unfold resolve_row in Hr. apply bind_Some in Hr as (c & Hc & Hr). injection Hr as Hr.
    destruct (selected_entrypoint _ _ _) as [ep|] eqn:Hs; [|done].
    destruct (offers_typed _ _) eqn:Ho; [|done]. by exists c, ep.
Qed.

Lemma resolve_answers `{!SerdeTotal Manifest} resolver selector catalog at_ms evidence :
  ∃ r, resolve debug_opt resolver selector catalog at_ms evidence = Some r
    ∧ answers resolver selector catalog at_ms evidence r.
Proof.
  unfold resolve. destruct (FunctionSelectorV1_validate selector) as [[]|e] eqn:Hv;
    [|eexists; split; [done|]; cbn; by rewrite Hv].
  case_decide as Hc; [by eexists|].
  destruct (resolve_rows_total selector catalog ∅) as [[m|e] E]; rewrite E; cbn.
  - eexists. split; [done|]. by apply conclude_answers.
  - eexists. split; [done|]. by apply resolve_rows_Err in E as [[? ->] ?].
Qed.

(** A pinned selector is answered with its pin. *)
Lemma pinned_answer resolver selector catalog at_ms evidence pin receipt r :
  answers resolver selector catalog at_ms evidence r →
  is_ok (FunctionSelectorV1_validate selector) = true →
  N.of_nat (length catalog) ≤ MAX_RESOLUTION_CANDIDATES →
  pinned selector catalog pin →
  SignedRecordV1_sign SCHEMA_FUNCTION_DEPLOY_V1 (receipt_of selector pin at_ms evidence)
    (fr_signer resolver) = Ok receipt →
  r = Ok (mkResolvedFunctionV1 selector (function_of pin) pin.2 (Some receipt)).
Proof.
  intros A Hv Hl Hp Hs. destruct r as [resolved|[]]; cbn in A.
  - destruct A as (pin' & receipt' & Hp' & Hs' & ->).
    rewrite (pinned_unique _ _ _ _ Hp' Hp) in *. congruence.
  - congruence.
  - destruct Hp as [(row & Hr & Hc) _]. by destruct (A row).
  - destruct A as (row1 & row2 & pin1 & pin2 & R1 & R2 & S1 & S2 & Hne). destruct Hp as [_ P].
    destruct Hne. transitivity pin; [|symmetry];
      eapply sound_pin_unique; eauto using sound_pin_candidate.
  - destruct A as (row & Hr & Hc & Hn). destruct Hp as [_ P]. by destruct (Hn pin); auto.
  - done.
  - lia.
  - done.
  - destruct A as (pin' & Hp' & Hs'). rewrite (pinned_unique _ _ _ _ Hp' Hp), Hs in Hs'. done.
Qed.

Lemma resolve_perm resolver selector catalog catalog' at_ms evidence resolved :
  catalog ≡ₚ catalog' →
  resolve debug_opt resolver selector catalog at_ms evidence = Some (Ok resolved) →
  resolve debug_opt resolver selector catalog' at_ms evidence = Some (Ok resolved).
Proof.
  intros P. unfold resolve. destruct (FunctionSelectorV1_validate selector); [|done].
  rewrite <- (Permutation_length P).
  case_decide; [done|]. intros (m & Hm & E)%bind_Some. destruct m as [m|]; [|done].
  by rewrite (resolve_rows_perm _ _ _ _ P Hm).
Qed.
End laws.

(** ** A concrete catalogue *)

Module resolver_sample.
#[local] Existing Instances zero_sha blank_text toy_ed25519 null_serde.
#[local] Instance manifests : SerdeJson Manifest :=
  {| to_vec _ := Ok []; from_slice _ := Err "none" |}.
#[local] Instance requests : ToValue ResolveRequestV1 := null_value.

Lemma manifests_total : @SerdeTotal Manifest manifests.
Proof. intros m. by exists []. Qed.

Definition contract : EntrypointContractV1 :=
  mkEntrypointContractV1 "d" (SchemaInline (JObject [("type", JString "object")]))
    (SchemaInline (JBool true)) None EffectReadOnly (mkFunctionControlsV1 false false false false).
Definition address : string := sha256_digest [].
Definition hex : string := default "" (strip_prefix "sha256:" address).
Definition manifest : Manifest :=
  mkManifest "f" "1" (mkAbi BBeast "v1" []) [mkEntrypoint "run" "run()" (Some contract)]
    Capabilities_default Requirements_default (mkProvenance None None (Some hex) None None)
    (Some address) [].
Definition row : CatalogEntry := mkCatalogEntry address "local" manifest None None.
Definition untyped : CatalogEntry :=
  mkCatalogEntry address "local" (Manifest_new "f" "1" BBeast "v1") None None.
Definition alias : FunctionSelectorV1 := SelectAlias (mkFunctionAlias "local" "f" "1" "run").
Definition debug (o : option string) : string := default "None" o.
Definition signer : AuthoritySigner := mkAuthoritySigner sample_root (fun _ => Ok "00").
Definition resolver : FunctionResolver := FunctionResolver_new signer.
End resolver_sample.

(** ** Properties *)

