(* ===== verification/Die.v ===== *)
(** * The verifiable die

    [cosmos/creatures/verifiable-die/src/lib.rs]: a fair pick among [n] options by
    commit and reveal. The die fixes a secret seed and publishes a hash of it; the
    requester then names a nonce; the pick is a hash of both, and anyone can check
    the roll against the commitment.

    The entropy source is injected: each commit is given the seed it drew, or the
    failure. The digest of SHA-256 is the decoding of its hex form. *)

From S2P Require Import Prelude Serde GxShape GxHash FnCrypto FnTypes AetherAddress AetherEnvelope.
From S2P Require Import HomeServe.

(** ** Data *)

Definition DIE_SCHEMA : string := "verifiable.die".
Definition MAX_DIE_MESSAGE_BYTES : N := 64 * 1024.
Definition MAX_DIE_NONCE_BYTES : N := 4 * 1024.
Definition DEFAULT_MAX_PENDING_ROUNDS : N := 1024.
Definition MAX_DIE_REJECT_REASON_BYTES : N := 4 * 1024.

Inductive DieMsg : Type :=
  | DieCommit (round n : N)
  | DieReveal (round : N) (nonce : string)
  | DieCommitted (round : N) (commitment : string)
  | DieRevealed (round n : N) (seed nonce : string) (pick : N)
  | DieRejected (reason : string).

Record VerifiableDie : Type := mkVerifiableDie {
  vd_me : option N;
  vd_pending : gmap N (bytes * N);
  vd_max_pending_rounds : N
}.

Definition VerifiableDie_new : VerifiableDie := mkVerifiableDie None ∅ DEFAULT_MAX_PENDING_ROUNDS.
Definition with_max_pending_rounds (max : N) (d : VerifiableDie) : VerifiableDie :=
  mkVerifiableDie (vd_me d) (vd_pending d) max.
Definition pending_count (d : VerifiableDie) : N := N.of_nat (size (vd_pending d)).
Definition die_bind (me : N) (d : VerifiableDie) : VerifiableDie :=
  mkVerifiableDie (Some me) (vd_pending d) (vd_max_pending_rounds d).
Definition set_pending (p : gmap N (bytes * N)) (d : VerifiableDie) : VerifiableDie :=
  mkVerifiableDie (vd_me d) p (vd_max_pending_rounds d).

(** ** The scheme *)

(** [to_le_bytes] on [k] bytes. *)
Definition le_bytes (k : nat) (n : N) : bytes := rev (be_bytes k n).

(** [u8::from_str_radix(pair, 16)]: a leading [+] is allowed. *)
Definition radix16_pair (a b : Ascii.ascii) : option N :=
  lo ← hex_nibble (Ascii.N_of_ascii b);
  if decide (Ascii.N_of_ascii a = 43) then Some lo
  else hi ← hex_nibble (Ascii.N_of_ascii a); Some (hi * 16 + lo).

Fixpoint decode_pairs (s : string) : option bytes :=
  match s with
  | EmptyString => Some []
  | String _ EmptyString => None
  | String a (String b s) =>
      n ← radix16_pair a b; rest ← decode_pairs s; Some (byte_of_N n :: rest)
  end.

Definition decode_seed (seed_hex : string) : option bytes :=
  if decide (slen seed_hex ≠ 64) then None else decode_pairs seed_hex.

Definition is_ascii_hexdigit (b : N) : bool := is_lower_hex b || in_range 65 70 b.
Definition commitment_shape_is_valid (commitment : string) : bool :=
  bool_decide (slen commitment = 64) && all_bytes is_ascii_hexdigit commitment.

Section scheme.
  Context `{!Sha256}.

Definition commitment_of (round n : N) (seed : bytes) : string :=
  sha256_hex (sha_update (sha_update (sha_update sha_new (le_bytes 8 round)) (le_bytes 4 n)) seed).

Definition pick_of (seed : bytes) (nonce : string) (n : N) : N :=
  if decide (n = 0) then 0
  else
    let digest :=
      default [] (hex_decode (sha256_hex (sha_update (sha_update sha_new seed)
                                            (String.list_byte_of_string nonce)))) in
    be_value (take 8 digest) mod n.

Definition verify_roll (commitment : string) (round n : N) (seed_hex nonce : string) : option N :=
  if decide (n = 0) then None
  else if negb (commitment_shape_is_valid commitment)
          || bool_decide (MAX_DIE_NONCE_BYTES < slen nonce) then None
  else
    seed ← decode_seed seed_hex;
    if decide (commitment_of round n seed ≠ commitment) then None
    else Some (pick_of seed nonce n).
End scheme.

(** ** The creature *)

Definition TRUNCATED_SUFFIX : string := "...[truncated]".

Definition bounded_string (value : string) (max_bytes : N) : string :=
  if decide (slen value ≤ max_bytes) then value
  else
    String.substring 0 (floor_boundary value (N.to_nat (max_bytes - slen TRUNCATED_SUFFIX))) value
      +:+ TRUNCATED_SUFFIX.

Definition bounded_die_reason (reason : string) : string :=
  bounded_string reason MAX_DIE_REJECT_REASON_BYTES.

(** A reply is a message and what it puts in the commitment slot. *)
Definition DieReply : Type := DieMsg * option string.
Definition rejected (reason : string) : DieReply := (DieRejected reason, None).

Section die.
  Context `{!Sha256}.

Definition on_commit (entropy : result string bytes) (round n : N) (d : VerifiableDie) :
    DieReply * VerifiableDie :=
  if decide (n = 0) then (rejected "cannot roll among zero options", d)
  else if bool_decide (is_Some (vd_pending d !! round)) then
    (rejected ("round " +:+ dec round +:+ " already committed (reveal it first)"), d)
  else if bool_decide (vd_max_pending_rounds d ≠ 0)
          && bool_decide (vd_max_pending_rounds d ≤ pending_count d) then
    (rejected ("pending roll table at capacity (" +:+ dec (vd_max_pending_rounds d)
               +:+ "); reveal existing rounds before committing more"), d)
  else
    match entropy with
    | Err e => (rejected ("entropy source failed: " +:+ e), d)
    | Ok seed =>
        let commitment := commitment_of round n seed in
        ((DieCommitted round commitment, Some commitment),
         set_pending (<[round := (seed, n)]> (vd_pending d)) d)
    end.

Definition on_reveal (round : N) (nonce : string) (d : VerifiableDie) : DieReply * VerifiableDie :=
  if decide (MAX_DIE_NONCE_BYTES < slen nonce) then
    (rejected ("nonce " +:+ dec (slen nonce) +:+ " bytes exceeds max " +:+ dec MAX_DIE_NONCE_BYTES
               +:+ " bytes"), d)
  else
    match vd_pending d !! round with
    | None => (rejected ("no committed roll for round " +:+ dec round), d)
    | Some (seed, n) =>
        ((DieRevealed round n (hex_encode seed) nonce (pick_of seed nonce n), None),
         set_pending (delete round (vd_pending d)) d)
    end.

(** The message match of [handle]; replies that come in are ignored. *)
Definition die_message (entropy : result string bytes) (msg : DieMsg) (d : VerifiableDie) :
    option DieReply * VerifiableDie :=
  match msg with
  | DieCommit round n => let (r, d') := on_commit entropy round n d in (Some r, d')
  | DieReveal round nonce => let (r, d') := on_reveal round nonce d in (Some r, d')
  | DieCommitted _ _ | DieRevealed _ _ _ _ _ | DieRejected _ => (None, d)
  end.

Context `{!SerdeJson DieMsg}.

Definition die_reply (env : Envelope) (r : DieReply) : Outcome :=
  let msg := match r.1 with DieRejected reason => DieRejected (bounded_die_reason reason)
                          | other => other end in
  let dispatch := with_schema (reply_to_env env (to_bytes msg)) DIE_SCHEMA in
  Outcome_send (match r.2 with Some commit => with_commitment dispatch commit | None => dispatch end).

Definition die_handle (entropy : result string bytes) (env : Envelope) (d : VerifiableDie) :
    Outcome * VerifiableDie :=
  if decide (hd_schema (ev_header env) ≠ DIE_SCHEMA) then (Outcome_none, d)
  else if decide (MAX_DIE_MESSAGE_BYTES < blen (ev_payload env)) then
    (die_reply env (rejected ("die message " +:+ dec (blen (ev_payload env))
                              +:+ " bytes exceeds max " +:+ dec MAX_DIE_MESSAGE_BYTES +:+ " bytes")), d)
  else
    match from_slice (ev_payload env) with
    | Err _ => (Outcome_none, d)
    | Ok msg =>
        let (r, d') := die_message entropy msg d in
        (match r with Some r => die_reply env r | None => Outcome_none end, d')
    end.
End die.

(** ** Laws *)

Lemma le_bytes_inj k a b :
  a < 256 ^ N.of_nat k → b < 256 ^ N.of_nat k → le_bytes k a = le_bytes k b → a = b.
Proof.
  intros Ha Hb E. apply (f_equal (@rev _)) in E. unfold le_bytes in E. rewrite !rev_involutive in E.
  by rewrite <- (be_value_be_bytes k a), E, be_value_be_bytes.
Qed.

Lemma length_le_bytes k n : length (le_bytes k n) = k.
Proof. unfold le_bytes. by rewrite length_rev, length_be_bytes. Qed.

Lemma pow_u64 : 256 ^ N.of_nat 8 = u64_MAX + 1.
Proof. reflexivity. Qed.
Lemma pow_u32 : 256 ^ N.of_nat 4 = u32_MAX + 1.
Proof. reflexivity. Qed.

(** What a commitment hashes determines round, options and seed. *)
Lemma committed_inj r1 n1 s1 r2 n2 s2 :
  r1 ≤ u64_MAX → r2 ≤ u64_MAX → n1 ≤ u32_MAX → n2 ≤ u32_MAX →
  le_bytes 8 r1 ++ le_bytes 4 n1 ++ s1 = le_bytes 8 r2 ++ le_bytes 4 n2 ++ s2 →
  r1 = r2 ∧ n1 = n2 ∧ s1 = s2.
Proof.
  intros Hr1 Hr2 Hn1 Hn2 E.
  apply app_inj_1 in E as [Er E]; [|by rewrite !length_le_bytes].
  apply app_inj_1 in E as [En E]; [|by rewrite !length_le_bytes].
  apply le_bytes_inj in Er; [|rewrite pow_u64; lia..].
  apply le_bytes_inj in En; [|rewrite pow_u32; lia..]. done.
Qed.

Lemma hex_digit_plus n : n < 16 → Ascii.N_of_ascii (hex_digit n) ≠ 43.
Proof.
  intros Hn. assert (n = 0 ∨ n = 1 ∨ n = 2 ∨ n = 3 ∨ n = 4 ∨ n = 5 ∨ n = 6 ∨ n = 7 ∨ n = 8
    ∨ n = 9 ∨ n = 10 ∨ n = 11 ∨ n = 12 ∨ n = 13 ∨ n = 14 ∨ n = 15) as E by lia.
  by destruct_or? E; subst.
Qed.

Lemma decode_pairs_encode b : decode_pairs (hex_encode b) = Some b.
Proof.
  induction b as [|x b IH]; [done|]. cbn [hex_encode decode_pairs]. unfold radix16_pair.
  pose proof (Byte.to_N_bounded x) as Hx.
  assert (N.shiftr (Byte.to_N x) 4 = Byte.to_N x / 16) as Eh by (by rewrite N.shiftr_div_pow2).
  assert (N.land (Byte.to_N x) 15 = Byte.to_N x mod 16) as El
    by (change 15 with (N.ones 4); by rewrite N.land_ones).
  assert (Byte.to_N x / 16 < 16) by (apply N.Div0.div_lt_upper_bound; lia).
  assert (Byte.to_N x mod 16 < 16) by (by apply N.mod_lt).
  rewrite Eh, El, !hex_nibble_digit by done. cbn [mbind option_bind].
  rewrite decide_False by (by apply hex_digit_plus). cbn [mbind option_bind]. rewrite IH.
  cbn [mbind option_bind].
  rewrite N.mul_comm, <- N.div_mod', byte_of_to_N. done.
Qed.

Lemma decode_seed_encode seed : blen seed = 32 → decode_seed (hex_encode seed) = Some seed.
Proof.
  intros Hl. unfold decode_seed. rewrite slen_hex_encode, Hl. by rewrite decode_pairs_encode.
Qed.

Lemma decode_seed_length s seed : decode_seed s = Some seed → blen seed = 32.
Proof.
  unfold decode_seed. case_decide as Hl; [done|].
  assert (∀ s b, decode_pairs s = Some b → slen s = 2 * blen b) as Hd.
  { clear. fix IH 1. intros s b. destruct s as [|a [|c s]]; cbn; [by intros [= <-]|done|].
    intros (n & _ & E)%bind_Some. apply bind_Some in E as (rest & Hr & [= <-]).
    apply IH in Hr. unfold slen, blen in *. cbn [String.length length]. lia. }
  intros E. apply Hd in E. unfold slen in *. lia.
Qed.

Section laws.
  Context `{!Sha256} `{!ShaStreaming} `{!ShaHex}.

Lemma commitment_hash round n seed :
  commitment_of round n seed = hash_bytes (le_bytes 8 round ++ le_bytes 4 n ++ seed).
Proof. unfold commitment_of, hash_bytes. by rewrite !sha_update_app. Qed.

Lemma commitment_shape round n seed : commitment_shape_is_valid (commitment_of round n seed) = true.
Proof.
  unfold commitment_of, commitment_shape_is_valid.
  match goal with |- context [sha256_hex ?s] => destruct (sha256_hex_is_ok s) as [Hl Hx] end.
  rewrite Hl. cbn. eapply all_bytes_impl; [|done]. unfold is_ascii_hexdigit. by intros b ->.
Qed.

Lemma pick_bound seed nonce n : n ≠ 0 → pick_of seed nonce n < n.
Proof. intros Hn. unfold pick_of. rewrite decide_False by done. by apply N.mod_lt. Qed.

Lemma roll_verifies round n seed nonce :
  n ≠ 0 → blen seed = 32 → slen nonce ≤ MAX_DIE_NONCE_BYTES →
  verify_roll (commitment_of round n seed) round n (hex_encode seed) nonce
  = Some (pick_of seed nonce n).
Proof.
  intros Hn Hs Hl. unfold verify_roll. rewrite decide_False by done.
  rewrite commitment_shape, bool_decide_eq_false_2 by lia. cbn.
  rewrite decode_seed_encode by done. cbn. by rewrite decide_False by naive_solver.
Qed.

(** Two rolls that verify against one commitment have the same seed. *)
Lemma commitment_binds c r1 n1 s1 m1 p1 r2 n2 s2 m2 p2 :
  r1 ≤ u64_MAX → r2 ≤ u64_MAX → n1 ≤ u32_MAX → n2 ≤ u32_MAX →
  verify_roll c r1 n1 s1 m1 = Some p1 → verify_roll c r2 n2 s2 m2 = Some p2 →
  (r1 = r2 ∧ n1 = n2 ∧ decode_seed s1 = decode_seed s2)
  ∨ ∃ b1 b2, b1 ≠ b2 ∧ hash_bytes b1 = hash_bytes b2.
Proof.
  intros Hr1 Hr2 Hn1 Hn2. unfold verify_roll. do 2 (case_decide; [done|]).
  do 2 (destruct (_ || _); [done|]). intros (x & Hx & E)%bind_Some (y & Hy & F)%bind_Some.
  case_decide as C1; [done|]. case_decide as C2; [done|]. rewrite commitment_hash in C1, C2.
  rewrite Hx, Hy.
  destruct (decide (le_bytes 8 r1 ++ le_bytes 4 n1 ++ x = le_bytes 8 r2 ++ le_bytes 4 n2 ++ y)) as [Eb|Nb].
  - left. apply committed_inj in Eb as (-> & -> & ->); done.
  - right. eexists _, _. split; [exact Nb|]. congruence.
Qed.
End laws.

(** ** Histories *)

Section histories.
  Context `{!Sha256}.

(** What a die receives: a message, and what the entropy source would draw. *)
Definition DieStep : Type := result string bytes * DieMsg.

Definition die_run (steps : list DieStep) (d : VerifiableDie) : VerifiableDie :=
  foldl (fun d step => (die_message step.1 step.2 d).2) d steps.

Definition reveals (round : N) (msg : DieMsg) : bool :=
  match msg with DieReveal r _ => bool_decide (r = round) | _ => false end.

Lemma pending_kept round x step d :
  reveals round step.2 = false → vd_pending d !! round = Some x →
  vd_pending (die_message step.1 step.2 d).2 !! round = Some x.
Proof.
  destruct step as [e msg]. cbn. intros Hr Hp. destruct msg as [r n|r nonce| | |]; cbn in *; try done.
  - unfold on_commit. case_decide; [done|]. case_bool_decide as Hs; [done|].
    destruct (_ && _); [done|]. destruct e; [|done]. cbn.
    destruct (decide (r = round)) as [->|]; [by destruct Hs|]. by rewrite lookup_insert_ne.
  - apply bool_decide_eq_false in Hr. unfold on_reveal. case_decide; [done|].
    destruct (vd_pending d !! r) as [[seed n]|] eqn:E; [|done]. cbn. by rewrite lookup_delete_ne.
Qed.

Lemma pending_run round x steps d :
  Forall (fun step => reveals round step.2 = false) steps → vd_pending d !! round = Some x →
  vd_pending (die_run steps d) !! round = Some x.
Proof.
  intros F. revert d. induction F as [|step steps Hs F IH]; intros d Hp; [done|]. cbn.
  by apply IH, pending_kept.
Qed.

(** The pending table never exceeds its cap. *)
Definition within_cap (d : VerifiableDie) : Prop :=
  vd_max_pending_rounds d = 0 ∨ pending_count d ≤ vd_max_pending_rounds d.

Lemma within_cap_message e msg d : within_cap d → within_cap (die_message e msg d).2.
Proof.
  unfold within_cap, pending_count. intros W. destruct msg as [r n|r nonce| | |]; cbn; try done.
  - unfold on_commit. case_decide; [done|]. case_bool_decide as Hs; [done|].
    destruct (_ && _) eqn:C; [done|]. destruct e; [|done]. cbn.
    destruct (vd_pending d !! r) eqn:E; [by destruct Hs|].
    rewrite map_size_insert_None by done. unfold pending_count in C.
    apply andb_false_iff in C as [C|C]; apply bool_decide_eq_false in C; [left|right; lia].
    by apply dec_stable.
  - unfold on_reveal. case_decide; [done|]. destruct (vd_pending d !! r) as [[seed n]|] eqn:E; [|done].
    cbn. rewrite map_size_delete_Some by done. destruct W as [?|W]; [by left|]. right. lia.
Qed.

Lemma commit_pending e round n c slot d d' :
  die_message e (DieCommit round n) d = (Some (DieCommitted round c, slot), d') →
  n ≠ 0 ∧ slot = Some c ∧ ∃ seed, e = Ok seed ∧ c = commitment_of round n seed
    ∧ vd_pending d' !! round = Some (seed, n).
Proof.
  cbn. unfold on_commit. case_decide; [done|]. case_bool_decide; [done|].
  destruct (_ && _); [done|]. destruct e as [seed|]; [|done]. intros [= <- <- <-]. split_and!; [done|done|].
  exists seed. split_and!; [done|done|]. cbn. by rewrite lookup_insert_eq.
Qed.
End histories.

Lemma die_sample_nonce : slen "nonce" ≤ MAX_DIE_NONCE_BYTES.
Proof. done. Qed.
Definition sample_seed : bytes := repeat Byte.x07 32.

(** ** Properties *)

(** A roll is fair. Once the die has committed to a round, it reveals that
    round to whoever asks with an admissible nonce, whatever else it receives in
    between; the reveal is for the committed number of options, its pick is one
    of them and verifies against the commitment that was published, which also
    rode in the commitment slot; and no other pick verifies for that nonce,
    unless the hash collides. The die therefore chose the seed before it saw the
    nonce. *)
Theorem die_roll_fair `{!Sha256} (S : ShaStreaming) (X : ShaHex) (seeds : result string bytes)
    (round n : N) (d d1 : VerifiableDie) (c : string) (slot : option string)
    (steps : list DieStep) (nonce : string) (e : result string bytes)
    (Hround : round ≤ u64_MAX) (Hn : n ≤ u32_MAX)
    (Hseed : ∀ seed, seeds = Ok seed → blen seed = 32)
    (Hcommit : die_message seeds (DieCommit round n) d = (Some (DieCommitted round c, slot), d1))
    (Hsteps : Forall (fun step => reveals round step.2 = false) steps)
    (Hnonce : slen nonce ≤ MAX_DIE_NONCE_BYTES) :
  slot = Some c
  ∧ ∃ seed pick d2, die_message e (DieReveal round nonce) (die_run steps d1)
                      = (Some (DieRevealed round n seed nonce pick, None), d2)
    ∧ vd_pending d2 !! round = None
    ∧ verify_roll c round n seed nonce = Some pick ∧ pick < n
    ∧ ∀ seed' pick', verify_roll c round n seed' nonce = Some pick' →
        pick' = pick ∨ ∃ b1 b2, b1 ≠ b2 ∧ hash_bytes b1 = hash_bytes b2.
Proof.
  apply commit_pending in Hcommit as (Hn0 & -> & seed & Hs & -> & Hp). split; [done|].
  apply Hseed in Hs. eapply pending_run in Hp; [|done].
  pose proof (roll_verifies round n seed nonce Hn0 Hs Hnonce) as V.
  exists (hex_encode seed), (pick_of seed nonce n). eexists. split_and!; [|..].
  - cbn. unfold on_reveal. rewrite decide_False by lia. by rewrite Hp.
  - cbn. apply lookup_delete_eq.
  - done.
  - by apply pick_bound.
  - intros seed' pick' V'.
    destruct (commitment_binds _ _ _ _ _ _ _ _ _ _ _ Hround Hround Hn Hn V V') as [(_ & _ & E)|]; [left|by right].
    revert V V'. unfold verify_roll. repeat (case_decide; [done|]). destruct (_ || _); [done|].
    rewrite <- E. intros V V'. congruence.
Qed.
Lemma die_roll_fair_witness :
  ∃ d1 c, @die_message zero_sha (Ok sample_seed) (DieCommit 5 6) VerifiableDie_new
          = (Some (DieCommitted 5 c, Some c), d1)
    ∧ ∃ seed pick d2, @die_message zero_sha (Err "none") (DieReveal 5 "nonce")
          (@die_run zero_sha [(Ok sample_seed, DieCommit 5 7); (Err "none", DieReveal 4 "x")] d1)
          = (Some (DieRevealed 5 6 seed "nonce" pick, None), d2)
        ∧ @verify_roll zero_sha c 5 6 seed "nonce" = Some pick ∧ pick < 6.
Proof.
  eexists _, _. split; [vm_compute; reflexivity|].
  edestruct (@die_roll_fair zero_sha zero_sha_streaming zero_sha_hex (Ok sample_seed) 5 6
    VerifiableDie_new) as (_ & seed & pick & d2 & H1 & _ & H2 & H3 & _);
    [| | |vm_compute; reflexivity| |exact die_sample_nonce|].
  - vm_compute; discriminate.
  - vm_compute; discriminate.
  - intros seed [= <-]. reflexivity.
  - repeat constructor.
  - exists seed, pick, d2. split; [exact H1|]. split; [exact H2|exact H3].
Defined.
