(* ===== verification/Abode.v ===== *)
(** * Abode snapshots and their reconciliation

    [cosmos/abode/src/lib.rs]: the portable state of a self with its integrity
    hash, its signature and the gates a receiver runs; the payload framing of
    [cosmos/creatures/abode-migrator]; and
    [cosmos/creatures/abode-reconciler/src/lib.rs], which merges two forks of one
    self with an injected merge model and signs the result.

    The merge model is the class [MergeModel]; the last-writer-wins map of [Lww]
    is an instance of it. The text of an unknown framing prefix, UTF-8 or hex, is the
    argument [show_prefix]. *)

From S2P Require Import Prelude Serde GxShape GxHash FnCrypto FnTypes AetherAddress AetherEnvelope.
From S2P Require Import AetherRouter Lww HomeServe Sigil Die.

(** ** Snapshots *)

Definition ABODE_DEFAULT_MAX_PAYLOAD_BYTES : N := 8 * 1024 * 1024.

Inductive SnapshotError : Type :=
  | IntegrityMismatch (expected actual : string)
  | PayloadTooLarge (size max : N)
  | SignatureMissing
  | SignatureInvalid.

Definition SnapshotError_to_string (e : SnapshotError) : string :=
  match e with
  | IntegrityMismatch expected actual =>
      "snapshot state_hash mismatch: declared " +:+ expected +:+ ", actual " +:+ actual
  | PayloadTooLarge size max =>
      "snapshot payload " +:+ dec size +:+ " bytes exceeds receiver max " +:+ dec max +:+ " bytes"
  | SignatureMissing => "snapshot signature required but absent"
  | SignatureInvalid => "snapshot signature did not verify under abode_key"
  end.

Record AbodeSnapshot : Type := mkAbodeSnapshot {
  ab_abode_key : string;
  ab_state_hash : string;
  ab_payload_bytes : bytes;
  ab_requires : Requirements;
  ab_realm : option RealmId;
  ab_signature : option string
}.

Record AbodeRestore : Type := mkAbodeRestore {
  ar_snapshot : AbodeSnapshot;
  ar_note : option string
}.

#[export] Instance Requirements_eq_dec : EqDecision Requirements.
Proof. solve_decision. Defined.

Definition set_snapshot_signature (s : option string) (a : AbodeSnapshot) : AbodeSnapshot :=
  mkAbodeSnapshot (ab_abode_key a) (ab_state_hash a) (ab_payload_bytes a) (ab_requires a)
    (ab_realm a) s.
Definition set_requires (r : Requirements) (a : AbodeSnapshot) : AbodeSnapshot :=
  mkAbodeSnapshot (ab_abode_key a) (ab_state_hash a) (ab_payload_bytes a) r (ab_realm a)
    (ab_signature a).
Definition set_realm (r : option RealmId) (a : AbodeSnapshot) : AbodeSnapshot :=
  mkAbodeSnapshot (ab_abode_key a) (ab_state_hash a) (ab_payload_bytes a) (ab_requires a) r
    (ab_signature a).

Section snapshot.
  Context `{!Sha256} `{!SerdeJson AbodeSnapshot}.

Definition compute_state_hash (payload : bytes) : string := sha256_digest payload.

Definition AbodeSnapshot_new (abode_key : string) (payload : bytes) : AbodeSnapshot :=
  mkAbodeSnapshot abode_key (compute_state_hash payload) payload Requirements_default None None.

Definition snapshot_signing_payload (a : AbodeSnapshot) : bytes :=
  to_bytes (set_snapshot_signature None a).

Definition snapshot_sign `{!Ed25519} `{!Ed25519Keys} (key : Ed25519KeyMaterial)
    (a : AbodeSnapshot) : AbodeSnapshot :=
  set_snapshot_signature (Some (km_sign key (snapshot_signing_payload a))) a.

Definition verify_signature (verifier : Verifier) (a : AbodeSnapshot) : result SnapshotError unit :=
  sig ← ok_or (ab_signature a) SignatureMissing;
  if verifier (ab_abode_key a) (snapshot_signing_payload a) sig then Ok tt else Err SignatureInvalid.

Definition assert_integrity (a : AbodeSnapshot) : result SnapshotError unit :=
  let actual := compute_state_hash (ab_payload_bytes a) in
  if decide (actual ≠ ab_state_hash a) then Err (IntegrityMismatch (ab_state_hash a) actual)
  else Ok tt.

Definition assert_payload_size (max : N) (a : AbodeSnapshot) : result SnapshotError unit :=
  if decide (max < blen (ab_payload_bytes a)) then
    Err (PayloadTooLarge (blen (ab_payload_bytes a)) max)
  else Ok tt.
End snapshot.

(** ** Framing *)

Definition SCHEMA_V0_3_MAGIC : bytes := String.list_byte_of_string "v3.0".

Inductive SnapshotSchemaError : Type :=
  | TooShort (len : N)
  | UnknownPrefix (prefix : bytes).

Definition wrap_payload_v0_3 (state : bytes) : bytes := SCHEMA_V0_3_MAGIC ++ state.

Definition unwrap_payload_v0_3 (b : bytes) : result SnapshotSchemaError bytes :=
  if decide (blen b < 4) then Err (TooShort (blen b))
  else if decide (take 4 b ≠ SCHEMA_V0_3_MAGIC) then Err (UnknownPrefix (take 4 b))
  else Ok (drop 4 b).

Lemma unwrap_wrap state : unwrap_payload_v0_3 (wrap_payload_v0_3 state) = Ok state.
Proof.
  unfold unwrap_payload_v0_3, wrap_payload_v0_3. rewrite decide_False.
  - done.
  - rewrite blen_app. change (blen SCHEMA_V0_3_MAGIC) with 4. lia.
Qed.

(** ** The reconciler *)

Definition RECONCILER_SCHEMA : string := "abode.reconciler".
Definition RECONCILER_DEFAULT_MAX_PAYLOAD_BYTES : N := 4 * 1024 * 1024.
Definition RECONCILER_MESSAGE_OVERHEAD_BYTES : N := 256 * 1024.
Definition ED25519_PUBLIC_KEY_HEX_BYTES : N := 64.
Definition ED25519_SIGNATURE_HEX_BYTES : N := 128.
Definition STATE_HASH_BYTES : N := 71.
Definition MAX_RECONCILER_REALM_ID_BYTES : N := 256.
Definition MAX_RECONCILER_REQUIREMENT_LABELS : N := 64.
Definition MAX_RECONCILER_REQUIREMENT_LABEL_BYTES : N := 256.
Definition MAX_RECONCILER_REASON_BYTES : N := 4 * 1024.

(** [saturating_mul] and [saturating_add] on [usize]. *)
Definition max_reconciler_message_bytes (max_payload_bytes : N) : N :=
  let twice := N.min (max_payload_bytes * 2) usize_MAX in
  N.min (N.min (twice * 4) usize_MAX + RECONCILER_MESSAGE_OVERHEAD_BYTES) usize_MAX.

Class MergeModel : Type := merge_model : bytes → bytes → result string bytes.

Inductive ReconcilerMsg : Type :=
  | Reconcile (fork_a fork_b : AbodeSnapshot)
  | Reconciled (merged : AbodeSnapshot)
  | ReconcileRejected (reason : string).

(** [ReconcilerConfig] and [AbodeReconciler]; the merge model is [MergeModel]. *)
Record AbodeReconciler : Type := mkAbodeReconciler {
  rc_abode_key : Ed25519KeyMaterial;
  rc_max_payload_bytes : N;
  rc_require_signed : bool;
  rc_pubkey : string;
  rc_verifier : Verifier;
  rc_me : option N
}.

Definition ReconcilerConfig_new `{!Ed25519} (key : Ed25519KeyMaterial) : AbodeReconciler :=
  mkAbodeReconciler key RECONCILER_DEFAULT_MAX_PAYLOAD_BYTES true (km_public_hex key)
    ed25519_verifier None.
Definition with_max_payload_bytes (max : N) (r : AbodeReconciler) : AbodeReconciler :=
  mkAbodeReconciler (rc_abode_key r) max (rc_require_signed r) (rc_pubkey r) (rc_verifier r) (rc_me r).
Definition with_unsigned_forks_allowed (r : AbodeReconciler) : AbodeReconciler :=
  mkAbodeReconciler (rc_abode_key r) (rc_max_payload_bytes r) false (rc_pubkey r) (rc_verifier r)
    (rc_me r).
Definition with_verifier (v : Verifier) (r : AbodeReconciler) : AbodeReconciler :=
  mkAbodeReconciler (rc_abode_key r) (rc_max_payload_bytes r) (rc_require_signed r) (rc_pubkey r) v
    (rc_me r).
Definition reconciler_bind (me : N) (r : AbodeReconciler) : AbodeReconciler :=
  mkAbodeReconciler (rc_abode_key r) (rc_max_payload_bytes r) (rc_require_signed r) (rc_pubkey r)
    (rc_verifier r) (Some me).

(** *** Metadata *)

Definition fixed_hex_shape_is_valid (value : string) (exact_len : N) : bool :=
  bool_decide (slen value = exact_len) && all_bytes is_ascii_hexdigit value.
Definition optional_fixed_hex_shape_is_valid (value : option string) (exact_len : N) : bool :=
  match value with Some s => fixed_hex_shape_is_valid s exact_len | None => true end.
Definition state_hash_shape_is_valid (state_hash : string) : bool :=
  match strip_prefix "sha256:" state_hash with
  | Some hex => bool_decide (slen state_hash = STATE_HASH_BYTES) && all_bytes is_ascii_hexdigit hex
  | None => false
  end.
Definition optional_realm_shape_is_valid (realm : option RealmId) : bool :=
  match realm with
  | Some r => bool_decide (slen r ≤ MAX_RECONCILER_REALM_ID_BYTES) && RealmId_is_valid r
  | None => true
  end.
Definition label_fits (label : string) : bool :=
  bool_decide (slen label ≤ MAX_RECONCILER_REQUIREMENT_LABEL_BYTES).
Definition optional_label_shape_is_valid (label : option string) : bool :=
  match label with Some s => label_fits s | None => true end.
Definition labels_shape_is_valid (labels : list string) : bool :=
  bool_decide (N.of_nat (length labels) ≤ MAX_RECONCILER_REQUIREMENT_LABELS) && forallb label_fits labels.
Definition requirements_shape_is_valid (r : Requirements) : bool :=
  labels_shape_is_valid (rq_accelerators r) && labels_shape_is_valid (rq_sensors r)
  && optional_label_shape_is_valid (rq_connectivity r)
  && optional_label_shape_is_valid (rq_jurisdiction r).

Definition validate_snapshot_metadata (fork : AbodeSnapshot) : result string unit :=
  if negb (fixed_hex_shape_is_valid (ab_abode_key fork) ED25519_PUBLIC_KEY_HEX_BYTES) then
    Err "abode_key must be a 64-character hex ed25519 public key"
  else if negb (state_hash_shape_is_valid (ab_state_hash fork)) then
    Err "state_hash must be sha256:<64 hex chars>"
  else if negb (requirements_shape_is_valid (ab_requires fork)) then
    Err "requirements fields exceed reconciler metadata caps"
  else if negb (optional_realm_shape_is_valid (ab_realm fork)) then
    Err "realm must be valid and bounded"
  else if negb (optional_fixed_hex_shape_is_valid (ab_signature fork) ED25519_SIGNATURE_HEX_BYTES)
  then Err "signature must be a 128-character hex ed25519 signature"
  else Ok tt.

Definition bounded_reconciler_reason (reason : string) : string :=
  bounded_string reason MAX_RECONCILER_REASON_BYTES.

Section reconciler.
  Context `{!Sha256} `{!Ed25519} `{!Ed25519Keys} `{!SerdeJson AbodeSnapshot} `{!MergeModel}.
  Context (show_prefix : bytes → string).

Definition SnapshotSchemaError_to_string (e : SnapshotSchemaError) : string :=
  match e with
  | TooShort len =>
      "snapshot payload too short: " +:+ dec len +:+ " bytes (need at least 4 for v3.0 schema prefix)"
  | UnknownPrefix prefix =>
      "snapshot payload has unknown schema prefix `" +:+ show_prefix prefix
      +:+ "` (this hand-off migrator only decodes v3.0)"
  end.

Definition gate (fork : AbodeSnapshot) (which : string) (r : AbodeReconciler) : result string unit :=
  let snapshot_err label (x : result SnapshotError unit) :=
    map_err (fun e => which +:+ label +:+ SnapshotError_to_string e) x in
  _ ← map_err (fun e => which +:+ " metadata: " +:+ e) (validate_snapshot_metadata fork);
  _ ← snapshot_err " size: " (assert_payload_size (rc_max_payload_bytes r) fork);
  _ ← (if rc_require_signed r
       then snapshot_err " signature: " (verify_signature (rc_verifier r) fork)
       else Ok tt);
  snapshot_err " integrity: " (assert_integrity fork).

(** The refusals of [reconcile] for forks that do not belong together. *)
Definition same_self (fork_a fork_b : AbodeSnapshot) (r : AbodeReconciler) : result string unit :=
  if decide (ab_abode_key fork_a ≠ ab_abode_key fork_b) then
    Err ("forks are of different selves (abode_key " +:+ ab_abode_key fork_a +:+ " != "
         +:+ ab_abode_key fork_b +:+ ") — not a fork to reconcile")
  else if decide (ab_abode_key fork_a ≠ rc_pubkey r) then
    Err ("this reconciler holds the key for `" +:+ rc_pubkey r +:+ "`; refusing to merge forks of `"
         +:+ ab_abode_key fork_a +:+ "`")
  else if decide (ab_requires fork_a ≠ ab_requires fork_b) then
    Err "fork metadata differs: requires must match; put evolvable placement needs inside the merge lattice"
  else if decide (ab_realm fork_a ≠ ab_realm fork_b) then
    Err "fork metadata differs: realm assertions must match"
  else Ok tt.

Definition reconcile (fork_a fork_b : AbodeSnapshot) (r : AbodeReconciler) :
    result string AbodeSnapshot :=
  _ ← gate fork_a "fork_a" r;
  _ ← gate fork_b "fork_b" r;
  _ ← same_self fork_a fork_b r;
  let framing which b :=
    map_err (fun e => which +:+ " framing: " +:+ SnapshotSchemaError_to_string e)
      (unwrap_payload_v0_3 b) in
  state_a ← framing "fork_a" (ab_payload_bytes fork_a);
  state_b ← framing "fork_b" (ab_payload_bytes fork_b);
  merged_state ← map_err bounded_reconciler_reason (merge_model state_a state_b);
  let merged :=
    set_realm (ab_realm fork_a)
      (set_requires (ab_requires fork_a)
         (AbodeSnapshot_new (rc_pubkey r) (wrap_payload_v0_3 merged_state))) in
  _ ← map_err (fun e => "merged output size: " +:+ SnapshotError_to_string e)
        (assert_payload_size (rc_max_payload_bytes r) merged);
  Ok (snapshot_sign (rc_abode_key r) merged).

Context `{!SerdeJson ReconcilerMsg}.

Definition reconciler_reply (env : Envelope) (msg : ReconcilerMsg) : Outcome :=
  Outcome_send (with_schema (reply_to_env env (to_bytes msg)) RECONCILER_SCHEMA).

Definition on_reconcile (env : Envelope) (fork_a fork_b : AbodeSnapshot) (r : AbodeReconciler) :
    Outcome :=
  match reconcile fork_a fork_b r with
  | Ok merged => reconciler_reply env (Reconciled merged)
  | Err reason => reconciler_reply env (ReconcileRejected (bounded_reconciler_reason reason))
  end.

Definition reconciler_handle (env : Envelope) (r : AbodeReconciler) : Outcome :=
  let max := max_reconciler_message_bytes (rc_max_payload_bytes r) in
  if decide (hd_schema (ev_header env) ≠ RECONCILER_SCHEMA) then Outcome_none
  else if decide (max < blen (ev_payload env)) then
    reconciler_reply env (ReconcileRejected ("reconciler message " +:+ dec (blen (ev_payload env))
      +:+ " bytes exceeds max " +:+ dec max +:+ " bytes"))
  else
    match from_slice (ev_payload env) with
    | Err _ => Outcome_none
    | Ok (Reconcile fork_a fork_b) => on_reconcile env fork_a fork_b r
    | Ok (Reconciled _ | ReconcileRejected _) => Outcome_none
    end.
End reconciler.

(** ** Laws *)

Lemma hex_encode_hexdigits b : all_bytes is_ascii_hexdigit (hex_encode b) = true.
Proof.
  apply (all_bytes_impl is_lower_hex); [unfold is_ascii_hexdigit; by intros ? ->|apply hex_encode_lower].
Qed.

Section laws.
  Context `{!Sha256} `{!ShaHex} `{!Ed25519} `{!Ed25519Keys} `{!SerdeJson AbodeSnapshot} `{!MergeModel}.
  Context (show_prefix : bytes → string) (seed : bytes) (max : N).

Definition standard : AbodeReconciler :=
  with_max_payload_bytes max (ReconcilerConfig_new (from_seed seed)).

(** The snapshot a reconciliation signs for a merged state. *)
Definition signed_state (state : bytes) (fork : AbodeSnapshot) : AbodeSnapshot :=
  snapshot_sign (rc_abode_key standard)
    (set_realm (ab_realm fork)
       (set_requires (ab_requires fork)
          (AbodeSnapshot_new (rc_pubkey standard) (wrap_payload_v0_3 state)))).

Lemma gate_Ok fork which r :
  gate fork which r = Ok tt ↔
  validate_snapshot_metadata fork = Ok tt
  ∧ assert_payload_size (rc_max_payload_bytes r) fork = Ok tt
  ∧ (rc_require_signed r = true → verify_signature (rc_verifier r) fork = Ok tt)
  ∧ assert_integrity fork = Ok tt.
Proof.
  unfold gate. rewrite bind_Ok. split.
  - intros ([] & Hg1 & E). apply bind_Ok in E as ([] & Hg2 & E). apply bind_Ok in E as ([] & Hg3 & E).
    apply map_err_Ok in Hg1, Hg2, E. split_and!; [done|done| |done].
    intros Hs. rewrite Hs in Hg3. by apply map_err_Ok in Hg3.
  - intros (Hg1 & Hg2 & Hg3 & Hg4). exists tt. rewrite Hg1, Hg2, Hg4. split; [done|]. cbn.
    destruct (rc_require_signed r); [by rewrite Hg3|done].
Qed.

(** What a reconciliation checked and computed. *)
Lemma reconcile_Ok fork_a fork_b m :
  reconcile show_prefix fork_a fork_b standard = Ok m →
  gate fork_a "fork_a" standard = Ok tt ∧ gate fork_b "fork_b" standard = Ok tt
  ∧ ab_abode_key fork_a = rc_pubkey standard ∧ ab_abode_key fork_b = rc_pubkey standard
  ∧ ab_requires fork_b = ab_requires fork_a ∧ ab_realm fork_b = ab_realm fork_a
  ∧ ∃ sa sb state, unwrap_payload_v0_3 (ab_payload_bytes fork_a) = Ok sa
      ∧ unwrap_payload_v0_3 (ab_payload_bytes fork_b) = Ok sb ∧ merge_model sa sb = Ok state
      ∧ m = signed_state state fork_a ∧ blen (wrap_payload_v0_3 state) ≤ max.
Proof.
  unfold reconcile. intros ([] & Ga & E)%bind_Ok. apply bind_Ok in E as ([] & Gb & E).
  apply bind_Ok in E as ([] & Gs & E). apply bind_Ok in E as (sa & Ha%map_err_Ok & E).
  apply bind_Ok in E as (sb & Hb%map_err_Ok & E). apply bind_Ok in E as (state & Hm%map_err_Ok & E).
  apply bind_Ok in E as ([] & Hz%map_err_Ok & [= <-]).
  unfold same_self in Gs. repeat (case_decide; [done|]). unfold assert_payload_size in Hz.
  case_decide as Hl; [done|]. cbn in Hl. split_and!; [done|done|done|congruence|done|done|].
  exists sa, sb, state. split_and!; [done|done|done|done|]. cbn. lia.
Qed.

Lemma state_hash_shape payload : state_hash_shape_is_valid (compute_state_hash payload) = true.
Proof.
  unfold state_hash_shape_is_valid, compute_state_hash, sha256_digest.
  match goal with |- context [strip_prefix ?p (?p +:+ ?h)] =>
    change (strip_prefix p (p +:+ h)) with (Some h) end.
  unfold hash_bytes. match goal with |- context [sha256_hex ?s] =>
    destruct (sha256_hex_is_ok s) as [Hl Hx] end.
  rewrite slen_app, Hl. cbn. eapply all_bytes_impl; [|done]. unfold is_ascii_hexdigit. by intros b ->.
Qed.

Lemma sign_verifies a :
  ab_abode_key a = km_public_hex (from_seed seed) →
  verify_signature ed25519_verifier (snapshot_sign (from_seed seed) a) = Ok tt.
Proof.
  intros Hk. pose proof (key_signature_verifies seed (snapshot_signing_payload a)) as V.
  unfold verify_signature. change (ab_signature (snapshot_sign (from_seed seed) a))
    with (Some (km_sign (from_seed seed) (snapshot_signing_payload a))).
  change (ab_abode_key (snapshot_sign (from_seed seed) a)) with (ab_abode_key a).
  change (snapshot_signing_payload (snapshot_sign (from_seed seed) a))
    with (snapshot_signing_payload a).
  rewrite Hk. unfold ok_or, mbind, result_bind. by rewrite V.
Qed.

(** A merged snapshot passes the gate its forks passed. *)
Lemma signed_state_gate state fork which :
  gate fork "fork_a" standard = Ok tt → ab_abode_key fork = rc_pubkey standard →
  blen (wrap_payload_v0_3 state) ≤ max → gate (signed_state state fork) which standard = Ok tt.
Proof.
  intros (Hm & _ & _ & _)%gate_Ok Hk Hl. apply gate_Ok. split_and!.
  - unfold validate_snapshot_metadata in *. cbn in *. rewrite Hk in Hm. cbn in Hm.
    destruct (fixed_hex_shape_is_valid _ _); [|done]. destruct (state_hash_shape_is_valid (ab_state_hash fork)); [|done].
    rewrite state_hash_shape. cbn in *. destruct (requirements_shape_is_valid _); [|done].
    destruct (optional_realm_shape_is_valid _); [|done]. cbn.
    unfold fixed_hex_shape_is_valid, km_sign. rewrite hex_encode_hexdigits, slen_hex_encode.
    unfold blen. by rewrite ed_sign_length.
  - unfold assert_payload_size. rewrite decide_False; [done|]. apply N.nlt_ge. exact Hl.
  - intros _. by apply sign_verifies.
  - unfold assert_integrity. cbn. by rewrite decide_False by naive_solver.
Qed.

(** ** Reconciling many forks *)

Fixpoint reconcile_all (fork : AbodeSnapshot) (forks : list AbodeSnapshot) :
    result string AbodeSnapshot :=
  match forks with
  | [] => Ok fork
  | other :: forks =>
      merged ← reconcile show_prefix fork other standard; reconcile_all merged forks
  end.

Fixpoint merge_states (state : bytes) (states : list bytes) : result string bytes :=
  match states with
  | [] => Ok state
  | other :: states => merged ← merge_model state other; merge_states merged states
  end.

(** The states that a list of snapshots carries. *)
Abbreviation carries := (fun fork state => unwrap_payload_v0_3 (ab_payload_bytes fork) = Ok state).

Lemma reconcile_all_states forks fork m sa :
  reconcile_all fork forks = Ok m → carries fork sa →
  ∃ ss state, Forall2 carries forks ss ∧ merge_states sa ss = Ok state
    ∧ Forall (fun f => ab_requires f = ab_requires fork ∧ ab_realm f = ab_realm fork) forks
    ∧ (forks ≠ [] → m = signed_state state fork ∧ gate m "merged" standard = Ok tt).
Proof.
  revert fork sa. induction forks as [|other forks IH]; intros fork sa E Hsa; cbn in E.
  { exists [], sa. split_and!; [constructor|done|constructor|done]. }
  apply bind_Ok in E as (x & Hx & E).
  apply reconcile_Ok in Hx as (Ga & _ & Ka & _ & Hq & Hr & sa' & sb & state & Ha & Hb & Hm & -> & Hl).
  assert (sa' = sa) as -> by congruence.
  destruct (IH _ state E) as (ss & final & F & Hf & Fm & Hend); [apply unwrap_wrap|].
  exists (sb :: ss), final. split_and!; [by constructor|cbn; by rewrite Hm|by constructor|].
  intros _. destruct forks as [|f forks].
  - injection E as <-. inversion F; subst. cbn in Hf. injection Hf as <-. split; [done|].
    by apply signed_state_gate.
  - destruct Hend as [-> G]; [done|]. by split.
Qed.
End laws.

(** ** Convergence with the last-writer-wins map *)

Lemma read_elements {A B E} (read : A → result E B) (l k : list A) (xs ys : list B) x :
  Forall2 (fun a b => read a = Ok b) l xs → Forall2 (fun a b => read a = Ok b) k ys →
  (∀ a, a ∈ l → a ∈ k) → x ∈ xs → x ∈ ys.
Proof.
  intros Fl Fk Hin (i & Hi)%list_elem_of_lookup.
  destruct (Forall2_lookup_r _ _ _ _ _ Fl Hi) as (a & Ha & Ea).
  apply list_elem_of_lookup_2, Hin, list_elem_of_lookup in Ha as (j & Hj).
  destruct (Forall2_lookup_l _ _ _ _ _ Fk Hj) as (y & Hy & Ey).
  assert (x = y) as -> by congruence. by eapply list_elem_of_lookup_2.
Qed.

Section convergence.
  Context `{!Sha256} `{!ShaHex} `{!Ed25519} `{!Ed25519Keys} `{!SerdeJson AbodeSnapshot}.
  Context {V : Type} `{!ValueText V} `{!ValueTextInj V}.
  Context `{!SerdeJson (gmap string (Lww V))} (exact : V → Prop) `{!ExactRoundTrip exact}.
  Context (show_prefix : bytes → string) (seed : bytes) (max : N).

#[local] Instance lww_model : MergeModel := merge.

Lemma merge_states_all state states : merge_states state states = merge_all state states.
Proof.
  revert state. induction states as [|s states IH]; intros state; [done|]. cbn. unfold merge_model, lww_model.
  destruct (merge state s); [apply IH|done].
Qed.

Lemma reconcile_all_carries fork forks m :
  forks ≠ [] → reconcile_all show_prefix seed max fork forks = Ok m →
  ∃ state, unwrap_payload_v0_3 (ab_payload_bytes fork) = Ok state.
Proof.
  destruct forks as [|f forks]; [done|]. cbn. intros _ (x & Hx & _)%bind_Ok.
  apply reconcile_Ok in Hx as (_ & _ & _ & _ & _ & _ & sa & _ & _ & Ha & _). eauto.
Qed.

(** A fork whose state has exact values, if it can be read at all. *)
Definition exact_fork (f : AbodeSnapshot) : Prop :=
  ∀ state, unwrap_payload_v0_3 (ab_payload_bytes f) = Ok state → exact_bytes exact state.

Lemma reconcile_all_same a b la lb x y :
  (∀ f, f ∈ a :: la ↔ f ∈ b :: lb) → la ≠ [] → lb ≠ [] → Forall exact_fork (a :: la) →
  reconcile_all show_prefix seed max a la = Ok x → reconcile_all show_prefix seed max b lb = Ok y →
  x = y ∧ gate x "merged" (standard seed max) = Ok tt.
Proof.
  intros Hsame Hla Hlb Hex Hx Hy.
  destruct (reconcile_all_carries _ _ _ Hla Hx) as [sa Ha].
  destruct (reconcile_all_carries _ _ _ Hlb Hy) as [sb Hb].
  destruct (reconcile_all_states _ _ _ _ _ _ _ Hx Ha) as (ss & s & Fs & Es & _ & [Ex G]); [done|].
  destruct (reconcile_all_states _ _ _ _ _ _ _ Hy Hb) as (ts & t & Ft & Et & Fq & [Ey _]); [done|].
  rewrite merge_states_all in Es, Et. split; [|done].
  assert (ab_requires a = ab_requires b ∧ ab_realm a = ab_realm b) as [Eq Er].
  { assert (a ∈ b :: lb) as [->|Hin]%elem_of_cons by (apply Hsame; by left); [done|].
    rewrite Forall_forall in Fq. by apply Fq. }
  assert (s = t) as ->.
  { eapply (merge_all_same exact); [|..|exact Es|exact Et].
    - intros f. split.
      + apply (read_elements (fun f => unwrap_payload_v0_3 (ab_payload_bytes f)) (a :: la) (b :: lb));
          [by constructor..|]. intros z. apply Hsame.
      + apply (read_elements (fun f => unwrap_payload_v0_3 (ab_payload_bytes f)) (b :: lb) (a :: la));
          [by constructor..|]. intros z. apply Hsame.
    - intros ->. by inversion Fs; subst.
    - intros ->. by inversion Ft; subst.
    - assert (Forall2 (fun f state => unwrap_payload_v0_3 (ab_payload_bytes f) = Ok state)
                (a :: la) (sa :: ss)) as Fas by by constructor.
      clear -Hex Fas. induction Fas as [|f state fs states Hf Fs IH]; [done|].
      apply Forall_cons in Hex as [Hex1 Hex2]. constructor; [by apply Hex1|by apply IH]. }
  rewrite Ex, Ey. unfold signed_state. by rewrite Eq, Er.
Qed.
End convergence.

(** ** A concrete self *)

Module abode_sample.
#[local] Existing Instances zero_sha toy_ed25519 toy_keys string_text string_map_serde.
#[local] Instance snapshots : SerdeJson AbodeSnapshot :=
  {| to_vec _ := Ok []; from_slice _ := Err "none" |}.
Definition seed : bytes := [Byte.x07].
Definition max : N := 1000.
Definition fork (k v : string) (ts : N) : AbodeSnapshot :=
  snapshot_sign (from_seed seed)
    (AbodeSnapshot_new (km_public_hex (from_seed seed)) (wrap_payload_v0_3 (Lww.fork k v ts))).
Definition show (_ : bytes) : string := "?".
Definition left_fork : AbodeSnapshot := fork "k" "v" 1.
Definition right_fork : AbodeSnapshot := fork "k" "w" 1.
Definition merge_result (r : result string AbodeSnapshot) : AbodeSnapshot :=
  match r with Ok m => m | Err _ => left_fork end.
Definition one_way : result string AbodeSnapshot :=
  @reconcile_all _ _ _ _ lww_model show seed max left_fork [right_fork].
Definition other_way : result string AbodeSnapshot :=
  @reconcile_all _ _ _ _ lww_model show seed max right_fork [left_fork; right_fork].
Lemma one_way_ok : one_way = Ok (merge_result one_way).
Proof. vm_compute. reflexivity. Qed.
Lemma other_way_ok : other_way = Ok (merge_result other_way).
Proof. vm_compute. reflexivity. Qed.
Lemma same_forks (f a b : AbodeSnapshot) : f ∈ [a; b] ↔ f ∈ [b; a; b].
Proof. rewrite !elem_of_cons, elem_of_nil. tauto. Qed.
Lemma exact_forks fs : Forall (exact_fork any_string) fs.
Proof. apply Forall_forall. intros f _ state _ m _ k r _. exact I. Qed.
End abode_sample.

(** ** Properties *)

(** C17: forks of one self converge under the last-writer-wins merge model. Two
    reconcilers of the same self that merge the same set of signed forks, in any
    order, with repetitions and from any starting fork, end with the same snapshot,
    bytes and signature, when neither reconciliation is refused and the values in the
    forks are read back by [serde_json] as they were written; and that snapshot passes
    the gates a fork passes (size, metadata, signature of the self and integrity), so
    that it can be handed off or reconciled again. *)
Theorem reconciliation_converges `{!Sha256} (X : ShaHex) `{!Ed25519} `{!Ed25519Keys}
    `{!SerdeJson AbodeSnapshot} (V : Type) `{!ValueText V} (I : ValueTextInj V)
    `{!SerdeJson (gmap string (Lww V))} (exact : V → Prop) (RT : ExactRoundTrip exact)
    (show_prefix : bytes → string) (seed : bytes) (max : N) (a b : AbodeSnapshot)
    (la lb : list AbodeSnapshot) (x y : AbodeSnapshot)
    (Hsame : ∀ f, f ∈ a :: la ↔ f ∈ b :: lb) (Hla : la ≠ []) (Hlb : lb ≠ [])
    (Hexact : Forall (exact_fork exact) (a :: la))
    (Hx : @reconcile_all _ _ _ _ lww_model show_prefix seed max a la = Ok x)
    (Hy : @reconcile_all _ _ _ _ lww_model show_prefix seed max b lb = Ok y) :
  x = y ∧ gate x "merged" (standard seed max) = Ok tt.
Proof. by eapply (reconcile_all_same exact show_prefix seed max a b la lb). Qed.
Lemma reconciliation_converges_witness :
  abode_sample.merge_result abode_sample.one_way = abode_sample.merge_result abode_sample.other_way.
Proof.
  exact (proj1 (@reconciliation_converges zero_sha zero_sha_hex toy_ed25519 toy_keys
    abode_sample.snapshots string string_text string_text_inj string_map_serde
    any_string string_round_trip abode_sample.show abode_sample.seed abode_sample.max
    abode_sample.left_fork abode_sample.right_fork [abode_sample.right_fork]
    [abode_sample.left_fork; abode_sample.right_fork] _ _
    (fun f => abode_sample.same_forks f _ _) ltac:(discriminate) ltac:(discriminate)
    (abode_sample.exact_forks _)
    abode_sample.one_way_ok abode_sample.other_way_ok)).
Defined.
