(* ===== verification/Locator.v ===== *)
(** * The locator of Homes

    [cosmos/creatures/function-locator/src/lib.rs]: a bounded index from a Home to
    its newest signed lease. It keeps the highest epoch, replaces a lease only by
    a later coordinator revision of it, and keeps every other lease of that epoch
    as evidence of equivocation. A durable locator writes its whole index as one
    snapshot file, and refuses to serve once a write has failed until it is
    opened again.

    The file is explicit: [LeaseFile] holds its visible and its durable content,
    every operation takes the results of its system calls, and a crash keeps one
    of the two contents. [serde_json::from_slice] at the snapshot is the class
    [LocatorDecode]. *)

From stdpp Require Import sorting.
From S2P Require Import Prelude Serde GxShape GxHash FnCrypto FnTypes FnWire FnCustody FnMessages.
From S2P Require Import AetherAddress AetherEnvelope Journal HomeLedger HomeApi HomeServe HomeCustody.

Abbreviation Lease := (SignedRecordV1 HomeLeaseV1).

(** ** Data *)

Definition DEFAULT_MAX_HOMES : N := 16384.
Definition DEFAULT_MAX_CONFLICTS_PER_HOME : N := 8.
Definition DEFAULT_MAX_SNAPSHOT_BYTES : N := 64 * 1024 * 1024.

Record LocatorCaps : Type := mkLocatorCaps {
  lc_max_homes : N;
  lc_max_conflicts_per_home : N;
  lc_max_snapshot_bytes : N
}.

Definition LocatorCaps_default : LocatorCaps :=
  mkLocatorCaps DEFAULT_MAX_HOMES DEFAULT_MAX_CONFLICTS_PER_HOME DEFAULT_MAX_SNAPSHOT_BYTES.

Inductive LocatorError : Type :=
  | LoInvalid (message : string)
  | LoLimit (message : string)
  | LoIo (message : string)
  | LoCorrupt (message : string)
  | LoUncertain.

Inductive ApplyOutcome : Type :=
  | Added
  | Advanced
  | Duplicate
  | Stale (current_epoch current_sequence : N)
  | Conflicting (epoch : N) (leases : list Lease).

Inductive LocateOutcome : Type :=
  | Located (lease : Lease)
  | LocatedConflict (epoch : N) (leases : list Lease)
  | LocatedNothing.

Inductive LeaseState : Type :=
  | Current (lease : Lease)
  | Conflict (epoch : N) (leases : list Lease).

Definition ls_epoch (s : LeaseState) : N :=
  match s with
  | Current lease => hl_epoch (sr_payload lease)
  | Conflict epoch _ => epoch
  end.

Definition ls_leases (s : LeaseState) : list Lease :=
  match s with
  | Current lease => [lease]
  | Conflict _ leases => leases
  end.

Record PersistedEntry : Type := mkPersistedEntry {
  pe_home : HomeId;
  pe_lease : LeaseState
}.

Record PersistedState : Type := mkPersistedState {
  ps_version : N;
  ps_entries : list PersistedEntry
}.

Abbreviation States := (gmap HomeId LeaseState).

(** [FunctionLocator]; the path of a durable one is the [LeaseFile] beside it. *)
Record FunctionLocator : Type := mkFunctionLocator {
  fl_caps : LocatorCaps;
  fl_states : States;
  fl_persistence : bool;
  fl_healthy : bool
}.

Definition set_states (s : States) (l : FunctionLocator) : FunctionLocator :=
  mkFunctionLocator (fl_caps l) s (fl_persistence l) (fl_healthy l).
Definition set_unhealthy (l : FunctionLocator) : FunctionLocator :=
  mkFunctionLocator (fl_caps l) (fl_states l) (fl_persistence l) false.

(** *** The snapshot file *)

Record LeaseFile : Type := mkLeaseFile {
  lf_visible : option bytes;
  lf_durable : option bytes
}.

(** What a stop leaves: a crash of the machine keeps the visible or the durable
    content, the end of the process alone keeps both. *)
Inductive file_crash (f : LeaseFile) : LeaseFile → Prop :=
  | crash_visible : file_crash f (mkLeaseFile (lf_visible f) (lf_visible f))
  | crash_durable : file_crash f (mkLeaseFile (lf_durable f) (lf_durable f))
  | stop_only : file_crash f f.

(** The results of the calls of [open]: creating the directory, the [stat] that
    [exists] makes, reading the file, syncing the directory. *)
Record LocatorOpenIo : Type := mkLocatorOpenIo {
  lo_mkdir : result string unit;
  lo_stat : bool;
  lo_read : result string unit;
  lo_dir_sync : result string unit
}.

(** ** Serialisation *)

Class LocatorDecode : Type := decode_snapshot : bytes → result string PersistedState.

Section serde.
  Context `{!ToValue HomeLeaseV1}.

Fixpoint values_of {A} `{!ToValue A} (l : list A) : result string (list json) :=
  match l with
  | [] => Ok []
  | a :: l => v ← to_value a; vs ← values_of l; Ok (v :: vs)
  end.

#[export] Instance LeaseState_to_value : ToValue LeaseState :=
  fun s =>
    match s with
    | Current lease =>
        v ← to_value lease; Ok (JObject [("state", JString "current"); ("lease", v)])
    | Conflict epoch leases =>
        vs ← values_of leases;
        Ok (JObject [("state", JString "conflict"); ("epoch", JNumber (dec epoch));
                     ("leases", JArray vs)])
    end.

#[export] Instance PersistedEntry_to_value : ToValue PersistedEntry :=
  fun e => v ← to_value (pe_lease e); Ok (JObject [("home", JString (pe_home e)); ("lease", v)]).

#[export] Instance PersistedState_to_value : ToValue PersistedState :=
  fun p =>
    vs ← values_of (ps_entries p);
    Ok (JObject [("version", JNumber (dec (ps_version p))); ("entries", JArray vs)]).
End serde.

(** ** Operations *)

Definition validate_caps (caps : LocatorCaps) : result LocatorError unit :=
  if bool_decide (lc_max_homes caps = 0) || bool_decide (lc_max_conflicts_per_home caps < 2)
     || bool_decide (lc_max_snapshot_bytes caps = 0)
  then Err (LoLimit "locator caps require homes > 0, conflicts >= 2, and snapshot bytes > 0")
  else Ok tt.

Definition locator_io (r : result string unit) : result LocatorError unit := map_err LoIo r.
Definition locator_invalid {A} (r : result ContractError A) : result LocatorError A :=
  map_err (fun e => LoInvalid (ContractError_to_string e)) r.
Definition locator_corrupt {A} (r : result ContractError A) : result LocatorError A :=
  map_err (fun e => LoCorrupt (ContractError_to_string e)) r.

Definition FunctionLocator_new (caps : LocatorCaps) : result LocatorError FunctionLocator :=
  _ ← validate_caps caps; Ok (mkFunctionLocator caps ∅ false true).

Definition highest_sequence (leases : list Lease) : N :=
  foldr N.max 0 (map (fun l => hl_lease_sequence (sr_payload l)) leases).

(** A [BTreeMap] iterates in the order of its keys. *)
Definition home_le (a b : HomeId * LeaseState) : Prop := str_le a.1 b.1.
#[export] Instance home_le_dec : RelDecision home_le := fun a b => str_le_dec a.1 b.1.

(** The arms of [apply_to_map] for a lease of the epoch that is retained. *)
Definition apply_same_epoch (caps : LocatorCaps) (home : HomeId) (current : LeaseState)
    (lease : Lease) (states : States) : result LocatorError (ApplyOutcome * States) :=
  match current with
  | Current existing =>
      if decide (existing = lease) then Ok (Duplicate, states)
      else if is_home_lease_coordinator_revision (sr_payload existing) (sr_payload lease) then
        Ok (Advanced, <[home := Current lease]> states)
      else if is_home_lease_coordinator_revision (sr_payload lease) (sr_payload existing) then
        Ok (Stale (ls_epoch current) (hl_lease_sequence (sr_payload existing)), states)
      else
        let leases := [existing; lease] in
        Ok (Conflicting (ls_epoch current) leases,
            <[home := Conflict (ls_epoch current) leases]> states)
  | Conflict epoch leases =>
      if decide (lease ∈ leases) then Ok (Conflicting epoch leases, states)
      else if decide (lc_max_conflicts_per_home caps ≤ N.of_nat (length leases)) then
        Err (LoLimit ("home conflict set reached " +:+ dec (lc_max_conflicts_per_home caps)
                      +:+ " leases"))
      else
        let leases := leases ++ [lease] in
        Ok (Conflicting epoch leases, <[home := Conflict epoch leases]> states)
  end.

Definition apply_to_map (caps : LocatorCaps) (lease : Lease) (states : States) :
    result LocatorError (ApplyOutcome * States) :=
  let home := hl_home (sr_payload lease) in
  match states !! home with
  | None => Ok (Added, <[home := Current lease]> states)
  | Some current =>
      if decide (ls_epoch current < hl_epoch (sr_payload lease)) then
        Ok (Advanced, <[home := Current lease]> states)
      else if decide (hl_epoch (sr_payload lease) < ls_epoch current) then
        Ok (Stale (ls_epoch current) (highest_sequence (ls_leases current)), states)
      else apply_same_epoch caps home current lease states
  end.

(** The outcomes after which [apply] writes the index. *)
Definition changes_index (o : ApplyOutcome) : bool :=
  match o with Duplicate | Stale _ _ => false | _ => true end.

Definition fileM : Type → Type := stateR LeaseFile LocatorError.
#[export] Instance fileM_ret : MRet fileM := stateR_ret.
#[export] Instance fileM_bind : MBind fileM := stateR_bind.

Definition file_sys (r : result string unit) : fileM unit := lift_result (locator_io r).
Definition set_visible (content : bytes) (f : LeaseFile) : LeaseFile :=
  mkLeaseFile (Some content) (lf_durable f).
Definition file_synced (f : LeaseFile) : LeaseFile := mkLeaseFile (lf_visible f) (lf_visible f).

(** [atomic_write]: the temporary file is synced before it is renamed over the
    snapshot, and the rename is durable once the directory is synced. *)
Definition snapshot_write (io : AtomicIo) (content : bytes) : fileM unit :=
  _ ← file_sys (ai_create io);
  _ ← file_sys (ai_write io);
  _ ← file_sys (ai_sync io);
  _ ← file_sys (ai_rename io);
  _ ← modify (set_visible content);
  _ ← file_sys (ai_dir_sync io);
  modify file_synced.

(** [Read::take(n)]. *)
Definition take_bytes (n : N) (content : bytes) : bytes :=
  if decide (blen content ≤ n) then content else take (N.to_nat n) content.

(** [bounded_read] of the snapshot: it takes one byte more than the limit. *)
Definition snapshot_read (io : result string unit) (content : bytes) (limit : N) :
    result LocatorError bytes :=
  _ ← locator_io io;
  let b := take_bytes (u64_add limit 1) content in
  if decide (limit < blen b) then
    Err (LoLimit ("snapshot exceeds " +:+ dec limit +:+ " bytes"))
  else Ok b.

Definition locate (query : HomeLocateV1) (l : FunctionLocator) :
    result LocatorError LocateOutcome :=
  if negb (fl_healthy l) then Err LoUncertain
  else
    _ ← locator_invalid (HomeLocateV1_validate query);
    Ok (match fl_states l !! lo_home query with
        | None => LocatedNothing
        | Some state =>
            if match lo_minimum_epoch query with
               | Some minimum => bool_decide (ls_epoch state < minimum)
               | None => false
               end
            then LocatedNothing
            else
              match state with
              | Current lease => Located lease
              | Conflict epoch leases => LocatedConflict epoch leases
              end
        end).

Section operations.
  Context `{!Sha256} `{!JsonText} `{!Ed25519} `{!WireSerde} `{!LocatorDecode}.

Fixpoint validate_leases (home : HomeId) (epoch : N) (leases : list Lease) :
    result LocatorError unit :=
  match leases with
  | [] => Ok tt
  | lease :: leases =>
      _ ← locator_corrupt (verify_home_lease lease);
      if bool_decide (sr_schema lease ≠ SCHEMA_LOCATE_V1)
         || bool_decide (hl_home (sr_payload lease) ≠ home)
         || bool_decide (hl_epoch (sr_payload lease) ≠ epoch)
      then Err (LoCorrupt "retained lease does not match its home/epoch key")
      else validate_leases home epoch leases
  end.

Definition validate_state (home : HomeId) (state : LeaseState) (caps : LocatorCaps) :
    result LocatorError unit :=
  let leases := ls_leases state in
  let count := N.of_nat (length leases) in
  if bool_decide (count = 0) || bool_decide (lc_max_conflicts_per_home caps < count) then
    Err (LoCorrupt "invalid retained conflict set size")
  else
    _ ← validate_leases home (ls_epoch state) leases;
    match state with
    | Current _ =>
        if decide (count = 1) then Ok tt else Err (LoCorrupt "invalid retained lease state")
    | Conflict _ _ =>
        if decide (2 ≤ count) then Ok tt else Err (LoCorrupt "invalid retained lease state")
    end.

(** The loop of [open] over the entries of the snapshot. *)
Fixpoint load_entries (caps : LocatorCaps) (entries : list PersistedEntry) (states : States) :
    result LocatorError States :=
  match entries with
  | [] => Ok states
  | entry :: entries =>
      if decide (is_Some (states !! pe_home entry)) then
        Err (LoCorrupt ("duplicate snapshot entry for home " +:+ pe_home entry))
      else
        _ ← validate_state (pe_home entry) (pe_lease entry) caps;
        load_entries caps entries (<[pe_home entry := pe_lease entry]> states)
  end.

Definition load_snapshot (io : LocatorOpenIo) (caps : LocatorCaps) (f : LeaseFile) :
    result LocatorError States :=
  match lf_visible f, lo_stat io with
  | Some content, true =>
      b ← snapshot_read (lo_read io) content (lc_max_snapshot_bytes caps);
      persisted ← map_err (fun e => LoCorrupt ("invalid snapshot JSON: " +:+ e))
                    (decode_snapshot b);
      if decide (ps_version persisted ≠ 1) then
        Err (LoCorrupt ("unsupported locator snapshot version " +:+ dec (ps_version persisted)))
      else if decide (lc_max_homes caps < N.of_nat (length (ps_entries persisted))) then
        Err (LoCorrupt "snapshot exceeds home limit")
      else load_entries caps (ps_entries persisted) ∅
  | _, _ => Ok ∅
  end.

Definition FunctionLocator_open (io : LocatorOpenIo) (caps : LocatorCaps) :
    fileM FunctionLocator :=
  _ ← lift_result (validate_caps caps);
  _ ← file_sys (lo_mkdir io);
  f ← gets id;
  states ← lift_result (load_snapshot io caps f);
  _ ← file_sys (lo_dir_sync io);
  _ ← modify file_synced;
  mret (mkFunctionLocator caps states true true).

(** The entries [persist] writes. *)
Definition persisted_of (states : States) : PersistedState :=
  mkPersistedState 1
    (map (fun e => mkPersistedEntry e.1 e.2) (merge_sort home_le (map_to_list states))).

Definition locator_persist (io : AtomicIo) (l : FunctionLocator) (states : States) : fileM unit :=
  if negb (fl_persistence l) then mret tt
  else
    b ← lift_result (locator_corrupt (canonical_json_bytes (persisted_of states)));
    if decide (lc_max_snapshot_bytes (fl_caps l) < blen b) then
      lift_result (Err (LoLimit ("snapshot is " +:+ dec (blen b) +:+ " bytes, exceeds "
                                 +:+ dec (lc_max_snapshot_bytes (fl_caps l)))))
    else snapshot_write io b.

(** The checks of [apply] before the index is touched. *)
Definition admit_lease (lease : Lease) (l : FunctionLocator) : result LocatorError unit :=
  if negb (fl_healthy l) then Err LoUncertain
  else
    _ ← locator_invalid (verify_home_lease lease);
    if decide (sr_schema lease ≠ SCHEMA_LOCATE_V1) then
      Err (LoInvalid ("lease record schema is `" +:+ sr_schema lease +:+ "`, expected `"
                      +:+ SCHEMA_LOCATE_V1 +:+ "`"))
    else if bool_decide (fl_states l !! hl_home (sr_payload lease) = None)
            && bool_decide (lc_max_homes (fl_caps l) ≤ N.of_nat (size (fl_states l)))
    then Err (LoLimit (dec (N.of_nat (size (fl_states l))) +:+ " homes already retained (limit "
                       +:+ dec (lc_max_homes (fl_caps l)) +:+ ")"))
    else Ok tt.

Definition locator_apply (io : AtomicIo) (lease : Lease) (l : FunctionLocator) (f : LeaseFile) :
    result LocatorError ApplyOutcome * FunctionLocator * LeaseFile :=
  match (_ ← admit_lease lease l; apply_to_map (fl_caps l) lease (fl_states l)) with
  | Err e => (Err e, l, f)
  | Ok (outcome, next) =>
      if changes_index outcome then
        match locator_persist io l next f with
        | (Err e, f') => (Err e, set_unhealthy l, f')
        | (Ok _, f') => (Ok outcome, set_states next l, f')
        end
      else (Ok outcome, l, f)
  end.
End operations.

(** ** The creature *)

Definition locator_error (code message : string) (retryable : bool) : LocateMessageV1 :=
  LError (mkProtocolErrorV1 code (bound message) retryable).

Definition unavailable_error : LocateMessageV1 :=
  locator_error "locator_unavailable"
    "locator cannot safely serve or accept leases until reopened" true.

Definition announce_error (e : LocatorError) : LocateMessageV1 :=
  match e with
  | LoUncertain | LoIo _ | LoCorrupt _ => unavailable_error
  | LoInvalid _ => locator_error "invalid_lease" "announced lease failed validation" false
  | LoLimit _ =>
      locator_error "locator_capacity" "locator capacity prevents retaining the announced lease"
        false
  end.

Definition locate_error (e : LocatorError) : LocateMessageV1 :=
  match e with
  | LoUncertain | LoIo _ | LoCorrupt _ => unavailable_error
  | LoInvalid _ => locator_error "invalid_query" "location query failed validation" false
  | LoLimit _ => unavailable_error
  end.

Section creature.
  Context `{!Sha256} `{!JsonText} `{!Ed25519} `{!WireSerde} `{!LocatorDecode}.
  Context `{!SerdeJson LocateMessageV1}.

Definition encode_reply (reply : LocateMessageV1) : bytes :=
  match to_vec reply with
  | Ok payload =>
      if decide (blen payload ≤ MAX_JOB_MESSAGE_BYTES) then payload
      else to_bytes (locator_error "response_too_large"
                       "locator response exceeds the wire-message limit" false)
  | Err _ => to_bytes (locator_error "encoding_failure" "cannot encode locator reply" false)
  end.

Definition locator_reply (env : Envelope) (reply : LocateMessageV1) : Outcome :=
  Outcome_send (with_schema (reply_to_env env (encode_reply reply)) SCHEMA_LOCATE_V1).

Definition reply_error (env : Envelope) (code message : string) (retryable : bool) : Outcome :=
  locator_reply env (locator_error code message retryable).

(** The answer to an announcement that was retained or already known. *)
Definition retained_reply (home : HomeId) (l : FunctionLocator) : LocateMessageV1 :=
  match locate (mkHomeLocateV1 home None) l with
  | Ok (Located lease) => LLocation (mkHomeLocationV1 lease None)
  | Ok (LocatedConflict epoch leases) => LConflict home epoch leases
  | _ => locator_error "locator_state" "announced lease was not retained" false
  end.

Definition announce_reply (lease : Lease) (r : result LocatorError ApplyOutcome)
    (l : FunctionLocator) : LocateMessageV1 :=
  match r with
  | Ok (Added | Advanced | Duplicate) => retained_reply (hl_home (sr_payload lease)) l
  | Ok (Conflicting epoch leases) =>
      LConflict (match leases with first :: _ => hl_home (sr_payload first) | [] => "invalid" end)
        epoch leases
  | Ok (Stale _ _) =>
      locator_error "stale_lease" "a newer home lease is already retained" false
  | Err e => announce_error e
  end.

Definition locate_reply (query : HomeLocateV1) (l : FunctionLocator) : LocateMessageV1 :=
  match locate query l with
  | Ok (Located lease) => LLocation (mkHomeLocationV1 lease None)
  | Ok (LocatedConflict epoch leases) => LConflict (lo_home query) epoch leases
  | Ok LocatedNothing => LNotFound (lo_home query)
  | Err e => locate_error e
  end.

Definition locator_handle (io : AtomicIo) (env : Envelope) (l : FunctionLocator) (f : LeaseFile) :
    Outcome * FunctionLocator * LeaseFile :=
  if bool_decide (hd_schema (ev_header env) ≠ SCHEMA_LOCATE_V1)
     || bool_decide (MAX_JOB_MESSAGE_BYTES < blen (ev_payload env))
  then (Outcome_none, l, f)
  else
    match from_slice (ev_payload env) with
    | Err _ => (reply_error env "invalid_message" "cannot decode locator message" false, l, f)
    | Ok (LAnnounce lease) =>
        let '(r, l', f') := locator_apply io lease l f in
        (locator_reply env (announce_reply lease r l'), l', f')
    | Ok (LLocate query) => (locator_reply env (locate_reply query l), l, f)
    | Ok (LLocation _ | LNotFound _ | LConflict _ _ _ | LError _) => (Outcome_none, l, f)
    end.
End creature.
