(* ===== verification/LocatorLaws.v ===== *)
(** * The laws of the locator

    Over any life of a durable locator (envelopes, failing system calls, crashes
    and restarts) every lease it ever accepted stays covered: the index holds a
    higher epoch, a later coordinator revision, or evidence of a conflict. The
    same holds of each content the snapshot file may have after a crash, so a
    restart loses nothing that was acknowledged. *)

From stdpp Require Import sorting.
From S2P Require Import Prelude Serde GxShape GxHash FnCrypto FnTypes FnWire FnCustody FnMessages.
From S2P Require Import AetherAddress AetherEnvelope Journal HomeLedger HomeApi HomeServe HomeCustody.
From S2P Require Import Locator.

(** ** Leases *)

Abbreviation revision := is_home_lease_coordinator_revision.

(** [newer] is [older] or a later coordinator revision of it. *)
Definition follows (older newer : Lease) : Prop :=
  older = newer ∨ revision (sr_payload older) (sr_payload newer) = true.

Lemma revision_fields a b :
  revision a b = true →
  hl_lease_sequence a < hl_lease_sequence b ∧ hl_home b = hl_home a ∧ hl_epoch b = hl_epoch a.
Proof.
  unfold revision. intros E. repeat (apply andb_true_iff in E as [E ?]). by to_prop.
Qed.

Lemma revision_trans a b c : revision a b = true → revision b c = true → revision a c = true.
Proof.
  unfold revision. intros E F.
  repeat (apply andb_true_iff in E as [E ?]). repeat (apply andb_true_iff in F as [F ?]).
  to_prop. repeat (apply andb_true_iff; split); apply bool_decide_eq_true; first [congruence|lia].
Qed.

#[export] Instance follows_preorder : PreOrder follows.
Proof.
  split; [by left|]. intros a b c [->|E] [->|F]; [by left|by right|by right|].
  right. by eapply revision_trans.
Qed.

Lemma follows_epoch a b :
  follows a b → hl_epoch (sr_payload a) = hl_epoch (sr_payload b)
                ∧ hl_home (sr_payload a) = hl_home (sr_payload b).
Proof. intros [->|E]; [done|]. by apply revision_fields in E as (_ & -> & ->). Qed.

(** ** Coverage *)

(** What a retained state still says of a lease that was accepted. *)
Definition state_covers (lease : Lease) (st : LeaseState) : Prop :=
  hl_epoch (sr_payload lease) < ls_epoch st
  ∨ hl_epoch (sr_payload lease) = ls_epoch st ∧ ∃ l, l ∈ ls_leases st ∧ follows lease l.

Definition covers (s : States) (lease : Lease) : Prop :=
  ∃ st, s !! hl_home (sr_payload lease) = Some st ∧ state_covers lease st.

(** Every lease [s] covers, [s'] covers. *)
Definition extends (s s' : States) : Prop := ∀ lease, covers s lease → covers s' lease.

Lemma extends_insert s home st st' :
  s !! home = Some st → (∀ lease, state_covers lease st → state_covers lease st') →
  extends s (<[home := st']> s).
Proof.
  intros Hs Hc lease (x & Hx & C). unfold covers.
  destruct (decide (home = hl_home (sr_payload lease))) as [->|Hne].
  - exists st'. rewrite lookup_insert_eq. split; [done|]. apply Hc. congruence.
  - exists x. by rewrite lookup_insert_ne.
Qed.

Lemma extends_new s home st' : s !! home = None → extends s (<[home := st']> s).
Proof.
  intros Hs lease (x & Hx & C). exists x. split; [|done]. rewrite lookup_insert_ne; congruence.
Qed.

Lemma current_covers lease : state_covers lease (Current lease).
Proof. right. split; [done|]. exists lease. split; [by left|done]. Qed.

Lemma current_covers_inv lease l :
  state_covers lease (Current l) → hl_epoch (sr_payload lease) < hl_epoch (sr_payload l) ∨ follows lease l.
Proof. intros [?|(_ & x & Hx & F)]; [by left|]. apply list_elem_of_singleton in Hx as ->. by right. Qed.

Lemma covers_raise lease st l :
  state_covers lease st → ls_epoch st < hl_epoch (sr_payload l) → state_covers lease (Current l).
Proof. intros [?|[? _]] ?; left; cbn; lia. Qed.

Lemma covers_revised lease existing l :
  state_covers lease (Current existing) → follows existing l → state_covers lease (Current l).
Proof.
  intros [C|(E & x & Hx & F)] R; pose proof (follows_epoch _ _ R) as [E' _]; cbn in *; [left; cbn; lia|].
  apply list_elem_of_singleton in Hx as ->. right. cbn. split; [lia|]. exists l.
  split; [by left|by etrans].
Qed.

Lemma covers_more lease st epoch leases :
  state_covers lease st → epoch = ls_epoch st → ls_leases st ⊆ leases →
  state_covers lease (Conflict epoch leases).
Proof.
  intros [C|(E & x & Hx & F)] -> Hl; [by left|]. right. split; [done|]. exists x. split; [by apply Hl|done].
Qed.

Lemma covers_inserted s lease st :
  state_covers lease st → covers (<[hl_home (sr_payload lease) := st]> s) lease.
Proof. exists st. by rewrite lookup_insert_eq. Qed.

Lemma covers_member lease epoch leases :
  hl_epoch (sr_payload lease) = epoch → lease ∈ leases → state_covers lease (Conflict epoch leases).
Proof. intros <- Hin. right. split; [done|]. exists lease. by split. Qed.

Lemma apply_same_covers caps lease st s o s' :
  s !! hl_home (sr_payload lease) = Some st → hl_epoch (sr_payload lease) = ls_epoch st →
  apply_same_epoch caps (hl_home (sr_payload lease)) st lease s = Ok (o, s') →
  extends s s' ∧ covers s' lease.
Proof.
  intros Hs Ee. unfold apply_same_epoch. destruct st as [existing|epoch leases].
  - case_decide as Hd.
    { subst existing. intros [= <- <-]. split; [by intros ?|]. eexists. split; [done|apply current_covers]. }
    destruct (revision _ _) eqn:R.
    { intros [= <- <-]. split; [|apply covers_inserted, current_covers].
      eapply extends_insert; [done|]. intros l C. eapply covers_revised; [done|by right]. }
    destruct (revision (sr_payload lease) _) eqn:R'.
    { intros [= <- <-]. split; [by intros ?|]. exists (Current existing). split; [done|]. right.
      split; [done|]. exists existing. split; [by left|by right]. }
    intros [= <- <-]. split; [|apply covers_inserted, covers_member; [done|by right; left]].
    eapply extends_insert; [done|]. intros l C. eapply covers_more; [done|done|].
    intros x Hx. apply list_elem_of_singleton in Hx as ->. by left.
  - case_decide as Hin.
    { intros [= <- <-]. split; [by intros ?|]. eexists. split; [done|by apply covers_member]. }
    case_decide; [done|]. intros [= <- <-].
    split; [|apply covers_inserted, covers_member; [done|]; apply elem_of_app; right; by left].
    eapply extends_insert; [done|]. intros l C. eapply covers_more; [done|done|].
    intros x Hx. apply elem_of_app. by left.
Qed.

(** [apply_to_map] covers the lease and loses no other. *)
Lemma apply_covers caps lease s o s' :
  apply_to_map caps lease s = Ok (o, s') → extends s s' ∧ covers s' lease.
Proof.
  unfold apply_to_map. destruct (s !! _) as [st|] eqn:Hs.
  2:{ intros [= <- <-]. split; [by apply extends_new|apply covers_inserted, current_covers]. }
  case_decide as He.
  { intros [= <- <-]. split; [|apply covers_inserted, current_covers].
    eapply extends_insert; [done|]. intros l C. by eapply covers_raise. }
  case_decide as Hs'.
  { intros [= <- <-]. split; [by intros ?|]. exists st. split; [done|by left]. }
  apply apply_same_covers; [done|lia].
Qed.

(** ** Well-formed indexes *)

Section laws.
  Context `{!Sha256} `{!JsonText} `{!Ed25519} `{!WireSerde}.

(** A lease that may be retained for a Home at an epoch. *)
Definition retainable (home : HomeId) (epoch : N) (lease : Lease) : Prop :=
  verify_home_lease lease = Ok tt ∧ sr_schema lease = SCHEMA_LOCATE_V1
  ∧ hl_home (sr_payload lease) = home ∧ hl_epoch (sr_payload lease) = epoch.

Definition sound_state (caps : LocatorCaps) (home : HomeId) (st : LeaseState) : Prop :=
  Forall (retainable home (ls_epoch st)) (ls_leases st) ∧ NoDup (ls_leases st)
  ∧ N.of_nat (length (ls_leases st)) ≤ lc_max_conflicts_per_home caps
  ∧ match st with Current _ => True | Conflict _ leases => (2 ≤ length leases)%nat end.

Definition sound (caps : LocatorCaps) (s : States) : Prop :=
  N.of_nat (size s) ≤ lc_max_homes caps ∧ map_Forall (sound_state caps) s.

Lemma validate_leases_ok home epoch leases :
  validate_leases home epoch leases = Ok tt ↔ Forall (retainable home epoch) leases.
Proof.
  induction leases as [|l leases IH]; cbn; [split; [by constructor|done]|].
  rewrite Forall_cons, <- IH. unfold retainable, locator_corrupt.
  destruct (verify_home_lease l) as [[]|e]; cbn; [|split; [done|naive_solver]].
  repeat case_bool_decide; naive_solver.
Qed.

Lemma sound_validates caps home st : sound_state caps home st → validate_state home st caps = Ok tt.
Proof.
  intros (F & _ & Hc & Hs). apply validate_leases_ok in F. unfold validate_state.
  assert (N.of_nat (length (ls_leases st)) ≠ 0) by (destruct st; cbn in *; lia).
  rewrite !bool_decide_eq_false_2 by lia. cbn. rewrite F. cbn.
  destruct st; cbn in *; case_decide; try done; lia.
Qed.

Lemma sound_empty caps : sound caps ∅.
Proof. split; [rewrite map_size_empty; lia|apply map_Forall_empty]. Qed.

Lemma sound_insert caps s home st :
  sound caps s → sound_state caps home st →
  (is_Some (s !! home) ∨ N.of_nat (size s) < lc_max_homes caps) → sound caps (<[home := st]> s).
Proof.
  intros [Hz F] Hst Hroom. split; [|by apply map_Forall_insert_2].
  destruct (s !! home) as [x|] eqn:E.
  - rewrite map_size_insert_Some by done. done.
  - rewrite map_size_insert_None by done. destruct Hroom as [[? ?]|]; [done|lia].
Qed.

Lemma sound_current caps home lease :
  retainable home (hl_epoch (sr_payload lease)) lease → 2 ≤ lc_max_conflicts_per_home caps →
  sound_state caps home (Current lease).
Proof.
  intros R Hc. split_and!; cbn; [by apply Forall_singleton|apply NoDup_singleton|lia|done].
Qed.

Lemma apply_same_sound caps lease st s o s' :
  sound caps s → retainable (hl_home (sr_payload lease)) (ls_epoch st) lease →
  2 ≤ lc_max_conflicts_per_home caps → s !! hl_home (sr_payload lease) = Some st →
  apply_same_epoch caps (hl_home (sr_payload lease)) st lease s = Ok (o, s') → sound caps s'.
Proof.
  intros Hs R Hc Hst. destruct (map_Forall_lookup_1 _ _ _ _ (proj2 Hs) Hst) as (F & Nd & Hl & Htwo).
  assert (∀ st', sound_state caps (hl_home (sr_payload lease)) st' →
            sound caps (<[hl_home (sr_payload lease) := st']> s)) as Hi
    by (intros; apply sound_insert; [done|done|left; eauto]).
  unfold apply_same_epoch. destruct st as [existing|epoch leases].
  - case_decide as Hd; [by intros [= <- <-]|]. apply Forall_cons_1 in F as [F _].
    destruct (revision _ _) eqn:Hr.
    { intros [= <- <-]. apply Hi, sound_current; [|done]. destruct R as (? & ? & ? & ?).
      by split_and!. }
    destruct (revision (sr_payload lease) _); [by intros [= <- <-]|]. intros [= <- <-].
    apply Hi. split_and!; cbn; [by apply Forall_cons; split; [|apply Forall_singleton]| |lia|lia].
    apply NoDup_cons. split; [by rewrite list_elem_of_singleton|apply NoDup_singleton].
  - case_decide as Hin; [by intros [= <- <-]|]. case_decide; [done|]. intros [= <- <-].
    apply Hi. cbn in *. split_and!; cbn.
    + apply Forall_app. by split; [|apply Forall_singleton].
    + apply NoDup_app. split_and!; [done| |apply NoDup_singleton].
      intros x Hx. rewrite list_elem_of_singleton. congruence.
    + rewrite length_app. cbn. lia.
    + rewrite length_app. lia.
Qed.

Lemma apply_sound caps lease s o s' :
  sound caps s → verify_home_lease lease = Ok tt → sr_schema lease = SCHEMA_LOCATE_V1 →
  2 ≤ lc_max_conflicts_per_home caps →
  (is_Some (s !! hl_home (sr_payload lease)) ∨ N.of_nat (size s) < lc_max_homes caps) →
  apply_to_map caps lease s = Ok (o, s') → sound caps s'.
Proof.
  intros Hs Hv Hsch Hc Hroom. unfold apply_to_map.
  assert (sound_state caps (hl_home (sr_payload lease)) (Current lease)) as Hcur
    by (apply sound_current; [by split_and!|done]).
  destruct (s !! _) as [st|] eqn:Hst.
  2:{ intros [= <- <-]. apply sound_insert; [done|done|]. rewrite Hst. destruct Hroom as [[? ?]|]; [done|by right]. }
  case_decide as He; [intros [= <- <-]; apply sound_insert; [done|done|left; eauto]|].
  case_decide; [by intros [= <- <-]|]. apply apply_same_sound; [done| |done|done].
  split_and!; [done|done|done|lia].
Qed.
End laws.

(** ** The snapshot file *)

Section file.
  Context `{!Sha256} `{!JsonText} `{!Ed25519} `{!WireSerde} `{!LocatorDecode}.

(** Parsing the snapshot of a sound index gives it back. *)
Class LocatorRoundTrip (caps : LocatorCaps) : Prop :=
  snapshot_round_trip : ∀ s b, sound caps s → canonical_json_bytes (persisted_of s) = Ok b →
    decode_snapshot b = Ok (persisted_of s).

(** A content of the file is the snapshot of [s]; no file is the empty index. *)
Definition denotes (caps : LocatorCaps) (s : States) (content : option bytes) : Prop :=
  sound caps s
  ∧ match content with
    | None => s = ∅
    | Some b => canonical_json_bytes (persisted_of s) = Ok b ∧ blen b ≤ lc_max_snapshot_bytes caps
    end.

Lemma load_entries_sound caps es acc :
  Forall (fun e => sound_state caps (pe_home e) (pe_lease e)) es → NoDup (map pe_home es) →
  (∀ e, e ∈ es → acc !! pe_home e = None) →
  load_entries caps es acc = Ok (list_to_map (map (fun e => (pe_home e, pe_lease e)) es) ∪ acc).
Proof.
  revert acc. induction es as [|e es IH]; intros acc F Nd Hn; cbn; [by rewrite (left_id_L ∅ (∪))|].
  apply Forall_cons in F as [He F]. apply NoDup_cons in Nd as [Hni Nd].
  rewrite decide_False by (rewrite (Hn e) by (by left); by intros [? ?]).
  rewrite sound_validates by done. cbn. rewrite IH; [|done|done|].
  - f_equal. rewrite <- insert_union_l, insert_union_r; [done|].
    apply not_elem_of_list_to_map. rewrite <- list_fmap_compose. apply Hni.
  - intros x Hx. rewrite lookup_insert_ne; [by apply Hn; right|]. intros E. apply Hni.
    change (pe_home e ∈ pe_home <$> es). rewrite E. by apply list_elem_of_fmap_2.
Qed.

Lemma load_persisted caps s : sound caps s → load_entries caps (ps_entries (persisted_of s)) ∅ = Ok s.
Proof.
  intros [_ F]. cbn.
  assert (merge_sort home_le (map_to_list s) ≡ₚ map_to_list s) as Hp by apply merge_sort_Permutation.
  rewrite load_entries_sound.
  - f_equal. rewrite (right_id_L ∅ (∪)). rewrite <- list_fmap_compose. unfold compose. cbn.
    rewrite (list_fmap_ext _ id) by (by intros ? [? ?]). rewrite list_fmap_id.
    rewrite (list_to_map_proper _ (map_to_list s)); [apply list_to_map_to_list| |done].
    rewrite Hp. apply NoDup_fst_map_to_list.
  - apply Forall_fmap. rewrite Hp. apply map_Forall_to_list in F. eapply Forall_impl; [done|].
    by intros [? ?].
  - rewrite <- list_fmap_compose. unfold compose. cbn. rewrite Hp. apply NoDup_fst_map_to_list.
  - done.
Qed.

Lemma snapshot_read_fits content limit :
  limit < u64_MAX → blen content ≤ limit → snapshot_read (Ok tt) content limit = Ok content.
Proof.
  intros Hf Hb. unfold snapshot_read. cbn. rewrite u64_add_exact by lia.
  assert (take_bytes (limit + 1) content = content) as ->
    by (unfold take_bytes; by rewrite decide_True by lia).
  by rewrite decide_False by lia.
Qed.

Lemma load_denotes io caps s f :
  LocatorRoundTrip caps → lc_max_snapshot_bytes caps < u64_MAX → lo_stat io = true →
  lo_read io = Ok tt → denotes caps s (lf_visible f) → load_snapshot io caps f = Ok s.
Proof.
  intros R Hf Hst Hr [Hs Hv]. unfold load_snapshot. rewrite Hst.
  destruct (lf_visible f) as [b|]; [|by rewrite Hv]. destruct Hv as [Hb Hl].
  rewrite Hr, snapshot_read_fits by done. cbn. rewrite (R s b Hs Hb). cbn.
  rewrite decide_False by (by intros []). rewrite decide_False.
  - by apply load_persisted.
  - rewrite length_fmap, (Permutation_length (merge_sort_Permutation _ _)), length_map_to_list.
    destruct Hs as [Hz _]. lia.
Qed.

Lemma load_read_ok io caps f s b :
  lf_visible f = Some b → lo_stat io = true → load_snapshot io caps f = Ok s → lo_read io = Ok tt.
Proof.
  intros Hb Hst. unfold load_snapshot, snapshot_read. rewrite Hb, Hst. by destruct (lo_read io) as [[]|].
Qed.

(** Opening a file that denotes [s] gives [s], or fails in a system call. *)
Lemma open_denotes io caps s f l f' :
  LocatorRoundTrip caps → lc_max_snapshot_bytes caps < u64_MAX → lo_stat io = true →
  denotes caps s (lf_visible f) → FunctionLocator_open io caps f = (Ok l, f') →
  validate_caps caps = Ok tt ∧ l = mkFunctionLocator caps s true true ∧ f' = file_synced f.
Proof.
  intros R Hf Hst Hd. unfold FunctionLocator_open, mbind, fileM_bind, stateR_bind, lift_result,
    file_sys, gets, modify, lift_result. destruct (validate_caps caps) as [[]|]; [|done].
  destruct (locator_io (lo_mkdir io)); [|done]. cbn [id].
  destruct (load_snapshot io caps f) as [x|] eqn:Hl; [|done].
  destruct (locator_io (lo_dir_sync io)); [|done]. intros [= <- <-]. split_and!; [done| |done].
  f_equal. destruct (lf_visible f) as [b|] eqn:Hv.
  - assert (load_snapshot io caps f = Ok s) as E
      by (apply load_denotes; [done|done|done|by eapply load_read_ok|by rewrite Hv]).
    congruence.
  - unfold load_snapshot in Hl. rewrite Hv in Hl. destruct Hd as [_ ->]. congruence.
Qed.

Lemma open_succeeds io caps s f :
  LocatorRoundTrip caps → lc_max_snapshot_bytes caps < u64_MAX → validate_caps caps = Ok tt →
  denotes caps s (lf_visible f) →
  io = mkLocatorOpenIo (Ok tt) true (Ok tt) (Ok tt) →
  FunctionLocator_open io caps f = (Ok (mkFunctionLocator caps s true true), file_synced f).
Proof.
  intros R Hf Hc Hd ->. unfold FunctionLocator_open, mbind, fileM_bind, stateR_bind, lift_result,
    file_sys, gets, modify, lift_result. rewrite Hc. cbn [locator_io map_err lo_mkdir id].
  by rewrite (load_denotes _ _ s).
Qed.

(** ** Lives *)

Context `{!SerdeJson LocateMessageV1}.

(** The lease an envelope announces, if the locator accepts it. *)
Definition acknowledged (io : AtomicIo) (env : Envelope) (l : FunctionLocator) (f : LeaseFile) :
    list Lease :=
  if bool_decide (hd_schema (ev_header env) ≠ SCHEMA_LOCATE_V1)
     || bool_decide (MAX_JOB_MESSAGE_BYTES < blen (ev_payload env))
  then []
  else
    match from_slice (ev_payload env) with
    | Ok (LAnnounce lease) => if is_ok (locator_apply io lease l f).1.1 then [lease] else []
    | _ => []
    end.

(** A durable locator from its first opening on, with the leases it accepted. *)
Inductive lives (caps : LocatorCaps) : list Lease → FunctionLocator → LeaseFile → Prop :=
  | life_open io l f :
      FunctionLocator_open io caps (mkLeaseFile None None) = (Ok l, f) → lives caps [] l f
  | life_handle accepted l f io env :
      lives caps accepted l f →
      lives caps (acknowledged io env l f ++ accepted) (locator_handle io env l f).1.2
        (locator_handle io env l f).2
  | life_restart accepted l f f1 io l' f' :
      lives caps accepted l f → file_crash f f1 → lo_stat io = true →
      FunctionLocator_open io caps f1 = (Ok l', f') → lives caps accepted l' f'.

(** What holds throughout: each content of the file denotes an index that covers
    what was accepted, and for a healthy locator it is the index in memory. *)
Record life_ok (caps : LocatorCaps) (accepted : list Lease) (l : FunctionLocator)
    (f : LeaseFile) : Prop := mkLifeOk {
  lv_caps : fl_caps l = caps ∧ fl_persistence l = true ∧ validate_caps caps = Ok tt;
  lv_states : sound caps (fl_states l);
  lv_file : ∃ sv sd, denotes caps sv (lf_visible f) ∧ denotes caps sd (lf_durable f)
      ∧ Forall (covers sv) accepted ∧ Forall (covers sd) accepted
      ∧ (fl_healthy l = true → sv = fl_states l ∧ sd = fl_states l)
}.

Lemma validate_caps_ok caps :
  validate_caps caps = Ok tt → 2 ≤ lc_max_conflicts_per_home caps.
Proof. unfold validate_caps. destruct (_ || _) eqn:E; [done|]. to_prop. lia. Qed.

Lemma denotes_empty caps : denotes caps ∅ None.
Proof. split; [apply sound_empty|done]. Qed.

(** A write makes the new snapshot visible or leaves the file, and only success
    makes it durable. *)
Lemma write_effect io b f r f' :
  snapshot_write io b f = (r, f') →
  lf_visible f' = lf_visible f ∧ lf_durable f' = lf_durable f ∧ r ≠ Ok tt
  ∨ lf_visible f' = Some b ∧ (lf_durable f' = lf_durable f ∧ r ≠ Ok tt ∨ lf_durable f' = Some b ∧ r = Ok tt).
Proof.
  unfold snapshot_write, mbind, fileM_bind, stateR_bind, file_sys, lift_result, modify.
  destruct io as [[[]|] [[]|] [[]|] [[]|] [[]|]]; cbn; intros [= <- <-]; naive_solver.
Qed.

Lemma persist_effect io l s f r f' :
  fl_persistence l = true → sound (fl_caps l) s → locator_persist io l s f = (r, f') →
  lf_visible f' = lf_visible f ∧ lf_durable f' = lf_durable f ∧ is_ok r = false
  ∨ denotes (fl_caps l) s (lf_visible f')
    ∧ (lf_durable f' = lf_durable f ∧ is_ok r = false
       ∨ denotes (fl_caps l) s (lf_durable f') ∧ is_ok r = true).
Proof.
  intros Hp Hs. unfold locator_persist. rewrite Hp. cbn [negb].
  unfold mbind, fileM_bind, stateR_bind, lift_result.
  destruct (canonical_json_bytes (persisted_of s)) as [b|e] eqn:Hb; cbn;
    [|intros [= <- <-]; by left].
  case_decide; [intros [= <- <-]; by left|]. intros W.
  assert (∀ c, c = Some b → denotes (fl_caps l) s c) as D
    by (intros c ->; split; [done|split; [done|lia]]).
  apply write_effect in W as [(V & E & N)|(V & [[E N]|[E ->]])].
  - left. split_and!; [done|done|]. by destruct r as [[]|].
  - right. split; [by apply D|]. left. split; [done|]. by destruct r as [[]|].
  - right. split; [by apply D|]. right. split; [by apply D|done].
Qed.

Lemma admit_ok lease l :
  admit_lease lease l = Ok tt →
  fl_healthy l = true ∧ verify_home_lease lease = Ok tt ∧ sr_schema lease = SCHEMA_LOCATE_V1
  ∧ (is_Some (fl_states l !! hl_home (sr_payload lease))
     ∨ N.of_nat (size (fl_states l)) < lc_max_homes (fl_caps l)).
Proof.
  unfold admit_lease, locator_invalid. destruct (fl_healthy l); [|done]. cbn [negb].
  destruct (verify_home_lease lease) as [[]|e]; [|done]. cbn. case_decide as Hs; [done|].
  destruct (fl_states l !! _) eqn:E; cbn.
  - intros _. split_and!; [done|done|done|left; eauto].
  - case_bool_decide; [done|]. intros _.
    split_and!; [done|done|done|right; lia].
Qed.

(** How an announcement ends: refused without effect, accepted, or not written. *)
Lemma apply_cases io lease l f :
  (∃ e, locator_apply io lease l f = (Err e, l, f))
  ∨ (∃ o, locator_apply io lease l f = (Ok o, l, f) ∧ fl_healthy l = true
          ∧ covers (fl_states l) lease)
  ∨ ∃ o next r f', fl_healthy l = true ∧ extends (fl_states l) next ∧ covers next lease
      ∧ (sound (fl_caps l) (fl_states l) → validate_caps (fl_caps l) = Ok tt →
         sound (fl_caps l) next)
      ∧ locator_persist io l next f = (r, f')
      ∧ locator_apply io lease l f
        = match r with Ok _ => (Ok o, set_states next l, f') | Err e => (Err e, set_unhealthy l, f') end.
Proof.
  unfold locator_apply. destruct (admit_lease lease l) as [[]|e] eqn:Ha; cbn; [|left; eauto].
  apply admit_ok in Ha as (Hh & Hv & Hs & Hroom).
  destruct (apply_to_map _ lease (fl_states l)) as [[o next]|e] eqn:Hm; [|left; eauto].
  pose proof (apply_covers _ _ _ _ _ Hm) as [Hx Hc]. right.
  destruct (changes_index o) eqn:Ho.
  - right. destruct (locator_persist io l next f) as [r f'] eqn:Hp.
    exists o, next, r, f'. split_and!; [done|done|done| |done|by destruct r].
    intros S C. eapply apply_sound; [done|done|done|by apply validate_caps_ok|done|done].
  - left. exists o. split_and!; [done|done|].
    assert (next = fl_states l) as <-; [|done]. clear -Hm Ho. revert Hm. unfold apply_to_map, apply_same_epoch.
    repeat case_match; try done; intros [= <- <-]; done.
Qed.

Lemma Forall_covers_extends s s' accepted :
  extends s s' → Forall (covers s) accepted → Forall (covers s') accepted.
Proof. intros E F. eapply Forall_impl; [done|]. exact E. Qed.

(** The file after a snapshot of [next] was or was not written. *)
Lemma persist_life caps accepted l f io next r f' lease :
  life_ok caps accepted l f → fl_healthy l = true → extends (fl_states l) next →
  covers next lease → sound caps next → locator_persist io l next f = (r, f') →
  life_ok caps (if is_ok r then lease :: accepted else accepted)
    (if is_ok r then set_states next l else set_unhealthy l) f'.
Proof.
  intros [(Hc & Hp & Hv) Hs (sv & sd & Dv & Dd & Fv & Fd & Hh)] Hl Hx Hcov Hn P.
  destruct (Hh Hl) as [-> ->]. rewrite <- Hc in *.
  assert (Forall (covers next) accepted) as Fn by (by eapply Forall_covers_extends).
  apply persist_effect in P as [(Ev & Ed & ->)|(Dn & [[Ed ->]|[Dn' ->]])]; [..|done|done].
  - split; cbn; [done|done|]. exists (fl_states l), (fl_states l). rewrite Ev, Ed. by split_and!.
  - split; cbn; [done|done|]. exists next, (fl_states l). rewrite Ed. by split_and!.
  - split; cbn; [done|done|]. exists next, next. split_and!; [done|done| | |done]; by constructor.
Qed.

Lemma apply_life caps accepted l f io lease :
  life_ok caps accepted l f →
  life_ok caps ((if is_ok (locator_apply io lease l f).1.1 then [lease] else []) ++ accepted)
    (locator_apply io lease l f).1.2 (locator_apply io lease l f).2.
Proof.
  intros L. destruct (apply_cases io lease l f) as [(e & ->)|[(o & -> & Hh & Hc)|R]]; [done| |].
  - destruct L as [Hcaps Hs (sv & sd & Dv & Dd & Fv & Fd & Hsame)]. split; cbn; [done|done|].
    destruct (Hsame Hh) as [-> ->]. exists (fl_states l), (fl_states l).
    split_and!; [done|done| | |done]; by constructor.
  - destruct R as (o & next & r & f' & Hh & Hx & Hc & Hsn & Hp & ->).
    pose proof L as [(Ec & _ & Hv) Hs _]. rewrite <- Ec in *.
    pose proof (persist_life _ _ _ _ _ _ _ _ lease L Hh Hx Hc (Hsn Hs Hv) Hp) as L'.
    by destruct r.
Qed.

Lemma handle_life caps accepted l f io env :
  life_ok caps accepted l f →
  life_ok caps (acknowledged io env l f ++ accepted) (locator_handle io env l f).1.2
    (locator_handle io env l f).2.
Proof.
  intros L. unfold acknowledged, locator_handle. destruct (_ || _); [done|].
  destruct (from_slice _) as [[]|]; try done. pose proof (apply_life _ _ _ _ io lease L) as L'.
  by destruct (locator_apply io lease l f) as [[r l'] f'].
Qed.

Lemma restart_life caps accepted l f f1 io l' f' :
  LocatorRoundTrip caps → lc_max_snapshot_bytes caps < u64_MAX → life_ok caps accepted l f →
  file_crash f f1 → lo_stat io = true → FunctionLocator_open io caps f1 = (Ok l', f') →
  life_ok caps accepted l' f' ∧ fl_healthy l' = true.
Proof.
  intros R Hf [Hc Hs (sv & sd & Dv & Dd & Fv & Fd & Hsame)] K Hst Ho.
  assert (∃ s, denotes caps s (lf_visible f1) ∧ Forall (covers s) accepted) as (s & D & F)
    by (destruct K; cbn; eauto).
  eapply open_denotes in Ho as (Hv & -> & ->); [|done..]. split; [|done]. split; cbn.
  - by destruct Hc as (_ & _ & ?).
  - apply D.
  - exists s, s. by split_and!.
Qed.

Lemma lives_ok caps accepted l f :
  LocatorRoundTrip caps → lc_max_snapshot_bytes caps < u64_MAX → lives caps accepted l f →
  life_ok caps accepted l f.
Proof.
  intros R Hf L. induction L as [io l f Ho|accepted l f io env L IH|accepted l f f1 io l' f' L IH K Hst Ho].
  - assert (l = mkFunctionLocator caps ∅ true true ∧ f = mkLeaseFile None None
            ∧ validate_caps caps = Ok tt) as (-> & -> & Hv).
    { revert Ho. unfold FunctionLocator_open, mbind, fileM_bind, stateR_bind, lift_result,
        file_sys, gets, modify, lift_result. destruct (validate_caps caps) as [[]|]; [|done].
      destruct (locator_io (lo_mkdir io)); [|done]. cbn. destruct (locator_io _); [|done].
      by intros [= <- <-]. }
    split; cbn; [done|apply sound_empty|]. exists ∅, ∅. split_and!; try apply denotes_empty; done.
  - by apply handle_life.
  - by eapply restart_life.
Qed.

Lemma lease_names_home lease :
  verify_home_lease lease = Ok tt → HomeId_validate (hl_home (sr_payload lease)) = Ok tt.
Proof.
  unfold verify_home_lease. intros V. apply bind_Ok in V as (u & V & _). destruct u.
  apply record_validate_Ok in V. unfold HomeLeaseV1_validate in V.
  apply bind_Ok in V as ([] & V & _). done.
Qed.

(** What a healthy locator says of a Home it accepted a lease of. *)
Lemma locate_covered caps accepted l f lease :
  life_ok caps accepted l f → fl_healthy l = true → lease ∈ accepted →
  ∃ st, sound_state caps (hl_home (sr_payload lease)) st ∧ state_covers lease st
    ∧ locate (mkHomeLocateV1 (hl_home (sr_payload lease)) None) l
      = Ok (match st with Current x => Located x | Conflict e xs => LocatedConflict e xs end).
Proof.
  intros [_ Hs (sv & sd & _ & _ & Fv & _ & Hh)] Hl Hin. destruct (Hh Hl) as [-> _].
  rewrite Forall_forall in Fv. destruct (Fv _ Hin) as (st & Hst & C). exists st.
  pose proof (map_Forall_lookup_1 _ _ _ _ (proj2 Hs) Hst) as S. split_and!; [done|done|].
  assert (HomeId_validate (hl_home (sr_payload lease)) = Ok tt) as Hid.
  { destruct S as (F & _ & _ & Hne). destruct (ls_leases st) as [|x xs] eqn:E.
    - destruct st; cbn in *; [done|]. subst. cbn in Hne. lia.
    - apply Forall_cons in F as [(V & _ & <- & _) _]. by apply lease_names_home. }
  unfold locate. rewrite Hl. cbn [negb]. unfold HomeLocateV1_validate. cbn. rewrite Hid. cbn.
  rewrite Hst. by destruct st.
Qed.
End file.

(** ** A concrete locator

    Records are signed with the byte 0, and one lease has a text: the locator that
    announces it has two possible snapshots. *)

Module locator_sample.
#[local] Instance zero_ed25519 : Ed25519 := fun _ _ sig => bool_decide (sig = [Byte.x00]).
#[local] Existing Instances zero_sha stuffed_text.

Definition sign {T} (schema key : string) (payload : T) : SignedRecordV1 T :=
  mkSignedRecordV1 schema key payload "00".
Definition authority : HomeAuthorityV1 :=
  mkHomeAuthorityV1 (sign SCHEMA_HOME_V1 sample_root (mkAbodeKeyBindingV1 sample_root sample_root None))
    (sign SCHEMA_HOME_V1 sample_root
       (mkOperationalKeyGrantV1 sample_root 1 (sample_epoch_key 1) None None [CapLocate] [])) None.
Definition payload : HomeLeaseV1 :=
  mkHomeLeaseV1 sample_root 1 1 "r" "n" "c" authority None None GENESIS None None.
Definition lease : Lease := sign SCHEMA_LOCATE_V1 (sample_epoch_key 1) payload.

Definition lease_value : ToValue HomeLeaseV1 :=
  fun l => if decide (l = payload) then Ok JNull else Err "no text".
#[local] Instance wire : WireSerde :=
  @Build_WireSerde null_value null_value null_value null_value null_value null_value null_value
    null_value null_value null_value null_value null_value null_value null_value null_value
    null_value lease_value null_value null_value null_value null_value null_value null_value
    null_value.

Definition caps : LocatorCaps := mkLocatorCaps 4 2 100000.
Definition full : States := {[ sample_root := Current lease ]}.
Definition text (s : States) : bytes :=
  match canonical_json_bytes (persisted_of s) with Ok b => b | Err _ => [] end.
#[local] Instance decode : LocatorDecode :=
  fun b => if decide (b = text full) then Ok (persisted_of full) else Ok (persisted_of ∅).

Lemma hex_zero s : hex_decode s = Some [Byte.x00] → s = "00".
Proof.
  destruct s as [|a [|b s]]; [done|done|]. cbn.
  assert (∀ c n, hex_nibble (Ascii.N_of_ascii c) = Some n → n < 16 ∧ (n = 0 → String c "" = "0")) as Hn.
  { intros c n. destruct c as [[] [] [] [] [] [] [] []]; vm_compute; intros [= <-]; done. }
  destruct (hex_nibble (Ascii.N_of_ascii a)) as [h|] eqn:Ea; [|done].
  destruct (hex_nibble (Ascii.N_of_ascii b)) as [l|] eqn:Eb; [|done]. cbn.
  apply Hn in Ea as [La Za]. apply Hn in Eb as [Lb Zb].
  destruct (hex_decode s) as [[|? ?]|] eqn:Es; [|done|done]. cbn. intros [= E].
  assert (s = "") as ->.
  { destruct s as [|x [|y s]]; [done|done|]. cbn [hex_decode] in Es.
    apply bind_Some in Es as (? & _ & Es). apply bind_Some in Es as (? & _ & Es).
    by apply bind_Some in Es as (? & _ & Es). }
  assert (h = 0 ∧ l = 0) as [-> ->].
  { apply (f_equal Byte.to_N) in E. rewrite to_N_byte_of_N in E. cbn in E.
    assert (N.lor (N.shiftl h 4) l = h * 16 + l) as Eq.
    { rewrite N.shiftl_mul_pow2. change (2 ^ 4) with 16.
      assert (∀ x y, x < 16 → y < 16 → N.lor (x * 16) y = x * 16 + y) as X; [|by apply X].
      clear. intros x y Hx Hy. rewrite <- (N2Nat.id x), <- (N2Nat.id y).
      assert (N.to_nat x < 16)%nat as Ax by lia. assert (N.to_nat y < 16)%nat as Ay by lia.
      revert Ax Ay. generalize (N.to_nat x) (N.to_nat y). clear. intros x y Hx Hy.
      do 16 (destruct x as [|x]; [do 16 (destruct y as [|y]; [reflexivity|]); lia|]). lia. }
    rewrite Eq, N.mod_small in E by lia. lia. }
  specialize (Za eq_refl). specialize (Zb eq_refl). congruence.
Qed.

Lemma values_of_ok {A} `{!ToValue A} (l : list A) vs :
  values_of l = Ok vs → Forall (fun a => is_ok (to_value a) = true) l.
Proof.
  revert vs. induction l as [|a l IH]; intros vs; [by constructor|]. cbn [values_of].
  intros (v & Hv & E)%bind_Ok. apply bind_Ok in E as (ws & Hw & _).
  constructor; [by rewrite Hv|by eapply IH].
Qed.

Lemma only_lease home epoch l :
  retainable home epoch l → is_ok (to_value l) = true → l = lease ∧ home = sample_root.
Proof.
  intros (V & Hs & Hh & _) Hv.
  assert (sr_payload l = payload) as Ep.
  { unfold to_value, SignedRecordV1_to_value, to_value, ws_lease, wire, lease_value in Hv.
    case_decide; [done|]. done. }
  unfold verify_home_lease in V. apply bind_Ok in V as (u & _ & V).
  unfold unsigned in V. destruct (_ || _) eqn:U; [done|]. case_decide as Hk; [done|].
  apply orb_false_iff in U as [_ U%negb_false_iff]. rewrite Ep in Hk, Hh.
  assert (sr_signature l = "00") as Eg.
  { unfold SignedRecordV1_verify in U. case_decide; [done|].
    destruct (hex_decode (sr_signer l)); [|done].
    destruct (hex_decode (sr_signature l)) as [sg|] eqn:E; [|done].
    destruct (record_signing_payload l); [|done]. apply bool_decide_eq_true in U as ->.
    by apply hex_zero. }
  split; [|done]. destruct l. cbn in *. unfold lease, sign. by subst.
Qed.

Lemma only_state home st :
  sound_state caps home st → is_ok (to_value (mkPersistedEntry home st)) = true →
  home = sample_root ∧ st = Current lease.
Proof.
  intros (F & Nd & _ & Htwo) Hv. unfold to_value, PersistedEntry_to_value in Hv. cbn in Hv.
  destruct (to_value st) as [v|] eqn:E; [|done].
  assert (Forall (fun l => l = lease ∧ home = sample_root) (ls_leases st)) as G.
  { destruct st as [l|e ls]; cbn in *.
    - apply Forall_cons in F as [F _]. constructor; [|done]. eapply only_lease; [done|].
      unfold to_value at 1, LeaseState_to_value in E. apply bind_Ok in E as (w & Hw & _). exact (f_equal is_ok Hw).
    - apply bind_Ok in E as (ws & Hw & _).
      apply values_of_ok in Hw. rewrite Forall_forall in *. intros l Hl.
      eapply only_lease; [by apply F|by apply Hw]. }
  destruct st as [l|e [|x [|y ls]]]; cbn in *; [|lia|lia|].
  - apply Forall_cons in G as [[-> ->] _]. done.
  - apply Forall_cons in G as [[-> _] G]. apply Forall_cons in G as [[-> _] _].
    apply NoDup_cons in Nd as [Hn _]. exfalso. apply Hn. by left.
Qed.

Lemma two_snapshots s b :
  sound caps s → canonical_json_bytes (persisted_of s) = Ok b → s = ∅ ∨ s = full.
Proof.
  intros [_ F] Hb. unfold canonical_json_bytes in Hb. apply bind_Ok in Hb as (v & Hv & _).
  apply map_err_Ok in Hv. unfold to_value, PersistedState_to_value in Hv.
  apply bind_Ok in Hv as (vs & Hv & _). apply values_of_ok in Hv. cbn in Hv.
  rewrite Forall_fmap in Hv. rewrite (merge_sort_Permutation home_le (map_to_list s)) in Hv.
  rewrite Forall_forall in Hv.
  assert (∀ home st, s !! home = Some st → home = sample_root ∧ st = Current lease) as Hall.
  { intros home st Hst. pose proof (F _ _ Hst) as S. apply elem_of_map_to_list in Hst.
    apply Hv in Hst. by eapply only_state. }
  destruct (s !! sample_root) as [st|] eqn:Hst; [right|left].
  - destruct (Hall _ _ Hst) as [_ ->]. apply map_eq. intros k. unfold full.
    destruct (decide (k = sample_root)) as [->|Hne]; 
      [exact (eq_trans Hst (eq_sym (lookup_singleton_eq _ _)))|].
    rewrite lookup_singleton_ne by done. destruct (s !! k) eqn:E; [|done].
    by apply Hall in E as [? _].
  - apply map_empty. intros k. destruct (s !! k) eqn:E; [|done].
    pose proof (Hall _ _ E) as [-> _]. exact (eq_trans (eq_sym E) Hst).
Qed.
#[local] Instance round_trip : LocatorRoundTrip caps.
Proof.
  intros s b Hs Hb. unfold decode_snapshot, decode, text.
  destruct (two_snapshots s b Hs Hb) as [-> | ->]; [|rewrite Hb; by rewrite decide_True].
  rewrite decide_False; [done|]. intros ->. revert Hb. vm_compute. discriminate.
Qed.

#[local] Instance messages : SerdeJson LocateMessageV1 :=
  {| to_vec _ := Ok []; from_slice _ := Ok (LAnnounce lease) |}.
Definition env : Envelope :=
  mkEnvelope (mkHeader (ACreature 1) (ACreature 2) None 0 [] 0 "" None None SCHEMA_LOCATE_V1 None) [].
Definition new_io : LocatorOpenIo := mkLocatorOpenIo (Ok tt) true (Ok tt) (Ok tt).
Definition opened : FunctionLocator := mkFunctionLocator caps ∅ true true.
Definition empty_file : LeaseFile := mkLeaseFile None None.
Definition step : Outcome * FunctionLocator * LeaseFile := locator_handle atomic_ok env opened empty_file.

Lemma opens_empty : FunctionLocator_open new_io caps empty_file = (Ok opened, empty_file).
Proof. vm_compute. reflexivity. Qed.
Lemma announces : acknowledged atomic_ok env opened empty_file = [lease].
Proof. vm_compute. reflexivity. Qed.
Lemma announced : lives caps [lease] step.1.2 step.2.
Proof.
  rewrite <- announces, <- (app_nil_r (acknowledged _ _ _ _)).
  apply life_handle. by eapply life_open, opens_empty.
Qed.
End locator_sample.


(** ** Properties *)

(** C15: what the locator answers is authoritative. Over any life of a durable
    locator, with failing writes, crashes, and restarts at which the stat of the
    snapshot succeeds, a lease it accepted is never contradicted by a later answer for
    that Home (a restart whose stat fails opens empty and is left out): the answer is a
    verified lease of a higher epoch, or that lease or a later coordinator
    revision of it; or it is a conflict of at least two distinct verified leases
    that is of a higher epoch or holds such a revision; or the locator refuses to
    answer because a write has failed. It never says that the Home is unknown. *)
Theorem location_authoritative `{!Sha256} `{!JsonText} `{!Ed25519} `{!WireSerde} `{!LocatorDecode}
    `{!SerdeJson LocateMessageV1} (caps : LocatorCaps) (R : LocatorRoundTrip caps)
    (Hfit : lc_max_snapshot_bytes caps < u64_MAX) (accepted : list Lease) (l : FunctionLocator)
    (f : LeaseFile) (L : lives caps accepted l f) (lease : Lease) (Hin : lease ∈ accepted) :
  let home := hl_home (sr_payload lease) in
  let epoch := hl_epoch (sr_payload lease) in
  match locate (mkHomeLocateV1 home None) l with
  | Ok (Located x) =>
      retainable home (hl_epoch (sr_payload x)) x
      ∧ (epoch < hl_epoch (sr_payload x) ∨ follows lease x)
  | Ok (LocatedConflict e xs) =>
      Forall (retainable home e) xs ∧ NoDup xs ∧ (2 ≤ length xs)%nat
      ∧ (epoch < e ∨ ∃ x, x ∈ xs ∧ follows lease x)
  | Ok LocatedNothing => False
  | Err e => e = LoUncertain ∧ fl_healthy l = false
  end.
Proof.
  cbv zeta. pose proof (lives_ok _ _ _ _ R Hfit L) as K. destruct (fl_healthy l) eqn:Hh.
  - destruct (locate_covered _ _ _ _ _ K Hh Hin) as (st & (F & Nd & _ & Htwo) & C & ->).
    destruct st as [x|e xs]; cbn in *.
    + apply Forall_cons in F as [F _]. split; [done|by apply current_covers_inv].
    + split_and!; [done|done|done|]. destruct C as [?|(_ & C)]; [by left|by right].
  - unfold locate. by rewrite Hh.
Qed.

Lemma location_authoritative_witness :
  match locate (mkHomeLocateV1 sample_root None) locator_sample.step.1.2 with
  | Ok (Located x) =>
      @retainable zero_sha stuffed_text locator_sample.zero_ed25519 locator_sample.wire sample_root
        (hl_epoch (sr_payload x)) x
      ∧ (1 < hl_epoch (sr_payload x) ∨ follows locator_sample.lease x)
  | Ok (LocatedConflict e xs) =>
      Forall (@retainable zero_sha stuffed_text locator_sample.zero_ed25519 locator_sample.wire
        sample_root e) xs ∧ NoDup xs ∧ (2 ≤ length xs)%nat
      ∧ (1 < e ∨ ∃ x, x ∈ xs ∧ follows locator_sample.lease x)
  | Ok LocatedNothing => False
  | Err e => e = LoUncertain ∧ fl_healthy locator_sample.step.1.2 = false
  end.
Proof.
  exact (@location_authoritative zero_sha stuffed_text locator_sample.zero_ed25519
    locator_sample.wire locator_sample.decode locator_sample.messages locator_sample.caps
    locator_sample.round_trip ltac:(vm_compute; reflexivity) [locator_sample.lease]
    locator_sample.step.1.2 locator_sample.step.2 locator_sample.announced locator_sample.lease
    ltac:(by left)).
Defined.

(** A restart loses nothing. After any life of a durable locator and any
    crash, opening it again when the system calls succeed gives a healthy
    locator whose index covers every lease ever accepted; and if the locator was
    healthy, exactly the index it had. *)
Theorem locator_restarts `{!Sha256} `{!JsonText} `{!Ed25519} `{!WireSerde} `{!LocatorDecode}
    `{!SerdeJson LocateMessageV1} (caps : LocatorCaps) (R : LocatorRoundTrip caps)
    (Hfit : lc_max_snapshot_bytes caps < u64_MAX) (accepted : list Lease) (l : FunctionLocator)
    (f f1 : LeaseFile) (L : lives caps accepted l f) (Hcrash : file_crash f f1) :
  ∃ l' f', FunctionLocator_open (mkLocatorOpenIo (Ok tt) true (Ok tt) (Ok tt)) caps f1 = (Ok l', f')
    ∧ fl_healthy l' = true ∧ Forall (covers (fl_states l')) accepted
    ∧ (fl_healthy l = true → fl_states l' = fl_states l).
Proof.
  pose proof (lives_ok _ _ _ _ R Hfit L) as [(_ & _ & Hv) _ (sv & sd & Dv & Dd & Fv & Fd & Hs)].
  assert (∃ s, denotes caps s (lf_visible f1) ∧ Forall (covers s) accepted
            ∧ (fl_healthy l = true → s = fl_states l)) as (s & D & F & E)
    by (destruct Hcrash; cbn; naive_solver).
  eexists _, _. split; [by apply open_succeeds|]. by split_and!.
Qed.

Lemma locator_restarts_witness :
  ∃ l' f', @FunctionLocator_open zero_sha stuffed_text locator_sample.zero_ed25519
      locator_sample.wire locator_sample.decode locator_sample.new_io locator_sample.caps
      locator_sample.step.2 = (Ok l', f')
    ∧ fl_healthy l' = true ∧ Forall (covers (fl_states l')) [locator_sample.lease]
    ∧ (fl_healthy locator_sample.step.1.2 = true → fl_states l' = fl_states locator_sample.step.1.2).
Proof.
  exact (@locator_restarts zero_sha stuffed_text locator_sample.zero_ed25519
    locator_sample.wire locator_sample.decode locator_sample.messages locator_sample.caps
    locator_sample.round_trip ltac:(vm_compute; reflexivity) [locator_sample.lease]
    locator_sample.step.1.2 locator_sample.step.2 locator_sample.step.2 locator_sample.announced
    (stop_only _)).
Defined.
