(* ===== verification/BlobFs.v ===== *)
(** * The reference blob store

    [cosmos/creatures/job-blob-fs/src/lib.rs]: a bounded content-addressed store of
    opaque values in one directory. A value is written to a temporary file, synced,
    renamed to its hash, and the directory synced; every read verifies size and
    hash; opening scans the directory and fails closed.

    The directory has what the process sees and what a crash of the machine is
    sure to keep; the result of every system call is an argument, and so are the
    order in which the directory is listed and the process id. *)

From S2P Require Import Prelude GxShape GxHash GxWire FnCrypto FnTypes FnWire.

(** ** Data *)

Definition DEFAULT_MAX_BLOB_BYTES : N := 64 * 1024 * 1024.
Definition DEFAULT_MAX_TOTAL_BYTES : N := 1024 * 1024 * 1024.
Definition DEFAULT_MAX_BLOBS : N := 16384.

Record StoredBlob : Type := mkStoredBlob { sb_sha256 : string; sb_size : N }.

Record BlobCaps : Type := mkBlobCaps {
  bc_max_blob_bytes : N;
  bc_max_total_bytes : N;
  bc_max_blobs : N
}.
Definition BlobCaps_default : BlobCaps :=
  mkBlobCaps DEFAULT_MAX_BLOB_BYTES DEFAULT_MAX_TOTAL_BYTES DEFAULT_MAX_BLOBS.

Inductive BlobStoreError : Type :=
  | BsIo (e : string)
  | BsCorrupt (e : string)
  | BsInvalidAddress (address : string)
  | BsBlobTooLarge (actual limit : N)
  | BsEntryLimit (limit : N)
  | BsByteLimit (current adding limit : N)
  | BsNotFound (sha256 : string)
  | BsUncertain.

Definition BlobStoreError_to_string (e : BlobStoreError) : string :=
  match e with
  | BsIo e => "blob store I/O error: " +:+ e
  | BsCorrupt e => "blob store is corrupt: " +:+ e
  | BsInvalidAddress a => "invalid SHA-256 address `" +:+ a +:+ "`"
  | BsBlobTooLarge actual limit =>
      "blob is too large: " +:+ dec actual +:+ " bytes exceeds " +:+ dec limit
  | BsEntryLimit limit => "blob store entry limit reached: " +:+ dec limit
  | BsByteLimit current adding limit =>
      "blob store byte limit reached: adding " +:+ dec adding +:+ " to " +:+ dec current
      +:+ " exceeds " +:+ dec limit
  | BsNotFound h => "blob `" +:+ h +:+ "` not found"
  | BsUncertain => "blob-store durability is uncertain; reopen before writing"
  end.

Record Index : Type := mkIndex {
  ix_sizes : gmap string N;
  ix_total_bytes : N;
  ix_orphan_entries : N;
  ix_orphan_bytes : N;
  ix_healthy : bool
}.
Definition Index_default : Index := mkIndex ∅ 0 0 0 true.
Definition index_len (ix : Index) : N := N.of_nat (size (ix_sizes ix)).

Record FsJobBlobStore : Type := mkFsJobBlobStore {
  bs_root : string;
  bs_caps : BlobCaps;
  bs_index : Index;
  bs_tmp_seq : N
}.
Definition set_index (ix : Index) (s : FsJobBlobStore) : FsJobBlobStore :=
  mkFsJobBlobStore (bs_root s) (bs_caps s) ix (bs_tmp_seq s).
Definition set_seq (n : N) (s : FsJobBlobStore) : FsJobBlobStore :=
  mkFsJobBlobStore (bs_root s) (bs_caps s) (bs_index s) n.
Definition unhealthy (s : FsJobBlobStore) : FsJobBlobStore :=
  let ix := bs_index s in
  set_index (mkIndex (ix_sizes ix) (ix_total_bytes ix) (ix_orphan_entries ix)
               (ix_orphan_bytes ix) false) s.

(** ** The directory *)

Inductive DirEntry : Type :=
  | EFile (content : bytes) (synced : bool)
  | EOther.

Abbreviation Directory := (gmap string DirEntry).

Record BlobDisk : Type := mkBlobDisk { bd_visible : Directory; bd_durable : Directory }.
Definition on_visible (f : Directory → Directory) (d : BlobDisk) : BlobDisk :=
  mkBlobDisk (f (bd_visible d)) (bd_durable d).
Definition dir_synced (d : BlobDisk) : BlobDisk := mkBlobDisk (bd_visible d) (bd_visible d).

(** A crash may shorten or spoil the content of a file that was not synced. *)
Inductive entry_crash : DirEntry → DirEntry → Prop :=
  | crash_synced b : entry_crash (EFile b true) (EFile b true)
  | crash_unsynced b b' synced : blen b' ≤ blen b → entry_crash (EFile b false) (EFile b' synced)
  | crash_other : entry_crash EOther EOther.

Definition dir_crash : Directory → Directory → Prop :=
  map_relation (fun _ => entry_crash) (fun _ _ => False) (fun _ _ => False).

(** What a stop leaves: a crash of the machine keeps the visible or the durable
    directory, the end of the process alone keeps both. *)
Inductive disk_crash (d : BlobDisk) : BlobDisk → Prop :=
  | machine_crash dir dir' :
      dir = bd_visible d ∨ dir = bd_durable d → dir_crash dir dir' → disk_crash d (mkBlobDisk dir' dir')
  | process_stop : disk_crash d d.

(** The order in which the operating system lists a directory. *)
Class DirOrder : Type := list_dir : Directory → list (string * DirEntry).
Class DirOrderLaw `{!DirOrder} : Prop := list_dir_all : ∀ d, list_dir d ≡ₚ map_to_list d.

(** The calls made on one entry while scanning. *)
Record EntryIo : Type := mkEntryIo {
  ei_next : result string unit;
  ei_file_type : result string unit;
  ei_metadata : result string unit;
  ei_open : result string unit;
  ei_reads : list (result string N)
}.
Record OpenIo : Type := mkOpenIo {
  oi_mkdir : result string unit;
  oi_read_dir : result string unit;
  oi_entry : string → EntryIo;
  oi_dir_sync : result string unit
}.
Record ReadIo : Type := mkReadIo { ri_open : result string unit; ri_read : result string unit }.

(** The calls of one [put]: the creation with a given sequence number, how many
    bytes are written before the write fails, the sync, the rename, the sync of
    the directory; and the read of a value that is already there. *)
Record PutIo : Type := mkPutIo {
  pi_pid : N;
  pi_create : N → result string unit;
  pi_write : result (string * N) unit;
  pi_sync : result string unit;
  pi_rename : result string unit;
  pi_dir_sync : result string unit;
  pi_existing : ReadIo
}.

(** ** Names *)

Fixpoint utf8_from (need : nat) (lo hi : N) (s : string) : bool :=
  match s with
  | EmptyString => Nat.eqb need 0
  | String c s =>
      let b := Ascii.N_of_ascii c in
      match need with
      | S k => in_range lo hi b && utf8_from k 128 191 s
      | O =>
          if in_range 0 127 b then utf8_from 0 0 0 s
          else if in_range 194 223 b then utf8_from 1 128 191 s
          else if N.eqb b 224 then utf8_from 2 160 191 s
          else if N.eqb b 237 then utf8_from 2 128 159 s
          else if in_range 225 239 b then utf8_from 2 128 191 s
          else if N.eqb b 240 then utf8_from 3 144 191 s
          else if in_range 241 243 b then utf8_from 3 128 191 s
          else if N.eqb b 244 then utf8_from 3 128 143 s
          else false
      end
  end.
(** [OsString::into_string]. *)
Definition is_utf8 (s : string) : bool := utf8_from 0 0 0 s.

Fixpoint strip_suffix (p s : string) : option string :=
  if decide (s = p) then Some ""
  else match s with
       | EmptyString => None
       | String a s => r ← strip_suffix p s; Some (String a r)
       end.

Definition parse_u32 (s : string) : option N := n ← parse_u64 s; try_from u32_MAX n.

Definition validate_hash (hash : string) : result BlobStoreError unit :=
  if lower_hex64 hash then Ok tt else Err (BsInvalidAddress hash).

Definition validate_temp_name (name : string) : result BlobStoreError unit :=
  let malformed := BsCorrupt ("malformed temporary file `" +:+ name +:+ "`") in
  body ← ok_or (value ← strip_prefix "." name; strip_suffix ".tmp" value) malformed;
  let parts := split_on DOT body in
  let hash := default "" (parts !! 0%nat) in
  let pid := part ← parts !! 1%nat; parse_u32 part in
  let sequence := part ← parts !! 2%nat; parse_u64 part in
  if bool_decide (is_Some (parts !! 3%nat))
     || match pid with None => true | Some pid => bool_decide (pid = 0) end
     || bool_decide (sequence = None)
  then Err malformed
  else
    map_err (fun _ => BsCorrupt ("temporary file `" +:+ name +:+ "` has an invalid digest"))
      (validate_hash hash).

(** [name.starts_with('.') && name.ends_with(".tmp")]. *)
Definition is_temp (name : string) : bool :=
  bool_decide (is_Some (strip_prefix "." name)) && bool_decide (is_Some (strip_suffix ".tmp" name)).

Definition temp_name (sha256 : string) (pid sequence : N) : string :=
  "." +:+ sha256 +:+ "." +:+ dec pid +:+ "." +:+ dec sequence +:+ ".tmp".

(** ** Operations *)

Definition blob_io (r : result string unit) : result BlobStoreError unit := map_err BsIo r.

Definition validate_blob_caps (caps : BlobCaps) : result BlobStoreError unit :=
  if bool_decide (bc_max_blob_bytes caps = 0) || bool_decide (bc_max_total_bytes caps = 0)
     || bool_decide (bc_max_blobs caps = 0)
  then Err (BsCorrupt "all reference blob-store limits must be non-zero")
  else Ok tt.

Definition saturating_add (a b : N) : N := N.min (a + b) u64_MAX.

Definition index_over (caps : BlobCaps) (entries total orphans : N) : bool :=
  bool_decide (bc_max_blobs caps < entries)
  || bool_decide (bc_max_total_bytes caps < saturating_add total orphans).

(** What [File::open] says of an entry that is no file. *)
Definition file_content (dir : Directory) (name : string) : result string bytes :=
  match dir !! name with
  | Some (EFile b _) => Ok b
  | Some EOther => Err "Is a directory (os error 21)"
  | None => Err "No such file or directory (os error 2)"
  end.

Section store.
  Context `{!Sha256}.

(** The read loop of [blob_hash_file]. *)
Fixpoint blob_hash_file_loop (fuel : nat) (path : string) (max_bytes : N) (r : Reader) (total : N)
    (h : sha_state) : option (result BlobStoreError string) :=
  match fuel with
  | O => None
  | S fuel =>
      match read r (64 * 1024) with
      | Err e => Some (Err (BsIo e))
      | Ok ([], _) => Some (Ok (sha256_hex h))
      | Ok (buf, r') =>
          let total := saturating_add total (blen buf) in
          if decide (max_bytes < total) then
            Some (Err (BsCorrupt ("blob `" +:+ path
                                  +:+ "` exceeds configured limit while hashing")))
          else blob_hash_file_loop fuel path max_bytes r' total (sha_update h buf)
      end
  end.

(** One more turn than bytes is enough ([blob_hash_file_loop_total]). *)
Definition blob_hash_file (io : EntryIo) (path : string) (content : bytes) (max_bytes : N) :
    result BlobStoreError string :=
  _ ← blob_io (ei_open io);
  default (Err (BsIo "")) (blob_hash_file_loop (S (length content)) path max_bytes
                             (mkReader content (ei_reads io)) 0 sha_new).

(** The branch of [open] for the temporary files that crashes left behind. *)
Definition scan_temp (caps : BlobCaps) (io : EntryIo) (name : string) (content : bytes)
    (ix : Index) : result BlobStoreError Index :=
  _ ← validate_temp_name name;
  _ ← blob_io (ei_metadata io);
  if decide (bc_max_blob_bytes caps < blen content) then
    Err (BsCorrupt ("temporary blob `" +:+ name +:+ "` exceeds the per-blob limit"))
  else
    let orphan_entries := saturating_add (ix_orphan_entries ix) 1 in
    orphan_bytes ← ok_or (usize_checked_add (ix_orphan_bytes ix) (blen content))
                     (BsCorrupt "temporary blob byte count overflow");
    if index_over caps (u64_add (index_len ix) orphan_entries) (ix_total_bytes ix) orphan_bytes then
      Err (BsCorrupt "temporary crash evidence exceeds configured store capacity")
    else Ok (mkIndex (ix_sizes ix) (ix_total_bytes ix) orphan_entries orphan_bytes (ix_healthy ix)).

(** The branch for blobs. *)
Definition scan_blob (caps : BlobCaps) (io : EntryIo) (root name : string) (content : bytes)
    (ix : Index) : result BlobStoreError Index :=
  _ ← validate_hash name;
  if decide (bc_max_blobs caps ≤ index_len ix) then
    Err (BsCorrupt ("recovered entries exceed configured limit " +:+ dec (bc_max_blobs caps)))
  else
    _ ← blob_io (ei_metadata io);
    let size := blen content in
    if decide (bc_max_blob_bytes caps < size) then
      Err (BsCorrupt ("blob `" +:+ name +:+ "` is " +:+ dec size
                      +:+ " bytes, over configured per-blob limit " +:+ dec (bc_max_blob_bytes caps)))
    else
      actual ← blob_hash_file io (root +:+ "/" +:+ name) content (bc_max_blob_bytes caps);
      if decide (actual ≠ name) then
        Err (BsCorrupt ("blob `" +:+ name +:+ "` hashes to `" +:+ actual +:+ "`"))
      else
        total ← ok_or (usize_checked_add (ix_total_bytes ix) size)
                  (BsCorrupt "recovered byte count overflow");
        if index_over caps (u64_add (u64_add (index_len ix) 1) (ix_orphan_entries ix)) total
             (ix_orphan_bytes ix)
        then Err (BsCorrupt "recovered entries/bytes exceed configured finite store limits")
        else Ok (mkIndex (<[name := size]> (ix_sizes ix)) total (ix_orphan_entries ix)
                   (ix_orphan_bytes ix) (ix_healthy ix)).

Definition scan_entry (caps : BlobCaps) (root : string) (io : EntryIo) (name : string)
    (entry : DirEntry) (ix : Index) : result BlobStoreError Index :=
  _ ← blob_io (ei_next io);
  _ ← blob_io (ei_file_type io);
  match entry with
  | EOther => Err (BsCorrupt ("unexpected non-file entry `" +:+ root +:+ "/" +:+ name +:+ "`"))
  | EFile content _ =>
      if negb (is_utf8 name) then Err (BsCorrupt "non-UTF-8 filename")
      else if is_temp name then scan_temp caps io name content ix
      else scan_blob caps io root name content ix
  end.

Fixpoint scan (caps : BlobCaps) (root : string) (io : string → EntryIo)
    (entries : list (string * DirEntry)) (ix : Index) : result BlobStoreError Index :=
  match entries with
  | [] => Ok ix
  | (name, entry) :: entries =>
      ix' ← scan_entry caps root (io name) name entry ix; scan caps root io entries ix'
  end.

Definition diskM : Type → Type := stateR BlobDisk BlobStoreError.
#[local] Instance diskM_ret : MRet diskM := stateR_ret.
#[local] Instance diskM_bind : MBind diskM := stateR_bind.

Definition store_open `{!DirOrder} (io : OpenIo) (root : string) (caps : BlobCaps) :
    diskM FsJobBlobStore :=
  _ ← lift_result (validate_blob_caps caps);
  _ ← lift_result (blob_io (oi_mkdir io));
  _ ← lift_result (blob_io (oi_read_dir io));
  entries ← gets (fun d => list_dir (bd_visible d));
  index ← lift_result (scan caps root (oi_entry io) entries Index_default);
  _ ← lift_result (blob_io (oi_dir_sync io));
  _ ← modify dir_synced;
  mret (mkFsJobBlobStore root caps index 0).

Definition read_verified (io : ReadIo) (sha256 : string) (expected_size : N)
    (s : FsJobBlobStore) (dir : Directory) : result BlobStoreError bytes :=
  content ← map_err (fun e => BsCorrupt ("blob `" +:+ sha256 +:+ "` unreadable: " +:+ e))
              (_ ← ri_open io; file_content dir sha256);
  _ ← blob_io (ri_read io);
  let max := bc_max_blob_bytes (bs_caps s) in
  let b := take (N.to_nat (u64_add max 1)) content in
  if decide (max < blen b) then
    Err (BsCorrupt ("blob `" +:+ sha256 +:+ "` grew past configured limit"))
  else if decide (blen b ≠ expected_size) then
    Err (BsCorrupt ("blob `" +:+ sha256 +:+ "` size changed: expected " +:+ dec expected_size
                    +:+ ", got " +:+ dec (blen b)))
  else if decide (hash_bytes b ≠ sha256) then
    Err (BsCorrupt ("blob `" +:+ sha256 +:+ "` hashes to `" +:+ hash_bytes b +:+ "`"))
  else Ok b.

(** The bounded search of [create_temp] for a name that is free. *)
Fixpoint create_temp (turns : nat) (io : PutIo) (sha256 : string) (s : FsJobBlobStore)
    (d : BlobDisk) : result BlobStoreError string * FsJobBlobStore * BlobDisk :=
  match turns with
  | O => (Err (BsCorrupt "temporary blob namespace exhausted within configured entry limit"), s, d)
  | S turns =>
      let sequence := bs_tmp_seq s in
      let s := set_seq (u64_add sequence 1) s in
      let path := temp_name sha256 (pi_pid io) sequence in
      match pi_create io sequence with
      | Err e => (Err (BsIo e), s, d)
      | Ok _ =>
          if decide (is_Some (bd_visible d !! path)) then create_temp turns io sha256 s d
          else (Ok path, s, on_visible <[path := EFile [] false]> d)
      end
  end.

Definition create_turns (caps : BlobCaps) : nat := S (N.to_nat (bc_max_blobs caps)).

Definition put_new_blob (io : PutIo) (b : bytes) (sha256 : string) (size : N)
    (s : FsJobBlobStore) (d : BlobDisk) :
    result BlobStoreError StoredBlob * FsJobBlobStore * BlobDisk :=
  match create_temp (create_turns (bs_caps s)) io sha256 s d with
  | (Err e, s, d) => (Err e, s, d)
  | (Ok tmp, s, d) =>
      let written content synced := on_visible <[tmp := EFile content synced]> d in
      match pi_write io, pi_sync io, pi_rename io, pi_dir_sync io with
      | Err (e, n), _, _, _ => (Err (BsIo e), unhealthy s, written (take (N.to_nat n) b) false)
      | Ok _, Err e, _, _ => (Err (BsIo e), unhealthy s, written b false)
      | Ok _, Ok _, Err e, _ => (Err (BsIo e), unhealthy s, written b true)
      | Ok _, Ok _, Ok _, r =>
          let d := on_visible (fun dir => <[sha256 := EFile b true]> (delete tmp dir)) d in
          match r with
          | Err e => (Err (BsIo e), unhealthy s, d)
          | Ok _ =>
              let ix := bs_index s in
              (Ok (mkStoredBlob sha256 size),
               set_index (mkIndex (<[sha256 := size]> (ix_sizes ix))
                            (saturating_add (ix_total_bytes ix) size) (ix_orphan_entries ix)
                            (ix_orphan_bytes ix) (ix_healthy ix)) s,
               dir_synced d)
          end
      end
  end.

(** The capacity checks of [put]. *)
Definition room_for (size : N) (s : FsJobBlobStore) : result BlobStoreError unit :=
  let ix := bs_index s in
  let limit := bc_max_total_bytes (bs_caps s) in
  if decide (bc_max_blobs (bs_caps s) ≤ u64_add (index_len ix) (ix_orphan_entries ix)) then
    Err (BsEntryLimit (bc_max_blobs (bs_caps s)))
  else
    occupied ← ok_or (usize_checked_add (ix_total_bytes ix) (ix_orphan_bytes ix))
                 (BsByteLimit (ix_total_bytes ix) size limit);
    next ← ok_or (usize_checked_add occupied size) (BsByteLimit occupied size limit);
    if decide (limit < next) then Err (BsByteLimit occupied size limit) else Ok tt.

(** [put] of a value that the index already has. *)
Definition put_existing (io : PutIo) (b : bytes) (sha256 : string) (existing : N)
    (s : FsJobBlobStore) (dir : Directory) : result BlobStoreError StoredBlob :=
  if decide (existing ≠ blen b) then
    Err (BsCorrupt ("indexed size for `" +:+ sha256 +:+ "` is " +:+ dec existing +:+ ", expected "
                    +:+ dec (blen b)))
  else
    existing_bytes ← read_verified (pi_existing io) sha256 existing s dir;
    if decide (existing_bytes ≠ b) then
      Err (BsCorrupt ("existing blob `" +:+ sha256 +:+ "` differs from addressed bytes"))
    else Ok (mkStoredBlob sha256 (blen b)).

Definition blob_put (io : PutIo) (b : bytes) (s : FsJobBlobStore) (d : BlobDisk) :
    result BlobStoreError StoredBlob * FsJobBlobStore * BlobDisk :=
  if decide (bc_max_blob_bytes (bs_caps s) < blen b) then
    (Err (BsBlobTooLarge (blen b) (bc_max_blob_bytes (bs_caps s))), s, d)
  else
    let sha256 := hash_bytes b in
    if negb (ix_healthy (bs_index s)) then (Err BsUncertain, s, d)
    else
      match ix_sizes (bs_index s) !! sha256 with
      | Some existing => (put_existing io b sha256 existing s (bd_visible d), s, d)
      | None =>
          match room_for (blen b) s with
          | Err e => (Err e, s, d)
          | Ok _ => put_new_blob io b sha256 (blen b) s d
          end
      end.

Definition corrupt_contract {A} (r : result ContractError A) : result BlobStoreError A :=
  map_err (fun e => BsCorrupt (ContractError_to_string e)) r.

Definition put_ref (io : PutIo) (media_type : string) (b : bytes) (s : FsJobBlobStore)
    (d : BlobDisk) : result BlobStoreError BlobRefV1 * FsJobBlobStore * BlobDisk :=
  let '(r, s', d') := blob_put io b s d in
  (stored ← r;
   let reference := mkBlobRefV1 ("sha256:" +:+ sb_sha256 stored) (sb_size stored) media_type in
   _ ← corrupt_contract (BlobRefV1_validate reference);
   Ok reference, s', d').

Definition blob_get (io : ReadIo) (sha256 : string) (s : FsJobBlobStore) (dir : Directory) :
    result BlobStoreError bytes :=
  _ ← validate_hash sha256;
  size ← ok_or (ix_sizes (bs_index s) !! sha256) (BsNotFound sha256);
  read_verified io sha256 size s dir.

Definition get_ref (io : ReadIo) (reference : BlobRefV1) (s : FsJobBlobStore) (dir : Directory) :
    result BlobStoreError bytes :=
  _ ← map_err (fun e => BsInvalidAddress (ContractError_to_string e)) (BlobRefV1_validate reference);
  sha256 ← ok_or (strip_prefix "sha256:" (br_digest reference))
             (BsInvalidAddress (br_digest reference));
  b ← blob_get io sha256 s dir;
  if decide (blen b ≠ br_size reference) then
    Err (BsCorrupt ("blob reference size " +:+ dec (br_size reference)
                    +:+ " does not match stored size " +:+ dec (blen b)))
  else Ok b.

Definition contains (sha256 : string) (s : FsJobBlobStore) : bool :=
  is_ok (validate_hash sha256) && bool_decide (is_Some (ix_sizes (bs_index s) !! sha256)).
Definition store_len (s : FsJobBlobStore) : N := index_len (bs_index s).
Definition store_total_bytes (s : FsJobBlobStore) : N := ix_total_bytes (bs_index s).
Definition store_is_empty (s : FsJobBlobStore) : bool := bool_decide (store_len s = 0).

(** *** The traits of the contract *)

Definition blob_contract_err {A} (r : result BlobStoreError A) : result ContractError A :=
  map_err (fun e => Invalid (BlobStoreError_to_string e)) r.

Definition store_verify_available (io : ReadIo) (blob : BlobRefV1) (s : FsJobBlobStore)
    (dir : Directory) : result ContractError unit :=
  blob_contract_err (_ ← get_ref io blob s dir; Ok tt).
Definition store_put_checkpoint (io : PutIo) (media_type : string) (b : bytes)
    (s : FsJobBlobStore) (d : BlobDisk) :
    result ContractError BlobRefV1 * FsJobBlobStore * BlobDisk :=
  let '(r, s', d') := put_ref io media_type b s d in (blob_contract_err r, s', d').
Definition store_get_checkpoint (io : ReadIo) (blob : BlobRefV1) (s : FsJobBlobStore)
    (dir : Directory) : result ContractError bytes :=
  blob_contract_err (get_ref io blob s dir).
End store.
