(* ===== verification/BlobLaws.v ===== *)
(** * The laws of the blob store

    Over any life of a store (puts, failing system calls, crashes and reopenings)
    every value it acknowledged stays readable, it can always be opened again, the
    directory stays within the configured limits, crash evidence included, and a
    value that fits is accepted. *)

From S2P Require Import Prelude GxShape GxHash GxWire FnCrypto FnTypes FnWire Journal HomeLedger.
From S2P Require Import CustodyArchive BlobFs.

(** ** Directories as entries and bytes *)

Definition entry_len (e : DirEntry) : N := match e with EFile b _ => blen b | EOther => 0 end.
Definition list_bytes (l : list (string * DirEntry)) : N :=
  foldr (fun x a => entry_len x.2 + a) 0 l.
Definition dir_bytes (dir : Directory) : N := list_bytes (map_to_list dir).
Definition dir_entries (dir : Directory) : N := N.of_nat (size dir).

#[export] Instance list_bytes_perm : Proper ((≡ₚ) ==> (=)) list_bytes.
Proof.
  intros l k P. induction P as [|x l k _ IH|x y l|l k m _ IH1 _ IH2]; cbn; [done| | |congruence].
  - unfold list_bytes in IH. lia.
  - lia.
Qed.

Lemma dir_bytes_insert dir name e :
  dir !! name = None → dir_bytes (<[name := e]> dir) = entry_len e + dir_bytes dir.
Proof. intros Hn. unfold dir_bytes. by rewrite (map_to_list_insert _ _ _ Hn). Qed.

Lemma dir_bytes_delete dir name e :
  dir !! name = Some e → dir_bytes dir = entry_len e + dir_bytes (delete name dir).
Proof.
  intros Hn. rewrite <- (insert_delete_id _ _ _ Hn) at 1.
  rewrite dir_bytes_insert; [done|]. apply lookup_delete_eq.
Qed.

Lemma dir_entries_insert dir name e :
  dir !! name = None → dir_entries (<[name := e]> dir) = 1 + dir_entries dir.
Proof. intros Hn. unfold dir_entries. rewrite map_size_insert_None by done. lia. Qed.

Lemma dir_entries_delete dir name e :
  dir !! name = Some e → dir_entries dir = 1 + dir_entries (delete name dir).
Proof.
  intros Hn. rewrite <- (insert_delete_id _ _ _ Hn) at 1.
  rewrite dir_entries_insert; [done|]. apply lookup_delete_eq.
Qed.

(** ** Names *)

Lemma strip_suffix_app p s : strip_suffix p (s +:+ p) = Some s.
Proof.
  induction s as [|a s IH].
  - change ("" +:+ p) with p. destruct p; cbn; by rewrite decide_True.
  - rewrite string_append_cons. cbn [strip_suffix]. rewrite decide_False.
    + rewrite IH. done.
    + intros E. apply (f_equal slen) in E. unfold slen in E. cbn in E.
      rewrite string_length_append in E. lia.
Qed.

Lemma pretty_N_char_value d :
  d < 10 → Ascii.N_of_ascii (pretty_N_char d) - 48 = d.
Proof.
  intros Hd. assert (d = 0 ∨ d = 1 ∨ d = 2 ∨ d = 3 ∨ d = 4 ∨ d = 5 ∨ d = 6 ∨ d = 7 ∨ d = 8 ∨ d = 9)
    as E by lia. by destruct_or? E; subst.
Qed.

Lemma parse_digits_pretty x s :
  x ≤ u64_MAX → parse_digits 0 (pretty_N_go x s) = parse_digits x s.
Proof.
  revert s. induction (N.lt_wf_0 x) as [x _ IH]; intros s Hs.
  destruct (decide (0 < x)) as [Hx|Hx]; [|by replace x with 0 by lia].
  rewrite pretty_N_go_step by done. pose proof (N.div_lt x 10 Hx ltac:(lia)).
  rewrite IH by lia. cbn [parse_digits]. rewrite pretty_N_char_digit.
  rewrite pretty_N_char_value by (by apply N.mod_lt).
  rewrite N.mul_comm, <- N.div_mod'. by rewrite decide_False by lia.
Qed.

Lemma parse_u64_dec n : n ≤ u64_MAX → parse_u64 (dec n) = Some n.
Proof.
  intros Hn. pose proof (dec_digits n) as Hd. pose proof (dec_nonempty n) as Hne.
  assert (parse_digits 0 (dec n) = Some n) as Hp.
  { unfold dec, pretty, pretty_N. case_decide; [by subst|]. by rewrite parse_digits_pretty. }
  unfold parse_u64. destruct (dec n) as [|c s]; [done|]. rewrite decide_False; [done|].
  intros E. cbn in Hd. by rewrite E in Hd.
Qed.

Lemma parse_u32_dec n : n ≤ u32_MAX → parse_u32 (dec n) = Some n.
Proof.
  intros Hn. unfold parse_u32. rewrite parse_u64_dec by (unfold u32_MAX, u64_MAX in *; lia).
  by apply try_from_Some.
Qed.

Lemma ascii_is_utf8 s : all_bytes (in_range 0 127) s = true → is_utf8 s = true.
Proof.
  unfold is_utf8. induction s as [|c s IH]; [done|]. cbn. intros [Hc Hs]%andb_true_iff.
  by rewrite Hc, IH.
Qed.

Lemma hex_is_ascii s : all_bytes is_lower_hex s = true → all_bytes (in_range 0 127) s = true.
Proof. apply all_bytes_impl. unfold is_lower_hex, in_range. intros b Hb.
  rewrite ?orb_true_iff, ?andb_true_iff, ?N.leb_le in *. lia. Qed.
Lemma digits_are_ascii s : all_bytes is_ascii_digit s = true → all_bytes (in_range 0 127) s = true.
Proof. apply all_bytes_impl. unfold is_ascii_digit, in_range. intros b Hb.
  rewrite ?andb_true_iff, ?N.leb_le in *. lia. Qed.

Definition valid_pid (pid : N) : Prop := 0 < pid ∧ pid ≤ u32_MAX.

(** A temporary file's name is one that a scan takes for a temporary file. *)
Lemma temp_name_valid hash pid n :
  lower_hex64 hash = true → valid_pid pid → n ≤ u64_MAX →
  validate_temp_name (temp_name hash pid n) = Ok tt ∧ is_temp (temp_name hash pid n) = true
  ∧ is_utf8 (temp_name hash pid n) = true.
Proof.
  intros Hh [Hp0 Hp] Hn. assert (all_bytes is_lower_hex hash = true) as Hx
    by (unfold lower_hex64 in Hh; by apply andb_true_iff in Hh as [_ ?]).
  set (body := hash +:+ String DOT (dec pid +:+ String DOT (dec n))).
  assert (temp_name hash pid n = String DOT (body +:+ ".tmp")) as E.
  { unfold temp_name, body. repeat (rewrite string_append_assoc || rewrite string_append_cons).
    reflexivity. }
  rewrite E. split_and!.
  - unfold validate_temp_name. change (strip_prefix "." (String DOT ?x)) with (Some x).
    cbn [mbind option_bind]. rewrite strip_suffix_app. cbn [ok_or mbind result_bind].
    unfold body. rewrite !split_on_cons, split_on_last
      by (first [by apply lower_hex_no_dot|by apply digits_no_dot, dec_digits]).
    cbn [lookup list_lookup mbind option_bind default].
    rewrite parse_u32_dec, parse_u64_dec by done. cbn.
    rewrite bool_decide_eq_false_2 by lia. cbn. unfold validate_hash. by rewrite Hh.
  - unfold is_temp. change (strip_prefix "." (String DOT ?x)) with (Some x).
    rewrite <- string_append_cons, strip_suffix_app. done.
  - apply ascii_is_utf8. rewrite <- string_append_cons, all_bytes_app. unfold body.
    cbn. rewrite all_bytes_app. cbn. rewrite all_bytes_app. cbn.
    by rewrite hex_is_ascii, !digits_are_ascii by (done || apply dec_digits).
Qed.

Lemma hash_not_temp hash :
  lower_hex64 hash = true → is_temp hash = false ∧ is_utf8 hash = true.
Proof.
  unfold lower_hex64. intros [Hl Hx]%andb_true_iff. split.
  - unfold is_temp. destruct (strip_prefix "." hash) eqn:E; [exfalso|done].
    destruct hash as [|c h]; [done|]. cbn [strip_prefix] in E. case_decide as Ec; [|done].
    subst c. done.
  - by apply ascii_is_utf8, hex_is_ascii.
Qed.

(** The names [create_temp] tries are distinct. *)
Lemma temp_name_inj hash pid m n : temp_name hash pid m = temp_name hash pid n → m = n.
Proof.
  unfold temp_name. intros E. do 5 apply append_inv_head in E.
  apply (f_equal (strip_suffix ".tmp")) in E. rewrite !strip_suffix_app in E.
  injection E as E. by apply dec_inj.
Qed.

(** ** What a scan accepts *)

Section laws.
  Context `{!Sha256}.

(** An entry that a scan accepts. *)
Definition entry_ok (caps : BlobCaps) (name : string) (e : DirEntry) : Prop :=
  ∃ b synced, e = EFile b synced ∧ blen b ≤ bc_max_blob_bytes caps ∧ is_utf8 name = true
    ∧ if is_temp name then validate_temp_name name = Ok tt
      else lower_hex64 name = true ∧ hash_bytes b = name.

(** The index without the checks. *)
Definition add_entry (ix : Index) (x : string * DirEntry) : Index :=
  let len := entry_len x.2 in
  if is_temp x.1
  then mkIndex (ix_sizes ix) (ix_total_bytes ix) (ix_orphan_entries ix + 1)
         (ix_orphan_bytes ix + len) (ix_healthy ix)
  else mkIndex (<[x.1 := len]> (ix_sizes ix)) (ix_total_bytes ix + len) (ix_orphan_entries ix)
         (ix_orphan_bytes ix) (ix_healthy ix).

Definition ix_entries (ix : Index) : N := index_len ix + ix_orphan_entries ix.
Definition ix_bytes (ix : Index) : N := ix_total_bytes ix + ix_orphan_bytes ix.
Definition in_caps (caps : BlobCaps) (ix : Index) : Prop :=
  ix_entries ix ≤ bc_max_blobs caps ∧ ix_bytes ix ≤ bc_max_total_bytes caps.

(** The limits leave room in a [u64]. *)
Definition caps_fit (caps : BlobCaps) : Prop :=
  0 < bc_max_blob_bytes caps < u64_MAX ∧ 0 < bc_max_total_bytes caps < u64_MAX
  ∧ 0 < bc_max_blobs caps < u64_MAX.

Lemma add_entry_counts ix x :
  ix_sizes ix !! x.1 = None →
  ix_entries (add_entry ix x) = ix_entries ix + 1
  ∧ ix_bytes (add_entry ix x) = ix_bytes ix + entry_len x.2.
Proof.
  intros Hn. unfold add_entry, ix_entries, ix_bytes, index_len.
  destruct (is_temp x.1); cbn; [lia|]. rewrite map_size_insert_None by done. lia.
Qed.

Definition entry_io_ok (io : EntryIo) : Prop :=
  ei_next io = Ok tt ∧ ei_file_type io = Ok tt ∧ ei_metadata io = Ok tt ∧ ei_open io = Ok tt
  ∧ Forall (fun r => is_ok r = true) (ei_reads io).

Context `{!ShaStreaming}.

Lemma blob_hash_file_loop_total fuel path max r total h :
  (length (rd_rest r) < fuel)%nat → is_Some (blob_hash_file_loop fuel path max r total h).
Proof.
  revert r total h. induction fuel as [|fuel IH]; intros r total h Hf; [lia|]. cbn.
  destruct (read r (64 * 1024)) as [[[|b buf] r']|e] eqn:E; [by eexists| |by eexists].
  case_decide; [by eexists|]. apply IH. revert E. unfold read.
  assert (∀ n : nat, take n (rd_rest r) = b :: buf → (length (drop n (rd_rest r)) < fuel)%nat) as Hd.
  { intros n En. apply (f_equal length) in En. rewrite length_take in En. rewrite length_drop.
    cbn in En. lia. }
  destruct (rd_script r) as [|[g|e] script]; intros [= En <-]; exact (Hd _ En).
Qed.

Lemma blob_hash_file_loop_ok fuel path max r total h d :
  blob_hash_file_loop fuel path max r total h = Some (Ok d) → d = sha256_hex (sha_update h (rd_rest r)).
Proof.
  revert r total h. induction fuel as [|fuel IH]; intros r total h; [done|]. cbn.
  destruct (read r (64 * 1024)) as [[buf r']|e] eqn:E; [|done].
  assert (buf ++ rd_rest r' = rd_rest r ∧ (buf = [] → rd_rest r = [])) as [Ea En].
  { revert E. unfold read. destruct (rd_script r) as [|[g|e] script]; intros [= <- <-];
      cbn [rd_rest]; (split; [apply take_drop|]); intros Hn; (eapply take_eq_nil; [|exact Hn]); lia. }
  destruct buf as [|b buf]; [intros [= <-]; by rewrite En, sha_update_nil|].
  case_decide; [done|]. intros Hl%IH. by rewrite Hl, sha_update_app, Ea.
Qed.

Lemma blob_hash_file_loop_succeeds fuel path max r total h :
  reads_succeed r → (length (rd_rest r) < fuel)%nat → total + blen (rd_rest r) ≤ max →
  max < u64_MAX →
  blob_hash_file_loop fuel path max r total h = Some (Ok (sha256_hex (sha_update h (rd_rest r)))).
Proof.
  revert r total h. induction fuel as [|fuel IH]; intros r total h Hs Hf Ht Hm; [lia|]. cbn.
  destruct (read_succeeds r (64 * 1024) Hs ltac:(lia)) as (n & script & -> & Hn & _ & Hs').
  destruct (take n (rd_rest r)) as [|b buf] eqn:E.
  { apply take_eq_nil in E; [|done]. by rewrite E, sha_update_nil. }
  pose proof (take_drop n (rd_rest r)) as Etd. rewrite E in Etd.
  assert (blen (rd_rest r) = blen (b :: buf) + blen (drop n (rd_rest r))) as El
    by (rewrite <- Etd at 1; apply blen_app).
  unfold saturating_add. rewrite decide_False by lia. rewrite IH; cbn [rd_rest].
  - by rewrite sha_update_app, Etd.
  - done.
  - unfold blen in El. cbn in El. lia.
  - lia.
  - done.
Qed.

Lemma blob_hash_file_ok io path b max d : blob_hash_file io path b max = Ok d → d = hash_bytes b.
Proof.
  unfold blob_hash_file. intros (_ & _ & E)%bind_Ok.
  destruct (blob_hash_file_loop_total (S (length b)) path max (mkReader b (ei_reads io)) 0 sha_new
              ltac:(cbn; lia)) as [r Hr].
  rewrite Hr in E. cbn in E. subst r. by apply blob_hash_file_loop_ok in Hr.
Qed.

Lemma blob_hash_file_succeeds io path b max :
  entry_io_ok io → blen b ≤ max → max < u64_MAX → blob_hash_file io path b max = Ok (hash_bytes b).
Proof.
  intros (_ & _ & _ & Ho & Hr) Hb Hm. unfold blob_hash_file. rewrite Ho. cbn [blob_io map_err mbind result_bind].
  rewrite blob_hash_file_loop_succeeds; cbn; try done; lia.
Qed.

Lemma index_over_false caps entries total orphans :
  index_over caps entries total orphans = false → bc_max_total_bytes caps < u64_MAX →
  entries ≤ bc_max_blobs caps ∧ total + orphans ≤ bc_max_total_bytes caps.
Proof. unfold index_over, saturating_add. intros [? ?]%orb_false_iff ?. to_prop. lia. Qed.

Lemma index_within caps entries total orphans :
  entries ≤ bc_max_blobs caps → total + orphans ≤ bc_max_total_bytes caps →
  index_over caps entries total orphans = false.
Proof.
  unfold index_over, saturating_add. intros ? ?.
  apply orb_false_iff; split; apply bool_decide_eq_false_2; lia.
Qed.

Lemma scan_temp_Ok caps io name b s ix ix' :
  caps_fit caps → in_caps caps ix → is_temp name = true → is_utf8 name = true →
  scan_temp caps io name b ix = Ok ix' →
  entry_ok caps name (EFile b s) ∧ ix' = add_entry ix (name, EFile b s) ∧ in_caps caps ix'.
Proof.
  intros ((_ & Hm1) & (_ & Hm2) & (_ & Hm3)) [He Hb] Ht Hu. unfold scan_temp, ix_entries, ix_bytes in *.
  intros ([] & Hv & E)%bind_Ok. apply bind_Ok in E as (_ & _ & E). case_decide as Hl; [done|].
  apply bind_Ok in E as (ob & (Hob & _)%ok_or_Ok%usize_checked_add_Some & E).
  destruct (index_over _ _ _ _) eqn:Eo; [done|]. injection E as <-.
  unfold saturating_add in *. rewrite N.min_l in * by lia.
  apply index_over_false in Eo as [Eo1 Eo2]; [|done]. rewrite u64_add_exact in Eo1 by lia.
  split_and!.
  - exists b, s. rewrite Ht. split_and!; [done|lia|done|done].
  - unfold add_entry. cbn [fst snd entry_len]. rewrite Ht. by rewrite Hob.
  - split; unfold ix_entries, ix_bytes, index_len in *; cbn in *; lia.
Qed.

Lemma scan_blob_Ok caps io root name b s ix ix' :
  caps_fit caps → in_caps caps ix → is_temp name = false → is_utf8 name = true →
  ix_sizes ix !! name = None → scan_blob caps io root name b ix = Ok ix' →
  entry_ok caps name (EFile b s) ∧ ix' = add_entry ix (name, EFile b s) ∧ in_caps caps ix'.
Proof.
  intros ((_ & Hm1) & (_ & Hm2) & (_ & Hm3)) [He Hb] Ht Hu Hn. unfold scan_blob, ix_entries, ix_bytes in *.
  intros ([] & Hv & E)%bind_Ok. case_decide as Hc; [done|]. apply bind_Ok in E as (_ & _ & E).
  case_decide as Hl; [done|]. apply bind_Ok in E as (actual & Ha%blob_hash_file_ok & E).
  case_decide as Hd; [done|]. apply bind_Ok in E as (total & (Htot & _)%ok_or_Ok%usize_checked_add_Some & E).
  destruct (index_over _ _ _ _) eqn:Eo; [done|]. injection E as <-.
  apply index_over_false in Eo as [Eo1 Eo2]; [|done]. rewrite !u64_add_exact in Eo1 by (rewrite ?u64_add_exact; lia).
  split_and!.
  - exists b, s. rewrite Ht. split_and!; [done|lia|done| |congruence].
    unfold validate_hash in Hv. by destruct (lower_hex64 name).
  - unfold add_entry. cbn [fst snd entry_len]. rewrite Ht. by rewrite Htot.
  - split; unfold ix_entries, ix_bytes, index_len in *; cbn in *; [|lia].
    rewrite map_size_insert_None by done. lia.
Qed.

Lemma scan_entry_Ok caps root io name e ix ix' :
  caps_fit caps → in_caps caps ix → ix_sizes ix !! name = None →
  scan_entry caps root io name e ix = Ok ix' →
  entry_ok caps name e ∧ ix' = add_entry ix (name, e) ∧ in_caps caps ix'.
Proof.
  intros Hf Hc Hn. unfold scan_entry. intros (_ & _ & E)%bind_Ok. apply bind_Ok in E as (_ & _ & E).
  destruct e as [b s|]; [|done]. destruct (is_utf8 name) eqn:Hu; [|done]. cbn in E.
  destruct (is_temp name) eqn:Ht; [by eapply scan_temp_Ok|by eapply scan_blob_Ok].
Qed.

Lemma scan_entry_succeeds caps root io name e ix :
  caps_fit caps → in_caps caps ix → ix_sizes ix !! name = None → entry_io_ok io →
  entry_ok caps name e → in_caps caps (add_entry ix (name, e)) →
  scan_entry caps root io name e ix = Ok (add_entry ix (name, e)).
Proof.
  intros ((_ & Hm1) & (_ & Hm2) & (_ & Hm3)) [He Hb] Hn Hio (b & s & -> & Hl & Hu & Hk) [He' Hb'].
  pose proof (add_entry_counts ix (name, EFile b s) Hn) as [C1 C2]. rewrite C1 in He'. rewrite C2 in Hb'.
  cbn [fst snd entry_len] in *. pose proof Hio as (H1 & H2 & H3 & _ & _).
  unfold scan_entry. rewrite H1, H2, Hu. cbn [blob_io map_err mbind result_bind negb].
  unfold add_entry. cbn [fst snd entry_len]. unfold ix_entries, ix_bytes in *. destruct (is_temp name) eqn:Ht.
  - unfold scan_temp. rewrite Hk, H3. cbn [blob_io map_err mbind result_bind]. rewrite decide_False by lia.
    unfold usize_checked_add. rewrite decide_True by (unfold usize_MAX; lia). cbn [ok_or mbind result_bind].
    unfold saturating_add at 1. rewrite N.min_l by lia.
    rewrite index_within by (rewrite ?u64_add_exact; lia).
    unfold saturating_add. by rewrite N.min_l by lia.
  - destruct Hk as [Hh Hk]. unfold scan_blob, validate_hash. rewrite Hh, H3.
    cbn [blob_io map_err mbind result_bind]. rewrite !decide_False by lia.
    rewrite blob_hash_file_succeeds by done. cbn [mbind result_bind]. rewrite decide_False by tauto.
    unfold usize_checked_add. rewrite decide_True by (unfold usize_MAX; lia). cbn [ok_or mbind result_bind].
    rewrite index_within by (rewrite ?u64_add_exact; rewrite ?u64_add_exact; lia). done.
Qed.

(** *** Scans of a listing *)

Definition add_all (ix : Index) (l : list (string * DirEntry)) : Index := foldl add_entry ix l.

(** Names that are new to the index. *)
Definition fresh_names (ix : Index) (l : list (string * DirEntry)) : Prop :=
  NoDup l.*1 ∧ Forall (fun x => ix_sizes ix !! x.1 = None) l.

Lemma fresh_names_cons ix x l :
  fresh_names ix (x :: l) → ix_sizes ix !! x.1 = None ∧ fresh_names (add_entry ix x) l.
Proof.
  intros [[Hx Nd]%NoDup_cons [Hf F]%Forall_cons]. split; [done|]. split; [done|].
  apply Forall_forall. intros y Hy. rewrite Forall_forall in F. unfold add_entry.
  destruct (is_temp x.1); cbn; [by apply F|]. rewrite lookup_insert_ne; [by apply F|].
  intros E. apply Hx. rewrite E. by apply list_elem_of_fmap_2.
Qed.

Lemma add_all_counts l ix :
  fresh_names ix l →
  ix_entries (add_all ix l) = ix_entries ix + N.of_nat (length l)
  ∧ ix_bytes (add_all ix l) = ix_bytes ix + list_bytes l.
Proof.
  revert ix. induction l as [|x l IH]; intros ix F; cbn; [lia|].
  apply fresh_names_cons in F as [Hx F]. destruct (IH _ F) as [E1 E2].
  pose proof (add_entry_counts ix x Hx) as [C1 C2]. unfold add_all in *.
  rewrite E1, E2, C1, C2. unfold list_bytes. lia.
Qed.

Lemma add_all_healthy l ix : ix_healthy (add_all ix l) = ix_healthy ix.
Proof.
  revert ix. induction l as [|x l IH]; intros ix; cbn; [done|]. unfold add_all in IH. rewrite IH.
  unfold add_entry. by destruct (is_temp _).
Qed.

Lemma add_all_lookup l ix name n :
  fresh_names ix l →
  ix_sizes (add_all ix l) !! name = Some n
  ↔ ix_sizes ix !! name = Some n
    ∨ is_temp name = false ∧ ∃ e, (name, e) ∈ l ∧ entry_len e = n.
Proof.
  revert ix. induction l as [|[k e] l IH]; intros ix F; cbn.
  { split; [by left|]. intros [?|(_ & e & He & _)]; [done|]. by apply not_elem_of_nil in He. }
  pose proof F as [[Hk _]%NoDup_cons _]. apply fresh_names_cons in F as [Hx F]. cbn in Hx.
  unfold add_all in IH. rewrite IH by done. unfold add_entry. cbn [fst snd].
  destruct (is_temp k) eqn:Ht; cbn.
  - split; [intros [?|(? & e' & ? & ?)]; [by left|]|intros [?|(? & e' & Hin & ?)]; [by left|]]; right.
    + split; [done|]. exists e'. split; [by right|done].
    + split; [done|]. exists e'. split; [|done]. apply elem_of_cons in Hin as [[= -> ->]|?]; congruence.
  - destruct (decide (k = name)) as [->|Hne].
    + rewrite lookup_insert_eq. split.
      * intros [[= <-]|(_ & e' & Hin & _)].
        -- right. split; [done|]. exists e. split; [by left|done].
        -- exfalso. apply Hk. by apply (list_elem_of_fmap_2 fst) in Hin.
      * intros [?|(_ & e' & Hin & <-)]; [congruence|]. left.
        apply elem_of_cons in Hin as [[= ->]|Hin]; [done|].
        exfalso. apply Hk. by apply (list_elem_of_fmap_2 fst) in Hin.
    + rewrite lookup_insert_ne by done. setoid_rewrite elem_of_cons. naive_solver.
Qed.

Lemma scan_Ok caps root io l ix ix' :
  caps_fit caps → in_caps caps ix → fresh_names ix l → scan caps root io l ix = Ok ix' →
  Forall (fun x => entry_ok caps x.1 x.2) l ∧ ix' = add_all ix l ∧ in_caps caps ix'.
Proof.
  intros Hf. revert ix. induction l as [|[k e] l IH]; intros ix Hc F; cbn [scan].
  { intros [= <-]. by split_and!. }
  apply fresh_names_cons in F as [Hx F]. intros (ix1 & H1 & E)%bind_Ok.
  apply scan_entry_Ok in H1 as (Ho & -> & Hc1); [|done..].
  apply IH in E as (Fo & -> & Hc2); [|done..]. split_and!; [by constructor|done|done].
Qed.

Lemma scan_succeeds caps root io l ix :
  caps_fit caps → in_caps caps ix → fresh_names ix l → (∀ name, entry_io_ok (io name)) →
  Forall (fun x => entry_ok caps x.1 x.2) l → in_caps caps (add_all ix l) →
  scan caps root io l ix = Ok (add_all ix l).
Proof.
  intros Hf. revert ix. induction l as [|[k e] l IH]; intros ix Hc F Hio Fo Hc'; [done|].
  apply Forall_cons in Fo as [Ho Fo]. apply fresh_names_cons in F as [Hx F].
  assert (in_caps caps (add_entry ix (k, e))) as Hc1.
  { destruct (add_all_counts _ _ F) as [C1 C2]. destruct Hc' as [H1 H2].
    change (add_all ix ((k, e) :: l)) with (add_all (add_entry ix (k, e)) l) in H1, H2.
    split; lia. }
  cbn [scan]. rewrite scan_entry_succeeds by done. by apply IH.
Qed.

(** ** Directories that can be opened *)

Definition dir_ok (caps : BlobCaps) (dir : Directory) : Prop :=
  map_Forall (entry_ok caps) dir ∧ dir_entries dir ≤ bc_max_blobs caps
  ∧ dir_bytes dir ≤ bc_max_total_bytes caps.

(** Blobs are synced; only temporary files may not be. *)
Definition blobs_synced (dir : Directory) : Prop :=
  map_Forall (fun name e => is_temp name = false → ∃ b, e = EFile b true) dir.

(** The index of a directory. *)
Definition indexes (ix : Index) (dir : Directory) : Prop :=
  (∀ name n, ix_sizes ix !! name = Some n
             ↔ is_temp name = false ∧ ∃ e, dir !! name = Some e ∧ entry_len e = n)
  ∧ ix_entries ix = dir_entries dir ∧ ix_bytes ix = dir_bytes dir ∧ ix_healthy ix = true.

Context `{!DirOrder} `{!DirOrderLaw}.

Lemma listing_fresh dir : fresh_names Index_default (list_dir dir).
Proof.
  split; [|by apply Forall_forall]. rewrite list_dir_all. apply NoDup_fst_map_to_list.
Qed.

Lemma listing_indexes dir : indexes (add_all Index_default (list_dir dir)) dir.
Proof.
  pose proof (listing_fresh dir) as F. destruct (add_all_counts _ _ F) as [C1 C2].
  split_and!.
  - intros name n. rewrite add_all_lookup by done. cbn. rewrite lookup_empty.
    setoid_rewrite list_dir_all. setoid_rewrite elem_of_map_to_list. naive_solver.
  - rewrite C1, list_dir_all. unfold dir_entries. cbn. by rewrite length_map_to_list.
  - rewrite C2. unfold dir_bytes. by rewrite list_dir_all.
  - by rewrite add_all_healthy.
Qed.

Lemma empty_in_caps caps : in_caps caps Index_default.
Proof.
  split; [change (ix_entries Index_default) with 0|change (ix_bytes Index_default) with 0]; lia.
Qed.

Definition open_io_ok (io : OpenIo) : Prop :=
  oi_mkdir io = Ok tt ∧ oi_read_dir io = Ok tt ∧ (∀ name, entry_io_ok (oi_entry io name))
  ∧ oi_dir_sync io = Ok tt.

Lemma listing_ok caps dir :
  Forall (fun x => entry_ok caps x.1 x.2) (list_dir dir) ↔ map_Forall (entry_ok caps) dir.
Proof. rewrite list_dir_all, map_Forall_to_list. apply Forall_iff. by intros []. Qed.

Lemma open_Ok io root caps d s d' :
  caps_fit caps → store_open io root caps d = (Ok s, d') →
  dir_ok caps (bd_visible d) ∧ d' = dir_synced d ∧ bs_caps s = caps
  ∧ indexes (bs_index s) (bd_visible d) ∧ bs_tmp_seq s = 0.
Proof.
  intros Hf. unfold store_open, mbind, diskM_bind, stateR_bind, lift_result, gets, modify.
  destruct (validate_blob_caps caps); [|done]. destruct (oi_mkdir io); [|done].
  destruct (oi_read_dir io); [|done]. cbn [blob_io map_err].
  destruct (scan _ _ _ _ _) as [ix|] eqn:Es; [|done]. destruct (oi_dir_sync io); [|done].
  intros [= <- <-]. pose proof (listing_fresh (bd_visible d)) as F.
  apply scan_Ok in Es as (Fo & -> & [Hc1 Hc2]); [|done| |done].
  - destruct (add_all_counts _ _ F) as [C1 C2]. rewrite C1 in Hc1. rewrite C2 in Hc2.
    split_and!; [split_and!|done|done|apply listing_indexes|done].
    + by apply listing_ok.
    + rewrite list_dir_all, length_map_to_list in Hc1. apply Hc1.
    + rewrite list_dir_all in Hc2. apply Hc2.
  - apply empty_in_caps.
Qed.

Lemma store_open_succeeds io root caps d :
  caps_fit caps → open_io_ok io → dir_ok caps (bd_visible d) →
  ∃ s, store_open io root caps d = (Ok s, dir_synced d).
Proof.
  intros Hf (Hi1 & Hi2 & Hi3 & Hi4) (Fo & He & Hb). pose proof Hf as ((Hp1 & _) & (Hp2 & _) & (Hp3 & _)).
  exists (mkFsJobBlobStore root caps (add_all Index_default (list_dir (bd_visible d))) 0).
  unfold store_open, mbind, diskM_bind, stateR_bind, lift_result, gets, modify.
  unfold validate_blob_caps. rewrite !bool_decide_eq_false_2 by lia. cbn [orb].
  rewrite Hi1, Hi2, Hi4. cbn [blob_io map_err].
  pose proof (listing_fresh (bd_visible d)) as F. destruct (add_all_counts _ _ F) as [C1 C2].
  rewrite scan_succeeds; try done.
  - apply empty_in_caps.
  - by apply listing_ok.
  - split.
    + rewrite C1, list_dir_all, length_map_to_list. apply He.
    + rewrite C2, list_dir_all. apply Hb.
Qed.
(** ** Puts *)

Lemma dir_ok_insert caps dir name e :
  dir_ok caps dir → dir !! name = None → entry_ok caps name e →
  dir_entries dir + 1 ≤ bc_max_blobs caps → dir_bytes dir + entry_len e ≤ bc_max_total_bytes caps →
  dir_ok caps (<[name := e]> dir).
Proof.
  intros (F & He & Hb) Hn Ho H1' H2'. split_and!.
  - by apply map_Forall_insert_2.
  - rewrite dir_entries_insert by done. lia.
  - rewrite dir_bytes_insert by done. lia.
Qed.

Lemma blobs_synced_insert dir name e :
  blobs_synced dir → (is_temp name = false → ∃ b, e = EFile b true) →
  blobs_synced (<[name := e]> dir).
Proof. intros F He. by apply map_Forall_insert_2. Qed.

Lemma create_temp_cases turns io sha256 s d r s' d' :
  bs_tmp_seq s ≤ u64_MAX → create_temp turns io sha256 s d = (r, s', d') →
  ∃ n, n ≤ u64_MAX ∧ s' = set_seq n s
    ∧ ((∃ e, r = Err e ∧ d' = d)
       ∨ ∃ q, q ≤ u64_MAX ∧ r = Ok (temp_name sha256 (pi_pid io) q)
              ∧ bd_visible d !! temp_name sha256 (pi_pid io) q = None
              ∧ d' = on_visible <[temp_name sha256 (pi_pid io) q := EFile [] false]> d).
Proof.
  assert (∀ n, u64_add n 1 ≤ u64_MAX) as Hw.
  { intros n. unfold u64_add. pose proof (N.mod_lt (n + 1) (u64_MAX + 1) ltac:(done)). lia. }
  revert s. induction turns as [|turns IH]; intros s Hs; cbn [create_temp].
  { intros [= <- <- <-]. exists (bs_tmp_seq s). split_and!; [done|by destruct s|left; by eexists]. }
  destruct (pi_create io (bs_tmp_seq s)) as [[]|e].
  2:{ intros [= <- <- <-]. exists (u64_add (bs_tmp_seq s) 1). split_and!; [done|done|left; by eexists]. }
  case_decide as Hd.
  - intros E. apply IH in E as (n & Hn & -> & Hr); [|cbn; done]. exists n. by split_and!.
  - intros [= <- <- <-]. exists (u64_add (bs_tmp_seq s) 1). split_and!; [done|done|right].
    exists (bs_tmp_seq s). split_and!; try done. by apply eq_None_not_Some.
Qed.

Definition renamed (sha256 : string) (b : bytes) (d : BlobDisk) : BlobDisk :=
  on_visible <[sha256 := EFile b true]> d.

(** The index after a successful put. *)
Definition put_index (sha256 : string) (size : N) (ix : Index) : Index :=
  mkIndex (<[sha256 := size]> (ix_sizes ix)) (saturating_add (ix_total_bytes ix) size)
    (ix_orphan_entries ix) (ix_orphan_bytes ix) (ix_healthy ix).

(** How [put_new_blob] may leave the store and the directory. *)
Inductive put_outcome (pid : N) (b : bytes) (sha256 : string) (s : FsJobBlobStore) (d : BlobDisk) :
    result BlobStoreError StoredBlob → FsJobBlobStore → BlobDisk → Prop :=
  | put_no_temp e : put_outcome pid b sha256 s d (Err e) s d
  | put_no_rename e q c synced :
      q ≤ u64_MAX → bd_visible d !! temp_name sha256 pid q = None → blen c ≤ blen b →
      put_outcome pid b sha256 s d (Err e) (unhealthy s)
        (on_visible <[temp_name sha256 pid q := EFile c synced]> d)
  | put_no_sync e : put_outcome pid b sha256 s d (Err e) (unhealthy s) (renamed sha256 b d)
  | put_done :
      put_outcome pid b sha256 s d (Ok (mkStoredBlob sha256 (blen b)))
        (set_index (put_index sha256 (blen b) (bs_index s)) s) (dir_synced (renamed sha256 b d)).

Lemma put_new_cases io b sha256 s d r s' d' :
  bs_tmp_seq s ≤ u64_MAX → put_new_blob io b sha256 (blen b) s d = (r, s', d') →
  ∃ n, n ≤ u64_MAX ∧ put_outcome (pi_pid io) b sha256 (set_seq n s) d r s' d'.
Proof.
  intros Hs. unfold put_new_blob.
  destruct (create_temp _ _ _ _ _) as [[[tmp|e] s1] d1] eqn:Ec;
    apply create_temp_cases in Ec as (n & Hn & -> & Hc); try done; intros E; exists n; (split; [done|]).
  2:{ injection E as <- <- <-. destruct Hc as [(e' & [= <-] & ->)|(q & _ & ? & _)]; [constructor|done]. }
  destruct Hc as [(e & ? & _)|(q & Hq & [= ->] & Hv & ->)]; [done|].
  set (tmp := temp_name sha256 (pi_pid io) q) in *.
  assert (∀ e, <[tmp := e]> (<[tmp := EFile [] false]> (bd_visible d)) = <[tmp := e]> (bd_visible d)) as Ei
    by (intros; by rewrite insert_insert_eq).
  assert (delete tmp (<[tmp := EFile [] false]> (bd_visible d)) = bd_visible d) as Ed
    by (by rewrite delete_insert_id).
  unfold on_visible in E. cbn in E. rewrite ?Ei, Ed in E.
  destruct (pi_write io) as [[]|[e k]], (pi_sync io) as [[]|e2], (pi_rename io) as [[]|e3],
    (pi_dir_sync io) as [[]|e4]; rewrite ?Ei in E; injection E as <- <- <-;
    first [apply put_done | apply put_no_sync | eapply put_no_rename; try done].
  all: unfold blen; rewrite length_take; lia.
Qed.

Lemma create_temp_exhausted turns io sha256 s d e s' d' :
  (∀ n, pi_create io n = Ok tt) → create_temp turns io sha256 s d = (Err e, s', d') →
  ∀ i, (i < turns)%nat →
    is_Some (bd_visible d !! temp_name sha256 (pi_pid io)
                               ((bs_tmp_seq s + N.of_nat i) mod (u64_MAX + 1)))
    ∨ u64_MAX < bs_tmp_seq s.
Proof.
  intros Hc. revert s. induction turns as [|turns IH]; intros s E i Hi; [lia|]. cbn [create_temp] in E.
  rewrite Hc in E. case_decide as Hd; [|done].
  destruct (decide (u64_MAX < bs_tmp_seq s)); [by right|left]. destruct i as [|i].
  - by rewrite N.add_0_r, N.mod_small by lia.
  - destruct (IH _ E i ltac:(lia)) as [Hs|Hs].
    + cbn in Hs. unfold u64_add in Hs. rewrite N.Div0.add_mod_idemp_l in Hs.
      by replace (bs_tmp_seq s + N.of_nat (S i)) with (bs_tmp_seq s + 1 + N.of_nat i) by lia.
    + cbn in Hs. unfold u64_add in Hs. pose proof (N.mod_lt (bs_tmp_seq s + 1) (u64_MAX + 1) ltac:(done)).
      lia.
Qed.
Context `{!ShaHex}.

Lemma hash_is_hex b : lower_hex64 (hash_bytes b) = true.
Proof.
  destruct (sha256_hex_is_ok (sha_update sha_new b)) as [Hl Hx]. unfold lower_hex64, hash_bytes.
  by rewrite Hl, Hx.
Qed.

Lemma mod_window_inj a i j m :
  i < m → j < m → (a + i) mod m = (a + j) mod m → i = j.
Proof.
  intros Hi Hj E. pose proof (N.div_mod' (a + i) m) as D1. pose proof (N.div_mod' (a + j) m) as D2.
  rewrite E in D1. destruct (N.lt_trichotomy ((a + i) / m) ((a + j) / m)) as [H'|[H'|H']]; [nia| |nia].
  rewrite H' in D1. lia.
Qed.

(** With calls that succeed, the search for a free name finds one. *)
Lemma create_temp_finds caps io sha256 s d :
  (∀ n, pi_create io n = Ok tt) → caps_fit caps → bs_caps s = caps → bs_tmp_seq s ≤ u64_MAX →
  dir_entries (bd_visible d) ≤ bc_max_blobs caps →
  is_ok (create_temp (create_turns caps) io sha256 s d).1.1 = true.
Proof.
  intros Hc (_ & _ & (_ & Hb)) _ Hs He.
  destruct (create_temp _ _ _ _ _) as [[[tmp|e] s1] d1] eqn:Ec; [done|exfalso].
  pose proof (create_temp_exhausted _ _ _ _ _ _ _ _ Hc Ec) as Hx.
  set (f := fun i => temp_name sha256 (pi_pid io) ((bs_tmp_seq s + N.of_nat i) mod (u64_MAX + 1))) in *.
  assert (NoDup (f <$> seq 0 (create_turns caps))) as Nd.
  { apply NoDup_fmap_2_strong; [|apply NoDup_seq]. intros i j Hi Hj E.
    apply elem_of_seq in Hi, Hj. apply temp_name_inj in E. unfold create_turns in *.
    apply mod_window_inj in E; lia. }
  assert (list_to_set (f <$> seq 0 (create_turns caps)) ⊆ dom (bd_visible d)) as Hsub.
  { intros x Hin. apply elem_of_list_to_set, list_elem_of_fmap in Hin as (i & -> & Hi).
    apply elem_of_seq in Hi. apply elem_of_dom. destruct (Hx i ltac:(lia)) as [?|?]; [done|lia]. }
  apply subseteq_size in Hsub. rewrite size_list_to_set, length_fmap, length_seq, size_dom in Hsub by done.
  unfold create_turns, dir_entries in *. lia.
Qed.

(** ** Lives *)

Definition has_blob (dir : Directory) (b : bytes) : Prop := dir !! hash_bytes b = Some (EFile b true).

Record live (caps : BlobCaps) (acc : list bytes) (s : FsJobBlobStore) (d : BlobDisk) : Prop := {
  lv_caps : bs_caps s = caps;
  lv_visible : dir_ok caps (bd_visible d) ∧ blobs_synced (bd_visible d);
  lv_durable : dir_ok caps (bd_durable d) ∧ blobs_synced (bd_durable d);
  lv_healthy : ix_healthy (bs_index s) = true →
    indexes (bs_index s) (bd_visible d) ∧ bd_durable d = bd_visible d;
  lv_seq : bs_tmp_seq s ≤ u64_MAX;
  lv_acc : ∀ b, b ∈ acc → has_blob (bd_visible d) b ∧ has_blob (bd_durable d) b
    ∧ ix_sizes (bs_index s) !! hash_bytes b = Some (blen b)
}.

Lemma room_for_Ok size s :
  caps_fit (bs_caps s) → in_caps (bs_caps s) (bs_index s) → room_for size s = Ok tt →
  ix_entries (bs_index s) + 1 ≤ bc_max_blobs (bs_caps s)
  ∧ ix_bytes (bs_index s) + size ≤ bc_max_total_bytes (bs_caps s).
Proof.
  intros (_ & _ & (_ & Hb)) [He _]. unfold room_for, ix_entries, ix_bytes in *.
  rewrite u64_add_exact by lia. case_decide; [done|].
  intros (o & (Ho & _)%ok_or_Ok%usize_checked_add_Some & E)%bind_Ok.
  apply bind_Ok in E as (n & (Hn & _)%ok_or_Ok%usize_checked_add_Some & E).
  case_decide; [done|]. lia.
Qed.

(** A blob the index does not have is not in the directory. *)
Lemma not_indexed_free ix dir sha256 :
  indexes ix dir → lower_hex64 sha256 = true → ix_sizes ix !! sha256 = None → dir !! sha256 = None.
Proof.
  intros (Hi & _) Hh Hn. apply eq_None_not_Some. intros [e He].
  assert (ix_sizes ix !! sha256 = Some (entry_len e)) as E; [|congruence].
  apply Hi. split; [by apply hash_not_temp|]. by exists e.
Qed.

Lemma indexes_put ix dir b :
  indexes ix dir → dir !! hash_bytes b = None → ix_total_bytes ix + blen b ≤ u64_MAX →
  indexes (put_index (hash_bytes b) (blen b) ix) (<[hash_bytes b := EFile b true]> dir).
Proof.
  intros (Hi & He & Hb & Hh) Hn Ht. pose proof (hash_not_temp _ (hash_is_hex b)) as [Hk _].
  assert (ix_sizes ix !! hash_bytes b = None) as Hn'.
  { apply eq_None_not_Some. intros [n E]. apply Hi in E as (_ & e & E & _). congruence. }
  split_and!; [| | |done]; unfold put_index, ix_entries, ix_bytes, index_len in *; cbn.
  - intros name n. destruct (decide (hash_bytes b = name)) as [<-|Hne].
    + rewrite !lookup_insert_eq. split; [intros [= <-]|intros (_ & e & [= <-] & <-)]; [|done].
      split; [done|]. by exists (EFile b true).
    + by rewrite !lookup_insert_ne.
  - rewrite map_size_insert_None by done. rewrite dir_entries_insert by done. lia.
  - rewrite dir_bytes_insert by done. unfold saturating_add. cbn. lia.
Qed.
Lemma indexed_in_caps caps ix dir : indexes ix dir → dir_ok caps dir → in_caps caps ix.
Proof. intros (_ & He & Hb & _) (_ & H1' & H2'). split; lia. Qed.

Lemma temp_entry_ok caps b pid q c synced :
  valid_pid pid → q ≤ u64_MAX → blen c ≤ blen b → blen b ≤ bc_max_blob_bytes caps →
  entry_ok caps (temp_name (hash_bytes b) pid q) (EFile c synced)
  ∧ is_temp (temp_name (hash_bytes b) pid q) = true.
Proof.
  intros Hp Hq Hc Hb. destruct (temp_name_valid _ _ _ (hash_is_hex b) Hp Hq) as (V & T & U).
  split; [|done]. exists c, synced. rewrite T. split_and!; [done|lia|done|done].
Qed.

Lemma blob_entry_ok caps b : blen b ≤ bc_max_blob_bytes caps → entry_ok caps (hash_bytes b) (EFile b true).
Proof.
  intros Hb. destruct (hash_not_temp _ (hash_is_hex b)) as [T U]. exists b, true. rewrite T.
  split_and!; [done|done|done|apply hash_is_hex|done].
Qed.

Lemma has_blob_insert dir b name e :
  has_blob dir b → dir !! name = None → has_blob (<[name := e]> dir) b.
Proof. unfold has_blob. intros Hb Hn. rewrite lookup_insert_ne; congruence. Qed.

(** Adding one file for a value that was checked to fit. *)
Lemma live_insert caps acc s d name e s' b :
  live caps acc s d → ix_healthy (bs_index s) = true → room_for (blen b) s = Ok tt → caps_fit caps →
  bd_visible d !! name = None → entry_ok caps name e → entry_len e ≤ blen b →
  (is_temp name = false → ∃ c, e = EFile c true) →
  s' = unhealthy s → live caps acc s' (on_visible <[name := e]> d).
Proof.
  intros [<- [Ov Sv] Od Hh Hq Ha] Hl Hr Hf Hn Ho He Hs ->. destruct (Hh Hl) as [Hi Ed].
  apply room_for_Ok in Hr as [Hr1 Hr2]; [|done|by eapply indexed_in_caps].
  destruct Hi as (_ & E1 & E2 & _). split; try done.
  - split; [apply dir_ok_insert; try done; lia|by apply blobs_synced_insert].
  - intros b' (V & D & I)%Ha. split_and!; [by apply has_blob_insert|done|done].
Qed.

Lemma live_put_done caps acc s d b :
  live caps acc s d → ix_healthy (bs_index s) = true → room_for (blen b) s = Ok tt → caps_fit caps →
  blen b ≤ bc_max_blob_bytes caps → ix_sizes (bs_index s) !! hash_bytes b = None →
  live caps (b :: acc) (set_index (put_index (hash_bytes b) (blen b) (bs_index s)) s)
    (dir_synced (renamed (hash_bytes b) b d)).
Proof.
  intros [<- [Ov Sv] Od Hh Hq Ha] Hl Hr Hf Hb Hn. destruct (Hh Hl) as [Hi Ed].
  pose proof (not_indexed_free _ _ _ Hi (hash_is_hex b) Hn) as Hfree.
  apply room_for_Ok in Hr as [Hr1 Hr2]; [|done|by eapply indexed_in_caps].
  assert (indexes (put_index (hash_bytes b) (blen b) (bs_index s))
            (<[hash_bytes b := EFile b true]> (bd_visible d))) as Hi'.
  { apply indexes_put; try done. destruct Hf as (_ & (_ & ?) & _). unfold ix_bytes in Hr2. lia. }
  pose proof Hi as (_ & E1 & E2 & _).
  assert (dir_ok (bs_caps s) (<[hash_bytes b := EFile b true]> (bd_visible d))) as Ok'
    by (apply dir_ok_insert; try done; [by apply blob_entry_ok|lia|cbn; lia]).
  assert (blobs_synced (<[hash_bytes b := EFile b true]> (bd_visible d))) as Sy'
    by (apply blobs_synced_insert; [done|]; intros _; by eexists).
  split; try done. intros b' [->|Hin]%elem_of_cons.
  - unfold has_blob. cbn. by rewrite !lookup_insert_eq.
  - destruct (Ha _ Hin) as (V & D & I). split_and!; [by apply has_blob_insert..|].
    cbn. rewrite lookup_insert_ne; [done|]. intros E. rewrite E in Hn. congruence.
Qed.

Lemma put_existing_ok io b n s d x :
  blobs_synced (bd_visible d) → indexes (bs_index s) (bd_visible d) →
  ix_sizes (bs_index s) !! hash_bytes b = Some n →
  put_existing io b (hash_bytes b) n s (bd_visible d) = Ok x →
  has_blob (bd_visible d) b ∧ n = blen b.
Proof.
  intros Sv (Hi & _) Hn. unfold put_existing. case_decide as Ed; [done|]. subst n.
  intros (c & Hr & E)%bind_Ok. case_decide as Ed; [done|]. subst c. split; [|done].
  apply Hi in Hn as (Hk & e & He & Hlen). destruct (Sv _ _ He Hk) as [c ->].
  unfold has_blob. rewrite He. do 2 f_equal. revert Hr. unfold read_verified, file_content. rewrite He.
  intros (x' & (y & _ & [= <-])%map_err_Ok%bind_Ok & E')%bind_Ok.
  apply bind_Ok in E' as (_ & _ & E'). do 3 (case_decide; [done|]). injection E' as E'.
  rewrite <- E' in Hlen. rewrite <- E'. symmetry. apply take_ge.
  cbn [entry_len] in Hlen. unfold blen in Hlen. rewrite length_take in Hlen. lia.
Qed.

Lemma live_put caps acc s d io b r s' d' :
  live caps acc s d → caps_fit caps → valid_pid (pi_pid io) → blob_put io b s d = (r, s', d') →
  live caps (if is_ok r then b :: acc else acc) s' d'.
Proof.
  intros L Hf Hp. unfold blob_put. case_decide as Hb; [by intros [= <- <- <-]|].
  destruct (ix_healthy (bs_index s)) eqn:Hl; [|by intros [= <- <- <-]]. cbn.
  pose proof L as [Ec Ov Od Hh Hq Ha]. destruct (ix_sizes (bs_index s) !! hash_bytes b) as [n|] eqn:Hn.
  - intros [= <- <- <-]. destruct (put_existing _ _ _ _ _ _) as [x|e] eqn:E; [|done].
    apply put_existing_ok in E as [V ->]; [|apply Ov|by apply Hh|done].
    cbn. split; try done. intros b' [->|Hin]%elem_of_cons; [|by apply Ha].
    destruct (Hh Hl) as [_ Ed]. unfold has_blob. rewrite Ed. by split_and!.
  - destruct (room_for (blen b) s) as [[]|e] eqn:Hr; [|by intros [= <- <- <-]].
    intros (n & Hn' & O)%put_new_cases; [|done].
    assert (live caps acc (set_seq n s) d) as L' by (split; try done).
    assert (room_for (blen b) (set_seq n s) = Ok tt) as Hr' by done.
    assert (bd_visible d !! hash_bytes b = None) as Hfree.
    { destruct (Hh Hl) as [Hi _]. eapply not_indexed_free; [done|apply hash_is_hex|done]. }
    assert (blen b ≤ bc_max_blob_bytes caps) as Hb' by (rewrite <- Ec; lia).
    destruct O as [e|e q c y Hq' Hv Hc|e|]; cbn [is_ok]; [done| | |].
    + destruct (temp_entry_ok caps b (pi_pid io) q c y Hp Hq' Hc Hb') as [Ho Ht].
      eapply live_insert; try done. by rewrite Ht.
    + eapply live_insert; try done; [by apply blob_entry_ok|]. intros _. by eexists.
    + by apply (live_put_done caps acc (set_seq n s)).
Qed.
(** *** Crashes *)

Lemma dir_crash_lookup dir dir' name :
  dir_crash dir dir' →
  match dir !! name, dir' !! name with
  | Some e, Some e' => entry_crash e e'
  | None, None => True
  | _, _ => False
  end.
Proof. intros R. specialize (R name). by destruct (dir !! name), (dir' !! name). Qed.

Lemma dir_crash_insert dir dir' name e :
  dir_crash (<[name := e]> dir) dir' → dir !! name = None →
  ∃ e' dir1, dir' = <[name := e']> dir1 ∧ dir1 !! name = None ∧ entry_crash e e' ∧ dir_crash dir dir1.
Proof.
  intros R Hn. pose proof (dir_crash_lookup _ _ name R) as Hx. rewrite lookup_insert_eq in Hx.
  destruct (dir' !! name) as [e'|] eqn:He; [|done]. exists e', (delete name dir').
  split_and!; [by rewrite insert_delete_id|apply lookup_delete_eq|done|].
  intros k. specialize (R k). destruct (decide (name = k)) as [<-|Hne].
  - by rewrite Hn, lookup_delete_eq.
  - by rewrite lookup_insert_ne in R; rewrite ?lookup_delete_ne.
Qed.

Lemma entry_crash_len e e' : entry_crash e e' → entry_len e' ≤ entry_len e.
Proof. by destruct 1. Qed.

(** A crash neither adds entries nor bytes. *)
Lemma dir_crash_counts dir dir' :
  dir_crash dir dir' → dir_entries dir' = dir_entries dir ∧ dir_bytes dir' ≤ dir_bytes dir.
Proof.
  revert dir'. induction dir as [|name e dir Hn IH] using map_ind; intros dir' R.
  - assert (dir' = ∅) as ->; [|done]. apply map_empty. intros k.
    pose proof (dir_crash_lookup _ _ k R) as Hx. rewrite lookup_empty in Hx. by destruct (dir' !! k).
  - apply dir_crash_insert in R as (e' & dir1 & -> & Hn1 & He%entry_crash_len & R); [|done].
    apply IH in R as [R1 R2]. rewrite !dir_entries_insert, !dir_bytes_insert by done. lia.
Qed.

Lemma dir_crash_ok caps dir dir' :
  dir_ok caps dir → blobs_synced dir → dir_crash dir dir' → dir_ok caps dir' ∧ blobs_synced dir'.
Proof.
  intros (F & He & Hb) Sy R. destruct (dir_crash_counts _ _ R) as [C1 C2].
  assert (∀ name e', dir' !! name = Some e' →
            entry_ok caps name e' ∧ (is_temp name = false → ∃ b, e' = EFile b true)) as K.
  { intros name e' He'. pose proof (dir_crash_lookup _ _ name R) as Hx. rewrite He' in Hx.
    destruct (dir !! name) as [e|] eqn:Hd; [|done].
    destruct (F _ _ Hd) as (b & y & -> & Hl & Hu & Hk). specialize (Sy _ _ Hd).
    destruct (is_temp name) eqn:Ht.
    - split; [|done]. inversion Hx; subst; eexists _, _; rewrite Ht; split_and!; try done; lia.
    - destruct (Sy Ht) as [c [= <- ->]]. inversion Hx; subst. split; [|by eexists].
      exists b, true. rewrite Ht. destruct Hk. by split_and!. }
  split; [split_and!; [|lia|lia]|]; intros name e' He'; apply (K _ _ He').
Qed.

Lemma has_blob_crash dir dir' b : has_blob dir b → dir_crash dir dir' → has_blob dir' b.
Proof.
  unfold has_blob. intros Hb R. pose proof (dir_crash_lookup _ _ (hash_bytes b) R) as Hx.
  rewrite Hb in Hx. destruct (dir' !! _) as [e|]; [|done]. by inversion Hx.
Qed.

(** What holds of the directory whatever process looks at it. *)
Definition disk_ok (caps : BlobCaps) (acc : list bytes) (d : BlobDisk) : Prop :=
  ∀ dir, dir = bd_visible d ∨ dir = bd_durable d →
    (dir_ok caps dir ∧ blobs_synced dir) ∧ ∀ b, b ∈ acc → has_blob dir b.

Lemma disk_ok_crash caps acc d d' : disk_ok caps acc d → disk_crash d d' → disk_ok caps acc d'.
Proof.
  intros K [dir dir' Hdir R|]; [|done]. intros x Hx. assert (x = dir') as -> by (by destruct Hx).
  destruct (K dir Hdir) as [[O S] A]. split; [by eapply dir_crash_ok|].
  intros b Hb. eapply has_blob_crash; [by apply A|done].
Qed.

Lemma disk_ok_stops caps acc d d' :
  disk_ok caps acc d → rtc disk_crash d d' → disk_ok caps acc d'.
Proof. intros K R. induction R as [|d d1 d' C _ IH]; [done|]. by eapply IH, disk_ok_crash. Qed.

Lemma live_disk_ok caps acc s d : live caps acc s d → disk_ok caps acc d.
Proof. intros [_ V D _ _ A] dir [->| ->]; (split; [done|]); intros b (? & ? & _)%A; done. Qed.

Lemma live_open caps acc io root d s d' :
  caps_fit caps → disk_ok caps acc d → store_open io root caps d = (Ok s, d') → live caps acc s d'.
Proof.
  intros Hf K E. apply open_Ok in E as (O & -> & Ec & Hi & Hq); [|done].
  destruct (K _ (or_introl eq_refl)) as [[_ S] A].
  split; try done; [by rewrite Hq|]. intros b Hb. specialize (A _ Hb). split_and!; [done|done|].
  apply Hi. split; [by apply hash_not_temp, hash_is_hex|]. by eexists.
Qed.

(** A directory that some other life left: everything in it is synced. *)
Definition settled (d : BlobDisk) : Prop :=
  bd_durable d = bd_visible d ∧ blobs_synced (bd_visible d).

(** A store's life, with the values it acknowledged. Opening may fail, and the
    machine may crash, any number of times before it succeeds. *)
Inductive blob_life (caps : BlobCaps) : list bytes → FsJobBlobStore → BlobDisk → Prop :=
  | life_start io root d s d' :
      settled d → store_open io root caps d = (Ok s, d') → blob_life caps [] s d'
  | life_put acc s d io b r s' d' :
      blob_life caps acc s d → valid_pid (pi_pid io) → blob_put io b s d = (r, s', d') →
      blob_life caps (if is_ok r then b :: acc else acc) s' d'
  | life_reopen acc s d d1 io root s' d' :
      blob_life caps acc s d → rtc disk_crash d d1 → store_open io root caps d1 = (Ok s', d') →
      blob_life caps acc s' d'.

Lemma life_live caps acc s d : caps_fit caps → blob_life caps acc s d → live caps acc s d.
Proof.
  intros Hf L. induction L as [io root d s d' [Hd Hs] E|acc s d io b r s' d' _ IH Hp E|
                               acc s d d1 io root s' d' _ IH R E].
  - eapply live_open; [done| |done]. apply open_Ok in E as (O & _); [|done].
    intros dir Hdir. assert (dir = bd_visible d) as -> by (destruct Hdir; congruence).
    split; [done|]. intros b Hb. by apply not_elem_of_nil in Hb.
  - by eapply live_put.
  - eapply live_open; [done| |done]. eapply disk_ok_stops; [by eapply live_disk_ok|done].
Qed.

(** *** Reading and accepting *)

Definition read_ok (io : ReadIo) : Prop := ri_open io = Ok tt ∧ ri_read io = Ok tt.

Lemma get_live caps acc s d b io :
  caps_fit caps → live caps acc s d → b ∈ acc →
  if bool_decide (ri_open io = Ok tt ∧ ri_read io = Ok tt) then
    blob_get io (hash_bytes b) s (bd_visible d) = Ok b
  else is_ok (blob_get io (hash_bytes b) s (bd_visible d)) = false.
Proof.
  intros ((_ & Hm) & _) [<- [(F & _) _] _ _ _ A] (V & _ & I)%A. unfold blob_get, validate_hash.
  rewrite hash_is_hex, I. cbn [ok_or mbind result_bind]. unfold read_verified, file_content. rewrite V.
  destruct (F _ _ V) as (c & y & [= <- _] & Hl & _).
  destruct (ri_open io) as [[]|e]; [|by rewrite bool_decide_eq_false_2 by naive_solver].
  destruct (ri_read io) as [[]|e]; [|by rewrite bool_decide_eq_false_2 by naive_solver].
  rewrite bool_decide_eq_true_2 by done. cbn [map_err blob_io mbind result_bind].
  rewrite u64_add_exact, take_ge by (unfold blen in *; lia).
  rewrite decide_False by lia. rewrite !decide_False by tauto. done.
Qed.

Definition put_io_ok (io : PutIo) : Prop :=
  (∀ n, pi_create io n = Ok tt) ∧ pi_write io = Ok tt ∧ pi_sync io = Ok tt ∧ pi_rename io = Ok tt
  ∧ pi_dir_sync io = Ok tt ∧ read_ok (pi_existing io).

Lemma put_new_succeeds caps acc s d io b :
  caps_fit caps → live caps acc s d → put_io_ok io →
  (put_new_blob io b (hash_bytes b) (blen b) s d).1.1 = Ok (mkStoredBlob (hash_bytes b) (blen b)).
Proof.
  intros Hf [Ec [(_ & He & _) _] _ _ Hq _] (I1 & I2 & I3 & I4 & I5 & _).
  pose proof (create_temp_finds caps io (hash_bytes b) s d I1 Hf Ec Hq He) as Hc.
  unfold put_new_blob. rewrite Ec. destruct (create_temp _ _ _ _ _) as [[[tmp|e] s1] d1]; [|done].
  by rewrite I2, I3, I4, I5.
Qed.
Lemma put_hit_succeeds caps acc s d io b n :
  caps_fit caps → live caps acc s d → ix_healthy (bs_index s) = true → put_io_ok io →
  blen b ≤ bc_max_blob_bytes caps → has_blob (bd_visible d) b →
  ix_sizes (bs_index s) !! hash_bytes b = Some n →
  put_existing io b (hash_bytes b) n s (bd_visible d) = Ok (mkStoredBlob (hash_bytes b) (blen b)).
Proof.
  intros ((_ & Hm) & _) [<- _ _ Hh _ _] Hl (_ & _ & _ & _ & _ & R1 & R2) Hb V I.
  apply Hh in Hl as [(Hi & _) _]. apply Hi in I as (_ & e & He & Hlen). rewrite V in He.
  injection He as <-. cbn [entry_len] in Hlen. subst n. unfold put_existing, read_verified, file_content.
  rewrite decide_False by tauto. rewrite R1, R2, V. cbn [map_err blob_io mbind result_bind].
  rewrite u64_add_exact, take_ge by (unfold blen in *; lia).
  rewrite decide_False by lia. rewrite !decide_False by tauto. cbn. by rewrite decide_False by tauto.
Qed.

Lemma room_for_fits caps acc s d b :
  caps_fit caps → live caps acc s d → ix_healthy (bs_index s) = true →
  dir_entries (bd_visible d) + 1 ≤ bc_max_blobs caps →
  dir_bytes (bd_visible d) + blen b ≤ bc_max_total_bytes caps → room_for (blen b) s = Ok tt.
Proof.
  intros (_ & (_ & H1') & (_ & H2')) [<- _ _ Hh _ _] Hl He Hb. apply Hh in Hl as [(_ & E1 & E2 & _) _].
  unfold room_for, ix_entries, ix_bytes in *. rewrite u64_add_exact by lia. rewrite decide_False by lia.
  unfold usize_checked_add, usize_MAX. rewrite !decide_True by lia. cbn [ok_or mbind result_bind].
  rewrite decide_True by lia. cbn [ok_or mbind result_bind]. by rewrite decide_False by lia.
Qed.

(** The reference to a value. *)
Definition ref_of (media_type : string) (b : bytes) : BlobRefV1 :=
  mkBlobRefV1 (sha256_digest b) (blen b) media_type.

Lemma put_Ok_stored io b s d x s' d' :
  blob_put io b s d = (Ok x, s', d') → x = mkStoredBlob (hash_bytes b) (blen b).
Proof.
  unfold blob_put. case_decide; [done|]. destruct (negb _); [done|].
  destruct (ix_sizes _ !! _) as [n|].
  - intros [= E _ _]. revert E. unfold put_existing. case_decide; [done|].
    intros (c & _ & E)%bind_Ok. case_decide; [done|]. by injection E as <-.
  - destruct (room_for _ _); [|done]. unfold put_new_blob.
    destruct (create_temp _ _ _ _ _) as [[[tmp|e] s1] d1]; [|done].
    destruct (pi_write io) as [[]|[e k]]; [|done]. destruct (pi_sync io); [|done].
    destruct (pi_rename io); [|done]. destruct (pi_dir_sync io); [|done]. by intros [= <- _ _].
Qed.

Lemma put_ref_Ok io media_type b s d blob s' d' :
  put_ref io media_type b s d = (Ok blob, s', d') →
  blob_put io b s d = (Ok (mkStoredBlob (hash_bytes b) (blen b)), s', d')
  ∧ blob = ref_of media_type b ∧ BlobRefV1_validate blob = Ok tt.
Proof.
  unfold put_ref. destruct (blob_put io b s d) as [[[x|e] s1] d1] eqn:E; [|done].
  pose proof (put_Ok_stored _ _ _ _ _ _ _ E) as ->. intros [= Er <- <-].
  apply bind_Ok in Er as ([] & V%map_err_Ok & Er). by injection Er as <-.
Qed.

Lemma get_ref_live caps acc s d b media_type io :
  caps_fit caps → live caps acc s d → b ∈ acc → BlobRefV1_validate (ref_of media_type b) = Ok tt →
  if bool_decide (ri_open io = Ok tt ∧ ri_read io = Ok tt) then
    get_ref io (ref_of media_type b) s (bd_visible d) = Ok b
  else is_ok (get_ref io (ref_of media_type b) s (bd_visible d)) = false.
Proof.
  intros Hf L Hb V. pose proof (get_live _ _ _ _ _ io Hf L Hb) as G. unfold get_ref. rewrite V.
  cbn [map_err mbind result_bind]. change (strip_prefix "sha256:" (br_digest (ref_of media_type b)))
    with (Some (hash_bytes b)). cbn [ok_or mbind result_bind].
  case_bool_decide.
  - rewrite G. cbn [mbind result_bind]. by rewrite decide_False by (cbn; tauto).
  - by destruct (blob_get _ _ _ _).
Qed.
End laws.

(** ** A concrete store *)

Module blob_sample.
#[local] Existing Instance zero_sha.
#[export] Instance order : DirOrder := map_to_list.
#[export] Instance order_law : DirOrderLaw.
Proof. by intros d. Qed.
Definition caps : BlobCaps := mkBlobCaps 16 64 4.
Definition entry_io : EntryIo := mkEntryIo (Ok tt) (Ok tt) (Ok tt) (Ok tt) [].
Definition open_io : OpenIo := mkOpenIo (Ok tt) (Ok tt) (fun _ => entry_io) (Ok tt).
Definition read_io : ReadIo := mkReadIo (Ok tt) (Ok tt).
Definition put_io : PutIo := mkPutIo 7 (fun _ => Ok tt) (Ok tt) (Ok tt) (Ok tt) (Ok tt) read_io.
(** A put that stops half way through the write. *)
Definition torn_io : PutIo := mkPutIo 7 (fun _ => Ok tt) (Err ("gone", 1)) (Ok tt) (Ok tt) (Ok tt) read_io.
Definition value : bytes := [Byte.x01; Byte.x02].
Definition empty : BlobDisk := mkBlobDisk ∅ ∅.
Definition opened : FsJobBlobStore := mkFsJobBlobStore "blobs" caps Index_default 0.
Definition torn := blob_put torn_io value opened empty.
Definition reopened := store_open open_io "blobs" caps torn.2.
Definition recovered : FsJobBlobStore := match reopened.1 with Ok s => s | Err _ => opened end.
Definition stored := blob_put put_io value recovered reopened.2.

Lemma opens : store_open open_io "blobs" caps empty = (Ok opened, empty).
Proof. vm_compute. reflexivity. Qed.
Lemma reopens : store_open open_io "blobs" caps torn.2 = (Ok recovered, reopened.2).
Proof. vm_compute. reflexivity. Qed.
Lemma stores : is_ok stored.1.1 = true.
Proof. vm_compute. reflexivity. Qed.
Lemma fits : caps_fit caps.
Proof. repeat split. Qed.
Lemma pid : valid_pid 7.
Proof. by split. Qed.
Lemma life : blob_life caps [value] stored.1.2 stored.2.
Proof.
  pose proof stores as Hs. destruct stored as [[r s] d] eqn:E. cbn in *.
  replace [value] with (if is_ok r then value :: [] else []) by (by rewrite Hs).
  apply (life_put caps [] recovered reopened.2 put_io value r s d); [|exact pid|exact E].
  eapply (life_reopen caps [] torn.1.2 torn.2); [|apply rtc_refl|apply reopens].
  destruct torn as [[r0 s0] d0] eqn:E0. cbn.
  replace ([] : list bytes) with (if is_ok r0 then value :: [] else []).
  - apply (life_put caps [] opened empty torn_io value r0 s0 d0); [|exact pid|exact E0]. eapply life_start; [|apply opens]. by split.
  - assert (is_ok torn.1.1 = false) as Hf by (vm_compute; reflexivity). rewrite E0 in Hf. cbn in Hf.
    by rewrite Hf.
Qed.
End blob_sample.

(** ** Properties *)

(** C39: an acknowledged value survives. Over any life of a store, with system calls
    that fail at any point, crashes and reopenings: a value whose put succeeded is
    named by the reference the store returns, which passes the checks that the
    Home makes of a checkpoint; it is read back exactly whenever the reads
    succeed, and otherwise refused; and after any crash the store opens again,
    when the system calls succeed, and still has it. *)
Theorem stored_blobs_survive `{!Sha256} (S : ShaStreaming) (X : ShaHex) `{!DirOrder} (O : DirOrderLaw)
    (caps : BlobCaps) (Hfit : caps_fit caps) (acc : list bytes) (s : FsJobBlobStore) (d : BlobDisk)
    (L : blob_life caps acc s d) :
  (∀ io media b blob s' d', valid_pid (pi_pid io) →
     store_put_checkpoint io media b s d = (Ok blob, s', d') →
     blob_life caps (b :: acc) s' d' ∧ blob = ref_of media b ∧ verify_blob_bytes blob b = Ok tt)
  ∧ ∀ b media, b ∈ acc → BlobRefV1_validate (ref_of media b) = Ok tt →
      (∀ io, if bool_decide (ri_open io = Ok tt ∧ ri_read io = Ok tt)
             then store_get_checkpoint io (ref_of media b) s (bd_visible d) = Ok b
                  ∧ store_verify_available io (ref_of media b) s (bd_visible d) = Ok tt
             else is_ok (store_get_checkpoint io (ref_of media b) s (bd_visible d)) = false)
      ∧ ∀ d1 io root, rtc disk_crash d d1 → open_io_ok io →
          ∃ s' d', store_open io root caps d1 = (Ok s', d') ∧ blob_life caps acc s' d'
            ∧ ∀ rio, read_ok rio → get_ref rio (ref_of media b) s' (bd_visible d') = Ok b.
Proof.
  pose proof (life_live _ _ _ _ Hfit L) as Lv. split.
  - intros io media b blob s' d' Hp. unfold store_put_checkpoint.
    destruct (put_ref _ _ _ _ _) as [[[x|e] s1] d1] eqn:E; [|done]. intros [= <- <- <-].
    apply put_ref_Ok in E as (E & -> & V). split_and!; [by apply (life_put _ _ _ _ _ _ _ _ _ L Hp E)|done|].
    unfold verify_blob_bytes. rewrite V. cbn. by rewrite !bool_decide_eq_false_2 by (cbn; tauto).
  - intros b media Hb V. split.
    + intros io. pose proof (get_ref_live _ _ _ _ _ media io Hfit Lv Hb V) as G.
      unfold store_get_checkpoint, store_verify_available. case_bool_decide.
      * by rewrite G.
      * by destruct (get_ref _ _ _ _).
    + intros d1 io root R Hio. pose proof (disk_ok_stops _ _ _ _ (live_disk_ok _ _ _ _ Lv) R) as K.
      destruct (store_open_succeeds io root caps d1 Hfit Hio) as [s' E]; [apply K; by left|].
      assert (blob_life caps acc s' (dir_synced d1)) as L' by (by eapply life_reopen).
      eexists _, _. split_and!; [exact E|done|]. intros rio Hr.
      pose proof (get_ref_live _ _ _ _ _ media rio Hfit (life_live _ _ _ _ Hfit L') Hb V) as G.
      by rewrite bool_decide_eq_true_2 in G.
Qed.

Lemma stored_blobs_survive_witness :
  @store_get_checkpoint zero_sha blob_sample.read_io (@ref_of zero_sha "x/y" blob_sample.value)
    blob_sample.stored.1.2 (bd_visible blob_sample.stored.2) = Ok blob_sample.value.
Proof.
  exact (proj1 (proj1 (proj2 (@stored_blobs_survive zero_sha zero_sha_streaming zero_sha_hex
    blob_sample.order blob_sample.order_law blob_sample.caps blob_sample.fits [blob_sample.value]
    blob_sample.stored.1.2 blob_sample.stored.2 blob_sample.life) blob_sample.value "x/y"
    ltac:(by left) ltac:(vm_compute; reflexivity)) blob_sample.read_io)).
Defined.

(** C40: the store is bounded, and accepts what fits. Over any life, now and after
    any crash, the directory has at most the configured number of files and
    bytes, whatever crashes left behind included; and a healthy store whose
    system calls succeed accepts every value within the limits, be it there
    already or new: the search for a temporary name never runs out. *)
Theorem blob_store_bounded `{!Sha256} (S : ShaStreaming) (X : ShaHex) `{!DirOrder} (O : DirOrderLaw)
    (caps : BlobCaps) (Hfit : caps_fit caps) (acc : list bytes) (s : FsJobBlobStore) (d : BlobDisk)
    (L : blob_life caps acc s d) :
  (∀ d1, rtc disk_crash d d1 →
     dir_entries (bd_visible d1) ≤ bc_max_blobs caps
     ∧ dir_bytes (bd_visible d1) ≤ bc_max_total_bytes caps)
  ∧ ∀ io b, put_io_ok io → ix_healthy (bs_index s) = true → blen b ≤ bc_max_blob_bytes caps →
      has_blob (bd_visible d) b
      ∨ bd_visible d !! hash_bytes b = None ∧ dir_entries (bd_visible d) + 1 ≤ bc_max_blobs caps
        ∧ dir_bytes (bd_visible d) + blen b ≤ bc_max_total_bytes caps →
      (blob_put io b s d).1.1 = Ok (mkStoredBlob (hash_bytes b) (blen b)).
Proof.
  pose proof (life_live _ _ _ _ Hfit L) as Lv. split.
  - intros d1 R. pose proof (disk_ok_stops _ _ _ _ (live_disk_ok _ _ _ _ Lv) R) as K.
    destruct (K _ (or_introl eq_refl)) as [[(_ & He & Hb) _] _]. done.
  - intros io b Hio Hl Hb Hfits. unfold blob_put. pose proof Lv as [Ec _ _ Hh _ _].
    destruct (Hh Hl) as [(Hi & _) _]. pose proof (hash_not_temp _ (hash_is_hex b)) as [Ht _].
    rewrite Ec, Hl, decide_False by lia. cbn [negb].
    destruct (ix_sizes (bs_index s) !! hash_bytes b) as [n|] eqn:I.
    + pose proof I as (_ & e & He & _)%Hi. destruct Hfits as [V|[V _]]; [|congruence].
      by eapply put_hit_succeeds.
    + destruct Hfits as [V|(V & He & Hby)].
      { assert (ix_sizes (bs_index s) !! hash_bytes b = Some (blen b)); [|congruence].
        apply Hi. split; [done|]. by eexists. }
      erewrite room_for_fits by done. by eapply put_new_succeeds.
Qed.

Lemma blob_store_bounded_witness :
  (@blob_put zero_sha blob_sample.put_io blob_sample.value blob_sample.stored.1.2 blob_sample.stored.2).1.1
  = Ok (mkStoredBlob (@hash_bytes zero_sha blob_sample.value) 2).
Proof.
  refine (proj2 (@blob_store_bounded zero_sha zero_sha_streaming zero_sha_hex
    blob_sample.order blob_sample.order_law blob_sample.caps blob_sample.fits [blob_sample.value]
    blob_sample.stored.1.2 blob_sample.stored.2 blob_sample.life) blob_sample.put_io blob_sample.value
    _ _ _ _).
  - repeat split.
  - vm_compute. reflexivity.
  - vm_compute. discriminate.
  - left. vm_compute. reflexivity.
Defined.
