(* ===== verification/Registry.v ===== *)
(** * The in-memory registry

    [cosmos/creatures/registry-mem/src/lib.rs]: a bounded catalogue of manifests
    and artifacts, keyed by realm and by the hash of the artifact, with an optional
    eviction policy; full fetches, metadata, snapshots, signals, and the transfer
    of an artifact in chunks, pushed or pulled.

    A [HashMap] is iterated in no particular order: the operations that iterate
    take the order as an argument. The eviction policy is injected. *)

From S2P Require Import Prelude Serde GxShape GxHash GxWire GxFrame GxEngine FnCrypto FnTypes.
From S2P Require Import AetherAddress AetherEnvelope AetherRouter Sigil F32 BestiaryWire.

Definition DEFAULT_MAX_REGISTRY_ENTRIES : N := 1024.
Definition DEFAULT_MAX_REGISTRY_SNAPSHOT_ARTIFACT_BYTES : N := MAX_REGISTRY_ARTIFACT_BYTES.

(** The chunk lane of the transport ([gawdxfer::TRANSPORT_GX_CHUNK_SCHEMA]). *)
Definition TRANSPORT_GX_CHUNK_SCHEMA : string := "transport.gx.chunk".

(** ** Data *)

Inductive PublishResult : Type :=
  | Stored (artifact_hash : string)
  | Refused (artifact_hash message : string).

Definition PublishResult_artifact_hash (r : PublishResult) : string :=
  match r with Stored hash | Refused hash _ => hash end.
Definition PublishResult_stored (r : PublishResult) : bool :=
  match r with Stored _ => true | Refused _ _ => false end.

Record GxChunkPull : Type := mkGxChunkPull {
  gp_artifact_hash : string;
  gp_transfer_id : string;
  gp_chunk_size : N;
  gp_chunk_index : N
}.

Record EvictionCandidate : Type := mkEvictionCandidate {
  ec_realm : RealmId;
  ec_artifact_hash : string;
  ec_reputation : option f32;
  ec_quarantined : bool
}.

Definition EvictionPolicy : Type := list EvictionCandidate → option nat.

Abbreviation Key := (RealmId * string)%type.
Abbreviation Catalog := (gmap (RealmId * string) Entry).
Definition MapIter : Type := Catalog → list (Key * Entry).

Record RegistryMem : Type := mkRegistryMem {
  rm_entries : Catalog;
  rm_evictor : option EvictionPolicy;
  rm_max_entries : N;
  rm_max_op_bytes : N;
  rm_max_artifact_bytes : N;
  rm_max_snapshot_artifact_bytes : N
}.

Definition RegistryMem_new : RegistryMem :=
  mkRegistryMem ∅ None DEFAULT_MAX_REGISTRY_ENTRIES MAX_REGISTRY_OP_BYTES
    MAX_REGISTRY_ARTIFACT_BYTES DEFAULT_MAX_REGISTRY_SNAPSHOT_ARTIFACT_BYTES.
Definition set_entries (g : Catalog) (r : RegistryMem) : RegistryMem :=
  mkRegistryMem g (rm_evictor r) (rm_max_entries r) (rm_max_op_bytes r) (rm_max_artifact_bytes r)
    (rm_max_snapshot_artifact_bytes r).
Definition with_max_entries (max : N) (r : RegistryMem) : RegistryMem :=
  mkRegistryMem (rm_entries r) (rm_evictor r) max (rm_max_op_bytes r) (rm_max_artifact_bytes r)
    (rm_max_snapshot_artifact_bytes r).
Definition with_eviction (policy : EvictionPolicy) (r : RegistryMem) : RegistryMem :=
  mkRegistryMem (rm_entries r) (Some policy) (rm_max_entries r) (rm_max_op_bytes r)
    (rm_max_artifact_bytes r) (rm_max_snapshot_artifact_bytes r).
Definition with_max_op_bytes (max : N) (r : RegistryMem) : RegistryMem :=
  mkRegistryMem (rm_entries r) (rm_evictor r) (rm_max_entries r) max (rm_max_artifact_bytes r)
    (rm_max_snapshot_artifact_bytes r).
Definition with_max_artifact_bytes (max : N) (r : RegistryMem) : RegistryMem :=
  mkRegistryMem (rm_entries r) (rm_evictor r) (rm_max_entries r) (rm_max_op_bytes r) max
    (rm_max_snapshot_artifact_bytes r).
Definition with_max_snapshot_artifact_bytes (max : N) (r : RegistryMem) : RegistryMem :=
  mkRegistryMem (rm_entries r) (rm_evictor r) (rm_max_entries r) (rm_max_op_bytes r)
    (rm_max_artifact_bytes r) max.
Definition registry_len (r : RegistryMem) : N := N.of_nat (size (rm_entries r)).
Definition registry_is_empty (r : RegistryMem) : bool := bool_decide (registry_len r = 0).

(** ** Eviction *)

Definition str_compare (a b : string) : comparison :=
  if decide (a = b) then Eq else if str_leb a b then Lt else Gt.
Definition bool_compare (a b : bool) : comparison :=
  match a, b with false, true => Lt | true, false => Gt | _, _ => Eq end.
Definition then_compare (c d : comparison) : comparison := match c with Eq => d | _ => c end.

(** Quarantined first, then the lowest reputation, then the hash. *)
Definition value_compare (a b : EvictionCandidate) : comparison :=
  then_compare (bool_compare (negb (ec_quarantined a)) (negb (ec_quarantined b)))
    (then_compare
       (default Eq (f32_partial_cmp (default f32_MIN (ec_reputation a))
                      (default f32_MIN (ec_reputation b))))
       (str_compare (ec_artifact_hash a) (ec_artifact_hash b))).

(** [min_by]: the first of the least. *)
Fixpoint min_by (i : nat) (best : nat * EvictionCandidate) (l : list EvictionCandidate) : nat :=
  match l with
  | [] => best.1
  | c :: l =>
      min_by (S i) (match value_compare c best.2 with Lt => (i, c) | _ => best end) l
  end.

Definition LowValueEviction : EvictionPolicy :=
  fun candidates =>
    match candidates with
    | [] => None
    | c :: l => Some (min_by 1 (0%nat, c) l)
    end.

Definition candidate_of (x : Key * Entry) : EvictionCandidate :=
  mkEvictionCandidate x.1.1 x.1.2 (rs_score <$> en_reputation x.2)
    (bool_decide (is_Some (en_quarantine x.2))).

Definition make_room (iter : MapIter) (r : RegistryMem) : option Catalog :=
  evictor ← rm_evictor r;
  let keys := iter (rm_entries r) in
  idx ← evictor (map candidate_of keys);
  victim ← keys !! idx;
  Some (delete victim.1 (rm_entries r)).

(** ** Publishing and signals *)

Section registry.
  Context `{!Sha256} `{!JsonText}.

Definition publish_in_checked (iter : MapIter) (realm : RealmId) (manifest : Manifest)
    (artifact : bytes) (r : RegistryMem) : PublishResult * RegistryMem :=
  let hash := hash_bytes artifact in
  if bool_decide (rm_max_artifact_bytes r ≠ 0) && bool_decide (rm_max_artifact_bytes r < blen artifact)
  then (Refused hash (registry_artifact_too_large_message (blen artifact) (rm_max_artifact_bytes r)), r)
  else
    match Manifest_validate manifest with
    | Err e => (Refused hash ("invalid manifest: " +:+ ManifestError_to_string e), r)
    | Ok _ =>
        let key := (realm, hash) in
        let entry := mkEntry manifest artifact None None in
        if bool_decide (rm_max_entries r ≠ 0) && bool_decide (rm_max_entries r ≤ registry_len r)
           && bool_decide (rm_entries r !! key = None)
        then
          match make_room iter r with
          | None =>
              (Refused hash ("catalog at capacity (" +:+ dec (rm_max_entries r)
                             +:+ "); refusing new artifact " +:+ hash +:+ " in realm " +:+ realm), r)
          | Some g => (Stored hash, set_entries (<[key := entry]> g) r)
          end
        else (Stored hash, set_entries (<[key := entry]> (rm_entries r)) r)
    end.

Definition try_publish_in := publish_in_checked.
Definition try_publish (iter : MapIter) := publish_in_checked iter RealmId_local.
Definition publish_in (iter : MapIter) (realm : RealmId) (manifest : Manifest) (artifact : bytes)
    (r : RegistryMem) : string * RegistryMem :=
  let (p, r') := publish_in_checked iter realm manifest artifact r in
  (PublishResult_artifact_hash p, r').
Definition publish (iter : MapIter) := publish_in iter RealmId_local.

Definition attest_fitness (realm : RealmId) (artifact_hash : string) (score : ReputationScore)
    (r : RegistryMem) : bool * RegistryMem :=
  match attest_shape_error score artifact_hash realm with
  | Some _ => (false, r)
  | None =>
      match rm_entries r !! (realm, artifact_hash) with
      | Some e =>
          (true, set_entries (<[(realm, artifact_hash) :=
                    mkEntry (en_manifest e) (en_artifact e) (Some score) (en_quarantine e)]>
                    (rm_entries r)) r)
      | None => (false, r)
      end
  end.

Definition mark_quarantine (realm : RealmId) (artifact_hash : string) (notice : QuarantineNotice)
    (r : RegistryMem) : bool * RegistryMem :=
  match mark_shape_error artifact_hash realm (qn_reason notice) (qn_attesting_peers notice) with
  | Some _ => (false, r)
  | None =>
      match rm_entries r !! (realm, artifact_hash) with
      | Some e =>
          (true, set_entries (<[(realm, artifact_hash) :=
                    mkEntry (en_manifest e) (en_artifact e) (en_reputation e) (Some notice)]>
                    (rm_entries r)) r)
      | None => (false, r)
      end
  end.

(** ** Reading *)

Definition in_realm (realm : option RealmId) (x : Key * Entry) : Prop :=
  match realm with None => True | Some r => r = x.1.1 end.
#[export] Instance in_realm_dec realm x : Decision (in_realm realm x).
Proof. destruct realm; unfold in_realm; apply _. Defined.

Definition sync_of (x : Key * Entry) : SyncEntry :=
  mkSyncEntry x.1.2 x.1.1 (en_manifest x.2) (en_artifact x.2) (en_reputation x.2)
    (en_quarantine x.2).
Definition catalog_of (x : Key * Entry) : CatalogEntry :=
  mkCatalogEntry x.1.2 x.1.1 (en_manifest x.2) (en_reputation x.2) (en_quarantine x.2).

(** The [try_for_each] of a snapshot. *)
Fixpoint collect_sync (max artifact_bytes : N) (entries : list (Key * Entry)) :
    result string (list SyncEntry) :=
  match entries with
  | [] => Ok []
  | x :: entries =>
      let artifact_bytes := N.min (artifact_bytes + blen (en_artifact x.2)) usize_MAX in
      if bool_decide (max ≠ 0) && bool_decide (max < artifact_bytes) then
        Err ("registry snapshot too large: " +:+ dec artifact_bytes
             +:+ " artifact bytes exceeds " +:+ dec max +:+ " byte limit")
      else rest ← collect_sync max artifact_bytes entries; Ok (sync_of x :: rest)
  end.

Definition sync_entries_with_limit (iter : MapIter) (realm : option RealmId) (max : N)
    (r : RegistryMem) : result string (list SyncEntry) :=
  collect_sync max 0 (filter (in_realm realm) (iter (rm_entries r))).
Definition sync_entries_checked (iter : MapIter) (realm : option RealmId) (r : RegistryMem) :
    result string (list SyncEntry) :=
  sync_entries_with_limit iter realm (rm_max_snapshot_artifact_bytes r) r.
Definition sync_entries (iter : MapIter) (realm : option RealmId) (r : RegistryMem) :
    list SyncEntry :=
  match sync_entries_with_limit iter realm 0 r with Ok l => l | Err _ => [] end.

Definition catalog_entries (iter : MapIter) (realm : option RealmId) (r : RegistryMem) :
    list CatalogEntry :=
  map catalog_of (filter (in_realm realm) (iter (rm_entries r))).

Definition fetch_in (realm : RealmId) (artifact_hash : string) (r : RegistryMem) : option Entry :=
  match artifact_hash_shape_error artifact_hash with
  | Some _ => None
  | None => rm_entries r !! (realm, artifact_hash)
  end.
Definition fetch (artifact_hash : string) (r : RegistryMem) : option Entry :=
  fetch_in RealmId_local artifact_hash r.

Definition fetch_metadata_in (realm : RealmId) (artifact_hash : string) (r : RegistryMem) :
    option (CatalogEntry * N) :=
  match artifact_hash_shape_error artifact_hash with
  | Some _ => None
  | None =>
      e ← rm_entries r !! (realm, artifact_hash);
      Some (catalog_of ((realm, artifact_hash), e), blen (en_artifact e))
  end.

(** ** Transfers *)

Definition clamp (lo hi x : N) : N := N.min hi (N.max lo x).
Definition registry_gx_chunk_size (requested : option N) : N :=
  clamp MIN_CHUNK_SIZE MAX_CHUNK_SIZE (default DEFAULT_CHUNK_SIZE requested).
Definition registry_gx_push_chunk_size (requested : option N) : N :=
  clamp DEFAULT_CHUNK_SIZE MAX_CHUNK_SIZE (default DEFAULT_CHUNK_SIZE requested).
Definition registry_gx_pull_shape_error (pull : GxChunkPull) : option string :=
  registry_transfer_id_shape_error (gp_transfer_id pull) (gp_artifact_hash pull)
    (gp_chunk_size pull).
Definition registry_gx_transfer_id (artifact_hash : string) (chunk_size : N) (env : Envelope) :
    string :=
  registry_transfer_id artifact_hash chunk_size (hd_seq (ev_header env))
    (default 0 (hd_corr (ev_header env))).

Context `{!SerdeJson RegistryOp} `{!SerdeJson RegistryReply} `{!SerdeJson ChunkFrameHeader}.

Definition registry_reply (env : Envelope) (reply : RegistryReply) : Outcome :=
  Outcome_send (with_schema (reply_to_env env (to_bytes reply)) REGISTRY_REPLY_SCHEMA).

(** The dispatch that carries one binary chunk frame. *)
Definition chunk_dispatch (env : Envelope) (frame : bytes) : Dispatch :=
  let dispatch := with_schema (Dispatch_to (reply_target env) frame) TRANSPORT_GX_CHUNK_SCHEMA in
  match hd_corr (ev_header env) with Some corr => with_corr dispatch corr | None => dispatch end.

Definition gx_reply (include_realm : bool) (manifest : Manifest) (artifact_hash : string)
    (plan : TransferPlan) (realm : RealmId) : RegistryReply :=
  if include_realm then
    ReFetchedGxInRealm manifest artifact_hash (tp_transfer_id plan) (tp_file_size plan)
      (tp_file_hash plan) (tp_chunk_size plan) (tp_total_chunks plan) realm
  else
    ReFetchedGx manifest artifact_hash (tp_transfer_id plan) (tp_file_size plan)
      (tp_file_hash plan) (tp_chunk_size plan) (tp_total_chunks plan).

Definition fetch_gx_outcome (env : Envelope) (realm : RealmId) (artifact_hash : string)
    (chunk_size : option N) (include_realm push_chunks : bool) (r : RegistryMem) : Outcome :=
  match artifact_hash_shape_error artifact_hash with
  | Some message => registry_reply env (ReError message)
  | None =>
      match fetch_in realm artifact_hash r with
      | None => registry_reply env ReNotFound
      | Some entry =>
          let chunk_size := if push_chunks then registry_gx_push_chunk_size chunk_size
                            else registry_gx_chunk_size chunk_size in
          let transfer_id := registry_gx_transfer_id artifact_hash chunk_size env in
          match TransferPlan_new transfer_id (blen (en_artifact entry)) artifact_hash chunk_size with
          | Err e =>
              registry_reply env (ReError ("GX fetch refused: " +:+ TransferPlanError_to_string e))
          | Ok plan =>
              let out := registry_reply env
                (gx_reply include_realm (en_manifest entry) artifact_hash plan realm) in
              if negb push_chunks then out
              else
                match mapM (encode_chunk plan (en_artifact entry)) (chunk_indices plan) with
                | Ok frames => mkOutcome (out_dispatches out ++ map (chunk_dispatch env) frames) None
                | Err e =>
                    registry_reply env (ReError ("GX fetch chunk encode failed: "
                                                 +:+ TransferChunkError_to_string e))
                end
          end
      end
  end.

Definition fetch_gx_chunk_outcome (env : Envelope) (realm : RealmId) (pull : GxChunkPull)
    (r : RegistryMem) : Outcome :=
  match artifact_hash_shape_error (gp_artifact_hash pull) with
  | Some message => registry_reply env (ReError message)
  | None =>
      match registry_gx_pull_shape_error pull with
      | Some message => registry_reply env (ReError message)
      | None =>
          match fetch_in realm (gp_artifact_hash pull) r with
          | None => registry_reply env ReNotFound
          | Some entry =>
              match TransferPlan_new (gp_transfer_id pull) (blen (en_artifact entry))
                      (gp_artifact_hash pull)
                      (registry_gx_chunk_size (Some (gp_chunk_size pull))) with
              | Err e =>
                  registry_reply env (ReError ("GX chunk refused: "
                                               +:+ TransferPlanError_to_string e))
              | Ok plan =>
                  match encode_chunk plan (en_artifact entry) (gp_chunk_index pull) with
                  | Err e =>
                      registry_reply env (ReError ("GX chunk refused: "
                                                   +:+ TransferChunkError_to_string e))
                  | Ok frame => Outcome_send (chunk_dispatch env frame)
                  end
              end
          end
      end
  end.

(** ** Messages *)

Definition registry_op (iter : MapIter) (env : Envelope) (op : RegistryOp) (r : RegistryMem) :
    Outcome * RegistryMem :=
  let answer reply := (registry_reply env reply, r) in
  match op with
  | OpPublish manifest artifact realm =>
      let realm := default RealmId_local realm in
      match publish_in_checked iter realm manifest artifact r with
      | (Stored artifact_hash, r') => (registry_reply env (RePublished artifact_hash realm), r')
      | (Refused _ message, r') => (registry_reply env (ReError message), r')
      end
  | OpFetch artifact_hash realm =>
      let realm := default RealmId_local realm in
      answer
        (match artifact_hash_shape_error artifact_hash with
         | Some message => ReError message
         | None =>
             match fetch_in realm artifact_hash r with
             | Some entry => ReFetched (en_manifest entry) (en_artifact entry) realm
             | None => ReNotFound
             end
         end)
  | OpFetchGx artifact_hash chunk_size =>
      (fetch_gx_outcome env RealmId_local artifact_hash chunk_size false true r, r)
  | OpFetchGxPlan artifact_hash chunk_size =>
      (fetch_gx_outcome env RealmId_local artifact_hash chunk_size false false r, r)
  | OpFetchGxChunk artifact_hash transfer_id chunk_size chunk_index =>
      (fetch_gx_chunk_outcome env RealmId_local
         (mkGxChunkPull artifact_hash transfer_id chunk_size chunk_index) r, r)
  | OpFetchMetadata artifact_hash realm =>
      let realm := default RealmId_local realm in
      answer
        (match artifact_hash_shape_error artifact_hash with
         | Some message => ReError message
         | None =>
             match fetch_metadata_in realm artifact_hash r with
             | Some (entry, artifact_len) => ReFetchedMetadata entry artifact_len
             | None => ReNotFound
             end
         end)
  | OpFetchGxInRealm artifact_hash realm chunk_size =>
      (fetch_gx_outcome env realm artifact_hash chunk_size true true r, r)
  | OpFetchGxPlanInRealm artifact_hash realm chunk_size =>
      (fetch_gx_outcome env realm artifact_hash chunk_size true false r, r)
  | OpFetchGxChunkInRealm artifact_hash realm transfer_id chunk_size chunk_index =>
      (fetch_gx_chunk_outcome env realm
         (mkGxChunkPull artifact_hash transfer_id chunk_size chunk_index) r, r)
  | OpAttestFitness artifact_hash realm score attesting_realm signed_by signature =>
      let '(applied, r') :=
        attest_fitness realm artifact_hash
          (mkReputationScore score attesting_realm signed_by signature) r in
      (registry_reply env (if applied then ReAttested artifact_hash realm else ReNotFound), r')
  | OpMarkQuarantine artifact_hash realm reason attesting_peers =>
      match mark_shape_error artifact_hash realm reason attesting_peers with
      | Some message => answer (ReError message)
      | None =>
          let '(applied, r') :=
            mark_quarantine realm artifact_hash (mkQuarantineNotice reason attesting_peers) r in
          (registry_reply env (if applied then ReQuarantined artifact_hash realm else ReNotFound), r')
      end
  | OpListEntries realm =>
      answer (match sync_entries_checked iter realm r with
              | Ok entries => ReEntries entries
              | Err message => ReError message
              end)
  | OpListMetadata realm => answer (ReMetadata (catalog_entries iter realm r))
  end.

Definition registry_handle (iter : MapIter) (env : Envelope) (r : RegistryMem) :
    Outcome * RegistryMem :=
  if bool_decide (rm_max_op_bytes r ≠ 0) && bool_decide (rm_max_op_bytes r < blen (ev_payload env)) then
    (registry_reply env
       (ReError (registry_op_too_large_message (blen (ev_payload env)) (rm_max_op_bytes r))), r)
  else
    match from_slice (ev_payload env) with
    | Err e => (registry_reply env (ReError ("malformed registry op: " +:+ e)), r)
    | Ok op => registry_op iter env op r
    end.
End registry.
