(* ===== verification/RegistryLaws.v ===== *)
(** * The laws of the in-memory registry

    Whatever it receives, the catalogue stays content-addressed, validated and
    bounded, its signals well shaped; the order of its hash map decides nothing but
    the victim of an eviction policy; and an artifact fetched in chunks, pushed or
    pulled, arrives as the bytes that the requested hash names. *)

From S2P Require Import Prelude Serde GxShape GxHash GxWire GxFrame GxEngine FnCrypto FnTypes.
From S2P Require Import AetherAddress AetherEnvelope AetherRouter Sigil F32 BestiaryWire Registry.

(** The order of iteration lists the map. *)
Definition lawful_iter (iter : MapIter) : Prop := ∀ g, iter g ≡ₚ map_to_list g.

Section laws.
  Context `{!Sha256} `{!JsonText}.

(** ** The catalogue *)

Record entry_sound (max_artifact : N) (key : Key) (e : Entry) : Prop := {
  es_address : key.2 = hash_bytes (en_artifact e);
  es_manifest : Manifest_validate (en_manifest e) = Ok tt;
  es_size : max_artifact ≠ 0 → blen (en_artifact e) ≤ max_artifact;
  es_reputation : ∀ s, en_reputation e = Some s → attest_shape_error s key.2 key.1 = None;
  es_quarantine : ∀ q, en_quarantine e = Some q →
    mark_shape_error key.2 key.1 (qn_reason q) (qn_attesting_peers q) = None
}.

Record registry_ok (r : RegistryMem) : Prop := {
  ro_entries : map_Forall (entry_sound (rm_max_artifact_bytes r)) (rm_entries r);
  ro_bounded : rm_max_entries r ≠ 0 → registry_len r ≤ rm_max_entries r
}.

(** Configuration does not change. *)
Definition same_config (r r' : RegistryMem) : Prop :=
  rm_evictor r' = rm_evictor r ∧ rm_max_entries r' = rm_max_entries r
  ∧ rm_max_artifact_bytes r' = rm_max_artifact_bytes r.

Lemma new_entry_sound max_artifact realm m a :
  Manifest_validate m = Ok tt → (max_artifact ≠ 0 → blen a ≤ max_artifact) →
  entry_sound max_artifact (realm, hash_bytes a) (mkEntry m a None None).
Proof. intros Hm Ha. by split. Qed.

(** Room is made by removing one row. *)
Lemma make_room_Some iter r g :
  lawful_iter iter → make_room iter r = Some g →
  ∃ k e, rm_entries r !! k = Some e ∧ g = delete k (rm_entries r).
Proof.
  intros Hi. unfold make_room. destruct (rm_evictor r) as [p|]; [|done]. cbn.
  destruct (p _) as [idx|]; [|done]. cbn.
  destruct (iter (rm_entries r) !! idx) as [[k e]|] eqn:E; [|done]. cbn. intros [= <-].
  exists k, e. split; [|done]. apply elem_of_map_to_list.
  rewrite <- (Hi (rm_entries r)). by eapply list_elem_of_lookup_2.
Qed.

Lemma publish_ok iter realm m a r p r' :
  lawful_iter iter → registry_ok r → publish_in_checked iter realm m a r = (p, r') →
  registry_ok r' ∧ same_config r r'.
Proof.
  intros Hi [F B]. unfold publish_in_checked.
  destruct (_ && bool_decide (_ < blen a)) eqn:Hs; [by intros [= <- <-]|].
  assert (rm_max_artifact_bytes r ≠ 0 → blen a ≤ rm_max_artifact_bytes r) as Ha.
  { intros Hz. rewrite bool_decide_eq_true_2 in Hs by done. cbn in Hs. to_prop. lia. }
  destruct (Manifest_validate m) as [[]|e] eqn:Hm; [|by intros [= <- <-]].
  pose proof (new_entry_sound (rm_max_artifact_bytes r) realm m a Hm Ha) as Hn.
  destruct (_ && bool_decide (rm_entries r !! _ = None)) eqn:Hfull.
  - destruct (make_room iter r) as [g|] eqn:Hr; [|by intros [= <- <-]]. intros [= <- <-].
    apply make_room_Some in Hr as (k & e & Hk & ->); [|done]. split; [|done]. split; cbn.
    + apply map_Forall_insert_2; [done|]. by apply map_Forall_delete.
    + intros Hz. specialize (B Hz). unfold registry_len in *. cbn.
      assert (size (rm_entries r) ≠ 0%nat) by (intros Hn0%map_size_empty_iff; by rewrite Hn0 in Hk).
      rewrite map_size_insert, map_size_delete_Some by (by eexists).
      destruct (delete k (rm_entries r) !! _); cbn; lia.
  - intros [= <- <-]. split; [|done]. split; cbn; [by apply map_Forall_insert_2|].
    intros Hz. specialize (B Hz). unfold registry_len in *. cbn.
    destruct (rm_entries r !! (realm, hash_bytes a)) as [e|] eqn:He.
    + rewrite map_size_insert_Some by (by eexists). done.
    + rewrite (bool_decide_eq_true_2 (rm_max_entries r ≠ 0)), (bool_decide_eq_true_2 (None = None)) in Hfull
        by done. rewrite andb_true_r in Hfull. cbn in Hfull. to_prop. rewrite map_size_insert_None by done. lia.
Qed.

(** Replacing the signals of a row. *)
Lemma update_ok r key e e' :
  registry_ok r → rm_entries r !! key = Some e → entry_sound (rm_max_artifact_bytes r) key e' →
  registry_ok (set_entries (<[key := e']> (rm_entries r)) r).
Proof.
  intros [F B] He Hs. split; cbn; [by apply map_Forall_insert_2|].
  intros Hz. specialize (B Hz). unfold registry_len in *. cbn.
  by rewrite map_size_insert_Some by (by eexists).
Qed.

Lemma attest_ok realm h s r b r' :
  registry_ok r → attest_fitness realm h s r = (b, r') → registry_ok r' ∧ same_config r r'.
Proof.
  intros O. unfold attest_fitness. destruct (attest_shape_error s h realm) eqn:Hs; [by intros [= <- <-]|].
  destruct (rm_entries r !! _) as [e|] eqn:He; intros [= <- <-]; [|done].
  split; [|done]. eapply update_ok; [done|done|].
  destruct (ro_entries _ O _ _ He) as [A M S R Q]. split; cbn; try done. by intros ? [= <-].
Qed.

Lemma mark_ok realm h q r b r' :
  registry_ok r → mark_quarantine realm h q r = (b, r') → registry_ok r' ∧ same_config r r'.
Proof.
  intros O. unfold mark_quarantine. destruct (mark_shape_error _ _ _ _) eqn:Hs; [by intros [= <- <-]|].
  destruct (rm_entries r !! _) as [e|] eqn:He; intros [= <- <-]; [|done].
  split; [|done]. eapply update_ok; [done|done|].
  destruct (ro_entries _ O _ _ He) as [A M S R Q]. split; cbn; try done. by intros ? [= <-].
Qed.

Context `{!SerdeJson RegistryOp} `{!SerdeJson RegistryReply} `{!SerdeJson ChunkFrameHeader}.

Lemma op_ok iter env op r o r' :
  lawful_iter iter → registry_ok r → registry_op iter env op r = (o, r') →
  registry_ok r' ∧ same_config r r'.
Proof.
  intros Hi O. destruct op; cbn; try (by intros [= <- <-]).
  - destruct (publish_in_checked _ _ _ _ _) as [[h|h e] r1] eqn:E; intros [= <- <-]; by eapply publish_ok.
  - destruct (attest_fitness _ _ _ _) as [b r1] eqn:E. intros [= <- <-]. by eapply attest_ok.
  - destruct (mark_shape_error _ _ _ _); [by intros [= <- <-]|].
    destruct (mark_quarantine _ _ _ _) as [b r1] eqn:E. intros [= <- <-]. by eapply mark_ok.
Qed.

Lemma handle_ok iter env r :
  lawful_iter iter → registry_ok r →
  registry_ok (registry_handle iter env r).2 ∧ same_config r (registry_handle iter env r).2.
Proof.
  intros Hi O. unfold registry_handle. destruct (_ && _); [done|].
  destruct (from_slice _) as [op|e]; [|done].
  destruct (registry_op iter env op r) as [o r'] eqn:E. by eapply op_ok.
Qed.

(** Envelopes handled one after the other, each with its order of iteration. *)
Fixpoint registry_run (steps : list (MapIter * Envelope)) (r : RegistryMem) : RegistryMem :=
  match steps with
  | [] => r
  | (iter, env) :: steps => registry_run steps (registry_handle iter env r).2
  end.

Lemma registry_run_ok steps r :
  Forall (fun s => lawful_iter s.1) steps → registry_ok r →
  registry_ok (registry_run steps r) ∧ same_config r (registry_run steps r).
Proof.
  revert r. induction steps as [|[iter env] steps IH]; intros r F O; [done|]. cbn.
  apply Forall_cons in F as [Hi F]. destruct (handle_ok iter env r Hi O) as [O1 (C1 & C2 & C3)].
  destruct (IH _ F O1) as [O2 (D1 & D2 & D3)]. split; [done|]. split_and!; congruence.
Qed.

Lemma empty_registry_ok r : rm_entries r = ∅ → registry_ok r.
Proof.
  intros E. split; rewrite ?E; [apply map_Forall_empty|]. intros _. unfold registry_len. rewrite E.
  change (size (∅ : Catalog)) with 0%nat. lia.
Qed.
(** ** What a message does to a row *)

(** The row of [k] after [op]: a publication replaces it and drops both its signals, a
    score replaces the score and a notice the marker, each leaving the rest; anything
    else, and every refusal, leaves the row.  [room] is whether a new row fits. *)
Definition row_after (room : bool) (r : RegistryMem) (op : RegistryOp) (k : Key) : option Entry :=
  let old := rm_entries r !! k in
  match op with
  | OpPublish m a realm =>
      if bool_decide (k = (default RealmId_local realm, hash_bytes a))
         && (bool_decide (rm_max_artifact_bytes r = 0) || bool_decide (blen a ≤ rm_max_artifact_bytes r))
         && is_ok (Manifest_validate m) && (bool_decide (is_Some old) || room)
      then Some (mkEntry m a None None) else old
  | OpAttestFitness h realm score attesting_realm signed_by signature =>
      let s := mkReputationScore score attesting_realm signed_by signature in
      if bool_decide (k = (realm, h)) && bool_decide (attest_shape_error s h realm = None)
      then e ← old; Some (mkEntry (en_manifest e) (en_artifact e) (Some s) (en_quarantine e)) else old
  | OpMarkQuarantine h realm reason peers =>
      if bool_decide (k = (realm, h)) && bool_decide (mark_shape_error h realm reason peers = None)
      then e ← old; Some (mkEntry (en_manifest e) (en_artifact e) (en_reputation e)
                            (Some (mkQuarantineNotice reason peers))) else old
  | _ => old
  end.

Definition has_room (r : RegistryMem) : bool :=
  bool_decide (rm_max_entries r = 0) || bool_decide (registry_len r < rm_max_entries r).

(** A row that is missing after a publication was evicted for a new one. *)
Definition evicted (r : RegistryMem) (op : RegistryOp) (k : Key) : Prop :=
  is_Some (rm_evictor r) ∧ has_room r = false
  ∧ ∃ m a realm, op = OpPublish m a realm ∧ k ≠ (default RealmId_local realm, hash_bytes a)
      ∧ rm_entries r !! (default RealmId_local realm, hash_bytes a) = None.

Lemma attest_row realm h s r k :
  rm_entries (attest_fitness realm h s r).2 !! k
  = if bool_decide (k = (realm, h)) && bool_decide (attest_shape_error s h realm = None)
    then e ← rm_entries r !! k;
         Some (mkEntry (en_manifest e) (en_artifact e) (Some s) (en_quarantine e))
    else rm_entries r !! k.
Proof.
  unfold attest_fitness. destruct (attest_shape_error s h realm) eqn:Hs;
    [by rewrite (bool_decide_eq_false_2 (Some _ = None)), andb_false_r by done|].
  rewrite (bool_decide_eq_true_2 (None = None)), andb_true_r by done.
  case_bool_decide as Hk; [subst k|]; destruct (rm_entries r !! (realm, h)) eqn:E; cbn;
    [by rewrite lookup_insert_eq|by rewrite E|by rewrite lookup_insert_ne|done].
Qed.

Lemma mark_row realm h q r k :
  rm_entries (mark_quarantine realm h q r).2 !! k
  = if bool_decide (k = (realm, h))
       && bool_decide (mark_shape_error h realm (qn_reason q) (qn_attesting_peers q) = None)
    then e ← rm_entries r !! k;
         Some (mkEntry (en_manifest e) (en_artifact e) (en_reputation e) (Some q))
    else rm_entries r !! k.
Proof.
  unfold mark_quarantine. destruct (mark_shape_error _ _ _ _) eqn:Hs;
    [by rewrite (bool_decide_eq_false_2 (Some _ = None)), andb_false_r by done|].
  rewrite (bool_decide_eq_true_2 (None = None)), andb_true_r by done.
  case_bool_decide as Hk; [subst k|]; destruct (rm_entries r !! (realm, h)) eqn:E; cbn;
    [by rewrite lookup_insert_eq|by rewrite E|by rewrite lookup_insert_ne|done].
Qed.

Lemma make_room_delete iter r g :
  make_room iter r = Some g → is_Some (rm_evictor r) ∧ ∃ k, g = delete k (rm_entries r).
Proof.
  unfold make_room. destruct (rm_evictor r) as [p|]; [|done]. cbn.
  destruct (p _) as [idx|]; [|done]. cbn. destruct (iter _ !! idx) as [[k e]|]; [|done].
  intros [= <-]. split; [done|by exists k].
Qed.

Lemma publish_row iter realm m a r k :
  let r' := (publish_in_checked iter (default RealmId_local realm) m a r).2 in
  let op := OpPublish m a realm in
  rm_entries r' !! k = row_after (has_room r || bool_decide (is_Some (make_room iter r))) r op k
  ∨ rm_entries r' !! k = None ∧ evicted r op k.
Proof.
  cbv zeta. unfold publish_in_checked. destruct (_ && bool_decide (_ < blen a)) eqn:Hbig.
  { left. cbn. apply andb_true_iff in Hbig as [H1 H2]. to_prop.
    rewrite (bool_decide_eq_false_2 (rm_max_artifact_bytes r = 0)),
      (bool_decide_eq_false_2 (blen a ≤ rm_max_artifact_bytes r)) by lia. by rewrite andb_false_r. }
  assert (bool_decide (rm_max_artifact_bytes r = 0) || bool_decide (blen a ≤ rm_max_artifact_bytes r)
          = true) as Hfits.
  { apply orb_true_iff. rewrite !bool_decide_eq_true. apply andb_false_iff in Hbig as [Hb|Hb];
      apply bool_decide_eq_false in Hb; lia. }
  cbn [row_after]. rewrite Hfits, andb_true_r.
  destruct (Manifest_validate m) as [[]|e]; cbn [is_ok]; [rewrite andb_true_r|left; by rewrite andb_false_r].
  set (key := (default RealmId_local realm, hash_bytes a)).
  destruct (_ && bool_decide (rm_entries r !! _ = None)) eqn:Hcap.
  - apply andb_true_iff in Hcap as [Hfull Hnew]. apply bool_decide_eq_true in Hnew.
    assert (has_room r = false) as Hroom.
    { unfold has_room. apply andb_true_iff in Hfull as [H1 H2]. to_prop.
      by rewrite !bool_decide_eq_false_2 by lia. }
    rewrite Hroom. cbn [orb]. destruct (make_room iter r) as [g|] eqn:Hg; cbn.
    + apply make_room_delete in Hg as [He [v ->]]. destruct (bool_decide_reflect (k = key)) as [Hk|Hk]; cbn.
      * rewrite Hk. left. by rewrite orb_true_r, lookup_insert_eq.
      * rewrite lookup_insert_ne by done. destruct (decide (v = k)) as [->|Hv].
        -- right. rewrite lookup_delete_eq. split; [done|]. split; [done|]. split; [done|].
           by exists m, a, realm.
        -- left. by rewrite lookup_delete_ne.
    + left. destruct (bool_decide_reflect (k = key)) as [Hk|Hk]; [|done]. rewrite Hk. cbn. by rewrite Hnew.
  - left. cbn. destruct (bool_decide_reflect (k = key)) as [Hk|Hk]; cbn; [rewrite Hk|by rewrite lookup_insert_ne].
    rewrite lookup_insert_eq. assert (bool_decide (is_Some (rm_entries r !! key)) || (has_room r
      || bool_decide (is_Some (make_room iter r))) = true) as ->; [|done].
    apply andb_false_iff in Hcap as [Hc|Hc].
    + assert (has_room r = true) as ->; [|by rewrite orb_true_r]. unfold has_room. apply orb_true_iff.
      rewrite !bool_decide_eq_true. apply andb_false_iff in Hc as [Hc|Hc]; apply bool_decide_eq_false in Hc; lia.
    + apply bool_decide_eq_false in Hc. apply orb_true_iff. left. apply bool_decide_eq_true.
      by apply not_eq_None_Some.
Qed.

(** The registry reads [op]. *)
Definition hears (r : RegistryMem) (env : Envelope) (op : RegistryOp) : Prop :=
  (rm_max_op_bytes r = 0 ∨ blen (ev_payload env) ≤ rm_max_op_bytes r)
  ∧ from_slice (ev_payload env) = Ok op.

Lemma handle_hears iter env r op :
  hears r env op → registry_handle iter env r = registry_op iter env op r.
Proof.
  intros [Hl Hop]. unfold registry_handle. rewrite Hop.
  destruct (_ && _) eqn:E; [|done]. apply andb_true_iff in E as [E1 E2]. to_prop. lia.
Qed.

Lemma handle_unheard iter env r :
  (∀ op, ¬ hears r env op) → (registry_handle iter env r).2 = r.
Proof.
  intros Hn. unfold registry_handle. destruct (_ && _) eqn:E; [done|].
  destruct (from_slice (ev_payload env)) as [op|] eqn:Ef; [|done]. destruct (Hn op). split; [|done].
  apply andb_false_iff in E as [E|E]; apply bool_decide_eq_false in E; lia.
Qed.

(** Every message leaves every row as [row_after] says, but for the victim of an
    eviction. *)
Lemma op_row iter env op r k :
  let r' := (registry_op iter env op r).2 in
  rm_entries r' !! k = row_after (has_room r || bool_decide (is_Some (make_room iter r))) r op k
  ∨ rm_entries r' !! k = None ∧ evicted r op k.
Proof.
  cbv zeta. destruct op; cbn [registry_op snd]; try by left.
  - pose proof (publish_row iter realm manifest artifact r k) as P. cbv zeta in P.
    destruct (publish_in_checked _ _ _ _ _) as [[] r']; exact P.
  - pose proof (attest_row realm artifact_hash (mkReputationScore score attesting_realm signed_by signature)
      r k) as P. destruct (attest_fitness _ _ _ _) as [b r']. left. exact P.
  - left. destruct (mark_shape_error artifact_hash realm reason attesting_peers) eqn:Hs; cbn [snd row_after].
    + by rewrite Hs, (bool_decide_eq_false_2 (Some _ = None)), andb_false_r by done.
    + pose proof (mark_row realm artifact_hash (mkQuarantineNotice reason attesting_peers) r k) as P.
      destruct (mark_quarantine _ _ _ _) as [b r']. exact P.
Qed.

(** What the shape check says of a score. *)
Lemma attest_shape_facts s h realm :
  attest_shape_error s h realm = None →
  f32_is_finite (rs_score s) = true ∧ (is_Some (rs_signed_by s) ↔ is_Some (rs_signature s))
  ∧ attest_shape_error s h realm = None.
Proof.
  intros R. pose proof R as R0. unfold attest_shape_error in R.
  apply or_error_None in R as [_ R]. apply or_error_None in R as [_ R].
  apply or_error_None in R as [Rf R]. apply reject_if_None, negb_false_iff in Rf.
  apply or_error_None in R as [_ R]. split_and!; [done| |done].
  destruct (rs_signed_by s), (rs_signature s); try done; split; by eexists.
Qed.

(** ** Fetching *)

Lemma fetch_sound realm h r e :
  registry_ok r → fetch_in realm h r = Some e →
  hash_bytes (en_artifact e) = h ∧ sha256_hex_ok h ∧ rm_entries r !! (realm, h) = Some e
  ∧ entry_sound (rm_max_artifact_bytes r) (realm, h) e.
Proof.
  intros O. unfold fetch_in. destruct (artifact_hash_shape_error h) eqn:Hh; [done|].
  apply artifact_hash_shape_None in Hh. intros He. pose proof (ro_entries _ O _ _ He) as S.
  split_and!; [|done|done|done]. symmetry. apply (es_address _ _ _ S).
Qed.

Lemma chunk_size_clamped requested : chunk_size_ok (registry_gx_chunk_size requested).
Proof.
  unfold registry_gx_chunk_size, clamp, chunk_size_ok. generalize (default DEFAULT_CHUNK_SIZE requested).
  intros n. assert (MIN_CHUNK_SIZE ≤ MAX_CHUNK_SIZE) by done. lia.
Qed.

Lemma push_chunk_size_clamped requested : chunk_size_ok (registry_gx_push_chunk_size requested).
Proof.
  unfold registry_gx_push_chunk_size, clamp, chunk_size_ok.
  generalize (default DEFAULT_CHUNK_SIZE requested). intros n.
  assert (DEFAULT_CHUNK_SIZE ≤ MAX_CHUNK_SIZE) by done.
  assert (MIN_CHUNK_SIZE ≤ DEFAULT_CHUNK_SIZE) by done. lia.
Qed.

Lemma chunk_size_kept cs : chunk_size_ok cs → registry_gx_chunk_size (Some cs) = cs.
Proof. unfold chunk_size_ok, registry_gx_chunk_size, clamp. cbn. lia. Qed.

Lemma plan_exists id n h cs :
  chunk_id_shape_error "transfer_id" id MAX_TRANSFER_ID_BYTES = None → sha256_hex_ok h →
  chunk_size_ok cs → n ≤ u32_MAX * MIN_CHUNK_SIZE →
  ∃ plan, TransferPlan_new id n h cs = Ok plan ∧ tp_transfer_id plan = id ∧ tp_chunk_size plan = cs.
Proof.
  intros Hid Hh [Hc1 Hc2] Hn. unfold TransferPlan_new. rewrite Hid.
  rewrite (proj2 (sha256_hex_shape_error_None _ _) Hh). unfold compute_chunks.
  rewrite !decide_False by (unfold MIN_CHUNK_SIZE in *; lia).
  set (chunks := if decide (n = 0) then 1 else div_ceil n cs).
  assert (chunks ≤ u32_MAX) as Hk.
  { unfold chunks. case_decide; [done|]. destruct (proj1 (div_ceil_spec n cs _ ltac:(lia)
      ltac:(unfold MIN_CHUNK_SIZE in *; lia)) eq_refl) as (Hq & _). nia. }
  rewrite (proj2 (try_from_Some _ _ _) (conj eq_refl Hk)). cbn. by eexists.
Qed.

(** The transfer id that a plan gets is well formed. *)
Definition counters_fit (env : Envelope) : Prop :=
  hd_seq (ev_header env) ≤ u64_MAX ∧ default 0 (hd_corr (ev_header env)) ≤ u64_MAX.

Lemma transfer_id_ok env h cs :
  counters_fit env → sha256_hex_ok h → chunk_size_ok cs →
  registry_transfer_id_shape_error (registry_gx_transfer_id h cs env) h cs = None
  ∧ chunk_id_shape_error "transfer_id" (registry_gx_transfer_id h cs env) MAX_TRANSFER_ID_BYTES = None.
Proof.
  intros [Hs Hc] Hh Hcs. pose proof (registry_transfer_id_roundtrip h cs _ _ Hh Hcs Hs Hc) as R.
  split; [exact R|]. unfold registry_transfer_id_shape_error in R. by apply or_error_None in R as [R _].
Qed.

(** The chunk frames among the dispatches of some outcomes. *)
Definition chunk_frames (outs : list Outcome) : list bytes :=
  di_payload <$> filter (fun d => di_schema d = TRANSPORT_GX_CHUNK_SCHEMA)
                   (concat (out_dispatches <$> outs)).
Definition served (o : Outcome) : Prop :=
  ∃ d, out_dispatches o = [d] ∧ di_schema d = TRANSPORT_GX_CHUNK_SCHEMA.

Lemma chunk_dispatch_shape env frame :
  di_schema (chunk_dispatch env frame) = TRANSPORT_GX_CHUNK_SCHEMA
  ∧ di_payload (chunk_dispatch env frame) = frame.
Proof. unfold chunk_dispatch. by destruct (hd_corr _). Qed.

Lemma reply_not_served env reply : ¬ served (registry_reply env reply).
Proof. by intros (d & [= <-] & Hs). Qed.

(** One pull of a chunk of a plan. *)
Definition pull_chunk (r : RegistryMem) (realm : RealmId) (h : string) (plan : TransferPlan)
    (x : Envelope * N) : Outcome :=
  fetch_gx_chunk_outcome x.1 realm
    (mkGxChunkPull h (tp_transfer_id plan) (tp_chunk_size plan) x.2) r.

(** A pull is answered with the chunk of the plan it names. *)
Lemma pull_chunk_served r realm h e plan id cs x :
  registry_ok r → fetch_in realm h r = Some e →
  TransferPlan_new id (blen (en_artifact e)) h cs = Ok plan → tp_transfer_id plan = id →
  tp_chunk_size plan = cs → chunk_size_ok cs → registry_transfer_id_shape_error id h cs = None →
  served (pull_chunk r realm h plan x) →
  ∃ frame, encode_chunk plan (en_artifact e) x.2 = Ok frame
    ∧ pull_chunk r realm h plan x = Outcome_send (chunk_dispatch x.1 frame).
Proof.
  intros O Hf Hp Hid Hcs Hok Hsh. unfold pull_chunk, fetch_gx_chunk_outcome. cbn.
  destruct (fetch_sound _ _ _ _ O Hf) as (_ & Hh%artifact_hash_shape_None & _).
  rewrite Hh. unfold registry_gx_pull_shape_error. cbn. rewrite Hid, Hcs, Hsh, Hf.
  rewrite chunk_size_kept by done. rewrite Hp. destruct (encode_chunk plan _ _) as [frame|err].
  - intros _. by exists frame.
  - intros S. by apply reply_not_served in S.
Qed.

Lemma chunk_frames_cons o outs : chunk_frames (o :: outs) = chunk_frames [o] ++ chunk_frames outs.
Proof. unfold chunk_frames. cbn. by rewrite app_nil_r, filter_app, fmap_app. Qed.

Lemma chunk_frames_dispatch env frame :
  chunk_frames [Outcome_send (chunk_dispatch env frame)] = [frame].
Proof.
  unfold chunk_frames. cbn [fmap list_fmap concat out_dispatches Outcome_send app].
  destruct (chunk_dispatch_shape env frame) as [Hs Hp].
  rewrite filter_cons_True by done. cbn. by rewrite Hp.
Qed.

Lemma pulls_encode r realm h plan a pulls :
  (∀ x, x ∈ pulls → ∃ frame, encode_chunk plan a x.2 = Ok frame
     ∧ pull_chunk r realm h plan x = Outcome_send (chunk_dispatch x.1 frame)) →
  mapM (encode_chunk plan a) (pulls.*2) = Ok (chunk_frames (pull_chunk r realm h plan <$> pulls)).
Proof.
  induction pulls as [|x pulls IH]; intros Hx; [done|].
  destruct (Hx x ltac:(by left)) as (frame & He & Hp).
  rewrite !fmap_cons, chunk_frames_cons, Hp, chunk_frames_dispatch.
  specialize (IH (fun y Hy => Hx y ltac:(by right))).
  set (fs := chunk_frames _) in *. clearbody fs. cbn. rewrite He. cbn. by rewrite IH.
Qed.

(** Frames of all chunks, taken in another order. *)
Lemma mapM_reorder {A} (f : N → result A bytes) n frames ix :
  mapM f (N.of_nat <$> seq 0 n) = Ok frames → (∀ i, i ∈ ix → i < N.of_nat n) →
  mapM f ix = Ok (omap (fun i => frames !! N.to_nat i) ix).
Proof.
  intros Hm. assert (∀ i, (i < n)%nat → ∃ b, f (N.of_nat i) = Ok b ∧ frames !! i = Some b) as Hl.
  { assert (∀ k m fs, mapM f (N.of_nat <$> seq k m) = Ok fs →
              ∀ i, (i < m)%nat → ∃ b, f (N.of_nat (k + i)) = Ok b ∧ fs !! i = Some b) as Hg.
    { intros k m. revert k. induction m as [|m IH]; intros k fs E i Hi; [lia|]. cbn in E.
      apply bind_Ok in E as (b & Hb & E). apply bind_Ok in E as (bs & Hbs & E). injection E as <-.
      destruct i as [|i]; [exists b; by rewrite Nat.add_0_r|].
      destruct (IH _ _ Hbs i ltac:(lia)) as (c & Hc & Hi'). exists c.
      by replace (k + S i)%nat with (S k + i)%nat by lia. }
    intros i Hi. destruct (Hg 0%nat n frames Hm i Hi) as (b & Hb & Hi'). by exists b. }
  induction ix as [|i ix IH]; intros Hi; [done|].
  destruct (Hl (N.to_nat i)) as (b & Hb & Hf); [specialize (Hi i ltac:(by left)); lia|].
  rewrite N2Nat.id in Hb. cbn. rewrite Hb, Hf. cbn. rewrite IH by (intros j Hj; apply Hi; by right). done.
Qed.
(** ** Retention *)

Lemma publish_keeps iter realm m a r p r' k :
  rm_evictor r = None → is_Some (rm_entries r !! k) → publish_in_checked iter realm m a r = (p, r') →
  is_Some (rm_entries r' !! k).
Proof.
  intros Hn Hk. unfold publish_in_checked, make_room. rewrite Hn. cbn.
  destruct (_ && bool_decide (_ < blen a)); [by intros [= <- <-]|].
  destruct (Manifest_validate m); [|by intros [= <- <-]].
  destruct (_ && _); intros [= <- <-]; [done|]. cbn. rewrite lookup_insert_is_Some.
  destruct (decide ((realm, hash_bytes a) = k)); naive_solver.
Qed.

Lemma signal_keeps (g : Catalog) key e k : is_Some (g !! k) → is_Some (<[key := e]> g !! k).
Proof. intros Hk. apply lookup_insert_is_Some. destruct (decide (key = k)); naive_solver. Qed.

Lemma registry_handle_keeps iter env r k :
  rm_evictor r = None → is_Some (rm_entries r !! k) →
  is_Some (rm_entries (registry_handle iter env r).2 !! k).
Proof.
  intros Hn Hk. unfold registry_handle. destruct (_ && _); [done|].
  destruct (from_slice _) as [op|e]; [|done]. destruct op; try done; cbn.
  - destruct (publish_in_checked _ _ _ _ _) as [[h|h e] r1] eqn:E; by eapply publish_keeps.
  - unfold attest_fitness. repeat case_match; simplify_eq/=; try done; by apply signal_keeps.
  - unfold mark_quarantine. repeat case_match; simplify_eq/=; try done; by apply signal_keeps.
Qed.

Lemma registry_run_keeps steps r k :
  Forall (fun s => lawful_iter s.1) steps → registry_ok r → rm_evictor r = None →
  is_Some (rm_entries r !! k) → is_Some (rm_entries (registry_run steps r) !! k).
Proof.
  revert r. induction steps as [|[iter env] steps IH]; intros r F O Hn Hk; [done|]. cbn.
  apply Forall_cons in F as [Hi F]. destruct (handle_ok iter env r Hi O) as [O1 (C1 & _)].
  apply IH; [done|done|congruence|]. by apply registry_handle_keeps.
Qed.

Lemma publish_stored iter realm m a r h r' :
  publish_in_checked iter realm m a r = (Stored h, r') →
  h = hash_bytes a ∧ rm_entries r' !! (realm, h) = Some (mkEntry m a None None).
Proof.
  unfold publish_in_checked. destruct (_ && bool_decide (_ < blen a)); [done|].
  destruct (Manifest_validate m); [|done].
  destruct (_ && _); [destruct (make_room iter r); [|done]|]; intros [= <- <-]; cbn;
    by rewrite lookup_insert_eq.
Qed.
Lemma plan_rebuilds `{!ShaHex} `{!SerdeRoundTrip ChunkFrameHeader} id source h cs plan max a ix frames :
  TransferPlan_new id (blen source) h cs = Ok plan → hash_bytes source = h →
  with_max_file_size plan max = Ok a → (∀ i, i ∈ ix ↔ i < tp_total_chunks plan) →
  mapM (encode_chunk plan source) ix = Ok frames →
  ∃ rs a', accept_frames a frames = Some (rs, a') ∧ finish a' = Ok source.
Proof.
  intros Hp <- Ha Hcov Hm.
  destruct (cover_rebuilds source id cs max plan a ix frames Hp Ha Hcov Hm) as (rs & a' & E1 & _ & E2 & _).
  by eauto.
Qed.
End laws.

(** ** A concrete registry *)

Module registry_sample.
#[local] Existing Instances zero_sha stuffed_text.
Definition manifest : Manifest := Manifest_new "f" "1" BBeast "v1".
Definition artifact : bytes := replicate 1500 Byte.x2a.
Definition op : RegistryOp := OpPublish manifest artifact None.
#[local] Instance ops : SerdeJson RegistryOp := {| to_vec _ := Ok []; from_slice _ := Ok op |}.
#[local] Instance replies : SerdeJson RegistryReply :=
  {| to_vec _ := Ok []; from_slice _ := Err "" |}.
#[local] Instance headers : SerdeJson ChunkFrameHeader := countable_serde _.
Definition env : Envelope :=
  mkEnvelope (mkHeader (ACreature 1) (ACreature 2) None 3 [] 0 "" None None REGISTRY_OP_SCHEMA None) [].
Definition iter : MapIter := map_to_list.
Definition before : RegistryMem := with_max_entries 1 RegistryMem_new.
Definition after : RegistryMem := registry_run [(iter, env)] before.
Definition plan : TransferPlan :=
  mkTransferPlan (registry_gx_transfer_id zeros64 1024 env) 1500 zeros64 1024 2.
Definition assembler : ChunkAssembler :=
  mkChunkAssembler plan [false; false] 0 (replicate 1500 Byte.x00).
Definition pulls : list (Envelope * N) := [(env, 1); (env, 0); (env, 1)].

Lemma registry_sample_lawful : lawful_iter iter.
Proof. by intros g. Qed.
Lemma fetched : fetch_in RealmId_local zeros64 after = Some (mkEntry manifest artifact None None).
Proof. vm_compute. reflexivity. Qed.
Lemma after_ok : registry_ok after.
Proof. apply registry_run_ok; [|by apply empty_registry_ok]. constructor; [apply registry_sample_lawful|constructor]. Qed.
End registry_sample.

(** ** Properties *)



(** An artifact arrives intact. For a row of a sound registry, a fetch in
    chunks offers a plan under the requested hash; a receiver that opens the plan
    and pulls every chunk, in any order, with repetitions and through any
    envelopes, and is served, ends with exactly the artifact; and so does a
    receiver of the pushed chunks, when the registry pushes any. *)
Theorem registry_transfer_delivers `{!Sha256} (X : ShaHex) `{!SerdeJson RegistryReply}
    `{!SerdeJson ChunkFrameHeader} (RT : SerdeRoundTrip ChunkFrameHeader) `{!JsonText}
    (r : RegistryMem) (O : registry_ok r) (env : Envelope) (realm : RealmId) (h : string)
    (chunk_size : option N) (include_realm : bool) (e : Entry)
    (Hfetch : fetch_in realm h r = Some e) (Hfit : counters_fit env)
    (Hsize : blen (en_artifact e) ≤ u32_MAX * MIN_CHUNK_SIZE) :
  (∃ plan, fetch_gx_outcome env realm h chunk_size include_realm false r
           = registry_reply env (gx_reply include_realm (en_manifest e) h plan realm)
     ∧ TransferPlan_new (registry_gx_transfer_id h (registry_gx_chunk_size chunk_size) env)
         (blen (en_artifact e)) h (registry_gx_chunk_size chunk_size) = Ok plan
     ∧ ∀ max a pulls, with_max_file_size plan max = Ok a →
         (∀ i, i ∈ pulls.*2 ↔ i < tp_total_chunks plan) →
         Forall served (pull_chunk r realm h plan <$> pulls) →
         ∃ rs a', accept_frames a (chunk_frames (pull_chunk r realm h plan <$> pulls)) = Some (rs, a')
           ∧ finish a' = Ok (en_artifact e))
  ∧ ∃ plan, tp_file_hash plan = h
      ∧ ((∃ m, fetch_gx_outcome env realm h chunk_size include_realm true r
               = registry_reply env (ReError m))
         ∨ ∃ frames, out_dispatches (fetch_gx_outcome env realm h chunk_size include_realm true r)
             = out_dispatches (registry_reply env (gx_reply include_realm (en_manifest e) h plan realm))
               ++ map (chunk_dispatch env) frames
             ∧ ∀ max a ix, with_max_file_size plan max = Ok a →
                 (∀ i, i ∈ ix ↔ i < tp_total_chunks plan) →
                 ∃ rs a', accept_frames a (omap (fun i => frames !! N.to_nat i) ix) = Some (rs, a')
                   ∧ finish a' = Ok (en_artifact e)).
Proof.
  destruct (fetch_sound _ _ _ _ O Hfetch) as (Hh & Hx & _).
  assert (artifact_hash_shape_error h = None) as Hs by (by apply artifact_hash_shape_None).
  split.
  - pose proof (chunk_size_clamped chunk_size) as Hc. set (cs := registry_gx_chunk_size chunk_size) in *.
    destruct (transfer_id_ok env h cs Hfit Hx Hc) as [Hid Hid'].
    destruct (plan_exists _ _ h cs Hid' Hx Hc Hsize) as (plan & Hp & Ei & Ec). exists plan.
    pose proof (TransferPlan_new_Ok _ _ _ _ _ Hp) as (_ & _ & Eh). split_and!; [|done|].
    + unfold fetch_gx_outcome. rewrite Hs, Hfetch. cbn [negb]. fold cs. by rewrite Hp.
    + intros max a pulls Ha Hcov Hserved.
      assert (mapM (encode_chunk plan (en_artifact e)) (pulls.*2)
              = Ok (chunk_frames (pull_chunk r realm h plan <$> pulls))) as Hm.
      { apply pulls_encode. intros x Hin. eapply pull_chunk_served; try done.
        rewrite Forall_forall in Hserved. apply Hserved. by apply list_elem_of_fmap_2. }
      by eapply plan_rebuilds.
  - pose proof (push_chunk_size_clamped chunk_size) as Hc. set (cs := registry_gx_push_chunk_size chunk_size) in *.
    destruct (transfer_id_ok env h cs Hfit Hx Hc) as [Hid Hid'].
    destruct (plan_exists _ _ h cs Hid' Hx Hc Hsize) as (plan & Hp & Ei & Ec). exists plan.
    pose proof (TransferPlan_new_Ok _ _ _ _ _ Hp) as (_ & _ & Eh). split; [done|].
    unfold fetch_gx_outcome. rewrite Hs, Hfetch. cbn [negb]. fold cs. rewrite Hp.
    destruct (mapM _ (chunk_indices plan)) as [frames|err] eqn:Em; [right|left; by eexists].
    exists frames. split; [done|]. intros max a ix Ha Hcov. unfold chunk_indices in Em.
    apply (mapM_reorder _ _ _ ix) in Em; [|intros i Hi%Hcov; lia].
    by eapply plan_rebuilds.
Qed.

Lemma registry_transfer_delivers_witness :
  ∃ rs a', @accept_frames zero_sha registry_sample.headers registry_sample.assembler
      (chunk_frames (@pull_chunk zero_sha registry_sample.replies registry_sample.headers
         registry_sample.after RealmId_local zeros64 registry_sample.plan <$> registry_sample.pulls))
    = Some (rs, a') ∧ @finish zero_sha a' = Ok registry_sample.artifact.
Proof.
  destruct (@registry_transfer_delivers zero_sha zero_sha_hex registry_sample.replies
    registry_sample.headers (countable_serde_roundtrip _) stuffed_text registry_sample.after
    registry_sample.after_ok registry_sample.env RealmId_local zeros64 (Some 1024) false _
    registry_sample.fetched ltac:(by split) ltac:(vm_compute; discriminate))
    as [(plan & _ & Hp & H) _].
  assert (plan = registry_sample.plan) as -> by (clear H; vm_compute in Hp; injection Hp as <-; reflexivity).
  apply (H 0 registry_sample.assembler registry_sample.pulls).
  - vm_compute. reflexivity.
  - intros i. cbn. rewrite !elem_of_cons, elem_of_nil. lia.
  - repeat constructor; eexists; (split; [vm_compute; reflexivity|vm_compute; reflexivity]).
Defined.
