(* ===== verification/Seer.v ===== *)
(** * SEER envelopes

    [cosmos/seer/src/lib.rs], the envelope: one of five conversation moves on one
    of the reserved topics, carried as the JSON payload of a bus envelope. *)

From S2P Require Import Prelude F32 Serde FnCrypto AetherEnvelope.

Definition SEER_SCHEMA : string := "seer".
Definition MAX_SEER_ENVELOPE_BYTES : N := 1024 * 1024.

Inductive SeerTopic : Type :=
  | Authoring | Placement | Policy | Budget | Fitness | Consensus | Curation | Dialogue.

#[export] Instance SeerTopic_eq_dec : EqDecision SeerTopic.
Proof. solve_decision. Defined.

Definition SeerTopic_as_str (t : SeerTopic) : string :=
  match t with
  | Authoring => "authoring" | Placement => "placement" | Policy => "policy"
  | Budget => "budget" | Fitness => "fitness" | Consensus => "consensus"
  | Curation => "curation" | Dialogue => "dialogue"
  end.

Inductive SeerKind : Type :=
  | Query (query_id : N) (body : json)
  | Answer (query_id : N) (body : json)
  | Steer (kind : string) (payload : json)
  | Progress (stage : string) (fraction : option f32) (note : option string)
  | Thought (channel content : string).

Record SeerEnvelope : Type := mkSeerEnvelope {
  se_topic : SeerTopic;
  se_corr : N;
  se_kind : SeerKind
}.

Inductive SeerParseError : Type :=
  | SeerTooLarge (len limit : N)
  | SeerJson (message : string).

(** [serde_json::from_value], and [aether::wire::to_value]. *)
Class FromValue (T : Type) : Type := from_value : json → result string T.
Definition wire_to_value {T} `{!ToValue T} (value : T) : json :=
  match to_value value with Ok v => v | Err _ => JNull end.

(** A body read back from its value. *)
Class ValueRoundTrip (T : Type) `{!ToValue T} `{!FromValue T} : Prop :=
  from_value_to_value : ∀ (x : T) v, to_value x = Ok v → from_value v = Ok x.

Definition seer_query {T} `{!ToValue T} (topic : SeerTopic) (corr query_id : N) (body : T) :
    SeerEnvelope := mkSeerEnvelope topic corr (Query query_id (wire_to_value body)).
Definition seer_answer {T} `{!ToValue T} (topic : SeerTopic) (corr query_id : N) (body : T) :
    SeerEnvelope := mkSeerEnvelope topic corr (Answer query_id (wire_to_value body)).
Definition seer_steer {T} `{!ToValue T} (topic : SeerTopic) (corr : N) (kind : string)
    (payload : T) : SeerEnvelope := mkSeerEnvelope topic corr (Steer kind (wire_to_value payload)).
Definition seer_progress (topic : SeerTopic) (corr : N) (stage : string) (fraction : option f32)
    (note : option string) : SeerEnvelope := mkSeerEnvelope topic corr (Progress stage fraction note).
Definition seer_thought (topic : SeerTopic) (corr : N) (channel content : string) : SeerEnvelope :=
  mkSeerEnvelope topic corr (Thought channel content).

Section parse.
  Context `{!SerdeJson SeerEnvelope}.

Definition seer_parse_with_limit (b : bytes) (limit : N) : result SeerParseError SeerEnvelope :=
  if bool_decide (limit < blen b) then Err (SeerTooLarge (blen b) limit)
  else match from_slice b with Ok s => Ok s | Err e => Err (SeerJson e) end.
Definition seer_parse_bounded (b : bytes) : result SeerParseError SeerEnvelope :=
  seer_parse_with_limit b MAX_SEER_ENVELOPE_BYTES.
End parse.
