(* ===== verification/Federator.v ===== *)
(** * The federator

    [cosmos/creatures/omega-federator/src/lib.rs]: routing of addresses in other
    realms, anti-entropy pulls of a peer's catalogue into the local registry,
    signed reputation observations sent and taken in over SEER, and quarantine
    notices.

    The weight model and the verifier are injected. The [Debug] text of an address,
    used in one message, is an argument; so is the order in which the configured
    map of realms is iterated. *)

From S2P Require Import Prelude F32 Serde GxShape GxHash FnCrypto FnTypes.
From S2P Require Import AetherAddress AetherEnvelope AetherRouter Sigil BestiaryWire Seer.

Definition FEDERATOR_SCHEMA : string := "omega.federator".
Definition MAX_REGISTRY_REPLY_BYTES : N := 256 * 1024 * 1024.
Definition MAX_FEDERATOR_MESSAGE_BYTES : N := 1024 * 1024.
Definition DEFAULT_MAX_PENDING_PULLS : N := 128.
Definition DEFAULT_MAX_FEDERATOR_REALM_PEERS : N := 1024.
Definition MAX_FEDERATOR_REALM_BYTES : N := MAX_MANIFEST_REALM_BYTES.
Definition MAX_FEDERATOR_NODE_ID_BYTES : N := 256.
Definition INGEST_DROP_SCHEMA : string := "federation.ingest_drop".
Definition PROPRIOCEPTION : Topic := "proprioception".

(** ** Data *)

Record IngestRejections : Type := mkIngestRejections {
  ir_malformed : N;
  ir_non_finite_score : N;
  ir_bad_signature : N;
  ir_unweighted : N
}.

(** [+= 1] on a 64-bit counter. *)
Definition u64_incr (n : N) : N := (n + 1) `mod` 2 ^ 64.
Definition bump_malformed (c : IngestRejections) : IngestRejections :=
  mkIngestRejections (u64_incr (ir_malformed c)) (ir_non_finite_score c) (ir_bad_signature c)
    (ir_unweighted c).
Definition bump_non_finite (c : IngestRejections) : IngestRejections :=
  mkIngestRejections (ir_malformed c) (u64_incr (ir_non_finite_score c)) (ir_bad_signature c)
    (ir_unweighted c).
Definition bump_bad_signature (c : IngestRejections) : IngestRejections :=
  mkIngestRejections (ir_malformed c) (ir_non_finite_score c) (u64_incr (ir_bad_signature c))
    (ir_unweighted c).
Definition bump_unweighted (c : IngestRejections) : IngestRejections :=
  mkIngestRejections (ir_malformed c) (ir_non_finite_score c) (ir_bad_signature c)
    (u64_incr (ir_unweighted c)).

Record IngestDropEvent : Type := mkIngestDropEvent {
  ie_reason : string;
  ie_observer_key : string;
  ie_observer_realm : string
}.

Record ReputationDelta : Type := mkReputationDelta {
  rd_artifact_hash : string;
  rd_realm : RealmId;
  rd_score : f32;
  rd_observer_realm : RealmId;
  rd_observer_key : string;
  rd_signature : option string
}.

Definition delta_set_signature (d : ReputationDelta) (signature : option string) : ReputationDelta :=
  mkReputationDelta (rd_artifact_hash d) (rd_realm d) (rd_score d) (rd_observer_realm d)
    (rd_observer_key d) signature.

Section delta.
  Context `{!SerdeJson ReputationDelta}.

Definition delta_signing_payload (d : ReputationDelta) : bytes := to_bytes (delta_set_signature d None).
Definition delta_sign `{!Ed25519} `{!Ed25519Keys} (d : ReputationDelta) (key : Ed25519KeyMaterial) :
    ReputationDelta := delta_set_signature d (Some (km_sign key (delta_signing_payload d))).
Definition delta_verify (d : ReputationDelta) (verifier : Verifier) : bool :=
  match rd_signature d with
  | Some sig => verifier (rd_observer_key d) (delta_signing_payload d) sig
  | None => false
  end.
End delta.

(** The injected weight model. *)
Definition ReputationWeigher : Type := string → RealmId → f32.
Definition UnitWeigher : ReputationWeigher := fun _ _ => f32_one.

Inductive NoOmegaRouteReason : Type := UnmappedRealm | UnsupportedTarget.
Record NoOmegaRouteReply : Type := mkNoOmegaRouteReply {
  nr_reason : NoOmegaRouteReason;
  nr_realm : RealmId;
  nr_details : option string
}.

Inductive FederatorMsg : Type :=
  | FPullFrom (source_realm : RealmId) (peer_node : NodeId) (peer_registry : CreatureId)
  | FFederateReputation (artifact_hash : string) (realm : RealmId) (score : f32)
      (peer_node : NodeId) (peer_federator : CreatureId)
  | FFederateQuarantine (artifact_hash : string) (realm : RealmId) (reason : string)
      (peer_node : NodeId) (peer_federator : CreatureId)
  | FQuarantineNotice (artifact_hash : string) (realm : RealmId) (reason : string)
      (attesting_peers : list string)
  | FAccepted (note : string)
  | FRejected (reason : string).

Inductive FederatorMsgParseError : Type :=
  | FederatorTooLarge (len limit : N)
  | FederatorJson (message : string).

Definition federator_parse_bounded `{!SerdeJson FederatorMsg} (b : bytes) :
    result FederatorMsgParseError FederatorMsg :=
  if bool_decide (MAX_FEDERATOR_MESSAGE_BYTES < blen b)
  then Err (FederatorTooLarge (blen b) MAX_FEDERATOR_MESSAGE_BYTES)
  else match from_slice b with Ok m => Ok m | Err e => Err (FederatorJson e) end.

(** ** State *)

Record FederatorConfig : Type := mkFederatorConfig {
  fc_self_node : NodeId;
  fc_self_realm : RealmId;
  fc_local_registry : CreatureId;
  fc_abode_key : Ed25519KeyMaterial;
  fc_realm_to_peer : gmap string string;
  fc_weigher : ReputationWeigher
}.

Record OmegaFederator : Type := mkOmegaFederator {
  of_cfg : FederatorConfig;
  of_me : option CreatureId;
  of_verifier : Verifier;
  of_pending_pulls : gmap N string;
  of_next_consult_corr : N;
  of_ingest_rejections : IngestRejections;
  of_max_pending_pulls : N
}.

Definition set_pulls (p : gmap N string) (f : OmegaFederator) : OmegaFederator :=
  mkOmegaFederator (of_cfg f) (of_me f) (of_verifier f) p (of_next_consult_corr f)
    (of_ingest_rejections f) (of_max_pending_pulls f).
Definition set_rejections (c : IngestRejections) (f : OmegaFederator) : OmegaFederator :=
  mkOmegaFederator (of_cfg f) (of_me f) (of_verifier f) (of_pending_pulls f)
    (of_next_consult_corr f) c (of_max_pending_pulls f).
Definition set_next_corr (c : N) (f : OmegaFederator) : OmegaFederator :=
  mkOmegaFederator (of_cfg f) (of_me f) (of_verifier f) (of_pending_pulls f) c
    (of_ingest_rejections f) (of_max_pending_pulls f).
Definition with_max_pending_pulls (max : N) (f : OmegaFederator) : OmegaFederator :=
  mkOmegaFederator (of_cfg f) (of_me f) (of_verifier f) (of_pending_pulls f)
    (of_next_consult_corr f) (of_ingest_rejections f) max.
Definition federator_with_verifier (v : Verifier) (f : OmegaFederator) : OmegaFederator :=
  mkOmegaFederator (of_cfg f) (of_me f) v (of_pending_pulls f) (of_next_consult_corr f)
    (of_ingest_rejections f) (of_max_pending_pulls f).
Definition with_consult_corr_seed (seed : N) (f : OmegaFederator) : OmegaFederator :=
  set_next_corr seed f.
Definition federator_bind (me : CreatureId) (f : OmegaFederator) : OmegaFederator :=
  mkOmegaFederator (of_cfg f) (Some me) (of_verifier f) (of_pending_pulls f)
    (of_next_consult_corr f) (of_ingest_rejections f) (of_max_pending_pulls f).

Definition realm_peer_count (f : OmegaFederator) : N :=
  N.of_nat (size (fc_realm_to_peer (of_cfg f))).
Definition pending_pull_count (f : OmegaFederator) : N := N.of_nat (size (of_pending_pulls f)).
Definition has_pending_pull (f : OmegaFederator) : bool := bool_decide (of_pending_pulls f ≠ ∅).

(** ** Shapes *)

Definition is_node_byte (b : N) : bool :=
  in_range 48 57 b || in_range 65 90 b || in_range 97 122 b || (b =? 46) || (b =? 95) || (b =? 45).
Definition node_id_shape_is_valid (node : NodeId) : bool :=
  bool_decide (node ≠ "") && bool_decide (slen node ≤ MAX_FEDERATOR_NODE_ID_BYTES)
  && all_bytes is_node_byte node.

Definition field_shape_error (scope field value : string) : option string :=
  too_large (scope +:+ " " +:+ field) (slen value) MAX_REGISTRY_SIGNAL_FIELD_BYTES;;?
  reject_if (contains_char NUL value) (scope +:+ " " +:+ field +:+ " contains NUL byte").
Definition realm_field_shape_error (scope field : string) (realm : RealmId) : option string :=
  field_shape_error scope field realm;;?
  reject_if (negb (RealmId_is_valid realm)) (scope +:+ " " +:+ field +:+ " is not a valid RealmId").
Definition peer_node_shape_error (scope field : string) (peer_node : NodeId) : option string :=
  reject_if (negb (node_id_shape_is_valid peer_node))
    (scope +:+ " " +:+ field +:+ " must be 1..=" +:+ dec MAX_FEDERATOR_NODE_ID_BYTES
     +:+ " ASCII [A-Za-z0-9._-] bytes").
Definition registry_key_shape_error (artifact_hash : string) (realm : RealmId) : option string :=
  (match artifact_hash_shape_error artifact_hash with
   | Some message => Some ("federator " +:+ message)
   | None => None
   end);;?
  realm_field_shape_error "federator" "realm" realm.
Definition federation_endpoint_shape_error (source_realm : RealmId) (peer_node : NodeId) :
    option string :=
  realm_field_shape_error "federator" "source_realm" source_realm;;?
  peer_node_shape_error "federator" "peer_node" peer_node.
Definition reputation_delta_shape_error (d : ReputationDelta) : option string :=
  registry_key_shape_error (rd_artifact_hash d) (rd_realm d);;?
  realm_field_shape_error "reputation delta" "observer_realm" (rd_observer_realm d);;?
  field_shape_error "reputation delta" "observer_key" (rd_observer_key d);;?
  match rd_signature d with
  | Some signature => field_shape_error "reputation delta" "signature" signature
  | None => None
  end.

Definition pulled_sync_entry_shape_error `{!Sha256} (e : SyncEntry) : option string :=
  artifact_hash_shape_error (sy_artifact_hash e);;?
  reject_if (bool_decide (hash_bytes (sy_artifact e) ≠ sy_artifact_hash e))
    ("artifact_hash does not match artifact bytes: advertised " +:+ sy_artifact_hash e
     +:+ ", actual " +:+ hash_bytes (sy_artifact e)).

Definition realm_peer_mapping_shape_error (realm : RealmId) (peer : NodeId) : option string :=
  reject_if (negb (RealmId_is_valid realm) || bool_decide (MAX_FEDERATOR_REALM_BYTES < slen realm)
             || contains_char NUL realm)
    ("realm_to_peer realm must be valid, NUL-free, and <= " +:+ dec MAX_FEDERATOR_REALM_BYTES
     +:+ " bytes");;?
  reject_if (negb (node_id_shape_is_valid peer))
    ("realm_to_peer peer_node must be 1..=" +:+ dec MAX_FEDERATOR_NODE_ID_BYTES
     +:+ " ASCII [A-Za-z0-9._-] bytes").

Definition insert_realm_peer_mapping (mappings : gmap string string) (realm : RealmId)
    (peer : NodeId) (max_mappings : N) : gmap string string :=
  match realm_peer_mapping_shape_error realm peer with
  | Some _ => mappings
  | None =>
      if bool_decide (max_mappings ≠ 0) && bool_decide (mappings !! realm = None)
         && bool_decide (max_mappings ≤ N.of_nat (size mappings))
      then mappings else <[realm := peer]> mappings
  end.

(** The configured map, in the order in which it is iterated. *)
Definition retain_valid_realm_peers (mappings : list (RealmId * NodeId)) (max_mappings : N) :
    gmap string string :=
  foldl (fun m x => insert_realm_peer_mapping m x.1 x.2 max_mappings) ∅ mappings.

Section federator.
  Context `{!Sha256} `{!Ed25519} `{!Ed25519Keys} `{!SerdeJson ReputationDelta}
    `{!ToValue ReputationDelta} `{!FromValue ReputationDelta} `{!SerdeJson SeerEnvelope}
    `{!SerdeJson FederatorMsg} `{!SerdeJson RegistryOp} `{!SerdeJson RegistryReply}
    `{!SerdeJson NoOmegaRouteReply} `{!SerdeJson IngestDropEvent}
    (debug_address : Address → string).

Definition new_with_realm_peer_limit (cfg : FederatorConfig) (mappings : list (RealmId * NodeId))
    (max_realm_peers : N) : OmegaFederator :=
  mkOmegaFederator
    (mkFederatorConfig (fc_self_node cfg) (fc_self_realm cfg) (fc_local_registry cfg)
       (fc_abode_key cfg) (retain_valid_realm_peers mappings max_realm_peers) (fc_weigher cfg))
    None ed25519_verifier ∅ 3000000 (mkIngestRejections 0 0 0 0) DEFAULT_MAX_PENDING_PULLS.
Definition OmegaFederator_new (cfg : FederatorConfig) (mappings : list (RealmId * NodeId)) :
    OmegaFederator := new_with_realm_peer_limit cfg mappings DEFAULT_MAX_FEDERATOR_REALM_PEERS.

Definition alloc_corr (f : OmegaFederator) : N * OmegaFederator :=
  (of_next_consult_corr f, set_next_corr (u64_incr (of_next_consult_corr f)) f).

Definition addr_for (f : OmegaFederator) (peer_node : NodeId) (creature : CreatureId) : Address :=
  if decide (peer_node = fc_self_node (of_cfg f)) then ACreature creature
  else ANode peer_node creature.
Definition addr_for_role (f : OmegaFederator) (peer_node : NodeId) (role : Role) : Address :=
  if decide (peer_node = fc_self_node (of_cfg f)) then ARole role else ANodeRole peer_node role.

Definition federator_reply (env : Envelope) (msg : FederatorMsg) : Outcome :=
  Outcome_send (with_schema (reply_to_env env (to_bytes msg)) FEDERATOR_SCHEMA).
(** A registry operation, answered to this creature. *)
Definition registry_dispatch (registry me : CreatureId) (op : RegistryOp) : Dispatch :=
  with_reply_to (with_schema (Dispatch_to (ACreature registry) (to_bytes op)) REGISTRY_OP_SCHEMA)
    (ACreature me).

(** ** Routing *)

Definition no_route (env : Envelope) (realm : RealmId) (reason : NoOmegaRouteReason)
    (details : option string) : Dispatch :=
  with_schema (reply_to_env env (to_bytes (mkNoOmegaRouteReply reason realm details))) "omega.no_route".

Definition routed_target (f : OmegaFederator) (peer : NodeId) (target : Address) : option Address :=
  match target with
  | ACreature module => Some (addr_for f peer module)
  | ANode node module => if decide (node = peer) then Some (addr_for f peer module) else None
  | ANodeRole node role => if decide (node = peer) then Some (addr_for_role f peer role) else None
  | _ => None
  end.

Definition route_omega (env : Envelope) (realm : RealmId) (target : Address) (f : OmegaFederator) :
    Outcome :=
  match fc_realm_to_peer (of_cfg f) !! realm with
  | None =>
      Outcome_send (no_route env realm UnmappedRealm
        (Some ("omega-federator has no peer mapped for realm `" +:+ realm
               +:+ "`; configure realm_to_peer")))
  | Some peer =>
      match routed_target f peer target with
      | None =>
          Outcome_send (no_route env realm UnsupportedTarget
            (Some ("omega-federator forwards `Omega(R, Creature(m))` or `Omega(R, Node(gateway, m))` or "
                   +:+ "`Omega(R, NodeRole(gateway, role))`; got " +:+ debug_address target)))
      | Some to =>
          let d := with_reply_to
                     (with_schema (Dispatch_to to (ev_payload env)) (hd_schema (ev_header env)))
                     (reply_target env) in
          let d := match hd_corr (ev_header env) with Some corr => with_corr d corr | None => d end in
          let d := match hd_commitment (ev_header env) with
                   | Some commit => with_commitment d commit
                   | None => d
                   end in
          Outcome_send d
      end
  end.

(** ** The control plane *)

Definition on_pull_from (env : Envelope) (source_realm : RealmId) (peer_node : NodeId)
    (peer_registry : CreatureId) (f : OmegaFederator) : Outcome * OmegaFederator :=
  match of_me f with
  | None => (federator_reply env (FRejected "federator not bound yet"), f)
  | Some me =>
      match federation_endpoint_shape_error source_realm peer_node with
      | Some message => (federator_reply env (FRejected message), f)
      | None =>
          if bool_decide (of_max_pending_pulls f ≠ 0)
             && bool_decide (of_max_pending_pulls f ≤ pending_pull_count f)
          then (federator_reply env (FRejected "federator busy: pending-pulls table at capacity"), f)
          else
            let '(corr, f) := alloc_corr f in
            let f := set_pulls (<[corr := source_realm]> (of_pending_pulls f)) f in
            let d := with_reply_to
                       (with_corr
                          (with_schema
                             (Dispatch_to (addr_for f peer_node peer_registry)
                                (to_bytes (OpListEntries (Some source_realm))))
                             REGISTRY_OP_SCHEMA)
                          corr)
                       (ACreature me) in
            (mkOutcome (d :: out_dispatches (federator_reply env (FAccepted "pull dispatched"))) None, f)
      end
  end.

Definition on_federate_reputation (env : Envelope) (artifact_hash : string) (realm : RealmId)
    (score : f32) (peer_node : NodeId) (peer_federator : CreatureId) (f : OmegaFederator) :
    Outcome * OmegaFederator :=
  match of_me f with
  | None => (federator_reply env (FRejected "federator not bound yet"), f)
  | Some me =>
      match registry_key_shape_error artifact_hash realm with
      | Some message => (federator_reply env (FRejected message), f)
      | None =>
          match peer_node_shape_error "federator" "peer_node" peer_node with
          | Some message => (federator_reply env (FRejected message), f)
          | None =>
              if negb (f32_is_finite score) then
                (federator_reply env (FRejected "reputation score must be finite"), f)
              else
                let key := fc_abode_key (of_cfg f) in
                let delta := delta_sign (mkReputationDelta artifact_hash realm score
                               (fc_self_realm (of_cfg f)) (km_public_hex key) None) key in
                let '(corr, f) := alloc_corr f in
                let seer := seer_answer Consensus corr 0 delta in
                let d := with_reply_to
                           (with_corr
                              (with_schema
                                 (Dispatch_to (addr_for f peer_node peer_federator) (to_bytes seer))
                                 SEER_SCHEMA)
                              corr)
                           (ACreature me) in
                (mkOutcome
                   (d :: out_dispatches (federator_reply env (FAccepted "reputation delta shipped")))
                   None, f)
          end
      end
  end.

Definition on_federate_quarantine (env : Envelope) (artifact_hash : string) (realm : RealmId)
    (reason : string) (peer_node : NodeId) (peer_federator : CreatureId) (f : OmegaFederator) :
    Outcome * OmegaFederator :=
  match of_me f with
  | None => (federator_reply env (FRejected "federator not bound yet"), f)
  | Some me =>
      match (registry_key_shape_error artifact_hash realm;;?
             mark_shape_error artifact_hash realm reason [fc_self_node (of_cfg f)]) with
      | Some message => (federator_reply env (FRejected message), f)
      | None =>
          match peer_node_shape_error "federator" "peer_node" peer_node with
          | Some message => (federator_reply env (FRejected message), f)
          | None =>
              let notice := FQuarantineNotice artifact_hash realm reason [fc_self_node (of_cfg f)] in
              let '(corr, f) := alloc_corr f in
              let d := with_reply_to
                         (with_corr
                            (with_schema
                               (Dispatch_to (addr_for f peer_node peer_federator) (to_bytes notice))
                               FEDERATOR_SCHEMA)
                            corr)
                         (ACreature me) in
              (mkOutcome
                 (d :: out_dispatches (federator_reply env (FAccepted "quarantine notice shipped")))
                 None, f)
          end
      end
  end.

Definition on_inbound_quarantine (artifact_hash : string) (realm : RealmId) (reason : string)
    (attesting_peers : list string) (f : OmegaFederator) : Outcome :=
  match (registry_key_shape_error artifact_hash realm;;?
         mark_shape_error artifact_hash realm reason attesting_peers) with
  | Some _ => Outcome_none
  | None =>
      match of_me f with
      | None => Outcome_none
      | Some me =>
          Outcome_send (registry_dispatch (fc_local_registry (of_cfg f)) me
            (OpMarkQuarantine artifact_hash realm reason attesting_peers))
      end
  end.

Definition federator_on_control (env : Envelope) (f : OmegaFederator) : Outcome * OmegaFederator :=
  match federator_parse_bounded (ev_payload env) with
  | Err _ => (Outcome_none, f)
  | Ok (FPullFrom source_realm peer_node peer_registry) =>
      on_pull_from env source_realm peer_node peer_registry f
  | Ok (FFederateReputation artifact_hash realm score peer_node peer_federator) =>
      on_federate_reputation env artifact_hash realm score peer_node peer_federator f
  | Ok (FFederateQuarantine artifact_hash realm reason peer_node peer_federator) =>
      on_federate_quarantine env artifact_hash realm reason peer_node peer_federator f
  | Ok (FQuarantineNotice artifact_hash realm reason attesting_peers) =>
      (on_inbound_quarantine artifact_hash realm reason attesting_peers f, f)
  | Ok (FAccepted _) | Ok (FRejected _) => (Outcome_none, f)
  end.

(** ** Reputation taken in *)

Definition emit_ingest_drop (reason observer_key : string) (observer_realm : RealmId) : Outcome :=
  Outcome_send (with_schema
    (Dispatch_to (ATopic PROPRIOCEPTION)
       (to_bytes (mkIngestDropEvent reason observer_key observer_realm)))
    INGEST_DROP_SCHEMA).

Definition count (bump : IngestRejections → IngestRejections) (f : OmegaFederator) : OmegaFederator :=
  set_rejections (bump (of_ingest_rejections f)) f.

Definition ingest_delta (delta : ReputationDelta) (f : OmegaFederator) : Outcome * OmegaFederator :=
  if negb (f32_is_finite (rd_score delta)) then
    (emit_ingest_drop "non_finite_score" (rd_observer_key delta) (rd_observer_realm delta),
     count bump_non_finite f)
  else if negb (delta_verify delta (of_verifier f)) then
    (emit_ingest_drop "bad_signature" (rd_observer_key delta) (rd_observer_realm delta),
     count bump_bad_signature f)
  else
    let weight := fc_weigher (of_cfg f) (rd_observer_key delta) (rd_observer_realm delta) in
    if negb (f32_is_finite weight) || f32_leb weight f32_zero then
      (Outcome_none, count bump_unweighted f)
    else
      match of_me f with
      | None => (Outcome_none, f)
      | Some me =>
          (Outcome_send (registry_dispatch (fc_local_registry (of_cfg f)) me
             (OpAttestFitness (rd_artifact_hash delta) (rd_realm delta)
                (f32_mul (rd_score delta) weight) (Some (rd_observer_realm delta)) None None)), f)
      end.

Definition on_seer (env : Envelope) (f : OmegaFederator) : Outcome * OmegaFederator :=
  match seer_parse_bounded (ev_payload env) with
  | Err _ => (Outcome_none, count bump_malformed f)
  | Ok seer =>
      if decide (se_topic seer ≠ Consensus) then (Outcome_none, f)
      else
        match se_kind seer with
        | Answer _ body =>
            match from_value body with
            | Err _ => (Outcome_none, count bump_malformed f)
            | Ok delta =>
                match reputation_delta_shape_error delta with
                | Some _ => (Outcome_none, count bump_malformed f)
                | None => ingest_delta delta f
                end
            end
        | _ => (Outcome_none, f)
        end
  end.

(** ** Anti-entropy *)

Definition parse_registry_reply_with_limit (payload : bytes) (limit : N) : option RegistryReply :=
  if bool_decide (limit < blen payload) then None
  else match from_slice payload with Ok r => Some r | Err _ => None end.
Definition parse_registry_reply (payload : bytes) : option RegistryReply :=
  parse_registry_reply_with_limit payload MAX_REGISTRY_REPLY_BYTES.

(** The operations for one pulled row, and the counters. *)
Definition merge_entry (realm : RealmId) (e : SyncEntry) (c : IngestRejections) :
    list RegistryOp * IngestRejections :=
  match pulled_sync_entry_shape_error e with
  | Some _ => ([], bump_malformed c)
  | None =>
      let '(attest, c) :=
        match sy_reputation e with
        | None => ([], c)
        | Some rep =>
            if negb (f32_is_finite (rs_score rep)) then ([], bump_non_finite c)
            else
              match attest_shape_error rep (sy_artifact_hash e) realm with
              | Some _ => ([], bump_malformed c)
              | None =>
                  ([OpAttestFitness (sy_artifact_hash e) realm (rs_score rep)
                      (rs_attesting_realm rep) (rs_signed_by rep) (rs_signature rep)], c)
              end
        end in
      let mark :=
        match sy_quarantine e with
        | None => []
        | Some q =>
            match mark_shape_error (sy_artifact_hash e) realm (qn_reason q) (qn_attesting_peers q) with
            | Some _ => []
            | None =>
                [OpMarkQuarantine (sy_artifact_hash e) realm (qn_reason q) (qn_attesting_peers q)]
            end
        end in
      (OpPublish (sy_manifest e) (sy_artifact e) (Some realm) :: attest ++ mark, c)
  end.

Fixpoint merge_pulled (realm : RealmId) (entries : list SyncEntry) (c : IngestRejections) :
    list RegistryOp * IngestRejections :=
  match entries with
  | [] => ([], c)
  | e :: entries =>
      let '(ops, c) := merge_entry realm e c in
      let '(more, c) := merge_pulled realm entries c in
      (ops ++ more, c)
  end.

(** Giving back the slot of a pull that cannot be merged. *)
Definition reclaim (env : Envelope) (f : OmegaFederator) : OmegaFederator :=
  match hd_corr (ev_header env) with
  | Some corr => set_pulls (delete corr (of_pending_pulls f)) f
  | None => f
  end.

Definition on_registry_reply (env : Envelope) (f : OmegaFederator) : Outcome * OmegaFederator :=
  if bool_decide (MAX_REGISTRY_REPLY_BYTES < blen (ev_payload env)) then (Outcome_none, reclaim env f)
  else
    match parse_registry_reply (ev_payload env) with
    | None => (Outcome_none, f)
    | Some (ReEntries entries) =>
        match hd_corr (ev_header env), of_me f with
        | Some corr, Some me =>
            match of_pending_pulls f !! corr with
            | None => (Outcome_none, f)
            | Some realm =>
                let '(ops, c) := merge_pulled realm entries (of_ingest_rejections f) in
                (mkOutcome (map (registry_dispatch (fc_local_registry (of_cfg f)) me) ops) None,
                 set_rejections c (set_pulls (delete corr (of_pending_pulls f)) f))
            end
        | _, _ => (Outcome_none, f)
        end
    | Some _ => (Outcome_none, reclaim env f)
    end.

Definition federator_handle (env : Envelope) (f : OmegaFederator) : Outcome * OmegaFederator :=
  match hd_to (ev_header env) with
  | AOmega realm target => (route_omega env realm target f, f)
  | _ =>
      if decide (hd_schema (ev_header env) = SEER_SCHEMA) then on_seer env f
      else if decide (hd_schema (ev_header env) = REGISTRY_REPLY_SCHEMA) then on_registry_reply env f
      else if decide (hd_schema (ev_header env) = FEDERATOR_SCHEMA) then federator_on_control env f
      else (Outcome_none, f)
  end.
End federator.
