(* ===== verification/FederatorLaws.v ===== *)
(** * The laws of the federator

    A pull brings the peer's rows into the local registry, into the realm that was
    asked for and nowhere else; a reputation is credited only on the signed word of
    its observer, weighted; and pulls in flight are bounded. *)

From S2P Require Import Prelude F32 Serde GxShape GxHash GxWire GxFrame FnCrypto FnTypes.
From S2P Require Import AetherAddress AetherEnvelope AetherRouter Sigil BestiaryWire Seer.
From S2P Require Import Registry RegistryLaws Federator.

(** ** Rows and operations *)

(** The realm that an operation writes. *)
Definition op_realm (op : RegistryOp) : option RealmId :=
  match op with
  | OpPublish _ _ realm => Some (default RealmId_local realm)
  | OpAttestFitness _ realm _ _ _ _ | OpMarkQuarantine _ realm _ _ => Some realm
  | _ => None
  end.

Section merge.
  Context `{!Sha256} `{!JsonText} `{!SerdeJson RegistryOp} `{!SerdeJson RegistryReply}
    `{!SerdeJson ChunkFrameHeader}.

(** What a write without eviction does to the rows of other realms. *)
Definition leaves (k : Key) (r r' : RegistryMem) : Prop :=
  rm_entries r' !! k = rm_entries r !! k ∧ rm_evictor r' = rm_evictor r.

Lemma set_row_leaves key e k r :
  key ≠ k → leaves k r (set_entries (<[key := e]> (rm_entries r)) r).
Proof. intros Hk. split; [|done]. cbn. by rewrite lookup_insert_ne. Qed.

Lemma publish_leaves iter realm m a r k :
  rm_evictor r = None → realm ≠ k.1 → leaves k r (publish_in_checked iter realm m a r).2.
Proof.
  intros Hn Hr. unfold publish_in_checked, make_room. rewrite Hn. cbn.
  assert ((realm, hash_bytes a) ≠ k) by (by intros <-).
  repeat case_match; try done; by apply set_row_leaves.
Qed.

Lemma op_leaves iter env op r k :
  rm_evictor r = None → op_realm op ≠ Some k.1 → leaves k r (registry_op iter env op r).2.
Proof.
  intros Hn Hr. destruct op as [m a realm| | | | | | | | |h realm s ar sb sg|h realm reason peers| |]; try done; cbn in *.
  - pose proof (publish_leaves iter (default RealmId_local realm) m a r k Hn ltac:(congruence)) as L.
    by destruct (publish_in_checked _ _ _ _ _) as [[] r1].
  - unfold attest_fitness. repeat case_match; simplify_eq/=; try done. apply set_row_leaves. by intros <-.
  - unfold mark_quarantine. repeat case_match; simplify_eq/=; try done; apply set_row_leaves; by intros <-.
Qed.

(** Envelopes that carry the given operations. *)
Definition carries (steps : list (MapIter * Envelope)) (ops : list RegistryOp) : Prop :=
  Forall2 (fun s op => ev_payload s.2 = to_bytes op) steps ops.

Lemma run_other_realms steps ops r k :
  carries steps ops → Forall reads_back ops → rm_evictor r = None →
  (∀ op, op ∈ ops → op_realm op ≠ Some k.1) →
  leaves k r (registry_run steps r).
Proof.
  intros C. revert r. induction C as [|[iter env] op steps ops Hp C IH]; intros r F Hn Hr; [done|].
  apply Forall_cons in F as [Hb F]. cbn in *.
  assert (leaves k r (registry_handle iter env r).2) as [E1 E2].
  { unfold registry_handle. destruct (_ && _); [done|]. rewrite Hp, Hb. apply op_leaves; [done|].
    apply Hr. by left. }
  destruct (IH (registry_handle iter env r).2 F) as [E3 E4]; [congruence|intros op' Hin; apply Hr; by right|].
  split; congruence.
Qed.

(** ** A sound row *)

(** The limits of a registry admit an operation of the given rows. *)
Definition op_fits (r : RegistryMem) (op : RegistryOp) : Prop :=
  rm_max_op_bytes r ≠ 0 → blen (to_bytes op) ≤ rm_max_op_bytes r.
Definition row_fits (r : RegistryMem) (e : Entry) : Prop :=
  rm_max_artifact_bytes r ≠ 0 → blen (en_artifact e) ≤ rm_max_artifact_bytes r.
Definition has_room (n : nat) (r : RegistryMem) : Prop :=
  rm_max_entries r ≠ 0 → registry_len r + N.of_nat n ≤ rm_max_entries r.

Lemma handle_op iter env op r :
  ev_payload env = to_bytes op → reads_back op → op_fits r op →
  registry_handle iter env r = registry_op iter env op r.
Proof.
  intros Hp Hb Hf. unfold registry_handle. rewrite Hp. destruct (_ && _) eqn:E.
  - to_prop. unfold op_fits in Hf. naive_solver lia.
  - by rewrite Hb.
Qed.

Lemma publish_fits iter realm m a r :
  Manifest_validate m = Ok tt → row_fits r (mkEntry m a None None) → has_room 1 r →
  publish_in_checked iter realm m a r
  = (Stored (hash_bytes a), set_entries (<[(realm, hash_bytes a) := mkEntry m a None None]> (rm_entries r)) r).
Proof.
  intros Hm Hf Hr. unfold publish_in_checked. unfold row_fits in Hf. cbn in Hf.
  destruct (_ && bool_decide (_ < blen a)) eqn:E1; [to_prop; naive_solver lia|]. rewrite Hm.
  destruct (_ && bool_decide (rm_entries r !! _ = None)) eqn:E2; [|done].
  unfold has_room in Hr. to_prop. naive_solver lia.
Qed.

Lemma attest_applies realm h s r e :
  attest_shape_error s h realm = None → rm_entries r !! (realm, h) = Some e →
  attest_fitness realm h s r
  = (true, set_entries (<[(realm, h) := mkEntry (en_manifest e) (en_artifact e) (Some s) (en_quarantine e)]>
             (rm_entries r)) r).
Proof. intros Hs He. unfold attest_fitness. by rewrite Hs, He. Qed.

Lemma mark_applies realm h q r e :
  mark_shape_error h realm (qn_reason q) (qn_attesting_peers q) = None →
  rm_entries r !! (realm, h) = Some e →
  mark_quarantine realm h q r
  = (true, set_entries (<[(realm, h) := mkEntry (en_manifest e) (en_artifact e) (en_reputation e) (Some q)]>
             (rm_entries r)) r).
Proof. intros Hs He. unfold mark_quarantine. by rewrite Hs, He. Qed.

Lemma set_entries_twice g g' r : set_entries g (set_entries g' r) = set_entries g r.
Proof. done. Qed.

(** The operations of a sound row. *)
Definition attest_ops (key : Key) (rep : option ReputationScore) : list RegistryOp :=
  match rep with
  | Some s => [OpAttestFitness key.2 key.1 (rs_score s) (rs_attesting_realm s) (rs_signed_by s) (rs_signature s)]
  | None => []
  end.
Definition mark_ops (key : Key) (quarantine : option QuarantineNotice) : list RegistryOp :=
  match quarantine with
  | Some q => [OpMarkQuarantine key.2 key.1 (qn_reason q) (qn_attesting_peers q)]
  | None => []
  end.
Definition row_ops (key : Key) (e : Entry) : list RegistryOp :=
  OpPublish (en_manifest e) (en_artifact e) (Some key.1)
  :: attest_ops key (en_reputation e) ++ mark_ops key (en_quarantine e).

Lemma attest_shape_finite s h realm :
  attest_shape_error s h realm = None → f32_is_finite (rs_score s) = true.
Proof.
  intros R. unfold attest_shape_error in R. apply or_error_None in R as [_ R].
  apply or_error_None in R as [_ R]. apply or_error_None in R as [R _].
  apply reject_if_None in R. by apply negb_false_iff in R.
Qed.

Lemma merge_sound_row `{!ShaHex} max_artifact key e c :
  entry_sound max_artifact key e → merge_entry key.1 (sync_of (key, e)) c = (row_ops key e, c).
Proof.
  destruct key as [realm h]. intros [A M S R Q]. unfold merge_entry, pulled_sync_entry_shape_error. cbn in *.
  rewrite (proj2 (artifact_hash_shape_None h)); [|subst h; apply sha256_hex_is_ok]. cbn.
  rewrite bool_decide_eq_false_2 by (intros HH; by apply HH). cbn.
  unfold row_ops. cbn. destruct (en_reputation e) as [s|].
  - specialize (R s eq_refl). rewrite (attest_shape_finite _ _ _ R), R. cbn.
    destruct (en_quarantine e) as [q|]; [by rewrite (Q q eq_refl)|done].
  - destruct (en_quarantine e) as [q|]; [by rewrite (Q q eq_refl)|done].
Qed.

(** A registry that handles them holds the row. *)
Definition delivers (steps : list (MapIter * Envelope)) (ops : list RegistryOp) (r : RegistryMem) : Prop :=
  carries steps ops ∧ Forall reads_back ops ∧ Forall (op_fits r) ops.

Lemma delivers_app steps ops1 ops2 r :
  delivers steps (ops1 ++ ops2) r →
  ∃ s1 s2, steps = s1 ++ s2 ∧ delivers s1 ops1 r ∧ delivers s2 ops2 r.
Proof.
  intros (C & B & F). apply Forall2_app_inv_r in C as (s1 & s2 & C1 & C2 & ->).
  apply Forall_app in B as [B1 B2]. apply Forall_app in F as [F1 F2]. by exists s1, s2.
Qed.

Lemma run_app s1 s2 r : registry_run (s1 ++ s2) r = registry_run s2 (registry_run s1 r).
Proof. revert r. induction s1 as [|[iter env] s1 IH]; intros r; [done|]. apply IH. Qed.

Lemma run_nil steps r : delivers steps [] r → steps = [].
Proof. intros (C & _). by apply Forall2_nil_inv_r in C. Qed.
Lemma run_one steps op r :
  delivers steps [op] r → ∃ iter env, registry_run steps r = (registry_op iter env op r).2.
Proof.
  intros (C & B & F). apply Forall2_cons_inv_r in C as ([iter env] & ? & Hp & ->%Forall2_nil_inv_r & ->).
  apply Forall_cons in B as [B _]. apply Forall_cons in F as [F _]. exists iter, env. cbn.
  by rewrite (handle_op _ _ _ _ Hp B F).
Qed.

Lemma run_attest steps key m a rep r :
  (∀ s, rep = Some s → attest_shape_error s key.2 key.1 = None) →
  rm_entries r !! key = Some (mkEntry m a None None) → delivers steps (attest_ops key rep) r →
  registry_run steps r = set_entries (<[key := mkEntry m a rep None]> (rm_entries r)) r.
Proof.
  destruct key as [realm h]. intros R He D. destruct rep as [[sc ar sb sg]|]; cbn in *.
  - apply run_one in D as (iter & env & ->). cbn.
    by rewrite (attest_applies _ _ _ _ _ (R _ eq_refl) He).
  - apply run_nil in D as ->. cbn. rewrite insert_id by done. by destruct r.
Qed.

Lemma run_mark steps key m a rep quar r :
  (∀ q, quar = Some q → mark_shape_error key.2 key.1 (qn_reason q) (qn_attesting_peers q) = None) →
  rm_entries r !! key = Some (mkEntry m a rep None) → delivers steps (mark_ops key quar) r →
  registry_run steps r = set_entries (<[key := mkEntry m a rep quar]> (rm_entries r)) r.
Proof.
  destruct key as [realm h]. intros Q He D. destruct quar as [[reason peers]|]; cbn in *.
  - apply run_one in D as (iter & env & ->). cbn. rewrite (Q _ eq_refl : mark_shape_error _ _ reason peers = _).
    by rewrite (mark_applies _ _ (mkQuarantineNotice reason peers) _ _ (Q _ eq_refl) He).
  - apply run_nil in D as ->. cbn. rewrite insert_id by done. by destruct r.
Qed.

Lemma run_row steps key e r :
  delivers steps (row_ops key e) r → (∃ max_artifact, entry_sound max_artifact key e) →
  row_fits r e → has_room 1 r →
  registry_run steps r = set_entries (<[key := e]> (rm_entries r)) r.
Proof.
  intros D [max [A M S R Q]] Hf Hr. destruct key as [realm h], e as [m a rep quar]. cbn in *. subst h.
  apply (delivers_app _ [_]) in D as (s1 & s2 & -> & D1 & D).
  apply delivers_app in D as (s3 & s4 & -> & D3 & D4). rewrite !run_app.
  apply run_one in D1 as (iter & env & ->). cbn [registry_op default].
  rewrite (publish_fits iter realm _ _ r M) by done. cbn [snd fst].
  rewrite (run_attest s3 (realm, hash_bytes a) m a rep) by (done || apply lookup_insert_eq).
  rewrite (run_mark s4 (realm, hash_bytes a) m a rep quar) by (done || apply lookup_insert_eq).
  rewrite !set_entries_twice. cbn. by rewrite !insert_insert_eq.
Qed.

(** ** All the rows *)

Definition rows_ops (rows : list (Key * Entry)) : list RegistryOp :=
  concat (map (fun x => row_ops x.1 x.2) rows).
Definition insert_rows (rows : list (Key * Entry)) (g : Catalog) : Catalog :=
  foldl (fun g x => <[x.1 := x.2]> g) g rows.

Lemma merge_rows `{!ShaHex} max realm rows c :
  (∀ x, x ∈ rows → x.1.1 = realm ∧ entry_sound max x.1 x.2) →
  merge_pulled realm (map sync_of rows) c = (rows_ops rows, c).
Proof.
  induction rows as [|[key e] rows IH]; intros Hs; [done|].
  destruct (Hs (key, e)) as [<- S]; [by left|]. cbn in *.
  rewrite (merge_sound_row _ _ _ c S), IH by (intros x Hx; apply Hs; by right). done.
Qed.

Lemma insert_rows_lookup (rows : list (Key * Entry)) (src g : Catalog) (k : Key) :
  (∀ x, x ∈ rows → src !! x.1 = Some x.2) →
  insert_rows rows g !! k = if bool_decide (k ∈ rows.*1) then src !! k else g !! k.
Proof.
  revert g. induction rows as [|x rows IH]; intros g Hs; [done|].
  change (insert_rows (x :: rows) g) with (insert_rows rows (<[x.1 := x.2]> g)).
  rewrite IH by (intros y Hy; apply Hs; by right). cbn [fmap list_fmap].
  assert (src !! x.1 = Some x.2) as Hx by (apply Hs; by left).
  destruct (decide (k = x.1)) as [->|Hk].
  - rewrite (bool_decide_eq_true_2 (x.1 ∈ x.1 :: rows.*1)) by (by left).
    case_bool_decide; [done|]. by rewrite lookup_insert_eq.
  - rewrite lookup_insert_ne by done. rewrite (bool_decide_ext (k ∈ x.1 :: rows.*1) (k ∈ rows.*1)); [done|].
    rewrite elem_of_cons. naive_solver.
Qed.

Lemma row_has_room n key e r :
  has_room (S n) r → has_room n (set_entries (<[key := e]> (rm_entries r)) r).
Proof.
  unfold has_room, registry_len. cbn. intros Hr Hz. specialize (Hr Hz).
  rewrite map_size_insert. destruct (rm_entries r !! key); cbn; lia.
Qed.

Lemma run_rows steps rows r :
  delivers steps (rows_ops rows) r →
  (∀ x, x ∈ rows → (∃ max, entry_sound max x.1 x.2) ∧ row_fits r x.2) → has_room (length rows) r →
  registry_run steps r = set_entries (insert_rows rows (rm_entries r)) r.
Proof.
  revert steps r. induction rows as [|[key e] rows IH]; intros steps r D Hs Hr.
  - apply run_nil in D as ->. by destruct r.
  - apply delivers_app in D as (s1 & s2 & -> & D1 & D2). rewrite run_app.
    destruct (Hs (key, e)) as [S F]; [by left|]. cbn in S, F.
    rewrite (run_row s1 key e r D1 S F) by (unfold has_room in *; cbn in Hr; intros Hz; specialize (Hr Hz); lia).
    rewrite IH; [done| | |by apply row_has_room].
    + destruct D2 as (C2 & B2 & F2). split_and!; done.
    + intros x Hx. destruct (Hs x) as [Sx Fx]; [by right|]. by split.
Qed.

(** ** Hostile rows *)

(** Whatever a row holds, the operations made of it write the realm that was asked
    for, and publish what hashes to the row's address. *)
Definition confined (realm : RealmId) (op : RegistryOp) : Prop :=
  match op with
  | OpPublish _ artifact r => r = Some realm ∧ sha256_hex_ok (hash_bytes artifact)
  | OpAttestFitness h r score ar sb sg =>
      r = realm ∧ attest_shape_error (mkReputationScore score ar sb sg) h realm = None
  | OpMarkQuarantine h r reason peers => r = realm ∧ mark_shape_error h realm reason peers = None
  | _ => False
  end.

Lemma merge_entry_confined realm e c : Forall (confined realm) (merge_entry realm e c).1.
Proof.
  unfold merge_entry. destruct (pulled_sync_entry_shape_error e) as [m|] eqn:Hp; [constructor|].
  unfold pulled_sync_entry_shape_error in Hp. apply or_error_None in Hp as [Hh%artifact_hash_shape_None He].
  apply reject_if_None, bool_decide_eq_false in He. apply dec_stable in He.
  assert (Forall (confined realm) match sy_quarantine e with
    | None => []
    | Some q => match mark_shape_error (sy_artifact_hash e) realm (qn_reason q) (qn_attesting_peers q) with
                | Some _ => []
                | None => [OpMarkQuarantine (sy_artifact_hash e) realm (qn_reason q) (qn_attesting_peers q)]
                end
    end) as Hq by (repeat case_match; repeat constructor; done).
  repeat case_match; simplify_eq/=; constructor; try (by split; [|rewrite He]);
    rewrite ?app_nil_l; try apply Forall_cons; try done.
Qed.

Lemma merge_pulled_confined realm rows c : Forall (confined realm) (merge_pulled realm rows c).1.
Proof.
  revert c. induction rows as [|e rows IH]; intros c; [constructor|]. cbn.
  pose proof (merge_entry_confined realm e c) as H1. destruct (merge_entry realm e c) as [ops c1].
  specialize (IH c1). destruct (merge_pulled realm rows c1) as [more c2]. by apply Forall_app.
Qed.

(** The operations that a row of a reply stands for: its artifact, whose hash is the
    one it is listed under, its finite score and its marker, all in [realm]. *)
Inductive writes_row (realm : RealmId) (e : SyncEntry) : RegistryOp → Prop :=
  | RowPublish :
      hash_bytes (sy_artifact e) = sy_artifact_hash e →
      writes_row realm e (OpPublish (sy_manifest e) (sy_artifact e) (Some realm))
  | RowAttest rep :
      hash_bytes (sy_artifact e) = sy_artifact_hash e →
      sy_reputation e = Some rep → f32_is_finite (rs_score rep) = true →
      writes_row realm e (OpAttestFitness (sy_artifact_hash e) realm (rs_score rep)
        (rs_attesting_realm rep) (rs_signed_by rep) (rs_signature rep))
  | RowMark q :
      hash_bytes (sy_artifact e) = sy_artifact_hash e →
      sy_quarantine e = Some q →
      writes_row realm e (OpMarkQuarantine (sy_artifact_hash e) realm (qn_reason q)
        (qn_attesting_peers q)).

Lemma merge_entry_rows realm e c op : op ∈ (merge_entry realm e c).1 → writes_row realm e op.
Proof.
  unfold merge_entry. destruct (pulled_sync_entry_shape_error e) as [m|] eqn:Hp; [by intros ?%elem_of_nil|].
  unfold pulled_sync_entry_shape_error in Hp. apply or_error_None in Hp as [_ He].
  apply reject_if_None, bool_decide_eq_false in He. apply dec_stable in He.
  assert (∀ op, op ∈ match sy_quarantine e with
    | None => []
    | Some q => match mark_shape_error (sy_artifact_hash e) realm (qn_reason q) (qn_attesting_peers q) with
                | Some _ => []
                | None => [OpMarkQuarantine (sy_artifact_hash e) realm (qn_reason q) (qn_attesting_peers q)]
                end
    end → writes_row realm e op) as Hq.
  { intros o. destruct (sy_quarantine e) as [q|] eqn:Hq; [|by intros ?%elem_of_nil].
    destruct (mark_shape_error _ _ _ _); [by intros ?%elem_of_nil|].
    intros ->%list_elem_of_singleton. by constructor. }
  destruct (sy_reputation e) as [rep|] eqn:Hr; [destruct (f32_is_finite (rs_score rep)) eqn:Hf;
    [destruct (attest_shape_error _ _ _)|]|]; cbn; rewrite ?elem_of_cons;
    intros Ho; repeat destruct Ho as [->|Ho]; try (by constructor); by apply Hq.
Qed.

Lemma merge_pulled_rows realm rows c op :
  op ∈ (merge_pulled realm rows c).1 → ∃ e, e ∈ rows ∧ writes_row realm e op.
Proof.
  revert c. induction rows as [|e rows IH]; intros c; [by intros ?%elem_of_nil|]. cbn.
  pose proof (merge_entry_rows realm e c op) as H1. destruct (merge_entry realm e c) as [ops c1].
  specialize (IH c1). destruct (merge_pulled realm rows c1) as [more c2]. cbn in *.
  intros [Ho|Ho]%elem_of_app; [exists e; split; [by left|auto]|].
  destruct (IH Ho) as (x & Hx & Hw). exists x. split; [by right|done].
Qed.

Lemma confined_realm realm op : confined realm op → op_realm op = Some realm.
Proof. destruct op; cbn; naive_solver. Qed.

(** ** The pull *)

Context `{!Ed25519} `{!Ed25519Keys} `{!SerdeJson ReputationDelta}
  `{!ToValue ReputationDelta} `{!FromValue ReputationDelta} `{!SerdeJson SeerEnvelope}
  `{!SerdeJson FederatorMsg} `{!SerdeJson NoOmegaRouteReply} `{!SerdeJson IngestDropEvent}
  (debug_address : Address → string).

(** An envelope that brings a dispatch to a creature. *)
Definition brings (env : Envelope) (d : Dispatch) : Prop :=
  ev_payload env = di_payload d ∧ hd_corr (ev_header env) = di_corr d
  ∧ hd_schema (ev_header env) = di_schema d ∧ ∀ realm target, hd_to (ev_header env) ≠ AOmega realm target.

(** Handling an envelope that is not routed on. *)
Lemma handle_schema env f d :
  brings env d →
  federator_handle debug_address env f
  = if decide (di_schema d = SEER_SCHEMA) then on_seer env f
    else if decide (di_schema d = REGISTRY_REPLY_SCHEMA) then on_registry_reply env f
    else if decide (di_schema d = FEDERATOR_SCHEMA) then federator_on_control env f
    else (Outcome_none, f).
Proof.
  intros (_ & _ & Hs & Ht). unfold federator_handle. rewrite <- Hs.
  destruct (hd_to (ev_header env)); try done. exfalso. by eapply Ht.
Qed.

(** The answer of a registry to a pull, merged. *)
Lemma merge_reply `{!ShaHex} env f d realm me corr rows max :
  brings env d → di_schema d = REGISTRY_REPLY_SCHEMA → di_corr d = Some corr →
  di_payload d = to_bytes (ReEntries (map sync_of rows)) → reads_back (ReEntries (map sync_of rows)) →
  blen (di_payload d) ≤ MAX_REGISTRY_REPLY_BYTES → of_pending_pulls f !! corr = Some realm → of_me f = Some me →
  (∀ x, x ∈ rows → x.1.1 = realm ∧ entry_sound max x.1 x.2) →
  federator_handle debug_address env f
  = (mkOutcome (map (registry_dispatch (fc_local_registry (of_cfg f)) me) (rows_ops rows)) None,
     set_rejections (of_ingest_rejections f) (set_pulls (delete corr (of_pending_pulls f)) f)).
Proof.
  intros Hb Hs Hc Hp Hr Hl Hk Hme Hrows. rewrite (handle_schema _ _ _ Hb), Hs. cbn.
  destruct Hb as (Ep & Ec & _). unfold on_registry_reply, parse_registry_reply, parse_registry_reply_with_limit.
  rewrite Ep, (bool_decide_eq_false_2 (MAX_REGISTRY_REPLY_BYTES < _)) by lia.
  rewrite Hp, Hr, Ec, Hc, Hme, Hk, (merge_rows max) by done. done.
Qed.

(** A registry's snapshot of a realm. *)
Lemma collect_sync_map max n rows l : collect_sync max n rows = Ok l → l = map sync_of rows.
Proof.
  revert n l. induction rows as [|x rows IH]; intros n l; cbn; [by intros [= <-]|].
  destruct (_ && _); [done|]. destruct (collect_sync _ _ rows) as [rest|] eqn:E; [|done]. cbn.
  intros [= <-]. by rewrite (IH _ _ E).
Qed.

Definition realm_rows (iter : MapIter) (realm : RealmId) (r : RegistryMem) : list (Key * Entry) :=
  filter (in_realm (Some realm)) (iter (rm_entries r)).

Lemma realm_rows_elem iter realm r x :
  lawful_iter iter → x ∈ realm_rows iter realm r ↔ realm = x.1.1 ∧ rm_entries r !! x.1 = Some x.2.
Proof.
  intros Hi. unfold realm_rows. rewrite list_elem_of_filter, (Hi (rm_entries r)). destruct x as [k e].
  by rewrite elem_of_map_to_list.
Qed.

Lemma realm_rows_sound iter realm r x :
  lawful_iter iter → registry_ok r → x ∈ realm_rows iter realm r →
  x.1.1 = realm ∧ entry_sound (rm_max_artifact_bytes r) x.1 x.2.
Proof.
  intros Hi O [<- Hx]%realm_rows_elem; [|done]. split; [done|]. by apply (ro_entries _ O).
Qed.

Lemma realm_rows_keys iter realm r k :
  lawful_iter iter → k ∈ (realm_rows iter realm r).*1 ↔ realm = k.1 ∧ is_Some (rm_entries r !! k).
Proof.
  intros Hi. rewrite list_elem_of_fmap. split.
  - intros (x & -> & [E Hx]%realm_rows_elem); [|done]. split; [done|]. by eexists.
  - intros [E [e He]]. exists (k, e). split; [done|]. by apply realm_rows_elem.
Qed.

(** The snapshot that a registry sends. *)
Lemma snapshot_reply iter env realm r l :
  sync_entries_checked iter (Some realm) r = Ok l →
  registry_op iter env (OpListEntries (Some realm)) r
  = (registry_reply env (ReEntries (map sync_of (realm_rows iter realm r))), r).
Proof.
  intros Hl. cbn. rewrite Hl. unfold sync_entries_checked, sync_entries_with_limit in Hl.
  by rewrite (collect_sync_map _ _ _ _ Hl).
Qed.

(** A pull that is accepted. *)
Lemma pull_accepted env f me realm node registry :
  hd_schema (ev_header env) = FEDERATOR_SCHEMA → (∀ r a, hd_to (ev_header env) ≠ AOmega r a) →
  ev_payload env = to_bytes (FPullFrom realm node registry) → reads_back (FPullFrom realm node registry) →
  blen (ev_payload env) ≤ MAX_FEDERATOR_MESSAGE_BYTES → of_me f = Some me →
  federation_endpoint_shape_error realm node = None →
  (of_max_pending_pulls f ≠ 0 → pending_pull_count f < of_max_pending_pulls f) →
  ∃ d acks f1, federator_handle debug_address env f = (mkOutcome (d :: acks) None, f1)
    ∧ di_payload d = to_bytes (OpListEntries (Some realm)) ∧ di_schema d = REGISTRY_OP_SCHEMA
    ∧ di_to d = addr_for f node registry ∧ di_corr d = Some (of_next_consult_corr f)
    ∧ of_pending_pulls f1 = <[of_next_consult_corr f := realm]> (of_pending_pulls f)
    ∧ of_me f1 = Some me ∧ of_cfg f1 = of_cfg f.
Proof.
  intros Hs Ht Hp Hb Hl Hme He Hr.
  assert (brings env (mkDispatch (hd_to (ev_header env)) None (ev_payload env) FEDERATOR_SCHEMA
            (hd_corr (ev_header env)) None)) as B by (by split_and!).
  rewrite (handle_schema _ _ _ B). cbn. unfold federator_on_control, federator_parse_bounded.
  rewrite (bool_decide_eq_false_2 (MAX_FEDERATOR_MESSAGE_BYTES < _)) by lia.
  rewrite Hp, Hb. unfold on_pull_from. rewrite Hme, He.
  destruct (_ && _) eqn:E; [to_prop; naive_solver lia|]. cbn. by eauto 20.
Qed.

(** The request, answered by a sound source. *)
Lemma pull_answered iter env d realm source l :
  brings env d → di_payload d = to_bytes (OpListEntries (Some realm)) → reads_back (OpListEntries (Some realm)) →
  op_fits source (OpListEntries (Some realm)) → sync_entries_checked iter (Some realm) source = Ok l →
  registry_handle iter env source
  = (registry_reply env (ReEntries (map sync_of (realm_rows iter realm source))), source).
Proof.
  intros (Hp & _) Hd Hb Hf Hl. rewrite (handle_op _ _ (OpListEntries (Some realm)));
    [|congruence|done|done].
  by eapply snapshot_reply.
Qed.

(** What a merged snapshot leaves in the local registry. *)
Lemma merged_rows iter realm source local steps k :
  lawful_iter iter → registry_ok source →
  delivers steps (rows_ops (realm_rows iter realm source)) local →
  (∀ key e, rm_entries source !! key = Some e → key.1 = realm → row_fits local e) →
  has_room (size (rm_entries source)) local →
  rm_entries (registry_run steps local) !! k
  = match rm_entries source !! k with
    | Some e => if decide (k.1 = realm) then Some e else rm_entries local !! k
    | None => rm_entries local !! k
    end.
Proof.
  intros Hi O D Hf Hr. rewrite (run_rows _ (realm_rows iter realm source)); [|done| |].
  - cbn. rewrite (insert_rows_lookup _ (rm_entries source))
      by (intros x Hx; by apply (realm_rows_elem _ _ _ _ Hi) in Hx as [_ Hx]).
    destruct (rm_entries source !! k) as [e|] eqn:E.
    + rewrite (bool_decide_ext _ (realm = k.1)) by (rewrite realm_rows_keys, E by done; naive_solver).
      by case_bool_decide; case_decide.
    + rewrite bool_decide_eq_false_2; [done|]. rewrite realm_rows_keys, E by done.
      intros [_ Hn]. by apply is_Some_None in Hn.
  - intros x Hx. destruct (realm_rows_sound _ _ _ _ Hi O Hx) as [E S]. split; [by eexists|].
    apply (realm_rows_elem _ _ _ _ Hi) in Hx as [_ Hx]. by eapply Hf.
  - unfold has_room in *. intros Hz. specialize (Hr Hz). unfold realm_rows.
    pose proof (length_filter (in_realm (Some realm)) (iter (rm_entries source))) as L.
    assert (length (iter (rm_entries source)) = size (rm_entries source)) as E
      by (rewrite (Hi (rm_entries source)); apply length_map_to_list). lia.
Qed.

(** ** Reputation *)

(** The envelope holds a delta that a receiver accepts as an observation. *)
Definition observed (env : Envelope) (f : OmegaFederator) (delta : ReputationDelta) : Prop :=
  ∃ seer id body, seer_parse_bounded (ev_payload env) = Ok seer ∧ se_topic seer = Consensus
    ∧ se_kind seer = Answer id body ∧ from_value body = Ok delta
    ∧ reputation_delta_shape_error delta = None ∧ f32_is_finite (rd_score delta) = true
    ∧ delta_verify delta (of_verifier f) = true.
Definition weight_of (f : OmegaFederator) (delta : ReputationDelta) : f32 :=
  fc_weigher (of_cfg f) (rd_observer_key delta) (rd_observer_realm delta).
Definition creditable (f : OmegaFederator) (delta : ReputationDelta) : Prop :=
  f32_is_finite (weight_of f delta) = true ∧ f32_leb (weight_of f delta) f32_zero = false.
Definition credit (f : OmegaFederator) (delta : ReputationDelta) : RegistryOp :=
  OpAttestFitness (rd_artifact_hash delta) (rd_realm delta)
    (f32_mul (rd_score delta) (weight_of f delta)) (Some (rd_observer_realm delta)) None None.

(** An observation with a weight is credited. *)
Lemma seer_credits env f delta me :
  observed env f delta → creditable f delta → of_me f = Some me →
  on_seer env f = (Outcome_send (registry_dispatch (fc_local_registry (of_cfg f)) me (credit f delta)), f).
Proof.
  intros (seer & id & body & Hp & Ht & Hk & Hv & Hs & Hf & Hg) [W1 W2] Hme. unfold on_seer.
  rewrite Hp, Ht, Hk, Hv, Hs. cbn. unfold ingest_delta. rewrite Hf, Hg. cbn.
  fold (weight_of f delta). rewrite W1, W2. cbn. by rewrite Hme.
Qed.

(** What comes out of the SEER path. *)
Inductive seer_outcome (env : Envelope) (f : OmegaFederator) : list Dispatch → Prop :=
  | SeerNothing : seer_outcome env f []
  | SeerDropped reason key realm :
      seer_outcome env f (out_dispatches (emit_ingest_drop reason key realm))
  | SeerCredited delta me :
      observed env f delta → creditable f delta → of_me f = Some me →
      seer_outcome env f [registry_dispatch (fc_local_registry (of_cfg f)) me (credit f delta)].

Lemma on_seer_outcome env f : seer_outcome env f (out_dispatches (on_seer env f).1).
Proof.
  unfold on_seer. destruct (seer_parse_bounded _) as [seer|e] eqn:Hp; [|constructor].
  case_decide as Ht; [constructor|].
  destruct (se_kind seer) as [|id body| | |] eqn:Hk; try constructor.
  destruct (from_value body) as [delta|e] eqn:Hv; [|constructor].
  destruct (reputation_delta_shape_error delta) eqn:Hs; [constructor|]. unfold ingest_delta.
  destruct (f32_is_finite (rd_score delta)) eqn:Hf; [|apply SeerDropped]. cbn.
  destruct (delta_verify delta _) eqn:Hg; [|apply SeerDropped]. cbn. fold (weight_of f delta).
  destruct (f32_is_finite (weight_of f delta)) eqn:W1; [|constructor].
  destruct (f32_leb (weight_of f delta) f32_zero) eqn:W2; [constructor|]. cbn.
  destruct (of_me f) as [me|] eqn:Hme; [|constructor]. apply SeerCredited; [|by split|done].
  by exists seer, id, body.
Qed.

(** ** What is written *)

(** The address of a creature of the mapped peer, or of this node when it is itself
    the peer. *)
Definition at_peer (f : OmegaFederator) (peer : NodeId) (to : Address) : Prop :=
  match to with
  | ACreature _ | ARole _ => peer = fc_self_node (of_cfg f)
  | ANode node _ | ANodeRole node _ => node = peer ∧ peer ≠ fc_self_node (of_cfg f)
  | _ => False
  end.

(** Why the federator sends a registry operation. *)
Inductive justified (env : Envelope) (f : OmegaFederator) (me : CreatureId) : Dispatch → Prop :=
  | JCredit delta :
      hd_schema (ev_header env) = SEER_SCHEMA → observed env f delta → creditable f delta →
      justified env f me (registry_dispatch (fc_local_registry (of_cfg f)) me (credit f delta))
  | JNotice h realm reason peers :
      federator_parse_bounded (ev_payload env) = Ok (FQuarantineNotice h realm reason peers) →
      registry_key_shape_error h realm = None → mark_shape_error h realm reason peers = None →
      justified env f me
        (registry_dispatch (fc_local_registry (of_cfg f)) me (OpMarkQuarantine h realm reason peers))
  | JMerge corr realm entries e op :
      hd_corr (ev_header env) = Some corr → of_pending_pulls f !! corr = Some realm →
      parse_registry_reply (ev_payload env) = Some (ReEntries entries) → e ∈ entries →
      writes_row realm e op → confined realm op →
      justified env f me (registry_dispatch (fc_local_registry (of_cfg f)) me op)
  | JRequest realm node registry :
      federator_parse_bounded (ev_payload env) = Ok (FPullFrom realm node registry) →
      federation_endpoint_shape_error realm node = None →
      justified env f me
        (with_reply_to (with_corr (with_schema (Dispatch_to (addr_for f node registry)
           (to_bytes (OpListEntries (Some realm)))) REGISTRY_OP_SCHEMA) (of_next_consult_corr f))
           (ACreature me))
  | JForward realm target peer d :
      hd_to (ev_header env) = AOmega realm target →
      fc_realm_to_peer (of_cfg f) !! realm = Some peer → at_peer f peer (di_to d) →
      di_payload d = ev_payload env → di_schema d = hd_schema (ev_header env) →
      di_reply_to d = Some (reply_target env) → di_corr d = hd_corr (ev_header env) →
      justified env f me d.

Lemma routed_target_at_peer f peer target to :
  routed_target f peer target = Some to → at_peer f peer to.
Proof.
  unfold routed_target, addr_for, addr_for_role.
  destruct target; try done; repeat case_decide; intros [= <-]; cbn; by subst.
Qed.

Lemma route_justified env f me realm target d :
  hd_to (ev_header env) = AOmega realm target →
  d ∈ out_dispatches (route_omega debug_address env realm target f) →
  di_schema d = REGISTRY_OP_SCHEMA → justified env f me d.
Proof.
  intros Ht. unfold route_omega. destruct (fc_realm_to_peer _ !! realm) as [peer|] eqn:Hp;
    [|by cbn; intros ->%list_elem_of_singleton].
  destruct (routed_target f peer target) as [to|] eqn:Hr; [|by cbn; intros ->%list_elem_of_singleton].
  apply routed_target_at_peer in Hr. cbn. intros ->%list_elem_of_singleton _.
  destruct (hd_corr (ev_header env)) eqn:Hc, (hd_commitment (ev_header env)) eqn:Hm;
    by eapply JForward; [exact Ht|exact Hp|cbn; rewrite ?Hc..].
Qed.

Lemma reply_schema env msg d : d ∈ out_dispatches (federator_reply env msg) → di_schema d ≠ REGISTRY_OP_SCHEMA.
Proof. cbn. intros ->%list_elem_of_singleton. done. Qed.

Lemma control_justified env f d :
  d ∈ out_dispatches (federator_on_control env f).1 → di_schema d = REGISTRY_OP_SCHEMA →
  ∃ me, of_me f = Some me ∧ justified env f me d.
Proof.
  unfold federator_on_control. destruct (federator_parse_bounded _) as [msg|e] eqn:Hp; [|by intros ?%elem_of_nil].
  destruct msg; intros Hd Hs; try by apply elem_of_nil in Hd.
  - unfold on_pull_from in Hd. destruct (of_me f) as [me|] eqn:Hme; [|by apply reply_schema in Hd].
    destruct (federation_endpoint_shape_error _ _) eqn:He; [by apply reply_schema in Hd|].
    destruct (_ && _); [by apply reply_schema in Hd|]. cbn in Hd. exists me. split; [done|].
    apply elem_of_cons in Hd as [->|Hd]; [exact (JRequest env f me _ _ _ Hp He)|by apply (reply_schema env) in Hd].
  - unfold on_federate_reputation in Hd. repeat case_match; simplify_eq/=;
      repeat (apply elem_of_cons in Hd as [->|Hd]); try done; by apply elem_of_nil in Hd.
  - unfold on_federate_quarantine in Hd. repeat case_match; simplify_eq/=;
      repeat (apply elem_of_cons in Hd as [->|Hd]); try done; by apply elem_of_nil in Hd.
  - cbn in Hd. unfold on_inbound_quarantine in Hd. destruct (_ ;;? _) eqn:He; [by apply elem_of_nil in Hd|].
    apply or_error_None in He as [He1 He2]. destruct (of_me f) as [me|]; [|by apply elem_of_nil in Hd].
    apply list_elem_of_singleton in Hd as ->. exists me. split; [done|]. by eapply JNotice.
Qed.

Lemma merge_justified env f d :
  d ∈ out_dispatches (on_registry_reply env f).1 → ∃ me, of_me f = Some me ∧ justified env f me d.
Proof.
  unfold on_registry_reply. destruct (bool_decide _); [by intros ?%elem_of_nil|].
  destruct (parse_registry_reply _) as [[]|] eqn:Hparse; try by intros ?%elem_of_nil.
  destruct (hd_corr _) as [corr|] eqn:Hc; [|by intros ?%elem_of_nil].
  destruct (of_me f) as [me|] eqn:Hme; [|by intros ?%elem_of_nil].
  destruct (of_pending_pulls f !! corr) as [realm|] eqn:Hk; [|by intros ?%elem_of_nil].
  pose proof (merge_pulled_confined realm entries (of_ingest_rejections f)) as F.
  pose proof (λ op, merge_pulled_rows realm entries (of_ingest_rejections f) op) as W.
  destruct (merge_pulled realm entries _) as [ops c]. cbn in *. intros (op & -> & Hop)%list_elem_of_fmap.
  destruct (W op Hop) as (e & He & Hw). exists me. split; [done|].
  eapply JMerge; [done..|]. rewrite Forall_forall in F. by apply F.
Qed.

Lemma handle_justified env f me d :
  of_me f = Some me →
  d ∈ out_dispatches (federator_handle debug_address env f).1 → di_schema d = REGISTRY_OP_SCHEMA →
  justified env f me d.
Proof.
  intros Hme Hd Hs.
  assert ((∃ r a, hd_to (ev_header env) = AOmega r a) ∨ ∀ r a, hd_to (ev_header env) ≠ AOmega r a)
    as [(r & a & Ho)|Ht] by (destruct (hd_to (ev_header env)); eauto; by right).
  { unfold federator_handle in Hd. rewrite Ho in Hd. by eapply route_justified. }
  assert (brings env (mkDispatch (hd_to (ev_header env)) None (ev_payload env) (hd_schema (ev_header env))
            (hd_corr (ev_header env)) None)) as B by (by split_and!).
  rewrite (handle_schema _ _ _ B) in Hd. cbn in Hd. case_decide as Hse.
  - pose proof (on_seer_outcome env f) as Q. destruct Q as [|reason key realm|delta me' Ho Hc Hme'].
    + by apply elem_of_nil in Hd.
    + cbn in Hd. by apply list_elem_of_singleton in Hd as ->.
    + apply list_elem_of_singleton in Hd as ->. rewrite Hme in Hme'. injection Hme' as <-.
      by eapply JCredit.
  - assert (∀ me', of_me f = Some me' ∧ justified env f me' d → justified env f me d) as Hsame
      by (intros me' [Hme' J]; rewrite Hme in Hme'; by injection Hme' as <-).
    case_decide; [apply merge_justified in Hd as [me' J]; by eapply Hsame|].
    case_decide; [apply control_justified in Hd as [me' J]; [by eapply Hsame|done]|].
    by apply elem_of_nil in Hd.
Qed.

(** ** Pulls in flight *)

Definition same_federator (f f' : OmegaFederator) : Prop :=
  of_cfg f' = of_cfg f ∧ of_me f' = of_me f ∧ of_verifier f' = of_verifier f
  ∧ of_max_pending_pulls f' = of_max_pending_pulls f.
Definition pulls_ok (f : OmegaFederator) : Prop :=
  (of_max_pending_pulls f ≠ 0 → pending_pull_count f ≤ of_max_pending_pulls f)
  ∧ map_Forall (fun _ realm => RealmId_is_valid realm = true) (of_pending_pulls f).
Definition keeps (f f' : OmegaFederator) : Prop := same_federator f f' ∧ (pulls_ok f → pulls_ok f').

Lemma keeps_refl f : keeps f f.
Proof. split; [by split_and!|exact (fun P => P)]. Qed.
Lemma keeps_count bump f : keeps f (count bump f).
Proof. split; [by split_and!|exact (fun P => P)]. Qed.
Lemma keeps_corr c f : keeps f (set_next_corr c f).
Proof. split; [by split_and!|exact (fun P => P)]. Qed.
Lemma keeps_delete corr c f :
  keeps f (set_rejections c (set_pulls (delete corr (of_pending_pulls f)) f))
  ∧ keeps f (set_pulls (delete corr (of_pending_pulls f)) f).
Proof.
  assert (pulls_ok f → pulls_ok (set_pulls (delete corr (of_pending_pulls f)) f)) as P.
  { intros [B V]. split; cbn; [|by apply map_Forall_delete]. intros Hz. specialize (B Hz).
    unfold pending_pull_count in *. cbn. rewrite map_size_delete. destruct (of_pending_pulls f !! corr); cbn; lia. }
  split; (split; [by split_and!|done]).
Qed.

Lemma realm_field_valid scope field realm :
  realm_field_shape_error scope field realm = None → RealmId_is_valid realm = true.
Proof.
  unfold realm_field_shape_error. intros [_ Hr]%or_error_None. apply reject_if_None in Hr.
  by apply negb_false_iff in Hr.
Qed.

Lemma control_keeps env f : keeps f (federator_on_control env f).2.
Proof.
  unfold federator_on_control. destruct (federator_parse_bounded _) as [[]|]; try apply keeps_refl.
  - unfold on_pull_from. destruct (of_me f) eqn:Hme; [|apply keeps_refl].
    destruct (federation_endpoint_shape_error _ _) eqn:He; [apply keeps_refl|].
    destruct (_ && _) eqn:Hc; [apply keeps_refl|]. split; [by split_and!|]. intros [B V].
    unfold federation_endpoint_shape_error in He. apply or_error_None in He as [Hr%realm_field_valid _].
    split; cbn; [|by apply map_Forall_insert_2]. intros Hz. rewrite bool_decide_eq_true_2 in Hc by done.
    cbn in Hc. to_prop. unfold pending_pull_count in *. cbn.
    rewrite map_size_insert. destruct (of_pending_pulls f !! _); cbn; lia.
  - unfold on_federate_reputation, alloc_corr. repeat case_match; simplify_eq/=; apply keeps_refl || apply keeps_corr.
  - unfold on_federate_quarantine, alloc_corr. repeat case_match; simplify_eq/=; apply keeps_refl || apply keeps_corr.
Qed.

Lemma federator_keeps env f : keeps f (federator_handle debug_address env f).2.
Proof.
  unfold federator_handle. destruct (hd_to _); try apply keeps_refl;
  (case_decide; [|case_decide; [|case_decide; [apply control_keeps|apply keeps_refl]]]).
  all: unfold on_seer, ingest_delta, on_registry_reply, reclaim; repeat case_match; cbn;
    first [apply keeps_refl | apply keeps_count | apply keeps_delete; exact (mkIngestRejections 0 0 0 0)].
Qed.

Fixpoint federator_run (envs : list Envelope) (f : OmegaFederator) : OmegaFederator :=
  match envs with
  | [] => f
  | env :: envs => federator_run envs (federator_handle debug_address env f).2
  end.

Lemma federator_run_keeps envs f : keeps f (federator_run envs f).
Proof.
  revert f. induction envs as [|env envs IH]; intros f; [apply keeps_refl|]. cbn.
  destruct (federator_keeps env f) as [(S1 & S2 & S3 & S4) P]. destruct (IH (federator_handle debug_address env f).2)
    as [(T1 & T2 & T3 & T4) Q]. split; [|by auto]. split_and!; congruence.
Qed.

(** ** A signed observation *)

Lemma hex_field_ok scope field b : blen b ≤ 256 → field_shape_error scope field (hex_encode b) = None.
Proof.
  intros Hb. unfold field_shape_error. apply or_error_None. split.
  - apply too_large_None. rewrite slen_hex_encode. change MAX_REGISTRY_SIGNAL_FIELD_BYTES with 512. lia.
  - apply reject_if_None. apply (all_bytes_no_char is_lower_hex); [done|apply hex_encode_lower].
Qed.

(** The observation that a federator signs. *)
Definition observation (A : OmegaFederator) (h : string) (realm : RealmId) (score : f32) : ReputationDelta :=
  delta_sign (mkReputationDelta h realm score (fc_self_realm (of_cfg A))
    (km_public_hex (fc_abode_key (of_cfg A))) None) (fc_abode_key (of_cfg A)).

Lemma observation_verifies A seed h realm score :
  fc_abode_key (of_cfg A) = from_seed seed → delta_verify (observation A h realm score) ed25519_verifier = true.
Proof.
  intros Hk. unfold delta_verify, observation, delta_sign. cbn. rewrite Hk.
  apply key_signature_verifies.
Qed.

Lemma observation_shape A seed h realm score :
  fc_abode_key (of_cfg A) = from_seed seed → registry_key_shape_error h realm = None →
  realm_field_shape_error "reputation delta" "observer_realm" (fc_self_realm (of_cfg A)) = None →
  reputation_delta_shape_error (observation A h realm score) = None.
Proof.
  intros Hk Hr Ho. unfold reputation_delta_shape_error, observation, delta_sign. cbn. rewrite Hk.
  rewrite !or_error_None. split_and!; try done.
  - apply hex_field_ok. unfold blen. rewrite ed_public_length. lia.
  - apply hex_field_ok. unfold blen. rewrite ed_sign_length. lia.
Qed.

Lemma registry_key_attests h realm score attesting :
  registry_key_shape_error h realm = None → f32_is_finite score = true →
  realm_field_shape_error "reputation delta" "observer_realm" attesting = None →
  attest_shape_error (mkReputationScore score (Some attesting) None None) h realm = None.
Proof.
  unfold registry_key_shape_error, realm_field_shape_error, field_shape_error, attest_shape_error,
    signal_hash_error, signal_realm_error. cbn. rewrite !or_error_None, !too_large_None, !reject_if_None.
  intros [Hh [[H3 H4] H5]] -> [[H6 H7] H8]. apply negb_false_iff in H5, H8. rewrite H4, H5, H7, H8. cbn.
  destruct (artifact_hash_shape_error h) eqn:E; [done|]. apply artifact_hash_shape_None in E as [E1 E2].
  split_and!; try done.
  - rewrite E1. done.
  - by apply (all_bytes_no_char is_lower_hex).
Qed.

(** The request to share an observation. *)
Lemma share_accepted env A me h realm score node creature :
  hd_schema (ev_header env) = FEDERATOR_SCHEMA → (∀ r a, hd_to (ev_header env) ≠ AOmega r a) →
  ev_payload env = to_bytes (FFederateReputation h realm score node creature) →
  reads_back (FFederateReputation h realm score node creature) →
  blen (ev_payload env) ≤ MAX_FEDERATOR_MESSAGE_BYTES → of_me A = Some me →
  registry_key_shape_error h realm = None → peer_node_shape_error "federator" "peer_node" node = None →
  f32_is_finite score = true →
  ∃ d acks A', federator_handle debug_address env A = (mkOutcome (d :: acks) None, A')
    ∧ di_payload d = to_bytes (seer_answer Consensus (of_next_consult_corr A) 0 (observation A h realm score))
    ∧ di_schema d = SEER_SCHEMA ∧ di_to d = addr_for A node creature.
Proof.
  intros Hs Ht Hp Hb Hl Hme Hk Hn Hf.
  assert (brings env (mkDispatch (hd_to (ev_header env)) None (ev_payload env) FEDERATOR_SCHEMA
            (hd_corr (ev_header env)) None)) as B by (by split_and!).
  rewrite (handle_schema _ _ _ B). cbn. unfold federator_on_control, federator_parse_bounded.
  rewrite (bool_decide_eq_false_2 (MAX_FEDERATOR_MESSAGE_BYTES < _)) by lia.
  rewrite Hp, Hb. unfold on_federate_reputation. rewrite Hme, Hk, Hn, Hf. cbn. by eauto 10.
Qed.

(** ... and its reception. *)
Lemma share_observed env d corr A B seed h realm score :
  brings env d → di_payload d = to_bytes (seer_answer Consensus corr 0 (observation A h realm score)) →
  reads_back (seer_answer Consensus corr 0 (observation A h realm score)) →
  blen (di_payload d) ≤ MAX_SEER_ENVELOPE_BYTES →
  from_value (wire_to_value (observation A h realm score)) = Ok (observation A h realm score) →
  fc_abode_key (of_cfg A) = from_seed seed → of_verifier B = ed25519_verifier →
  registry_key_shape_error h realm = None → f32_is_finite score = true →
  realm_field_shape_error "reputation delta" "observer_realm" (fc_self_realm (of_cfg A)) = None →
  observed env B (observation A h realm score).
Proof.
  intros (Hp & _) Hd Hb Hl Hv Hk Hg Hr Hf Ho.
  exists (seer_answer Consensus corr 0 (observation A h realm score)), 0, (wire_to_value (observation A h realm score)). split_and!; [|done|done|done| |done|].
  - unfold seer_parse_bounded, seer_parse_with_limit. rewrite Hp.
    rewrite (bool_decide_eq_false_2 (MAX_SEER_ENVELOPE_BYTES < _)) by lia. by rewrite Hd, Hb.
  - by eapply observation_shape.
  - rewrite Hg. by eapply observation_verifies.
Qed.
End merge.

(** ** A concrete federation *)

Module federation_sample.
#[local] Existing Instances zero_sha stuffed_text toy_ed25519 toy_keys.
Definition realm : RealmId := "crew".
Definition key : Key := (realm, zeros64).
Definition rep : ReputationScore := mkReputationScore f32_one (Some realm) None None.
Definition notice : QuarantineNotice := mkQuarantineNotice "leak" ["node-A"].
Definition manifest : Manifest := Manifest_new "f" "1" BBeast "v1".
Definition artifact : bytes := [Byte.x2a].
Definition row : Entry := mkEntry manifest artifact (Some rep) (Some notice).
Definition source : RegistryMem := set_entries {[key := row]} RegistryMem_new.
Definition iter : MapIter := map_to_list.
Definition rows : list SyncEntry := [sync_of (key, row)].

(** Each message of the example has a byte of its own. *)
Definition sent : list RegistryOp :=
  [OpPublish manifest artifact (Some realm); OpAttestFitness zeros64 realm f32_one (Some realm) None None;
   OpMarkQuarantine zeros64 realm "leak" ["node-A"]; OpListEntries (Some realm)].
#[local] Instance ops : SerdeJson RegistryOp :=
  {| to_vec op := Ok [byte_of_N (match op with OpPublish _ _ _ => 0 | OpAttestFitness _ _ _ _ _ _ => 1
                                | OpMarkQuarantine _ _ _ _ => 2 | _ => 3 end)];
     from_slice b := ok_or (x ← head b; sent !! N.to_nat (Byte.to_N x)) "" |}.
#[local] Instance replies : SerdeJson RegistryReply :=
  {| to_vec _ := Ok []; from_slice _ := Ok (ReEntries rows) |}.
#[local] Instance headers : SerdeJson ChunkFrameHeader := countable_serde _.
#[local] Instance deltas : SerdeJson ReputationDelta := {| to_vec _ := Ok []; from_slice _ := Err "" |}.
#[local] Instance routes : SerdeJson NoOmegaRouteReply := {| to_vec _ := Ok []; from_slice _ := Err "" |}.
#[local] Instance drops : SerdeJson IngestDropEvent := {| to_vec _ := Ok []; from_slice _ := Err "" |}.

Definition seed : bytes := replicate 32 Byte.x07.
Definition cfg (n : NodeId) : FederatorConfig :=
  mkFederatorConfig n realm 50 (from_seed seed) ∅ UnitWeigher.
Definition federator (n : NodeId) : OmegaFederator :=
  federator_bind 9 (OmegaFederator_new (cfg n) []).
Definition observed_delta : ReputationDelta := observation (federator "node-A") zeros64 realm f32_one.
#[local] Instance values : ToValue ReputationDelta := fun _ => Ok JNull.
#[local] Instance bodies : FromValue ReputationDelta := fun _ => Ok observed_delta.
Definition share_msg : SeerEnvelope := seer_answer Consensus 3000000 0 observed_delta.
#[local] Instance seers : SerdeJson SeerEnvelope := {| to_vec _ := Ok []; from_slice _ := Ok share_msg |}.
Definition pull_msg : FederatorMsg := FPullFrom realm "node-B" 51.
Definition share_ask : FederatorMsg := FFederateReputation zeros64 realm f32_one "node-B" 9.
#[local] Instance messages : SerdeJson FederatorMsg :=
  {| to_vec m := Ok (match m with FPullFrom _ _ _ => [] | _ => [Byte.x01] end);
     from_slice b := Ok (match b with [] => pull_msg | _ => share_ask end) |}.

Definition env_of (d : Dispatch) : Envelope :=
  mkEnvelope (mkHeader (ACreature 1) (ACreature 9) None 3 [] 0 "" (di_corr d) None (di_schema d) None)
    (di_payload d).
Definition ask (m : FederatorMsg) : Envelope :=
  env_of (mkDispatch (ACreature 9) None (to_bytes m) FEDERATOR_SCHEMA (Some 1) None).

Lemma brings_env_of d : brings (env_of d) d.
Proof. by split_and!. Qed.
Lemma federator_sample_lawful : lawful_iter iter.
Proof. by intros g. Qed.
Lemma source_ok : registry_ok source.
Proof.
  split; [|vm_compute; done]. apply map_Forall_singleton. split.
  - reflexivity.
  - vm_compute. reflexivity.
  - intros _. vm_compute. done.
  - intros s [= <-]. vm_compute. reflexivity.
  - intros q [= <-]. vm_compute. reflexivity.
Qed.
Definition steps : list (MapIter * Envelope) :=
  map (fun op => (iter, env_of (registry_dispatch 50 9 op))) (rows_ops [(key, row)]).
Lemma delivered : delivers steps (rows_ops [(key, row)]) RegistryMem_new.
Proof.
  split_and!.
  - repeat constructor.
  - repeat constructor; vm_compute; reflexivity.
  - repeat constructor; intros _; vm_compute; done.
Qed.
Lemma row_admitted k e :
  rm_entries source !! k = Some e → k.1 = realm → row_fits RegistryMem_new e.
Proof.
  change (rm_entries source) with ({[key := row]} : Catalog). intros Hk _ _.
  apply lookup_singleton_Some in Hk as [_ <-]. vm_compute. done.
Qed.
End federation_sample.

(** ** Properties *)

(** C27: a pull brings the peer's rows. A pull that the federator is asked for is
    sent to the named registry; a sound registry answers it with its rows of that
    realm; and when the federator reads the answer while the pull is in flight, it
    gives the slot back and sends the local registry operations after which, once
    they are delivered in order within its limits, it holds every row of the realm
    that the peer holds, with its manifest, artifact, reputation and quarantine, and
    all its other rows as they were. *)
Theorem pull_converges `{!Sha256} (X : ShaHex) `{!JsonText} `{!Ed25519} `{!Ed25519Keys}
    `{!SerdeJson RegistryOp} `{!SerdeJson RegistryReply} `{!SerdeJson ChunkFrameHeader}
    `{!SerdeJson ReputationDelta} `{!ToValue ReputationDelta} `{!FromValue ReputationDelta}
    `{!SerdeJson SeerEnvelope} `{!SerdeJson FederatorMsg} `{!SerdeJson NoOmegaRouteReply}
    `{!SerdeJson IngestDropEvent} (debug_address : Address → string)
    (f : OmegaFederator) (me : CreatureId) (Hme : of_me f = Some me)
    (realm : RealmId) (node : NodeId) (registry : CreatureId)
    (Hend : federation_endpoint_shape_error realm node = None)
    (Hcap : of_max_pending_pulls f ≠ 0 → pending_pull_count f < of_max_pending_pulls f)
    (ask : Envelope) (Hask : brings ask (mkDispatch (ACreature me) None
       (to_bytes (FPullFrom realm node registry)) FEDERATOR_SCHEMA (hd_corr (ev_header ask)) None))
    (Hread : reads_back (FPullFrom realm node registry))
    (Hlen : blen (ev_payload ask) ≤ MAX_FEDERATOR_MESSAGE_BYTES)
    (source : RegistryMem) (O : registry_ok source) (iter : MapIter) (Hiter : lawful_iter iter)
    (rows : list SyncEntry) (Hrows : sync_entries_checked iter (Some realm) source = Ok rows)
    (Hop : reads_back (OpListEntries (Some realm))) (Hfit : op_fits source (OpListEntries (Some realm)))
    (Hreply : reads_back (ReEntries rows)) (Hsize : blen (to_bytes (ReEntries rows)) ≤ MAX_REGISTRY_REPLY_BYTES) :
  ∃ d acks f1, federator_handle debug_address ask f = (mkOutcome (d :: acks) None, f1)
    ∧ di_to d = addr_for f node registry
    ∧ of_pending_pulls f1 !! of_next_consult_corr f = Some realm
    ∧ ∀ env1, brings env1 d →
      ∃ answer, registry_handle iter env1 source = (Outcome_send answer, source)
      ∧ ∀ env2 f2, brings env2 answer → of_me f2 = Some me →
          of_pending_pulls f2 !! of_next_consult_corr f = Some realm →
          let ops := rows_ops (realm_rows iter realm source) in
          ∃ f3, federator_handle debug_address env2 f2
            = (mkOutcome (map (registry_dispatch (fc_local_registry (of_cfg f2)) me) ops) None, f3)
          ∧ of_pending_pulls f3 = delete (of_next_consult_corr f) (of_pending_pulls f2)
          ∧ ∀ local steps, delivers steps ops local →
              (∀ key e, rm_entries source !! key = Some e → key.1 = realm → row_fits local e) →
              has_room (size (rm_entries source)) local →
              ∀ k, rm_entries (registry_run steps local) !! k
                = match rm_entries source !! k with
                  | Some e => if decide (k.1 = realm) then Some e else rm_entries local !! k
                  | None => rm_entries local !! k
                  end.
Proof.
  destruct Hask as (Ep & _ & Es & Et). cbn in *.
  destruct (pull_accepted debug_address ask f me realm node registry Es Et Ep Hread Hlen Hme Hend Hcap)
    as (d & acks & f1 & Hh & Hd & Hs & Hto & Hc & Hpend & _).
  exists d, acks, f1. split_and!; [done|done|by rewrite Hpend, lookup_insert_eq|].
  intros env1 B1. pose proof (pull_answered iter env1 d realm source rows B1 Hd Hop Hfit Hrows) as Ha.
  assert (map sync_of (realm_rows iter realm source) = rows) as Er
    by (symmetry; by eapply collect_sync_map).
  eexists. split; [exact Ha|]. intros env2 f2 B2 Hme2 Hk.
  assert (hd_corr (ev_header env1) = Some (of_next_consult_corr f)) as Hc1
    by (destruct B1 as (_ & -> & _); done).
  cbv zeta. eexists _. split; [|split].
  - eapply (merge_reply debug_address env2 f2 _ realm me (of_next_consult_corr f)
      (realm_rows iter realm source)); [exact B2|done|done|done|by rewrite Er| |done|done|].
    + cbn. by rewrite Er.
    + intros x Hx. by apply (realm_rows_sound iter).
  - done.
  - intros local steps D Hf Hr k. by apply (merged_rows iter).
Qed.

Lemma pull_converges_witness :
  rm_entries (@registry_run zero_sha stuffed_text federation_sample.ops federation_sample.replies
    federation_sample.headers federation_sample.steps RegistryMem_new) !! federation_sample.key
  = Some federation_sample.row.
Proof.
  destruct (@pull_converges zero_sha zero_sha_hex stuffed_text toy_ed25519 toy_keys federation_sample.ops
    federation_sample.replies federation_sample.headers federation_sample.deltas federation_sample.values
    federation_sample.bodies federation_sample.seers federation_sample.messages federation_sample.routes
    federation_sample.drops (fun _ => "") (federation_sample.federator "node-A") 9 eq_refl
    federation_sample.realm "node-B" 51 ltac:(vm_compute; reflexivity) ltac:(vm_compute; done)
    (federation_sample.ask federation_sample.pull_msg) ltac:(by split_and!) ltac:(vm_compute; reflexivity)
    ltac:(vm_compute; done) federation_sample.source federation_sample.source_ok federation_sample.iter
    federation_sample.federator_sample_lawful federation_sample.rows ltac:(vm_compute; reflexivity)
    ltac:(vm_compute; reflexivity) ltac:(intros _; vm_compute; done) ltac:(vm_compute; reflexivity)
    ltac:(vm_compute; done)) as (d & acks & f1 & Hh & _ & Hp & H).
  assert (of_me f1 = Some 9) as Hme by (apply (f_equal (fun x => of_me x.2)) in Hh; by vm_compute in Hh).
  destruct (H _ (federation_sample.brings_env_of d)) as (answer & _ & H2).
  destruct (H2 _ f1 (federation_sample.brings_env_of answer) Hme Hp) as (f3 & _ & _ & H3).
  exact (H3 RegistryMem_new federation_sample.steps federation_sample.delivered
    federation_sample.row_admitted
    ltac:(intros _; vm_compute; done) federation_sample.key).
Defined.

(** C28: the federator writes nothing unjustified, whatever it receives. After any
    messages, every registry operation it sends is one of these: the request of a pull
    that it was asked for; the credit of an observation that its observer signed,
    finite and weighted; the marker of a well-shaped notice; an operation of a row of
    the reply to a pull in flight, whose artifact has the hash it is listed under, and
    which writes the realm that was asked for and no other, so that the other realms of
    a registry without eviction keep their rows; or the payload of a message addressed
    to a mapped realm, passed on unread to the peer of that realm, or to a local
    creature only if this node is that peer. Pulls in flight stay below their limit. *)
Theorem federator_writes_justified `{!Sha256} `{!JsonText} `{!Ed25519} `{!Ed25519Keys}
    `{!SerdeJson RegistryOp} `{!SerdeJson RegistryReply} `{!SerdeJson ChunkFrameHeader}
    `{!SerdeJson ReputationDelta} `{!ToValue ReputationDelta} `{!FromValue ReputationDelta}
    `{!SerdeJson SeerEnvelope} `{!SerdeJson FederatorMsg} `{!SerdeJson NoOmegaRouteReply}
    `{!SerdeJson IngestDropEvent} (debug_address : Address → string)
    (cfg : FederatorConfig) (mappings : list (RealmId * NodeId)) (max_pulls : N) (me : CreatureId)
    (envs : list Envelope) :
  let f := federator_run debug_address envs
             (federator_bind me (with_max_pending_pulls max_pulls (OmegaFederator_new cfg mappings))) in
  (max_pulls ≠ 0 → pending_pull_count f ≤ max_pulls)
  ∧ (∀ env d, d ∈ out_dispatches (federator_handle debug_address env f).1 →
       di_schema d = REGISTRY_OP_SCHEMA → justified env f me d)
  ∧ ∀ ops realm steps r k, Forall (confined realm) ops → carries steps ops → Forall reads_back ops →
      rm_evictor r = None → k.1 ≠ realm → rm_entries (registry_run steps r) !! k = rm_entries r !! k.
Proof.
  cbv zeta. set (f0 := federator_bind _ _). set (f := federator_run _ envs f0).
  destruct (federator_run_keeps debug_address envs f0) as [(S1 & S2 & S3 & S4) P]. fold f in S1, S2, S3, S4, P.
  assert (pulls_ok f) as [B V] by (apply P; split; [intros _; cbn; apply N.le_0_l|apply map_Forall_empty]).
  split_and!; [rewrite <- (S4 : _ = max_pulls); exact B| |].
  - intros env d Hd Hs. by apply (handle_justified debug_address env f me d S2).
  - intros ops realm steps r k F C Rb Hn Hk. apply (run_other_realms steps ops); [done..|].
    intros op Hop E. rewrite Forall_forall in F. specialize (F op Hop). apply confined_realm in F. congruence.
Qed.

(** An observation is credited at the peer. When a federator is asked to share
    a score, it signs it and sends it to the peer; a peer that receives it and gives
    its observer a positive weight sends its registry one operation, after which the
    row holds the score times the weight, tagged with the observer's realm, and no
    promotion signature. *)
Theorem reputation_federates `{!Sha256} `{!JsonText} `{!Ed25519} (Y : Ed25519Keys)
    `{!SerdeJson RegistryOp} `{!SerdeJson RegistryReply} `{!SerdeJson ChunkFrameHeader}
    `{!SerdeJson ReputationDelta} `{!ToValue ReputationDelta} `{!FromValue ReputationDelta}
    `{!SerdeJson SeerEnvelope} `{!SerdeJson FederatorMsg} `{!SerdeJson NoOmegaRouteReply}
    `{!SerdeJson IngestDropEvent} (debug_address : Address → string)
    (A B : OmegaFederator) (a b : CreatureId) (seed : bytes) (HA : of_me A = Some a) (HB : of_me B = Some b)
    (Hkey : fc_abode_key (of_cfg A) = from_seed seed) (Hver : of_verifier B = ed25519_verifier)
    (Hself : realm_field_shape_error "reputation delta" "observer_realm" (fc_self_realm (of_cfg A)) = None)
    (h : string) (realm : RealmId) (score : f32) (node : NodeId) (creature : CreatureId)
    (Hrow : registry_key_shape_error h realm = None)
    (Hnode : peer_node_shape_error "federator" "peer_node" node = None)
    (Hfin : f32_is_finite score = true)
    (ask : Envelope) (Hask : brings ask (mkDispatch (ACreature a) None
       (to_bytes (FFederateReputation h realm score node creature)) FEDERATOR_SCHEMA
       (hd_corr (ev_header ask)) None))
    (Hread : reads_back (FFederateReputation h realm score node creature))
    (Hlen : blen (ev_payload ask) ≤ MAX_FEDERATOR_MESSAGE_BYTES)
    (Hvalue : from_value (wire_to_value (observation A h realm score)) = Ok (observation A h realm score))
    (Hseer : reads_back (seer_answer Consensus (of_next_consult_corr A) 0 (observation A h realm score)))
    (Hsize : blen (to_bytes (seer_answer Consensus (of_next_consult_corr A) 0 (observation A h realm score)))
             ≤ MAX_SEER_ENVELOPE_BYTES)
    (Hweight : creditable B (observation A h realm score)) :
  let credited := f32_mul score (weight_of B (observation A h realm score)) in
  ∃ d acks A', federator_handle debug_address ask A = (mkOutcome (d :: acks) None, A')
    ∧ di_to d = addr_for A node creature
    ∧ ∀ env, brings env d →
      ∃ op, federator_handle debug_address env B
            = (Outcome_send (registry_dispatch (fc_local_registry (of_cfg B)) b op), B)
      ∧ ∀ steps r e, delivers steps [op] r → rm_entries r !! (realm, h) = Some e → f32_is_finite credited = true →
          registry_run steps r
          = set_entries (<[(realm, h) := mkEntry (en_manifest e) (en_artifact e)
              (Some (mkReputationScore credited (Some (fc_self_realm (of_cfg A))) None None))
              (en_quarantine e)]> (rm_entries r)) r.
Proof.
  cbv zeta. destruct Hask as (Ep & _ & Es & Et). cbn in Ep, Es.
  destruct (share_accepted debug_address ask A a h realm score node creature Es Et Ep Hread Hlen HA Hrow Hnode Hfin)
    as (d & acks & A' & Hh & Hd & Hs & Hto).
  exists d, acks, A'. split_and!; [done|done|]. intros env Bd.
  assert (observed env B (observation A h realm score)) as Ho
    by (eapply share_observed; try done; by rewrite Hd).
  exists (credit B (observation A h realm score)). split.
  - rewrite (handle_schema debug_address _ _ _ Bd), Hs. cbn. by apply seer_credits.
  - intros steps r e D He Hf. apply run_one in D as (iter & env' & ->). cbn.
    rewrite (attest_applies _ _ _ _ e); [done| |done]. by apply registry_key_attests.
Qed.

Lemma reputation_federates_witness :
  ∃ op, let federate := @federator_handle zero_sha toy_ed25519 toy_keys federation_sample.deltas
      federation_sample.values federation_sample.bodies federation_sample.seers federation_sample.messages
      federation_sample.ops federation_sample.replies federation_sample.routes federation_sample.drops
      (fun _ => "") in
    ∃ env, (federate env (federation_sample.federator "node-B")).1
      = Outcome_send (@registry_dispatch federation_sample.ops 50 9 op).
Proof.
  destruct (@reputation_federates zero_sha stuffed_text toy_ed25519 toy_keys federation_sample.ops
    federation_sample.replies federation_sample.headers federation_sample.deltas federation_sample.values
    federation_sample.bodies federation_sample.seers federation_sample.messages federation_sample.routes
    federation_sample.drops (fun _ => "") (federation_sample.federator "node-A")
    (federation_sample.federator "node-B") 9 9 federation_sample.seed eq_refl eq_refl eq_refl eq_refl
    ltac:(vm_compute; reflexivity) zeros64 federation_sample.realm f32_one "node-B" 9
    ltac:(vm_compute; reflexivity) ltac:(vm_compute; reflexivity) ltac:(vm_compute; reflexivity)
    (federation_sample.ask federation_sample.share_ask) ltac:(by split_and!) ltac:(vm_compute; reflexivity)
    ltac:(vm_compute; done) ltac:(vm_compute; reflexivity) ltac:(vm_compute; reflexivity)
    ltac:(vm_compute; done) ltac:(split; vm_compute; reflexivity)) as (d & acks & A' & _ & _ & H).
  destruct (H _ (federation_sample.brings_env_of d)) as (op & Hop & _).
  exists op, (federation_sample.env_of d). by rewrite Hop.
Defined.
