(* ===== verification/Admission.v ===== *)
(** * Admission

    [cosmos/sanctum/src/lib.rs], the gate of the kernel: the evidence it gathers on
    a manifest and an artifact, and the injected policy that decides; and the
    reference policies of [cosmos/creatures/prototypes/policies]: signed, dev,
    prefer-promoted and quarantine-aware, and the allowlist of the restore gate.

    The digest of an artifact is computed by the loaders: it is an argument, with
    their error. The text of a float, used in two messages, is an argument too. *)

From S2P Require Import Prelude F32 Serde GxShape GxHash FnCrypto FnTypes.
From S2P Require Import AetherAddress AetherEnvelope AetherRouter Sigil BestiaryWire Registry Abode.

(** [str::trim]. *)
Fixpoint trim_start (s : string) : string :=
  match s with
  | EmptyString => EmptyString
  | String a s1 =>
      let x := Ascii.N_of_ascii a in
      if is_white1 x then trim_start s1
      else
        match s1 with
        | EmptyString => s
        | String b s2 =>
            let y := Ascii.N_of_ascii b in
            if is_white2 x y then trim_start s2
            else
              match s2 with
              | EmptyString => s
              | String c s3 => if is_white3 x y (Ascii.N_of_ascii c) then trim_start s3 else s
              end
        end
  end.
(** Up to the first place from which only whitespace follows: no suffix that starts
    inside a character is blank. *)
Fixpoint trim_end (s : string) : string :=
  if is_blank s then EmptyString
  else match s with EmptyString => EmptyString | String a s => String a (trim_end s) end.
Definition trim (s : string) : string := trim_end (trim_start s).

Example trim_examples :
  trim "  a b	 " = "a b" ∧ trim "   " = "" ∧ trim "key" = "key".
Proof. done. Qed.

(** ** The kernel's gate *)

Record Admission : Type := mkAdmission {
  ad_signature_present : bool;
  ad_signature_valid : bool;
  ad_content_address_declared : option string;
  ad_content_address_matches : option bool;
  ad_artifact_hash_declared : bool;
  ad_artifact_hash_matches : option bool;
  ad_had_artifact : bool
}.

Definition Policy : Type := Manifest → Admission → result string unit.

Inductive KernelError : Type :=
  | AdmissionRejected (message : string)
  | KernelManifest (e : ManifestError).

Section kernel.
  Context `{!Sha256} `{!JsonText} `{!SerdeJson Manifest}.

(** [None] is the panic of a manifest that does not serialise. *)
Definition signature_valid (verifier : Verifier) (m : Manifest) : option bool :=
  match pv_author (mf_provenance m), pv_signature (mf_provenance m) with
  | Some author, Some s => p ← manifest_signing_payload m; Some (verifier author p s)
  | _, _ => Some false
  end.
Definition content_address_matches (m : Manifest) : option (option bool) :=
  match mf_content_address m with
  | Some a => c ← compute_content_address m; Some (Some (bool_decide (a = c)))
  | None => Some None
  end.
Definition artifact_hash_matches (m : Manifest) (actual : option string) : option bool :=
  match actual, pv_build_hash (mf_provenance m) with
  | Some actual, Some expected => Some (bool_decide (actual = expected))
  | _, _ => None
  end.

Definition kernel_evidence (verifier : Verifier) (m : Manifest) (actual : option string)
    (had_artifact : bool) : option Admission :=
  valid ← signature_valid verifier m;
  matches ← content_address_matches m;
  Some (mkAdmission (bool_decide (is_Some (pv_signature (mf_provenance m)))) valid
          (mf_content_address m) matches (bool_decide (is_Some (pv_build_hash (mf_provenance m))))
          (artifact_hash_matches m actual) had_artifact).

Definition kernel_admit (verifier : Verifier) (policy : Policy) (m : Manifest)
    (artifact : option (result string string)) : option (result KernelError (option string)) :=
  match Manifest_validate m with
  | Err e => Some (Err (KernelManifest e))
  | Ok _ =>
      match artifact with
      | Some (Err error) =>
          _ ← kernel_evidence verifier m None true;
          Some (Err (AdmissionRejected ("artifact unreadable for integrity check: " +:+ error)))
      | _ =>
          let actual := match artifact with Some (Ok h) => Some h | _ => None end in
          evidence ← kernel_evidence verifier m actual (bool_decide (is_Some artifact));
          Some (match policy m evidence with
                | Err message => Err (AdmissionRejected message)
                | Ok _ => Ok actual
                end)
      end
  end.
End kernel.

(** ** The signed policy *)

Definition DEFAULT_MAX_ALLOWED_AUTHORS : N := 1024.
Definition MAX_ALLOWED_AUTHOR_BYTES : N := MAX_MANIFEST_PROVENANCE_FIELD_BYTES.

Record SignedPolicy : Type := mkSignedPolicy {
  sp_allowed_authors : list string;
  sp_require_artifact_hash : bool;
  sp_allow_any_author : bool
}.

Definition allowed_author_key_shape_error (key : string) : option string :=
  reject_if (bool_decide (key = "") || bool_decide (MAX_ALLOWED_AUTHOR_BYTES < slen key)
             || contains_char NUL key)
    ("allowed author must be 1..=" +:+ dec MAX_ALLOWED_AUTHOR_BYTES +:+ " bytes and NUL-free").

Definition insert_allowed_author_key (retained : list string) (key : string) (max_keys : N) :
    list string :=
  match allowed_author_key_shape_error key with
  | Some _ => retained
  | None =>
      if bool_decide (key ∈ retained) then retained
      else if bool_decide (max_keys ≠ 0) && bool_decide (max_keys ≤ N.of_nat (length retained))
      then retained else retained ++ [key]
  end.
Definition retain_allowed_author_keys (keys : list string) (max_keys : N) : list string :=
  foldl (fun retained key => insert_allowed_author_key retained key max_keys) [] keys.

Definition SignedPolicy_new_with_author_limit (authors : list string) (max : N) : SignedPolicy :=
  mkSignedPolicy (retain_allowed_author_keys authors max) true false.
Definition SignedPolicy_new (authors : list string) : SignedPolicy :=
  SignedPolicy_new_with_author_limit authors DEFAULT_MAX_ALLOWED_AUTHORS.
Definition any_signed_author : SignedPolicy := mkSignedPolicy [] true true.

Definition signed_admit (p : SignedPolicy) : Policy :=
  fun m e =>
    if negb (ad_signature_present e) then Err "unsigned manifest rejected"
    else if negb (ad_signature_valid e) then Err "manifest signature did not verify"
    else
      _ ← (if sp_require_artifact_hash p && ad_had_artifact e then
             match ad_artifact_hash_matches e with
             | Some true => Ok tt
             | Some false => Err "artifact bytes do not match provenance.build_hash (integrity)"
             | None => Err "strict policy requires `provenance.build_hash` to bind artifact bytes"
             end
           else Ok tt);
      match ad_content_address_matches e with
      | Some false =>
          Err "manifest content_address does not match the receiver's recompute (identity drift)"
      | _ =>
          if negb (sp_allow_any_author p) then
            match pv_author (mf_provenance m) with
            | Some a =>
                if bool_decide (a ∈ sp_allowed_authors p) then Ok tt
                else Err ("author `" +:+ a +:+ "` is not in the trust allowlist")
            | None => Err "manifest declared no author"
            end
          else Ok tt
      end.

Definition dev_admit : Policy := fun _ _ => Ok tt.

(** ** Promotions and quarantine *)

Definition DEFAULT_MAX_TRUSTED_SELECTORS : N := 1024.
Definition MAX_TRUSTED_SELECTOR_BYTES : N := 128.

Definition trusted_selector_key_is_valid (key : string) : bool :=
  bool_decide (key ≠ "") && bool_decide (slen key ≤ MAX_TRUSTED_SELECTOR_BYTES)
  && negb (contains_char NUL key).

Fixpoint sanitize_loop (max_keys : N) (out selectors : list string) : list string :=
  match selectors with
  | [] => out
  | raw :: selectors =>
      if bool_decide (max_keys ≠ 0) && bool_decide (max_keys ≤ N.of_nat (length out)) then out
      else
        let key := trim raw in
        if negb (trusted_selector_key_is_valid key) || bool_decide (key ∈ out)
        then sanitize_loop max_keys out selectors
        else sanitize_loop max_keys (out ++ [key]) selectors
  end.
Definition sanitize_trusted_selectors (selectors : list string) (max_keys : N) : list string :=
  sanitize_loop max_keys [] selectors.

(** The two policies have the same fields; the registry is shared, and read when a
    policy is asked. *)
Record PromotionPolicy : Type := mkPromotionPolicy {
  pp_min_score : f32;
  pp_verifier : Verifier;
  pp_trusted_selectors : list string;
  pp_allow_any_selector : bool
}.

Definition PromotionPolicy_new `{!Ed25519} (min_score : f32) : PromotionPolicy :=
  mkPromotionPolicy min_score ed25519_verifier [] true.
Definition with_trusted_selector_limit (selectors : list string) (max : N) (p : PromotionPolicy) :
    PromotionPolicy :=
  mkPromotionPolicy (pp_min_score p) (pp_verifier p) (sanitize_trusted_selectors selectors max) false.
Definition with_trusted_selectors (selectors : list string) (p : PromotionPolicy) : PromotionPolicy :=
  with_trusted_selector_limit selectors DEFAULT_MAX_TRUSTED_SELECTORS p.
Definition new_trusting_selectors `{!Ed25519} (min_score : f32) (selectors : list string) :
    PromotionPolicy := with_trusted_selectors selectors (PromotionPolicy_new min_score).
Definition any_verified_selector (p : PromotionPolicy) : PromotionPolicy :=
  mkPromotionPolicy (pp_min_score p) (pp_verifier p) [] true.
Definition promotion_with_verifier (v : Verifier) (p : PromotionPolicy) : PromotionPolicy :=
  mkPromotionPolicy (pp_min_score p) v (pp_trusted_selectors p) (pp_allow_any_selector p).

Section promotion.
  Context `{!SerdeJson PromotionClaim} (f32_display : f32 → string).

(** The row that a manifest names by its provenance. *)
Definition declared_key (m : Manifest) : option Key :=
  hash ← pv_build_hash (mf_provenance m);
  Some (default RealmId_local (pv_realm (mf_provenance m)), hash).

(** The promotion gate, under the name of a policy. *)
Definition promotion_gate (name : string) (p : PromotionPolicy) (key : Key) (e : Entry) :
    result string unit :=
  match en_reputation e with
  | None => Err (name +:+ ": (" +:+ key.1 +:+ ", " +:+ key.2 +:+ ") carries no reputation — not promoted")
  | Some rep =>
      if negb (f32_is_finite (rs_score rep)) then
        Err (name +:+ ": stored reputation score is non-finite")
      else if f32_ltb (rs_score rep) (pp_min_score p) then
        Err (name +:+ ": score " +:+ f32_display (rs_score rep) +:+ " is below the minimum "
             +:+ f32_display (pp_min_score p))
      else
        _ ← (if negb (pp_allow_any_selector p) then
               match rs_signed_by rep with
               | None => Err (name +:+ ": promotion has no signed_by selector for the trust allowlist")
               | Some selector =>
                   if bool_decide (selector ∈ pp_trusted_selectors p) then Ok tt
                   else Err (name +:+ ": selector `" +:+ selector +:+ "` is not in the trust allowlist")
               end
             else Ok tt);
        if promotion_verifies rep key.2 key.1 (pp_verifier p) then Ok tt
        else Err (name +:+ ": promotion signature does not verify (unsigned, or signed by a key "
                  +:+ "that doesn't match the stored claim)")
  end.

Definition prefer_promoted_admit (p : PromotionPolicy) (registry : RegistryMem) : Policy :=
  fun m _ =>
    match declared_key m with
    | None =>
        Err ("prefer-promoted: manifest declares no provenance.build_hash — cannot locate a registry "
             +:+ "entry to check for a promotion")
    | Some key =>
        match fetch_in key.1 key.2 registry with
        | None =>
            Err ("prefer-promoted: no registry entry for (" +:+ key.1 +:+ ", " +:+ key.2
                 +:+ ") — only known, promoted creatures admit")
        | Some e => promotion_gate "prefer-promoted" p key e
        end
    end.

Definition quarantine_aware_admit (p : PromotionPolicy) (registry : RegistryMem) : Policy :=
  fun m _ =>
    match declared_key m with
    | None =>
        Err ("quarantine-aware: manifest declares no provenance.build_hash — cannot locate a registry "
             +:+ "entry to check")
    | Some key =>
        match fetch_in key.1 key.2 registry with
        | None =>
            Err ("quarantine-aware: no registry entry for (" +:+ key.1 +:+ ", " +:+ key.2
                 +:+ ") — only known creatures admit")
        | Some e =>
            match en_quarantine e with
            | Some q =>
                Err ("quarantine-aware: (" +:+ key.1 +:+ ", " +:+ key.2 +:+ ") is quarantined ("
                     +:+ qn_reason q +:+ ") — defense overrides selection")
            | None => promotion_gate "quarantine-aware" p key e
            end
        end
    end.
End promotion.

(** ** The restore allowlist *)

Definition DEFAULT_MAX_ALLOWED_ABODE_KEYS : N := 1024.
Definition MAX_ALLOWED_ABODE_KEY_BYTES : N := MAX_MANIFEST_PROVENANCE_FIELD_BYTES.

Definition allowed_abode_key_shape_error (key : string) : option string :=
  reject_if (bool_decide (key = "") || bool_decide (MAX_ALLOWED_ABODE_KEY_BYTES < slen key)
             || contains_char NUL key)
    ("allowed Abode key must be 1..=" +:+ dec MAX_ALLOWED_ABODE_KEY_BYTES +:+ " bytes and NUL-free").
Definition insert_allowed_abode_key (retained : list string) (key : string) (max_keys : N) :
    list string :=
  match allowed_abode_key_shape_error key with
  | Some _ => retained
  | None =>
      if bool_decide (key ∈ retained) then retained
      else if bool_decide (max_keys ≠ 0) && bool_decide (max_keys ≤ N.of_nat (length retained))
      then retained else retained ++ [key]
  end.
Definition retain_allowed_abode_keys (keys : list string) (max_keys : N) : list string :=
  foldl (fun retained key => insert_allowed_abode_key retained key max_keys) [] keys.
Definition abode_allowlist_new (keys : list string) : list string :=
  retain_allowed_abode_keys keys DEFAULT_MAX_ALLOWED_ABODE_KEYS.
Definition abode_allowlist_admit (allowed : list string) (s : AbodeSnapshot) : result string unit :=
  if bool_decide (ab_abode_key s ∈ allowed) then Ok tt
  else Err ("abode_key `" +:+ ab_abode_key s +:+ "` is not on the allowlist ("
            +:+ dec (N.of_nat (length allowed)) +:+ " keys allowed)").
