(* ===== verification/Immune.v ===== *)
(** * The immune response

    [cosmos/creatures/immune-response/src/lib.rs]: the faults of watched creatures,
    sensed or reported, become quarantine markers in the local registry and, when
    wired, notices to a peer; notices from peers pass the injected trust model. The
    two reference trust models are here too.

    A [HashSet] is listed in an order that the reply sorts away. *)

From stdpp Require Import sorting.
From S2P Require Import Prelude F32 Serde GxShape FnCrypto FnTypes AetherAddress AetherEnvelope.
From S2P Require Import HomeServe Sigil BestiaryWire Federator.

Definition IMMUNE_SCHEMA : string := "immune.response".
Definition PROPRIO_SCHEMA : string := "proprioception".
Definition BUDGET_SIGNAL_SCHEMA : string := "budget_signal".
Definition EVENT_LEAKED : string := "unload_leaked_resources".
Definition LEVEL_HARD : string := "hard".
Definition DEFAULT_MAX_WATCHED_MODULES : N := 4096.
Definition MAX_CONTROL_MESSAGE_BYTES : N := 1024 * 1024.
Definition MAX_WATCH_FIELD_BYTES : N := 512.
Definition MAX_SENSE_EVENT_BYTES : N := 1024 * 1024.

(** ** Messages *)

Record ProprioWire : Type := mkProprioWire { pw_creature : N; pw_event : string }.
Record BudgetSignalWire : Type := mkBudgetSignalWire {
  bw_creature : N;
  bw_level : string;
  bw_kind : string
}.

Definition decode_sense_wire {T} `{!SerdeJson T} (payload : bytes) : option T :=
  if bool_decide (MAX_SENSE_EVENT_BYTES < blen payload) then None
  else match from_slice payload with Ok x => Some x | Err _ => None end.

Inductive ImmuneMsg : Type :=
  | IWatch (module : N) (realm : RealmId) (artifact_hash : string)
  | IReport (module : N) (reason : string)
  | IStatusQuery
  | IWatching (module : N)
  | IQuarantined (module : N) (artifact_hash reason : string)
  | IIgnored (reason : string)
  | IStatusReply (watched : N) (issued : list N).

(** ** Trust *)

Definition QuarantineTrust : Type := list string → RealmId → bool.

Definition TrustAllQuarantine : QuarantineTrust := fun _ _ => true.

Definition DEFAULT_MAX_TRUSTED_REALMS : N := 1024.
Definition DEFAULT_MAX_TRUSTED_PEERS_PER_REALM : N := 1024.

Record TrustRealmQuarantine : Type := mkTrustRealmQuarantine {
  tq_trusted : gmap string (gset string);
  tq_max_realms : N;
  tq_max_peers_per_realm : N
}.

Definition TrustRealm_new : TrustRealmQuarantine :=
  mkTrustRealmQuarantine ∅ DEFAULT_MAX_TRUSTED_REALMS DEFAULT_MAX_TRUSTED_PEERS_PER_REALM.
Definition with_max_trusted_realms (max : N) (t : TrustRealmQuarantine) : TrustRealmQuarantine :=
  mkTrustRealmQuarantine (tq_trusted t) max (tq_max_peers_per_realm t).
Definition with_max_trusted_peers_per_realm (max : N) (t : TrustRealmQuarantine) :
    TrustRealmQuarantine := mkTrustRealmQuarantine (tq_trusted t) (tq_max_realms t) max.

Definition trusted_entry_shape_error (realm : RealmId) (peer : string) : option string :=
  reject_if (bool_decide (realm = "") || bool_decide (MAX_WATCH_FIELD_BYTES < slen realm)
             || contains_char NUL realm)
    ("trusted realm must be 1..=" +:+ dec MAX_WATCH_FIELD_BYTES +:+ " bytes and contain no NUL");;?
  reject_if (bool_decide (peer = "")
             || bool_decide (MAX_QUARANTINE_ATTESTING_PEER_BYTES < slen peer) || contains_char NUL peer)
    ("trusted peer must be 1..=" +:+ dec MAX_QUARANTINE_ATTESTING_PEER_BYTES
     +:+ " bytes and contain no NUL").

Definition trust (realm : RealmId) (peer : string) (t : TrustRealmQuarantine) :
    TrustRealmQuarantine :=
  match trusted_entry_shape_error realm peer with
  | Some _ => t
  | None =>
      if bool_decide (tq_max_realms t ≠ 0) && bool_decide (tq_trusted t !! realm = None)
         && bool_decide (tq_max_realms t ≤ N.of_nat (size (tq_trusted t)))
      then t
      else
        let peers := default ∅ (tq_trusted t !! realm) in
        let peers' :=
          if bool_decide (tq_max_peers_per_realm t ≠ 0) && negb (bool_decide (peer ∈ peers))
             && bool_decide (tq_max_peers_per_realm t ≤ N.of_nat (size peers))
          then peers else {[peer]} ∪ peers in
        mkTrustRealmQuarantine (<[realm := peers']> (tq_trusted t)) (tq_max_realms t)
          (tq_max_peers_per_realm t)
  end.
Definition trusted_realm_count (t : TrustRealmQuarantine) : N := N.of_nat (size (tq_trusted t)).
Definition trusted_peer_count (realm : RealmId) (t : TrustRealmQuarantine) : N :=
  match tq_trusted t !! realm with Some set => N.of_nat (size set) | None => 0 end.
Definition trust_realm_honors (t : TrustRealmQuarantine) : QuarantineTrust :=
  fun attesting_peers realm =>
    match tq_trusted t !! realm with
    | Some set => existsb (fun p => bool_decide (p ∈ set)) attesting_peers
    | None => false
    end.

(** ** State *)

Record PropagationConfig : Type := mkPropagationConfig {
  pr_local_federator : CreatureId;
  pr_peer_node : NodeId;
  pr_peer_recipient : CreatureId
}.

Record ImmuneConfig : Type := mkImmuneConfig {
  im_self_node : NodeId;
  im_local_registry : CreatureId;
  im_trust : QuarantineTrust;
  im_propagation : option PropagationConfig
}.

Record ImmuneResponse : Type := mkImmuneResponse {
  ir_cfg : ImmuneConfig;
  ir_me : option CreatureId;
  ir_watch : gmap N (RealmId * string);
  ir_issued : gset N;
  ir_max_watched : N
}.

Definition ImmuneResponse_new (cfg : ImmuneConfig) : ImmuneResponse :=
  mkImmuneResponse cfg None ∅ ∅ DEFAULT_MAX_WATCHED_MODULES.
Definition with_max_watched (max : N) (s : ImmuneResponse) : ImmuneResponse :=
  mkImmuneResponse (ir_cfg s) (ir_me s) (ir_watch s) (ir_issued s) max.
Definition immune_bind (me : CreatureId) (s : ImmuneResponse) : ImmuneResponse :=
  mkImmuneResponse (ir_cfg s) (Some me) (ir_watch s) (ir_issued s) (ir_max_watched s).
Definition issue (module : CreatureId) (s : ImmuneResponse) : ImmuneResponse :=
  mkImmuneResponse (ir_cfg s) (ir_me s) (ir_watch s) ({[module]} ∪ ir_issued s) (ir_max_watched s).
Definition immune_watched_count (s : ImmuneResponse) : N := N.of_nat (size (ir_watch s)).
Definition issued_count (s : ImmuneResponse) : N := N.of_nat (size (ir_issued s)).

Definition immune_can_insert_watch (s : ImmuneResponse) (module : CreatureId) : bool :=
  bool_decide (ir_max_watched s = 0) || bool_decide (is_Some (ir_watch s !! module))
  || bool_decide (immune_watched_count s < ir_max_watched s).

Definition watch_shape_error (realm : RealmId) (artifact_hash : string) : option string :=
  too_large "watch realm" (slen realm) MAX_WATCH_FIELD_BYTES;;?
  too_large "watch artifact_hash" (slen artifact_hash) MAX_WATCH_FIELD_BYTES.

Definition immune_insert_watch (module : CreatureId) (realm : RealmId) (artifact_hash : string)
    (s : ImmuneResponse) : bool * ImmuneResponse :=
  match watch_shape_error realm artifact_hash with
  | Some _ => (false, s)
  | None =>
      if negb (immune_can_insert_watch s module) then (false, s)
      else (true, mkImmuneResponse (ir_cfg s) (ir_me s)
                    (<[module := (realm, artifact_hash)]> (ir_watch s)) (ir_issued s) (ir_max_watched s))
  end.
Definition immune_watching (module : CreatureId) (realm : RealmId) (artifact_hash : string)
    (s : ImmuneResponse) : ImmuneResponse := (immune_insert_watch module realm artifact_hash s).2.

(** ** Reactions *)

Definition prefix_on_char_boundary (s : string) (max : N) : string :=
  if bool_decide (slen s ≤ max) then s
  else String.substring 0 (floor_boundary s (N.to_nat max)) s.
Definition bounded_text (s : string) (max : N) : string := prefix_on_char_boundary s max.

Definition inbound_notice_shape_admits (artifact_hash : string) (realm : RealmId) (reason : string)
    (attesting_peers : list string) : bool :=
  bool_decide (mark_shape_error artifact_hash realm reason attesting_peers = None).

Section immune.
  Context `{!SerdeJson ProprioWire} `{!SerdeJson BudgetSignalWire} `{!SerdeJson ImmuneMsg}
    `{!SerdeJson FederatorMsg} `{!SerdeJson RegistryOp} (set_order : gset N → list N).

Definition immune_reply (env : Envelope) (msg : ImmuneMsg) : Outcome :=
  Outcome_send (with_schema (reply_to_env env (to_bytes msg)) IMMUNE_SCHEMA).

Definition emit_quarantine (artifact_hash : string) (realm : RealmId) (reason : string)
    (s : ImmuneResponse) : Outcome :=
  match ir_me s with
  | None => Outcome_none
  | Some me =>
      let reason := bounded_text reason MAX_QUARANTINE_REASON_BYTES in
      let out := registry_dispatch (im_local_registry (ir_cfg s)) me
                   (OpMarkQuarantine artifact_hash realm reason [im_self_node (ir_cfg s)]) in
      match im_propagation (ir_cfg s) with
      | None => Outcome_send out
      | Some prop =>
          let fed := FFederateQuarantine artifact_hash realm reason (pr_peer_node prop)
                       (pr_peer_recipient prop) in
          mkOutcome
            [out;
             with_reply_to
               (with_schema (Dispatch_to (ACreature (pr_local_federator prop)) (to_bytes fed))
                  FEDERATOR_SCHEMA)
               (ACreature me)] None
      end
  end.

Definition quarantine_watched (module : CreatureId) (reason : string) (s : ImmuneResponse) :
    Outcome * ImmuneResponse :=
  if decide (Some module = ir_me s) then (Outcome_none, s)
  else
    match ir_watch s !! module with
    | None => (Outcome_none, s)
    | Some (realm, hash) =>
        let s := issue module s in (emit_quarantine hash realm reason s, s)
    end.

Definition on_budget_signal (env : Envelope) (s : ImmuneResponse) : Outcome * ImmuneResponse :=
  match decode_sense_wire (ev_payload env) with
  | None => (Outcome_none, s)
  | Some ev =>
      if decide (bw_level ev ≠ LEVEL_HARD) then (Outcome_none, s)
      else quarantine_watched (bw_creature ev) ("hard budget breach (" +:+ bw_kind ev +:+ ")") s
  end.

Definition on_proprioception (env : Envelope) (s : ImmuneResponse) : Outcome * ImmuneResponse :=
  match decode_sense_wire (ev_payload env) with
  | None => (Outcome_none, s)
  | Some ev =>
      if decide (pw_event ev ≠ EVENT_LEAKED) then (Outcome_none, s)
      else quarantine_watched (pw_creature ev) "leaked resources on unload" s
  end.

Definition on_inbound_notice (artifact_hash : string) (realm : RealmId) (reason : string)
    (attesting_peers : list string) (s : ImmuneResponse) : Outcome :=
  let reason := bounded_text reason MAX_QUARANTINE_REASON_BYTES in
  if negb (inbound_notice_shape_admits artifact_hash realm reason attesting_peers) then Outcome_none
  else if negb (im_trust (ir_cfg s) attesting_peers realm) then Outcome_none
  else
    match ir_me s with
    | None => Outcome_none
    | Some me =>
        Outcome_send (registry_dispatch (im_local_registry (ir_cfg s)) me
          (OpMarkQuarantine artifact_hash realm reason attesting_peers))
    end.

Definition on_federator_msg (env : Envelope) (s : ImmuneResponse) : Outcome :=
  match federator_parse_bounded (ev_payload env) with
  | Ok (FQuarantineNotice artifact_hash realm reason attesting_peers) =>
      on_inbound_notice artifact_hash realm reason attesting_peers s
  | _ => Outcome_none
  end.

Definition on_report (env : Envelope) (module : CreatureId) (reason : string) (s : ImmuneResponse) :
    Outcome * ImmuneResponse :=
  let reason := bounded_text reason MAX_QUARANTINE_REASON_BYTES in
  if decide (Some module = ir_me s) then
    (immune_reply env (IIgnored "refusing to quarantine self"), s)
  else
    match ir_watch s !! module with
    | Some (realm, hash) =>
        match ir_me s with
        | None => (immune_reply env (IIgnored "immune-response not bound yet"), s)
        | Some _ =>
            let s := issue module s in
            let out := emit_quarantine hash realm reason s in
            let ack := immune_reply env (IQuarantined module hash reason) in
            (mkOutcome (out_dispatches out ++ out_dispatches ack) (out_budget_signal out), s)
        end
    | None =>
        (immune_reply env (IIgnored ("module " +:+ dec module
           +:+ " is not watched; immune-response defends only watched creatures")), s)
    end.

Definition immune_on_status (env : Envelope) (s : ImmuneResponse) : Outcome :=
  immune_reply env (IStatusReply (immune_watched_count s) (merge_sort N.le (set_order (ir_issued s)))).

Definition immune_on_control (env : Envelope) (s : ImmuneResponse) : Outcome * ImmuneResponse :=
  if bool_decide (MAX_CONTROL_MESSAGE_BYTES < blen (ev_payload env)) then (Outcome_none, s)
  else
    match from_slice (ev_payload env) with
    | Err _ => (Outcome_none, s)
    | Ok (IWatch module realm artifact_hash) =>
        match watch_shape_error realm artifact_hash with
        | Some reason => (immune_reply env (IIgnored reason), s)
        | None =>
            match immune_insert_watch module realm artifact_hash s with
            | (true, s') => (immune_reply env (IWatching module), s')
            | (false, s') =>
                (immune_reply env (IIgnored ("immune-response watch map at capacity ("
                                             +:+ dec (ir_max_watched s) +:+ ")")), s')
            end
        end
    | Ok (IReport module reason) => on_report env module reason s
    | Ok IStatusQuery => (immune_on_status env s, s)
    | Ok (IWatching _ | IQuarantined _ _ _ | IIgnored _ | IStatusReply _ _) => (Outcome_none, s)
    end.

Definition immune_handle (env : Envelope) (s : ImmuneResponse) : Outcome * ImmuneResponse :=
  let schema := hd_schema (ev_header env) in
  if decide (schema = BUDGET_SIGNAL_SCHEMA) then on_budget_signal env s
  else if decide (schema = PROPRIO_SCHEMA) then on_proprioception env s
  else if decide (schema = FEDERATOR_SCHEMA) then (on_federator_msg env s, s)
  else if decide (schema = IMMUNE_SCHEMA) then immune_on_control env s
  else (Outcome_none, s).
End immune.
