(* ===== verification/Selector.v ===== *)
(** * The fitness selector

    [cosmos/creatures/fitness-selector/src/lib.rs]: observed outcomes are tallied
    per creature, and a tick promotes the watched creatures whose injected score
    reaches the threshold, each with a claim signed by the selector's key.

    A [HashMap] is iterated in no particular order: a tick and a status take the
    order as an argument. *)

From stdpp Require Import sorting.
From S2P Require Import Prelude F32 Serde FnCrypto FnTypes AetherAddress AetherEnvelope.
From S2P Require Import Sigil BestiaryWire Federator Immune.

Definition SELECTOR_SCHEMA : string := "fitness.selector".
Definition FITNESS_EVENT_SCHEMA : string := "fitness".
Definition DEFAULT_MAX_OBSERVED_MODULES : N := 4096.
Definition SELECTOR_MAX_WATCHED_MODULES : N := 4096.
Definition MAX_SELECTOR_OP_BYTES : N := MAX_SENSE_EVENT_BYTES.

Definition u64_saturating_add (a b : N) : N := N.min (a + b) u64_MAX.

(** ** Observations *)

Record Observations : Type := mkObservations {
  ob_handled : N;
  ob_ok : N;
  ob_latency_ms_total : N;
  ob_latency_samples : N
}.
Definition Observations_default : Observations := mkObservations 0 0 0 0.

Definition success_rate (o : Observations) : f32 :=
  if bool_decide (ob_handled o = 0) then f32_zero
  else f32_div (f32_of_N (ob_ok o)) (f32_of_N (ob_handled o)).

(** The injected criterion. *)
Definition FitnessScorer : Type := Observations → f32.

Record FitnessEvent : Type := mkFitnessEvent { fe_creature : N; fe_ok : bool }.

Record CreatureObservation : Type := mkCreatureObservation {
  co_module : N;
  co_handled : N;
  co_ok : N;
  co_latency_samples : N
}.

Inductive SelectorMsg : Type :=
  | SWatch (module : N) (realm : RealmId) (artifact_hash : string)
  | SObserve (module : N) (ok : bool) (latency_ms : option N)
  | STick
  | SStatusQuery
  | SWatching (module : N)
  | STicked (evaluated : N) (promoted : list N)
  | SStatusReply (watched : N) (observations : list CreatureObservation) (threshold : f32)
  | SRejected (reason : string).

(** ** State *)

Record SelectorConfig : Type := mkSelectorConfig {
  sc_self_realm : RealmId;
  sc_local_registry : CreatureId;
  sc_abode_key : Ed25519KeyMaterial;
  sc_threshold : f32;
  sc_scorer : FitnessScorer
}.

Abbreviation WatchMap := (gmap N (RealmId * string)).
Abbreviation ObsMap := (gmap N Observations).

Record FitnessSelector : Type := mkFitnessSelector {
  fs_cfg : SelectorConfig;
  fs_pubkey : string;
  fs_me : option CreatureId;
  fs_watch : WatchMap;
  fs_obs : ObsMap;
  fs_max_obs : N;
  fs_max_watch : N
}.

Definition FitnessSelector_new (cfg : SelectorConfig) : FitnessSelector :=
  mkFitnessSelector cfg (km_public_hex (sc_abode_key cfg)) None ∅ ∅ DEFAULT_MAX_OBSERVED_MODULES
    SELECTOR_MAX_WATCHED_MODULES.
Definition with_max_obs (max : N) (s : FitnessSelector) : FitnessSelector :=
  mkFitnessSelector (fs_cfg s) (fs_pubkey s) (fs_me s) (fs_watch s) (fs_obs s) max (fs_max_watch s).
Definition with_max_watched_modules (max : N) (s : FitnessSelector) : FitnessSelector :=
  mkFitnessSelector (fs_cfg s) (fs_pubkey s) (fs_me s) (fs_watch s) (fs_obs s) (fs_max_obs s) max.
Definition selector_bind (me : CreatureId) (s : FitnessSelector) : FitnessSelector :=
  mkFitnessSelector (fs_cfg s) (fs_pubkey s) (Some me) (fs_watch s) (fs_obs s) (fs_max_obs s)
    (fs_max_watch s).
Definition set_watch (w : WatchMap) (s : FitnessSelector) : FitnessSelector :=
  mkFitnessSelector (fs_cfg s) (fs_pubkey s) (fs_me s) w (fs_obs s) (fs_max_obs s) (fs_max_watch s).
Definition set_obs (o : ObsMap) (s : FitnessSelector) : FitnessSelector :=
  mkFitnessSelector (fs_cfg s) (fs_pubkey s) (fs_me s) (fs_watch s) o (fs_max_obs s) (fs_max_watch s).
Definition watched_count (s : FitnessSelector) : N := N.of_nat (size (fs_watch s)).
Definition observation_count (s : FitnessSelector) : N := N.of_nat (size (fs_obs s)).
Definition observations (s : FitnessSelector) (module : CreatureId) : option Observations :=
  fs_obs s !! module.

Definition can_insert_watch (s : FitnessSelector) (module : CreatureId) : bool :=
  bool_decide (fs_max_watch s = 0) || bool_decide (is_Some (fs_watch s !! module))
  || bool_decide (watched_count s < fs_max_watch s).

Definition selector_watch_shape_error (realm : RealmId) (artifact_hash : string) : option string :=
  too_large "watch realm" (slen realm) MAX_WATCH_FIELD_BYTES;;?
  too_large "watch artifact_hash" (slen artifact_hash) MAX_WATCH_FIELD_BYTES.

Definition insert_watch (module : CreatureId) (realm : RealmId) (artifact_hash : string)
    (s : FitnessSelector) : result string FitnessSelector :=
  match selector_watch_shape_error realm artifact_hash with
  | Some reason => Err reason
  | None =>
      if negb (can_insert_watch s module) then
        Err ("watch map at capacity (" +:+ dec (fs_max_watch s) +:+ "); refusing new module "
             +:+ dec module)
      else Ok (set_watch (<[module := (realm, artifact_hash)]> (fs_watch s)) s)
  end.
Definition selector_watching (module : CreatureId) (realm : RealmId) (artifact_hash : string)
    (s : FitnessSelector) : FitnessSelector :=
  match insert_watch module realm artifact_hash s with Ok s' => s' | Err _ => s end.

(** The tally_observation of a creature, unless a new one exceeds the cap. *)
Definition obs_entry_capped (mid : CreatureId) (s : FitnessSelector) : option Observations :=
  if bool_decide (fs_max_obs s ≠ 0) && bool_decide (fs_max_obs s ≤ observation_count s)
     && bool_decide (fs_obs s !! mid = None)
  then None else Some (default Observations_default (fs_obs s !! mid)).

Definition tally_observation (ok : bool) (latency_ms : option N) (o : Observations) : Observations :=
  mkObservations (u64_saturating_add (ob_handled o) 1)
    (if ok then u64_saturating_add (ob_ok o) 1 else ob_ok o)
    (match latency_ms with Some l => u64_saturating_add (ob_latency_ms_total o) l
     | None => ob_latency_ms_total o end)
    (match latency_ms with Some _ => u64_saturating_add (ob_latency_samples o) 1
     | None => ob_latency_samples o end).

Definition on_observe (module : N) (ok : bool) (latency_ms : option N) (s : FitnessSelector) :
    FitnessSelector :=
  if decide (Some module = fs_me s) then s
  else
    match obs_entry_capped module s with
    | None => s
    | Some o => set_obs (<[module := tally_observation ok latency_ms o]> (fs_obs s)) s
    end.

Section selector.
  Context `{!Ed25519} `{!Ed25519Keys} `{!SerdeJson FitnessEvent} `{!SerdeJson SelectorMsg}
    `{!SerdeJson RegistryOp} `{!SerdeJson PromotionClaim}
    (watch_order : WatchMap → list (N * (RealmId * string))) (obs_order : ObsMap → list (N * Observations)).

Definition on_fitness (env : Envelope) (s : FitnessSelector) : FitnessSelector :=
  match decode_sense_wire (ev_payload env) with
  | None => s
  | Some ev => on_observe (fe_creature ev) (fe_ok ev) None s
  end.

Definition selector_reply (env : Envelope) (msg : SelectorMsg) : Outcome :=
  Outcome_send (with_schema (reply_to_env env (to_bytes msg)) SELECTOR_SCHEMA).

(** Whether a watched creature is promoted, and its score. *)
Definition promotes (s : FitnessSelector) (o : Observations) : option f32 :=
  let score := sc_scorer (fs_cfg s) o in
  if negb (f32_is_finite score) || negb (f32_is_finite (sc_threshold (fs_cfg s)))
     || f32_ltb score (sc_threshold (fs_cfg s))
  then None else Some score.

Definition promotion_op (s : FitnessSelector) (realm : RealmId) (hash : string) (score : f32) :
    RegistryOp :=
  let self_realm := sc_self_realm (fs_cfg s) in
  let payload := promotion_payload hash realm score (Some self_realm) in
  OpAttestFitness hash realm score (Some self_realm) (Some (fs_pubkey s))
    (Some (km_sign (sc_abode_key (fs_cfg s)) payload)).

(** The loop of a tick: how many were evaluated, and the promotions. *)
Fixpoint tick_loop (s : FitnessSelector) (watched : list (N * (RealmId * string))) :
    N * list (N * RegistryOp) :=
  match watched with
  | [] => (0, [])
  | (mid, (realm, hash)) :: watched =>
      let '(evaluated, promoted) := tick_loop s watched in
      match fs_obs s !! mid with
      | None => (evaluated, promoted)
      | Some o =>
          match promotes s o with
          | None => (evaluated + 1, promoted)
          | Some score => (evaluated + 1, (mid, promotion_op s realm hash score) :: promoted)
          end
      end
  end.

Definition on_tick (env : Envelope) (s : FitnessSelector) : Outcome :=
  match fs_me s with
  | None => selector_reply env (SRejected "fitness-selector not bound yet")
  | Some me =>
      let '(evaluated, promoted) := tick_loop s (watch_order (fs_watch s)) in
      mkOutcome
        (map (fun x => registry_dispatch (sc_local_registry (fs_cfg s)) me x.2) promoted
         ++ out_dispatches (selector_reply env (STicked evaluated (merge_sort N.le promoted.*1)))) None
  end.

Definition module_le (a b : CreatureObservation) : Prop := co_module a ≤ co_module b.
#[export] Instance module_le_dec : RelDecision module_le.
Proof. unfold module_le. intros a b. apply _. Defined.

Definition selector_on_status (env : Envelope) (s : FitnessSelector) : Outcome :=
  selector_reply env (SStatusReply (watched_count s)
    (merge_sort module_le
       (map (fun x => mkCreatureObservation x.1 (ob_handled x.2) (ob_ok x.2) (ob_latency_samples x.2))
          (obs_order (fs_obs s))))
    (sc_threshold (fs_cfg s))).

Definition on_watch (env : Envelope) (module : N) (realm : RealmId) (artifact_hash : string)
    (s : FitnessSelector) : Outcome * FitnessSelector :=
  match insert_watch module realm artifact_hash s with
  | Err reason => (selector_reply env (SRejected reason), s)
  | Ok s' => (selector_reply env (SWatching module), s')
  end.

Definition selector_on_control (env : Envelope) (s : FitnessSelector) : Outcome * FitnessSelector :=
  if bool_decide (MAX_SELECTOR_OP_BYTES < blen (ev_payload env)) then
    (selector_reply env (SRejected ("selector op too large: " +:+ dec (blen (ev_payload env))
       +:+ " bytes exceeds " +:+ dec MAX_SELECTOR_OP_BYTES +:+ " byte limit")), s)
  else
    match from_slice (ev_payload env) with
    | Err _ => (Outcome_none, s)
    | Ok (SWatch module realm artifact_hash) => on_watch env module realm artifact_hash s
    | Ok (SObserve module ok latency_ms) => (Outcome_none, on_observe module ok latency_ms s)
    | Ok STick => (on_tick env s, s)
    | Ok SStatusQuery => (selector_on_status env s, s)
    | Ok (SWatching _ | STicked _ _ | SStatusReply _ _ _ | SRejected _) => (Outcome_none, s)
    end.

Definition selector_handle (env : Envelope) (s : FitnessSelector) : Outcome * FitnessSelector :=
  if decide (hd_schema (ev_header env) = FITNESS_EVENT_SCHEMA) then (Outcome_none, on_fitness env s)
  else if decide (hd_schema (ev_header env) = SELECTOR_SCHEMA) then selector_on_control env s
  else (Outcome_none, s).
End selector.
