(* ===== verification/DefenceLaws.v ===== *)
(** * Selection, defence and admission together

    What the gate of the kernel admits under the signed policy; that a fault of a
    watched creature makes the quarantine-aware policy refuse its artifact until it
    is published again; that markers of peers pass the trust model; and that what
    the selector promotes, the prefer-promoted policy admits. *)

From stdpp Require Import sorting.
From S2P Require Import Prelude F32 Serde GxShape GxHash GxWire GxFrame FnCrypto FnTypes.
From S2P Require Import AetherAddress AetherEnvelope AetherRouter Sigil BestiaryWire Seer.
From S2P Require Import Registry RegistryLaws Federator FederatorLaws Abode Admission Immune Selector.

(** ** Allowlists *)

(** What a capped, deduplicating insertion retains. *)
Lemma author_keys_retained authors max :
  let l := retain_allowed_author_keys authors max in
  NoDup l ∧ (max ≠ 0 → N.of_nat (length l) ≤ max)
  ∧ ∀ a, a ∈ l → a ∈ authors ∧ allowed_author_key_shape_error a = None.
Proof.
  unfold retain_allowed_author_keys. cbv zeta.
  assert (∀ l0, NoDup l0 → (max ≠ 0 → N.of_nat (length l0) ≤ max) →
    (∀ a, a ∈ l0 → allowed_author_key_shape_error a = None) →
    let l := foldl (fun retained key => insert_allowed_author_key retained key max) l0 authors in
    NoDup l ∧ (max ≠ 0 → N.of_nat (length l) ≤ max)
    ∧ ∀ a, a ∈ l → (a ∈ l0 ∨ a ∈ authors) ∧ allowed_author_key_shape_error a = None) as Hg.
  { induction authors as [|key authors IH]; intros l0 N B S; cbn; [naive_solver|].
    assert (∃ l1, insert_allowed_author_key l0 key max = l1 ∧ NoDup l1
      ∧ (max ≠ 0 → N.of_nat (length l1) ≤ max)
      ∧ ∀ a, a ∈ l1 → (a ∈ l0 ∨ a = key) ∧ allowed_author_key_shape_error a = None)
      as (l1 & -> & N1 & B1 & S1).
    { unfold insert_allowed_author_key. eexists. split; [done|].
      destruct (allowed_author_key_shape_error key) eqn:E; [split_and!; naive_solver|].
      case_bool_decide as Hin; [split_and!; naive_solver|].
      destruct (_ && _) eqn:Hc; [split_and!; naive_solver|]. split_and!.
      - apply NoDup_app. split_and!; [done| |apply NoDup_singleton].
        intros x Hx ->%list_elem_of_singleton. done.
      - intros Hz. rewrite bool_decide_eq_true_2 in Hc by done. cbn in Hc. to_prop.
        rewrite length_app. cbn. lia.
      - intros a [Ha| ->%list_elem_of_singleton]%elem_of_app; naive_solver. }
    destruct (IH l1 N1 B1 ltac:(naive_solver)) as (N2 & B2 & S2). split_and!; [done|done|].
    intros a Ha. destruct (S2 a Ha) as [[Ha1|Ha1] Hs]; (split; [|done]); [|right; by right].
    destruct (S1 a Ha1) as [[?| ->] _]; [by left|right; by left]. }
  destruct (Hg [] ltac:(constructor) ltac:(cbn; lia) ltac:(by intros a ?%elem_of_nil)) as (N1 & B1 & S1).
  split_and!; [done|done|]. intros a Ha. destruct (S1 a Ha) as [[?%elem_of_nil|?] Hs]; done.
Qed.

(** ** The signed gate *)

Section kernel.
  Context `{!Sha256} `{!JsonText} `{!SerdeJson Manifest}.

(** The evidence is what was found. *)
Lemma evidence_facts verifier m actual had e :
  kernel_evidence verifier m actual had = Some e →
  signature_valid verifier m = Some (ad_signature_valid e)
  ∧ content_address_matches m = Some (ad_content_address_matches e)
  ∧ ad_artifact_hash_matches e = artifact_hash_matches m actual ∧ ad_had_artifact e = had.
Proof.
  unfold kernel_evidence. destruct (signature_valid verifier m) as [valid|]; [|done]. cbn.
  destruct (content_address_matches m) as [matches|]; [|done]. cbn. by intros [= <-].
Qed.

Lemma signature_valid_true verifier m :
  signature_valid verifier m = Some true →
  ∃ author s p, pv_author (mf_provenance m) = Some author ∧ pv_signature (mf_provenance m) = Some s
    ∧ manifest_signing_payload m = Some p ∧ verifier author p s = true.
Proof.
  unfold signature_valid. destruct (pv_author _) as [author|]; [|done]. destruct (pv_signature _) as [s|]; [|done].
  destruct (manifest_signing_payload m) as [p|]; [|done]. cbn. intros [= Hv]. by exists author, s, p.
Qed.

(** What the signed policy lets through. *)
Lemma signed_admits p m e :
  signed_admit p m e = Ok tt →
  ad_signature_valid e = true ∧ ad_content_address_matches e ≠ Some false
  ∧ (sp_require_artifact_hash p = true → ad_had_artifact e = true → ad_artifact_hash_matches e = Some true)
  ∧ (sp_allow_any_author p = false → ∃ a, pv_author (mf_provenance m) = Some a ∧ a ∈ sp_allowed_authors p).
Proof.
  unfold signed_admit. destruct (ad_signature_present e); [|done]. destruct (ad_signature_valid e); [|done]. cbn.
  destruct (sp_require_artifact_hash p), (ad_had_artifact e), (ad_artifact_hash_matches e) as [[]|]; cbn; try done;
    destruct (ad_content_address_matches e) as [[]|]; try done;
    destruct (sp_allow_any_author p); cbn; intros Ha; split_and!; try done; intros _;
    destruct (pv_author _) as [a|]; try done; case_bool_decide; try done; by eauto.
Qed.
End kernel.

(** ** Quarantine *)

(** A row, when there is one, carries a marker. *)
Definition blocked (key : Key) (r : RegistryMem) : Prop :=
  ∀ e, rm_entries r !! key = Some e → is_Some (en_quarantine e).

Lemma blocked_refused `{!SerdeJson PromotionClaim} (f32_display : f32 → string) p r key m ev :
  blocked key r → declared_key m = Some key → ∃ message, quarantine_aware_admit f32_display p r m ev = Err message.
Proof.
  intros B Hk. unfold quarantine_aware_admit. rewrite Hk. destruct key as [realm h]. cbn.
  destruct (fetch_in realm h r) as [e|] eqn:Hf; [|by eexists].
  assert (rm_entries r !! (realm, h) = Some e) as He
    by (unfold fetch_in in Hf; by destruct (artifact_hash_shape_error h)).
  destruct (B e He) as [q ->]. by eexists.
Qed.

Lemma refused_by_kernel `{!Sha256} `{!JsonText} `{!SerdeJson Manifest} verifier (policy : Policy) m artifact :
  (∀ ev, ∃ message, policy m ev = Err message) → ∀ h, kernel_admit verifier policy m artifact ≠ Some (Ok h).
Proof.
  intros Hp h. unfold kernel_admit. destruct (Manifest_validate m); [|done].
  destruct artifact as [[d|error]|]; (destruct (kernel_evidence _ _ _ _) as [ev|]; [|done]); cbn;
    try done; by destruct (Hp ev) as [message ->].
Qed.

(** An operation that publishes the row again. *)
Definition republishes `{!Sha256} (key : Key) (op : RegistryOp) : Prop :=
  match op with
  | OpPublish _ artifact realm => (default RealmId_local realm, hash_bytes artifact) = key
  | _ => False
  end.

Section quarantine.
  Context `{!Sha256} `{!JsonText} `{!SerdeJson RegistryOp} `{!SerdeJson RegistryReply}
    `{!SerdeJson ChunkFrameHeader}.

Lemma make_room_blocked iter r key g :
  blocked key r → make_room iter r = Some g → blocked key (set_entries g r).
Proof.
  intros B. unfold make_room. destruct (rm_evictor r) as [p|]; [|done]. cbn.
  destruct (p _) as [idx|]; [|done]. cbn. destruct (iter _ !! idx) as [[k e0]|]; [|done]. cbn.
  intros [= <-] e. cbn. rewrite lookup_delete_Some. intros [_ He]. by apply B.
Qed.

Lemma op_blocked iter env op r key :
  blocked key r → ¬ republishes key op → blocked key (registry_op iter env op r).2.
Proof.
  intros B Hn. destruct op as [m a realm| | | | | | | | |h realm s ar sb sg|h realm reason peers| |]; try done; cbn in *.
  - assert (blocked key (publish_in_checked iter (default RealmId_local realm) m a r).2) as Hb;
      [|by destruct (publish_in_checked _ _ _ _ _) as [[] r1]].
    assert (∀ r1, blocked key r1 → blocked key (set_entries
      (<[(default RealmId_local realm, hash_bytes a) := mkEntry m a None None]> (rm_entries r1)) r)) as Hi.
    { intros r1 B1 e. cbn. rewrite lookup_insert_ne by done. apply B1. }
    unfold publish_in_checked. destruct (_ && _); [done|]. destruct (Manifest_validate m); [|done].
    destruct (_ && _); [|by apply Hi]. destruct (make_room iter r) as [g|] eqn:Hg; [|done]. cbn.
    exact (Hi _ (make_room_blocked _ _ _ _ B Hg)).
  - unfold attest_fitness. repeat case_match; simplify_eq/=; try done. intros e'. cbn.
    rewrite lookup_insert_Some. intros [[<- <-]|[_ He]]; cbn; by eapply B.
  - unfold mark_quarantine. repeat case_match; simplify_eq/=; try done; intros e'; cbn;
      rewrite lookup_insert_Some; intros [[<- <-]|[_ He]]; cbn; by eauto.
Qed.

(** Messages none of which publishes the row again. *)
Definition no_republish (key : Key) (steps : list (MapIter * Envelope)) : Prop :=
  Forall (fun s => ∀ op, from_slice (ev_payload s.2) = Ok op → ¬ republishes key op) steps.

Lemma run_blocked key steps r : no_republish key steps → blocked key r → blocked key (registry_run steps r).
Proof.
  revert r. induction steps as [|[iter env] steps IH]; intros r N B; [done|]. cbn.
  apply Forall_cons in N as [Hn N]. apply IH; [done|]. unfold registry_handle. destruct (_ && _); [done|].
  destruct (from_slice _) as [op|e] eqn:E; [|done]. by apply op_blocked, Hn.
Qed.
End quarantine.

(** ** Faults *)

Section faults.
  Context `{!SerdeJson ProprioWire} `{!SerdeJson BudgetSignalWire} `{!SerdeJson ImmuneMsg}
    `{!SerdeJson FederatorMsg} `{!SerdeJson RegistryOp} (set_order : gset N → list N).

(** A message that tells of a fault of a creature. *)
Inductive fault (env : Envelope) (module : CreatureId) : string → Prop :=
  | HardBreach ev :
      hd_schema (ev_header env) = BUDGET_SIGNAL_SCHEMA → decode_sense_wire (ev_payload env) = Some ev →
      bw_level ev = LEVEL_HARD → bw_creature ev = module →
      fault env module ("hard budget breach (" +:+ bw_kind ev +:+ ")")
  | LeakedUnload ev :
      hd_schema (ev_header env) = PROPRIO_SCHEMA → decode_sense_wire (ev_payload env) = Some ev →
      pw_event ev = EVENT_LEAKED → pw_creature ev = module →
      fault env module "leaked resources on unload"
  | Reported reason :
      hd_schema (ev_header env) = IMMUNE_SCHEMA → blen (ev_payload env) ≤ MAX_CONTROL_MESSAGE_BYTES →
      from_slice (ev_payload env) = Ok (IReport module reason) →
      fault env module (bounded_text reason MAX_QUARANTINE_REASON_BYTES).

Definition own_mark (s : ImmuneResponse) (realm : RealmId) (h reason : string) : RegistryOp :=
  OpMarkQuarantine h realm (bounded_text reason MAX_QUARANTINE_REASON_BYTES) [im_self_node (ir_cfg s)].

Lemma emit_marks s h realm reason me :
  ir_me s = Some me → ∃ rest, out_dispatches (emit_quarantine h realm reason s)
    = registry_dispatch (im_local_registry (ir_cfg s)) me (own_mark s realm h reason) :: rest.
Proof. intros Hme. unfold emit_quarantine. rewrite Hme. destruct (im_propagation _); by eexists. Qed.

Lemma fault_marks env s (module : CreatureId) reason me realm h :
  fault env module reason → ir_me s = Some me → module ≠ me → ir_watch s !! module = Some (realm, h) →
  ∃ rest s', (immune_handle set_order env s).1.(out_dispatches)
      = registry_dispatch (im_local_registry (ir_cfg s)) me (own_mark s realm h reason) :: rest
    ∧ (immune_handle set_order env s).2 = s' ∧ module ∈ ir_issued s'.
Proof.
  intros F Hme Hne Hw. assert (Some module ≠ ir_me s) as Hself by congruence.
  assert (∀ r, quarantine_watched module r s
            = (emit_quarantine h realm r (issue module s), issue module s)) as Hq
    by (intros r; unfold quarantine_watched; by rewrite decide_False, Hw).
  assert (module ∈ ir_issued (issue module s)) as Hi by (cbn; set_solver).
  destruct F as [ev Hs Hd Hl Hc|ev Hs Hd Hl Hc|reason Hs Hl Hp].
  - assert (immune_handle set_order env s = on_budget_signal env s) as ->
      by (unfold immune_handle; by rewrite Hs).
    unfold on_budget_signal. rewrite Hd, Hl, Hc. cbn. rewrite Hq. cbn.
    destruct (emit_marks (issue module s) h realm ("hard budget breach (" +:+ bw_kind ev +:+ ")") me Hme) as [rest E].
    by exists rest, (issue module s).
  - assert (immune_handle set_order env s = on_proprioception env s) as ->
      by (unfold immune_handle; by rewrite Hs).
    unfold on_proprioception. rewrite Hd, Hl, Hc. cbn. rewrite Hq. cbn.
    destruct (emit_marks (issue module s) h realm "leaked resources on unload" me Hme) as [rest E].
    by exists rest, (issue module s).
  - assert (immune_handle set_order env s = immune_on_control set_order env s) as ->
      by (unfold immune_handle; by rewrite Hs).
    unfold immune_on_control. rewrite bool_decide_eq_false_2 by lia. rewrite Hp. unfold on_report.
    rewrite decide_False, Hw, Hme by done.
    destruct (emit_marks (issue module s) h realm (bounded_text reason MAX_QUARANTINE_REASON_BYTES) me Hme) as [rest E].
    rewrite E. eexists _, (issue module s). split_and!; [reflexivity|done|done].
Qed.

(** Why a marker is written. *)
Inductive defended (env : Envelope) (s : ImmuneResponse) (me : CreatureId) : Dispatch → Prop :=
  | OwnFault module reason realm h :
      fault env module reason → module ≠ me → ir_watch s !! module = Some (realm, h) →
      defended env s me (registry_dispatch (im_local_registry (ir_cfg s)) me (own_mark s realm h reason))
  | TrustedPeers h realm reason peers :
      hd_schema (ev_header env) = FEDERATOR_SCHEMA →
      federator_parse_bounded (ev_payload env) = Ok (FQuarantineNotice h realm reason peers) →
      im_trust (ir_cfg s) peers realm = true →
      mark_shape_error h realm (bounded_text reason MAX_QUARANTINE_REASON_BYTES) peers = None →
      defended env s me (registry_dispatch (im_local_registry (ir_cfg s)) me
        (OpMarkQuarantine h realm (bounded_text reason MAX_QUARANTINE_REASON_BYTES) peers)).

Lemma emit_quarantine_inv s h realm reason d :
  d ∈ out_dispatches (emit_quarantine h realm reason s) → di_schema d = REGISTRY_OP_SCHEMA →
  ∃ me, ir_me s = Some me
    ∧ d = registry_dispatch (im_local_registry (ir_cfg s)) me (own_mark s realm h reason).
Proof.
  unfold emit_quarantine. destruct (ir_me s) as [me|]; [|by intros ?%elem_of_nil].
  intros Hd Hs. exists me. split; [done|]. destruct (im_propagation _); cbn in Hd;
    apply elem_of_cons in Hd as [->|Hd]; try done; [|by apply elem_of_nil in Hd].
  by apply list_elem_of_singleton in Hd as ->.
Qed.

Lemma watched_defended env s module reason d :
  fault env module reason → d ∈ out_dispatches (quarantine_watched module reason s).1 →
  di_schema d = REGISTRY_OP_SCHEMA → ∃ me, ir_me s = Some me ∧ defended env s me d.
Proof.
  intros F. unfold quarantine_watched. case_decide as Hself; [by intros ?%elem_of_nil|].
  destruct (ir_watch s !! module) as [[realm h]|] eqn:Hw; [|by intros ?%elem_of_nil]. intros Hd Hs.
  apply emit_quarantine_inv in Hd as (me & Hme & ->); [|done]. exists me. split; [done|].
  refine (OwnFault env s me module reason realm h F _ Hw). cbn in Hme. congruence.
Qed.

Lemma immune_reply_schema env msg d :
  d ∈ out_dispatches (immune_reply env msg) → di_schema d ≠ REGISTRY_OP_SCHEMA.
Proof. by intros ->%list_elem_of_singleton. Qed.

Lemma control_defended env s d :
  hd_schema (ev_header env) = IMMUNE_SCHEMA → d ∈ out_dispatches (immune_on_control set_order env s).1 →
  di_schema d = REGISTRY_OP_SCHEMA → ∃ me, ir_me s = Some me ∧ defended env s me d.
Proof.
  intros Hi. unfold immune_on_control. case_bool_decide as Hl; [by intros ?%elem_of_nil|].
  destruct (from_slice _) as [msg|e] eqn:Hp; [|by intros ?%elem_of_nil].
  destruct msg as [module realm h|module reason| | | | |]; try by intros ?%elem_of_nil.
  - destruct (watch_shape_error realm h); [by intros ?%immune_reply_schema|].
    destruct (immune_insert_watch _ _ _ _) as [[] s']; by intros ?%immune_reply_schema.
  - unfold on_report. case_decide as Hself; [by intros ?%immune_reply_schema|].
    destruct (ir_watch s !! _) as [[realm h]|] eqn:Hw; [|by intros ?%immune_reply_schema].
    destruct (ir_me s) as [me|] eqn:Hme; [|by intros ?%immune_reply_schema]. intros Hd Hs.
    cbn [fst out_dispatches] in Hd. apply elem_of_app in Hd as [Hd|Hd]; [|by apply immune_reply_schema in Hd].
    apply emit_quarantine_inv in Hd as (me' & Hme' & ->); [|done]. cbn in Hme'. rewrite Hme in Hme'.
    injection Hme' as <-. exists me. split; [done|].
    refine (OwnFault env s me module _ realm h (Reported env module reason Hi _ Hp) _ Hw); [lia|congruence].
  - by intros ?%immune_reply_schema.
Qed.

Lemma immune_defended env s d :
  d ∈ out_dispatches (immune_handle set_order env s).1 → di_schema d = REGISTRY_OP_SCHEMA →
  ∃ me, ir_me s = Some me ∧ defended env s me d.
Proof.
  unfold immune_handle. case_decide as H1; [|case_decide as H2; [|case_decide as H3; [|case_decide as H4]]].
  - unfold on_budget_signal. destruct (decode_sense_wire _) as [ev|] eqn:He; [|by intros ?%elem_of_nil].
    case_decide as Hl; [by intros ?%elem_of_nil|]. apply watched_defended.
    by apply HardBreach.
  - unfold on_proprioception. destruct (decode_sense_wire _) as [ev|] eqn:He; [|by intros ?%elem_of_nil].
    case_decide as Hl; [by intros ?%elem_of_nil|]. apply watched_defended. by eapply LeakedUnload.
  - cbn. unfold on_federator_msg. destruct (federator_parse_bounded _) as [[]|] eqn:Hp; try by intros ?%elem_of_nil.
    unfold on_inbound_notice. destruct (inbound_notice_shape_admits _ _ _ _) eqn:Hn; [|by intros ?%elem_of_nil].
    destruct (im_trust _ _ _) eqn:Ht; [|by intros ?%elem_of_nil].
    destruct (ir_me s) as [me|]; [|by intros ?%elem_of_nil]. intros Hd Hs. cbn in Hd.
    apply list_elem_of_singleton in Hd as ->. exists me. split; [done|].
    unfold inbound_notice_shape_admits in Hn. apply bool_decide_eq_true in Hn. by eapply TrustedPeers.
  - by apply control_defended.
  - by intros ?%elem_of_nil.
Qed.

(** What the immune response remembers. *)
Definition immune_ok (s : ImmuneResponse) : Prop :=
  (ir_max_watched s ≠ 0 → immune_watched_count s ≤ ir_max_watched s)
  ∧ (∀ m, m ∈ ir_issued s → is_Some (ir_watch s !! m) ∧ Some m ≠ ir_me s).
Definition same_immune (s s' : ImmuneResponse) : Prop :=
  ir_cfg s' = ir_cfg s ∧ ir_me s' = ir_me s ∧ ir_max_watched s' = ir_max_watched s.

Lemma issue_ok s m :
  immune_ok s → is_Some (ir_watch s !! m) → Some m ≠ ir_me s → immune_ok (issue m s).
Proof. intros [B I] Hw Hm. split; [done|]. cbn. intros x [->%elem_of_singleton|Hx]%elem_of_union; [done|by apply I]. Qed.

Lemma insert_watch_ok m realm h s b s' :
  immune_ok s → immune_insert_watch m realm h s = (b, s') → immune_ok s' ∧ same_immune s s'.
Proof.
  intros [B I]. unfold immune_insert_watch. destruct (watch_shape_error realm h); [by intros [= <- <-]|].
  destruct (immune_can_insert_watch s m) eqn:Hc; cbn; intros [= <- <-]; [|done]. split; [|done]. split.
  - cbn. intros Hz. specialize (B Hz). unfold immune_watched_count in *. cbn.
    rewrite map_size_insert. unfold immune_can_insert_watch in Hc.
    case_match eqn:E; cbn; [done|]. assert (ir_watch s !! m = None) as Hm by exact E.
    rewrite Hm, (bool_decide_eq_false_2 (_ = 0)) in Hc by done.
    rewrite (bool_decide_eq_false_2 (is_Some None)) in Hc by apply is_Some_None. cbn in Hc. apply bool_decide_eq_true in Hc. unfold immune_watched_count in Hc. lia.
  - cbn. intros x Hx. destruct (I x Hx) as [Hw Hme]. split; [|done]. rewrite lookup_insert_is_Some.
    destruct (decide (m = x)); [by left|by right].
Qed.

Lemma watched_ok m reason s :
  immune_ok s → immune_ok (quarantine_watched m reason s).2 ∧ same_immune s (quarantine_watched m reason s).2.
Proof.
  intros O. unfold quarantine_watched. case_decide; [done|].
  destruct (ir_watch s !! m) as [[realm h]|] eqn:Hw; [|done]. split; [|done]. apply issue_ok; [done|by rewrite Hw|done].
Qed.

Lemma immune_handle_ok env s :
  immune_ok s → immune_ok (immune_handle set_order env s).2 ∧ same_immune s (immune_handle set_order env s).2.
Proof.
  intros O. unfold immune_handle. case_decide; [|case_decide; [|case_decide; [done|case_decide; [|done]]]].
  - unfold on_budget_signal. destruct (decode_sense_wire _); [|done]. case_decide; [done|]. by apply watched_ok.
  - unfold on_proprioception. destruct (decode_sense_wire _); [|done]. case_decide; [done|]. by apply watched_ok.
  - unfold immune_on_control. case_bool_decide; [done|]. destruct (from_slice _) as [[]|]; try done.
    + destruct (watch_shape_error _ _); [done|].
      destruct (immune_insert_watch _ _ _ _) as [[] s'] eqn:E; by eapply insert_watch_ok.
    + unfold on_report. case_decide; [done|]. destruct (ir_watch s !! _) as [[realm h]|] eqn:Hw; [|done].
      destruct (ir_me s) eqn:Hme; [|done]. split; [|done]. apply issue_ok; [done|by rewrite Hw|by rewrite Hme].
Qed.

Fixpoint immune_run (envs : list Envelope) (s : ImmuneResponse) : ImmuneResponse :=
  match envs with
  | [] => s
  | env :: envs => immune_run envs (immune_handle set_order env s).2
  end.

Lemma immune_run_ok envs s : immune_ok s → immune_ok (immune_run envs s) ∧ same_immune s (immune_run envs s).
Proof.
  revert s. induction envs as [|env envs IH]; intros s O; [done|]. cbn.
  destruct (immune_handle_ok env s O) as [O1 (C1 & C2 & C3)]. destruct (IH _ O1) as [O2 (D1 & D2 & D3)].
  split; [done|]. split_and!; congruence.
Qed.
End faults.

(** ** Promotions *)

Section promotions.
  Context `{!Ed25519} `{!Ed25519Keys} `{!SerdeJson PromotionClaim}.

(** A tick promotes exactly the watched and observed creatures that reach the
    threshold. *)
Lemma tick_loop_elem s watched mid op :
  (mid, op) ∈ (tick_loop s watched).2 ↔
  ∃ realm h o score, (mid, (realm, h)) ∈ watched ∧ fs_obs s !! mid = Some o ∧ promotes s o = Some score
    ∧ op = promotion_op s realm h score.
Proof.
  induction watched as [|[mid' [realm h]] watched IH]; cbn.
  - split; [by intros ?%elem_of_nil|]. by intros (? & ? & ? & ? & ?%elem_of_nil & _).
  - destruct (tick_loop s watched) as [evaluated promoted]. cbn in IH.
    assert ((mid, op) ∈ promoted → ∃ realm0 h0 o score,
      (mid, (realm0, h0)) ∈ (mid', (realm, h)) :: watched ∧ fs_obs s !! mid = Some o
      ∧ promotes s o = Some score ∧ op = promotion_op s realm0 h0 score) as Hr.
    { intros (r & h' & o & sc & Hin & Hx)%IH. exists r, h', o, sc. split; [by right|done]. }
    destruct (fs_obs s !! mid') as [o|] eqn:Ho; [destruct (promotes s o) as [score|] eqn:Hp|]; cbn.
    + rewrite elem_of_cons. split.
      * intros [[= -> ->]|Hin]; [|by apply Hr]. exists realm, h, o, score. split; [by left|done].
      * intros (r & h' & o' & sc & [[= -> -> ->]|Hin]%elem_of_cons & Ho' & Hp' & ->); [left; congruence|].
        right. apply IH. by eauto 10.
    + split; [apply Hr|]. intros (r & h' & o' & sc & [[= -> -> ->]|Hin]%elem_of_cons & Ho' & Hp' & ->);
        [congruence|]. apply IH. by eauto 10.
    + split; [apply Hr|]. intros (r & h' & o' & sc & [[= -> -> ->]|Hin]%elem_of_cons & Ho' & Hp' & ->);
        [congruence|]. apply IH. by eauto 10.
Qed.

(** A promotion is finite and reaches a finite threshold. *)
Lemma promotes_Some s o score :
  promotes s o = Some score ↔
  score = sc_scorer (fs_cfg s) o ∧ f32_is_finite score = true ∧ f32_is_finite (sc_threshold (fs_cfg s)) = true
  ∧ f32_ltb score (sc_threshold (fs_cfg s)) = false.
Proof.
  unfold promotes. destruct (f32_is_finite (sc_scorer _ o)) eqn:F1; cbn;
    [|split; [done|intros (-> & ? & _); congruence]].
  destruct (f32_is_finite (sc_threshold _)) eqn:F2; cbn; [|split; [done|by intros (_ & _ & ? & _)]].
  destruct (f32_ltb _ _) eqn:F3; split; try done.
  - intros (-> & _ & _ & ?). congruence.
  - by intros [= <-].
  - by intros (-> & _).
Qed.

(** A watched and observed creature has earned its promotion: its score is finite, the
    threshold is finite, and the score is at least the threshold. *)
Definition earns (s : FitnessSelector) (mid : N) (realm : RealmId) (h : string) (score : f32) : Prop :=
  fs_watch s !! mid = Some (realm, h)
  ∧ (∃ o, fs_obs s !! mid = Some o ∧ score = sc_scorer (fs_cfg s) o)
  ∧ f32_is_finite score = true ∧ f32_is_finite (sc_threshold (fs_cfg s)) = true
  ∧ f32_leb (sc_threshold (fs_cfg s)) score = true.

Lemma earns_promotes s mid realm h score :
  earns s mid realm h score ↔
  fs_watch s !! mid = Some (realm, h) ∧ ∃ o, fs_obs s !! mid = Some o ∧ promotes s o = Some score.
Proof.
  unfold earns. split.
  - intros (Hw & (o & Ho & ->) & F1 & F2 & F3). split; [done|]. exists o. split; [done|].
    apply promotes_Some. split_and!; [done..|]. by apply f32_leb_ltb.
  - intros (Hw & o & Ho & (-> & F1 & F2 & F3)%promotes_Some). split_and!; [done|by exists o|done|done|].
    by apply f32_finite_ltb.
Qed.

Lemma signed_hex_ok field b :
  blen b ≤ 256 → blen b ≠ 0 → signed_promotion_field_shape_error field (hex_encode b) = None.
Proof.
  intros Hb Hz. unfold signed_promotion_field_shape_error. rewrite !or_error_None, !reject_if_None, too_large_None.
  assert (slen (hex_encode b) = 2 * blen b) as E by apply slen_hex_encode. split_and!.
  - apply bool_decide_eq_false. intros E0. rewrite E0 in E. change (slen "") with 0 in E. lia.
  - rewrite E. change MAX_REGISTRY_SIGNAL_FIELD_BYTES with 512. lia.
  - apply (all_bytes_no_char is_lower_hex); [done|apply hex_encode_lower].
Qed.

(** The score that a promotion stores. *)
Definition promoted_score (s : FitnessSelector) (realm : RealmId) (h : string) (score : f32) : ReputationScore :=
  mkReputationScore score (Some (sc_self_realm (fs_cfg s))) (Some (fs_pubkey s))
    (Some (km_sign (sc_abode_key (fs_cfg s))
       (promotion_payload h realm score (Some (sc_self_realm (fs_cfg s)))))).

Lemma promoted_score_shape s seed realm h score :
  sc_abode_key (fs_cfg s) = from_seed seed → fs_pubkey s = km_public_hex (from_seed seed) →
  sha256_hex_ok h → signal_realm_error "reputation realm" realm = None →
  signal_realm_error "reputation attesting_realm" (sc_self_realm (fs_cfg s)) = None →
  f32_is_finite score = true → attest_shape_error (promoted_score s realm h score) h realm = None.
Proof.
  intros Hk Hp [H1 H2] Hr Ha Hf. unfold attest_shape_error, promoted_score, signal_hash_error. cbn.
  rewrite Hr, Ha, Hf, Hk, Hp. cbn. rewrite !or_error_None, too_large_None, !reject_if_None. split_and!; try done.
  - rewrite H1. done.
  - by apply (all_bytes_no_char is_lower_hex).
  - apply signed_hex_ok; unfold blen; rewrite ed_public_length; lia.
  - apply signed_hex_ok; unfold blen; rewrite ed_sign_length; lia.
Qed.

Lemma promoted_score_verifies s seed realm h score :
  sc_abode_key (fs_cfg s) = from_seed seed → fs_pubkey s = km_public_hex (from_seed seed) →
  promotion_verifies (promoted_score s realm h score) h realm ed25519_verifier = true.
Proof.
  intros Hk Hp. unfold promotion_verifies, promoted_score. cbn. rewrite Hk, Hp. apply key_signature_verifies.
Qed.

(** The gate of both policies on a promoted row. *)
Lemma promotion_gate_passes f32_display name p s seed realm h score e :
  sc_abode_key (fs_cfg s) = from_seed seed → fs_pubkey s = km_public_hex (from_seed seed) →
  en_reputation e = Some (promoted_score s realm h score) → f32_is_finite score = true →
  f32_ltb score (pp_min_score p) = false → pp_verifier p = ed25519_verifier →
  (pp_allow_any_selector p = true ∨ fs_pubkey s ∈ pp_trusted_selectors p) →
  promotion_gate f32_display name p (realm, h) e = Ok tt.
Proof.
  intros Hk Hp He Hf Hl Hv Ht. unfold promotion_gate. rewrite He. cbn [rs_score rs_signed_by promoted_score].
  rewrite Hf, Hl, Hv. cbn [negb fst snd].
  rewrite (promoted_score_verifies s seed) by done.
  destruct Ht as [-> | Hin]; [done|]. rewrite bool_decide_eq_true_2 by done.
  by destruct (pp_allow_any_selector p).
Qed.
End promotions.

(** A watch may name a realm that no registry marks: a report on it is acknowledged
    as a quarantine, and nothing is marked. *)
Lemma report_without_marker `{!SerdeJson RegistryOp} `{!SerdeJson ImmuneMsg} `{!SerdeJson FederatorMsg}
    env (module me : CreatureId) reason h s :
  slen h ≤ MAX_WATCH_FIELD_BYTES → immune_can_insert_watch s module = true → ir_me s = Some me → module ≠ me →
  let watched := immune_insert_watch module "a:b" h s in
  watched.1 = true
  ∧ (∃ d, d ∈ out_dispatches (on_report env module reason watched.2).1
       ∧ di_payload d = to_bytes (IQuarantined module h (bounded_text reason MAX_QUARANTINE_REASON_BYTES)))
  ∧ ∀ notice r, mark_quarantine "a:b" h notice r = (false, r).
Proof.
  intros Hh Hc Hme Hne. cbv zeta. unfold immune_insert_watch.
  assert (watch_shape_error "a:b" h = None) as ->
    by (unfold watch_shape_error; rewrite or_error_None, !too_large_None; by split).
  rewrite Hc. split_and!; [done| |].
  - unfold on_report. cbn [negb snd]. rewrite decide_False by (cbn; congruence). cbn [ir_watch].
    rewrite lookup_insert_eq. cbn [ir_me]. rewrite Hme.
    eexists. split; [apply elem_of_app; right; by left|done].
  - intros notice r. unfold mark_quarantine, mark_shape_error. destruct (signal_hash_error _ _); [done|]. done.
Qed.

(** ** A concrete defence *)

Module defence_sample.
#[local] Existing Instances zero_sha stuffed_text toy_ed25519 toy_keys.
Definition realm : RealmId := "crew".
Definition key : Key := (realm, zeros64).
Definition manifest : Manifest :=
  set_provenance (mkProvenance (Some "author") None (Some zeros64) (Some "s") (Some realm))
    (Manifest_new "f" "1" BBeast "v1").
Definition row : Entry := mkEntry manifest [Byte.x2a] None None.
Definition registry : RegistryMem := set_entries {[key := row]} RegistryMem_new.
Definition iter : MapIter := map_to_list.

(** One manifest has a text, the one without its signature. *)
#[local] Instance texts : SerdeJson Manifest :=
  {| to_vec m := if @decide _ (sigil_sample.Manifest_eq_dec m (unsigned_manifest manifest))
                 then Ok [Byte.x7b] else Err "no text";
     from_slice b := Ok (unsigned_manifest manifest) |}.
Lemma defence_round_trip : @SerdeRoundTrip Manifest texts.
Proof. intros m b E. cbn in *. by destruct (decide _) as [->|]. Qed.
Definition verifier : Verifier := fun author _ s => bool_decide (author = "author") && bool_decide (s = "s").
Lemma admitted :
  kernel_admit verifier (signed_admit (SignedPolicy_new ["author"])) manifest (Some (Ok zeros64))
  = Some (Ok (Some zeros64)).
Proof. vm_compute. reflexivity. Qed.

(** A watched creature leaks. *)
Definition cfg : ImmuneConfig := mkImmuneConfig "node-A" 50 (trust_realm_honors (trust realm "node-B" TrustRealm_new)) None.
Definition immune : ImmuneResponse := immune_watching 7 realm zeros64 (immune_bind 9 (ImmuneResponse_new cfg)).
#[local] Instance proprios : SerdeJson ProprioWire :=
  {| to_vec _ := Ok []; from_slice _ := Ok (mkProprioWire 7 EVENT_LEAKED) |}.
#[local] Instance budgets : SerdeJson BudgetSignalWire := {| to_vec _ := Ok []; from_slice _ := Err "" |}.
#[local] Instance controls : SerdeJson ImmuneMsg := {| to_vec _ := Ok []; from_slice _ := Err "" |}.
#[local] Instance messages : SerdeJson FederatorMsg := {| to_vec _ := Ok []; from_slice _ := Err "" |}.
#[local] Instance replies : SerdeJson RegistryReply := {| to_vec _ := Ok []; from_slice _ := Err "" |}.
#[local] Instance headers : SerdeJson ChunkFrameHeader := countable_serde _.
#[local] Instance claims : SerdeJson PromotionClaim := {| to_vec _ := Ok [Byte.x01]; from_slice _ := Err "" |}.
Definition env (schema : string) : Envelope :=
  mkEnvelope (mkHeader (ACreature 1) (ACreature 9) None 3 [] 0 "" None None schema None) [].
Definition mark : RegistryOp := own_mark immune realm zeros64 "leaked resources on unload".
#[local] Instance marks : SerdeJson RegistryOp := {| to_vec _ := Ok []; from_slice _ := Ok mark |}.
Definition steps : list (MapIter * Envelope) := [(iter, env REGISTRY_OP_SCHEMA)].
Lemma mark_delivered : delivers steps [mark] registry.
Proof. split_and!; repeat constructor. intros _. vm_compute. done. Qed.
Lemma leak : fault (env PROPRIO_SCHEMA) 7 "leaked resources on unload".
Proof. by eapply (LeakedUnload _ _ (mkProprioWire 7 EVENT_LEAKED)). Qed.

(** A watched creature is promoted. *)
Definition seed : bytes := replicate 32 Byte.x07.
Definition selector : FitnessSelector :=
  on_observe 7 true None (selector_watching 7 realm zeros64 (selector_bind 8
    (FitnessSelector_new (mkSelectorConfig realm 50 (from_seed seed) f32_one success_rate)))).
#[local] Instance ticks : SerdeJson SelectorMsg := {| to_vec _ := Ok []; from_slice _ := Ok STick |}.
#[local] Instance events : SerdeJson FitnessEvent := {| to_vec _ := Ok []; from_slice _ := Err "" |}.
Definition promotion : RegistryOp := promotion_op selector realm zeros64 f32_one.
Definition promotions : SerdeJson RegistryOp := {| to_vec _ := Ok []; from_slice _ := Ok promotion |}.
Lemma promotion_delivered : @delivers promotions steps [promotion] registry.
Proof. split_and!; repeat constructor. intros _. vm_compute. done. Qed.
Definition policy : PromotionPolicy := with_trusted_selectors [km_public_hex (from_seed seed)] (PromotionPolicy_new f32_one).
Lemma registry_is_ok : registry_ok registry.
Proof.
  split; [|vm_compute; done]. apply map_Forall_singleton. split; [reflexivity|vm_compute; reflexivity| |done|done].
  intros _. vm_compute. done.
Qed.
Lemma earned : earns selector 7 realm zeros64 f32_one.
Proof.
  split_and!; [vm_compute; reflexivity| |vm_compute; reflexivity..].
  exists (mkObservations 1 1 0 0). split; vm_compute; reflexivity.
Qed.
End defence_sample.

(** ** Properties *)

(** C29: what is admitted was authored. When the kernel admits an artifact under the
    signed policy of some authors, the manifest is coherent; one of the authors
    signed it, and what was signed determines every field of it but the signature;
    the digest of the artifact is the one it declares; and an address that it
    declares is its own. *)
Theorem admitted_is_authored `{!Sha256} `{!JsonText} `{!SerdeJson Manifest} (RT : SerdeRoundTrip Manifest)
    (verifier : Verifier) (authors : list string) (m : Manifest) (h : string) (actual : option string)
    (Hok : kernel_admit verifier (signed_admit (SignedPolicy_new authors)) m (Some (Ok h)) = Some (Ok actual)) :
  coherent_manifest m ∧ actual = Some h ∧ pv_build_hash (mf_provenance m) = Some h
  ∧ (∀ a, mf_content_address m = Some a → compute_content_address m = Some a)
  ∧ ∃ author s payload, author ∈ authors ∧ pv_author (mf_provenance m) = Some author
      ∧ pv_signature (mf_provenance m) = Some s ∧ verifier author payload s = true
      ∧ manifest_signing_payload m = Some payload
      ∧ ∀ m', manifest_signing_payload m' = Some payload → unsigned_manifest m' = unsigned_manifest m.
Proof.
  unfold kernel_admit in Hok. destruct (Manifest_validate m) as [[]|] eqn:Hv; [|done].
  destruct (kernel_evidence verifier m (Some h) _) as [e|] eqn:He; [|done]. cbn in Hok.
  destruct (signed_admit _ m e) as [[]|] eqn:Hs; [|done]. injection Hok as <-.
  apply evidence_facts in He as (E1 & E2 & E3 & E4).
  apply signed_admits in Hs as (S1 & S2 & S3 & S4). specialize (S3 eq_refl).
  rewrite E4, E3 in S3. specialize (S3 ltac:(by apply bool_decide_eq_true)).
  unfold artifact_hash_matches in S3. destruct (pv_build_hash (mf_provenance m)) as [expected|]; [|done].
  injection S3 as S3. apply bool_decide_eq_true in S3 as <-.
  rewrite S1 in E1. apply signature_valid_true in E1 as (author & s & p & Ha & Hsig & Hp & Hver).
  destruct (S4 eq_refl) as (a & Ha' & Hin). rewrite Ha in Ha'. injection Ha' as <-.
  apply (proj2 (proj2 (author_keys_retained authors DEFAULT_MAX_ALLOWED_AUTHORS))) in Hin as [Hin _].
  split_and!; [by apply validate_coherent|done|done| |].
  - intros a Hca. unfold content_address_matches in E2. rewrite Hca in E2.
    destruct (compute_content_address m) as [c|]; [|done]. cbn in E2. injection E2 as E2.
    rewrite <- E2 in S2. case_bool_decide; congruence.
  - exists author, s, p. split_and!; try done. intros m' Hm'. unfold manifest_signing_payload in *.
    destruct (to_vec (unsigned_manifest m)) as [b|] eqn:T1; [|done].
    destruct (to_vec (unsigned_manifest m')) as [b'|] eqn:T2; [|done]. cbn in *.
    apply from_slice_to_vec in T1, T2. congruence.
Qed.

Lemma admitted_is_authored_witness :
  @coherent_manifest stuffed_text defence_sample.manifest ∧ Some zeros64 = Some zeros64.
Proof.
  destruct (@admitted_is_authored zero_sha stuffed_text defence_sample.texts defence_sample.defence_round_trip
    defence_sample.verifier ["author"] defence_sample.manifest zeros64 (Some zeros64) defence_sample.admitted)
    as (A & B & _).
  exact (conj A B).
Defined.

(** A fault keeps the artifact out. When a watched creature other than the
    immune response breaks its hard budget, leaks on unload or is reported, the
    first thing sent is a marker for the local registry; once it is delivered, and
    whatever the registry receives after, short of a new publication of the same
    artifact, the kernel admits no manifest that declares it under the
    quarantine-aware policy, while the verdict of the prefer-promoted policy is the
    one before the marker. *)
Theorem faults_quarantine `{!Sha256} `{!JsonText} `{!SerdeJson Manifest} `{!SerdeJson RegistryOp}
    `{!SerdeJson RegistryReply} `{!SerdeJson ChunkFrameHeader} `{!SerdeJson ProprioWire}
    `{!SerdeJson BudgetSignalWire} `{!SerdeJson ImmuneMsg} `{!SerdeJson FederatorMsg}
    `{!SerdeJson PromotionClaim} (set_order : gset N → list N) (f32_display : f32 → string)
    (env : Envelope) (s : ImmuneResponse) (module me : CreatureId) (reason : string) (realm : RealmId) (h : string)
    (Hfault : fault env module reason) (Hme : ir_me s = Some me) (Hother : module ≠ me)
    (Hwatch : ir_watch s !! module = Some (realm, h))
    (Hshape : mark_shape_error h realm (bounded_text reason MAX_QUARANTINE_REASON_BYTES)
                [im_self_node (ir_cfg s)] = None) :
  let op := own_mark s realm h reason in
  ∃ rest, out_dispatches (immune_handle set_order env s).1
      = registry_dispatch (im_local_registry (ir_cfg s)) me op :: rest
    ∧ module ∈ ir_issued (immune_handle set_order env s).2
    ∧ ∀ steps r e, delivers steps [op] r → rm_entries r !! (realm, h) = Some e →
        let r' := registry_run steps r in
        (∀ later p verifier m artifact d, no_republish (realm, h) later → declared_key m = Some (realm, h) →
           kernel_admit verifier (quarantine_aware_admit f32_display p (registry_run later r')) m artifact
           ≠ Some (Ok d))
        ∧ ∀ p m ev, prefer_promoted_admit f32_display p r' m ev = prefer_promoted_admit f32_display p r m ev.
Proof.
  destruct (fault_marks set_order env s module reason me realm h Hfault Hme Hother Hwatch)
    as (rest & s' & Hd & Hs & Hi).
  exists rest. split_and!; [done|by rewrite Hs|].
  intros steps r e D He. cbv zeta. unfold own_mark in D.
  assert (registry_run steps r = set_entries (<[(realm, h) := mkEntry (en_manifest e) (en_artifact e)
    (en_reputation e) (Some (mkQuarantineNotice (bounded_text reason MAX_QUARANTINE_REASON_BYTES)
      [im_self_node (ir_cfg s)]))]> (rm_entries r)) r) as ->.
  { apply run_one in D as (iter & env' & ->). cbn [registry_op]. rewrite Hshape.
    by rewrite (mark_applies _ _ _ _ e) by done. }
  split.
  - intros later p verifier m artifact d Hl Hk. apply refused_by_kernel. intros ev.
    eapply blocked_refused; [|done]. apply run_blocked; [done|]. intros e'. cbn. rewrite lookup_insert_eq.
    intros [= <-]. by eexists.
  - intros p m ev. unfold prefer_promoted_admit. destruct (declared_key m) as [[realm' h']|]; [|done]. cbn.
    unfold fetch_in. destruct (artifact_hash_shape_error h'); [done|]. cbn.
    destruct (decide ((realm, h) = (realm', h'))) as [[= <- <-]|Hne]; [|by rewrite lookup_insert_ne].
    by rewrite lookup_insert_eq, He.
Qed.

Lemma faults_quarantine_witness :
  ∃ r', ∀ p verifier d, @kernel_admit zero_sha stuffed_text defence_sample.texts verifier
    (@quarantine_aware_admit defence_sample.claims (fun _ => "") p r') defence_sample.manifest
    (Some (Ok zeros64)) ≠ Some (Ok d).
Proof.
  destruct (@faults_quarantine zero_sha stuffed_text defence_sample.texts defence_sample.marks
    defence_sample.replies defence_sample.headers defence_sample.proprios defence_sample.budgets
    defence_sample.controls defence_sample.messages defence_sample.claims elements (fun _ => "")
    (defence_sample.env PROPRIO_SCHEMA) defence_sample.immune 7 9 _ defence_sample.realm zeros64
    defence_sample.leak eq_refl ltac:(discriminate) ltac:(vm_compute; reflexivity)
    ltac:(vm_compute; reflexivity)) as (rest & _ & _ & H).
  eexists. intros p verifier d.
  exact (proj1 (H _ _ defence_sample.row defence_sample.mark_delivered eq_refl) [] p verifier
    defence_sample.manifest _ d ltac:(constructor) eq_refl).
Defined.

(** A peer quarantines nothing without trust. After any messages, every
    operation that the immune response sends to the registry, on any message, is
    its own marker for a watched creature that the message tells a fault of, or the
    marker of a well-shaped notice whose attesting peers the trust model honours for
    that realm; under the per-realm model, one of these peers was trusted for it. It
    watches no more creatures than its limit, and the ones it has marked are among
    them and not itself. *)
Theorem markers_need_trust `{!SerdeJson ProprioWire} `{!SerdeJson BudgetSignalWire} `{!SerdeJson ImmuneMsg}
    `{!SerdeJson FederatorMsg} `{!SerdeJson RegistryOp} (set_order : gset N → list N)
    (cfg : ImmuneConfig) (max_watched : N) (me : CreatureId) (envs : list Envelope) :
  let s := immune_run set_order envs (immune_bind me (with_max_watched max_watched (ImmuneResponse_new cfg))) in
  (∀ env d, d ∈ out_dispatches (immune_handle set_order env s).1 → di_schema d = REGISTRY_OP_SCHEMA →
     defended env s me d)
  ∧ (∀ t peers realm, im_trust (ir_cfg s) = trust_realm_honors t → im_trust (ir_cfg s) peers realm = true →
       ∃ set peer, tq_trusted t !! realm = Some set ∧ peer ∈ peers ∧ peer ∈ set)
  ∧ (max_watched ≠ 0 → immune_watched_count s ≤ max_watched) ∧ issued_count s ≤ immune_watched_count s
  ∧ me ∉ ir_issued s.
Proof.
  cbv zeta. set (s0 := immune_bind _ _). set (s := immune_run _ envs s0).
  assert (immune_ok s ∧ same_immune s0 s) as [[B I] (C1 & C2 & C3)].
  { apply immune_run_ok. split; [intros _; cbn; apply N.le_0_l|]. by intros m ?%elem_of_empty. }
  split_and!.
  - intros env d Hd Hs. destruct (immune_defended set_order env s d Hd Hs) as (me' & Hm & J).
    rewrite C2 in Hm. by injection Hm as <-.
  - intros t peers realm -> Hh. unfold trust_realm_honors in Hh.
    destruct (tq_trusted t !! realm) as [set|]; [|done].
    apply existsb_exists in Hh as (peer & Hin & Hp). exists set, peer.
    split_and!; [done|by apply list_elem_of_In|by apply bool_decide_eq_true in Hp].
  - rewrite <- (C3 : _ = max_watched). exact B.
  - unfold issued_count, immune_watched_count. rewrite <- size_dom.
    assert (ir_issued s ⊆ dom (ir_watch s)) as Hsub
      by (intros m Hm; apply elem_of_dom; by apply (I m)).
    apply subseteq_size in Hsub. lia.
  - intros Hm. destruct (I me Hm) as [_ Hn]. by rewrite C2 in Hn.
Qed.

(** C37: what is promoted is admitted. A tick asks the registry exactly for the
    promotions of the watched and observed creatures whose score is finite and at least
    a finite threshold, and for nothing else. Once a promotion is delivered
    to a registry that holds the row, the prefer-promoted policy admits the manifest
    that declares it, when it trusts the selector's key and its minimum is not above
    the score; and the quarantine-aware policy does so exactly when the row carries
    no marker: defence overrides selection. *)
Theorem promotions_admitted `{!Sha256} (X : ShaHex) `{!JsonText} `{!Ed25519} (Y : Ed25519Keys)
    `{!SerdeJson RegistryOp} `{!SerdeJson RegistryReply} `{!SerdeJson ChunkFrameHeader}
    `{!SerdeJson FitnessEvent} `{!SerdeJson SelectorMsg} `{!SerdeJson PromotionClaim}
    (watch_order : WatchMap → list (N * (RealmId * string))) (obs_order : ObsMap → list (N * Observations))
    (Hlawful : ∀ w, watch_order w ≡ₚ map_to_list w) (f32_display : f32 → string)
    (env : Envelope) (s : FitnessSelector) (me : CreatureId) (seed : bytes)
    (Hme : fs_me s = Some me) (Hkey : sc_abode_key (fs_cfg s) = from_seed seed)
    (Hpub : fs_pubkey s = km_public_hex (from_seed seed))
    (Hschema : hd_schema (ev_header env) = SELECTOR_SCHEMA)
    (Hlen : blen (ev_payload env) ≤ MAX_SELECTOR_OP_BYTES) (Htick : from_slice (ev_payload env) = Ok STick)
    (Hself : signal_realm_error "reputation attesting_realm" (sc_self_realm (fs_cfg s)) = None) :
  let out := out_dispatches (selector_handle watch_order obs_order env s).1 in
  (∀ d, d ∈ out ∧ di_schema d = REGISTRY_OP_SCHEMA ↔
     ∃ mid realm h score, earns s mid realm h score
       ∧ d = registry_dispatch (sc_local_registry (fs_cfg s)) me (promotion_op s realm h score))
  ∧ ∀ mid realm h score, earns s mid realm h score → signal_realm_error "reputation realm" realm = None →
      ∀ steps r e, delivers steps [promotion_op s realm h score] r → registry_ok r →
        rm_entries r !! (realm, h) = Some e →
        let r' := registry_run steps r in
        ∀ p m ev, declared_key m = Some (realm, h) → f32_ltb score (pp_min_score p) = false →
          pp_verifier p = ed25519_verifier →
          (pp_allow_any_selector p = true ∨ fs_pubkey s ∈ pp_trusted_selectors p) →
          prefer_promoted_admit f32_display p r' m ev = Ok tt
          ∧ (quarantine_aware_admit f32_display p r' m ev = Ok tt ↔ en_quarantine e = None).
Proof.
  cbv zeta.
  assert (selector_handle watch_order obs_order env s = (on_tick watch_order env s, s)) as ->.
  { unfold selector_handle, selector_on_control. rewrite Hschema. cbn.
    rewrite bool_decide_eq_false_2 by lia. by rewrite Htick. }
  cbn [fst]. unfold on_tick. rewrite Hme.
  pose proof (tick_loop_elem s (watch_order (fs_watch s))) as T.
  destruct (tick_loop s (watch_order (fs_watch s))) as [evaluated promoted]. cbn [out_dispatches snd] in *.
  assert (∀ mid realm h, (mid, (realm, h)) ∈ watch_order (fs_watch s) ↔ fs_watch s !! mid = Some (realm, h)) as Hw.
  { intros mid realm h. rewrite (Hlawful (fs_watch s)). apply elem_of_map_to_list. }
  split.
  - intros d. split.
    + intros [[([mid op] & -> & Hin)%list_elem_of_fmap|Hd]%elem_of_app Hs];
        [|by apply list_elem_of_singleton in Hd as ->].
      apply T in Hin as (realm & h & o & score & Hwa & Ho & Hp & ->). apply Hw in Hwa.
      exists mid, realm, h, score. split; [|done]. apply earns_promotes. split; [done|by exists o].
    + intros (mid & realm & h & score & (Hwa & o & Ho & Hp)%earns_promotes & ->). split; [|done].
      apply elem_of_app. left. apply list_elem_of_fmap. exists (mid, promotion_op s realm h score).
      split; [done|]. apply T. exists realm, h, o, score. split; [by apply Hw|done].
  - intros mid realm h score (_ & _ & F1 & _) Hr steps r e D O He p m ev Hk Hmin Hv Ht.
    assert (sha256_hex_ok h) as Hh.
    { pose proof (es_address _ _ _ (ro_entries _ O _ _ He)) as Ea. cbn in Ea. rewrite Ea. apply sha256_hex_is_ok. }
    assert (registry_run steps r = set_entries (<[(realm, h) := mkEntry (en_manifest e) (en_artifact e)
      (Some (promoted_score s realm h score)) (en_quarantine e)]> (rm_entries r)) r) as ->.
    { apply run_one in D as (iter & env' & ->). cbn. fold (promoted_score s realm h score).
      rewrite (attest_applies _ _ _ _ e); [done|by eapply promoted_score_shape|done]. }
    unfold prefer_promoted_admit, quarantine_aware_admit. rewrite Hk. cbn [fst snd]. unfold fetch_in.
    rewrite (proj2 (artifact_hash_shape_None h) Hh). cbn [set_entries rm_entries]. rewrite lookup_insert_eq.
    cbn [en_quarantine]. pose proof (fun name e' He' =>
      promotion_gate_passes f32_display name p s seed realm h score e' Hkey Hpub He' F1 Hmin Hv Ht) as G.
    rewrite !G by done. split; [done|]. by destruct (en_quarantine e).
Qed.

Lemma promotions_admitted_witness :
  ∃ r', @prefer_promoted_admit defence_sample.claims (fun _ => "") (@defence_sample.policy) r'
    defence_sample.manifest (mkAdmission true true None None true None false) = Ok tt.
Proof.
  pose proof (proj2 (@promotions_admitted zero_sha zero_sha_hex stuffed_text toy_ed25519 toy_keys
    defence_sample.promotions defence_sample.replies defence_sample.headers defence_sample.events
    defence_sample.ticks defence_sample.claims map_to_list map_to_list (fun w => reflexivity _) (fun _ => "")
    (defence_sample.env SELECTOR_SCHEMA) defence_sample.selector 8 defence_sample.seed eq_refl eq_refl eq_refl
    eq_refl ltac:(vm_compute; done) eq_refl ltac:(vm_compute; reflexivity)) 7 defence_sample.realm zeros64
    f32_one defence_sample.earned ltac:(vm_compute; reflexivity)) as H.
  eexists. exact (proj1 (H defence_sample.steps defence_sample.registry defence_sample.row
    defence_sample.promotion_delivered defence_sample.registry_is_ok eq_refl defence_sample.policy
    defence_sample.manifest _ eq_refl ltac:(vm_compute; reflexivity) eq_refl
    ltac:(right; vm_compute; left))).
Defined.
