(* ===== verification/Placement.v ===== *)
(** * Placement

    [cosmos/seer/src/lib.rs], module [topics::placement]: the language of placement
    predicates, embodiments and offers, and the bodies of the consult; and
    [cosmos/seer/src/responder.rs], the skeleton of a standing responder. *)

From S2P Require Import Prelude F32 Serde FnCrypto FnTypes AetherAddress AetherEnvelope.
From S2P Require Import BlobFs Admission Seer.

Definition MAX_QUERY_OUTCOME_BYTES : N := 4 * 1024.
Definition MAX_QUERY_REQUIREMENTS : N := 64.
Definition MAX_QUERY_REQUIREMENT_BYTES : N := 1024.
Definition MAX_ANSWER_MATCHES : N := 256.
Definition MAX_OFFER_NODE_ID_BYTES : N := 256.
Definition MAX_OFFER_LABELS : N := 64.
Definition MAX_OFFER_LABEL_BYTES : N := 256.

(** ** Data *)

Inductive Predicate : Type :=
  | CpuAtLeast (n : N)
  | MemAtLeast (n : N)
  | AcceleratorContains (name : string)
  | JurisdictionIn (set : list string)
  | ConnectivityEquals (want : string).

Inductive PredicateError : Type :=
  | PredicateEmpty
  | Unrecognized (predicate : string)
  | Malformed (predicate message : string).

Record Embodiment : Type := mkEmbodiment {
  eb_cpu : N;
  eb_mem_bytes : N;
  eb_accelerators : list string;
  eb_jurisdiction : option string;
  eb_connectivity : option string;
  eb_sensors : list string
}.

Record EmbodimentOffer : Type := mkEmbodimentOffer {
  eo_node : string;
  eo_creature_id : N;
  eo_embodiment : Embodiment;
  eo_realm : option RealmId
}.

Record QueryBody : Type := mkQueryBody {
  qb_requirements : list string;
  qb_outcome : option string;
  qb_target_realm : option RealmId
}.

Record AnswerBody : Type := mkAnswerBody { ab_matches : list EmbodimentOffer }.

#[export] Instance Embodiment_eq_dec : EqDecision Embodiment.
Proof. solve_decision. Defined.
#[export] Instance EmbodimentOffer_eq_dec : EqDecision EmbodimentOffer.
Proof. solve_decision. Defined.

(** ** Text *)

(** [str::to_ascii_lowercase]. *)
Definition ascii_lower (a : Ascii.ascii) : Ascii.ascii :=
  let b := Ascii.N_of_ascii a in
  if in_range 65 90 b then Ascii.ascii_of_N (b + 32) else a.
Fixpoint to_ascii_lowercase (s : string) : string :=
  match s with
  | EmptyString => EmptyString
  | String a s => String (ascii_lower a) (to_ascii_lowercase s)
  end.

(** [&s[n..]], for an [n] within the string. *)
Fixpoint skip_bytes (n : nat) (s : string) : string :=
  match n, s with
  | S n, String _ s => skip_bytes n s
  | _, _ => s
  end.

(** [str::parse] at an unsigned width whose largest value is [max]: an optional
    plus sign and decimal digits. *)
Fixpoint digits_checked (max acc : N) (s : string) : result string N :=
  match s with
  | EmptyString => Ok acc
  | String a s =>
      let b := Ascii.N_of_ascii a in
      if negb (is_ascii_digit b) then Err "invalid digit found in string"
      else if max <? acc * 10 + (b - 48) then Err "number too large to fit in target type"
      else digits_checked max (acc * 10 + (b - 48)) s
  end.
Definition parse_uint (max : N) (s : string) : result string N :=
  match s with
  | EmptyString => Err "cannot parse integer from empty string"
  | String a rest =>
      let b := Ascii.N_of_ascii a in
      if ((b =? 43) || (b =? 45)) && bool_decide (rest = "") then Err "invalid digit found in string"
      else if b =? 43 then digits_checked max 0 rest
      else digits_checked max 0 s
  end.

(** ** The predicate language *)

Definition strip_op (rest op : string) : option string :=
  match strip_prefix op rest with Some stripped => Some (trim_start stripped) | None => None end.

(** [cpu >= N] and [mem >= N], past the keyword. *)
Definition parse_at_least (max : N) (mk : N → Predicate) (trimmed rest : string) :
    result PredicateError Predicate :=
  match strip_op (trim_start rest) ">=" with
  | None => Err (Unrecognized trimmed)
  | Some n =>
      match parse_uint max (trim n) with
      | Ok n => Ok (mk n)
      | Err e => Err (Malformed trimmed e)
      end
  end.

(** The value of [trimmed] past [keyword], which [rest] starts with; [rest] is a
    suffix of the lowercased text, so that it has the length of the text it stands
    for. *)
Definition value_after (trimmed rest keyword : string) : string :=
  trim (skip_bytes (String.length trimmed - String.length rest + String.length keyword) trimmed).

Definition parse_accelerator (trimmed rest : string) : result PredicateError Predicate :=
  let rest := trim_start rest in
  match strip_prefix "contains" rest with
  | None => Err (Unrecognized trimmed)
  | Some _ =>
      let value := value_after trimmed rest "contains" in
      if bool_decide (value = "") then Err (Malformed trimmed "missing accelerator name")
      else Ok (AcceleratorContains value)
  end.

Definition COMMA : Ascii.ascii := Ascii.ascii_of_N 44.

Definition parse_jurisdiction (trimmed rest : string) : result PredicateError Predicate :=
  let rest := trim_start rest in
  match strip_prefix "in" rest with
  | None => Err (Unrecognized trimmed)
  | Some _ =>
      let value := value_after trimmed rest "in" in
      match s ← strip_prefix "{" value; strip_suffix "}" s with
      | None => Err (Malformed trimmed "expected `{a,b,c}` after `in`")
      | Some inner =>
          let items := filter (fun s => s ≠ "") (map trim (split_on COMMA inner)) in
          if bool_decide (items = []) then Err (Malformed trimmed "empty `in` set")
          else Ok (JurisdictionIn items)
      end
  end.

Definition parse_connectivity (trimmed rest : string) : result PredicateError Predicate :=
  let rest := trim_start rest in
  match strip_op rest "=" with
  | None => Err (Unrecognized trimmed)
  | Some _ =>
      let value := value_after trimmed rest "=" in
      if bool_decide (value = "") then Err (Malformed trimmed "missing connectivity value")
      else Ok (ConnectivityEquals value)
  end.

Definition Predicate_parse (s : string) : result PredicateError Predicate :=
  let trimmed := trim s in
  if bool_decide (trimmed = "") then Err PredicateEmpty
  else
    let lower := to_ascii_lowercase trimmed in
    match strip_prefix "cpu" lower with
    | Some rest => parse_at_least u32_MAX CpuAtLeast trimmed rest
    | None =>
    match strip_prefix "mem" lower with
    | Some rest => parse_at_least u64_MAX MemAtLeast trimmed rest
    | None =>
    match strip_prefix "accelerator" lower with
    | Some rest => parse_accelerator trimmed rest
    | None =>
    match strip_prefix "jurisdiction" lower with
    | Some rest => parse_jurisdiction trimmed rest
    | None =>
    match strip_prefix "connectivity" lower with
    | Some rest => parse_connectivity trimmed rest
    | None => Err (Unrecognized trimmed)
    end end end end end.

Definition Predicate_matches (p : Predicate) (e : Embodiment) : bool :=
  match p with
  | CpuAtLeast n => bool_decide (n ≤ eb_cpu e)
  | MemAtLeast n => bool_decide (n ≤ eb_mem_bytes e)
  | AcceleratorContains name =>
      existsb (fun a => bool_decide (to_ascii_lowercase a = to_ascii_lowercase name)) (eb_accelerators e)
  | JurisdictionIn set =>
      match eb_jurisdiction e with Some j => bool_decide (j ∈ set) | None => false end
  | ConnectivityEquals want => bool_decide (eb_connectivity e = Some want)
  end.

Example parse_examples :
  Predicate_parse "  CPU>= +4 " = Ok (CpuAtLeast 4)
  ∧ Predicate_parse "Accelerator contains NVIDIA-A100" = Ok (AcceleratorContains "NVIDIA-A100")
  ∧ Predicate_parse "jurisdiction in { us, ,ca }" = Ok (JurisdictionIn ["us"; "ca"])
  ∧ Predicate_parse "connectivity = wired" = Ok (ConnectivityEquals "wired")
  ∧ Predicate_parse "cpu >= 4294967296"
    = Err (Malformed "cpu >= 4294967296" "number too large to fit in target type")
  ∧ Predicate_parse "jurisdiction in {}" = Err (Malformed "jurisdiction in {}" "empty `in` set")
  ∧ Predicate_parse "disk >= 4" = Err (Unrecognized "disk >= 4").
Proof. by vm_compute. Qed.

(** ** A standing responder *)

Inductive Inbound : Type :=
  | NotSeer
  | InboundMalformed (e : SeerParseError)
  | OtherTopic
  | Ours (seer : SeerEnvelope).

Section responder.
  Context `{!SerdeJson SeerEnvelope}.

Definition classify (env : Envelope) (topic : SeerTopic) : Inbound :=
  if bool_decide (hd_schema (ev_header env) ≠ SEER_SCHEMA) then NotSeer
  else
    match seer_parse_bounded (ev_payload env) with
    | Err e => InboundMalformed e
    | Ok seer => if bool_decide (se_topic seer ≠ topic) then OtherTopic else Ours seer
    end.

Definition respond_query_corr {Q A} `{!FromValue Q} `{!ToValue A} (env : Envelope) (topic : SeerTopic)
    (query_ok : Q → bool) (decide_answer : N → Q → A) : Outcome :=
  match classify env topic with
  | Ours seer =>
      match se_kind seer with
      | Query query_id body =>
          match from_value body with
          | Ok q =>
              if negb (query_ok q) then Outcome_none
              else
                let answer := seer_answer topic (se_corr seer) query_id (decide_answer (se_corr seer) q) in
                Outcome_send
                  (with_corr (with_schema (reply_to_env env (to_bytes answer)) SEER_SCHEMA) (se_corr seer))
          | Err _ => Outcome_none
          end
      | _ => Outcome_none
      end
  | _ => Outcome_none
  end.

Definition respond_query {Q A} `{!FromValue Q} `{!ToValue A} (env : Envelope) (topic : SeerTopic)
    (query_ok : Q → bool) (decide_answer : Q → A) : Outcome :=
  respond_query_corr env topic query_ok (fun _ q => decide_answer q).
End responder.
