(* ===== verification/PredicateLaws.v ===== *)
(** * The laws of placement predicates

    What the predicate language reads, and that it reads back its authoring form. *)

From Stdlib Require Import Wf_nat.
From S2P Require Import Prelude F32 Serde GxShape FnCrypto FnTypes AetherAddress AetherEnvelope.
From S2P Require Import BlobFs BlobLaws Admission Seer Placement.

(** ** Text *)

(** An ASCII character that is no whitespace. *)
Definition solid (a : Ascii.ascii) : bool :=
  let x := Ascii.N_of_ascii a in negb (is_white1 x) && (x <? 128).

Lemma solid_white a : solid a = true →
  is_white1 (Ascii.N_of_ascii a) = false
  ∧ (∀ y, is_white2 (Ascii.N_of_ascii a) y = false) ∧ ∀ y z, is_white3 (Ascii.N_of_ascii a) y z = false.
Proof.
  unfold solid. intros [Hw Hl]%andb_true_iff. apply negb_true_iff in Hw. apply N.ltb_lt in Hl.
  assert (∀ n, 128 ≤ n → (Ascii.N_of_ascii a =? n) = false) as E by (intros; apply N.eqb_neq; lia).
  split_and!; [done|intros y|intros y z]; unfold is_white2, is_white3; by rewrite !E by lia.
Qed.

Lemma solid_blank a s : solid a = true → is_blank (String a s) = false.
Proof.
  intros (H1 & H2 & H3)%solid_white. cbn. rewrite H1. destruct s as [|b s]; [done|].
  rewrite H2. destruct s as [|c s]; [done|]. by rewrite H3.
Qed.
Lemma solid_trim_start a s : solid a = true → trim_start (String a s) = String a s.
Proof.
  intros (H1 & H2 & H3)%solid_white. cbn. rewrite H1. destruct s as [|b s]; [done|].
  rewrite H2. destruct s as [|c s]; [done|]. by rewrite H3.
Qed.
Lemma trim_end_cons a s :
  is_blank (String a s) = false → trim_end (String a s) = String a (trim_end s).
Proof. intros E. cbn [trim_end]. by rewrite E. Qed.
Lemma trim_start_blank s : trim_end s ≠ "" → is_blank s = false.
Proof. destruct s as [|a s]; [done|]. cbn [trim_end]. by destruct (is_blank (String a s)). Qed.

(** Prefixes of ASCII characters, spaces included, before a value that is not blank. *)
Fixpoint ascii_text (s : string) : bool :=
  match s with
  | EmptyString => true
  | String a s => (solid a || (Ascii.N_of_ascii a =? 32)) && ascii_text s
  end.

Lemma ascii_blank p s : ascii_text p = true → is_blank s = false → is_blank (p +:+ s) = false.
Proof.
  intros Hp Hs. induction p as [|a p IH]; [done|]. cbn [ascii_text] in Hp.
  apply andb_true_iff in Hp as [[Ha|Ha]%orb_true_iff Hp]; rewrite string_append_cons.
  - by apply solid_blank.
  - apply N.eqb_eq in Ha. cbn [is_blank]. rewrite Ha. change (is_white1 32) with true. cbn. auto.
Qed.

Lemma ascii_trim_end p s :
  ascii_text p = true → is_blank s = false → trim_end (p +:+ s) = p +:+ trim_end s.
Proof.
  intros Hp Hs. induction p as [|a p IH]; [done|]. pose proof Hp as Hp'. cbn [ascii_text] in Hp.
  apply andb_true_iff in Hp as [_ Hp]. rewrite !string_append_cons, trim_end_cons, IH; [done|done|].
  rewrite <- string_append_cons. by apply ascii_blank.
Qed.

Lemma trim_start_length s : (String.length (trim_start s) ≤ String.length s)%nat.
Proof.
  induction s as [s IH] using (induction_ltof1 _ String.length). unfold ltof in IH.
  destruct s as [|a [|b [|c s]]]; cbn; repeat case_match; cbn; try lia.
  all: etrans; [apply IH; cbn; lia|cbn; lia].
Qed.
Lemma trim_end_length s : (String.length (trim_end s) ≤ String.length s)%nat.
Proof. induction s as [|a s IH]; cbn [trim_end]; [done|]. destruct (is_blank _); cbn; lia. Qed.
Lemma trim_start_full s : (String.length s ≤ String.length (trim_start s))%nat → trim_start s = s.
Proof.
  destruct s as [|a s]; [done|]. cbn [trim_start]. destruct (is_white1 _).
  { intros E. pose proof (trim_start_length s). cbn in *. lia. }
  destruct s as [|b s]; [done|]. destruct (is_white2 _ _).
  { intros E. pose proof (trim_start_length s). cbn in *. lia. }
  destruct s as [|c s]; [done|]. destruct (is_white3 _ _ _); [|done].
  intros E. pose proof (trim_start_length s). cbn in *. lia.
Qed.

(** A string without surrounding whitespace is one on which both ends stand. *)
Lemma trim_fixed s : trim s = s → trim_start s = s ∧ trim_end s = s.
Proof.
  unfold trim. intros E. pose proof (trim_end_length (trim_start s)) as L. rewrite E in L.
  apply trim_start_full in L. by rewrite L in E.
Qed.

(** A value past an ASCII prefix. *)
Lemma trim_text a p v :
  solid a = true → ascii_text p = true → trim v = v → v ≠ "" →
  trim (String a (p +:+ v)) = String a (p +:+ v).
Proof.
  intros Ha Hp [_ E]%trim_fixed Hv. unfold trim. rewrite solid_trim_start by done.
  assert (is_blank v = false) as Hb by (apply trim_start_blank; by rewrite E).
  rewrite trim_end_cons by (by apply solid_blank). by rewrite ascii_trim_end, E.
Qed.
Lemma trim_space v : trim v = v → trim (" " +:+ v) = v.
Proof.
  intros [E1 E2]%trim_fixed. unfold trim.
  change (trim_start (" " +:+ v)) with (trim_start v). by rewrite E1.
Qed.

Lemma lower_app s t : to_ascii_lowercase (s +:+ t) = to_ascii_lowercase s +:+ to_ascii_lowercase t.
Proof. induction s as [|a s IH]; [done|]. rewrite !string_append_cons. cbn. by rewrite IH. Qed.
Lemma lower_length s : String.length (to_ascii_lowercase s) = String.length s.
Proof. induction s as [|a s IH]; cbn; [done|]. by rewrite IH. Qed.
Lemma skip_bytes_app p s : skip_bytes (String.length p) (p +:+ s) = s.
Proof. induction p as [|a p IH]; [done|]. exact IH. Qed.

(** ** The authoring form of a predicate *)

Definition predicate_text (p : Predicate) : string :=
  match p with
  | CpuAtLeast n => "cpu >= " +:+ dec n
  | MemAtLeast n => "mem >= " +:+ dec n
  | AcceleratorContains name => "accelerator contains " +:+ name
  | JurisdictionIn set => "jurisdiction in {" +:+ String.concat "," set +:+ "}"
  | ConnectivityEquals want => "connectivity = " +:+ want
  end.

(** A value that whitespace does not surround. *)
Definition bare (v : string) : Prop := trim v = v ∧ v ≠ "".

Definition predicate_ok (p : Predicate) : Prop :=
  match p with
  | CpuAtLeast n => n ≤ u32_MAX
  | MemAtLeast n => n ≤ u64_MAX
  | AcceleratorContains v | ConnectivityEquals v => bare v
  | JurisdictionIn set => set ≠ [] ∧ Forall (fun v => bare v ∧ contains_char COMMA v = false) set
  end.

(** *** Numbers *)

Lemma digit_solid a : is_ascii_digit (Ascii.N_of_ascii a) = true → solid a = true ∧ ascii_lower a = a.
Proof. destruct a as [[] [] [] [] [] [] [] []]; vm_compute; done. Qed.

Lemma digits_bare s : all_bytes is_ascii_digit s = true → trim s = s ∧ to_ascii_lowercase s = s.
Proof.
  intros Hd. assert (trim_end s = s ∧ to_ascii_lowercase s = s) as [E1 E2].
  { induction s as [|a s IH]; [done|]. cbn [all_bytes] in Hd. apply andb_true_iff in Hd as [Ha Hs].
    destruct (digit_solid a Ha) as [Hb Hl], (IH Hs) as [IH1 IH2].
    rewrite trim_end_cons by (by apply solid_blank). cbn [to_ascii_lowercase]. by rewrite IH1, IH2, Hl. }
  split; [|done]. unfold trim. destruct s as [|a s]; [done|]. cbn [all_bytes] in Hd.
  apply andb_true_iff in Hd as [Ha _]. by rewrite solid_trim_start by (by apply digit_solid).
Qed.

Lemma digits_checked_pretty max x s :
  x ≤ max → digits_checked max 0 (pretty_N_go x s) = digits_checked max x s.
Proof.
  revert s. induction (N.lt_wf_0 x) as [x _ IH]; intros s Hs.
  destruct (decide (0 < x)) as [Hx|Hx]; [|by replace x with 0 by lia].
  rewrite pretty_N_go_step by done. pose proof (N.div_lt x 10 Hx ltac:(lia)).
  rewrite IH by lia. cbn [digits_checked]. rewrite pretty_N_char_digit.
  rewrite pretty_N_char_value by (by apply N.mod_lt).
  rewrite N.mul_comm, <- N.div_mod'. cbn [negb]. by rewrite (proj2 (N.ltb_ge _ _)) by done.
Qed.

Lemma parse_uint_dec max n : n ≤ max → parse_uint max (dec n) = Ok n.
Proof.
  intros Hn. assert (digits_checked max 0 (dec n) = Ok n) as E.
  { unfold dec, pretty, pretty_N. case_decide; [subst|by rewrite digits_checked_pretty].
    change ((if max <? 0 then Err "number too large to fit in target type" else @Ok string N 0) = Ok 0).
    by rewrite (proj2 (N.ltb_ge max 0)) by lia. }
  pose proof (dec_digits n) as Hd. pose proof (dec_nonempty n). unfold parse_uint.
  destruct (dec n) as [|a s]; [done|]. cbn [all_bytes] in Hd. apply andb_true_iff in Hd as [Ha _].
  unfold is_ascii_digit, in_range in Ha. apply andb_true_iff in Ha as [Ha%N.leb_le _].
  by rewrite !(proj2 (N.eqb_neq (Ascii.N_of_ascii a) _)) by lia.
Qed.

Lemma parse_at_least_text max mk trimmed n :
  n ≤ max → parse_at_least max mk trimmed (" >= " +:+ dec n) = Ok (mk n).
Proof.
  intros Hn. destruct (digits_bare _ (dec_digits n)) as [E _]. unfold parse_at_least.
  assert (strip_op (trim_start (" >= " +:+ dec n)) ">=" = Some (trim_start (dec n))) as -> by done.
  by rewrite (proj1 (trim_fixed _ E)), E, parse_uint_dec.
Qed.

(** *** Values *)

Lemma value_after_text pre kw v rest :
  String.length rest = String.length (kw +:+ v) → value_after (pre +:+ kw +:+ v) rest kw = trim v.
Proof.
  intros E. unfold value_after. f_equal.
  replace (String.length (pre +:+ kw +:+ v) - String.length rest + String.length kw)%nat
    with (String.length (pre +:+ kw)) by (rewrite E, !string_length_append; lia).
  by rewrite <- (string_append_assoc pre kw v), skip_bytes_app.
Qed.

Lemma lower_text_length kw v :
  String.length (kw +:+ to_ascii_lowercase v) = String.length (kw +:+ v).
Proof. by rewrite !string_length_append, lower_length. Qed.

Lemma accelerator_text v :
  bare v → Predicate_parse ("accelerator contains " +:+ v) = Ok (AcceleratorContains v).
Proof.
  intros [Hv Hn]. set (s := "accelerator contains " +:+ v).
  assert (Predicate_parse s = parse_accelerator s (" contains " +:+ to_ascii_lowercase v)) as ->.
  { unfold Predicate_parse. rewrite (trim_text (Ascii.ascii_of_N 97) "ccelerator contains " v eq_refl eq_refl Hv Hn : trim s = s).
    unfold s. by rewrite lower_app. }
  assert (parse_accelerator s (" contains " +:+ to_ascii_lowercase v)
          = (let value := value_after s ("contains " +:+ to_ascii_lowercase v) "contains" in
             if bool_decide (value = "") then Err (Malformed s "missing accelerator name")
             else Ok (AcceleratorContains value))) as -> by done.
  rewrite (value_after_text "accelerator " "contains" (" " +:+ v)) by apply (lower_text_length "contains ").
  cbv zeta. rewrite (trim_space v Hv). by rewrite bool_decide_eq_false_2.
Qed.

Lemma connectivity_text v :
  bare v → Predicate_parse ("connectivity = " +:+ v) = Ok (ConnectivityEquals v).
Proof.
  intros [Hv Hn]. set (s := "connectivity = " +:+ v).
  assert (Predicate_parse s = parse_connectivity s (" = " +:+ to_ascii_lowercase v)) as ->.
  { unfold Predicate_parse. rewrite (trim_text (Ascii.ascii_of_N 99) "onnectivity = " v eq_refl eq_refl Hv Hn : trim s = s).
    unfold s. by rewrite lower_app. }
  assert (parse_connectivity s (" = " +:+ to_ascii_lowercase v)
          = (let value := value_after s ("= " +:+ to_ascii_lowercase v) "=" in
             if bool_decide (value = "") then Err (Malformed s "missing connectivity value")
             else Ok (ConnectivityEquals value))) as ->.
  { unfold parse_connectivity.
    by rewrite (solid_trim_start (Ascii.ascii_of_N 61) (" " +:+ to_ascii_lowercase v) eq_refl
      : trim_start (" = " +:+ to_ascii_lowercase v) = "= " +:+ to_ascii_lowercase v). }
  rewrite (value_after_text "connectivity " "=" (" " +:+ v)) by apply (lower_text_length "= ").
  cbv zeta. rewrite (trim_space v Hv). by rewrite bool_decide_eq_false_2.
Qed.

(** *** Sets *)

Lemma concat_split items :
  items ≠ [] → Forall (fun v => contains_char COMMA v = false) items →
  split_on COMMA (String.concat "," items) = items.
Proof.
  intros Hn F. induction F as [|v items Hv F IH]; [done|]. destruct items as [|w items].
  - by apply split_on_last.
  - change (String.concat "," (v :: w :: items)) with (v +:+ String COMMA (String.concat "," (w :: items))).
    rewrite split_on_cons by done. by rewrite IH.
Qed.

Lemma bare_items items :
  Forall (fun v => bare v ∧ contains_char COMMA v = false) items →
  filter (fun s => s ≠ "") (map trim items) = items
  ∧ Forall (fun v => contains_char COMMA v = false) items.
Proof.
  induction 1 as [|v items [[Hv Hn] Hc] F [IH1 IH2]]; [done|]. split; [|by constructor].
  cbn [map]. rewrite Hv, filter_cons_True by done. by rewrite IH1.
Qed.

Lemma solid_last x a : solid a = true → is_blank (x +:+ String a "") = false.
Proof.
  intros Ha. assert (Ascii.N_of_ascii a < 128) as Hl.
  { unfold solid in Ha. apply andb_true_iff in Ha as [_ Ha]. by apply N.ltb_lt in Ha. }
  assert (∀ n, 128 ≤ n → (Ascii.N_of_ascii a =? n) = false) as E by (intros; apply N.eqb_neq; lia).
  induction x as [x IH] using (induction_ltof1 _ String.length). unfold ltof in IH.
  destruct x as [|b [|c [|e x]]]; [by apply solid_blank|..].
  - change (String b "" +:+ String a "") with (String b (String a "")).
    cbn [is_blank]. destruct (is_white1 (Ascii.N_of_ascii b)); [by apply (solid_blank a "")|].
    unfold is_white2. rewrite !E by lia. cbn. by rewrite andb_false_r.
  - change (String b (String c "") +:+ String a "") with (String b (String c (String a ""))).
    cbn [is_blank]. destruct (is_white1 (Ascii.N_of_ascii b)); [apply (IH (String c "")); cbn; lia|].
    destruct (is_white2 _ _); [by apply (solid_blank a "")|].
    assert (is_white3 (Ascii.N_of_ascii b) (Ascii.N_of_ascii c) (Ascii.N_of_ascii a) = false) as ->; [|done].
    unfold is_white3, in_range. rewrite !E by lia. rewrite (proj2 (N.leb_gt 128 _)) by lia.
    cbn. by rewrite !andb_false_r.
  - rewrite !string_append_cons. cbn [is_blank].
    destruct (is_white1 (Ascii.N_of_ascii b)); [apply (IH (String c (String e x))); cbn; lia|].
    destruct (is_white2 _ _); [apply (IH (String e x)); cbn; lia|].
    destruct (is_white3 _ _ _); [apply (IH x); cbn; lia|done].
Qed.

Lemma solid_last_trim x a : solid a = true → trim_end (x +:+ String a "") = x +:+ String a "".
Proof.
  intros Ha. induction x as [|b x IH].
  - change (trim_end (String a "") = String a ""). by rewrite trim_end_cons by (by apply solid_blank).
  - pose proof (solid_last (String b x) a Ha) as Hb. rewrite string_append_cons in *.
    rewrite trim_end_cons by done. by rewrite IH.
Qed.

Lemma jurisdiction_text items :
  items ≠ [] → Forall (fun v => bare v ∧ contains_char COMMA v = false) items →
  Predicate_parse ("jurisdiction in {" +:+ String.concat "," items +:+ "}") = Ok (JurisdictionIn items).
Proof.
  intros Hn F. apply bare_items in F as [Ei Hc]. set (c := String.concat "," items).
  set (s := "jurisdiction in {" +:+ c +:+ "}").
  pose proof (solid_last_trim c (Ascii.ascii_of_N 125) eq_refl : trim_end (c +:+ "}") = c +:+ "}") as Hl.
  assert (is_blank (c +:+ "}") = false) as Hb by (by apply (solid_last c)).
  assert (trim s = s) as Hs.
  { unfold trim. rewrite (solid_trim_start (Ascii.ascii_of_N 106) ("urisdiction in {" +:+ c +:+ "}") eq_refl
      : trim_start s = s). unfold s. by rewrite ascii_trim_end, Hl. }
  assert (Predicate_parse s = parse_jurisdiction s (" in {" +:+ to_ascii_lowercase (c +:+ "}"))) as ->.
  { unfold Predicate_parse. rewrite Hs. unfold s. by rewrite lower_app. }
  assert (parse_jurisdiction s (" in {" +:+ to_ascii_lowercase (c +:+ "}"))
          = match x ← strip_prefix "{" (value_after s ("in {" +:+ to_ascii_lowercase (c +:+ "}")) "in");
                  strip_suffix "}" x with
            | None => Err (Malformed s "expected `{a,b,c}` after `in`")
            | Some inner =>
                let items := filter (fun s => s ≠ "") (map trim (split_on COMMA inner)) in
                if bool_decide (items = []) then Err (Malformed s "empty `in` set")
                else Ok (JurisdictionIn items)
            end) as -> by done.
  rewrite (value_after_text "jurisdiction " "in" (" {" +:+ c +:+ "}")) by apply (lower_text_length "in {").
  assert (trim (" {" +:+ c +:+ "}") = "{" +:+ c +:+ "}") as ->.
  { unfold trim. rewrite (solid_trim_start (Ascii.ascii_of_N 123) (c +:+ "}") eq_refl
      : trim_start (" {" +:+ c +:+ "}") = "{" +:+ c +:+ "}"). by rewrite ascii_trim_end, Hl. }
  change (strip_prefix "{" ("{" +:+ c +:+ "}")) with (Some (c +:+ "}")). cbn [mbind option_bind].
  rewrite strip_suffix_app. unfold c. rewrite concat_split by done. cbv zeta. rewrite Ei.
  by rewrite bool_decide_eq_false_2.
Qed.

Lemma predicate_text_parses p : predicate_ok p → Predicate_parse (predicate_text p) = Ok p.
Proof.
  destruct p as [n|n|v|items|v]; cbn [predicate_ok predicate_text]; intros H.
  1,2: pose proof (digits_bare _ (dec_digits n)) as [Et El].
  - rewrite <- (parse_at_least_text u32_MAX CpuAtLeast ("cpu >= " +:+ dec n) n H). unfold Predicate_parse.
    rewrite (trim_text (Ascii.ascii_of_N 99) "pu >= " (dec n) eq_refl eq_refl Et (dec_nonempty n)
      : trim ("cpu >= " +:+ dec n) = "cpu >= " +:+ dec n). rewrite lower_app, El. done.
  - rewrite <- (parse_at_least_text u64_MAX MemAtLeast ("mem >= " +:+ dec n) n H). unfold Predicate_parse.
    rewrite (trim_text (Ascii.ascii_of_N 109) "em >= " (dec n) eq_refl eq_refl Et (dec_nonempty n)
      : trim ("mem >= " +:+ dec n) = "mem >= " +:+ dec n). rewrite lower_app, El. done.
  - by apply accelerator_text.
  - destruct H. by apply jurisdiction_text.
  - by apply connectivity_text.
Qed.

(** *** What parses *)

Lemma digits_checked_bound max acc s n : acc ≤ max → digits_checked max acc s = Ok n → n ≤ max.
Proof.
  revert acc. induction s as [|a s IH]; cbn [digits_checked]; intros acc Ha; [by intros [= <-]|].
  destruct (negb _); [done|]. destruct (N.ltb_spec max (acc * 10 + (Ascii.N_of_ascii a - 48))); [done|].
  by apply IH.
Qed.

Lemma parse_uint_bound max s n : parse_uint max s = Ok n → n ≤ max.
Proof.
  unfold parse_uint. destruct s as [|a s]; [done|]. destruct (_ && _); [done|].
  destruct (_ =? _); apply digits_checked_bound; lia.
Qed.

Lemma blank_app s t : is_blank s = true → is_blank t = true → is_blank (s +:+ t) = true.
Proof.
  intros Hs Ht. revert Hs. induction s as [s IH] using (induction_ltof1 _ String.length). unfold ltof in IH.
  destruct s as [|a s]; [done|]. cbn [is_blank]. rewrite string_append_cons. cbn [is_blank].
  destruct (is_white1 _); [apply IH; cbn; lia|]. destruct s as [|b s]; [done|]. rewrite string_append_cons.
  destruct (is_white2 _ _); [apply IH; cbn; lia|]. destruct s as [|c s]; [done|]. rewrite string_append_cons.
  destruct (is_white3 _ _ _); [apply IH; cbn; lia|done].
Qed.

Lemma trim_end_split s : ∃ w, s = trim_end s +:+ w ∧ is_blank w = true.
Proof.
  induction s as [|a s (w & E & Hw)]; [by exists ""|]. cbn [trim_end].
  destruct (is_blank (String a s)) eqn:Hb; [by exists (String a s)|].
  exists w. split; [|done]. rewrite string_append_cons. by f_equal.
Qed.

Lemma trim_end_blank s : is_blank (trim_end s) = true → trim_end s = "".
Proof.
  intros Hb. destruct (trim_end_split s) as (w & E & Hw).
  assert (is_blank s = true) as Hs by (rewrite E; by apply blank_app).
  destruct s as [|a s]; [done|]. cbn [trim_end]. by rewrite Hs.
Qed.

Lemma trim_end_idem s : trim_end (trim_end s) = trim_end s.
Proof.
  induction s as [|a s IH]; [done|]. cbn [trim_end]. destruct (is_blank (String a s)) eqn:Hb; [done|].
  rewrite trim_end_cons; [by rewrite IH|]. apply not_true_is_false. intros Hb'.
  pose proof (trim_end_blank (String a s)) as E. rewrite trim_end_cons in E by done. by specialize (E Hb').
Qed.

Lemma trim_start_idem s : trim_start (trim_start s) = trim_start s.
Proof.
  induction s as [s IH] using (induction_ltof1 _ String.length). unfold ltof in IH.
  destruct s as [|a s]; [done|]. cbn [trim_start]. destruct (is_white1 _) eqn:E1; [apply IH; cbn; lia|].
  destruct s as [|b s]; [cbn; by rewrite E1|].
  destruct (is_white2 _ _) eqn:E2; [apply IH; cbn; lia|].
  destruct s as [|c s]; [cbn; by rewrite E1, E2|].
  destruct (is_white3 _ _ _) eqn:E3; [apply IH; cbn; lia|]. cbn. by rewrite E1, E2, E3.
Qed.

(** The text up to the trailing whitespace starts as the text does. *)
Lemma trim_start_end s : trim_start s = s → trim_start (trim_end s) = trim_end s.
Proof.
  assert (∀ t u, trim_start t = u → (String.length t ≤ String.length u)%nat → t = u) as Hlen.
  { intros t u <- L. by rewrite trim_start_full. }
  destruct s as [|a s]; [done|]. cbn [trim_end]. destruct (is_blank (String a s)); [done|].
  destruct (trim_end_split s) as (w & E & _). cbn [trim_start].
  destruct (is_white1 _).
  { intros Es. pose proof (trim_start_length s). rewrite Es in *. cbn in *. lia. }
  destruct (trim_end s) as [|b t]; [done|]. rewrite string_append_cons in E. subst s.
  destruct (is_white2 _ _).
  { intros Es. pose proof (trim_start_length (t +:+ w)). rewrite Es in *. cbn in *. lia. }
  destruct t as [|c t]; [done|]. rewrite string_append_cons. destruct (is_white3 _ _ _); [|done].
  intros Es. pose proof (trim_start_length (t +:+ w)). rewrite Es in *. cbn in *. lia.
Qed.

Lemma trim_idem s : trim (trim s) = trim s.
Proof.
  unfold trim. rewrite trim_start_end by apply trim_start_idem. apply trim_end_idem.
Qed.

Lemma trim_bytes (f : N → bool) s : all_bytes f s = true → all_bytes f (trim s) = true.
Proof.
  intros H. assert (all_bytes f (trim_start s) = true) as Hs.
  { revert H. induction s as [s IH] using (induction_ltof1 _ String.length). unfold ltof in IH.
    destruct s as [|a s]; [done|]. intros Hb. pose proof Hb as [_ Hb1]%andb_true_iff.
    cbn [trim_start]. destruct (is_white1 _); [apply IH; [cbn; lia|done]|].
    destruct s as [|b s]; [done|]. pose proof Hb1 as [_ Hb2]%andb_true_iff.
    destruct (is_white2 _ _); [apply IH; [cbn; lia|done]|].
    destruct s as [|c s]; [done|]. pose proof Hb2 as [_ Hb3]%andb_true_iff.
    destruct (is_white3 _ _ _); [apply IH; [cbn; lia|done]|done]. }
  unfold trim. destruct (trim_end_split (trim_start s)) as (w & E & _). rewrite E, all_bytes_app in Hs.
  by apply andb_true_iff in Hs as [Hs _].
Qed.

Lemma split_on_pieces c s : Forall (fun v => contains_char c v = false) (split_on c s).
Proof.
  induction s as [|a s IH]; [by repeat constructor|]. cbn [split_on]. case_decide as Ha; [by constructor|].
  destruct (split_on c s) as [|v vs]; [constructor; [|done]|apply Forall_cons in IH as [Hv IH]; constructor; [|done]].
  - rewrite contains_char_cons, bool_decide_eq_false_2 by done. done.
  - by rewrite contains_char_cons, bool_decide_eq_false_2.
Qed.

Lemma trimmed_bare s : trim s ≠ "" → bare (trim s).
Proof. split; [apply trim_idem|done]. Qed.

Lemma parse_predicate_ok s p : Predicate_parse s = Ok p → predicate_ok p.
Proof.
  unfold Predicate_parse. case_bool_decide; [done|]. repeat case_match; intros E; try done.
  1,2: unfold parse_at_least in E; repeat case_match; try done; injection E as <-; by eapply parse_uint_bound.
  - unfold parse_accelerator in E. repeat case_match; try done. to_prop. injection E as <-.
    unfold value_after in *. by apply trimmed_bare.
  - unfold parse_jurisdiction in E. repeat case_match; try done. to_prop. injection E as <-.
    split; [done|]. apply Forall_forall. intros v [Hn Hv]%list_elem_of_filter.
    apply list_elem_of_fmap in Hv as (u & -> & Hu). split; [by apply trimmed_bare|].
    pose proof (proj1 (Forall_forall _ _) (split_on_pieces COMMA _) u Hu) as F. cbn beta in F.
    unfold contains_char in *. apply negb_false_iff. apply negb_false_iff in F. by apply trim_bytes.
  - unfold parse_connectivity in E. repeat case_match; try done. to_prop. injection E as <-.
    unfold value_after in *. by apply trimmed_bare.
Qed.

(** ** Properties *)

(** The predicate language has one authoring form per predicate. Every predicate
    that parses from any text is one whose numbers fit their width, whose values are
    not empty and have no surrounding whitespace, and whose sets are not empty and
    have no commas in their items; and exactly for those predicates the written
    form parses back to the predicate. *)
Theorem predicate_roundtrip :
  (∀ s p, Predicate_parse s = Ok p → predicate_ok p ∧ Predicate_parse (predicate_text p) = Ok p)
  ∧ ∀ p, Predicate_parse (predicate_text p) = Ok p ↔ predicate_ok p.
Proof.
  split.
  - intros s p H%parse_predicate_ok. split; [done|by apply predicate_text_parses].
  - intros p. split; [apply parse_predicate_ok|apply predicate_text_parses].
Qed.
