(* ===== verification/Advertiser.v ===== *)
(** * The embodiment advertiser

    [cosmos/creatures/embodiment-advertiser/src/lib.rs]: it answers placement queries
    with the configured offers that satisfy every predicate it can read. *)

From S2P Require Import Prelude Serde FnCrypto AetherAddress AetherEnvelope.
From S2P Require Import GxShape BestiaryWire Seer Federator Placement.

Definition DEFAULT_MAX_ADVERTISED_OFFERS : N := 4096.

Record OfferEntry : Type := mkOfferEntry {
  oe_creature_id : CreatureId;
  oe_embodiment : Embodiment
}.

Record EmbodimentAdvertiser : Type := mkEmbodimentAdvertiser {
  ea_self_node : NodeId;
  ea_realm : option RealmId;
  ea_offers : list OfferEntry
}.

(** ** Shapes *)

Definition label_is_bounded (max_bytes : N) (label : string) : bool :=
  negb (contains_char NUL label) && bool_decide (slen label ≤ max_bytes).
Definition optional_label_is_bounded (label : option string) : bool :=
  match label with Some s => label_is_bounded MAX_OFFER_LABEL_BYTES s | None => true end.
Definition bounded_labels (labels : list string) : bool :=
  bool_decide (N.of_nat (length labels) ≤ MAX_OFFER_LABELS)
  && forallb (label_is_bounded MAX_OFFER_LABEL_BYTES) labels.
Definition advertiser_node_id_shape_is_valid (node : string) : bool :=
  bool_decide (node ≠ "") && bool_decide (slen node ≤ MAX_OFFER_NODE_ID_BYTES)
  && all_bytes is_node_byte node.
Definition offer_entry_shape_is_valid (self_node : NodeId) (offer : OfferEntry) : bool :=
  advertiser_node_id_shape_is_valid self_node
  && bounded_labels (eb_accelerators (oe_embodiment offer))
  && bounded_labels (eb_sensors (oe_embodiment offer))
  && optional_label_is_bounded (eb_jurisdiction (oe_embodiment offer))
  && optional_label_is_bounded (eb_connectivity (oe_embodiment offer)).
Definition query_shape_is_valid (q : QueryBody) : bool :=
  bool_decide (N.of_nat (length (qb_requirements q)) ≤ MAX_QUERY_REQUIREMENTS)
  && forallb (label_is_bounded MAX_QUERY_REQUIREMENT_BYTES) (qb_requirements q)
  && match qb_outcome q with
     | Some outcome => label_is_bounded MAX_QUERY_OUTCOME_BYTES outcome
     | None => true
     end.

(** ** Construction *)

Definition retain_configured_offers (self_node : NodeId) (offers : list OfferEntry) (max_offers : N) :
    list OfferEntry :=
  let valid := List.filter (offer_entry_shape_is_valid self_node) offers in
  if bool_decide (max_offers = 0) then valid else take (N.to_nat max_offers) valid.
Definition with_max_offers (self_node : NodeId) (offers : list OfferEntry) (max_offers : N) :
    EmbodimentAdvertiser :=
  mkEmbodimentAdvertiser self_node None (retain_configured_offers self_node offers max_offers).
Definition EmbodimentAdvertiser_new (self_node : NodeId) (offers : list OfferEntry) :
    EmbodimentAdvertiser := with_max_offers self_node offers DEFAULT_MAX_ADVERTISED_OFFERS.
Definition advertiser_in_realm (a : EmbodimentAdvertiser) (realm : RealmId) : EmbodimentAdvertiser :=
  mkEmbodimentAdvertiser (ea_self_node a) (Some realm) (ea_offers a).
Definition offer_count (a : EmbodimentAdvertiser) : N := N.of_nat (length (ea_offers a)).

(** ** Answers *)

(** The predicates that parse; the others are skipped. *)
Definition readable_predicates (requirements : list string) : list Predicate :=
  omap (fun s => match Predicate_parse s with Ok p => Some p | Err _ => None end) requirements.

Definition declines (a : EmbodimentAdvertiser) (q : QueryBody) : bool :=
  match qb_target_realm q, ea_realm a with
  | Some want, Some mine => bool_decide (want ≠ mine)
  | _, _ => false
  end.

Definition offer_of (a : EmbodimentAdvertiser) (o : OfferEntry) : EmbodimentOffer :=
  mkEmbodimentOffer (ea_self_node a) (oe_creature_id o) (oe_embodiment o) (ea_realm a).

Definition match_offers (a : EmbodimentAdvertiser) (q : QueryBody) : AnswerBody :=
  if declines a q then mkAnswerBody []
  else
    let predicates := readable_predicates (qb_requirements q) in
    mkAnswerBody
      (map (offer_of a)
         (take (N.to_nat MAX_ANSWER_MATCHES)
            (List.filter (fun o => forallb (fun p => Predicate_matches p (oe_embodiment o)) predicates)
               (List.filter (offer_entry_shape_is_valid (ea_self_node a)) (ea_offers a))))).

Definition advertiser_handle `{!SerdeJson SeerEnvelope} `{!FromValue QueryBody} `{!ToValue AnswerBody}
    (env : Envelope) (a : EmbodimentAdvertiser) : Outcome :=
  respond_query env Placement query_shape_is_valid (match_offers a).
