(* ===== verification/Distributor.v ===== *)
(** * The distributor

    [cosmos/creatures/distributor-requirements/src/lib.rs]: it asks the advertisers
    who can take an Intent, and sends the Intent on to one that answered, or tells
    its originator that there is none. *)

From S2P Require Import Prelude Serde FnCrypto AetherAddress AetherEnvelope.
From S2P Require Import GxShape HomeServe BestiaryWire Sigil Seer Federator Placement.

Definition SCHEMA_NO_PROVIDER : string := "distributor.no_provider".
Definition MAX_PLACEMENT_ANSWER_MATCHES : N := MAX_ANSWER_MATCHES.
Definition MAX_PLACEMENT_OFFER_NODE_ID_BYTES : N := MAX_OFFER_NODE_ID_BYTES.
Definition MAX_PLACEMENT_OFFER_LABEL_BYTES : N := MAX_OFFER_LABEL_BYTES.
Definition MAX_PLACEMENT_OFFER_LABELS : N := MAX_OFFER_LABELS.
Definition MAX_PLACEMENT_INTENT_OUTCOME_BYTES : N := MAX_QUERY_OUTCOME_BYTES.
Definition MAX_PLACEMENT_INTENT_REQUIREMENTS : N := MAX_QUERY_REQUIREMENTS.
Definition MAX_PLACEMENT_INTENT_REQUIREMENT_BYTES : N := MAX_QUERY_REQUIREMENT_BYTES.
Definition DEFAULT_MAX_PENDING_CONSULTS : N := 128.
Definition MAX_REJECTED_INTENT_REQUIREMENT_ECHOES : N := 4.
Definition MAX_REJECTED_INTENT_ECHO_BYTES : N := 256.

Inductive NoProviderReason : Type :=
  | NoAdvertisers | EveryAdvertiserEmpty | Aborted | PendingEvicted | NotReady | IntentShapeRejected.

Record NoProviderReply : Type := mkNoProviderReply {
  np_outcome : string;
  np_requirements : list string;
  np_advertisers_consulted : N;
  np_advertisers_answered : N;
  np_reason : NoProviderReason;
  np_details : option string
}.

Inductive PickModel : Type := FirstFit | RoundRobin.

Record Pending : Type := mkPending {
  pe_intent_env : Envelope;
  pe_expected : N;
  pe_answered : N;
  pe_offers : list EmbodimentOffer;
  pe_answered_query_ids : gset N
}.

Record Distributor : Type := mkDistributor {
  ds_self_node : NodeId;
  ds_local_advertisers : list CreatureId;
  ds_peer_advertisers : list (NodeId * CreatureId);
  ds_self_realm : RealmId;
  ds_peer_realm_advertisers : list (RealmId * CreatureId);
  ds_model : PickModel;
  ds_pending : gmap N Pending;
  ds_max_pending : N;
  ds_rr_cursor : N;
  ds_next_consult_corr : N;
  ds_me : option CreatureId
}.

Definition Distributor_new (self_node : NodeId) (local_advertisers : list CreatureId)
    (peer_advertisers : list (NodeId * CreatureId)) (model : PickModel) (consult_corr_seed : N) :
    Distributor :=
  mkDistributor self_node local_advertisers peer_advertisers RealmId_local [] model ∅
    DEFAULT_MAX_PENDING_CONSULTS 0 consult_corr_seed None.
Definition with_max_pending (max_pending : N) (d : Distributor) : Distributor :=
  mkDistributor (ds_self_node d) (ds_local_advertisers d) (ds_peer_advertisers d) (ds_self_realm d)
    (ds_peer_realm_advertisers d) (ds_model d) (ds_pending d) max_pending (ds_rr_cursor d)
    (ds_next_consult_corr d) (ds_me d).
Definition with_realm (self_realm : RealmId) (d : Distributor) : Distributor :=
  mkDistributor (ds_self_node d) (ds_local_advertisers d) (ds_peer_advertisers d) self_realm
    (ds_peer_realm_advertisers d) (ds_model d) (ds_pending d) (ds_max_pending d) (ds_rr_cursor d)
    (ds_next_consult_corr d) (ds_me d).
Definition with_peer_realm_advertisers (advertisers : list (RealmId * CreatureId)) (d : Distributor) :
    Distributor :=
  mkDistributor (ds_self_node d) (ds_local_advertisers d) (ds_peer_advertisers d) (ds_self_realm d)
    advertisers (ds_model d) (ds_pending d) (ds_max_pending d) (ds_rr_cursor d)
    (ds_next_consult_corr d) (ds_me d).
Definition distributor_bind (me : CreatureId) (d : Distributor) : Distributor :=
  mkDistributor (ds_self_node d) (ds_local_advertisers d) (ds_peer_advertisers d) (ds_self_realm d)
    (ds_peer_realm_advertisers d) (ds_model d) (ds_pending d) (ds_max_pending d) (ds_rr_cursor d)
    (ds_next_consult_corr d) (Some me).
Definition pending_consults (d : Distributor) : N := N.of_nat (size (ds_pending d)).

(** Updates of the three fields that messages change. *)
Definition on_pending (g : gmap N Pending → gmap N Pending) (d : Distributor) : Distributor :=
  mkDistributor (ds_self_node d) (ds_local_advertisers d) (ds_peer_advertisers d) (ds_self_realm d)
    (ds_peer_realm_advertisers d) (ds_model d) (g (ds_pending d)) (ds_max_pending d) (ds_rr_cursor d)
    (ds_next_consult_corr d) (ds_me d).
Definition bump_corr (d : Distributor) : Distributor :=
  mkDistributor (ds_self_node d) (ds_local_advertisers d) (ds_peer_advertisers d) (ds_self_realm d)
    (ds_peer_realm_advertisers d) (ds_model d) (ds_pending d) (ds_max_pending d) (ds_rr_cursor d)
    (u64_incr (ds_next_consult_corr d)) (ds_me d).
Definition bump_cursor (d : Distributor) : Distributor :=
  mkDistributor (ds_self_node d) (ds_local_advertisers d) (ds_peer_advertisers d) (ds_self_realm d)
    (ds_peer_realm_advertisers d) (ds_model d) (ds_pending d) (ds_max_pending d)
    (u64_incr (ds_rr_cursor d)) (ds_next_consult_corr d) (ds_me d).

(** ** Shapes *)

Definition intent_fields (env : Envelope) : string * list string :=
  match hd_to (ev_header env) with
  | AIntent i => (in_outcome i, in_requirements i)
  | _ => ("", [])
  end.

Definition requirement_error (requirement : string) : option string :=
  if bool_decide (MAX_PLACEMENT_INTENT_REQUIREMENT_BYTES < slen requirement) then
    Some "intent requirement exceeds placement byte limit"
  else if contains_char NUL requirement then Some "intent requirement contains NUL byte"
  else None.
Fixpoint requirements_error (requirements : list string) : option string :=
  match requirements with
  | [] => None
  | r :: rs => match requirement_error r with Some e => Some e | None => requirements_error rs end
  end.
Definition validate_intent_shape (outcome : string) (requirements : list string) : result string unit :=
  if bool_decide (MAX_PLACEMENT_INTENT_OUTCOME_BYTES < slen outcome) then
    Err "intent outcome exceeds placement byte limit"
  else if contains_char NUL outcome then Err "intent outcome contains NUL byte"
  else if bool_decide (MAX_PLACEMENT_INTENT_REQUIREMENTS < N.of_nat (length requirements)) then
    Err "intent requirements exceed placement count limit"
  else match requirements_error requirements with Some e => Err e | None => Ok tt end.

Definition bounded_preview (s : string) (max_bytes : N) : string :=
  if bool_decide (slen s ≤ max_bytes) then s
  else String.substring 0 (floor_boundary s (N.to_nat max_bytes)) s +:+ "...".

Definition rejected_intent_echo (outcome : string) (requirements : list string) :
    string * list string :=
  let echoed := map (fun s => bounded_preview s MAX_REJECTED_INTENT_ECHO_BYTES)
                  (take (N.to_nat MAX_REJECTED_INTENT_REQUIREMENT_ECHOES) requirements) in
  let count := N.of_nat (length requirements) in
  let echoed :=
    if bool_decide (MAX_REJECTED_INTENT_REQUIREMENT_ECHOES < count) then
      echoed ++ ["<" +:+ dec (count - MAX_REJECTED_INTENT_REQUIREMENT_ECHOES)
                 +:+ " more requirements elided>"]
    else echoed in
  (bounded_preview outcome MAX_REJECTED_INTENT_ECHO_BYTES, echoed).

Definition offer_label_is_bounded (label : string) : bool :=
  negb (contains_char NUL label) && bool_decide (slen label ≤ MAX_PLACEMENT_OFFER_LABEL_BYTES).
Definition offer_optional_label_is_bounded (label : option string) : bool :=
  match label with Some s => offer_label_is_bounded s | None => true end.
Definition offer_bounded_labels (labels : list string) : bool :=
  bool_decide (N.of_nat (length labels) ≤ MAX_PLACEMENT_OFFER_LABELS)
  && forallb offer_label_is_bounded labels.
Definition offer_node_id_shape_is_valid (node : string) : bool :=
  bool_decide (node ≠ "") && bool_decide (slen node ≤ MAX_PLACEMENT_OFFER_NODE_ID_BYTES)
  && all_bytes is_node_byte node.
Definition placement_offer_shape_is_valid (offer : EmbodimentOffer) : bool :=
  offer_node_id_shape_is_valid (eo_node offer)
  && offer_bounded_labels (eb_accelerators (eo_embodiment offer))
  && offer_bounded_labels (eb_sensors (eo_embodiment offer))
  && offer_optional_label_is_bounded (eb_jurisdiction (eo_embodiment offer))
  && offer_optional_label_is_bounded (eb_connectivity (eo_embodiment offer))
  && match eo_realm offer with
     | Some r => bool_decide (r ≠ "") && bool_decide (slen r ≤ MAX_PLACEMENT_OFFER_NODE_ID_BYTES)
                 && negb (contains_char NUL r)
     | None => true
     end.
Definition retain_valid_answer_matches (matches : list EmbodimentOffer) :
    option (list EmbodimentOffer) :=
  if bool_decide (MAX_PLACEMENT_ANSWER_MATCHES < N.of_nat (length matches)) then None
  else Some (List.filter placement_offer_shape_is_valid matches).

Section distributor.
  Context `{!SerdeJson SeerEnvelope} `{!SerdeJson NoProviderReply}
    `{!ToValue QueryBody} `{!FromValue AnswerBody}.

Definition build_no_provider (intent_env : Envelope) (outcome : string) (requirements : list string)
    (consulted answered : N) (reason : NoProviderReason) (details : option string) : Dispatch :=
  with_schema
    (reply_to_env intent_env
       (to_bytes (mkNoProviderReply outcome requirements consulted answered reason details)))
    SCHEMA_NO_PROVIDER.

(** ** A new Intent *)

(** [self.pending.keys().min()]. *)
Definition min_key (m : gmap N Pending) : option N :=
  foldr (fun k acc => Some (match acc with Some j => N.min k j | None => k end)) None
    (map_to_list m).*1.

(** The eviction at capacity: the reply to the originator that gives way. *)
Definition evict_oldest (d : Distributor) : list Dispatch * Distributor :=
  if bool_decide (0 < ds_max_pending d) && bool_decide (ds_max_pending d ≤ pending_consults d) then
    match min_key (ds_pending d) with
    | Some oldest =>
        match ds_pending d !! oldest with
        | Some p =>
            let '(o, r) := intent_fields (pe_intent_env p) in
            ([build_no_provider (pe_intent_env p) o r (pe_expected p) (pe_answered p) PendingEvicted
                (Some "pending table at max capacity; oldest evicted")],
             on_pending (delete oldest) d)
        | None => ([], d)
        end
    | None => ([], d)
    end
  else ([], d).

(** Whom a consult asks, and what: the loops over the local advertisers, the peers
    of the realm and the advertisers of other realms. *)
Definition consult_targets (d : Distributor) (outcome : string) (requirements : list string) :
    list (Address * QueryBody) :=
  map (fun adv => (ACreature adv, mkQueryBody requirements (Some outcome) None)) (ds_local_advertisers d)
  ++ map (fun '(peer, adv) => (ANode peer adv, mkQueryBody requirements (Some outcome) None))
       (ds_peer_advertisers d)
  ++ map (fun '(realm, adv) =>
            (AOmega realm (ACreature adv), mkQueryBody requirements (Some outcome) (Some realm)))
       (ds_peer_realm_advertisers d).

Definition query_dispatch (consult_corr query_id : N) (reply_to_addr to : Address) (body : QueryBody) :
    Dispatch :=
  with_reply_to
    (with_corr
       (with_schema (Dispatch_to to (to_bytes (seer_query Placement consult_corr query_id body)))
          SEER_SCHEMA)
       consult_corr)
    reply_to_addr.

Definition u32_incr (n : N) : N := (n + 1) `mod` 2 ^ 32.

Fixpoint ask_advertisers (consult_corr : N) (reply_to_addr : Address) (targets : list (Address * QueryBody))
    (expected : N) : list Dispatch * N :=
  match targets with
  | [] => ([], expected)
  | (to, body) :: targets =>
      let q := query_dispatch consult_corr (expected + 1) reply_to_addr to body in
      let '(rest, expected) := ask_advertisers consult_corr reply_to_addr targets (u32_incr expected) in
      (q :: rest, expected)
  end.

Definition on_intent (env : Envelope) (d : Distributor) : Outcome * Distributor :=
  let consult_corr := ds_next_consult_corr d in
  let d := bump_corr d in
  match hd_to (ev_header env) with
  | AIntent (mkIntent outcome requirements) =>
      match validate_intent_shape outcome requirements with
      | Err reason =>
          let '(outcome_echo, requirement_echo) := rejected_intent_echo outcome requirements in
          (Outcome_send (build_no_provider env outcome_echo requirement_echo 0 0 IntentShapeRejected
             (Some reason)), d)
      | Ok _ =>
          match ds_me d with
          | None =>
              (Outcome_send (build_no_provider env outcome requirements 0 0 NotReady
                 (Some "distributor received an Intent before bind() ran")), d)
          | Some me_id =>
              let '(evicted, d) := evict_oldest d in
              let '(queries, expected) :=
                ask_advertisers consult_corr (ACreature me_id) (consult_targets d outcome requirements) 0 in
              if bool_decide (expected = 0) then
                (mkOutcome (evicted ++ queries
                   ++ [build_no_provider env outcome requirements 0 0 NoAdvertisers None]) None, d)
              else
                (mkOutcome (evicted ++ queries) None,
                 on_pending (insert consult_corr (mkPending env expected 0 [] ∅)) d)
          end
      end
  | _ => (Outcome_none, d)
  end.

(** ** Answers *)

Definition target_addr (d : Distributor) (chosen : EmbodimentOffer) : Address :=
  let node := ANode (eo_node chosen) (eo_creature_id chosen) in
  let within :=
    if bool_decide (eo_node chosen = ds_self_node d) then ACreature (eo_creature_id chosen) else node in
  match eo_realm chosen with
  | Some realm => if bool_decide (realm ≠ ds_self_realm d) then AOmega realm node else within
  | None => within
  end.

Definition placed_dispatch (d : Distributor) (intent_env : Envelope) (chosen : EmbodimentOffer) :
    Dispatch :=
  let dispatch :=
    with_reply_to
      (with_schema (Dispatch_to (target_addr d chosen) (ev_payload intent_env))
         (hd_schema (ev_header intent_env)))
      (reply_target intent_env) in
  match hd_corr (ev_header intent_env) with
  | Some c => with_corr dispatch c
  | None => dispatch
  end.

(** The pick index is within the offers, which are not empty: the default is never
    taken. *)
Definition reconcile_consult (p : Pending) (d : Distributor) : Outcome * Distributor :=
  let '(outcome, requirements) := intent_fields (pe_intent_env p) in
  match pe_offers p with
  | [] =>
      (Outcome_send (build_no_provider (pe_intent_env p) outcome requirements (pe_expected p)
         (pe_answered p) EveryAdvertiserEmpty None), d)
  | first :: _ =>
      let '(pick_index, d) :=
        match ds_model d with
        | FirstFit => (0, d)
        | RoundRobin => (ds_rr_cursor d `mod` N.of_nat (length (pe_offers p)), bump_cursor d)
        end in
      let chosen := default first (pe_offers p !! N.to_nat pick_index) in
      (Outcome_send (placed_dispatch d (pe_intent_env p) chosen), d)
  end.

Definition u32_saturating_incr (n : N) : N := N.min (n + 1) u32_MAX.

(** The checks of the query id are made on one lookup: nothing changes between the
    two that the code does. *)
Definition on_answer (corr query_id : N) (body : json) (d : Distributor) : Outcome * Distributor :=
  match ds_pending d !! corr with
  | None => (Outcome_none, d)
  | Some p =>
      if bool_decide (query_id = 0) || bool_decide (pe_expected p < query_id) then (Outcome_none, d)
      else if bool_decide (query_id ∈ pe_answered_query_ids p) then (Outcome_none, d)
      else
        match from_value (T := AnswerBody) body with
        | Err _ => (Outcome_none, d)
        | Ok answer =>
            match retain_valid_answer_matches (ab_matches answer) with
            | None => (Outcome_none, d)
            | Some matches =>
                let p := mkPending (pe_intent_env p) (pe_expected p)
                           (u32_saturating_incr (pe_answered p)) (pe_offers p ++ matches)
                           ({[query_id]} ∪ pe_answered_query_ids p) in
                let first_fit := match ds_model d with FirstFit => true | RoundRobin => false end in
                if (first_fit && bool_decide (pe_offers p ≠ []))
                   || bool_decide (pe_expected p ≤ pe_answered p)
                then reconcile_consult p (on_pending (delete corr) d)
                else (Outcome_none, on_pending (insert corr p) d)
            end
        end
  end.

Definition on_steer_abort (corr : N) (d : Distributor) : Outcome * Distributor :=
  match ds_pending d !! corr with
  | None => (Outcome_none, d)
  | Some p =>
      let '(outcome, requirements) := intent_fields (pe_intent_env p) in
      (Outcome_send (build_no_provider (pe_intent_env p) outcome requirements (pe_expected p)
         (pe_answered p) Aborted None), on_pending (delete corr) d)
  end.

Definition distributor_on_seer (env : Envelope) (d : Distributor) : Outcome * Distributor :=
  match seer_parse_bounded (ev_payload env) with
  | Err _ => (Outcome_none, d)
  | Ok seer =>
      if bool_decide (se_topic seer ≠ Placement) then (Outcome_none, d)
      else
        match se_kind seer with
        | Answer query_id body => on_answer (se_corr seer) query_id body d
        | Steer kind _ =>
            if bool_decide (kind = "abort") then on_steer_abort (se_corr seer) d else (Outcome_none, d)
        | _ => (Outcome_none, d)
        end
  end.

Definition distributor_handle (env : Envelope) (d : Distributor) : Outcome * Distributor :=
  match hd_to (ev_header env) with
  | AIntent _ => on_intent env d
  | _ =>
      if bool_decide (hd_schema (ev_header env) = SEER_SCHEMA) then distributor_on_seer env d
      else (Outcome_none, d)
  end.
End distributor.
