(* ===== verification/DistributorLaws.v ===== *)
(** * The laws of placement

    An Intent that the distributor receives is settled once, by a placement or a
    refusal; and a consult of the advertisers ends at a target that satisfies the
    requirements when one of them offers it. *)

From S2P Require Import Prelude F32 Serde GxShape FnCrypto AetherAddress AetherEnvelope.
From S2P Require Import Sigil BestiaryWire Seer Federator Placement Advertiser Distributor.

(** ** What an advertiser answers *)

(** An embodiment that satisfies every requirement that can be read. *)
Definition fits (requirements : list string) (e : Embodiment) : Prop :=
  ∀ r p, r ∈ requirements → Predicate_parse r = Ok p → Predicate_matches p e = true.

Lemma readable_elem requirements p :
  p ∈ readable_predicates requirements ↔ ∃ r, r ∈ requirements ∧ Predicate_parse r = Ok p.
Proof.
  unfold readable_predicates. rewrite list_elem_of_omap. split.
  - intros (r & Hr & E). exists r. split; [done|]. destruct (Predicate_parse r); congruence.
  - intros (r & Hr & E). exists r. by rewrite E.
Qed.

Lemma fits_forallb requirements e :
  forallb (fun p => Predicate_matches p e) (readable_predicates requirements) = true ↔ fits requirements e.
Proof.
  rewrite forallb_forall. split.
  - intros F r p Hr Hp. apply F, list_elem_of_In, readable_elem. eauto.
  - intros F p (r & Hr & Hp)%list_elem_of_In%readable_elem. by apply (F r).
Qed.

(** The offers that a query may be answered with. *)
Definition suits (a : EmbodimentAdvertiser) (q : QueryBody) (e : OfferEntry) : Prop :=
  e ∈ ea_offers a ∧ declines a q = false ∧ offer_entry_shape_is_valid (ea_self_node a) e = true
  ∧ fits (qb_requirements q) (oe_embodiment e).

Lemma match_offers_elem a q o :
  o ∈ ab_matches (match_offers a q) → ∃ e, o = offer_of a e ∧ suits a q e.
Proof.
  unfold match_offers. destruct (declines a q) eqn:Hd; cbn [ab_matches]; [by intros ?%not_elem_of_nil|].
  intros (e & -> & He)%list_elem_of_fmap. exists e. split; [done|].
  apply elem_of_take in He as (i & He & _). apply list_elem_of_lookup_2, list_elem_of_In in He.
  apply filter_In in He as [He Hf]. apply filter_In in He as [He Hs].
  split_and!; [by apply list_elem_of_In|done|done|by apply fits_forallb].
Qed.

Lemma match_offers_nil a q : ab_matches (match_offers a q) = [] → ∀ e, ¬ suits a q e.
Proof.
  intros E e (He & Hd & Hs & Hf). unfold match_offers in E. rewrite Hd in E. cbn [ab_matches] in E.
  apply map_eq_nil in E. set (l := List.filter _ _) in E.
  assert (e ∈ l) as Hl.
  { apply list_elem_of_In, filter_In. split; [|by apply fits_forallb].
    apply filter_In. split; [by apply list_elem_of_In|done]. }
  destruct l as [|x l]; [by apply not_elem_of_nil in Hl|done].
Qed.

(** A realm tag that a distributor accepts. *)
Definition realm_tag_ok (a : EmbodimentAdvertiser) : Prop :=
  ∀ r, ea_realm a = Some r → r ≠ "" ∧ slen r ≤ MAX_OFFER_NODE_ID_BYTES ∧ contains_char NUL r = false.

Lemma offer_accepted a e :
  realm_tag_ok a → offer_entry_shape_is_valid (ea_self_node a) e = true →
  placement_offer_shape_is_valid (offer_of a e) = true.
Proof.
  intros Ht Hs. unfold placement_offer_shape_is_valid. apply andb_true_iff. split; [exact Hs|]. cbn.
  destruct (ea_realm a) as [r|] eqn:E; [|done]. destruct (Ht r E) as (H1 & H2 & H3).
  by rewrite !bool_decide_eq_true_2, H3.
Qed.

(** A distributor keeps every offer of an advertiser. *)
Lemma answer_retained a q :
  realm_tag_ok a →
  retain_valid_answer_matches (ab_matches (match_offers a q)) = Some (ab_matches (match_offers a q)).
Proof.
  intros Ht. unfold retain_valid_answer_matches. rewrite bool_decide_eq_false_2.
  - f_equal. assert (∀ l, (∀ o, o ∈ l → placement_offer_shape_is_valid o = true) →
      List.filter placement_offer_shape_is_valid l = l) as F.
    { induction l as [|o l IH]; intros Hl; [done|]. cbn. rewrite Hl by (by left). f_equal. apply IH.
      intros o' Ho. apply Hl. by right. }
    apply F. intros o (e & -> & _ & _ & Hs & _)%match_offers_elem. by apply offer_accepted.
  - unfold match_offers. destruct (declines a q); cbn [ab_matches]; [cbn; lia|].
    rewrite length_map, length_take. unfold MAX_PLACEMENT_ANSWER_MATCHES. lia.
Qed.

(** A consult of an Intent of the right shape is one that an advertiser reads. *)
Lemma consult_shape_valid outcome requirements target :
  validate_intent_shape outcome requirements = Ok tt →
  query_shape_is_valid (mkQueryBody requirements (Some outcome) target) = true.
Proof.
  unfold validate_intent_shape. case_bool_decide as Ho; [done|]. destruct (contains_char NUL outcome) eqn:En; [done|].
  case_bool_decide as Hr; [done|]. destruct (requirements_error requirements) eqn:Er; [done|]. intros _.
  unfold query_shape_is_valid. cbn [qb_requirements qb_outcome].
  unfold MAX_PLACEMENT_INTENT_REQUIREMENTS, MAX_PLACEMENT_INTENT_OUTCOME_BYTES in *.
  apply andb_true_iff. split; [apply andb_true_iff; split|].
  - apply bool_decide_eq_true. lia.
  - clear Hr. induction requirements as [|r rs IH]; [done|]. cbn [requirements_error forallb] in *.
    unfold requirement_error in Er. case_bool_decide as Hb; [done|]. destruct (contains_char NUL r) eqn:Enr; [done|].
    rewrite (IH Er). unfold label_is_bounded. rewrite Enr. unfold MAX_PLACEMENT_INTENT_REQUIREMENT_BYTES in Hb.
    by rewrite bool_decide_eq_true_2 by lia.
  - unfold label_is_bounded. rewrite En. by rewrite bool_decide_eq_true_2 by lia.
Qed.

(** ** Accounting for Intents *)

Section accounting.
  Context `{!SerdeJson SeerEnvelope} `{!SerdeJson NoProviderReply}
    `{!ToValue QueryBody} `{!FromValue AnswerBody}.

(** What no message changes. *)
Definition same_setup (d d' : Distributor) : Prop :=
  ds_self_node d' = ds_self_node d ∧ ds_local_advertisers d' = ds_local_advertisers d
  ∧ ds_peer_advertisers d' = ds_peer_advertisers d ∧ ds_self_realm d' = ds_self_realm d
  ∧ ds_peer_realm_advertisers d' = ds_peer_realm_advertisers d ∧ ds_model d' = ds_model d
  ∧ ds_max_pending d' = ds_max_pending d ∧ ds_me d' = ds_me d.

#[export] Instance same_setup_equiv : Equivalence same_setup.
Proof.
  unfold same_setup. split; [intros d; by split_and!|intros d d'; naive_solver|].
  intros d1 d2 d3 (?&?&?&?&?&?&?&?) (?&?&?&?&?&?&?&?). split_and!; congruence.
Qed.

(** The advertisers that a consult asks. *)
Definition advertisers (d : Distributor) : nat :=
  (length (ds_local_advertisers d) + length (ds_peer_advertisers d)
   + length (ds_peer_realm_advertisers d))%nat.

Lemma length_targets d o r : length (consult_targets d o r) = advertisers d.
Proof. unfold consult_targets, advertisers. rewrite !length_app, !length_map. lia. Qed.

(** A reply that refuses an Intent, and why. *)
Definition refusal_ok (d : Distributor) (env : Envelope) (reply : NoProviderReply) : Prop :=
  match np_reason reply with
  | IntentShapeRejected =>
      ∃ reason, validate_intent_shape (intent_fields env).1 (intent_fields env).2 = Err reason
        ∧ np_details reply = Some reason
  | reason =>
      (np_outcome reply, np_requirements reply) = intent_fields env
      ∧ match reason with
        | NoAdvertisers => advertisers d = 0%nat
        | EveryAdvertiserEmpty =>
            np_advertisers_answered reply = N.of_nat (advertisers d)
            ∧ np_advertisers_consulted reply = N.of_nat (advertisers d)
        | NotReady => ds_me d = None
        | _ => True
        end
  end.

(** How the Intent of consult [corr] is settled: by sending it on to an offer that
    was made on that consult, or by a refusal to its originator. *)
Inductive settles (d : Distributor) (offered : N → EmbodimentOffer → Prop) (corr : N) (env : Envelope)
    (out : Dispatch) : Prop :=
  | settles_placed o :
      offered corr o → placement_offer_shape_is_valid o = true →
      di_to out = target_addr d o → di_payload out = ev_payload env →
      di_schema out = hd_schema (ev_header env) → di_corr out = hd_corr (ev_header env) →
      di_reply_to out = Some (reply_target env) → settles d offered corr env out
  | settles_refused reply :
      di_to out = reply_target env → di_payload out = to_bytes reply →
      di_schema out = SCHEMA_NO_PROVIDER → di_corr out = hd_corr (ev_header env) →
      refusal_ok d env reply → settles d offered corr env out.

(** A query of the consult of an Intent. *)
Definition asks (d : Distributor) (news : list (N * Envelope)) (out : Dispatch) : Prop :=
  ∃ corr env i me to body, (corr, env) ∈ news ∧ ds_me d = Some me
    ∧ consult_targets d (intent_fields env).1 (intent_fields env).2 !! i = Some (to, body)
    ∧ out = query_dispatch corr (N.of_nat i + 1) (ACreature me) to body.

(** The Intents in flight. *)
Definition parked (d : Distributor) : list (N * Envelope) := map_to_list (pe_intent_env <$> ds_pending d).

(** The Intents that are new or parked are afterwards settled or parked, and what
    is sent settles an Intent or asks an advertiser about a new one. *)
Definition accounts (d0 : Distributor) (offered : N → EmbodimentOffer → Prop)
    (news : list (N * Envelope)) (d : Distributor) (out : list Dispatch) (d' : Distributor) : Prop :=
  ∃ (settled : list (N * Envelope * Dispatch)) queries,
    out ≡ₚ queries ++ settled.*2 ∧ news ++ parked d ≡ₚ settled.*1 ++ parked d'
    ∧ Forall (asks d0 news) queries ∧ Forall (fun x => settles d0 offered x.1.1 x.1.2 x.2) settled.

Lemma accounts_none d0 P d d' : parked d' = parked d → accounts d0 P [] d [] d'.
Proof. intros E. exists [], []. cbn. rewrite E. by split_and!. Qed.

Lemma asks_weaken d0 news news' : news ⊆ news' → ∀ out, asks d0 news out → asks d0 news' out.
Proof. intros Hs out (corr & env & i & me & to & body & Hin & H). exists corr, env, i, me, to, body. auto. Qed.

Lemma accounts_seq d0 P news1 news2 d out1 d1 out2 d2 :
  accounts d0 P news1 d out1 d1 → accounts d0 P news2 d1 out2 d2 →
  accounts d0 P (news1 ++ news2) d (out1 ++ out2) d2.
Proof.
  intros (s1 & q1 & O1 & N1 & A1 & S1) (s2 & q2 & O2 & N2 & A2 & S2).
  exists (s1 ++ s2), (q1 ++ q2). rewrite !fmap_app. split_and!.
  - rewrite O1, O2. solve_Permutation.
  - transitivity (news2 ++ news1 ++ parked d); [solve_Permutation|]. rewrite N1.
    transitivity (s1.*1 ++ news2 ++ parked d1); [solve_Permutation|]. rewrite N2. solve_Permutation.
  - apply Forall_app. split; [apply (Forall_impl _ _ _ A1)|apply (Forall_impl _ _ _ A2)];
      apply asks_weaken; intros y Hy; apply elem_of_app; auto.
  - by apply Forall_app.
Qed.

(** A placed Intent is the Intent, sent to the offer in the originator's name. *)
Lemma placed_fields d0 d env o :
  same_setup d0 d →
  di_to (placed_dispatch d env o) = target_addr d0 o ∧ di_payload (placed_dispatch d env o) = ev_payload env
  ∧ di_schema (placed_dispatch d env o) = hd_schema (ev_header env)
  ∧ di_corr (placed_dispatch d env o) = hd_corr (ev_header env)
  ∧ di_reply_to (placed_dispatch d env o) = Some (reply_target env).
Proof.
  intros (E1 & _ & _ & E2 & _).
  assert (target_addr d o = target_addr d0 o) as E by (unfold target_addr; by rewrite E1, E2).
  unfold placed_dispatch. destruct (hd_corr (ev_header env)); by split_and!.
Qed.

(** ** Steps *)

Section steps.
  Context (d0 : Distributor) (P : N → EmbodimentOffer → Prop).
  Hypothesis few : N.of_nat (advertisers d0) < 2 ^ 32.

(** A consult in flight. *)
Record pending_ok (corr : N) (p : Pending) : Prop := {
  po_expected : pe_expected p = N.of_nat (advertisers d0);
  po_answered : pe_answered p = N.of_nat (size (pe_answered_query_ids p));
  po_open : pe_answered p < pe_expected p;
  po_ids : ∀ i, i ∈ pe_answered_query_ids p → 1 ≤ i ∧ i ≤ pe_expected p;
  po_offers : Forall (fun o => P corr o ∧ placement_offer_shape_is_valid o = true) (pe_offers p)
}.

Definition distributor_ok (d : Distributor) : Prop :=
  same_setup d0 d ∧ map_Forall pending_ok (ds_pending d)
  ∧ (0 < ds_max_pending d → pending_consults d ≤ ds_max_pending d).

Lemma parked_delete d corr p :
  ds_pending d !! corr = Some p →
  parked d ≡ₚ (corr, pe_intent_env p) :: parked (on_pending (delete corr) d).
Proof.
  intros E. unfold parked. cbn. rewrite fmap_delete. symmetry. apply map_to_list_delete.
  by rewrite lookup_fmap, E.
Qed.

Lemma parked_insert d corr p :
  ds_pending d !! corr = None →
  parked (on_pending (insert corr p) d) ≡ₚ (corr, pe_intent_env p) :: parked d.
Proof.
  intros E. unfold parked. cbn. rewrite fmap_insert. apply map_to_list_insert. by rewrite lookup_fmap, E.
Qed.

Lemma parked_update d corr p p' :
  ds_pending d !! corr = Some p → pe_intent_env p' = pe_intent_env p →
  parked (on_pending (insert corr p') d) = parked d.
Proof.
  intros E Ep. unfold parked. cbn. rewrite fmap_insert, Ep, insert_id; [done|]. by rewrite lookup_fmap, E.
Qed.

Lemma ok_delete d corr : distributor_ok d → distributor_ok (on_pending (delete corr) d).
Proof.
  intros (S & F & B). split_and!; [done|by apply map_Forall_delete|]. intros Hm. specialize (B Hm).
  unfold pending_consults in *. cbn in *.
  pose proof (map_subseteq_size _ _ (delete_subseteq (ds_pending d) corr)). lia.
Qed.

(** One Intent settled, parked or new. *)
Lemma accounts_settle d corr env out d' :
  parked d ≡ₚ (corr, env) :: parked d' → settles d0 P corr env out → accounts d0 P [] d [out] d'.
Proof. intros E S. exists [(corr, env, out)], []. cbn. split_and!; [done|done|done|by constructor]. Qed.
Lemma accounts_new_settled corr env out d d' :
  parked d' = parked d → settles d0 P corr env out → accounts d0 P [(corr, env)] d [out] d'.
Proof.
  intros E S. exists [(corr, env, out)], []. cbn. rewrite E. split_and!; [done|done|done|by constructor].
Qed.

Lemma refuse_settles corr env o r consulted answered reason details :
  refusal_ok d0 env (mkNoProviderReply o r consulted answered reason details) →
  settles d0 P corr env (build_no_provider env o r consulted answered reason details).
Proof. intros H. by eapply settles_refused. Qed.

Lemma min_key_lookup (m : gmap N Pending) k : min_key m = Some k → is_Some (m !! k).
Proof.
  intros E. assert (k ∈ (map_to_list m).*1) as Hk.
  { unfold min_key in E. revert k E. induction (map_to_list m).*1 as [|j l IH]; cbn; intros k E; [done|].
    injection E as <-. destruct (foldr _ _ _) as [x|]; [|by left].
    destruct (N.min_spec j x) as [[_ ->]|[_ ->]]; [by left|right; by apply IH]. }
  apply list_elem_of_fmap in Hk as ([k' p] & -> & Hk). apply elem_of_map_to_list in Hk. by exists p.
Qed.
Lemma min_key_None (m : gmap N Pending) : min_key m = None → m = ∅.
Proof.
  unfold min_key. destruct (map_to_list m) as [|x l] eqn:E; [|done].
  by apply map_to_list_empty_iff in E.
Qed.

(** The table after an eviction has room for one consult. *)
Definition kept_keys (d d' : Distributor) : Prop :=
  ∀ k, is_Some (ds_pending d' !! k) → is_Some (ds_pending d !! k).

Lemma kept_delete d corr : kept_keys d (on_pending (delete corr) d).
Proof. intros k [x H]. cbn in H. apply lookup_delete_Some in H as [_ H]. by exists x. Qed.

Lemma evict_accounts d :
  distributor_ok d →
  let '(out, d') := evict_oldest d in
  accounts d0 P [] d out d' ∧ distributor_ok d' ∧ kept_keys d d'
  ∧ ds_next_consult_corr d' = ds_next_consult_corr d
  ∧ (0 < ds_max_pending d → pending_consults d' < ds_max_pending d).
Proof.
  intros O. unfold evict_oldest.
  destruct (_ && _) eqn:E.
  - to_prop. destruct (min_key (ds_pending d)) as [oldest|] eqn:Ek.
    + pose proof (min_key_lookup _ _ Ek) as [p Hp]. rewrite Hp.
      destruct (intent_fields (pe_intent_env p)) as [o r] eqn:Ef.
      split_and!; [|by apply ok_delete|apply kept_delete|done|].
      * eapply accounts_settle; [by apply parked_delete|]. apply refuse_settles. unfold refusal_ok. cbn. by rewrite Ef.
      * intros _. destruct O as (_ & _ & B). unfold pending_consults in *. cbn.
        assert (size (ds_pending d) ≠ 0%nat) by (intros Hz%map_size_empty_inv; by rewrite Hz, lookup_empty in Hp).
        rewrite map_size_delete_Some by (by exists p). lia.
    + apply min_key_None in Ek. unfold pending_consults in *. rewrite Ek, map_size_empty in *. lia.
  - split_and!; [by apply accounts_none|done|by intros k|done|]. intros Hm.
    apply andb_false_iff in E as [E|E]; to_prop; lia.
Qed.

(** The queries of a consult. *)
Lemma ask_advertisers_spec corr me ts e :
  e + N.of_nat (length ts) < 2 ^ 32 →
  ask_advertisers corr me ts e
  = (imap (fun i x => query_dispatch corr (e + N.of_nat i + 1) me x.1 x.2) ts, e + N.of_nat (length ts)).
Proof.
  revert e. induction ts as [|[to body] ts IH]; intros e He; cbn [ask_advertisers length] in *; [f_equal; lia|].
  assert (u32_incr e = e + 1) as -> by (unfold u32_incr; apply N.mod_small; lia).
  rewrite IH by lia. f_equal; [|lia]. cbn. f_equal; [f_equal; lia|].
  apply imap_ext. intros i x _. cbn. f_equal. lia.
Qed.

Lemma bump_setup d : same_setup d (bump_corr d).
Proof. by split_and!. Qed.
Lemma ok_bump d : distributor_ok d → distributor_ok (bump_corr d).
Proof. intros (S & F & B). split_and!; [by rewrite S|done|done]. Qed.

Lemma asks_consult d env me outcome requirements corr :
  same_setup d0 d → ds_me d = Some me → intent_fields env = (outcome, requirements) →
  ask_advertisers corr (ACreature me) (consult_targets d outcome requirements) 0
  = (imap (fun i x => query_dispatch corr (N.of_nat i + 1) (ACreature me) x.1 x.2)
       (consult_targets d0 outcome requirements), N.of_nat (advertisers d0))
  ∧ Forall (asks d0 [(corr, env)])
      (imap (fun i x => query_dispatch corr (N.of_nat i + 1) (ACreature me) x.1 x.2)
         (consult_targets d0 outcome requirements)).
Proof.
  intros S Hme Ef.
  assert (consult_targets d outcome requirements = consult_targets d0 outcome requirements) as Et.
  { destruct S as (_ & E1 & E2 & _ & E3 & _). unfold consult_targets. by rewrite E1, E2, E3. }
  split.
  - rewrite Et, ask_advertisers_spec by (rewrite length_targets; lia). by rewrite length_targets.
  - apply Forall_forall. intros q (i & Hq)%list_elem_of_lookup. rewrite list_lookup_imap in Hq.
    destruct (consult_targets d0 outcome requirements !! i) as [[to body]|] eqn:Ei; [|done].
    injection Hq as <-. exists corr, env, i, me, to, body. rewrite Ef. split_and!; [by left| |done|done].
    destruct S as (_ & _ & _ & _ & _ & _ & _ & Em). congruence.
Qed.

Definition fresh_key (d : Distributor) : Prop := ds_pending d !! ds_next_consult_corr d = None.

Lemma parks_intent d env corr out d1 queries :
  accounts d0 P [] d out d1 → ds_pending d1 !! corr = None →
  Forall (asks d0 [(corr, env)]) queries →
  accounts d0 P [(corr, env)] d (out ++ queries)
    (on_pending (insert corr (mkPending env (N.of_nat (advertisers d0)) 0 [] ∅)) d1).
Proof.
  intros A Hn Q. apply (accounts_seq d0 P [] [(corr, env)] d out d1 queries); [done|].
  exists [], queries. rewrite app_nil_r, parked_insert by done. by split_and!.
Qed.

Lemma ok_insert d corr env :
  distributor_ok d → ds_pending d !! corr = None → advertisers d0 ≠ 0%nat →
  (0 < ds_max_pending d → pending_consults d < ds_max_pending d) →
  distributor_ok (on_pending (insert corr (mkPending env (N.of_nat (advertisers d0)) 0 [] ∅)) d).
Proof.
  intros (S & F & _) Hn Ha Hm. split_and!; [done| |].
  - apply map_Forall_insert_2; [|done]. split; cbn; [done| |lia|by intros i ?%elem_of_empty|constructor].
    by rewrite size_empty.
  - cbn. intros Hp. specialize (Hm Hp). unfold pending_consults in *. cbn.
    rewrite map_size_insert_None by done. lia.
Qed.

Lemma intent_accounts env i d :
  distributor_ok d → hd_to (ev_header env) = AIntent i → fresh_key d →
  let '(o, d') := on_intent env d in
  accounts d0 P [(ds_next_consult_corr d, env)] d (out_dispatches o) d' ∧ distributor_ok d'
  ∧ ds_next_consult_corr d' = u64_incr (ds_next_consult_corr d)
  ∧ ∀ k, is_Some (ds_pending d' !! k) → k = ds_next_consult_corr d ∨ is_Some (ds_pending d !! k).
Proof.
  intros O Hto Hf. assert (intent_fields env = (in_outcome i, in_requirements i)) as Ef
    by (unfold intent_fields; by rewrite Hto).
  unfold on_intent. rewrite Hto. destruct i as [outcome requirements]. cbn in Ef.
  destruct (validate_intent_shape outcome requirements) as [[]|reason] eqn:Ev; cycle 1.
  { destruct (rejected_intent_echo outcome requirements) as [oe re].
    split_and!; [|by apply ok_bump|done|by right]. apply accounts_new_settled; [done|].
    apply refuse_settles. exists reason. by rewrite Ef. }
  cbn [bump_corr ds_me]. destruct (ds_me d) as [me|] eqn:Hme; cycle 1.
  { split_and!; [|by apply ok_bump|done|by right]. apply accounts_new_settled; [done|].
    apply refuse_settles. unfold refusal_ok. cbn. rewrite Ef. split; [done|].
    destruct O as ((_&_&_&_&_&_&_&Em) & _). congruence. }
  pose proof (evict_accounts (bump_corr d) (ok_bump d O)) as Hev. fold (bump_corr d).
  destruct (evict_oldest (bump_corr d)) as [ev d1]. destruct Hev as (A & O1 & K & Hn & Hroom).
  assert (ds_pending d1 !! ds_next_consult_corr d = None) as Hf1.
  { destruct (ds_pending d1 !! _) eqn:E; [|done]. destruct (K (ds_next_consult_corr d)) as [x Hx]; [by eexists|].
    unfold fresh_key in Hf. cbn in Hx. congruence. }
  assert (accounts d0 P [] d ev d1) as A' by exact A.
  assert (ds_me d1 = Some me) as Hme1.
  { destruct O as ((_&_&_&_&_&_&_&Em) & _), O1 as ((_&_&_&_&_&_&_&Em1) & _). congruence. }
  destruct (asks_consult d1 env me outcome requirements (ds_next_consult_corr d) (proj1 O1) Hme1 Ef) as [-> Q].
  case_bool_decide as Ha.
  - assert (advertisers d0 = 0%nat) as Hz by lia.
    assert (consult_targets d0 outcome requirements = []) as ->
      by (apply nil_length_inv; by rewrite length_targets).
    split_and!; [|done|done|intros k Hk; right; by apply K].
    apply (accounts_seq d0 P [] [(ds_next_consult_corr d, env)] d ev d1); [done|].
    apply accounts_new_settled; [done|]. apply refuse_settles. unfold refusal_ok. cbn. by rewrite Ef.
  - split_and!; [by apply parks_intent| |done|].
    + apply ok_insert; [done|done|lia|]. destruct O1 as ((_&_&_&_&_&_&E1&_) & _), O as ((_&_&_&_&_&_&E0&_) & _).
      rewrite E1, <- E0. exact Hroom.
    + intros k [x Hk]. cbn in Hk. apply lookup_insert_Some in Hk as [[<- _]|[_ Hk]]; [by left|].
      right. apply K. by exists x.
Qed.

Lemma placed_settles d corr env o :
  same_setup d0 d → P corr o → placement_offer_shape_is_valid o = true →
  settles d0 P corr env (placed_dispatch d env o).
Proof.
  intros S HP Hv. destruct (placed_fields d0 d env o S) as (F1 & F2 & F3 & F4 & F5).
  by apply (settles_placed d0 P corr env _ o).
Qed.

Lemma reconcile_settles p corr d :
  distributor_ok d → Forall (fun o => P corr o ∧ placement_offer_shape_is_valid o = true) (pe_offers p) →
  pe_expected p = N.of_nat (advertisers d0) → (pe_offers p = [] → pe_answered p = pe_expected p) →
  let '(o, d') := reconcile_consult p d in
  ∃ out, out_dispatches o = [out] ∧ settles d0 P corr (pe_intent_env p) out
    ∧ distributor_ok d' ∧ ds_pending d' = ds_pending d ∧ ds_next_consult_corr d' = ds_next_consult_corr d.
Proof.
  intros O F He Ha. unfold reconcile_consult. destruct (intent_fields (pe_intent_env p)) as [o r] eqn:Ef.
  destruct (pe_offers p) as [|first offers] eqn:Eo.
  - eexists. split_and!; [done| |done|done|done]. apply refuse_settles. unfold refusal_ok. cbn.
    rewrite Ef. rewrite Ha, He by done. done.
  - rewrite Forall_forall in F.
    assert (∀ j, default first ((first :: offers) !! j) ∈ first :: offers) as Hin.
    { intros j. destruct ((first :: offers) !! j) eqn:Ej; [by eapply list_elem_of_lookup_2|by left]. }
    destruct (ds_model d); eexists; (split_and!; [done| |try done|done|done]).
    + destruct (F _ (Hin (N.to_nat 0))). apply placed_settles; [apply O|done..].
    + destruct (F _ (Hin (N.to_nat (ds_rr_cursor d `mod` N.of_nat (length (first :: offers)))))).
      apply placed_settles; [apply O|done..].
Qed.

(** A consult after one more answer. *)
Definition answered_once (p : Pending) (query_id : N) (matches : list EmbodimentOffer) : Pending :=
  mkPending (pe_intent_env p) (pe_expected p) (u32_saturating_incr (pe_answered p)) (pe_offers p ++ matches)
    ({[query_id]} ∪ pe_answered_query_ids p).

Lemma answered_count p corr query_id matches :
  pending_ok corr p → query_id ∉ pe_answered_query_ids p →
  pe_answered (answered_once p query_id matches) = pe_answered p + 1
  ∧ pe_answered p + 1 = N.of_nat (size ({[query_id]} ∪ pe_answered_query_ids p)).
Proof.
  intros [E1 E2 E3 _ _] Hq. split.
  - cbn. unfold u32_saturating_incr, u32_MAX. lia.
  - rewrite size_union by set_solver. rewrite size_singleton. lia.
Qed.

Lemma ok_answered p corr query_id matches :
  pending_ok corr p → query_id ∉ pe_answered_query_ids p → 1 ≤ query_id → query_id ≤ pe_expected p →
  Forall (fun o => P corr o ∧ placement_offer_shape_is_valid o = true) matches →
  pe_answered p + 1 < pe_expected p → pending_ok corr (answered_once p query_id matches).
Proof.
  intros O Hq H1 H2 F Hlt. pose proof (answered_count p corr query_id matches O Hq) as [Ea Es].
  destruct O as [E1 E2 E3 E4 E5]. split; [done|by rewrite Ea|by rewrite Ea| |by apply Forall_app].
  cbn. intros i [->%elem_of_singleton|Hi]%elem_of_union; [done|by apply E4].
Qed.

Lemma answer_accounts corr query_id body d :
  distributor_ok d →
  (∀ answer o, from_value body = Ok answer → o ∈ ab_matches answer → P corr o) →
  let '(o, d') := on_answer corr query_id body d in
  accounts d0 P [] d (out_dispatches o) d' ∧ distributor_ok d' ∧ kept_keys d d'
  ∧ ds_next_consult_corr d' = ds_next_consult_corr d.
Proof.
  intros O HP. unfold on_answer.
  assert (accounts d0 P [] d (out_dispatches Outcome_none) d ∧ distributor_ok d ∧ kept_keys d d
          ∧ ds_next_consult_corr d = ds_next_consult_corr d) as Hnone
    by (split_and!; [by apply accounts_none|done|by intros k|done]).
  destruct (ds_pending d !! corr) as [p|] eqn:Hp; [|done].
  destruct (_ || _) eqn:Eid; [done|]. to_prop. case_bool_decide as Hin; [done|].
  destruct (from_value body) as [answer|] eqn:Eb; [|done].
  destruct (retain_valid_answer_matches _) as [matches|] eqn:Em; [|done].
  pose proof (proj1 (proj2 O) corr p Hp) as Op.
  assert (Forall (fun o => P corr o ∧ placement_offer_shape_is_valid o = true) matches) as F.
  { unfold retain_valid_answer_matches in Em. case_bool_decide; [done|]. injection Em as <-.
    apply Forall_forall. intros o [Ho Hv]%list_elem_of_In%filter_In. split; [|done].
    eapply HP; [done|by apply list_elem_of_In]. }
  pose proof (answered_count p corr query_id matches Op Hin) as [Ea _].
  fold (answered_once p query_id matches). pose proof Op as [E1 E2 E3 E4 E5].
  destruct (_ || bool_decide (_ ≤ _)) eqn:Er.
  - pose proof (reconcile_settles (answered_once p query_id matches) corr (on_pending (delete corr) d)
      (ok_delete d corr O) ltac:(by apply Forall_app) E1) as R.
    destruct (reconcile_consult _ _) as [o d']. destruct R as (out & -> & S & O' & Ed & En).
    { intros Hnil. rewrite Ea. cbn. apply orb_true_iff in Er as [Er|Er]; to_prop; [done|]. rewrite Ea in *. cbn in *. lia. }
    split_and!; [|done| |done].
    + apply (accounts_settle d corr (pe_intent_env p) out d'); [|exact S].
      rewrite (parked_delete d corr p Hp). unfold parked. by rewrite Ed.
    + intros k Hk. rewrite Ed in Hk. by apply (kept_delete d corr).
  - to_prop. rewrite Ea in *. cbn in *. split_and!; [apply accounts_none; by eapply parked_update| | |done].
    + destruct O as (S & Fp & B). split_and!; [done| |].
      * apply map_Forall_insert_2; [|done]. apply ok_answered; [done|done|lia|lia|done|lia].
      * cbn. unfold pending_consults in *. cbn. by rewrite map_size_insert_Some.
    + intros k [x Hk]. cbn in Hk. apply lookup_insert_Some in Hk as [[<- _]|[_ Hk]]; [by exists p|by exists x].
Qed.

Lemma abort_accounts corr d :
  distributor_ok d →
  let '(o, d') := on_steer_abort corr d in
  accounts d0 P [] d (out_dispatches o) d' ∧ distributor_ok d' ∧ kept_keys d d'
  ∧ ds_next_consult_corr d' = ds_next_consult_corr d.
Proof.
  intros O. unfold on_steer_abort. destruct (ds_pending d !! corr) as [p|] eqn:Hp.
  - destruct (intent_fields (pe_intent_env p)) as [o r] eqn:Ef.
    split_and!; [|by apply ok_delete|apply kept_delete|done].
    eapply accounts_settle; [by apply parked_delete|]. apply refuse_settles. unfold refusal_ok. cbn.
    by rewrite Ef.
  - split_and!; [by apply accounts_none|done|by intros k|done].
Qed.

(** The offers that a message brings on a consult. *)
Definition offers_on (env : Envelope) (corr : N) (o : EmbodimentOffer) : Prop :=
  ∃ query_id body answer, hd_schema (ev_header env) = SEER_SCHEMA
    ∧ seer_parse_bounded (ev_payload env) = Ok (mkSeerEnvelope Placement corr (Answer query_id body))
    ∧ from_value body = Ok answer ∧ o ∈ ab_matches answer.

Lemma seer_accounts env d :
  distributor_ok d → hd_schema (ev_header env) = SEER_SCHEMA → (∀ corr o, offers_on env corr o → P corr o) →
  let '(o, d') := distributor_on_seer env d in
  accounts d0 P [] d (out_dispatches o) d' ∧ distributor_ok d' ∧ kept_keys d d'
  ∧ ds_next_consult_corr d' = ds_next_consult_corr d.
Proof.
  intros O Hs HP. unfold distributor_on_seer.
  assert (accounts d0 P [] d (out_dispatches Outcome_none) d ∧ distributor_ok d ∧ kept_keys d d
          ∧ ds_next_consult_corr d = ds_next_consult_corr d) as Hnone
    by (split_and!; [by apply accounts_none|done|by intros k|done]).
  destruct (seer_parse_bounded (ev_payload env)) as [[topic corr kind]|] eqn:Ep; [|done]. cbn.
  case_bool_decide as Ht; [done|]. subst topic.
  destruct kind as [ | query_id body | kind payload | | ]; try done.
  - apply answer_accounts; [done|]. intros answer o Hb Ho. apply HP. by exists query_id, body, answer.
  - case_bool_decide; [by apply abort_accounts|done].
Qed.
End steps.

(** ** Histories *)

Fixpoint distributor_run (envs : list Envelope) (d : Distributor) : list Dispatch * Distributor :=
  match envs with
  | [] => ([], d)
  | env :: envs =>
      let '(o, d1) := distributor_handle env d in
      let '(out, d2) := distributor_run envs d1 in
      (out_dispatches o ++ out, d2)
  end.

(** The Intents of a history with the consult that each is given. *)
Fixpoint consults (next : N) (envs : list Envelope) : list (N * Envelope) :=
  match envs with
  | [] => []
  | env :: envs =>
      match hd_to (ev_header env) with
      | AIntent _ => (next, env) :: consults (u64_incr next) envs
      | _ => consults next envs
      end
  end.

(** Consults are numbered from a seed, and keys are of the numbers given so far. *)
Definition numbered (seed n : N) (d : Distributor) : Prop :=
  ds_next_consult_corr d = (seed + n) `mod` 2 ^ 64
  ∧ ∀ k, is_Some (ds_pending d !! k) → ∃ i, i < n ∧ k = (seed + i) `mod` 2 ^ 64.

Lemma numbered_fresh seed n d : n < 2 ^ 64 → numbered seed n d → fresh_key d.
Proof.
  intros Hn [E K]. unfold fresh_key. destruct (ds_pending d !! _) eqn:Hk; [|done].
  destruct (K (ds_next_consult_corr d)) as (i & Hi & Ei); [by eexists|]. rewrite E in Ei. exfalso.
  pose proof (N.div_mod' (seed + n) (2 ^ 64)). pose proof (N.div_mod' (seed + i) (2 ^ 64)).
  rewrite Ei in *. nia.
Qed.

Lemma numbered_kept seed n d d' :
  numbered seed n d → kept_keys d d' → ds_next_consult_corr d' = ds_next_consult_corr d → numbered seed n d'.
Proof. intros [E K] Hk En. split; [congruence|]. intros k H. by apply K, Hk. Qed.

Lemma numbered_next seed n d d' :
  numbered seed n d → ds_next_consult_corr d' = u64_incr (ds_next_consult_corr d) →
  (∀ k, is_Some (ds_pending d' !! k) → k = ds_next_consult_corr d ∨ is_Some (ds_pending d !! k)) →
  numbered seed (n + 1) d'.
Proof.
  intros [E K] En Hk. split.
  - rewrite En, E. unfold u64_incr. rewrite N.Div0.add_mod_idemp_l. f_equal. lia.
  - intros k [->|H]%Hk; [exists n; split; [lia|done]|]. destruct (K k H) as (i & Hi & ->). exists i. split; [lia|done].
Qed.

Definition next_after (env : Envelope) (next : N) : N :=
  match hd_to (ev_header env) with AIntent _ => u64_incr next | _ => next end.

Lemma handle_accounts d0 P env d :
  N.of_nat (advertisers d0) < 2 ^ 32 → distributor_ok d0 P d →
  (∀ i, hd_to (ev_header env) = AIntent i → fresh_key d) → (∀ corr o, offers_on env corr o → P corr o) →
  let '(o, d') := distributor_handle env d in
  accounts d0 P (consults (ds_next_consult_corr d) [env]) d (out_dispatches o) d' ∧ distributor_ok d0 P d'
  ∧ ds_next_consult_corr d' = next_after env (ds_next_consult_corr d)
  ∧ ∀ seed n, numbered seed n d → numbered seed (n + N.of_nat (length (consults 0 [env]))) d'.
Proof.
  intros few O Hf HP. unfold distributor_handle, next_after. cbn [consults].
  destruct (hd_to (ev_header env)) as [ | | | | | |i| | ] eqn:Hto.
  7: { pose proof (intent_accounts d0 P few env i d O Hto (Hf i eq_refl)) as H.
       destruct (on_intent env d) as [o d']. destruct H as (A & O' & En & K).
       split_and!; [done|done|done|]. intros seed n Hn. by apply (numbered_next _ _ d). }
  all: cbn [length N.of_nat]; case_bool_decide as Hs;
    [pose proof (seer_accounts d0 P few env d O Hs HP) as H;
       destruct (distributor_on_seer env d) as [o d']; destruct H as (A & O' & K & En);
       split_and!; [done|done|done|intros seed n Hn; rewrite N.add_0_r; by apply (numbered_kept _ _ d)]
    |split_and!; [by apply accounts_none|done|done|intros seed n Hn; by rewrite N.add_0_r]].
Qed.

Lemma consults_cons next env envs :
  consults next (env :: envs)
  = consults next [env] ++ consults (next_after env next) envs.
Proof. unfold next_after. cbn. by destruct (hd_to (ev_header env)). Qed.
Lemma consults_length next next' envs : length (consults next envs) = length (consults next' envs).
Proof.
  revert next next'. induction envs as [|env envs IH]; intros next next'; [done|]. cbn.
  destruct (hd_to (ev_header env)); cbn; auto.
Qed.

Lemma run_accounts d0 P seed envs d n :
  N.of_nat (advertisers d0) < 2 ^ 32 → distributor_ok d0 P d → numbered seed n d →
  n + N.of_nat (length (consults 0 envs)) ≤ 2 ^ 64 →
  (∀ env corr o, env ∈ envs → offers_on env corr o → P corr o) →
  let '(out, d') := distributor_run envs d in
  accounts d0 P (consults (ds_next_consult_corr d) envs) d out d' ∧ distributor_ok d0 P d'.
Proof.
  intros few. revert d n. induction envs as [|env envs IH]; intros d n O Hn Hc HP; cbn [distributor_run].
  { split; [by apply accounts_none|done]. }
  rewrite consults_cons, length_app, (consults_length _ 0 envs) in Hc. rewrite consults_cons.
  pose proof (handle_accounts d0 P env d few O) as H.
  destruct (distributor_handle env d) as [o d1]. destruct H as (A & O1 & En & Hn1).
  { intros i Hi. apply (numbered_fresh seed n); [|done]. cbn in Hc. rewrite Hi in Hc. cbn in Hc. lia. }
  { intros corr o'. apply HP. by left. }
  pose proof (IH d1 _ O1 (Hn1 seed n Hn) ltac:(lia) (fun e corr o' He => HP e corr o' ltac:(by right))) as R.
  destruct (distributor_run envs d1) as [out d2]. destruct R as [A2 O2]. split; [|done].
  rewrite <- En. by eapply accounts_seq.
Qed.

Lemma consults_numbers seed n envs :
  (consults ((seed + n) `mod` 2 ^ 64) envs).*1
  = map (fun i => (seed + (n + N.of_nat i)) `mod` 2 ^ 64) (seq 0 (length (consults 0 envs))).
Proof.
  revert n. induction envs as [|env envs IH]; intros n; [done|].
  rewrite (consults_cons _ env envs), (consults_cons 0 env envs), fmap_app, length_app.
  unfold next_after. cbn [consults]. destruct (hd_to (ev_header env)); try apply IH.
  assert (u64_incr ((seed + n) `mod` 2 ^ 64) = (seed + (n + 1)) `mod` 2 ^ 64) as ->.
  { unfold u64_incr. by rewrite N.Div0.add_mod_idemp_l, N.add_assoc. }
  rewrite IH, (consults_length (u64_incr 0) 0). clear IH. generalize (2 ^ 64). intros M.
  cbn [fmap list_fmap length app seq map Nat.add]. rewrite <- seq_shift, map_map. cbn [fst].
  rewrite N.add_0_r. f_equal. apply map_ext. intros i. do 2 f_equal. lia.
Qed.

Lemma consults_distinct seed envs :
  N.of_nat (length (consults 0 envs)) ≤ 2 ^ 64 → seed < 2 ^ 64 → NoDup (consults seed envs).*1.
Proof.
  intros Hc Hs. rewrite <- (N.mod_small seed (2 ^ 64)) by done. rewrite <- (N.add_0_r seed).
  rewrite consults_numbers. apply NoDup_ListNoDup, NoDup_map_NoDup_ForallPairs; [|apply seq_NoDup].
  intros i j Hi%in_seq Hj%in_seq E.
  pose proof (N.div_mod' (seed + (0 + N.of_nat i)) (2 ^ 64)). pose proof (N.div_mod' (seed + (0 + N.of_nat j)) (2 ^ 64)).
  rewrite E in *. lia.
Qed.
End accounting.

(** ** A consult *)

Section consult.
  Context `{!SerdeJson SeerEnvelope} `{!SerdeJson NoProviderReply}
    `{!ToValue QueryBody} `{!FromValue QueryBody} `{!ToValue AnswerBody} `{!FromValue AnswerBody}.

(** An envelope that brings a dispatch to a creature. *)
Definition carried (env : Envelope) (d : Dispatch) : Prop :=
  ev_payload env = di_payload d ∧ hd_schema (ev_header env) = di_schema d
  ∧ ∀ i, hd_to (ev_header env) ≠ AIntent i.

(** A message that its receiver reads, and a body that reads back. *)
Definition legible (seer : SeerEnvelope) : Prop :=
  reads_back seer ∧ blen (to_bytes seer) ≤ MAX_SEER_ENVELOPE_BYTES.
Definition value_reads_back {T} `{!ToValue T} `{!FromValue T} (x : T) : Prop :=
  from_value (wire_to_value x) = Ok x.

Lemma legible_parses seer : legible seer → seer_parse_bounded (to_bytes seer) = Ok seer.
Proof.
  intros [R L]. unfold seer_parse_bounded, seer_parse_with_limit.
  rewrite bool_decide_eq_false_2 by lia. by rewrite R.
Qed.

(** The answer of an advertiser to a query. *)
Definition answer_dispatch (env : Envelope) (corr query_id : N) (answer : AnswerBody) : Dispatch :=
  with_corr (with_schema (reply_to_env env (to_bytes (seer_answer Placement corr query_id answer))) SEER_SCHEMA) corr.

Lemma advertiser_answers env a corr query_id reply_to to body :
  carried env (query_dispatch corr query_id reply_to to body) →
  legible (seer_query Placement corr query_id body) → value_reads_back body →
  query_shape_is_valid body = true →
  advertiser_handle env a = Outcome_send (answer_dispatch env corr query_id (match_offers a body)).
Proof.
  intros (Ep & Es & _) L V Hq. unfold advertiser_handle, respond_query, respond_query_corr, classify.
  rewrite Ep, Es. cbn [query_dispatch with_reply_to with_corr with_schema Dispatch_to di_payload di_schema].
  rewrite bool_decide_eq_false_2 by (intros n; by apply n). rewrite legible_parses by done.
  cbn [seer_query se_topic se_kind se_corr]. rewrite bool_decide_eq_false_2 by (intros n; by apply n).
  cbn [seer_query se_kind se_corr]. rewrite V, Hq. done.
Qed.

Lemma distributor_reads e env corr query_id answer d :
  carried e (answer_dispatch env corr query_id answer) → legible (seer_answer Placement corr query_id answer) →
  distributor_handle e d = on_answer corr query_id (wire_to_value answer) d.
Proof.
  intros (Ep & Es & Ht) L. unfold distributor_handle, distributor_on_seer.
  rewrite Ep, Es. cbn [answer_dispatch with_corr with_schema reply_to_env di_payload di_schema].
  rewrite legible_parses by done. cbn [seer_answer se_topic se_kind se_corr].
  rewrite bool_decide_eq_true_2, bool_decide_eq_false_2 by (done || (intros n; by apply n)).
  destruct (hd_to (ev_header e)) eqn:E; try done. by destruct (Ht _ eq_refl).
Qed.

(** What an answer that the consult still waits for does. *)
Lemma answer_counts corr query_id answer matches d p :
  value_reads_back answer → retain_valid_answer_matches (ab_matches answer) = Some matches →
  ds_pending d !! corr = Some p → 1 ≤ query_id → query_id ≤ pe_expected p →
  query_id ∉ pe_answered_query_ids p →
  let p' := answered_once p query_id matches in
  on_answer corr query_id (wire_to_value answer) d
  = if (match ds_model d with FirstFit => true | RoundRobin => false end && bool_decide (pe_offers p' ≠ []))
       || bool_decide (pe_expected p' ≤ pe_answered p')
    then reconcile_consult p' (on_pending (delete corr) d)
    else (Outcome_none, on_pending (insert corr p') d).
Proof.
  intros V M Hp H1 H2 Hn. unfold on_answer. rewrite Hp.
  rewrite (bool_decide_eq_false_2 (query_id = 0)) by lia.
  rewrite (bool_decide_eq_false_2 (pe_expected p < query_id)) by lia.
  rewrite (bool_decide_eq_false_2 (query_id ∈ _)) by done. cbn [orb]. by rewrite V, M.
Qed.

Lemma answer_ignored corr query_id body d p :
  ds_pending d !! corr = Some p → query_id ∈ pe_answered_query_ids p →
  on_answer corr query_id body d = (Outcome_none, d).
Proof.
  intros Hp Hi. unfold on_answer. rewrite Hp. destruct (_ || _); [done|]. by rewrite bool_decide_eq_true_2.
Qed.

Lemma answer_late corr query_id body d : ds_pending d !! corr = None → on_answer corr query_id body d = (Outcome_none, d).
Proof. intros Hp. unfold on_answer. by rewrite Hp. Qed.

(** *** Counting the answers *)

Definition query_ids (n : nat) : gset N := list_to_set (map (fun i => N.of_nat i + 1) (seq 0 n)).

Lemma elem_query_ids n k : k ∈ query_ids n ↔ ∃ i, (i < n)%nat ∧ k = N.of_nat i + 1.
Proof.
  unfold query_ids. rewrite elem_of_list_to_set, list_elem_of_fmap. split.
  - intros (i & -> & Hi%elem_of_seq). exists i. split; [lia|done].
  - intros (i & Hi & ->). exists i. split; [done|]. apply elem_of_seq. lia.
Qed.
Lemma size_query_ids n : size (query_ids n) = n.
Proof.
  unfold query_ids. rewrite size_list_to_set; [by rewrite length_map, length_seq|].
  apply NoDup_fmap_2; [intros i j; lia|]. apply NoDup_ListNoDup, seq_NoDup.
Qed.

Section progress.
  Context (d : Distributor) (corr : N) (env : Envelope) (answers : list AnswerBody).
  Hypothesis readable : Forall value_reads_back answers.
  Hypothesis retained : Forall (fun a => retain_valid_answer_matches (ab_matches a) = Some (ab_matches a)) answers.
  Hypothesis few : N.of_nat (length answers) < 2 ^ 32.

(** A consult that has heard some of the answers. *)
Record heard (p : Pending) : Prop := {
  he_env : pe_intent_env p = env;
  he_expected : pe_expected p = N.of_nat (length answers);
  he_answered : pe_answered p = N.of_nat (size (pe_answered_query_ids p));
  he_ids : ∀ k, k ∈ pe_answered_query_ids p →
    ∃ i a, answers !! i = Some a ∧ k = N.of_nat i + 1 ∧ ab_matches a ⊆ pe_offers p;
  he_offers : ∀ o, o ∈ pe_offers p → ∃ i a, answers !! i = Some a ∧ o ∈ ab_matches a
}.

Lemma heard_ids p : heard p → pe_answered_query_ids p ⊆ query_ids (length answers).
Proof.
  intros Hh k Hk. destruct (he_ids p Hh k Hk) as (i & a & Ha & -> & _).
  apply elem_query_ids. exists i. split; [by eapply lookup_lt_Some|done].
Qed.

Lemma heard_all p i :
  heard p → N.of_nat (length answers) ≤ pe_answered p → (i < length answers)%nat →
  N.of_nat i + 1 ∈ pe_answered_query_ids p.
Proof.
  intros Hh Hn Hi. pose proof (heard_ids p Hh) as Hs. rewrite (he_answered p Hh) in Hn.
  rewrite (set_subseteq_size_eq _ _ Hs) by (rewrite size_query_ids; lia). apply elem_query_ids. by exists i.
Qed.

Lemma heard_open p :
  heard p → pe_answered p < N.of_nat (length answers) →
  ¬ ∀ i, (i < length answers)%nat → N.of_nat i + 1 ∈ pe_answered_query_ids p.
Proof.
  intros Hh Hn Ha. assert (query_ids (length answers) ⊆ pe_answered_query_ids p) as Hs%subseteq_size.
  { intros k (j & Hj & ->)%elem_query_ids. by apply Ha. }
  rewrite size_query_ids in Hs. rewrite (he_answered p Hh) in Hn. lia.
Qed.

Lemma heard_once p i a :
  heard p → pe_answered p < N.of_nat (length answers) → answers !! i = Some a →
  N.of_nat i + 1 ∉ pe_answered_query_ids p →
  heard (answered_once p (N.of_nat i + 1) (ab_matches a))
  ∧ pe_answered (answered_once p (N.of_nat i + 1) (ab_matches a)) = pe_answered p + 1.
Proof.
  intros Hh Hn Ha Hi. destruct Hh as [E1 E2 E3 E4 E5].
  assert (u32_saturating_incr (pe_answered p) = pe_answered p + 1) as Es
    by (unfold u32_saturating_incr, u32_MAX; lia).
  split; [|done]. split; cbn; [done|done| | |].
  - rewrite Es, size_union by set_solver. rewrite size_singleton. lia.
  - intros k [->%elem_of_singleton|Hk]%elem_of_union.
    + exists i, a. split_and!; [done|done|set_solver].
    + destruct (E4 k Hk) as (j & b & Hb & -> & Hs). exists j, b. split_and!; [done|done|set_solver].
  - intros o [Ho|Ho]%elem_of_app; [by apply E5|by exists i, a].
Qed.

(** How the consult ends. *)
Definition concluded (out : Dispatch) : Prop :=
  (∃ i a o, answers !! i = Some a ∧ o ∈ ab_matches a
     ∧ di_to out = target_addr d o ∧ di_payload out = ev_payload env
     ∧ di_schema out = hd_schema (ev_header env) ∧ di_corr out = hd_corr (ev_header env)
     ∧ di_reply_to out = Some (reply_target env))
  ∨ (∀ i a, answers !! i = Some a → ab_matches a = [])
    ∧ out = build_no_provider env (intent_fields env).1 (intent_fields env).2 (N.of_nat (length answers))
              (N.of_nat (length answers)) EveryAdvertiserEmpty None.

Lemma heard_concludes p d' :
  heard p → same_setup d d' →
  (pe_offers p = [] → pe_answered p = N.of_nat (length answers)) →
  let '(o, d2) := reconcile_consult p d' in
  ∃ out, out_dispatches o = [out] ∧ concluded out ∧ ds_pending d2 = ds_pending d'.
Proof.
  intros Hh S Hn. unfold reconcile_consult. pose proof Hh as [E1 E2 E3 E4 E5]. rewrite E1.
  destruct (intent_fields env) as [oc rq] eqn:Ef. destruct (pe_offers p) as [|first rest] eqn:Eo.
  - eexists. split_and!; [done| |done]. right. rewrite E2, (Hn eq_refl). split; [|by rewrite Ef].
    intros i a Ha. destruct (E4 (N.of_nat i + 1)) as (j & b & Hb & Ej & Hs).
    { apply heard_all; [done|by rewrite Hn|by eapply lookup_lt_Some]. }
    replace j with i in Hb by lia. rewrite Ha in Hb. injection Hb as <-. by apply list_nil_subseteq in Hs.
  - assert (∀ j, default first ((first :: rest) !! j) ∈ first :: rest) as Hin.
    { intros j. destruct ((first :: rest) !! j) eqn:Ej; [by eapply list_elem_of_lookup_2|by left]. }
    destruct (ds_model d'); eexists; (split_and!; [done| |done]); left.
    + destruct (E5 _ (Hin (N.to_nat 0))) as (i & a & Ha & Ho). exists i, a. eexists.
      split_and!; [done|exact Ho|apply (placed_fields d d'); done..].
    + destruct (E5 _ (Hin (N.to_nat (ds_rr_cursor d' `mod` N.of_nat (length (first :: rest)))))) as (i & a & Ha & Ho).
      exists i, a. eexists. split_and!; [done|exact Ho|apply (placed_fields d (bump_cursor d')); done..].
Qed.

(** Envelopes that are read as the given answers. *)
Definition brings_answers (idx : list nat) (events : list Envelope) : Prop :=
  Forall2 (fun i e => ∃ a, answers !! i = Some a
             ∧ ∀ d', distributor_handle e d' = on_answer corr (N.of_nat i + 1) (wire_to_value a) d') idx events.

Lemma late_answers idx events d' :
  brings_answers idx events → ds_pending d' !! corr = None → distributor_run events d' = ([], d').
Proof.
  intros F Hp. induction F as [|i e idx events (a & _ & Hd) F IH]; [done|]. cbn.
  rewrite Hd, answer_late by done. by rewrite IH.
Qed.
Lemma consult_runs idx events p d' :
  brings_answers idx events → heard p → pe_answered p < N.of_nat (length answers) →
  ds_pending d' !! corr = Some p → same_setup d d' →
  (∀ i, (i < length answers)%nat → N.of_nat i + 1 ∈ pe_answered_query_ids p ∨ i ∈ idx) →
  ∃ out d2, distributor_run events d' = ([out], d2) ∧ concluded out ∧ ds_pending d2 !! corr = None.
Proof.
  intros F. revert p d'. induction F as [|i e idx events (a & Ha & Hd) F IH]; intros p d' Hh Hlt Hp S Hall.
  { destruct (heard_open p Hh Hlt). intros i Hi. destruct (Hall i Hi) as [|?%not_elem_of_nil]; done. }
  cbn [distributor_run]. rewrite Hd.
  destruct (decide (N.of_nat i + 1 ∈ pe_answered_query_ids p)) as [Hi|Hi].
  { rewrite (answer_ignored corr _ _ d' p Hp Hi). destruct (IH p d' Hh Hlt Hp S) as (out & d2 & R & C).
    - intros j Hj. destruct (Hall j Hj) as [|[->|]%elem_of_cons]; auto.
    - exists out, d2. by rewrite R. }
  destruct (heard_once p i a Hh Hlt Ha Hi) as [Hh' Ea].
  pose proof (lookup_lt_Some _ _ _ Ha) as Hlen. pose proof (he_expected p Hh) as Ee.
  rewrite (answer_counts corr _ a (ab_matches a) d' p);
    [|by eapply (Forall_lookup_1 _ _ _ _ readable)|by apply (Forall_lookup_1 _ _ _ _ retained Ha)|done|lia|lia|done].
  destruct (_ || _) eqn:Er.
  - pose proof (heard_concludes _ (on_pending (delete corr) d') Hh') as R.
    destruct (reconcile_consult _ _) as [o d2]. destruct R as (out & -> & C & E); [exact S| |].
    { intros Hnil. rewrite Ea. apply orb_true_iff in Er as [Er|Er]; to_prop; [done|]. rewrite Ea in Er. cbn in Er. lia. }
    assert (ds_pending d2 !! corr = None) as Hn by (rewrite E; cbn; apply lookup_delete_eq).
    exists out, d2. by rewrite (late_answers idx events d2 F Hn).
  - apply orb_false_iff in Er as [_ Er]. to_prop. rewrite Ea in Er. cbn [answered_once pe_expected] in Er.
    destruct (IH _ (on_pending (insert corr (answered_once p (N.of_nat i + 1) (ab_matches a))) d') Hh')
      as (out & d2 & R & C); [rewrite Ea; lia|cbn; apply lookup_insert_eq|exact S| |].
    + intros j Hj. cbn. destruct (Hall j Hj) as [|[->|]%elem_of_cons]; set_solver.
    + exists out, d2. by rewrite R.
Qed.
End progress.

(** The consult of an Intent of the right shape is sent out and parked. *)
Lemma consult_starts d me env outcome requirements :
  ds_me d = Some me → hd_to (ev_header env) = AIntent (mkIntent outcome requirements) →
  validate_intent_shape outcome requirements = Ok tt →
  advertisers d ≠ 0%nat → N.of_nat (advertisers d) < 2 ^ 32 →
  ∃ evicted d1, distributor_handle env d
    = (mkOutcome (evicted ++ imap (fun i x => query_dispatch (ds_next_consult_corr d) (N.of_nat i + 1)
                                                (ACreature me) x.1 x.2) (consult_targets d outcome requirements)) None, d1)
    ∧ ds_pending d1 !! ds_next_consult_corr d = Some (mkPending env (N.of_nat (advertisers d)) 0 [] ∅)
    ∧ same_setup d d1.
Proof.
  intros Hme Hto Hv Ha few. unfold distributor_handle, on_intent. rewrite Hto, Hv. cbn [bump_corr ds_me]. rewrite Hme.
  fold (bump_corr d).
  assert (∃ ev d1, evict_oldest (bump_corr d) = (ev, d1) ∧ same_setup d d1) as (ev & d1 & -> & S).
  { unfold evict_oldest. repeat case_match; eexists _, _; (split; [done|by split_and!]). }
  assert (ds_me d1 = Some me) as Hme1 by (destruct S as (_&_&_&_&_&_&_&->); done).
  assert (intent_fields env = (outcome, requirements)) as Ef by (unfold intent_fields; by rewrite Hto).
  destruct (asks_consult d few d1 env me outcome requirements (ds_next_consult_corr d) S Hme1 Ef) as [-> _].
  rewrite bool_decide_eq_false_2 by lia. eexists _, _. split; [done|]. split; [|exact S].
  cbn. apply lookup_insert_eq.
Qed.
End consult.

(** ** A concrete placement *)

Module placement_sample.
Definition strong : Embodiment := mkEmbodiment 4 1024 ["GPU"] None None [].
Definition weak : Embodiment := mkEmbodiment 1 1024 [] None None [].
Definition advertiser : EmbodimentAdvertiser :=
  EmbodimentAdvertiser_new "node-A" [mkOfferEntry 40 weak; mkOfferEntry 41 strong].
Definition intent : Intent := mkIntent "run" ["cpu >= 2"; "accelerator contains gpu"; "garbage"].
Definition intent_env : Envelope :=
  mkEnvelope (mkHeader (ACreature 9) (AIntent intent) None 1 [] 0 "" (Some 3) None "job" None) [Byte.x2a].
Definition distributor : Distributor :=
  distributor_bind 7 (Distributor_new "node-A" [5] [] FirstFit 1000000).
Definition body : QueryBody := mkQueryBody (in_requirements intent) (Some "run") None.
Definition answer : AnswerBody := match_offers advertiser body.

(** Each message of the example has a byte of its own. *)
#[local] Instance queries : ToValue QueryBody := fun _ => Ok JNull.
#[local] Instance query_bodies : FromValue QueryBody := fun _ => Ok body.
#[local] Instance values : ToValue AnswerBody := fun _ => Ok JNull.
#[local] Instance bodies : FromValue AnswerBody := fun _ => Ok answer.
#[local] Instance refusals : SerdeJson NoProviderReply := {| to_vec _ := Ok []; from_slice _ := Err "" |}.
Definition query_msg : SeerEnvelope := seer_query Placement 1000000 1 body.
Definition answer_msg : SeerEnvelope := seer_answer Placement 1000000 1 answer.
#[local] Instance seers : SerdeJson SeerEnvelope :=
  {| to_vec s := Ok (match se_kind s with Query _ _ => [] | _ => [Byte.x01] end);
     from_slice b := Ok (match b with [] => query_msg | _ => answer_msg end) |}.

Definition env_of (d : Dispatch) : Envelope :=
  mkEnvelope (mkHeader (ACreature 1) (ACreature 7) (di_reply_to d) 3 [] 0 "" (di_corr d) None (di_schema d) None)
    (di_payload d).
Definition asked : Envelope := env_of (query_dispatch 1000000 1 (ACreature 7) (ACreature 5) body).
Definition answered : Envelope := env_of (answer_dispatch asked 1000000 1 answer).
End placement_sample.

(** ** Properties *)

(** C25: every Intent is settled once. However many messages a distributor receives,
    in whatever order and however malformed, each Intent that reached it has its own
    consult and is either still parked or has been settled by exactly one message:
    the Intent itself, sent with its payload, schema and correlation to a target that
    was offered on its consult, for the originator to be answered; or a refusal to
    the originator that says why, where "nobody offers" means that every advertiser
    answered with nothing. All else that is sent is a query of some Intent's consult
    to an advertiser, and no more Intents are parked than the limit. *)
Theorem every_intent_settled `{!SerdeJson SeerEnvelope} `{!SerdeJson NoProviderReply}
    `{!ToValue QueryBody} `{!FromValue AnswerBody} (d0 : Distributor) (Hempty : ds_pending d0 = ∅)
    (Hseed : ds_next_consult_corr d0 < 2 ^ 64) (few : N.of_nat (advertisers d0) < 2 ^ 32)
    (envs : list Envelope) (Hcount : N.of_nat (length (consults 0 envs)) ≤ 2 ^ 64) :
  let intents := consults (ds_next_consult_corr d0) envs in
  let '(out, d) := distributor_run envs d0 in
  ∃ (settled : list (N * Envelope * Dispatch)) queries,
    out ≡ₚ queries ++ settled.*2 ∧ intents ≡ₚ settled.*1 ++ parked d ∧ NoDup intents.*1
    ∧ Forall (asks d0 intents) queries
    ∧ Forall (fun x => settles d0 (fun corr o => ∃ env, env ∈ envs ∧ offers_on env corr o)
                         x.1.1 x.1.2 x.2) settled
    ∧ (0 < ds_max_pending d0 → pending_consults d ≤ ds_max_pending d0).
Proof.
  cbv zeta. set (P := fun corr o => ∃ env, env ∈ envs ∧ offers_on env corr o).
  assert (parked d0 = []) as Hp by (unfold parked; by rewrite Hempty, fmap_empty, map_to_list_empty).
  assert (distributor_ok d0 P d0) as O.
  { split_and!; [done|by rewrite Hempty; apply map_Forall_empty|].
    unfold pending_consults. rewrite Hempty, map_size_empty. lia. }
  pose proof (run_accounts d0 P (ds_next_consult_corr d0) envs d0 0 few O) as R.
  destruct (distributor_run envs d0) as [out d].
  destruct R as [(settled & queries & E1 & E2 & Q & S) (Hs & _ & B)].
  { split; [by rewrite N.add_0_r, N.mod_small|]. intros k [x Hx]. by rewrite Hempty, lookup_empty in Hx. }
  { lia. }
  { intros env corr o He Ho. by exists env. }
  rewrite Hp, app_nil_r in E2. exists settled, queries. split_and!; [done|done|by apply consults_distinct|done|done|].
  destruct Hs as (_&_&_&_&_&_&<-&_). exact B.
Qed.

Lemma every_intent_settled_witness :
  let run := @distributor_run placement_sample.seers placement_sample.refusals placement_sample.queries
    placement_sample.bodies [placement_sample.intent_env; placement_sample.answered]
    placement_sample.distributor in
  ∃ (settled : list (N * Envelope * Dispatch)) queries,
    run.1 ≡ₚ queries ++ settled.*2 ∧ [(1000000, placement_sample.intent_env)] ≡ₚ settled.*1 ++ parked run.2.
Proof.
  pose proof (@every_intent_settled placement_sample.seers placement_sample.refusals placement_sample.queries
    placement_sample.bodies placement_sample.distributor eq_refl ltac:(vm_compute; reflexivity)
    ltac:(vm_compute; reflexivity) [placement_sample.intent_env; placement_sample.answered]
    ltac:(vm_compute; done)) as H.
  cbv zeta. destruct (distributor_run _ _) as [out d]. cbv zeta in H.
  destruct H as (settled & queries & Ho & Hi & _). exists settled, queries. split; [exact Ho|exact Hi].
Defined.

(** The answers of advertisers to the queries of a consult, in some order and as
    often as they are repeated. *)
Definition answers_arrive `{!SerdeJson SeerEnvelope} `{!ToValue QueryBody} `{!FromValue QueryBody}
    `{!ToValue AnswerBody} (advs : list EmbodimentAdvertiser) (corr : N) (me : CreatureId)
    (targets : list (Address * QueryBody)) : list nat → list Envelope → Prop :=
  Forall2 (fun i e => ∃ a to body asked reply, advs !! i = Some a ∧ targets !! i = Some (to, body)
    ∧ carried asked (query_dispatch corr (N.of_nat i + 1) (ACreature me) to body)
    ∧ advertiser_handle asked a = Outcome_send reply ∧ carried e reply).

(** The messages of a consult can be read where they arrive. *)
Definition consult_legible `{!SerdeJson SeerEnvelope} `{!ToValue QueryBody} `{!FromValue QueryBody}
    `{!ToValue AnswerBody} `{!FromValue AnswerBody} (advs : list EmbodimentAdvertiser) (corr : N)
    (targets : list (Address * QueryBody)) : Prop :=
  ∀ i a to body, advs !! i = Some a → targets !! i = Some (to, body) →
    value_reads_back body ∧ value_reads_back (match_offers a body)
    ∧ legible (seer_query Placement corr (N.of_nat i + 1) body)
    ∧ legible (seer_answer Placement corr (N.of_nat i + 1) (match_offers a body)).

Lemma target_body d outcome requirements i to body :
  consult_targets d outcome requirements !! i = Some (to, body) →
  ∃ realm, body = mkQueryBody requirements (Some outcome) realm.
Proof.
  intros H%list_elem_of_lookup_2. unfold consult_targets in H.
  rewrite !elem_of_app, !list_elem_of_fmap in H.
  destruct H as [(x & [= -> ->] & _)|[([x y] & [= -> ->] & _)|([x y] & [= -> ->] & _)]]; eauto.
Qed.

Definition answer_bodies (advs : list EmbodimentAdvertiser) (targets : list (Address * QueryBody)) :
    list AnswerBody := zip_with (fun a x => match_offers a x.2) advs targets.

Lemma answer_bodies_lookup advs targets i b :
  answer_bodies advs targets !! i = Some b ↔
  ∃ a to body, advs !! i = Some a ∧ targets !! i = Some (to, body) ∧ b = match_offers a body.
Proof.
  unfold answer_bodies. rewrite lookup_zip_with_Some. split.
  - intros (a & [to body] & -> & Ha & Ht). by exists a, to, body.
  - intros (a & to & body & Ha & Ht & ->). by exists a, (to, body).
Qed.

(** What arrives is read as the answers of the advertisers. *)
Lemma answers_read `{!SerdeJson SeerEnvelope} `{!SerdeJson NoProviderReply} `{!ToValue QueryBody}
    `{!FromValue QueryBody} `{!ToValue AnswerBody} `{!FromValue AnswerBody}
    d advs corr me outcome requirements idx events :
  validate_intent_shape outcome requirements = Ok tt →
  consult_legible advs corr (consult_targets d outcome requirements) →
  answers_arrive advs corr me (consult_targets d outcome requirements) idx events →
  brings_answers corr (answer_bodies advs (consult_targets d outcome requirements)) idx events.
Proof.
  intros Hv L A. eapply Forall2_impl; [exact A|].
  intros i e (a & to & body & asked & reply & Ha & Ht & Hc & Hh & Hr).
  exists (match_offers a body). split; [apply answer_bodies_lookup; by exists a, to, body|]. intros d'.
  destruct (L i a to body Ha Ht) as (V1 & V2 & L1 & L2).
  destruct (target_body _ _ _ _ _ _ Ht) as [realm Eb].
  rewrite (advertiser_answers asked a corr (N.of_nat i + 1) (ACreature me) to body) in Hh;
    [|done|done|done|rewrite Eb; by apply consult_shape_valid].
  injection Hh as <-. by eapply distributor_reads.
Qed.

(** The Intent is sent to an offer that suits; and the refusal when there is none. *)
Definition placed_suitably (d : Distributor) (advs : list EmbodimentAdvertiser) (env : Envelope)
    (outcome : string) (requirements : list string) (out : Dispatch) : Prop :=
  ∃ i a to body e, advs !! i = Some a
    ∧ consult_targets d outcome requirements !! i = Some (to, body) ∧ suits a body e
    ∧ fits requirements (oe_embodiment e) ∧ di_to out = target_addr d (offer_of a e)
    ∧ di_payload out = ev_payload env ∧ di_schema out = hd_schema (ev_header env)
    ∧ di_corr out = hd_corr (ev_header env) ∧ di_reply_to out = Some (reply_target env).
Definition refused_rightly `{!SerdeJson NoProviderReply} (d : Distributor) (advs : list EmbodimentAdvertiser)
    (env : Envelope) (outcome : string) (requirements : list string) (out : Dispatch) : Prop :=
  (∀ i a to body e, advs !! i = Some a → consult_targets d outcome requirements !! i = Some (to, body) →
     ¬ suits a body e)
  ∧ out = build_no_provider env outcome requirements (N.of_nat (advertisers d)) (N.of_nat (advertisers d))
            EveryAdvertiserEmpty None.

Lemma concluded_provider `{!SerdeJson NoProviderReply} d advs env outcome requirements out :
  intent_fields env = (outcome, requirements) →
  length (answer_bodies advs (consult_targets d outcome requirements)) = advertisers d →
  concluded d env (answer_bodies advs (consult_targets d outcome requirements)) out →
  placed_suitably d advs env outcome requirements out ∨ refused_rightly d advs env outcome requirements out.
Proof.
  intros Ef Hn C. unfold concluded in C. rewrite Hn, Ef in C.
  destruct C as [(i & b & o & Hb & Ho & F)|[Hnil ->]]; [left|right].
  - apply answer_bodies_lookup in Hb as (a & to & body & Ha & Ht & ->).
    apply match_offers_elem in Ho as (e & -> & Hs). exists i, a, to, body, e.
    destruct (target_body _ _ _ _ _ _ Ht) as [realm Eb].
    assert (fits requirements (oe_embodiment e)) by (destruct Hs as (_ & _ & _ & Hf); by rewrite Eb in Hf).
    destruct F as (F1 & F2 & F3 & F4 & F5). by split_and!.
  - split; [|done]. intros i a to body e Ha Ht. apply match_offers_nil.
    apply (Hnil i). apply answer_bodies_lookup. by exists a, to, body.
Qed.

(** C26: a consult ends at a provider. An Intent of the right shape is asked about at
    every advertiser; every advertiser that a query reaches answers it; and once the
    answers of all of them have arrived, in any order and repeated at will, the
    distributor has sent exactly one message: the Intent, with its payload, schema,
    correlation and originator, to an offer of one of the advertisers that satisfies
    every requirement it can read, in the realm that was asked; or, only if no
    advertiser has an offer that suits, the refusal that says so. *)
Theorem consult_places `{!SerdeJson SeerEnvelope} `{!SerdeJson NoProviderReply} `{!ToValue QueryBody}
    `{!FromValue QueryBody} `{!ToValue AnswerBody} `{!FromValue AnswerBody} (d : Distributor)
    (me : CreatureId) (Hme : ds_me d = Some me) (env : Envelope) (outcome : string) (requirements : list string)
    (Hto : hd_to (ev_header env) = AIntent (mkIntent outcome requirements))
    (Hv : validate_intent_shape outcome requirements = Ok tt)
    (advs : list EmbodimentAdvertiser) (Hlen : length advs = advertisers d)
    (some : advertisers d ≠ 0%nat) (few : N.of_nat (advertisers d) < 2 ^ 32)
    (Htags : Forall realm_tag_ok advs)
    (L : consult_legible advs (ds_next_consult_corr d) (consult_targets d outcome requirements)) :
  let corr := ds_next_consult_corr d in
  let targets := consult_targets d outcome requirements in
  ∃ evicted d1,
    distributor_handle env d
    = (mkOutcome (evicted ++ imap (fun i x => query_dispatch corr (N.of_nat i + 1) (ACreature me) x.1 x.2)
                               targets) None, d1)
    ∧ (∀ i a to body asked, advs !! i = Some a → targets !! i = Some (to, body) →
         carried asked (query_dispatch corr (N.of_nat i + 1) (ACreature me) to body) →
         ∃ reply, advertiser_handle asked a = Outcome_send reply)
    ∧ ∀ idx events, answers_arrive advs corr me targets idx events →
        (∀ i, (i < length advs)%nat → i ∈ idx) →
        ∃ out d2, distributor_run events d1 = ([out], d2) ∧ ds_pending d2 !! corr = None
        ∧ (placed_suitably d advs env outcome requirements out
           ∨ refused_rightly d advs env outcome requirements out).
Proof.
  cbv zeta. destruct (consult_starts d me env outcome requirements Hme Hto Hv some few) as (ev & d1 & Hh & Hp & S).
  exists ev, d1. split_and!; [done| |].
  { intros i a to body asked Ha Ht Hc. destruct (L i a to body Ha Ht) as (V1 & _ & L1 & _).
    destruct (target_body _ _ _ _ _ _ Ht) as [realm Eb]. eexists.
    eapply advertiser_answers; [exact Hc|done|done|]. rewrite Eb. by apply consult_shape_valid. }
  intros idx events A Hall. set (targets := consult_targets d outcome requirements) in *.
  assert (length (answer_bodies advs targets) = advertisers d) as Hn.
  { unfold answer_bodies. rewrite length_zip_with. unfold targets. rewrite length_targets. lia. }
  destruct (consult_runs d (ds_next_consult_corr d) env (answer_bodies advs targets)) with
    (idx := idx) (events := events) (p := mkPending env (N.of_nat (advertisers d)) 0 [] (∅ : gset N)) (d' := d1)
    as (out & d2 & R & C & Hd); [| |by rewrite Hn|by apply (answers_read d advs _ me)| | |done|done| |].
  - apply Forall_lookup. intros i b (a & to & body & Ha & Ht & ->)%answer_bodies_lookup. by destruct (L i a to body Ha Ht) as (_ & V & _).
  - apply Forall_lookup. intros i b (a & to & body & Ha & Ht & ->)%answer_bodies_lookup.
    apply answer_retained. by apply (Forall_lookup_1 _ _ _ _ Htags Ha).
  - split; cbn; [done|by rewrite Hn|by rewrite size_empty|by intros k ?%elem_of_empty|by intros o ?%not_elem_of_nil].
  - cbn. lia.
  - intros i Hi. right. apply Hall. lia.
  - exists out, d2. split_and!; [done|done|]. apply concluded_provider; [|done|done].
    unfold intent_fields. by rewrite Hto.
Qed.

Lemma consult_places_witness :
  ∃ out d1 d2, (@distributor_handle placement_sample.seers placement_sample.refusals placement_sample.queries
      placement_sample.bodies placement_sample.intent_env placement_sample.distributor).2 = d1
    ∧ @distributor_run placement_sample.seers placement_sample.refusals placement_sample.queries
        placement_sample.bodies [placement_sample.answered; placement_sample.answered] d1 = ([out], d2).
Proof.
  destruct (@consult_places placement_sample.seers placement_sample.refusals placement_sample.queries
    placement_sample.query_bodies placement_sample.values placement_sample.bodies placement_sample.distributor
    7 eq_refl placement_sample.intent_env "run" (in_requirements placement_sample.intent) eq_refl
    ltac:(vm_compute; reflexivity) [placement_sample.advertiser] eq_refl ltac:(done)
    ltac:(vm_compute; reflexivity) ltac:(repeat constructor; done)) as (ev & d1 & Hh & _ & H).
  { intros [|i] a to body Ha Ht; [|done]. injection Ha as <-. injection Ht as <- <-.
    split_and!; [done|done|split; [done|vm_compute; done]..]. }
  destruct (H [0; 0]%nat [placement_sample.answered; placement_sample.answered]) as (out & d2 & R & _).
  - repeat constructor; exists placement_sample.advertiser, (ACreature 5), placement_sample.body;
      exists placement_sample.asked; eexists; split_and!; try done.
  - intros i Hi. cbn in Hi. assert (i = 0%nat) as -> by lia. by left.
  - exists out, d1, d2. by rewrite Hh.
Defined.
