(* ===== verification/Migrator.v ===== *)
(** * The Abode migrator

    [cosmos/creatures/abode-migrator/src/lib.rs]: the acknowledged hand-off of an
    Abode from one migrator to another. Its framing of payloads is in [Abode]. The
    random challenge of a migration is an argument of the handler, with the error of
    drawing it. *)

From S2P Require Import Prelude Serde GxShape GxHash FnCrypto FnTypes AetherAddress AetherEnvelope.
From S2P Require Import AetherRouter Lww HomeServe Sigil Die Federator Abode.

Definition MIGRATOR_SCHEMA : string := "abode.migrator".
Definition MIGRATOR_MESSAGE_OVERHEAD_BYTES : N := 256 * 1024.
Definition MAX_MIGRATOR_NODE_ID_BYTES : N := 256.
Definition MAX_MIGRATOR_NOTE_BYTES : N := 4 * 1024.
Definition MAX_MIGRATOR_REASON_BYTES : N := 4 * 1024.
Definition MAX_MIGRATOR_CHALLENGE_BYTES : N := 128.

Definition max_migrator_message_bytes (max_payload_bytes : N) : N :=
  N.min (N.min (max_payload_bytes * 4) usize_MAX + MIGRATOR_MESSAGE_OVERHEAD_BYTES) usize_MAX.

(** ** Data *)

(** The trait [RestorePolicy]. *)
Definition RestorePolicy : Type := AbodeSnapshot → result string unit.
Definition PermissiveRestorePolicy : RestorePolicy := fun _ => Ok tt.

Inductive AbodeState : Type :=
  | Empty
  | Authoritative (payload : bytes)
  | Migrated (to : NodeId).

#[export] Instance AbodeState_eq_dec : EqDecision AbodeState.
Proof. solve_decision. Defined.

Definition variant_name (s : AbodeState) : string :=
  match s with
  | Empty => "empty" | Authoritative _ => "authoritative" | Migrated _ => "migrated"
  end.

Record PendingMigration : Type := mkPendingMigration {
  pm_consult_corr : N;
  pm_destination_node : NodeId;
  pm_challenge : string;
  pm_operator_reply_to : Address;
  pm_operator_corr : option N;
  pm_expected_responder_pubkey : option string;
  pm_snapshot_state_hash : string
}.

Inductive MigratorMsg : Type :=
  | MSetState (payload : bytes)
  | MSnapshotRequest
  | MMigrate (destination_node : NodeId) (destination_migrator : CreatureId)
      (expected_responder_pubkey : option string)
  | MStatusQuery
  | MRestoreRequest (snapshot : AbodeSnapshot) (note : option string) (challenge : string)
  | MStateSet
  | MSnapshotReply (snapshot : AbodeSnapshot)
  | MMigrateAck (migrated_to : NodeId)
  | MMigrateFailed (reason : string)
  | MStatusReply (state : string) (migrated_to : option NodeId) (payload_len : N)
      (signed_snapshots_required : bool) (max_payload_bytes : N) (in_flight_migration : bool)
  | MRestoreResponse (admitted : bool) (reason : option string) (challenge : string)
      (responder_node : NodeId) (responder_signature responder_pubkey : option string).

Record AbodeMigrator : Type := mkAbodeMigrator {
  am_me : option CreatureId;
  am_self_node : NodeId;
  am_abode_key : Ed25519KeyMaterial;
  am_abode_key_public_hex : string;
  am_state : AbodeState;
  am_restore_policy : RestorePolicy;
  am_max_payload_bytes : N;
  am_require_signed_snapshots : bool;
  am_require_signed_responders : bool;
  am_verifier : Verifier;
  am_pending : option PendingMigration;
  am_next_consult_corr : N
}.

Definition AbodeMigrator_new `{!Ed25519} (self_node : NodeId) (abode_key : Ed25519KeyMaterial)
    (restore_policy : RestorePolicy) : AbodeMigrator :=
  mkAbodeMigrator None self_node abode_key (km_public_hex abode_key) Empty restore_policy
    ABODE_DEFAULT_MAX_PAYLOAD_BYTES true true ed25519_verifier None 1000000.
Definition migrator_with_max_payload_bytes (max : N) (m : AbodeMigrator) : AbodeMigrator :=
  mkAbodeMigrator (am_me m) (am_self_node m) (am_abode_key m) (am_abode_key_public_hex m) (am_state m)
    (am_restore_policy m) max (am_require_signed_snapshots m) (am_require_signed_responders m)
    (am_verifier m) (am_pending m) (am_next_consult_corr m).
Definition with_unsigned_snapshots_allowed (m : AbodeMigrator) : AbodeMigrator :=
  mkAbodeMigrator (am_me m) (am_self_node m) (am_abode_key m) (am_abode_key_public_hex m) (am_state m)
    (am_restore_policy m) (am_max_payload_bytes m) false (am_require_signed_responders m)
    (am_verifier m) (am_pending m) (am_next_consult_corr m).
Definition with_unsigned_responder_allowed (m : AbodeMigrator) : AbodeMigrator :=
  mkAbodeMigrator (am_me m) (am_self_node m) (am_abode_key m) (am_abode_key_public_hex m) (am_state m)
    (am_restore_policy m) (am_max_payload_bytes m) (am_require_signed_snapshots m) false
    (am_verifier m) (am_pending m) (am_next_consult_corr m).
Definition migrator_with_verifier (v : Verifier) (m : AbodeMigrator) : AbodeMigrator :=
  mkAbodeMigrator (am_me m) (am_self_node m) (am_abode_key m) (am_abode_key_public_hex m) (am_state m)
    (am_restore_policy m) (am_max_payload_bytes m) (am_require_signed_snapshots m)
    (am_require_signed_responders m) v (am_pending m) (am_next_consult_corr m).
Definition migrator_with_consult_corr_seed (seed : N) (m : AbodeMigrator) : AbodeMigrator :=
  mkAbodeMigrator (am_me m) (am_self_node m) (am_abode_key m) (am_abode_key_public_hex m) (am_state m)
    (am_restore_policy m) (am_max_payload_bytes m) (am_require_signed_snapshots m)
    (am_require_signed_responders m) (am_verifier m) (am_pending m) seed.
Definition migrator_bind (me : CreatureId) (m : AbodeMigrator) : AbodeMigrator :=
  mkAbodeMigrator (Some me) (am_self_node m) (am_abode_key m) (am_abode_key_public_hex m) (am_state m)
    (am_restore_policy m) (am_max_payload_bytes m) (am_require_signed_snapshots m)
    (am_require_signed_responders m) (am_verifier m) (am_pending m) (am_next_consult_corr m).
Definition has_pending_migration (m : AbodeMigrator) : bool := bool_decide (is_Some (am_pending m)).

(** Updates of the three fields that messages change. *)
Definition set_state (s : AbodeState) (m : AbodeMigrator) : AbodeMigrator :=
  mkAbodeMigrator (am_me m) (am_self_node m) (am_abode_key m) (am_abode_key_public_hex m) s
    (am_restore_policy m) (am_max_payload_bytes m) (am_require_signed_snapshots m)
    (am_require_signed_responders m) (am_verifier m) (am_pending m) (am_next_consult_corr m).
Definition set_pending_migration (p : option PendingMigration) (m : AbodeMigrator) : AbodeMigrator :=
  mkAbodeMigrator (am_me m) (am_self_node m) (am_abode_key m) (am_abode_key_public_hex m) (am_state m)
    (am_restore_policy m) (am_max_payload_bytes m) (am_require_signed_snapshots m)
    (am_require_signed_responders m) (am_verifier m) p (am_next_consult_corr m).
Definition migrator_bump_corr (m : AbodeMigrator) : AbodeMigrator :=
  migrator_with_consult_corr_seed (u64_incr (am_next_consult_corr m)) m.

(** ** Shapes *)

Definition migrator_node_id_shape_is_valid (node : NodeId) : bool :=
  bool_decide (node ≠ "") && bool_decide (slen node ≤ MAX_MIGRATOR_NODE_ID_BYTES)
  && all_bytes is_node_byte node.
Definition optional_len_is_valid (value : option string) (max : N) : bool :=
  match value with Some s => bool_decide (slen s ≤ max) | None => true end.
Definition challenge_shape_is_valid (challenge : string) : bool :=
  bool_decide (slen challenge ≤ MAX_MIGRATOR_CHALLENGE_BYTES) && all_bytes is_ascii_hexdigit challenge.
Definition optional_hex_shape_is_valid (value : option string) (exact_len : N) : bool :=
  match value with
  | Some s => bool_decide (slen s = exact_len) && all_bytes is_ascii_hexdigit s
  | None => true
  end.
Definition bounded_migrator_reason (reason : string) : string :=
  bounded_string reason MAX_MIGRATOR_REASON_BYTES.

(** The tuple that a responder witness signs. *)
Definition Witness : Type := string * string * string * string * string.

Section migrator.
  Context `{!Sha256} `{!Ed25519} `{!Ed25519Keys} `{!SerdeJson AbodeSnapshot} `{!SerdeJson MigratorMsg}
    `{!SerdeJson Witness} (show_prefix : bytes → string).

Definition responder_witness_payload (source_abode_key source_state_hash challenge : string)
    (responder_node : NodeId) (responder_pubkey : string) : bytes :=
  to_bytes ((source_abode_key, source_state_hash, challenge, responder_node, responder_pubkey) : Witness).

Definition migrator_reply (env : Envelope) (msg : MigratorMsg) : Outcome :=
  Outcome_send (with_schema (reply_to_env env (to_bytes msg)) MIGRATOR_SCHEMA).
Definition operator_reply (to : Address) (corr : option N) (msg : MigratorMsg) : Dispatch :=
  let d := with_schema (Dispatch_to to (to_bytes msg)) MIGRATOR_SCHEMA in
  match corr with Some c => with_corr d c | None => d end.

Definition build_signed_snapshot (m : AbodeMigrator) (raw_payload : bytes) : AbodeSnapshot :=
  snapshot_sign (am_abode_key m)
    (AbodeSnapshot_new (am_abode_key_public_hex m) (wrap_payload_v0_3 raw_payload)).

(** ** The operator's messages *)

Definition on_set_state (env : Envelope) (payload : bytes) (m : AbodeMigrator) :
    Outcome * AbodeMigrator :=
  let wrapped_len := N.min (blen SCHEMA_V0_3_MAGIC + blen payload) usize_MAX in
  if bool_decide (am_max_payload_bytes m < wrapped_len) then
    (migrator_reply env (MMigrateFailed ("set_state rejected: wrapped payload " +:+ dec wrapped_len
       +:+ " bytes exceeds max snapshot payload " +:+ dec (am_max_payload_bytes m) +:+ " bytes")), m)
  else
    match am_pending m with
    | Some _ => (migrator_reply env (MMigrateFailed "set_state rejected: migration in flight"), m)
    | None =>
        match am_state m with
        | Empty | Authoritative _ =>
            (migrator_reply env MStateSet, set_state (Authoritative payload) m)
        | Migrated to =>
            (migrator_reply env (MMigrateFailed ("set_state rejected: migrator is sealed (migrated to `"
               +:+ to +:+ "`); unload + reload to begin again")), m)
        end
    end.

Definition on_snapshot_request (env : Envelope) (m : AbodeMigrator) : Outcome :=
  let payload := match am_state m with Authoritative payload => payload | _ => [] end in
  migrator_reply env (MSnapshotReply (build_signed_snapshot m payload)).

(** The request that carries the Abode to the destination. *)
Definition restore_dispatch (env : Envelope) (destination_node : NodeId) (destination_migrator me : CreatureId)
    (consult_corr : N) (request : MigratorMsg) (m : AbodeMigrator) : Dispatch :=
  let dest_addr :=
    if bool_decide (destination_node = am_self_node m) then ACreature destination_migrator
    else ANode destination_node destination_migrator in
  let d := with_reply_to (with_corr (with_schema (Dispatch_to dest_addr (to_bytes request)) MIGRATOR_SCHEMA)
             consult_corr) (ACreature me) in
  match hd_commitment (ev_header env) with Some commit => with_commitment d commit | None => d end.

Definition on_migrate (fresh_seed : result string bytes) (env : Envelope) (destination_node : NodeId)
    (destination_migrator : CreatureId) (expected_responder_pubkey : option string) (m : AbodeMigrator) :
    Outcome * AbodeMigrator :=
  let failed reason := (migrator_reply env (MMigrateFailed reason), m) in
  if negb (migrator_node_id_shape_is_valid destination_node) then
    failed ("migrate rejected: destination_node must be 1..=" +:+ dec MAX_MIGRATOR_NODE_ID_BYTES
            +:+ " ASCII [A-Za-z0-9._-] bytes")
  else if negb (optional_hex_shape_is_valid expected_responder_pubkey ED25519_PUBLIC_KEY_HEX_BYTES) then
    failed "migrate rejected: expected_responder_pubkey must be a 64-character hex ed25519 public key"
  else
    match am_pending m with
    | Some _ => failed "migrate rejected: another migration is in flight"
    | None =>
        match am_state m with
        | Empty => failed "migrate rejected: no authoritative state to migrate"
        | Migrated to =>
            failed ("migrate rejected: migrator is sealed (already migrated to `" +:+ to +:+ "`)")
        | Authoritative payload =>
            match am_me m with
            | None => failed "migrate rejected: migrator not bound yet"
            | Some me_id =>
                let snapshot := build_signed_snapshot m payload in
                let consult_corr := am_next_consult_corr m in
                let m := migrator_bump_corr m in
                match fresh_seed with
                | Err e =>
                    (migrator_reply env
                       (MMigrateFailed ("migrate rejected: could not mint challenge: " +:+ e)), m)
                | Ok seed =>
                    let challenge := hex_encode seed in
                    (Outcome_send
                       (restore_dispatch env destination_node destination_migrator me_id consult_corr
                          (MRestoreRequest snapshot None challenge) m),
                     set_pending_migration (Some (mkPendingMigration consult_corr destination_node challenge
                       (reply_target env) (hd_corr (ev_header env)) expected_responder_pubkey
                       (ab_state_hash snapshot))) m)
                end
            end
        end
    end.

Definition on_status_query (env : Envelope) (m : AbodeMigrator) : Outcome :=
  let payload_len := match am_state m with Authoritative payload => blen payload | _ => 0 end in
  let migrated_to := match am_state m with Migrated to => Some to | _ => None end in
  migrator_reply env (MStatusReply (variant_name (am_state m)) migrated_to payload_len
    (am_require_signed_snapshots m) (am_max_payload_bytes m) (has_pending_migration m)).

(** ** The peer's messages *)

(** The substrate's gates, the schema and the policy, in this order. *)
Definition restore_gates (snapshot : AbodeSnapshot) (m : AbodeMigrator) : result string bytes :=
  _ ← map_err (fun e => "substrate-gate:size: " +:+ SnapshotError_to_string e)
        (assert_payload_size (am_max_payload_bytes m) snapshot);
  _ ← map_err (fun e => "substrate-gate:integrity: " +:+ SnapshotError_to_string e)
        (assert_integrity snapshot);
  _ ← (if am_require_signed_snapshots m
       then map_err (fun e => "substrate-gate:signature: " +:+ SnapshotError_to_string e)
              (verify_signature (am_verifier m) snapshot)
       else Ok tt);
  inner ← map_err (fun e => "migrator-gate:schema: " +:+ SnapshotSchemaError_to_string show_prefix e)
            (unwrap_payload_v0_3 (ab_payload_bytes snapshot));
  _ ← map_err (fun reason => "restore-policy: " +:+ bounded_migrator_reason reason)
        (am_restore_policy m snapshot);
  Ok inner.

Definition on_restore_request (env : Envelope) (snapshot : AbodeSnapshot) (note : option string)
    (challenge : string) (m : AbodeMigrator) : Outcome * AbodeMigrator :=
  if negb (optional_len_is_valid note MAX_MIGRATOR_NOTE_BYTES) || negb (challenge_shape_is_valid challenge)
  then
    (migrator_reply env (MRestoreResponse false (Some "restore rejected: malformed migrator metadata") ""
       (am_self_node m) None None), m)
  else
    let refuse reason :=
      (migrator_reply env (MRestoreResponse false (Some (bounded_migrator_reason reason)) challenge
         (am_self_node m) None None), m) in
    match am_state m with
    | Authoritative _ =>
        refuse "restore rejected: this hand-off migrator is already authoritative; use abode-reconciler for fork/merge semantics"
    | Migrated to =>
        refuse ("restore rejected: this migrator is sealed (migrated to `" +:+ to +:+ "`)")
    | Empty =>
        match restore_gates snapshot m with
        | Err reason => refuse reason
        | Ok inner =>
            let responder_pubkey := am_abode_key_public_hex m in
            let witness :=
              responder_witness_payload (ab_abode_key snapshot) (ab_state_hash snapshot) challenge
                (am_self_node m) responder_pubkey in
            (migrator_reply env (MRestoreResponse true None challenge (am_self_node m)
               (Some (km_sign (am_abode_key m) witness)) (Some responder_pubkey)),
             set_state (Authoritative inner) m)
        end
    end.

(** The witness of an admitting response, and its anchor. *)
Definition witness_accepted (p : PendingMigration) (responder_signature responder_pubkey : option string)
    (m : AbodeMigrator) : bool :=
  match responder_signature, responder_pubkey with
  | Some sig, Some pubkey =>
      am_verifier m pubkey
        (responder_witness_payload (am_abode_key_public_hex m) (pm_snapshot_state_hash p)
           (pm_challenge p) (pm_destination_node p) pubkey) sig
      && match pm_expected_responder_pubkey p with
         | Some anchor => bool_decide (anchor = pubkey)
         | None => true
         end
  | _, _ => false
  end.

Definition on_restore_response (env : Envelope) (admitted : bool) (reason : option string)
    (challenge : string) (responder_node : NodeId) (responder_signature responder_pubkey : option string)
    (m : AbodeMigrator) : Outcome * AbodeMigrator :=
  if negb (challenge_shape_is_valid challenge) || negb (migrator_node_id_shape_is_valid responder_node)
     || negb (optional_hex_shape_is_valid responder_signature ED25519_SIGNATURE_HEX_BYTES)
     || negb (optional_hex_shape_is_valid responder_pubkey ED25519_PUBLIC_KEY_HEX_BYTES)
  then (Outcome_none, m)
  else
    match hd_corr (ev_header env), am_pending m with
    | Some corr, Some p =>
        if bool_decide (pm_consult_corr p ≠ corr) then (Outcome_none, m)
        else if bool_decide (challenge ≠ pm_challenge p)
                || bool_decide (responder_node ≠ pm_destination_node p)
        then (Outcome_none, m)
        else if admitted then
          if am_require_signed_responders m
             && negb (witness_accepted p responder_signature responder_pubkey m)
          then (Outcome_none, m)
          else
            (Outcome_send (operator_reply (pm_operator_reply_to p) (pm_operator_corr p)
               (MMigrateAck (pm_destination_node p))),
             set_state (Migrated (pm_destination_node p)) (set_pending_migration None m))
        else
          (Outcome_send (operator_reply (pm_operator_reply_to p) (pm_operator_corr p)
             (MMigrateFailed (bounded_migrator_reason
                (match option_map bounded_migrator_reason reason with
                 | Some r => r
                 | None => "peer refused restore (no reason given)"
                 end)))),
           set_pending_migration None m)
    | _, _ => (Outcome_none, m)
    end.

Definition migrator_handle (fresh_seed : result string bytes) (env : Envelope) (m : AbodeMigrator) :
    Outcome * AbodeMigrator :=
  let max := max_migrator_message_bytes (am_max_payload_bytes m) in
  if bool_decide (hd_schema (ev_header env) ≠ MIGRATOR_SCHEMA) then (Outcome_none, m)
  else if bool_decide (max < blen (ev_payload env)) then
    (migrator_reply env (MMigrateFailed ("migrator message " +:+ dec (blen (ev_payload env))
       +:+ " bytes exceeds max " +:+ dec max +:+ " bytes")), m)
  else
    match from_slice (ev_payload env) with
    | Err _ => (Outcome_none, m)
    | Ok msg =>
        match msg with
        | MSetState payload => on_set_state env payload m
        | MSnapshotRequest => (on_snapshot_request env m, m)
        | MMigrate destination_node destination_migrator expected_responder_pubkey =>
            on_migrate fresh_seed env destination_node destination_migrator expected_responder_pubkey m
        | MStatusQuery => (on_status_query env m, m)
        | MRestoreRequest snapshot note challenge => on_restore_request env snapshot note challenge m
        | MRestoreResponse admitted reason challenge responder_node responder_signature responder_pubkey =>
            on_restore_response env admitted reason challenge responder_node responder_signature
              responder_pubkey m
        | MStateSet | MSnapshotReply _ | MMigrateAck _ | MMigrateFailed _ | MStatusReply _ _ _ _ _ _ =>
            (Outcome_none, m)
        end
    end.
End migrator.
