(* ===== verification/MigratorLaws.v ===== *)
(** * The laws of the Abode migrator

    Authority over an Abode moves only by what the operator sets, by a snapshot that
    passes the gates, and away from a source only on the witness of the destination;
    and a migration hands the state over unchanged. *)

From S2P Require Import Prelude Serde GxShape GxHash FnCrypto FnTypes AetherAddress AetherEnvelope.
From S2P Require Import AetherRouter Lww HomeServe Sigil Die BestiaryWire Federator Abode Migrator.

Lemma unwrap_Ok b inner : unwrap_payload_v0_3 b = Ok inner → b = wrap_payload_v0_3 inner.
Proof.
  unfold unwrap_payload_v0_3, wrap_payload_v0_3. case_decide; [done|]. case_decide as Hm; [done|].
  intros [= <-]. by rewrite <- Hm, take_drop.
Qed.

Section laws.
  Context `{!Sha256} `{!Ed25519} `{!Ed25519Keys} `{!SerdeJson AbodeSnapshot} `{!SerdeJson MigratorMsg}
    `{!SerdeJson Witness} (show_prefix : bytes → string).

(** A migrator reads a message of an envelope. *)
Definition reads (env : Envelope) (msg : MigratorMsg) : Prop :=
  hd_schema (ev_header env) = MIGRATOR_SCHEMA ∧ from_slice (ev_payload env) = Ok msg.

(** A snapshot that passes the gates, and the state in it. *)
Definition admissible (snapshot : AbodeSnapshot) (inner : bytes) (m : AbodeMigrator) : Prop :=
  ab_payload_bytes snapshot = wrap_payload_v0_3 inner
  ∧ blen (ab_payload_bytes snapshot) ≤ am_max_payload_bytes m
  ∧ compute_state_hash (ab_payload_bytes snapshot) = ab_state_hash snapshot
  ∧ (am_require_signed_snapshots m = true → ∃ sig, ab_signature snapshot = Some sig
       ∧ am_verifier m (ab_abode_key snapshot) (snapshot_signing_payload snapshot) sig = true)
  ∧ am_restore_policy m snapshot = Ok tt.

Lemma restore_gates_Ok snapshot inner m :
  restore_gates show_prefix snapshot m = Ok inner ↔ admissible snapshot inner m.
Proof.
  unfold restore_gates, admissible. split.
  - intros ([] & G1%map_err_Ok & G)%bind_Ok. apply bind_Ok in G as ([] & G2%map_err_Ok & G).
    apply bind_Ok in G as ([] & G3 & G). apply bind_Ok in G as (i & G4%map_err_Ok & G).
    apply bind_Ok in G as ([] & G5%map_err_Ok & [= ->]). split_and!; [by apply unwrap_Ok| | | |done].
    + unfold assert_payload_size in G1. case_decide; [done|lia].
    + unfold assert_integrity in G2. case_decide as E; done.
    + intros E. rewrite E in G3. apply map_err_Ok in G3. unfold verify_signature in G3.
      destruct (ab_signature snapshot) as [sig|]; [|done]. exists sig. split; [done|]. cbn in G3. by case_match.
  - intros (G1 & G2 & G3 & G4 & G5). unfold assert_payload_size. rewrite decide_False by lia. cbn.
    unfold assert_integrity. rewrite decide_False by (intros n; by apply n). cbn.
    rewrite G1, unwrap_wrap, G5. cbn. destruct (am_require_signed_snapshots m); [|done].
    destruct G4 as (sig & Hs & Hv); [done|]. unfold verify_signature. rewrite Hs. cbn. by rewrite Hv.
Qed.

(** The witness of a destination: under the key that it names, which is the anchor if
    the operator gave one, its signature over this Abode's key, the hash of the state
    that is held, the challenge of the migration, the node and that key. *)
Definition witnessed (m : AbodeMigrator) (p : PendingMigration) (payload : bytes)
    (sig pubkey : option string) : Prop :=
  ∃ s pk, sig = Some s ∧ pubkey = Some pk
    ∧ am_verifier m pk
        (to_bytes ((am_abode_key_public_hex m, compute_state_hash (wrap_payload_v0_3 payload),
                    pm_challenge p, pm_destination_node p, pk) : Witness)) s = true
    ∧ ∀ anchor, pm_expected_responder_pubkey p = Some anchor → pk = anchor.

Lemma witness_accepted_witnessed m p payload sig pubkey :
  pm_snapshot_state_hash p = compute_state_hash (wrap_payload_v0_3 payload) →
  witness_accepted p sig pubkey m = true → witnessed m p payload sig pubkey.
Proof.
  intros Eh. unfold witness_accepted. destruct sig as [s|], pubkey as [pk|]; try done.
  rewrite Eh. intros [Hv Ha]%andb_true_iff. exists s, pk. split_and!; [done..|].
  intros anchor E. rewrite E in Ha. by to_prop.
Qed.

(** How a message moves the state of a migrator. *)
Inductive moves (m : AbodeMigrator) (env : Envelope) : AbodeState → AbodeState → Prop :=
  | moves_none s : moves m env s s
  | moves_set s payload :
      reads env (MSetState payload) → am_pending m = None → (∀ to, s ≠ Migrated to) →
      moves m env s (Authoritative payload)
  | moves_restore snapshot note challenge inner :
      reads env (MRestoreRequest snapshot note challenge) → admissible snapshot inner m →
      moves m env Empty (Authoritative inner)
  | moves_seal payload p reason sig pubkey :
      am_pending m = Some p → hd_corr (ev_header env) = Some (pm_consult_corr p) →
      reads env (MRestoreResponse true reason (pm_challenge p) (pm_destination_node p) sig pubkey) →
      pm_snapshot_state_hash p = compute_state_hash (wrap_payload_v0_3 payload) →
      (am_require_signed_responders m = true → witnessed m p payload sig pubkey) →
      moves m env (Authoritative payload) (Migrated (pm_destination_node p)).

(** The migration in flight is one that the operator asked for. *)
Definition asked_for (steps : list (result string bytes * Envelope)) (p : PendingMigration) : Prop :=
  ∃ seed env creature, (Ok seed, env) ∈ steps
    ∧ reads env (MMigrate (pm_destination_node p) creature (pm_expected_responder_pubkey p))
    ∧ pm_challenge p = hex_encode seed ∧ pm_operator_reply_to p = reply_target env
    ∧ pm_operator_corr p = hd_corr (ev_header env).

(** A migration in flight carries the state that the migrator still holds. *)
Definition migrator_ok (steps : list (result string bytes * Envelope)) (m : AbodeMigrator) : Prop :=
  ∀ p, am_pending m = Some p → asked_for steps p ∧ ∃ payload, am_state m = Authoritative payload
    ∧ pm_snapshot_state_hash p = compute_state_hash (wrap_payload_v0_3 payload).

(** What no message changes. *)
Definition same_migrator (m m' : AbodeMigrator) : Prop :=
  am_me m' = am_me m ∧ am_self_node m' = am_self_node m ∧ am_abode_key m' = am_abode_key m
  ∧ am_abode_key_public_hex m' = am_abode_key_public_hex m ∧ am_restore_policy m' = am_restore_policy m
  ∧ am_max_payload_bytes m' = am_max_payload_bytes m
  ∧ am_require_signed_snapshots m' = am_require_signed_snapshots m
  ∧ am_require_signed_responders m' = am_require_signed_responders m ∧ am_verifier m' = am_verifier m.

(** One message. *)
Definition stepped (steps : list (result string bytes * Envelope)) (env : Envelope)
    (m m' : AbodeMigrator) : Prop :=
  moves m env (am_state m) (am_state m') ∧ migrator_ok steps m' ∧ same_migrator m m'.

Lemma stepped_same steps env m : migrator_ok steps m → stepped steps env m m.
Proof. intros O. split_and!; [constructor|done|by split_and!..]. Qed.

Lemma set_state_stepped steps env payload m :
  migrator_ok steps m → reads env (MSetState payload) → stepped steps env m (on_set_state env payload m).2.
Proof.
  intros O R. unfold on_set_state. case_bool_decide; [by apply stepped_same|].
  destruct (am_pending m) eqn:Ep; [by apply stepped_same|].
  assert ((∀ to, am_state m ≠ Migrated to) → stepped steps env m (set_state (Authoritative payload) m)) as Hset.
  { intros Hs. split_and!; [by apply moves_set|intros p Hp; cbn in Hp; congruence|by split_and!]. }
  destruct (am_state m) eqn:Es; [by apply Hset..|by apply stepped_same].
Qed.

Lemma migrate_stepped steps seed env node creature anchor m :
  migrator_ok steps m → reads env (MMigrate node creature anchor) → (seed, env) ∈ steps →
  stepped steps env m (on_migrate seed env node creature anchor m).2.
Proof.
  intros O R Hin. unfold on_migrate. destruct (negb _); [by apply stepped_same|].
  destruct (negb _); [by apply stepped_same|]. destruct (am_pending m) eqn:Ep; [by apply stepped_same|].
  destruct (am_state m) as [|payload|to] eqn:Es; [by apply stepped_same| |by apply stepped_same].
  destruct (am_me m); [|by apply stepped_same]. destruct seed as [seed|e]; cbn.
  - split_and!; [exact (moves_none m env (am_state m))| |by split_and!..]. intros p [= <-]. split.
    + by exists seed, env, creature.
    + by exists payload.
  - split_and!; [exact (moves_none m env (am_state m))|intros p Hp; cbn in Hp; congruence|by split_and!..].
Qed.

Lemma restore_request_stepped steps env snapshot note challenge m :
  migrator_ok steps m → reads env (MRestoreRequest snapshot note challenge) →
  stepped steps env m (on_restore_request show_prefix env snapshot note challenge m).2.
Proof.
  intros O R. unfold on_restore_request. destruct (_ || _); [by apply stepped_same|].
  destruct (am_state m) eqn:Es; [|by apply stepped_same..].
  destruct (restore_gates show_prefix snapshot m) as [inner|] eqn:G; [|by apply stepped_same].
  apply restore_gates_Ok in G. cbn. split_and!; [rewrite Es; by eapply moves_restore| |by split_and!].
  intros p Hp. destruct (O p Hp) as (_ & payload & E & _). congruence.
Qed.

Lemma restore_response_stepped steps env admitted reason challenge node sig pubkey m :
  migrator_ok steps m → reads env (MRestoreResponse admitted reason challenge node sig pubkey) →
  stepped steps env m (on_restore_response env admitted reason challenge node sig pubkey m).2.
Proof.
  intros O R. unfold on_restore_response. destruct (_ || _); [by apply stepped_same|].
  destruct (hd_corr (ev_header env)) as [corr|] eqn:Ec; [|by apply stepped_same].
  destruct (am_pending m) as [p|] eqn:Ep; [|by apply stepped_same].
  case_bool_decide as Hc; [by apply stepped_same|].
  destruct (_ || _) eqn:Ea; [by apply stepped_same|]. to_prop. subst.
  destruct (O p Ep) as (_ & payload & Es & Eh). destruct admitted; cycle 1.
  { split_and!; [constructor|done|by split_and!..]. }
  destruct (_ && _) eqn:Ew; [by apply stepped_same|].
  split_and!; [|done|by split_and!]. cbn. rewrite Es. eapply moves_seal; [done|done|done|done|].
  intros Hr. rewrite Hr in Ew. apply witness_accepted_witnessed; [done|].
  by destruct (witness_accepted _ _ _ _).
Qed.

Lemma handle_stepped steps seed env m :
  migrator_ok steps m → (seed, env) ∈ steps →
  stepped steps env m (migrator_handle show_prefix seed env m).2.
Proof.
  intros O Hin. unfold migrator_handle. case_bool_decide as Hs; [by apply stepped_same|].
  case_bool_decide; [by apply stepped_same|].
  destruct (from_slice (ev_payload env)) as [msg|] eqn:Em; [|by apply stepped_same].
  assert (reads env msg) as R by (by split).
  destruct msg; try by apply stepped_same.
  - by apply set_state_stepped.
  - by apply migrate_stepped.
  - by apply restore_request_stepped.
  - by apply restore_response_stepped.
Qed.

(** ** Histories *)

Fixpoint migrator_run (steps : list (result string bytes * Envelope)) (m : AbodeMigrator) : AbodeMigrator :=
  match steps with
  | [] => m
  | (seed, env) :: steps => migrator_run steps (migrator_handle show_prefix seed env m).2
  end.

Lemma sealed_stays m env to s : moves m env (Migrated to) s → s = Migrated to.
Proof.
  inversion 1; subst; [done|]. match goal with Hs : ∀ to, _ ≠ Migrated to |- _ => by destruct (Hs to) end.
Qed.

Lemma same_migrator_trans m1 m2 m3 : same_migrator m1 m2 → same_migrator m2 m3 → same_migrator m1 m3.
Proof. intros (?&?&?&?&?&?&?&?&?) (?&?&?&?&?&?&?&?&?). split_and!; congruence. Qed.

Lemma run_stepped all steps m :
  steps ⊆ all → migrator_ok all m →
  migrator_ok all (migrator_run steps m) ∧ same_migrator m (migrator_run steps m)
  ∧ ∀ to, am_state m = Migrated to → am_state (migrator_run steps m) = Migrated to.
Proof.
  revert m. induction steps as [|[seed env] steps IH]; intros m Hin O; [by split_and!|]. cbn.
  destruct (handle_stepped all seed env m O) as (M & O' & S); [apply Hin; by left|].
  destruct (IH (migrator_handle show_prefix seed env m).2) as (O2 & S2 & F); [|done|].
  { intros x Hx. apply Hin. by right. }
  split_and!; [done|by eapply same_migrator_trans|]. intros to Hto. apply F. rewrite Hto in M.
  by apply sealed_stays in M.
Qed.

(** ** A migration *)

(** An envelope that brings a dispatch to its receiver. *)
Definition delivers_to (env : Envelope) (d : Dispatch) : Prop :=
  ev_payload env = di_payload d ∧ hd_schema (ev_header env) = di_schema d ∧ hd_corr (ev_header env) = di_corr d.

(** A message that a migrator reads. *)
Definition legible_to (m : AbodeMigrator) (msg : MigratorMsg) : Prop :=
  reads_back msg ∧ blen (to_bytes msg) ≤ max_migrator_message_bytes (am_max_payload_bytes m).

Lemma handle_reads seed env msg m :
  hd_schema (ev_header env) = MIGRATOR_SCHEMA → ev_payload env = to_bytes msg → legible_to m msg →
  migrator_handle show_prefix seed env m
  = match msg with
    | MSetState payload => on_set_state env payload m
    | MSnapshotRequest => (on_snapshot_request env m, m)
    | MMigrate node creature anchor => on_migrate seed env node creature anchor m
    | MStatusQuery => (on_status_query env m, m)
    | MRestoreRequest snapshot note challenge => on_restore_request show_prefix env snapshot note challenge m
    | MRestoreResponse admitted reason challenge node sig pubkey =>
        on_restore_response env admitted reason challenge node sig pubkey m
    | _ => (Outcome_none, m)
    end.
Proof.
  intros Hs Hp [Hr Hl]. unfold migrator_handle. rewrite Hs, Hp.
  rewrite bool_decide_eq_false_2 by (intros n; by apply n). rewrite bool_decide_eq_false_2 by lia.
  rewrite Hr. by destruct msg.
Qed.

Lemma hex_challenge_valid seed : blen seed = 32 → challenge_shape_is_valid (hex_encode seed) = true.
Proof.
  intros Hl. unfold challenge_shape_is_valid. rewrite hex_encode_hexdigits, andb_true_r.
  apply bool_decide_eq_true. rewrite slen_hex_encode. unfold MAX_MIGRATOR_CHALLENGE_BYTES. lia.
Qed.

Lemma key_shapes seed payload :
  optional_hex_shape_is_valid (Some (km_public_hex (from_seed seed))) ED25519_PUBLIC_KEY_HEX_BYTES = true
  ∧ optional_hex_shape_is_valid (Some (km_sign (from_seed seed) payload)) ED25519_SIGNATURE_HEX_BYTES = true.
Proof.
  unfold optional_hex_shape_is_valid, from_seed, km_sign. cbn [km_public_hex km_seed].
  rewrite !hex_encode_hexdigits, !slen_hex_encode. unfold blen. by rewrite ed_public_length, ed_sign_length.
Qed.

Lemma signed_snapshot_admissible ks payload m D :
  am_abode_key m = from_seed ks → am_abode_key_public_hex m = km_public_hex (from_seed ks) →
  am_verifier D = ed25519_verifier → blen (wrap_payload_v0_3 payload) ≤ am_max_payload_bytes D →
  am_restore_policy D (build_signed_snapshot m payload) = Ok tt →
  admissible (build_signed_snapshot m payload) payload D.
Proof.
  intros Ek Ep Ev Hl Hp. split_and!; [done|done|done| |done]. intros _. eexists. split; [done|].
  rewrite Ev. unfold build_signed_snapshot. rewrite Ek, Ep. apply (key_signature_verifies ks).
Qed.

(** The source after it has sent the Abode. *)
Definition in_flight (ask : Envelope) (node : NodeId) (anchor : option string) (seed payload : bytes)
    (S : AbodeMigrator) : AbodeMigrator :=
  set_pending_migration (Some (mkPendingMigration (am_next_consult_corr S) node (hex_encode seed)
    (reply_target ask) (hd_corr (ev_header ask)) anchor (ab_state_hash (build_signed_snapshot S payload))))
    (migrator_bump_corr S).

Lemma migrate_sends ask node creature anchor seed payload s S :
  am_state S = Authoritative payload → am_pending S = None → am_me S = Some s →
  migrator_node_id_shape_is_valid node = true →
  optional_hex_shape_is_valid anchor ED25519_PUBLIC_KEY_HEX_BYTES = true →
  on_migrate (Ok seed) ask node creature anchor S
  = (Outcome_send (restore_dispatch ask node creature s (am_next_consult_corr S)
       (MRestoreRequest (build_signed_snapshot S payload) None (hex_encode seed)) (migrator_bump_corr S)),
     in_flight ask node anchor seed payload S).
Proof. intros Es Ep Em Hn Ha. unfold on_migrate. by rewrite Hn, Ha, Ep, Es, Em. Qed.

Lemma restore_dispatch_fields ask node creature s corr msg S :
  let d := restore_dispatch ask node creature s corr msg S in
  di_to d = (if bool_decide (node = am_self_node S) then ACreature creature else ANode node creature)
  ∧ di_payload d = to_bytes msg ∧ di_schema d = MIGRATOR_SCHEMA ∧ di_corr d = Some corr
  ∧ di_reply_to d = Some (ACreature s).
Proof. unfold restore_dispatch. by destruct (hd_commitment (ev_header ask)). Qed.

(** What the destination answers. *)
Definition admits (snapshot : AbodeSnapshot) (challenge : string) (D : AbodeMigrator) : MigratorMsg :=
  MRestoreResponse true None challenge (am_self_node D)
    (Some (km_sign (am_abode_key D) (responder_witness_payload (ab_abode_key snapshot)
       (ab_state_hash snapshot) challenge (am_self_node D) (am_abode_key_public_hex D))))
    (Some (am_abode_key_public_hex D)).
Definition refuses (reason challenge : string) (D : AbodeMigrator) : MigratorMsg :=
  MRestoreResponse false (Some (bounded_migrator_reason reason)) challenge (am_self_node D) None None.

Lemma destination_admits env snapshot challenge inner D :
  challenge_shape_is_valid challenge = true → am_state D = Empty → admissible snapshot inner D →
  on_restore_request show_prefix env snapshot None challenge D
  = (migrator_reply env (admits snapshot challenge D), set_state (Authoritative inner) D).
Proof.
  intros Hc Es A%restore_gates_Ok. unfold on_restore_request. rewrite Hc, Es. cbn. by rewrite A.
Qed.

(** The destination can take the Abode: it holds none, has room for it, and its policy
    admits it. *)
Definition can_take (snapshot : AbodeSnapshot) (D : AbodeMigrator) : Prop :=
  am_state D = Empty ∧ blen (ab_payload_bytes snapshot) ≤ am_max_payload_bytes D
  ∧ am_restore_policy D snapshot = Ok tt.

Lemma can_take_dec snapshot D : can_take snapshot D ∨ ¬ can_take snapshot D.
Proof.
  unfold can_take. destruct (am_state D); [|by right; intros (? & _)..].
  destruct (decide (blen (ab_payload_bytes snapshot) ≤ am_max_payload_bytes D)); [|right; naive_solver].
  destruct (am_restore_policy D snapshot) as [[]|]; [by left|right; naive_solver].
Qed.

Lemma destination_refuses env snapshot challenge D :
  challenge_shape_is_valid challenge = true → ¬ can_take snapshot D →
  ∃ reason, on_restore_request show_prefix env snapshot None challenge D
            = (migrator_reply env (refuses reason challenge D), D).
Proof.
  intros Hc Ht. unfold on_restore_request. rewrite Hc. cbn.
  destruct (am_state D) eqn:Es; [|by eexists..].
  destruct (restore_gates show_prefix snapshot D) as [inner|reason] eqn:G; [|by eexists].
  apply restore_gates_Ok in G as (_ & Hl & _ & _ & Hp). by destruct Ht.
Qed.

Lemma source_seals env p snapshot challenge kd D S :
  am_pending S = Some p → hd_corr (ev_header env) = Some (pm_consult_corr p) →
  challenge_shape_is_valid challenge = true → pm_challenge p = challenge →
  migrator_node_id_shape_is_valid (am_self_node D) = true → pm_destination_node p = am_self_node D →
  am_abode_key D = from_seed kd → am_abode_key_public_hex D = km_public_hex (from_seed kd) →
  am_verifier S = ed25519_verifier → ab_abode_key snapshot = am_abode_key_public_hex S →
  ab_state_hash snapshot = pm_snapshot_state_hash p →
  (am_require_signed_responders S = true → ∀ anchor, pm_expected_responder_pubkey p = Some anchor →
     anchor = am_abode_key_public_hex D) →
  ∀ reason sig pubkey, admits snapshot challenge D
    = MRestoreResponse true reason challenge (am_self_node D) sig pubkey →
  on_restore_response env true reason challenge (am_self_node D) sig pubkey S
  = (Outcome_send (operator_reply (pm_operator_reply_to p) (pm_operator_corr p) (MMigrateAck (am_self_node D))),
     set_state (Migrated (am_self_node D)) (set_pending_migration None S)).
Proof.
  intros Ep Ec Hc Ech Hn En Ek Epk Ev Ea Eh Hanchor reason sig pubkey [= <- <- <-].
  unfold on_restore_response. rewrite Hc, Hn, Epk, Ek.
  destruct (key_shapes kd (responder_witness_payload (ab_abode_key snapshot) (ab_state_hash snapshot)
    challenge (am_self_node D) (km_public_hex (from_seed kd)))) as [K1 K2].
  rewrite K1, K2, Ec, Ep. cbn [negb orb]. rewrite Ech, En, !bool_decide_eq_false_2 by (intros n; by apply n).
  cbn [orb]. destruct (am_require_signed_responders S); [|done]. specialize (Hanchor eq_refl).
  assert (witness_accepted p (Some (km_sign (from_seed kd) (responder_witness_payload
      (ab_abode_key snapshot) (ab_state_hash snapshot) challenge (am_self_node D) (km_public_hex (from_seed kd)))))
      (Some (km_public_hex (from_seed kd))) S = true) as ->.
  { unfold witness_accepted. rewrite Ev, <- Eh, <- Ea, Ech, En, key_signature_verifies. cbn.
    destruct (pm_expected_responder_pubkey p) as [anchor|]; [|done]. apply bool_decide_eq_true.
    by rewrite (Hanchor anchor), Epk. }
  done.
Qed.

(** An answer under another key than the anchor is ignored. *)
Lemma source_ignores env p anchor admitted reason challenge node sig S pk :
  am_pending S = Some p → am_require_signed_responders S = true →
  pm_expected_responder_pubkey p = Some anchor → anchor ≠ pk → admitted = true →
  on_restore_response env admitted reason challenge node sig (Some pk) S = (Outcome_none, S).
Proof.
  intros Ep Er Ea Hne ->. unfold on_restore_response. destruct (_ || _); [done|].
  destruct (hd_corr _); [|done]. rewrite Ep. case_bool_decide; [done|]. destruct (_ || _); [done|].
  rewrite Er. unfold witness_accepted. destruct sig; [|done].
  by rewrite Ea, bool_decide_eq_false_2, andb_false_r by done.
Qed.

Lemma source_keeps env p challenge reason D S :
  am_pending S = Some p → hd_corr (ev_header env) = Some (pm_consult_corr p) →
  challenge_shape_is_valid challenge = true → pm_challenge p = challenge →
  migrator_node_id_shape_is_valid (am_self_node D) = true → pm_destination_node p = am_self_node D →
  ∃ told, on_restore_response env false (Some (bounded_migrator_reason reason)) challenge (am_self_node D) None None S
    = (Outcome_send (operator_reply (pm_operator_reply_to p) (pm_operator_corr p) (MMigrateFailed told)),
       set_pending_migration None S).
Proof.
  intros Ep Ec Hc Ech Hn En. unfold on_restore_response. rewrite Hc, Hn, Ec, Ep. cbn [negb orb optional_hex_shape_is_valid].
  rewrite Ech, En, !bool_decide_eq_false_2 by (intros n; by apply n). by eexists.
Qed.
End laws.

(** ** A concrete migration *)

Module migrator_sample.
Definition ks : bytes := replicate 32 Byte.x07.
Definition kd : bytes := replicate 32 Byte.x09.
Definition seed : bytes := replicate 32 Byte.x2a.
Definition payload : bytes := [Byte.x01; Byte.x02].
#[local] Instance snapshots : SerdeJson AbodeSnapshot := {| to_vec _ := Ok []; from_slice _ := Err "" |}.
#[local] Instance witnesses : SerdeJson Witness := countable_serde _.
Definition source : AbodeMigrator :=
  migrator_bind 3 (set_state (Authoritative payload)
    (@AbodeMigrator_new toy_ed25519 "node-A" (@from_seed _ toy_keys ks) PermissiveRestorePolicy)).
Definition destination : AbodeMigrator :=
  migrator_bind 4 (@AbodeMigrator_new toy_ed25519 "node-B" (@from_seed _ toy_keys kd) PermissiveRestorePolicy).
Definition anchor : option string := Some (am_abode_key_public_hex destination).
Definition migrate : MigratorMsg := MMigrate "node-B" 4 anchor.
Definition snapshot : AbodeSnapshot := @build_signed_snapshot zero_sha toy_ed25519 toy_keys snapshots source payload.
Definition request : MigratorMsg := MRestoreRequest snapshot None (hex_encode seed).
Definition response : MigratorMsg :=
  @admits toy_ed25519 toy_keys witnesses snapshot (hex_encode seed) destination.
(** Each message of the example has a byte of its own. *)
#[local] Instance messages : SerdeJson MigratorMsg :=
  {| to_vec m := Ok (match m with MMigrate _ _ _ => [] | MRestoreRequest _ _ _ => [Byte.x01] | _ => [Byte.x02] end);
     from_slice b := Ok (match b with [] => migrate | [Byte.x01] => request | _ => response end) |}.
Definition env_of (d : Dispatch) : Envelope :=
  mkEnvelope (mkHeader (ACreature 1) (ACreature 7) (di_reply_to d) 3 [] 0 "" (di_corr d) None (di_schema d) None)
    (di_payload d).
Definition ask : Envelope := env_of (mkDispatch (ACreature 3) None [] MIGRATOR_SCHEMA (Some 12) None).
End migrator_sample.

(** ** Properties *)

(** C30: authority moves only by proof. Whatever messages a migrator receives after it
    starts idle, each changes its state only in one of three ways: the operator sets
    the state, while none is in flight and it is not sealed; an empty migrator
    restores the state of a snapshot that is intact, within the limit, signed by its
    key if signatures are required, and that the policy admits; or an authoritative
    one is sealed by an admitting response that names the destination the operator
    asked for and echoes the challenge drawn for that migration. If the migrator
    requires signed responders, as it does unless it was told otherwise, that response
    carries a signature, valid under the key it names, over the hash of the state that
    the migrator holds, the challenge, the node and that key, and the key is the anchor
    that the operator gave; without an anchor any key will do, and if unsigned
    responders are allowed no signature is needed. A migration in flight is one that was
    asked for and carries the state that is still held; and a sealed migrator stays
    sealed for ever. *)
Theorem authority_moves_by_proof `{!Sha256} `{!Ed25519} `{!Ed25519Keys} `{!SerdeJson AbodeSnapshot}
    `{!SerdeJson MigratorMsg} `{!SerdeJson Witness} (show_prefix : bytes → string) (m0 : AbodeMigrator)
    (Hidle : am_pending m0 = None) (steps : list (result string bytes * Envelope)) :
  let m := migrator_run show_prefix steps m0 in
  same_migrator m0 m
  ∧ (∀ p, am_pending m = Some p → asked_for steps p
       ∧ ∃ payload, am_state m = Authoritative payload
         ∧ pm_snapshot_state_hash p = compute_state_hash (wrap_payload_v0_3 payload))
  ∧ (∀ seed env, moves m env (am_state m) (am_state (migrator_handle show_prefix seed env m).2))
  ∧ ∀ to more, am_state m = Migrated to → am_state (migrator_run show_prefix more m) = Migrated to.
Proof.
  cbv zeta. assert (∀ all, migrator_ok all m0) as O0 by (intros all p Hp; congruence).
  destruct (run_stepped show_prefix steps steps m0 (reflexivity _) (O0 steps)) as (O & S & _).
  split_and!; [done|exact O| |].
  - intros seed env. destruct (run_stepped show_prefix ((seed, env) :: steps) steps m0) as (O' & _); [by intros x ?; right|done|].
    apply (handle_stepped show_prefix ((seed, env) :: steps) seed env); [done|by left].
  - intros to more Hto. destruct (run_stepped show_prefix (steps ++ more) steps m0) as (O' & _);
      [intros x ?; apply elem_of_app; auto|done|].
    apply (run_stepped show_prefix (steps ++ more) more); [intros x ?; apply elem_of_app; auto|done|done].
Qed.

Lemma authority_moves_by_proof_witness :
  let run := @migrator_run zero_sha toy_ed25519 toy_keys migrator_sample.snapshots migrator_sample.messages
    migrator_sample.witnesses (fun _ => "") in
  ∃ p, am_pending (run [(Ok migrator_sample.seed, migrator_sample.ask)] migrator_sample.source) = Some p
    ∧ @asked_for migrator_sample.messages [(Ok migrator_sample.seed, migrator_sample.ask)] p.
Proof.
  cbv zeta. destruct (@authority_moves_by_proof zero_sha toy_ed25519 toy_keys migrator_sample.snapshots
    migrator_sample.messages migrator_sample.witnesses (fun _ => "") migrator_sample.source eq_refl
    [(Ok migrator_sample.seed, migrator_sample.ask)]) as (_ & Hp & _).
  eexists. split; [reflexivity|]. apply Hp. reflexivity.
Defined.

(** A sealed migrator still signs: asked for a snapshot, it answers with one of an
    empty state that an empty migrator with room for the prefix admits when its
    policy does. *)
Theorem sealed_migrator_signs `{!Sha256} `{!Ed25519} (Y : Ed25519Keys) `{!SerdeJson AbodeSnapshot}
    `{!SerdeJson MigratorMsg} (env : Envelope) (m D : AbodeMigrator) (ks : bytes) (to : NodeId)
    (Hs : am_state m = Migrated to)
    (Hk : am_abode_key m = from_seed ks ∧ am_abode_key_public_hex m = km_public_hex (from_seed ks))
    (Hv : am_verifier D = ed25519_verifier) (Hroom : 4 ≤ am_max_payload_bytes D) :
  on_snapshot_request env m = migrator_reply env (MSnapshotReply (build_signed_snapshot m []))
  ∧ (am_restore_policy D (build_signed_snapshot m []) = Ok tt → admissible (build_signed_snapshot m []) [] D).
Proof.
  destruct Hk as [Ek Ep]. split; [unfold on_snapshot_request; by rewrite Hs|]. intros Hp.
  by apply (signed_snapshot_admissible ks).
Qed.

(** C31: how a migration ends, when its messages are delivered and read. When the
    operator asks an idle, bound and authoritative migrator to migrate to a well-named
    node, it sends the signed state to that node and stays authoritative until it reads
    an answer. A destination that is empty, has room and whose policy admits the state
    becomes authoritative for exactly that state and answers; any other destination
    keeps its state and refuses. The source that reads the answer of a destination that
    took the state is sealed to it, with nothing in flight, and tells the operator, if
    the operator gave no anchor or the key of the destination, or unsigned responders
    are allowed; otherwise it ignores the answer: it stays authoritative with the
    migration in flight, as the destination is, and tells nobody. The source that reads
    a refusal keeps its state and authority and tells the operator. *)
Theorem migration_hands_over `{!Sha256} `{!Ed25519} (Y : Ed25519Keys) `{!SerdeJson AbodeSnapshot}
    `{!SerdeJson MigratorMsg} `{!SerdeJson Witness} (show_prefix : bytes → string)
    (S D : AbodeMigrator) (ks kd seed payload : bytes) (s creature : CreatureId) (anchor : option string)
    (HS : am_state S = Authoritative payload) (Hidle : am_pending S = None) (Hme : am_me S = Some s)
    (HkS : am_abode_key S = from_seed ks ∧ am_abode_key_public_hex S = km_public_hex (from_seed ks))
    (HkD : am_abode_key D = from_seed kd ∧ am_abode_key_public_hex D = km_public_hex (from_seed kd))
    (HvS : am_verifier S = ed25519_verifier) (HvD : am_verifier D = ed25519_verifier)
    (Hnode : migrator_node_id_shape_is_valid (am_self_node D) = true)
    (Hanchor : optional_hex_shape_is_valid anchor ED25519_PUBLIC_KEY_HEX_BYTES = true)
    (Hseed : blen seed = 32)
    (ask : Envelope) (Hschema : hd_schema (ev_header ask) = MIGRATOR_SCHEMA)
    (Hask : ev_payload ask = to_bytes (MMigrate (am_self_node D) creature anchor))
    (L1 : legible_to S (MMigrate (am_self_node D) creature anchor))
    (L2 : legible_to D (MRestoreRequest (build_signed_snapshot S payload) None (hex_encode seed)))
    (L3 : legible_to S (admits (build_signed_snapshot S payload) (hex_encode seed) D))
    (L4 : ¬ can_take (build_signed_snapshot S payload) D →
          ∀ reason, legible_to S (refuses reason (hex_encode seed) D)) :
  let takes := can_take (build_signed_snapshot S payload) D in
  let trusts := am_require_signed_responders S = true → anchor = None
                ∨ anchor = Some (am_abode_key_public_hex D) in
  let tells msg := Outcome_send (operator_reply (reply_target ask) (hd_corr (ev_header ask)) msg) in
  ∃ d S1, migrator_handle show_prefix (Ok seed) ask S = (Outcome_send d, S1)
    ∧ di_to d = (if bool_decide (am_self_node D = am_self_node S) then ACreature creature
                 else ANode (am_self_node D) creature)
    ∧ am_state S1 = Authoritative payload
    ∧ ∀ seed1 env1, delivers_to env1 d →
      ∃ reply D1, migrator_handle show_prefix seed1 env1 D = (Outcome_send reply, D1)
      ∧ (takes → am_state D1 = Authoritative payload) ∧ (¬ takes → D1 = D)
      ∧ ∀ seed2 env2, delivers_to env2 reply →
        let after := migrator_handle show_prefix seed2 env2 S1 in
        (takes → trusts → after.1 = tells (MMigrateAck (am_self_node D))
           ∧ am_state after.2 = Migrated (am_self_node D) ∧ am_pending after.2 = None)
        ∧ (takes → ¬ trusts → after = (Outcome_none, S1))
        ∧ (¬ takes → (∃ reason, after.1 = tells (MMigrateFailed reason))
             ∧ am_state after.2 = Authoritative payload ∧ am_pending after.2 = None).
Proof.
  cbv zeta. destruct HkS as [Ek Ep], HkD as [Fk Fp]. pose proof (hex_challenge_valid seed Hseed) as Hc.
  set (snapshot := build_signed_snapshot S payload) in *.
  eexists _, (in_flight ask (am_self_node D) anchor seed payload S).
  rewrite (handle_reads show_prefix (Ok seed) ask _ S Hschema Hask L1).
  split; [by apply migrate_sends|].
  destruct (restore_dispatch_fields ask (am_self_node D) creature s (am_next_consult_corr S)
    (MRestoreRequest snapshot None (hex_encode seed)) (migrator_bump_corr S)) as (Dt & Dp & Ds & Dc & _).
  split; [exact Dt|]. split; [done|]. intros seed1 env1 (P1 & P2 & P3).
  rewrite (handle_reads show_prefix seed1 env1 (MRestoreRequest snapshot None (hex_encode seed)) D
    (eq_trans P2 Ds) (eq_trans P1 Dp) L2).
  pose proof (eq_trans P3 Dc : hd_corr (ev_header env1) = Some (am_next_consult_corr S)) as Ec.
  destruct (can_take_dec snapshot D) as [T|T].
  - destruct T as (ED & Hroom & Hpolicy).
    pose proof (signed_snapshot_admissible ks payload S D Ek Ep HvD Hroom Hpolicy) as A.
    rewrite (destination_admits show_prefix env1 snapshot (hex_encode seed) payload D Hc ED A).
    eexists _, _. split; [done|]. split; [done|]. split; [intros n; by destruct n|].
    intros seed2 env2 (Q1 & Q2 & Q3).
    rewrite (handle_reads show_prefix seed2 env2 (admits snapshot (hex_encode seed) D)) by done.
    unfold admits. cbn beta iota. split_and!; [intros _ Htrust|intros _ Hno|intros n; by destruct n].
    + rewrite (source_seals env2 (mkPendingMigration (am_next_consult_corr S) (am_self_node D)
        (hex_encode seed) (reply_target ask) (hd_corr (ev_header ask)) anchor (ab_state_hash snapshot))
        snapshot (hex_encode seed) kd D); try done; [by rewrite Q3|].
      intros Hr a Ha. cbn in Hr, Ha. by destruct (Htrust Hr) as [->| ->]; simplify_eq/=.
    + destruct (am_require_signed_responders S) eqn:Er; [|by destruct Hno].
      destruct anchor as [a|]; [|destruct Hno; by left].
      eapply (source_ignores env2); [done|done|done| |done]. intros ->. destruct Hno. by right.
  - destruct (destination_refuses show_prefix env1 snapshot (hex_encode seed) D Hc T) as [reason ->].
    eexists _, _. split; [done|]. split; [by intros ?|]. split; [done|]. intros seed2 env2 (Q1 & Q2 & Q3).
    rewrite (handle_reads show_prefix seed2 env2 (refuses reason (hex_encode seed) D)) by (done || (by apply L4)).
    unfold refuses. cbn beta iota. split_and!; [by intros ?..|]. intros _.
    destruct (source_keeps env2 (mkPendingMigration (am_next_consult_corr S) (am_self_node D) (hex_encode seed)
      (reply_target ask) (hd_corr (ev_header ask)) anchor (ab_state_hash snapshot)) (hex_encode seed) reason D
      (in_flight ask (am_self_node D) anchor seed payload S)) as [told ->]; try done; [by rewrite Q3|].
    split; [by eexists|done].
Qed.

Lemma migration_hands_over_witness :
  ∃ S2, let handle := @migrator_handle zero_sha toy_ed25519 toy_keys migrator_sample.snapshots
      migrator_sample.messages migrator_sample.witnesses (fun _ => "") in
    ∃ env2 S1, (handle (Ok []) env2 S1).2 = S2 ∧ am_state S2 = Migrated "node-B".
Proof.
  destruct (@migration_hands_over zero_sha toy_ed25519 toy_keys migrator_sample.snapshots
    migrator_sample.messages migrator_sample.witnesses (fun _ => "") migrator_sample.source
    migrator_sample.destination migrator_sample.ks migrator_sample.kd migrator_sample.seed
    migrator_sample.payload 3 4 migrator_sample.anchor eq_refl eq_refl eq_refl ltac:(done) ltac:(done)
    eq_refl eq_refl eq_refl eq_refl eq_refl migrator_sample.ask
    eq_refl eq_refl ltac:(split; vm_compute; done) ltac:(split; vm_compute; done)
    ltac:(split; vm_compute; done) ltac:(intros []; split_and!; vm_compute; done))
    as (d & S1 & _ & _ & _ & H).
  destruct (H (Ok []) (migrator_sample.env_of d)) as (reply & D1 & _ & _ & _ & H2); [done|].
  destruct (H2 (Ok []) (migrator_sample.env_of reply)) as (H3 & _ & _); [done|].
  destruct H3 as (_ & Hs & _); [split_and!; vm_compute; done|by right|].
  exists (@migrator_handle zero_sha toy_ed25519 toy_keys migrator_sample.snapshots
    migrator_sample.messages migrator_sample.witnesses (fun _ => "") (Ok [])
    (migrator_sample.env_of reply) S1).2, (migrator_sample.env_of reply), S1.
  split; [reflexivity|exact Hs].
Defined.
