(* ===== verification/NetAddr.v ===== *)
(** * Socket addresses

    What [transport-tcp] uses of [std::net]: whether a text parses as a
    [SocketAddr]. The parser of the standard library is followed function by
    function ([Parser::read_number], [read_ipv4_addr], [read_ipv6_addr],
    [read_port], ...); a function returns the rest of the text, and what it read
    where the caller looks at it. *)

From S2P Require Import Prelude.

(** [char::to_digit]. *)
Definition to_digit (radix : N) (c : Ascii.ascii) : option N :=
  let b := Ascii.N_of_ascii c in
  let d :=
    if in_range 48 57 b then Some (b - 48)
    else if in_range 97 122 b then Some (b - 87)
    else if in_range 65 90 b then Some (b - 55)
    else None in
  match d with Some d => if bool_decide (d < radix) then Some d else None | None => None end.

Definition read_given_char (c : Ascii.ascii) (s : string) : option string :=
  match s with
  | String a s => if bool_decide (a = c) then Some s else None
  | EmptyString => None
  end.

(** The digits of [read_number]: [max] bounds the value, [digits] what may still
    be read where the caller limits them. *)
Fixpoint read_digits (radix max : N) (digits : option nat) (value : N) (count : nat) (s : string) :
    option (N * nat * string) :=
  match s with
  | EmptyString => Some (value, count, s)
  | String c rest =>
      match to_digit radix c with
      | None => Some (value, count, s)
      | Some d =>
          let value' := value * radix + d in
          if bool_decide (max < value') then None
          else
            match digits with
            | Some 0%nat => None
            | Some (S k) => read_digits radix max (Some k) value' (S count) rest
            | None => read_digits radix max None value' (S count) rest
            end
      end
  end.

Definition read_number (radix max : N) (max_digits : option nat) (allow_zero_prefix : bool)
    (s : string) : option (N * string) :=
  match read_digits radix max max_digits 0 0 s with
  | None => None
  | Some (value, count, rest) =>
      let leading_zero :=
        match s with String c _ => bool_decide (c = Ascii.ascii_of_N 48) | EmptyString => false end in
      if bool_decide (count = 0%nat) then None
      else if negb allow_zero_prefix && leading_zero && bool_decide (1 < count)%nat then None
      else Some (value, rest)
  end.

Definition read_separator {A} (sep : Ascii.ascii) (index : nat) (inner : string → option A)
    (s : string) : option A :=
  match index with
  | O => inner s
  | S _ => match read_given_char sep s with Some s => inner s | None => None end
  end.

Definition DOT : Ascii.ascii := Ascii.ascii_of_N 46.
Definition COLON_SEP : Ascii.ascii := Ascii.ascii_of_N 58.

Definition read_octet (index : nat) (s : string) : option string :=
  match read_separator DOT index (read_number 10 255 (Some 3%nat) false) s with
  | Some (_, rest) => Some rest
  | None => None
  end.

Definition read_ipv4_addr (s : string) : option string :=
  match read_octet 0 s with
  | None => None
  | Some s =>
      match read_octet 1 s with
      | None => None
      | Some s => match read_octet 2 s with None => None | Some s => read_octet 3 s end
      end
  end.

(** [read_groups] over the slots [i, i + 1, ..] of [limit]: the groups read,
    whether they end in an IPv4 address, and the rest. *)
Fixpoint read_groups (slots i limit : nat) (s : string) : nat * bool * string :=
  match slots with
  | O => (limit, false, s)
  | S slots =>
      let ipv4 :=
        if bool_decide (S i < limit)%nat then read_separator COLON_SEP i read_ipv4_addr s else None in
      match ipv4 with
      | Some rest => ((i + 2)%nat, true, rest)
      | None =>
          match read_separator COLON_SEP i (read_number 16 65535 (Some 4%nat) true) s with
          | Some (_, rest) => read_groups slots (S i) limit rest
          | None => (i, false, s)
          end
      end
  end.

Definition read_ipv6_addr (s : string) : option string :=
  let '(head_size, head_ipv4, rest) := read_groups 8 0 8 s in
  if bool_decide (head_size = 8%nat) then Some rest
  else if head_ipv4 then None
  else
    match read_given_char COLON_SEP rest with
    | None => None
    | Some rest =>
        match read_given_char COLON_SEP rest with
        | None => None
        | Some rest =>
            let limit := (8 - (head_size + 1))%nat in
            let '(_, _, rest) := read_groups limit 0 limit rest in Some rest
        end
    end.

Definition read_port (s : string) : option string :=
  match read_given_char COLON_SEP s with
  | None => None
  | Some s => match read_number 10 65535 None true s with Some (_, s) => Some s | None => None end
  end.

(** [read_scope_id().unwrap_or(0)]: a scope that does not parse is not consumed. *)
Definition read_scope_id (s : string) : string :=
  match read_given_char (Ascii.ascii_of_N 37) s with
  | None => s
  | Some rest =>
      match read_number 10 u32_MAX None true rest with Some (_, rest) => rest | None => s end
  end.

Definition read_socket_addr_v4 (s : string) : option string :=
  match read_ipv4_addr s with Some s => read_port s | None => None end.

Definition read_socket_addr_v6 (s : string) : option string :=
  match read_given_char (Ascii.ascii_of_N 91) s with
  | None => None
  | Some s =>
      match read_ipv6_addr s with
      | None => None
      | Some s =>
          match read_given_char (Ascii.ascii_of_N 93) (read_scope_id s) with
          | None => None
          | Some s => read_port s
          end
      end
  end.

(** [addr.parse::<SocketAddr>().is_ok()]: the whole text is consumed. *)
Definition parses_as_socket_addr (s : string) : bool :=
  match
    match read_socket_addr_v4 s with Some rest => Some rest | None => read_socket_addr_v6 s end
  with
  | Some rest => bool_decide (rest = "")
  | None => false
  end.

Example socket_addr_samples :
  map parses_as_socket_addr
    ["127.0.0.1:9001"; "[::1]:9001"; "[fe80::1%3]:80"; "[::ffff:1.2.3.4]:1"; "[1:2:3:4:5:6:7:8]:0";
     "localhost:9001"; "127.0.0.1"; "127.0.0.01:1"; "1.2.3.256:1"; "1.2.3.4:65536"; "[1::2::3]:1";
     "[1:2:3:4:5:6:7:8:9]:1"; "1.2.3.4:80 "]
  = [true; true; true; true; true; false; false; false; false; false; false; false; false].
Proof. reflexivity. Qed.
