(* ===== verification/Transport.v ===== *)
(** * The TCP transport

    [cosmos/creatures/transport-tcp/src/lib.rs]: the authenticated peer links of a
    node. It admits peers, shakes hands with them, carries envelopes, gossip and
    transfer chunks over length-prefixed frames, and routes what arrives onto the
    local bus.

    A critical section of a thread is one operation on [TransportState]: a turn of a
    dialer, one handshake, one frame of a reader, one message of the handler. The
    fields after [ts_max_inbound_handshakes] stand for what the operating system and
    the bus hold: the links with the threads that serve them, the dialers that run,
    and the calls made on the bus in their order. A [SyncSender] is the index of its
    link. Failing system calls, the random nonce and what a peer sends are arguments. *)

From stdpp Require Import countable sorting.
From S2P Require Import Prelude Serde GxShape GxWire GxFrame GxHash FnCrypto.
From S2P Require Import AetherAddress AetherEnvelope AetherRouter AetherBus Die Sigil Federator Registry.
From S2P Require Import NetAddr.

Definition HANDSHAKE_DOMAIN : bytes := bytes_of_string "GAWD-NODE-AUTH-v1:".
Definition PUBKEY_BYTES : nat := 32.
Definition NONCE_BYTES : nat := 32.
Definition SIG_BYTES : nat := 64.
Definition DEFAULT_MAX_INBOUND_HANDSHAKES : N := 64.
Definition PEER_QUEUE_DEPTH : N := 1024.
Definition MAX_FRAME_BYTES : N := 128 * 1024 * 1024.
Definition GX_FRAME_PREFIX : bytes := [Byte.x47; Byte.x58; Byte.x31; Byte.x00].
Definition MAX_GOSSIP_MEMBERS : N := 1024.
Definition MAX_GX_ROUTES_PER_PEER : N := 4096.
Definition DEFAULT_MAX_MEMBERS : N := MAX_GOSSIP_MEMBERS - 1.
Definition MAX_MEMBER_NODE_ID_BYTES : N := 256.
Definition MAX_MEMBER_ADDR_BYTES : N := 512.
Definition TRANSPORT_CTL_SCHEMA : string := "transport.ctl".
Definition GX_CHUNK_SCHEMA : string := TRANSPORT_GX_CHUNK_SCHEMA.
Definition MAX_TRANSPORT_CTL_BYTES : N := 64 * 1024.
Definition MAX_TRANSPORT_CTL_REPLY_BYTES : N := 1024 * 1024.
Definition ORIGIN_EVENT_SCHEMA : string := "origin_verdict".

(** ** Data *)

Record PeerConfig : Type := mkPeerConfig {
  pc_node_id : NodeId;
  pc_pubkey_hex : string;
  pc_dial_addr : option string
}.

Record TransportConfig : Type := mkTransportConfig {
  tc_self_key : Ed25519KeyMaterial;
  tc_self_node : NodeId;
  tc_listen_addr : string;
  tc_peers : list PeerConfig
}.

Record PeerEvent : Type := mkPeerEvent { pv_peer : string; pv_event : string }.

Record MemberInfo : Type := mkMemberInfo { mi_pubkey_hex : string; mi_addr : string }.

Record GossipMember : Type := mkGossipMember {
  gm_node_id : string;
  gm_pubkey_hex : string;
  gm_addr : string
}.

Record GxRouteBind : Type := mkGxRouteBind {
  gb_transfer_id : string;
  gb_target : CreatureId;
  gb_schema : string;
  gb_corr : option N;
  gb_total_chunks : option N
}.

Inductive WireFrame : Type :=
  | FEnv (env : Envelope)
  | FGossip (members : list GossipMember)
  | FGxBind (bind : GxRouteBind).

Record GxRoute : Type := mkGxRoute {
  gr_target : CreatureId;
  gr_schema : string;
  gr_corr : option N;
  gr_total_chunks : option N
}.

(** [PeerFrame]: frames that are queued and written together. *)
Definition PeerFrame : Type := list bytes.

Inductive ParsedWireFrame : Type :=
  | PEnv (env : Envelope)
  | PGossip (members : list GossipMember)
  | PGxBind (bind : GxRouteBind)
  | PGxChunk (header : ChunkFrameHeader) (payload : bytes).

Inductive TransportCtl : Type :=
  | CtlConnect (node_id pubkey_hex addr : string)
  | CtlMembers
  | CtlForget (node_id : string).

Record MemberView : Type := mkMemberView {
  mv_node_id : string;
  mv_addr : string;
  mv_connected : bool
}.

Inductive TransportCtlReply : Type :=
  | RConnecting (node_id : string)
  | RRejected (reason : string)
  | RMembers (self_node : string) (members : list MemberView)
  | RForgotten (node_id : string).

#[export] Instance MemberInfo_eq_dec : EqDecision MemberInfo.
Proof. solve_decision. Defined.
#[export] Instance GxRoute_eq_dec : EqDecision GxRoute.
Proof. solve_decision. Defined.

Inductive InboundTarget : Type :=
  | ToCreature (id : CreatureId)
  | ToRemoteRole (role : Role).

Inductive AdmitMemberResult : Type := Changed | Unchanged | Refused.

#[export] Instance AdmitMemberResult_eq_dec : EqDecision AdmitMemberResult.
Proof. solve_decision. Defined.

(** A connection that was authenticated: its peer and the key the peer proved, the
    channel of its writer, whether its two threads run, and whether the socket was
    shut down. *)
Record Link : Type := mkLink {
  lk_peer : NodeId;
  lk_pubkey : string;
  lk_queue : list PeerFrame;
  lk_reader : bool;
  lk_writer : bool;
  lk_shut : bool
}.

(** A call on the bus. *)
Inductive BusCall : Type :=
  | BEmit (d : Dispatch)
  | BEmitAttested (d : Dispatch) (origin : Origin).

Record TransportState : Type := mkTransportState {
  ts_self_key : Ed25519KeyMaterial;
  ts_self_node : NodeId;
  ts_listen_addr : string;
  ts_peers_by_pubkey : gmap string NodeId;
  ts_members : gmap NodeId MemberInfo;
  ts_max_members : N;
  ts_dialing : gset NodeId;
  ts_gossip : bool;
  ts_advertise_addr : string;
  ts_writers : gmap NodeId nat;
  ts_gx_routes : gmap (NodeId * string) GxRoute;
  ts_origin_seq : gmap (NodeId * CreatureId) N;
  ts_sockets : gmap NodeId (list nat);
  ts_bus : option BusHandle;
  ts_me : option CreatureId;
  ts_stop : bool;
  ts_max_inbound_handshakes : N;
  ts_links : list Link;
  ts_dialers : list PeerConfig;
  ts_calls : list BusCall
}.

(** Updates of the fields. *)
Definition on_peers_by_pubkey (f : gmap string NodeId → gmap string NodeId) (s : TransportState) :
    TransportState :=
  mkTransportState
    (ts_self_key s) (ts_self_node s) (ts_listen_addr s) (f (ts_peers_by_pubkey s)) (ts_members s)
    (ts_max_members s) (ts_dialing s) (ts_gossip s) (ts_advertise_addr s) (ts_writers s)
    (ts_gx_routes s) (ts_origin_seq s) (ts_sockets s) (ts_bus s) (ts_me s) (ts_stop s)
    (ts_max_inbound_handshakes s) (ts_links s) (ts_dialers s) (ts_calls s).
Definition on_members (f : gmap NodeId MemberInfo → gmap NodeId MemberInfo) (s : TransportState) :
    TransportState :=
  mkTransportState
    (ts_self_key s) (ts_self_node s) (ts_listen_addr s) (ts_peers_by_pubkey s) (f (ts_members s))
    (ts_max_members s) (ts_dialing s) (ts_gossip s) (ts_advertise_addr s) (ts_writers s)
    (ts_gx_routes s) (ts_origin_seq s) (ts_sockets s) (ts_bus s) (ts_me s) (ts_stop s)
    (ts_max_inbound_handshakes s) (ts_links s) (ts_dialers s) (ts_calls s).
Definition on_max_members (f : N → N) (s : TransportState) :
    TransportState :=
  mkTransportState
    (ts_self_key s) (ts_self_node s) (ts_listen_addr s) (ts_peers_by_pubkey s) (ts_members s)
    (f (ts_max_members s)) (ts_dialing s) (ts_gossip s) (ts_advertise_addr s) (ts_writers s)
    (ts_gx_routes s) (ts_origin_seq s) (ts_sockets s) (ts_bus s) (ts_me s) (ts_stop s)
    (ts_max_inbound_handshakes s) (ts_links s) (ts_dialers s) (ts_calls s).
Definition on_dialing (f : gset NodeId → gset NodeId) (s : TransportState) :
    TransportState :=
  mkTransportState
    (ts_self_key s) (ts_self_node s) (ts_listen_addr s) (ts_peers_by_pubkey s) (ts_members s)
    (ts_max_members s) (f (ts_dialing s)) (ts_gossip s) (ts_advertise_addr s) (ts_writers s)
    (ts_gx_routes s) (ts_origin_seq s) (ts_sockets s) (ts_bus s) (ts_me s) (ts_stop s)
    (ts_max_inbound_handshakes s) (ts_links s) (ts_dialers s) (ts_calls s).
Definition on_gossip (f : bool → bool) (s : TransportState) :
    TransportState :=
  mkTransportState
    (ts_self_key s) (ts_self_node s) (ts_listen_addr s) (ts_peers_by_pubkey s) (ts_members s)
    (ts_max_members s) (ts_dialing s) (f (ts_gossip s)) (ts_advertise_addr s) (ts_writers s)
    (ts_gx_routes s) (ts_origin_seq s) (ts_sockets s) (ts_bus s) (ts_me s) (ts_stop s)
    (ts_max_inbound_handshakes s) (ts_links s) (ts_dialers s) (ts_calls s).
Definition on_advertise_addr (f : string → string) (s : TransportState) :
    TransportState :=
  mkTransportState
    (ts_self_key s) (ts_self_node s) (ts_listen_addr s) (ts_peers_by_pubkey s) (ts_members s)
    (ts_max_members s) (ts_dialing s) (ts_gossip s) (f (ts_advertise_addr s)) (ts_writers s)
    (ts_gx_routes s) (ts_origin_seq s) (ts_sockets s) (ts_bus s) (ts_me s) (ts_stop s)
    (ts_max_inbound_handshakes s) (ts_links s) (ts_dialers s) (ts_calls s).
Definition on_writers (f : gmap NodeId nat → gmap NodeId nat) (s : TransportState) :
    TransportState :=
  mkTransportState
    (ts_self_key s) (ts_self_node s) (ts_listen_addr s) (ts_peers_by_pubkey s) (ts_members s)
    (ts_max_members s) (ts_dialing s) (ts_gossip s) (ts_advertise_addr s) (f (ts_writers s))
    (ts_gx_routes s) (ts_origin_seq s) (ts_sockets s) (ts_bus s) (ts_me s) (ts_stop s)
    (ts_max_inbound_handshakes s) (ts_links s) (ts_dialers s) (ts_calls s).
Definition on_gx_routes (f : gmap (NodeId * string) GxRoute → gmap (NodeId * string) GxRoute) (s : TransportState) :
    TransportState :=
  mkTransportState
    (ts_self_key s) (ts_self_node s) (ts_listen_addr s) (ts_peers_by_pubkey s) (ts_members s)
    (ts_max_members s) (ts_dialing s) (ts_gossip s) (ts_advertise_addr s) (ts_writers s)
    (f (ts_gx_routes s)) (ts_origin_seq s) (ts_sockets s) (ts_bus s) (ts_me s) (ts_stop s)
    (ts_max_inbound_handshakes s) (ts_links s) (ts_dialers s) (ts_calls s).
Definition on_origin_seq (f : gmap (NodeId * CreatureId) N → gmap (NodeId * CreatureId) N) (s : TransportState) :
    TransportState :=
  mkTransportState
    (ts_self_key s) (ts_self_node s) (ts_listen_addr s) (ts_peers_by_pubkey s) (ts_members s)
    (ts_max_members s) (ts_dialing s) (ts_gossip s) (ts_advertise_addr s) (ts_writers s)
    (ts_gx_routes s) (f (ts_origin_seq s)) (ts_sockets s) (ts_bus s) (ts_me s) (ts_stop s)
    (ts_max_inbound_handshakes s) (ts_links s) (ts_dialers s) (ts_calls s).
Definition on_sockets (f : gmap NodeId (list nat) → gmap NodeId (list nat)) (s : TransportState) :
    TransportState :=
  mkTransportState
    (ts_self_key s) (ts_self_node s) (ts_listen_addr s) (ts_peers_by_pubkey s) (ts_members s)
    (ts_max_members s) (ts_dialing s) (ts_gossip s) (ts_advertise_addr s) (ts_writers s)
    (ts_gx_routes s) (ts_origin_seq s) (f (ts_sockets s)) (ts_bus s) (ts_me s) (ts_stop s)
    (ts_max_inbound_handshakes s) (ts_links s) (ts_dialers s) (ts_calls s).
Definition on_bus (f : option BusHandle → option BusHandle) (s : TransportState) :
    TransportState :=
  mkTransportState
    (ts_self_key s) (ts_self_node s) (ts_listen_addr s) (ts_peers_by_pubkey s) (ts_members s)
    (ts_max_members s) (ts_dialing s) (ts_gossip s) (ts_advertise_addr s) (ts_writers s)
    (ts_gx_routes s) (ts_origin_seq s) (ts_sockets s) (f (ts_bus s)) (ts_me s) (ts_stop s)
    (ts_max_inbound_handshakes s) (ts_links s) (ts_dialers s) (ts_calls s).
Definition on_me (f : option CreatureId → option CreatureId) (s : TransportState) :
    TransportState :=
  mkTransportState
    (ts_self_key s) (ts_self_node s) (ts_listen_addr s) (ts_peers_by_pubkey s) (ts_members s)
    (ts_max_members s) (ts_dialing s) (ts_gossip s) (ts_advertise_addr s) (ts_writers s)
    (ts_gx_routes s) (ts_origin_seq s) (ts_sockets s) (ts_bus s) (f (ts_me s)) (ts_stop s)
    (ts_max_inbound_handshakes s) (ts_links s) (ts_dialers s) (ts_calls s).
Definition on_stop (f : bool → bool) (s : TransportState) :
    TransportState :=
  mkTransportState
    (ts_self_key s) (ts_self_node s) (ts_listen_addr s) (ts_peers_by_pubkey s) (ts_members s)
    (ts_max_members s) (ts_dialing s) (ts_gossip s) (ts_advertise_addr s) (ts_writers s)
    (ts_gx_routes s) (ts_origin_seq s) (ts_sockets s) (ts_bus s) (ts_me s) (f (ts_stop s))
    (ts_max_inbound_handshakes s) (ts_links s) (ts_dialers s) (ts_calls s).
Definition on_max_inbound_handshakes (f : N → N) (s : TransportState) :
    TransportState :=
  mkTransportState
    (ts_self_key s) (ts_self_node s) (ts_listen_addr s) (ts_peers_by_pubkey s) (ts_members s)
    (ts_max_members s) (ts_dialing s) (ts_gossip s) (ts_advertise_addr s) (ts_writers s)
    (ts_gx_routes s) (ts_origin_seq s) (ts_sockets s) (ts_bus s) (ts_me s) (ts_stop s)
    (f (ts_max_inbound_handshakes s)) (ts_links s) (ts_dialers s) (ts_calls s).
Definition on_links (f : list Link → list Link) (s : TransportState) :
    TransportState :=
  mkTransportState
    (ts_self_key s) (ts_self_node s) (ts_listen_addr s) (ts_peers_by_pubkey s) (ts_members s)
    (ts_max_members s) (ts_dialing s) (ts_gossip s) (ts_advertise_addr s) (ts_writers s)
    (ts_gx_routes s) (ts_origin_seq s) (ts_sockets s) (ts_bus s) (ts_me s) (ts_stop s)
    (ts_max_inbound_handshakes s) (f (ts_links s)) (ts_dialers s) (ts_calls s).
Definition on_dialers (f : list PeerConfig → list PeerConfig) (s : TransportState) :
    TransportState :=
  mkTransportState
    (ts_self_key s) (ts_self_node s) (ts_listen_addr s) (ts_peers_by_pubkey s) (ts_members s)
    (ts_max_members s) (ts_dialing s) (ts_gossip s) (ts_advertise_addr s) (ts_writers s)
    (ts_gx_routes s) (ts_origin_seq s) (ts_sockets s) (ts_bus s) (ts_me s) (ts_stop s)
    (ts_max_inbound_handshakes s) (ts_links s) (f (ts_dialers s)) (ts_calls s).
Definition on_calls (f : list BusCall → list BusCall) (s : TransportState) :
    TransportState :=
  mkTransportState
    (ts_self_key s) (ts_self_node s) (ts_listen_addr s) (ts_peers_by_pubkey s) (ts_members s)
    (ts_max_members s) (ts_dialing s) (ts_gossip s) (ts_advertise_addr s) (ts_writers s)
    (ts_gx_routes s) (ts_origin_seq s) (ts_sockets s) (ts_bus s) (ts_me s) (ts_stop s)
    (ts_max_inbound_handshakes s) (ts_links s) (ts_dialers s) (f (ts_calls s)).

Record TransportTcp : Type := mkTransportTcp {
  tt_cfg : TransportConfig;
  tt_state : TransportState
}.

Definition set_link (i : nat) (f : Link → Link) : TransportState → TransportState :=
  on_links (fun ls => alter f i ls).
Definition enqueue (frame : PeerFrame) (l : Link) : Link :=
  mkLink (lk_peer l) (lk_pubkey l) (lk_queue l ++ [frame]) (lk_reader l) (lk_writer l) (lk_shut l).
Definition set_reader (b : bool) (l : Link) : Link :=
  mkLink (lk_peer l) (lk_pubkey l) (lk_queue l) b (lk_writer l) (lk_shut l).
Definition set_writer (b : bool) (l : Link) : Link :=
  mkLink (lk_peer l) (lk_pubkey l) (lk_queue l) (lk_reader l) b (lk_shut l).
(** [Shutdown::Both]. *)
Definition shut (l : Link) : Link :=
  mkLink (lk_peer l) (lk_pubkey l) (lk_queue l) (lk_reader l) (lk_writer l) true.
Definition shut_all (idx : list nat) : TransportState → TransportState :=
  on_links (fun ls => foldl (fun ls i => alter shut i ls) ls idx).

(** The serialisers of the messages. *)
Class TransportSerde : Type := {
  tx_frame :: SerdeJson WireFrame;
  tx_ctl :: SerdeJson TransportCtl;
  tx_ctl_reply :: SerdeJson TransportCtlReply;
  tx_peer_event :: SerdeJson PeerEvent;
  tx_origin_event :: SerdeJson OriginEvent;
  tx_chunk :: SerdeJson ChunkFrameHeader;
  tx_header :: SerdeJson Header
}.

(** The order in which the member table is iterated. *)
Class MemberIter : Type := iter_members : gmap NodeId MemberInfo → list (NodeId * MemberInfo).
Class MemberIterLaw `{!MemberIter} : Prop :=
  iter_members_perm : ∀ m, iter_members m ≡ₚ map_to_list m.

(** ** Shapes *)

Definition is_ascii_alphanumeric (b : N) : bool :=
  in_range 48 57 b || in_range 65 90 b || in_range 97 122 b.
Definition is_ascii_control (b : N) : bool := in_range 0 31 b || bool_decide (b = 127).

Definition validate_cluster_node_id (node_id : NodeId) : option string :=
  if bool_decide (node_id = "") then Some "empty node id"
  else if bool_decide (MAX_MEMBER_NODE_ID_BYTES < slen node_id) then
    Some "node id exceeds transport member byte cap"
  else if negb (all_bytes (fun b => is_ascii_alphanumeric b
                  || bool_decide (b = 46) || bool_decide (b = 95) || bool_decide (b = 45)) node_id) then
    Some "node id contains characters outside [A-Za-z0-9._-]"
  else None.

Definition canonical_peer_pubkey (pubkey_hex : string) : option string :=
  match hex_decode pubkey_hex with
  | None => None
  | Some b => if bool_decide (length b ≠ PUBKEY_BYTES) then None else Some (hex_encode b)
  end.

Definition validate_member_addr (addr : string) : option string :=
  if bool_decide (addr = "") then Some "empty dial address"
  else if bool_decide (MAX_MEMBER_ADDR_BYTES < slen addr) then
    Some "dial address exceeds transport member byte cap"
  else if negb (all_bytes (fun b => negb (is_ascii_control b)) addr) then
    Some "dial address contains control characters"
  else if negb (parses_as_socket_addr addr) then Some "dial address is not an IP socket address"
  else None.

Definition validate_member_shape (node_id : NodeId) (pubkey_hex addr : string) : result string string :=
  match validate_cluster_node_id node_id with
  | Some reason => Err reason
  | None =>
      match canonical_peer_pubkey pubkey_hex with
      | None => Err "malformed ed25519 pubkey"
      | Some pubkey_hex =>
          match validate_member_addr addr with Some reason => Err reason | None => Ok pubkey_hex end
      end
  end.

Definition GxRouteBind_shape_error (b : GxRouteBind) : option string :=
  ChunkRequest_shape_error (mkChunkRequest (gb_transfer_id b) 0) ;;?
  reject_if (bool_decide (gb_target b = KERNEL_ID))
    "GX chunks may not target the reserved local KERNEL_ID" ;;?
  reject_if (bool_decide (gb_schema b ≠ GX_CHUNK_SCHEMA))
    ("GX bind schema must be `" +:+ GX_CHUNK_SCHEMA +:+ "`") ;;?
  reject_if (bool_decide (gb_total_chunks b = Some 0)) "GX bind total_chunks must be greater than zero".

(** ** The wire *)

Section wire.
  Context `{!TransportSerde}.

Definition WireFrame_to_bytes (f : WireFrame) : bytes := to_bytes f.

Definition WireFrame_parse (b : bytes) : option WireFrame :=
  match from_slice b with
  | Err _ => None
  | Ok frame =>
      match frame with
      | FGossip members =>
          if bool_decide (MAX_GOSSIP_MEMBERS < N.of_nat (length members)) then None else Some frame
      | FGxBind bind =>
          match GxRouteBind_shape_error bind with Some _ => None | None => Some frame end
      | FEnv _ => Some frame
      end
  end.

Definition strip_prefix (p b : bytes) : option bytes :=
  if bool_decide (take (length p) b = p) then Some (drop (length p) b) else None.

Definition decode_gx_wire_frame (b : bytes) : option (ChunkFrameHeader * bytes) :=
  match strip_prefix GX_FRAME_PREFIX b with
  | None => None
  | Some body =>
      match decode_binary_frame body with
      | Err _ => None
      | Ok (header, payload) =>
          match ChunkFrameHeader_shape_error header with
          | Some _ => None
          | None => Some (header, payload)
          end
      end
  end.

Definition parse_wire_payload (b : bytes) : option ParsedWireFrame :=
  match decode_gx_wire_frame b with
  | Some (header, payload) => Some (PGxChunk header payload)
  | None =>
      match WireFrame_parse b with
      | None => None
      | Some (FEnv env) => Some (PEnv env)
      | Some (FGossip members) => Some (PGossip members)
      | Some (FGxBind bind) => Some (PGxBind bind)
      end
  end.

Definition prefixed_gx_wire_frame_len (body_len : N) : result FrameError N :=
  capacity ← ok_or (usize_checked_add (blen GX_FRAME_PREFIX) body_len) FrameTooLarge;
  if bool_decide (MAX_FRAME_BYTES < capacity) then Err FrameTooLarge else Ok capacity.

Definition prefix_gx_wire_frame (body : bytes) : result FrameError bytes :=
  _ ← prefixed_gx_wire_frame_len (blen body);
  Ok (GX_FRAME_PREFIX ++ body).

Definition TransportCtl_parse (b : bytes) : option TransportCtl :=
  if bool_decide (MAX_TRANSPORT_CTL_BYTES < blen b) then None
  else match from_slice b with Ok op => Some op | Err _ => None end.

Definition TransportCtlReply_parse (b : bytes) : option TransportCtlReply :=
  if bool_decide (MAX_TRANSPORT_CTL_REPLY_BYTES < blen b) then None
  else match from_slice b with Ok reply => Some reply | Err _ => None end.
End wire.

(** ** Construction *)

(** The loop of [new] over the configured peers: the allowlist, the members and the
    peers that are kept, with the addresses that are. *)
Fixpoint seed_peers (peers : list PeerConfig) (allow : gmap string NodeId)
    (members : gmap NodeId MemberInfo) :
    gmap string NodeId * gmap NodeId MemberInfo * list PeerConfig :=
  match peers with
  | [] => (allow, members, [])
  | p :: peers =>
      match canonical_peer_pubkey (pc_pubkey_hex p) with
      | None => seed_peers peers allow members
      | Some pubkey_hex =>
          match validate_cluster_node_id (pc_node_id p) with
          | Some _ => seed_peers peers allow members
          | None =>
              let allow := <[pubkey_hex := pc_node_id p]> allow in
              let addr :=
                match pc_dial_addr p with
                | None => None
                | Some addr => match validate_member_addr addr with Some _ => None | None => Some addr end
                end in
              let members :=
                match addr with
                | None => members
                | Some addr => <[pc_node_id p := mkMemberInfo pubkey_hex addr]> members
                end in
              let '(allow, members, kept) := seed_peers peers allow members in
              (allow, members, mkPeerConfig (pc_node_id p) pubkey_hex addr :: kept)
          end
      end
  end.

Definition TransportTcp_new (cfg : TransportConfig) : TransportTcp :=
  let '(allow, members, peers) := seed_peers (tc_peers cfg) ∅ ∅ in
  mkTransportTcp
    (mkTransportConfig (tc_self_key cfg) (tc_self_node cfg) (tc_listen_addr cfg) peers)
    (mkTransportState (tc_self_key cfg) (tc_self_node cfg) (tc_listen_addr cfg) allow members
       DEFAULT_MAX_MEMBERS ∅ false (tc_listen_addr cfg) ∅ ∅ ∅ ∅ None None false
       DEFAULT_MAX_INBOUND_HANDSHAKES [] [] []).

Definition on_state (f : TransportState → TransportState) (t : TransportTcp) : TransportTcp :=
  mkTransportTcp (tt_cfg t) (f (tt_state t)).

Definition with_gossip (advertise_addr : option string) : TransportTcp → TransportTcp :=
  on_state (fun s =>
    let s := on_gossip (fun _ => true) s in
    match advertise_addr with
    | None => s
    | Some a =>
        match validate_member_addr a with Some _ => s | None => on_advertise_addr (fun _ => a) s end
    end).

Definition with_max_members (max_members : N) : TransportTcp → TransportTcp :=
  on_state (on_max_members (fun _ => max_members)).

Definition with_max_inbound_handshakes (max_inbound_handshakes : N) : TransportTcp → TransportTcp :=
  on_state (on_max_inbound_handshakes (fun _ => max_inbound_handshakes)).

(** ** Queues and events *)

(** [SyncSender::try_send] on the bounded channel of a link. *)
Definition sync_try_send (tx : nat) (frame : PeerFrame) (links : list Link) : result string (list Link) :=
  match links !! tx with
  | None => Err "peer_send_dropped:no_link"
  | Some l =>
      if negb (lk_writer l) then Err "peer_send_dropped:no_link"
      else if bool_decide (PEER_QUEUE_DEPTH ≤ N.of_nat (length (lk_queue l))) then
        Err "peer_send_dropped:backpressure"
      else Ok (alter (enqueue frame) tx links)
  end.

Fixpoint frames_error (frames : list bytes) (max_frame_bytes : N) : option string :=
  match frames with
  | [] => None
  | f :: frames =>
      if bool_decide (f = []) then Some "peer_send_dropped:empty_frame"
      else if bool_decide (max_frame_bytes < blen f) then Some "peer_send_dropped:frame_too_large"
      else frames_error frames max_frame_bytes
  end.

Definition queue_peer_frames (tx : nat) (frames : list bytes) (max_frame_bytes : N)
    (links : list Link) : result string (list Link) :=
  if bool_decide (frames = []) then Err "peer_send_dropped:empty_frame"
  else match frames_error frames max_frame_bytes with
       | Some e => Err e
       | None => sync_try_send tx frames links
       end.

Definition queue_peer_frame (tx : nat) (frame : bytes) : N → list Link → result string (list Link) :=
  queue_peer_frames tx [frame].

(** A frame that is queued if it can be. *)
Definition push_frame (tx : nat) (frame : bytes) (links : list Link) : list Link :=
  match queue_peer_frame tx frame MAX_FRAME_BYTES links with Ok links' => links' | Err _ => links end.

(** Queueing on the writer of a peer: the new state, or why the frames are dropped. *)
Definition queue_to (peer : NodeId) (frames : list bytes) (s : TransportState) :
    result string TransportState :=
  match ts_writers s !! peer with
  | None => Err "peer_send_dropped:no_link"
  | Some tx =>
      links ← queue_peer_frames tx frames MAX_FRAME_BYTES (ts_links s);
      Ok (on_links (fun _ => links) s)
  end.

Section transport.
  Context `{!Sha256} `{!Ed25519} `{!Ed25519Keys} `{!TransportSerde} `{!MemberIter}.

(** A call is made only where the transport is bound. *)
Definition call_bus (c : BusCall) (s : TransportState) : TransportState :=
  on_calls (fun cs => match ts_bus s with None => cs | Some _ => cs ++ [c] end) s.

Definition publish_peer_event (peer : NodeId) (event : string) (s : TransportState) : TransportState :=
  call_bus (BEmit (with_schema
    (Dispatch_to (ATopic PROPRIOCEPTION) (to_bytes (mkPeerEvent peer event))) "peer_event")) s.

Definition publish_origin_verdict (origin_node : NodeId) (target : CreatureId) (corr : option N)
    (verdict : OriginVerdict) (s : TransportState) : TransportState :=
  call_bus (BEmit (with_schema
    (Dispatch_to (ATopic PROPRIOCEPTION)
       (to_bytes (mkOriginEvent origin_node target corr verdict))) ORIGIN_EVENT_SCHEMA)) s.

(** Publish the reason why something was dropped, if it was. *)
Definition settle (peer : NodeId) (r : result string TransportState) (s : TransportState) :
    TransportState :=
  match r with Ok s' => s' | Err event => publish_peer_event peer event s end.

(** ** Transfer chunks *)

Definition handle_gx_chunk_outbound (env : Envelope) (s : TransportState) : Outcome * TransportState :=
  match hd_to (ev_header env) with
  | ANode peer_node target_mid =>
      if bool_decide (target_mid = KERNEL_ID) then
        (Outcome_none, publish_peer_event peer_node "peer_send_dropped:gx_kernel_target" s)
      else
        let queued :=
          match decode_binary_frame (ev_payload env) with
          | Err _ => Err "peer_send_dropped:malformed_gx_chunk"
          | Ok (header, _) =>
              match ChunkFrameHeader_shape_error header with
              | Some _ => Err "peer_send_dropped:malformed_gx_chunk"
              | None =>
                  let bind :=
                    WireFrame_to_bytes (FGxBind (mkGxRouteBind (cf_transfer_id header) target_mid
                      GX_CHUNK_SCHEMA (hd_corr (ev_header env)) (cf_total_chunks header))) in
                  match prefix_gx_wire_frame (ev_payload env) with
                  | Err _ => Err "peer_send_dropped:frame_too_large"
                  | Ok frame => queue_to peer_node [bind; frame] s
                  end
              end
          end in
        (Outcome_none, settle peer_node queued s)
  | _ => (Outcome_none, s)
  end.

Definition routes_of (peer : NodeId) (routes : gmap (NodeId * string) GxRoute) : N :=
  N.of_nat (size (filter (fun kv => kv.1.1 = peer) routes)).

Definition install_gx_route (peer : NodeId) (bind : GxRouteBind) (s : TransportState) :
    TransportState :=
  match GxRouteBind_shape_error bind with
  | Some _ => publish_peer_event peer "gx_route_bind_dropped:malformed" s
  | None =>
      let incoming :=
        mkGxRoute (gb_target bind) (gb_schema bind) (gb_corr bind) (gb_total_chunks bind) in
      let key := (peer, gb_transfer_id bind) in
      match ts_gx_routes s !! key with
      | Some existing =>
          if bool_decide (existing ≠ incoming) then
            publish_peer_event peer "gx_route_bind_dropped:conflict" s
          else s
      | None =>
          if bool_decide (MAX_GX_ROUTES_PER_PEER ≤ routes_of peer (ts_gx_routes s)) then
            publish_peer_event peer "gx_route_bind_dropped:capacity" s
          else on_gx_routes <[key := incoming]> s
      end
  end.

Definition remove_route (key : NodeId * string) : TransportState → TransportState :=
  on_gx_routes (delete key).

Definition deliver_gx_chunk_locally (peer : NodeId) (header : ChunkFrameHeader) (payload : bytes)
    (s : TransportState) : TransportState :=
  let key := (peer, cf_transfer_id header) in
  match ts_gx_routes s !! key with
  | None => publish_peer_event peer "gx_chunk_dropped:no_route" s
  | Some route =>
      if bool_decide (is_Some (gr_total_chunks route) ∧ cf_total_chunks header ≠ gr_total_chunks route)
      then publish_peer_event peer "gx_chunk_dropped:route_mismatch" (remove_route key s)
      else
        let retire_route :=
          match gr_total_chunks route with
          | None => false
          | Some total => bool_decide (cf_chunk_index header = total - 1)
          end in
        let retire s := if retire_route then remove_route key s else s in
        if bool_decide (hash_bytes payload ≠ cf_chunk_hash header) then
          retire (publish_peer_event peer "gx_chunk_dropped:hash_mismatch" s)
        else
          match encode_binary_frame header payload with
          | Err _ => retire (publish_peer_event peer "gx_chunk_dropped:frame_encode_failed" s)
          | Ok body =>
              let dispatch :=
                with_schema (Dispatch_to (ACreature (gr_target route)) body) (gr_schema route) in
              let dispatch :=
                match gr_corr route with Some corr => with_corr dispatch corr | None => dispatch end in
              retire (call_bus (BEmit dispatch) s)
          end
  end.

(** ** What arrives on a link *)

(** A peer's creature is a creature of that node, seen from here. *)
Fixpoint rewrite_inbound_target (addr : Address) (peer : NodeId) : Address :=
  match addr with
  | ACreature mid => ANode peer mid
  | ARealm realm target => ARealm realm (rewrite_inbound_target target peer)
  | AOmega realm target => AOmega realm (rewrite_inbound_target target peer)
  | other => other
  end.

(** The check of [is_replayed_seq], with the mark it leaves. *)
Definition is_replayed_seq (peer : NodeId) (sender : CreatureId) (seq : N) (s : TransportState) :
    bool * TransportState :=
  match ts_origin_seq s !! (peer, sender) with
  | Some last =>
      if bool_decide (seq ≤ last) then (true, s)
      else (false, on_origin_seq <[(peer, sender) := seq]> s)
  | None => (false, on_origin_seq <[(peer, sender) := seq]> s)
  end.

Definition reset_origin_watermarks (peer : NodeId) : TransportState → TransportState :=
  on_origin_seq (filter (fun kv => kv.1.1 ≠ peer)).

Definition inbound_target (s : TransportState) (to : Address) : option InboundTarget :=
  match to with
  | ANode node mid => if bool_decide (node = ts_self_node s) then Some (ToCreature mid) else None
  | ANodeRole node role => if bool_decide (node = ts_self_node s) then Some (ToRemoteRole role) else None
  | _ => None
  end.

(** The creature an inbound target stands for, or the event of the refusal. *)
Definition resolve_target (r : Router) (bus : BusHandle) (t : InboundTarget) : result string CreatureId :=
  match t with
  | ToCreature mid => Ok mid
  | ToRemoteRole role =>
      if negb (bh_may_attest bus) then Err "remote_role_non_attesting_dropped"
      else ok_or (remote_role_target r bus role) "remote_role_unexposed_dropped"
  end.

(** The dispatch an inbound envelope becomes. *)
Definition inbound_dispatch (env : Envelope) (peer : NodeId) (target : CreatureId) : Dispatch :=
  let h := ev_header env in
  let d := with_schema (Dispatch_to (ACreature target) (ev_payload env)) (hd_schema h) in
  let d :=
    match hd_reply_to h with
    | Some rt => with_reply_to d (rewrite_inbound_target rt peer) | None => d
    end in
  let d := match hd_corr h with Some corr => with_corr d corr | None => d end in
  match hd_commitment h with Some commit => with_commitment d commit | None => d end.

Definition origin_verdict (env : Envelope) (peer_pubkey : string) : OriginVerdict :=
  if bool_decide (peer_pubkey = "") then Unresolved
  else if @verify ed25519_verifier peer_pubkey (signing_payload env) (hd_sig (ev_header env))
       then Verified
  else BadSig.

(** [deliver_locally]; [r] is the router that answers [remote_role_target]. *)
Definition deliver_locally (r : Router) (env : Envelope) (peer : NodeId) (peer_pubkey : string)
    (s : TransportState) : TransportState :=
  match inbound_target s (hd_to (ev_header env)), ts_bus s with
  | Some target, Some bus =>
      match resolve_target r bus target with
      | Err event => publish_peer_event peer event s
      | Ok target_mid =>
          if bool_decide (target_mid = KERNEL_ID) then s
          else
            match hd_from (ev_header env) with
            | ACreature sender =>
                let dispatch := inbound_dispatch env peer target_mid in
                if negb (bh_may_attest bus) then call_bus (BEmit dispatch) s
                else
                  let '(replayed, s) := is_replayed_seq peer sender (hd_seq (ev_header env)) s in
                  if replayed then publish_peer_event peer "frame_replay_dropped" s
                  else
                    let s := publish_origin_verdict peer target_mid (hd_corr (ev_header env))
                               (origin_verdict env peer_pubkey) s in
                    call_bus (BEmitAttested dispatch (mkOrigin peer)) s
            | _ => publish_peer_event peer "frame_bad_from_dropped" s
            end
      end
  | _, _ => s
  end.

(** ** Membership *)

Definition admit_member (node_id : NodeId) (pubkey_hex addr : string) (s : TransportState) :
    AdmitMemberResult * TransportState :=
  match validate_member_shape node_id pubkey_hex addr with
  | Err _ => (Refused, s)
  | Ok pubkey_hex =>
      if bool_decide (node_id = ts_self_node s) then (Refused, s)
      else
        let info := mkMemberInfo pubkey_hex addr in
        let allow := on_peers_by_pubkey <[pubkey_hex := node_id]> in
        if bool_decide (ts_members s !! node_id = Some info) then (Unchanged, allow s)
        else if bool_decide (ts_members s !! node_id = None) && bool_decide (ts_max_members s ≠ 0)
                && bool_decide (ts_max_members s ≤ N.of_nat (size (ts_members s))) then (Refused, s)
        else
          (Changed, publish_peer_event node_id "peer_admitted" (allow (on_members <[node_id := info]> s)))
  end.

(** Start a dialer; [spawned] is whether the thread could be created. *)
Definition spawn_dialer (spawned : bool) (peer : PeerConfig) (s : TransportState) : TransportState :=
  if bool_decide (pc_dial_addr peer = None) || bool_decide (pc_node_id peer = ts_self_node s) then s
  else if bool_decide (pc_node_id peer ∈ ts_dialing s) then s
  else
    let s := on_dialing (fun d => {[pc_node_id peer]} ∪ d) s in
    if spawned then on_dialers (fun ds => ds ++ [peer]) s
    else publish_peer_event (pc_node_id peer) "peer_dialer_spawn_failed"
           (on_dialing (fun d => d ∖ {[pc_node_id peer]}) s).

Definition member_gossip (s : TransportState) : list GossipMember :=
  mkGossipMember (ts_self_node s) (km_public_hex (ts_self_key s)) (ts_advertise_addr s)
  :: map (fun '(id, info) => mkGossipMember id (mi_pubkey_hex info) (mi_addr info))
       (iter_members (ts_members s)).

Definition gossip_to_peer (peer : NodeId) (s : TransportState) : TransportState :=
  match ts_writers s !! peer with
  | None => s
  | Some tx => on_links (push_frame tx (WireFrame_to_bytes (FGossip (member_gossip s)))) s
  end.

(** One frame on every writer; each has its own channel, so that the order does not
    matter. *)
Definition gossip_broadcast (s : TransportState) : TransportState :=
  let frame := WireFrame_to_bytes (FGossip (member_gossip s)) in
  on_links (fun ls => foldl (fun ls tx => push_frame tx frame ls) ls
                        (map snd (map_to_list (ts_writers s)))) s.

(** The loop of [ingest_gossip]; [spawned] answers the spawning of each dialer. *)
Fixpoint ingest_members (spawned : NodeId → bool) (ms : list GossipMember) (any_new : bool)
    (s : TransportState) : bool * TransportState :=
  match ms with
  | [] => (any_new, s)
  | m :: ms =>
      let node_id := gm_node_id m in
      if bool_decide (node_id = ts_self_node s) then ingest_members spawned ms any_new s
      else
        let '(admitted, s) := admit_member node_id (gm_pubkey_hex m) (gm_addr m) s in
        if bool_decide (admitted = Changed) then
          let pubkey_hex := default (gm_pubkey_hex m) (canonical_peer_pubkey (gm_pubkey_hex m)) in
          ingest_members spawned ms true
            (spawn_dialer (spawned node_id) (mkPeerConfig node_id pubkey_hex (Some (gm_addr m))) s)
        else ingest_members spawned ms any_new s
  end.

Definition ingest_gossip (spawned : NodeId → bool) (ms : list GossipMember) (s : TransportState) :
    TransportState :=
  let '(any_new, s) := ingest_members spawned (take (N.to_nat MAX_GOSSIP_MEMBERS) ms) false s in
  if any_new then gossip_broadcast s else s.

Definition forget_member (node : NodeId) (s : TransportState) : TransportState :=
  if bool_decide (node = ts_self_node s) then s
  else
    let s := on_peers_by_pubkey (filter (fun kv => kv.2 ≠ node)) s in
    let s := on_members (delete node) s in
    let s := on_dialing (fun d => d ∖ {[node]}) s in
    let s := reset_origin_watermarks node s in
    let s := on_writers (delete node) s in
    shut_all (default [] (ts_sockets s !! node)) (on_sockets (delete node) s).

(** ** The creature *)

Definition ctl_reply (env : Envelope) (reply : TransportCtlReply) : Outcome :=
  Outcome_send (with_schema (reply_to_env env (to_bytes reply)) TRANSPORT_CTL_SCHEMA).

Definition view_le (a b : MemberView) : Prop := str_leb (mv_node_id a) (mv_node_id b) = true.

#[local] Instance view_le_dec : RelDecision view_le.
Proof. unfold view_le. intros a b. apply _. Defined.

Definition members_view (s : TransportState) : list MemberView :=
  merge_sort view_le
    (map (fun '(id, info) =>
            mkMemberView id (mi_addr info) (bool_decide (is_Some (ts_writers s !! id))))
       (iter_members (ts_members s))).

Definition handle_ctl (spawned : bool) (env : Envelope) (s : TransportState) :
    Outcome * TransportState :=
  if bool_decide (MAX_TRANSPORT_CTL_BYTES < blen (ev_payload env)) then
    (ctl_reply env (RRejected ("transport control payload exceeds " +:+ dec MAX_TRANSPORT_CTL_BYTES
                               +:+ " byte cap")), s)
  else
    match TransportCtl_parse (ev_payload env) with
    | None => (Outcome_none, s)
    | Some (CtlConnect node_id pubkey_hex addr) =>
        let '(admitted, s) := admit_member node_id pubkey_hex addr s in
        if bool_decide (admitted = Refused) then
          (ctl_reply env (RRejected
             "transport member refused: capacity, self-admission, or malformed member shape"), s)
        else
          let s := spawn_dialer spawned
                     (mkPeerConfig node_id (default pubkey_hex (canonical_peer_pubkey pubkey_hex))
                        (Some addr)) s in
          let s := if bool_decide (admitted = Changed) then gossip_broadcast s else s in
          (ctl_reply env (RConnecting node_id), s)
    | Some CtlMembers => (ctl_reply env (RMembers (ts_self_node s) (members_view s)), s)
    | Some (CtlForget node_id) =>
        (ctl_reply env (RForgotten node_id), gossip_broadcast (forget_member node_id s))
    end.

Definition transport_handle (spawned : bool) (env : Envelope) (s : TransportState) :
    Outcome * TransportState :=
  if bool_decide (hd_schema (ev_header env) = TRANSPORT_CTL_SCHEMA) then handle_ctl spawned env s
  else if bool_decide (hd_schema (ev_header env) = GX_CHUNK_SCHEMA) then handle_gx_chunk_outbound env s
  else
    match hd_to (ev_header env) with
    | ANode peer_node _ | ANodeRole peer_node _ =>
        let frame := WireFrame_to_bytes (FEnv env) in
        (Outcome_none, settle peer_node (queue_to peer_node [frame] s) s)
    | _ => (Outcome_none, s)
    end.

(** What the system answers while the transport is bound: the listener's socket and
    thread, and the dialer threads. *)
Inductive ListenResult : Type := Listening | ListenerSpawnFailed | ListenerBindFailed (error : string).

Definition transport_bind (bus : BusHandle) (me : CreatureId) (listen : ListenResult)
    (spawned : NodeId → bool) (t : TransportTcp) : TransportTcp :=
  let s := on_me (fun _ => Some me) (on_bus (fun _ => Some bus) (tt_state t)) in
  let here := "listen://" +:+ ts_listen_addr s in
  let s :=
    match listen with
    | Listening => s
    | ListenerSpawnFailed => publish_peer_event here "listener_spawn_failed" s
    | ListenerBindFailed e => publish_peer_event here ("listener_bind_failed:" +:+ e) s
    end in
  mkTransportTcp (tt_cfg t)
    (foldl (fun s peer => spawn_dialer (spawned (pc_node_id peer)) peer s) s (tc_peers (tt_cfg t))).

(** [shutdown], up to the joining of the threads. *)
Definition transport_shutdown (s : TransportState) : TransportState :=
  let s := on_stop (fun _ => true) s in
  let s := shut_all (concat (map snd (map_to_list (ts_sockets s)))) (on_sockets (fun _ => ∅) s) in
  on_gx_routes (fun _ => ∅) (on_writers (fun _ => ∅) s).

(** ** Handshakes *)

(** What the system answers while a connection is installed: the two clones of the
    socket and the two threads. *)
Record InstallIo : Type := mkInstallIo {
  ii_clone_reader : bool;
  ii_clone_shutdown : bool;
  ii_spawn_reader : bool;
  ii_spawn_writer : bool
}.

Definition install_connection (io : InstallIo) (peer : NodeId) (peer_pubkey : string)
    (s : TransportState) : TransportState :=
  if bool_decide (is_Some (ts_writers s !! peer)) then
    publish_peer_event peer "peer_redundant_connection_closed" s
  else
    let i := length (ts_links s) in
    let s := on_links (fun ls => ls ++ [mkLink peer peer_pubkey [] false true false]) s in
    let s := on_writers <[peer := i]> s in
    let roll_back s := set_link i (set_writer false) (on_writers (delete peer) s) in
    if negb (ii_clone_reader io) then roll_back s
    else if negb (ii_clone_shutdown io) then roll_back s
    else
      let s := on_sockets (fun m => <[peer := default [] (m !! peer) ++ [i]]> m) s in
      let s := reset_origin_watermarks peer s in
      let s := publish_peer_event peer "peer_connected" s in
      let s := if ts_gossip s then gossip_to_peer peer s else s in
      if negb (ii_spawn_reader io) then on_sockets (delete peer) (roll_back s)
      else
        let s := set_link i (set_reader true) s in
        if negb (ii_spawn_writer io) then
          let s := roll_back s in shut_all (default [] (ts_sockets s !! peer)) s
        else s.

Definition handshake_transcript (nonce owner_pk peer_pk : bytes) : bytes :=
  HANDSHAKE_DOMAIN ++ nonce ++ owner_pk ++ peer_pk.

(** [read_exact] on the bytes that arrive before the stream ends or times out. *)
Definition take_exact (n : nat) (input : bytes) : option (bytes * bytes) :=
  if bool_decide (length input < n)%nat then None else Some (take n input, drop n input).

(** A handshake: the nonce drawn, the bytes the other side sends, whether the two
    writes succeed, and the installation. *)
Record HandshakeIo : Type := mkHandshakeIo {
  hs_nonce : option bytes;
  hs_input : bytes;
  hs_hello_written : bool;
  hs_sig_written : bool;
  hs_install : InstallIo
}.

Definition own_key_bytes (s : TransportState) : option bytes :=
  match hex_decode (km_public_hex (ts_self_key s)) with
  | Some b => if bool_decide (length b = PUBKEY_BYTES) then Some b else None
  | None => None
  end.

Definition sign_transcript (s : TransportState) (transcript : bytes) : option bytes :=
  match hex_decode (km_sign (ts_self_key s) transcript) with
  | Some b => if bool_decide (length b = SIG_BYTES) then Some b else None
  | None => None
  end.

(** The state after the handshake, and what was written. *)
Definition server_handshake_and_run (io : HandshakeIo) (s : TransportState) : bytes * TransportState :=
  match own_key_bytes s, hs_nonce io with
  | Some server_pubkey, Some server_nonce =>
      let hello := server_pubkey ++ server_nonce in
      if negb (hs_hello_written io) then ([], s)
      else
        match take_exact PUBKEY_BYTES (hs_input io) with
        | None => (hello, s)
        | Some (client_pubkey, rest) =>
            match take_exact NONCE_BYTES rest with
            | None => (hello, s)
            | Some (client_nonce, rest) =>
                let client_pubkey_hex := hex_encode client_pubkey in
                match ts_peers_by_pubkey s !! client_pubkey_hex with
                | None =>
                    (hello, publish_peer_event client_pubkey_hex "peer_auth_failed:unknown_pubkey" s)
                | Some client_node =>
                    match sign_transcript s
                            (handshake_transcript client_nonce client_pubkey server_pubkey) with
                    | None => (hello, s)
                    | Some server_sig =>
                        if negb (hs_sig_written io) then (hello, s)
                        else
                          let sent := hello ++ server_sig in
                          match take_exact SIG_BYTES rest with
                          | None => (sent, s)
                          | Some (client_sig, _) =>
                              let expected :=
                                handshake_transcript server_nonce server_pubkey client_pubkey in
                              if negb (@verify ed25519_verifier client_pubkey_hex expected
                                         (hex_encode client_sig)) then
                                (sent, publish_peer_event client_node "peer_auth_failed:bad_sig" s)
                              else
                                (sent, install_connection (hs_install io) client_node
                                         client_pubkey_hex s)
                          end
                    end
                end
            end
        end
  | _, _ => ([], s)
  end.

Definition client_handshake_and_run (io : HandshakeIo) (peer : PeerConfig) (s : TransportState) :
    bytes * TransportState :=
  match own_key_bytes s with
  | None => ([], s)
  | Some client_pubkey =>
      match hs_nonce io with
      | None => ([], publish_peer_event (pc_node_id peer) "peer_auth_failed:rng" s)
      | Some client_nonce =>
          match take_exact PUBKEY_BYTES (hs_input io) with
          | None => ([], s)
          | Some (server_pubkey, rest) =>
              match take_exact NONCE_BYTES rest with
              | None => ([], s)
              | Some (server_nonce, rest) =>
                  let server_pubkey_hex := hex_encode server_pubkey in
                  if bool_decide (server_pubkey_hex ≠ pc_pubkey_hex peer) then
                    ([], publish_peer_event (pc_node_id peer) "peer_auth_failed:wrong_server_pubkey" s)
                  else if negb (hs_hello_written io) then ([], s)
                  else
                    let hello := client_pubkey ++ client_nonce in
                    match take_exact SIG_BYTES rest with
                    | None => (hello, s)
                    | Some (server_sig, _) =>
                        let expected := handshake_transcript client_nonce client_pubkey server_pubkey in
                        if negb (@verify ed25519_verifier server_pubkey_hex expected
                                   (hex_encode server_sig)) then
                          (hello, publish_peer_event (pc_node_id peer) "peer_auth_failed:bad_server_sig" s)
                        else
                          match sign_transcript s
                                  (handshake_transcript server_nonce server_pubkey client_pubkey) with
                          | None => (hello, s)
                          | Some client_sig =>
                              if negb (hs_sig_written io) then (hello, s)
                              else
                                (hello ++ client_sig,
                                 install_connection (hs_install io) (pc_node_id peer)
                                   server_pubkey_hex s)
                          end
                    end
              end
          end
      end
  end.

(** One turn of a running dialer: it idles while there is a writer, and otherwise
    connects, if it can. *)
Definition dialer_turn (connect : option HandshakeIo) (peer : PeerConfig) (s : TransportState) :
    bytes * TransportState :=
  if bool_decide (is_Some (ts_writers s !! pc_node_id peer)) then ([], s)
  else match connect with None => ([], s) | Some io => client_handshake_and_run io peer s end.

(** The end of a dialer, with the guard that frees its reservation; an address that
    does not parse ends it at once. *)
Definition dialer_exit (i : nat) (s : TransportState) : TransportState :=
  match ts_dialers s !! i with
  | None => s
  | Some peer =>
      let s :=
        match pc_dial_addr peer with
        | Some addr =>
            if parses_as_socket_addr addr then s
            else publish_peer_event (pc_node_id peer) "peer_dial_addr_invalid" s
        | None => s
        end in
      on_dialers (delete i) (on_dialing (fun d => d ∖ {[pc_node_id peer]}) s)
  end.

(** ** Readers and writers *)

(** One frame of a reader, for a link to [peer] under [peer_pubkey]. *)
Definition reader_frame (r : Router) (spawned : NodeId → bool) (peer : NodeId) (peer_pubkey : string)
    (payload : bytes) (s : TransportState) : TransportState :=
  match parse_wire_payload payload with
  | Some (PEnv env) => deliver_locally r env peer peer_pubkey s
  | Some (PGossip members) => if ts_gossip s then ingest_gossip spawned members s else s
  | Some (PGxBind bind) => install_gx_route peer bind s
  | Some (PGxChunk header payload) => deliver_gx_chunk_locally peer header payload s
  | None => s
  end.

(** What follows the loop of a reader. *)
Definition reader_end (i : nat) (s : TransportState) : TransportState :=
  match ts_links s !! i with
  | None => s
  | Some l =>
      let peer := lk_peer l in
      let s := publish_peer_event peer "peer_disconnected" s in
      let s := on_writers (delete peer) s in
      let s := on_gx_routes (filter (fun kv => kv.1.1 ≠ peer)) s in
      set_link i (set_reader false) (on_sockets (delete peer) s)
  end.
End transport.

(** What a socket gives a reader, in order: a byte, a read that times out, the
    request to stop, and the end of the stream or an error. A read takes what is
    there, and the loops below read on until they have enough, so that how the bytes
    are cut into reads does not show. *)
Inductive Recv : Type := RByte (b : Byte.byte) | RBlocked | RStopped | REnded.

(** The end of a read: the bytes, a timeout that drops what was read so far, an
    error, or no event left to go on with. *)
Inductive ReadEnd : Type :=
  | ReadOk (b : bytes) (rest : list Recv)
  | ReadBlocked (rest : list Recv)
  | ReadFailed
  | ReadWaiting.

(** [Read::read_exact] of the standard library, which knows nothing of the request
    to stop. *)
Fixpoint read_exact (net : list Recv) (n : nat) : ReadEnd :=
  match n, net with
  | O, _ => ReadOk [] net
  | S _, [] => ReadWaiting
  | S n, RByte b :: net =>
      match read_exact net n with ReadOk bs rest => ReadOk (b :: bs) rest | other => other end
  | S _, RBlocked :: net => ReadBlocked net
  | S _, REnded :: _ => ReadFailed
  | S _, RStopped :: net =>
      match read_exact net n with
      | ReadOk bs rest => ReadOk bs (RStopped :: rest)
      | ReadBlocked rest => ReadBlocked (RStopped :: rest)
      | other => other
      end
  end.

Fixpoint read_exact_with_stop (net : list Recv) (n : nat) : ReadEnd :=
  match n, net with
  | O, _ => ReadOk [] net
  | S _, [] => ReadWaiting
  | S n, RByte b :: net =>
      match read_exact_with_stop net n with ReadOk bs rest => ReadOk (b :: bs) rest | other => other end
  | S _, RBlocked :: net => read_exact_with_stop net n
  | S _, (RStopped | REnded) :: _ => ReadFailed
  end.

Definition le_value (b : bytes) : N := be_value (rev b).

(** [reader_loop], over what it does with a frame: the state, and whether the loop
    has ended. A turn takes at least one event, so that one more turn than events is
    enough. *)
Fixpoint reader_loop {S} (frame : bytes → S → S) (fuel : nat) (net : list Recv) (s : S) : S * bool :=
  match fuel with
  | O => (s, false)
  | Datatypes.S fuel =>
      match net with
      | RStopped :: _ => (s, true)
      | _ =>
          match read_exact net 4 with
          | ReadWaiting => (s, false)
          | ReadFailed => (s, true)
          | ReadBlocked rest => reader_loop frame fuel rest s
          | ReadOk len rest =>
              let n := le_value len in
              if bool_decide (n = 0) || bool_decide (MAX_FRAME_BYTES < n) then (s, true)
              else
                match read_exact_with_stop rest (N.to_nat n) with
                | ReadOk payload rest => reader_loop frame fuel rest (frame payload s)
                | ReadWaiting => (s, false)
                | ReadFailed | ReadBlocked _ => (s, true)
                end
          end
      end
  end.

(** The whole reader of link [i]. *)
Definition run_reader `{!Sha256} `{!Ed25519} `{!TransportSerde} `{!MemberIter} (r : Router)
    (spawned : NodeId → bool) (i : nat) (net : list Recv) (s : TransportState) : TransportState :=
  match ts_links s !! i with
  | None => s
  | Some l =>
      let '(s, ended) :=
        reader_loop (reader_frame r spawned (lk_peer l) (lk_pubkey l)) (S (length net)) net s in
      if ended then reader_end i s else s
  end.

(** What the system answers a [write]: how many bytes it takes, a timeout, an error;
    or the request to stop is seen before it. *)
Inductive Sent : Type := SWrote (n : N) | SBlocked | SFailed | SStopped.

Inductive WriteEnd : Type := WriteDone (script : list Sent) | WriteFailed | WriteWaiting.

Fixpoint write_all_with_stop (script : list Sent) (buf : bytes) : bytes * WriteEnd :=
  match buf, script with
  | [], _ => ([], WriteDone script)
  | _, [] => ([], WriteWaiting)
  | _, SBlocked :: script => write_all_with_stop script buf
  | _, (SFailed | SStopped) :: _ => ([], WriteFailed)
  | _, SWrote n :: script =>
      if bool_decide (n = 0) then ([], WriteFailed)
      else
        let k := Nat.min (N.to_nat n) (length buf) in
        let '(sent, e) := write_all_with_stop script (drop k buf) in (take k buf ++ sent, e)
  end.

Definition frame_bytes (frame : bytes) : list bytes :=
  [le_bytes 4 (blen frame mod 2 ^ 32); frame].

(** The buffers of a batch, one after the other. *)
Fixpoint write_bufs (script : list Sent) (bufs : list bytes) : bytes * WriteEnd :=
  match bufs with
  | [] => ([], WriteDone script)
  | b :: bufs =>
      match write_all_with_stop script b with
      | (sent, WriteDone script) => let '(more, e) := write_bufs script bufs in (sent ++ more, e)
      | (sent, e) => (sent, e)
      end
  end.

(** [writer_loop] on the batches it takes from its channel: what goes onto the wire,
    and how the loop stands after the last. *)
Fixpoint writer_loop (script : list Sent) (batches : list PeerFrame) : bytes * WriteEnd :=
  match script with
  | SStopped :: _ => ([], WriteFailed)
  | _ =>
      match batches with
      | [] => ([], WriteDone script)
      | batch :: batches =>
          match write_bufs script (concat (map frame_bytes batch)) with
          | (sent, WriteDone script) => let '(more, e) := writer_loop script batches in (sent ++ more, e)
          | (sent, e) => (sent, e)
          end
      end
  end.

(** What a writer that ended leaves: its receiver is gone and the socket shut. *)
Definition writer_end (i : nat) : TransportState → TransportState :=
  set_link i (fun l => shut (set_writer false l)).

(** The receiver takes a batch from the channel. *)
Definition writer_take (i : nat) (s : TransportState) : option (PeerFrame * TransportState) :=
  match ts_links s !! i with
  | Some l =>
      match lk_queue l with
      | [] => None
      | f :: q =>
          Some (f, set_link i (fun l => mkLink (lk_peer l) (lk_pubkey l) q (lk_reader l) (lk_writer l)
                                          (lk_shut l)) s)
      end
  | None => None
  end.

(** ** Handshake slots *)

(** A thread that acquires a slot: idle, with the count it last saw, or holding the
    slot. *)
Inductive SlotPhase : Type := SlotIdle | SlotSaw (active : N) | SlotHeld.

Record InboundHandshakeSlots : Type := mkSlots {
  sl_active : N;
  sl_limit : N;
  sl_threads : list SlotPhase
}.

Definition InboundHandshakeSlots_new (limit : N) (threads : nat) : InboundHandshakeSlots :=
  mkSlots 0 limit (replicate threads SlotIdle).

Definition set_slot (i : nat) (active : N) (p : SlotPhase) (sl : InboundHandshakeSlots) :
    InboundHandshakeSlots := mkSlots active (sl_limit sl) (<[i := p]> (sl_threads sl)).

(** One atomic access of thread [i]: the load, a turn of the loop of [try_acquire]
    (the [weak] exchange may fail although the value is the expected one), or the
    drop of the slot. *)
Definition slot_step (i : nat) (spurious : bool) (sl : InboundHandshakeSlots) : InboundHandshakeSlots :=
  match sl_threads sl !! i with
  | None => sl
  | Some SlotIdle => set_slot i (sl_active sl) (SlotSaw (sl_active sl)) sl
  | Some (SlotSaw active) =>
      if bool_decide (sl_limit sl ≤ active) then set_slot i (sl_active sl) SlotIdle sl
      else if bool_decide (sl_active sl = active) && negb spurious
           then set_slot i (active + 1) SlotHeld sl
      else set_slot i (sl_active sl) (SlotSaw (sl_active sl)) sl
  | Some SlotHeld => set_slot i (sl_active sl - 1) SlotIdle sl
  end.

Definition run_slots (steps : list (nat * bool)) (sl : InboundHandshakeSlots) : InboundHandshakeSlots :=
  foldl (fun sl '(i, spurious) => slot_step i spurious sl) sl steps.
