(* ===== verification/TransportLaws.v ===== *)
(** * Laws of the TCP transport

    What its handshake proves and what it does not, that its frames survive the
    byte stream, what can reach the local bus, and how membership spreads. *)

From stdpp Require Import countable sorting.
From S2P Require Import Prelude Serde GxShape GxWire GxFrame GxHash FnCrypto.
From S2P Require Import AetherAddress AetherEnvelope AetherRouter AetherBus Die Sigil Federator Registry.
From S2P Require Import NetAddr Transport.

(** ** Links *)

(** Who a link belongs to. *)
Definition link_id (l : Link) : NodeId * string := (lk_peer l, lk_pubkey l).
Definition link_ids (s : TransportState) : list (NodeId * string) := map link_id (ts_links s).

Definition keeps_id (f : Link → Link) : Prop := ∀ l, link_id (f l) = link_id l.

Lemma alter_ids f i (ls : list Link) : keeps_id f → map link_id (alter f i ls) = map link_id ls.
Proof.
  intros Hf. revert i. induction ls as [|l ls IH]; intros [|i]; cbn; [done..| |].
  - by rewrite Hf.
  - f_equal. apply IH.
Qed.

Lemma foldl_ids {A} (f : list Link → A → list Link) (xs : list A) ls :
  (∀ ls x, map link_id (f ls x) = map link_id ls) → map link_id (foldl f ls xs) = map link_id ls.
Proof. intros Hf. revert ls. induction xs as [|x xs IH]; intros ls; cbn; [done|]. by rewrite IH, Hf. Qed.

Lemma queue_ids tx frames max ls ls' :
  queue_peer_frames tx frames max ls = Ok ls' → map link_id ls' = map link_id ls.
Proof.
  unfold queue_peer_frames, sync_try_send. case_bool_decide; [done|].
  destruct (frames_error frames max); [done|]. destruct (ls !! tx) as [l|]; [|done].
  destruct (lk_writer l); cbn; [|done]. case_bool_decide; [done|]. intros [= <-]. by apply alter_ids.
Qed.

Lemma push_ids tx frame ls : map link_id (push_frame tx frame ls) = map link_id ls.
Proof.
  unfold push_frame, queue_peer_frame. destruct (queue_peer_frames _ _ _ _) eqn:E; [|done].
  by eapply queue_ids.
Qed.

Lemma shut_ids idx ls : map link_id (foldl (fun ls i => alter shut i ls) ls idx) = map link_id ls.
Proof. apply foldl_ids. intros. by apply alter_ids. Qed.

(** A push changes nothing but queues. *)
Definition with_queue (q : list PeerFrame) (l : Link) : Link :=
  mkLink (lk_peer l) (lk_pubkey l) q (lk_reader l) (lk_writer l) (lk_shut l).

Lemma push_lookup tx frame ls i l :
  ls !! i = Some l → ∃ q, push_frame tx frame ls !! i = Some (with_queue q l).
Proof.
  intros Hi. assert (Hsame : ∃ q, ls !! i = Some (with_queue q l)) by (exists (lk_queue l); by destruct l).
  unfold push_frame, queue_peer_frame, queue_peer_frames, sync_try_send.
  rewrite bool_decide_eq_false_2 by done. destruct (frames_error [frame] MAX_FRAME_BYTES); [done|].
  destruct (ls !! tx) as [t|] eqn:Ht; [|done]. destruct (negb (lk_writer t)); [done|].
  case_bool_decide; [done|]. destruct (decide (tx = i)) as [->|Hne].
  - rewrite list_lookup_alter_eq, Hi. by eexists.
  - by rewrite list_lookup_alter_ne.
Qed.

(** ** Handshakes *)

Section handshake.
  Context `{!Sha256} `{!Ed25519} `{!Ed25519Keys} `{!TransportSerde} `{!MemberIter}.

Lemma take_exact_app n (a b : bytes) : length a = n → take_exact n (a ++ b) = Some (a, b).
Proof.
  intros <-. unfold take_exact. rewrite bool_decide_eq_false_2 by (rewrite length_app; lia).
  by rewrite take_app_length, drop_app_length.
Qed.

Lemma take_exact_Some n input (a b : bytes) :
  take_exact n input = Some (a, b) → input = a ++ b ∧ length a = n.
Proof.
  unfold take_exact. case_bool_decide as Hn; [done|]. intros [= <- <-].
  split; [by rewrite take_drop|]. rewrite length_take. lia.
Qed.

Lemma own_key_of_seed s seed :
  ts_self_key s = from_seed seed → own_key_bytes s = Some (ed_public seed).
Proof.
  intros E. unfold own_key_bytes. rewrite E. cbn [from_seed km_public_hex]. rewrite hex_roundtrip.
  by rewrite bool_decide_eq_true_2 by apply ed_public_length.
Qed.

Lemma sign_of_seed s seed m : ts_self_key s = from_seed seed → sign_transcript s m = Some (ed_sign seed m).
Proof.
  intros E. unfold sign_transcript, km_sign. rewrite E. cbn [from_seed km_seed]. rewrite hex_roundtrip.
  by rewrite bool_decide_eq_true_2 by apply ed_sign_length.
Qed.

(** The verifier on keys and signatures of the right lengths is the curve's. *)
Lemma verify_hex pk m sig :
  length pk = PUBKEY_BYTES → length sig = SIG_BYTES →
  @verify ed25519_verifier (hex_encode pk) m (hex_encode sig) = ed25519_verify pk m sig.
Proof.
  intros Hk Hs. unfold verify, ed25519_verifier. rewrite !slen_hex_encode, !hex_roundtrip.
  unfold blen. rewrite Hk, Hs. done.
Qed.

Lemma verify_own seed m :
  @verify ed25519_verifier (hex_encode (ed_public seed)) m (hex_encode (ed_sign seed m)) = true.
Proof.
  rewrite verify_hex by (apply ed_public_length || apply ed_sign_length). apply ed_sign_verifies.
Qed.

(** A transcript determines the nonce and both keys. *)
Lemma transcript_inj n o p n' o' p' :
  length n = NONCE_BYTES → length n' = NONCE_BYTES → length o = PUBKEY_BYTES → length o' = PUBKEY_BYTES →
  handshake_transcript n o p = handshake_transcript n' o' p' → n = n' ∧ o = o' ∧ p = p'.
Proof.
  intros Hn Hn' Ho Ho' E. apply (app_inj_1 HANDSHAKE_DOMAIN HANDSHAKE_DOMAIN) in E as [_ E]; [|done].
  apply app_inj_1 in E as [-> E]; [|congruence]. apply app_inj_1 in E as [-> ->]; [done|congruence].
Qed.

Definition install_ok : InstallIo := mkInstallIo true true true true.

(** An installation adds at most one link, for the given peer and key; it adds one when
    the peer has no writer. *)
Lemma install_ids_new io peer key s :
  ts_writers s !! peer = None →
  link_ids (install_connection io peer key s) = link_ids s ++ [(peer, key)].
Proof.
  intros Hw. unfold install_connection. rewrite Hw, bool_decide_eq_false_2 by (by intros []).
  unfold link_ids.
  destruct (ii_clone_reader io); cbn [negb]; [|cbn; rewrite alter_ids by done; by rewrite map_app].
  destruct (ii_clone_shutdown io); cbn [negb]; [|cbn; rewrite alter_ids by done; by rewrite map_app].
  set (s1 := publish_peer_event _ _ _). assert (Hg : map link_id (ts_links
    (if ts_gossip s1 then gossip_to_peer peer s1 else s1)) = map link_id (ts_links s) ++ [(peer, key)]).
  { destruct (ts_gossip s1); [unfold gossip_to_peer|by cbn; rewrite map_app].
    destruct (ts_writers s1 !! peer); cbn [ts_links on_links]; [rewrite push_ids|]; cbn; by rewrite map_app. }
  destruct (ii_spawn_reader io); cbn [negb]; [|cbn; by rewrite alter_ids].
  destruct (ii_spawn_writer io); cbn -[ts_links]; [cbn; by rewrite alter_ids|].
  cbn. rewrite shut_ids, !alter_ids by done. exact Hg.
Qed.

Lemma install_ids io peer key s :
  link_ids (install_connection io peer key s) = link_ids s
  ∨ link_ids (install_connection io peer key s) = link_ids s ++ [(peer, key)].
Proof.
  destruct (ts_writers s !! peer) eqn:Hw; [left|right; by apply install_ids_new].
  unfold install_connection. rewrite Hw. by rewrite bool_decide_eq_true_2.
Qed.

(** With everything the system is asked for granted, the peer is linked: its writer
    is the new link, whose two threads run. *)
Lemma install_links peer key s :
  ts_writers s !! peer = None →
  let s' := install_connection install_ok peer key s in
  ts_writers s' !! peer = Some (length (ts_links s))
  ∧ ∃ l, ts_links s' !! length (ts_links s) = Some l
      ∧ link_id l = (peer, key) ∧ lk_reader l = true ∧ lk_writer l = true ∧ lk_shut l = false.
Proof.
  intros Hw. unfold install_connection. rewrite Hw. rewrite bool_decide_eq_false_2 by (by intros []).
  cbn [install_ok ii_clone_reader ii_clone_shutdown ii_spawn_reader ii_spawn_writer negb].
  set (s1 := publish_peer_event _ _ _).
  assert (Hs1 : ts_links s1 = ts_links s ++ [mkLink peer key [] false true false]) by done.
  assert (Hlook : ts_writers s1 !! peer = Some (length (ts_links s))) by (cbn; by rewrite lookup_insert_eq).
  assert (Hend : ts_links s1 !! length (ts_links s) = Some (mkLink peer key [] false true false)).
  { by rewrite Hs1, lookup_app_r, Nat.sub_diag by lia. }
  destruct (ts_gossip s1); unfold gossip_to_peer; [rewrite Hlook|]; cbn [set_link on_links ts_links ts_writers];
    (split; [exact Hlook|]); rewrite list_lookup_alter_eq.
  - destruct (push_lookup (length (ts_links s)) (WireFrame_to_bytes (FGossip (member_gossip s1))) _ _ _ Hend)
      as [q Hq]. rewrite Hq. eexists. split; [reflexivity|]. done.
  - rewrite Hend. eexists. split; [reflexivity|]. done.
Qed.

(** The key and the signature that the other side sent: the bytes received are the
    key, a nonce and the signature, in this order. *)
Definition presented (input pk sig : bytes) : Prop :=
  ∃ nonce rest, input = pk ++ nonce ++ sig ++ rest
    ∧ length pk = PUBKEY_BYTES ∧ length nonce = NONCE_BYTES ∧ length sig = SIG_BYTES.

Lemma take_presented input pk rest nonce rest2 sig rest3 :
  take_exact PUBKEY_BYTES input = Some (pk, rest) → take_exact NONCE_BYTES rest = Some (nonce, rest2) →
  take_exact SIG_BYTES rest2 = Some (sig, rest3) → presented input pk sig.
Proof.
  intros [-> Hp]%take_exact_Some [-> Hn]%take_exact_Some [-> Hs]%take_exact_Some.
  by exists nonce, rest3.
Qed.

(** What a server needs before it installs a connection. *)
Lemma server_installs io s sent s' :
  server_handshake_and_run io s = (sent, s') → link_ids s' ≠ link_ids s →
  ∃ own nonce pk node sig,
    own_key_bytes s = Some own ∧ hs_nonce io = Some nonce
    ∧ ts_peers_by_pubkey s !! hex_encode pk = Some node
    ∧ presented (hs_input io) pk sig
    ∧ ed25519_verify pk (handshake_transcript nonce own pk) sig = true
    ∧ link_ids s' = link_ids s ++ [(node, hex_encode pk)].
Proof.
  unfold server_handshake_and_run. destruct (own_key_bytes s) as [own|]; [|by intros [= <- <-]].
  destruct (hs_nonce io) as [nonce|]; [|by intros [= <- <-]].
  destruct (hs_hello_written io); cbn [negb]; [|by intros [= <- <-]].
  destruct (take_exact PUBKEY_BYTES (hs_input io)) as [[pk rest]|] eqn:Hpk; [|by intros [= <- <-]].
  destruct (take_exact NONCE_BYTES rest) as [[cn rest2]|] eqn:Hnonce; [|by intros [= <- <-]].
  destruct (ts_peers_by_pubkey s !! hex_encode pk) as [node|] eqn:Hn; [|by intros [= <- <-]].
  destruct (sign_transcript s _); [|by intros [= <- <-]].
  destruct (hs_sig_written io); cbn [negb]; [|by intros [= <- <-]].
  destruct (take_exact SIG_BYTES rest2) as [[sig ?]|] eqn:Hsig; [|by intros [= <- <-]].
  pose proof (take_presented _ _ _ _ _ _ _ Hpk Hnonce Hsig) as Hpres.
  apply take_exact_Some in Hsig as [_ Hsig]. pose proof (take_exact_Some _ _ _ _ Hpk) as [_ Hlen].
  rewrite verify_hex by done.
  destruct (ed25519_verify pk _ sig) eqn:Hv; cbn [negb]; [|by intros [= <- <-]].
  intros [= <- <-] Hne. destruct (install_ids (hs_install io) node (hex_encode pk) s) as [E|E]; [done|].
  by exists own, nonce, pk, node, sig.
Qed.

Lemma client_installs io peer s sent s' :
  client_handshake_and_run io peer s = (sent, s') → link_ids s' ≠ link_ids s →
  ∃ own nonce pk sig,
    own_key_bytes s = Some own ∧ hs_nonce io = Some nonce
    ∧ pc_pubkey_hex peer = hex_encode pk
    ∧ presented (hs_input io) pk sig
    ∧ ed25519_verify pk (handshake_transcript nonce own pk) sig = true
    ∧ link_ids s' = link_ids s ++ [(pc_node_id peer, hex_encode pk)].
Proof.
  unfold client_handshake_and_run. destruct (own_key_bytes s) as [own|]; [|by intros [= <- <-]].
  destruct (hs_nonce io) as [nonce|]; [|by intros [= <- <-]].
  destruct (take_exact PUBKEY_BYTES (hs_input io)) as [[pk rest]|] eqn:Hpk; [|by intros [= <- <-]].
  destruct (take_exact NONCE_BYTES rest) as [[sn rest2]|] eqn:Hnonce; [|by intros [= <- <-]].
  case_bool_decide as Hkey; [by intros [= <- <-]|].
  destruct (hs_hello_written io); cbn [negb]; [|by intros [= <- <-]].
  destruct (take_exact SIG_BYTES rest2) as [[sig ?]|] eqn:Hsig; [|by intros [= <- <-]].
  pose proof (take_presented _ _ _ _ _ _ _ Hpk Hnonce Hsig) as Hpres.
  apply take_exact_Some in Hsig as [_ Hsig]. pose proof (take_exact_Some _ _ _ _ Hpk) as [_ Hlen].
  rewrite verify_hex by done.
  destruct (ed25519_verify pk _ sig) eqn:Hv; cbn [negb]; [|by intros [= <- <-]].
  destruct (sign_transcript s _); [|by intros [= <- <-]].
  destruct (hs_sig_written io); cbn [negb]; [|by intros [= <- <-]].
  intros [= <- <-] Hne.
  destruct (install_ids (hs_install io) (pc_node_id peer) (hex_encode pk) s) as [E|E]; [done|].
  by exists own, nonce, pk, sig.
Qed.

(** What each side writes in a handshake that goes through. *)
Definition server_says (seedS nS pkC nC : bytes) : bytes :=
  ed_public seedS ++ nS ++ ed_sign seedS (handshake_transcript nC pkC (ed_public seedS)).
Definition client_says (seedC nC pkS nS : bytes) : bytes :=
  ed_public seedC ++ nC ++ ed_sign seedC (handshake_transcript nS pkS (ed_public seedC)).

(** A link to [peer] under [key], with both its threads. *)
Definition linked (peer : NodeId) (key : string) (s : TransportState) : Prop :=
  ∃ i l, ts_writers s !! peer = Some i ∧ ts_links s !! i = Some l
    ∧ link_id l = (peer, key) ∧ lk_reader l = true ∧ lk_writer l = true ∧ lk_shut l = false.

Lemma install_linked peer key s :
  ts_writers s !! peer = None → linked peer key (install_connection install_ok peer key s).
Proof. intros [Hw (l & Hl)]%(install_links peer key s). by exists (length (ts_links s)), l. Qed.

(** The server, up to the point where it waits for the client's signature. *)
Lemma server_answers s seed nS pkC nC node rest io :
  ts_self_key s = from_seed seed → length pkC = PUBKEY_BYTES → length nC = NONCE_BYTES →
  ts_peers_by_pubkey s !! hex_encode pkC = Some node →
  server_handshake_and_run (mkHandshakeIo (Some nS) (pkC ++ nC ++ rest) true true io) s
  = (server_says seed nS pkC nC,
     match take_exact SIG_BYTES rest with
     | None => s
     | Some (sig, _) =>
         if @verify ed25519_verifier (hex_encode pkC) (handshake_transcript nS (ed_public seed) pkC)
              (hex_encode sig)
         then install_connection io node (hex_encode pkC) s
         else publish_peer_event node "peer_auth_failed:bad_sig" s
     end).
Proof.
  intros Hk Hpk Hn Hnode. unfold server_handshake_and_run.
  cbn [hs_nonce hs_hello_written hs_sig_written hs_install hs_input negb].
  rewrite (own_key_of_seed s seed Hk), (take_exact_app _ _ _ Hpk), (take_exact_app _ _ _ Hn), Hnode.
  rewrite (sign_of_seed s seed _ Hk). unfold server_says. rewrite (assoc_L (++)).
  destruct (take_exact SIG_BYTES rest) as [[sig ?]|]; [|done].
  by destruct (@verify ed25519_verifier _ _ _).
Qed.

Lemma client_answers s seed peer nC pkS nS sig io :
  ts_self_key s = from_seed seed → length pkS = PUBKEY_BYTES → length nS = NONCE_BYTES →
  length sig = SIG_BYTES → pc_pubkey_hex peer = hex_encode pkS →
  ed25519_verify pkS (handshake_transcript nC (ed_public seed) pkS) sig = true →
  client_handshake_and_run (mkHandshakeIo (Some nC) (pkS ++ nS ++ sig) true true io) peer s
  = (client_says seed nC pkS nS, install_connection io (pc_node_id peer) (hex_encode pkS) s).
Proof.
  intros Hk Hpk Hn Hs Hpeer Hv. unfold client_handshake_and_run.
  cbn [hs_nonce hs_hello_written hs_sig_written hs_install hs_input negb].
  rewrite (own_key_of_seed s seed Hk), (take_exact_app _ _ _ Hpk), (take_exact_app _ _ _ Hn).
  rewrite bool_decide_eq_false_2 by (by rewrite Hpeer; intros []).
  replace sig with (sig ++ []) by apply app_nil_r. rewrite (take_exact_app _ _ _ Hs).
  rewrite verify_hex, Hv by done. cbn [negb]. rewrite (sign_of_seed s seed _ Hk).
  unfold client_says. by rewrite (assoc_L (++)).
Qed.
End handshake.

(** ** The byte stream *)

(** The bytes a socket delivers. *)
Definition bytes_of (net : list Recv) : bytes :=
  omap (fun e => match e with RByte b => Some b | _ => None end) net.

(** Bytes that arrive with timeouts before any of them. *)
Inductive carries : bytes → list Recv → Prop :=
  | carries_nil : carries [] []
  | carries_byte b bs net : carries bs net → carries (b :: bs) (RByte b :: net)
  | carries_wait b bs net : carries (b :: bs) net → carries (b :: bs) (RBlocked :: net).

(** Frames that arrive with timeouts anywhere but inside a length prefix. *)
Inductive delivers : list bytes → list Recv → Prop :=
  | delivers_nil : delivers [] []
  | delivers_wait fs net : delivers fs net → delivers fs (RBlocked :: net)
  | delivers_frame f fs body net :
      carries f body → delivers fs net →
      delivers (f :: fs) (map RByte (le_bytes 4 (blen f)) ++ body ++ net).

(** The frames that are ever queued. *)
Definition frame_fits (f : bytes) : Prop := f ≠ [] ∧ blen f ≤ MAX_FRAME_BYTES.

(** The encoding of frames on the wire. *)
Definition on_the_wire (frames : list bytes) : bytes :=
  concat (map (fun f => le_bytes 4 (blen f) ++ f) frames).

Lemma frames_error_None frames max :
  frames_error frames max = None ↔ Forall (fun f => f ≠ [] ∧ blen f ≤ max) frames.
Proof.
  induction frames as [|f frames IH]; cbn [frames_error]; [split; [by constructor|done]|].
  rewrite Forall_cons. case_bool_decide as Hf; [naive_solver|].
  case_bool_decide as Hl; [split; [done|intros [[_ ?] _]; lia]|]. rewrite IH.
  split; [intros HF; repeat split; [done|lia|done]|by intros [_ ?]].
Qed.

Lemma read_exact_bytes b rest : read_exact (map RByte b ++ rest) (length b) = ReadOk b rest.
Proof. induction b as [|x b IH]; cbn; [by destruct rest|]. by rewrite IH. Qed.

Lemma read_stop_carries p net rest :
  carries p net → read_exact_with_stop (net ++ rest) (length p) = ReadOk p rest.
Proof.
  induction 1 as [|b bs net _ IH|b bs net _ IH]; cbn -[read_exact_with_stop]; [by destruct rest| |].
  - cbn. by rewrite IH.
  - exact IH.
Qed.

Lemma le_value_le_bytes f : frame_fits f → le_value (le_bytes 4 (blen f)) = blen f.
Proof.
  intros [_ Hf]. unfold le_value, le_bytes. rewrite rev_involutive. apply be_value_be_bytes.
  unfold MAX_FRAME_BYTES in Hf. lia.
Qed.

Lemma reader_reads {S} (frame : bytes → S → S) fs net fuel s :
  delivers fs net → Forall frame_fits fs → (length net < fuel)%nat →
  reader_loop frame fuel net s = (foldl (fun s f => frame f s) s fs, false).
Proof.
  intros Hd. revert fuel s. induction Hd as [|fs net Hd IH|f fs body net Hc Hd IH];
    intros fuel s HF Hfuel; (destruct fuel as [|fuel]; [cbn in Hfuel; lia|]); [done| |].
  - cbn [reader_loop read_exact]. apply IH; [done|]. cbn in Hfuel. lia.
  - apply Forall_cons in HF as [Hf HF].
    assert (Hread : read_exact (map RByte (le_bytes 4 (blen f)) ++ body ++ net) 4
                    = ReadOk (le_bytes 4 (blen f)) (body ++ net)).
    { rewrite <-(length_le_bytes 4 (blen f)) at 2. apply read_exact_bytes. }
    assert (Hhead : ∃ x xs, map RByte (le_bytes 4 (blen f)) = RByte x :: xs).
    { pose proof (length_le_bytes 4 (blen f)) as Hl. destruct (le_bytes 4 (blen f)); [done|by eexists _, _]. }
    rewrite !length_app, length_map, length_le_bytes in Hfuel.
    destruct Hhead as (x & xs & Hhead). cbn [reader_loop]. rewrite Hhead in Hread |- *.
    cbn [app] in Hread |- *. rewrite Hread, le_value_le_bytes by done.
    destruct Hf as [Hne Hmax]. unfold blen in *.
    rewrite bool_decide_eq_false_2 by (destruct f; [done|cbn; lia]).
    rewrite bool_decide_eq_false_2 by lia. cbn [orb]. rewrite Nat2N.id, read_stop_carries by done.
    cbn [foldl]. apply IH; [done|lia].
Qed.

Lemma delivers_bytes fs net : delivers fs net → bytes_of net = on_the_wire fs.
Proof.
  assert (Hmap : ∀ b, bytes_of (map RByte b) = b).
  { intros b. induction b as [|x b IH]; [done|]. change (x :: bytes_of (map RByte b) = x :: b).
    by rewrite IH. }
  assert (Hc : ∀ p body, carries p body → bytes_of body = p).
  { induction 1 as [|x b rest _ IH|]; [done| |done]. change (x :: bytes_of rest = x :: b). by rewrite IH. }
  induction 1 as [|fs net _ IH|f fs body net Hb _ IH]; [done|done|].
  unfold bytes_of, on_the_wire in *. rewrite !omap_app. cbn [map concat].
  rewrite IH. specialize (Hmap (le_bytes 4 (blen f))). apply Hc in Hb. unfold bytes_of in *.
  by rewrite Hmap, Hb, (assoc_L (++)).
Qed.

(** What a write puts on the wire is a part of the buffer, and all of it if it ends. *)
Lemma write_all_sent script buf sent e :
  write_all_with_stop script buf = (sent, e) →
  sent `prefix_of` buf ∧ ∀ script', e = WriteDone script' → sent = buf.
Proof.
  revert buf sent e. induction script as [|[n| | |] script IH]; intros buf sent e;
    destruct buf as [|b buf]; cbn -[take drop Nat.min]; try (intros [= <- <-]; split;
      [apply prefix_nil|by intros ? [=]]); [|apply IH].
  case_bool_decide as Hn; [intros [= <- <-]; split; [apply prefix_nil|by intros ? [=]]|].
  set (k := Nat.min _ _). destruct (write_all_with_stop script (drop k (b :: buf))) as [more e'] eqn:E.
  intros [= <- <-]. apply IH in E as [Hp Hd]. split.
  - rewrite <-(take_drop k (b :: buf)) at 2. by apply prefix_app.
  - intros script' Hs. rewrite (Hd _ Hs). apply take_drop.
Qed.

Lemma write_bufs_done script bufs sent script' :
  write_bufs script bufs = (sent, WriteDone script') → sent = concat bufs.
Proof.
  revert script sent. induction bufs as [|b bufs IH]; intros script sent; cbn; [by intros [= <- _]|].
  destruct (write_all_with_stop script b) as [s1 [script1| |]] eqn:E; [|done..].
  destruct (write_bufs script1 bufs) as [more e] eqn:E2. intros [= <- ->].
  apply write_all_sent in E as [_ E]. by rewrite (E _ eq_refl), (IH _ _ E2).
Qed.

Lemma batch_wire batch : Forall frame_fits batch → concat (concat (map frame_bytes batch)) = on_the_wire batch.
Proof.
  induction 1 as [|f batch [_ Hf] _ IH]; [done|]. unfold on_the_wire in *. cbn [map concat frame_bytes app].
  rewrite IH, N.mod_small by (unfold MAX_FRAME_BYTES in Hf; lia). by rewrite (assoc_L (++)).
Qed.

Lemma writer_done script batches sent script' :
  writer_loop script batches = (sent, WriteDone script') → Forall (Forall frame_fits) batches →
  sent = on_the_wire (concat batches).
Proof.
  revert script sent. induction batches as [|batch batches IH]; intros script sent; cbn [writer_loop].
  { by destruct script as [|[] ?]; intros [= <- _]. }
  assert (Hgo : match write_bufs script (concat (map frame_bytes batch)) with
                | (sent, WriteDone script) =>
                    let '(more, e) := writer_loop script batches in (sent ++ more, e)
                | (sent, e) => (sent, e)
                end = (sent, WriteDone script') → Forall (Forall frame_fits) (batch :: batches) →
                sent = on_the_wire (concat (batch :: batches))).
  { destruct (write_bufs script _) as [s1 [script1| |]] eqn:E; [|done..].
    destruct (writer_loop script1 batches) as [more e] eqn:E2. intros [= <- ->] [Hb Hbs]%Forall_cons.
    apply write_bufs_done in E as ->. rewrite batch_wire, (IH _ _ E2 Hbs) by done.
    unfold on_the_wire. cbn [concat]. by rewrite map_app, concat_app. }
  destruct script as [|[] ?]; solve [exact Hgo | done].
Qed.

(** ** Handshake slots *)

Definition holds (p : SlotPhase) : N := match p with SlotHeld => 1 | _ => 0 end.
Fixpoint held (ps : list SlotPhase) : N :=
  match ps with [] => 0 | p :: ps => holds p + held ps end.

Lemma held_insert ps i p q : ps !! i = Some p → held (<[i := q]> ps) + holds p = held ps + holds q.
Proof.
  revert i. induction ps as [|x ps IH]; intros [|i] E; [done|done| |].
  - injection E as ->. change (holds q + held ps + holds p = holds p + held ps + holds q). lia.
  - change (holds x + held (<[i := q]> ps) + holds p = holds x + held ps + holds q).
    specialize (IH i E). lia.
Qed.

(** The counter is the number of slots held, and within the limit. *)
Definition slots_ok (sl : InboundHandshakeSlots) : Prop :=
  sl_active sl = held (sl_threads sl) ∧ sl_active sl ≤ sl_limit sl.

Lemma slot_step_ok i spurious sl :
  slots_ok sl → slots_ok (slot_step i spurious sl) ∧ sl_limit (slot_step i spurious sl) = sl_limit sl.
Proof.
  intros [Ha Hl]. unfold slot_step. destruct (sl_threads sl !! i) as [p|] eqn:E; [|done].
  assert (Hset : ∀ n q, n + holds p = sl_active sl + holds q → n ≤ sl_limit sl →
            slots_ok (set_slot i n q sl) ∧ sl_limit (set_slot i n q sl) = sl_limit sl).
  { intros n q Hn Hmax. split; [|done]. split; [|done]. cbn.
    pose proof (held_insert _ i p q E). lia. }
  destruct p as [|active|]; cbn [holds] in Hset.
  - apply Hset; cbn; lia.
  - case_bool_decide; [apply Hset; cbn; lia|]. case_bool_decide; [destruct spurious|]; cbn [andb negb];
      apply Hset; cbn; lia.
  - pose proof (held_insert _ i SlotHeld SlotIdle E) as Hi. cbn in Hi. apply Hset; cbn; lia.
Qed.

Lemma run_slots_ok steps sl :
  slots_ok sl → slots_ok (run_slots steps sl) ∧ sl_limit (run_slots steps sl) = sl_limit sl.
Proof.
  revert sl. induction steps as [|[i sp] steps IH]; intros sl Hs; [done|].
  destruct (slot_step_ok i sp sl Hs) as [Hs' Hl]. destruct (IH _ Hs') as [Hr Hrl].
  split; [exact Hr|]. rewrite <-Hl. exact Hrl.
Qed.

(** ** Theorems *)

(** C32: Two nodes that know each other's keys and follow the protocol link up: each
    writes what the other waits for, and each ends with a live link under the other's
    node and key. Conversely a link is only ever added for a key that the allowlist,
    or the dialed peer, names, when the bytes received are that key, a nonce and a
    signature that verifies under that key over this node's own nonce, its key and that
    key; and a transcript determines those three. *)
Theorem handshake_links_up (Sh : Sha256) (Ed : Ed25519) (K : Ed25519Keys) (J : TransportSerde)
    (M : MemberIter) (ss sc : TransportState) (seedS seedC nS nC : bytes) (node : NodeId)
    (peer : PeerConfig) (HkS : ts_self_key ss = from_seed seedS) (HkC : ts_self_key sc = from_seed seedC)
    (HnS : length nS = NONCE_BYTES) (HnC : length nC = NONCE_BYTES)
    (Hallow : ts_peers_by_pubkey ss !! hex_encode (ed_public seedC) = Some node)
    (Hpeer : pc_pubkey_hex peer = hex_encode (ed_public seedS))
    (HwS : ts_writers ss !! node = None) (HwC : ts_writers sc !! pc_node_id peer = None) :
  let server := server_handshake_and_run
    (mkHandshakeIo (Some nS) (client_says seedC nC (ed_public seedS) nS) true true install_ok) ss in
  let client := client_handshake_and_run
    (mkHandshakeIo (Some nC) (server_says seedS nS (ed_public seedC) nC) true true install_ok) peer sc in
  (server.1 = server_says seedS nS (ed_public seedC) nC
   ∧ client.1 = client_says seedC nC (ed_public seedS) nS
   ∧ linked node (hex_encode (ed_public seedC)) server.2
   ∧ linked (pc_node_id peer) (hex_encode (ed_public seedS)) client.2)
  ∧ (∀ io sent s', server_handshake_and_run io ss = (sent, s') → link_ids s' ≠ link_ids ss →
      ∃ nonce pk who sig, hs_nonce io = Some nonce
        ∧ ts_peers_by_pubkey ss !! hex_encode pk = Some who ∧ presented (hs_input io) pk sig
        ∧ ed25519_verify pk (handshake_transcript nonce (ed_public seedS) pk) sig = true
        ∧ link_ids s' = link_ids ss ++ [(who, hex_encode pk)])
  ∧ (∀ io sent s', client_handshake_and_run io peer sc = (sent, s') → link_ids s' ≠ link_ids sc →
      ∃ nonce sig, hs_nonce io = Some nonce ∧ presented (hs_input io) (ed_public seedS) sig
        ∧ ed25519_verify (ed_public seedS) (handshake_transcript nonce (ed_public seedC) (ed_public seedS)) sig
          = true
        ∧ link_ids s' = link_ids sc ++ [(pc_node_id peer, hex_encode (ed_public seedS))])
  ∧ ∀ n o p n' o' p', length n = NONCE_BYTES → length n' = NONCE_BYTES →
      length o = PUBKEY_BYTES → length o' = PUBKEY_BYTES →
      handshake_transcript n o p = handshake_transcript n' o' p' → n = n' ∧ o = o' ∧ p = p'.
Proof.
  intros server client. split; [|split; [|split; [|exact transcript_inj]]].
  - pose proof (server_answers ss seedS nS (ed_public seedC) nC node
      (ed_sign seedC (handshake_transcript nS (ed_public seedS) (ed_public seedC))) install_ok HkS
      (ed_public_length _) HnC Hallow : server = _) as Hs.
    pose proof (client_answers sc seedC peer nC (ed_public seedS) nS _ install_ok HkC
      (ed_public_length _) HnS (ed_sign_length _ _) Hpeer (ed_sign_verifies _ _) : client = _) as Hc.
    rewrite Hs, Hc. cbn [fst snd]. split; [done|]. split; [done|]. split; [|by apply install_linked].
    rewrite <-(app_nil_r (ed_sign _ _)), (take_exact_app SIG_BYTES) by apply ed_sign_length.
    rewrite verify_own. by apply install_linked.
  - intros io sent s' E Hne. apply server_installs in E as (own & nonce & pk & who & sig & Ho &
      Hn & Ha & Hi & Hv & Hl); [|done].
    rewrite (own_key_of_seed ss seedS HkS) in Ho. injection Ho as <-. by exists nonce, pk, who, sig.
  - intros io sent s' E Hne. apply client_installs in E as (own & nonce & pk & sig & Ho & Hn & Hp &
      Hi & Hv & Hl); [|done].
    rewrite (own_key_of_seed sc seedC HkC) in Ho. injection Ho as <-.
    rewrite Hpeer in Hp. apply (f_equal hex_decode) in Hp. rewrite !hex_roundtrip in Hp.
    injection Hp as <-. by exists nonce, sig.
Qed.

(** C11: The handshake does not tell the two roles apart, and a server signs before it has
    authenticated its client. So whoever can reach both of two nodes that know each
    other, without a key of its own, can open a connection to the one, repeat its
    nonce to the other under its name, and hand the signature over: the first node
    links the stranger as its peer, and the second one notices nothing. *)
Theorem handshake_can_be_relayed (Sh : Sha256) (Ed : Ed25519) (K : Ed25519Keys) (J : TransportSerde)
    (M : MemberIter) (ss sc : TransportState) (seedS seedC nS nC n : bytes) (nodeS nodeC : NodeId)
    (HkS : ts_self_key ss = from_seed seedS) (HkC : ts_self_key sc = from_seed seedC)
    (HnS : length nS = NONCE_BYTES) (HnC : length nC = NONCE_BYTES) (Hn : length n = NONCE_BYTES)
    (HaS : ts_peers_by_pubkey ss !! hex_encode (ed_public seedC) = Some nodeC)
    (HaC : ts_peers_by_pubkey sc !! hex_encode (ed_public seedS) = Some nodeS)
    (Hw : ts_writers ss !! nodeC = None) :
  let asked := server_handshake_and_run
    (mkHandshakeIo (Some nC) (ed_public seedS ++ nS) true true install_ok) sc in
  let stolen := drop (PUBKEY_BYTES + NONCE_BYTES) asked.1 in
  let fooled := server_handshake_and_run
    (mkHandshakeIo (Some nS) (ed_public seedC ++ n ++ stolen) true true install_ok) ss in
  asked.2 = sc ∧ linked nodeC (hex_encode (ed_public seedC)) fooled.2.
Proof.
  intros asked stolen fooled.
  assert (Hasked : asked = (server_says seedC nC (ed_public seedS) nS, sc)).
  { subst asked. rewrite <-(app_nil_r nS) at 1.
    by rewrite (server_answers sc seedC nC _ nS nodeS) by (done || apply ed_public_length). }
  assert (Hstolen : stolen = ed_sign seedC (handshake_transcript nS (ed_public seedS) (ed_public seedC))).
  { subst stolen. rewrite Hasked. cbn [fst]. unfold server_says. rewrite (assoc_L (++)), drop_app_length';
      [done|]. rewrite length_app, ed_public_length, HnC. done. }
  split; [by rewrite Hasked|]. subst fooled. rewrite Hstolen.
  rewrite (server_answers ss seedS nS _ n nodeC) by (done || apply ed_public_length). cbn [snd].
  rewrite <-(app_nil_r (ed_sign _ _)), (take_exact_app SIG_BYTES) by apply ed_sign_length.
  rewrite verify_own. by apply install_linked.
Qed.

(** C33: What a writer puts on a link is read back frame by frame: if its loop finishes
    with the batches, the wire carries the encoding of their frames, however its
    writes are cut; and a reader to which those bytes arrive, cut and delayed in any
    way that does not break a length prefix, hands exactly those frames on, in their
    order, and waits for more. *)
Theorem peer_stream_roundtrip (S : Type) (frame : bytes → S → S) (s : S) (script script' : list Sent)
    (batches : list PeerFrame) (sent : bytes) (net : list Recv)
    (Hfit : Forall (Forall frame_fits) batches)
    (Hsent : writer_loop script batches = (sent, WriteDone script'))
    (Hnet : delivers (concat batches) net) :
  bytes_of net = sent
  ∧ reader_loop frame (Datatypes.S (length net)) net s
    = (foldl (fun s f => frame f s) s (concat batches), false).
Proof.
  pose proof (writer_done _ _ _ _ Hsent Hfit) as ->. split; [by apply delivers_bytes|].
  apply reader_reads; [done| |lia]. by apply Forall_concat.
Qed.

(** However many threads try for a slot, fail their exchange without reason, or give
    their slot back, in any interleaving, no more handshakes are under way than the
    limit, and the counter is their exact number. *)
Theorem handshake_slots_bounded (limit : N) (threads : nat) (steps : list (nat * bool)) :
  let sl := run_slots steps (InboundHandshakeSlots_new limit threads) in
  sl_active sl = held (sl_threads sl) ∧ held (sl_threads sl) ≤ limit.
Proof.
  assert (H0 : slots_ok (InboundHandshakeSlots_new limit threads)).
  { split; cbn; [|lia]. induction threads; cbn; [done|lia]. }
  destruct (run_slots_ok steps _ H0) as [[Ha Hl] Hlim]. cbn zeta. split; [done|]. rewrite <-Ha.
  by rewrite Hlim in Hl.
Qed.

(** ** Witnesses *)

Module transport_sample.
Definition silent {T} : SerdeJson T := Build_SerdeJson T (fun _ => Ok []) (fun _ => Err "").
Definition serde : TransportSerde :=
  Build_TransportSerde silent silent silent silent silent silent silent.
Definition order : MemberIter := fun m => map_to_list m.

Definition seed (b : Byte.byte) : bytes := replicate 32 b.
Definition key (b : Byte.byte) : Ed25519KeyMaterial := @from_seed toy_ed25519 toy_keys (seed b).
Definition node (b other : Byte.byte) (name friend addr : string) : TransportState :=
  tt_state (TransportTcp_new (mkTransportConfig (key b) name addr
    [mkPeerConfig friend (km_public_hex (key other)) (Some "127.0.0.1:9002")])).
Definition north : TransportState := node Byte.x01 Byte.x02 "north" "south" "127.0.0.1:9001".
Definition south : TransportState := node Byte.x02 Byte.x01 "south" "north" "127.0.0.1:9002".
End transport_sample.

Import transport_sample.

Lemma handshake_links_up_witness :
  @linked "south" (km_public_hex (key Byte.x02))
    (@server_handshake_and_run toy_ed25519 toy_keys serde order
      (mkHandshakeIo (Some (replicate 32 Byte.x07))
         (@client_says toy_ed25519 toy_keys (seed Byte.x02) (replicate 32 Byte.x08)
            (seed Byte.x01) (replicate 32 Byte.x07)) true true install_ok) north).2.
Proof.
  apply (@handshake_links_up zero_sha toy_ed25519 toy_keys serde order north south
    (seed Byte.x01) (seed Byte.x02) (replicate 32 Byte.x07) (replicate 32 Byte.x08) "south"
    (mkPeerConfig "north" (km_public_hex (key Byte.x01)) None)); reflexivity.
Defined.

Lemma handshake_can_be_relayed_witness :
  (@server_handshake_and_run toy_ed25519 toy_keys serde order
    (mkHandshakeIo (Some (replicate 32 Byte.x08)) (seed Byte.x01 ++ replicate 32 Byte.x07)
       true true install_ok) south).2 = south.
Proof.
  apply (@handshake_can_be_relayed zero_sha toy_ed25519 toy_keys serde order north south
    (seed Byte.x01) (seed Byte.x02) (replicate 32 Byte.x07) (replicate 32 Byte.x08)
    (replicate 32 Byte.x09) "north" "south"); reflexivity.
Defined.

Lemma peer_stream_roundtrip_witness :
  reader_loop (fun f fs => fs ++ [f]) 9
    (map RByte (le_bytes 4 2) ++ [RByte Byte.x68; RBlocked; RByte Byte.x69] ++ [RBlocked]) []
  = ([[Byte.x68; Byte.x69]], false).
Proof.
  apply (peer_stream_roundtrip (list bytes) (fun f fs => fs ++ [f]) [] [SWrote 3; SBlocked; SWrote 9; SWrote 5]
    [] [[[Byte.x68; Byte.x69]]] (le_bytes 4 2 ++ [Byte.x68; Byte.x69])).
  - repeat constructor; [done|]. vm_compute. discriminate.
  - reflexivity.
  - apply (delivers_frame [Byte.x68; Byte.x69] [] [RByte Byte.x68; RBlocked; RByte Byte.x69] [RBlocked]);
      repeat constructor.
Defined.

(** A timeout inside a length prefix drops the bytes of the prefix already read: the
    frames below never arrive, although all their bytes do, and the reader takes the
    next prefix for an oversized frame and ends the link. *)
Lemma split_prefix_loses_frames :
  let net := [RByte Byte.x01; RByte Byte.x00; RBlocked; RByte Byte.x00; RByte Byte.x00; RByte Byte.x68]
             ++ map RByte (on_the_wire [replicate 16 Byte.x69]) in
  bytes_of net = on_the_wire [[Byte.x68]; replicate 16 Byte.x69]
  ∧ reader_loop (fun f fs => fs ++ [f]) (S (length net)) net [] = ([], true).
Proof. split; reflexivity. Qed.
