(* ===== verification/MeshLaws.v ===== *)
(** * Laws of the mesh

    What the links of [Transport] can do to the node they end at: which calls reach
    its bus, in which order, and how its tables grow. *)

From stdpp Require Import countable sorting.
From S2P Require Import Prelude Serde GxShape GxWire GxFrame GxHash FnCrypto.
From S2P Require Import AetherAddress AetherEnvelope AetherRouter AetherBus Die Sigil Federator Registry.
From S2P Require Import NetAddr Transport TransportLaws.

Create HintDb mesh.

(** ** Histories *)

(** One critical section of a bound transport: a message of the handler, a handshake
    on either side, the end of a dialer, a frame or the end of a reader, a batch or
    the end of a writer, and the shutdown. *)
Inductive TransportAction : Type :=
  | TAHandle (spawned : bool) (env : Envelope)
  | TAServer (io : HandshakeIo)
  | TADial (i : nat) (connect : option HandshakeIo)
  | TADialerExit (i : nat)
  | TAFrame (r : Router) (spawned : NodeId → bool) (i : nat) (payload : bytes)
  | TAReaderEnd (i : nat)
  | TAWriterTake (i : nat)
  | TAWriterEnd (i : nat)
  | TAShutdown.

Section mesh.
  Context `{!Sha256} `{!Ed25519} `{!Ed25519Keys} `{!TransportSerde} `{!MemberIter}.

Definition transport_step (s : TransportState) (a : TransportAction) : TransportState :=
  match a with
  | TAHandle spawned env => (transport_handle spawned env s).2
  | TAServer io => (server_handshake_and_run io s).2
  | TADial i connect =>
      match ts_dialers s !! i with Some peer => (dialer_turn connect peer s).2 | None => s end
  | TADialerExit i => dialer_exit i s
  | TAFrame r spawned i payload =>
      match ts_links s !! i with
      | Some l => if lk_reader l then reader_frame r spawned (lk_peer l) (lk_pubkey l) payload s else s
      | None => s
      end
  | TAReaderEnd i => reader_end i s
  | TAWriterTake i => match writer_take i s with Some (_, s') => s' | None => s end
  | TAWriterEnd i => writer_end i s
  | TAShutdown => transport_shutdown s
  end.

Definition transport_run (s : TransportState) (acts : list TransportAction) : TransportState :=
  foldl transport_step s acts.

(** ** The invariant *)

Definition reaches_creature (d : Dispatch) : Prop := ∃ m, m ≠ KERNEL_ID ∧ di_to d = ACreature m.

(** A call the transport may make: an event, or a delivery to a creature that is not
    the kernel, in the name of a peer that was authenticated. *)
Definition call_ok (h : BusHandle) (ids : list (NodeId * string)) (c : BusCall) : Prop :=
  match c with
  | BEmit d => di_to d = ATopic PROPRIOCEPTION ∨ reaches_creature d
  | BEmitAttested d o =>
      bh_may_attest h = true ∧ reaches_creature d ∧ ∃ key, (or_node o, key) ∈ ids
  end.

Definition link_ok (l : Link) : Prop :=
  N.of_nat (length (lk_queue l)) ≤ PEER_QUEUE_DEPTH ∧ Forall (Forall frame_fits) (lk_queue l).

Record mesh_ok (h : BusHandle) (seeds : N) (s : TransportState) : Prop := {
  mo_bus : ts_bus s = Some h;
  mo_calls : Forall (call_ok h (link_ids s)) (ts_calls s);
  mo_routes : map_Forall (fun _ r => gr_target r ≠ KERNEL_ID) (ts_gx_routes s);
  mo_route_count : ∀ peer, routes_of peer (ts_gx_routes s) ≤ MAX_GX_ROUTES_PER_PEER;
  mo_links : Forall link_ok (ts_links s);
  mo_members : ts_max_members s ≠ 0 →
    N.of_nat (size (ts_members s)) ≤ N.max (ts_max_members s) seeds
}.

(** A state that differs only in the tables the invariant does not read. *)
Ltac same_tables := intros Hok; destruct Hok; by split.

Section invariant.
  Context (h : BusHandle) (seeds : N).
  Implicit Types s : TransportState.

Lemma ok_call c s : mesh_ok h seeds s → call_ok h (link_ids s) c → mesh_ok h seeds (call_bus c s).
Proof.
  intros [Hb Hc Hr Hn Hl Hm] Hok. split; try done. cbn. rewrite Hb. by apply Forall_app_2; [|constructor].
Qed.

Lemma ok_event peer event s : mesh_ok h seeds s → mesh_ok h seeds (publish_peer_event peer event s).
Proof. intros Hok. apply ok_call; [done|by left]. Qed.

(** Links change, but none is lost and the queues stay within bounds. *)
Lemma ok_links f s :
  mesh_ok h seeds s → (∀ x, x ∈ link_ids s → x ∈ map link_id (f (ts_links s))) →
  Forall link_ok (f (ts_links s)) → mesh_ok h seeds (on_links f s).
Proof.
  intros [Hb Hc Hr Hn Hl Hm] Hids Hlinks. split; try done. cbn. eapply Forall_impl; [exact Hc|].
  intros [d|d o]; cbn; [done|]. intros (? & ? & key & Hk). split; [done|]. split; [done|]. exists key. by apply Hids.
Qed.

Lemma alter_ok f i (ls : list Link) :
  (∀ l, link_ok l → link_ok (f l)) → Forall link_ok ls → Forall link_ok (alter f i ls).
Proof.
  intros Hf HF. revert i. induction HF as [|l ls Hl HF IH]; intros [|i]; cbn; [by constructor..| |].
  - constructor; [by apply Hf|done].
  - constructor; [done|]. apply IH.
Qed.

Lemma ok_set_link f i s :
  keeps_id f → (∀ l, link_ok l → link_ok (f l)) → mesh_ok h seeds s → mesh_ok h seeds (set_link i f s).
Proof.
  intros Hid Hf Hok. apply ok_links; [done| |apply alter_ok; [done|apply Hok]].
  intros x. by rewrite alter_ids.
Qed.

Lemma queue_ok tx frames ls ls' :
  queue_peer_frames tx frames MAX_FRAME_BYTES ls = Ok ls' → Forall link_ok ls → Forall link_ok ls'.
Proof.
  unfold queue_peer_frames, sync_try_send. case_bool_decide; [done|].
  destruct (frames_error frames MAX_FRAME_BYTES) eqn:Hf; [done|]. apply frames_error_None in Hf.
  destruct (ls !! tx) as [l|] eqn:Hl; [|done]. destruct (negb (lk_writer l)); [done|].
  case_bool_decide as Hd; [done|]. intros [= <-] HF. apply Forall_lookup. intros i x Hx.
  destruct (decide (tx = i)) as [<-|Hne].
  - rewrite list_lookup_alter_eq, Hl in Hx. injection Hx as <-.
    destruct (Forall_lookup_1 _ _ _ _ HF Hl) as [Hq HqF]. split; cbn.
    + rewrite length_app. cbn. lia.
    + apply Forall_app_2; [done|]. by constructor.
  - rewrite list_lookup_alter_ne in Hx by done. by apply (Forall_lookup_1 _ _ _ _ HF Hx).
Qed.

Lemma push_ok tx frame ls : Forall link_ok ls → Forall link_ok (push_frame tx frame ls).
Proof.
  intros HF. unfold push_frame, queue_peer_frame. destruct (queue_peer_frames _ _ _ _) eqn:E; [|done].
  by eapply queue_ok.
Qed.

Lemma ok_queue_to peer frames s s' :
  queue_to peer frames s = Ok s' → mesh_ok h seeds s → mesh_ok h seeds s'.
Proof.
  unfold queue_to. destruct (ts_writers s !! peer) as [tx|]; [|done].
  intros (ls & Hq & [= <-])%bind_Ok Hok. apply ok_links; [done| |eapply queue_ok; [exact Hq|apply Hok]].
  unfold link_ids. intros x. by rewrite (queue_ids _ _ _ _ _ Hq).
Qed.

Lemma ok_settle peer r s :
  mesh_ok h seeds s → (∀ s', r = Ok s' → mesh_ok h seeds s') → mesh_ok h seeds (settle peer r s).
Proof. intros Hok Hr. destruct r as [s'|e]; [by apply Hr|by apply ok_event]. Qed.

Lemma ok_shut_all idx s : mesh_ok h seeds s → mesh_ok h seeds (shut_all idx s).
Proof.
  intros Hok. apply ok_links; [done|intros x; by rewrite shut_ids|].
  pose proof (mo_links _ _ _ Hok) as HF. revert HF. generalize (ts_links s).
  induction idx as [|i idx IH]; intros ls HF; [done|]. cbn. apply IH. by apply alter_ok.
Qed.

Lemma ok_broadcast s : mesh_ok h seeds s → mesh_ok h seeds (gossip_broadcast s).
Proof.
  intros Hok. unfold gossip_broadcast. apply ok_links; [done| |].
  - intros x. by rewrite (foldl_ids (fun ls tx => push_frame tx _ ls)) by (intros; apply push_ids).
  - pose proof (mo_links _ _ _ Hok) as HF. revert HF. generalize (ts_links s).
    induction (map snd (map_to_list (ts_writers s))) as [|tx txs IH]; intros ls HF; [done|].
    cbn. apply IH. by apply push_ok.
Qed.

Lemma routes_of_mono peer m m' : m' ⊆ m → routes_of peer m' ≤ routes_of peer m.
Proof.
  intros Hs. unfold routes_of. apply (map_filter_subseteq_mono (fun kv => kv.1.1 = peer)) in Hs.
  apply map_subseteq_size in Hs. lia.
Qed.

Lemma routes_of_insert peer key r m :
  routes_of peer (<[key := r]> m) ≤ routes_of peer m + (if decide (key.1 = peer) then 1 else 0).
Proof.
  assert (Hsize : ∀ f : gmap (NodeId * string) GxRoute,
            N.of_nat (size (<[key := r]> f)) ≤ N.of_nat (size f) + 1).
  { intros f. rewrite map_size_insert. destruct (f !! key); unfold id; lia. }
  unfold routes_of. rewrite map_filter_insert. cbn. case_decide.
  - apply Hsize.
  - rewrite N.add_0_r. apply (routes_of_mono peer m (delete key m)), delete_subseteq.
Qed.

(** Routes that are only removed. *)
Lemma ok_fewer_routes f s :
  f (ts_gx_routes s) ⊆ ts_gx_routes s → mesh_ok h seeds s → mesh_ok h seeds (on_gx_routes f s).
Proof.
  intros Hs [Hb Hc Hr Hn Hl Hm]. split; try done; cbn.
  - intros k r Hk. by apply (Hr k r), (lookup_weaken _ _ _ _ Hk).
  - intros peer. transitivity (routes_of peer (ts_gx_routes s)); [by apply routes_of_mono|done].
Qed.

Lemma ok_remove_route key s : mesh_ok h seeds s → mesh_ok h seeds (remove_route key s).
Proof. apply ok_fewer_routes, delete_subseteq. Qed.

Lemma ok_retire (b : bool) key s :
  mesh_ok h seeds s → mesh_ok h seeds (if b then remove_route key s else s).
Proof. destruct b; [apply ok_remove_route|done]. Qed.

Lemma bind_shape_target bind : GxRouteBind_shape_error bind = None → gb_target bind ≠ KERNEL_ID.
Proof.
  unfold GxRouteBind_shape_error. rewrite !or_error_None, !reject_if_None, !bool_decide_eq_false.
  by intros (_ & Ht & _).
Qed.

Lemma ok_install_gx_route peer bind s : mesh_ok h seeds s → mesh_ok h seeds (install_gx_route peer bind s).
Proof.
  intros Hok. unfold install_gx_route. destruct (GxRouteBind_shape_error bind) eqn:Hshape; [by apply ok_event|].
  destruct (ts_gx_routes s !! _) as [r|]; [case_bool_decide; [by apply ok_event|done]|].
  case_bool_decide as Hcap; [by apply ok_event|]. destruct Hok as [Hb Hc Hr Hn Hl Hm]. split; try done; cbn.
  - apply map_Forall_insert_2; [|done]. cbn. by apply bind_shape_target.
  - intros p. pose proof (routes_of_insert p (peer, gb_transfer_id bind)
      (mkGxRoute (gb_target bind) (gb_schema bind) (gb_corr bind) (gb_total_chunks bind))
      (ts_gx_routes s)) as Hi. cbn in Hi. specialize (Hn p). case_decide; [subst; lia|lia].
Qed.

Lemma ok_deliver_chunk peer header payload s :
  mesh_ok h seeds s → mesh_ok h seeds (deliver_gx_chunk_locally peer header payload s).
Proof.
  intros Hok. unfold deliver_gx_chunk_locally.
  destruct (ts_gx_routes s !! _) as [route|] eqn:Hroute; [|by apply ok_event].
  case_bool_decide; [by apply ok_event, ok_remove_route|]. cbn zeta.
  case_bool_decide; [by apply ok_retire, ok_event|].
  destruct (encode_binary_frame header payload) as [body|e]; [|by apply ok_retire, ok_event].
  apply ok_retire, ok_call; [done|]. right. exists (gr_target route).
  split; [by apply (mo_routes _ _ _ Hok _ _ Hroute)|]. by destruct (gr_corr route).
Qed.

Lemma inbound_dispatch_to env peer mid : di_to (inbound_dispatch env peer mid) = ACreature mid.
Proof.
  unfold inbound_dispatch. by destruct (hd_reply_to _), (hd_corr _), (hd_commitment _).
Qed.

Lemma ok_origin_seq f s : mesh_ok h seeds s → mesh_ok h seeds (on_origin_seq f s).
Proof. same_tables. Qed.

Lemma replayed_state peer sender seq s b s' :
  is_replayed_seq peer sender seq s = (b, s') → s' = s ∨ ∃ f, s' = on_origin_seq f s.
Proof.
  unfold is_replayed_seq. destruct (ts_origin_seq s !! _); [case_bool_decide|]; intros [= <- <-]; eauto.
Qed.

Lemma ok_deliver r env peer pubkey s :
  (peer, pubkey) ∈ link_ids s → mesh_ok h seeds s → mesh_ok h seeds (deliver_locally r env peer pubkey s).
Proof.
  intros Hid Hok. unfold deliver_locally. destruct (inbound_target s _) as [target|]; [|done].
  rewrite (mo_bus _ _ _ Hok). destruct (resolve_target r h target) as [mid|e]; [|by apply ok_event].
  case_bool_decide as Hk; [done|]. destruct (hd_from (ev_header env)) as [sender| | | | | | | |];
    try by apply ok_event.
  assert (Hreach : reaches_creature (inbound_dispatch env peer mid)).
  { exists mid. split; [done|apply inbound_dispatch_to]. }
  destruct (bh_may_attest h) eqn:Ha; cbn [negb]; [|apply ok_call; [done|by right]].
  destruct (is_replayed_seq peer sender _ s) as [b s1] eqn:Hs.
  assert (Hs1 : mesh_ok h seeds s1 ∧ link_ids s1 = link_ids s).
  { apply replayed_state in Hs as [->|[f ->]]; [done|]. split; [by apply ok_origin_seq|done]. }
  destruct Hs1 as [Hs1 Hids]. destruct b; [by apply ok_event|].
  apply ok_call; [apply ok_call; [done|by left]|]. split; [done|]. split; [done|]. exists pubkey.
  change ((peer, pubkey) ∈ link_ids s1). by rewrite Hids.
Qed.

Lemma ok_peers_by_pubkey f s : mesh_ok h seeds s → mesh_ok h seeds (on_peers_by_pubkey f s).
Proof. same_tables. Qed.
Lemma ok_dialing f s : mesh_ok h seeds s → mesh_ok h seeds (on_dialing f s).
Proof. same_tables. Qed.
Lemma ok_dialers f s : mesh_ok h seeds s → mesh_ok h seeds (on_dialers f s).
Proof. same_tables. Qed.
Lemma ok_writers f s : mesh_ok h seeds s → mesh_ok h seeds (on_writers f s).
Proof. same_tables. Qed.
Lemma ok_sockets f s : mesh_ok h seeds s → mesh_ok h seeds (on_sockets f s).
Proof. same_tables. Qed.
Lemma ok_stop f s : mesh_ok h seeds s → mesh_ok h seeds (on_stop f s).
Proof. same_tables. Qed.
Lemma ok_watermarks peer s : mesh_ok h seeds s → mesh_ok h seeds (reset_origin_watermarks peer s).
Proof. apply ok_origin_seq. Qed.
#[local] Hint Resolve ok_event ok_peers_by_pubkey ok_dialing ok_dialers ok_writers ok_sockets ok_stop
  ok_watermarks ok_shut_all ok_broadcast ok_remove_route : mesh.

Lemma ok_forget_members node s : mesh_ok h seeds s → mesh_ok h seeds (on_members (delete node) s).
Proof.
  intros [Hb Hc Hr Hn Hl Hm]. split; try done; cbn. intros Hmax. specialize (Hm Hmax).
  pose proof (map_subseteq_size _ _ (delete_subseteq (ts_members s) node)). lia.
Qed.

Lemma ok_admit node key addr s : mesh_ok h seeds s → mesh_ok h seeds (admit_member node key addr s).2.
Proof.
  intros Hok. unfold admit_member. destruct (validate_member_shape node key addr) as [key'|]; [|done].
  case_bool_decide; [done|]. case_bool_decide; [by apply ok_peers_by_pubkey|].
  destruct (bool_decide _ && _ && _) eqn:Hcap; [done|]. apply ok_event, ok_peers_by_pubkey.
  destruct Hok as [Hb Hc Hr Hn Hl Hm]. split; try done; cbn. intros Hmax. specialize (Hm Hmax).
  rewrite map_size_insert. destruct (ts_members s !! node) eqn:Hin; cbn; [exact Hm|].
  rewrite !andb_false_iff, !bool_decide_eq_false in Hcap. destruct Hcap as [[?|?]|?]; [done..|]. lia.
Qed.

Lemma ok_spawn_dialer spawned peer s : mesh_ok h seeds s → mesh_ok h seeds (spawn_dialer spawned peer s).
Proof.
  intros Hok. unfold spawn_dialer. destruct (_ || _); [done|]. case_bool_decide; [done|].
  destruct spawned; auto with mesh.
Qed.

Lemma ok_ingest_members spawned ms any s :
  mesh_ok h seeds s → mesh_ok h seeds (ingest_members spawned ms any s).2.
Proof.
  revert any s. induction ms as [|m ms IH]; intros any s Hok; cbn [ingest_members]; [done|].
  case_bool_decide; [by apply IH|].
  pose proof (ok_admit (gm_node_id m) (gm_pubkey_hex m) (gm_addr m) s Hok) as Ha.
  destruct (admit_member _ _ _ _) as [res s']. case_bool_decide; apply IH; [by apply ok_spawn_dialer|done].
Qed.

Lemma ok_ingest_gossip spawned ms s : mesh_ok h seeds s → mesh_ok h seeds (ingest_gossip spawned ms s).
Proof.
  intros Hok. unfold ingest_gossip.
  pose proof (ok_ingest_members spawned (take (N.to_nat MAX_GOSSIP_MEMBERS) ms) false s Hok) as Hi.
  destruct (ingest_members _ _ _ _) as [any s']. destruct any; auto with mesh.
Qed.

Lemma ok_forget node s : mesh_ok h seeds s → mesh_ok h seeds (forget_member node s).
Proof.
  intros Hok. unfold forget_member. case_bool_decide; [done|].
  auto 10 using ok_forget_members with mesh.
Qed.

Lemma ok_handle spawned env s : mesh_ok h seeds s → mesh_ok h seeds (transport_handle spawned env s).2.
Proof.
  intros Hok. unfold transport_handle. case_bool_decide.
  - unfold handle_ctl. case_bool_decide; [done|].
    destruct (TransportCtl_parse (ev_payload env)) as [[node key addr| |node]|]; [|done| |done].
    + pose proof (ok_admit node key addr s Hok) as Ha. destruct (admit_member _ _ _ _) as [res s'].
      case_bool_decide; [done|]. case_bool_decide; cbn; auto using ok_spawn_dialer with mesh.
    + cbn. auto using ok_forget with mesh.
  - case_bool_decide.
    + unfold handle_gx_chunk_outbound. destruct (hd_to (ev_header env)); try done.
      case_bool_decide; [by apply ok_event|]. apply ok_settle; [done|]. intros s'.
      destruct (decode_binary_frame (ev_payload env)) as [[header ?]|]; [|done].
      destruct (ChunkFrameHeader_shape_error header); [done|].
      destruct (prefix_gx_wire_frame (ev_payload env)); [|done]. intros E. by eapply ok_queue_to.
    + destruct (hd_to (ev_header env)); try done; (apply ok_settle; [done|]);
        intros s' E; by eapply ok_queue_to.
Qed.

Lemma ok_install io peer key s : mesh_ok h seeds s → mesh_ok h seeds (install_connection io peer key s).
Proof.
  intros Hok. unfold install_connection. case_bool_decide; [by apply ok_event|]. cbn zeta.
  assert (Hset : ∀ i s0, mesh_ok h seeds s0 → mesh_ok h seeds (set_link i (set_writer false) s0)).
  { intros i s0. by apply ok_set_link. }
  assert (Hnew : mesh_ok h seeds
            (on_links (fun ls => ls ++ [mkLink peer key [] false true false]) s)).
  { apply ok_links; [done|intros x; rewrite map_app; set_solver|].
    apply Forall_app_2; [apply Hok|]. constructor; [split; [done|constructor]|constructor]. }
  destruct (ii_clone_reader io); cbn [negb]; [|auto with mesh].
  destruct (ii_clone_shutdown io); cbn [negb]; [|auto with mesh].
  set (s1 := publish_peer_event _ _ _). assert (Hs1 : mesh_ok h seeds s1) by (unfold s1; auto with mesh).
  assert (Hs2 : mesh_ok h seeds (if ts_gossip s1 then gossip_to_peer peer s1 else s1)).
  { destruct (ts_gossip s1); [|done]. unfold gossip_to_peer. destruct (ts_writers s1 !! peer); [|done].
    apply ok_links; [done|intros x; by rewrite push_ids|]. apply push_ok, Hs1. }
  destruct (ii_spawn_reader io); cbn [negb]; [|auto with mesh].
  destruct (ii_spawn_writer io); cbn [negb]; [by apply ok_set_link|].
  apply ok_shut_all, Hset, ok_writers. by apply ok_set_link.
Qed.

Lemma ok_server io s : mesh_ok h seeds s → mesh_ok h seeds (server_handshake_and_run io s).2.
Proof.
  intros Hok. unfold server_handshake_and_run.
  repeat case_match; cbn [snd]; auto using ok_install with mesh.
Qed.

Lemma ok_client io peer s : mesh_ok h seeds s → mesh_ok h seeds (client_handshake_and_run io peer s).2.
Proof.
  intros Hok. unfold client_handshake_and_run.
  repeat case_match; cbn [snd]; auto using ok_install with mesh.
Qed.

Lemma ok_frame r spawned i l payload s :
  ts_links s !! i = Some l → mesh_ok h seeds s →
  mesh_ok h seeds (reader_frame r spawned (lk_peer l) (lk_pubkey l) payload s).
Proof.
  intros Hl Hok. unfold reader_frame.
  destruct (parse_wire_payload payload) as [[env|ms|bind|header p]|]; [| | | |done].
  - apply ok_deliver; [|done]. apply list_elem_of_fmap. exists l. split; [done|].
    by apply list_elem_of_lookup_2 with i.
  - destruct (ts_gossip s); [by apply ok_ingest_gossip|done].
  - by apply ok_install_gx_route.
  - by apply ok_deliver_chunk.
Qed.

Lemma ok_reader_end i s : mesh_ok h seeds s → mesh_ok h seeds (reader_end i s).
Proof.
  intros Hok. unfold reader_end. destruct (ts_links s !! i) as [l|]; [|done].
  apply ok_set_link; [done|done|]. apply ok_sockets, ok_fewer_routes; [apply map_filter_subseteq|].
  auto with mesh.
Qed.

Lemma ok_shutdown s : mesh_ok h seeds s → mesh_ok h seeds (transport_shutdown s).
Proof.
  intros Hok. unfold transport_shutdown. apply ok_fewer_routes; [apply map_empty_subseteq|].
  auto with mesh.
Qed.

Lemma ok_writer_take i s f s' : writer_take i s = Some (f, s') → mesh_ok h seeds s → mesh_ok h seeds s'.
Proof.
  unfold writer_take. destruct (ts_links s !! i) as [l|] eqn:Hl; [|done].
  destruct (lk_queue l) as [|f' q] eqn:Hq; [done|]. intros [= <- <-] Hok.
  apply ok_links; [done|intros x; by rewrite alter_ids|].
  pose proof (mo_links _ _ _ Hok) as HF. apply Forall_lookup. intros j x Hx.
  destruct (decide (i = j)) as [<-|Hne]; [|rewrite list_lookup_alter_ne in Hx by done;
    by apply (Forall_lookup_1 _ _ _ _ HF Hx)].
  rewrite list_lookup_alter_eq, Hl in Hx. injection Hx as <-.
  destruct (Forall_lookup_1 _ _ _ _ HF Hl) as [Hlen HqF]. rewrite Hq in Hlen, HqF. split; cbn in *.
  - lia.
  - by apply Forall_cons in HqF as [_ ?].
Qed.

Lemma ok_dialer_exit i s : mesh_ok h seeds s → mesh_ok h seeds (dialer_exit i s).
Proof.
  intros Hok. unfold dialer_exit. destruct (ts_dialers s !! i) as [peer|]; [|done].
  apply ok_dialers, ok_dialing. destruct (pc_dial_addr peer); [|done].
  destruct (parses_as_socket_addr _); auto with mesh.
Qed.

Lemma ok_step s a : mesh_ok h seeds s → mesh_ok h seeds (transport_step s a).
Proof.
  intros Hok. destruct a as [spawned env|io|i connect|i|r spawned i payload|i|i|i|]; cbn [transport_step].
  - by apply ok_handle.
  - by apply ok_server.
  - destruct (ts_dialers s !! i); [|done]. unfold dialer_turn. case_bool_decide; [done|].
    destruct connect; [by apply ok_client|done].
  - by apply ok_dialer_exit.
  - destruct (ts_links s !! i) as [l|] eqn:Hl; [|done]. destruct (lk_reader l); [|done].
    by eapply ok_frame.
  - by apply ok_reader_end.
  - destruct (writer_take i s) as [[f s']|] eqn:E; [|done]. by eapply ok_writer_take.
  - by apply ok_set_link.
  - by apply ok_shutdown.
Qed.

Lemma ok_run acts s : mesh_ok h seeds s → mesh_ok h seeds (transport_run s acts).
Proof. revert s. induction acts as [|a acts IH]; intros s Hok; [done|]. by apply IH, ok_step. Qed.
End invariant.

(** A transport that was never bound. *)
Definition fresh (s : TransportState) : Prop :=
  ts_links s = [] ∧ ts_calls s = [] ∧ ts_gx_routes s = ∅.

Lemma new_fresh cfg : fresh (tt_state (TransportTcp_new cfg)).
Proof. unfold TransportTcp_new. by destruct (seed_peers _ _ _) as [[al mem] kept]. Qed.

Lemma ok_fresh h s :
  fresh s → ts_bus s = Some h → mesh_ok h (N.of_nat (size (ts_members s))) s.
Proof.
  intros (Hl & Hc & Hr) Hb. split; [done|by rewrite Hc|by rewrite Hr| |by rewrite Hl|lia].
  intros peer. rewrite Hr. unfold routes_of. rewrite map_filter_empty, map_size_empty. lia.
Qed.

(** A transport that has just been bound: its dialers started, nothing else done. *)
Lemma bound_ok h me listen spawned t :
  fresh (tt_state t) →
  mesh_ok h (N.of_nat (size (ts_members (tt_state t)))) (tt_state (transport_bind h me listen spawned t)).
Proof.
  intros Hf. unfold transport_bind. cbn [tt_state]. set (s0 := on_me _ _).
  assert (Hs0 : mesh_ok h (N.of_nat (size (ts_members (tt_state t)))) s0) by (by apply (ok_fresh h s0)).
  revert Hs0. generalize s0. clear s0. intros s0 Hs0. set (s1 := match listen with Listening => s0 | _ => _ end).
  assert (Hs1 : mesh_ok h (N.of_nat (size (ts_members (tt_state t)))) s1).
  { unfold s1. destruct listen; [done|by apply ok_event..]. }
  revert Hs1. generalize s1. clear s1.
  induction (tc_peers (tt_cfg t)) as [|p ps IH]; intros s Hs; [done|]. cbn. by apply IH, ok_spawn_dialer.
Qed.

(** ** Sessions *)

(** The marks of a peer's senders only rise from [s] to [s']. *)
Definition marks_rise (peer : NodeId) (s s' : TransportState) : Prop :=
  ∀ sender q, ts_origin_seq s !! (peer, sender) = Some q →
    ∃ q', ts_origin_seq s' !! (peer, sender) = Some q' ∧ q ≤ q'.

#[global] Instance marks_rise_refl peer : Reflexive (marks_rise peer).
Proof. intros s sender q E. by exists q. Qed.
#[global] Instance marks_rise_trans peer : Transitive (marks_rise peer).
Proof.
  intros s1 s2 s3 H12 H23 sender q (q2 & E2 & L2)%H12. apply H23 in E2 as (q3 & E3 & L3).
  exists q3. split; [done|lia].
Qed.

Lemma marks_same peer s s' : ts_origin_seq s' = ts_origin_seq s → marks_rise peer s s'.
Proof. intros E sender q Hq. exists q. by rewrite E. Qed.

Lemma replayed_marks peer p sender seq s b s' :
  is_replayed_seq p sender seq s = (b, s') → marks_rise peer s s'.
Proof.
  unfold is_replayed_seq. destruct (ts_origin_seq s !! (p, sender)) as [last|] eqn:E;
    [case_bool_decide as Hl|]; intros [= <- <-]; [done|..]; intros c q Hq;
    destruct (decide ((peer, c) = (p, sender))) as [Eq|Hne].
  - exists seq. rewrite Eq in Hq |- *. cbn. rewrite lookup_insert_eq. split; [done|]. simplify_eq. lia.
  - exists q. cbn. by rewrite lookup_insert_ne.
  - rewrite Eq in Hq. congruence.
  - exists q. cbn. by rewrite lookup_insert_ne.
Qed.

Lemma deliver_marks r env p key peer s : marks_rise peer s (deliver_locally r env p key s).
Proof.
  unfold deliver_locally. destruct (inbound_target s _); [|done]. destruct (ts_bus s) as [bus|]; [|done].
  destruct (resolve_target r bus _); [|by apply marks_same]. case_bool_decide; [done|].
  destruct (hd_from (ev_header env)); try by apply marks_same.
  destruct (bh_may_attest bus); cbn [negb]; [|by apply marks_same].
  destruct (is_replayed_seq p _ _ s) as [b s1] eqn:E. apply (replayed_marks peer) in E.
  destruct b; (etransitivity; [exact E|]); by apply marks_same.
Qed.

Lemma admit_marks node key addr s :
  ts_origin_seq (admit_member node key addr s).2 = ts_origin_seq s.
Proof. unfold admit_member. by repeat case_match. Qed.

Lemma spawn_marks b p s : ts_origin_seq (spawn_dialer b p s) = ts_origin_seq s.
Proof. unfold spawn_dialer. by repeat case_match. Qed.

Lemma ingest_marks spawned ms any s :
  ts_origin_seq (ingest_members spawned ms any s).2 = ts_origin_seq s.
Proof.
  revert any s. induction ms as [|m ms IH]; intros any s; cbn [ingest_members]; [done|].
  case_bool_decide; [apply IH|]. pose proof (admit_marks (gm_node_id m) (gm_pubkey_hex m) (gm_addr m) s) as Ha.
  destruct (admit_member _ _ _ _) as [res s']. cbn in Ha.
  case_bool_decide; rewrite IH; [by rewrite spawn_marks|done].
Qed.

Lemma chunk_marks p header payload s :
  ts_origin_seq (deliver_gx_chunk_locally p header payload s) = ts_origin_seq s.
Proof. unfold deliver_gx_chunk_locally. by repeat case_match. Qed.

Lemma frame_marks r spawned p key payload peer s :
  marks_rise peer s (reader_frame r spawned p key payload s).
Proof.
  unfold reader_frame. destruct (parse_wire_payload payload) as [[env|ms|bind|header pl]|]; [| | | |done].
  - apply deliver_marks.
  - destruct (ts_gossip s); [|done]. apply marks_same. unfold ingest_gossip.
    pose proof (ingest_marks spawned (take (N.to_nat MAX_GOSSIP_MEMBERS) ms) false s) as Hi.
    destruct (ingest_members _ _ _ _) as [any s']. by destruct any.
  - apply marks_same. unfold install_gx_route. by repeat case_match.
  - apply marks_same, chunk_marks.
Qed.

(** *** Sessions *)

(** The links that were ever opened with a peer. *)
Definition links_to (peer : NodeId) (s : TransportState) : list (NodeId * string) :=
  filter (fun x => x.1 = peer) (link_ids s).

(** The operator asks to forget the peer. *)
Definition forgets (peer : NodeId) (a : TransportAction) : Prop :=
  match a with
  | TAHandle _ env =>
      hd_schema (ev_header env) = TRANSPORT_CTL_SCHEMA
      ∧ TransportCtl_parse (ev_payload env) = Some (CtlForget peer)
  | _ => False
  end.

(** No action of the run opens a link with this peer or forgets it. *)
Fixpoint in_session (peer : NodeId) (s : TransportState) (acts : list TransportAction) : Prop :=
  match acts with
  | [] => True
  | a :: acts =>
      links_to peer (transport_step s a) = links_to peer s ∧ ¬ forgets peer a
      ∧ in_session peer (transport_step s a) acts
  end.

Lemma reset_other p peer s s' :
  p ≠ peer → ts_origin_seq s' = filter (fun kv => kv.1.1 ≠ p) (ts_origin_seq s) → marks_rise peer s s'.
Proof.
  intros Hne E sender q Hq. exists q. split; [|done]. rewrite E. apply map_lookup_filter_Some.
  by split; [|cbn; congruence].
Qed.

Lemma forget_marks p peer s : p ≠ peer → marks_rise peer s (gossip_broadcast (forget_member p s)).
Proof.
  intros Hne. unfold forget_member. case_bool_decide; [by apply marks_same|].
  by apply (reset_other p).
Qed.

Lemma install_origin_seq io p key s :
  ts_origin_seq (install_connection io p key s) = ts_origin_seq s
  ∨ ts_origin_seq (install_connection io p key s) = filter (fun kv => kv.1.1 ≠ p) (ts_origin_seq s).
Proof.
  unfold install_connection. case_bool_decide; [by left|].
  destruct (ii_clone_reader io); [|by left]. destruct (ii_clone_shutdown io); [|by left]. right.
  cbn [negb]. unfold gossip_to_peer.
  destruct (ts_gossip _), (ii_spawn_reader io), (ii_spawn_writer io); cbn [negb]; try done;
    by case_match.
Qed.

(** A connection for another peer, or one that is turned away, keeps the marks. *)
Lemma install_marks io p key peer s :
  links_to peer (install_connection io p key s) = links_to peer s →
  marks_rise peer s (install_connection io p key s).
Proof.
  intros Hl. destruct (decide (p = peer)) as [->|Hne].
  - destruct (ts_writers s !! peer) eqn:Hw.
    + apply marks_same. unfold install_connection. rewrite Hw. by rewrite bool_decide_eq_true_2.
    + unfold links_to in Hl. rewrite install_ids_new in Hl by done. rewrite filter_app in Hl.
      apply (f_equal length) in Hl. rewrite length_app in Hl.
      rewrite (filter_cons_True (A := NodeId * string)) in Hl by done. cbn in Hl. lia.
  - destruct (install_origin_seq io p key s) as [E|E]; [by apply marks_same|by apply (reset_other p)].
Qed.

(** What a handshake leaves: an event at most, or an installation. *)
Inductive handshake_leaves (io : HandshakeIo) (s : TransportState) : TransportState → Prop :=
  | leaves_same : handshake_leaves io s s
  | leaves_event who event : handshake_leaves io s (publish_peer_event who event s)
  | leaves_link p key : handshake_leaves io s (install_connection (hs_install io) p key s).
#[local] Hint Constructors handshake_leaves : core.

Lemma server_leaves io s : handshake_leaves io s (server_handshake_and_run io s).2.
Proof. unfold server_handshake_and_run. repeat case_match; cbn; auto. Qed.

Lemma client_leaves io peer s : handshake_leaves io s (client_handshake_and_run io peer s).2.
Proof. unfold client_handshake_and_run. repeat case_match; cbn; auto. Qed.

Lemma leaves_marks io peer s s' :
  handshake_leaves io s s' → links_to peer s' = links_to peer s → marks_rise peer s s'.
Proof. intros [|who event|p key] Hl; [done|by apply marks_same|by apply install_marks]. Qed.

Lemma ctl_marks spawned env peer s :
  TransportCtl_parse (ev_payload env) ≠ Some (CtlForget peer) →
  marks_rise peer s (handle_ctl spawned env s).2.
Proof.
  intros Hf. unfold handle_ctl. case_bool_decide; [done|].
  destruct (TransportCtl_parse _) as [[node key addr| |node]|]; [|done| |done].
  - apply marks_same. pose proof (admit_marks node key addr s) as Ha.
    destruct (admit_member _ _ _ _) as [res s1]. cbn in Ha. case_bool_decide; [done|].
    cbn [snd]. by case_bool_decide; cbn; rewrite spawn_marks.
  - apply forget_marks. congruence.
Qed.

Lemma queue_to_marks peer frames s s' : queue_to peer frames s = Ok s' → ts_origin_seq s' = ts_origin_seq s.
Proof.
  unfold queue_to. destruct (ts_writers s !! peer); [|done]. by intros (ls & _ & [= <-])%bind_Ok.
Qed.

Lemma settle_marks peer r s :
  (∀ s', r = Ok s' → ts_origin_seq s' = ts_origin_seq s) → ts_origin_seq (settle peer r s) = ts_origin_seq s.
Proof. destruct r; cbn; auto. Qed.

Lemma step_marks peer s a :
  links_to peer (transport_step s a) = links_to peer s → ¬ forgets peer a →
  marks_rise peer s (transport_step s a).
Proof.
  destruct a as [spawned env|io|i connect|i|r spawned i payload|i|i|i|]; cbn [forgets transport_step];
    intros Hl Hf.
  - unfold transport_handle. case_bool_decide as Hc; [apply ctl_marks; tauto|]. apply marks_same.
    case_bool_decide.
    + unfold handle_gx_chunk_outbound. destruct (hd_to (ev_header env)); try done. case_bool_decide; [done|].
      apply settle_marks. intros s'. repeat case_match; try done. apply queue_to_marks.
    + destruct (hd_to (ev_header env)); try done; apply settle_marks; intros s'; apply queue_to_marks.
  - eapply leaves_marks; [apply server_leaves|done].
  - destruct (ts_dialers s !! i) as [p|]; [|done]. revert Hl. unfold dialer_turn. case_bool_decide; [done|].
    destruct connect as [io|]; [|done]. apply leaves_marks with io. apply client_leaves.
  - apply marks_same. unfold dialer_exit. by repeat case_match.
  - destruct (ts_links s !! i) as [l|]; [|done]. destruct (lk_reader l); [|done]. apply frame_marks.
  - apply marks_same. unfold reader_end. by case_match.
  - apply marks_same. unfold writer_take. by repeat case_match; simplify_eq.
  - by apply marks_same.
  - by apply marks_same.
Qed.

Lemma run_marks peer acts s : in_session peer s acts → marks_rise peer s (transport_run s acts).
Proof.
  revert s. induction acts as [|a acts IH]; intros s; [done|]. intros (Hl & Hf & HF).
  etransitivity; [by apply step_marks|by apply IH].
Qed.

(** The deliveries made in a peer's name. *)
Definition attested (s : TransportState) : list (Dispatch * Origin) :=
  omap (fun c => match c with BEmitAttested d o => Some (d, o) | BEmit _ => None end) (ts_calls s).

Lemma attested_call c s :
  attested (call_bus c s)
  = match ts_bus s, c with Some _, BEmitAttested d o => attested s ++ [(d, o)] | _, _ => attested s end.
Proof.
  unfold attested. cbn. destruct (ts_bus s); [|by destruct c]. rewrite omap_app.
  destruct c; cbn; [apply app_nil_r|done].
Qed.

Lemma attested_event peer event s : attested (publish_peer_event peer event s) = attested s.
Proof. unfold publish_peer_event. rewrite attested_call. by destruct (ts_bus s). Qed.

(** A delivery in a peer's name leaves the mark of its sender at its number. *)
Lemma deliver_attests r env peer key s :
  attested (deliver_locally r env peer key s) ≠ attested s →
  ∃ sender, hd_from (ev_header env) = ACreature sender
    ∧ ts_origin_seq (deliver_locally r env peer key s) !! (peer, sender) = Some (hd_seq (ev_header env)).
Proof.
  unfold deliver_locally. destruct (inbound_target s _); [|done]. destruct (ts_bus s) as [bus|] eqn:Hb; [|done].
  destruct (resolve_target r bus _); [|by rewrite attested_event]. case_bool_decide; [done|].
  destruct (hd_from (ev_header env)) as [sender| | | | | | | |]; try by rewrite attested_event.
  destruct (bh_may_attest bus); cbn [negb]; [|by rewrite attested_call, Hb].
  unfold is_replayed_seq. destruct (ts_origin_seq s !! (peer, sender)) as [last|];
    [case_bool_decide; [by rewrite attested_event|]|]; intros _; exists sender; (split; [done|]);
    cbn; apply lookup_insert_eq.
Qed.

(** A frame at or below the mark of its sender is not delivered in the peer's name. *)
Lemma deliver_replay r env peer key s sender q :
  hd_from (ev_header env) = ACreature sender → ts_origin_seq s !! (peer, sender) = Some q →
  hd_seq (ev_header env) ≤ q → attested (deliver_locally r env peer key s) = attested s.
Proof.
  intros Hf Hq Hle. unfold deliver_locally. destruct (inbound_target s _); [|done].
  destruct (ts_bus s) as [bus|] eqn:Hb; [|done].
  destruct (resolve_target r bus _); [|by rewrite attested_event]. case_bool_decide; [done|]. rewrite Hf.
  destruct (bh_may_attest bus); cbn [negb]; [|by rewrite attested_call, Hb].
  unfold is_replayed_seq. rewrite Hq, bool_decide_eq_true_2 by done. by rewrite attested_event.
Qed.

(** ** Remote delivery *)

(** JSON objects begin with a brace. *)
Class FramesAreObjects : Prop :=
  frame_brace : ∀ (f : WireFrame) b, to_vec f = Ok b → ∃ rest, b = Byte.x7b :: rest.

Lemma parse_frame `{!FramesAreObjects} `{!SerdeRoundTrip WireFrame} env b :
  to_vec (FEnv env) = Ok b → parse_wire_payload b = Some (PEnv env).
Proof.
  intros Hb. unfold parse_wire_payload, decode_gx_wire_frame, strip_prefix.
  destruct (frame_brace _ _ Hb) as [rest Hrest]. rewrite bool_decide_eq_false_2 by (by subst b).
  unfold WireFrame_parse. by rewrite (from_slice_to_vec _ _ Hb).
Qed.

Lemma handle_queues spawned env peer s tx l b :
  (∃ m, hd_to (ev_header env) = ANode peer m) ∨ (∃ role, hd_to (ev_header env) = ANodeRole peer role) →
  hd_schema (ev_header env) ≠ TRANSPORT_CTL_SCHEMA → hd_schema (ev_header env) ≠ GX_CHUNK_SCHEMA →
  to_vec (FEnv env) = Ok b → frame_fits b → ts_writers s !! peer = Some tx → ts_links s !! tx = Some l →
  lk_writer l = true → N.of_nat (length (lk_queue l)) < PEER_QUEUE_DEPTH →
  transport_handle spawned env s = (Outcome_none, set_link tx (enqueue [b]) s).
Proof.
  intros Hto Hc Hg Hb Hfit Hw Hl Hlw Hroom. unfold transport_handle.
  rewrite !bool_decide_eq_false_2 by done.
  assert (Hq : queue_to peer [WireFrame_to_bytes (FEnv env)] s = Ok (set_link tx (enqueue [b]) s)).
  { unfold queue_to, WireFrame_to_bytes, to_bytes. rewrite Hw, Hb. unfold queue_peer_frames, sync_try_send.
    rewrite bool_decide_eq_false_2 by done. rewrite (proj2 (frames_error_None [b] MAX_FRAME_BYTES)).
    - rewrite Hl, Hlw. cbn [negb]. by rewrite bool_decide_eq_false_2 by lia.
    - by constructor. }
  destruct Hto as [[m Hm]|[role Hr]]; [rewrite Hm|rewrite Hr]; cbn zeta; by rewrite Hq.
Qed.

Lemma deliver_fresh r env peer key s h m sender :
  ts_bus s = Some h → bh_may_attest h = true → hd_to (ev_header env) = ANode (ts_self_node s) m →
  m ≠ KERNEL_ID → hd_from (ev_header env) = ACreature sender →
  (∀ q, ts_origin_seq s !! (peer, sender) = Some q → q < hd_seq (ev_header env)) →
  deliver_locally r env peer key s
  = call_bus (BEmitAttested (inbound_dispatch env peer m) (mkOrigin peer))
      (publish_origin_verdict peer m (hd_corr (ev_header env)) (origin_verdict env key)
         (on_origin_seq <[(peer, sender) := hd_seq (ev_header env)]> s)).
Proof.
  intros Hb Ha Hto Hm Hf Hq. unfold deliver_locally, inbound_target. rewrite Hto, Hb.
  rewrite bool_decide_eq_true_2 by done. cbn [resolve_target]. rewrite bool_decide_eq_false_2 by done.
  rewrite Hf, Ha. cbn [negb]. unfold is_replayed_seq.
  destruct (ts_origin_seq s !! (peer, sender)) as [last|]; [|done].
  rewrite bool_decide_eq_false_2; [done|]. specialize (Hq last eq_refl). lia.
Qed.

(** ** Gossip *)

(** A member as the tables keep it; [None] for one whose shape is refused. *)
Definition as_member (m : GossipMember) : option MemberInfo :=
  match validate_member_shape (gm_node_id m) (gm_pubkey_hex m) (gm_addr m) with
  | Ok key => Some (mkMemberInfo key (gm_addr m))
  | Err _ => None
  end.

(** What is said of members agrees with the view [V]. *)
Definition agrees (V : gmap NodeId MemberInfo) (ms : list GossipMember) : Prop :=
  Forall (fun m => ∀ info, as_member m = Some info → V !! gm_node_id m = Some info) ms.

Lemma admit_grows V m s :
  agrees V [m] → ts_members s ⊆ V →
  let '(res, s') := admit_member (gm_node_id m) (gm_pubkey_hex m) (gm_addr m) s in
  ts_members s' ⊆ V ∧ (res = Changed → size (ts_members s') = S (size (ts_members s)))
  ∧ (res ≠ Changed → ts_members s' = ts_members s).
Proof.
  unfold agrees, as_member. rewrite Forall_singleton. intros Hag Hsub. unfold admit_member.
  destruct (validate_member_shape _ _ _) as [key|]; [|done]. specialize (Hag _ eq_refl).
  case_bool_decide; [done|]. case_bool_decide as Hsame; [done|].
  destruct (bool_decide _ && _ && _); [done|].
  assert (Hnone : ts_members s !! gm_node_id m = None).
  { destruct (ts_members s !! gm_node_id m) as [info|] eqn:E; [|done].
    pose proof (lookup_weaken _ _ _ _ E Hsub) as HV. exfalso. apply Hsame.
    exact (eq_trans E (eq_trans (eq_sym HV) Hag)). }
  cbn. split; [by apply insert_subseteq_l|]. split; [|done]. intros _. by apply map_size_insert_None.
Qed.

Lemma ingest_grows V spawned ms any s :
  agrees V ms → ts_members s ⊆ V →
  let '(any', s') := ingest_members spawned ms any s in
  ts_members s' ⊆ V ∧ (size (ts_members s) ≤ size (ts_members s'))%nat
  ∧ (any' = true → any = true ∨ (size (ts_members s) < size (ts_members s'))%nat).
Proof.
  revert any s. induction ms as [|m ms IH]; intros any s Hag Hsub; cbn [ingest_members]; [auto|].
  apply Forall_cons in Hag as [Hm Hag]. case_bool_decide; [by apply IH|].
  pose proof (admit_grows V m s (proj2 (Forall_singleton _ _) Hm) Hsub) as Ha.
  destruct (admit_member _ _ _ _) as [res s1]. destruct Ha as (Hs1 & Hc & Hu).
  case_bool_decide as Hres.
  - set (s2 := spawn_dialer _ _ s1). assert (E2 : ts_members s2 = ts_members s1).
    { unfold s2, spawn_dialer. by repeat case_match. }
    specialize (IH true s2 Hag). rewrite E2 in IH. specialize (IH Hs1).
    destruct (ingest_members spawned ms true s2) as [any' s']. destruct IH as (H1' & H2' & _).
    rewrite (Hc Hres) in H2'. split; [done|]. split; [lia|]. right. lia.
  - specialize (IH any s1 Hag Hs1). destruct (ingest_members spawned ms any s1) as [any' s'].
    by rewrite (Hu Hres) in IH.
Qed.

(** The broadcasts of a node that is sent [frames], one after the other. *)
Fixpoint rebroadcasts (spawned : NodeId → bool) (frames : list (list GossipMember)) (s : TransportState) :
    nat :=
  match frames with
  | [] => 0
  | ms :: frames =>
      let '(any_new, _) := ingest_members spawned (take (N.to_nat MAX_GOSSIP_MEMBERS) ms) false s in
      ((if any_new then 1 else 0) + rebroadcasts spawned frames (ingest_gossip spawned ms s))%nat
  end.
End mesh.

(** ** Theorems *)

(** C12: Over any history of messages, handshakes, frames, failures and disconnections of a
    bound transport: what it does on the bus is to publish events or to address a
    creature other than the kernel; what it delivers in a node's name it may attest,
    and a link was authenticated for that node; no queue, no peer's routes and no
    member table outgrows its bound; and every queued frame is one the other side
    accepts. *)
Theorem mesh_contained (Sh : Sha256) (Ed : Ed25519) (K : Ed25519Keys) (J : TransportSerde)
    (M : MemberIter) (cfg : TransportConfig) (gossip : option (option string)) (max_members : N)
    (h : BusHandle) (me : CreatureId) (listen : ListenResult) (spawned : NodeId → bool)
    (acts : list TransportAction) :
  let t0 := with_max_members max_members (TransportTcp_new cfg) in
  let t := match gossip with Some advertise => with_gossip advertise t0 | None => t0 end in
  let s := transport_run (tt_state (transport_bind h me listen spawned t)) acts in
  Forall (call_ok h (link_ids s)) (ts_calls s)
  ∧ Forall link_ok (ts_links s)
  ∧ (∀ peer, routes_of peer (ts_gx_routes s) ≤ MAX_GX_ROUTES_PER_PEER)
  ∧ (ts_max_members s ≠ 0 →
     N.of_nat (size (ts_members s)) ≤ N.max (ts_max_members s) (N.of_nat (size (ts_members (tt_state t))))).
Proof.
  intros t0 t s. assert (Hf : fresh (tt_state t)).
  { subst t t0. pose proof (new_fresh cfg) as Hf. destruct gossip as [[a|]|]; try exact Hf.
    cbn. by destruct (validate_member_addr a). }
  pose proof (ok_run h _ acts _ (bound_ok h me listen spawned t Hf)) as [Hb Hc Hr Hn Hl Hm].
  done.
Qed.

(** C13: An envelope sent to a creature of a linked node is queued whole, and when the
    other node, whose transport may attest, reads that frame it delivers the same
    payload, schema, correlation and commitment to the creature, in the sender node's
    name, with creatures in the reply address read as the sender node's; the verdict
    published before it says whether the envelope's signature is the peer's. *)
Theorem remote_delivery (Sh : Sha256) (Ed : Ed25519) (K : Ed25519Keys) (J : TransportSerde)
    (M : MemberIter) (R : SerdeRoundTrip WireFrame) (O : FramesAreObjects) (r : Router)
    (spawned : NodeId → bool) (env : Envelope) (b : bytes) (here there : NodeId) (key : string)
    (sa sb : TransportState) (tx : nat) (l : Link) (h : BusHandle) (m sender : CreatureId)
    (Hto : hd_to (ev_header env) = ANode there m) (Hm : m ≠ KERNEL_ID)
    (Hfrom : hd_from (ev_header env) = ACreature sender)
    (Hctl : hd_schema (ev_header env) ≠ TRANSPORT_CTL_SCHEMA)
    (Hgx : hd_schema (ev_header env) ≠ GX_CHUNK_SCHEMA)
    (Hb : to_vec (FEnv env) = Ok b) (Hlen : blen b ≤ MAX_FRAME_BYTES)
    (Hw : ts_writers sa !! there = Some tx) (Hl : ts_links sa !! tx = Some l)
    (Hlw : lk_writer l = true) (Hroom : N.of_nat (length (lk_queue l)) < PEER_QUEUE_DEPTH)
    (Hself : ts_self_node sb = there) (Hbus : ts_bus sb = Some h) (Hattest : bh_may_attest h = true)
    (Hseq : ∀ q, ts_origin_seq sb !! (here, sender) = Some q → q < hd_seq (ev_header env)) :
  (∃ sa', transport_handle true env sa = (Outcome_none, sa')
     ∧ ts_links sa' !! tx = Some (enqueue [b] l))
  ∧ let sb' := reader_frame r spawned here key b sb in
    ∃ verdict d,
      ts_calls sb' = ts_calls sb ++ [BEmit verdict; BEmitAttested d (mkOrigin here)]
      ∧ di_to verdict = ATopic PROPRIOCEPTION
      ∧ di_payload verdict
        = to_bytes (mkOriginEvent here m (hd_corr (ev_header env)) (origin_verdict env key))
      ∧ d = mkDispatch (ACreature m)
              ((fun a => rewrite_inbound_target a here) <$> hd_reply_to (ev_header env))
              (ev_payload env) (hd_schema (ev_header env)) (hd_corr (ev_header env))
              (hd_commitment (ev_header env)).
Proof.
  assert (Hfit : frame_fits b).
  { split; [|done]. destruct (frame_brace _ _ Hb) as [rest ->]. done. }
  split.
  - exists (set_link tx (enqueue [b]) sa). split; [|cbn; by rewrite list_lookup_alter_eq, Hl].
    apply (handle_queues true env there sa tx l b); try done. left. by exists m.
  - intros sb'. subst sb'. unfold reader_frame. rewrite (parse_frame env b Hb).
    rewrite (deliver_fresh r env here key sb h m sender) by (done || by rewrite Hself). cbn. rewrite Hbus.
    eexists _, _. split; [by rewrite <-(assoc_L (++))|]. split; [done|]. split; [done|].
    unfold inbound_dispatch. by destruct (hd_reply_to _), (hd_corr _), (hd_commitment _).
Qed.

(** C34: Within a session no frame is delivered twice in a peer's name: once a frame of a
    sender has been delivered, none of the same sender with the same or a lower
    sequence number is, whatever else the transport does (it may handshake with, dial
    and forget other peers, and turn this one's redundant connections away), until it
    opens a new link with this peer or forgets it. *)
Theorem session_admits_no_replay (Sh : Sha256) (Ed : Ed25519) (K : Ed25519Keys) (J : TransportSerde)
    (M : MemberIter) (r r' : Router) (env env' : Envelope) (peer : NodeId) (key : string)
    (s : TransportState) (acts : list TransportAction)
    (Hfirst : attested (deliver_locally r env peer key s) ≠ attested s)
    (Hsame : hd_from (ev_header env') = hd_from (ev_header env))
    (Hseq : hd_seq (ev_header env') ≤ hd_seq (ev_header env))
    (Hsession : in_session peer (deliver_locally r env peer key s) acts) :
  let s' := transport_run (deliver_locally r env peer key s) acts in
  attested (deliver_locally r' env' peer key s') = attested s'.
Proof.
  intros s'. destruct (deliver_attests _ _ _ _ _ Hfirst) as (sender & Hf & Hmark).
  destruct (run_marks peer acts _ Hsession _ _ Hmark) as (q & Hq & Hle).
  apply (deliver_replay _ _ _ _ _ sender q); [congruence|done|lia].
Qed.


(** C36: Forgetting a peer takes its keys off the allowlist, its entry off the member table
    and its writer away, and no connection it opens is accepted afterwards. But the
    dialer that was started for it keeps running, does not look at the allowlist, and
    links the forgotten peer again at its next turn. *)
Theorem forget_leaves_the_dialer (Sh : Sha256) (Ed : Ed25519) (K : Ed25519Keys) (J : TransportSerde)
    (M : MemberIter) (s : TransportState) (node : NodeId) (i : nat) (peer : PeerConfig)
    (seed seedP nonce nonceP : bytes) (Hnode : node ≠ ts_self_node s)
    (Hdialer : ts_dialers s !! i = Some peer) (Hpeer : pc_node_id peer = node)
    (Hkey : pc_pubkey_hex peer = hex_encode (ed_public seedP)) (Hself : ts_self_key s = from_seed seed)
    (Hn : length nonce = NONCE_BYTES) (HnP : length nonceP = NONCE_BYTES) :
  let s' := gossip_broadcast (forget_member node s) in
  (∀ key, ts_peers_by_pubkey s' !! key ≠ Some node)
  ∧ ts_members s' !! node = None ∧ ts_writers s' !! node = None
  ∧ (∀ io key, (node, key) ∈ link_ids (server_handshake_and_run io s').2 → (node, key) ∈ link_ids s')
  ∧ ts_dialers s' !! i = Some peer
  ∧ linked node (pc_pubkey_hex peer)
      (transport_step s' (TADial i (Some (mkHandshakeIo (Some nonce)
         (server_says seedP nonceP (ed_public seed) nonce) true true install_ok)))).
Proof.
  intros s'. assert (Es : s' = gossip_broadcast (forget_member node s)) by done. clearbody s'.
  unfold forget_member in Es. rewrite bool_decide_eq_false_2 in Es by done.
  assert (Hallow : ∀ key, ts_peers_by_pubkey s' !! key ≠ Some node).
  { intros key. subst s'. cbn. intros [_ Hne]%map_lookup_filter_Some. done. }
  assert (Hw : ts_writers s' !! node = None) by (subst s'; cbn; apply lookup_delete_eq).
  assert (Hd : ts_dialers s' !! i = Some peer) by (by subst s').
  assert (Hk : ts_self_key s' = from_seed seed) by (by subst s').
  split; [done|]. split; [subst s'; cbn; apply lookup_delete_eq|]. split; [done|]. split; [|split; [done|]].
  - intros io key Hin. destruct (server_handshake_and_run io s') as [sent s2] eqn:E. cbn in Hin.
    destruct (decide (link_ids s2 = link_ids s')) as [Eq|Hne]; [by rewrite Eq in Hin|].
    destruct (server_installs _ _ _ _ E Hne) as (own & n & pk & who & sig & _ & _ & Ha & _ & _ & Hl).
    rewrite Hl in Hin. apply elem_of_app in Hin as [Hin|Hin]; [done|].
    apply list_elem_of_singleton in Hin. injection Hin as <- _. by destruct (Hallow (hex_encode pk)).
  - cbn [transport_step]. rewrite Hd. unfold dialer_turn. rewrite Hpeer, Hw.
    rewrite bool_decide_eq_false_2 by (by intros []). rewrite Hkey, <-Hpeer.
    pose proof (client_answers s' seed peer nonce (ed_public seedP) nonceP
      (ed_sign seedP (handshake_transcript nonce (ed_public seed) (ed_public seedP))) install_ok Hk
      (ed_public_length _) HnP (ed_sign_length _ _) Hkey (ed_sign_verifies _ _)) as Hc.
    change (linked (pc_node_id peer) (hex_encode (ed_public seedP)) (client_handshake_and_run
      (mkHandshakeIo (Some nonce) (ed_public seedP ++ nonceP ++ ed_sign seedP
         (handshake_transcript nonce (ed_public seed) (ed_public seedP))) true true install_ok) peer s').2).
    rewrite Hc. cbn [snd]. apply install_linked. by rewrite Hpeer.
Qed.

(** ** Witnesses *)

Import transport_sample.

Module mesh_sample.
#[export] Instance GossipMember_eq_dec : EqDecision GossipMember.
Proof. solve_decision. Defined.
#[export] Instance GossipMember_countable : Countable GossipMember.
Proof.
  refine (inj_countable' (fun m => (gm_node_id m, gm_pubkey_hex m, gm_addr m))
    (fun '(a, b, c) => mkGossipMember a b c) _). by intros [].
Defined.
#[export] Instance GxRouteBind_eq_dec : EqDecision GxRouteBind.
Proof. solve_decision. Defined.
#[export] Instance GxRouteBind_countable : Countable GxRouteBind.
Proof.
  refine (inj_countable' (fun b => (gb_transfer_id b, gb_target b, gb_schema b, gb_corr b, gb_total_chunks b))
    (fun '(a, b, c, d, e) => mkGxRouteBind a b c d e) _). by intros [].
Defined.
#[export] Instance WireFrame_eq_dec : EqDecision WireFrame.
Proof. solve_decision. Defined.
#[export] Instance WireFrame_countable : Countable WireFrame.
Proof.
  refine (inj_countable'
    (fun f => match f with FEnv e => inl e | FGossip ms => inr (inl ms) | FGxBind b => inr (inr b) end)
    (fun x => match x with inl e => FEnv e | inr (inl ms) => FGossip ms | inr (inr b) => FGxBind b end) _).
  by intros [].
Defined.

(** A codec that writes a brace first. *)
Definition braced : SerdeJson WireFrame :=
  Build_SerdeJson WireFrame
    (fun f => Ok (Byte.x7b :: bits_of (encode f)))
    (fun b => match b with
              | Byte.x7b :: rest => from_option Ok (Err "") (decode (of_bits rest))
              | _ => Err ""
              end).
Definition mesh_serde : TransportSerde :=
  Build_TransportSerde braced silent silent silent silent silent silent.
Lemma braced_roundtrip : @SerdeRoundTrip WireFrame (@tx_frame mesh_serde).
Proof.
  intros f b. cbn. intros [= <-]. cbn. by rewrite of_bits_bits_of, decode_encode.
Qed.
Lemma braced_objects : @FramesAreObjects mesh_serde.
Proof. intros f b. cbn. intros [= <-]. by eexists. Qed.

Definition bus : BusHandle := BusHandle_new_attesting 9 (fun _ => "").
Definition listening : TransportState := on_bus (fun _ => Some bus) south.
Definition linked_north : TransportState :=
  @install_connection mesh_serde order install_ok "south" (km_public_hex (key Byte.x02)) north.
Definition letter (seq : N) : Envelope :=
  mkEnvelope (mkHeader (ACreature 5) (ANode "south" 7) (Some (ACreature 5)) seq [] 0 "" (Some 3) None
                "greeting" None) [Byte.x68; Byte.x69].

(** Two nodes that know a third one under different addresses. *)
Definition knows (s : TransportState) (addr : string) : TransportState :=
  on_members <["east" := mkMemberInfo (km_public_hex (key Byte.x03)) addr]> s.
Definition said (addr : string) : list GossipMember :=
  [mkGossipMember "east" (km_public_hex (key Byte.x03)) addr].
Definition dialing : TransportState :=
  on_dialers (fun _ => [mkPeerConfig "south" (km_public_hex (key Byte.x02)) (Some "127.0.0.1:9002")]) north.
(** A third node links up in between. *)
Definition open_to_east : TransportState :=
  on_peers_by_pubkey <[km_public_hex (key Byte.x03) := "east"]> listening.
Definition east_joins : TransportAction :=
  TAServer (mkHandshakeIo (Some (replicate 32 Byte.x07))
    (@client_says toy_ed25519 toy_keys (seed Byte.x03) (replicate 32 Byte.x08) (seed Byte.x02)
       (replicate 32 Byte.x07)) true true install_ok).
End mesh_sample.

Import mesh_sample.

Lemma remote_delivery_witness :
  ∃ sa', @transport_handle mesh_serde order true (letter 1) linked_north = (Outcome_none, sa')
    ∧ ts_links sa' !! 0%nat
      = Some (enqueue [@WireFrame_to_bytes mesh_serde (FEnv (letter 1))]
                (mkLink "south" (km_public_hex (key Byte.x02)) [] true true false)).
Proof.
  apply (@remote_delivery zero_sha toy_ed25519 toy_keys mesh_serde order braced_roundtrip braced_objects
    (Router_new 4) (fun _ => true) (letter 1) (@WireFrame_to_bytes mesh_serde (FEnv (letter 1))) "north" "south"
    (km_public_hex (key Byte.x01)) linked_north listening 0
    (mkLink "south" (km_public_hex (key Byte.x02)) [] true true false) bus 7 5);
    [reflexivity|discriminate|reflexivity|discriminate|discriminate|reflexivity
    |vm_compute; discriminate|reflexivity..|discriminate].
Defined.

Lemma session_admits_no_replay_witness :
  let s' := @transport_step zero_sha toy_ed25519 toy_keys mesh_serde order
              (@deliver_locally toy_ed25519 mesh_serde (Router_new 4) (letter 4) "north"
                 (km_public_hex (key Byte.x01)) open_to_east) east_joins in
  link_ids s' = [("east", km_public_hex (key Byte.x03))]
  ∧ attested (@deliver_locally toy_ed25519 mesh_serde (Router_new 4) (letter 4) "north"
                (km_public_hex (key Byte.x01)) s') = attested s'.
Proof.
  split; [vm_compute; reflexivity|].
  apply (@session_admits_no_replay zero_sha toy_ed25519 toy_keys mesh_serde order
    (Router_new 4) (Router_new 4) (letter 4) (letter 4) "north" (km_public_hex (key Byte.x01))
    open_to_east [east_joins]); [vm_compute; discriminate|reflexivity|reflexivity|].
  split; [vm_compute; reflexivity|split; [exact (fun F => F)|exact I]].
Defined.


Lemma forget_leaves_the_dialer_witness :
  linked "south" (km_public_hex (key Byte.x02))
    (@transport_step zero_sha toy_ed25519 toy_keys mesh_serde order
       (@gossip_broadcast mesh_serde order (forget_member "south" dialing))
       (TADial 0 (Some (mkHandshakeIo (Some (replicate 32 Byte.x08))
          (@server_says toy_ed25519 toy_keys (seed Byte.x02) (replicate 32 Byte.x07) (seed Byte.x01)
             (replicate 32 Byte.x08)) true true install_ok)))).
Proof.
  apply (@forget_leaves_the_dialer zero_sha toy_ed25519 toy_keys mesh_serde order dialing "south" 0
    (mkPeerConfig "south" (km_public_hex (key Byte.x02)) (Some "127.0.0.1:9002"))
    (seed Byte.x01) (seed Byte.x02) (replicate 32 Byte.x08) (replicate 32 Byte.x07));
    solve [reflexivity | discriminate].
Defined.

(** Gossip that disagrees does not die down: two nodes that know a third one under
    different addresses and hear of each other's take over the other's, forward it,
    and stand as they stood, with their parts exchanged. *)
Lemma conflicting_gossip_swaps :
  let hear s addr := @ingest_members mesh_serde (fun _ => true) (said addr) false s in
  (hear (knows north "127.0.0.1:9003") "127.0.0.1:9004").1 = true
  ∧ ts_members (hear (knows north "127.0.0.1:9003") "127.0.0.1:9004").2
    = ts_members (knows north "127.0.0.1:9004")
  ∧ (hear (knows south "127.0.0.1:9004") "127.0.0.1:9003").1 = true
  ∧ ts_members (hear (knows south "127.0.0.1:9004") "127.0.0.1:9003").2
    = ts_members (knows south "127.0.0.1:9003").
Proof. repeat split; vm_compute; reflexivity. Qed.
