(* ===== verification/ExecLedger.v ===== *)
(** * The executor's ledger

    The state of [cosmos/creatures/function-executor/src/lib.rs] and the records
    that build it: deployments and their tombstones, claimed attempts with their
    receipts, queued controls, and the fence that keeps a superseded Home out.

    [apply_record] mutates the state as it checks, so it is a computation on the
    state that says what it leaves behind when it fails. *)

From stdpp Require Import sorting.
From S2P Require Import Prelude GxShape GxHash FnCrypto FnTypes FnWire FnCustody FnMessages.
From S2P Require Import Journal HomeLedger HomeApi.

Definition DEFAULT_MAX_EXECUTOR_ATTEMPTS : N := 16384.
Definition DEFAULT_MAX_DEPLOYMENTS : N := 4096.
Definition EXECUTOR_CHAIN_SCHEMA : string := "gawd.function.executor.journal.v1".
Definition MAX_EXECUTOR_RECOVERY_DISPATCHES : N := 64.

(** ** Data *)

Definition AttemptKey : Type := HomeId * JobId * N.
Definition ControlKey : Type := AttemptKey * ControlId.

Record ExecutorConfig : Type := mkExecutorConfig {
  ecf_executor : string;
  ecf_max_attempts : N;
  ecf_realm : string;
  ecf_node : string;
  ecf_executor_creature : string;
  ecf_max_deployments : N;
  ecf_journal_caps : JournalCaps
}.

Definition JournalCaps_default : JournalCaps := mkJournalCaps 1000000 MAX_JOB_MESSAGE_BYTES.

(** The root directory is left out. *)
Definition ExecutorConfig_new (executor : string) : ExecutorConfig :=
  mkExecutorConfig executor DEFAULT_MAX_EXECUTOR_ATTEMPTS "local" "local" "auto"
    DEFAULT_MAX_DEPLOYMENTS JournalCaps_default.
Definition with_location (realm node executor_creature : string) (cf : ExecutorConfig) :
    ExecutorConfig :=
  mkExecutorConfig (ecf_executor cf) (ecf_max_attempts cf) realm node executor_creature
    (ecf_max_deployments cf) (ecf_journal_caps cf).

Inductive ExecutorLedgerRecord : Type :=
  | XRegister (request : SignedRecordV1 DeploymentRegistrationV1)
      (receipt : SignedRecordV1 DeploymentReceiptV1)
  | XUndeploy (request : SignedRecordV1 UndeployRequestV1) (deployment : DeploymentId)
  | XClaim (grant : SignedRecordV1 ExecutionGrantV1) (receipt : SignedRecordV1 ExecutionReceiptV1)
  | XRefuse (grant : SignedRecordV1 ExecutionGrantV1) (receipt : SignedRecordV1 ExecutionReceiptV1)
  | XControl (request : SignedRecordV1 ExecutionControlV1)
      (receipt : SignedRecordV1 ExecutionReceiptV1)
  | XHomeFence (query : SignedRecordV1 ExecutionQueryV1)
  | XReceipt (receipt : SignedRecordV1 ExecutionReceiptV1).

Record AttemptRecord : Type := mkAttemptRecord {
  xa_grant : SignedRecordV1 ExecutionGrantV1;
  xa_grant_hash : string;
  xa_receipts : list (SignedRecordV1 ExecutionReceiptV1);
  xa_receipt_recovery_ordinals : list N;
  xa_observation_count : N;
  xa_highest_progress_sequence : N;
  xa_highest_checkpoint_sequence : N;
  xa_progress_receipts : gmap N nat;
  xa_checkpoint_receipts : gmap N nat;
  xa_control_count : N;
  xa_terminal : bool
}.

Record HomeFence : Type := mkHomeFence {
  hf_epoch : N;
  hf_route_sequence : N;
  hf_operational_signer : string;
  hf_authority_hash : string;
  hf_home_realm : string;
  hf_home_node : string;
  hf_home_coordinator : string
}.

Record ControlRecord : Type := mkControlRecord {
  kr_request_hash : string;
  kr_request : SignedRecordV1 ExecutionControlV1;
  kr_queued : SignedRecordV1 ExecutionReceiptV1;
  kr_acknowledged : option (SignedRecordV1 ExecutionReceiptV1)
}.

Record ExecutorState : Type := mkExecutorState {
  es_attempts : gmap AttemptKey AttemptRecord;
  es_deployments : gmap DeploymentId (SignedRecordV1 DeploymentReceiptV1);
  es_deployment_tombstones : gset DeploymentId;
  es_home_fences : gmap HomeId HomeFence;
  es_controls : gmap ControlKey ControlRecord;
  es_next_receipt_recovery_ordinal : N;
  es_nonterminal_attempts : N;
  es_unacknowledged_controls : N
}.
Definition ExecutorState_default : ExecutorState := mkExecutorState ∅ ∅ ∅ ∅ ∅ 0 0 0.

Inductive ExecutorError : Type :=
  | ExConfiguration (m : string)
  | ExInvalid (m : string)
  | ExUnauthorized (m : string)
  | ExNotFound
  | ExConflict (m : string)
  | ExCapacity
  | ExTerminal
  | ExAddress (m : string)
  | ExTargetUnavailable (m : string)
  | ExLiveness (m : string)
  | ExJournal (e : JournalError)
  | ExSigning (m : string).

(** Assignments to one field of the state. *)
Definition set_attempts (f : gmap AttemptKey AttemptRecord → gmap AttemptKey AttemptRecord)
    (s : ExecutorState) : ExecutorState :=
  mkExecutorState (f (es_attempts s)) (es_deployments s) (es_deployment_tombstones s)
    (es_home_fences s) (es_controls s) (es_next_receipt_recovery_ordinal s)
    (es_nonterminal_attempts s) (es_unacknowledged_controls s).
Definition set_deployments
    (f : gmap DeploymentId (SignedRecordV1 DeploymentReceiptV1) →
         gmap DeploymentId (SignedRecordV1 DeploymentReceiptV1)) (s : ExecutorState) :
    ExecutorState :=
  mkExecutorState (es_attempts s) (f (es_deployments s)) (es_deployment_tombstones s)
    (es_home_fences s) (es_controls s) (es_next_receipt_recovery_ordinal s)
    (es_nonterminal_attempts s) (es_unacknowledged_controls s).
Definition add_tombstone (id : DeploymentId) (s : ExecutorState) : ExecutorState :=
  mkExecutorState (es_attempts s) (es_deployments s) ({[id]} ∪ es_deployment_tombstones s)
    (es_home_fences s) (es_controls s) (es_next_receipt_recovery_ordinal s)
    (es_nonterminal_attempts s) (es_unacknowledged_controls s).
Definition set_fence (home : HomeId) (fence : HomeFence) (s : ExecutorState) : ExecutorState :=
  mkExecutorState (es_attempts s) (es_deployments s) (es_deployment_tombstones s)
    (<[home := fence]> (es_home_fences s)) (es_controls s) (es_next_receipt_recovery_ordinal s)
    (es_nonterminal_attempts s) (es_unacknowledged_controls s).
Definition set_controls (f : gmap ControlKey ControlRecord → gmap ControlKey ControlRecord)
    (s : ExecutorState) : ExecutorState :=
  mkExecutorState (es_attempts s) (es_deployments s) (es_deployment_tombstones s)
    (es_home_fences s) (f (es_controls s)) (es_next_receipt_recovery_ordinal s)
    (es_nonterminal_attempts s) (es_unacknowledged_controls s).
Definition set_ordinal (n : N) (s : ExecutorState) : ExecutorState :=
  mkExecutorState (es_attempts s) (es_deployments s) (es_deployment_tombstones s)
    (es_home_fences s) (es_controls s) n (es_nonterminal_attempts s)
    (es_unacknowledged_controls s).
Definition set_nonterminal (n : N) (s : ExecutorState) : ExecutorState :=
  mkExecutorState (es_attempts s) (es_deployments s) (es_deployment_tombstones s)
    (es_home_fences s) (es_controls s) (es_next_receipt_recovery_ordinal s) n
    (es_unacknowledged_controls s).
Definition set_unacknowledged (n : N) (s : ExecutorState) : ExecutorState :=
  mkExecutorState (es_attempts s) (es_deployments s) (es_deployment_tombstones s)
    (es_home_fences s) (es_controls s) (es_next_receipt_recovery_ordinal s)
    (es_nonterminal_attempts s) n.

(** Updates of an attempt. *)
Definition push_receipt (receipt : SignedRecordV1 ExecutionReceiptV1) (a : AttemptRecord) :
    AttemptRecord :=
  mkAttemptRecord (xa_grant a) (xa_grant_hash a) (xa_receipts a ++ [receipt])
    (xa_receipt_recovery_ordinals a) (xa_observation_count a) (xa_highest_progress_sequence a)
    (xa_highest_checkpoint_sequence a) (xa_progress_receipts a) (xa_checkpoint_receipts a)
    (xa_control_count a) (xa_terminal a).
Definition push_ordinal (n : N) (a : AttemptRecord) : AttemptRecord :=
  mkAttemptRecord (xa_grant a) (xa_grant_hash a) (xa_receipts a)
    (xa_receipt_recovery_ordinals a ++ [n]) (xa_observation_count a)
    (xa_highest_progress_sequence a) (xa_highest_checkpoint_sequence a) (xa_progress_receipts a)
    (xa_checkpoint_receipts a) (xa_control_count a) (xa_terminal a).
Definition count_control (a : AttemptRecord) : AttemptRecord :=
  mkAttemptRecord (xa_grant a) (xa_grant_hash a) (xa_receipts a)
    (xa_receipt_recovery_ordinals a) (xa_observation_count a) (xa_highest_progress_sequence a)
    (xa_highest_checkpoint_sequence a) (xa_progress_receipts a) (xa_checkpoint_receipts a)
    (xa_control_count a + 1) (xa_terminal a).
Definition count_observation (a : AttemptRecord) : AttemptRecord :=
  mkAttemptRecord (xa_grant a) (xa_grant_hash a) (xa_receipts a)
    (xa_receipt_recovery_ordinals a) (xa_observation_count a + 1) (xa_highest_progress_sequence a)
    (xa_highest_checkpoint_sequence a) (xa_progress_receipts a) (xa_checkpoint_receipts a)
    (xa_control_count a) (xa_terminal a).
Definition note_progress (sequence : N) (index : nat) (a : AttemptRecord) : AttemptRecord :=
  mkAttemptRecord (xa_grant a) (xa_grant_hash a) (xa_receipts a)
    (xa_receipt_recovery_ordinals a) (xa_observation_count a) sequence
    (xa_highest_checkpoint_sequence a) (<[sequence := index]> (xa_progress_receipts a))
    (xa_checkpoint_receipts a) (xa_control_count a) (xa_terminal a).
Definition note_checkpoint (sequence : N) (index : nat) (a : AttemptRecord) : AttemptRecord :=
  mkAttemptRecord (xa_grant a) (xa_grant_hash a) (xa_receipts a)
    (xa_receipt_recovery_ordinals a) (xa_observation_count a) (xa_highest_progress_sequence a)
    sequence (xa_progress_receipts a) (<[sequence := index]> (xa_checkpoint_receipts a))
    (xa_control_count a) (xa_terminal a).
Definition set_terminal (terminal : bool) (a : AttemptRecord) : AttemptRecord :=
  mkAttemptRecord (xa_grant a) (xa_grant_hash a) (xa_receipts a)
    (xa_receipt_recovery_ordinals a) (xa_observation_count a) (xa_highest_progress_sequence a)
    (xa_highest_checkpoint_sequence a) (xa_progress_receipts a) (xa_checkpoint_receipts a)
    (xa_control_count a) terminal.

(** ** Helpers *)

Definition ex_invalid {A} (r : result ContractError A) : result ExecutorError A :=
  map_err (fun e => ExInvalid (ContractError_to_string e)) r.
Definition ex_unauthorized {A} (r : result ContractError A) : result ExecutorError A :=
  map_err (fun e => ExUnauthorized (ContractError_to_string e)) r.
Definition ex_signing {A} (r : result ContractError A) : result ExecutorError A :=
  map_err (fun e => ExSigning (ContractError_to_string e)) r.
Definition ex_journal {A} (r : result JournalError A) : result ExecutorError A :=
  map_err ExJournal r.

Definition attempt_key (attempt : AttemptId) : AttemptKey :=
  (at_home attempt, at_job attempt, at_number attempt).

Definition stage_terminal (stage : ExecutionStageV1) : bool :=
  match stage with
  | XSucceeded _ | XFailed _ _ | XCancelled _ | XIndeterminate _ _ => true
  | _ => false
  end.
Definition is_observation (stage : ExecutionStageV1) : bool :=
  match stage with XProgress _ _ | XCheckpoint _ _ => true | _ => false end.
Definition progress_sequence (stage : ExecutionStageV1) : N :=
  match stage with XProgress sequence _ => sequence | _ => 0 end.
Definition checkpoint_sequence (stage : ExecutionStageV1) : N :=
  match stage with XCheckpoint sequence _ => sequence | _ => 0 end.
Definition is_control_acknowledgment (stage : ExecutionStageV1) : bool :=
  match stage with XControlAcknowledged _ _ _ => true | _ => false end.

(** [usize] counters. *)
Definition durable_record_reservations (s : ExecutorState) : N :=
  N.min (es_nonterminal_attempts s + es_unacknowledged_controls s) usize_MAX.

Definition same_control_intent (left right : SignedRecordV1 ExecutionControlV1) : bool :=
  let l := sr_payload left in
  let r := sr_payload right in
  bool_decide (xc_caller_request l = xc_caller_request r)
  && bool_decide (xc_accepted_event l = xc_accepted_event r)
  && bool_decide (xc_attempt l = xc_attempt r)
  && bool_decide (xc_grant_hash l = xc_grant_hash r).

Definition same_deployment_binding (left right : DeploymentReceiptV1) : bool :=
  bool_decide (dr_deployment left = dr_deployment right)
  && bool_decide (dr_function left = dr_function right)
  && bool_decide (dr_artifact_hash left = dr_artifact_hash right)
  && bool_decide (dr_realm left = dr_realm right)
  && bool_decide (dr_node left = dr_node right)
  && bool_decide (dr_executor left = dr_executor right)
  && bool_decide (dr_executor_creature left = dr_executor_creature right)
  && bool_decide (dr_creature left = dr_creature right)
  && bool_decide (dr_evidence left = dr_evidence right).

Definition positive_creature_id (value : string) : bool :=
  match parse_u64 value with
  | Some id => bool_decide (0 < id) && bool_decide (dec id = value)
  | None => false
  end.

(** The attempts and controls that hold a slot of the journal. *)
Definition nonterminal_count (s : ExecutorState) : nat :=
  length (List.filter (fun kv => negb (xa_terminal kv.2)) (map_to_list (es_attempts s))).
Definition unacknowledged_count (s : ExecutorState) : nat :=
  length (List.filter (fun kv => bool_decide (kr_acknowledged kv.2 = None))
            (map_to_list (es_controls s))).

(** The order of the keys: home, job, number. *)
Definition attempt_key_le (a b : AttemptKey) : Prop :=
  str_le a.1.1 b.1.1
  ∧ (a.1.1 = b.1.1 → str_le a.1.2 b.1.2 ∧ (a.1.2 = b.1.2 → a.2 ≤ b.2)).
#[export] Instance attempt_key_le_dec : RelDecision attempt_key_le.
Proof. unfold attempt_key_le. intros a b. apply _. Defined.
Definition attempt_le (a b : AttemptKey * AttemptRecord) : Prop := attempt_key_le a.1 b.1.
#[export] Instance attempt_le_dec : RelDecision attempt_le.
Proof. unfold attempt_le. intros a b. apply _. Defined.
Definition attempts_in_order (s : ExecutorState) : list (AttemptKey * AttemptRecord) :=
  merge_sort attempt_le (map_to_list (es_attempts s)).

(** The [try_fold] over the attempts. *)
Fixpoint count_receipts (attempts : list AttemptRecord) (total : N) : result ExecutorError N :=
  match attempts with
  | [] => Ok total
  | a :: attempts =>
      if decide (length (xa_receipts a) ≠ length (xa_receipt_recovery_ordinals a)) then
        Err (ExConflict "receipt recovery ordinals diverged from retained receipts")
      else
        total ← ok_or (usize_checked_add total (N.of_nat (length (xa_receipts a)))) ExCapacity;
        count_receipts attempts total
  end.

Definition validate_reservation_counters (s : ExecutorState) : result ExecutorError unit :=
  receipts ← count_receipts (attempts_in_order s).*2 0;
  if bool_decide (es_nonterminal_attempts s ≠ N.of_nat (nonterminal_count s))
     || bool_decide (es_unacknowledged_controls s ≠ N.of_nat (unacknowledged_count s))
     || bool_decide (try_from u64_MAX receipts ≠ Some (es_next_receipt_recovery_ordinal s)) then
    Err (ExConflict "executor durable-record reservation counters diverged from recovered state")
  else Ok tt.

Definition execM : Type → Type := stateR ExecutorState ExecutorError.
#[export] Instance execM_ret : MRet execM := stateR_ret.
#[export] Instance execM_bind : MBind execM := stateR_bind.
Definition check {A} (r : result ExecutorError A) : execM A := lift_result r.

Definition current : execM ExecutorState := gets (fun s => s).

Definition find_deployment (s : ExecutorState) (id : DeploymentId) (e : ExecutorError) :
    result ExecutorError (SignedRecordV1 DeploymentReceiptV1) := ok_or (es_deployments s !! id) e.
Definition find_attempt (s : ExecutorState) (attempt : AttemptId) :
    result ExecutorError AttemptRecord :=
  ok_or (es_attempts s !! attempt_key attempt) ExNotFound.

(** [checked_add] and [checked_sub] on the reservation counters. *)
Definition reserve_attempt : execM unit :=
  n ← gets es_nonterminal_attempts;
  n ← check (ok_or (usize_checked_add n 1) ExCapacity);
  modify (set_nonterminal n).
Definition release_attempt : execM unit :=
  n ← gets es_nonterminal_attempts;
  n ← check (ok_or (usize_checked_sub n 1) (ExConflict "nonterminal reservation underflow"));
  modify (set_nonterminal n).
Definition reserve_control : execM unit :=
  n ← gets es_unacknowledged_controls;
  n ← check (ok_or (usize_checked_add n 1) ExCapacity);
  modify (set_unacknowledged n).
Definition release_control : execM unit :=
  n ← gets es_unacknowledged_controls;
  n ← check (ok_or (usize_checked_sub n 1) (ExConflict "control reservation underflow"));
  modify (set_unacknowledged n).

(** [state.attempts.get_mut(key)], then an update. *)
Definition update_attempt (key : AttemptKey) (e : ExecutorError)
    (f : AttemptRecord → AttemptRecord) : execM unit :=
  a ← gets (fun s => es_attempts s !! key);
  a ← check (ok_or a e);
  modify (set_attempts <[key := f a]>).

(** [state.next_receipt_recovery_ordinal.checked_add(1)]. *)
Definition next_ordinal : execM N :=
  n ← gets es_next_receipt_recovery_ordinal;
  n ← check (ok_or (try_from u64_MAX (n + 1)) ExCapacity);
  _ ← modify (set_ordinal n);
  mret n.

(** ** Fences *)

(** What a grant, a control or a query says about its Home. *)
Record HomeRoute : Type := mkHomeRoute {
  hx_home : HomeId;
  hx_epoch : N;
  hx_route_sequence : N;
  hx_signer : string;
  hx_authority : HomeAuthorityV1;
  hx_realm : string;
  hx_node : string;
  hx_coordinator : string
}.
Definition grant_route (grant : SignedRecordV1 ExecutionGrantV1) : HomeRoute :=
  let g := sr_payload grant in
  mkHomeRoute (eg_owner g) (eg_home_epoch g) (eg_home_route_sequence g) (sr_signer grant)
    (eg_authority g) (eg_home_realm g) (eg_home_node g) (eg_home_coordinator g).
Definition control_route (control : SignedRecordV1 ExecutionControlV1) : HomeRoute :=
  let c := sr_payload control in
  mkHomeRoute (at_home (xc_attempt c)) (xc_home_epoch c) (xc_home_route_sequence c)
    (sr_signer control) (xc_authority c) (xc_home_realm c) (xc_home_node c)
    (xc_home_coordinator c).
Definition query_route (query : SignedRecordV1 ExecutionQueryV1) : HomeRoute :=
  let q := sr_payload query in
  mkHomeRoute (at_home (eq_attempt q)) (eq_home_epoch q) (eq_home_route_sequence q)
    (sr_signer query) (eq_authority q) (eq_home_realm q) (eq_home_node q)
    (eq_home_coordinator q).

(** The fence is at or after the epoch and route sequence. *)
Definition fence_covers (fence : HomeFence) (epoch route_sequence : N) : bool :=
  bool_decide (epoch < hf_epoch fence)
  || (bool_decide (hf_epoch fence = epoch)
      && bool_decide (route_sequence ≤ hf_route_sequence fence)).

(** Serialisers of the authority, of undeploy requests and of the records. *)
Class ExecSerde : Type := {
  xs_authority :: ToValue HomeAuthorityV1;
  xs_undeploy :: ToValue UndeployRequestV1;
  xs_record :: ToValue ExecutorLedgerRecord
}.

Section ledger.
  Context `{!Sha256} `{!JsonText} `{!Ed25519} `{!WireSerde} `{!CustodySerde} `{!MessageSerde}.
  Context `{!ExecSerde}.

(** The body shared by [validate_home_fence], [validate_control_fence] and
    [validate_query_fence], which differ in their texts. *)
Definition validate_fence (stale divergent route_error : string) (r : HomeRoute)
    (s : ExecutorState) : result ExecutorError unit :=
  match es_home_fences s !! hx_home r with
  | None => Ok tt
  | Some fence =>
      authority_hash ← ex_invalid (canonical_hash (hx_authority r));
      let same_epoch := bool_decide (hx_epoch r = hf_epoch fence) in
      _ ← reject (bool_decide (hx_epoch r < hf_epoch fence))
            (ExUnauthorized (stale +:+ dec (hx_epoch r) +:+ " is fenced by epoch "
                             +:+ dec (hf_epoch fence)));
      _ ← reject (same_epoch
                  && (bool_decide (hx_signer r ≠ hf_operational_signer fence)
                      || bool_decide (authority_hash ≠ hf_authority_hash fence)))
            (ExUnauthorized divergent);
      reject (same_epoch
              && (bool_decide (hx_route_sequence r < hf_route_sequence fence)
                  || (bool_decide (hx_route_sequence r = hf_route_sequence fence)
                      && (bool_decide (hx_realm r ≠ hf_home_realm fence)
                          || bool_decide (hx_node r ≠ hf_home_node fence)
                          || bool_decide (hx_coordinator r ≠ hf_home_coordinator fence)))))
        (ExUnauthorized route_error)
  end.

Definition validate_home_fence (s : ExecutorState) (grant : SignedRecordV1 ExecutionGrantV1) :
    result ExecutorError unit :=
  validate_fence "stale Home epoch " "same Home epoch presented divergent operational authority"
    "stale or divergent same-revision Home return route" (grant_route grant) s.
Definition validate_control_fence (s : ExecutorState)
    (control : SignedRecordV1 ExecutionControlV1) : result ExecutorError unit :=
  validate_fence "stale control Home epoch "
    "same control Home epoch presented divergent operational authority"
    "stale or divergent same-revision control return route" (control_route control) s.
Definition validate_query_fence (s : ExecutorState) (query : SignedRecordV1 ExecutionQueryV1) :
    result ExecutorError unit :=
  validate_fence "stale query Home epoch "
    "same query Home epoch presented divergent operational authority"
    "stale or divergent same-revision query return route" (query_route query) s.

(** The insertion that follows, in each [advance_] function. *)
Definition advance_fence (r : HomeRoute) : execM unit :=
  authority_hash ← check (ex_invalid (canonical_hash (hx_authority r)));
  let next := mkHomeFence (hx_epoch r) (hx_route_sequence r) (hx_signer r) authority_hash
                (hx_realm r) (hx_node r) (hx_coordinator r) in
  existing ← gets (fun s => es_home_fences s !! hx_home r);
  if match existing with
     | Some fence => fence_covers fence (hx_epoch r) (hx_route_sequence r)
     | None => false
     end
  then mret tt
  else modify (set_fence (hx_home r) next).

Definition advance_home_fence (grant : SignedRecordV1 ExecutionGrantV1) : execM unit :=
  s ← current;
  _ ← check (validate_home_fence s grant);
  advance_fence (grant_route grant).
Definition advance_control_fence (control : SignedRecordV1 ExecutionControlV1) : execM unit :=
  s ← current;
  _ ← check (validate_control_fence s control);
  advance_fence (control_route control).
Definition advance_query_fence (query : SignedRecordV1 ExecutionQueryV1) : execM unit :=
  s ← current;
  _ ← check (validate_query_fence s query);
  advance_fence (query_route query).

(** ** Validation of a record *)

Definition validate_receipt (cf : ExecutorConfig) (journal_signer : string)
    (receipt : SignedRecordV1 ExecutionReceiptV1) : result ExecutorError unit :=
  _ ← ex_invalid (SignedRecordV1_validate ExecutionReceiptV1_validate receipt);
  reject (bool_decide (sr_schema receipt ≠ SCHEMA_EXECUTE_V1)
          || bool_decide (sr_signer receipt ≠ journal_signer)
          || bool_decide (ex_executor (sr_payload receipt) ≠ ecf_executor cf)
          || negb (SignedRecordV1_verify receipt))
    (ExUnauthorized "persisted receipt signature is invalid").

(** [value.get(key)]. *)
Definition value_get (value : json) (key : string) : option json :=
  as_object value ≫= json_get key.

(** A receipt that says the call was refused before it was made. *)
Definition valid_refusal (stage : ExecutionStageV1) : bool :=
  match stage with
  | XFailed (VInline value) true =>
      bool_decide (value_get value "execution_may_have_occurred" = Some (JBool false))
      && match value_get value "kind" ≫= as_str with
         | Some kind => bool_decide (kind = "deployment_target_unavailable")
                        || bool_decide (kind = "deployment_liveness_unavailable")
         | None => false
         end
  | _ => false
  end.

Definition validate_record (cf : ExecutorConfig) (journal_signer : string)
    (record : ExecutorLedgerRecord) : result ExecutorError unit :=
  match record with
  | XRegister request receipt =>
      let q := sr_payload request in
      let r := sr_payload receipt in
      let authorization := sr_payload (dg_authorization q) in
      _ ← ex_unauthorized (verify_deployment_registration request);
      _ ← reject (bool_decide (dq_target_realm authorization ≠ ecf_realm cf)
                  || bool_decide (dq_target_node authorization ≠ Some (ecf_node cf)))
            (ExUnauthorized "persisted registration authorization targets another Realm/node");
      expected_deployment ← ex_invalid (derive_deployment_id (dg_function q) (dg_artifact_hash q)
                                          (ecf_realm cf) (ecf_node cf) (dg_target_creature q));
      _ ← reject (bool_decide (dg_deployment q ≠ expected_deployment))
            (ExInvalid "persisted DeploymentId is not derived from its exact binding");
      _ ← ex_unauthorized (verify_deployment_receipt receipt);
      reject (bool_decide (sr_signer receipt ≠ journal_signer)
              || bool_decide (dr_executor r ≠ ecf_executor cf)
              || bool_decide (dr_realm r ≠ ecf_realm cf)
              || bool_decide (dr_node r ≠ ecf_node cf)
              || bool_decide (dr_deployment r ≠ dg_deployment q)
              || bool_decide (dr_function r ≠ dg_function q)
              || bool_decide (dr_artifact_hash r ≠ dg_artifact_hash q)
              || bool_decide (dr_creature r ≠ dg_target_creature q)
              || negb (positive_creature_id (dr_executor_creature r))
              || negb (positive_creature_id (dr_creature r)))
        (ExConflict "deployment receipt does not match registration/executor")
  | XUndeploy request deployment =>
      _ ← ex_invalid (SignedRecordV1_validate UndeployRequestV1_validate request);
      reject (unsigned SCHEMA_FUNCTION_DEPLOY_V1 request
              || bool_decide (sr_signer request ≠ uq_requested_by (sr_payload request))
              || bool_decide (uq_deployment (sr_payload request) ≠ deployment))
        (ExUnauthorized "persisted undeploy authorization is invalid")
  | XClaim grant receipt =>
      let g := sr_payload grant in
      let r := sr_payload receipt in
      _ ← ex_unauthorized (verify_execution_grant grant);
      _ ← reject (bool_decide (dr_executor (sr_payload (eg_deployment g)) ≠ ecf_executor cf))
            (ExInvalid "persisted grant targets another executor");
      _ ← validate_receipt cf journal_signer receipt;
      _ ← ex_unauthorized (verify_execution_receipt receipt grant);
      reject (bool_decide (ex_attempt r ≠ eg_attempt g) || bool_decide (ex_sequence r ≠ 1)
              || bool_decide (ex_stage r ≠ XClaimed))
        (ExConflict "claim receipt does not match grant")
  | XRefuse grant receipt =>
      let g := sr_payload grant in
      let r := sr_payload receipt in
      _ ← ex_unauthorized (verify_execution_grant grant);
      _ ← reject (bool_decide (dr_executor (sr_payload (eg_deployment g)) ≠ ecf_executor cf))
            (ExInvalid "persisted refusal grant targets another executor");
      _ ← validate_receipt cf journal_signer receipt;
      _ ← ex_unauthorized (verify_execution_receipt receipt grant);
      reject (bool_decide (ex_attempt r ≠ eg_attempt g) || bool_decide (ex_sequence r ≠ 1)
              || negb (valid_refusal (ex_stage r)))
        (ExConflict "pre-execution refusal receipt does not match grant")
  | XControl request receipt =>
      let q := sr_payload request in
      let r := sr_payload receipt in
      _ ← ex_unauthorized (verify_execution_control request);
      _ ← validate_receipt cf journal_signer receipt;
      reject (negb match ex_stage r with
                   | XControlQueued control =>
                       bool_decide (control = jc_control (sr_payload (xc_caller_request q)))
                       && bool_decide (ex_attempt r = xc_attempt q)
                   | _ => false
                   end)
        (ExConflict "control queued receipt does not match the signed request/attempt")
  | XHomeFence query => ex_unauthorized (verify_execution_query query)
  | XReceipt receipt => validate_receipt cf journal_signer receipt
  end.

(** ** Applying a record *)

Definition apply_register (receipt : SignedRecordV1 DeploymentReceiptV1) : execM unit :=
  let id := dr_deployment (sr_payload receipt) in
  s ← current;
  _ ← check (reject (bool_decide (id ∈ es_deployment_tombstones s))
               (ExConflict "registration follows tombstone"));
  _ ← modify (set_deployments <[id := receipt]>);
  match es_deployments s !! id with
  | Some existing =>
      check (reject (negb (same_deployment_binding (sr_payload existing) (sr_payload receipt)))
               (ExConflict "conflicting persisted deployment registration"))
  | None => mret tt
  end.

Definition apply_undeploy (deployment : DeploymentId) : execM unit :=
  s ← current;
  _ ← modify (set_deployments (delete deployment));
  _ ← check (reject (bool_decide (es_deployments s !! deployment = None)
                     && negb (bool_decide (deployment ∈ es_deployment_tombstones s)))
               (ExConflict "undeploy precedes registration"));
  modify (add_tombstone deployment).

(** The attempt a claim or refusal starts. *)
Definition first_attempt (grant : SignedRecordV1 ExecutionGrantV1) (hash : string)
    (receipt : SignedRecordV1 ExecutionReceiptV1) (ordinal : N) : AttemptRecord :=
  let stage := ex_stage (sr_payload receipt) in
  mkAttemptRecord grant hash [receipt] [ordinal] (if is_observation stage then 1 else 0)
    (progress_sequence stage) (checkpoint_sequence stage)
    match stage with XProgress sequence _ => {[sequence := 0%nat]} | _ => ∅ end
    match stage with XCheckpoint sequence _ => {[sequence := 0%nat]} | _ => ∅ end
    0 (stage_terminal stage).

Definition apply_claim (grant : SignedRecordV1 ExecutionGrantV1)
    (receipt : SignedRecordV1 ExecutionReceiptV1) : execM unit :=
  let g := sr_payload grant in
  s ← current;
  registered ← check (find_deployment s (dr_deployment (sr_payload (eg_deployment g)))
                        (ExUnauthorized "claim precedes deployment registration"));
  registered_hash ← check (ex_invalid (canonical_hash registered));
  deployment_hash ← check (ex_invalid (canonical_hash (eg_deployment g)));
  _ ← check (reject (bool_decide (registered_hash ≠ deployment_hash))
               (ExConflict "claim deployment differs from registry"));
  let key := attempt_key (eg_attempt g) in
  hash ← check (ex_invalid (canonical_hash grant));
  match es_attempts s !! key with
  | Some existing =>
      check (reject (bool_decide (xa_grant_hash existing ≠ hash))
               (ExConflict "two grants for one AttemptId"))
  | None =>
      _ ← advance_home_fence grant;
      ordinal ← next_ordinal;
      _ ← (if stage_terminal (ex_stage (sr_payload receipt)) then mret tt else reserve_attempt);
      modify (set_attempts <[key := first_attempt grant hash receipt ordinal]>)
  end.

Definition control_key (attempt : AttemptId) (control : ControlId) : ControlKey :=
  (attempt_key attempt, control).

Definition apply_control (request : SignedRecordV1 ExecutionControlV1)
    (receipt : SignedRecordV1 ExecutionReceiptV1) : execM unit :=
  let q := sr_payload request in
  let r := sr_payload receipt in
  let caller := sr_payload (xc_caller_request q) in
  let key := control_key (ex_attempt r) (jc_control caller) in
  let attempt := attempt_key (ex_attempt r) in
  request_hash ← check (ex_invalid (canonical_hash request));
  s ← current;
  _ ← check (validate_control_fence s request);
  match es_controls s !! key with
  | Some existing =>
      if decide (kr_request_hash existing = request_hash) then mret tt
      else
        _ ← check (reject (negb (same_control_intent (kr_request existing) request))
                     (ExConflict "persisted ControlId has divergent signed requests"));
        _ ← check (reject (bool_decide (kr_queued existing ≠ receipt))
                     (ExConflict "re-endorsed control changed its original queued receipt"));
        _ ← advance_control_fence request;
        modify (set_controls <[key := mkControlRecord request_hash request (kr_queued existing)
                                        (kr_acknowledged existing)]>)
  | None =>
      a ← check (find_attempt s (ex_attempt r));
      _ ← check (ex_unauthorized (verify_execution_receipt receipt (xa_grant a)));
      _ ← check (reject
            (bool_decide (xa_grant_hash a ≠ xc_grant_hash q)
             || bool_decide (eg_owner (sr_payload (xa_grant a)) ≠ jh_home (jc_handle caller))
             || bool_decide (xc_attempt q ≠ ex_attempt r))
            (ExUnauthorized "persisted control does not match the exact accepted attempt grant"));
      _ ← check (reject (bool_decide (ex_sequence r ≠ N.of_nat (length (xa_receipts a)) + 1)
                         || xa_terminal a)
            (ExConflict "persisted control receipt is out of sequence or terminal"));
      _ ← check (reject (bool_decide (MAX_JOB_CONTROLS ≤ xa_control_count a)) ExCapacity);
      _ ← advance_control_fence request;
      _ ← update_attempt attempt
            (ExConflict "attempt disappeared during control fence advancement")
            (fun a => count_control (push_receipt receipt a));
      ordinal ← next_ordinal;
      _ ← update_attempt attempt
            (ExConflict "control attempt disappeared while recording recovery order")
            (push_ordinal ordinal);
      _ ← reserve_control;
      modify (set_controls <[key := mkControlRecord request_hash request receipt None]>)
  end.

Definition apply_fence (query : SignedRecordV1 ExecutionQueryV1) : execM unit :=
  let q := sr_payload query in
  s ← current;
  a ← check (find_attempt s (eq_attempt q));
  _ ← check (reject (bool_decide (xa_grant_hash a ≠ eq_grant_hash q)
                     || bool_decide (eg_owner (sr_payload (xa_grant a)) ≠ at_home (eq_attempt q)))
        (ExUnauthorized "persisted query fence does not name its exact accepted grant"));
  advance_query_fence query.

(** The observation a stage carries is newer than the ones before it. *)
Definition note_observation (stage : ExecutionStageV1) (a : AttemptRecord) :
    result ExecutorError AttemptRecord :=
  let index := length (xa_receipts a) in
  match stage with
  | XProgress sequence _ =>
      if decide (sequence ≤ xa_highest_progress_sequence a) then
        Err (ExConflict "persisted progress sequence is not monotonic")
      else Ok (note_progress sequence index a)
  | XCheckpoint sequence _ =>
      if decide (sequence ≤ xa_highest_checkpoint_sequence a) then
        Err (ExConflict "persisted checkpoint sequence is not monotonic")
      else Ok (note_checkpoint sequence index a)
  | _ => Ok a
  end.

Definition apply_receipt (receipt : SignedRecordV1 ExecutionReceiptV1) : execM unit :=
  let r := sr_payload receipt in
  let stage := ex_stage r in
  let attempt := attempt_key (ex_attempt r) in
  s ← current;
  acknowledged_control ←
    match stage with
    | XControlAcknowledged control _ _ =>
        let key := control_key (ex_attempt r) control in
        _ ← check (reject (bool_decide (es_controls s !! key = None))
              (ExConflict "control acknowledgment precedes durable forwarding"));
        mret (Some key)
    | _ => mret None
    end;
  let consumes_control_reservation :=
    match acknowledged_control ≫= fun key => es_controls s !! key with
    | Some control => bool_decide (kr_acknowledged control = None)
    | None => false
    end in
  a ← check (find_attempt s (ex_attempt r));
  _ ← check (ex_unauthorized (verify_execution_receipt receipt (xa_grant a)));
  let expected := N.of_nat (length (xa_receipts a)) + 1 in
  _ ← check (reject (bool_decide (ex_sequence r ≠ expected))
        (ExConflict ("receipt sequence " +:+ dec (ex_sequence r) +:+ " is not next after "
                     +:+ dec (expected - 1))));
  let terminal_before := xa_terminal a in
  _ ← check (reject (terminal_before && negb (is_control_acknowledgment stage)) ExTerminal);
  _ ← check (reject (is_observation stage
                     && bool_decide (MAX_ATTEMPT_OBSERVATIONS ≤ xa_observation_count a))
        ExCapacity);
  noted ← check (note_observation stage a);
  let counted := if is_observation stage then count_observation noted else noted in
  let terminal := terminal_before || stage_terminal stage in
  let became_terminal := negb terminal_before && terminal in
  _ ← modify (set_attempts <[attempt := push_receipt receipt (set_terminal terminal counted)]>);
  ordinal ← next_ordinal;
  _ ← update_attempt attempt
        (ExConflict "receipt attempt disappeared while recording recovery order")
        (push_ordinal ordinal);
  _ ← (if became_terminal then release_attempt else mret tt);
  _ ← (if consumes_control_reservation then release_control else mret tt);
  match acknowledged_control with
  | Some key =>
      s ← current;
      c ← check (ok_or (es_controls s !! key)
                   (ExConflict "control disappeared while applying its acknowledgment"));
      modify (set_controls <[key := mkControlRecord (kr_request_hash c) (kr_request c)
                                      (kr_queued c) (Some receipt)]>)
  | None => mret tt
  end.

Definition apply_record (cf : ExecutorConfig) (journal_signer : string)
    (record : ExecutorLedgerRecord) : execM unit :=
  _ ← check (validate_record cf journal_signer record);
  match record with
  | XRegister _ receipt => apply_register receipt
  | XUndeploy _ deployment => apply_undeploy deployment
  | XClaim grant receipt | XRefuse grant receipt => apply_claim grant receipt
  | XControl request receipt => apply_control request receipt
  | XHomeFence query => apply_fence query
  | XReceipt receipt => apply_receipt receipt
  end.

(** The replay loop of [open_with_liveness]. *)
Fixpoint replay (cf : ExecutorConfig) (journal_signer : string)
    (records : list ExecutorLedgerRecord) : execM unit :=
  match records with
  | [] => mret tt
  | record :: records =>
      _ ← apply_record cf journal_signer record; replay cf journal_signer records
  end.
End ledger.
