(* ===== verification/Executor.v ===== *)
(** * Operations of the executor

    [FunctionExecutor] of [cosmos/creatures/function-executor/src/lib.rs]:
    opening with the crash fence, deployments, claims, stages, controls and
    queries.

    [ExecWorld] is what an executor can change: its journal with the files on
    disk, the ledger state, the recovery sweep and its own address. The traits it
    is built with are the class [ExecutorServices], except the liveness view,
    which may answer differently each time: [live n] is its [n]-th answer, as
    [io n] is the outcome of the system calls of the [n]-th append. Operations
    run one at a time, as [Creature::handle] runs them. *)

From stdpp Require Import sorting.
From S2P Require Import Prelude Serde GxShape GxHash FnCrypto FnTypes FnWire FnCustody FnMessages.
From S2P Require Import AetherAddress AetherEnvelope Journal HomeLedger HomeApi ExecLedger.

Definition EXECUTOR_JOURNAL_NAME : string := "function-executor".
Definition EXECUTOR_RECOVERY_INDETERMINATE_REASON : string :=
  "executor recovered a claimed attempt with unknown call outcome".
Definition EXECUTOR_RECOVERY_FAILURE_KIND : string := "executor_recovery_ambiguity".

(** ** Injected services *)

(** [xv_debug_address] is the [Debug] text of an address, used in an error. *)
Class ExecutorServices : Type := {
  xv_signer : AuthoritySigner;
  xv_function_target : ExecutionGrantV1 → result string Address;
  xv_home_target : ExecutionGrantV1 → result string Address;
  xv_query_home_target : ExecutionGrantV1 → ExecutionQueryV1 → result string Address;
  xv_control_home_target : ExecutionGrantV1 → ExecutionControlV1 → result string Address;
  xv_register : SignedRecordV1 DeploymentRegistrationV1 → result string unit;
  xv_undeploy : SignedRecordV1 UndeployRequestV1 → SignedRecordV1 DeploymentReceiptV1 →
    result string unit;
  xv_debug_address : Address → string
}.

Definition Liveness : Type := N → DeploymentReceiptV1 → result string bool.

(** The default view of a composition without a roster. *)
Definition UnavailableDeploymentLiveness : Liveness :=
  fun _ _ => Err "deployment liveness is not configured".

(** ** Addresses *)

Definition routed_address (local_realm local_node target_realm target_node : string)
    (target : Address) : result string Address :=
  if bool_decide (target_realm = local_realm) && bool_decide (target_node = local_node) then
    Ok target
  else
    node_target ← match target with
      | ACreature creature => Ok (ANode target_node creature)
      | ARole role =>
          if decide (target_realm ≠ local_realm) then Ok (ARole role)
          else Err "a role address cannot select one remote node inside the same Realm"
      | _ => Err "home coordinator must be a creature or role address"
      end;
    if decide (target_realm = local_realm) then Ok node_target
    else Ok (AOmega target_realm node_target).

Definition parse_address (value : string) : result string Address :=
  match strip_prefix "role:" value with
  | Some role => if is_blank role then Err "empty role address" else Ok (ARole role)
  | None =>
      let raw := default value (strip_prefix "creature:" value) in
      match parse_u64 raw with
      | Some id => Ok (ACreature id)
      | None => Err ("`" +:+ value +:+ "` is not creature:<u64>, <u64>, or role:<name>")
      end
  end.

(** [StringAddressing]. *)
Definition string_function_target (g : ExecutionGrantV1) : result string Address :=
  parse_address (dr_creature (sr_payload (eg_deployment g))).
Definition string_route (g : ExecutionGrantV1) (realm node coordinator : string) :
    result string Address :=
  coordinator ← parse_address coordinator;
  routed_address (dr_realm (sr_payload (eg_deployment g))) (dr_node (sr_payload (eg_deployment g)))
    realm node coordinator.
Definition string_home_target (g : ExecutionGrantV1) : result string Address :=
  string_route g (eg_home_realm g) (eg_home_node g) (eg_home_coordinator g).
Definition string_query_home_target (g : ExecutionGrantV1) (q : ExecutionQueryV1) :
    result string Address :=
  string_route g (eq_home_realm q) (eq_home_node q) (eq_home_coordinator q).
Definition string_control_home_target (g : ExecutionGrantV1) (c : ExecutionControlV1) :
    result string Address :=
  string_route g (xc_home_realm c) (xc_home_node c) (xc_home_coordinator c).

(** ** The world of an executor *)

Record ExecutorRecoverySweep : Type := mkExecutorRecoverySweep {
  xr_receipt_high_water_ordinal : N;
  xr_receipts_remaining : N;
  xr_receipt_after : option (AttemptKey * N);
  xr_active : bool
}.
Definition ExecutorRecoverySweep_default : ExecutorRecoverySweep :=
  mkExecutorRecoverySweep 0 0 None false.

(** [xw_appends] and [xw_checks] count the appends and the liveness questions. *)
Record ExecWorld : Type := mkExecWorld {
  xw_config : ExecutorConfig;
  xw_journal : Journal;
  xw_inner : Inner ExecutorLedgerRecord;
  xw_state : ExecutorState;
  xw_disk : Disk;
  xw_sweep : ExecutorRecoverySweep;
  xw_me : option N;
  xw_appends : nat;
  xw_checks : nat
}.
Definition set_executor_sweep (sweep : ExecutorRecoverySweep) (w : ExecWorld) : ExecWorld :=
  mkExecWorld (xw_config w) (xw_journal w) (xw_inner w) (xw_state w) (xw_disk w) sweep (xw_me w)
    (xw_appends w) (xw_checks w).

Inductive ClaimOutcome : Type :=
  | ClaimClaimed (receipts : list (SignedRecordV1 ExecutionReceiptV1)) (call : FunctionCallV1)
      (target : Address)
  | ClaimDuplicate (receipt : SignedRecordV1 ExecutionReceiptV1)
  | ClaimTerminal (receipt : SignedRecordV1 ExecutionReceiptV1).

Inductive RecordOutcome : Type :=
  | Recorded (receipt : SignedRecordV1 ExecutionReceiptV1)
  | RecordDuplicate (receipt : SignedRecordV1 ExecutionReceiptV1).

Definition exM : Type → Type := stateR ExecWorld ExecutorError.
#[export] Instance exM_ret : MRet exM := stateR_ret.
#[export] Instance exM_bind : MBind exM := stateR_bind.
Definition raise {A} (r : result ExecutorError A) : exM A := lift_result r.

(** [reason.chars().take(count)]: a byte that does not continue a character starts
    one. *)
Fixpoint take_chars (count : nat) (s : string) : string :=
  match s with
  | EmptyString => EmptyString
  | String c s =>
      if in_range 128 191 (Ascii.N_of_ascii c) then String c (take_chars count s)
      else match count with O => EmptyString | S count => String c (take_chars count s) end
  end.

(** The newest receipt of an attempt, and its stage. *)
Definition last_receipt (a : AttemptRecord) : option (SignedRecordV1 ExecutionReceiptV1) :=
  last (xa_receipts a).
Definition last_is_claimed (a : AttemptRecord) : bool :=
  match last_receipt a with
  | Some receipt => bool_decide (ex_stage (sr_payload receipt) = XClaimed)
  | None => false
  end.

Section operations.
  Context `{!Sha256} `{!JsonText} `{!Ed25519} `{!WireSerde} `{!CustodySerde} `{!MessageSerde}.
  Context `{!ExecSerde} `{!ExecutorServices} (io : nat → AppendIo) (live : nat → Liveness).

(** *** Primitives *)

Definition ensure_operational : exM unit :=
  fun w => (ex_journal (ensure_healthy (xw_inner w)), w).
Definition lock_healthy_state : exM ExecutorState :=
  _ ← ensure_operational; gets xw_state.

Definition ensure_append_capacity (reservation_after_append : N) : exM unit :=
  fun w =>
    (remaining ← ex_journal (remaining_records (xw_journal w) (xw_inner w));
     reject (bool_decide (remaining ≤ reservation_after_append)) ExCapacity, w).

(** [validate_record], [journal.append] and [apply_record], the sequence that makes
    each record durable. *)
Definition commit (record : ExecutorLedgerRecord) : exM unit :=
  fun w =>
    let cf := xw_config w in
    let key := as_public_key xv_signer in
    match validate_record cf key record with
    | Err e => (Err e, w)
    | Ok _ =>
        let '(appended, inner, d) :=
          append (xw_journal w) (io (xw_appends w)) record (xw_inner w) (xw_disk w) in
        let world s := mkExecWorld cf (xw_journal w) inner s d (xw_sweep w) (xw_me w)
                         (S (xw_appends w)) (xw_checks w) in
        match appended with
        | Err e => (Err (ExJournal e), world (xw_state w))
        | Ok _ =>
            let (r, s) := apply_record cf key record (xw_state w) in (r, world s)
        end
    end.

(** The answer of the liveness view. *)
Definition target_is_live (target : N) (deployment : DeploymentReceiptV1) :
    exM (result string bool) :=
  fun w =>
    (Ok (live (xw_checks w) target deployment),
     mkExecWorld (xw_config w) (xw_journal w) (xw_inner w) (xw_state w) (xw_disk w) (xw_sweep w)
       (xw_me w) (xw_appends w) (S (xw_checks w))).

(** What [require_live_target] returns; the caller propagates or records it. *)
Definition require_live_target (target : N) (deployment : DeploymentReceiptV1) :
    exM (result ExecutorError unit) :=
  answer ← target_is_live target deployment;
  mret match answer with
       | Ok true => Ok tt
       | Ok false => Err (ExTargetUnavailable (dec target))
       | Err reason => Err (ExLiveness reason)
       end.

Definition sign_receipt (grant : SignedRecordV1 ExecutionGrantV1) (sequence : N)
    (observed_at_unix_ms : option N) (stage : ExecutionStageV1) :
    exM (SignedRecordV1 ExecutionReceiptV1) :=
  _ ← ensure_operational;
  grant_hash ← raise (ex_invalid (canonical_hash grant));
  cf ← gets xw_config;
  let receipt := mkExecutionReceiptV1 (eg_attempt (sr_payload grant)) grant_hash (ecf_executor cf)
                   sequence observed_at_unix_ms stage in
  _ ← raise (ex_invalid (ExecutionReceiptV1_validate receipt));
  raise (ex_signing (SignedRecordV1_sign SCHEMA_EXECUTE_V1 receipt xv_signer)).

(** [kind] and [reason] of the refusal of a target. *)
Definition liveness_refusal (error : ExecutorError) : result ExecutorError (string * string) :=
  match error with
  | ExTargetUnavailable reason => Ok ("deployment_target_unavailable", reason)
  | ExLiveness reason => Ok ("deployment_liveness_unavailable", reason)
  | other => Err other
  end.

Definition sign_liveness_refusal (grant : SignedRecordV1 ExecutionGrantV1) (sequence : N)
    (error : ExecutorError) : exM (SignedRecordV1 ExecutionReceiptV1) :=
  '(kind, reason) ← raise (liveness_refusal error);
  let reason := take_chars (N.to_nat (FN_MAX_REASON_BYTES / 4)) reason in
  sign_receipt grant sequence (eg_issued_at_unix_ms (sr_payload grant))
    (XFailed (VInline (JObject [("execution_may_have_occurred", JBool false);
                                ("kind", JString kind); ("reason", JString reason)])) true).

Definition exact_local_target (grant : ExecutionGrantV1) : result ExecutorError (N * Address) :=
  let raw := dr_creature (sr_payload (eg_deployment grant)) in
  id ← ok_or (parse_u64 raw)
         (ExAddress ("deployment target `" +:+ raw +:+ "` is not a numeric CreatureId"));
  _ ← reject (bool_decide (id = 0) || bool_decide (dec id ≠ raw))
        (ExAddress ("deployment target `" +:+ raw
                    +:+ "` is not one canonical positive CreatureId"));
  target ← map_err ExAddress (xv_function_target grant);
  _ ← reject (bool_decide (target ≠ ACreature id))
        (ExAddress ("deployment target `" +:+ raw +:+ "` resolved to `"
                    +:+ xv_debug_address target +:+ "` instead of its exact local CreatureId"));
  Ok (id, target).

Definition function_call (grant : SignedRecordV1 ExecutionGrantV1) : exM FunctionCallV1 :=
  let g := sr_payload grant in
  _ ← ensure_operational;
  cf ← gets xw_config;
  grant_hash ← raise (ex_invalid (canonical_hash grant));
  executor_dispatch ← raise (ex_signing (SignedRecordV1_sign SCHEMA_CALL_V1
    (mkExecutorDispatchV1 (eg_attempt g) grant_hash
       (dr_deployment (sr_payload (eg_deployment g))) (ecf_executor_creature cf)
       (dr_creature (sr_payload (eg_deployment g)))) xv_signer));
  let call := mkFunctionCallV1 (eg_attempt g) (eg_function g) (eg_input g) grant
                executor_dispatch in
  _ ← raise (ex_invalid (FunctionCallV1_validate call));
  mret call.

Definition function_control (grant : SignedRecordV1 ExecutionGrantV1)
    (endorsement : SignedRecordV1 ExecutionControlV1) : exM FunctionControlV1 :=
  let g := sr_payload grant in
  _ ← ensure_operational;
  cf ← gets xw_config;
  grant_hash ← raise (ex_invalid (canonical_hash grant));
  control_hash ← raise (ex_invalid (canonical_hash endorsement));
  executor_dispatch ← raise (ex_signing (SignedRecordV1_sign SCHEMA_CALL_V1
    (mkExecutorControlDispatchV1 (eg_attempt g) grant_hash control_hash
       (dr_deployment (sr_payload (eg_deployment g))) (ecf_executor_creature cf)
       (dr_creature (sr_payload (eg_deployment g)))) xv_signer));
  let control := mkFunctionControlV1 (eg_attempt g) endorsement grant executor_dispatch in
  _ ← raise (ex_invalid (FunctionControlV1_validate control));
  mret control.

(** *** Deployments *)

(** The tail of [register]. *)
Definition register_new (request : SignedRecordV1 DeploymentRegistrationV1)
    (receipt : SignedRecordV1 DeploymentReceiptV1) : exM (SignedRecordV1 DeploymentReceiptV1) :=
  state ← gets xw_state;
  cf ← gets xw_config;
  _ ← raise (reject (bool_decide (ecf_max_deployments cf ≤ N.of_nat (size (es_deployments state))))
        ExCapacity);
  _ ← ensure_append_capacity (durable_record_reservations state);
  _ ← commit (XRegister request receipt);
  mret receipt.

Definition register (request : SignedRecordV1 DeploymentRegistrationV1) :
    exM (SignedRecordV1 DeploymentReceiptV1) :=
  let q := sr_payload request in
  let authorization := sr_payload (dg_authorization q) in
  _ ← lock_healthy_state;
  _ ← raise (ex_unauthorized (verify_deployment_registration request));
  cf ← gets xw_config;
  _ ← raise (reject (bool_decide (dq_target_realm authorization ≠ ecf_realm cf)
                     || bool_decide (dq_target_node authorization ≠ Some (ecf_node cf)))
        (ExUnauthorized "deployment authorization targets a different Realm/node"));
  _ ← raise (reject (negb (positive_creature_id (dg_target_creature q)))
        (ExInvalid "deployment target must be one exact positive numeric CreatureId"));
  expected_deployment ← raise (ex_invalid (derive_deployment_id (dg_function q)
    (dg_artifact_hash q) (ecf_realm cf) (ecf_node cf) (dg_target_creature q)));
  _ ← raise (reject (bool_decide (dg_deployment q ≠ expected_deployment))
        (ExInvalid "DeploymentId is not derived from the immutable function/location/target pin"));
  _ ← raise (map_err (fun reason => ExUnauthorized ("registration refused: " +:+ reason))
               (xv_register request));
  let receipt_payload := mkDeploymentReceiptV1 (dg_deployment q) (dg_function q)
        (dg_artifact_hash q) (ecf_realm cf) (ecf_node cf) (ecf_executor cf)
        (ecf_executor_creature cf) (dg_target_creature q) (dg_evidence q) None in
  _ ← raise (reject (bool_decide (ecf_executor_creature cf = "auto"))
        (ExConfiguration "executor must be bound before registering a deployment"));
  target_id ← raise (ok_or (parse_u64 (dg_target_creature q))
        (ExInvalid "deployment target is not numeric"));
  answer ← require_live_target target_id receipt_payload;
  _ ← raise answer;
  receipt ← raise (ex_signing (SignedRecordV1_sign SCHEMA_FUNCTION_DEPLOY_V1 receipt_payload
                                 xv_signer));
  _ ← raise (ex_invalid (verify_deployment_receipt receipt));
  state ← gets xw_state;
  _ ← raise (reject (bool_decide (dg_deployment q ∈ es_deployment_tombstones state))
        (ExConflict "a tombstoned DeploymentId cannot be resurrected"));
  let existing : option (SignedRecordV1 DeploymentReceiptV1) :=
    es_deployments state !! dg_deployment q in
  match existing with
  | Some existing =>
      if decide (sr_payload existing = sr_payload receipt) then mret existing
      else
        _ ← raise (reject (negb (same_deployment_binding (sr_payload existing)
                                   (sr_payload receipt)))
              (ExConflict "DeploymentId is already registered with different contents"));
        register_new request receipt
  | None => register_new request receipt
  end.

Definition deployment_is_live (deployment : DeploymentReceiptV1) : exM bool :=
  let raw := dr_creature deployment in
  match parse_u64 raw with
  | None => mret false
  | Some id =>
      if bool_decide (id = 0) || bool_decide (dec id ≠ raw) then mret false
      else
        answer ← target_is_live id deployment;
        mret match answer with Ok live => live | Err _ => false end
  end.

Definition query_matches (query : DeploymentQueryV1) (deployment : DeploymentReceiptV1) : bool :=
  match dy_function query with Some f => bool_decide (dr_function deployment = f) | None => true end
  && match dy_realm query with Some r => bool_decide (dr_realm deployment = r) | None => true end
  && match dy_node query with Some n => bool_decide (dr_node deployment = n) | None => true end.

(** The deployments in key order. *)
Definition deployment_le (a b : DeploymentId * SignedRecordV1 DeploymentReceiptV1) : Prop :=
  str_le a.1 b.1.
#[export] Instance deployment_le_dec : RelDecision deployment_le.
Proof. unfold deployment_le. intros a b. apply _. Defined.
Definition deployments_in_order (s : ExecutorState) : list (SignedRecordV1 DeploymentReceiptV1) :=
  (merge_sort deployment_le (map_to_list (es_deployments s))).*2.

(** [filter], [take] and [collect]: the liveness view is asked only about the rows
    that match, until the limit is reached. *)
Fixpoint take_live (limit : nat) (query : DeploymentQueryV1)
    (rows : list (SignedRecordV1 DeploymentReceiptV1)) :
    exM (list (SignedRecordV1 DeploymentReceiptV1)) :=
  match limit, rows with
  | O, _ | _, [] => mret []
  | S limit', row :: rows =>
      keep ← (if query_matches query (sr_payload row) then deployment_is_live (sr_payload row)
              else mret false);
      if keep : bool then
        rest ← take_live limit' query rows; mret (row :: rest)
      else take_live limit query rows
  end.

Definition deployments (query : DeploymentQueryV1) : exM DeploymentListV1 :=
  state ← lock_healthy_state;
  _ ← raise (ex_invalid (DeploymentQueryV1_validate query));
  rows ← take_live (N.to_nat (dy_limit query)) query (deployments_in_order state);
  mret (mkDeploymentListV1 rows).

Definition sign_undeploy_receipt (deployment : DeploymentId) :
    exM (SignedRecordV1 UndeployReceiptV1) :=
  _ ← ensure_operational;
  cf ← gets xw_config;
  _ ← raise (reject (negb (positive_creature_id (ecf_executor_creature cf)))
        (ExConfiguration "executor must be bound before acknowledging an undeploy"));
  receipt ← raise (ex_signing (SignedRecordV1_sign SCHEMA_FUNCTION_DEPLOY_V1
    (mkUndeployReceiptV1 deployment (ecf_executor cf) (ecf_executor_creature cf)) xv_signer));
  _ ← raise (ex_invalid (verify_undeploy_receipt receipt));
  mret receipt.

(** An unfinished attempt runs on the deployment. *)
Definition deployment_in_use (deployment : DeploymentId) (s : ExecutorState) : bool :=
  existsb (fun kv => negb (xa_terminal kv.2)
      && bool_decide (dr_deployment (sr_payload (eg_deployment (sr_payload (xa_grant kv.2))))
                      = deployment)) (map_to_list (es_attempts s)).

Definition undeploy (request : SignedRecordV1 UndeployRequestV1) :
    exM (SignedRecordV1 UndeployReceiptV1) :=
  state ← lock_healthy_state;
  _ ← raise (ex_invalid (SignedRecordV1_validate UndeployRequestV1_validate request));
  _ ← raise (reject (unsigned SCHEMA_FUNCTION_DEPLOY_V1 request
                     || bool_decide (sr_signer request ≠ uq_requested_by (sr_payload request)))
        (ExUnauthorized "invalid undeploy authorization"));
  let id := uq_deployment (sr_payload request) in
  if decide (id ∈ es_deployment_tombstones state) then sign_undeploy_receipt id
  else
    deployment ← raise (find_deployment state id ExNotFound);
    _ ← raise (map_err (fun reason => ExUnauthorized ("undeploy refused: " +:+ reason))
                 (xv_undeploy request deployment));
    _ ← raise (reject (deployment_in_use id state)
          (ExConflict "deployment has a nonterminal claimed attempt"));
    _ ← ensure_append_capacity (durable_record_reservations state);
    _ ← commit (XUndeploy request id);
    sign_undeploy_receipt id.

(** *** Claims *)

(** A target that is not live, after the claim. *)
Definition refuse_claimed (grant : SignedRecordV1 ExecutionGrantV1) (error : ExecutorError) :
    exM ClaimOutcome :=
  state ← gets xw_state;
  _ ← ensure_append_capacity (durable_record_reservations state - 1);
  failed ← sign_liveness_refusal grant 2 error;
  _ ← commit (XReceipt failed);
  mret (ClaimTerminal failed).

(** The durable Started gate, then the call. *)
Definition start_claimed (grant : SignedRecordV1 ExecutionGrantV1)
    (claimed : SignedRecordV1 ExecutionReceiptV1) (target : Address) : exM ClaimOutcome :=
  state ← gets xw_state;
  _ ← ensure_append_capacity (durable_record_reservations state);
  started ← sign_receipt grant 2 (eg_issued_at_unix_ms (sr_payload grant)) XStarted;
  _ ← commit (XReceipt started);
  call ← function_call grant;
  mret (ClaimClaimed [claimed; started] call target).

(** The branch of an attempt that is already known. *)
Definition claim_existing (grant : SignedRecordV1 ExecutionGrantV1) (grant_hash : string)
    (existing : AttemptRecord) : exM ClaimOutcome :=
  _ ← raise (reject (bool_decide (xa_grant_hash existing ≠ grant_hash))
        (ExConflict "different grant for an already-claimed AttemptId"));
  receipt ← raise (ok_or (last_receipt existing) (ExConflict "claimed attempt has no receipt"));
  if negb (xa_terminal existing) && bool_decide (ex_stage (sr_payload receipt) = XClaimed) then
    '(target_id, target) ← raise (exact_local_target (sr_payload grant));
    answer ← require_live_target target_id (sr_payload (eg_deployment (sr_payload grant)));
    match answer with
    | Err error => refuse_claimed grant error
    | Ok _ => start_claimed grant receipt target
    end
  else mret (if xa_terminal existing then ClaimTerminal receipt else ClaimDuplicate receipt).

(** The branch of a new attempt. *)
Definition claim_new (grant : SignedRecordV1 ExecutionGrantV1) : exM ClaimOutcome :=
  let g := sr_payload grant in
  let deployment := eg_deployment g in
  let issued := eg_issued_at_unix_ms g in
  state ← gets xw_state;
  cf ← gets xw_config;
  _ ← raise (reject (bool_decide (ecf_max_attempts cf ≤ N.of_nat (size (es_attempts state))))
        ExCapacity);
  registered ← raise (find_deployment state (dr_deployment (sr_payload deployment))
                        (ExUnauthorized "grant deployment is not registered"));
  registered_hash ← raise (ex_invalid (canonical_hash registered));
  deployment_hash ← raise (ex_invalid (canonical_hash deployment));
  _ ← raise (reject (bool_decide (registered_hash ≠ deployment_hash))
        (ExUnauthorized "grant deployment differs from the durable registry pin"));
  '(target_id, target) ← raise (exact_local_target g);
  answer ← require_live_target target_id (sr_payload deployment);
  match answer with
  | Err error =>
      _ ← ensure_append_capacity (durable_record_reservations state);
      failed ← sign_liveness_refusal grant 1 error;
      _ ← commit (XRefuse grant failed);
      mret (ClaimTerminal failed)
  | Ok _ =>
      _ ← ensure_append_capacity (N.min (durable_record_reservations state + 2) usize_MAX);
      receipt ← sign_receipt grant 1 issued XClaimed;
      _ ← commit (XClaim grant receipt);
      answer ← require_live_target target_id (sr_payload deployment);
      match answer with
      | Err error => refuse_claimed grant error
      | Ok _ => start_claimed grant receipt target
      end
  end.

Definition claim (grant : SignedRecordV1 ExecutionGrantV1) : exM ClaimOutcome :=
  let g := sr_payload grant in
  state ← lock_healthy_state;
  _ ← raise (ex_invalid (SignedRecordV1_validate ExecutionGrantV1_validate grant));
  _ ← raise (ex_unauthorized (verify_execution_grant grant));
  _ ← raise (reject (negb (is_ok (verify_deployment_receipt (eg_deployment g))))
        (ExUnauthorized "invalid deployment receipt signature"));
  cf ← gets xw_config;
  let executor := dr_executor (sr_payload (eg_deployment g)) in
  _ ← raise (reject (bool_decide (executor ≠ ecf_executor cf))
        (ExInvalid ("grant targets executor `" +:+ executor +:+ "`, this executor is `"
                    +:+ ecf_executor cf +:+ "`")));
  grant_hash ← raise (ex_invalid (canonical_hash grant));
  _ ← raise (validate_home_fence state grant);
  let existing : option AttemptRecord := es_attempts state !! attempt_key (eg_attempt g) in
  match existing with
  | Some existing => claim_existing grant grant_hash existing
  | None => claim_new grant
  end.

(** *** Targets of an accepted attempt *)

Definition live_attempt_target (grant : SignedRecordV1 ExecutionGrantV1)
    (require_nonterminal : bool) : exM Address :=
  let g := sr_payload grant in
  let id := dr_deployment (sr_payload (eg_deployment g)) in
  state ← lock_healthy_state;
  _ ← (if require_nonterminal then
         attempt ← raise (find_attempt state (eg_attempt g));
         raise (reject (xa_terminal attempt) ExTerminal)
       else mret tt);
  deployment ← raise (find_deployment state id
        (ExUnauthorized "control grant deployment is no longer registered"));
  let differs := ExUnauthorized
        "control grant differs from the exact live deployment registration" in
  _ ← raise (reject (bool_decide (id ∈ es_deployment_tombstones state)) differs);
  registered_hash ← raise (ex_invalid (canonical_hash deployment));
  granted_hash ← raise (ex_invalid (canonical_hash (eg_deployment g)));
  _ ← raise (reject (bool_decide (registered_hash ≠ granted_hash)) differs);
  '(target_id, target) ← raise (exact_local_target g);
  answer ← require_live_target target_id (sr_payload (eg_deployment g));
  _ ← raise answer;
  mret target.
Definition live_control_target (grant : SignedRecordV1 ExecutionGrantV1) : exM Address :=
  live_attempt_target grant false.
Definition live_control_forward_target (grant : SignedRecordV1 ExecutionGrantV1) : exM Address :=
  live_attempt_target grant true.

(** *** Stages *)

(** The highest sequence of an observation and the receipt it already has. *)
Definition known_observation (stage : ExecutionStageV1) (a : AttemptRecord) :
    option (string * N * N * option (SignedRecordV1 ExecutionReceiptV1)) :=
  let at_index := fun (index : option nat) => index ≫= fun i => xa_receipts a !! i in
  match stage with
  | XProgress sequence _ =>
      Some ("progress", sequence, xa_highest_progress_sequence a,
            at_index (xa_progress_receipts a !! sequence))
  | XCheckpoint sequence _ =>
      Some ("checkpoint", sequence, xa_highest_checkpoint_sequence a,
            at_index (xa_checkpoint_receipts a !! sequence))
  | _ => None
  end.

(** The observation block of [record_stage]: the outcome of a duplicate. *)
Definition check_observation (stage : ExecutionStageV1) (a : AttemptRecord) :
    result ExecutorError (option RecordOutcome) :=
  match known_observation stage a with
  | None => Ok None
  | Some (kind, sequence, highest, existing) =>
      match existing with
      | Some existing =>
          if decide (ex_stage (sr_payload existing) = stage) then
            Ok (Some (RecordDuplicate existing))
          else Err (ExConflict (kind +:+ " sequence " +:+ dec sequence +:+ " changed contents"))
      | None =>
          _ ← reject (bool_decide (sequence ≤ highest))
                (ExConflict (kind +:+ " sequence " +:+ dec sequence +:+ " is not newer than "
                             +:+ dec highest));
          _ ← reject (bool_decide (MAX_ATTEMPT_OBSERVATIONS ≤ xa_observation_count a)) ExCapacity;
          Ok None
      end
  end.

(** The acknowledgment block. *)
Definition check_acknowledgment (attempt : AttemptId) (stage : ExecutionStageV1)
    (s : ExecutorState) : result ExecutorError (option RecordOutcome) :=
  match stage with
  | XControlAcknowledged control _ _ =>
      queued ← ok_or (es_controls s !! control_key attempt control)
                 (ExConflict ("control `" +:+ control +:+ "` was not durably queued"));
      match kr_acknowledged queued with
      | Some existing =>
          if decide (ex_stage (sr_payload existing) = stage) then
            Ok (Some (RecordDuplicate existing))
          else Err (ExConflict ("control `" +:+ control
                                +:+ "` received divergent acknowledgments"))
      | None => Ok None
      end
  | _ => Ok None
  end.

(** The terminal block. *)
Definition check_terminal (stage : ExecutionStageV1) (a : AttemptRecord) :
    result ExecutorError (option RecordOutcome) :=
  if xa_terminal a && negb (is_control_acknowledgment stage) then
    match last_receipt a with
    | Some last =>
        if decide (ex_stage (sr_payload last) = stage) then Ok (Some (RecordDuplicate last))
        else Err ExTerminal
    | None => Err ExTerminal
    end
  else Ok None.

(** The reservations a stage gives back. *)
Definition consumed_reservations (attempt : AttemptId) (stage : ExecutionStageV1)
    (a : AttemptRecord) (s : ExecutorState) : N :=
  (if negb (xa_terminal a) && stage_terminal stage then 1 else 0)
  + match stage with
    | XControlAcknowledged control _ _ =>
        match es_controls s !! control_key attempt control with
        | Some pending => if decide (kr_acknowledged pending = None) then 1 else 0
        | None => 0
        end
    | _ => 0
    end.

(** The tail of [record_stage]. *)
Definition record_new_stage (attempt : AttemptId) (stage : ExecutionStageV1)
    (observed_at_unix_ms : option N) (a : AttemptRecord) : exM RecordOutcome :=
  state ← gets xw_state;
  _ ← ensure_append_capacity
        (durable_record_reservations state - consumed_reservations attempt stage a state);
  receipt ← sign_receipt (xa_grant a) (N.of_nat (length (xa_receipts a)) + 1)
              observed_at_unix_ms stage;
  _ ← commit (XReceipt receipt);
  mret (Recorded receipt).

Definition record_stage (attempt : AttemptId) (stage : ExecutionStageV1)
    (observed_at_unix_ms : option N) : exM RecordOutcome :=
  state ← lock_healthy_state;
  _ ← raise (ex_invalid (ExecutionStageV1_validate stage));
  a ← raise (find_attempt state attempt);
  observed ← raise (check_observation stage a);
  match observed with
  | Some outcome => mret outcome
  | None =>
      acknowledged ← raise (check_acknowledgment attempt stage state);
      match acknowledged with
      | Some outcome => mret outcome
      | None =>
          finished ← raise (check_terminal stage a);
          match finished with
          | Some outcome => mret outcome
          | None => record_new_stage attempt stage observed_at_unix_ms a
          end
      end
  end.

(** *** Controls *)

(** A control that is already queued. *)
Definition requeue_control (request : SignedRecordV1 ExecutionControlV1) (request_hash : string)
    (existing : ControlRecord) : exM RecordOutcome :=
  let control := jc_control (sr_payload (xc_caller_request (sr_payload request))) in
  let latest := default (kr_queued existing) (kr_acknowledged existing) in
  _ ← raise (reject (bool_decide (kr_request_hash existing ≠ request_hash)
                     && negb (same_control_intent (kr_request existing) request))
        (ExConflict ("control `" +:+ control
                     +:+ "` was replayed with different signed contents")));
  if decide (kr_request_hash existing = request_hash) then mret (RecordDuplicate latest)
  else
    state ← gets xw_state;
    _ ← ensure_append_capacity (durable_record_reservations state);
    _ ← commit (XControl request (kr_queued existing));
    mret (RecordDuplicate latest).

(** A new control. *)
Definition queue_control (request : SignedRecordV1 ExecutionControlV1) (a : AttemptRecord) :
    exM RecordOutcome :=
  let caller := sr_payload (xc_caller_request (sr_payload request)) in
  state ← gets xw_state;
  _ ← raise (reject (bool_decide (MAX_JOB_CONTROLS ≤ xa_control_count a)) ExCapacity);
  _ ← raise (reject (xa_terminal a) ExTerminal);
  _ ← ensure_append_capacity (N.min (durable_record_reservations state + 1) usize_MAX);
  receipt ← sign_receipt (xa_grant a) (N.of_nat (length (xa_receipts a)) + 1)
              (jc_issued_at_unix_ms caller) (XControlQueued (jc_control caller));
  _ ← commit (XControl request receipt);
  mret (Recorded receipt).

Definition record_control_queued (attempt : AttemptId)
    (request : SignedRecordV1 ExecutionControlV1) : exM RecordOutcome :=
  let q := sr_payload request in
  let caller := sr_payload (xc_caller_request q) in
  state ← lock_healthy_state;
  _ ← raise (ex_unauthorized (verify_execution_control request));
  _ ← raise (reject (bool_decide (xc_attempt q ≠ attempt))
        (ExUnauthorized "control endorsement names a different attempt"));
  request_hash ← raise (ex_invalid (canonical_hash request));
  _ ← raise (validate_control_fence state request);
  a ← raise (find_attempt state attempt);
  _ ← raise (reject (bool_decide (xc_grant_hash q ≠ xa_grant_hash a)
                     || bool_decide (jh_home (jc_handle caller)
                                     ≠ eg_owner (sr_payload (xa_grant a))))
        (ExUnauthorized "control endorsement does not name the exact accepted attempt grant"));
  let existing : option ControlRecord :=
    es_controls state !! control_key attempt (jc_control caller) in
  match existing with
  | Some existing => requeue_control request request_hash existing
  | None => queue_control request a
  end.

(** *** Reads *)

Definition latest (attempt : AttemptId) : exM (SignedRecordV1 ExecutionReceiptV1) :=
  state ← lock_healthy_state;
  raise (ok_or (es_attempts state !! attempt_key attempt ≫= last_receipt) ExNotFound).

Definition grant (attempt : AttemptId) : exM (SignedRecordV1 ExecutionGrantV1) :=
  state ← lock_healthy_state;
  a ← raise (find_attempt state attempt);
  mret (xa_grant a).

Definition query (request : SignedRecordV1 ExecutionQueryV1) :
    exM (SignedRecordV1 ExecutionReceiptV1 * Address) :=
  let q := sr_payload request in
  state ← lock_healthy_state;
  _ ← raise (ex_unauthorized (verify_execution_query request));
  a ← raise (find_attempt state (eq_attempt q));
  receipt ← raise (ok_or (last_receipt a) ExNotFound);
  let g := sr_payload (xa_grant a) in
  _ ← raise (reject (bool_decide (eq_grant_hash q ≠ xa_grant_hash a)
                     || bool_decide (eq_attempt q ≠ eg_attempt g)
                     || bool_decide (at_home (eq_attempt q) ≠ eg_owner g))
        (ExUnauthorized "execution query does not name the exact accepted Home grant"));
  _ ← raise (validate_query_fence state request);
  target ← raise (map_err ExAddress (xv_query_home_target g q));
  let needs_fence :=
    match es_home_fences state !! at_home (eq_attempt q) with
    | None => true
    | Some fence =>
        bool_decide (hf_epoch fence < eq_home_epoch q)
        || (bool_decide (hf_epoch fence = eq_home_epoch q)
            && bool_decide (hf_route_sequence fence < eq_home_route_sequence q))
    end in
  _ ← (if needs_fence then
         _ ← ensure_append_capacity (durable_record_reservations state);
         commit (XHomeFence request)
       else mret tt);
  mret (receipt, target).

(** *** Opening *)

(** A recovered attempt whose call may have been made. *)
Definition is_ambiguous (a : AttemptRecord) : bool := negb (xa_terminal a) && negb (last_is_claimed a).

(** The stage that closes it. *)
Definition ambiguity_stage (delivery : DeliveryModeV1) : ExecutionStageV1 :=
  match delivery with
  | AtMostOnce => XIndeterminate EXECUTOR_RECOVERY_INDETERMINATE_REASON true
  | AtLeastOnce _ =>
      XFailed (VInline (JObject [("execution_may_have_occurred", JBool true);
                                 ("kind", JString EXECUTOR_RECOVERY_FAILURE_KIND)])) true
  end.

Definition close_ambiguous (a : AttemptRecord) : exM unit :=
  let g := sr_payload (xa_grant a) in
  state ← gets xw_state;
  _ ← ensure_append_capacity (durable_record_reservations state - 1);
  cf ← gets xw_config;
  grant_hash ← raise (ex_invalid (canonical_hash (xa_grant a)));
  receipt ← raise (ex_signing (SignedRecordV1_sign SCHEMA_EXECUTE_V1
    (mkExecutionReceiptV1 (eg_attempt g) grant_hash (ecf_executor cf)
       (N.of_nat (length (xa_receipts a)) + 1) None (ambiguity_stage (eg_delivery g))) xv_signer));
  commit (XReceipt receipt).

Fixpoint close_all (attempts : list AttemptRecord) : exM unit :=
  match attempts with
  | [] => mret tt
  | a :: attempts => _ ← close_ambiguous a; close_all attempts
  end.

(** The counters and the capacity of the journal. *)
Definition check_reservations : exM unit :=
  state ← gets xw_state;
  _ ← raise (validate_reservation_counters state);
  fun w =>
    (remaining ← ex_journal (remaining_records (xw_journal w) (xw_inner w));
     reject (bool_decide (remaining < durable_record_reservations state)) ExCapacity, w).

(** [open_with_liveness], after the journal is open and replayed. *)
Definition recover_executor : exM unit :=
  _ ← check_reservations;
  state ← gets xw_state;
  cf ← gets xw_config;
  _ ← raise (reject (bool_decide (ecf_max_attempts cf < N.of_nat (size (es_attempts state))))
        ExCapacity);
  _ ← raise (reject (bool_decide (ecf_max_deployments cf < N.of_nat (size (es_deployments state))))
        ExCapacity);
  _ ← close_all (List.filter is_ambiguous (attempts_in_order state).*2);
  check_reservations.

Definition config_ok (cf : ExecutorConfig) : result ExecutorError unit :=
  _ ← reject (is_blank (ecf_executor cf) || bool_decide (ecf_max_attempts cf = 0)
              || bool_decide (ecf_max_deployments cf = 0) || is_blank (ecf_realm cf)
              || is_blank (ecf_node cf) || is_blank (ecf_executor_creature cf))
        (ExConfiguration "executor and max_attempts must be non-empty/non-zero");
  reject (bool_decide (as_public_key xv_signer ≠ ecf_executor cf))
    (ExConfiguration "executor identity must equal the injected signer public key").

Definition events (records : list (SignedRecordV1 (ChainEntry ExecutorLedgerRecord))) :
    list ExecutorLedgerRecord := map (fun record => ce_event (sr_payload record)) records.

(** [open_with_liveness]: the executor, and the files it leaves also when it fails. *)
Definition FunctionExecutor_open `{!JournalDecode ExecutorLedgerRecord} (oio : OpenIo)
    (cf : ExecutorConfig) (d : Disk) : result ExecutorError ExecWorld * Disk :=
  match config_ok cf with
  | Err e => (Err e, d)
  | Ok _ =>
      match open_with_schema oio EXECUTOR_JOURNAL_NAME EXECUTOR_CHAIN_SCHEMA xv_signer
              (ecf_journal_caps cf) d with
      | (Err e, d) => (Err (ExJournal e), d)
      | (Ok (journal, inner), d) =>
          match replay cf (as_public_key xv_signer) (events (in_records inner))
                  ExecutorState_default with
          | (Err e, _) => (Err e, d)
          | (Ok _, state) =>
              let w := mkExecWorld cf journal inner state d ExecutorRecoverySweep_default None
                         0 0 in
              match recover_executor w with
              | (Err e, w) => (Err e, xw_disk w)
              | (Ok _, w) => (Ok w, xw_disk w)
              end
          end
      end
  end.
End operations.
