(* ===== verification/ExecServe.v ===== *)
(** * The executor as a creature

    [Creature for FunctionExecutor] of
    [cosmos/creatures/function-executor/src/lib.rs]: the handlers of the
    deployment, execution and call schemas, and the bounded sweep that replays
    receipts after a restart.

    The encodings of the message unions are the class [ExecutorCodec]. *)

From stdpp Require Import sorting.
From S2P Require Import Prelude Serde GxShape GxHash FnCrypto FnTypes FnWire FnCustody FnMessages.
From S2P Require Import AetherAddress AetherEnvelope Journal HomeLedger HomeApi HomeServe.
From S2P Require Import ExecLedger Executor.

Definition EXECUTOR_RECOVERY_POKE_SCHEMA : string := "gawd.function.executor.recovery-poke.v1".
Definition EXECUTOR_RECOVERY_POKE_PAYLOAD : bytes := bytes_of_string "continue".

Class ExecutorCodec : Type := {
  xo_deploy :: SerdeJson FunctionDeployMessageV1;
  xo_execute :: SerdeJson ExecuteMessageV1;
  xo_call :: SerdeJson FunctionCallMessageV1
}.

(** ** Errors as messages *)

Definition ExecutorError_to_string (e : ExecutorError) : string :=
  match e with
  | ExConfiguration m => "executor configuration is invalid: " +:+ m
  | ExInvalid m => "invalid execution message: " +:+ m
  | ExUnauthorized m => "execution message is unauthorized: " +:+ m
  | ExNotFound => "attempt was not found"
  | ExConflict m => "attempt conflict: " +:+ m
  | ExCapacity => "executor capacity reached"
  | ExTerminal => "attempt is terminal"
  | ExAddress m => "cannot resolve execution address: " +:+ m
  | ExTargetUnavailable m => "deployment target is not live: " +:+ m
  | ExLiveness m => "deployment liveness check failed: " +:+ m
  | ExJournal e => JournalError_to_string e
  | ExSigning m => "signing failed: " +:+ m
  end.

Definition bound_reason (reason : string) : string := bound reason.

(** The code and the retry hint, the same in [execute_error_message] and
    [deploy_error]. *)
Definition executor_error_retryable (e : ExecutorError) : bool :=
  match e with
  | ExCapacity | ExJournal _ | ExTargetUnavailable _ | ExLiveness _ => true
  | _ => false
  end.
Definition executor_error_code (e : ExecutorError) : string :=
  match e with
  | ExUnauthorized _ => "unauthorized"
  | ExNotFound => "not_found"
  | ExConflict _ => "conflict"
  | ExCapacity => "capacity"
  | ExJournal _ => "storage"
  | ExTerminal => "terminal"
  | ExTargetUnavailable _ => "target_unavailable"
  | ExLiveness _ => "liveness_unavailable"
  | ExConfiguration _ | ExInvalid _ | ExAddress _ | ExSigning _ => "invalid"
  end.
Definition executor_protocol_error (e : ExecutorError) : ProtocolErrorV1 :=
  mkProtocolErrorV1 (executor_error_code e) (bound_reason (ExecutorError_to_string e))
    (executor_error_retryable e).
Definition execute_error_message (e : ExecutorError) : ExecuteMessageV1 :=
  EError (executor_protocol_error e).
Definition deploy_error (e : ExecutorError) : FunctionDeployMessageV1 :=
  DError (executor_protocol_error e).

Section dispatches.
  Context `{!ExecutorCodec}.

Definition execute_receipt_to (target : Address) (receipt : SignedRecordV1 ExecutionReceiptV1) :
    Dispatch :=
  with_schema (Dispatch_to target (to_bytes (EReceipt receipt))) SCHEMA_EXECUTE_V1.
Definition execute_error_to (target : Address) (error : ExecutorError) : Dispatch :=
  with_schema (Dispatch_to target (to_bytes (execute_error_message error))) SCHEMA_EXECUTE_V1.
Definition reply_execute_error (env : Envelope) (error : ExecutorError) : Dispatch :=
  with_schema (reply_to_env env (to_bytes (execute_error_message error))) SCHEMA_EXECUTE_V1.
Definition call_dispatch (target : Address) (call : FunctionCallV1) : Dispatch :=
  with_schema (Dispatch_to target (to_bytes (FCall call))) SCHEMA_CALL_V1.
Definition control_command (target : Address) (control : FunctionControlV1) : Dispatch :=
  with_schema (Dispatch_to target (to_bytes (FControl control))) SCHEMA_CALL_V1.
End dispatches.

(** ** Recovery work *)

Inductive AttemptRecoveryWork : Type :=
  | WorkResume (grant : SignedRecordV1 ExecutionGrantV1)
      (claimed : SignedRecordV1 ExecutionReceiptV1)
  | WorkReceipt (grant : SignedRecordV1 ExecutionGrantV1)
      (receipt : SignedRecordV1 ExecutionReceiptV1)
      (control : option (SignedRecordV1 ExecutionControlV1)).

Definition attempt_key_lt (a b : AttemptKey) : Prop := ¬ attempt_key_le b a.
#[export] Instance attempt_key_lt_dec : RelDecision attempt_key_lt.
Proof. unfold attempt_key_lt. intros a b. apply _. Defined.

(** A receipt of an attempt with its index and recovery ordinal. *)
Record SweepItem : Type := mkSweepItem {
  si_key : AttemptKey;
  si_attempt : AttemptRecord;
  si_index : nat;
  si_receipt : SignedRecordV1 ExecutionReceiptV1;
  si_ordinal : N
}.
Definition sweep_items (s : ExecutorState) : list SweepItem :=
  flat_map (fun '(key, a) =>
      imap (fun index '(receipt, ordinal) => mkSweepItem key a index receipt ordinal)
        (zip (xa_receipts a) (xa_receipt_recovery_ordinals a)))
    (attempts_in_order s).

(** The item lies in the range and is not skipped. *)
Definition sweep_eligible (sweep : ExecutorRecoverySweep) (item : SweepItem) : bool :=
  let sequence := ex_sequence (sr_payload (si_receipt item)) in
  bool_decide (si_ordinal item ≤ xr_receipt_high_water_ordinal sweep)
  && match xr_receipt_after sweep with
     | None => true
     | Some (after_key, after_sequence) =>
         bool_decide (attempt_key_le after_key (si_key item))
         && negb (bool_decide (attempt_key_lt (si_key item) after_key)
                  || (bool_decide (si_key item = after_key)
                      && bool_decide (sequence ≤ after_sequence)))
     end.

Definition recovery_work (s : ExecutorState) (item : SweepItem) : AttemptRecoveryWork :=
  let a := si_attempt item in
  let stage := ex_stage (sr_payload (si_receipt item)) in
  if Nat.eqb (si_index item + 1) (length (xa_receipts a)) && negb (xa_terminal a)
     && bool_decide (stage = XClaimed) then
    WorkResume (xa_grant a) (si_receipt item)
  else
    let control :=
      match stage with
      | XControlQueued control =>
          if xa_terminal a then None
          else
            pending ← es_controls s !! (si_key item, control);
            if decide (kr_acknowledged pending = None) then Some (kr_request pending) else None
      | _ => None
      end in
    WorkReceipt (xa_grant a) (si_receipt item) control.

Section serve.
  Context `{!Sha256} `{!JsonText} `{!Ed25519} `{!WireSerde} `{!CustodySerde} `{!MessageSerde}.
  Context `{!ExecSerde} `{!ExecutorServices} `{!ExecutorCodec}.
  Context (io : nat → AppendIo) (live : nat → Liveness).

Definition set_remaining (n : N) (sweep : ExecutorRecoverySweep) : ExecutorRecoverySweep :=
  mkExecutorRecoverySweep (xr_receipt_high_water_ordinal sweep) n (xr_receipt_after sweep)
    (xr_active sweep).

Definition take_next_receipt_recovery : exM (option AttemptRecoveryWork) :=
  state ← lock_healthy_state;
  sweep ← gets xw_sweep;
  if negb (xr_active sweep) || bool_decide (xr_receipts_remaining sweep = 0) then mret None
  else
    match List.find (sweep_eligible sweep) (sweep_items state) with
    | None =>
        _ ← modify (set_executor_sweep (set_remaining 0 sweep));
        mret None
    | Some item =>
        _ ← modify (set_executor_sweep (mkExecutorRecoverySweep
              (xr_receipt_high_water_ordinal sweep) (xr_receipts_remaining sweep - 1)
              (Some (si_key item, ex_sequence (sr_payload (si_receipt item)))) (xr_active sweep)));
        mret (Some (recovery_work state item))
    end.

Definition recovery_home_target (grant : SignedRecordV1 ExecutionGrantV1) : exM Address :=
  let g := sr_payload grant in
  state ← lock_healthy_state;
  cf ← gets xw_config;
  let by_grant := raise (map_err ExAddress (xv_home_target g)) in
  match es_home_fences state !! at_home (eg_attempt g) with
  | Some fence =>
      if fence_covers fence (eg_home_epoch g) (eg_home_route_sequence g) then
        coordinator ← raise (map_err ExAddress (parse_address (hf_home_coordinator fence)));
        raise (map_err ExAddress (routed_address (ecf_realm cf) (ecf_node cf)
                 (hf_home_realm fence) (hf_home_node fence) coordinator))
      else by_grant
  | None => by_grant
  end.

(** What a claim says to its Home and its target. *)
Definition claimed_dispatches (home : Address)
    (receipts : list (SignedRecordV1 ExecutionReceiptV1)) (call : FunctionCallV1)
    (target : Address) : list Dispatch :=
  map (execute_receipt_to home) receipts ++ [call_dispatch target call].

(** [if let (Ok(target), Ok(control)) = (forward target, command)]: both are
    computed. *)
Definition forward_control (grant : SignedRecordV1 ExecutionGrantV1)
    (control : SignedRecordV1 ExecutionControlV1) (w : ExecWorld) : list Dispatch * ExecWorld :=
  let (target, w) := live_control_forward_target live grant w in
  let (command, w) := function_control grant control w in
  (match target, command with
   | Ok target, Ok command => [control_command target command]
   | _, _ => []
   end, w).

(** The same in [dispatch_attempt_recovery], where a missing target skips the
    command. *)
Definition forward_recovered (grant : SignedRecordV1 ExecutionGrantV1)
    (control : SignedRecordV1 ExecutionControlV1) (w : ExecWorld) : list Dispatch * ExecWorld :=
  match live_control_forward_target live grant w with
  | (Err _, w) => ([], w)
  | (Ok target, w) =>
      match function_control grant control w with
      | (Err _, w) => ([], w)
      | (Ok command, w) => ([control_command target command], w)
      end
  end.

Definition dispatch_attempt_recovery (work : AttemptRecoveryWork) (w : ExecWorld) :
    list Dispatch * ExecWorld :=
  let grant := match work with WorkResume grant _ | WorkReceipt grant _ _ => grant end in
  match recovery_home_target grant w with
  | (Err _, w) => ([], w)
  | (Ok home, w) =>
      match work with
      | WorkResume grant claimed =>
          match claim io live grant w with
          | (Ok (ClaimClaimed receipts call target), w) =>
              (claimed_dispatches home receipts call target, w)
          | (Ok (ClaimDuplicate receipt), w) =>
              (if decide (ex_sequence (sr_payload claimed) < ex_sequence (sr_payload receipt)) then
                 [execute_receipt_to home claimed; execute_receipt_to home receipt]
               else [execute_receipt_to home receipt], w)
          | (Ok (ClaimTerminal receipt), w) =>
              ([execute_receipt_to home claimed; execute_receipt_to home receipt], w)
          | (Err _, w) => ([], w)
          end
      | WorkReceipt grant receipt control =>
          let (forwarded, w) :=
            match control with
            | Some control => forward_recovered grant control w
            | None => ([], w)
            end in
          (execute_receipt_to home receipt :: forwarded, w)
      end
  end.

Definition operational (w : ExecWorld) : bool := in_healthy (xw_inner w).

(** The loop of [continue_recovery_sweep]; [None] is its early return. Each round
    takes a receipt off the remaining ones, so they are fuel enough. *)
Fixpoint sweep_loop (fuel : nat) (dispatches : list Dispatch) (w : ExecWorld) :
    option (list Dispatch) * ExecWorld :=
  match fuel with
  | O => (Some dispatches, w)
  | S fuel =>
      if decide (xr_receipts_remaining (xw_sweep w) = 0) then (Some dispatches, w)
      else if decide (MAX_EXECUTOR_RECOVERY_DISPATCHES - N.of_nat (length dispatches) < 3) then
        (Some dispatches, w)
      else
        match take_next_receipt_recovery w with
        | (Err _, w) => (None, w)
        | (Ok None, w) => (Some dispatches, w)
        | (Ok (Some work), w) =>
            let (more, w) := dispatch_attempt_recovery work w in
            if operational w then sweep_loop fuel (dispatches ++ more) w else (None, w)
        end
  end.

Definition recovery_poke_dispatch (w : ExecWorld) : option Dispatch :=
  me ← xw_me w;
  Some (with_schema (Dispatch_to (ACreature me) EXECUTOR_RECOVERY_POKE_PAYLOAD)
          EXECUTOR_RECOVERY_POKE_SCHEMA).

Definition continue_recovery_sweep (w : ExecWorld) : Outcome * ExecWorld :=
  if negb (operational w) then (Outcome_none, w)
  else
    match sweep_loop (S (N.to_nat (xr_receipts_remaining (xw_sweep w)))) [] w with
    | (None, w) => (Outcome_none, w)
    | (Some dispatches, w) =>
        let sweep := xw_sweep w in
        let has_more := negb (bool_decide (xr_receipts_remaining sweep = 0)) in
        let w := set_executor_sweep (mkExecutorRecoverySweep
                   (xr_receipt_high_water_ordinal sweep) (xr_receipts_remaining sweep)
                   (xr_receipt_after sweep) has_more) w in
        let poke := if has_more then option_list (recovery_poke_dispatch w) else [] in
        (if operational w then mkOutcome (dispatches ++ poke) None else Outcome_none, w)
    end.

(** [recovery_dispatches]: start a sweep over the receipts recorded so far. *)
Definition recovery_dispatches (w : ExecWorld) : Outcome * ExecWorld :=
  match lock_healthy_state w with
  | (Err _, w) => (Outcome_none, w)
  | (Ok state, w) =>
      let receipts_remaining :=
        foldl (fun n kv => n + N.of_nat (length (xa_receipts kv.2))) 0 (attempts_in_order state) in
      continue_recovery_sweep (set_executor_sweep (mkExecutorRecoverySweep
        (es_next_receipt_recovery_ordinal state) receipts_remaining None
        (negb (bool_decide (receipts_remaining = 0)))) w)
  end.

Definition is_authenticated_recovery_poke (env : Envelope) (w : ExecWorld) : bool :=
  match xw_me w with
  | None => false
  | Some me =>
      bool_decide (hd_schema (ev_header env) = EXECUTOR_RECOVERY_POKE_SCHEMA)
      && bool_decide (hd_origin (ev_header env) = None)
      && bool_decide (hd_from (ev_header env) = ACreature me)
      && bool_decide (hd_to (ev_header env) = ACreature me)
      && bool_decide (ev_payload env = EXECUTOR_RECOVERY_POKE_PAYLOAD)
  end.

(** ** Handlers *)

(** [Ok(receipt) => send(receipt to home), Err(_) => none]. *)
Definition send_receipt (m : exM (SignedRecordV1 ExecutionReceiptV1 * Address)) (w : ExecWorld) :
    Outcome * ExecWorld :=
  match m w with
  | (Ok (receipt, target), w) => (Outcome_send (execute_receipt_to target receipt), w)
  | (Err _, w) => (Outcome_none, w)
  end.

Definition recorded_receipt (outcome : RecordOutcome) : SignedRecordV1 ExecutionReceiptV1 :=
  match outcome with Recorded receipt | RecordDuplicate receipt => receipt end.

(** The sender is the live target of the attempt's grant; the stage is recorded and
    its receipt goes to the Home of the grant. *)
Definition observe (env : Envelope) (grant : SignedRecordV1 ExecutionGrantV1)
    (attempt : AttemptId) (stage : ExecutionStageV1) :
    exM (SignedRecordV1 ExecutionReceiptV1 * Address) :=
  expected_target ← live_control_target live grant;
  _ ← raise (reject (bool_decide (hd_from (ev_header env) ≠ expected_target))
        (ExUnauthorized "function result sender does not match the pinned target"));
  outcome ← record_stage io attempt stage None;
  home ← recovery_home_target grant;
  mret (recorded_receipt outcome, home).

Definition result_stage (outcome : result ValueRefV1 ValueRefV1) : ExecutionStageV1 :=
  match outcome with Ok value => XSucceeded value | Err error => XFailed error false end.

(** [result]. *)
Definition on_result (env : Envelope) (r : FunctionResultV1) :
    exM (SignedRecordV1 ExecutionReceiptV1 * Address) :=
  _ ← ensure_operational;
  _ ← raise (ex_invalid (FunctionResultV1_validate r));
  granted ← grant (fr_attempt r);
  observe env granted (fr_attempt r) (result_stage (fr_outcome r)).

Definition on_function_observation (env : Envelope) (attempt : AttemptId)
    (stage : ExecutionStageV1) : ExecWorld → Outcome * ExecWorld :=
  send_receipt (_ ← ensure_operational; granted ← grant attempt; observe env granted attempt stage).

Definition on_control_result (env : Envelope) (attempt : AttemptId) (control : ControlId)
    (disposition : ControlDispositionV1) (detail : option string) :
    ExecWorld → Outcome * ExecWorld :=
  send_receipt
    (state ← lock_healthy_state;
     _ ← raise (reject (bool_decide (es_controls state !! control_key attempt control = None))
           ExNotFound);
     granted ← grant attempt;
     observe env granted attempt (XControlAcknowledged control disposition detail)).

(** The attempt is terminal. *)
Definition attempt_terminal (attempt : AttemptId) : exM bool :=
  state ← lock_healthy_state;
  a ← raise (find_attempt state attempt);
  mret (xa_terminal a).

(** [on_control], once the control is recorded. *)
Definition after_control (granted : SignedRecordV1 ExecutionGrantV1)
    (request : SignedRecordV1 ExecutionControlV1)
    (receipt : SignedRecordV1 ExecutionReceiptV1) (w : ExecWorld) : Outcome * ExecWorld :=
  let should_forward :=
    match ex_stage (sr_payload receipt) with XControlQueued _ => true | _ => false end in
  match attempt_terminal (xc_attempt (sr_payload request)) w with
  | (Err _, w) => (Outcome_none, w)
  | (Ok terminal, w) =>
      match (if terminal : bool then
               raise (map_err ExAddress
                        (xv_control_home_target (sr_payload granted) (sr_payload request)))
             else recovery_home_target granted) w with
      | (Err _, w) => (Outcome_none, w)
      | (Ok home, w) =>
          let (forwarded, w) :=
            if should_forward && negb terminal then forward_control granted request w
            else ([], w) in
          (if operational w then
             mkOutcome (execute_receipt_to home receipt :: forwarded) None
           else Outcome_none, w)
      end
  end.

Definition on_control (env : Envelope) (request : SignedRecordV1 ExecutionControlV1)
    (w : ExecWorld) : Outcome * ExecWorld :=
  let q := sr_payload request in
  let refuse error := Outcome_send (reply_execute_error env error) in
  if negb (operational w) then (Outcome_none, w)
  else if negb (is_ok (verify_execution_control request)) then
    (refuse (ExUnauthorized "invalid control signature"), w)
  else
    match grant (xc_attempt q) w with
    | (Err error, w) => (refuse error, w)
    | (Ok granted, w) =>
        if bool_decide (eg_owner (sr_payload granted)
                        ≠ jh_home (jc_handle (sr_payload (xc_caller_request q))))
           || negb match canonical_hash granted with
                   | Ok hash => bool_decide (hash = xc_grant_hash q)
                   | Err _ => false
                   end
        then
          (refuse (ExUnauthorized
             "control endorsement does not match the exact accepted attempt grant"), w)
        else
          match record_control_queued io (xc_attempt q) request w with
          | (Err error, w) => (refuse error, w)
          | (Ok outcome, w) =>
              if negb (operational w) then (Outcome_none, w)
              else after_control granted request (recorded_receipt outcome) w
          end
    end.

(** [ExecuteMessageV1::Grant]. *)
Definition on_grant (granted : SignedRecordV1 ExecutionGrantV1) (w : ExecWorld) :
    Outcome * ExecWorld :=
  let (claimed, w) := claim io live granted w in
  match recovery_home_target granted w with
  | (Err _, w) => (Outcome_none, w)
  | (Ok home, w) =>
      (match claimed with
       | Ok (ClaimClaimed receipts call target) =>
           mkOutcome (claimed_dispatches home receipts call target) None
       | Ok (ClaimDuplicate receipt) | Ok (ClaimTerminal receipt) =>
           Outcome_send (execute_receipt_to home receipt)
       | Err error => Outcome_send (execute_error_to home error)
       end, w)
  end.

(** A response to a deployment message. *)
Definition deploy_response {A} (m : exM A) (ok : A → FunctionDeployMessageV1) (w : ExecWorld) :
    option FunctionDeployMessageV1 * ExecWorld :=
  match m w with
  | (Ok a, w) => (Some (ok a), w)
  | (Err error, w) => (Some (deploy_error error), w)
  end.
Definition on_deploy (env : Envelope) (message : FunctionDeployMessageV1) (w : ExecWorld) :
    Outcome * ExecWorld :=
  let (response, w) :=
    match message with
    | DRegister request => deploy_response (register io live request) DRegistered w
    | DLookup query => deploy_response (deployments live query) DDeployments w
    | DUndeploy request => deploy_response (undeploy io request) DUndeployed w
    | DResolve _ | DResolved _ | DRegistered _ | DDeployments _ | DUndeployed _ | DError _ =>
        (None, w)
    end in
  (match response with
   | Some response =>
       Outcome_send (with_schema (reply_to_env env (to_bytes response)) SCHEMA_FUNCTION_DEPLOY_V1)
   | None => Outcome_none
   end, w).

Definition on_execute (env : Envelope) (message : ExecuteMessageV1) (w : ExecWorld) :
    Outcome * ExecWorld :=
  match message with
  | EGrant granted => on_grant granted w
  | EQuery request => send_receipt (query io request) w
  | EControl request => on_control env request w
  | EReceipt _ | EError _ => (Outcome_none, w)
  end.

Definition on_call (env : Envelope) (message : FunctionCallMessageV1) (w : ExecWorld) :
    Outcome * ExecWorld :=
  match message with
  | FResult r => send_receipt (on_result env r) w
  | FProgress attempt sequence progress =>
      on_function_observation env attempt (XProgress sequence progress) w
  | FCheckpoint attempt sequence checkpoint =>
      on_function_observation env attempt (XCheckpoint sequence checkpoint) w
  | FControlResult attempt control disposition detail =>
      on_control_result env attempt control disposition detail w
  | FCall _ | FControl _ => (Outcome_none, w)
  end.

(** A message of a schema, or nothing when it does not decode. *)
Definition decoded {A} `{!SerdeJson A} (env : Envelope)
    (handler : A → ExecWorld → Outcome * ExecWorld) (w : ExecWorld) : Outcome * ExecWorld :=
  match from_slice (ev_payload env) with
  | Err _ => (Outcome_none, w)
  | Ok message => handler message w
  end.

(** [Creature::handle]. *)
Definition FunctionExecutor_handle (env : Envelope) (w : ExecWorld) : Outcome * ExecWorld :=
  let schema := hd_schema (ev_header env) in
  if decide (schema = EXECUTOR_RECOVERY_POKE_SCHEMA) then
    if is_authenticated_recovery_poke env w then continue_recovery_sweep w else (Outcome_none, w)
  else if negb (operational w) then (Outcome_none, w)
  else if decide (MAX_JOB_MESSAGE_BYTES < blen (ev_payload env)) then (Outcome_none, w)
  else
    let (outcome, w) :=
      if decide (schema = SCHEMA_FUNCTION_DEPLOY_V1) then decoded env (on_deploy env) w
      else if decide (schema = SCHEMA_EXECUTE_V1) then decoded env (on_execute env) w
      else if decide (schema = SCHEMA_CALL_V1) then decoded env (on_call env) w
      else (Outcome_none, w) in
    (if operational w then outcome else Outcome_none, w).

(** [Creature::bind]: what it emits. *)
Definition bind_config (me : N) (cf : ExecutorConfig) : ExecutorConfig :=
  mkExecutorConfig (ecf_executor cf) (ecf_max_attempts cf) (ecf_realm cf) (ecf_node cf) (dec me)
    (ecf_max_deployments cf) (ecf_journal_caps cf).
Definition FunctionExecutor_bind (me : N) (w : ExecWorld) : list Dispatch * ExecWorld :=
  let w := mkExecWorld (bind_config me (xw_config w)) (xw_journal w) (xw_inner w) (xw_state w)
             (xw_disk w) (xw_sweep w) (Some me) (xw_appends w) (xw_checks w) in
  let (outcome, w) := recovery_dispatches w in
  (out_dispatches outcome, w).
End serve.
