(* ===== verification/ExecSample.v ===== *)
(** * A concrete executor

    The toy cryptography of [FnWire], an executor with an empty journal, a
    registration and a grant for it, and their encodings. Witnesses run the
    definitions of the executor on these. *)

From S2P Require Import Prelude Serde GxShape GxHash FnCrypto FnTypes FnWire FnCustody FnMessages.
From S2P Require Import AetherAddress AetherEnvelope Journal HomeLedger HomeApi HomeApiLaws HomeServe.
From S2P Require Import ExecLedger Executor ExecServe.

Module exec_sample.
Definition null_exec : ExecSerde := @Build_ExecSerde null_value null_value null_value.
#[local] Existing Instances zero_sha blank_text toy_ed25519 null_serde null_custody
  api_sample.null_messages null_exec.

Definition services : ExecutorServices :=
  {| xv_signer := api_sample.key_signer sample_executor;
     xv_function_target := string_function_target;
     xv_home_target := string_home_target;
     xv_query_home_target := string_query_home_target;
     xv_control_home_target := string_control_home_target;
     xv_register := fun _ => Ok tt;
     xv_undeploy := fun _ _ => Ok tt;
     xv_debug_address := fun _ => "" |}.
#[local] Existing Instance services.

Definition io : nat → AppendIo := fun _ => Journal.sample.io.
Definition live : nat → Liveness := fun _ _ _ => Ok true.
Definition dead : nat → Liveness := fun _ _ _ => Ok false.

Definition caps : JournalCaps := mkJournalCaps 100 100000.
Definition config : ExecutorConfig := mkExecutorConfig sample_executor 4 "r" "n" "3" 4 caps.
Definition journal : Journal := mkJournal xv_signer EXECUTOR_CHAIN_SCHEMA caps.
Definition fresh : ExecWorld :=
  mkExecWorld config journal (mkInner [] GENESIS true) ExecutorState_default
    Journal.sample.empty_disk ExecutorRecoverySweep_default (Some 3) 0 0.

(** ** Messages *)

Definition deployment_id : DeploymentId :=
  match derive_deployment_id sample_function zero_digest "r" "n" "4" with
  | Ok id => id
  | Err _ => ""
  end.
Definition authorization : SignedRecordV1 DeploymentRequestV1 :=
  sample_sign SCHEMA_FUNCTION_DEPLOY_V1 sample_root
    (mkDeploymentRequestV1 sample_root (SelectId sample_function) "r" (Some "n") [] None).
Definition registration : SignedRecordV1 DeploymentRegistrationV1 :=
  sample_sign SCHEMA_FUNCTION_DEPLOY_V1 sample_root
    (mkDeploymentRegistrationV1 authorization api_sample.resolution deployment_id sample_function
       zero_digest "4" []).
Definition deployment : SignedRecordV1 DeploymentReceiptV1 :=
  sample_sign SCHEMA_FUNCTION_DEPLOY_V1 sample_executor
    (mkDeploymentReceiptV1 deployment_id sample_function zero_digest "r" "n" sample_executor "3" "4"
       [] None).
Definition granted : SignedRecordV1 ExecutionGrantV1 :=
  sample_sign SCHEMA_EXECUTE_V1 (sample_epoch_key 1)
    (mkExecutionGrantV1 sample_attempt zero_digest 1 1 "r" "n" "7" sample_root sample_genesis
       sample_function deployment (VInline JNull) AtMostOnce 1 None None).

(** ** Encodings *)

(** The digits of a positive number. *)
Fixpoint digits (p : positive) : bytes :=
  match p with
  | xH => []
  | xO p => Byte.x00 :: digits p
  | xI p => Byte.x01 :: digits p
  end.
Fixpoint undigits (b : bytes) : positive :=
  match b with
  | [] => xH
  | Byte.x00 :: b => xO (undigits b)
  | _ :: b => xI (undigits b)
  end.
Lemma undigits_digits p : undigits (digits p) = p.
Proof. induction p as [p IH|p IH|]; cbn; by rewrite ?IH. Qed.

Definition call_with (key : AttemptKey) : FunctionCallV1 :=
  let attempt := mkAttemptId key.1.1 key.1.2 key.2 in
  mkFunctionCallV1 attempt sample_function (VInline JNull) granted
    (sample_sign SCHEMA_CALL_V1 sample_executor
       (mkExecutorDispatchV1 attempt zero_digest deployment_id "3" "4")).

(** A call is encoded by its attempt; the registration and the grant are the
    messages with an empty text. *)
Definition codec : ExecutorCodec :=
  {| xo_deploy := {| to_vec := fun _ => Ok []; from_slice := fun _ => Ok (DRegister registration) |};
     xo_execute := {| to_vec := fun _ => Ok []; from_slice := fun _ => Ok (EGrant granted) |};
     xo_call :=
       {| to_vec := fun m =>
            match m with
            | FCall call => Ok (Byte.x02 :: digits (encode (attempt_key (fc_attempt call))))
            | _ => Ok []
            end;
          from_slice := fun b =>
            match b with
            | Byte.x02 :: b =>
                match decode (undigits b) with
                | Some key => Ok (FCall (call_with key))
                | None => Err "no attempt"
                end
            | _ => Err "no message"
            end |} |}.
#[local] Existing Instance codec.

Definition message (schema : string) : Envelope :=
  mkEnvelope (mkHeader (ACreature 7) (ACreature 3) None 1 [] 0 "" None None schema None) [].

(** After the registration, and after the grant. *)
Definition registered : Outcome * ExecWorld :=
  FunctionExecutor_handle io live (message SCHEMA_FUNCTION_DEPLOY_V1) fresh.
Definition called : Outcome * ExecWorld :=
  FunctionExecutor_handle io live (message SCHEMA_EXECUTE_V1) registered.2.

End exec_sample.
