(* ===== verification/ExecLaws.v ===== *)
(** * What an executor does to its ledger

    Every operation only ever adds durable records, the receipts of an attempt
    only grow, and the function call of an attempt is emitted at most once over
    all the lives of an executor. *)

From stdpp Require Import sorting.
From S2P Require Import Prelude Serde GxShape GxHash FnCrypto FnTypes FnWire FnCustody FnMessages.
From S2P Require Import AetherAddress AetherEnvelope Journal HomeLedger HomeApi HomeProtocol.
From S2P Require Import HomeServe ExecLedger Executor ExecServe.

(** ** Running a computation *)

(** [Q] holds of the result and of the state left behind. *)
Definition run {S E A} (m : stateR S E A) (Q : result E A → S → Prop) (s : S) : Prop :=
  Q (m s).1 (m s).2.

Section run.
  Context {S E : Type}.
  Implicit Types (s : S).

Lemma run_bind {A B} (m : stateR S E A) (f : A → stateR S E B) Q s :
  run m (fun r s' => match r with Ok a => run (f a) Q s' | Err e => Q (Err e) s' end) s →
  run (@mbind (stateR S E) stateR_bind _ _ f m) Q s.
Proof. unfold run, mbind, stateR_bind. by destruct (m s) as [[a|e] s']. Qed.
Lemma run_ret {A} (a : A) (Q : result E A → S → Prop) s :
  Q (Ok a) s → run (@mret (stateR S E) stateR_ret _ a) Q s.
Proof. done. Qed.
Lemma run_lift {A} (r : result E A) (Q : result E A → S → Prop) s :
  (∀ a, r = Ok a → Q (Ok a) s) → (∀ e, r = Err e → Q (Err e) s) → run (lift_result r) Q s.
Proof. unfold run. destruct r; cbn; auto. Qed.
Lemma run_gets {A} (f : S → A) (Q : result E A → S → Prop) s : Q (Ok (f s)) s → run (gets f) Q s.
Proof. done. Qed.
Lemma run_modify f (Q : result E unit → S → Prop) s : Q (Ok tt) (f s) → run (modify f) Q s.
Proof. done. Qed.
Lemma run_mono {A} (m : stateR S E A) (P Q : result E A → S → Prop) s :
  run m P s → (∀ r s', P r s' → Q r s') → run m Q s.
Proof. unfold run. auto. Qed.
End run.

(** Symbolic execution: [err] closes the failing branches. *)
Ltac run_step err :=
  lazymatch goal with
  | |- run (_ ≫= _) _ _ => apply run_bind
  | |- run (check (reject _ _)) _ _ =>
      apply run_lift; [let H := fresh "N" in intros ? H; apply reject_Ok in H | intros ? _; err]
  | |- run (raise (reject _ _)) _ _ =>
      apply run_lift; [let H := fresh "N" in intros ? H; apply reject_Ok in H | intros ? _; err]
  | |- run (check _) _ _ =>
      apply run_lift; [let H := fresh "E" in intros ? H; try apply map_err_Ok in H;
                       try apply ok_or_Ok in H | intros ? _; err]
  | |- run (raise _) _ _ =>
      apply run_lift; [let H := fresh "E" in intros ? H; try apply map_err_Ok in H;
                       try apply ok_or_Ok in H | intros ? _; err]
  | |- run (mret _) _ _ => apply run_ret
  | |- run (gets _) _ _ => apply run_gets
  | |- run current _ _ => apply run_gets
  | |- run (modify _) _ _ => apply run_modify
  | |- run (let '(_, _) := ?x in _) _ _ => destruct x eqn:?
  | |- run (match ?x with _ => _ end) _ _ => destruct x eqn:?
  end; cbv beta iota zeta.
Ltac run_go err := repeat (run_step err).

Ltac destruct_units := repeat match goal with u : () |- _ => destruct u end.

(** ** Receipts only grow *)

(** Each attempt keeps its grant, and its receipts are a prefix of the new ones. *)
Definition grows (s s' : ExecutorState) : Prop :=
  ∀ k a, es_attempts s !! k = Some a →
    ∃ a', es_attempts s' !! k = Some a' ∧ xa_grant a' = xa_grant a
          ∧ xa_receipts a `prefix_of` xa_receipts a'.

#[export] Instance grows_preorder : PreOrder grows.
Proof.
  split.
  - intros s k a Ha. by exists a.
  - intros s1 s2 s3 G1 G2 k a (a2 & H2 & E2 & P2)%G1. apply G2 in H2 as (a3 & H3 & E3 & P3).
    exists a3. split_and!; [done|congruence|by etrans].
Qed.

Lemma grows_same s s' : es_attempts s' = es_attempts s → grows s s'.
Proof. intros E k a Ha. exists a. by rewrite E. Qed.

Lemma grows_update s k f a :
  es_attempts s !! k = Some a → xa_grant (f a) = xa_grant a →
  xa_receipts a `prefix_of` xa_receipts (f a) → grows s (set_attempts <[k := f a]> s).
Proof.
  intros Ha Hg Hp k' a' Ha'. cbn. destruct (decide (k' = k)) as [->|Hne].
  - exists (f a). rewrite lookup_insert_eq. by simplify_eq.
  - exists a'. by rewrite lookup_insert_ne.
Qed.
Lemma grows_new s k a : es_attempts s !! k = None → grows s (set_attempts <[k := a]> s).
Proof.
  intros Hk k' a' Ha'. cbn. exists a'. rewrite lookup_insert_ne; [done|congruence].
Qed.

Create HintDb keeps.

Section growth.
  Context `{!Sha256} `{!JsonText} `{!Ed25519} `{!WireSerde} `{!CustodySerde} `{!MessageSerde}.
  Context `{!ExecSerde}.

(** The computation does not touch the attempts. *)
Definition keeps {A} (m : execM A) : Prop := ∀ s, es_attempts (m s).2 = es_attempts s.

Lemma exec_keeps_bind {A B} (m : execM A) (f : A → execM B) :
  keeps m → (∀ a, keeps (f a)) → keeps (m ≫= f).
Proof.
  intros Hm Hf s. unfold mbind, execM_bind, stateR_bind. specialize (Hm s).
  destruct (m s) as [[a|e] s']; [|done]. by rewrite Hf.
Qed.
Lemma keeps_check {A} (r : result ExecutorError A) : keeps (check r).
Proof. by intros s. Qed.
Lemma exec_keeps_gets {A} (f : ExecutorState → A) : keeps (gets f).
Proof. by intros s. Qed.
Lemma exec_keeps_ret {A} (a : A) : keeps (mret a).
Proof. by intros s. Qed.
Lemma exec_keeps_modify f : (∀ s, es_attempts (f s) = es_attempts s) → keeps (modify f).
Proof. intros Hf s. apply Hf. Qed.
#[local] Hint Resolve keeps_check exec_keeps_gets exec_keeps_ret : keeps.

Ltac keeps_go :=
  repeat (first [ progress auto with keeps | apply exec_keeps_bind; [|intros ?]
                | apply exec_keeps_modify; done | case_match | case_decide ]).

Lemma next_ordinal_keeps : keeps next_ordinal.
Proof. unfold next_ordinal. keeps_go. Qed.
Lemma reserve_attempt_keeps : keeps reserve_attempt.
Proof. unfold reserve_attempt. keeps_go. Qed.
Lemma release_attempt_keeps : keeps release_attempt.
Proof. unfold release_attempt. keeps_go. Qed.
Lemma reserve_control_keeps : keeps reserve_control.
Proof. unfold reserve_control. keeps_go. Qed.
Lemma release_control_keeps : keeps release_control.
Proof. unfold release_control. keeps_go. Qed.
Lemma advance_fence_keeps r : keeps (advance_fence r).
Proof. unfold advance_fence. keeps_go. Qed.
#[local] Hint Resolve next_ordinal_keeps reserve_attempt_keeps release_attempt_keeps
  reserve_control_keeps release_control_keeps advance_fence_keeps : keeps.
Lemma advance_home_fence_keeps grant : keeps (advance_home_fence grant).
Proof. unfold advance_home_fence, current. keeps_go. Qed.
Lemma advance_control_fence_keeps request : keeps (advance_control_fence request).
Proof. unfold advance_control_fence, current. keeps_go. Qed.
#[local] Hint Resolve advance_home_fence_keeps advance_control_fence_keeps : keeps.
Lemma apply_register_keeps receipt : keeps (apply_register receipt).
Proof. unfold apply_register, current. keeps_go. Qed.
Lemma apply_undeploy_keeps id : keeps (apply_undeploy id).
Proof. unfold apply_undeploy, current. keeps_go. Qed.
Lemma apply_fence_keeps query : keeps (apply_fence query).
Proof. unfold apply_fence, advance_query_fence, current. keeps_go. Qed.

Lemma run_keeps {A} (m : execM A) (Q : result ExecutorError A → ExecutorState → Prop) s :
  keeps m → (∀ r s', m s = (r, s') → es_attempts s' = es_attempts s → Q r s') → run m Q s.
Proof. intros Hm HQ. apply HQ; [apply surjective_pairing|apply Hm]. Qed.

Lemma run_update k e f (Q : result ExecutorError unit → ExecutorState → Prop) s a :
  es_attempts s !! k = Some a →
  Q (Ok tt) (set_attempts <[k := f a]> s) → run (update_attempt k e f) Q s.
Proof. intros Ha HQ. unfold update_attempt. apply run_bind, run_gets, run_bind. by rewrite Ha. Qed.

(** ** What a record does *)

(** The fences after a route is accepted. *)
Definition advanced (r : HomeRoute) (authority_hash : string) (s : ExecutorState) :
    gmap HomeId HomeFence :=
  if match es_home_fences s !! hx_home r with
     | Some fence => fence_covers fence (hx_epoch r) (hx_route_sequence r)
     | None => false
     end
  then es_home_fences s
  else <[hx_home r := mkHomeFence (hx_epoch r) (hx_route_sequence r) (hx_signer r) authority_hash
                        (hx_realm r) (hx_node r) (hx_coordinator r)]> (es_home_fences s).

(** An attempt after its next receipt, with its recovery ordinal. *)
Definition received (receipt : SignedRecordV1 ExecutionReceiptV1) (ordinal : N)
    (noted : AttemptRecord) : AttemptRecord :=
  let stage := ex_stage (sr_payload receipt) in
  push_ordinal ordinal (push_receipt receipt
    (set_terminal (xa_terminal noted || stage_terminal stage)
       (if is_observation stage then count_observation noted else noted))).

(** The control an acknowledgment answers. *)
Definition answered (receipt : SignedRecordV1 ExecutionReceiptV1) : option ControlKey :=
  match ex_stage (sr_payload receipt) with
  | XControlAcknowledged control _ _ => Some (control_key (ex_attempt (sr_payload receipt)) control)
  | _ => None
  end.
Definition acknowledge (receipt : SignedRecordV1 ExecutionReceiptV1) (c : ControlRecord) :
    ControlRecord :=
  mkControlRecord (kr_request_hash c) (kr_request c) (kr_queued c) (Some receipt).

(** The grant and the receipt that start an attempt. *)
Definition starts (record : ExecutorLedgerRecord) :
    option (SignedRecordV1 ExecutionGrantV1 * SignedRecordV1 ExecutionReceiptV1) :=
  match record with
  | XClaim grant receipt | XRefuse grant receipt => Some (grant, receipt)
  | _ => None
  end.

(** The state a record leaves when it applies. *)
Inductive effect (s : ExecutorState) : ExecutorLedgerRecord → ExecutorState → Prop :=
  | effect_register request receipt :
      let id := dr_deployment (sr_payload receipt) in
      id ∉ es_deployment_tombstones s →
      effect s (XRegister request receipt) (set_deployments <[id := receipt]> s)
  | effect_undeploy request deployment :
      effect s (XUndeploy request deployment)
        (add_tombstone deployment (set_deployments (delete deployment) s))
  | effect_known record grant receipt a :
      starts record = Some (grant, receipt) →
      es_attempts s !! attempt_key (eg_attempt (sr_payload grant)) = Some a →
      canonical_hash grant = Ok (xa_grant_hash a) →
      effect s record s
  | effect_claim record grant receipt hash authority_hash registered :
      let g := sr_payload grant in
      let key := attempt_key (eg_attempt g) in
      let n := es_next_receipt_recovery_ordinal s + 1 in
      starts record = Some (grant, receipt) →
      es_deployments s !! dr_deployment (sr_payload (eg_deployment g)) = Some registered →
      canonical_hash registered = canonical_hash (eg_deployment g) →
      canonical_hash grant = Ok hash →
      es_attempts s !! key = None →
      validate_home_fence s grant = Ok tt →
      canonical_hash (eg_authority g) = Ok authority_hash →
      n ≤ u64_MAX →
      effect s record
        (mkExecutorState (<[key := first_attempt grant hash receipt n]> (es_attempts s))
           (es_deployments s) (es_deployment_tombstones s)
           (advanced (grant_route grant) authority_hash s) (es_controls s) n
           (es_nonterminal_attempts s
            + if stage_terminal (ex_stage (sr_payload receipt)) then 0 else 1)
           (es_unacknowledged_controls s))
  | effect_control_same request receipt : effect s (XControl request receipt) s
  | effect_control_again request receipt existing request_hash authority_hash :
      let q := sr_payload request in
      let key := control_key (ex_attempt (sr_payload receipt))
                   (jc_control (sr_payload (xc_caller_request q))) in
      es_controls s !! key = Some existing → kr_queued existing = receipt →
      canonical_hash request = Ok request_hash →
      validate_control_fence s request = Ok tt →
      canonical_hash (xc_authority q) = Ok authority_hash →
      effect s (XControl request receipt)
        (mkExecutorState (es_attempts s) (es_deployments s) (es_deployment_tombstones s)
           (advanced (control_route request) authority_hash s)
           (<[key := mkControlRecord request_hash request (kr_queued existing)
                       (kr_acknowledged existing)]> (es_controls s))
           (es_next_receipt_recovery_ordinal s) (es_nonterminal_attempts s)
           (es_unacknowledged_controls s))
  | effect_control_new request receipt a request_hash authority_hash :
      let q := sr_payload request in
      let r := sr_payload receipt in
      let key := control_key (ex_attempt r) (jc_control (sr_payload (xc_caller_request q))) in
      let n := es_next_receipt_recovery_ordinal s + 1 in
      es_controls s !! key = None →
      es_attempts s !! attempt_key (ex_attempt r) = Some a →
      verify_execution_receipt receipt (xa_grant a) = Ok tt →
      ex_sequence r = N.of_nat (length (xa_receipts a)) + 1 → xa_terminal a = false →
      xa_control_count a < MAX_JOB_CONTROLS →
      canonical_hash request = Ok request_hash →
      validate_control_fence s request = Ok tt →
      canonical_hash (xc_authority q) = Ok authority_hash →
      n ≤ u64_MAX →
      effect s (XControl request receipt)
        (mkExecutorState
           (<[attempt_key (ex_attempt r)
              := push_ordinal n (count_control (push_receipt receipt a))]> (es_attempts s))
           (es_deployments s) (es_deployment_tombstones s)
           (advanced (control_route request) authority_hash s)
           (<[key := mkControlRecord request_hash request receipt None]> (es_controls s)) n
           (es_nonterminal_attempts s) (es_unacknowledged_controls s + 1))
  | effect_fence query authority_hash :
      validate_query_fence s query = Ok tt →
      canonical_hash (eq_authority (sr_payload query)) = Ok authority_hash →
      effect s (XHomeFence query)
        (mkExecutorState (es_attempts s) (es_deployments s) (es_deployment_tombstones s)
           (advanced (query_route query) authority_hash s) (es_controls s)
           (es_next_receipt_recovery_ordinal s) (es_nonterminal_attempts s)
           (es_unacknowledged_controls s))
  | effect_receipt receipt a noted :
      let r := sr_payload receipt in
      let stage := ex_stage r in
      let key := attempt_key (ex_attempt r) in
      let n := es_next_receipt_recovery_ordinal s + 1 in
      let asked := answered receipt ≫= fun k => es_controls s !! k in
      (∀ k, answered receipt = Some k → is_Some (es_controls s !! k)) →
      es_attempts s !! key = Some a →
      verify_execution_receipt receipt (xa_grant a) = Ok tt →
      ex_sequence r = N.of_nat (length (xa_receipts a)) + 1 →
      (xa_terminal a = true → is_control_acknowledgment stage = true) →
      (is_observation stage = true → xa_observation_count a < MAX_ATTEMPT_OBSERVATIONS) →
      note_observation stage a = Ok noted →
      n ≤ u64_MAX →
      let done := negb (xa_terminal a) && stage_terminal stage in
      let acked := match asked with
                   | Some c => bool_decide (kr_acknowledged c = None)
                   | None => false
                   end in
      (done = true → 1 ≤ es_nonterminal_attempts s) →
      (acked = true → 1 ≤ es_unacknowledged_controls s) →
      effect s (XReceipt receipt)
        (mkExecutorState (<[key := received receipt n noted]> (es_attempts s))
           (es_deployments s) (es_deployment_tombstones s) (es_home_fences s)
           match answered receipt, asked with
           | Some k, Some c => <[k := acknowledge receipt c]> (es_controls s)
           | _, _ => es_controls s
           end n
           (es_nonterminal_attempts s - if done then 1 else 0)
           (es_unacknowledged_controls s - if acked then 1 else 0)).

(** *** Running the parts *)

Definition with_fences (fences : gmap HomeId HomeFence) (s : ExecutorState) : ExecutorState :=
  mkExecutorState (es_attempts s) (es_deployments s) (es_deployment_tombstones s) fences
    (es_controls s) (es_next_receipt_recovery_ordinal s) (es_nonterminal_attempts s)
    (es_unacknowledged_controls s).

Lemma run_advance r (Q : result ExecutorError unit → ExecutorState → Prop) s :
  (∀ hash, canonical_hash (hx_authority r) = Ok hash →
           Q (Ok tt) (with_fences (advanced r hash s) s)) →
  (∀ e, Q (Err e) s) → run (advance_fence r) Q s.
Proof.
  intros Hok Herr. unfold advance_fence. do 4 (run_step ltac:(apply Herr)).
  specialize (Hok _ E). unfold advanced, with_fences in Hok.
  destruct (match es_home_fences s !! _ with Some _ => _ | None => _ end);
    run_step ltac:(apply Herr); [by destruct s|exact Hok].
Qed.

Lemma run_next (Q : result ExecutorError N → ExecutorState → Prop) s :
  let n := es_next_receipt_recovery_ordinal s + 1 in
  (n ≤ u64_MAX → Q (Ok n) (set_ordinal n s)) → (∀ e, Q (Err e) s) → run next_ordinal Q s.
Proof.
  intros n Hok Herr. unfold next_ordinal. run_go ltac:(apply Herr).
  apply try_from_Some in E as [<- Hle]. by apply Hok.
Qed.
Lemma run_reserve_attempt (Q : result ExecutorError unit → ExecutorState → Prop) s :
  Q (Ok tt) (set_nonterminal (es_nonterminal_attempts s + 1) s) → (∀ e, Q (Err e) s) →
  run reserve_attempt Q s.
Proof.
  intros Hok Herr. unfold reserve_attempt. run_go ltac:(apply Herr).
  by apply usize_checked_add_Some in E as [<- _].
Qed.
Lemma run_release_attempt (Q : result ExecutorError unit → ExecutorState → Prop) s :
  (1 ≤ es_nonterminal_attempts s → Q (Ok tt) (set_nonterminal (es_nonterminal_attempts s - 1) s)) →
  (∀ e, Q (Err e) s) → run release_attempt Q s.
Proof.
  intros Hok Herr. unfold release_attempt. run_go ltac:(apply Herr).
  apply usize_checked_sub_Some in E as [Hle <-]. by apply Hok.
Qed.
Lemma run_reserve_control (Q : result ExecutorError unit → ExecutorState → Prop) s :
  Q (Ok tt) (set_unacknowledged (es_unacknowledged_controls s + 1) s) → (∀ e, Q (Err e) s) →
  run reserve_control Q s.
Proof.
  intros Hok Herr. unfold reserve_control. run_go ltac:(apply Herr).
  by apply usize_checked_add_Some in E as [<- _].
Qed.
Lemma run_release_control (Q : result ExecutorError unit → ExecutorState → Prop) s :
  (1 ≤ es_unacknowledged_controls s →
   Q (Ok tt) (set_unacknowledged (es_unacknowledged_controls s - 1) s)) →
  (∀ e, Q (Err e) s) → run release_control Q s.
Proof.
  intros Hok Herr. unfold release_control. run_go ltac:(apply Herr).
  apply usize_checked_sub_Some in E as [Hle <-]. by apply Hok.
Qed.

(** A record applies with its effect, or fails having only added to the attempts. *)
Definition applies (s : ExecutorState) (record : ExecutorLedgerRecord)
    (r : result ExecutorError unit) (s' : ExecutorState) : Prop :=
  match r with Ok _ => effect s record s' | Err _ => grows s s' end.

Lemma run_register request receipt s :
  run (apply_register receipt) (applies s (XRegister request receipt)) s.
Proof.
  unfold apply_register. run_go ltac:(by apply grows_same); to_prop; by apply effect_register.
Qed.
Lemma run_undeploy request deployment s :
  run (apply_undeploy deployment) (applies s (XUndeploy request deployment)) s.
Proof. unfold apply_undeploy. run_go ltac:(by apply grows_same). apply effect_undeploy. Qed.
Lemma run_fence query s : run (apply_fence query) (applies s (XHomeFence query)) s.
Proof.
  unfold apply_fence, advance_query_fence. run_go ltac:(by apply grows_same).
  apply run_advance; [|by intros; apply grows_same]. intros hash Hh.
  eapply effect_fence; [|done]. by destruct a1.
Qed.

Lemma effect_to s record s1 s2 : effect s record s1 → s1 = s2 → effect s record s2.
Proof. by intros ? ->. Qed.

Lemma run_claim record grant receipt s :
  starts record = Some (grant, receipt) → run (apply_claim grant receipt) (applies s record) s.
Proof.
  intros Hs. unfold apply_claim. run_go ltac:(by apply grows_same).
  { to_prop. subst. by eapply effect_known. }
  unfold advance_home_fence. run_go ltac:(by apply grows_same).
  apply run_advance; [|by intros; apply grows_same]. intros hash Hh.
  apply run_bind, run_next; [|by intros; apply grows_same]. intros Hn.
  apply run_bind. to_prop. subst. destruct_units. destruct (stage_terminal _) eqn:Et.
  - apply run_ret, run_modify. eapply effect_to; [by eapply effect_claim; eauto; congruence|].
    rewrite Et. cbn. by rewrite N.add_0_r.
  - apply run_reserve_attempt; [|by intros; apply grows_same]. apply run_modify.
    eapply effect_to; [by eapply effect_claim; eauto; congruence|]. by rewrite Et.
Qed.


Lemma run_control request receipt s :
  run (apply_control request receipt) (applies s (XControl request receipt)) s.
Proof.
  unfold apply_control. run_go ltac:(by apply grows_same).
  - apply effect_control_same.
  - to_prop. unfold advance_control_fence. run_go ltac:(by apply grows_same).
    apply run_advance; [|by intros; apply grows_same]. intros hash Hh. run_go ltac:(done).
    destruct_units. eapply effect_to; [by eapply effect_control_again|done].
  - to_prop. unfold advance_control_fence. run_go ltac:(by apply grows_same).
    apply run_advance; [|by intros; apply grows_same]. intros hash Hh. apply run_bind.
    match goal with H : es_attempts s !! _ = Some ?a |- _ => rename a into at0; rename H into Ha end.
    eapply run_update; [exact Ha|]. cbv beta iota.
    assert (grows s (set_attempts <[attempt_key (ex_attempt (sr_payload receipt)) :=
              count_control (push_receipt receipt at0)]>
              (with_fences (advanced (control_route request) hash s) s))) as G.
    { apply (grows_update s _ (fun a => count_control (push_receipt receipt a))); [done..|].
      by apply prefix_app_r. }
    apply run_bind, run_next; [|by intros]. intros Hn. apply run_bind.
    eapply run_update; [cbn; apply lookup_insert_eq|]. cbv beta iota.
    set (s2 := set_attempts _ _).
    assert (grows s s2) as G2.
    { etrans; [exact G|].
      apply (grows_update (set_ordinal _ (set_attempts _ _)) _ (push_ordinal _)); [|done..].
      cbn. apply lookup_insert_eq. }
    apply run_bind, run_reserve_control; [|by intros]. apply run_modify. subst s2.
    destruct_units. eapply effect_to; [by eapply effect_control_new; eauto; lia|].
    unfold set_controls, set_unacknowledged, set_attempts, set_ordinal, with_fences. cbn.
    by rewrite insert_insert_eq.
Qed.

(** Noting an observation changes neither the grant nor the receipts. *)
Lemma note_observation_same stage a noted :
  note_observation stage a = Ok noted →
  xa_grant noted = xa_grant a ∧ xa_grant_hash noted = xa_grant_hash a
  ∧ xa_receipts noted = xa_receipts a
  ∧ xa_receipt_recovery_ordinals noted = xa_receipt_recovery_ordinals a
  ∧ xa_terminal noted = xa_terminal a ∧ xa_control_count noted = xa_control_count a
  ∧ xa_observation_count noted = xa_observation_count a.
Proof. unfold note_observation. intros E. split_cases; done. Qed.

Lemma received_receipts receipt n noted :
  xa_receipts (received receipt n noted) = xa_receipts noted ++ [receipt].
Proof. unfold received. cbn. by destruct (is_observation _). Qed.
Lemma received_grant receipt n noted : xa_grant (received receipt n noted) = xa_grant noted.
Proof. unfold received. cbn. by destruct (is_observation _). Qed.
Lemma received_before receipt n noted :
  received receipt n noted
  = push_ordinal n (push_receipt receipt
      (set_terminal (xa_terminal noted || stage_terminal (ex_stage (sr_payload receipt)))
         (if is_observation (ex_stage (sr_payload receipt)) then count_observation noted
          else noted))).
Proof. done. Qed.

(** The control lookup of [apply_receipt]. *)
Lemma run_answered receipt (Q : result ExecutorError (option ControlKey) → ExecutorState → Prop) s :
  ((∀ k, answered receipt = Some k → is_Some (es_controls s !! k)) → Q (Ok (answered receipt)) s) →
  (∀ e, Q (Err e) s) →
  run (match ex_stage (sr_payload receipt) with
       | XControlAcknowledged control _ _ =>
           let key := control_key (ex_attempt (sr_payload receipt)) control in
           _ ← check (reject (bool_decide (es_controls s !! key = None))
                 (ExConflict "control acknowledgment precedes durable forwarding"));
           mret (Some key)
       | _ => mret None
       end) Q s.
Proof.
  intros Hok Herr. unfold answered in Hok.
  destruct (ex_stage (sr_payload receipt)); try (apply run_ret, Hok; by intros k [=]).
  cbv zeta. run_go ltac:(apply Herr). apply Hok. intros k [= <-]. to_prop.
  by apply not_eq_None_Some.
Qed.

Lemma run_release_attempt_if (b : bool) (Q : result ExecutorError unit → ExecutorState → Prop) s :
  ((b = true → 1 ≤ es_nonterminal_attempts s) →
   Q (Ok tt) (set_nonterminal (es_nonterminal_attempts s - if b then 1 else 0) s)) →
  (∀ e, Q (Err e) s) → run (if b then release_attempt else mret tt) Q s.
Proof.
  intros Hok Herr. destruct b; [apply run_release_attempt; auto|]. apply run_ret.
  rewrite N.sub_0_r in Hok. destruct s. by apply Hok.
Qed.
Lemma run_release_control_if (b : bool) (Q : result ExecutorError unit → ExecutorState → Prop) s :
  ((b = true → 1 ≤ es_unacknowledged_controls s) →
   Q (Ok tt) (set_unacknowledged (es_unacknowledged_controls s - if b then 1 else 0) s)) →
  (∀ e, Q (Err e) s) → run (if b then release_control else mret tt) Q s.
Proof.
  intros Hok Herr. destruct b; [apply run_release_control; auto|]. apply run_ret.
  rewrite N.sub_0_r in Hok. destruct s. by apply Hok.
Qed.

(** The acknowledgment itself. *)
Lemma run_acknowledge receipt (Q : result ExecutorError unit → ExecutorState → Prop) s :
  (∀ k, answered receipt = Some k → is_Some (es_controls s !! k)) →
  Q (Ok tt) (set_controls (fun controls =>
     match answered receipt, answered receipt ≫= fun k => controls !! k with
     | Some k, Some c => <[k := acknowledge receipt c]> controls
     | _, _ => controls
     end) s) →
  run (match answered receipt with
       | Some key =>
           s ← current;
           c ← check (ok_or (es_controls s !! key)
                   (ExConflict "control disappeared while applying its acknowledgment"));
           modify (set_controls <[key := acknowledge receipt c]>)
       | None => mret tt
       end) Q s.
Proof.
  intros Hasked Hok. destruct (answered receipt) as [k|]; [|apply run_ret; by destruct s].
  destruct (Hasked k eq_refl) as [c Hc]. cbn in Hok. run_step ltac:(done). run_step ltac:(done).
  rewrite Hc. apply run_bind, run_lift; [intros ? [= <-]|by intros ? [=]]. apply run_modify.
  unfold set_controls in *. by rewrite Hc in Hok.
Qed.

Lemma run_receipt receipt s : run (apply_receipt receipt) (applies s (XReceipt receipt)) s.
Proof.
  unfold apply_receipt. run_step ltac:(done). run_step ltac:(done). apply run_bind.
  apply run_answered; [|by intros; apply grows_same]. intros Hasked.
  run_go ltac:(by apply grows_same). rename a into at0, a4 into noted.
  destruct (note_observation_same _ _ _ E1) as (Eg & _ & Er & _ & Et & _ & _).
  rewrite <- Et. set (body := push_receipt _ _).
  assert (∀ f, xa_grant (f body) = xa_grant body → xa_receipts (f body) = xa_receipts body →
    ∀ s', es_attempts s' = <[attempt_key (ex_attempt (sr_payload receipt)) := f body]> (es_attempts s) →
    grows s s') as G.
  { intros f Hg Hr s' Es'. transitivity (set_attempts <[attempt_key (ex_attempt (sr_payload receipt))
       := f body]> s); [|by apply grows_same].
    apply (grows_update s _ (fun _ => f body) at0); [done|rewrite Hg|rewrite Hr];
      subst body; cbn; destruct (is_observation _); cbn; rewrite ?Eg, ?Er; try done;
      by apply prefix_app_r. }
  apply run_next; [|intros; by apply (G id)]. intros Hn. apply run_bind.
  eapply run_update; [cbn; apply lookup_insert_eq|]. cbv beta iota.
  set (s2 := set_attempts _ _).
  assert (∀ s', es_attempts s' = es_attempts s2 → grows s s') as G2.
  { intros s' Es'. apply (G (push_ordinal (es_next_receipt_recovery_ordinal s + 1))); [done..|].
    rewrite Es'. subst s2. cbn. by rewrite insert_insert_eq. }
  apply run_bind, run_release_attempt_if; [|intros; by apply G2]. intros H1'.
  apply run_bind, run_release_control_if; [|intros; by apply G2]. intros H2'.
  apply run_acknowledge; [done|].
  assert (negb (xa_terminal noted) && (xa_terminal noted || stage_terminal (ex_stage (sr_payload receipt)))
          = negb (xa_terminal at0) && stage_terminal (ex_stage (sr_payload receipt))) as Ed.
  { rewrite Et. by destruct (xa_terminal at0). }
  rewrite Ed in *. destruct_units. to_prop. cbn. eapply effect_to.
  - eapply effect_receipt; [done|exact E|done|done| | |done|done|exact H1'|exact H2'].
    + intros Ht. rewrite Ht in N0. cbn in N0. by to_prop.
    + intros Ho. rewrite Ho in N1. cbn in N1. to_prop. lia.
  - unfold set_controls, set_unacknowledged, set_nonterminal. subst s2 body. cbn.
    rewrite insert_insert_eq. f_equal.
Qed.

(** What applying a record does. *)
Lemma run_record cf key record s :
  run (apply_record cf key record) (fun r s' =>
    match r with
    | Ok _ => validate_record cf key record = Ok tt ∧ effect s record s'
    | Err _ => grows s s'
    end) s.
Proof.
  unfold apply_record. run_step ltac:(done).
  apply run_lift; [intros [] Hv|by intros; apply grows_same].
  assert (∀ m, run m (applies s record) s →
    run m (fun r s' => match r with
                       | Ok _ => validate_record cf key record = Ok tt ∧ effect s record s'
                       | Err _ => grows s s' end) s) as X.
  { intros m Hm. eapply run_mono; [exact Hm|]. by intros [] s' ?. }
  destruct record; cbv beta iota; apply X;
    eauto using run_register, run_undeploy, run_control, run_fence, run_receipt;
    by apply run_claim.
Qed.

(** The effect of a record only adds to the attempts. *)
Lemma effect_grows s record s' : effect s record s' → grows s s'.
Proof.
  destruct 1; try by apply grows_same.
  - etrans; [by apply grows_new|by apply grows_same].
  - transitivity (set_attempts <[attempt_key (ex_attempt r) :=
      push_ordinal n (count_control (push_receipt receipt a))]> s); [|by apply grows_same].
    apply (grows_update s _ (fun a => push_ordinal n (count_control (push_receipt receipt a))));
      [done..|]. by apply prefix_app_r.
  - transitivity (set_attempts <[key := received receipt n noted]> s); [|by apply grows_same].
    match goal with H : note_observation _ _ = Ok _ |- _ =>
      destruct (note_observation_same _ _ _ H) as (Eg & _ & Er & _) end.
    apply (grows_update s _ (fun _ => received receipt n noted) a); [done|by rewrite received_grant|].
    rewrite received_receipts, Er. by apply prefix_app_r.
Qed.

Lemma exec_record_grows cf key record s : grows s (apply_record cf key record s).2.
Proof.
  pose proof (run_record cf key record s) as R. unfold run in R.
  destruct (apply_record cf key record s) as [[]]; cbn in *; [|done]. by eapply effect_grows, R.
Qed.
Lemma apply_record_Ok cf key record s s' :
  apply_record cf key record s = (Ok tt, s') →
  validate_record cf key record = Ok tt ∧ effect s record s'.
Proof. intros E. pose proof (run_record cf key record s) as R. unfold run in R. by rewrite E in R. Qed.

(** Inversion for the record of a receipt. *)
Lemma effect_receipt_inv s receipt s' :
  effect s (XReceipt receipt) s' →
  let r := sr_payload receipt in
  ∃ a noted,
    es_attempts s !! attempt_key (ex_attempt r) = Some a
    ∧ verify_execution_receipt receipt (xa_grant a) = Ok tt
    ∧ ex_sequence r = N.of_nat (length (xa_receipts a)) + 1
    ∧ (xa_terminal a = true → is_control_acknowledgment (ex_stage r) = true)
    ∧ note_observation (ex_stage r) a = Ok noted
    ∧ es_attempts s' = <[attempt_key (ex_attempt r)
                         := received receipt (es_next_receipt_recovery_ordinal s + 1) noted]>
                         (es_attempts s).
Proof.
  inversion 1; subst; try (match goal with H : starts _ = _ |- _ => discriminate H end).
  eexists _, _. by split_and!.
Qed.
End growth.
