(* ===== verification/ExecOnce.v ===== *)
(** * One call per attempt

    Over all the messages an executor handles and all its restarts, the function
    call of an attempt is emitted at most once, and only after the receipts that
    claim and start the attempt are durable. *)

From stdpp Require Import sorting.
From S2P Require Import Prelude Serde GxShape GxHash FnCrypto FnTypes FnWire FnCustody FnMessages.
From S2P Require Import AetherAddress AetherEnvelope Journal HomeLedger HomeLaws HomeApi HomeProtocol HomeApiLaws.
From S2P Require Import HomeServe ExecLedger Executor ExecServe ExecSample ExecLaws.

Create HintDb exec.

Section replay.
  Context `{!Sha256} `{!JsonText} `{!Ed25519} `{!WireSerde} `{!CustodySerde} `{!MessageSerde}.
  Context `{!ExecSerde}.

Lemma exec_replay_app cf key rs1 rs2 s :
  replay cf key (rs1 ++ rs2) s
  = match replay cf key rs1 s with
    | (Ok _, s1) => replay cf key rs2 s1
    | (Err e, s1) => (Err e, s1)
    end.
Proof.
  revert s. induction rs1 as [|r rs1 IH]; intros s; [done|].
  cbn. unfold mbind, execM_bind, stateR_bind.
  destruct (apply_record cf key r s) as [[[]|e] s1]; [apply IH|done].
Qed.

Lemma replay_grows cf key rs s : grows s (replay cf key rs s).2.
Proof.
  revert s. induction rs as [|r rs IH]; intros s; [done|].
  cbn. unfold mbind, execM_bind, stateR_bind. pose proof (exec_record_grows cf key r s) as G.
  destruct (apply_record cf key r s) as [[[]|e] s1]; [|done]. etrans; [exact G|apply IH].
Qed.

(** The configuration decides whether a record is valid, not what it does. *)
Lemma apply_record_config cf key cf' key' record s s1 s2 :
  apply_record cf key record s = (Ok tt, s1) → apply_record cf' key' record s = (Ok tt, s2) →
  s1 = s2.
Proof.
  unfold apply_record, mbind, execM_bind, stateR_bind, check, lift_result.
  destruct (validate_record cf key record), (validate_record cf' key' record); try done. congruence.
Qed.
Lemma replay_config cf key cf' key' rs s s1 s2 :
  replay cf key rs s = (Ok tt, s1) → replay cf' key' rs s = (Ok tt, s2) → s1 = s2.
Proof.
  revert s. induction rs as [|r rs IH]; intros s; [cbn; congruence|].
  cbn. unfold mbind, execM_bind, stateR_bind.
  destruct (apply_record cf key r s) as [[[]|e] t1] eqn:E1; [|done].
  destruct (apply_record cf' key' r s) as [[[]|e] t2] eqn:E2; [|done].
  rewrite (apply_record_config _ _ _ _ _ _ _ _ E1 E2). apply IH.
Qed.

(** Memory is what the journal replays to, when it replays. *)
Definition coherent (w : ExecWorld) : Prop :=
  ∀ cf key s, replay cf key (events (in_records (xw_inner w))) ExecutorState_default = (Ok tt, s) →
    s = xw_state w.

(** Records are only added, and so are receipts. *)
Record advances (w w' : ExecWorld) : Prop := {
  av_grows : grows (xw_state w) (xw_state w');
  av_records : in_records (xw_inner w) `prefix_of` in_records (xw_inner w');
  av_coherent : coherent w → coherent w'
}.
#[export] Instance advances_preorder : PreOrder advances.
Proof.
  split; [done|]. intros w1 w2 w3 [G1 P1 C1] [G2 P2 C2]. constructor; [by etrans|by etrans|auto].
Qed.
Lemma advances_same w w' :
  xw_state w' = xw_state w → xw_inner w' = xw_inner w → advances w w'.
Proof.
  intros Es Ei. constructor; [by rewrite Es|by rewrite Ei|].
  intros C cf key s. rewrite Ei, Es. apply C.
Qed.
End replay.

Section commit.
  Context `{!Sha256} `{!JsonText} `{!Ed25519} `{!WireSerde} `{!CustodySerde} `{!MessageSerde}.
  Context `{!ExecSerde} `{!ExecutorServices} (io : nat → AppendIo) (live : nat → Liveness).

(** What [append] does to the journal in memory. *)
Lemma append_memory (j : Journal) ap (event : ExecutorLedgerRecord) inner d res inner' d' :
  append j ap event inner d = (res, inner', d') →
  match res with
  | Ok r => in_records inner' = in_records inner ++ [r] ∧ ce_event (sr_payload r) = event
            ∧ in_healthy inner = true ∧ in_healthy inner' = true
            ∧ N.of_nat (length (in_records inner)) < max_records (jn_caps j)
  | Err _ => in_records inner' = in_records inner
  end.
Proof.
  intros E. assert (is_ok res = true → in_healthy inner = true) as Hh.
  { revert E. unfold append. destruct (in_healthy inner); [done|]. by intros [= <- _ _]. }
  apply append_cases in E
    as [(e & -> & -> & _)|(r & ? & ? & rd & Hm & Hs & _ & _ & _ & _ & Hrd)]; [done|].
  apply sign_payload in Hs. destruct rd; destruct Hrd as [-> ->]; cbn; [|done].
  rewrite Hs. auto.
Qed.

(** A record that is committed is durable and has its effect. *)
Lemma commit_Ok record w w' :
  commit io record w = (Ok tt, w') →
  (∃ r, in_records (xw_inner w') = in_records (xw_inner w) ++ [r]
        ∧ ce_event (sr_payload r) = record)
  ∧ effect (xw_state w) record (xw_state w')
  ∧ xw_config w' = xw_config w ∧ xw_sweep w' = xw_sweep w ∧ in_healthy (xw_inner w') = true.
Proof.
  unfold commit. destruct (validate_record _ _ _); [|done].
  destruct (append _ _ _ _ _) as [[[r|e] inner] d] eqn:Ea; [|done].
  apply append_memory in Ea as (Er & Ee & _ & Eh & _).
  destruct (apply_record _ _ _ _) as [[[]|] s] eqn:Eap; [|done].
  intros [= <-]. cbn. apply apply_record_Ok in Eap as [_ Heff]. split_and!; eauto.
Qed.

Lemma commit_advances record w : advances w (commit io record w).2.
Proof.
  unfold commit. destruct (validate_record _ _ _) as [[]|] eqn:Hv; [|done].
  destruct (append _ _ _ _ _) as [[res inner] d] eqn:Ea. apply append_memory in Ea.
  destruct res as [r|e].
  - destruct Ea as (Er & Ee & _). pose proof (exec_record_grows (xw_config w)
      (as_public_key xv_signer) record (xw_state w)) as G.
    destruct (apply_record _ _ _ _) as [res s] eqn:Eap. cbn in *. constructor; cbn; [done| |].
    + rewrite Er. by apply prefix_app_r.
    + intros C cf key s'. cbn. rewrite Er. unfold events. rewrite map_app, exec_replay_app. cbn.
      fold (events (in_records (xw_inner w))).
      destruct (replay cf key (events _) _) as [[[]|] s1] eqn:E1; [|done].
      apply C in E1 as ->. rewrite Ee. unfold mbind, execM_bind, stateR_bind.
      destruct (apply_record cf key record (xw_state w)) as [[[]|] s2] eqn:E2; [|done].
      intros [= <-]. clear -Eap E2 Hv. revert Eap E2.
      unfold apply_record, mbind, execM_bind, stateR_bind, check, lift_result.
      destruct (validate_record cf key record); [|done].
      rewrite Hv. congruence.
  - constructor; cbn; [done|by rewrite Ea|]. intros C cf key s. cbn. rewrite Ea. apply C.
Qed.
End commit.

(** ** Every operation advances *)

Section operations.
  Context `{!Sha256} `{!JsonText} `{!Ed25519} `{!WireSerde} `{!CustodySerde} `{!MessageSerde}.
  Context `{!ExecSerde} `{!ExecutorServices} (io : nat → AppendIo) (live : nat → Liveness).

Definition proceeds {A} (m : exM A) : Prop := ∀ w, advances w (m w).2.

Lemma proceeds_bind {A B} (m : exM A) (f : A → exM B) :
  proceeds m → (∀ a, proceeds (f a)) → proceeds (m ≫= f).
Proof.
  intros Hm Hf w. unfold mbind, exM_bind, stateR_bind. specialize (Hm w).
  destruct (m w) as [[a|e] w']; [|done]. etrans; [exact Hm|apply Hf].
Qed.
Lemma proceeds_raise {A} (r : result ExecutorError A) : proceeds (raise r).
Proof. by intros w. Qed.
Lemma proceeds_gets {A} (f : ExecWorld → A) : proceeds (gets f).
Proof. by intros w. Qed.
Lemma proceeds_ret {A} (a : A) : proceeds (mret a).
Proof. by intros w. Qed.
Lemma proceeds_sweep (f : ExecWorld → ExecutorRecoverySweep) :
  proceeds (modify (fun w => set_executor_sweep (f w) w)).
Proof. intros w. by apply advances_same. Qed.
Lemma proceeds_operational : proceeds ensure_operational.
Proof. by intros w. Qed.
Lemma proceeds_locked : proceeds lock_healthy_state.
Proof. apply proceeds_bind; [apply proceeds_operational|intros]. apply proceeds_gets. Qed.
Lemma proceeds_capacity n : proceeds (ensure_append_capacity n).
Proof. by intros w. Qed.
Lemma proceeds_commit record : proceeds (commit io record).
Proof. intros w. apply commit_advances. Qed.
Lemma proceeds_asked target deployment : proceeds (target_is_live live target deployment).
Proof. intros w. by apply advances_same. Qed.
Lemma proceeds_live target deployment : proceeds (require_live_target live target deployment).
Proof. apply proceeds_bind; [apply proceeds_asked|intros]. apply proceeds_ret. Qed.
#[local] Hint Resolve proceeds_raise proceeds_gets proceeds_ret proceeds_operational
  proceeds_locked proceeds_capacity proceeds_commit proceeds_asked proceeds_live : exec.

Ltac proceed :=
  repeat (first [ progress auto with exec | apply proceeds_bind; [|intros ?]
                | case_match | case_decide ]).

Lemma sign_receipt_proceeds grant sequence at_ms stage :
  proceeds (sign_receipt grant sequence at_ms stage).
Proof. unfold sign_receipt. proceed. Qed.
#[local] Hint Resolve sign_receipt_proceeds : exec.
Lemma sign_liveness_refusal_proceeds grant sequence error :
  proceeds (sign_liveness_refusal grant sequence error).
Proof. unfold sign_liveness_refusal. proceed. Qed.
Lemma function_call_proceeds grant : proceeds (function_call grant).
Proof. unfold function_call. proceed. Qed.
Lemma function_control_proceeds grant endorsement : proceeds (function_control grant endorsement).
Proof. unfold function_control. proceed. Qed.
#[local] Hint Resolve sign_liveness_refusal_proceeds function_call_proceeds
  function_control_proceeds : exec.
Lemma refuse_claimed_proceeds grant error : proceeds (refuse_claimed io grant error).
Proof. unfold refuse_claimed. proceed. Qed.
Lemma start_claimed_proceeds grant claimed target : proceeds (start_claimed io grant claimed target).
Proof. unfold start_claimed. proceed. Qed.
#[local] Hint Resolve refuse_claimed_proceeds start_claimed_proceeds : exec.
Lemma claim_existing_proceeds grant hash a : proceeds (claim_existing io live grant hash a).
Proof. unfold claim_existing. proceed. Qed.
Lemma claim_new_proceeds grant : proceeds (claim_new io live grant).
Proof. unfold claim_new. proceed. Qed.
#[local] Hint Resolve claim_existing_proceeds claim_new_proceeds : exec.
Lemma claim_proceeds grant : proceeds (claim io live grant).
Proof. unfold claim. proceed. Qed.
Lemma register_proceeds request : proceeds (register io live request).
Proof. unfold register, register_new. proceed. Qed.
Lemma deployment_is_live_proceeds deployment : proceeds (deployment_is_live live deployment).
Proof. unfold deployment_is_live. proceed. Qed.
#[local] Hint Resolve deployment_is_live_proceeds : exec.
Lemma take_live_proceeds limit query rows : proceeds (take_live live limit query rows).
Proof. revert limit. induction rows as [|row rows IH]; intros [|limit]; cbn [take_live]; proceed. Qed.
#[local] Hint Resolve take_live_proceeds : exec.
Lemma deployments_proceeds query : proceeds (deployments live query).
Proof. unfold deployments. proceed. Qed.
Lemma sign_undeploy_receipt_proceeds id : proceeds (sign_undeploy_receipt id).
Proof. unfold sign_undeploy_receipt. proceed. Qed.
#[local] Hint Resolve sign_undeploy_receipt_proceeds : exec.
Lemma undeploy_proceeds request : proceeds (undeploy io request).
Proof. unfold undeploy. proceed. Qed.
Lemma live_attempt_target_proceeds grant b : proceeds (live_attempt_target live grant b).
Proof. unfold live_attempt_target. proceed. Qed.
Lemma record_stage_proceeds attempt stage at_ms : proceeds (record_stage io attempt stage at_ms).
Proof. unfold record_stage, record_new_stage. proceed. Qed.
Lemma record_control_queued_proceeds attempt request :
  proceeds (record_control_queued io attempt request).
Proof. unfold record_control_queued, requeue_control, queue_control. proceed. Qed.
Lemma grant_proceeds attempt : proceeds (grant attempt).
Proof. unfold grant. proceed. Qed.
Lemma query_proceeds request : proceeds (query io request).
Proof. unfold query. proceed. Qed.
Lemma recovery_home_target_proceeds granted : proceeds (recovery_home_target granted).
Proof. unfold recovery_home_target. proceed. Qed.
Lemma attempt_terminal_proceeds attempt : proceeds (attempt_terminal attempt).
Proof. unfold attempt_terminal. proceed. Qed.
Lemma close_ambiguous_proceeds a : proceeds (close_ambiguous io a).
Proof. unfold close_ambiguous. proceed. Qed.
#[local] Hint Resolve close_ambiguous_proceeds : exec.
Lemma close_all_proceeds attempts : proceeds (close_all io attempts).
Proof. induction attempts; cbn [close_all]; proceed. Qed.
Lemma check_reservations_proceeds : proceeds check_reservations.
Proof. unfold check_reservations. proceed. Qed.
#[local] Hint Resolve close_all_proceeds check_reservations_proceeds : exec.
Lemma recover_executor_proceeds : proceeds (recover_executor io).
Proof. unfold recover_executor. proceed. Qed.
End operations.

#[export] Hint Resolve claim_proceeds register_proceeds deployments_proceeds undeploy_proceeds
  live_attempt_target_proceeds record_stage_proceeds record_control_queued_proceeds
  grant_proceeds query_proceeds recovery_home_target_proceeds attempt_terminal_proceeds
  function_control_proceeds proceeds_raise proceeds_gets proceeds_ret proceeds_operational
  proceeds_locked proceeds_sweep : exec.

Ltac proceed_with :=
  repeat (first [ solve [auto with exec] | apply proceeds_bind; [|intros ?] ]).

(** ** Calls *)

(** The attempt has at most its claim, and its second receipt says it started. *)
Definition unstarted (k : AttemptKey) (s : ExecutorState) : Prop :=
  ∀ a, es_attempts s !! k = Some a → (length (xa_receipts a) ≤ 1)%nat.
Definition started (k : AttemptKey) (s : ExecutorState) : Prop :=
  ∃ a receipt, es_attempts s !! k = Some a ∧ xa_receipts a !! 1%nat = Some receipt
               ∧ ex_stage (sr_payload receipt) = XStarted.

Lemma started_grows k s s' : grows s s' → started k s → started k s'.
Proof.
  intros G (a & r & Ha & Hr & Hs). apply G in Ha as (a' & Ha' & _ & P).
  exists a', r. split_and!; [done|by eapply prefix_lookup_Some|done].
Qed.
Lemma unstarted_grows k s s' : grows s s' → unstarted k s' → unstarted k s.
Proof. intros G U a Ha. apply G in Ha as (a' & Ha' & _ & P%prefix_length). apply U in Ha'. lia. Qed.
Lemma not_both k s : unstarted k s → started k s → False.
Proof. intros U (a & r & Ha & Hr%lookup_lt_Some & _). apply U in Ha. lia. Qed.

(** The calls that a run from [w] to [w'] makes: distinct attempts that were not
    started and now are. *)
Record traced `{!Sha256} `{!JsonText} `{!Ed25519} `{!WireSerde} `{!ExecSerde} (w : ExecWorld)
    (calls : list AttemptId) (w' : ExecWorld) : Prop := {
  tr_advances : advances w w';
  tr_calls : Forall (fun call => unstarted (attempt_key call) (xw_state w)
                                 ∧ started (attempt_key call) (xw_state w')) calls;
  tr_distinct : NoDup (map attempt_key calls)
}.

Section traces.
  Context `{!Sha256} `{!JsonText} `{!Ed25519} `{!WireSerde} `{!CustodySerde} `{!MessageSerde}.
  Context `{!ExecSerde} `{!ExecutorServices} (io : nat → AppendIo) (live : nat → Liveness).

Lemma traced_silent w w' : advances w w' → traced w [] w'.
Proof. constructor; [done|constructor..]. Qed.
Lemma traced_app w1 calls w2 calls' w3 :
  traced w1 calls w2 → traced w2 calls' w3 → traced w1 (calls ++ calls') w3.
Proof.
  intros [A1 C1 D1] [A2 C2 D2]. constructor.
  - by etrans.
  - apply Forall_app; split; eapply Forall_impl; [exact C1|..|exact C2|]; cbn; intros call [U S].
    + split; [done|]. eapply started_grows; [apply A2|done].
    + split; [|done]. eapply unstarted_grows; [apply A1|done].
  - rewrite map_app. apply NoDup_app; split_and!; [done| |done].
    intros k (c & -> & Hc)%list_elem_of_fmap (c' & Ec & Hc')%list_elem_of_fmap.
    rewrite Forall_forall in C1, C2. destruct (C1 _ Hc) as [_ S], (C2 _ Hc') as [U _].
    rewrite <- Ec in U. by eapply not_both.
Qed.

Lemma run_operational (Q : result ExecutorError unit → ExecWorld → Prop) w :
  (in_healthy (xw_inner w) = true → Q (Ok tt) w) → Q (Err (ExJournal JUncertain)) w →
  run ensure_operational Q w.
Proof. unfold run, ensure_operational, ensure_healthy. destruct (in_healthy _); cbn; auto. Qed.

Lemma sign_receipt_Ok grant sequence at_ms stage w receipt w' :
  sign_receipt grant sequence at_ms stage w = (Ok receipt, w') →
  w' = w ∧ ex_attempt (sr_payload receipt) = eg_attempt (sr_payload grant)
  ∧ ex_sequence (sr_payload receipt) = sequence ∧ ex_stage (sr_payload receipt) = stage.
Proof.
  intros E. cut (run (sign_receipt grant sequence at_ms stage) (fun r w' => w' = w ∧ ∀ receipt, r = Ok receipt →
    ex_attempt (sr_payload receipt) = eg_attempt (sr_payload grant)
    ∧ ex_sequence (sr_payload receipt) = sequence ∧ ex_stage (sr_payload receipt) = stage) w).
  { unfold run. rewrite E. cbn. intros [-> H']. split; [done|]. by apply H'. }
  unfold sign_receipt. apply run_bind, run_operational; [|split; [done|by intros ? [=]]]. intros _.
  run_go ltac:(split; [done|by intros ? [=]]). split; [done|]. intros r [= <-].
  match goal with H : SignedRecordV1_sign _ _ _ = Ok _ |- _ => apply sign_payload in H as -> end. done.
Qed.

Lemma function_call_Ok grant w call w' :
  function_call grant w = (Ok call, w') → w' = w ∧ fc_attempt call = eg_attempt (sr_payload grant).
Proof.
  intros E. cut (run (function_call grant) (fun r w' => w' = w ∧ ∀ call, r = Ok call →
    fc_attempt call = eg_attempt (sr_payload grant)) w).
  { unfold run. rewrite E. cbn. intros [-> H']. split; [done|]. by apply H'. }
  unfold function_call. apply run_bind, run_operational; [|split; [done|by intros ? [=]]]. intros _.
  run_go ltac:(split; [done|by intros ? [=]]). split; [done|]. by intros r [= <-].
Qed.

Lemma start_claimed_traced grant claimed target w receipts call target' w' :
  start_claimed io grant claimed target w = (Ok (ClaimClaimed receipts call target'), w') →
  traced w [fc_attempt call] w'.
Proof.
  intros E. constructor.
  - pose proof (start_claimed_proceeds io grant claimed target w) as P. by rewrite E in P.
  - apply Forall_singleton. revert E. unfold start_claimed, mbind, exM_bind, stateR_bind, gets. 
    destruct (ensure_append_capacity _ w) as [[]] eqn:Ec; [|done].
    injection Ec as _ <-.
    destruct (sign_receipt _ _ _ _ w) as [[receipt|] w1] eqn:Es; [|done].
    apply sign_receipt_Ok in Es as (-> & Ea & Eq & Est).
    destruct (commit io _ w) as [[[]|] w2] eqn:Ek; [|done].
    apply commit_Ok in Ek as (_ & Heff & _).
    destruct (function_call grant w2) as [[call'|] w3] eqn:Ef; [|done].
    intros [= _ -> _ ->]. apply function_call_Ok in Ef as [-> Ec]. rewrite Ec, <- Ea.
    apply effect_receipt_inv in Heff as (a0 & noted & Hl & _ & Hq & _ & Hn & Hs).
    apply note_observation_same in Hn as (_ & _ & Er & _). split.
    + intros a' Ha'. simplify_eq. lia.
    + eexists _, receipt. rewrite Hs, lookup_insert_eq. split_and!; [done| |done].
      rewrite received_receipts, Er, lookup_app_r by lia. by replace (1 - _)%nat with 0%nat by lia.
  - cbn. constructor; [set_solver|constructor].
Qed.

(** The calls of a claim. *)
Definition claim_calls (r : result ExecutorError ClaimOutcome) : list AttemptId :=
  match r with Ok (ClaimClaimed _ call _) => [fc_attempt call] | _ => [] end.
Definition yields (m : exM ClaimOutcome) : Prop := ∀ w, traced w (claim_calls (m w).1) (m w).2.

Lemma yields_bind {A} (m : exM A) f : proceeds m → (∀ a, yields (f a)) → yields (m ≫= f).
Proof.
  intros Hm Hf w. unfold mbind, exM_bind, stateR_bind. specialize (Hm w).
  destruct (m w) as [[a|e] w']; [|by apply traced_silent].
  change (claim_calls (f a w').1) with ([] ++ claim_calls (f a w').1).
  eapply traced_app; [by apply traced_silent|apply Hf].
Qed.
Lemma yields_ret outcome : claim_calls (Ok outcome) = [] → yields (mret outcome).
Proof. intros E w. cbn in *. rewrite E. by apply traced_silent. Qed.
Lemma start_claimed_yields grant claimed target : yields (start_claimed io grant claimed target).
Proof.
  intros w. pose proof (start_claimed_proceeds io grant claimed target w) as P.
  destruct (start_claimed io grant claimed target w) as [[[]|] w'] eqn:E;
    try by apply traced_silent. by eapply start_claimed_traced.
Qed.

Ltac yield :=
  repeat (first [ apply start_claimed_yields | apply yields_ret; done
                | apply yields_bind; [solve [auto with exec]|intros ?] | case_match | case_decide ]).
#[local] Hint Resolve proceeds_capacity proceeds_commit proceeds_live sign_receipt_proceeds
  sign_liveness_refusal_proceeds : exec.

Lemma refuse_claimed_yields grant error : yields (refuse_claimed io grant error).
Proof. unfold refuse_claimed. yield. Qed.
Lemma claim_yields grant : yields (claim io live grant).
Proof.
  unfold claim, claim_existing, claim_new.
  repeat (first [ apply refuse_claimed_yields | progress yield ]).
Qed.
End traces.

(** ** Calls on the bus *)

(** An encoded call decodes to a call of the same attempt, and an encoded control
    does not decode to a call; both follow when decoding inverts encoding. *)
Class CallsDecode `{!ExecutorCodec} : Prop := {
  decode_call call : ∃ call', from_slice (to_bytes (FCall call)) = Ok (FCall call')
                              ∧ fc_attempt call' = fc_attempt call;
  decode_control control call : from_slice (to_bytes (FControl control)) ≠ Ok (FCall call)
}.
Lemma round_trip_decodes `{!ExecutorCodec} `{!SerdeRoundTrip FunctionCallMessageV1}
    `{!SerdeTotal FunctionCallMessageV1} : CallsDecode.
Proof.
  assert (∀ m : FunctionCallMessageV1, from_slice (to_bytes m) = Ok m) as D.
  { intros m. destruct (to_vec_total m) as [b Hb]. unfold to_bytes. rewrite Hb.
    by apply from_slice_to_vec. }
  split; intros; rewrite D; [by eexists|done].
Qed.

Section bus.
  Context `{!Sha256} `{!JsonText} `{!Ed25519} `{!WireSerde} `{!CustodySerde} `{!MessageSerde}.
  Context `{!ExecSerde} `{!ExecutorServices} `{!ExecutorCodec}.
  Context `{!CallsDecode}.

(** The attempt whose function call a dispatch carries. *)
Definition call_of (d : Dispatch) : option AttemptId :=
  if decide (di_schema d = SCHEMA_CALL_V1) then
    match from_slice (di_payload d) with Ok (FCall call) => Some (fc_attempt call) | _ => None end
  else None.
Definition calls_in (ds : list Dispatch) : list AttemptId := omap call_of ds.

Lemma call_of_call target call : call_of (call_dispatch target call) = Some (fc_attempt call).
Proof.
  unfold call_of. cbn [call_dispatch with_schema di_schema di_payload Dispatch_to].
  rewrite decide_True by done. destruct (decode_call call) as (call' & -> & ->). done.
Qed.
Lemma call_of_control target control : call_of (control_command target control) = None.
Proof.
  unfold call_of. cbn [control_command with_schema di_schema di_payload Dispatch_to].
  rewrite decide_True by done. pose proof (decode_control control) as D.
  destruct (from_slice _) as [[]|]; try done. by edestruct D.
Qed.
Lemma call_of_other d : di_schema d ≠ SCHEMA_CALL_V1 → call_of d = None.
Proof. intros Hd. unfold call_of. by rewrite decide_False. Qed.
Lemma call_of_receipt target receipt : call_of (execute_receipt_to target receipt) = None.
Proof. by apply call_of_other. Qed.

Lemma calls_in_app ds ds' : calls_in (ds ++ ds') = calls_in ds ++ calls_in ds'.
Proof. apply omap_app. Qed.
Lemma calls_in_receipt home receipt ds :
  calls_in (execute_receipt_to home receipt :: ds) = calls_in ds.
Proof. cbn. by rewrite call_of_receipt. Qed.
Lemma calls_in_receipts home receipts : calls_in (map (execute_receipt_to home) receipts) = [].
Proof. induction receipts as [|r l IH]; [done|]. cbn. by rewrite call_of_receipt. Qed.
Lemma calls_in_claimed home receipts call target :
  calls_in (claimed_dispatches home receipts call target) = [fc_attempt call].
Proof.
  unfold claimed_dispatches. rewrite calls_in_app, calls_in_receipts. cbn. by rewrite call_of_call.
Qed.

Section handlers.
  Context (io : nat → AppendIo) (live : nat → Liveness).

Lemma forward_control_silent grant control w :
  calls_in (forward_control live grant control w).1 = []
  ∧ advances w (forward_control live grant control w).2.
Proof.
  unfold forward_control. pose proof (live_attempt_target_proceeds live grant true w) as P1.
  unfold live_control_forward_target. destruct (live_attempt_target live grant true w) as [r1 w1].
  pose proof (function_control_proceeds grant control w1) as P2.
  destruct (function_control grant control w1) as [r2 w2]. cbn in *.
  split; [|by etrans]. destruct r1, r2; try done. cbn. by rewrite call_of_control.
Qed.
Lemma forward_recovered_silent grant control w :
  calls_in (forward_recovered live grant control w).1 = []
  ∧ advances w (forward_recovered live grant control w).2.
Proof.
  unfold forward_recovered. pose proof (live_attempt_target_proceeds live grant true w) as P1.
  unfold live_control_forward_target.
  destruct (live_attempt_target live grant true w) as [[target|] w1]; [|done].
  pose proof (function_control_proceeds grant control w1) as P2.
  destruct (function_control grant control w1) as [[command|] w2]; cbn in *;
    (split; [|by etrans]); [|done]. by rewrite call_of_control.
Qed.

Lemma dispatch_recovery_traced work w :
  traced w (calls_in (dispatch_attempt_recovery io live work w).1)
    (dispatch_attempt_recovery io live work w).2.
Proof.
  unfold dispatch_attempt_recovery. set (grant := match work with WorkResume g _ | WorkReceipt g _ _ => g end).
  pose proof (recovery_home_target_proceeds grant w) as P.
  destruct (recovery_home_target grant w) as [[home|] w1]; [|by apply traced_silent].
  assert (∀ cs w2, traced w1 cs w2 → traced w cs w2) as X.
  { intros cs w2 T. by apply (traced_app w [] w1); [apply traced_silent|]. }
  destruct work as [g claimed|g receipt control].
  - pose proof (claim_yields io live g w1) as Y. apply X.
    destruct (claim io live g w1) as [[[receipts call target|receipt|receipt]|] w2]; cbn in *.
    + by rewrite calls_in_claimed.
    + case_decide; cbn; by rewrite ?call_of_receipt.
    + by rewrite !call_of_receipt.
    + done.
  - apply X. destruct control as [control|].
    + pose proof (forward_recovered_silent g control w1) as [F1 F2].
      destruct (forward_recovered live g control w1) as [ds w2]. cbn in *.
      rewrite call_of_receipt, F1. by apply traced_silent.
    + cbn. rewrite call_of_receipt. by apply traced_silent.
Qed.

Lemma take_next_proceeds : proceeds take_next_receipt_recovery.
Proof.
  unfold take_next_receipt_recovery. apply proceeds_bind; [auto with exec|intros state].
  apply proceeds_bind; [auto with exec|intros sweep]. destruct (negb _ || _); [auto with exec|].
  destruct (List.find _ _); (apply proceeds_bind; [|auto with exec]); intros w;
    by apply advances_same.
Qed.

Lemma sweep_loop_traced fuel ds w :
  ∃ calls, traced w calls (sweep_loop io live fuel ds w).2
    ∧ ∀ ds', (sweep_loop io live fuel ds w).1 = Some ds' → calls_in ds' = calls_in ds ++ calls.
Proof.
  revert ds w. induction fuel as [|fuel IH]; intros ds w; cbn [sweep_loop].
  { exists []. split; [by apply traced_silent|]. intros ds' [= <-]. by rewrite app_nil_r. }
  case_decide; [exists []; split; [by apply traced_silent|]; intros ds' [= <-]; by rewrite app_nil_r|].
  case_decide; [exists []; split; [by apply traced_silent|]; intros ds' [= <-]; by rewrite app_nil_r|].
  pose proof (take_next_proceeds w) as P.
  destruct (take_next_receipt_recovery w) as [[[work|]|] w1]; cbn in P.
  2: { exists []. split; [by apply traced_silent|]. intros ds' [= <-]. by rewrite app_nil_r. }
  2: { exists []. split; [by apply traced_silent|]. by intros ds' [=]. }
  pose proof (dispatch_recovery_traced work w1) as D.
  destruct (dispatch_attempt_recovery io live work w1) as [more w2]. cbn in D.
  assert (traced w (calls_in more) w2) as D'
    by (by apply (traced_app w [] w1); [apply traced_silent|]).
  destruct (operational w2); [|by exists (calls_in more); split].
  destruct (IH (ds ++ more) w2) as (calls & T & Hc). exists (calls_in more ++ calls).
  split; [by eapply traced_app|]. intros ds' E. rewrite (Hc _ E), calls_in_app. by rewrite app_assoc.
Qed.

Definition outcome_calls (o : Outcome) : list AttemptId := calls_in (out_dispatches o).
Definition handler_traced (handler : ExecWorld → Outcome * ExecWorld) : Prop :=
  ∀ w, traced w (outcome_calls (handler w).1) (handler w).2.

Lemma traced_drop w calls w' : traced w calls w' → traced w [] w'.
Proof. intros [A _ _]. by apply traced_silent. Qed.

Lemma continue_sweep_traced : handler_traced (ExecServe.continue_recovery_sweep io live).
Proof.
  intros w. unfold ExecServe.continue_recovery_sweep. destruct (operational w); [|by apply traced_silent].
  destruct (sweep_loop_traced (S (N.to_nat (xr_receipts_remaining (xw_sweep w)))) [] w)
    as (calls & T & Hc).
  cbn [negb]. destruct (sweep_loop _ _ _ _ w) as [[ds|] w1]; cbn [fst snd] in *;
    [|by eapply traced_drop].
  specialize (Hc _ eq_refl). cbn in Hc. set (w2 := set_executor_sweep _ w1).
  assert (advances w1 w2) as A by (by apply advances_same).
  assert (traced w calls w2) as T2.
  { rewrite <- (app_nil_r calls). eapply traced_app; [done|by apply traced_silent]. }
  destruct (operational w2); [|by eapply traced_drop].
  unfold outcome_calls. cbn [fst snd out_dispatches]. rewrite calls_in_app, Hc.
  replace (calls_in _) with (@nil AttemptId); [by rewrite app_nil_r|].
  destruct (negb _); [|done]. unfold recovery_poke_dispatch. destruct (xw_me w2); [|done].
  cbn. by rewrite call_of_other.
Qed.

Lemma recovery_dispatches_traced : handler_traced (ExecServe.recovery_dispatches io live).
Proof.
  intros w. unfold ExecServe.recovery_dispatches.
  pose proof (proceeds_locked w) as P.
  destruct (lock_healthy_state w) as [[state|] w1]; cbn in P; [|by apply traced_silent].
  match goal with |- context [set_executor_sweep ?x w1] => set (sweep := x) end.
  apply (traced_app w [] (set_executor_sweep sweep w1)); [|apply continue_sweep_traced].
  apply traced_silent. etrans; [exact P|]. by apply advances_same.
Qed.

Lemma send_receipt_traced (m : exM (SignedRecordV1 ExecutionReceiptV1 * Address)) :
  proceeds m → handler_traced (send_receipt m).
Proof.
  intros Hm w. unfold send_receipt. specialize (Hm w). destruct (m w) as [[[r t]|] w1]; cbn in *;
    [unfold outcome_calls; cbn; rewrite call_of_receipt|]; by apply traced_silent.
Qed.

Lemma observe_proceeds env granted attempt stage : proceeds (observe io live env granted attempt stage).
Proof.
  unfold observe, live_control_target. proceed_with.
Qed.
#[local] Hint Resolve observe_proceeds : exec.
Lemma on_result_proceeds env r : proceeds (on_result io live env r).
Proof. unfold on_result. proceed_with. Qed.

(** A reply, or nothing, makes no call. *)
Lemma traced_quiet w w' o :
  advances w w' → Forall (fun d => di_schema d ≠ SCHEMA_CALL_V1) (out_dispatches o) →
  traced w (outcome_calls o) w'.
Proof.
  intros A F. replace (outcome_calls o) with (@nil AttemptId); [by apply traced_silent|].
  unfold outcome_calls, calls_in. induction F as [|d ds Hd _ IH]; [done|]. cbn.
  by rewrite call_of_other.
Qed.

Lemma on_deploy_traced env message : handler_traced (on_deploy io live env message).
Proof.
  intros w. unfold on_deploy.
  assert (∀ (resp : option FunctionDeployMessageV1) w1, advances w w1 →
    traced w (outcome_calls
      match resp with
      | Some response => Outcome_send (with_schema (reply_to_env env (to_bytes response))
                                         SCHEMA_FUNCTION_DEPLOY_V1)
      | None => Outcome_none
      end) w1) as X.
  { intros resp w1 A. apply traced_quiet; [done|]. destruct resp; repeat constructor; done. }
  assert (∀ A (m : exM A) ok, proceeds m → advances w (deploy_response m ok w).2) as Y.
  { intros A m ok Hm. unfold deploy_response. specialize (Hm w). by destruct (m w) as [[]]. }
  destruct message; try by apply (X None).
  - pose proof (Y _ (register io live request) DRegistered (register_proceeds io live request)).
    destruct (deploy_response _ _ w). by apply X.
  - pose proof (Y _ (deployments live query) DDeployments (deployments_proceeds live query)).
    destruct (deploy_response _ _ w). by apply X.
  - pose proof (Y _ (undeploy io request) DUndeployed (undeploy_proceeds io request)).
    destruct (deploy_response _ _ w). by apply X.
Qed.

Lemma on_grant_traced granted : handler_traced (on_grant io live granted).
Proof.
  intros w. unfold on_grant. pose proof (claim_yields io live granted w) as Y.
  destruct (claim io live granted w) as [claimed w1]. cbn [fst snd] in Y.
  pose proof (recovery_home_target_proceeds granted w1) as P.
  destruct (recovery_home_target granted w1) as [[home|] w2]; cbn [fst snd] in P |- *.
  - assert (traced w (claim_calls claimed) w2) as T.
    { rewrite <- (app_nil_r (claim_calls _)). eapply traced_app; [done|by apply traced_silent]. }
    destruct claimed as [[receipts call target|receipt|receipt]|]; unfold outcome_calls; cbn in *;
      by rewrite ?calls_in_claimed, ?call_of_receipt.
  - apply traced_silent. etrans; [apply Y|done].
Qed.

Lemma after_control_traced granted request receipt :
  handler_traced (after_control live granted request receipt).
Proof.
  intros w. unfold after_control.
  pose proof (attempt_terminal_proceeds (xc_attempt (sr_payload request)) w) as P1.
  destruct (attempt_terminal _ w) as [[terminal|] w1]; [|by apply traced_silent].
  set (m := if terminal then raise _ else recovery_home_target granted).
  assert (proceeds m) as Pm by (subst m; destruct terminal; auto with exec).
  specialize (Pm w1). destruct (m w1) as [[home|] w2]; cbn [snd fst] in *;
    [|apply traced_silent; by etrans].
  pose proof (forward_control_silent granted request w2) as [F1 F2].
  destruct (_ && negb terminal).
  - destruct (forward_control live granted request w2) as [ds w3]. cbn [fst snd] in *.
    destruct (operational w3); [|apply traced_silent; by do 2 (etrans; [done|])].
    unfold outcome_calls. cbn [fst out_dispatches]. rewrite calls_in_receipt, F1.
    apply traced_silent; by do 2 (etrans; [done|]).
  - cbn [fst snd]. destruct (operational w2); [|apply traced_silent; by etrans].
    unfold outcome_calls. cbn. rewrite call_of_receipt. apply traced_silent; by etrans.
Qed.

Lemma on_control_traced env request : handler_traced (on_control io live env request).
Proof.
  intros w. unfold on_control. destruct (operational w); [|by apply traced_silent].
  cbn [negb]. destruct (is_ok _); [|apply traced_quiet; [done|by repeat constructor]]. cbn [negb].
  pose proof (grant_proceeds (xc_attempt (sr_payload request)) w) as P1.
  destruct (grant _ w) as [[granted|] w1]; cbn [fst snd] in *;
    [|apply traced_quiet; [done|by repeat constructor]].
  destruct (_ || _); [apply traced_quiet; [done|by repeat constructor]|].
  pose proof (record_control_queued_proceeds io (xc_attempt (sr_payload request)) request w1) as P2.
  destruct (record_control_queued _ _ _ w1) as [[outcome|] w2]; cbn [fst snd] in *;
    [|apply traced_quiet; [by etrans|by repeat constructor]].
  destruct (operational w2); cbn [negb]; [|apply traced_silent; by etrans].
  apply (traced_app w [] w2); [apply traced_silent; by etrans|apply after_control_traced].
Qed.

Lemma decoded_traced {A} `{!SerdeJson A} env (handler : A → ExecWorld → Outcome * ExecWorld) :
  (∀ m, handler_traced (handler m)) → handler_traced (decoded env handler).
Proof. intros Hh w. unfold decoded. destruct (from_slice _); [apply Hh|by apply traced_silent]. Qed.

Lemma on_execute_traced env message : handler_traced (on_execute io live env message).
Proof.
  intros w. unfold on_execute. destruct message; try by apply traced_silent.
  - apply on_grant_traced.
  - by apply send_receipt_traced; auto with exec.
  - apply on_control_traced.
Qed.
Lemma on_call_traced env message : handler_traced (on_call io live env message).
Proof.
  intros w. unfold on_call, on_function_observation, on_control_result.
  destruct message; try (by apply traced_silent); apply send_receipt_traced;
    [apply on_result_proceeds|..]; proceed_with.
Qed.

Lemma handle_traced env : handler_traced (FunctionExecutor_handle io live env).
Proof.
  intros w. unfold FunctionExecutor_handle. case_decide.
  { destruct (ExecServe.is_authenticated_recovery_poke env w);
      [apply continue_sweep_traced|by apply traced_silent]. }
  destruct (operational w); [|by apply traced_silent]. cbn [negb].
  case_decide; [by apply traced_silent|].
  match goal with |- context [let (_, _) := ?m in _] => set (run := m) end.
  assert (traced w (outcome_calls run.1) run.2) as T.
  { subst run. repeat case_decide; [apply decoded_traced, on_deploy_traced
      |apply decoded_traced, on_execute_traced|apply decoded_traced, on_call_traced
      |by apply traced_silent]. }
  destruct run as [o w1]. cbn [fst snd] in *. destruct (operational w1); [done|].
  by eapply traced_drop.
Qed.

Lemma bind_traced me w :
  traced w (calls_in (FunctionExecutor_bind io live me w).1) (FunctionExecutor_bind io live me w).2.
Proof.
  unfold FunctionExecutor_bind. set (w1 := mkExecWorld _ _ _ _ _ _ _ _ _).
  pose proof (recovery_dispatches_traced w1) as T.
  destruct (ExecServe.recovery_dispatches io live w1) as [o w2]. cbn [fst snd] in *.
  apply (traced_app w [] w1); [|done]. apply traced_silent. by apply advances_same.
Qed.
End handlers.
End bus.

(** ** Lives of an executor *)

Section lives.
  Context `{!Sha256} `{!JsonText} `{!Ed25519} `{!WireSerde} `{!CustodySerde} `{!MessageSerde}.
  Context `{!ExecSerde} `{!ExecutorServices} `{!ExecutorCodec}.
  Context `{!JournalDecode ExecutorLedgerRecord}.
  Context `{!CallsDecode}.

(** A restart, which is not a function of the code: [w'] is opened from files whose
    journal still has every record of [w].  That an append that succeeded is there after
    a crash is shown in [Journal]; a restart that lost records, or whose
    stats failed so that the journal opened empty, is not one. *)
Definition reopens (w w' : ExecWorld) : Prop :=
  ∃ io oio cf d d1 d2 journal inner,
    open_with_schema oio EXECUTOR_JOURNAL_NAME EXECUTOR_CHAIN_SCHEMA xv_signer
      (ecf_journal_caps cf) d = (Ok (journal, inner), d1)
    ∧ in_records (xw_inner w) `prefix_of` in_records inner
    ∧ FunctionExecutor_open io oio cf d = (Ok w', d2).

(** Messages, bindings and restarts, with the calls they emit; the system calls and
    the liveness view may answer anything. *)
Inductive history : ExecWorld → list AttemptId → ExecWorld → Prop :=
  | history_start w : history w [] w
  | history_message w calls w1 io live env :
      history w calls w1 →
      history w (calls ++ outcome_calls (FunctionExecutor_handle io live env w1).1)
        (FunctionExecutor_handle io live env w1).2
  | history_bind w calls w1 io live me :
      history w calls w1 →
      history w (calls ++ calls_in (FunctionExecutor_bind io live me w1).1)
        (FunctionExecutor_bind io live me w1).2
  | history_restart w calls w1 w2 : history w calls w1 → reopens w1 w2 → history w calls w2.

(** What [open] returns, in its parts. *)
Lemma open_parts io oio cf d w d2 :
  FunctionExecutor_open io oio cf d = (Ok w, d2) →
  ∃ journal inner d1 s,
    open_with_schema oio EXECUTOR_JOURNAL_NAME EXECUTOR_CHAIN_SCHEMA xv_signer
      (ecf_journal_caps cf) d = (Ok (journal, inner), d1)
    ∧ replay cf (as_public_key xv_signer) (events (in_records inner)) ExecutorState_default
      = (Ok tt, s)
    ∧ recover_executor io (mkExecWorld cf journal inner s d1 ExecutorRecoverySweep_default None 0 0)
      = (Ok tt, w).
Proof.
  unfold FunctionExecutor_open. destruct (config_ok cf); [|done].
  destruct (open_with_schema _ _ _ _ _ d) as [[[journal inner]|] d1] eqn:Eo; [|done].
  destruct (replay _ _ _ _) as [[[]|] s] eqn:Er; [|done].
  destruct (recover_executor _ _) as [[[]|] w1] eqn:Ec; [|done]. intros [= <- _].
  by exists journal, inner, d1, s.
Qed.

Lemma open_coherent io oio cf d w d2 :
  FunctionExecutor_open io oio cf d = (Ok w, d2) → coherent w.
Proof.
  intros (journal & inner & d1 & s & _ & Er & Ec)%open_parts.
  pose proof (recover_executor_proceeds io (mkExecWorld cf journal inner s d1
    ExecutorRecoverySweep_default None 0 0)) as [_ _ C]. rewrite Ec in C. apply C.
  intros cf' key' s'. cbn. intros Er'. by eapply replay_config.
Qed.

Lemma reopens_advances w w' : coherent w → reopens w w' → advances w w'.
Proof.
  intros C (io & oio & cf & d & d1 & d2 & journal & inner & Eo & P & Ex).
  pose proof (open_coherent _ _ _ _ _ _ Ex) as C'.
  apply open_parts in Ex as (journal' & inner' & d1' & s & Eo' & Er & Ec).
  rewrite Eo in Eo'. injection Eo' as <- <- <-.
  pose proof (recover_executor_proceeds io (mkExecWorld cf journal inner s d1
    ExecutorRecoverySweep_default None 0 0)) as [G R _]. rewrite Ec in G, R. cbn in G, R.
  constructor; [|by etrans|done].
  destruct P as [extra P]. rewrite P in Er. unfold events in Er. rewrite map_app, exec_replay_app in Er.
  destruct (replay _ _ (map _ (in_records (xw_inner w))) _) as [[[]|] s1] eqn:E1; [|done].
  apply C in E1 as ->. pose proof (replay_grows cf (as_public_key xv_signer)
    (map (fun r => ce_event (sr_payload r)) extra) (xw_state w)) as G1.
  rewrite Er in G1. by etrans.
Qed.

Lemma history_traced w calls w' : history w calls w' → coherent w → traced w calls w'.
Proof.
  induction 1 as [w|w calls w1 io live env _ IH|w calls w1 io live me _ IH|w calls w1 w2 _ IH R];
    intros C.
  - by apply traced_silent.
  - eapply traced_app; [by apply IH|apply handle_traced].
  - eapply traced_app; [by apply IH|apply bind_traced].
  - rewrite <- (app_nil_r calls). pose proof (IH C) as T. eapply traced_app; [done|].
    apply traced_silent, reopens_advances; [|done]. by apply T.
Qed.
End lives.

(** ** A call *)

Module once_sample.
Import exec_sample.
#[local] Existing Instances zero_sha blank_text toy_ed25519 null_serde null_custody
  api_sample.null_messages null_exec services codec.

Definition no_decode : JournalDecode ExecutorLedgerRecord :=
  Build_JournalDecode _ (fun _ => Err "no record") (fun _ => Err "no head").
Lemma calls_decode : CallsDecode.
Proof.
  split.
  - intros call. exists (call_with (attempt_key (fc_attempt call))). split.
    + cbn. by rewrite undigits_digits, decode_encode.
    + by destruct call as [[]].
  - done.
Qed.
Lemma fresh_coherent : coherent fresh.
Proof. intros cf key s. cbn. by intros [= <-]. Qed.
Definition calls_of (o : Outcome) : list AttemptId := outcome_calls o.
Lemma called_once : calls_of registered.1 ++ calls_of called.1 = [sample_attempt].
Proof. vm_compute. reflexivity. Qed.
End once_sample.

(** C2: over any history of an executor (messages, bindings and restarts that find
    every record appended before, with system calls that may fail and a liveness view
    that may say anything), no
    attempt is called twice: the attempts of the function calls it emits are
    distinct, none of them was started before, and each has its Started receipt
    in the ledger, which is what the journal replays to. *)
Theorem one_call_per_attempt `{!Sha256} `{!JsonText} `{!Ed25519} `{!WireSerde} `{!CustodySerde}
    `{!MessageSerde} `{!ExecSerde} `{!ExecutorServices} `{!ExecutorCodec}
    `{!JournalDecode ExecutorLedgerRecord} `{!CallsDecode} (w : ExecWorld)
    (calls : list AttemptId) (w' : ExecWorld) (run : history w calls w') (C : coherent w) :
  NoDup (map attempt_key calls)
  ∧ Forall (fun call => unstarted (attempt_key call) (xw_state w)
                        ∧ started (attempt_key call) (xw_state w')) calls
  ∧ coherent w'.
Proof.
  apply history_traced in run as [A F D]; [|done]. split_and!; [done|done|by apply A].
Qed.

Lemma one_call_per_attempt_witness :
  @started (attempt_key sample_attempt) (xw_state exec_sample.called.2).
Proof.
  pose proof (@one_call_per_attempt zero_sha blank_text toy_ed25519 null_serde null_custody
    api_sample.null_messages exec_sample.null_exec exec_sample.services exec_sample.codec
    once_sample.no_decode once_sample.calls_decode exec_sample.fresh
    ([] ++ once_sample.calls_of exec_sample.registered.1 ++ once_sample.calls_of exec_sample.called.1)
    exec_sample.called.2) as P.
  rewrite once_sample.called_once in P. destruct P as (_ & F & _).
  - rewrite <- once_sample.called_once, app_assoc.
    apply (history_message _ _ exec_sample.registered.2 exec_sample.io exec_sample.live
             (exec_sample.message SCHEMA_EXECUTE_V1)).
    apply (history_message _ _ exec_sample.fresh exec_sample.io exec_sample.live
             (exec_sample.message SCHEMA_FUNCTION_DEPLOY_V1)).
    apply history_start.
  - exact once_sample.fresh_coherent.
  - exact (proj2 (Forall_inv F)).
Defined.
