(* ===== verification/ExecInv.v ===== *)
(** * The executor's ledger is sound

    An invariant of [ExecutorState] that every record keeps: receipts are
    numbered, signed for the grant they continue and end with the terminal one
    except for acknowledgments; the counters that reserve room in the journal
    count what they say. *)

From stdpp Require Import sorting.
From S2P Require Import Prelude Serde GxShape GxHash FnCrypto FnTypes FnWire FnCustody FnMessages.
From S2P Require Import AetherAddress AetherEnvelope Journal HomeLedger HomeLaws HomeApi HomeProtocol.
From S2P Require Import HomeApiLaws HomeServe ExecLedger Executor ExecServe ExecSample ExecLaws ExecOnce.

(** ** Weights of maps *)

Section weigh.
  Context {K V : Type} `{Countable K}.

Definition weigh (f : K * V → nat) (m : gmap K V) : nat := sum_list_with f (map_to_list m).

Lemma weigh_empty f : weigh f ∅ = 0%nat.
Proof. unfold weigh. by rewrite map_to_list_empty. Qed.
Lemma weigh_new f m k v : m !! k = None → weigh f (<[k := v]> m) = (f (k, v) + weigh f m)%nat.
Proof. intros E. unfold weigh. by rewrite map_to_list_insert. Qed.
Lemma weigh_update f m k old v :
  m !! k = Some old → (weigh f (<[k := v]> m) + f (k, old) = weigh f m + f (k, v))%nat.
Proof.
  intros E. rewrite <- insert_delete_eq, weigh_new by apply lookup_delete_eq.
  rewrite <- (insert_delete_id m k old E) at 2. rewrite weigh_new by apply lookup_delete_eq. lia.
Qed.
Lemma length_filter_weigh (p : K * V → bool) (l : list (K * V)) :
  length (List.filter p l) = sum_list_with (fun kv => if p kv then 1%nat else 0%nat) l.
Proof. induction l as [|kv l IH]; [done|]. cbn. destruct (p kv); cbn; lia. Qed.
End weigh.

Definition holds_slot (kv : AttemptKey * AttemptRecord) : nat :=
  if negb (xa_terminal kv.2) then 1 else 0.
Definition awaits (kv : ControlKey * ControlRecord) : nat :=
  if bool_decide (kr_acknowledged kv.2 = None) then 1 else 0.
Definition receipt_count (kv : AttemptKey * AttemptRecord) : nat := length (xa_receipts kv.2).

Lemma nonterminal_weigh s : nonterminal_count s = weigh holds_slot (es_attempts s).
Proof. apply length_filter_weigh. Qed.
Lemma unacknowledged_weigh s : unacknowledged_count s = weigh awaits (es_controls s).
Proof. apply length_filter_weigh. Qed.

(** How many of the receipts satisfy [p]. *)
Definition tally (p : ExecutionStageV1 → bool) (l : list (SignedRecordV1 ExecutionReceiptV1)) : nat :=
  length (List.filter (fun receipt => p (ex_stage (sr_payload receipt))) l).
Definition is_control_queued (stage : ExecutionStageV1) : bool :=
  match stage with XControlQueued _ => true | _ => false end.

Lemma tally_snoc p l receipt :
  tally p (l ++ [receipt]) = (tally p l + if p (ex_stage (sr_payload receipt)) then 1 else 0)%nat.
Proof.
  unfold tally. rewrite List.filter_app, length_app. cbn. by destruct (p _).
Qed.

(** ** The invariant *)

Section invariant.
  Context `{!Sha256} `{!JsonText} `{!Ed25519} `{!WireSerde} `{!CustodySerde} `{!MessageSerde}.
  Context `{!ExecSerde}.

(** The receipts of a grant: numbered from 1, each verified against the grant, and
    nothing but acknowledgments after a terminal one. *)
Record receipts_ok (granted : SignedRecordV1 ExecutionGrantV1)
    (l : list (SignedRecordV1 ExecutionReceiptV1)) : Prop := {
  rk_verified : ∀ i r, l !! i = Some r →
    verify_execution_receipt r granted = Ok tt ∧ ex_sequence (sr_payload r) = N.of_nat i + 1;
  rk_frozen : ∀ i j r r', (i < j)%nat → l !! i = Some r → l !! j = Some r' →
    stage_terminal (ex_stage (sr_payload r)) = true →
    is_control_acknowledgment (ex_stage (sr_payload r')) = true
}.

Record attempt_ok (key : AttemptKey) (bound : N) (a : AttemptRecord) : Prop := {
  ao_key : attempt_key (eg_attempt (sr_payload (xa_grant a))) = key;
  ao_grant : verify_execution_grant (xa_grant a) = Ok tt;
  ao_hash : canonical_hash (xa_grant a) = Ok (xa_grant_hash a);
  ao_first : xa_receipts a ≠ [];
  ao_receipts : receipts_ok (xa_grant a) (xa_receipts a);
  ao_terminal : xa_terminal a = true ↔ tally stage_terminal (xa_receipts a) = 1%nat;
  ao_terminals : (tally stage_terminal (xa_receipts a) ≤ 1)%nat;
  ao_observations : xa_observation_count a = N.of_nat (tally is_observation (xa_receipts a))
                    ∧ xa_observation_count a ≤ MAX_ATTEMPT_OBSERVATIONS;
  ao_controls : xa_control_count a ≤ N.of_nat (tally is_control_queued (xa_receipts a))
                ∧ xa_control_count a ≤ MAX_JOB_CONTROLS;
  ao_ordinals : length (xa_receipt_recovery_ordinals a) = length (xa_receipts a);
  ao_ordered : StronglySorted N.lt (xa_receipt_recovery_ordinals a);
  ao_bound : Forall (fun ordinal => ordinal ≤ bound) (xa_receipt_recovery_ordinals a)
}.

(** The queued receipt of a control is one of its attempt, and so is its
    acknowledgment. *)
Record control_ok (s : ExecutorState) (key : ControlKey) (c : ControlRecord) : Prop := {
  co_queued : ∃ a, es_attempts s !! key.1 = Some a ∧ kr_queued c ∈ xa_receipts a
                   ∧ ex_stage (sr_payload (kr_queued c)) = XControlQueued key.2;
  co_acknowledged : ∀ receipt, kr_acknowledged c = Some receipt →
    ∃ a disposition detail, es_attempts s !! key.1 = Some a ∧ receipt ∈ xa_receipts a
      ∧ ex_stage (sr_payload receipt) = XControlAcknowledged key.2 disposition detail
}.

Record ledger_ok (s : ExecutorState) : Prop := {
  lo_attempts : ∀ key a, es_attempts s !! key = Some a →
    attempt_ok key (es_next_receipt_recovery_ordinal s) a;
  lo_controls : ∀ key c, es_controls s !! key = Some c → control_ok s key c;
  lo_nonterminal : es_nonterminal_attempts s = N.of_nat (nonterminal_count s);
  lo_unacknowledged : es_unacknowledged_controls s = N.of_nat (unacknowledged_count s);
  lo_next : es_next_receipt_recovery_ordinal s = N.of_nat (weigh receipt_count (es_attempts s));
  lo_reserved : es_nonterminal_attempts s + es_unacknowledged_controls s
                ≤ es_next_receipt_recovery_ordinal s
}.

Lemma ledger_ok_empty : ledger_ok ExecutorState_default.
Proof. constructor; try done. Qed.

(** *** One more receipt *)

Lemma receipts_ok_snoc granted l receipt :
  receipts_ok granted l → verify_execution_receipt receipt granted = Ok tt →
  ex_sequence (sr_payload receipt) = N.of_nat (length l) + 1 →
  (tally stage_terminal l ≠ 0%nat →
   is_control_acknowledgment (ex_stage (sr_payload receipt)) = true) →
  receipts_ok granted (l ++ [receipt]).
Proof.
  intros [V F] Hv Hq Ht. constructor.
  - intros i r Hi. apply lookup_app_Some in Hi as [Hi|[Hl Hi]]; [by apply V|].
    apply list_lookup_singleton_Some in Hi as [Hi ->]. split; [done|]. rewrite Hq. lia.
  - intros i j r r' Hij Hi Hj Hr. apply lookup_app_Some in Hi as [Hi|[Hl Hi]].
    2: { apply list_lookup_singleton_Some in Hi as [Hi _]. apply lookup_lt_Some in Hj.
         rewrite length_app in Hj. cbn in Hj. lia. }
    apply lookup_app_Some in Hj as [Hj|[Hl Hj]]; [by eapply F|].
    apply list_lookup_singleton_Some in Hj as [_ ->]. apply Ht. unfold tally.
    apply list_elem_of_lookup_2, list_elem_of_In in Hi.
    intros E%nil_length_inv. enough (In r []) as [] by done. rewrite <- E.
    by apply List.filter_In.
Qed.

Lemma sorted_snoc (l : list N) n :
  StronglySorted N.lt l → Forall (fun x => x ≤ n) l → StronglySorted N.lt (l ++ [n + 1]).
Proof.
  induction 1 as [|x l S IH F]; intros B; cbn; [repeat constructor|].
  apply Forall_cons in B as [Bx B]. constructor; [by apply IH|].
  apply Forall_app; split; [done|]. constructor; [lia|done].
Qed.
Lemma bound_snoc (l : list N) n :
  Forall (fun x => x ≤ n) l → Forall (fun x => x ≤ n + 1) (l ++ [n + 1]).
Proof.
  intros B. apply Forall_app; split; [|constructor; [lia|done]].
  eapply Forall_impl; [done|]. cbn. lia.
Qed.
Lemma attempt_ok_bound key n n' a : n ≤ n' → attempt_ok key n a → attempt_ok key n' a.
Proof.
  intros Hn []. constructor; try done. eapply Forall_impl; [done|]. cbn. lia.
Qed.

(** [a'] is [a] with one more receipt. *)
Record extended (receipt : SignedRecordV1 ExecutionReceiptV1) (ordinal : N)
    (a a' : AttemptRecord) : Prop := {
  xt_grant : xa_grant a' = xa_grant a;
  xt_hash : xa_grant_hash a' = xa_grant_hash a;
  xt_receipts : xa_receipts a' = xa_receipts a ++ [receipt];
  xt_ordinals : xa_receipt_recovery_ordinals a' = xa_receipt_recovery_ordinals a ++ [ordinal];
  xt_terminal : xa_terminal a' = xa_terminal a || stage_terminal (ex_stage (sr_payload receipt));
  xt_observations : xa_observation_count a'
    = xa_observation_count a
      + (if is_observation (ex_stage (sr_payload receipt)) then 1 else 0);
  xt_controls : xa_control_count a'
    ≤ xa_control_count a
      + (if is_control_queued (ex_stage (sr_payload receipt)) then 1 else 0)
}.

Lemma acknowledgment_not_terminal stage :
  is_control_acknowledgment stage = true → stage_terminal stage = false.
Proof. by destruct stage. Qed.

Lemma attempt_ok_extended key n a a' receipt :
  let stage := ex_stage (sr_payload receipt) in
  attempt_ok key n a → extended receipt (n + 1) a a' →
  verify_execution_receipt receipt (xa_grant a) = Ok tt →
  ex_sequence (sr_payload receipt) = N.of_nat (length (xa_receipts a)) + 1 →
  (xa_terminal a = true → is_control_acknowledgment stage = true) →
  (is_observation stage = true → xa_observation_count a < MAX_ATTEMPT_OBSERVATIONS) →
  xa_control_count a' ≤ MAX_JOB_CONTROLS →
  attempt_ok key (n + 1) a'.
Proof.
  intros stage [K G Hh F R T T1 [O1 O2] [C1 C2] L S B] [XG XH XR XO XT Xo Xc] Hv Hq Ht Ho Hc.
  assert (xa_terminal a = true → stage_terminal stage = false) as Hnt
    by (intros; by apply acknowledgment_not_terminal, Ht).
  fold stage in XT, Xo, Xc.
  constructor; rewrite ?XG, ?XH, ?XR, ?XO, ?tally_snoc; fold stage; try done.
  - by destruct (xa_receipts a).
  - apply receipts_ok_snoc; [done..|]. intros Hn. apply Ht, T. lia.
  - rewrite XT. destruct T as [Tl Tr], (xa_terminal a), (stage_terminal stage); cbn; naive_solver lia.
  - destruct T as [Tl Tr], (xa_terminal a), (stage_terminal stage); try naive_solver lia.
  - rewrite Xo, O1. destruct (is_observation stage); [specialize (Ho eq_refl)|]; lia.
  - split; [|done]. destruct (is_control_queued stage); lia.
  - rewrite !length_app, L. done.
  - by apply sorted_snoc.
  - by apply bound_snoc.
Qed.

Lemma received_extended receipt n stage a noted :
  stage = ex_stage (sr_payload receipt) → note_observation stage a = Ok noted →
  extended receipt n a (received receipt n noted).
Proof.
  intros -> (E1 & E2 & E3 & E4 & E5 & E6 & E7)%note_observation_same.
  unfold received. constructor; cbn; destruct (is_observation (ex_stage (sr_payload receipt))); cbn; congruence || lia.
Qed.
Lemma queued_extended receipt n a :
  is_control_queued (ex_stage (sr_payload receipt)) = true →
  extended receipt n a (push_ordinal n (count_control (push_receipt receipt a))).
Proof.
  intros Hq. destruct (ex_stage _) eqn:E; try done. constructor; cbn; rewrite ?E; cbn; try done.
  - by rewrite orb_false_r.
  - lia.
Qed.

(** *** Updates of the ledger *)

Lemma control_ok_grows s s' key c : grows s s' → control_ok s key c → control_ok s' key c.
Proof.
  intros G [(a & Ha & Hin & Hs) Ack]. split.
  - apply G in Ha as (a' & Ha' & _ & P). exists a'. split_and!; [done| |done].
    by eapply elem_of_prefix.
  - intros receipt (b & dp & dt & Hb & Hin' & Hs')%Ack. apply G in Hb as (b' & Hb' & _ & P).
    exists b', dp, dt. split_and!; [done| |done]. by eapply elem_of_prefix.
Qed.

(** The attempts after one of them has one more receipt. *)
Lemma attempts_extended s key a a' receipt :
  let n := es_next_receipt_recovery_ordinal s in
  ledger_ok s → es_attempts s !! key = Some a → extended receipt (n + 1) a a' →
  attempt_ok key (n + 1) a' →
  (∀ k x, <[key := a']> (es_attempts s) !! k = Some x → attempt_ok k (n + 1) x)
  ∧ N.of_nat (weigh receipt_count (<[key := a']> (es_attempts s))) = n + 1
  ∧ N.of_nat (weigh holds_slot (<[key := a']> (es_attempts s)))
    + (if negb (xa_terminal a) && stage_terminal (ex_stage (sr_payload receipt)) then 1 else 0)
    = es_nonterminal_attempts s.
Proof.
  intros n [A _ Nt _ Nx _] Ha X Ok. split_and!.
  - intros k x Hx. apply lookup_insert_Some in Hx as [[<- <-]|[_ Hx]]; [done|].
    apply A in Hx. eapply attempt_ok_bound; [|done]. lia.
  - pose proof (weigh_update receipt_count _ _ _ a' Ha) as W. unfold receipt_count at 2 4 in W.
    cbn in W. rewrite (xt_receipts _ _ _ _ X), length_app in W. cbn in W. subst n. rewrite Nx. lia.
  - pose proof (weigh_update holds_slot _ _ _ a' Ha) as W. unfold holds_slot at 2 4 in W. cbn in W.
    rewrite (xt_terminal _ _ _ _ X) in W. rewrite Nt, nonterminal_weigh.
    destruct (xa_terminal a), (stage_terminal (ex_stage (sr_payload receipt))); cbn in *; lia.
Qed.

(** The first receipt of an attempt. *)
Lemma attempt_ok_first granted hash receipt n :
  verify_execution_grant granted = Ok tt → canonical_hash granted = Ok hash →
  verify_execution_receipt receipt granted = Ok tt → ex_sequence (sr_payload receipt) = 1 →
  attempt_ok (attempt_key (eg_attempt (sr_payload granted))) n (first_attempt granted hash receipt n).
Proof.
  intros Hg Hh Hv Hq. unfold first_attempt. constructor; cbn; try done.
  - constructor.
    + intros i r Hi. apply list_lookup_singleton_Some in Hi as [-> ->]. split; [done|lia].
    + intros i j r r' Hij _ Hj. apply list_lookup_singleton_Some in Hj as [-> _]. lia.
  - unfold tally. cbn. by destruct (stage_terminal _).
  - unfold tally. cbn. destruct (stage_terminal _); cbn; lia.
  - unfold tally. cbn. by destruct (is_observation _).
  - split; [lia|done].
  - repeat constructor.
  - by constructor; [lia|].
Qed.

Lemma ledger_ok_claim s granted hash receipt fences :
  let key := attempt_key (eg_attempt (sr_payload granted)) in
  let n := es_next_receipt_recovery_ordinal s + 1 in
  ledger_ok s → es_attempts s !! key = None →
  attempt_ok key n (first_attempt granted hash receipt n) →
  ledger_ok (mkExecutorState (<[key := first_attempt granted hash receipt n]> (es_attempts s))
    (es_deployments s) (es_deployment_tombstones s) fences (es_controls s) n
    (es_nonterminal_attempts s + if stage_terminal (ex_stage (sr_payload receipt)) then 0 else 1)
    (es_unacknowledged_controls s)).
Proof.
  intros key n [A C Nt Un Nx Rs] Hk Hok.
  constructor; cbn; rewrite ?nonterminal_weigh, ?unacknowledged_weigh in *; cbn;
    rewrite ?weigh_new by done.
  - intros k x Hx. apply lookup_insert_Some in Hx as [[<- <-]|[_ Hx]]; [done|].
    apply A in Hx. eapply attempt_ok_bound; [|done]. lia.
  - intros k c Hc%C. eapply control_ok_grows; [|done].
    intros k' a' Ha'. cbn. exists a'. rewrite lookup_insert_ne; [done|congruence].
  - rewrite Nt. unfold holds_slot at 2. cbn. destruct (stage_terminal _); cbn; lia.
  - done.
  - subst n. rewrite Nx. unfold receipt_count at 2. cbn. lia.
  - subst n. destruct (stage_terminal _); lia.
Qed.

(** A new control. *)
Lemma ledger_ok_control s receipt a key fences request request_hash :
  let n := es_next_receipt_recovery_ordinal s + 1 in
  let a' := push_ordinal n (count_control (push_receipt receipt a)) in
  ledger_ok s → es_controls s !! key = None → es_attempts s !! key.1 = Some a →
  ex_stage (sr_payload receipt) = XControlQueued key.2 →
  verify_execution_receipt receipt (xa_grant a) = Ok tt →
  ex_sequence (sr_payload receipt) = N.of_nat (length (xa_receipts a)) + 1 →
  xa_terminal a = false → xa_control_count a < MAX_JOB_CONTROLS →
  ledger_ok (mkExecutorState (<[key.1 := a']> (es_attempts s)) (es_deployments s)
    (es_deployment_tombstones s) fences
    (<[key := mkControlRecord request_hash request receipt None]> (es_controls s)) n
    (es_nonterminal_attempts s) (es_unacknowledged_controls s + 1)).
Proof.
  intros n a' Hok Hk Ha Hst Hv Hq Ht Hc.
  assert (extended receipt n a a') as X by (apply queued_extended; by rewrite Hst).
  assert (attempt_ok key.1 n a') as Oka.
  { eapply attempt_ok_extended; [by eapply lo_attempts|done..|by rewrite Ht|by rewrite Hst|].
    cbn. lia. }
  destruct (attempts_extended _ _ _ _ _ Hok Ha X Oka) as (A' & N' & T').
  destruct Hok as [A C Nt Un Nx Rs].
  assert (grows s (set_attempts <[key.1 := a']> s)) as G.
  { apply (grows_update s key.1 (fun _ => a') a Ha); [done|]. cbn. by apply prefix_app_r. }
  constructor; cbn; rewrite ?nonterminal_weigh, ?unacknowledged_weigh in *; cbn;
    rewrite ?weigh_new by done; try done.
  - intros k c Hc'. apply lookup_insert_Some in Hc' as [[<- <-]|[_ Hc']].
    + split; [|done]. exists a'. cbn. rewrite lookup_insert_eq. split_and!; [done| |done].
      apply elem_of_app. right. by apply list_elem_of_singleton.
    + apply C in Hc'. eapply (control_ok_grows s); [|done]. exact G.
  - rewrite Hst in T'. cbn in T'. rewrite andb_false_r in T'. lia.
  - rewrite Un. unfold awaits at 2. cbn. lia.
  - lia.
Qed.

(** The controls after a receipt. *)
Definition answer_controls (receipt : SignedRecordV1 ExecutionReceiptV1) (s : ExecutorState) :
    gmap ControlKey ControlRecord :=
  match answered receipt, answered receipt ≫= fun k => es_controls s !! k with
  | Some k, Some c => <[k := acknowledge receipt c]> (es_controls s)
  | _, _ => es_controls s
  end.
Definition frees_control (receipt : SignedRecordV1 ExecutionReceiptV1) (s : ExecutorState) : bool :=
  match answered receipt ≫= fun k => es_controls s !! k with
  | Some c => bool_decide (kr_acknowledged c = None)
  | None => false
  end.

Lemma answered_key receipt key :
  answered receipt = Some key →
  key.1 = attempt_key (ex_attempt (sr_payload receipt))
  ∧ ∃ disposition detail, ex_stage (sr_payload receipt) = XControlAcknowledged key.2 disposition detail.
Proof. unfold answered. destruct (ex_stage _) eqn:E; try done. intros [= <-]. cbn. eauto. Qed.

Lemma weigh_answered receipt s :
  N.of_nat (weigh awaits (answer_controls receipt s)) + (if frees_control receipt s then 1 else 0)
  = N.of_nat (weigh awaits (es_controls s)).
Proof.
  unfold answer_controls, frees_control. destruct (answered receipt) as [k|]; cbn; [|lia].
  destruct (es_controls s !! k) as [c|] eqn:Hc; [|cbn; lia].
  pose proof (weigh_update awaits _ _ _ (acknowledge receipt c) Hc) as W.
  unfold awaits at 2 4 in W. cbn in W. case_bool_decide; lia.
Qed.

Lemma answer_controls_ok s s' receipt a' :
  ledger_ok s → grows s s' →
  es_attempts s' !! attempt_key (ex_attempt (sr_payload receipt)) = Some a' →
  receipt ∈ xa_receipts a' →
  ∀ key c, answer_controls receipt s !! key = Some c → control_ok s' key c.
Proof.
  intros Hok G Ha' Hin. assert (∀ key c, es_controls s !! key = Some c → control_ok s' key c) as Old.
  { intros key c Hc. eapply control_ok_grows; [done|]. by apply Hok. }
  unfold answer_controls. intros key c. destruct (answered receipt) as [k|] eqn:Ek; cbn; [|auto].
  destruct (es_controls s !! k) as [old|] eqn:Ho; [|auto].
  intros Hc. apply lookup_insert_Some in Hc as [[<- <-]|[_ Hc]]; [|auto].
  destruct (Old _ _ Ho) as [Q _]. split; [exact Q|]. cbn. intros r [= <-].
  apply answered_key in Ek as (E1 & dp & dt & E2). exists a', dp, dt. by rewrite E1.
Qed.

Lemma ledger_ok_receipt s receipt a noted :
  let r := sr_payload receipt in
  let stage := ex_stage r in
  let key := attempt_key (ex_attempt r) in
  let n := es_next_receipt_recovery_ordinal s + 1 in
  ledger_ok s → es_attempts s !! key = Some a →
  verify_execution_receipt receipt (xa_grant a) = Ok tt →
  ex_sequence r = N.of_nat (length (xa_receipts a)) + 1 →
  (xa_terminal a = true → is_control_acknowledgment stage = true) →
  (is_observation stage = true → xa_observation_count a < MAX_ATTEMPT_OBSERVATIONS) →
  note_observation stage a = Ok noted →
  ledger_ok (mkExecutorState (<[key := received receipt n noted]> (es_attempts s))
    (es_deployments s) (es_deployment_tombstones s) (es_home_fences s) (answer_controls receipt s) n
    (es_nonterminal_attempts s - if negb (xa_terminal a) && stage_terminal stage then 1 else 0)
    (es_unacknowledged_controls s - if frees_control receipt s then 1 else 0)).
Proof.
  intros r stage key n Hok Ha Hv Hq Ht Ho Hn.
  assert (extended receipt n a (received receipt n noted)) as X by (by eapply received_extended).
  assert (attempt_ok key n (received receipt n noted)) as Oka.
  { eapply attempt_ok_extended; [by eapply lo_attempts|done..|].
    apply note_observation_same in Hn as (_ & _ & _ & _ & _ & E & _).
    destruct (lo_attempts _ Hok _ _ Ha) as [_ _ _ _ _ _ _ _ [_ Hc] _ _ _].
    unfold received. cbn. destruct (is_observation _); cbn; by rewrite E. }
  destruct (attempts_extended _ _ _ _ _ Hok Ha X Oka) as (A' & N' & T').
  pose proof (weigh_answered receipt s) as W.
  constructor; cbn; rewrite ?nonterminal_weigh, ?unacknowledged_weigh in *; cbn; try done.
  - eapply answer_controls_ok; [done| |cbn; apply lookup_insert_eq|].
    + apply (grows_update s key (fun _ => received receipt n noted) a Ha).
      * apply (xt_grant _ _ _ _ X).
      * rewrite (xt_receipts _ _ _ _ X). by apply prefix_app_r.
    + rewrite (xt_receipts _ _ _ _ X). apply elem_of_app. right. by apply list_elem_of_singleton.
  - fold r in T'. fold stage in T'. lia.
  - rewrite (lo_unacknowledged _ Hok), unacknowledged_weigh. lia.
  - pose proof (lo_reserved _ Hok). lia.
Qed.

(** A record that leaves the attempts, the controls and the counters. *)
Lemma ledger_ok_same s s' :
  es_attempts s' = es_attempts s → es_controls s' = es_controls s →
  es_next_receipt_recovery_ordinal s' = es_next_receipt_recovery_ordinal s →
  es_nonterminal_attempts s' = es_nonterminal_attempts s →
  es_unacknowledged_controls s' = es_unacknowledged_controls s → ledger_ok s → ledger_ok s'.
Proof.
  intros E1 E2 E3 E4 E5 [A C Nt Un Nx Rs].
  constructor; unfold nonterminal_count, unacknowledged_count in *; rewrite ?E1, ?E2, ?E3, ?E4, ?E5;
    try done.
  intros key c Hc. eapply control_ok_grows; [|by apply C]. by apply grows_same.
Qed.

(** What [validate_record] says about the receipt of a record. *)
Lemma validate_start cf key record granted receipt :
  validate_record cf key record = Ok tt → starts record = Some (granted, receipt) →
  verify_execution_grant granted = Ok tt
  ∧ verify_execution_receipt receipt granted = Ok tt ∧ ex_sequence (sr_payload receipt) = 1
  ∧ dr_executor (sr_payload (eg_deployment (sr_payload granted))) = ecf_executor cf.
Proof.
  intros E Hs. destruct record; try done; injection Hs as -> ->; cbn in E;
    inv_result; unfold ex_unauthorized, map_err in *; split_cases; to_prop; destruct_units;
    split_and!; try done; by apply dec_stable.
Qed.
Lemma validate_control cf key request receipt :
  validate_record cf key (XControl request receipt) = Ok tt →
  ex_stage (sr_payload receipt) = XControlQueued (jc_control (sr_payload (xc_caller_request (sr_payload request))))
  ∧ ex_attempt (sr_payload receipt) = xc_attempt (sr_payload request).
Proof.
  cbn. intros E. inv_result.
  match goal with H : reject _ _ = Ok _ |- _ => apply reject_Ok, negb_false_iff in H end.
  destruct (ex_stage (sr_payload receipt)); try done. to_prop. naive_solver.
Qed.

(** Every record that applies keeps the invariant. *)
Lemma effect_ledger cf key record s s' :
  validate_record cf key record = Ok tt → effect s record s' → ledger_ok s → ledger_ok s'.
Proof.
  intros V E Hok. destruct E as [request receipt|request deployment|record granted receipt a Es
    |record granted receipt hash authority_hash registered g k n Es|request receipt
    |request receipt existing request_hash authority_hash q k Ek Eq
    |request receipt a request_hash authority_hash q r k n Ek Ea Ev Eq Et Ec
    |query authority_hash|receipt a noted r stage k n asked];
    try done; try by apply (ledger_ok_same s).
  - destruct (validate_start _ _ _ _ _ V Es) as (Hg & Hv & Hq & _).
    apply ledger_ok_claim; [done..|]. by apply attempt_ok_first.
  - destruct Hok as [A C Nt Un Nx Rs]. constructor; cbn; try done.
    + intros k' c Hc. apply lookup_insert_Some in Hc as [[<- <-]|[_ Hc]].
      * destruct (C _ _ Ek) as [Q Ack]. by split.
      * destruct (C _ _ Hc) as [Q Ack]. by split.
    + rewrite Un, !unacknowledged_weigh. cbn.
      pose proof (weigh_update awaits _ _ _ (mkControlRecord request_hash request
        (kr_queued existing) (kr_acknowledged existing)) Ek) as W.
      unfold awaits at 2 4 in W. cbn in W. lia.
  - apply validate_control in V as [Vs Va]. apply (ledger_ok_control s receipt a k); done.
  - by apply ledger_ok_receipt.
Qed.

(** *** The counters *)

Lemma weigh_lookup {K V} `{Countable K} (f : K * V → nat) (m : gmap K V) k v :
  m !! k = Some v → (f (k, v) ≤ weigh f m)%nat.
Proof.
  intros E. rewrite <- (insert_delete_id m k v E), weigh_new by apply lookup_delete_eq. lia.
Qed.

Lemma count_receipts_sum l total :
  Forall (fun a => length (xa_receipts a) = length (xa_receipt_recovery_ordinals a)) l →
  total + N.of_nat (sum_list_with (fun a => length (xa_receipts a)) l) ≤ usize_MAX →
  count_receipts l total
  = Ok (total + N.of_nat (sum_list_with (fun a => length (xa_receipts a)) l)).
Proof.
  intros F. revert total. induction F as [|a l E _ IH]; intros total B; cbn in *.
  { by rewrite N.add_0_r. }
  rewrite decide_False by auto.
  assert (usize_checked_add total (N.of_nat (length (xa_receipts a)))
          = Some (total + N.of_nat (length (xa_receipts a)))) as ->
    by (apply usize_checked_add_Some; split; [done|lia]).
  cbn. rewrite IH by lia. f_equal. lia.
Qed.

(** [validate_reservation_counters] never fails on a sound ledger. *)
Lemma counters_valid s :
  ledger_ok s → es_next_receipt_recovery_ordinal s ≤ u64_MAX →
  validate_reservation_counters s = Ok tt.
Proof.
  intros [A C Nt Un Nx Rs] B. unfold validate_reservation_counters.
  assert (sum_list_with (fun a => length (xa_receipts a)) (attempts_in_order s).*2
          = weigh receipt_count (es_attempts s)) as Hs.
  { unfold weigh. rewrite <- (merge_sort_Permutation attempt_le (map_to_list (es_attempts s))).
    unfold attempts_in_order. generalize (merge_sort attempt_le (map_to_list (es_attempts s))).
    induction l as [|kv l IH]; [done|]. cbn. by rewrite IH. }
  rewrite count_receipts_sum, Hs.
  - cbn. rewrite <- Nx, <- Nt, <- Un.
    rewrite !bool_decide_eq_false_2; [done| |auto|auto].
    intros Hx. apply Hx. apply try_from_Some. done.
  - unfold attempts_in_order. rewrite merge_sort_Permutation. apply Forall_fmap, Forall_forall.
    intros [k a] Hin%elem_of_map_to_list. cbn. symmetry. by eapply ao_ordinals, A.
  - rewrite Hs, <- Nx. unfold usize_MAX. lia.
Qed.
End invariant.
