(* ===== verification/ExecReplay.v ===== *)
(** * Durable records always replay

    What an executor appends it can also apply: the checks an operation makes
    before it commits a record imply the checks that applying the record makes,
    so memory and journal never part, and the room the counters reserve is always
    there. *)

From stdpp Require Import sorting.
From S2P Require Import Prelude Serde GxShape GxHash FnCrypto FnTypes FnWire FnCustody FnMessages.
From S2P Require Import AetherAddress AetherEnvelope Journal HomeLedger HomeLaws HomeApi HomeProtocol.
From S2P Require Import HomeApiLaws HomeServe ExecLedger Executor ExecServe ExecSample ExecLaws.
From S2P Require Import ExecOnce ExecInv.

(** An authority always has a canonical encoding: it is a tree of plain values. *)
Class AuthorityEncodes `{!Sha256} `{!JsonText} `{!ExecSerde} : Prop :=
  authority_hash (a : HomeAuthorityV1) : ∃ hash, canonical_hash a = Ok hash.

(** ** Records that apply *)

Section accepted.
  Context `{!Sha256} `{!JsonText} `{!Ed25519} `{!WireSerde} `{!CustodySerde} `{!MessageSerde}.
  Context `{!ExecSerde} `{!AuthorityEncodes}.

Definition accepted {A} (m : execM A) (s : ExecutorState) : Prop := run m (fun r _ => is_ok r = true) s.

Lemma accepted_check {A B} (r : result ExecutorError A) a (f : A → execM B) s :
  r = Ok a → accepted (f a) s → accepted (check r ≫= f) s.
Proof. intros -> H'. exact H'. Qed.
Lemma accepted_gets {A B} (g : ExecutorState → A) (f : A → execM B) s :
  accepted (f (g s)) s → accepted (gets g ≫= f) s.
Proof. intros H'. exact H'. Qed.
Lemma accepted_modify {B} g (f : unit → execM B) s :
  accepted (f tt) (g s) → accepted (modify g ≫= f) s.
Proof. intros H'. exact H'. Qed.
Lemma accepted_assoc {A B C} (m : execM A) (f : A → execM B) (g : B → execM C) s :
  accepted (m ≫= fun a => f a ≫= g) s → accepted ((m ≫= f) ≫= g) s.
Proof.
  unfold accepted, run, mbind, execM_bind, stateR_bind. by destruct (m s) as [[]].
Qed.
Lemma accepted_reject b e s : b = false → accepted (check (reject b e)) s.
Proof. by intros ->. Qed.
Lemma reject_false b e : b = false → reject (E := ExecutorError) b e = Ok tt.
Proof. by intros ->. Qed.

Ltac accept :=
  repeat first
    [ progress cbv beta zeta
    | match goal with
      | |- accepted (current ≫= _) _ => apply accepted_gets
      | |- accepted (gets _ ≫= _) _ => apply accepted_gets
      | |- accepted (modify _ ≫= _) _ => apply accepted_modify
      | |- accepted (modify _) _ => done
      | |- accepted (mret _) _ => done
      end ].

Lemma register_accepted receipt s :
  let id := dr_deployment (sr_payload receipt) in
  id ∉ es_deployment_tombstones s →
  (∀ existing, es_deployments s !! id = Some existing →
     same_deployment_binding (sr_payload existing) (sr_payload receipt) = true) →
  accepted (apply_register receipt) s.
Proof.
  intros id Hid Hb. unfold apply_register. accept.
  eapply accepted_check; [by apply reject_false, bool_decide_eq_false_2|]. accept.
  destruct (es_deployments s !! _) as [existing|] eqn:E; [|done].
  apply accepted_reject. by rewrite (Hb _ eq_refl).
Qed.

Lemma undeploy_accepted id s : is_Some (es_deployments s !! id) → accepted (apply_undeploy id) s.
Proof.
  intros Hid%not_eq_None_Some. unfold apply_undeploy. accept.
  eapply accepted_check; [|by accept]. apply reject_false. by rewrite bool_decide_eq_false_2.
Qed.

Lemma advance_accepted r {B} (f : unit → execM B) s :
  (∀ hash, accepted (f tt) (with_fences (advanced r hash s) s)) →
  accepted (advance_fence r ≫= f) s.
Proof.
  intros Hf. destruct (authority_hash (hx_authority r)) as [hash Hh]. specialize (Hf hash).
  unfold accepted, run, mbind, execM_bind, stateR_bind in *. unfold advance_fence, check, lift_result,
    gets, mbind, execM_bind, stateR_bind. rewrite Hh. cbn. unfold advanced in Hf.
  destruct (match es_home_fences s !! _ with Some _ => _ | None => _ end); cbn; [|exact Hf].
  by destruct s.
Qed.
Lemma next_accepted {B} (f : N → execM B) s :
  let n := es_next_receipt_recovery_ordinal s + 1 in
  n ≤ u64_MAX → accepted (f n) (set_ordinal n s) → accepted (next_ordinal ≫= f) s.
Proof.
  intros n Hn Hf. unfold accepted, run, next_ordinal, check, lift_result, gets, mbind, execM_bind,
    stateR_bind in *. assert (try_from u64_MAX (es_next_receipt_recovery_ordinal s + 1) = Some n) as ->
    by (by apply try_from_Some). exact Hf.
Qed.
Lemma reserve_attempt_accepted {B} (f : unit → execM B) s :
  es_nonterminal_attempts s + 1 ≤ usize_MAX →
  accepted (f tt) (set_nonterminal (es_nonterminal_attempts s + 1) s) →
  accepted (reserve_attempt ≫= f) s.
Proof.
  intros Hn Hf. unfold accepted, run, reserve_attempt, check, lift_result, gets, mbind, execM_bind,
    stateR_bind in *.
  assert (usize_checked_add (es_nonterminal_attempts s) 1 = Some (es_nonterminal_attempts s + 1)) as ->
    by (by apply usize_checked_add_Some). exact Hf.
Qed.
Lemma reserve_control_accepted {B} (f : unit → execM B) s :
  es_unacknowledged_controls s + 1 ≤ usize_MAX →
  accepted (f tt) (set_unacknowledged (es_unacknowledged_controls s + 1) s) →
  accepted (reserve_control ≫= f) s.
Proof.
  intros Hn Hf. unfold accepted, run, reserve_control, check, lift_result, gets, mbind, execM_bind,
    stateR_bind in *.
  assert (usize_checked_add (es_unacknowledged_controls s) 1
          = Some (es_unacknowledged_controls s + 1)) as -> by (by apply usize_checked_add_Some).
  exact Hf.
Qed.
Lemma release_attempt_accepted (b : bool) {B} (f : unit → execM B) s :
  (b = true → 1 ≤ es_nonterminal_attempts s) →
  (∀ s', es_unacknowledged_controls s' = es_unacknowledged_controls s →
         es_controls s' = es_controls s → accepted (f tt) s') →
  accepted ((if b then release_attempt else mret tt) ≫= f) s.
Proof.
  intros Hb Hf. destruct b; [|by apply Hf]. specialize (Hb eq_refl).
  unfold accepted, run, release_attempt, check, lift_result, gets, mbind, execM_bind,
    stateR_bind in *.
  assert (usize_checked_sub (es_nonterminal_attempts s) 1
          = Some (es_nonterminal_attempts s - 1)) as -> by (by apply usize_checked_sub_Some).
  by apply Hf.
Qed.
Lemma release_control_accepted (b : bool) {B} (f : unit → execM B) s :
  (b = true → 1 ≤ es_unacknowledged_controls s) →
  (∀ s', es_controls s' = es_controls s → accepted (f tt) s') →
  accepted ((if b then release_control else mret tt) ≫= f) s.
Proof.
  intros Hb Hf. destruct b; [|by apply Hf]. specialize (Hb eq_refl).
  unfold accepted, run, release_control, check, lift_result, gets, mbind, execM_bind,
    stateR_bind in *.
  assert (usize_checked_sub (es_unacknowledged_controls s) 1
          = Some (es_unacknowledged_controls s - 1)) as -> by (by apply usize_checked_sub_Some).
  by apply Hf.
Qed.
Lemma update_accepted key e g {B} (f : unit → execM B) s a :
  es_attempts s !! key = Some a →
  accepted (f tt) (set_attempts <[key := g a]> s) →
  accepted (update_attempt key e g ≫= f) s.
Proof.
  intros Ha Hf. unfold accepted, run, update_attempt, check, lift_result, gets, mbind, execM_bind,
    stateR_bind in *. rewrite Ha. exact Hf.
Qed.

Lemma claim_accepted granted receipt registered hash grant_hash s :
  let g := sr_payload granted in
  es_deployments s !! dr_deployment (sr_payload (eg_deployment g)) = Some registered →
  canonical_hash registered = Ok hash → canonical_hash (eg_deployment g) = Ok hash →
  canonical_hash granted = Ok grant_hash →
  es_attempts s !! attempt_key (eg_attempt g) = None →
  validate_home_fence s granted = Ok tt →
  es_nonterminal_attempts s < u64_MAX → es_next_receipt_recovery_ordinal s < u64_MAX →
  accepted (apply_claim granted receipt) s.
Proof.
  intros g Hd Hr Hg Hh Ha Hf Hn Ho. unfold apply_claim. accept. fold g.
  eapply accepted_check; [unfold find_deployment; by rewrite Hd|].
  eapply accepted_check; [by rewrite Hr|]. eapply accepted_check; [by rewrite Hg|].
  eapply accepted_check; [apply reject_false, bool_decide_eq_false_2; by intros []|]. accept.
  eapply accepted_check; [by rewrite Hh|]. rewrite Ha. unfold advance_home_fence.
  apply accepted_assoc, accepted_gets, accepted_assoc.
  eapply accepted_check; [done|]. 
  apply advance_accepted. intros ah. apply next_accepted; [cbn; lia|].
  destruct (stage_terminal _); [by accept|]. apply reserve_attempt_accepted; [|done].
  cbn. unfold usize_MAX. lia.
Qed.

Lemma control_again_accepted request receipt existing request_hash s :
  let key := control_key (ex_attempt (sr_payload receipt))
               (jc_control (sr_payload (xc_caller_request (sr_payload request)))) in
  canonical_hash request = Ok request_hash → validate_control_fence s request = Ok tt →
  es_controls s !! key = Some existing →
  same_control_intent (kr_request existing) request = true → kr_queued existing = receipt →
  accepted (apply_control request receipt) s.
Proof.
  intros key Hh Hf Hk Hi Hq. unfold apply_control. accept.
  eapply accepted_check; [by rewrite Hh|]. accept. eapply accepted_check; [done|].
  fold key. rewrite Hk. case_decide; [done|].
  eapply accepted_check; [apply reject_false; by rewrite Hi|].
  eapply accepted_check; [apply reject_false, bool_decide_eq_false_2; by intros []|].
  unfold advance_control_fence. apply accepted_assoc, accepted_gets, accepted_assoc.
  eapply accepted_check; [done|]. by apply advance_accepted.
Qed.

Lemma control_accepted request receipt a request_hash s :
  let q := sr_payload request in
  let r := sr_payload receipt in
  let caller := sr_payload (xc_caller_request q) in
  canonical_hash request = Ok request_hash → validate_control_fence s request = Ok tt →
  es_controls s !! control_key (ex_attempt r) (jc_control caller) = None →
  es_attempts s !! attempt_key (ex_attempt r) = Some a →
  verify_execution_receipt receipt (xa_grant a) = Ok tt →
  xa_grant_hash a = xc_grant_hash q →
  eg_owner (sr_payload (xa_grant a)) = jh_home (jc_handle caller) → xc_attempt q = ex_attempt r →
  ex_sequence r = N.of_nat (length (xa_receipts a)) + 1 → xa_terminal a = false →
  xa_control_count a < MAX_JOB_CONTROLS →
  es_unacknowledged_controls s < u64_MAX → es_next_receipt_recovery_ordinal s < u64_MAX →
  accepted (apply_control request receipt) s.
Proof.
  intros q r caller Hh Hf Hk Ha Hv Eg Eo Ea Es Et Ec Hu Hn. unfold apply_control. accept.
  eapply accepted_check; [by rewrite Hh|]. accept. eapply accepted_check; [done|].
  fold q r. fold caller. rewrite Hk. eapply accepted_check; [unfold find_attempt; by rewrite Ha|].
  eapply accepted_check; [by rewrite Hv|].
  eapply accepted_check; [apply reject_false; by rewrite !bool_decide_eq_false_2 by auto|].
  eapply accepted_check; [apply reject_false; by rewrite Et, bool_decide_eq_false_2 by auto|].
  eapply accepted_check; [apply reject_false, bool_decide_eq_false_2; lia|].
  unfold advance_control_fence. apply accepted_assoc, accepted_gets, accepted_assoc.
  eapply accepted_check; [done|]. apply advance_accepted. intros ah.
  eapply update_accepted; [done|]. apply next_accepted; [cbn; lia|].
  eapply update_accepted; [apply lookup_insert_eq|].
  apply reserve_control_accepted; [|done]. cbn. unfold usize_MAX. lia.
Qed.

Lemma fence_accepted request a s :
  let q := sr_payload request in
  es_attempts s !! attempt_key (eq_attempt q) = Some a →
  xa_grant_hash a = eq_grant_hash q → eg_owner (sr_payload (xa_grant a)) = at_home (eq_attempt q) →
  validate_query_fence s request = Ok tt → accepted (apply_fence request) s.
Proof.
  intros q Ha Eg Eo Hf. unfold apply_fence. accept. fold q.
  eapply accepted_check; [unfold find_attempt; by rewrite Ha|].
  eapply accepted_check; [apply reject_false; by rewrite !bool_decide_eq_false_2 by auto|].
  unfold advance_query_fence. apply accepted_gets. eapply accepted_check; [done|].
  pose proof (advance_accepted (query_route request) (fun _ => mret tt) s ltac:(done)) as A.
  unfold accepted, run, mbind, execM_bind, stateR_bind in *. by destruct (advance_fence _ _) as [[]].
Qed.

(** The control lookup of [apply_receipt]. *)
Lemma answered_accepted receipt {B} (f : option ControlKey → execM B) s :
  (∀ k, answered receipt = Some k → is_Some (es_controls s !! k)) →
  accepted (f (answered receipt)) s →
  accepted (match ex_stage (sr_payload receipt) with
            | XControlAcknowledged control _ _ =>
                _ ← check (reject (bool_decide (es_controls s !!
                        control_key (ex_attempt (sr_payload receipt)) control = None))
                      (ExConflict "control acknowledgment precedes durable forwarding"));
                mret (Some (control_key (ex_attempt (sr_payload receipt)) control))
            | _ => mret None
            end ≫= f) s.
Proof.
  unfold answered. destruct (ex_stage (sr_payload receipt)); intros Hk Hf; try exact Hf.
  apply accepted_assoc. eapply accepted_check; [|exact Hf].
  apply reject_false, bool_decide_eq_false_2, not_eq_None_Some, Hk. done.
Qed.

Lemma receipt_accepted receipt a noted s :
  let r := sr_payload receipt in
  let stage := ex_stage r in
  ledger_ok s → es_attempts s !! attempt_key (ex_attempt r) = Some a →
  verify_execution_receipt receipt (xa_grant a) = Ok tt →
  ex_sequence r = N.of_nat (length (xa_receipts a)) + 1 →
  (xa_terminal a = true → is_control_acknowledgment stage = true) →
  (is_observation stage = true → xa_observation_count a < MAX_ATTEMPT_OBSERVATIONS) →
  note_observation stage a = Ok noted →
  (∀ k, answered receipt = Some k → is_Some (es_controls s !! k)) →
  es_next_receipt_recovery_ordinal s < u64_MAX →
  accepted (apply_receipt receipt) s.
Proof.
  intros r stage Hok Ha Hv Hq Ht Ho Hn Hk Hx. unfold apply_receipt. accept. fold r. fold stage.
  apply answered_accepted; [done|].
  eapply accepted_check; [unfold find_attempt; by rewrite Ha|].
  eapply accepted_check; [by rewrite Hv|].
  eapply accepted_check; [apply reject_false, bool_decide_eq_false_2; rewrite Hq; by intros []|].
  eapply accepted_check.
  { apply reject_false. destruct (xa_terminal a); [|done]. by rewrite Ht. }
  eapply accepted_check.
  { apply reject_false. destruct (is_observation stage); [|done]. apply bool_decide_eq_false_2.
    specialize (Ho eq_refl). lia. }
  eapply accepted_check; [done|]. apply accepted_modify, next_accepted; [cbn; lia|].
  eapply update_accepted; [apply lookup_insert_eq|].
  apply release_attempt_accepted; cbn.
  { intros Hb. rewrite (lo_nonterminal _ Hok), nonterminal_weigh.
    pose proof (weigh_lookup holds_slot _ _ _ Ha) as W. unfold holds_slot at 1 in W. cbn in W.
    destruct (xa_terminal a); [done|]. cbn in W. lia. }
  intros s1 Hu1 Hc1. apply release_control_accepted.
  { rewrite Hu1. destruct (answered receipt) as [k|]; [|done]. cbn.
    destruct (es_controls s !! k) as [c|] eqn:Hc; [|done]. intros Hb.
    rewrite (lo_unacknowledged _ Hok), unacknowledged_weigh.
    pose proof (weigh_lookup awaits _ _ _ Hc) as W. unfold awaits at 1 in W. cbn in W.
    rewrite Hb in W. lia. }
  intros s2 Hc2. destruct (answered receipt) as [k|] eqn:Ek; [|done].
  destruct (Hk _ eq_refl) as [c Hc]. apply accepted_gets.
  eapply accepted_check; [|done]. by rewrite Hc2, Hc1, Hc.
Qed.
End accepted.

(** ** What a replayed ledger satisfies *)

Section replayed.
  Context `{!Sha256} `{!JsonText} `{!Ed25519} `{!WireSerde} `{!CustodySerde} `{!MessageSerde}.
  Context `{!ExecSerde}.

(** The record of a later receipt does not say that the attempt is claimed. *)
Definition proper (record : ExecutorLedgerRecord) : Prop :=
  match record with
  | XReceipt receipt => ex_stage (sr_payload receipt) ≠ XClaimed
  | _ => True
  end.

(** Every attempt was granted to this executor, and only its first receipt claims
    it. *)
Record attempt_here (cf : ExecutorConfig) (a : AttemptRecord) : Prop := {
  ah_executor : dr_executor (sr_payload (eg_deployment (sr_payload (xa_grant a)))) = ecf_executor cf;
  ah_claimed : ∀ i r, xa_receipts a !! i = Some r → ex_stage (sr_payload r) = XClaimed → i = 0%nat
}.
Record replayed (cf : ExecutorConfig) (count : N) (s : ExecutorState) : Prop := {
  rp_ledger : ledger_ok s;
  rp_next : es_next_receipt_recovery_ordinal s ≤ count;
  rp_here : ∀ key a, es_attempts s !! key = Some a → attempt_here cf a
}.

Lemma here_snoc cf receipt a a' :
  attempt_here cf a → xa_grant a' = xa_grant a → xa_receipts a' = xa_receipts a ++ [receipt] →
  ex_stage (sr_payload receipt) ≠ XClaimed → attempt_here cf a'.
Proof.
  intros [E C] Eg Er Hs. split; [by rewrite Eg|]. rewrite Er. intros i r Hi Hc.
  apply lookup_app_Some in Hi as [Hi|[_ Hi]]; [by eapply C|].
  apply list_lookup_singleton_Some in Hi as [_ ->]. done.
Qed.

Lemma effect_here cf key record s s' :
  validate_record cf key record = Ok tt → proper record → effect s record s' →
  (∀ k a, es_attempts s !! k = Some a → attempt_here cf a) →
  ∀ k a, es_attempts s' !! k = Some a → attempt_here cf a.
Proof.
  intros V P E Old. destruct E as [request receipt|request deployment|record granted receipt a Es
    |record granted receipt hash authority_hash registered g k n Es|request receipt
    |request receipt existing request_hash authority_hash q k Ek Eq
    |request receipt a request_hash authority_hash q r k n Ek Ea Ev Eq Et Ec
    |query authority_hash|receipt a noted r stage k n asked Hasked Ha Hv Hq Ht Ho Hn];
    try done; cbn; intros k' a' Ha'; apply lookup_insert_Some in Ha' as [[<- <-]|[_ Ha']];
    try by eapply Old.
  - destruct (validate_start _ _ _ _ _ V Es) as (_ & _ & _ & He). split; [done|].
    intros i r' Hi _. by apply list_lookup_singleton_Some in Hi as [-> _].
  - apply validate_control in V as [Vs _]. eapply here_snoc; [by eapply Old|done|done|].
    by rewrite Vs.
  - apply note_observation_same in Hn as (Eg & _ & Er & _).
    eapply here_snoc; [by eapply Old|by rewrite received_grant|by rewrite received_receipts, Er|done].
Qed.

Lemma effect_next s record s' :
  effect s record s' →
  es_next_receipt_recovery_ordinal s' ≤ es_next_receipt_recovery_ordinal s + 1.
Proof. destruct 1; cbn; lia. Qed.

Lemma effect_replayed cf key record count s s' :
  validate_record cf key record = Ok tt → proper record → effect s record s' →
  replayed cf count s → replayed cf (count + 1) s'.
Proof.
  intros V P E [L Nx Hr]. split.
  - by eapply effect_ledger.
  - apply effect_next in E. lia.
  - by eapply effect_here.
Qed.

Lemma replay_replayed cf key rs count s s' :
  replay cf key rs s = (Ok tt, s') → Forall proper rs → replayed cf count s →
  replayed cf (count + N.of_nat (length rs)) s'.
Proof.
  revert count s. induction rs as [|record rs IH]; intros count s; cbn [replay length].
  { intros [= <-] _. by rewrite N.add_0_r. }
  unfold mbind, execM_bind, stateR_bind.
  destruct (apply_record cf key record s) as [[[]|] s1] eqn:E1; [|done].
  intros E [P F]%Forall_cons R. apply apply_record_Ok in E1 as [V Heff].
  replace (count + _) with ((count + 1) + N.of_nat (length rs)) by lia.
  eapply IH; [done|done|]. by eapply effect_replayed.
Qed.
Lemma replayed_default cf : replayed cf 0 ExecutorState_default.
Proof. split; [apply ledger_ok_empty|done|done]. Qed.

(** *** Reservations *)

Definition reserved (s : ExecutorState) : N :=
  es_nonterminal_attempts s + es_unacknowledged_controls s.

(** What a receipt gives back. *)
Definition released (receipt : SignedRecordV1 ExecutionReceiptV1) (a : AttemptRecord)
    (s : ExecutorState) : N :=
  (if negb (xa_terminal a) && stage_terminal (ex_stage (sr_payload receipt)) then 1 else 0)
  + (if frees_control receipt s then 1 else 0).

Lemma effect_reserved_receipt s receipt a s' :
  effect s (XReceipt receipt) s' →
  es_attempts s !! attempt_key (ex_attempt (sr_payload receipt)) = Some a →
  reserved s' + released receipt a s = reserved s.
Proof.
  intros E Ha. inversion E; subst; try (match goal with H : starts _ = _ |- _ => discriminate H end).
  match goal with H : es_attempts s !! _ = Some ?b |- _ =>
    assert (b = a) as -> by (unfold key, r in *; congruence) end.
  unfold reserved, released. change (frees_control receipt s) with acked.
  change (negb (xa_terminal a) && stage_terminal (ex_stage (sr_payload receipt))) with done.
  cbn [es_nonterminal_attempts es_unacknowledged_controls].
  match goal with H : done = true → _, H' : acked = true → _ |- _ =>
    revert H H'; clear; clearbody done acked; intros end.
  destruct done, acked; naive_solver lia.
Qed.
Lemma effect_reserved s record s' : effect s record s' → reserved s' ≤ reserved s + 1.
Proof.
  destruct 1; unfold reserved; cbn; try lia; destruct (stage_terminal _); lia.
Qed.
Lemma effect_reserved_same s record s' :
  effect s record s' →
  match record with XRegister _ _ | XUndeploy _ _ | XHomeFence _ => True | _ => False end →
  reserved s' = reserved s.
Proof. destruct 1; try done; by destruct record. Qed.
Lemma effect_reserved_control s request receipt existing s' :
  effect s (XControl request receipt) s' →
  es_controls s !! control_key (ex_attempt (sr_payload receipt))
                     (jc_control (sr_payload (xc_caller_request (sr_payload request))))
  = Some existing → reserved s' = reserved s.
Proof.
  intros E Hk. inversion E; subst; try done.
  match goal with N : es_controls s !! _ = None |- _ => discriminate (eq_trans (eq_sym Hk) N) end.
Qed.
Lemma effect_reserved_refused s granted receipt s' :
  effect s (XRefuse granted receipt) s' → stage_terminal (ex_stage (sr_payload receipt)) = true →
  reserved s' = reserved s.
Proof.
  intros E Ht. inversion E; subst; try done. unfold reserved. cbn.
  match goal with H : starts _ = Some _ |- _ => injection H as -> -> end. rewrite Ht. lia.
Qed.
End replayed.
