(* ===== verification/ExecSteady.v ===== *)
(** * Every operation keeps memory and journal together

    [world_ok] holds of an executor whose memory is what its journal replays to
    and whose journal has room for every record the ledger has reserved. It is
    kept by every operation, message, binding and restart. *)

From stdpp Require Import sorting.
From S2P Require Import Prelude Serde GxShape GxHash FnCrypto FnTypes FnWire FnCustody FnMessages.
From S2P Require Import AetherAddress AetherEnvelope Journal HomeLedger HomeLaws HomeApi HomeProtocol.
From S2P Require Import HomeApiLaws HomeServe ExecLedger Executor ExecServe ExecSample ExecLaws.
From S2P Require Import ExecOnce ExecInv ExecReplay.

Create HintDb world.

Section world.
  Context `{!Sha256} `{!JsonText} `{!Ed25519} `{!WireSerde} `{!CustodySerde} `{!MessageSerde}.
  Context `{!ExecSerde} `{!ExecutorServices} `{!AuthorityEncodes}.

Definition recorded (w : ExecWorld) : N := N.of_nat (length (in_records (xw_inner w))).
Definition journal_room (w : ExecWorld) : N := max_records (jn_caps (xw_journal w)).

Record world_ok (w : ExecWorld) : Prop := {
  wo_replay : replay (xw_config w) (as_public_key xv_signer) (events (in_records (xw_inner w)))
                ExecutorState_default = (Ok tt, xw_state w);
  wo_proper : Forall proper (events (in_records (xw_inner w)));
  wo_identity : as_public_key xv_signer = ecf_executor (xw_config w);
  wo_width : journal_room w ≤ usize_MAX;
  wo_room : recorded w + reserved (xw_state w) ≤ journal_room w
}.

Lemma world_replayed w : world_ok w → replayed (xw_config w) (recorded w) (xw_state w).
Proof.
  intros [R P _ _ _]. unfold recorded.
  replace (length (in_records (xw_inner w))) with (length (events (in_records (xw_inner w))))
    by apply length_map.
  change (N.of_nat _) with (0 + N.of_nat (length (events (in_records (xw_inner w))))).
  by eapply replay_replayed, replayed_default.
Qed.
Lemma world_ledger w : world_ok w → ledger_ok (xw_state w).
Proof. intros Hw. apply (world_replayed w Hw). Qed.

(** Only the journal, the state and the configuration matter. *)
Lemma world_ok_same w w' :
  xw_config w' = xw_config w → xw_journal w' = xw_journal w →
  in_records (xw_inner w') = in_records (xw_inner w) →
  xw_state w' = xw_state w → world_ok w → world_ok w'.
Proof.
  intros E1 E2 E3 E4 [R P I W B]. unfold recorded, journal_room in *.
  constructor; unfold recorded, journal_room; by rewrite ?E1, ?E2, ?E3, ?E4.
Qed.

(** The room asked for is what is reserved: the sum does not overflow. *)
Lemma reservations_exact w :
  world_ok w → durable_record_reservations (xw_state w) = reserved (xw_state w).
Proof.
  intros [_ _ _ W B]. unfold durable_record_reservations, reserved in *. lia.
Qed.
Lemma reservations_below w : world_ok w → reserved (xw_state w) ≤ usize_MAX.
Proof. intros [_ _ _ W B]. lia. Qed.

(** ** Running the primitives *)

Section primitives.
  Context (io : nat → AppendIo) (live : nat → Liveness).

Lemma run_locked (Q : result ExecutorError ExecutorState → ExecWorld → Prop) w :
  Q (Ok (xw_state w)) w → (∀ e, Q (Err e) w) → run lock_healthy_state Q w.
Proof.
  intros Hok Herr. unfold lock_healthy_state. apply run_bind, run_operational; [|apply Herr].
  intros _. by apply run_gets.
Qed.
Lemma run_capacity room (Q : result ExecutorError unit → ExecWorld → Prop) w :
  (recorded w + room < journal_room w → Q (Ok tt) w) → (∀ e, Q (Err e) w) →
  run (ensure_append_capacity room) Q w.
Proof.
  intros Hok Herr. unfold run, ensure_append_capacity, remaining_records. cbn.
  destruct (in_healthy _); cbn; [|apply Herr]. unfold reject. case_bool_decide; [apply Herr|].
  apply Hok. unfold recorded, journal_room. lia.
Qed.

(** The world after a liveness question. *)
Definition asked (w : ExecWorld) : ExecWorld :=
  mkExecWorld (xw_config w) (xw_journal w) (xw_inner w) (xw_state w) (xw_disk w) (xw_sweep w)
    (xw_me w) (xw_appends w) (S (xw_checks w)).
Lemma asked_ok w : world_ok w → world_ok (asked w).
Proof. by apply (world_ok_same w). Qed.
Lemma run_live target deployment
    (Q : result ExecutorError (result ExecutorError unit) → ExecWorld → Prop) w :
  (∀ answer, match answer with
             | Err error => is_ok (liveness_refusal error) = true
             | Ok _ => True
             end → Q (Ok answer) (asked w)) → run (require_live_target live target deployment) Q w.
Proof.
  intros HQ. unfold require_live_target. apply run_bind. unfold run, target_is_live. cbn.
  apply HQ. by destruct (live _ _ _) as [[]|].
Qed.
Lemma run_sign granted sequence at_ms stage
    (Q : result ExecutorError (SignedRecordV1 ExecutionReceiptV1) → ExecWorld → Prop) w :
  (∀ receipt hash, canonical_hash granted = Ok hash →
     sr_payload receipt = mkExecutionReceiptV1 (eg_attempt (sr_payload granted)) hash
                            (ecf_executor (xw_config w)) sequence at_ms stage →
     Q (Ok receipt) w) →
  (∀ e, Q (Err e) w) → run (sign_receipt granted sequence at_ms stage) Q w.
Proof.
  intros Hok Herr. unfold sign_receipt. apply run_bind, run_operational; [|apply Herr]. intros _.
  run_go ltac:(apply Herr). apply sign_payload in E1. by eapply Hok.
Qed.

(** A record that applies and fits, for which [room] was asked. *)
Lemma run_commit record room (Q : result ExecutorError unit → ExecWorld → Prop) w :
  world_ok w → proper record → recorded w + room < journal_room w →
  (validate_record (xw_config w) (as_public_key xv_signer) record = Ok tt →
   accepted (apply_record (xw_config w) (as_public_key xv_signer) record) (xw_state w)) →
  (∀ s', validate_record (xw_config w) (as_public_key xv_signer) record = Ok tt →
         effect (xw_state w) record s' → reserved s' ≤ room) →
  (∀ w', world_ok w' → effect (xw_state w) record (xw_state w') →
         xw_config w' = xw_config w → Q (Ok tt) w') →
  (∀ e w', world_ok w' → Q (Err e) w') → run (commit io record) Q w.
Proof.
  intros Hw Hp Hroom Hacc Hres Hok Herr. unfold run, commit.
  destruct (validate_record _ _ _) as [[]|] eqn:Hv; [|by apply Herr]. specialize (Hacc eq_refl).
  destruct (append _ _ _ _ _) as [[[r|e] inner] d] eqn:Ea; apply append_memory in Ea.
  2: { apply Herr. apply (world_ok_same w); done. }
  destruct Ea as (Er & Ee & _). unfold accepted, run in Hacc.
  destruct (apply_record _ _ _ _) as [[[]|] s] eqn:Eap; [|done].
  pose proof Eap as Heff. apply apply_record_Ok in Heff as [_ Heff].
  apply Hok; [|done|done]. destruct Hw as [R P I W B].
  constructor; unfold recorded, journal_room in *; cbn; try done; rewrite Er.
  - unfold events. rewrite map_app, exec_replay_app. fold (events (in_records (xw_inner w))). rewrite R.
    cbn. rewrite Ee. unfold mbind, execM_bind, stateR_bind. by rewrite Eap.
  - unfold events. rewrite map_app. apply Forall_app; split; [done|]. cbn. rewrite Ee. by constructor.
  - rewrite length_app. cbn. apply Hres in Heff; [lia|done].
Qed.

Lemma apply_accepted cf key record s :
  validate_record cf key record = Ok tt →
  accepted match record with
           | XRegister _ receipt => apply_register receipt
           | XUndeploy _ deployment => apply_undeploy deployment
           | XClaim grant receipt | XRefuse grant receipt => apply_claim grant receipt
           | XControl request receipt => apply_control request receipt
           | XHomeFence query => apply_fence query
           | XReceipt receipt => apply_receipt receipt
           end s → accepted (apply_record cf key record) s.
Proof. intros V A. unfold apply_record. by eapply accepted_check. Qed.

(** ** Operations *)

Definition steady {A} (m : exM A) : Prop := ∀ w, world_ok w → run m (fun _ w' => world_ok w') w.

Ltac ex_step err :=
  lazymatch goal with
  | |- run lock_healthy_state _ _ => apply run_locked; [|intros ?; err]
  | |- run ensure_operational _ _ => apply run_operational; [intros _|err]
  | |- run (ensure_append_capacity _) _ _ =>
      apply run_capacity; [let H := fresh "Room" in intros H|intros ?; err]
  | |- run (require_live_target _ _ _) _ _ =>
      apply run_live; let H := fresh "L" in intros ? H
  | |- run (sign_receipt _ _ _ _) _ _ =>
      apply run_sign; [let H := fresh "Sh" in let P := fresh "Sp" in intros ? ? H P|intros ?; err]
  | |- run (commit _ _) _ _ => fail
  | _ => run_step err
  end; cbn [asked xw_config xw_journal xw_inner xw_state xw_disk xw_sweep xw_me].
Ltac ex_go err := repeat (ex_step err).
#[local] Hint Resolve asked_ok : world.

Lemma register_new_steady request receipt w :
  world_ok w →
  dr_deployment (sr_payload receipt) ∉ es_deployment_tombstones (xw_state w) →
  (∀ existing, es_deployments (xw_state w) !! dr_deployment (sr_payload receipt) = Some existing →
     same_deployment_binding (sr_payload existing) (sr_payload receipt) = true) →
  run (register_new io request receipt) (fun _ w' => world_ok w') w.
Proof.
  intros Hw Ht Hb. unfold register_new. ex_go ltac:(done).
  rewrite (reservations_exact w Hw) in Room.
  eapply run_commit; [done|done|done|..|done].
  - intros V. apply apply_accepted; [done|]. by apply register_accepted.
  - intros s' V E. by rewrite (effect_reserved_same _ _ _ E I).
  - intros w' Hw' _ _. by apply run_ret.
Qed.
Lemma register_steady request : steady (register io live request).
Proof.
  intros w Hw. unfold register. ex_go ltac:(auto with world); [by apply asked_ok|..];
    match goal with H : SignedRecordV1_sign _ _ _ = Ok ?r |- _ =>
      apply sign_payload in H as Ep; assert (dr_deployment (sr_payload r)
        = dg_deployment (sr_payload request)) as Ed by (by rewrite Ep) end; to_prop;
    apply register_new_steady; cbn; rewrite ?Ed; auto using asked_ok;
    intros existing Hx; [|by rewrite Hx in *]. simplify_eq. done.
Qed.

Lemma sign_undeploy_steady id : steady (sign_undeploy_receipt id).
Proof. intros w Hw. unfold sign_undeploy_receipt. ex_go ltac:(done). done. Qed.
Lemma undeploy_steady request : steady (undeploy io request).
Proof.
  intros w Hw. unfold undeploy. ex_go ltac:(done); [by apply sign_undeploy_steady|].
  rewrite (reservations_exact w Hw) in Room.
  eapply run_commit; [done|done|done|..|done].
  - intros V. apply apply_accepted; [done|]. apply undeploy_accepted. by eexists.
  - intros s' V E'. by rewrite (effect_reserved_same _ _ _ E' I).
  - intros w' Hw' _ _. by apply sign_undeploy_steady.
Qed.

(** *** Receipts of a known attempt *)

Lemma attempt_key_inj x y : attempt_key x = attempt_key y → x = y.
Proof. destruct x, y. unfold attempt_key. cbn. congruence. Qed.

Lemma receipt_verifies w receipt a :
  world_ok w → es_attempts (xw_state w) !! attempt_key (ex_attempt (sr_payload receipt)) = Some a →
  ex_grant_hash (sr_payload receipt) = xa_grant_hash a →
  validate_record (xw_config w) (as_public_key xv_signer) (XReceipt receipt) = Ok tt →
  verify_execution_receipt receipt (xa_grant a) = Ok tt.
Proof.
  intros Hw Ha Hh V. destruct (world_replayed w Hw) as [L _ Hr].
  destruct (Hr _ _ Ha) as [He _]. destruct (lo_attempts _ L _ _ Ha) as [Hk Hg Hc _ _ _ _ _ _ _ _ _].
  apply attempt_key_inj in Hk. pose proof (wo_identity w Hw) as Hid. cbn in V. unfold validate_receipt in V.
  inv_result. match goal with R : reject _ _ = Ok _ |- _ => apply reject_Ok in R end. to_prop.
  unfold verify_execution_receipt. rewrite Hg. cbn.
  match goal with S : ex_invalid _ = Ok _ |- _ => apply map_err_Ok in S; rewrite S end. cbn.
  rewrite decide_False by auto.
  match goal with S : SignedRecordV1_verify _ = true |- _ => rewrite S end. cbn.
  rewrite decide_False by auto. rewrite Hc. cbn. rewrite decide_False by auto.
  rewrite He, !bool_decide_eq_false_2 by (intros X; apply X; congruence). done.
Qed.

Lemma receipt_record_accepted w receipt a noted :
  let r := sr_payload receipt in
  world_ok w → recorded w < journal_room w →
  es_attempts (xw_state w) !! attempt_key (ex_attempt r) = Some a →
  ex_grant_hash r = xa_grant_hash a → ex_sequence r = N.of_nat (length (xa_receipts a)) + 1 →
  (xa_terminal a = true → is_control_acknowledgment (ex_stage r) = true) →
  (is_observation (ex_stage r) = true → xa_observation_count a < MAX_ATTEMPT_OBSERVATIONS) →
  note_observation (ex_stage r) a = Ok noted →
  (∀ k, answered receipt = Some k → is_Some (es_controls (xw_state w) !! k)) →
  validate_record (xw_config w) (as_public_key xv_signer) (XReceipt receipt) = Ok tt →
  accepted (apply_record (xw_config w) (as_public_key xv_signer) (XReceipt receipt)) (xw_state w).
Proof.
  intros r Hw Hroom Ha Hh Hq Ht Ho Hn Hk V. apply apply_accepted; [done|].
  destruct (world_replayed w Hw) as [L Nx _]. pose proof (wo_width w Hw) as W.
  unfold usize_MAX in W. eapply receipt_accepted; try done; [|lia].
  by eapply receipt_verifies.
Qed.

Lemma last_claimed w key a receipt :
  world_ok w → es_attempts (xw_state w) !! key = Some a → last_receipt a = Some receipt →
  ex_stage (sr_payload receipt) = XClaimed → length (xa_receipts a) = 1%nat.
Proof.
  intros Hw Ha Hl Hs. destruct (world_replayed w Hw) as [_ _ Hr].
  destruct (Hr _ _ Ha) as [_ C]. unfold last_receipt in Hl. rewrite last_lookup in Hl.
  apply C in Hl as Hi; [|done]. apply lookup_lt_Some in Hl. lia.
Qed.

(** An attempt that is claimed and nothing more. *)
Definition claimed_only (granted : SignedRecordV1 ExecutionGrantV1) (w : ExecWorld) : Prop :=
  ∃ a, es_attempts (xw_state w) !! attempt_key (eg_attempt (sr_payload granted)) = Some a
       ∧ canonical_hash granted = Ok (xa_grant_hash a)
       ∧ xa_terminal a = false ∧ length (xa_receipts a) = 1%nat.

Lemma refuse_claimed_steady granted error w :
  world_ok w → claimed_only granted w → run (refuse_claimed io granted error) (fun _ w' => world_ok w') w.
Proof.
  intros Hw (a & Ha & Hh & Ht & Hl). unfold refuse_claimed, sign_liveness_refusal. ex_go ltac:(done).
  rewrite (reservations_exact w Hw) in Room.
  assert (ex_attempt (sr_payload receipt) = eg_attempt (sr_payload granted)) as Ea by (by rewrite Sp).
  eapply run_commit; [done|cbn; by rewrite Sp|done|..|done].
  - eapply receipt_record_accepted; rewrite ?Ea; rewrite ?Sp; cbn; try done;
      [lia|congruence|by rewrite Hl|by rewrite Ht|unfold answered; by rewrite Sp].
  - intros s' V E'. pose proof (effect_reserved_receipt _ _ a _ E') as Er. rewrite Ea in Er.
    specialize (Er Ha). unfold released in Er. rewrite Sp, Ht in Er. cbn in Er. lia.
  - intros w' Hw' _ _. by apply run_ret.
Qed.

Lemma function_call_steady granted : steady (function_call granted).
Proof. intros w Hw. unfold function_call. ex_go ltac:(done). done. Qed.
Lemma start_claimed_steady granted claimed target w :
  world_ok w → claimed_only granted w →
  run (start_claimed io granted claimed target) (fun _ w' => world_ok w') w.
Proof.
  intros Hw (a & Ha & Hh & Ht & Hl). unfold start_claimed. ex_go ltac:(done).
  rewrite (reservations_exact w Hw) in Room.
  assert (ex_attempt (sr_payload receipt) = eg_attempt (sr_payload granted)) as Ea by (by rewrite Sp).
  eapply run_commit; [done|cbn; by rewrite Sp|done|..|done].
  - eapply receipt_record_accepted; rewrite ?Ea; rewrite ?Sp; cbn; try done;
      [lia|congruence|by rewrite Hl|by rewrite Ht|unfold answered; by rewrite Sp].
  - intros s' V E'. pose proof (effect_reserved_receipt _ _ a _ E') as Er. rewrite Ea in Er.
    specialize (Er Ha). lia.
  - intros w' Hw' _ _. apply run_bind. eapply run_mono; [by apply function_call_steady|].
    intros [call|e] w2 Hw2; [by apply run_ret|done].
Qed.

Lemma claimed_only_asked granted w : claimed_only granted w → claimed_only granted (asked w).
Proof. done. Qed.
#[local] Hint Resolve claimed_only_asked refuse_claimed_steady start_claimed_steady : world.

Lemma claim_existing_steady granted existing hash w :
  world_ok w → canonical_hash granted = Ok hash →
  es_attempts (xw_state w) !! attempt_key (eg_attempt (sr_payload granted)) = Some existing →
  run (claim_existing io live granted hash existing) (fun _ w' => world_ok w') w.
Proof.
  intros Hw Hh Ha. unfold claim_existing. ex_step ltac:(done). ex_step ltac:(done).
  ex_step ltac:(done). ex_step ltac:(done). to_prop.
  destruct (negb (xa_terminal existing) && _) eqn:Hc; [|by apply run_ret].
  apply andb_true_iff in Hc as [Ht%negb_true_iff Hs%bool_decide_eq_true].
  assert (claimed_only granted w) as Hcl.
  { exists existing. split_and!; [done|congruence|done|]. by eapply last_claimed. }
  do 6 ex_step ltac:(auto with world); auto using asked_ok with world.
Qed.

(** A claim leaves the attempt claimed and nothing more. *)
Lemma effect_claimed_only granted receipt s s' :
  effect s (XClaim granted receipt) s' → ex_stage (sr_payload receipt) = XClaimed →
  es_attempts s !! attempt_key (eg_attempt (sr_payload granted)) = None →
  ∃ a, es_attempts s' !! attempt_key (eg_attempt (sr_payload granted)) = Some a
       ∧ canonical_hash granted = Ok (xa_grant_hash a)
       ∧ xa_terminal a = false ∧ length (xa_receipts a) = 1%nat.
Proof.
  intros E Hs Hn. inversion E as [| |? ? ? ? St| ? ? ? hash ? ? ? ? ? St| | | | |]; subst;
    injection St as <- <-; [congruence|]. eexists. cbn. split; [apply lookup_insert_eq|].
  cbn. by rewrite Hs.
Qed.

Lemma claim_start_accepted w granted receipt record registered hash grant_hash :
  let g := sr_payload granted in
  world_ok w → recorded w < journal_room w → starts record = Some (granted, receipt) →
  es_deployments (xw_state w) !! dr_deployment (sr_payload (eg_deployment g)) = Some registered →
  canonical_hash registered = Ok hash → canonical_hash (eg_deployment g) = Ok hash →
  canonical_hash granted = Ok grant_hash →
  es_attempts (xw_state w) !! attempt_key (eg_attempt g) = None →
  validate_home_fence (xw_state w) granted = Ok tt →
  validate_record (xw_config w) (as_public_key xv_signer) record = Ok tt →
  accepted (apply_record (xw_config w) (as_public_key xv_signer) record) (xw_state w).
Proof.
  intros g Hw Hroom Es Hd Hr Hg Hh Ha Hf V. destruct (world_replayed w Hw) as [L Nx _].
  pose proof (wo_width w Hw) as W. pose proof (lo_reserved _ L) as B. unfold usize_MAX in W.
  apply apply_accepted; [done|].
  assert (accepted (apply_claim granted receipt) (xw_state w)) as A
    by (eapply claim_accepted; try done; lia).
  destruct record; try done; by injection Es as -> ->.
Qed.

Lemma claim_new_steady granted grant_hash w :
  world_ok w → canonical_hash granted = Ok grant_hash →
  validate_home_fence (xw_state w) granted = Ok tt →
  es_attempts (xw_state w) !! attempt_key (eg_attempt (sr_payload granted)) = None →
  run (claim_new io live granted) (fun _ w' => world_ok w') w.
Proof.
  intros Hw Hh Hf Ha. pose proof (asked_ok w Hw) as Hw1.
  pose proof (reservations_below w Hw) as Hb. pose proof (reservations_exact w Hw) as Hx.
  pose proof (wo_width _ Hw1) as Hwd.
  unfold claim_new, sign_liveness_refusal. ex_go ltac:(done); to_prop; subst.
  - eapply (run_commit _ _ _ (asked w)); [done|done|done|..|done].
    + eapply claim_start_accepted; try done; lia.
    + intros s' V E'. apply effect_reserved in E'. cbn in E'. lia.
    + intros w' Hw' E' _. ex_step ltac:(done). ex_step ltac:(done).
      assert (claimed_only granted w') as Hcl
        by (eapply effect_claimed_only; [done|by rewrite Sp|done]).
      ex_step ltac:(done); auto using asked_ok with world.
  - rewrite (reservations_exact _ Hw) in Room.
    eapply (run_commit _ _ _ (asked w)); [done|done|done|..|done].
    + eapply claim_start_accepted; try done; lia.
    + intros s' V E'. rewrite (effect_reserved_refused _ _ _ _ E'); [done|by rewrite Sp].
    + intros w' Hw' _ _. by apply run_ret.
Qed.

Lemma claim_steady granted : steady (claim io live granted).
Proof.
  intros w Hw. unfold claim. ex_go ltac:(done); destruct_units.
  - by eapply claim_existing_steady.
  - by eapply claim_new_steady.
Qed.

(** *** Stages *)

(** What the three blocks of [record_stage] establish. *)
Lemma check_observation_Ok stage a :
  check_observation stage a = Ok None →
  (is_observation stage = true → xa_observation_count a < MAX_ATTEMPT_OBSERVATIONS)
  ∧ ∃ noted, note_observation stage a = Ok noted.
Proof.
  unfold check_observation, known_observation, note_observation.
  destruct stage; try (by intros _; split; [|eexists]); intros E;
    destruct (_ ≫= _) as [existing|]; [by case_decide| |by case_decide|]; inv_result;
    repeat match goal with R : reject _ _ = Ok _ |- _ => apply reject_Ok in R end;
    to_prop; (split; [intros _; lia|]); (rewrite decide_False by done); by eexists.
Qed.
Lemma check_terminal_Ok stage a :
  check_terminal stage a = Ok None →
  xa_terminal a = true → is_control_acknowledgment stage = true.
Proof.
  unfold check_terminal. intros E Ht. rewrite Ht in E. destruct (is_control_acknowledgment stage);
    [done|]. cbn in E. split_cases.
Qed.
Lemma check_acknowledgment_Ok attempt stage s control disposition detail :
  check_acknowledgment attempt stage s = Ok None →
  stage = XControlAcknowledged control disposition detail →
  ∃ c, es_controls s !! control_key attempt control = Some c ∧ kr_acknowledged c = None.
Proof.
  intros E ->. cbn in E. inv_result. eexists. split; [done|]. by split_cases.
Qed.

Lemma consumed_released attempt receipt a s :
  ex_attempt (sr_payload receipt) = attempt →
  consumed_reservations attempt (ex_stage (sr_payload receipt)) a s = released receipt a s.
Proof.
  intros <-. unfold consumed_reservations, released, frees_control, answered.
  destruct (ex_stage (sr_payload receipt)); try done. cbn.
  destruct (es_controls s !! _) as [c|]; [|done]. case_decide;
    [by rewrite bool_decide_eq_true_2|by rewrite bool_decide_eq_false_2].
Qed.

(** The next receipt of an attempt, signed for its grant. *)
Lemma run_next_receipt w attempt a receipt hash at_ms stage
    (Q : result ExecutorError unit → ExecWorld → Prop) :
  let s := xw_state w in
  world_ok w → es_attempts s !! attempt_key attempt = Some a →
  canonical_hash (xa_grant a) = Ok hash →
  sr_payload receipt = mkExecutionReceiptV1 (eg_attempt (sr_payload (xa_grant a))) hash
    (ecf_executor (xw_config w)) (N.of_nat (length (xa_receipts a)) + 1) at_ms stage →
  stage ≠ XClaimed →
  check_observation stage a = Ok None → check_acknowledgment attempt stage s = Ok None →
  check_terminal stage a = Ok None →
  recorded w + (durable_record_reservations s - consumed_reservations attempt stage a s)
    < journal_room w →
  (∀ w', world_ok w' → effect s (XReceipt receipt) (xw_state w') →
         xw_config w' = xw_config w → Q (Ok tt) w') →
  (∀ e w', world_ok w' → Q (Err e) w') → run (commit io (XReceipt receipt)) Q w.
Proof.
  intros s Hw Ha Hh Sp Hst E1 E2 E3 Room Hok Herr. subst s. rewrite (reservations_exact w Hw) in Room.
  destruct (lo_attempts _ (world_ledger w Hw) _ _ Ha) as [Hk _ Hc _ _ _ _ _ _ _ _ _].
  apply attempt_key_inj in Hk.
  assert (ex_attempt (sr_payload receipt) = attempt) as Ea by (by rewrite Sp).
  assert (ex_stage (sr_payload receipt) = stage) as Es by (by rewrite Sp).
  destruct (check_observation_Ok _ _ E1) as [Ho [noted Hn]].
  rewrite <- Es, consumed_released in Room by done.
  eapply run_commit; [done|cbn; by rewrite Es|exact Room|..|done|done].
  - eapply receipt_record_accepted; rewrite ?Ea, ?Es; try done.
    + lia.
    + rewrite Sp. cbn. congruence.
    + by rewrite Sp.
    + by eapply check_terminal_Ok.
    + intros k. unfold answered. rewrite Ea, Es. destruct stage; try done. intros [= <-].
      destruct (check_acknowledgment_Ok _ _ _ _ _ _ E2 eq_refl) as (c & -> & _). done.
  - intros s' V E'. pose proof (effect_reserved_receipt _ _ a _ E') as Er. rewrite Ea in Er.
    specialize (Er Ha). lia.
Qed.

Lemma record_stage_steady attempt stage at_ms :
  stage ≠ XClaimed → steady (record_stage io attempt stage at_ms).
Proof.
  intros Hst w Hw. unfold record_stage, record_new_stage. ex_go ltac:(done); try done. subst.
  by eapply run_next_receipt.
Qed.

(** *** Controls and queries *)

Lemma requeue_control_steady request hash existing w :
  let caller := sr_payload (xc_caller_request (sr_payload request)) in
  world_ok w → canonical_hash request = Ok hash → validate_control_fence (xw_state w) request = Ok tt →
  es_controls (xw_state w) !! control_key (xc_attempt (sr_payload request)) (jc_control caller)
  = Some existing →
  run (requeue_control io request hash existing) (fun _ w' => world_ok w') w.
Proof.
  intros caller Hw Hh Hf Hk. unfold requeue_control. ex_go ltac:(done); [done|].
  rewrite (reservations_exact w Hw) in Room. apply andb_false_iff in N.
  assert (same_control_intent (kr_request existing) request = true) as Hi.
  { destruct N as [N|N]; [|by apply negb_false_iff]. by to_prop. }
  eapply run_commit; [done|done|done|..|done].
  - intros V. apply apply_accepted; [done|]. apply validate_control in V as [_ Va].
    eapply control_again_accepted; [done|done| |done|done]. by rewrite Va.
  - intros s' V E'. apply validate_control in V as [_ Va].
    rewrite (effect_reserved_control _ _ _ existing _ E'); [done|]. by rewrite Va.
  - intros w' Hw' _ _. by apply run_ret.
Qed.

Lemma queue_control_steady request hash a w :
  let q := sr_payload request in
  let caller := sr_payload (xc_caller_request q) in
  world_ok w → canonical_hash request = Ok hash → validate_control_fence (xw_state w) request = Ok tt →
  es_controls (xw_state w) !! control_key (xc_attempt q) (jc_control caller) = None →
  es_attempts (xw_state w) !! attempt_key (xc_attempt q) = Some a →
  xa_grant_hash a = xc_grant_hash q →
  eg_owner (sr_payload (xa_grant a)) = jh_home (jc_handle caller) →
  run (queue_control io request a) (fun _ w' => world_ok w') w.
Proof.
  intros q caller Hw Hh Hf Hk Ha Eg Eo. unfold queue_control. ex_go ltac:(done). to_prop.
  rewrite (reservations_exact w Hw) in Room. pose proof (wo_width w Hw) as Hwd.
  pose proof (reservations_below w Hw) as Hb.
  destruct (world_replayed w Hw) as [L Nx _]. pose proof (lo_reserved _ L) as Hr.
  destruct (lo_attempts _ L _ _ Ha) as [Hak _ Hc _ _ _ _ _ _ _ _ _]. apply attempt_key_inj in Hak.
  assert (ex_attempt (sr_payload receipt) = xc_attempt q) as Ea by (by rewrite Sp).
  eapply run_commit; [done|done|done|..|done].
  - intros V. apply apply_accepted; [done|]. unfold usize_MAX in *.
    eapply control_accepted; rewrite ?Ea; fold q; fold caller; try done; try lia.
    + eapply receipt_verifies; rewrite ?Ea; [done|done|rewrite Sp; cbn; congruence|].
      clear -V. cbn in V. inv_result. cbn. by destruct_units.
    + by rewrite Sp.
  - intros s' V E'. apply effect_reserved in E'. lia.
  - intros w' Hw' _ _. by apply run_ret.
Qed.

Lemma record_control_queued_steady attempt request :
  steady (record_control_queued io attempt request).
Proof.
  intros w Hw. unfold record_control_queued. ex_go ltac:(done); destruct_units; to_prop; subst.
  - by eapply requeue_control_steady.
  - eapply queue_control_steady; try done; congruence.
Qed.

Lemma query_steady request : steady (query io request).
Proof.
  intros w Hw. unfold query. do 15 ex_step ltac:(done). to_prop. destruct_units.
  match goal with |- context [if ?b then _ else _] => destruct b end; [|ex_go ltac:(done); done].
  ex_go ltac:(done). rewrite (reservations_exact w Hw) in Room.
  eapply run_commit; [done|done|done|..|done].
  - intros V. apply apply_accepted; [done|]. eapply fence_accepted; [done|congruence|congruence|done].
  - intros s' V E'. by rewrite (effect_reserved_same _ _ _ E' I).
  - intros w' Hw' _ _. ex_go ltac:(done). done.
Qed.

(** *** Recovery *)

Definition key_of_attempt (a : AttemptRecord) : AttemptKey :=
  attempt_key (eg_attempt (sr_payload (xa_grant a))).

(** What an attempt may be closed with when nobody knows whether its call was
    made: an outcome that says so, and that the Home may retry only where
    delivery allows a repetition. *)
Definition unknown_outcome (delivery : DeliveryModeV1) (stage : ExecutionStageV1) : Prop :=
  match delivery with
  | AtMostOnce => ∃ reason, stage = XIndeterminate reason true
  | AtLeastOnce _ =>
      ∃ fields, stage = XFailed (VInline (JObject fields)) true
        ∧ ("execution_may_have_occurred", JBool true) ∈ fields
  end.

Lemma ambiguity_unknown delivery : unknown_outcome delivery (ambiguity_stage delivery).
Proof. destruct delivery; eexists; [done|]. split; [done|]. by left. Qed.

(** [a'] is [a] closed as its delivery mode asks. *)
Definition closed_as (a a' : AttemptRecord) : Prop :=
  ∃ receipt, xa_grant a' = xa_grant a ∧ xa_receipts a' = xa_receipts a ++ [receipt]
    ∧ unknown_outcome (eg_delivery (sr_payload (xa_grant a))) (ex_stage (sr_payload receipt))
    ∧ xa_terminal a' = true.

Lemma run_close a w (Q : result ExecutorError unit → ExecWorld → Prop) :
  world_ok w → es_attempts (xw_state w) !! key_of_attempt a = Some a → is_ambiguous a = true →
  (∀ w' a', world_ok w' → closed_as a a' → xw_config w' = xw_config w →
     es_attempts (xw_state w') = <[key_of_attempt a := a']> (es_attempts (xw_state w)) →
     Q (Ok tt) w') →
  (∀ e w', world_ok w' → Q (Err e) w') → run (close_ambiguous io a) Q w.
Proof.
  intros Hw Ha Ham Hok Herr. unfold close_ambiguous. ex_go ltac:(by apply Herr).
  apply sign_payload in E0. apply andb_true_iff in Ham as [Ht%negb_true_iff _].
  assert (ex_stage (sr_payload a1) = ambiguity_stage (eg_delivery (sr_payload (xa_grant a)))) as Es
    by (by rewrite E0).
  eapply run_next_receipt; try exact E0; try done.
  - by destruct (eg_delivery _).
  - by destruct (eg_delivery _).
  - by destruct (eg_delivery _).
  - unfold check_terminal. by rewrite Ht.
  - unfold consumed_reservations. rewrite Ht. by destruct (eg_delivery _).
  - intros w' Hw' Heff Hcf. apply effect_receipt_inv in Heff as (b & noted & Hb & _ & _ & _ & Hn & Hs).
    assert (ex_attempt (sr_payload a1) = eg_attempt (sr_payload (xa_grant a))) as Ea by (by rewrite E0).
    rewrite Ea in Hb, Hs. assert (b = a) as -> by (unfold key_of_attempt in Ha; congruence).
    apply note_observation_same in Hn as (Eg & _ & Er & _).
    eapply Hok; [done| |done|exact Hs]. exists a1.
    rewrite received_grant, received_receipts, Er.
    split_and!; [done|done|rewrite Es; apply ambiguity_unknown|].
    unfold received. cbn. rewrite Es. destruct (eg_delivery _); cbn; by rewrite orb_true_r.
Qed.
End primitives.
End world.
