(* ===== verification/ExecRecover.v ===== *)
(** * Executors that run and restart

    Opening an executor closes every attempt whose call may have been made, and
    from then on every message keeps its memory equal to what its journal
    replays to, with room for every record it has reserved. *)

From stdpp Require Import sorting.
From S2P Require Import Prelude Serde GxShape GxHash FnCrypto FnTypes FnWire FnCustody FnMessages.
From S2P Require Import AetherAddress AetherEnvelope Journal HomeLedger HomeLaws HomeApi HomeProtocol.
From S2P Require Import HomeApiLaws HomeServe ExecLedger Executor ExecServe ExecSample ExecLaws.
From S2P Require Import ExecOnce ExecInv ExecReplay ExecSteady.

(** ** The journal that is opened *)

Section opened.
  Context `{!Sha256} `{!JsonText} `{!Ed25519} {T : Type} `{!ToValue T} `{!JournalDecode T}.

Lemma recover_lines_bounded schema caps (authority : Authority T) lines acc tip heads rs tip' heads' :
  N.of_nat (length acc) ≤ max_records caps →
  recover_lines schema caps authority lines acc tip heads = Ok (rs, tip', heads') →
  N.of_nat (length rs) ≤ max_records caps.
Proof.
  revert acc tip heads. induction lines as [|line lines IH]; intros acc tip heads Hc E; cbn in E.
  { by simplify_eq. }
  repeat case_decide; try done. inv_result.
  repeat match goal with H : (if ?b then Err _ else _) = Ok _ |- _ => destruct b eqn:? end; try done.
  inv_result. eapply IH; [|done]. rewrite length_app. cbn. lia.
Qed.

Lemma open_bounded io name schema signer caps d j (inner : Inner T) d' :
  open_with_schema io name schema signer caps d = (Ok (j, inner), d') →
  jn_caps j = caps ∧ N.of_nat (length (in_records inner)) ≤ max_records caps.
Proof.
  unfold open_with_schema, open_with_authority. intros E.
  case_decide; [done|]. destruct (negb _); [done|]. destruct (_ || _); [done|].
  apply stateR_bind_Ok in E as (_ & d1 & _ & E).
  apply stateR_bind_Ok in E as (log & d2 & _ & E).
  apply stateR_bind_Ok in E as ([[rs tip] heads] & d3 & Hrec & E).
  do 4 apply stateR_bind_Ok in E as (_ & ? & _ & E).
  injection E as <- <- _. injection Hrec as Hrec _. split; [done|]. cbn.
  unfold recover in Hrec. destruct (found _ log) as [content|].
  - inv_result. case_decide; [done|]. inv_result. destruct (_ && _); [done|].
    eapply recover_lines_bounded; [|done]. cbn. lia.
  - injection Hrec as <- _ _. cbn. lia.
Qed.
End opened.

Section recover.
  Context `{!Sha256} `{!JsonText} `{!Ed25519} `{!WireSerde} `{!CustodySerde} `{!MessageSerde}.
  Context `{!ExecSerde} `{!ExecutorServices} `{!AuthorityEncodes}.
  Context (io : nat → AppendIo).

(** [close_all] closes the attempts of the list and leaves the others. *)
Lemma run_close_all l w :
  world_ok w → NoDup (map key_of_attempt l) →
  Forall (fun a => es_attempts (xw_state w) !! key_of_attempt a = Some a ∧ is_ambiguous a = true) l →
  run (close_all io l) (fun r w' => world_ok w' ∧ (is_ok r = true →
    (∀ a, a ∈ l → ∃ a', es_attempts (xw_state w') !! key_of_attempt a = Some a' ∧ closed_as a a')
    ∧ ∀ k, k ∉ map key_of_attempt l → es_attempts (xw_state w') !! k = es_attempts (xw_state w) !! k)) w.
Proof.
  revert w. induction l as [|a l IH]; intros w Hw Nd F; cbn [close_all].
  { apply run_ret. split; [done|]. intros _. split; [|done]. intros a Ha. by apply elem_of_nil in Ha. }
  apply Forall_cons in F as [[Ha Ham] F]. apply NoDup_cons in Nd as [Hni Nd].
  apply run_bind, run_close; [done..| |by intros e w' Hw'].
  intros w1 a' Hw1 Hc _ Hs.
  assert (∀ b, b ∈ l → key_of_attempt b ≠ key_of_attempt a) as Hne.
  { intros b Hb E. apply Hni. fold (key_of_attempt a). rewrite <- E.
    by apply list_elem_of_fmap_2. }
  eapply run_mono; [apply IH; [done|done|]|].
  - rewrite Forall_forall in F |- *. intros b Hb. rewrite Hs, lookup_insert_ne by (symmetry; by apply Hne).
    by apply F.
  - intros r w2 [Hw2 Hpost]. split; [done|]. intros Hr. destruct (Hpost Hr) as [Hl Ho]. split.
    + intros b [->|Hb]%elem_of_cons; [|by apply Hl]. exists a'. split; [|done].
      rewrite Ho, Hs by done. apply lookup_insert_eq.
    + intros k Hk. cbn in Hk. apply not_elem_of_cons in Hk as [Hk1 Hk2].
      rewrite Ho, Hs by done. by apply lookup_insert_ne.
Qed.

(** The attempts that recovery closes. *)
Definition ambiguous_attempts (s : ExecutorState) : list AttemptRecord :=
  List.filter is_ambiguous (attempts_in_order s).*2.

Lemma ambiguous_elem s a :
  ledger_ok s → a ∈ ambiguous_attempts s ↔
  es_attempts s !! key_of_attempt a = Some a ∧ is_ambiguous a = true.
Proof.
  intros Hok. unfold ambiguous_attempts.
  rewrite list_elem_of_In, List.filter_In, <- list_elem_of_In, list_elem_of_fmap.
  unfold attempts_in_order.
  split; intros [Ha Hm]; (split; [|done]).
  - destruct Ha as ([k b] & -> & Hb). rewrite merge_sort_Permutation in Hb.
    apply elem_of_map_to_list in Hb. cbn in *. apply Hok in Hb as Hk.
    unfold key_of_attempt. by rewrite (ao_key _ _ _ Hk).
  - exists (key_of_attempt a, a). split; [done|].
    rewrite merge_sort_Permutation. by apply elem_of_map_to_list.
Qed.
Lemma ambiguous_keys s : ledger_ok s → NoDup (map key_of_attempt (ambiguous_attempts s)).
Proof.
  intros Hok. unfold ambiguous_attempts.
  assert (NoDup (map key_of_attempt (attempts_in_order s).*2)) as Nd.
  { replace (map key_of_attempt (attempts_in_order s).*2) with (attempts_in_order s).*1.
    - unfold attempts_in_order. rewrite merge_sort_Permutation. apply NoDup_fst_map_to_list.
    - change (map key_of_attempt (attempts_in_order s).*2)
        with (key_of_attempt <$> (attempts_in_order s).*2).
      rewrite <- list_fmap_compose. apply Forall_fmap_ext_1, Forall_forall. intros [k a] Hin.
      unfold attempts_in_order in Hin. rewrite merge_sort_Permutation in Hin.
      apply elem_of_map_to_list in Hin. cbn. symmetry. by apply (ao_key _ _ _ (lo_attempts _ Hok _ _ Hin)). }
  revert Nd. generalize (attempts_in_order s).*2. intros l. induction l as [|a l IH]; [done|].
  cbn. intros [Hni Nd]%NoDup_cons. destruct (is_ambiguous a); [|by apply IH].
  cbn. apply NoDup_cons; split; [|by apply IH]. intros Hin. apply Hni.
  apply list_elem_of_fmap in Hin as (b & -> & Hb). apply list_elem_of_fmap_2.
  rewrite list_elem_of_In, List.filter_In in Hb. apply list_elem_of_In, Hb.
Qed.

(** What opening knows before the counters are compared with the journal. *)
Record replays (w : ExecWorld) : Prop := {
  ry_replay : replay (xw_config w) (as_public_key xv_signer) (events (in_records (xw_inner w)))
                ExecutorState_default = (Ok tt, xw_state w);
  ry_proper : Forall proper (events (in_records (xw_inner w)));
  ry_identity : as_public_key xv_signer = ecf_executor (xw_config w);
  ry_width : journal_room w ≤ usize_MAX;
  ry_records : recorded w ≤ journal_room w
}.

Lemma run_reservations w (Q : result ExecutorError unit → ExecWorld → Prop) :
  (durable_record_reservations (xw_state w) ≤ journal_room w - recorded w → Q (Ok tt) w) →
  (∀ e, Q (Err e) w) → run check_reservations Q w.
Proof.
  intros Hok Herr. unfold check_reservations. run_step ltac:(apply Herr). run_step ltac:(apply Herr).
  run_step ltac:(apply Herr). run_step ltac:(apply Herr). unfold run, remaining_records. cbn.
  destruct (in_healthy _); cbn; [|apply Herr]. unfold reject. case_bool_decide; [apply Herr|].
  apply Hok. unfold recorded, journal_room. lia.
Qed.

Lemma replays_ok w :
  replays w → durable_record_reservations (xw_state w) ≤ journal_room w - recorded w → world_ok w.
Proof.
  intros [R P I W B] Hd. constructor; try done.
  assert (replayed (xw_config w) (recorded w) (xw_state w)) as [L Nx _].
  { unfold recorded.
    replace (length (in_records (xw_inner w))) with (length (events (in_records (xw_inner w))))
      by apply length_map.
    change (N.of_nat _) with (0 + N.of_nat (length (events (in_records (xw_inner w))))).
    by eapply replay_replayed, replayed_default. }
  pose proof (lo_reserved _ L). unfold durable_record_reservations, reserved in *. lia.
Qed.

(** Recovery closes exactly the attempts whose call may have been made. *)
Definition settled (s s' : ExecutorState) : Prop :=
  (∀ k a, es_attempts s !! k = Some a → is_ambiguous a = true →
     ∃ a', es_attempts s' !! k = Some a' ∧ closed_as a a')
  ∧ ∀ k, (∀ a, es_attempts s !! k = Some a → is_ambiguous a = false) →
      es_attempts s' !! k = es_attempts s !! k.

Lemma run_recover w :
  replays w →
  run (recover_executor io) (fun r w' => is_ok r = true →
    world_ok w' ∧ settled (xw_state w) (xw_state w')) w.
Proof.
  intros Hw. unfold recover_executor. apply run_bind, run_reservations; [|done]. intros Hd.
  apply replays_ok in Hw; [|done]. pose proof (world_ledger w Hw) as L.
  do 8 (run_step ltac:(done)). run_step ltac:(done).
  eapply run_mono; [apply run_close_all; [done|by apply ambiguous_keys|]|].
  { apply Forall_forall. intros b Hb. by apply ambiguous_elem. }
  intros r w1 [Hw1 Hpost]. destruct r as [[]|]; [|done]. destruct (Hpost eq_refl) as [Hl Ho].
  apply run_reservations; [intros _ _|done]. split; [done|]. split.
  - intros k b Hb Hm. assert (key_of_attempt b = k) as <- by (by eapply ao_key, lo_attempts).
    apply Hl. by apply ambiguous_elem.
  - intros k Hk. apply Ho. intros (b & -> & Hb)%list_elem_of_fmap.
    apply ambiguous_elem in Hb as [Hb Hm]; [|done]. by rewrite (Hk _ Hb) in Hm.
Qed.
End recover.

(** ** Opening *)

Section open.
  Context `{!Sha256} `{!JsonText} `{!Ed25519} `{!WireSerde} `{!CustodySerde} `{!MessageSerde}.
  Context `{!ExecSerde} `{!ExecutorServices} `{!AuthorityEncodes}.
  Context `{!JournalDecode ExecutorLedgerRecord}.

(** What [open] finds on disk: a ledger made of proper records. *)
Definition opens (io : nat → AppendIo) (oio : OpenIo) (cf : ExecutorConfig) (d : Disk)
    (found : ExecutorState) (w : ExecWorld) : Prop :=
  ∃ journal inner d1 d2,
    open_with_schema oio EXECUTOR_JOURNAL_NAME EXECUTOR_CHAIN_SCHEMA xv_signer
      (ecf_journal_caps cf) d = (Ok (journal, inner), d1)
    ∧ Forall proper (events (in_records inner))
    ∧ replay cf (as_public_key xv_signer) (events (in_records inner)) ExecutorState_default
      = (Ok tt, found)
    ∧ FunctionExecutor_open io oio cf d = (Ok w, d2).

Lemma opens_settled io oio cf d found w :
  opens io oio cf d found w → max_records (ecf_journal_caps cf) ≤ usize_MAX →
  world_ok w ∧ settled found (xw_state w).
Proof.
  intros (journal & inner & d1 & d2 & Eo & P & Er & Ex) Hcap.
  assert (as_public_key xv_signer = ecf_executor cf) as Hid.
  { revert Ex. unfold FunctionExecutor_open. destruct (config_ok cf) as [[]|] eqn:Ec; [|done].
    intros _. unfold config_ok in Ec. inv_result.
    match goal with R : reject (bool_decide _) _ = Ok _ |- _ => apply reject_Ok in R end. by to_prop. }
  apply open_parts in Ex as (journal' & inner' & d1' & s & Eo' & Er' & Ec).
  rewrite Eo in Eo'. injection Eo' as <- <- <-. rewrite Er in Er'. injection Er' as <-.
  destruct (open_bounded _ _ _ _ _ _ _ _ _ Eo) as [Ecap Hlen].
  pose proof (run_recover io (mkExecWorld cf journal inner found d1 ExecutorRecoverySweep_default
    None 0 0)) as R. unfold run in R. rewrite Ec in R. apply R; [|done].
  constructor; unfold journal_room, recorded; cbn; by rewrite ?Ecap.
Qed.

(** The found attempts with two receipts are past their claim. *)
Lemma opens_not_claimed io oio cf d found w key a :
  opens io oio cf d found w → es_attempts found !! key = Some a →
  (2 ≤ length (xa_receipts a))%nat → last_is_claimed a = false.
Proof.
  intros (journal & inner & d1 & d2 & _ & P & Er & _) Ha Hl.
  pose proof (replay_replayed _ _ _ 0 _ _ Er P (replayed_default cf)) as [_ _ Hr].
  destruct (Hr _ _ Ha) as [_ C]. unfold last_is_claimed, last_receipt. rewrite last_lookup.
  destruct (xa_receipts a !! _) as [r|] eqn:Hi; [|done]. apply bool_decide_eq_false_2.
  intros Hs. apply C in Hi; [lia|done].
Qed.
End open.

(** ** Messages *)

Create HintDb steady.

Section steady.
  Context `{!Sha256} `{!JsonText} `{!Ed25519} `{!WireSerde} `{!CustodySerde} `{!MessageSerde}.
  Context `{!ExecSerde} `{!ExecutorServices} `{!AuthorityEncodes} `{!ExecutorCodec}.
  Context (io : nat → AppendIo) (live : nat → Liveness).

Lemma steady_bind {A B} (m : exM A) (f : A → exM B) :
  steady m → (∀ a, steady (f a)) → steady (m ≫= f).
Proof.
  intros Hm Hf w Hw. apply run_bind. eapply run_mono; [by apply Hm|].
  intros [a|e] w' Hw'; [by apply Hf|done].
Qed.
Lemma steady_raise {A} (r : result ExecutorError A) : steady (raise r).
Proof. by intros w Hw. Qed.
Lemma steady_gets {A} (f : ExecWorld → A) : steady (gets f).
Proof. by intros w Hw. Qed.
Lemma steady_ret {A} (a : A) : steady (mret a).
Proof. by intros w Hw. Qed.
Lemma steady_operational : steady ensure_operational.
Proof. by intros w Hw. Qed.
Lemma steady_locked : steady lock_healthy_state.
Proof. intros w Hw. by apply run_locked. Qed.
Lemma steady_asked target deployment : steady (target_is_live live target deployment).
Proof. intros w Hw. by apply asked_ok. Qed.
Lemma steady_live target deployment : steady (require_live_target live target deployment).
Proof. intros w Hw. apply run_live. intros. by apply asked_ok. Qed.
Lemma steady_sweep (f : ExecWorld → ExecutorRecoverySweep) :
  steady (modify (fun w => set_executor_sweep (f w) w)).
Proof. intros w Hw. by apply (world_ok_same w). Qed.
#[local] Hint Resolve steady_raise steady_gets steady_ret steady_operational steady_locked
  steady_asked steady_live : steady.

Ltac stay :=
  repeat (first [ progress auto with steady | apply steady_bind; [|intros ?]
                | case_match | case_decide ]).

Lemma function_control_steady granted endorsement : steady (function_control granted endorsement).
Proof. unfold function_control. stay. Qed.
Lemma live_attempt_target_steady granted b : steady (live_attempt_target live granted b).
Proof. unfold live_attempt_target. stay. Qed.
Lemma grant_steady attempt : steady (grant attempt).
Proof. unfold grant. stay. Qed.
Lemma recovery_home_target_steady granted : steady (recovery_home_target granted).
Proof. unfold recovery_home_target. stay. Qed.
Lemma attempt_terminal_steady attempt : steady (attempt_terminal attempt).
Proof. unfold attempt_terminal. stay. Qed.
Lemma deployment_is_live_steady deployment : steady (deployment_is_live live deployment).
Proof. unfold deployment_is_live. stay. Qed.
#[local] Hint Resolve deployment_is_live_steady : steady.
Lemma take_live_steady limit q rows : steady (take_live live limit q rows).
Proof. revert limit. induction rows as [|row rows IH]; intros [|limit]; cbn [take_live]; stay. Qed.
#[local] Hint Resolve take_live_steady : steady.
Lemma deployments_steady q : steady (deployments live q).
Proof. unfold deployments. stay. Qed.
#[local] Hint Resolve function_control_steady live_attempt_target_steady grant_steady
  recovery_home_target_steady attempt_terminal_steady claim_steady record_stage_steady
  record_control_queued_steady query_steady register_steady undeploy_steady deployments_steady : steady.

(** A computation on worlds that keeps [world_ok]. *)
Definition keeps_ok {A} (m : ExecWorld → A * ExecWorld) : Prop := ∀ w, world_ok w → world_ok (m w).2.
Lemma steady_keeps {A} (m : exM A) : steady m → keeps_ok m.
Proof. intros Hm w Hw. exact (Hm w Hw). Qed.

(** Run the next computation on the world. *)
Ltac keep m w :=
  let K := fresh "K" in
  assert (world_ok (m w).2) as K by (apply steady_keeps; [auto with steady|done]);
  destruct (m w) as [? ?]; cbn [fst snd] in K.

Lemma forward_control_keeps granted control : keeps_ok (forward_control live granted control).
Proof.
  intros w Hw. unfold forward_control, live_control_forward_target.
  keep (live_attempt_target live granted true) w. keep (function_control granted control) e. done.
Qed.
Lemma forward_recovered_keeps granted control : keeps_ok (forward_recovered live granted control).
Proof.
  intros w Hw. unfold forward_recovered, live_control_forward_target.
  keep (live_attempt_target live granted true) w. destruct r; [|done].
  keep (function_control granted control) e. by destruct r.
Qed.
Lemma dispatch_recovery_keeps work : keeps_ok (dispatch_attempt_recovery io live work).
Proof.
  intros w Hw. unfold dispatch_attempt_recovery.
  set (granted := match work with WorkResume g _ | WorkReceipt g _ _ => g end).
  keep (recovery_home_target granted) w. destruct r as [home|]; [|done].
  destruct work as [g claimed|g receipt [control|]]; [| |done].
  - keep (claim io live g) e. destruct r as [[]|]; done.
  - pose proof (forward_recovered_keeps g control e K) as K'.
    by destruct (forward_recovered live g control e).
Qed.
Lemma take_next_keeps : keeps_ok take_next_receipt_recovery.
Proof.
  apply steady_keeps. unfold take_next_receipt_recovery. apply steady_bind; [auto with steady|intros state].
  apply steady_bind; [auto with steady|intros sweep]. destruct (negb _ || _); [auto with steady|].
  destruct (List.find _ _); (apply steady_bind; [|auto with steady]); intros w Hw;
    by apply (world_ok_same w).
Qed.
Lemma sweep_loop_keeps fuel ds : keeps_ok (sweep_loop io live fuel ds).
Proof.
  revert ds. induction fuel as [|fuel IH]; intros ds w Hw; cbn [sweep_loop]; [done|].
  case_decide; [done|]. case_decide; [done|]. pose proof (take_next_keeps w Hw) as K.
  destruct (take_next_receipt_recovery w) as [[[work|]|] w1]; [|done|done].
  pose proof (dispatch_recovery_keeps work w1 K) as K1.
  destruct (dispatch_attempt_recovery io live work w1) as [more w2]. cbn in K1.
  destruct (operational w2); [by apply IH|done].
Qed.
Lemma continue_sweep_keeps : keeps_ok (ExecServe.continue_recovery_sweep io live).
Proof.
  intros w Hw. unfold ExecServe.continue_recovery_sweep. destruct (operational w); [|done].
  cbn [negb]. pose proof (sweep_loop_keeps (S (N.to_nat (xr_receipts_remaining (xw_sweep w)))) [] w Hw) as K.
  destruct (sweep_loop _ _ _ _ w) as [[ds|] w1]; [|done]. by apply (world_ok_same w1).
Qed.
Lemma recovery_dispatches_keeps : keeps_ok (ExecServe.recovery_dispatches io live).
Proof.
  intros w Hw. unfold ExecServe.recovery_dispatches. keep lock_healthy_state w.
  destruct r as [state|]; [|done]. apply continue_sweep_keeps. by apply (world_ok_same e).
Qed.

Lemma send_receipt_keeps (m : exM (SignedRecordV1 ExecutionReceiptV1 * Address)) :
  steady m → keeps_ok (send_receipt m).
Proof.
  intros Hm w Hw. apply Hm in Hw. unfold run in Hw. unfold send_receipt.
  by destruct (m w) as [[[r t]|] w1].
Qed.
Lemma observe_steady env granted attempt stage :
  stage ≠ XClaimed → steady (observe io live env granted attempt stage).
Proof. intros Hs. unfold observe, live_control_target. stay. Qed.
#[local] Hint Resolve observe_steady : steady.

Lemma observed_steady env (m : exM (SignedRecordV1 ExecutionGrantV1)) attempt stage :
  steady m → stage ≠ XClaimed →
  steady (granted ← m; observe io live env granted attempt stage).
Proof. intros Hm Hs. apply steady_bind; [done|]. auto with steady. Qed.
Lemma on_result_steady env r : steady (on_result io live env r).
Proof.
  unfold on_result. do 2 (apply steady_bind; [auto with steady|intros _]).
  apply observed_steady; [auto with steady|]. by destruct (fr_outcome r).
Qed.
Lemma on_deploy_keeps env message : keeps_ok (on_deploy io live env message).
Proof.
  intros w Hw. unfold on_deploy. destruct message; try done; unfold deploy_response.
  - keep (register io live request) w. by destruct r.
  - keep (deployments live query) w. by destruct r.
  - keep (undeploy io request) w. by destruct r.
Qed.
Lemma on_grant_keeps granted : keeps_ok (on_grant io live granted).
Proof.
  intros w Hw. unfold on_grant. keep (claim io live granted) w.
  keep (recovery_home_target granted) e. by destruct r0.
Qed.
Lemma after_control_keeps granted request receipt : keeps_ok (after_control live granted request receipt).
Proof.
  intros w Hw. unfold after_control. keep (attempt_terminal (xc_attempt (sr_payload request))) w.
  destruct r as [terminal|]; [|done].
  set (m := if terminal then raise _ else recovery_home_target granted).
  assert (steady m) as Sm by (subst m; destruct terminal; auto with steady). apply Sm in K. unfold run in K.
  destruct (m e) as [[home|] w2]; [|done]. destruct (_ && negb terminal); [|done].
  pose proof (forward_control_keeps granted request w2 K) as K1.
  by destruct (forward_control live granted request w2).
Qed.
Lemma on_control_keeps env request : keeps_ok (on_control io live env request).
Proof.
  intros w Hw. unfold on_control. destruct (operational w); [|done]. cbn [negb].
  destruct (is_ok _); [|done]. cbn [negb]. keep (grant (xc_attempt (sr_payload request))) w.
  destruct r as [granted|]; [|done]. destruct (_ || _); [done|].
  keep (record_control_queued io (xc_attempt (sr_payload request)) request) e.
  destruct r as [outcome|]; [|done]. destruct (negb _); [done|]. by apply after_control_keeps.
Qed.
Lemma on_execute_keeps env message : keeps_ok (on_execute io live env message).
Proof.
  intros w Hw. unfold on_execute. destruct message; try done.
  - by apply on_grant_keeps.
  - by apply send_receipt_keeps; [auto with steady|].
  - by apply on_control_keeps.
Qed.
Lemma on_call_keeps env message : keeps_ok (on_call io live env message).
Proof.
  intros w Hw. unfold on_call, on_function_observation, on_control_result.
  destruct message; try done; (apply send_receipt_keeps; [|done]); [apply on_result_steady|..];
    repeat (apply steady_bind; [solve [auto with steady]|intros ?]); by apply observe_steady.
Qed.
Lemma decoded_keeps {A} `{!SerdeJson A} env (handler : A → ExecWorld → Outcome * ExecWorld) :
  (∀ m, keeps_ok (handler m)) → keeps_ok (decoded env handler).
Proof. intros Hh w Hw. unfold decoded. destruct (from_slice _); [by apply Hh|done]. Qed.

Lemma handle_keeps env : keeps_ok (FunctionExecutor_handle io live env).
Proof.
  intros w Hw. unfold FunctionExecutor_handle. case_decide.
  { destruct (ExecServe.is_authenticated_recovery_poke env w); [by apply continue_sweep_keeps|done]. }
  destruct (operational w); [|done]. cbn [negb]. case_decide; [done|].
  match goal with |- context [let (_, _) := ?m in _] => assert (world_ok m.2) as K; [|by destruct m] end.
  repeat case_decide; [| | |done]; (apply decoded_keeps; [|done]); intros m.
  - apply on_deploy_keeps.
  - apply on_execute_keeps.
  - apply on_call_keeps.
Qed.

(** Binding changes the configuration, but nothing that a record is checked
    against. *)
Lemma replay_bind me cf key rs s : replay (bind_config me cf) key rs s = replay cf key rs s.
Proof.
  revert s. induction rs as [|r rs IH]; intros s; [done|]. cbn. unfold mbind, execM_bind, stateR_bind.
  assert (apply_record (bind_config me cf) key r s = apply_record cf key r s) as -> by (by destruct r).
  destruct (apply_record cf key r s) as [[]]; [apply IH|done].
Qed.
Lemma bind_keeps me : keeps_ok (FunctionExecutor_bind io live me).
Proof.
  intros w Hw. unfold FunctionExecutor_bind. set (w1 := mkExecWorld _ _ _ _ _ _ _ _ _).
  assert (world_ok w1) as K.
  { destruct Hw as [R P I W B]. constructor; try done. cbn. by rewrite replay_bind. }
  apply recovery_dispatches_keeps in K.
  by destruct (ExecServe.recovery_dispatches io live w1).
Qed.
End steady.

(** ** Lives *)

Section lives.
  Context `{!Sha256} `{!JsonText} `{!Ed25519} `{!WireSerde} `{!CustodySerde} `{!MessageSerde}.
  Context `{!ExecSerde} `{!ExecutorServices} `{!AuthorityEncodes} `{!ExecutorCodec}.
  Context `{!JournalDecode ExecutorLedgerRecord}.

(** An executor that was opened on some disk and has handled some messages. *)
Inductive alive : ExecWorld → Prop :=
  | alive_open io oio cf d found w :
      opens io oio cf d found w → max_records (ecf_journal_caps cf) ≤ usize_MAX → alive w
  | alive_message io live env w : alive w → alive (FunctionExecutor_handle io live env w).2
  | alive_bind io live me w : alive w → alive (FunctionExecutor_bind io live me w).2.

Lemma alive_ok w : alive w → world_ok w.
Proof.
  induction 1 as [io oio cf d found w Ho Hc|io live env w _ IH|io live me w _ IH].
  - by eapply opens_settled.
  - by apply handle_keeps.
  - by apply bind_keeps.
Qed.

(** *** Reserved stages *)

(** Failures other than for want of room. *)
Lemma raise_not_full {A} (f : string → ExecutorError) (r : result ContractError A) :
  (∀ m, f m ≠ ExCapacity) →
  map_err (fun e => f (ContractError_to_string e)) r ≠ Err ExCapacity.
Proof. intros Hf. destruct r as [|e]; [done|]. cbn. intros [= E]. by eapply Hf. Qed.

Lemma sign_receipt_not_full granted sequence at_ms stage w :
  (sign_receipt granted sequence at_ms stage w).1 ≠ Err ExCapacity.
Proof.
  unfold sign_receipt, mbind, exM_bind, stateR_bind, ensure_operational, raise, lift_result, gets.
  unfold ensure_healthy. destruct (in_healthy _); [|done]. cbn.
  unfold ex_invalid, ex_signing.
  destruct (canonical_hash granted) as [hash|]; cbn; [|done].
  destruct (ExecutionReceiptV1_validate _) as [[]|]; cbn; [|done].
  by apply (raise_not_full ExSigning).
Qed.

Lemma sign_receipt_payload granted sequence at_ms stage w receipt w' :
  sign_receipt granted sequence at_ms stage w = (Ok receipt, w') →
  w' = w ∧ ∃ hash, canonical_hash granted = Ok hash
    ∧ sr_payload receipt = mkExecutionReceiptV1 (eg_attempt (sr_payload granted)) hash
        (ecf_executor (xw_config w)) sequence at_ms stage.
Proof.
  intros E. pose proof (run_sign granted sequence at_ms stage (fun r w' => ∀ receipt, r = Ok receipt →
    w' = w ∧ ∃ hash, canonical_hash granted = Ok hash
    ∧ sr_payload receipt = mkExecutionReceiptV1 (eg_attempt (sr_payload granted)) hash
        (ecf_executor (xw_config w)) sequence at_ms stage) w) as R.
  unfold run in R. rewrite E in R. apply R; [|done|done].
  intros r hash Hh Sp r' [= <-]. eauto.
Qed.

Lemma commit_not_full io record w :
  (validate_record (xw_config w) (as_public_key xv_signer) record = Ok tt →
   accepted (apply_record (xw_config w) (as_public_key xv_signer) record) (xw_state w)) →
  validate_record (xw_config w) (as_public_key xv_signer) record ≠ Err ExCapacity →
  (commit io record w).1 ≠ Err ExCapacity.
Proof.
  intros A V. unfold commit. destruct (validate_record _ _ _) as [[]|e]; [|done].
  specialize (A eq_refl). destruct (append _ _ _ _ _) as [[[r|e] inner] d]; [|done].
  unfold accepted, run in A.
  by destruct (apply_record _ _ _ _) as [[[]|] s].
Qed.

Lemma consumed_positive attempt stage a s :
  0 < consumed_reservations attempt stage a s →
  check_observation stage a = Ok None
  ∧ (stage_terminal stage = true ∧ xa_terminal a = false
     ∨ ∃ control disposition detail c, stage = XControlAcknowledged control disposition detail
         ∧ es_controls s !! control_key attempt control = Some c ∧ kr_acknowledged c = None).
Proof.
  unfold consumed_reservations. destruct stage, (xa_terminal a); cbn; try lia; intros Hc;
    (split; [done|]); try (by left); right; destruct (es_controls s !! _) as [c|] eqn:E; try lia;
    case_decide; try lia; by eexists _, _, _, c.
Qed.

Lemma reserved_positive w attempt stage a :
  world_ok w → es_attempts (xw_state w) !! attempt_key attempt = Some a →
  0 < consumed_reservations attempt stage a (xw_state w) → 1 ≤ reserved (xw_state w).
Proof.
  intros Hw Ha [_ Hc]%consumed_positive. pose proof (world_ledger w Hw) as L. unfold reserved.
  destruct Hc as [[_ Ht]|(control & dp & dt & c & _ & Hk & Hn)].
  - pose proof (weigh_lookup holds_slot _ _ _ Ha) as W. unfold holds_slot at 1 in W. cbn in W.
    rewrite (lo_nonterminal _ L), nonterminal_weigh. rewrite Ht in W. cbn in W. lia.
  - pose proof (weigh_lookup awaits _ _ _ Hk) as W. unfold awaits at 1 in W. cbn in W.
    rewrite (lo_unacknowledged _ L), unacknowledged_weigh. rewrite bool_decide_eq_true_2 in W by done. lia.
Qed.

Lemma reserved_room io w attempt stage a receipt hash at_ms :
  let s := xw_state w in
  world_ok w → es_attempts s !! attempt_key attempt = Some a →
  0 < consumed_reservations attempt stage a s →
  canonical_hash (xa_grant a) = Ok hash →
  sr_payload receipt = mkExecutionReceiptV1 (eg_attempt (sr_payload (xa_grant a))) hash
    (ecf_executor (xw_config w)) (N.of_nat (length (xa_receipts a)) + 1) at_ms stage →
  (commit io (XReceipt receipt) w).1 ≠ Err ExCapacity.
Proof.
  intros s Hw Ha Hc Hh Sp. subst s. pose proof (reserved_positive _ _ _ _ Hw Ha Hc) as Hr.
  pose proof (wo_room w Hw) as Hroom. apply consumed_positive in Hc as [Ho Hk].
  destruct (lo_attempts _ (world_ledger w Hw) _ _ Ha) as [Hkey _ Hch _ _ _ _ _ _ _ _ _].
  apply attempt_key_inj in Hkey. destruct (check_observation_Ok _ _ Ho) as [Hobs [noted Hn]].
  assert (ex_stage (sr_payload receipt) = stage) as Es by (by rewrite Sp).
  assert (ex_attempt (sr_payload receipt) = attempt) as Ea by (by rewrite Sp).
  apply commit_not_full.
  - eapply receipt_record_accepted; rewrite ?Ea, ?Es; try done.
    + lia.
    + rewrite Sp. cbn. congruence.
    + by rewrite Sp.
    + destruct Hk as [[_ Ht]|(control & dp & dt & c & -> & _)]; [by rewrite Ht|done].
    + intros k. unfold answered. rewrite Es, Ea.
      destruct Hk as [[Ht _]|(control & dp & dt & c & -> & Hc & _)]; [by destruct stage|].
      intros [= <-]. by rewrite Hc.
  - cbn. unfold validate_receipt. unfold ex_invalid.
    destruct (SignedRecordV1_validate _ _); [|done]. cbn. unfold reject. by destruct (_ || _).
Qed.

Lemma reserved_stage io w attempt stage at_ms a :
  world_ok w → es_attempts (xw_state w) !! attempt_key attempt = Some a →
  0 < consumed_reservations attempt stage a (xw_state w) →
  (record_stage io attempt stage at_ms w).1 ≠ Err ExCapacity.
Proof.
  intros Hw Ha Hc. pose proof (consumed_positive _ _ _ _ Hc) as [Ho Hk].
  unfold record_stage, record_new_stage, lock_healthy_state, mbind, exM_bind, stateR_bind,
    ensure_operational, ensure_healthy, raise, lift_result, gets.
  destruct (in_healthy _) eqn:Hh; [|done]. cbn. unfold ex_invalid.
  destruct (ExecutionStageV1_validate stage) as [[]|]; cbn; [|done].
  unfold find_attempt. rewrite Ha. cbn. rewrite Ho. cbn.
  assert (check_acknowledgment attempt stage (xw_state w) = Ok None) as ->.
  { destruct Hk as [[Ht _]|(control & dp & dt & c & -> & Hc' & Hn)]; [by destruct stage|].
    cbn. rewrite Hc'. cbn. by rewrite Hn. }
  assert (check_terminal stage a = Ok None) as ->.
  { unfold check_terminal. destruct Hk as [[_ ->]|(control & dp & dt & c & -> & _)]; [done|].
    cbn. by rewrite andb_false_r. }
  cbn. unfold remaining_records. rewrite Hh. cbn.
  pose proof (reserved_positive _ _ _ _ Hw Ha Hc) as Hr. pose proof (wo_room w Hw) as Hroom.
  rewrite (reservations_exact w Hw). unfold reject.
  rewrite bool_decide_eq_false_2; [|unfold recorded, journal_room in *; lia]. cbn.
  pose proof (sign_receipt_not_full (xa_grant a) (N.of_nat (length (xa_receipts a)) + 1) at_ms stage w) as Sf.
  destruct (sign_receipt _ _ _ _ w) as [[receipt|e] w1] eqn:Es; [|by destruct e].
  apply sign_receipt_payload in Es as (-> & hash & Hh' & Sp).
  pose proof (reserved_room io w attempt stage a receipt hash at_ms Hw Ha Hc Hh' Sp) as Cf.
  destruct (commit io (XReceipt receipt) w) as [[[]|e] w2]; [done|]. by destruct e.
Qed.
End lives.

(** ** A concrete crash *)

Module crash_sample.
Import exec_sample.

(** The text of a journal line is the kind of its record, and the text of a head
    its sequence number. *)
Definition field (key : string) (v : json) : option json := as_object v ≫= json_get key.
Definition tag_text : JsonText := fun v =>
  Ok match field "payload" v ≫= field "event", field "next_sequence" v with
     | Some (JString tag), _ => bytes_of_string tag
     | _, Some (JNumber n) => bytes_of_string n
     | _, _ => []
     end.
Definition tag_exec : ExecSerde :=
  @Build_ExecSerde null_value null_value (fun record => Ok (JString
    match record with
    | XRegister _ _ => "registered"
    | XClaim _ _ => "claimed"
    | XReceipt receipt =>
        match ex_stage (sr_payload receipt) with XStarted => "started" | _ => "closed" end
    | _ => "other"
    end)).
#[local] Existing Instances zero_sha tag_text toy_ed25519 null_serde null_custody
  api_sample.null_messages tag_exec services codec.

Definition after_register : ExecWorld :=
  (FunctionExecutor_handle io live (message SCHEMA_FUNCTION_DEPLOY_V1) fresh).2.
Definition after_grant : ExecWorld :=
  (FunctionExecutor_handle io live (message SCHEMA_EXECUTE_V1) after_register).2.

Definition line_of (record : SignedRecordV1 (ChainEntry ExecutorLedgerRecord)) : bytes :=
  match canonical_json_bytes record with Ok b => b | Err _ => [] end.
Definition decode : JournalDecode ExecutorLedgerRecord :=
  Build_JournalDecode _
    (fun b => ok_or (List.find (fun record => bool_decide (line_of record = b))
                      (in_records (xw_inner after_grant))) "unknown record")
    (fun b => if decide (b = bytes_of_string "3") then Ok (mkHead 3 zero_digest)
              else Err "unknown head").
#[local] Existing Instance decode.

(** The executor stops after the call and starts again from its disk. *)
Definition reopened : result ExecutorError ExecWorld * Disk :=
  FunctionExecutor_open io open_ok config (xw_disk after_grant).
Definition found : ExecutorState :=
  (replay config (as_public_key xv_signer) (events (in_records (xw_inner after_grant)))
     ExecutorState_default).2.
Definition key : AttemptKey := attempt_key sample_attempt.

Definition world_of (r : result ExecutorError ExecWorld) : ExecWorld :=
  match r with Ok w => w | Err _ => fresh end.
Definition after_crash : ExecWorld := world_of reopened.1.
Definition attempt_of (s : ExecutorState) : AttemptRecord :=
  default (first_attempt granted "" api_sample.claimed 0) (es_attempts s !! key).

Lemma authority_encodes : AuthorityEncodes.
Proof. intros a. eexists. reflexivity. Qed.
Definition open_journal : result JournalError (Journal * Inner ExecutorLedgerRecord) * Disk :=
  open_with_schema open_ok EXECUTOR_JOURNAL_NAME EXECUTOR_CHAIN_SCHEMA xv_signer
    (ecf_journal_caps config) (xw_disk after_grant).
Definition records_of (r : result JournalError (Journal * Inner ExecutorLedgerRecord)) :=
  match r with Ok (_, inner) => Some (in_records inner) | Err _ => None end.
Definition is_proper (record : ExecutorLedgerRecord) : bool :=
  match record with
  | XReceipt receipt => bool_decide (ex_stage (sr_payload receipt) ≠ XClaimed)
  | _ => true
  end.
Lemma records_open : records_of open_journal.1 = Some (in_records (xw_inner after_grant)).
Proof. vm_compute. reflexivity. Qed.
Lemma records_proper : forallb is_proper (events (in_records (xw_inner after_grant))) = true.
Proof. vm_compute. reflexivity. Qed.
Lemma exec_records_replay :
  is_ok (replay config (as_public_key xv_signer) (events (in_records (xw_inner after_grant)))
           ExecutorState_default).1 = true.
Proof. vm_compute. reflexivity. Qed.
Lemma reopened_ok : is_ok reopened.1 = true.
Proof. vm_compute. reflexivity. Qed.
Lemma ok_pair {E S} (p : result E unit * S) : is_ok p.1 = true → p = (Ok tt, p.2).
Proof. by destruct p as [[[]|] s]. Qed.
Lemma proper_events l : forallb is_proper l = true → Forall proper l.
Proof.
  intros F. apply Forall_forall. intros r Hr. apply list_elem_of_In in Hr.
  apply (proj1 (forallb_forall is_proper l) F) in Hr.
  destruct r; try done. cbn in *. by apply bool_decide_eq_true in Hr.
Qed.
Lemma world_pair (p : result ExecutorError ExecWorld * Disk) :
  is_ok p.1 = true → p = (Ok (world_of p.1), p.2).
Proof. by destruct p as [[]]. Qed.
Lemma records_pair (p : result JournalError (Journal * Inner ExecutorLedgerRecord) * Disk) records :
  records_of p.1 = Some records →
  ∃ journal inner, p = (Ok (journal, inner), p.2) ∧ in_records inner = records.
Proof. destruct p as [[[journal inner]|] d]; [|done]. cbn. intros [= <-]. eauto. Qed.

Lemma crash_opens : opens io open_ok config (xw_disk after_grant) found after_crash.
Proof.
  destruct (records_pair _ _ records_open) as (journal & inner & Eo & Er).
  exists journal, inner, open_journal.2, reopened.2. rewrite Er.
  refine (conj Eo (conj (proper_events _ records_proper) (conj _ _))).
  - exact (ok_pair _ exec_records_replay).
  - exact (world_pair reopened reopened_ok).
Qed.

(** An executor on an empty disk that is sent the registration and the grant. *)
Definition created : result ExecutorError ExecWorld * Disk :=
  FunctionExecutor_open io open_ok config Journal.sample.empty_disk.
Definition newborn : ExecWorld := world_of created.1.
Definition running : ExecWorld :=
  (FunctionExecutor_handle io live (message SCHEMA_EXECUTE_V1)
     (FunctionExecutor_handle io live (message SCHEMA_FUNCTION_DEPLOY_V1) newborn).2).2.
Lemma created_ok : is_ok created.1 = true.
Proof. vm_compute. reflexivity. Qed.
Lemma running_alive : alive running.
Proof.
  apply alive_message, alive_message.
  eapply (alive_open io open_ok config Journal.sample.empty_disk ExecutorState_default).
  - destruct (records_pair (open_with_schema open_ok EXECUTOR_JOURNAL_NAME EXECUTOR_CHAIN_SCHEMA
      xv_signer (ecf_journal_caps config) Journal.sample.empty_disk) [] ltac:(vm_compute; reflexivity))
      as (journal & inner & Eo & Er).
    eexists journal, inner, _, created.2. rewrite Er.
    refine (conj Eo (conj _ (conj eq_refl _))); [constructor|].
    exact (world_pair created created_ok).
  - vm_compute. discriminate.
Qed.
Definition final_stage : ExecutionStageV1 := XSucceeded (VInline JNull).
Definition pending : option N :=
  a ← es_attempts (xw_state running) !! attempt_key sample_attempt;
  Some (consumed_reservations sample_attempt final_stage a (xw_state running)).
Definition result_recorded : result ExecutorError RecordOutcome * ExecWorld :=
  record_stage io sample_attempt final_stage None running.
Lemma pending_one : pending = Some 1.
Proof. vm_compute. reflexivity. Qed.

Lemma pending_value {A} (o : option A) (f : A → N) n :
  (a ← o; Some (f a)) = Some n → ∃ a, o = Some a ∧ f a = n.
Proof. destruct o as [a|]; [|done]. intros [= <-]. eauto. Qed.

Lemma found_started :
  es_attempts found !! key = Some (attempt_of found) ∧ xa_terminal (attempt_of found) = false
  ∧ (2 ≤ length (xa_receipts (attempt_of found)))%nat.
Proof. vm_compute. split_and!; [reflexivity|reflexivity|lia]. Qed.
End crash_sample.

(** ** Properties *)

(** C9: what recovery does. An attempt that was started before the executor
    stopped and has no result is closed when it is opened again: as
    indeterminate under at-most-once delivery, as a retryable failure that says
    the call may have happened under at-least-once. The attempts that stay open
    are those that were claimed and never started. *)
Theorem crash_closes_calls `{!Sha256} `{!JsonText} `{!Ed25519} `{!WireSerde} `{!CustodySerde}
    `{!MessageSerde} `{!ExecSerde} `{!ExecutorServices} `{!AuthorityEncodes}
    `{!JournalDecode ExecutorLedgerRecord} (io : nat → AppendIo) (oio : OpenIo)
    (cf : ExecutorConfig) (d : Disk) (found : ExecutorState) (w : ExecWorld)
    (O : opens io oio cf d found w) (Hcap : max_records (ecf_journal_caps cf) ≤ usize_MAX) :
  (∀ key a, es_attempts found !! key = Some a → xa_terminal a = false →
     (2 ≤ length (xa_receipts a))%nat →
     ∃ a', es_attempts (xw_state w) !! key = Some a' ∧ closed_as a a')
  ∧ ∀ key a, es_attempts (xw_state w) !! key = Some a → xa_terminal a = false →
      es_attempts found !! key = Some a ∧ length (xa_receipts a) = 1%nat.
Proof.
  destruct (opens_settled _ _ _ _ _ _ O Hcap) as [Hw [Hc Hk]]. split.
  - intros key a Ha Ht Hl. apply Hc; [done|]. unfold is_ambiguous. rewrite Ht. cbn.
    apply negb_true_iff. by eapply opens_not_claimed.
  - intros key a Ha Ht.
    assert (∀ b, es_attempts found !! key = Some b → is_ambiguous b = false) as Hn.
    { intros b Hb. destruct (is_ambiguous b) eqn:Hm; [|done].
      destruct (Hc _ _ Hb Hm) as (a' & Ha' & _ & _ & _ & _ & Ht'). congruence. }
    rewrite Hk in Ha by done. split; [done|]. apply Hn in Ha as Hm. unfold is_ambiguous in Hm.
    rewrite Ht in Hm. apply negb_false_iff in Hm. rewrite <- (Hk key) in Ha by done.
    unfold last_is_claimed in Hm. destruct (last_receipt a) as [r|] eqn:Hl; [|done].
    eapply last_claimed; [done|done|done|by apply bool_decide_eq_true in Hm].
Qed.
Lemma crash_closes_calls_witness :
  ∃ a', es_attempts (xw_state crash_sample.after_crash) !! crash_sample.key = Some a'
        ∧ closed_as (crash_sample.attempt_of crash_sample.found) a'.
Proof.
  destruct crash_sample.found_started as (Ha & Ht & Hl).
  exact (proj1 (@crash_closes_calls zero_sha crash_sample.tag_text toy_ed25519 null_serde null_custody
    api_sample.null_messages crash_sample.tag_exec exec_sample.services crash_sample.authority_encodes
    crash_sample.decode exec_sample.io open_ok exec_sample.config
    (xw_disk crash_sample.after_grant) crash_sample.found crash_sample.after_crash
    crash_sample.crash_opens ltac:(vm_compute; discriminate)) _ _ Ha Ht Hl).
Defined.

(** C4: memory is the journal. Whatever an executor has been sent since it was
    opened, and however its system calls failed, replaying the records it has
    appended succeeds and gives exactly its memory; the ledger is sound, so that
    the counters recovery compares with it are exact; and the journal has room
    for every record that is reserved. *)
Theorem executor_memory_durable `{!Sha256} `{!JsonText} `{!Ed25519} `{!WireSerde} `{!CustodySerde}
    `{!MessageSerde} `{!ExecSerde} `{!ExecutorServices} `{!AuthorityEncodes} `{!ExecutorCodec}
    `{!JournalDecode ExecutorLedgerRecord} (w : ExecWorld) (A : alive w) :
  replay (xw_config w) (as_public_key xv_signer) (events (in_records (xw_inner w)))
    ExecutorState_default = (Ok tt, xw_state w)
  ∧ ledger_ok (xw_state w) ∧ validate_reservation_counters (xw_state w) = Ok tt
  ∧ recorded w + reserved (xw_state w) ≤ journal_room w.
Proof.
  apply alive_ok in A as Hw. destruct (world_replayed w Hw) as [L Nx _].
  pose proof (wo_width w Hw) as W. pose proof (wo_room w Hw) as B. unfold usize_MAX in W.
  split_and!; [by apply wo_replay|done| |done]. apply counters_valid; [done|lia].
Qed.
Lemma executor_memory_durable_witness :
  validate_reservation_counters (xw_state crash_sample.after_crash) = Ok tt.
Proof.
  destruct (@executor_memory_durable zero_sha crash_sample.tag_text toy_ed25519 null_serde null_custody
    api_sample.null_messages crash_sample.tag_exec exec_sample.services crash_sample.authority_encodes
    exec_sample.codec crash_sample.decode crash_sample.after_crash) as (_ & _ & V & _); [|exact V].
  eapply alive_open; [exact crash_sample.crash_opens|vm_compute; discriminate].
Defined.

(** A stage that gives back a reservation is never refused for want of room:
    the result of a running attempt and the acknowledgment of a queued control
    can always be recorded, however full the journal is. *)
Theorem reserved_stage_fits `{!Sha256} `{!JsonText} `{!Ed25519} `{!WireSerde} `{!CustodySerde}
    `{!MessageSerde} `{!ExecSerde} `{!ExecutorServices} `{!AuthorityEncodes} `{!ExecutorCodec}
    `{!JournalDecode ExecutorLedgerRecord} (io : nat → AppendIo) (w : ExecWorld) (A : alive w)
    (attempt : AttemptId) (stage : ExecutionStageV1) (at_ms : option N) (a : AttemptRecord)
    (Ha : es_attempts (xw_state w) !! attempt_key attempt = Some a)
    (Hc : 0 < consumed_reservations attempt stage a (xw_state w)) :
  (record_stage io attempt stage at_ms w).1 ≠ Err ExCapacity.
Proof. by eapply reserved_stage; [apply alive_ok|..]. Qed.
Lemma reserved_stage_fits_witness :
  crash_sample.result_recorded.1 ≠ Err ExCapacity.
Proof.
  destruct (crash_sample.pending_value _ _ _ crash_sample.pending_one) as (a & Ha & P).
  refine (@reserved_stage_fits zero_sha crash_sample.tag_text toy_ed25519 null_serde null_custody
    api_sample.null_messages crash_sample.tag_exec exec_sample.services crash_sample.authority_encodes
    exec_sample.codec crash_sample.decode exec_sample.io crash_sample.running crash_sample.running_alive
    sample_attempt crash_sample.final_stage None a Ha _).
  rewrite P. reflexivity.
Defined.
