(* ===== verification/ExecFence.v ===== *)
(** * Superseded Homes

    The fence an executor keeps for a Home only moves forward, over messages,
    bindings and restarts, and what a superseded Home sends is refused and
    changes nothing. *)

From stdpp Require Import sorting.
From S2P Require Import Prelude Serde GxShape GxHash FnCrypto FnTypes FnWire FnCustody FnMessages.
From S2P Require Import AetherAddress AetherEnvelope Journal HomeLedger HomeLaws HomeApi HomeProtocol.
From S2P Require Import HomeApiLaws HomeServe ExecLedger Executor ExecServe ExecSample ExecLaws.
From S2P Require Import ExecOnce ExecInv ExecReplay ExecSteady ExecRecover.

(** ** Fences advance *)

(** [f'] is [f], or of a later epoch, or of a later route of the same authority. *)
Definition fence_le (f f' : HomeFence) : Prop :=
  hf_epoch f < hf_epoch f'
  ∨ hf_epoch f = hf_epoch f' ∧ hf_operational_signer f = hf_operational_signer f'
    ∧ hf_authority_hash f = hf_authority_hash f'
    ∧ (hf_route_sequence f < hf_route_sequence f' ∨ f = f').
#[export] Instance fence_le_preorder : PreOrder fence_le.
Proof.
  split.
  - intros f. right. auto.
  - intros f g h [Hl|(E & S & A & R)] [Hl'|(E' & S' & A' & R')]; unfold fence_le; try (left; lia).
    right. split_and!; try congruence. destruct R as [R| ->], R' as [R'|<-]; auto. left. lia.
Qed.

Definition fences_advance (s s' : ExecutorState) : Prop :=
  ∀ home f, es_home_fences s !! home = Some f →
    ∃ f', es_home_fences s' !! home = Some f' ∧ fence_le f f'.
#[export] Instance fences_advance_preorder : PreOrder fences_advance.
Proof.
  split.
  - intros s home f Hf. by exists f.
  - intros s1 s2 s3 A B home f (g & Hg & Hl)%A. apply B in Hg as (h & Hh & Hl').
    exists h. split; [done|by etrans].
Qed.

Section fences.
  Context `{!Sha256} `{!JsonText} `{!Ed25519} `{!WireSerde} `{!CustodySerde} `{!MessageSerde}.
  Context `{!ExecSerde}.

(** A route that passes the fence moves it forward. *)
Lemma advanced_le stale divergent route_error r hash s s' :
  validate_fence stale divergent route_error r s = Ok tt →
  canonical_hash (hx_authority r) = Ok hash → es_home_fences s' = advanced r hash s →
  fences_advance s s'.
Proof.
  intros V Hh Es home f Hf. rewrite Es. unfold advanced, validate_fence in *.
  destruct (decide (home = hx_home r)) as [->|Hne].
  - rewrite Hf in *. destruct (fence_covers f _ _) eqn:Hc; [by exists f|].
    eexists. rewrite lookup_insert_eq. split; [done|]. unfold ex_invalid in V. rewrite Hh in V. cbn in V.
    inv_result. repeat match goal with R : reject _ _ = Ok _ |- _ => apply reject_Ok in R end.
    unfold fence_covers in Hc. to_prop. unfold fence_le. cbn.
    destruct (decide (hx_epoch r = hf_epoch f)) as [Ee|]; [|left; lia]. right.
    repeat match goal with B : bool_decide (hx_epoch r = hf_epoch f) && _ = false |- _ =>
      rewrite bool_decide_eq_true_2 in B by done; cbn in B end.
    to_prop. rewrite bool_decide_eq_true_2 in * by done. cbn in *. to_prop.
    split_and!; try congruence. left. lia.
  - exists f. split; [|done]. case_match; [done|]. by rewrite lookup_insert_ne.
Qed.

Lemma effect_fences s record s' : effect s record s' → fences_advance s s'.
Proof.
  intros E. destruct E; try done;
    unfold validate_home_fence, validate_control_fence, validate_query_fence in *;
    try (intros home f Hf; by exists f);
    (eapply advanced_le; [eassumption| |reflexivity]; done).
Qed.
Lemma replay_fences cf key rs s s' :
  replay cf key rs s = (Ok tt, s') → fences_advance s s'.
Proof.
  revert s. induction rs as [|r rs IH]; intros s; cbn; [by intros [= <-]|].
  unfold mbind, execM_bind, stateR_bind.
  destruct (apply_record cf key r s) as [[[]|] s1] eqn:E1; [|done]. intros E.
  apply apply_record_Ok in E1 as [_ Heff]. etrans; [by eapply effect_fences|by eapply IH].
Qed.
End fences.

(** ** Histories *)

Section histories.
  Context `{!Sha256} `{!JsonText} `{!Ed25519} `{!WireSerde} `{!CustodySerde} `{!MessageSerde}.
  Context `{!ExecSerde} `{!ExecutorServices} `{!AuthorityEncodes} `{!ExecutorCodec}.
  Context `{!JournalDecode ExecutorLedgerRecord} `{!CallsDecode}.

(** Messages and bindings of an executor, and restarts from a journal that has
    every record of its memory. *)
Inductive later : ExecWorld → ExecWorld → Prop :=
  | later_refl w : later w w
  | later_message w w1 io live env :
      later w w1 → later w (FunctionExecutor_handle io live env w1).2
  | later_bind w w1 io live me :
      later w w1 → later w (FunctionExecutor_bind io live me w1).2
  | later_restart w w1 w2 io oio cf d found journal inner d1 d2 :
      later w w1 →
      open_with_schema oio EXECUTOR_JOURNAL_NAME EXECUTOR_CHAIN_SCHEMA xv_signer
        (ecf_journal_caps cf) d = (Ok (journal, inner), d1) →
      in_records (xw_inner w1) `prefix_of` in_records inner →
      Forall proper (events (in_records inner)) →
      replay cf (as_public_key xv_signer) (events (in_records inner)) ExecutorState_default
        = (Ok tt, found) →
      max_records (ecf_journal_caps cf) ≤ usize_MAX →
      FunctionExecutor_open io oio cf d = (Ok w2, d2) → later w w2.

Lemma prefix_fences w w' :
  world_ok w → world_ok w' → in_records (xw_inner w) `prefix_of` in_records (xw_inner w') →
  fences_advance (xw_state w) (xw_state w').
Proof.
  intros Hw Hw' [extra P]. pose proof (wo_replay w Hw) as R. pose proof (wo_replay w' Hw') as R'.
  rewrite P in R'. unfold events in R'. rewrite map_app, exec_replay_app in R'.
  fold (events (in_records (xw_inner w))) in R'.
  destruct (replay (xw_config w') _ (events (in_records (xw_inner w))) _) as [[[]|] s1] eqn:E1; [|done].
  rewrite (replay_config _ _ _ _ _ _ _ _ R E1). by eapply replay_fences.
Qed.

Lemma later_ok w w' :
  later w w' → world_ok w →
  world_ok w' ∧ in_records (xw_inner w) `prefix_of` in_records (xw_inner w').
Proof.
  induction 1 as [w|w w1 io live env _ IH|w w1 io live me _ IH
    |w w1 w2 io oio cf d found journal inner d1 d2 _ IH Eo P F Er Hc Ex]; intros Hw.
  - done.
  - destruct (IH Hw) as [Hw1 P1]. split; [by apply handle_keeps|]. etrans; [exact P1|].
    apply (handle_traced io live env w1).
  - destruct (IH Hw) as [Hw1 P1]. split; [by apply bind_keeps|]. etrans; [exact P1|].
    apply (bind_traced io live me w1).
  - destruct (IH Hw) as [Hw1 P1].
    assert (opens io oio cf d found w2) as O by (by exists journal, inner, d1, d2).
    split; [by eapply opens_settled|]. etrans; [exact P1|]. etrans; [exact P|].
    apply open_parts in Ex as (journal' & inner' & d1' & s & Eo' & _ & Ec).
    rewrite Eo in Eo'. injection Eo' as <- <- <-.
    pose proof (recover_executor_proceeds io (mkExecWorld cf journal inner s d1
      ExecutorRecoverySweep_default None 0 0)) as [_ R _]. by rewrite Ec in R.
Qed.

(** ** Refusals *)

(** The route is behind the fence of its Home. *)
Definition superseded (r : HomeRoute) (s : ExecutorState) : Prop :=
  ∃ f, es_home_fences s !! hx_home r = Some f
    ∧ (hx_epoch r < hf_epoch f
       ∨ hx_epoch r = hf_epoch f
         ∧ (hx_signer r ≠ hf_operational_signer f ∨ hx_route_sequence r < hf_route_sequence f)).

Lemma superseded_later r s s' : fences_advance s s' → superseded r s → superseded r s'.
Proof.
  intros A (f & (f' & Hf' & Hl)%A & Hs). exists f'. split; [done|].
  destruct Hl as [Hl|(Ee & Es & _ & Hr)]; [left; naive_solver lia|].
  destruct Hs as [Hs|[E1 [Hs|Hs]]]; [left; lia|right; split; [congruence|]..].
  - left. congruence.
  - right. destruct Hr as [Hr|<-]; [lia|done].
Qed.
Lemma superseded_refused stale divergent route_error r s :
  superseded r s → is_ok (validate_fence stale divergent route_error r s) = false.
Proof.
  intros (f & Hf & Hs). unfold validate_fence. rewrite Hf. unfold ex_invalid.
  destruct (canonical_hash (hx_authority r)) as [hash|]; [|done]. cbn. unfold reject.
  destruct Hs as [Hs|[Ee Hs]].
  - by rewrite (bool_decide_eq_true_2 (hx_epoch r < _) Hs).
  - rewrite (bool_decide_eq_false_2 (hx_epoch r < _)) by lia. cbn.
    rewrite (bool_decide_eq_true_2 (hx_epoch r = _) Ee). cbn. destruct Hs as [Hs|Hs].
    + by rewrite (bool_decide_eq_true_2 (hx_signer r ≠ _) Hs).
    + destruct (bool_decide (hx_signer r ≠ _) || _); [done|]. cbn.
      by rewrite (bool_decide_eq_true_2 (hx_route_sequence r < _) Hs).
Qed.

(** Refused without effect. *)
Definition refuses {A} (m : exM A) (w : ExecWorld) : Prop := ∃ e, m w = (Err e, w).
Lemma refuses_raise {A B} (r : result ExecutorError A) (f : A → exM B) w :
  (∀ a, r = Ok a → refuses (f a) w) → refuses (raise r ≫= f) w.
Proof. intros Hf. destruct r as [a|e]; [by apply (Hf a)|]. by exists e. Qed.
Lemma refuses_gets {A B} (g : ExecWorld → A) (f : A → exM B) w :
  refuses (f (g w)) w → refuses (gets g ≫= f) w.
Proof. done. Qed.
Lemma refuses_locked {B} (f : ExecutorState → exM B) w :
  refuses (f (xw_state w)) w → refuses (lock_healthy_state ≫= f) w.
Proof.
  intros Hf. unfold refuses, lock_healthy_state, ensure_operational, ensure_healthy, mbind, exM_bind,
    stateR_bind, gets in *. destruct (in_healthy _); [done|]. by eexists.
Qed.
Lemma refuses_not_ok {A B} (r : result ExecutorError A) (f : A → exM B) w :
  is_ok r = false → refuses (raise r ≫= f) w.
Proof. intros Hr. apply refuses_raise. intros a ->. done. Qed.

Ltac refuse :=
  repeat first [ apply refuses_locked | apply refuses_gets
               | apply refuses_not_ok; apply superseded_refused; done
               | apply refuses_raise; intros ? ? ].

Lemma claim_superseded io live granted w :
  superseded (grant_route granted) (xw_state w) → refuses (claim io live granted) w.
Proof. intros Hs. unfold claim. refuse. Qed.
Lemma control_superseded io attempt request w :
  superseded (control_route request) (xw_state w) → refuses (record_control_queued io attempt request) w.
Proof. intros Hs. unfold record_control_queued. refuse. Qed.
Lemma query_superseded io request w :
  superseded (query_route request) (xw_state w) → refuses (query io request) w.
Proof. intros Hs. unfold query. refuse. Qed.
End histories.

(** ** The recovery sweep *)

Create HintDb sweep.

Section sweep.
  Context `{!Sha256} `{!JsonText} `{!Ed25519} `{!WireSerde} `{!CustodySerde} `{!MessageSerde}.
  Context `{!ExecSerde} `{!ExecutorServices} `{!ExecutorCodec}.
  Context (io : nat → AppendIo) (live : nat → Liveness).

(** Operations leave the sweep alone. *)
Definition keeps_sweep {A} (m : exM A) : Prop := ∀ w, xw_sweep (m w).2 = xw_sweep w.
Lemma keeps_sweep_bind {A B} (m : exM A) (f : A → exM B) :
  keeps_sweep m → (∀ a, keeps_sweep (f a)) → keeps_sweep (m ≫= f).
Proof.
  intros Hm Hf w. unfold mbind, exM_bind, stateR_bind. specialize (Hm w).
  destruct (m w) as [[a|e] w']; [|done]. by rewrite Hf.
Qed.
Lemma keeps_sweep_raise {A} (r : result ExecutorError A) : keeps_sweep (raise r).
Proof. done. Qed.
Lemma keeps_sweep_gets {A} (f : ExecWorld → A) : keeps_sweep (gets f).
Proof. done. Qed.
Lemma keeps_sweep_ret {A} (a : A) : keeps_sweep (mret a).
Proof. done. Qed.
Lemma keeps_sweep_operational : keeps_sweep ensure_operational.
Proof. done. Qed.
Lemma keeps_sweep_capacity n : keeps_sweep (ensure_append_capacity n).
Proof. done. Qed.
Lemma keeps_sweep_asked target deployment : keeps_sweep (target_is_live live target deployment).
Proof. done. Qed.
Lemma keeps_sweep_commit record : keeps_sweep (commit io record).
Proof.
  intros w. unfold commit. destruct (validate_record _ _ _); [|done].
  destruct (append _ _ _ _ _) as [[[] inner] d]; [|done]. by destruct (apply_record _ _ _ _).
Qed.
#[local] Hint Resolve keeps_sweep_raise keeps_sweep_gets keeps_sweep_ret keeps_sweep_operational
  keeps_sweep_capacity keeps_sweep_asked keeps_sweep_commit : sweep.
Ltac leave :=
  repeat (first [ progress auto with sweep | apply keeps_sweep_bind; [|intros ?]
                | case_match | case_decide ]).

Lemma claim_keeps_sweep granted : keeps_sweep (claim io live granted).
Proof.
  unfold claim, claim_existing, claim_new, refuse_claimed, start_claimed, sign_liveness_refusal,
    sign_receipt, function_call, require_live_target, lock_healthy_state. leave.
Qed.
Lemma live_target_keeps_sweep granted b : keeps_sweep (live_attempt_target live granted b).
Proof. unfold live_attempt_target, require_live_target, lock_healthy_state. leave. Qed.
Lemma function_control_keeps_sweep granted control : keeps_sweep (function_control granted control).
Proof. unfold function_control. leave. Qed.
Lemma home_target_keeps_sweep granted : keeps_sweep (recovery_home_target granted).
Proof. unfold recovery_home_target, lock_healthy_state. leave. Qed.

(** A claim that starts an attempt has two receipts. *)
Definition gives {A} (P : A → Prop) (m : exM A) : Prop := ∀ w a, (m w).1 = Ok a → P a.
Lemma gives_bind {A B} (P : B → Prop) (m : exM A) (f : A → exM B) :
  (∀ a, gives P (f a)) → gives P (m ≫= f).
Proof.
  intros Hf w b. unfold mbind, exM_bind, stateR_bind. destruct (m w) as [[a|e] w']; [apply Hf|done].
Qed.
Lemma gives_ret {A} (P : A → Prop) (a : A) : P a → gives P (mret a).
Proof. intros Ha w b [= <-]. done. Qed.
Definition two_receipts (outcome : ClaimOutcome) : Prop :=
  match outcome with ClaimClaimed receipts _ _ => length receipts = 2%nat | _ => True end.
Lemma claim_gives granted : gives two_receipts (claim io live granted).
Proof.
  unfold claim, claim_existing, claim_new, refuse_claimed, start_claimed.
  repeat first [ apply gives_ret; done | apply gives_ret; by case_match
               | apply gives_bind; intros ? | case_match ].
Qed.

(** One piece of work makes at most three dispatches. *)
Lemma dispatch_recovery_small work w :
  (length (dispatch_attempt_recovery io live work w).1 ≤ 3)%nat
  ∧ xw_sweep (dispatch_attempt_recovery io live work w).2 = xw_sweep w.
Proof.
  unfold dispatch_attempt_recovery. set (granted := match work with WorkResume g _ | WorkReceipt g _ _ => g end).
  pose proof (home_target_keeps_sweep granted w) as S1.
  destruct (recovery_home_target granted w) as [[home|] w1]; [|split; [cbn; lia|done]].
  destruct work as [g claimed|g receipt [control|]]; [| |split; [cbn; lia|done]].
  - pose proof (claim_keeps_sweep g w1) as S2. pose proof (claim_gives g w1) as G.
    destruct (claim io live g w1) as [[[receipts call target|r|r]|] w2]; cbn in *;
      (split; [|congruence]); try lia.
    + specialize (G _ eq_refl). cbn in G. unfold claimed_dispatches. rewrite length_app, length_map, G. done.
    + case_decide; cbn; lia.
  - unfold forward_recovered, live_control_forward_target.
    pose proof (live_target_keeps_sweep g true w1) as S2.
    destruct (live_attempt_target live g true w1) as [[target|] w2]; cbn in *;
      [|split; [lia|congruence]].
    pose proof (function_control_keeps_sweep g control w2) as S3.
    destruct (function_control g control w2) as [[command|] w3]; cbn in *;
      (split; [lia|congruence]).
Qed.

Lemma take_next_sweep w :
  xr_receipts_remaining (xw_sweep w) ≠ 0 → xr_active (xw_sweep w) = true →
  match (take_next_receipt_recovery w).1 with
  | Ok (Some _) => xr_receipts_remaining (xw_sweep (take_next_receipt_recovery w).2)
                   = xr_receipts_remaining (xw_sweep w) - 1
                   ∧ xr_active (xw_sweep (take_next_receipt_recovery w).2) = true
  | Ok None => xr_receipts_remaining (xw_sweep (take_next_receipt_recovery w).2) = 0
  | Err _ => operational (take_next_receipt_recovery w).2 = false
  end.
Proof.
  intros Hr Ha. unfold take_next_receipt_recovery, lock_healthy_state, ensure_operational,
    ensure_healthy, mbind, exM_bind, stateR_bind, gets. destruct (in_healthy _) eqn:Hh; [|done]. cbn.
  rewrite Ha, bool_decide_eq_false_2 by done. cbn. by destruct (List.find _ _).
Qed.

(** A round sends at most 64 messages and makes progress. *)
Lemma sweep_loop_bounded fuel ds w :
  (length ds ≤ 64)%nat → xr_active (xw_sweep w) = true →
  match sweep_loop io live fuel ds w with
  | (Some ds', w') =>
      (length ds' ≤ 64)%nat
      ∧ xr_receipts_remaining (xw_sweep w') ≤ xr_receipts_remaining (xw_sweep w)
      ∧ ((length ds ≤ 61)%nat → xr_receipts_remaining (xw_sweep w) ≠ 0 → (fuel ≠ 0)%nat →
         xr_receipts_remaining (xw_sweep w') < xr_receipts_remaining (xw_sweep w))
  | (None, w') => operational w' = false
  end.
Proof.
  revert ds w. induction fuel as [|fuel IH]; intros ds w Hd Ha; cbn [sweep_loop]; [done|].
  case_decide as Hz; [done|]. case_decide as Hf.
  { split_and!; [done|done|]. unfold MAX_EXECUTOR_RECOVERY_DISPATCHES in Hf. lia. }
  pose proof (take_next_sweep w Hz Ha) as T.
  destruct (take_next_receipt_recovery w) as [[[work|]|] w1]; cbn in T; [|split_and!; [done|lia..]|done].
  destruct T as [T1 T2]. pose proof (dispatch_recovery_small work w1) as [D1 D2].
  destruct (dispatch_attempt_recovery io live work w1) as [more w2]. cbn in D1, D2.
  destruct (operational w2) eqn:Ho2; [|done].
  unfold MAX_EXECUTOR_RECOVERY_DISPATCHES in Hf.
  assert (length (ds ++ more) ≤ 64)%nat as Hl by (rewrite length_app; lia).
  specialize (IH (ds ++ more) w2 Hl ltac:(by rewrite D2)).
  destruct (sweep_loop io live fuel (ds ++ more) w2) as [[ds'|] w3]; [|done].
  destruct IH as (I1 & I2 & _). rewrite D2 in I2. split_and!; [done|lia|]. intros. lia.
Qed.

(** A round: what it sends, and the sweep it leaves. *)
Lemma round_bounded w :
  xr_active (xw_sweep w) = true →
  let (o, w') := ExecServe.continue_recovery_sweep io live w in
  (length (out_dispatches o) ≤ 65)%nat
  ∧ (operational w' = false
     ∨ (xr_active (xw_sweep w') = true ∨ xr_receipts_remaining (xw_sweep w') = 0)
       ∧ (xr_receipts_remaining (xw_sweep w) ≠ 0 →
          xr_receipts_remaining (xw_sweep w') < xr_receipts_remaining (xw_sweep w))
       ∧ xr_receipts_remaining (xw_sweep w') ≤ xr_receipts_remaining (xw_sweep w)).
Proof.
  intros Ha. unfold ExecServe.continue_recovery_sweep.
  destruct (operational w) eqn:Ho; cbn [negb]; [|split; [cbn; lia|by left]].
  pose proof (sweep_loop_bounded (S (N.to_nat (xr_receipts_remaining (xw_sweep w)))) [] w
    ltac:(cbn; lia) Ha) as L.
  destruct (sweep_loop _ _ _ _ w) as [[ds|] w1]; [|split; [cbn; lia|by left]].
  destruct L as (L1 & L2 & L3). cbn zeta. split.
  - match goal with |- context [if ?b then mkOutcome _ _ else _] => destruct b end; cbn; [|lia].
    rewrite length_app. destruct (negb _); cbn; [|lia]. unfold recovery_poke_dispatch.
    destruct (xw_me _); cbn; lia.
  - right. cbn [xw_sweep set_executor_sweep xr_active xr_receipts_remaining]. split_and!.
    + case_bool_decide; [by right|by left].
    + intros Hr. apply L3; [cbn; lia|done|done].
    + done.
Qed.

(** The rounds that the pokes of a sweep ask for. *)
Fixpoint sweep_rounds (n : nat) (w : ExecWorld) : ExecWorld :=
  match n with
  | O => w
  | S n => sweep_rounds n (ExecServe.continue_recovery_sweep io live w).2
  end.

Lemma rounds_stopped n w : operational w = false → operational (sweep_rounds n w) = false.
Proof.
  revert w. induction n as [|n IH]; intros w Ho; [done|]. cbn [sweep_rounds]. apply IH.
  unfold ExecServe.continue_recovery_sweep. by rewrite Ho.
Qed.
Lemma idle_round w :
  xr_receipts_remaining (xw_sweep w) = 0 →
  xr_receipts_remaining (xw_sweep (ExecServe.continue_recovery_sweep io live w).2) = 0.
Proof.
  intros Hz. unfold ExecServe.continue_recovery_sweep. destruct (operational w); [|done]. cbn [negb].
  cbn [sweep_loop]. rewrite decide_True by done. cbn. done.
Qed.
Lemma rounds_idle n w :
  xr_receipts_remaining (xw_sweep w) = 0 → xr_receipts_remaining (xw_sweep (sweep_rounds n w)) = 0.
Proof.
  revert w. induction n as [|n IH]; intros w Hz; [done|]. cbn [sweep_rounds]. by apply IH, idle_round.
Qed.
Lemma rounds_end n w :
  xr_active (xw_sweep w) = true → xr_receipts_remaining (xw_sweep w) ≤ N.of_nat n →
  operational (sweep_rounds n w) = false
  ∨ xr_receipts_remaining (xw_sweep (sweep_rounds n w)) = 0.
Proof.
  revert w. induction n as [|n IH]; intros w Ha Hn; cbn [sweep_rounds]; [right; lia|].
  pose proof (round_bounded w Ha) as B.
  destruct (ExecServe.continue_recovery_sweep io live w) as [o w1]. destruct B as [_ B]. cbn [snd].
  destruct B as [B|([B|B] & P & Q)].
  - left. by apply rounds_stopped.
  - apply IH; [done|]. destruct (decide (xr_receipts_remaining (xw_sweep w) = 0)); [|specialize (P n0)]; lia.
  - right. by apply rounds_idle.
Qed.
End sweep.

(** ** A concrete superseded Home and sweep *)

Module fence_sample.
Import exec_sample crash_sample.
#[local] Existing Instances zero_sha tag_text toy_ed25519 null_serde null_custody
  api_sample.null_messages tag_exec services codec.

(** A grant of an older route than the one that made the first claim. *)
Definition stale : SignedRecordV1 ExecutionGrantV1 :=
  sample_sign SCHEMA_EXECUTE_V1 (sample_epoch_key 1)
    (mkExecutionGrantV1 (mkAttemptId sample_root "j" 2) zero_digest 1 0 "r" "n" "7" sample_root
       sample_genesis sample_function deployment (VInline JNull) AtMostOnce 1 None None).
Definition claim_stale : result ExecutorError ClaimOutcome * ExecWorld := claim io live stale running.
Lemma home_fence_one :
  (f ← es_home_fences (xw_state running) !! sample_root;
   Some (if decide (hf_epoch f = 1 ∧ hf_route_sequence f = 1) then 1 else 0)) = Some 1.
Proof. vm_compute. reflexivity. Qed.
Lemma stale_superseded : superseded (grant_route stale) (xw_state running).
Proof.
  destruct (pending_value _ (fun f => if decide (hf_epoch f = 1 ∧ hf_route_sequence f = 1) then 1 else 0)
    _ home_fence_one) as (f & Hf & E).
  exists f. split; [exact Hf|]. destruct (decide _) as [[E1 E2]|]; [|discriminate E].
  right. rewrite E1, E2. split; [reflexivity|right; reflexivity].
Qed.

(** The sweep of an executor with its two receipts still to send. *)
Definition sweeping : ExecWorld :=
  set_executor_sweep (mkExecutorRecoverySweep 2 2 None true) running.
Definition swept : Outcome * ExecWorld := ExecServe.continue_recovery_sweep io live sweeping.
End fence_sample.

(** ** Properties *)

(** C10: a Home that has been superseded stays out. Over messages, bindings and
    restarts the fence of a Home only moves to later epochs, or to later routes
    of the same epoch and authority; and a grant, a control or a query that was
    behind the fence once is refused from then on, without any effect. *)
Theorem superseded_home_fenced `{!Sha256} `{!JsonText} `{!Ed25519} `{!WireSerde} `{!CustodySerde}
    `{!MessageSerde} `{!ExecSerde} `{!ExecutorServices} `{!AuthorityEncodes} `{!ExecutorCodec}
    `{!JournalDecode ExecutorLedgerRecord} `{!CallsDecode} (w w' : ExecWorld) (A : alive w)
    (L : later w w') :
  fences_advance (xw_state w) (xw_state w')
  ∧ (∀ io live granted, superseded (grant_route granted) (xw_state w) →
       refuses (claim io live granted) w')
  ∧ (∀ io attempt request, superseded (control_route request) (xw_state w) →
       refuses (record_control_queued io attempt request) w')
  ∧ ∀ io request, superseded (query_route request) (xw_state w) → refuses (query io request) w'.
Proof.
  apply alive_ok in A as Hw. destruct (later_ok w w' L Hw) as [Hw' P].
  pose proof (prefix_fences w w' Hw Hw' P) as F. split_and!; [done|..]; intros.
  - apply claim_superseded. by eapply superseded_later.
  - apply control_superseded. by eapply superseded_later.
  - apply query_superseded. by eapply superseded_later.
Qed.
Lemma superseded_home_fenced_witness :
  ∃ e, fence_sample.claim_stale = (Err e, crash_sample.running).
Proof.
  destruct (@superseded_home_fenced zero_sha crash_sample.tag_text toy_ed25519 null_serde null_custody
    api_sample.null_messages crash_sample.tag_exec exec_sample.services crash_sample.authority_encodes
    exec_sample.codec crash_sample.decode once_sample.calls_decode crash_sample.running
    crash_sample.running crash_sample.running_alive (later_refl _)) as (_ & C & _).
  exact (C exec_sample.io exec_sample.live fence_sample.stale fence_sample.stale_superseded).
Defined.

